(* ===== verification/_CoqProject ===== *)
-Q . S2P
Prelude.v
GoStrings.v
GoTime.v
GoFloat.v
GoURL.v
Cron.v
Version.v
SpecTypes.v
SpecUnits.v
SpecNames.v
SpecValidate.v
SpecRedirects.v
SpecValid.v
SpecPaths.v
SpecMulti.v
Crypto.v
SpecReferences.v
DeployState.v
Store.v
StoreInv.v
Schedule.v
Effects.v
Rollout.v
Supervisor.v
SupervisorInv.v
Routing.v
RoutingInv.v
GoNetip.v
Dns.v
DnsInv.v
Locks.v
LocksInv.v
RolloutInv.v
RolloutSafe.v
ResumeInv.v
Recovery.v
RecoveryInv.v
Static.v
StaticInv.v
StaticSafe.v
Settle.v
SettleInv.v
Promotion.v
PromotionInv.v
Roles.v
RolesInv.v
Accounts.v
AccountsInv.v
Access.v
AccessInv.v
Backupfile.v
BackupfileInv.v
BackupStore.v
BackupStoreInv.v
Backups.v
BackupsInv.v
Rotation.v
RotationInv.v
Containers.v
ContainersInv.v
Jobs.v
JobsInv.v
Alerts.v
AlertsInv.v
Secrets.v
SecretsInv.v
Operations.v
OperationsInv.v
Oidc.v
OidcInv.v
