(* ===== verification/Prelude.v ===== *)
(** * Shipwick: a verification development

    Shipwick is an agent that runs applications on one server: it takes a
    deploy.yaml, rolls its containers out behind a reverse proxy, keeps them
    running, and records what happened in a database.  This library models the
    part of its Go source that decides something, file by file, and proves what
    those decisions promise.

    ** The program and the files that model it

    What an application is (src/pkg/spec).  A deploy.yaml is decoded by a YAML
    library and validated into an [App].  [SpecTypes] is the data, [SpecNames]
    the predicates of names, hostnames and paths, [SpecUnits] sizes and
    durations, [SpecValidate] the validators in the source's order, [SpecMulti]
    a shipwick.yaml of several applications, [SpecReferences] the references to
    secrets.  [SpecValid], [SpecPaths] and [SpecRedirects] prove what holders of
    an [App] may take for granted.  [Cron] (src/pkg/cron) reads schedules and
    finds their next firing, [Version] (src/pkg/version) orders versions.

    What is stored (src/agent/internal/store).  [Store] is the tables of
    applications, deployments, replicas and events with a function per SQL
    transaction; [StoreInv] its steps and invariant.  [Crypto] seals the secret
    values of a stored specification.

    Who may do what (src/agent/internal/api, src/pkg/api, store/access.go,
    store/tokens.go).  [Roles] is the order of roles, what limits a
    caller, and what the rules give a person; [Accounts] the tables of tokens,
    rules and sessions with the handlers that manage them; [Access] a request
    from the connection to its handler, with the table of all routes; [Oidc]
    (src/agent/internal/oidc) the provider people sign in with.

    How a version becomes the one that runs (src/agent/internal/deploy).
    [DeployState] is the state machine of state.go; [Rollout] is rollout.go with
    the parts of engine.go, drain.go and resume.go it uses: batches, swaps,
    health, the commit, the failure paths; [Static] is static.go and the dormant
    rollout of standby.go; [Settle] is settle.go, how an ended rollout is
    recorded when the database refuses; [Promotion] is promotion.go;
    [Locks] is the locking of engine.go that every operation goes through.

    What runs by itself (same directory).  [Supervisor] is supervisor.go's tick;
    [Recovery] is Recover of operations.go with resume.go; [Schedule] is the
    tickers of schedule.go, backups.go, jobs.go and standby.go; [Routing] is
    routing.go and the Route of src/agent/internal/proxy/config.go; [Dns] is
    dns.go with src/pkg/cloudflare. [Alerts] is
    alerts.go, outage.go and notify.go: what is told, and when.

    What users ask for besides (same directory).  [Operations] is operations.go,
    the beginning of a deployment in engine.go, and the pruning of images;
    [Secrets] is secrets.go here and in the store; [Containers] is what a
    container is made from, down to the configuration Docker is asked for
    (container.go, publish.go, src/agent/internal/docker); [Jobs] is jobs.go, the
    pre-deploy hook and commands; [BackupStore] is the table of backups,
    [Backups] is backups.go with backups_before.go, backups_adopt.go and
    volumes.go, [Backupfile] the encrypted format (src/pkg/backupfile).
    [Rotation] is the encryption key: rotation.go, crypto.go and what
    src/agent/internal/config does to find it.

    Each of these has a file of the same stem ending in Inv or Safe with its
    theorems; [GoStrings], [GoTime], [GoFloat], [GoURL] and [GoNetip] are what the
    source uses of Go's standard library; this file holds what all share.

    ** How the parts meet

    An operation of the API takes the application's lock (Locks), records a
    deployment (Store), and runs a rollout (Rollout, Static) that moves the
    record through DeployState's transitions, asks Routing to tell the proxy and
    hands old containers to a drain; its end is written by Settle.  The
    supervisor takes the same lock without waiting and leaves applications with
    an operation in progress alone.  After a restart Recovery takes up what was
    in flight by handing it back to Rollout.

    Stateful code is a function on its state and on the trace of the calls it
    made (Effects.v).  What a part calls and does not own is a constructor of its
    type of calls with the type of the answer; the world answers as it likes, as
    a function of all that happened before, unless a theorem says otherwise.  So
    Docker, the proxy, the clock, the network, a full disk and an agent that is
    shutting down are all answers.  What goroutines share is modelled as steps
    that any of them may take next (Locks, Jobs, Dns, the guesses of Access,
    Settle's others).  Names are the source's.  A definition without a counterpart in
    the source is a piece of one function, given a name so that a theorem can
    speak of it; the manifest says which lines it is.

    ** What is shown

    - Rollouts: a rolling update of a running application keeps serving
      throughout ([RolloutSafe]); what a resumed rollout takes over existed and
      what it removes the store has no record of ([ResumeInv]); a folder is routed only once
      it is whole ([StaticSafe]); a dormant deployment of containers starts nothing
      ([StaticInv]).
    - Records: one ACTIVE deployment per application, immutable records, commits
      that promote exactly one ([StoreInv]); the only way to ACTIVE is the whole
      way ([DeployState]); ends are recorded or kept, never lost ([SettleInv]).
    - Concurrency and restarts: locks exclude, no wake-up is lost, no channel is
      closed twice ([LocksInv]); an agent that starts decides about everything
      it finds in flight ([RecoveryInv]); promotions are carried on however often
      the agent is cut off ([PromotionInv]).
    - Supervision, routing, DNS, schedules: restarts are paced by the backoff of
      their run ([SupervisorInv]); no part of a hostname is routed twice and what
      was accepted is served ([RoutingInv]); what the gate says of a hostname is the
      verdict recorded last, and every good one is a certificate's, the DNS
      challenge's or a resolver's ([DnsInv]); every firing minute starts its job once ([Schedule]).
    - Documents: what validation accepts is free of the conflicts the rest of
      the program never checks for again ([SpecValid], [SpecPaths],
      [SpecRedirects], [SpecMulti]); sizes and sealed values round-trip
      ([SpecUnits], [Crypto]); [Cron.Next] is the first firing and always found.
    - Operations: what begins has passed the checks under the lock and is
      recorded, a redeploy is of what is ACTIVE, a rollback of something
      SUPERSEDED; stopping, deleting and pruning happen in the order that keeps
      them safe ([OperationsInv]); a document's references are filled in or
      reported, each with its own secret ([SecretsInv]).
    - Rights: a handler runs only for a caller whose role and limits cover the
      route, guesses are limited however requests interleave (those past the limiter
      when it closes still count), sessions vouched for ([AccessInv],
      [AccountsInv], [RolesInv]); an ID token is believed only if it is the
      provider's, and the client secret goes nowhere else ([OidcInv]); no container is given more than an application
      may have ([ContainersInv]).
    - Backups and keys: a backup ends and restarts what it stopped, retention
      keeps what it should and what was in use when it was listed, a restore touches a stopped application only
      ([BackupsInv], [BackupStoreInv]); what was written is read back whole, and
      nothing else is ([BackupfileInv]); one key opens every value whatever cuts
      a rotation off, provided each begins with the key every value is under ([RotationInv]).
    - Jobs and alerts: every interleaving of the parts of runs, a restart
      included, keeps the account of who runs what; Docker is asked to stop, read and remove a run
      under a context that began with the wait, so a long run is left behind
      ([JobsInv]); the notifications
      are those of an abstract book ([AlertsInv]), each problem once and its end
      once for ticks whose two readings of the replicas' health agree; the findings
      say what happens when a probe comes in between.

    ** Bounds and fuel

    Recursion follows the data where it can.  [Cron.Next] steps through the
    eight years its source allows, and its theorem shows the bound to be enough; the range
    loop of a cron field runs with 64-bit wrap-around and a proved bound;
    [SpecMulti]'s depth-first search has as much fuel as there are applications,
    proved enough; [GoFloat.parse_sum] has the length of its input.  Waiting
    loops of a rollout ([polls]) end with the deadline the source gives them: the
    number of wake-ups is an argument, and no theorem assumes it large.
    [int64] and [time.Duration] are integers with their wrap-around, saturation
    or overflow check where the source's result depends on it.

    ** Not modelled

    Code that only moves bytes or asks another program: the Docker client
    (src/agent/internal/docker, but for the configuration of a container), the
    rendering of routes as Caddy's JSON (the rest of src/agent/internal/proxy),
    object storage (src/agent/internal/backup), the HTTP handlers' encoding of
    requests and answers, the CLI's terminal output, the dashboard and the
    scripts.  Third-party code is never given a definition: the YAML decoder, the
    image reference parser, the AEAD, SQLite and Docker are parameters or calls.
    Not modelled, though it decides something: the exports and imports of whole
    servers (import.go, export.go), the log archive and its search, traffic
    statistics and metrics, what the certificates of a hostname are doing.

    Two simplifications hold throughout.  Work that the source does side by side
    on the items of a list and then waits for (stopping or retiring the containers
    of an application, but not looking up hostnames) is done one item after another.
    And a piece of code that holds a mutex from its first line to its last is one
    step, while everything that gives way to others, a database statement or a
    call, is a step of its own wherever a theorem speaks of what others do. *)

From Stdlib Require Export ZArith Lia Bool.
From stdpp Require Export base strings list gmap.

(** ** Errors

    A Go function that returns [(T, error)] is a function into [result T];
    the value next to a non-nil error is never read by its callers and is
    dropped.  A message is kept as the format verbs the source hands to
    [fmt]: the literal pieces and, unrendered, the values put in between. *)

Inductive frag :=
  | L (s : string)        (** literal text *)
  | Q (s : string)        (** %q *)
  | S' (s : string)       (** %s, %v of a string *)
  | D (n : Z).            (** %d *)

Abbreviation text := (list frag).

Inductive result (A : Type) :=
  | Ok (a : A)
  | Err (e : text).
Arguments Ok {A} a.
Arguments Err {A} e.

Definition rbind {A B} (r : result A) (f : A → result B) : result B :=
  match r with Ok a => f a | Err e => Err e end.

Declare Scope go_scope.
Delimit Scope go_scope with go.
Notation "'do!' x ':=' r 'in' k" := (rbind r (λ x, k))
  (at level 10, x pattern, r at level 100, k at level 200) : go_scope.
Open Scope go_scope.

Definition is_ok {A} (r : result A) : bool := match r with Ok _ => true | Err _ => false end.

#[export] Instance frag_eq_dec : EqDecision frag.
Proof. solve_decision. Defined.
#[export] Instance result_eq_dec {A} `{EqDecision A} : EqDecision (result A).
Proof. solve_decision. Defined.

Lemma rbind_ok {A B} (r : result A) (f : A → result B) b :
  rbind r f = Ok b → ∃ a, r = Ok a ∧ f a = Ok b.
Proof. destruct r; simpl; [eauto | done]. Qed.

(** Splits every hypothesis that says a sequence of calls succeeded. *)
Ltac inv_ok :=
  repeat match goal with
  | H : Ok _ = Ok _ |- _ => injection H as H; subst
  | H : Err _ = Ok _ |- _ => discriminate H
  | H : Ok _ = Err _ |- _ => discriminate H
  | H : rbind _ _ = Ok _ |- _ =>
      let a := fresh "a" in let Ha := fresh "Ha" in
      apply rbind_ok in H as (a & Ha & H)
  end.

(** Case analysis on the boolean tests and matches of a Go body. *)
Ltac case_tests :=
  repeat (case_match; try discriminate; simplify_eq/=).

Ltac bools :=
  repeat match goal with
  | H : (_ && _)%bool = true |- _ => apply andb_true_iff in H as [? ?]
  | H : (_ || _)%bool = false |- _ => apply orb_false_iff in H as [? ?]
  | H : negb _ = true |- _ => apply negb_true_iff in H
  | H : negb _ = false |- _ => apply negb_false_iff in H
  end.

(** [lia] with division and modulus by constants. *)
Ltac dlia := Z.div_mod_to_equations; lia.

(** ** Machine integers

    Go's [int] and [int64] are 64 bits wide on every platform Shipwick is
    built for. *)

Definition max_int64 : Z := 2 ^ 63 - 1.
Definition min_int64 : Z := - 2 ^ 63.
Definition wrap64 (z : Z) : Z := (z + 2 ^ 63) mod 2 ^ 64 - 2 ^ 63.

Lemma wrap64_id z : (min_int64 ≤ z ≤ max_int64)%Z → wrap64 z = z.
Proof. unfold wrap64, min_int64, max_int64. intros H. rewrite Z.mod_small; lia. Qed.

Lemma wrap64_range z : (min_int64 ≤ wrap64 z ≤ max_int64)%Z.
Proof.
  unfold wrap64, min_int64, max_int64.
  pose proof (Z.mod_pos_bound (z + 2 ^ 63) (2 ^ 64)). lia.
Qed.

Definition in_int64 (z : Z) : bool := ((min_int64 <=? z) && (z <=? max_int64))%Z.

(** ** Loops

    [run p f a] performs at most [p] rounds of the loop body [f], which says
    either how to go on ([inl]) or what the loop returns ([inr]).  The bound
    is binary, so that a generous one costs nothing to write down. *)

Section Run.
Context {A B : Type} (f : A → A + B).

Fixpoint run (p : positive) (a : A) : A + B :=
  match p with
  | xH => f a
  | xO q => match run q a with inl a' => run q a' | inr b => inr b end
  | xI q => match f a with
            | inl a' => match run q a' with inl a'' => run q a'' | inr b => inr b end
            | inr b => inr b
            end
  end.

(** What one round preserves, the whole run preserves. *)
Lemma run_inv (I : A → Prop) (R : B → Prop) :
  (∀ a a', I a → f a = inl a' → I a') → (∀ a b, I a → f a = inr b → R b) →
  ∀ p a, I a → match run p a with inl a' => I a' | inr b => R b end.
Proof.
  intros Hl Hr p. induction p as [q IH|q IH|]; intros a Ha; simpl.
  - destruct (f a) as [a1|b] eqn:E; [|by eapply Hr].
    specialize (IH a1 (Hl _ _ Ha E)) as IH1.
    destruct (run q a1) as [a2|b]; [by apply IH | done].
  - specialize (IH a Ha) as IH1. destruct (run q a) as [a1|b]; [by apply IH | done].
  - destruct (f a) eqn:E; eauto.
Qed.

Lemma run_returns (I : A → Prop) (R : B → Prop) :
  (∀ a a', I a → f a = inl a' → I a') → (∀ a b, I a → f a = inr b → R b) →
  ∀ p a b, I a → run p a = inr b → R b.
Proof. intros Hl Hr p a b Ha E. pose proof (run_inv I R Hl Hr p a Ha) as H. by rewrite E in H. Qed.

(** A round that is not the last makes the measure smaller, so a bound above
    the measure is enough for the loop to finish. *)
Lemma run_decreases (I : A → Prop) (m : A → Z) :
  (∀ a a', I a → f a = inl a' → I a' ∧ (m a' < m a)%Z) →
  ∀ p a a', I a → run p a = inl a' → I a' ∧ (m a' + Z.pos p <= m a)%Z.
Proof.
  intros Hd p. induction p as [q IH|q IH|]; intros a a' Ha Hr; simpl in Hr.
  - destruct (f a) as [a1|b] eqn:E; [|done]. apply Hd in E as [? ?]; [|done].
    destruct (run q a1) as [a2|b] eqn:E1; [|done].
    apply IH in E1 as [? ?]; [|done]. apply IH in Hr as [? ?]; [|done]. split; [done|lia].
  - destruct (run q a) as [a2|b] eqn:E1; [|done].
    apply IH in E1 as [? ?]; [|done]. apply IH in Hr as [? ?]; [|done]. split; [done|lia].
  - apply Hd in Hr as [? ?]; [|done]. split; [done|lia].
Qed.

Lemma run_finishes (I : A → Prop) (m : A → Z) p a :
  (∀ a a', I a → f a = inl a' → I a' ∧ (m a' < m a)%Z) →
  (∀ a, I a → 0 ≤ m a)%Z → I a → (m a < Z.pos p)%Z →
  ∃ b, run p a = inr b.
Proof.
  intros Hd Hm Ha Hp. destruct (run p a) as [a'|b] eqn:E; [|eauto].
  eapply run_decreases in E as [HI ?]; [|done..]. specialize (Hm _ HI). lia.
Qed.
End Run.

(** ** Lists *)

Section ListFacts.
Context {A : Type}.

Lemma forallb_Forall (f : A → bool) l : forallb f l = true ↔ Forall (λ x, f x = true) l.
Proof.
  rewrite Forall_forall, forallb_forall. by setoid_rewrite list_elem_of_In.
Qed.

Lemma existsb_true (f : A → bool) l : existsb f l = true ↔ ∃ x, x ∈ l ∧ f x = true.
Proof.
  rewrite existsb_exists. by setoid_rewrite list_elem_of_In.
Qed.
End ListFacts.

(** A filter that keeps all, and one that keeps nothing. *)
Lemma filter_all {A} (P : A → Prop) `{∀ x, Decision (P x)} (l : list A) : (∀ x, x ∈ l → P x) → filter P l = l.
Proof. intros H0. induction l as [|x l IH]; [done|]. rewrite filter_cons, decide_True by (apply H0; by left). f_equal. apply IH. intros y Hy. apply H0. by right. Qed.
Lemma filter_none {A} (P : A → Prop) `{∀ x, Decision (P x)} (l : list A) : (∀ x, x ∈ l → ¬ P x) → filter P l = [].
Proof. intros H0. induction l as [|x l IH]; [done|]. rewrite filter_cons, decide_False by (apply H0; by left). apply IH. intros y Hy. apply H0. by right. Qed.

(** Membership as [slices.Contains] tests it. *)
Definition contains {A} `{EqDecision A} (l : list A) (x : A) : bool := bool_decide (x ∈ l).

Lemma contains_spec {A} `{EqDecision A} (l : list A) x : contains l x = true ↔ x ∈ l.
Proof. apply bool_decide_eq_true. Qed.

(** The integers lo, lo+1, …, hi. *)
Fixpoint zcount (n : nat) (lo : Z) : list Z :=
  match n with O => [] | S n => lo :: zcount n (lo + 1)%Z end.
Definition zrange (lo hi : Z) : list Z := zcount (Z.to_nat (hi - lo + 1)) lo.

Lemma elem_of_zcount n lo x : x ∈ zcount n lo ↔ (lo ≤ x < lo + Z.of_nat n)%Z.
Proof.
  revert lo. induction n as [|n IH]; intros lo; simpl.
  - rewrite elem_of_nil. lia.
  - rewrite elem_of_cons, IH. lia.
Qed.

Lemma length_zcount n lo : length (zcount n lo) = n.
Proof. revert lo. induction n as [|n IH]; intros lo; simpl; [done|]. by rewrite IH. Qed.
Lemma elem_of_zrange lo hi x : x ∈ zrange lo hi ↔ (lo ≤ x ≤ hi)%Z.
Proof. unfold zrange. rewrite elem_of_zcount. lia. Qed.

Lemma NoDup_zrange lo hi : NoDup (zrange lo hi).
Proof.
  unfold zrange. generalize (Z.to_nat (hi - lo + 1)). intros n. revert lo. induction n as [|n IH]; intros lo; simpl; constructor; [|apply IH].
  rewrite elem_of_zcount. lia.
Qed.

(** A boolean test that holds throughout a finite range, by evaluation. *)
Lemma forallb_zrange (f : Z → bool) lo hi :
  forallb f (zrange lo hi) = true → ∀ x, (lo ≤ x ≤ hi)%Z → f x = true.
Proof.
  rewrite forallb_Forall, Forall_forall. intros H x Hx. apply H. by rewrite elem_of_zrange.
Qed.

Create HintDb shipwick discriminated.
Create Rewrite HintDb shipwick_rw.
#[export] Hint Resolve wrap64_range : shipwick.
#[export] Hint Rewrite @contains_spec @elem_of_zrange : shipwick_rw.
