(* ===== verification/GoStrings.v ===== *)
(** * Go strings

    What the source uses of Go's [strings] and [strconv], on byte strings: a
    Go string is a sequence of bytes and so is [string] here.

    White space is Go's, the non-ASCII runes of [unicode.IsSpace] included,
    each recognised by its UTF-8 bytes.  Case mapping is exact on every rune
    whose image is ASCII (the letters, and the four runes outside ASCII whose
    lower or upper case lies in it); a rune outside ASCII whose image is
    outside ASCII is left as it is. *)

From S2P Require Import Prelude.
From Stdlib Require Import Ascii String.
Local Open Scope string_scope.
#[global] Arguments String.append !_ _ : simpl nomatch.

Definition code (c : ascii) : N := N_of_ascii c.
Definition chr (n : N) : ascii := ascii_of_N n.

Definition in_range (lo hi : N) (c : ascii) : bool := ((lo <=? code c) && (code c <=? hi))%N.
Definition is_digit : ascii → bool := in_range 48 57.
Definition is_lower : ascii → bool := in_range 97 122.
Definition is_upper : ascii → bool := in_range 65 90.
Definition is_letter (c : ascii) : bool := is_lower c || is_upper c.
Definition is_control (c : ascii) : bool := ((code c <? 32) || (code c =? 127))%N.

Fixpoint str_forall (f : ascii → bool) (s : string) : bool :=
  match s with "" => true | String c r => f c && str_forall f r end.
Fixpoint str_exists (f : ascii → bool) (s : string) : bool :=
  match s with "" => false | String c r => f c || str_exists f r end.

Definition slen (s : string) : Z := Z.of_nat (String.length s).

(** strings.ContainsAny with single-byte characters, ContainsRune, Contains
    of a one-byte string. *)
Definition contains_any (set : list ascii) (s : string) : bool :=
  str_exists (λ c, contains set c) s.
Definition contains_char (c : ascii) (s : string) : bool := contains_any [c] s.

Fixpoint has_prefix (p s : string) : bool :=
  match p, s with
  | "", _ => true
  | String a p', String b s' => Ascii.eqb a b && has_prefix p' s'
  | _, "" => false
  end.

(** strings.CutPrefix; TrimPrefix is the same without the report. *)
Fixpoint cut_prefix (p s : string) : option string :=
  match p, s with
  | "", _ => Some s
  | String a p', String b s' => if Ascii.eqb a b then cut_prefix p' s' else None
  | _, "" => None
  end.
Definition trim_prefix (p s : string) : string := default s (cut_prefix p s).

Fixpoint cut_suffix (p s : string) : option string :=
  if String.eqb s p then Some ""
  else match s with "" => None | String c r => String c <$> cut_suffix p r end.
Definition trim_suffix (p s : string) : string := default s (cut_suffix p s).
Definition has_suffix (p s : string) : bool := bool_decide (is_Some (cut_suffix p s)).

(** strings.Cut around a one-byte separator: before, after, found. *)
Fixpoint cut (sep : ascii) (s : string) : string * string * bool :=
  match s with
  | "" => ("", "", false)
  | String c r =>
      if Ascii.eqb c sep then ("", r, true)
      else let '(b, a, found) := cut sep r in (String c b, a, found)
  end.

(** strings.Split by a one-byte separator: never empty. *)
Fixpoint split (sep : ascii) (s : string) : list string :=
  match s with
  | "" => [""]
  | String c r =>
      match split sep r with
      | h :: t => if Ascii.eqb c sep then "" :: h :: t else String c h :: t
      | [] => []
      end
  end.

Fixpoint join (sep : string) (l : list string) : string :=
  match l with [] => "" | [x] => x | x :: r => x ++ sep ++ join sep r end.

(** ** White space *)

Definition space1 (a : ascii) : bool := (((9 <=? code a) && (code a <=? 13)) || (code a =? 32))%N.
Definition space2 (a b : ascii) : bool :=
  ((code a =? 194) && ((code b =? 133) || (code b =? 160)))%N.
Definition space3 (a b c : ascii) : bool :=
  (((code a =? 225) && (code b =? 154) && (code c =? 128))
   || ((code a =? 226) && (code b =? 128)
       && (((128 <=? code c) && (code c <=? 138)) || (code c =? 168) || (code c =? 169) || (code c =? 175)))
   || ((code a =? 226) && (code b =? 129) && (code c =? 159))
   || ((code a =? 227) && (code b =? 128) && (code c =? 128)))%N.

Fixpoint trim_left (s : string) : string :=
  match s with
  | String a r1 =>
      if space1 a then trim_left r1
      else match r1 with
           | String b r2 =>
               if space2 a b then trim_left r2
               else match r2 with
                    | String c r3 => if space3 a b c then trim_left r3 else s
                    | "" => s
                    end
           | "" => s
           end
  | "" => ""
  end.

Fixpoint trim_right (s : string) : string :=
  if String.eqb (trim_left s) "" then ""
  else match s with "" => "" | String c r => String c (trim_right r) end.

Definition trim_space (s : string) : string := trim_right (trim_left s).

(** strings.Fields: the runs of bytes between white space. *)
Definition push (w : string) (l : list string) : list string := if String.eqb w "" then l else w :: l.

Fixpoint fields_from (w : string) (s : string) : list string :=
  match s with
  | String a r1 =>
      if space1 a then push w (fields_from "" r1)
      else match r1 with
           | String b r2 =>
               if space2 a b then push w (fields_from "" r2)
               else match r2 with
                    | String c r3 =>
                        if space3 a b c then push w (fields_from "" r3)
                        else fields_from (w ++ String a "") r1
                    | "" => fields_from (w ++ String a "") r1
                    end
           | "" => fields_from (w ++ String a "") r1
           end
  | "" => push w []
  end.
Definition fields (s : string) : list string := fields_from "" s.

(** ** Case *)

Definition lower1 (c : ascii) : ascii := if is_upper c then chr (code c + 32) else c.
Definition upper1 (c : ascii) : ascii := if is_lower c then chr (code c - 32) else c.

(** U+212A (the Kelvin sign) lowers to k and U+0130 to i. *)
Fixpoint to_lower (s : string) : string :=
  match s with
  | String a r1 =>
      match r1 with
      | String b r2 =>
          if ((code a =? 196) && (code b =? 176))%N then String "i" (to_lower r2)
          else match r2 with
               | String c r3 =>
                   if ((code a =? 226) && (code b =? 132) && (code c =? 170))%N
                   then String "k" (to_lower r3)
                   else String (lower1 a) (to_lower r1)
               | "" => String (lower1 a) (to_lower r1)
               end
      | "" => String (lower1 a) ""
      end
  | "" => ""
  end.

(** U+0131 raises to I and U+017F to S. *)
Fixpoint to_upper (s : string) : string :=
  match s with
  | String a r1 =>
      match r1 with
      | String b r2 =>
          if ((code a =? 196) && (code b =? 177))%N then String "I" (to_upper r2)
          else if ((code a =? 197) && (code b =? 191))%N then String "S" (to_upper r2)
          else String (upper1 a) (to_upper r1)
      | "" => String (upper1 a) ""
      end
  | "" => ""
  end.

(** strings.EqualFold of an ASCII lower-case name with any text: U+212A folds
    with k and U+017F with s. *)
Fixpoint fold_text (s : string) : string :=
  match s with
  | String a r1 =>
      match r1 with
      | String b r2 =>
          if ((code a =? 197) && (code b =? 191))%N then String "s" (fold_text r2)
          else match r2 with
               | String c r3 =>
                   if ((code a =? 226) && (code b =? 132) && (code c =? 170))%N
                   then String "k" (fold_text r3)
                   else String (lower1 a) (fold_text r1)
               | "" => String (lower1 a) (fold_text r1)
               end
      | "" => String (lower1 a) ""
      end
  | "" => ""
  end.
Definition equal_fold (name text : string) : bool := String.eqb name (fold_text text).

(** ** Numbers *)

Fixpoint digits_value (acc : Z) (s : string) : option Z :=
  match s with
  | "" => Some acc
  | String c r => if is_digit c then digits_value (10 * acc + Z.of_N (code c - 48))%Z r else None
  end.

(** strconv.ParseUint base 10 without a width; None is a syntax error. *)
Definition parse_digits (s : string) : option Z :=
  if String.eqb s "" then None else digits_value 0 s.

(** strconv.Atoi: an optional sign, decimal digits, within 64 bits. *)
Definition atoi (s : string) : option Z :=
  let '(neg, body) := match s with
                      | String c r => if Ascii.eqb c "-" then (true, r)
                                      else if Ascii.eqb c "+" then (false, r) else (false, s)
                      | "" => (false, "")
                      end in
  n ← parse_digits body;
  let v := if neg : bool then (- n)%Z else n in
  if in_int64 v then Some v else None.

(** strconv.Itoa, FormatInt base 10: a 64-bit integer has at most 19 digits. *)
Fixpoint digits_of (fuel : nat) (n : Z) (acc : string) : string :=
  match fuel with
  | O => acc
  | S f =>
      let acc := String (chr (Z.to_N (n mod 10) + 48)) acc in
      if (n / 10 =? 0)%Z then acc else digits_of f (n / 10)%Z acc
  end.
Definition itoa (n : Z) : string :=
  if (n <? 0)%Z then String "-" (digits_of 20 (- n) "") else digits_of 20 n "".

(** ** Order: strings.Compare, the byte-wise lexicographic order. *)
Fixpoint str_compare (a b : string) : Z :=
  match a, b with
  | "", "" => 0
  | "", _ => -1
  | _, "" => 1
  | String x a', String y b' =>
      if Ascii.eqb x y then str_compare a' b'
      else if (code x <? code y)%N then -1 else 1
  end%Z.

(** ** Lemmas *)

Lemma has_prefix_cut p s : has_prefix p s = bool_decide (is_Some (cut_prefix p s)).
Proof.
  revert s. induction p as [|a p IH]; intros [|b s]; simpl; try done.
  destruct (Ascii.eqb a b); simpl; [apply IH | done].
Qed.

Lemma cut_prefix_app p s : cut_prefix p (p ++ s) = Some s.
Proof. induction p as [|a p IH]; simpl; [done|]. by rewrite Ascii.eqb_refl. Qed.

Lemma cut_prefix_Some p s r : cut_prefix p s = Some r ↔ s = p ++ r.
Proof.
  split; [|intros ->; apply cut_prefix_app].
  revert s. induction p as [|a p IH]; intros [|b s] H; simpl in *; simplify_eq; try done.
  destruct (Ascii.eqb_spec a b) as [->|]; [|done]. by rewrite (IH _ H).
Qed.

Lemma str_forall_app f a b : str_forall f (a ++ b) = str_forall f a && str_forall f b.
Proof. induction a as [|c a IH]; simpl; [done|]. by rewrite IH, andb_assoc. Qed.

Lemma str_compare_antisym a b : str_compare b a = (- str_compare a b)%Z.
Proof.
  revert b. induction a as [|x a IH]; intros [|y b]; simpl; try done.
  rewrite (Ascii.eqb_sym y x). destruct (Ascii.eqb_spec x y) as [->|Hne]; [apply IH|].
  unfold code.
  destruct (N.ltb_spec (N_of_ascii x) (N_of_ascii y)), (N.ltb_spec (N_of_ascii y) (N_of_ascii x)); try lia.
  exfalso. apply Hne. rewrite <- (ascii_N_embedding x), <- (ascii_N_embedding y). f_equal. lia.
Qed.

Lemma str_compare_eq a b : str_compare a b = 0%Z ↔ a = b.
Proof.
  split; [|intros ->; induction b as [|y b IH]; simpl; [done|]; by rewrite Ascii.eqb_refl].
  revert b. induction a as [|x a IH]; intros [|y b]; simpl; try done.
  destruct (Ascii.eqb_spec x y) as [->|]; [intros H; f_equal; by apply IH|].
  by destruct (_ <? _)%N.
Qed.

Lemma str_compare_range a b : (-1 ≤ str_compare a b ≤ 1)%Z.
Proof.
  revert b. induction a as [|x a IH]; intros [|y b]; simpl; try lia.
  destruct (Ascii.eqb x y); [apply IH|]. destruct (_ <? _)%N; lia.
Qed.

(** Strictly below is transitive; with totality and antisymmetry above, the
    order is a total one. *)
Lemma str_compare_trans a b c :
  (str_compare a b ≤ 0 → str_compare b c ≤ 0 → str_compare a c ≤ 0)%Z.
Proof.
  revert b c. induction a as [|x a IH]; intros [|y b] [|z c]; simpl; try lia.
  destruct (Ascii.eqb_spec x y) as [->|Hxy], (Ascii.eqb_spec y z) as [->|Hyz].
  - apply IH.
  - destruct (_ <? _)%N; lia.
  - destruct (Ascii.eqb_spec x z); [done|]. destruct (_ <? _)%N; lia.
  - unfold code. destruct (N.ltb_spec (N_of_ascii x) (N_of_ascii y)); [|lia].
    destruct (N.ltb_spec (N_of_ascii y) (N_of_ascii z)); [|lia].
    destruct (Ascii.eqb_spec x z) as [->|]; [lia|].
    destruct (N.ltb_spec (N_of_ascii x) (N_of_ascii z)); lia.
Qed.

#[export] Hint Resolve str_compare_range : shipwick.

(** ** Decimal numbers *)

Lemma code_chr n : (n < 256)%N → code (chr n) = n.
Proof. apply N_ascii_embedding. Qed.

Lemma digit_code n : (0 ≤ n)%Z →
  code (chr (Z.to_N (n mod 10) + 48)) = (Z.to_N (n mod 10) + 48)%N.
Proof. intros H. apply code_chr. pose proof (Z.mod_pos_bound n 10). lia. Qed.

Lemma is_digit_chr n : (0 ≤ n)%Z → is_digit (chr (Z.to_N (n mod 10) + 48)) = true.
Proof.
  intros H. unfold is_digit, in_range. rewrite digit_code by done.
  pose proof (Z.mod_pos_bound n 10). apply andb_true_iff. rewrite !N.leb_le. lia.
Qed.

Lemma digits_of_digits fuel : ∀ n acc, (0 ≤ n)%Z →
  str_forall is_digit acc = true → str_forall is_digit (digits_of fuel n acc) = true.
Proof.
  induction fuel as [|f IH]; intros n acc Hn Ha; [done|]. cbn [digits_of].
  assert (str_forall is_digit (String (chr (Z.to_N (n mod 10) + 48)) acc) = true) as Hs
    by (cbn [str_forall]; by rewrite is_digit_chr, Ha).
  destruct (_ =? _)%Z; [done|]. apply IH; [apply Z.div_pos; lia|done].
Qed.

Lemma digits_of_value fuel : ∀ n acc k, (0 ≤ n < 10 ^ Z.of_nat fuel)%Z → (0 < fuel)%nat →
  ∃ j, (0 ≤ j)%Z ∧ digits_value k (digits_of fuel n acc) = digits_value (k * 10 ^ j + n)%Z acc.
Proof.
  induction fuel as [|f IH]; intros n acc k Hn Hf; [lia|]. cbn [digits_of].
  assert (∀ k, digits_value k (String (chr (Z.to_N (n mod 10) + 48)) acc)
               = digits_value (10 * k + n mod 10)%Z acc) as Hd.
  { intros k'. cbn [digits_value]. rewrite is_digit_chr, digit_code by lia. f_equal.
    pose proof (Z.mod_pos_bound n 10). rewrite N.add_sub, Z2N.id; lia. }
  destruct (Z.eqb_spec (n / 10) 0) as [E|E].
  - exists 1%Z. split; [lia|]. rewrite Hd. f_equal. rewrite (Z.div_mod n 10) at 2 by lia. rewrite E. lia.
  - assert (0 < f)%nat as Hf'. { destruct f; [|lia]. exfalso. apply E. apply Z.div_small. simpl in Hn. lia. }
    destruct (IH (n / 10)%Z (String (chr (Z.to_N (n mod 10) + 48)) acc) k) as (j & Hj & ->); [|done|].
    { split; [apply Z.div_pos; lia|]. apply Z.div_lt_upper_bound; [lia|].
      rewrite <- Z.pow_succ_r by lia. rewrite <- Nat2Z.inj_succ. lia. }
    exists (j + 1)%Z. split; [lia|]. rewrite Hd. f_equal.
    rewrite (Z.div_mod n 10) at 3 by lia. rewrite Z.pow_add_r by lia. lia.
Qed.

Lemma digits_of_nonempty fuel n acc : (0 < fuel)%nat → digits_of fuel n acc ≠ "".
Proof.
  revert n acc. induction fuel as [|f IH]; intros n acc Hf; [lia|]. cbn [digits_of].
  destruct (_ =? _)%Z; [done|]. destruct f; [done|]. apply IH. lia.
Qed.

Lemma parse_digits_itoa n : (0 ≤ n ≤ max_int64)%Z → parse_digits (itoa n) = Some n.
Proof.
  intros Hn. unfold itoa, parse_digits. destruct (Z.ltb_spec n 0); [lia|].
  assert (String.eqb (digits_of 20 n "") "" = false) as ->
    by (apply String.eqb_neq, digits_of_nonempty; lia).
  destruct (digits_of_value 20 n "" 0) as (j & ? & ->); [|lia|done].
  unfold max_int64 in Hn. split; [lia|]. change (10 ^ Z.of_nat 20)%Z with 100000000000000000000%Z. lia.
Qed.

Lemma itoa_digits n : (0 ≤ n)%Z → str_forall is_digit (itoa n) = true.
Proof. intros Hn. unfold itoa. destruct (Z.ltb_spec n 0); [lia|]. by apply digits_of_digits. Qed.

Lemma itoa_nonempty n : itoa n ≠ "".
Proof. unfold itoa. destruct (_ <? _)%Z; [done|]. apply digits_of_nonempty. lia. Qed.

Lemma atoi_itoa n : (0 ≤ n ≤ max_int64)%Z → atoi (itoa n) = Some n.
Proof.
  intros Hn. pose proof (parse_digits_itoa n Hn) as E. pose proof (itoa_digits n (proj1 Hn)) as Hd.
  unfold atoi. destruct (itoa n) as [|c r] eqn:Ei; [done|]. cbn [str_forall] in Hd. bools.
  assert (Ascii.eqb c "-" = false ∧ Ascii.eqb c "+" = false) as [-> ->].
  { unfold is_digit, in_range in *. bools. split; apply Ascii.eqb_neq; intros ->; discriminate. }
  rewrite E. simpl. unfold in_int64, min_int64, max_int64 in *.
  destruct (Z.leb_spec (- 2 ^ 63) n), (Z.leb_spec n (2 ^ 63 - 1)); simpl; first [done|lia].
Qed.

#[export] Hint Resolve itoa_digits itoa_nonempty : shipwick.
#[export] Hint Rewrite parse_digits_itoa atoi_itoa using lia : shipwick_rw.

Lemma split_not_nil sep s : split sep s ≠ [].
Proof.
  destruct s as [|c s]; simpl; [done|]. destruct (split sep s) as [|h t] eqn:E.
  - exfalso. revert E. induction s as [|d s IH]; simpl; [done|]. destruct (split sep s); [by eauto|].
    by destruct (Ascii.eqb d sep).
  - by destruct (Ascii.eqb c sep).
Qed.

Lemma split_join sep s : join (String sep "") (split sep s) = s.
Proof.
  induction s as [|c s IH]; simpl; [done|].
  pose proof (split_not_nil sep s). destruct (split sep s) as [|h t]; [done|].
  destruct (Ascii.eqb_spec c sep) as [->|]; simpl; rewrite <- IH; by destruct t.
Qed.

(** ** Fields

    A word holds no white space: at none of its bytes does a white-space rune
    begin. *)

Fixpoint clean (w : string) : bool :=
  match w with
  | String a r1 =>
      negb (space1 a) && clean r1 &&
      match r1 with
      | String b r2 =>
          negb (space2 a b) &&
          match r2 with String c _ => negb (space3 a b c) | "" => true end
      | "" => true
      end
  | "" => true
  end.

Definition word (w : string) : Prop := clean w = true ∧ w ≠ "".

(** White space that follows a clean string does not complete one of its
    bytes to a white-space rune. *)
Lemma clean_snoc w a :
  clean w = true → space1 a = false →
  (∀ x, space2 x a = false) → (∀ x y, space3 x y a = false) → clean (w ++ String a "") = true.
Proof.
  intros Hw Ha H2 H3. induction w as [|x w IH]; simpl in *; [by rewrite Ha|].
  apply andb_true_iff in Hw as [Hw Hx]. apply andb_true_iff in Hw as [Hs Hw].
  rewrite Hs, (IH Hw). simpl. destruct w as [|y w]; simpl; [by rewrite H2|].
  apply andb_true_iff in Hx as [Hxy Hx]. rewrite Hxy. simpl.
  destruct w as [|z w]; simpl; [by rewrite H3|by rewrite Hx].
Qed.

Lemma append_assoc (a b c : string) : (a ++ b) ++ c = a ++ (b ++ c).
Proof. induction a as [|x a IH]; simpl; [done|by rewrite IH]. Qed.
Lemma append_nil_r (a : string) : a ++ "" = a.
Proof. induction a as [|x a IH]; simpl; [done|by rewrite IH]. Qed.

Lemma space1_space a : space1 a = true → (code a < 128)%N.
Proof.
  unfold space1. intros H. apply orb_true_iff in H as [H|H]; [apply andb_true_iff in H as [_ H]|];
    [apply N.leb_le in H|apply N.eqb_eq in H]; lia.
Qed.

(** The separator [fields] and [join] agree on. *)
Lemma fields_clean w v rest :
  clean w = true → fields_from v (w ++ String " " rest) = push (v ++ w) (fields_from "" rest).
Proof.
  revert v. induction w as [|a w IH]; intros v Hw; [by rewrite append_nil_r|].
  cbn [clean] in Hw. apply andb_true_iff in Hw as [Hw Hx]. apply andb_true_iff in Hw as [Hs Hw].
  specialize (IH (v ++ String a "") Hw). rewrite append_assoc in IH. cbn [append] in IH.
  cbn [append]. cbn [fields_from]. rewrite (proj1 (negb_true_iff _) Hs).
  destruct w as [|b w]; cbn [append] in *.
  - assert (space2 a " " = false) as -> by (unfold space2; by rewrite andb_false_r).
    destruct rest as [|c rest]; [done|].
    assert (space3 a " " c = false) as -> by (unfold space3; by rewrite !andb_false_r). done.
  - apply andb_true_iff in Hx as [Hab Hx]. rewrite (proj1 (negb_true_iff _) Hab).
    destruct w as [|c w]; cbn [append] in *.
    + assert (space3 a b " " = false) as -> by (unfold space3; by rewrite !andb_false_r). done.
    + rewrite (proj1 (negb_true_iff _) Hx). done.
Qed.

Lemma fields_clean_end w v : clean w = true → fields_from v w = push (v ++ w) [].
Proof.
  revert v. induction w as [|a w IH]; intros v Hw; [by rewrite append_nil_r|].
  cbn [clean] in Hw. apply andb_true_iff in Hw as [Hw Hx]. apply andb_true_iff in Hw as [Hs Hw].
  specialize (IH (v ++ String a "") Hw). rewrite append_assoc in IH. cbn [append] in IH.
  cbn [fields_from]. rewrite (proj1 (negb_true_iff _) Hs).
  destruct w as [|b w]; [done|].
  apply andb_true_iff in Hx as [Hab Hx]. rewrite (proj1 (negb_true_iff _) Hab).
  destruct w as [|c w]; [done|]. by rewrite (proj1 (negb_true_iff _) Hx).
Qed.

Lemma push_word w l : w ≠ "" → push w l = w :: l.
Proof. unfold push. destruct (String.eqb_spec w ""); done. Qed.

(** Joining words with single spaces and splitting again is the identity. *)
Lemma fields_join l : Forall word l → fields (join " " l) = l.
Proof.
  induction 1 as [|w l [Hc Hn] Hl IH]; [done|]. destruct l as [|w' l].
  - unfold fields. cbn [join]. rewrite fields_clean_end by done. by apply push_word.
  - change (join " " (w :: w' :: l)) with (w ++ String " " (join " " (w' :: l))).
    unfold fields in *. rewrite fields_clean by done. rewrite IH. by apply push_word.
Qed.

(** The words [fields] finds are words. *)
Definition starts_space (s : string) : bool :=
  match s with
  | String a r1 => space1 a ||
      match r1 with
      | String b r2 => space2 a b || match r2 with String c _ => space3 a b c | "" => false end
      | "" => false
      end
  | "" => false
  end.

Fixpoint spaceless (v s : string) : Prop :=
  match v with "" => True | String _ v' => starts_space (v ++ s) = false ∧ spaceless v' s end.

Lemma spaceless_snoc v a s :
  spaceless v (String a s) → starts_space (String a s) = false → spaceless (v ++ String a "") s.
Proof.
  induction v as [|x v IH]; intros Hv Ha; [done|]. destruct Hv as [Hx Hv].
  cbn [append spaceless] in *. split; [by rewrite append_assoc|by apply IH].
Qed.

Lemma spaceless_clean v s : spaceless v s → clean v = true.
Proof.
  induction v as [|x v IH]; [done|]. cbn [spaceless clean]. intros [Hx Hv].
  rewrite (IH Hv). cbn [append starts_space] in Hx. apply orb_false_iff in Hx as [-> Hx]. simpl.
  destruct v as [|y v]; [done|]. cbn [append] in Hx. apply orb_false_iff in Hx as [-> Hx]. simpl.
  destruct v as [|z v]; [done|]. cbn [append] in Hx. by rewrite Hx.
Qed.

Lemma fields_from_words s : ∀ v, spaceless v s → Forall word (fields_from v s).
Proof.
  assert (∀ v t l, spaceless v t → Forall word l → Forall word (push v l)) as Hpush.
  { intros v t l Hv Hl. unfold push. destruct (String.eqb_spec v ""); [done|].
    constructor; [|done]. split; [by eapply spaceless_clean|done]. }
  induction s as [s IH] using (induction_ltof1 _ String.length). unfold ltof in IH.
  intros v Hv. destruct s as [|a r1]; [by eapply Hpush|].
  cbn [fields_from]. destruct (space1 a) eqn:H1; [eapply Hpush; [done|by apply IH; simpl; [lia|]]|].
  destruct r1 as [|b r2].
  { apply IH; [simpl; lia|]. apply spaceless_snoc; [done|]. simpl. by rewrite H1. }
  destruct (space2 a b) eqn:H2; [eapply Hpush; [done|by apply IH; simpl; [lia|]]|].
  destruct r2 as [|c r3].
  { apply IH; [simpl; lia|]. apply spaceless_snoc; [done|]. simpl. by rewrite H1, H2. }
  destruct (space3 a b c) eqn:H3; [eapply Hpush; [done|by apply IH; simpl; [lia|]]|].
  apply IH; [simpl; lia|]. apply spaceless_snoc; [done|]. simpl. by rewrite H1, H2, H3.
Qed.

Lemma fields_words s : Forall word (fields s).
Proof. by apply fields_from_words. Qed.

(** Splitting is idempotent: the words of the words joined are the words. *)
Lemma fields_fields s : fields (join " " (fields s)) = fields s.
Proof. apply fields_join, fields_words. Qed.

#[export] Hint Resolve fields_words : shipwick.

(** ** Plain text

    Printable ASCII without spaces: nothing to trim, and nothing to lower
    where there is no capital. *)

Definition printable : ascii → bool := in_range 33 126.

Lemma trim_left_printable c r : printable c = true → trim_left (String c r) = String c r.
Proof.
  unfold printable, in_range. intros H. bools. rewrite !N.leb_le in *.
  assert (space1 c = false) as E1.
  { unfold space1. apply orb_false_iff. split; [apply andb_false_iff; right|]; [apply N.leb_gt|apply N.eqb_neq]; lia. }
  cbn [trim_left]. rewrite E1. destruct r as [|b r2]; [done|].
  assert (code c <> 194 ∧ code c <> 225 ∧ code c <> 226 ∧ code c <> 227)%N as (Hc1 & Hc2 & Hc3 & Hc4) by lia.
  unfold space2, space3. apply N.eqb_neq in Hc1, Hc2, Hc3, Hc4. rewrite Hc1, Hc2, Hc3, Hc4. simpl. by destruct r2.
Qed.

Lemma trim_space_printable s : str_forall printable s = true → trim_space s = s.
Proof.
  intros H. unfold trim_space.
  assert (trim_left s = s) as ->.
  { destruct s as [|c r]; [done|]. simpl in H. bools. by apply trim_left_printable. }
  induction s as [|c r IH]; [done|]. cbn [str_forall] in H. bools. cbn [trim_right].
  rewrite trim_left_printable by done. simpl. f_equal. auto.
Qed.

Definition uncased (c : ascii) : bool := (code c <? 128)%N && negb (is_upper c).

Lemma to_lower_uncased s : str_forall uncased s = true → to_lower s = s.
Proof.
  induction s as [|a r1 IH]; [done|]. cbn [str_forall]. intros H. bools. specialize (IH H0).
  unfold uncased in H. bools. rewrite N.ltb_lt in *.
  assert (lower1 a = a) as Ha by (unfold lower1; by rewrite H1).
  cbn [to_lower]. destruct r1 as [|b r2]; [by rewrite Ha|].
  assert ((code a =? 196)%N = false ∧ (code a =? 226)%N = false) as [E1 E2]
    by (split; apply N.eqb_neq; lia).
  rewrite E1, E2. cbn [andb]. destruct r2; by rewrite Ha, IH.
Qed.

Lemma str_forall_impl (f g : ascii → bool) s :
  (∀ c, f c = true → g c = true) → str_forall f s = true → str_forall g s = true.
Proof.
  intros Hfg. induction s as [|c r IH]; [done|]. cbn [str_forall]. intros H. bools.
  rewrite Hfg, IH; done.
Qed.

Lemma digit_plain c : is_digit c = true → printable c = true ∧ uncased c = true.
Proof.
  unfold is_digit, printable, uncased, is_upper, in_range. intros H. bools. rewrite !N.leb_le in *.
  rewrite !andb_true_iff, negb_true_iff, andb_false_iff, !N.leb_le, N.ltb_lt, !N.leb_gt. lia.
Qed.
