(* ===== verification/GoTime.v ===== *)
(** * Go times

    What the source uses of Go's [time]: a [Time] in UTC is the number of
    nanoseconds since the Unix epoch (an integer of any size: the source's
    times are the present and a few years around it), a [Duration] is a
    64-bit count of nanoseconds.  [Date] normalises its fields as Go's does,
    [AddDate] is [Date] of the moved fields. *)

From S2P Require Import Prelude.
Local Open Scope Z_scope.

Abbreviation Time := Z (only parsing).
Abbreviation Duration := Z (only parsing).

Definition second : Duration := 1000000000.
Definition millisecond : Duration := 1000000.
Definition minute : Duration := 60 * second.
Definition hour : Duration := 60 * minute.
Definition day : Duration := 24 * hour.

(** time.Time{}: the first instant of year 1. *)
Definition zero_time : Time := -719162 * day.

(** t.Sub(u): a duration saturates. *)
Definition maxDuration : Duration := 2 ^ 63 - 1.
Definition minDuration : Duration := - 2 ^ 63.
Definition Sub (t u : Time) : Duration := Z.max minDuration (Z.min maxDuration (t - u)).

Lemma Sub_le t u x : x ≤ maxDuration → minDuration < x → x ≤ Sub t u ↔ u + x ≤ t.
Proof. unfold Sub. lia. Qed.

(** ** The proleptic Gregorian calendar

    Days are counted from the epoch; years start in March inside the
    algorithm, so that a leap day is the last day of its year. *)

Definition days_from_civil (y m d : Z) : Z :=
  let y := if m <=? 2 then y - 1 else y in
  let era := y / 400 in
  let yoe := y mod 400 in
  let doy := (153 * (if 2 <? m then m - 3 else m + 9) + 2) / 5 + d - 1 in
  let doe := yoe * 365 + yoe / 4 - yoe / 100 + doy in
  era * 146097 + doe - 719468.

Definition civil_from_days (z : Z) : Z * Z * Z :=
  let z := z + 719468 in
  let era := z / 146097 in
  let doe := z mod 146097 in
  let yoe := (doe - doe / 1460 + doe / 36524 - doe / 146096) / 365 in
  let doy := doe - (365 * yoe + yoe / 4 - yoe / 100) in
  let mp := (5 * doy + 2) / 153 in
  let d := doy - (153 * mp + 2) / 5 + 1 in
  let m := if mp <? 10 then mp + 3 else mp - 9 in
  (if m <=? 2 then yoe + era * 400 + 1 else yoe + era * 400, m, d).

Definition day_number (t : Time) : Z := t / day.
Definition Year (t : Time) : Z := (civil_from_days (day_number t)).1.1.
Definition Month (t : Time) : Z := (civil_from_days (day_number t)).1.2.
Definition Day (t : Time) : Z := (civil_from_days (day_number t)).2.
Definition Weekday (t : Time) : Z := (day_number t + 4) mod 7.
Definition Hour (t : Time) : Z := (t / hour) mod 24.
Definition Minute (t : Time) : Z := (t / minute) mod 60.

(** time.Date(year, month, day, hour, 0, 0, 0, time.UTC): months, days and
    hours outside their ranges carry over. *)
Definition Date (y m d h : Z) : Time :=
  let y := y + (m - 1) / 12 in
  let m := (m - 1) mod 12 + 1 in
  (days_from_civil y m 1 + (d - 1)) * day + h * hour.

(** t.AddDate(years, 0, 0) *)
Definition AddYears (t : Time) (n : Z) : Time :=
  Date (Year t + n) (Month t) (Day t) 0 + t mod day.

(** t.Truncate(time.Minute): both instants that Go could count from, the
    epoch and year 1, lie on a minute. *)
Definition TruncateMinute (t : Time) : Time := t / minute * minute.

(** ** The calendar round trip *)

(** The year of the 400-year cycle a day lies in, and the day of that year. *)
Definition year_of_era (doe : Z) : Z := (doe - doe / 1460 + doe / 36524 - doe / 146096) / 365.
Definition day_of_year (doe : Z) : Z :=
  doe - (365 * year_of_era doe + year_of_era doe / 4 - year_of_era doe / 100).

Lemma year_of_era_range doe : 0 ≤ doe < 146097 → 0 ≤ year_of_era doe < 400.
Proof. unfold year_of_era. intros H. dlia. Qed.

Lemma day_of_year_range doe : 0 ≤ doe < 146097 → 0 ≤ day_of_year doe ≤ 365.
Proof.
  intros H. pose proof (year_of_era_range doe H) as Hy. unfold day_of_year.
  assert (year_of_era doe / 100 = 0 ∨ year_of_era doe / 100 = 1 ∨ year_of_era doe / 100 = 2
          ∨ year_of_era doe / 100 = 3) as Hc by dlia.
  assert (doe / 36524 = 0 ∨ doe / 36524 = 1 ∨ doe / 36524 = 2 ∨ doe / 36524 = 3 ∨ doe / 36524 = 4)
    as Hd by dlia.
  destruct Hc as [Hc|[Hc|[Hc|Hc]]]; rewrite Hc;
    destruct Hd as [Hd|[Hd|[Hd|[Hd|Hd]]]]; unfold year_of_era in *; rewrite Hd in *; dlia.
Qed.

Lemma civil_day_bounds z :
  let '(y, m, d) := civil_from_days z in 1 ≤ m ≤ 12 ∧ 1 ≤ d ≤ 31.
Proof.
  unfold civil_from_days. cbv zeta.
  pose proof (day_of_year_range ((z + 719468) mod 146097) ltac:(apply Z.mod_pos_bound; lia)) as H.
  unfold day_of_year, year_of_era in H. revert H.
  match goal with |- 0 ≤ ?e ≤ 365 → _ => generalize e end.
  intros doy H. destruct (Z.ltb_spec ((5 * doy + 2) / 153) 10); dlia.
Qed.

Lemma days_civil_days z :
  let '(y, m, d) := civil_from_days z in days_from_civil y m d = z.
Proof.
  unfold civil_from_days, days_from_civil. cbv zeta.
  pose proof (Z.mod_pos_bound (z + 719468) 146097 ltac:(lia)) as Hb.
  pose proof (Z.div_mod (z + 719468) 146097 ltac:(lia)) as Hz.
  pose proof (year_of_era_range _ Hb) as Hy. pose proof (day_of_year_range _ Hb) as Hd.
  unfold day_of_year in Hd. unfold year_of_era in Hy, Hd.
  set (doe := (z + 719468) mod 146097) in *. set (era := (z + 719468) / 146097) in *.
  set (yoe := (doe - doe / 1460 + doe / 36524 - doe / 146096) / 365) in *.
  set (doy := doe - (365 * yoe + yoe / 4 - yoe / 100)) in *.
  assert (0 ≤ (5 * doy + 2) / 153 < 12) as Hm by dlia.
  set (mp := (5 * doy + 2) / 153) in *.
  assert ((yoe + era * 400) / 400 = era) as E1.
  { rewrite Z.div_add by lia. rewrite Z.div_small; lia. }
  assert ((yoe + era * 400) mod 400 = yoe) as E2.
  { rewrite Z.mod_add by lia. apply Z.mod_small; lia. }
  assert ((yoe + era * 400 + 1 - 1) = yoe + era * 400) as E3 by lia.
  destruct (Z.ltb_spec mp 10).
  - destruct (Z.leb_spec (mp + 3) 2); [lia|]. rewrite E1, E2.
    destruct (Z.ltb_spec 2 (mp + 3)); [|lia]. replace (mp + 3 - 3) with mp by lia. lia.
  - destruct (Z.leb_spec (mp - 9) 2); [|lia]. rewrite E3, E1, E2.
    destruct (Z.ltb_spec 2 (mp - 9)); [lia|]. replace (mp - 9 + 9) with mp by lia. lia.
Qed.

Lemma days_from_civil_day y m d : days_from_civil y m d = days_from_civil y m 1 + (d - 1).
Proof. unfold days_from_civil. lia. Qed.

Lemma Month_range t : 1 ≤ Month t ≤ 12.
Proof.
  unfold Month. pose proof (civil_day_bounds (day_number t)) as H.
  destruct (civil_from_days (day_number t)) as [[? ?] ?]. simpl. lia.
Qed.
Lemma Day_range t : 1 ≤ Day t ≤ 31.
Proof.
  unfold Day. pose proof (civil_day_bounds (day_number t)) as H.
  destruct (civil_from_days (day_number t)) as [[? ?] ?]. simpl. lia.
Qed.
Lemma Weekday_range t : 0 ≤ Weekday t ≤ 6.
Proof. unfold Weekday. pose proof (Z.mod_pos_bound (day_number t + 4) 7). lia. Qed.
Lemma Hour_range t : 0 ≤ Hour t ≤ 23.
Proof. unfold Hour. pose proof (Z.mod_pos_bound (t / hour) 24). lia. Qed.
Lemma Minute_range t : 0 ≤ Minute t ≤ 59.
Proof. unfold Minute. pose proof (Z.mod_pos_bound (t / minute) 60). lia. Qed.

(** Date of a time's own day, moved by some days and put at some hour. *)
Lemma Date_of_day t k h :
  Date (Year t) (Month t) (Day t + k) h = (day_number t + k) * day + h * hour.
Proof.
  unfold Date. pose proof (Month_range t) as Hm.
  assert ((Month t - 1) / 12 = 0) as -> by (apply Z.div_small; lia).
  rewrite (Z.mod_small (Month t - 1) 12) by lia.
  replace (Month t - 1 + 1) with (Month t) by lia. rewrite Z.add_0_r.
  pose proof (days_civil_days (day_number t)) as H.
  unfold Year, Month, Day in *.
  destruct (civil_from_days (day_number t)) as [[y m] d]. simpl in *.
  rewrite days_from_civil_day in H. lia.
Qed.

(** Times of one day share its date, times of one hour share that too. *)
Lemma same_day t t' : day_number t = day_number t' →
  Month t = Month t' ∧ Day t = Day t' ∧ Weekday t = Weekday t'.
Proof. unfold Month, Day, Weekday. by intros ->. Qed.
