(* ===== verification/GoFloat.v ===== *)
(** * Go float64 and durations

    What the source uses of [strconv.ParseFloat], float64 arithmetic,
    [time.ParseDuration] and [Duration.String].  A float64 is its mantissa and
    exponent; every operation is the exact rational one rounded to nearest,
    ties to even, at 53 bits, with gradual underflow. *)

From S2P Require Import Prelude GoStrings GoTime.
From Stdlib Require Import Ascii String.
Local Open Scope Z_scope.

(** ** Rounding *)

(** A finite non-negative float64: [mant * 2 ^ expo].  A value that is not
    zero has a mantissa of exactly 53 bits, or the exponent -1074. *)
Record float := mk_float { mant : Z; expo : Z }.

#[export] Instance float_eq_dec : EqDecision float.
Proof. solve_decision. Defined.

Definition float_zero : float := mk_float 0 0.

(** The integer nearest to n/d, ties to even. *)
Definition rne (n d : Z) : Z :=
  let q := n / d in
  match 2 * (n mod d) ?= d with
  | Lt => q
  | Gt => q + 1
  | Eq => if Z.even q then q else q + 1
  end.

(** n / (d * 2^e) as numerator and denominator. *)
Definition scaled (n d e : Z) : Z * Z :=
  if 0 <=? e then (n, d * 2 ^ e) else (n * 2 ^ (- e), d).

(** The exponent that gives n/d a quotient of 53 bits, or the smallest one. *)
Definition exponent_of (n d : Z) : Z :=
  let l := Z.log2 n - Z.log2 d in
  let '(a, b) := scaled n d l in
  Z.max ((if a <? b then l - 1 else l) - 52) (-1074).

(** The float64 nearest to n/d, n ≥ 0, d > 0; None is +Inf. *)
Definition round_rat (n d : Z) : option float :=
  if n =? 0 then Some float_zero else
  let e := exponent_of n d in
  let '(a, b) := scaled n d e in
  let m := rne a b in
  let '(m, e) := if m =? 2 ^ 53 then (2 ^ 52, e + 1) else (m, e) in
  if m =? 0 then Some float_zero
  else if 971 <? e then None else Some (mk_float m e).

(** The value of a float as a fraction. *)
Definition float_num (f : float) : Z := if 0 <=? expo f then mant f * 2 ^ expo f else mant f.
Definition float_den (f : float) : Z := if 0 <=? expo f then 1 else 2 ^ (- expo f).

Definition float_mul (f g : float) : option float :=
  round_rat (float_num f * float_num g) (float_den f * float_den g).
Definition float_div (f g : float) : option float :=
  round_rat (float_num f * float_den g) (float_den f * float_num g).
Definition float_ltb (f g : float) : bool := float_num f * float_den g <? float_num g * float_den f.
(** int64(f), uint64(f): truncation, for a value in range. *)
Definition float_trunc (f : float) : Z := float_num f / float_den f.
(** float64(n) *)
Definition float_of_Z (n : Z) : float := default float_zero (round_rat n 1).

(** ** strconv.ParseFloat *)

Definition hex_value (c : ascii) : option Z :=
  let n := Z.of_N (code c) in
  if is_digit c then Some (n - 48)
  else if in_range 97 102 c then Some (n - 87)
  else if in_range 65 70 c then Some (n - 55) else None.

(** The digits of a mantissa with at most one point: their value, how many
    stand after the point, whether there were any, what follows. *)
Fixpoint mantissa (base acc : Z) (frac : option Z) (saw : bool) (s : string)
    : Z * Z * bool * string :=
  let stop := (acc, default 0 frac, saw, s) in
  match s with
  | EmptyString => stop
  | String c r =>
      if Ascii.eqb c "_" then mantissa base acc frac saw r
      else if Ascii.eqb c "." then
        match frac with None => mantissa base acc (Some 0) saw r | Some _ => stop end
      else match hex_value c with
           | Some v => if v <? base
                       then mantissa base (base * acc + v) (Z.succ <$> frac) true r else stop
           | None => stop
           end
  end.

(** The digits of an exponent: beyond 10000 they no longer count. *)
Fixpoint exponent_digits (e : Z) (s : string) : Z * string :=
  match s with
  | EmptyString => (e, s)
  | String c r =>
      if Ascii.eqb c "_" then exponent_digits e r
      else if is_digit c
      then exponent_digits (if e <? 10000 then e * 10 + Z.of_N (code c - 48) else e) r
      else (e, s)
  end.

(** underscoreOK: an underscore stands between two digits, or between the
    base prefix and a digit. *)
Inductive seen := SawDigit | SawUnderscore | SawOther.
Fixpoint underscore_ok (hex : bool) (i : seen) (s : string) : bool :=
  match s with
  | EmptyString => match i with SawUnderscore => false | _ => true end
  | String c r =>
      if is_digit c || (hex && bool_decide (is_Some (hex_value c))) then underscore_ok hex SawDigit r
      else if Ascii.eqb c "_" then
        match i with SawDigit => underscore_ok hex SawUnderscore r | _ => false end
      else match i with SawUnderscore => false | _ => underscore_ok hex SawOther r end
  end.

Definition unsign (s : string) : bool * string :=
  match s with
  | String c r => if Ascii.eqb c "-" then (true, r) else if Ascii.eqb c "+" then (false, r) else (false, s)
  | EmptyString => (false, s)
  end.

Definition hex_prefix (s : string) : option string :=
  match s with
  | String a (String b (String c r)) =>
      if Ascii.eqb a "0" && Ascii.eqb (lower1 b) "x" then Some (String c r) else None
  | _ => None
  end.

(** Sign and magnitude as a fraction; None is a syntax error. *)
Definition read_float (s : string) : option (bool * (Z * Z)) :=
  let '(neg, u) := unsign s in
  let '(hex, body) := match hex_prefix u with Some r => (true, r) | None => (false, u) end in
  let base := if hex : bool then 16 else 10 in
  let '(m, frac, saw, rest) := mantissa base 0 None false body in
  if negb saw then None else
  exp ← match rest with
        | EmptyString => if hex then None else Some 0
        | String c r =>
            if negb (Ascii.eqb (lower1 c) (if hex then "p" else "e")%char) then None else
            let '(eneg, r) := unsign r in
            match r with
            | String d _ =>
                if negb (is_digit d) then None else
                let '(e, r) := exponent_digits 0 r in
                if String.eqb r "" then Some (if eneg : bool then - e else e) else None
            | EmptyString => None
            end
        end;
  if contains_char "_" s && negb (underscore_ok hex (if hex then SawDigit else SawOther) body) then None
  else
    let dp := if hex then exp - 4 * frac else exp - frac in
    let b := if hex then 2 else 10 in
    Some (neg, if 0 <=? dp then (m * b ^ dp, 1) else (m, b ^ (- dp))).

(** ParseFloat(s, 64) where the caller treats a syntax error, a value out of
    range, an infinity and a NaN alike: None. *)
Definition ParseFloat (s : string) : option (bool * float) :=
  r ← read_float s;
  let '(neg, (n, d)) := r in
  f ← round_rat n d; Some (neg, f).

(** ** time.ParseDuration *)

Definition two63 : Z := 2 ^ 63.

(** leadingInt: None is an overflow. *)
Fixpoint leadingInt (x : Z) (s : string) : option (Z * string) :=
  match s with
  | String c r =>
      if is_digit c then
        if two63 / 10 <? x then None else
        let x := x * 10 + Z.of_N (code c - 48) in
        if two63 <? x then None else leadingInt x r
      else Some (x, s)
  | EmptyString => Some (x, s)
  end.

(** leadingFraction: digits that no longer fit are read and dropped.  The
    scale is a power of ten, exact as a float64 below 10^23. *)
Fixpoint leadingFraction (x scale : Z) (overflow : bool) (s : string) : Z * Z * string :=
  match s with
  | String c r =>
      if is_digit c then
        if overflow then leadingFraction x scale true r
        else if (two63 - 1) / 10 <? x then leadingFraction x scale true r
        else let y := x * 10 + Z.of_N (code c - 48) in
             if two63 <? y then leadingFraction x scale true r
             else leadingFraction y (scale * 10) false r
      else (x, scale, s)
  | EmptyString => (x, scale, s)
  end.

Fixpoint take_unit (s : string) : string * string :=
  match s with
  | String c r => if Ascii.eqb c "." || is_digit c then (EmptyString, s)
                  else let '(u, rest) := take_unit r in (String c u, rest)
  | EmptyString => (EmptyString, EmptyString)
  end.

Definition micro1 : string := String (chr 194) (String (chr 181) "s").
Definition micro2 : string := String (chr 206) (String (chr 188) "s").

Definition unitMap (u : string) : option Z :=
  if String.eqb u "ns" then Some 1
  else if String.eqb u "us" || String.eqb u micro1 || String.eqb u micro2 then Some 1000
  else if String.eqb u "ms" then Some 1000000
  else if String.eqb u "s" then Some second
  else if String.eqb u "m" then Some minute
  else if String.eqb u "h" then Some hour
  else None.

(** uint64(float64(f) * (float64(unit) / scale)) *)
Definition fraction_ns (f unit scale : Z) : Z :=
  float_trunc (default float_zero
    (q ← float_div (float_of_Z unit) (float_of_Z scale); float_mul (float_of_Z f) q)).

(** One number with its unit: what it adds, and the rest. *)
Definition parse_one (s : string) : option (Z * string) :=
  match s with
  | String c _ =>
      if negb (Ascii.eqb c "." || is_digit c) then None else
      '(v, s1) ← leadingInt 0 s;
      let pre := negb (String.eqb s s1) in
      let '(f, scale, s2, post) :=
        match s1 with
        | String c r => if Ascii.eqb c "." then
                          let '(f, scale, s2) := leadingFraction 0 1 false r in
                          (f, scale, s2, negb (String.eqb r s2))
                        else (0, 1, s1, false)
        | EmptyString => (0, 1, s1, false)
        end in
      if negb pre && negb post then None else
      let '(u, rest) := take_unit s2 in
      unit ← unitMap u;
      if two63 / unit <? v then None else
      let v := v * unit in
      let v := if 0 <? f then v + fraction_ns f unit scale else v in
      if two63 <? v then None else Some (v, rest)
  | EmptyString => None
  end.

(** Every round reads at least one byte. *)
Fixpoint parse_sum (fuel : nat) (d : Z) (s : string) : option Z :=
  if String.eqb s "" then Some d else
  match fuel with
  | O => None
  | S fuel =>
      '(v, rest) ← parse_one s;
      if two63 <? d + v then None else parse_sum fuel (d + v) rest
  end.

Definition ParseDuration (s : string) : option Duration :=
  let '(neg, s) := unsign s in
  if String.eqb s "0" then Some 0
  else if String.eqb s "" then None
  else d ← parse_sum (String.length s) 0 s;
       if neg : bool then Some (- d) else if two63 - 1 <? d then None else Some d.

Example parse_durations :
  map ParseDuration ["10s"; "1h30m"; "500ms"; "1.5h"; "0"; "-1.5s"; "10"; "1h-2m"; ".5s"; "9223372036s"; "1d";
                     "0.1s"; "0.000000001h"]%string
  = [Some 10000000000; Some 5400000000000; Some 500000000; Some 5400000000000; Some 0; Some (-1500000000);
     None; None; Some 500000000; Some 9223372036000000000; None; Some 100000000; Some 3600].
Proof. vm_compute. reflexivity. Qed.

Example parse_floats :
  map (λ s, (λ p, (p.1, float_num p.2, float_den p.2)) <$> ParseFloat s) ["0.5"; "2"; "1_0.5"; "0x1p-2"; "1e400"; "x"; "-3."; ".5e1"]%string
  = [Some (false, 4503599627370496, 9007199254740992); Some (false, 4503599627370496, 2251799813685248);
     Some (false, 5910974510923776, 562949953421312); Some (false, 4503599627370496, 18014398509481984);
     None; None; Some (true, 6755399441055744, 2251799813685248); Some (false, 5629499534213120, 1125899906842624)].
Proof. vm_compute. reflexivity. Qed.

(** ** Facts about rounding *)

(** n/d < 2^k, whatever the sign of k. *)
Definition below_pow (n d k : Z) : Prop := let '(a, b) := scaled n d k in a < b.

Lemma below_pow_scaled n d k e : 0 ≤ n → 0 < d → e ≤ k → below_pow n d k →
  let '(a, b) := scaled n d e in a < b * 2 ^ (k - e).
Proof.
  unfold below_pow, scaled. intros Hn Hd He.
  pose proof (Z.pow_pos_nonneg 2 (k - e) ltac:(lia) ltac:(lia)) as Hp.
  destruct (0 <=? k) eqn:Ek, (0 <=? e) eqn:Ee; try lia; intros H.
  - replace (2 ^ k) with (2 ^ e * 2 ^ (k - e)) in H by (rewrite <- Z.pow_add_r; [f_equal|..]; lia). lia.
  - replace (k - e) with (k + - e) by lia. rewrite Z.pow_add_r by lia.
    pose proof (Z.pow_pos_nonneg 2 (- e) ltac:(lia) ltac:(lia)). nia.
  - replace (- e) with (- k + (k - e)) by lia. rewrite Z.pow_add_r by lia. nia.
Qed.

Lemma below_pow_mono n d k k' : 0 ≤ n → 0 < d → k ≤ k' → below_pow n d k → below_pow n d k'.
Proof.
  unfold below_pow, scaled. intros Hn Hd Hk.
  destruct (0 <=? k) eqn:Ek, (0 <=? k') eqn:Ek'; try lia; intros H.
  - pose proof (Z.pow_le_mono_r 2 k k'). nia.
  - pose proof (Z.pow_pos_nonneg 2 (- k) ltac:(lia) ltac:(lia)).
    pose proof (Z.pow_pos_nonneg 2 k' ltac:(lia) ltac:(lia)). nia.
  - pose proof (Z.pow_le_mono_r 2 (- k') (- k)). nia.
Qed.

Lemma log2_below n d : 0 < n → 0 < d → below_pow n d (Z.log2 n - Z.log2 d + 1).
Proof.
  intros Hn Hd. pose proof (Z.log2_spec n Hn) as [_ H1]. pose proof (Z.log2_spec d Hd) as [H2 _].
  pose proof (Z.log2_nonneg n). pose proof (Z.log2_nonneg d).
  set (l := Z.log2 n - Z.log2 d + 1) in *. unfold below_pow, scaled. destruct (0 <=? l) eqn:E.
  - replace (Z.succ (Z.log2 n)) with (Z.log2 d + l) in H1 by lia. rewrite Z.pow_add_r in H1 by lia. nia.
  - replace (Z.log2 d) with (Z.succ (Z.log2 n) + - l) in H2 by lia. rewrite Z.pow_add_r in H2 by lia.
    pose proof (Z.pow_pos_nonneg 2 (- l) ltac:(lia) ltac:(lia)). nia.
Qed.

Lemma exponent_below n d : 0 < n → 0 < d → below_pow n d (exponent_of n d + 53).
Proof.
  intros Hn Hd. unfold exponent_of. destruct (scaled n d (Z.log2 n - Z.log2 d)) as [a b] eqn:E.
  destruct (a <? b) eqn:E1.
  - apply (below_pow_mono _ _ (Z.log2 n - Z.log2 d)); [lia..|]. unfold below_pow. rewrite E. lia.
  - apply (below_pow_mono _ _ (Z.log2 n - Z.log2 d + 1)); [lia..|]. by apply log2_below.
Qed.

Lemma scaled_pos n d e : 0 < n → 0 < d → 0 < (scaled n d e).1 ∧ 0 < (scaled n d e).2.
Proof.
  intros Hn Hd. unfold scaled. destruct (0 <=? e) eqn:E; simpl; split; try lia;
    apply Z.mul_pos_pos; try lia; apply Z.pow_pos_nonneg; lia.
Qed.

Lemma rne_bounds n d : 0 ≤ n → 0 < d → n / d ≤ rne n d ≤ n / d + 1.
Proof. intros Hn Hd. unfold rne. destruct (_ ?= _); [destruct (Z.even _)|..]; lia. Qed.

(** A rounded value has at most 53 bits and does not overflow. *)
Lemma round_rat_range n d f : 0 ≤ n → 0 < d → round_rat n d = Some f →
  0 ≤ mant f < 2 ^ 53 ∧ expo f ≤ 971.
Proof.
  unfold round_rat. intros Hn Hd. destruct (n =? 0) eqn:E0; [intros [= <-]; simpl; lia|].
  pose proof (scaled_pos n d (exponent_of n d) ltac:(lia) Hd) as [Ha Hb].
  pose proof (below_pow_scaled n d (exponent_of n d + 53) (exponent_of n d) Hn Hd ltac:(lia) (exponent_below n d ltac:(lia) Hd)) as Hlt.
  destruct (scaled n d (exponent_of n d)) as [a b]; simpl in *.
  replace (exponent_of n d + 53 - exponent_of n d) with 53 in Hlt by lia.
  assert (a / b < 2 ^ 53) by (apply Z.div_lt_upper_bound; lia).
  assert (0 ≤ a / b) by (apply Z.div_pos; lia).
  pose proof (rne_bounds a b ltac:(lia) Hb). destruct (rne a b =? 2 ^ 53) eqn:E1.
  - cbn beta iota zeta. change (2 ^ 52 =? 0) with false; cbn iota. destruct (971 <? exponent_of n d + 1) eqn:E3; [done|].
    intros [= <-]. simpl. lia.
  - cbn beta iota zeta. destruct (rne a b =? 0); [intros [= <-]; simpl; lia|].
    destruct (971 <? exponent_of n d) eqn:E3; [done|]. intros [= <-]. simpl. lia.
Qed.

(** An integer with at most 53 significant bits is a float64. *)
Lemma round_rat_exact m k : 0 < m < 2 ^ 53 → 0 ≤ k ≤ 970 →
  ∃ f, round_rat (m * 2 ^ k) 1 = Some f ∧ float_num f = m * 2 ^ k * float_den f ∧ 0 < float_den f.
Proof.
  intros Hm Hk. unfold round_rat.
  pose proof (Z.pow_pos_nonneg 2 k ltac:(lia) ltac:(lia)) as Hp.
  set (n := m * 2 ^ k). assert (0 < n) as Hn by (unfold n; nia).
  assert (Z.log2 n = Z.log2 m + k) as Hl by (unfold n; rewrite Z.log2_mul_pow2 by lia; lia).
  assert (Z.log2 m < 53) by (apply Z.log2_lt_pow2; lia).
  pose proof (Z.log2_nonneg m). pose proof (Z.log2_spec n Hn) as [Hl1 Hl2].
  assert (exponent_of n 1 = Z.log2 n - 52) as He.
  { unfold exponent_of, scaled. change (Z.log2 1) with 0. rewrite Z.sub_0_r.
    destruct (0 <=? Z.log2 n) eqn:E; [|lia]. destruct (_ <? _) eqn:E1; lia. }
  destruct (n =? 0) eqn:E0; [lia|]. rewrite He.
  assert (∃ q, rne (scaled n 1 (Z.log2 n - 52)).1 (scaled n 1 (Z.log2 n - 52)).2 = q ∧ 0 < q < 2 ^ 53 ∧
          (if 0 <=? Z.log2 n - 52 then q * 2 ^ (Z.log2 n - 52) = n else q = n * 2 ^ (- (Z.log2 n - 52)))) as (q & Hq & Hq1 & Hq2).
  { unfold scaled. destruct (0 <=? Z.log2 n - 52) eqn:E; simpl.
    - set (e := Z.log2 n - 52) in *. rewrite Z.mul_1_l.
      assert (0 < 2 ^ e) by (apply Z.pow_pos_nonneg; lia).
      assert (n = (m * 2 ^ (k - e)) * 2 ^ e) as Hn2.
      { unfold n. rewrite <- Z.mul_assoc, <- Z.pow_add_r by lia. do 2 f_equal. lia. }
      assert (n / 2 ^ e = m * 2 ^ (k - e)) as Hd by (rewrite Hn2 at 1; apply Z.div_mul; lia).
      assert (n mod 2 ^ e = 0) as Hmod by (rewrite Hn2 at 1; apply Z.mod_mul; lia).
      exists (m * 2 ^ (k - e)). unfold rne. rewrite Hmod, Hd, Z.mul_0_r.
      destruct (0 ?= 2 ^ e) eqn:Ec; [apply Z.compare_eq in Ec; lia| |apply Z.compare_gt_iff in Ec; lia].
      split; [done|]. split; [|lia]. rewrite <- Hd. split.
      + apply Z.div_str_pos. split; [lia|]. etransitivity; [|exact Hl1]. apply Z.pow_le_mono_r; lia.
      + apply Z.div_lt_upper_bound; [lia|]. rewrite <- Z.pow_add_r by lia.
        replace (e + 53) with (Z.succ (Z.log2 n)) by lia. done.
    - set (e := Z.log2 n - 52) in *. exists (n * 2 ^ (- e)). unfold rne.
      rewrite Z.div_1_r, Z.mod_1_r. simpl. split; [done|]. split; [|done].
      assert (0 < 2 ^ (- e)) by (apply Z.pow_pos_nonneg; lia). split; [nia|].
      replace 53 with (Z.succ (Z.log2 n) + - e) by lia. rewrite Z.pow_add_r by lia. nia. }
  destruct (scaled n 1 (Z.log2 n - 52)) as [a b]; simpl in Hq. rewrite Hq.
  destruct (q =? 2 ^ 53) eqn:E1; [lia|]. destruct (q =? 0) eqn:E2; [lia|].
  destruct (971 <? Z.log2 n - 52) eqn:E3; [lia|]. eexists. split; [done|].
  unfold float_num, float_den; simpl. destruct (0 <=? Z.log2 n - 52) eqn:E; [lia|].
  split; [done|]. apply Z.pow_pos_nonneg; lia.
Qed.

Lemma float_of_Z_trunc m k : 0 ≤ m < 2 ^ 53 → 0 ≤ k ≤ 970 →
  float_trunc (float_of_Z (m * 2 ^ k)) = m * 2 ^ k.
Proof.
  intros Hm Hk. destruct (decide (m = 0)) as [->|]; [done|].
  destruct (round_rat_exact m k) as (f & Hf & Hv & Hd); [lia..|].
  unfold float_of_Z, float_trunc. rewrite Hf. simpl. rewrite Hv. apply Z.div_mul. lia.
Qed.

(** Truncation keeps at most 53 significant bits. *)
Lemma float_trunc_bits f : 0 ≤ mant f < 2 ^ 53 → expo f ≤ 971 →
  ∃ m k, 0 ≤ m < 2 ^ 53 ∧ 0 ≤ k ≤ 971 ∧ float_trunc f = m * 2 ^ k.
Proof.
  intros Hm He. unfold float_trunc, float_num, float_den. destruct (0 <=? expo f) eqn:E.
  - exists (mant f), (expo f). rewrite Z.div_1_r. lia.
  - exists (mant f / 2 ^ (- expo f)), 0. rewrite Z.mul_1_r.
    pose proof (Z.pow_pos_nonneg 2 (- expo f) ltac:(lia) ltac:(lia)).
    split; [|lia]. split; [apply Z.div_pos; lia|]. apply Z.div_lt_upper_bound; nia.
Qed.
