(* ===== verification/GoURL.v ===== *)
(** * Go paths, URLs, addresses

    [path.Clean], what the source uses of [net/url] and [net]: a URL is its
    scheme, opaque part, whether it names a user, its host, path, query and
    fragment; an address is the eight 16-bit groups of its IPv6 form. *)

From S2P Require Import Prelude GoStrings.
From Stdlib Require Import Ascii String.
Local Open Scope string_scope.

(** ** path.Clean *)

(** The elements kept so far stand in reverse. *)
Definition clean_step (rooted : bool) (out : list string) (e : string) : list string :=
  if String.eqb e "" || String.eqb e "." then out
  else if String.eqb e ".." then
    match out with
    | last :: r => if String.eqb last ".." then (if rooted then out else ".." :: out) else r
    | [] => if rooted then [] else [".."]
    end
  else e :: out.

Definition path_elements (p : string) : list string :=
  reverse (foldl (clean_step (has_prefix "/" p)) [] (split "/" p)).

Definition Clean (p : string) : string :=
  let body := join "/" (path_elements p) in
  if has_prefix "/" p then "/" ++ body
  else if String.eqb body "" then "." else body.

Example cleans : map Clean [""; "/"; "a//b/./c/"; "/../a/../b"; "../../x"; "a/.."; "./a/../../b"; "//x"]
  = ["."; "/"; "a/b/c"; "/b"; "../../x"; "."; "../b"; "/x"].
Proof. reflexivity. Qed.

(** ** net/url *)

Definition unhex (c : ascii) : option N :=
  let n := code c in
  if is_digit c then Some (n - 48)%N
  else if in_range 97 102 c then Some (n - 87)%N
  else if in_range 65 70 c then Some (n - 55)%N else None.

(** unescape in a path or a fragment: every byte is allowed, %XX is decoded. *)
Fixpoint unescape (s : string) : option string :=
  match s with
  | "" => Some ""
  | String c r =>
      if Ascii.eqb c "%" then
        match r with
        | String a (String b r') =>
            x ← unhex a; y ← unhex b; t ← unescape r'; Some (String (chr (16 * x + y)) t)
        | _ => None
        end
      else t ← unescape r; Some (String c t)
  end.

(** unescape in a host: %XX only for bytes outside ASCII, and no byte a host
    cannot hold. *)
Definition host_byte (c : ascii) : bool :=
  (128 <=? code c)%N || is_letter c || is_digit c
  || contains ["-"; "_"; "."; "~"; "!"; "$"; "&"; "'"; "("; ")"; "*"; "+"; ","; ";"; "="; ":"; "["; "]"; "<"; ">"; chr 34]%char c.
Fixpoint unescape_host (s : string) : option string :=
  match s with
  | "" => Some ""
  | String c r =>
      if Ascii.eqb c "%" then
        match r with
        | String a (String b r') =>
            x ← unhex a; y ← unhex b;
            if (x <? 8)%N then None else t ← unescape_host r'; Some (String (chr (16 * x + y)) t)
        | _ => None
        end
      else if host_byte c then t ← unescape_host r; Some (String c t) else None
  end.

Record URL := mk_url {
  u_Scheme : string; u_Opaque : string; u_User : bool; u_Host : string;
  u_Path : string; u_RawQuery : string; u_Fragment : string }.

(** getScheme: the scheme and what follows it; None is an error. *)
Fixpoint scheme_from (first : bool) (s : string) : option (option (string * string)) :=
  match s with
  | "" => Some None
  | String c r =>
      if is_letter c || (negb first && (is_digit c || contains ["+"; "-"; "."]%char c)) then
        match scheme_from false r with
        | Some (Some (a, b)) => Some (Some (String c a, b))
        | o => o
        end
      else if Ascii.eqb c ":" then (if first then None else Some (Some ("", r)))
      else Some None
  end.
Definition getScheme (s : string) : option (string * string) :=
  match scheme_from true s with
  | None => None
  | Some None => Some ("", s)
  | Some (Some (a, b)) => Some (to_lower a, b)
  end.

(** The last occurrence of a byte: what stands before and after it. *)
Fixpoint cut_last (sep : ascii) (s : string) : option (string * string) :=
  match s with
  | "" => None
  | String c r =>
      match cut_last sep r with
      | Some (a, b) => Some (String c a, b)
      | None => if Ascii.eqb c sep then Some ("", r) else None
      end
  end.

(** validOptionalPort of what follows a host: nothing, or a colon and digits. *)
Definition optional_port (s : string) : bool :=
  match s with "" => true | String c r => Ascii.eqb c ":" && str_forall is_digit r end.

(** parseHost, without zone identifiers: a bracketed address that has one is
    refused. *)
Definition parseHost (host : string) : option string :=
  if has_prefix "[" host then
    match cut_last "]" host with
    | Some (_, port) => if optional_port port then unescape_host host else None
    | None => None
    end
  else match cut_last ":" host with
       | Some (_, port) => if str_forall is_digit port then unescape_host host else None
       | None => unescape_host host
       end.

(** url.parse of a URL without its fragment.  A user part is only seen, not
    read: whether or not it is well formed, the source refuses such a URL. *)
Definition parse_url (viaRequest : bool) (s : string) : option URL :=
  if str_exists is_control s then None
  else if String.eqb s "" && viaRequest then None
  else if String.eqb s "*" then Some (mk_url "" "" false "" "*" "" "") else
  '(scheme, rest) ← getScheme s;
  let '(rest, query, _) := cut "?" rest in
  if negb (has_prefix "/" rest) && negb (String.eqb scheme "")
  then Some (mk_url scheme rest false "" "" query "")
  else if negb (has_prefix "/" rest) && viaRequest then None
  else if negb (has_prefix "/" rest) && contains_char ":" (cut "/" rest).1.1 then None
  else if (negb (String.eqb scheme "") || (negb viaRequest && negb (has_prefix "///" rest)))
          && has_prefix "//" rest then
    let body := trim_prefix "//" rest in
    let '(authority, after, slash) := cut "/" body in
    let tail := if slash : bool then "/" ++ after else "" in
    let '(user, host) := match cut_last "@" authority with
                         | Some (_, h) => (true, h)
                         | None => (false, authority)
                         end in
    h ← parseHost host; p ← unescape tail;
    Some (mk_url scheme "" user h p query "")
  else p ← unescape rest; Some (mk_url scheme "" false "" p query "").

Definition ParseRequestURI (s : string) : option URL := parse_url true s.

Definition url_Parse (s : string) : option URL :=
  let '(u, frag, _) := cut "#" s in
  r ← parse_url false u;
  f ← unescape frag;
  Some (mk_url (u_Scheme r) (u_Opaque r) (u_User r) (u_Host r) (u_Path r) (u_RawQuery r) f).

(** net.SplitHostPort: None is an error. *)
Definition SplitHostPort (hostport : string) : option (string * string) :=
  '(before, port) ← cut_last ":" hostport;
  if has_prefix "[" hostport then
    match cut "]" hostport with
    | (inside, after, true) =>
        if String.eqb after (":" ++ port) then
          let host := trim_prefix "[" inside in
          if contains_char "[" host || contains_any ["["; "]"]%char port then None else Some (host, port)
        else None
    | _ => None
    end
  else if contains_char ":" before || contains_any ["["; "]"]%char hostport then None
  else Some (before, port).

Example urls :
  (map (λ s, (λ u, (u_Scheme u, u_Host u, u_Path u)) <$> url_Parse s)
     ["https://example.com/a%20b?x#y"; "https:foo"; "http://u@h/"; "https://exa mple.com"; "https://h:80x"; "a:b"; "/x%zz"; "//h/p"],
   SplitHostPort "h:1", SplitHostPort "[::1]:1", SplitHostPort "::1")
  = ([Some ("https", "example.com", "/a b"); Some ("https", "", ""); Some ("http", "h", "/"); None; None;
      Some ("a", "", ""); None; Some ("", "h", "/p")], Some ("h", "1"), Some ("::1", "1"), None).
Proof. reflexivity. Qed.

(** ** net.ParseIP *)

Definition nonempty (s : string) : bool := negb (String.eqb s "").

(** One field of a dotted address: 0..255 without leading zeros. *)
Definition octet (s : string) : option Z :=
  n ← parse_digits s;
  if (has_prefix "0" s && negb (String.eqb s "0")) || (3 <? slen s)%Z || (255 <? n)%Z then None else Some n.

Definition parseIPv4 (s : string) : option (list Z) :=
  os ← mapM octet (split "." s);
  match os with
  | [a; b; c; d] => Some [(256 * a + b)%Z; (256 * c + d)%Z]
  | _ => None
  end.

(** The leading hex digits: how many, their value, the rest. *)
Fixpoint hex_digits (n : nat) (acc : Z) (s : string) : nat * Z * string :=
  match s with
  | String c r => match unhex c with Some v => hex_digits (S n) (16 * acc + Z.of_N v)%Z r | None => (n, acc, s) end
  | "" => (n, acc, s)
  end.

(** The groups read, where the ellipsis stands; [room] groups are left. *)
Fixpoint ipv6_groups (room : nat) (out : list Z) (ellipsis : option nat) (s : string)
    : option (list Z * option nat) :=
  match room with
  | O => if String.eqb s "" then Some (out, ellipsis) else None
  | S room' =>
      let '(n, v, r) := hex_digits 0 0%Z s in
      if (Nat.eqb n 0 || (4 <? n)%nat)%bool then None else
      match r with
      | "" => Some (out ++ [v], ellipsis)%list
      | String "." _ =>
          if (bool_decide (ellipsis = None) && negb (Nat.eqb (List.length out) 6)) || Nat.eqb room 1 then None
          else v4 ← parseIPv4 s; Some (out ++ v4, ellipsis)%list
      | String ":" "" => None
      | String ":" (String ":" r2) =>
          match ellipsis with
          | Some _ => None
          | None => let out := (out ++ [v])%list in
                    if String.eqb r2 "" then Some (out, Some (List.length out))
                    else ipv6_groups room' out (Some (List.length out)) r2
          end
      | String ":" r1 => ipv6_groups room' (out ++ [v])%list ellipsis r1
      | _ => None
      end
  end.

Definition parseIPv6 (s : string) : option (list Z) :=
  '(out, ellipsis) ← match cut_prefix "::" s with
                     | Some "" => Some ([], Some 0%nat)
                     | Some r => ipv6_groups 8 [] (Some 0%nat) r
                     | None => ipv6_groups 8 [] None s
                     end;
  match ellipsis with
  | Some k => if (List.length out <? 8)%nat
              then Some (take k out ++ replicate (8 - List.length out) 0%Z ++ drop k out)%list else None
  | None => if Nat.eqb (List.length out) 8 then Some out else None
  end.

(** The eight groups; an IPv4 address is mapped to ::ffff:a.b.c.d. *)
Fixpoint first_of (set : list ascii) (s : string) : option ascii :=
  match s with "" => None | String c r => if contains set c then Some c else first_of set r end.
Definition ParseIP (s : string) : option (list Z) :=
  match first_of ["."; ":"; "%"]%char s with
  | Some "."%char => v4 ← parseIPv4 s; Some ([0; 0; 0; 0; 0; 65535]%Z ++ v4)%list
  | Some ":"%char => if contains_char "%" s then None else parseIPv6 s
  | _ => None
  end.

(** ** IP.String *)

Definition hex_char (n : Z) : ascii := if (n <? 10)%Z then chr (Z.to_N (n + 48)) else chr (Z.to_N (n + 87)).
Definition hex16 (v : Z) : string :=
  let digits := [(v / 4096) mod 16; (v / 256) mod 16; (v / 16) mod 16; v mod 16]%Z in
  let fix strip l := match l with [] => [] | [x] => [x] | x :: r => if (x =? 0)%Z then strip r else l end in
  fold_right (λ d s, String (hex_char d) s) "" (strip digits).

Fixpoint zero_run (l : list Z) : nat := match l with v :: r => if (v =? 0)%Z then S (zero_run r) else 0 | [] => 0 end.
(** The first longest run of at least two zero groups: its start and end. *)
Fixpoint longest_zeros (i : nat) (l : list Z) (best : nat * nat) : nat * nat :=
  match l with
  | [] => best
  | v :: r => let n := zero_run l in
              longest_zeros (S i) r (if (2 <=? n)%nat && (best.2 - best.1 <? n)%nat then (i, i + n)%nat else best)
  end.

Definition ipv6_text (l : list Z) : string :=
  let '(a, b) := longest_zeros 0 l (0, 0)%nat in
  if Nat.eqb b 0 then join ":" (hex16 <$> l)
  else join ":" (hex16 <$> take a l) ++ "::" ++ join ":" (hex16 <$> drop b l).

Definition dotted (a b : Z) : string := join "." (itoa <$> [a / 256; a mod 256; b / 256; b mod 256]%Z).

Definition IP_String (l : list Z) : string :=
  match l with
  | [x0; x1; x2; x3; x4; x5; a; b] =>
      if forallb (Z.eqb 0) [x0; x1; x2; x3; x4] && (x5 =? 65535)%Z then dotted a b else ipv6_text l
  | _ => ipv6_text l
  end.

Example ips :
  map (λ s, IP_String <$> ParseIP s)
    ["10.0.0.5"; "::"; "::1"; "2001:DB8:0:0:1:0:0:1"; "::ffff:1.2.3.4"; "1:2:3:4:5:6:7::"; "01.2.3.4"; "1:2"; "fe80::1%eth0";
     "1:0:0:4:5:6:7:8"; "::1:2:3:4:5:6:7:8"; "256.1.1.1"; "1.2.3"]
  = [Some "10.0.0.5"; Some "::"; Some "::1"; Some "2001:db8::1:0:0:1"; Some "1.2.3.4"; Some "1:2:3:4:5:6:7:0"; None; None; None;
     Some "1::4:5:6:7:8"; None; None; None].
Proof. vm_compute. reflexivity. Qed.
