(* ===== verification/Cron.v ===== *)
(** * Cron schedules (pkg/cron/cron.go)

    The five-field expressions of deploy.yaml: [Parse] into bit sets, and
    [Next], the search for the first minute in which a schedule fires.  A set
    is a 64-bit word; the range loop steps a Go [int], so it wraps. *)

From S2P Require Import Prelude GoStrings GoTime.
From Stdlib Require Import Ascii String.
Local Open Scope string_scope.

(** ** Bit sets *)

Abbreviation set := Z (only parsing).

(** 1 << uint(n) in 64 bits: a negative n becomes a shift past the word. *)
Definition bit (n : Z) : set := if ((0 <=? n) && (n <? 64))%Z then Z.shiftl 1 n else 0%Z.
Definition has (s : set) (n : Z) : bool := negb (Z.land s (bit n) =? 0)%Z.
Definition add (s : set) (n : Z) : set := Z.lor s (bit n).

Record field := mk_field {
  f_name : string; f_min : Z; f_max : Z; f_names : list string
}.

Definition minute_field := mk_field "minute" 0 59 [].
Definition hour_field := mk_field "hour" 0 23 [].
Definition day_field := mk_field "day of month" 1 31 [].
Definition month_field := mk_field "month" 1 12
  ["jan"; "feb"; "mar"; "apr"; "may"; "jun"; "jul"; "aug"; "sep"; "oct"; "nov"; "dec"].
Definition weekday_field := mk_field "day of week" 0 7
  ["sun"; "mon"; "tue"; "wed"; "thu"; "fri"; "sat"; "sun"].

Record Schedule := mk_schedule {
  minutes : set; hours : set; days : set; months : set; weekdays : set;
  anyDay : bool; anyWeekday : bool; expr : string
}.

(** ** Parsing *)

Fixpoint name_index (i : Z) (text : string) (names : list string) : option Z :=
  match names with
  | [] => None
  | n :: r => if equal_fold n text then Some i else name_index (i + 1)%Z text r
  end.

Definition value (f : field) (text : string) : result Z :=
  match atoi text with
  | Some n =>
      if ((n <? f_min f) || (f_max f <? n))%Z
      then Err [L "value "; D n; L " out of range "; D (f_min f); L "-"; D (f_max f)]
      else Ok n
  | None =>
      match name_index 0 text (f_names f) with
      | Some i => Ok (f_min f + i)%Z
      | None => Err [L "invalid value "; Q text]
      end
  end.

(** for n := lo; n <= hi; n += step { out.add(n) } *)
Definition range_body (hi step : Z) (st : Z * set) : (Z * set) + set :=
  let '(n, out) := st in
  if (n <=? hi)%Z then inl (wrap64 (n + step), add out n) else inr out.

Definition range_fuel : positive := 256.

Definition add_range (out : set) (lo hi step : Z) : set :=
  match run (range_body hi step) range_fuel (lo, out) with inr s => s | inl st => st.2 end.

(** The bounds and the step one list item stands for. *)
Definition parse_item (f : field) (item : string) : result (Z * Z * Z) :=
  if String.eqb item "" then Err [L "empty list item"] else
  let '(rangePart, stepPart, hasStep) := cut "/" item in
  do! step := (if hasStep then match atoi stepPart with
                              | Some n => if (n <? 1)%Z then Err [L "invalid step "; Q stepPart] else Ok n
                              | None => Err [L "invalid step "; Q stepPart]
                              end
               else Ok 1%Z) in
  if String.eqb rangePart "*" then Ok (f_min f, f_max f, step)
  else if contains_char "-" rangePart then
    let '(a, b, _) := cut "-" rangePart in
    do! lo := value f a in
    do! hi := value f b in
    if (hi <? lo)%Z then Err [L "invalid range "; Q rangePart; L ": it ends before it starts"]
    else Ok (lo, hi, step)
  else
    do! n := value f rangePart in
    Ok (n, if hasStep then f_max f else n, step).

Fixpoint parse_items (f : field) (out : set) (items : list string) : result set :=
  match items with
  | [] => Ok out
  | item :: r => do! (lo, hi, step) := parse_item f item in parse_items f (add_range out lo hi step) r
  end.

Definition parseField (f : field) (text : string) : result set := parse_items f 0%Z (split "," text).

(** fmt.Errorf("%s: %w", name, err) *)
Definition in_field {A} (f : field) (r : result A) : result A :=
  match r with Ok a => Ok a | Err e => Err (S' (f_name f) :: L ": " :: e) end.

Definition Parse (expr : string) : result Schedule :=
  match fields expr with
  | [p0; p1; p2; p3; p4] =>
      do! mi := in_field minute_field (parseField minute_field p0) in
      do! h := in_field hour_field (parseField hour_field p1) in
      do! d := in_field day_field (parseField day_field p2) in
      do! mo := in_field month_field (parseField month_field p3) in
      do! w := in_field weekday_field (parseField weekday_field p4) in
      Ok (mk_schedule mi h d mo (if has w 7 then add w 0 else w)
            (String.eqb p2 "*") (String.eqb p4 "*") (join " " [p0; p1; p2; p3; p4]))
  | parts => Err [L "expected 5 fields (minute hour day-of-month month day-of-week), got ";
                  D (Z.of_nat (List.length parts))]
  end.

(** ** Firing *)

Section Firing.
Local Open Scope Z_scope.

Definition matchesDay (s : Schedule) (t : Time) : bool :=
  if negb (has (months s) (Month t)) then false else
  let d := has (days s) (Day t) in
  let w := has (weekdays s) (Weekday t) in
  if anyDay s && anyWeekday s then true
  else if anyDay s then w
  else if anyWeekday s then d
  else d || w.

Definition Matches (s : Schedule) (t : Time) : bool :=
  has (minutes s) (Minute t) && has (hours s) (Hour t) && matchesDay s t.

(** One round of Next's loop: how far to skip, or what to return. *)
Definition next_body (s : Schedule) (limit : Time) (t : Time) : Time + option Time :=
  if t <? limit then
    if negb (matchesDay s t) then inl (Date (Year t) (Month t) (Day t + 1) 0)
    else if negb (has (hours s) (Hour t)) then inl (Date (Year t) (Month t) (Day t + 0) (Hour t + 1))
    else if negb (has (minutes s) (Minute t)) then inl (t + minute)
    else inr (Some t)
  else inr None.

Definition next_start (after : Time) : Time := TruncateMinute after + minute.
Definition next_limit (after : Time) : Time := AddYears (next_start after) 8.

Definition next_search (s : Schedule) (after : Time) : Time + option Time :=
  let t := next_start after in
  let limit := next_limit after in
  run (next_body s limit) (Z.to_pos (limit - t + 1)) t.

Definition Next (s : Schedule) (after : Time) : Time :=
  match next_search s after with inr (Some t) => t | _ => zero_time end.

(** ** Sets *)

Lemma has_add s n m : 0 ≤ n < 64 → has (add s n) m = has s m || (m =? n).
Proof.
  intros Hn. unfold has, add, bit.
  replace ((0 <=? n) && (n <? 64)) with true by (symmetry; apply andb_true_iff; lia).
  destruct ((0 <=? m) && (m <? 64)) eqn:Hm.
  - assert (0 ≤ m < 64) as Hm' by (apply andb_true_iff in Hm; lia).
    assert (∀ a, (Z.land a (Z.shiftl 1 m) =? 0) = negb (Z.testbit a m)) as Hland.
    { intros a. destruct (Z.testbit a m) eqn:E; simpl.
      - apply Z.eqb_neq. intros H0. assert (Z.testbit (Z.land a (Z.shiftl 1 m)) m = false) as H1
          by (rewrite H0; apply Z.testbit_0_l).
        rewrite Z.land_spec, E, Z.shiftl_spec, Z.sub_diag in H1 by lia. done.
      - apply Z.eqb_eq. apply Z.bits_inj'. intros k Hk.
        rewrite Z.land_spec, Z.shiftl_spec, Z.testbit_0_l by lia.
        destruct (Z.eq_dec k m) as [->|]; [by rewrite E|].
        destruct (Z.ltb_spec (k - m) 0); [by rewrite (Z.testbit_neg_r 1) by lia; rewrite andb_false_r|].
        rewrite (Z.bits_above_log2 1 (k - m)); [by rewrite andb_false_r|lia|simpl; lia]. }
    rewrite !Hland, !negb_involutive, Z.lor_spec. f_equal.
    rewrite Z.shiftl_spec by lia. destruct (Z.eqb_spec m n) as [->|].
    + by rewrite Z.sub_diag.
    + destruct (Z.ltb_spec (m - n) 0); [by apply Z.testbit_neg_r|].
      apply Z.bits_above_log2; [lia|simpl; lia].
  - rewrite !Z.land_0_r. simpl. symmetry. apply Z.eqb_neq.
    apply andb_false_iff in Hm. lia.
Qed.

Lemma has_0 n : has 0 n = false.
Proof. unfold has. by rewrite Z.land_0_l. Qed.

Lemma bit_outside n : ¬ (0 ≤ n < 64) → bit n = 0.
Proof. unfold bit. intros H. destruct (Z.leb_spec 0 n), (Z.ltb_spec n 64); simpl; try done; lia. Qed.

(** ** The range loop *)

Lemma range_body_step hi step n out :
  range_body hi step (n, out) = if n <=? hi then inl (wrap64 (n + step), add out n) else inr out.
Proof. done. Qed.

(** Without wrap-around the loop ends within one round per value. *)
Lemma range_run_exact lo hi step p out :
  0 ≤ lo → hi < 64 → 1 ≤ step ≤ max_int64 - 64 → Z.max 0 (hi - lo + 1) < Z.pos p →
  ∃ s, run (range_body hi step) p (lo, out) = inr s ∧
    ∀ m, has s m = true ↔ has out m = true ∨ (lo ≤ m ≤ hi ∧ (m - lo) mod step = 0).
Proof.
  intros Hlo Hhi Hs Hp.
  set (I := λ st : Z * Z, lo ≤ st.1 ∧ (st.1 - lo) mod step = 0 ∧
    ∀ m, has st.2 m = true ↔ has out m = true ∨ (lo ≤ m ≤ hi ∧ m < st.1 ∧ (m - lo) mod step = 0)).
  assert (I (lo, out)) as HI.
  { unfold I; simpl. rewrite Z.sub_diag, Z.mod_0_l by lia. split_and!; [lia|done|].
    intros m. split; [by left|]. intros [?|?]; [done|lia]. }
  assert (∀ st st', I st → range_body hi step st = inl st' →
            I st' ∧ Z.max 0 (hi - st'.1 + 1) < Z.max 0 (hi - st.1 + 1)) as Hstep.
  { intros [n o] [n' o'] (H1 & H2 & H3) E. rewrite range_body_step in E. simpl in H1, H2, H3.
    destruct (Z.leb_spec n hi); [|done]. simplify_eq.
    unfold max_int64 in Hs. rewrite wrap64_id by (unfold min_int64, max_int64; lia).
    unfold I; simpl. split; [|lia]. split_and!; [lia| |].
    - replace (n + step - lo) with (n - lo + 1 * step) by lia. by rewrite Z.mod_add by lia.
    - intros m. rewrite has_add, orb_true_iff, H3, Z.eqb_eq by lia. split.
      + intros [[?|?]| ->]; [by left|right; lia|right; split_and!; [lia..|done]].
      + intros [?|(? & ? & Hm)]; [by left; left|].
        destruct (Z.ltb_spec m n); [left; right; split_and!; [lia..|done]|].
        right. assert ((m - n) mod step = 0) as Hmn.
        { replace (m - n) with ((m - lo) - (n - lo)) by lia. rewrite Zminus_mod, Hm, H2. by rewrite Z.mod_0_l by lia. }
        rewrite Z.mod_small in Hmn by lia. lia. }
  destruct (run_finishes (range_body hi step) I (λ st, Z.max 0 (hi - st.1 + 1)) p (lo, out)) as [s Hrun];
    [done|lia|done|simpl; lia|].
  exists s. split; [done|]. revert Hrun. apply (run_returns _ I
    (λ s, ∀ m, has s m = true ↔ has out m = true ∨ (lo ≤ m ≤ hi ∧ (m - lo) mod step = 0)));
    [intros ?? HI' E; exact (proj1 (Hstep _ _ HI' E))| |done].
  intros [n o] b (H1 & H2 & H3) E m. rewrite range_body_step in E. simpl in *.
  destruct (Z.leb_spec n hi); [done|]. simplify_eq. rewrite H3. split.
  - intros [?|?]; [by left|right; tauto].
  - intros [?|[? ?]]; [by left|right; split_and!; [lia..|done]].
Qed.

(** A step close to 2^63 wraps, and comes back two short each time: the loop
    still ends well within its bound. *)
Lemma range_run_wraps lo hi step out :
  0 ≤ lo < 64 → hi < 64 → max_int64 - 64 < step ≤ max_int64 →
  ∃ s, run (range_body hi step) range_fuel (lo, out) = inr s.
Proof.
  intros Hlo Hhi Hs. unfold max_int64 in *.
  set (e := 2 ^ 63 - step).
  set (I := λ st : Z * Z, -64 ≤ st.1 ∨ - 2 ^ 63 ≤ st.1 < - 2 ^ 63 + 64 - e).
  set (m := λ st : Z * Z, if st.1 <=? hi then
              if -64 <=? st.1 then st.1 + 65 else Z.max 0 (st.1 + 2 ^ 63 - e + 66) else 0).
  apply (run_finishes _ I m).
  - intros [n o] [n' o'] HI E. rewrite range_body_step in E.
    destruct (Z.leb_spec n hi) as [Hn|]; [|done]. simplify_eq. unfold I, m in *; simpl in *.
    destruct (Z.leb_spec n hi); [|lia].
    destruct (Z.leb_spec (-64) n) as [Hn64|Hn64].
    + destruct (Z.ltb_spec n e).
      * rewrite wrap64_id by (unfold min_int64, max_int64; lia). split; [left; lia|].
        destruct (Z.leb_spec (n + step) hi); lia.
      * assert (wrap64 (n + step) = n + step - 2 ^ 64) as ->.
        { unfold wrap64. rewrite <- (Z.mod_unique _ (2 ^ 64) 1 (n + step + 2 ^ 63 - 2 ^ 64)); lia. }
        split; [right; lia|].
        destruct (Z.leb_spec (n + step - 2 ^ 64) hi); [|lia].
        destruct (Z.leb_spec (-64) (n + step - 2 ^ 64)); lia.
    + rewrite wrap64_id by (unfold min_int64, max_int64; lia). split; [left; lia|].
      destruct (Z.leb_spec (n + step) hi); [|lia].
      destruct (Z.leb_spec (-64) (n + step)); lia.
  - intros [n o] HI. unfold I, m in *; simpl in *.
    destruct (Z.leb_spec n hi); [|lia]. destruct (Z.leb_spec (-64) n); lia.
  - left. simpl. lia.
  - unfold m, range_fuel; simpl. destruct (Z.leb_spec lo hi); [|lia].
    destruct (Z.leb_spec (-64) lo); lia.
Qed.

(** ** The search *)

Lemma next_body_before s limit t : t < limit →
  next_body s limit t =
    if negb (matchesDay s t) then inl ((day_number t + 1) * day)
    else if negb (has (hours s) (Hour t)) then inl (day_number t * day + (Hour t + 1) * hour)
    else if negb (has (minutes s) (Minute t)) then inl (t + minute)
    else inr (Some t).
Proof.
  intros H. unfold next_body. destruct (Z.ltb_spec t limit); [|lia].
  rewrite !Date_of_day. rewrite Z.mul_0_l, !Z.add_0_r. done.
Qed.

Lemma matchesDay_same_day s t t' : day_number t = day_number t' → matchesDay s t = matchesDay s t'.
Proof. intros H. apply same_day in H as (Hm & Hd & Hw). unfold matchesDay. by rewrite Hm, Hd, Hw. Qed.

Lemma hour_of_day t : day_number t * 24 + Hour t = t / hour.
Proof.
  unfold Hour, day_number, day. replace (24 * hour) with (hour * 24) by lia.
  rewrite <- Z.div_div by (unfold hour, minute, second; lia).
  rewrite (Z.div_mod (t / hour) 24) at 3 by lia. lia.
Qed.

(** Instants between t and the start of the hour after it are in t's hour. *)
Lemma same_hour t t' : t ≤ t' < day_number t * day + (Hour t + 1) * hour →
  Hour t' = Hour t ∧ day_number t' = day_number t.
Proof.
  intros H. pose proof (hour_of_day t) as E. pose proof (hour_of_day t') as E'.
  pose proof (Hour_range t). pose proof (Hour_range t').
  assert (0 < hour) as Hh by (unfold hour, minute, second; lia).
  assert (t' / hour = t / hour) as Eh; [|lia].
  assert (t / hour ≤ t' / hour) by (apply Z.div_le_mono; lia).
  assert (t' / hour < t / hour + 1) as ?; [|lia].
  apply Z.div_lt_upper_bound; [done|]. unfold day in H. nia.
Qed.

Lemma before_next_hour t : t < day_number t * day + (Hour t + 1) * hour.
Proof.
  pose proof (hour_of_day t) as E. assert (0 < hour) as Hh by (unfold hour, minute, second; lia).
  pose proof (Z.mod_pos_bound t hour Hh). pose proof (Z.div_mod t hour ltac:(lia)). unfold day. nia.
Qed.

Lemma before_next_day t : t < (day_number t + 1) * day.
Proof.
  assert (0 < day) as Hh by (unfold day, hour, minute, second; lia).
  pose proof (Z.mod_pos_bound t day Hh). pose proof (Z.div_mod t day ltac:(lia)). unfold day_number. nia.
Qed.

Lemma rest_of_day t u : t ≤ u < (day_number t + 1) * day → day_number u = day_number t.
Proof.
  intros H. assert (0 < day) as Hh by (unfold day, hour, minute, second; lia). unfold day_number in *.
  assert (t / day ≤ u / day) by (apply Z.div_le_mono; lia).
  assert (u / day < t / day + 1); [|lia]. apply Z.div_lt_upper_bound; lia.
Qed.

Lemma whole_minutes a b c : (a * day + b * hour + c * minute) mod minute = 0.
Proof.
  unfold day, hour. replace (a * (24 * (60 * minute)) + b * (60 * minute) + c * minute)
    with ((a * 1440 + b * 60 + c) * minute) by lia.
  apply Z.mod_mul. unfold minute, second. lia.
Qed.

(** One round that goes on: it moves to a later whole minute, and no minute it
    skips fires. *)
Lemma next_round s limit t t' :
  t mod minute = 0 → next_body s limit t = inl t' →
  t < t' ∧ t < limit ∧ t' mod minute = 0 ∧
  ∀ u, t ≤ u < t' → u mod minute = 0 → Matches s u = false.
Proof.
  intros Ha H. destruct (Z.ltb_spec t limit) as [Hl|Hl].
  2: { unfold next_body in H. destruct (Z.ltb_spec t limit); [lia|done]. }
  rewrite next_body_before in H by done. unfold Matches.
  destruct (matchesDay s t) eqn:Hd; simpl in H.
  2: { simplify_eq. split_and!; [apply before_next_day|done| |].
       - rewrite <- (whole_minutes (day_number t + 1) 0 0). f_equal. lia.
       - intros u Hu _. rewrite (matchesDay_same_day s u t), Hd by (by apply rest_of_day).
         apply andb_false_r. }
  destruct (has (hours s) (Hour t)) eqn:Hh; simpl in H.
  2: { simplify_eq. split_and!; [apply before_next_hour|done| |].
       - rewrite <- (whole_minutes (day_number t) (Hour t + 1) 0). f_equal. lia.
       - intros u Hu _. apply same_hour in Hu as [-> _]. by rewrite Hh, andb_false_r. }
  destruct (has (minutes s) (Minute t)) eqn:Hm; simpl in H; [done|]. simplify_eq.
  split_and!; [unfold minute, second; lia|done|unfold minute, second in *; dlia|].
  intros u Hu Hua. assert (u = t) as -> by (unfold minute, second in *; dlia). by rewrite Hm.
Qed.

Lemma next_round_end s limit t r :
  next_body s limit t = inr r →
  match r with Some u => u = t ∧ t < limit ∧ Matches s t = true | None => limit ≤ t end.
Proof.
  unfold next_body, Matches. destruct (Z.ltb_spec t limit); [|by intros; simplify_eq].
  destruct (matchesDay s t), (has (hours s) (Hour t)), (has (minutes s) (Minute t)); simpl; intros; by simplify_eq.
Qed.

Lemma next_start_spec after :
  after < next_start after ∧ next_start after mod minute = 0 ∧
  ∀ u, u mod minute = 0 → after < u → next_start after ≤ u.
Proof. unfold next_start, TruncateMinute, minute, second. split_and!; [dlia|dlia|intros; dlia]. Qed.

(** What the search has established when it stands at [t]. *)
Definition searched (s : Schedule) (after t : Time) : Prop :=
  t mod minute = 0 ∧ after < t ∧
  ∀ u, after < u < t → u mod minute = 0 → Matches s u = false.

Lemma searched_start s after : searched s after (next_start after).
Proof.
  destruct (next_start_spec after) as (H1 & H2 & H3). split_and!; [done..|].
  intros u [? ?] Hu. specialize (H3 u Hu). lia.
Qed.

Lemma searched_step s after limit t t' :
  searched s after t → next_body s limit t = inl t' → searched s after t'.
Proof.
  intros (H1 & H2 & H3) E. apply next_round in E as (Hlt & _ & Ha & Hskip); [|done].
  split_and!; [done|lia|]. intros u Hu Hua.
  destruct (Z.ltb_spec u t); [apply H3; [lia|done]|apply Hskip; [lia|done]].
Qed.

(** The search is never cut short by its bound. *)
Lemma next_search_ends s after : ∃ r, next_search s after = inr r.
Proof.
  unfold next_search.
  apply (run_finishes _ (searched s after) (λ t, Z.max 0 (next_limit after - t))).
  - intros t t' HI E. split; [by eapply searched_step|].
    apply next_round in E as (? & ? & _); [lia|apply HI].
  - lia.
  - apply searched_start.
  - lia.
Qed.

(** What the search returns: the first firing minute, or the absence of one
    before the limit. *)
Definition found (s : Schedule) (after : Time) (r : option Time) : Prop :=
  match r with
  | Some t => searched s after t ∧ Matches s t = true
  | None => ∀ u, after < u < next_limit after → u mod minute = 0 → Matches s u = false
  end.

Lemma round_found s after t r :
  searched s after t → next_body s (next_limit after) t = inr r → found s after r.
Proof.
  intros HI E. apply next_round_end in E. destruct r as [u|]; simpl.
  - by destruct E as (-> & _ & ?).
  - intros v Hv Hva. apply HI; [lia|done].
Qed.

Lemma next_search_spec s after r : next_search s after = inr r → found s after r.
Proof.
  unfold next_search. intros Hr. eapply run_returns; [| |apply searched_start|exact Hr].
  - intros t t' HI E. by eapply searched_step.
  - intros t r'. apply round_found.
Qed.
End Firing.

#[export] Hint Resolve searched_start searched_step next_search_ends : shipwick.
#[export] Hint Rewrite has_0 : shipwick_rw.

(** ** Well-formed fields *)

Definition wf_field (f : field) : Prop :=
  (0 ≤ f_min f ∧ f_max f < 64 ∧ f_min f + Z.of_nat (List.length (f_names f)) - 1 ≤ f_max f)%Z.

Lemma wf_fields : Forall wf_field [minute_field; hour_field; day_field; month_field; weekday_field].
Proof. repeat constructor; simpl; lia. Qed.

Lemma name_index_bounds i text names k :
  name_index i text names = Some k → (i ≤ k < i + Z.of_nat (List.length names))%Z.
Proof.
  revert i. induction names as [|n r IH]; intros i H; simpl in *; [done|].
  destruct (equal_fold n text); [simplify_eq; lia|]. apply IH in H. lia.
Qed.

Lemma value_bounds f text n : wf_field f → value f text = Ok n → (f_min f ≤ n ≤ f_max f)%Z.
Proof.
  intros (? & ? & Hn) Hv. unfold value in Hv. destruct (atoi text) as [k|].
  - destruct (Z.ltb_spec k (f_min f)), (Z.ltb_spec (f_max f) k); simpl in Hv; simplify_eq; lia.
  - destruct (name_index 0 text (f_names f)) eqn:E; simplify_eq. apply name_index_bounds in E. lia.
Qed.

Lemma atoi_range s n : atoi s = Some n → (min_int64 ≤ n ≤ max_int64)%Z.
Proof.
  unfold atoi. intros H. destruct (match s with "" => _ | _ => _ end) as [neg body].
  destruct (parse_digits body) as [k|]; simpl in H; [|done].
  destruct (in_int64 _) eqn:E in H; simplify_eq. unfold in_int64 in E. bools. lia.
Qed.

(** An item the parser accepts names a non-empty part of the field's range and
    a step of at least one. *)
Lemma parse_item_bounds f item lo hi step :
  wf_field f → (f_min f ≤ f_max f)%Z → parse_item f item = Ok (lo, hi, step) →
  (f_min f ≤ lo ≤ hi ∧ hi ≤ f_max f ∧ 1 ≤ step ≤ max_int64)%Z.
Proof.
  intros Hf Hm H. unfold parse_item in H. destruct (String.eqb item ""); [done|].
  destruct (cut "/" item) as [[rp sp] hasStep]. apply rbind_ok in H as (st & Hst & H).
  assert (1 ≤ st ≤ max_int64)%Z as Hs.
  { destruct hasStep; [|simplify_eq; unfold max_int64; lia].
    destruct (atoi sp) as [n|] eqn:E; [|done]. apply atoi_range in E.
    destruct (Z.ltb_spec n 1); simplify_eq. lia. }
  destruct (String.eqb rp "*"); [simplify_eq; lia|].
  destruct (contains_char "-" rp).
  - destruct (cut "-" rp) as [[a b] ?]. apply rbind_ok in H as (x & Hx & H).
    apply rbind_ok in H as (y & Hy & H). apply value_bounds in Hx, Hy; [|done..].
    destruct (Z.ltb_spec y x); simplify_eq. lia.
  - apply rbind_ok in H as (x & Hx & H). apply value_bounds in Hx; [|done].
    simplify_eq. destruct hasStep; lia.
Qed.

(** No step of the list is so large that the loop's counter wraps. *)
Definition step_fits (f : field) (item : string) : bool :=
  match parse_item f item with Ok (_, _, step) => (step <=? max_int64 - 64)%Z | Err _ => true end.
Definition steps_fit (f : field) (text : string) : bool := forallb (step_fits f) (split "," text).

(** The value [m] is one of those the item lists. *)
Definition selects (f : field) (item : string) (m : Z) : Prop :=
  ∃ lo hi step, parse_item f item = Ok (lo, hi, step) ∧ (lo ≤ m ≤ hi ∧ (m - lo) mod step = 0)%Z.

Lemma add_range_exact out lo hi step :
  (0 ≤ lo → hi < 64 → 1 ≤ step ≤ max_int64 - 64 →
   ∀ m, has (add_range out lo hi step) m = true ↔ has out m = true ∨ (lo ≤ m ≤ hi ∧ (m - lo) mod step = 0))%Z.
Proof.
  intros Hlo Hhi Hs. unfold add_range.
  destruct (range_run_exact lo hi step range_fuel out) as (s & -> & H); [done|done|done| |done].
  unfold range_fuel. lia.
Qed.

Lemma parse_items_exact f items : wf_field f → (f_min f ≤ f_max f)%Z →
  ∀ out s, parse_items f out items = Ok s → forallb (step_fits f) items = true →
  ∀ m, has s m = true ↔ has out m = true ∨ ∃ item, item ∈ items ∧ selects f item m.
Proof.
  intros Hf Hm. induction items as [|item r IH]; intros out s H Hfit m; simpl in *.
  - simplify_eq. split; [by left|]. intros [?|(? & ?%elem_of_nil & _)]; done.
  - apply rbind_ok in H as ([[lo hi] step] & Hi & H). bools.
    pose proof (parse_item_bounds f item lo hi step Hf Hm Hi) as Hb. destruct Hf as (? & ? & ?).
    rewrite (IH _ _ H) by done. rewrite add_range_exact; [|lia..|].
    2: { unfold step_fits in *. rewrite Hi in *. lia. }
    setoid_rewrite elem_of_cons. split.
    + intros [[?|Hsel]|(it & ? & ?)]; [by left| |by right; eauto].
      right. exists item. split; [by left|]. by exists lo, hi, step.
    + intros [?|(it & [->|?] & Hsel)]; [by left; left| |by right; eauto].
      left; right. destruct Hsel as (lo' & hi' & st' & E & ?). rewrite Hi in E. by simplify_eq.
Qed.

Lemma Parse_fields e s : Parse e = Ok s → ∃ p0 p1 p2 p3 p4 w,
  fields e = [p0; p1; p2; p3; p4] ∧ parseField minute_field p0 = Ok (minutes s) ∧
  parseField hour_field p1 = Ok (hours s) ∧ parseField day_field p2 = Ok (days s) ∧
  parseField month_field p3 = Ok (months s) ∧ parseField weekday_field p4 = Ok w ∧
  weekdays s = (if has w 7 then add w 0 else w) ∧
  anyDay s = String.eqb p2 "*" ∧ anyWeekday s = String.eqb p4 "*" ∧ expr s = join " " (fields e).
Proof.
  unfold Parse. intros H. destruct (fields e) as [|p0 [|p1 [|p2 [|p3 [|p4 [|]]]]]] eqn:E; try done.
  repeat match type of H with
  | rbind (in_field ?f ?x) _ = _ =>
      let a := fresh "v" in let Ha := fresh "Hv" in
      apply rbind_ok in H as (a & Ha & H);
      destruct (parseField _ _) eqn:? in Ha; simpl in Ha; [injection Ha as <-|discriminate Ha]
  end.
  simplify_eq. exists p0, p1, p2, p3, p4. eexists. by split_and!.
Qed.

(** ** Properties *)

(** A field is read as the union of what its comma-separated items list:
    a parsed set holds a value exactly when some item's range holds it at a
    multiple of the item's step.  The steps are those that do not make the
    loop's 64-bit counter wrap. *)
Theorem parseField_exact (f : field) (text : string) (s : set)
  (Hf : wf_field f) (Hne : (f_min f ≤ f_max f)%Z)
  (Hp : parseField f text = Ok s) (Hfit : steps_fit f text = true) :
  ∀ m, has s m = true ↔ ∃ item, item ∈ split "," text ∧ selects f item m.
Proof.
  intros m. rewrite (parse_items_exact f _ Hf Hne 0%Z s Hp Hfit m), has_0.
  split; [intros [?|?]; done|by right].
Qed.

Lemma parseField_exact_witness :
  steps_fit minute_field "0,10-20/5" = true ∧
  has (match parseField minute_field "0,10-20/5" with Ok s => s | Err _ => 0%Z end) 15 = true ∧
  ∃ item, item ∈ split "," "0,10-20/5" ∧ selects minute_field item 15.
Proof.
  split; [vm_compute; reflexivity|]. split; [vm_compute; reflexivity|].
  apply (parseField_exact minute_field "0,10-20/5"
           (match parseField minute_field "0,10-20/5" with Ok s => s | Err _ => 0%Z end));
    [split; simpl; lia|simpl; lia|vm_compute; reflexivity..].
Defined.

(** C40: the search behind [Next] always ends, and finds what it promises:
    either the first whole minute after [after] in which the schedule fires,
    every earlier one being silent, or, when no minute before the eight-year
    limit fires, the zero time. *)
Theorem Next_first_firing (s : Schedule) (after : Z) :
  (∃ t, next_search s after = inr (Some t) ∧ Next s after = t ∧
        after < t ∧ t mod minute = 0 ∧ Matches s t = true ∧
        ∀ u, after < u < t → u mod minute = 0 → Matches s u = false)%Z
  ∨ (next_search s after = inr None ∧ Next s after = zero_time ∧
     ∀ u, after < u < next_limit after → u mod minute = 0 → Matches s u = false)%Z.
Proof.
  destruct (next_search_ends s after) as [[t|] Hr]; [left|right];
    pose proof (next_search_spec s after _ Hr) as Hs; unfold Next; rewrite Hr.
  - destruct Hs as [(? & ? & ?) ?]. by exists t.
  - by split_and!.
Qed.

(** The text of a parsed schedule, its fields separated by single spaces,
    parses again to the same schedule. *)
Theorem Parse_String_roundtrip (e : string) (s : Schedule) (H : Parse e = Ok s) :
  Parse (expr s) = Ok s.
Proof.
  destruct (Parse_fields e s H) as (p0 & p1 & p2 & p3 & p4 & w & E & _ & _ & _ & _ & _ & _ & _ & _ & ->).
  unfold Parse in *. rewrite fields_fields. by rewrite E in *.
Qed.

Lemma Parse_String_roundtrip_witness :
  Parse (expr (match Parse "  */15   3 * *	mon " with Ok s => s | Err _ => mk_schedule 0 0 0 0 0 true true "" end))
  = Parse "*/15 3 * * mon".
Proof.
  rewrite (Parse_String_roundtrip "  */15   3 * *	mon "); [vm_compute; reflexivity|vm_compute; reflexivity].
Defined.

(** The range loop of every item the parser accepts ends, whatever the
    step: also one so large that the 64-bit counter wraps below the range and
    climbs back into it. *)
Theorem range_loop_ends (f : field) (item : string) (lo hi step : Z) (out : set)
  (Hf : wf_field f) (Hne : (f_min f ≤ f_max f)%Z) (Hi : parse_item f item = Ok (lo, hi, step)) :
  ∃ s, run (range_body hi step) range_fuel (lo, out) = inr s.
Proof.
  pose proof (parse_item_bounds f item lo hi step Hf Hne Hi) as Hb. destruct Hf as (? & ? & _).
  destruct (Z.leb_spec step (max_int64 - 64)).
  - destruct (range_run_exact lo hi step range_fuel out) as (s & ? & _); [lia..| |by exists s].
    unfold range_fuel. lia.
  - apply range_run_wraps; lia.
Qed.

Lemma range_loop_ends_witness :
  ∃ s, run (range_body 59 max_int64) range_fuel (5%Z, 0%Z) = inr s.
Proof.
  apply (range_loop_ends minute_field "5/9223372036854775807" 5 59 max_int64 0);
    [split; simpl; lia|simpl; lia|vm_compute; reflexivity].
Defined.

(** A step that wraps the counter selects values the item does not list:
    "5/9223372036854775807" is minute 5 and also minutes 3 and 1. *)
Theorem Parse_wrapped_step :
  ∃ s, Parse "5/9223372036854775807 * * * *" = Ok s ∧
    has (minutes s) 5 = true ∧ has (minutes s) 3 = true ∧ has (minutes s) 1 = true ∧
    ¬ selects minute_field "5/9223372036854775807" 3.
Proof.
  destruct (Parse "5/9223372036854775807 * * * *") as [s|] eqn:E; [|vm_compute in E; discriminate].
  exists s. vm_compute in E. injection E as <-. split_and!; [done|vm_compute; reflexivity..|].
  intros (lo & hi & step & H & Hb & _). vm_compute in H. simplify_eq. lia.
Qed.
