(* ===== verification/Version.v ===== *)
(** * Versions (pkg/version/version.go)

    [Parse] and [Compare] of build versions.  Comparison functions answer -1,
    0 or 1; [CmpOrder] is what such a function promises its callers, and each
    layer of the comparison (numbers, texts, identifiers, lists of them)
    keeps the promise of the one below. *)

From S2P Require Import Prelude GoStrings.
From Stdlib Require Import Ascii String.
Local Open Scope string_scope.

Record Semver := mk_semver { Major : Z; Minor : Z; Patch : Z; Prerelease : string }.

#[export] Instance Semver_eq_dec : EqDecision Semver.
Proof. solve_decision. Defined.

Definition is_hex (c : ascii) : bool := is_digit c || in_range 97 102 c.

(** The suffix `git describe` gives a commit that is not the tag. *)
Definition describesCommit (prerelease : string) : bool :=
  let '(rest, dirty) := match cut_suffix "dirty" prerelease with
                        | Some r => (r, true) | None => (prerelease, false) end in
  if dirty && String.eqb rest "" then true else
  match rev (split "-" (trim_suffix "-" rest)) with
  | last :: count :: _ =>
      let hash := trim_prefix "g" last in
      if String.eqb count "" || (slen hash <? 4)%Z || (slen hash =? slen last)%Z then false
      else str_forall is_digit count && str_forall is_hex hash
  | _ => false
  end.

(** One of the three numbers: written the one way Itoa writes it. *)
Definition version_number (p : string) : option Z :=
  n ← atoi p;
  if (n <? 0)%Z || negb (String.eqb p (itoa n)) then None else Some n.

Definition Parse (s : string) : option Semver :=
  let s := trim_prefix "v" (trim_space s) in
  let '(s, _, _) := cut "+" s in
  let '(s, pre, dashed) := cut "-" s in
  if dashed && (String.eqb pre "" || describesCommit pre) then None else
  match split "." s with
  | [a; b; c] =>
      x ← version_number a; y ← version_number b; z ← version_number c;
      Some (mk_semver x y z (if dashed then pre else ""))
  | _ => None
  end.

Definition sign (n : Z) : Z := if (n <? 0)%Z then -1 else if (0 <? n)%Z then 1 else 0.

(** One round of comparePrerelease's loop. *)
Definition compare_identifier (a b : string) : Z :=
  match atoi a, atoi b with
  | Some na, Some nb => if negb (na =? nb)%Z then sign (wrap64 (na - nb)) else 0
  | Some _, None => -1
  | None, Some _ => 1
  | None, None => str_compare a b
  end.

Fixpoint compare_identifiers (la lb : list string) : Z :=
  match la, lb with
  | a :: ra, b :: rb =>
      let c := compare_identifier a b in
      if negb (c =? 0)%Z then c else compare_identifiers ra rb
  | _, _ => sign (Z.of_nat (List.length la) - Z.of_nat (List.length lb))
  end.

Definition comparePrerelease (a b : string) : Z := compare_identifiers (split "." a) (split "." b).

Definition compare_parsed (va vb : Semver) : Z :=
  let d := wrap64 (Major va - Major vb) in
  if negb (d =? 0)%Z then sign d else
  let d := wrap64 (Minor va - Minor vb) in
  if negb (d =? 0)%Z then sign d else
  let d := wrap64 (Patch va - Patch vb) in
  if negb (d =? 0)%Z then sign d else
  if String.eqb (Prerelease va) (Prerelease vb) then 0%Z
  else if String.eqb (Prerelease va) "" then 1%Z
  else if String.eqb (Prerelease vb) "" then (-1)%Z
  else comparePrerelease (Prerelease va) (Prerelease vb).

Definition Compare (a b : string) : Z :=
  match Parse a, Parse b with
  | None, None => 0
  | None, Some _ => -1
  | Some _, None => 1
  | Some va, Some vb => compare_parsed va vb
  end.

(** ** What a comparison promises *)

Class CmpOrder {A} (P : A → Prop) (c : A → A → Z) := {
  cmp_range x y : P x → P y → (-1 ≤ c x y ≤ 1)%Z;
  cmp_antisym x y : P x → P y → c y x = (- c x y)%Z;
  cmp_trans x y z : P x → P y → P z → (c x y ≤ 0 → c y z ≤ 0 → c x z ≤ 0)%Z
}.

Section CmpFacts.
Context {A} (P : A → Prop) (c : A → A → Z) `{!CmpOrder P c}.
Local Open Scope Z_scope.

(** Elements that compare equal compare alike with everything else. *)
Lemma cmp_eq_l x y z : P x → P y → P z → c x y = 0 → c x z = c y z.
Proof.
  intros Hx Hy Hz E. pose proof (cmp_antisym x y Hx Hy) as Eyx.
  pose proof (cmp_range x z Hx Hz). pose proof (cmp_range y z Hy Hz).
  pose proof (cmp_trans x y z Hx Hy Hz). pose proof (cmp_trans y x z Hy Hx Hz).
  pose proof (cmp_trans z x y Hz Hx Hy). pose proof (cmp_trans z y x Hz Hy Hx).
  pose proof (cmp_antisym x z Hx Hz). pose proof (cmp_antisym y z Hy Hz). lia.
Qed.

Lemma cmp_refl x : P x → c x x = 0.
Proof. intros Hx. pose proof (cmp_antisym x x Hx Hx). lia. Qed.

(** A difference in [c] decides; without one the rest ([d]) does. *)
Definition or_else (cxy d : Z) : Z := if negb (cxy =? 0) then cxy else d.

Lemma or_else_range x y d : P x → P y → -1 ≤ d ≤ 1 → -1 ≤ or_else (c x y) d ≤ 1.
Proof. intros. unfold or_else. destruct (negb _); [by apply cmp_range|done]. Qed.

Lemma or_else_antisym x y d d' : P x → P y → d' = - d → or_else (c y x) d' = - or_else (c x y) d.
Proof.
  intros Hx Hy ->. unfold or_else. rewrite (cmp_antisym x y) by done.
  destruct (Z.eqb_spec (c x y) 0) as [->|]; simpl; [done|].
  destruct (Z.eqb_spec (- c x y) 0); simpl; lia.
Qed.

Lemma or_else_trans x y z dxy dyz dxz : P x → P y → P z →
  (dxy ≤ 0 → dyz ≤ 0 → dxz ≤ 0) →
  or_else (c x y) dxy ≤ 0 → or_else (c y z) dyz ≤ 0 → or_else (c x z) dxz ≤ 0.
Proof.
  intros Hx Hy Hz Hd. unfold or_else.
  destruct (Z.eqb_spec (c x y) 0) as [E|E]; simpl.
  - rewrite <- (cmp_eq_l x y z Hx Hy Hz E). destruct (negb _); [lia|done].
  - destruct (Z.eqb_spec (c y z) 0) as [E'|E']; simpl.
    + assert (c x z = c x y) as ->.
      { rewrite (cmp_antisym z x), (cmp_antisym y x) by done. f_equal. symmetry.
        apply cmp_eq_l; done. }
      destruct (Z.eqb_spec (c x y) 0); simpl; [done|lia].
    + intros H1 H2. pose proof (cmp_trans x y z Hx Hy Hz H1 H2).
      destruct (Z.eqb_spec (c x z) 0) as [E''|]; simpl; [|done]. exfalso.
      rewrite (cmp_eq_l x z y Hx Hz Hy E'') in E, H1.
      pose proof (cmp_antisym y z Hy Hz). pose proof (cmp_range y z Hy Hz). lia.
Qed.
End CmpFacts.

(** ** The layers *)

Section Layers.
Local Open Scope Z_scope.

(** Integers whose difference fits a word compare by the sign of it. *)
Definition nonneg (n : Z) : Prop := 0 ≤ n ≤ max_int64.

Lemma sign_wrap_sub a b : nonneg a → nonneg b →
  sign (wrap64 (a - b)) = if a <? b then -1 else if b <? a then 1 else 0.
Proof.
  unfold nonneg, max_int64, sign. intros. rewrite wrap64_id by (unfold min_int64, max_int64; lia).
  destruct (Z.ltb_spec (a - b) 0), (Z.ltb_spec a b), (Z.ltb_spec 0 (a - b)), (Z.ltb_spec b a); lia.
Qed.

Definition cmp_int (a b : Z) : Z := sign (wrap64 (a - b)).

#[export] Instance cmp_int_order : CmpOrder nonneg cmp_int.
Proof.
  unfold cmp_int. split.
  - intros x y Hx Hy. rewrite sign_wrap_sub by done. repeat case_match; lia.
  - intros x y Hx Hy. rewrite !sign_wrap_sub by done.
    destruct (Z.ltb_spec x y), (Z.ltb_spec y x); lia.
  - intros x y z Hx Hy Hz. rewrite !sign_wrap_sub by done.
    destruct (Z.ltb_spec x y), (Z.ltb_spec y x), (Z.ltb_spec y z), (Z.ltb_spec z y), (Z.ltb_spec x z), (Z.ltb_spec z x); lia.
Qed.

#[export] Instance str_compare_order : CmpOrder (λ _ : string, True) str_compare.
Proof.
  split.
  - intros x y _ _. apply str_compare_range.
  - intros x y _ _. apply str_compare_antisym.
  - intros x y z _ _ _. apply str_compare_trans.
Qed.

(** An identifier that does not read as a negative number. *)
Definition natural (a : string) : Prop := match atoi a with Some n => 0 ≤ n | None => True end.

Lemma natural_nonneg a n : natural a → atoi a = Some n → nonneg n.
Proof.
  unfold natural, nonneg. intros Ha E. rewrite E in Ha. split; [done|]. revert E. unfold atoi.
  destruct (match a with "" => _ | _ => _ end) as [neg body]. destruct (parse_digits body); simpl; [|done].
  destruct (in_int64 _) eqn:E; [|done]. unfold in_int64 in E. bools. intros; simplify_eq. lia.
Qed.

Lemma compare_identifier_int a b na nb : atoi a = Some na → atoi b = Some nb →
  compare_identifier a b = cmp_int na nb.
Proof.
  intros Ha Hb. unfold compare_identifier, cmp_int. rewrite Ha, Hb.
  destruct (Z.eqb_spec na nb) as [->|]; simpl; [|done]. by rewrite Z.sub_diag.
Qed.

#[export] Instance compare_identifier_order : CmpOrder natural compare_identifier.
Proof.
  split.
  - intros x y Hx Hy. destruct (atoi x) as [n|] eqn:Ex, (atoi y) as [m|] eqn:Ey.
    + rewrite (compare_identifier_int x y n m) by done. apply (cmp_range (P:=nonneg)); eauto using natural_nonneg.
    + unfold compare_identifier. rewrite Ex, Ey. lia.
    + unfold compare_identifier. rewrite Ex, Ey. lia.
    + unfold compare_identifier. rewrite Ex, Ey. apply str_compare_range.
  - intros x y Hx Hy. destruct (atoi x) as [n|] eqn:Ex, (atoi y) as [m|] eqn:Ey.
    + rewrite (compare_identifier_int x y n m), (compare_identifier_int y x m n) by done.
      apply (cmp_antisym (P:=nonneg)); eauto using natural_nonneg.
    + unfold compare_identifier. by rewrite Ex, Ey.
    + unfold compare_identifier. by rewrite Ex, Ey.
    + unfold compare_identifier. rewrite Ex, Ey. apply str_compare_antisym.
  - intros x y z Hx Hy Hz.
    destruct (atoi x) as [n|] eqn:Ex, (atoi y) as [m|] eqn:Ey, (atoi z) as [k|] eqn:Ez;
      [|unfold compare_identifier; rewrite ?Ex, ?Ey, ?Ez; lia..|].
    + rewrite (compare_identifier_int x y n m), (compare_identifier_int y z m k), (compare_identifier_int x z n k) by done.
      apply (cmp_trans (P:=nonneg) _ m); eauto using natural_nonneg.
    + unfold compare_identifier. rewrite Ex, Ey, Ez. apply str_compare_trans.
Qed.

Lemma sign_lengths {A} (l1 l2 : list A) x y :
  sign (Z.of_nat (List.length (x :: l1)) - Z.of_nat (List.length (y :: l2)))
  = sign (Z.of_nat (List.length l1) - Z.of_nat (List.length l2)).
Proof. f_equal. simpl. lia. Qed.

Lemma compare_identifiers_nil l : compare_identifiers [] l = sign (- Z.of_nat (List.length l)).
Proof. by destruct l. Qed.
Lemma compare_identifiers_nil_r l : compare_identifiers l [] = sign (Z.of_nat (List.length l)).
Proof. destruct l; simpl; [done|]. by rewrite Z.sub_0_r. Qed.

Lemma sign_range n : -1 ≤ sign n ≤ 1.
Proof. unfold sign. repeat case_match; lia. Qed.
Lemma sign_opp n : sign (- n) = - sign n.
Proof. unfold sign. destruct (Z.ltb_spec (- n) 0), (Z.ltb_spec n 0), (Z.ltb_spec 0 (- n)), (Z.ltb_spec 0 n); lia. Qed.

#[export] Instance compare_identifiers_order : CmpOrder (Forall natural) compare_identifiers.
Proof.
  split.
  - induction x as [|a x IH]; intros y Hx Hy; [rewrite compare_identifiers_nil; apply sign_range|].
    destruct y as [|b y]; [rewrite compare_identifiers_nil_r; apply sign_range|].
    inversion Hx; inversion Hy; subst.
    by apply (or_else_range natural compare_identifier a b); [done..|apply IH].
  - induction x as [|a x IH]; intros y Hx Hy.
    { rewrite compare_identifiers_nil, compare_identifiers_nil_r, sign_opp. lia. }
    destruct y as [|b y]; [rewrite compare_identifiers_nil, compare_identifiers_nil_r; apply sign_opp|].
    inversion Hx; inversion Hy; subst.
    by apply (or_else_antisym natural compare_identifier a b); [done..|apply IH].
  - induction x as [|a x IH]; intros y z Hx Hy Hz.
    { rewrite (compare_identifiers_nil z). unfold sign. destruct (Z.ltb_spec (- Z.of_nat (List.length z)) 0); [lia|].
      destruct (Z.ltb_spec 0 (- Z.of_nat (List.length z))); lia. }
    destruct y as [|b y].
    { rewrite compare_identifiers_nil_r. unfold sign. simpl. lia. }
    destruct z as [|e z].
    { rewrite (compare_identifiers_nil_r (b :: y)). unfold sign. simpl. lia. }
    inversion Hx; inversion Hy; inversion Hz; subst.
    by apply (or_else_trans natural compare_identifier a b e); [done..|apply IH].
Qed.
End Layers.

(** ** Versions *)

Section Versions.
Local Open Scope Z_scope.

(** What [Parse] returns. *)
Definition wf_semver (v : Semver) : Prop :=
  nonneg (Major v) ∧ nonneg (Minor v) ∧ nonneg (Patch v).

(** No identifier of the pre-release reads as a negative number. *)
Definition plain_prerelease (v : Semver) : Prop := Forall natural (split "." (Prerelease v)).

Definition comparable (v : Semver) : Prop := wf_semver v ∧ plain_prerelease v.

(** A release comes after its pre-releases: the order of the last part. *)
Definition compare_pre (a b : string) : Z :=
  if String.eqb a b then 0 else if String.eqb a "" then 1 else if String.eqb b "" then -1
  else comparePrerelease a b.

Lemma compare_parsed_layers va vb : wf_semver va → wf_semver vb →
  compare_parsed va vb =
    or_else (cmp_int (Major va) (Major vb)) (or_else (cmp_int (Minor va) (Minor vb))
      (or_else (cmp_int (Patch va) (Patch vb)) (compare_pre (Prerelease va) (Prerelease vb)))).
Proof.
  intros (? & ? & ?) (? & ? & ?). unfold compare_parsed, or_else, cmp_int, nonneg, max_int64 in *.
  rewrite !wrap64_id by (unfold min_int64, max_int64; lia).
  assert (∀ n, (n =? 0) = (sign n =? 0)) as Hs.
  { intros n. unfold sign. destruct (Z.ltb_spec n 0), (Z.ltb_spec 0 n), (Z.eqb_spec n 0); simpl; lia. }
  by rewrite <- !Hs.
Qed.

#[export] Instance compare_pre_order :
  CmpOrder (λ a, Forall natural (split "." a)) compare_pre.
Proof.
  pose proof compare_identifiers_order as Ho. unfold compare_pre, comparePrerelease. split.
  - intros x y Hx Hy. repeat case_match; [lia..|]. by apply (cmp_range (P:=Forall natural)).
  - intros x y Hx Hy. rewrite (String.eqb_sym y x). destruct (String.eqb_spec x y) as [->|]; [done|].
    destruct (String.eqb_spec x ""), (String.eqb_spec y ""); subst; [done|done|done|].
    by apply (cmp_antisym (P:=Forall natural)).
  - intros x y z Hx Hy Hz.
    destruct (String.eqb_spec x y) as [->|]; [done|].
    destruct (String.eqb_spec y z) as [->|].
    { destruct (String.eqb_spec x z); [done|]. lia. }
    destruct (String.eqb_spec x z) as [->|]; [lia|].
    destruct (String.eqb_spec x ""), (String.eqb_spec y ""), (String.eqb_spec z ""); subst; try lia; try done.
    by apply (cmp_trans (P:=Forall natural)).
Qed.

#[export] Instance compare_parsed_order : CmpOrder comparable compare_parsed.
Proof.
  split.
  - intros x y [Hx Px] [Hy Py]. rewrite compare_parsed_layers by done.
    destruct Hx as (? & ? & ?), Hy as (? & ? & ?).
    repeat (apply (or_else_range nonneg cmp_int); [done..|]).
    by apply (cmp_range (P:=λ a, Forall natural (split "." a))).
  - intros x y [Hx Px] [Hy Py]. rewrite !compare_parsed_layers by done.
    destruct Hx as (? & ? & ?), Hy as (? & ? & ?).
    repeat (apply (or_else_antisym nonneg cmp_int); [done..|]).
    by apply (cmp_antisym (P:=λ a, Forall natural (split "." a))).
  - intros x y z [Hx Px] [Hy Py] [Hz Pz]. rewrite !compare_parsed_layers by done.
    destruct Hx as (? & ? & ?), Hy as (? & ? & ?), Hz as (? & ? & ?).
    repeat (eapply (or_else_trans nonneg cmp_int); [done..|]).
    by apply (cmp_trans (P:=λ a, Forall natural (split "." a))).
Qed.

Lemma version_number_nonneg p n : version_number p = Some n → nonneg n ∧ p = itoa n.
Proof.
  unfold version_number. destruct (atoi p) as [k|] eqn:E; simpl; [|done].
  destruct (Z.ltb_spec k 0); simpl; [done|]. destruct (String.eqb_spec p (itoa k)); simpl; [|done].
  intros; simplify_eq. split; [|done]. eapply natural_nonneg; [|exact E]. unfold natural. by rewrite E.
Qed.

Lemma Parse_wf s v : Parse s = Some v → wf_semver v.
Proof.
  unfold Parse. destruct (cut "+" _) as [[s1 r1] f1]. destruct (cut "-" s1) as [[s2 pre] dashed].
  destruct (_ && _); [done|]. destruct (split "." s2) as [|p1 [|p2 [|p3 [|]]]]; try done.
  destruct (version_number p1) eqn:Ea; simpl; [|done].
  destruct (version_number p2) eqn:Eb; simpl; [|done].
  destruct (version_number p3) eqn:Ec; simpl; [|done]. intros; simplify_eq.
  apply version_number_nonneg in Ea as [? _], Eb as [? _], Ec as [? _]. done.
Qed.

(** The text is not a version, or its pre-release holds no negative number. *)
Definition ordered (s : string) : Prop :=
  match Parse s with Some v => plain_prerelease v | None => True end.

#[export] Instance Compare_order : CmpOrder ordered Compare.
Proof.
  assert (∀ s v, Parse s = Some v → ordered s → comparable v) as Hc.
  { intros s v E Ho. unfold ordered in Ho. rewrite E in Ho. split; [by eapply Parse_wf|done]. }
  unfold Compare. split.
  - intros x y Hx Hy. destruct (Parse x) eqn:?, (Parse y) eqn:?; [|lia..]. apply (cmp_range (P:=comparable)); eauto.
  - intros x y Hx Hy. destruct (Parse x) eqn:?, (Parse y) eqn:?; try done. apply (cmp_antisym (P:=comparable)); eauto.
  - intros x y z Hx Hy Hz. destruct (Parse x) eqn:?, (Parse y) eqn:?, (Parse z) eqn:?; try lia.
    eapply (cmp_trans (P:=comparable)); eauto.
Qed.
End Versions.

(** ** Properties *)

(** On version strings whose pre-releases hold no negative number, Compare
    is a total preorder: it answers -1, 0 or 1, swapping the arguments negates
    the answer, and "not after" is transitive.  Strings that are not versions
    are ordered with the others. *)
Theorem Compare_total_preorder (a b c : string)
  (Ha : ordered a) (Hb : ordered b) (Hc : ordered c) :
  (-1 ≤ Compare a b ≤ 1 ∧ Compare b a = - Compare a b ∧
   (Compare a b ≤ 0 → Compare b c ≤ 0 → Compare a c ≤ 0))%Z.
Proof.
  split; [by apply cmp_range|]. split; [by apply cmp_antisym|]. by apply cmp_trans.
Qed.

Lemma Compare_total_preorder_witness :
  Compare "1.2.3-rc.2" "v1.2.3-rc.10" = (-1)%Z ∧ Compare "v1.2.3-rc.10" "1.2.3-rc.2" = 1%Z ∧
  (Compare "1.2.3-rc.2" "1.2.3" ≤ 0)%Z.
Proof.
  assert (∀ s, forallb (λ a, match atoi a with Some n => 0 <=? n | None => true end)%Z
                 (match Parse s with Some v => split "." (Prerelease v) | None => [] end) = true → ordered s) as Ho.
  { intros s. unfold ordered. destruct (Parse s) as [v|]; [|done]. unfold plain_prerelease.
    rewrite forallb_Forall. intros H. eapply Forall_impl; [exact H|]. intros a. unfold natural.
    destruct (atoi a); [|done]. intros ?. by apply Z.leb_le. }
  pose proof (Compare_total_preorder "1.2.3-rc.2" "v1.2.3-rc.10" "1.2.3"
    (Ho "1.2.3-rc.2" eq_refl) (Ho "v1.2.3-rc.10" eq_refl) (Ho "1.2.3" eq_refl)) as (_ & E & T).
  assert (Compare "1.2.3-rc.2" "v1.2.3-rc.10" = (-1)%Z) as E1 by (vm_compute; reflexivity).
  split; [done|]. split; [by rewrite E, E1|]. apply T; [by rewrite E1|vm_compute; congruence].
Defined.

(** With a negative number in a pre-release (which semver has none of) the
    difference of two identifiers can leave 64 bits: then each of two versions
    sorts before the other. *)
Theorem Compare_overflow :
  Compare "1.0.0-9223372036854775807" "1.0.0--1" = (-1)%Z ∧
  Compare "1.0.0--1" "1.0.0-9223372036854775807" = (-1)%Z.
Proof. split; vm_compute; reflexivity. Qed.
