(* ===== verification/SpecTypes.v ===== *)
(** * The application specification: data (pkg/spec/spec.go and the raw form)

    [App] is what validation produces and everything else consumes; [raw] is
    what the YAML decoder makes of a deploy.yaml.  The decoder is third-party
    code: what it says of the four blocks the document leaves as nodes
    (proxy, backups, security and the two-form keys) is part of [raw] as the
    decoder's answer, not re-modelled. *)

From S2P Require Import Prelude GoStrings GoTime GoFloat.
From Stdlib Require Import Ascii String.
Local Open Scope string_scope.

(** ** The validated application *)

Record Volume := mk_volume { v_Name : string; v_Path : string }.
Record Health := mk_health {
  h_Path : string; h_TCP : Z; h_Command : list string;
  h_Interval : Z; h_Timeout : Z; h_Retries : Z; h_StartPeriod : Z }.
Record Resources := mk_resources { res_CPU : float; res_MemoryBytes : Z }.
Record Publish := mk_publish { p_Port : Z; p_Host : Z; p_Address : string; p_Protocol : string }.
Record Hook := mk_hook { hook_Command : list string; hook_Timeout : Z }.
Record Job := mk_job { j_Name : string; j_Schedule : string; j_Command : list string; j_Timeout : Z }.
Record Logging := mk_logging { log_Driver : string; log_Options : gmap string string }.
Record Build := mk_build { b_Context : string; b_Dockerfile : string }.
Record Static := mk_static { s_Dir : string; s_Fallback : string }.
Record BasicAuth := mk_basicauth { ba_Path : string; ba_Username : string; ba_Password : string }.
Record PathRedirect := mk_pathredirect { pr_From : string; pr_To : string; pr_Status : Z }.
Record Proxy := mk_proxy {
  px_StripPrefix : bool; px_Headers : gmap string string;
  px_BasicAuth : list BasicAuth; px_Redirects : list PathRedirect }.
Record Backups := mk_backups {
  bk_Schedule : string; bk_Keep : Z; bk_Before : list string; bk_Stop : bool;
  bk_BeforeTimeout : Z; bk_BeforeIn : string }.
Record Tmpfs := mk_tmpfs { t_Path : string; t_SizeBytes : Z }.
Record Security := mk_security {
  sec_ReadOnly : bool; sec_Tmpfs : list Tmpfs; sec_Capabilities : option (list string); sec_NonRoot : bool }.

Record App := mk_app {
  a_Name : string; a_Image : string; a_Port : Z;
  a_Domain : string; a_Aliases : list string; a_Redirects : list string;
  a_Replicas : Z; a_Env : gmap string string; a_Health : option Health;
  a_Resources : Resources; a_Volumes : list Volume; a_Publish : list Publish;
  a_Entrypoint : list string; a_Command : list string; a_User : string;
  a_PreDeploy : option Hook; a_Jobs : list Job; a_Logging : option Logging;
  a_Build : option Build; a_Static : option Static; a_Path : string;
  a_Proxy : option Proxy; a_Backups : option Backups;
  a_Restart : string; a_Strategy : string; a_StopTimeout : Z;
  a_Init : bool; a_Security : option Security }.

(** Health.Kind: which check is described. *)
Inductive health_kind := HealthHTTP | HealthTCP | HealthCommand.
Definition Kind (h : Health) : health_kind :=
  if negb (bool_decide (h_Command h = [])) then HealthCommand
  else if negb (h_TCP h =? 0)%Z then HealthTCP else HealthHTTP.

(** Constants of the package. *)
Definition RestartAlways := "always".
Definition RestartOnFailure := "on-failure".
Definition RestartNever := "never".
Definition StrategyRolling := "rolling".
Definition StrategyRecreate := "recreate".
Definition ReservedNames : list string := ["agent"; "caddy"; "dashboard"; "localhost"].
Definition DefaultReplicas : Z := 1.
Definition DefaultHealthInterval : Z := (10 * second)%Z.
Definition DefaultHealthTimeout : Z := (3 * second)%Z.
Definition DefaultHealthRetries : Z := 3.
Definition MaxReplicas : Z := 50.
Definition MaxVolumes : Z := 10.

(** ** Redaction

    What the API may show: names are kept, secret values are masked. *)

Definition redactedValue := "********".
Definition LogSecretOptions : list string := ["splunk-token"].

Definition redacted_proxy (p : option Proxy) : option Proxy :=
  match p with
  | None => None
  | Some p =>
      if bool_decide (px_BasicAuth p = []) then Some p else
      Some (mk_proxy (px_StripPrefix p) (px_Headers p)
              ((λ b, mk_basicauth (ba_Path b) (ba_Username b) redactedValue) <$> px_BasicAuth p)
              (px_Redirects p))
  end.

Definition redacted_logging (l : option Logging) : option Logging :=
  match l with
  | None => None
  | Some l =>
      if bool_decide (log_Options l = ∅) then Some l else
      Some (mk_logging (log_Driver l)
              (map_imap (λ k v, Some (if contains LogSecretOptions k then redactedValue else v)) (log_Options l)))
  end.

Definition Redacted (a : App) : App :=
  let env := if bool_decide (a_Env a = ∅) then a_Env a else (λ _, redactedValue) <$> a_Env a in
  mk_app (a_Name a) (a_Image a) (a_Port a) (a_Domain a) (a_Aliases a) (a_Redirects a)
    (a_Replicas a) env (a_Health a) (a_Resources a) (a_Volumes a) (a_Publish a)
    (a_Entrypoint a) (a_Command a) (a_User a) (a_PreDeploy a) (a_Jobs a) (redacted_logging (a_Logging a))
    (a_Build a) (a_Static a) (a_Path a) (redacted_proxy (a_Proxy a)) (a_Backups a)
    (a_Restart a) (a_Strategy a) (a_StopTimeout a) (a_Init a) (a_Security a).

(** App.SecretLogOptions: the credentials among the logging options. *)
Definition SecretLogOptions (a : App) : list string :=
  match a_Logging a with
  | None => []
  | Some l => filter (λ name, is_Some (log_Options l !! name)) LogSecretOptions
  end.

(** ** The document before validation *)

Record healthRaw := mk_healthRaw {
  hr_Path : string; hr_TCP : option Z; hr_Command : option (list string);
  hr_Interval : string; hr_Timeout : string; hr_Retries : option Z; hr_StartPeriod : string }.
Record volumeRaw := mk_volumeRaw { vr_Name : string; vr_Path : string }.
Record publishRaw := mk_publishRaw {
  pub_Port : option Z; pub_Host : option Z; pub_Address : string; pub_Protocol : string }.
Record hookRaw := mk_hookRaw { hk_Command : list string; hk_Timeout : string }.
Record jobRaw := mk_jobRaw {
  jr_Name : string; jr_Schedule : string; jr_Command : list string; jr_Timeout : string }.
Record loggingRaw := mk_loggingRaw { lr_Driver : string; lr_Options : gmap string string }.
Record buildRaw := mk_buildRaw { br_Context : string; br_Dockerfile : string }.
Record staticRaw := mk_staticRaw { sr_Dir : string; sr_Fallback : string }.
Record authRaw := mk_authRaw { ar_Path : string; ar_Username : string; ar_Password : string }.
Record redirectRaw := mk_redirectRaw { rr_From : string; rr_To : string; rr_Status : option Z }.
Record proxyRaw := mk_proxyRaw {
  pxr_StripPrefix : option bool; pxr_Headers : gmap string string;
  pxr_BasicAuth : list authRaw; pxr_Redirects : list redirectRaw }.
Record backupsRaw := mk_backupsRaw {
  bkr_Schedule : string; bkr_Keep : option Z; bkr_Before : option (list string); bkr_Stop : bool;
  bkr_BeforeTimeout : string; bkr_BeforeIn : string }.
Record tmpfsRaw := mk_tmpfsRaw { tr_Path : string; tr_Size : string }.
(** A key that was not written, the word, or a list of names. *)
Inductive capabilitiesRaw := CapNotGiven | CapWord (word : string) | CapNames (names : list string).
Record securityRaw := mk_securityRaw {
  scr_ReadOnly : option bool; scr_Tmpfs : list tmpfsRaw;
  scr_Capabilities : capabilitiesRaw; scr_NonRoot : option bool }.

(** What the YAML decoder answers when it fails: nothing to decode, type
    errors one by one, or any other error with its message. *)
Inductive yaml_error := YamlEOF | YamlTypeError (errors : list string) | YamlOther (message : string).

(** A block the document's decoder left as a node, and what decoding that node
    on its own answers: it is absent, it is not a mapping, it does not decode,
    or it holds a value. *)
Inductive block (A : Type) :=
  | Absent
  | NotMapping
  | Undecodable (err : yaml_error)
  | Decoded (a : A).
Arguments Absent {A}.
Arguments NotMapping {A}.
Arguments Undecodable {A} err.
Arguments Decoded {A} a.

(** Nil and empty differ for a command line: [None] keeps the image's own. *)
Record raw := mk_raw {
  r_Name : string; r_Image : string; r_Port : option Z;
  r_Domain : string; r_Aliases : list string; r_Redirects : list string;
  r_Replicas : option Z; r_Env : gmap string string; r_Health : option healthRaw;
  r_CPU : string; r_Memory : string; r_Volumes : list volumeRaw; r_Publish : list publishRaw;
  r_Entrypoint : option (list string); r_Command : option (list string); r_User : string;
  r_PreDeploy : option hookRaw; r_Jobs : list jobRaw; r_Logging : option loggingRaw;
  r_Build : buildRaw; r_Static : staticRaw; r_Path : string;
  (** unknown keys and type errors of the block, and the block if it decodes *)
  r_Proxy : option (list string * option proxyRaw);
  r_Backups : block backupsRaw;
  r_Restart : string; r_Strategy : string; r_StopTimeout : string;
  r_Init : option bool; r_Security : block securityRaw }.

(** ** Validation errors (pkg/spec/errors.go)

    A validation goes on after a problem, so that one run reports them all:
    it is a writer of field errors.  [add] is ValidationError.add. *)

Record FieldError := mk_fieldError { Field : string; Message : text; Expected : text }.

Abbreviation V A := (list FieldError * A)%type.

Definition vret {A} (a : A) : V A := ([], a).
Definition vbind {A B} (c : V A) (k : A → V B) : V B :=
  let '(e1, a) := c in let '(e2, b) := k a in ((e1 ++ e2)%list, b).
Definition vadd (field : string) (message expected : text) : V unit :=
  ([mk_fieldError field message expected], tt).
Definition vok : V unit := vret tt.

Notation "'let+' x ':=' c 'in' k" := (vbind c (λ x, k))
  (at level 10, x pattern, c at level 100, k at level 200) : go_scope.

(** add(field, err.Error(), expected) when a check failed. *)
Definition report {A} (r : result A) (field : string) (expected : text) : V unit :=
  match r with Ok _ => vok | Err e => vadd field e expected end.

(** field[i] and field[i].sub *)
Definition at_index (field : string) (i : nat) : string := field ++ "[" ++ itoa (Z.of_nat i) ++ "]".

(** A loop over a list with its index, in the writer. *)
Fixpoint vloop {A T} (f : nat → A → T → V T) (i : nat) (l : list A) (s : T) : V T :=
  match l with
  | [] => vret s
  | x :: r => let+ s' := f i x s in vloop f (S i) r s'
  end.

(** ** No errors *)

Lemma vbind_ok {A B} (c : V A) (k : A → V B) b :
  vbind c k = ([], b) → ∃ a, c = ([], a) ∧ k a = ([], b).
Proof.
  destruct c as [e a]. unfold vbind. destruct (k a) as [e2 b2] eqn:E. intros H. injection H as He Hb.
  apply app_eq_nil in He as [-> ->]. exists a. split; [done|]. by rewrite E, Hb.
Qed.

Lemma report_ok {A} (r : result A) field e : report r field e = ([], tt) → is_ok r = true.
Proof. destruct r; done. Qed.

(** What every round keeps, the loop keeps. *)
Lemma vloop_ok {A T} (f : nat → A → T → V T) (I : nat → T → Prop) l :
  (∀ i x s s', I i s → f i x s = ([], s') → I (S i) s') →
  ∀ i s s', I i s → vloop f i l s = ([], s') → I (i + List.length l) s'.
Proof.
  intros Hf. induction l as [|x r IH]; intros i s s' Hi H; simpl in *.
  - injection H as <-. by rewrite Nat.add_0_r.
  - apply vbind_ok in H as (s1 & H1 & H2). rewrite Nat.add_succ_r, <- Nat.add_succ_l. eauto.
Qed.

(** The same, of the elements dealt with so far. *)
Lemma vloop_prefix {A T} (f : nat → A → T → V T) (I : list A → T → Prop) l :
  (∀ d x s s', I d s → f (List.length d) x s = ([], s') → I (d ++ [x])%list s') →
  ∀ d s s', I d s → vloop f (List.length d) l s = ([], s') → I (d ++ l)%list s'.
Proof.
  intros Hf. induction l as [|x r IH]; intros d s s' Hi H; simpl in *.
  - injection H as <-. by rewrite app_nil_r.
  - apply vbind_ok in H as (s1 & H1 & H2). replace (d ++ x :: r)%list with ((d ++ [x]) ++ r)%list by by rewrite <- app_assoc.
    apply (IH _ s1); [by eapply Hf|]. by rewrite length_app, Nat.add_1_r.
Qed.

(** No round of a loop that reported nothing reported anything. *)
Lemma vloop_each {A T} (f : nat → A → T → V T) l i s s' j x :
  l !! j = Some x → vloop f i l s = ([], s') → ∃ t t', f (i + j)%nat x t = ([], t').
Proof.
  revert i s j. induction l as [|y l IH]; intros i s j Hj H; [done|]. simpl in H.
  apply vbind_ok in H as (s1 & H1 & H2). destruct j as [|j]; simpl in Hj.
  - injection Hj as ->. rewrite Nat.add_0_r. eauto.
  - rewrite Nat.add_succ_r, <- Nat.add_succ_l. eauto.
Qed.

(** Splits a run of the writer that reported nothing into its calls. *)
Ltac inv_v :=
  repeat match goal with
  | H : vbind _ _ = ([], _) |- _ =>
      let a := fresh "x" in let Ha := fresh "Hx" in
      apply vbind_ok in H as (a & Ha & H); try destruct a as []
  | H : vadd _ _ _ = ([], _) |- _ => discriminate H
  | H : (_ :: _, _) = ([], _) |- _ => discriminate H
  | H : vret _ = ([], _) |- _ => injection H as H; subst
  | H : ([], _) = ([], _) |- _ => injection H as H; subst
  | H : report _ _ _ = ([], _) |- _ => apply report_ok in H
  end.
