(* ===== verification/SpecUnits.v ===== *)
(** * Units (pkg/spec/units.go, parseDuration, the writers of document.go)

    Sizes, CPU limits and durations are read through float64 and time, and
    written back by [memoryText]: what is written reads back to the same
    number. *)

From S2P Require Import Prelude GoStrings GoTime GoFloat SpecTypes.
From Stdlib Require Import Ascii String.
Local Open Scope Z_scope.

Definition MinMemoryBytes : Z := 6 * 1024 * 1024.

(** \s of a regular expression: no vertical tab. *)
Definition re_space (c : ascii) : bool := contains [chr 9; chr 10; chr 12; chr 13; chr 32] c.

Fixpoint span (f : ascii → bool) (s : string) : string * string :=
  match s with
  | String c r => if f c then let '(a, b) := span f r in (String c a, b) else (EmptyString, s)
  | EmptyString => (EmptyString, EmptyString)
  end.

(** memoryPattern: integer digits, fraction digits (empty without a point)
    and unit. *)
Definition memoryPattern (s : string) : option (string * string * string) :=
  let '(whole, r) := span is_digit s in
  if String.eqb whole EmptyString then None else
  '(frac, r) ← match r with
               | String c r' =>
                   if Ascii.eqb c "." then
                     let '(frac, r'') := span is_digit r' in
                     if String.eqb frac EmptyString then None else Some (frac, r'')
                   else Some (EmptyString, r)
               | EmptyString => Some (EmptyString, r)
               end;
  let '(_, u) := span re_space r in
  if str_forall is_lower u then Some (whole, frac, u) else None.

Definition memoryUnits (u : string) : option Z :=
  if contains [""; "b"]%string u then Some 1
  else if contains ["k"; "kb"; "kib"]%string u then Some (2 ^ 10)
  else if contains ["m"; "mb"; "mib"]%string u then Some (2 ^ 20)
  else if contains ["g"; "gb"; "gib"]%string u then Some (2 ^ 30)
  else None.

Definition decimal (whole frac : string) : option float :=
  n ← parse_digits (whole ++ frac); round_rat n (10 ^ slen frac).

(** math.MaxInt64/2 as the float64 it is compared as. *)
Definition max_size : float := float_of_Z (max_int64 / 2).

Definition parseSize (s : string) : result Z :=
  match memoryPattern (to_lower (trim_space s)) with
  | None => Err [L "invalid value "; Q s]
  | Some (whole, frac, u) =>
      match memoryUnits u with
      | None => Err [L "invalid value "; Q s; L ": unknown unit "; Q u]
      | Some unit =>
          match decimal whole frac with
          | None => Err [L "invalid value "; Q s]
          | Some n =>
              match float_mul n (float_of_Z unit) with
              | None => Err [L "invalid value "; Q s; L ": too large"]
              | Some bytes =>
                  if float_ltb max_size bytes then Err [L "invalid value "; Q s; L ": too large"]
                  else Ok (float_trunc bytes)
              end
          end
      end
  end.

Definition ParseMemory (s : string) : result Z :=
  do! bytes := parseSize s in
  if bytes <? MinMemoryBytes then Err [L "invalid value "; Q s; L ": minimum is 6mb"] else Ok bytes.

Definition MaxCPU : Z := 512.

(** The float64 nearest to 0.01. *)
Definition min_cpu : float := default float_zero (round_rat 1 100).

Definition ParseCPU (s : string) : result float :=
  match ParseFloat (trim_space s) with
  | None => Err [L "invalid value "; Q s]
  | Some (neg, n) =>
      if neg || float_ltb n min_cpu || float_ltb (float_of_Z MaxCPU) n
      then Err [L "invalid value "; Q s; L ": must be between 0.01 and "; D MaxCPU]
      else Ok n
  end.

(** Resources.NanoCPUs *)
Definition NanoCPUs (r : Resources) : Z :=
  float_trunc (default float_zero (float_mul (res_CPU r) (float_of_Z 1000000000))).

Definition parseDuration (s : string) (min max : Duration) : result Duration :=
  match ParseDuration (trim_space s) with
  | None => Err [L "invalid value "; Q s]
  | Some d => if (d <? min) || (max <? d) then Err [L "invalid value "; Q s; L ": out of range"] else Ok d
  end.

(** memoryText: a size in the largest unit that says it exactly. *)
Definition memoryText (bytes : Z) : string :=
  if bytes mod 2 ^ 30 =? 0 then (itoa (bytes / 2 ^ 30) ++ "gb")%string
  else if bytes mod 2 ^ 20 =? 0 then (itoa (bytes / 2 ^ 20) ++ "mb")%string
  else if bytes mod 2 ^ 10 =? 0 then (itoa (bytes / 2 ^ 10) ++ "kb")%string
  else itoa bytes.

Example sizes :
  map parseSize ["512mb"; " 1.5 GB"; "6291456"; "0.1kb"; "1tb"; "mb"; "4611686018427387904"; "4611686018427388417"; "1."]%string
  = [Ok 536870912; Ok 1610612736; Ok 6291456; Ok 102; Err [L "invalid value "; Q "1tb"; L ": unknown unit "; Q "tb"];
     Err [L "invalid value "; Q "mb"]; Ok 4611686018427387904;
     Err [L "invalid value "; Q "4611686018427388417"; L ": too large"]; Err [L "invalid value "; Q "1."]].
Proof. vm_compute. reflexivity. Qed.

Example cpus : map (λ s, NanoCPUs <$> match ParseCPU s with Ok c => Some (mk_resources c 0) | Err _ => None end)
                 ["0.5"; "2"; "0.01"; "0.0099"; "513"; "-1"; "0.1"; "1e1"; "inf"]%string
  = [Some 500000000; Some 2000000000; Some 10000000; None; None; None; Some 100000000; Some 10000000000; None].
Proof. vm_compute. reflexivity. Qed.

(** ** What is written reads back *)

Lemma round_rat_scale n d j : 0 < n → 0 < d → 0 ≤ j → round_rat (n * 2 ^ j) (d * 2 ^ j) = round_rat n d.
Proof.
  intros Hn Hd Hj. pose proof (Z.pow_pos_nonneg 2 j ltac:(lia) Hj) as Hp.
  assert (∀ e, scaled (n * 2 ^ j) (d * 2 ^ j) e = ((scaled n d e).1 * 2 ^ j, (scaled n d e).2 * 2 ^ j)) as Hs
    by (intros e; unfold scaled; destruct (0 <=? e); simpl; f_equal; lia).
  assert (exponent_of (n * 2 ^ j) (d * 2 ^ j) = exponent_of n d) as He.
  { unfold exponent_of. cbv zeta. rewrite !Z.log2_mul_pow2 by lia.
    replace (j + Z.log2 n - (j + Z.log2 d)) with (Z.log2 n - Z.log2 d) by lia. rewrite Hs.
    destruct (scaled n d _) as [a b]; simpl. repeat f_equal.
    destruct (Z.ltb_spec (a * 2 ^ j) (b * 2 ^ j)), (Z.ltb_spec a b); lia || nia. }
  unfold round_rat. rewrite He, Hs. pose proof (scaled_pos n d (exponent_of n d) Hn Hd) as [Ha Hb].
  destruct (scaled n d (exponent_of n d)) as [a b]; simpl in *.
  replace (n * 2 ^ j =? 0) with (n =? 0) by (destruct (Z.eqb_spec n 0), (Z.eqb_spec (n * 2 ^ j) 0); lia).
  assert (rne (a * 2 ^ j) (b * 2 ^ j) = rne a b) as ->; [|done].
  unfold rne. rewrite Z.div_mul_cancel_r, Z.mul_mod_distr_r by lia.
  rewrite Z.mul_assoc.
  destruct (2 * (a mod b) ?= b) eqn:E1, (2 * (a mod b) * 2 ^ j ?= b * 2 ^ j) eqn:E2; try done; exfalso;
    rewrite ?Z.compare_eq_iff, ?Z.compare_lt_iff, ?Z.compare_gt_iff in *; nia.
Qed.

(** An integer of at most 53 significant bits. *)
Definition fits53 (n : Z) : Prop := ∃ m k, 0 ≤ m < 2 ^ 53 ∧ 0 ≤ k ≤ 62 ∧ n = m * 2 ^ k.

Lemma fits53_div n j : fits53 n → 0 ≤ j ≤ 30 → n mod 2 ^ j = 0 → fits53 (n / 2 ^ j).
Proof.
  intros (m & k & Hm & Hk & ->) Hj Hmod. destruct (Z.le_gt_cases j k).
  - exists m, (k - j). split; [done|]. split; [lia|].
    replace k with (k - j + j) at 1 by lia. rewrite Z.pow_add_r, Z.mul_assoc, Z.div_mul by lia. done.
  - exists (m * 2 ^ k / 2 ^ j), 0. split; [|lia].
    pose proof (Z.pow_pos_nonneg 2 k ltac:(lia) ltac:(lia)).
    pose proof (Z.pow_pos_nonneg 2 j ltac:(lia) ltac:(lia)).
    pose proof (Z.pow_le_mono_r 2 k j ltac:(lia) ltac:(lia)).
    split; [apply Z.div_pos; nia|]. apply Z.div_lt_upper_bound; nia.
Qed.

(** float64 multiplication of an integer by a power of two is exact. *)
Lemma float_mul_exact n f u j : 0 < n → fits53 n → round_rat n 1 = Some f → 0 ≤ j ≤ 30 →
  u = float_of_Z (2 ^ j) →
  ∃ g, float_mul f u = Some g ∧ float_num g = n * 2 ^ j * float_den g ∧ 0 < float_den g.
Proof.
  intros Hn (m & k & Hm & Hk & ->) Hf Hj ->.
  assert (0 < m) as Hm0 by (pose proof (Z.pow_pos_nonneg 2 k ltac:(lia) ltac:(lia)); nia).
  destruct (round_rat_exact m k) as (f' & Hf' & Hfv & Hfd); [lia..|].
  rewrite Hf' in Hf. injection Hf as <-.
  destruct (round_rat_exact 1 j) as (u & Hu & Huv & Hud); [lia..|]. rewrite Z.mul_1_l in *.
  unfold float_of_Z. rewrite Hu. simpl. unfold float_mul. rewrite Hfv, Huv.
  assert (∃ i, 0 ≤ i ∧ float_den f' * float_den u = 2 ^ i) as (i & Hi & Hd).
  { unfold float_den. destruct (0 <=? expo f') eqn:E1, (0 <=? expo u) eqn:E2.
    - exists 0. lia.
    - exists (- expo u). lia.
    - exists (- expo f'). lia.
    - exists (- expo f' + - expo u). rewrite Z.pow_add_r by lia. lia. }
  replace (m * 2 ^ k * float_den f' * (2 ^ j * float_den u)) with (m * 2 ^ k * 2 ^ j * (float_den f' * float_den u)) by ring.
  rewrite Hd.
  pose proof (Z.pow_pos_nonneg 2 k ltac:(lia) ltac:(lia)).
  pose proof (Z.pow_pos_nonneg 2 j ltac:(lia) ltac:(lia)).
  pose proof (round_rat_scale (m * 2 ^ k * 2 ^ j) 1 i ltac:(nia) ltac:(lia) Hi) as Hs.
  rewrite Z.mul_1_l in Hs. rewrite Hs. clear Hs. rewrite <- Z.mul_assoc, <- Z.pow_add_r by lia.
  apply round_rat_exact; lia.
Qed.

Definition unit_text (u : string) (j : Z) : Prop :=
  str_forall is_lower u = true ∧ memoryUnits u = Some (2 ^ j) ∧ 0 ≤ j ≤ 30.

Lemma lower_plain c : is_lower c = true → printable c = true ∧ uncased c = true ∧ is_digit c = false ∧ re_space c = false ∧ Ascii.eqb c "." = false.
Proof.
  unfold is_lower, printable, uncased, is_upper, is_digit, in_range. intros H. bools. rewrite !N.leb_le in *.
  split; [|split; [|split; [|split]]].
  - rewrite !andb_true_iff, !N.leb_le. lia.
  - rewrite andb_true_iff, negb_true_iff, andb_false_iff, N.ltb_lt, !N.leb_gt. lia.
  - rewrite andb_false_iff, !N.leb_gt. lia.
  - unfold re_space, contains. apply bool_decide_eq_false. intros Hc.
    repeat (apply elem_of_cons in Hc as [Hc|Hc]; [subst c; vm_compute in H; congruence|]). by apply elem_of_nil in Hc.
  - apply Ascii.eqb_neq. intros ->. vm_compute in H. congruence.
Qed.

Lemma span_app f a u : str_forall f a = true → match u with String c _ => f c = false | EmptyString => True end →
  span f (a ++ u) = (a, u).
Proof.
  intros Ha Hu. induction a as [|c a IH]; simpl in *.
  - destruct u as [|c r]; simpl; [done|]. by rewrite Hu.
  - bools. rewrite H. by rewrite IH.
Qed.

Lemma pattern_unit d u : str_forall is_digit d = true → d ≠ EmptyString → str_forall is_lower u = true →
  memoryPattern (to_lower (trim_space (d ++ u))) = Some (d, EmptyString, u).
Proof.
  intros Hd Hne Hu.
  assert (str_forall printable (d ++ u) = true ∧ str_forall uncased (d ++ u) = true) as [Hp Hl].
  { rewrite !str_forall_app. split; apply andb_true_iff; split;
      (eapply str_forall_impl; [|eassumption]); intros c Hc;
      (apply digit_plain in Hc as [??] || apply lower_plain in Hc as (?&?&_)); done. }
  rewrite trim_space_printable, to_lower_uncased by done. unfold memoryPattern.
  assert (match u with String c _ => is_digit c = false ∧ re_space c = false ∧ Ascii.eqb c "." = false | EmptyString => True end) as Hc.
  { destruct u; [done|]. simpl in Hu. bools. apply lower_plain in H as (_ & _ & ? & ? & ?). done. }
  rewrite span_app; [|done|destruct u; [done|apply Hc]].
  destruct (String.eqb_spec d EmptyString); [done|].
  destruct u as [|c r]; [done|]. destruct Hc as (_ & Hs & Hdot). rewrite Hdot. cbn [span mbind option_bind].
  rewrite Hs. cbn iota. by rewrite Hu.
Qed.

Lemma max_size_value : float_num max_size = 2 ^ 62 * float_den max_size ∧ 0 < float_den max_size.
Proof. split; vm_compute; reflexivity. Qed.

Lemma parseSize_unit n u j : fits53 n → 0 ≤ n → n * 2 ^ j ≤ 2 ^ 62 → unit_text u j →
  parseSize (itoa n ++ u) = Ok (n * 2 ^ j).
Proof.
  intros Hn H0 Hmax (Hu & Hunit & Hj). unfold parseSize.
  rewrite pattern_unit by auto with shipwick. rewrite Hunit. unfold decimal.
  replace (itoa n ++ EmptyString)%string with (itoa n) by (symmetry; apply append_nil_r).
  pose proof (Z.pow_pos_nonneg 2 j ltac:(lia) ltac:(lia)).
  assert (n ≤ n * 2 ^ j) by (clear Hmax; nia).
  assert (0 ≤ n ≤ max_int64) as Hn64 by (clear Hn; change max_int64 with 9223372036854775807; lia).
  rewrite parse_digits_itoa by exact Hn64. cbn [mbind option_bind]. change (10 ^ slen EmptyString) with 1.
  destruct (decide (n = 0)) as [->|Hnz].
  { assert (j = 0 ∨ j = 10 ∨ j = 20 ∨ j = 30) as Hj'.
    { unfold memoryUnits in Hunit. repeat case_match; try discriminate; injection Hunit as Hunit;
        [left|right; left|right; right; left|right; right; right];
        (apply (Z.pow_inj_r 2); [lia..|]; rewrite <- Hunit; reflexivity). }
    destruct Hj' as [E|[E|[E|E] ] ]; subst j; vm_compute; reflexivity. }
  destruct Hn as (m & k & Hm & Hk & Hn). pose proof (Z.pow_pos_nonneg 2 k ltac:(lia) ltac:(lia)).
  destruct (round_rat_exact m k) as (f & Hf & _); [nia|lia|]. rewrite <- Hn in Hf. rewrite Hf.
  destruct (float_mul_exact n f _ j ltac:(lia) ltac:(by exists m, k) Hf Hj eq_refl) as (g & Hg & Hv & Hd).
  rewrite Hg. unfold float_ltb. rewrite Hv.
  destruct max_size_value as [Hmn Hmd]. rewrite Hmn.
  destruct (Z.ltb_spec (2 ^ 62 * float_den max_size * float_den g) (n * 2 ^ j * float_den g * float_den max_size)); [nia|].
  unfold float_trunc. rewrite Hv, Z.div_mul by lia. done.
Qed.

Lemma float_parts f : 0 ≤ mant f → 0 ≤ float_num f ∧ 0 < float_den f.
Proof.
  intros Hm. unfold float_num, float_den. destruct (0 <=? expo f) eqn:E;
    [pose proof (Z.pow_pos_nonneg 2 (expo f) ltac:(lia) ltac:(lia))
    |pose proof (Z.pow_pos_nonneg 2 (- expo f) ltac:(lia) ltac:(lia))]; split; nia.
Qed.

Lemma digits_value_nonneg s : ∀ a n, 0 ≤ a → digits_value a s = Some n → 0 ≤ n.
Proof.
  induction s as [|c r IH]; simpl; intros a n Ha H; [by simplify_eq|].
  destruct (is_digit c); [|done]. eapply IH; [|exact H]. lia.
Qed.

Lemma decimal_mant whole frac f : decimal whole frac = Some f → 0 ≤ mant f.
Proof.
  unfold decimal. intros H. destruct (parse_digits _) as [n|] eqn:E; [|done]. simpl in H.
  apply round_rat_range in H; [lia| |apply Z.pow_pos_nonneg; unfold slen; lia].
  unfold parse_digits in E. destruct (String.eqb _ _); [done|]. by eapply digits_value_nonneg.
Qed.

Lemma memoryUnits_mant u un : memoryUnits u = Some un → 0 ≤ mant (float_of_Z un).
Proof.
  unfold memoryUnits. repeat (destruct (contains _ u); [intros [= <-]; apply Z.leb_le; vm_compute; reflexivity|]).
  discriminate.
Qed.

Lemma parseSize_range s n : parseSize s = Ok n → fits53 n ∧ 0 ≤ n ≤ 2 ^ 62.
Proof.
  unfold parseSize. intros H.
  destruct (memoryPattern _) as [[[whole frac] u]|]; [|done].
  destruct (memoryUnits u) as [un|] eqn:Hun; [|done].
  destruct (decimal whole frac) as [x|] eqn:Hx; [|done].
  destruct (float_mul x (float_of_Z un)) as [g|] eqn:Hg; [|done].
  destruct (float_ltb max_size g) eqn:Hlt; [done|]. injection H as <-.
  apply decimal_mant in Hx. apply float_parts in Hx as [Hx1 Hx2].
  assert (0 ≤ mant (float_of_Z un)) as Hu.
  { by eapply memoryUnits_mant. }
  apply float_parts in Hu as [Hu1 Hu2]. unfold float_mul in Hg.
  apply round_rat_range in Hg as [Hm He]; [|nia..].
  pose proof (float_parts g ltac:(lia)) as [Hg1 Hg2].
  unfold float_ltb in Hlt. destruct max_size_value as [Hmn Hmd]. rewrite Hmn in Hlt.
  apply Z.ltb_ge in Hlt.
  assert (float_trunc g ≤ 2 ^ 62).
  { unfold float_trunc. apply Z.div_le_upper_bound; [done|].
    apply (Z.mul_le_mono_pos_r _ _ (float_den max_size)); [done|]. lia. }
  assert (0 ≤ float_trunc g) by (apply Z.div_pos; lia).
  split; [|lia]. destruct (float_trunc_bits g Hm He) as (m & k & Hm1 & Hk & Ht).
  destruct (decide (m = 0)) as [->|]; [exists 0, 0; lia|].
  exists m, k. split; [lia|]. split; [|exact Ht]. split; [lia|].
  apply (Z.pow_le_mono_r_iff 2); [lia..|]. rewrite Ht in *. nia.
Qed.

Lemma parseSize_text n : fits53 n → 0 ≤ n ≤ 2 ^ 62 → parseSize (memoryText n) = Ok n.
Proof.
  intros Hf Hn. unfold memoryText.
  assert (∀ j u, 0 ≤ j ≤ 30 → n mod 2 ^ j = 0 → unit_text u j →
            parseSize (itoa (n / 2 ^ j) ++ u) = Ok n) as Hgo.
  { intros j u Hj Hmod Hu. pose proof (Z.pow_pos_nonneg 2 j ltac:(lia) ltac:(lia)) as Hp.
    pose proof (Z.div_mod n (2 ^ j) ltac:(lia)) as Hd. rewrite Hmod in Hd.
    rewrite (parseSize_unit _ u j); [f_equal; lia|apply fits53_div; [exact Hf|lia|exact Hmod]|apply Z.div_pos; lia|lia|exact Hu]. }
  destruct (n mod 2 ^ 30 =? 0) eqn:E1; [apply Hgo; [lia..|by split]|].
  destruct (n mod 2 ^ 20 =? 0) eqn:E2; [apply Hgo; [lia..|by split]|].
  destruct (n mod 2 ^ 10 =? 0) eqn:E3; [apply Hgo; [lia..|by split]|].
  rewrite <- (append_nil_r (itoa n)). rewrite (parseSize_unit _ "" 0); [f_equal; lia|done|lia|lia|by split].
Qed.

(** What Document writes for a memory limit or a tmpfs size is read back
    as the very number it was written for: for every size [parseSize] accepts,
    [memoryText] of it parses to it again, in whichever unit it was written,
    although both ways go through float64. *)
Theorem memoryText_roundtrip s n : parseSize s = Ok n → parseSize (memoryText n) = Ok n.
Proof. intros H. apply parseSize_range in H as [??]. by apply parseSize_text. Qed.

Lemma memoryText_roundtrip_witness : parseSize "0.3gb" = Ok 322122547 ∧ parseSize (memoryText 322122547) = Ok 322122547.
Proof.
  assert (parseSize "0.3gb" = Ok 322122547) as H by (vm_compute; reflexivity).
  split; [exact H | exact (memoryText_roundtrip _ _ H)].
Defined.
