(* ===== verification/SpecNames.v ===== *)
(** * Names, hostnames, paths, secrets' placeholders (pkg/spec)

    The predicates of parse.go, domains.go, wildcard.go, jobs.go, build.go,
    static.go, process.go, placeholder.go and proxy.go: every string of an
    application that ends up in a container name, a hostname, a path matcher
    or an argv is judged by one of them.  Each regular expression is the
    boolean function that recognises its language; Go's [$] matches at the
    end of the text only. *)

From S2P Require Import Prelude GoStrings GoURL SpecTypes.
From Stdlib Require Import Ascii String.
Local Open Scope string_scope.

(** ** Names *)

Definition alnum (c : ascii) : bool := is_lower c || is_digit c.
Definition label_char (c : ascii) : bool := alnum c || Ascii.eqb c "-".

Fixpoint last_is (f : ascii → bool) (s : string) : bool :=
  match s with "" => false | String c "" => f c | String _ r => last_is f r end.
Definition first_is (f : ascii → bool) (s : string) : bool :=
  match s with "" => false | String c _ => f c end.

(** [a-z0-9]([a-z0-9-]{0,max-2}[a-z0-9])? *)
Definition label (max : Z) (s : string) : bool :=
  first_is alnum s && last_is alnum s && str_forall label_char s && (slen s <=? max)%Z.

Definition namePattern : string → bool := label 63.
Definition domainLabel : string → bool := label 63.
Definition jobNamePattern : string → bool := label 40.

Definition env_first (c : ascii) : bool := is_letter c || Ascii.eqb c "_".
Definition env_char (c : ascii) : bool := env_first c || is_digit c.
Definition envKeyPattern (s : string) : bool := first_is env_first s && str_forall env_char s.

(** ([a-z_][a-z0-9_-]{0,31}|[0-9]{1,10}), once or twice around a colon. *)
Definition user_part (s : string) : bool :=
  (first_is (λ c, is_lower c || Ascii.eqb c "_") s
   && str_forall (λ c, label_char c || Ascii.eqb c "_") s && (slen s <=? 32)%Z)
  || (nonempty s && str_forall is_digit s && (slen s <=? 10)%Z).
Definition userPattern (s : string) : bool :=
  let '(user, group, colon) := cut ":" s in
  user_part user && (negb colon || user_part group).

Definition ValidateName (s : string) : result unit :=
  if namePattern s then Ok tt
  else Err [L "invalid application name "; Q s; L ": use lowercase letters, digits and dashes (max 63 characters)"].

Definition MaxJobNameLength : Z := 40.
Definition ValidateJobName (s : string) : result unit :=
  if jobNamePattern s then Ok tt
  else Err [L "invalid job name "; Q s; L ": use lowercase letters, digits and dashes (max "; D MaxJobNameLength; L " characters)"].

(** ** Hostnames *)

Definition ValidateDomain (domain : string) : result unit :=
  if (253 <? slen domain)%Z then Err [L "invalid value: longer than 253 characters"]
  else if forallb domainLabel (split "." domain) then Ok tt
  else Err [L "invalid value "; Q domain; L ": not a valid hostname"].

Definition IsWildcard (hostname : string) : bool := has_prefix "*." hostname.

Definition ValidateHostname (hostname : string) : result unit :=
  if negb (contains_char "*" hostname) || (253 <? slen hostname)%Z then ValidateDomain hostname
  else match cut_prefix "*." hostname with
       | Some rest =>
           if is_ok (ValidateDomain rest) then Ok tt
           else Err [L "invalid value "; Q hostname; L ": a wildcard is one leading label and nothing else"]
       | None => Err [L "invalid value "; Q hostname; L ": a wildcard is one leading label and nothing else"]
       end.

(** ** Paths *)

Definition nul_or_newline : list ascii := [chr 0; chr 13; chr 10].

Definition validMountPath (p : string) : bool :=
  has_prefix "/" p && negb (contains_any nul_or_newline p) && String.eqb (Clean p) p && negb (String.eqb p "/").

Definition MaxPathBytes : Z := 200.

Definition path_char (c : ascii) : bool :=
  is_letter c || is_digit c || contains ["."; "_"; "~"; "-"]%char c.
(** ^(/[A-Za-z0-9._~-]+)+$ *)
Definition pathPattern (p : string) : bool :=
  match p with
  | String "/" r => forallb (λ e, nonempty e && str_forall path_char e) (split "/" r)
  | _ => false
  end.

Definition validateURLPath (p : string) : result unit :=
  if negb (has_prefix "/" p) then Err [L "invalid value "; Q p; L ": must start with /"]
  else if (MaxPathBytes <? slen p)%Z then Err [L "invalid value: longer than "; D MaxPathBytes; L " characters"]
  else if has_suffix "/" p then Err [L "invalid value "; Q p; L ": must not end with /"]
  else if negb (pathPattern p)
  then Err [L "invalid value "; Q p; L ": use letters, digits, dots, dashes, underscores and tildes between the slashes"]
  else if existsb (λ e, String.eqb e "." || String.eqb e "..") (split "/" (trim_prefix "/" p))
  then Err [L "invalid value "; Q p; L ": must not contain . or .. segments"]
  else Ok tt.

Definition PathKey (p : string) : string := to_lower p.
Definition PathWithin (p prefix : string) : bool :=
  let p := PathKey p in let prefix := PathKey prefix in
  String.eqb prefix "" || String.eqb p prefix || has_prefix (prefix ++ "/") p.

(** isDrivePath *)
Definition isDrivePath (p : string) : bool :=
  match p with String c (String ":" _) => is_letter c | _ => false end.

Fixpoint replace_char (a b : ascii) (s : string) : string :=
  match s with "" => "" | String c r => String (if Ascii.eqb c a then b else c) (replace_char a b r) end.

Definition validateBuildPath (p relativeTo inside : string) : result string :=
  if contains_any nul_or_newline p then Err [L "invalid value "; Q p; L ": must not contain control characters"] else
  let slashed := replace_char (chr 92) "/" p in
  if has_prefix "/" slashed || has_prefix "~" slashed || isDrivePath slashed
  then Err [L "invalid value "; Q p; L ": must be relative to "; S' relativeTo] else
  let cleaned := Clean slashed in
  if String.eqb cleaned ".." || has_prefix "../" cleaned
  then Err [L "invalid value "; Q p; L ": must stay inside "; S' inside]
  else Ok cleaned.

(** cleanStaticDir: the folder, or the problem. *)
Definition cleanStaticDir (s : string) : result string :=
  let s := trim_space (replace_char (chr 92) "/" s) in
  if String.eqb s "" then Err [L "must not be empty"]
  else if contains_any nul_or_newline s then Err [L "must not contain control characters"]
  else if has_prefix "/" s || match s with String _ (String ":" _) => true | _ => false end
  then Err [L "must be a relative path: the folder is found next to deploy.yaml"] else
  let dir := Clean s in
  if String.eqb dir ".." || has_prefix "../" dir then Err [L "must stay inside the directory of deploy.yaml"]
  else Ok dir.

(** validateHealthPath *)
Definition space_or_control (c : ascii) : bool := (code c <=? 32)%N || (code c =? 127)%N.
Definition validateHealthPath (p : string) : result unit :=
  if negb (has_prefix "/" p) then Err [L "invalid value "; Q p; L ": must start with /"]
  else if (2048 <? slen p)%Z then Err [L "invalid value: longer than 2048 characters"]
  else if str_exists space_or_control p
  then Err [L "invalid value "; Q p; L ": must not contain whitespace or control characters"]
  else match ParseRequestURI p with
       | Some u => if nonempty (u_Host u) || nonempty (u_Scheme u)
                   then Err [L "invalid value "; Q p; L ": not a valid URL path"] else Ok tt
       | None => Err [L "invalid value "; Q p; L ": not a valid URL path"]
       end.

(** ** Local images *)

Definition LocalImageHost := "shipwick.local".
Definition IsLocalImage (ref : string) : bool := has_prefix (LocalImageHost ++ "/") ref.
Definition LocalImagePrefix (app : string) : string := LocalImageHost ++ "/" ++ app ++ ":".

(** The part before the first colon or at sign. *)
Fixpoint before_any (set : list ascii) (s : string) : string :=
  match s with "" => "" | String c r => if contains set c then "" else String c (before_any set r) end.

Definition ValidateLocalImage (image app : string) : result unit :=
  if negb (IsLocalImage image) || has_prefix (LocalImagePrefix app) image then Ok tt else
  let owner := before_any [":"; "@"]%char (trim_prefix (LocalImageHost ++ "/") image) in
  Err [S' image; L " was built for "; S' owner; L " and runs for "; S' owner;
       L " alone; run shipwick deploy from that project to deploy it, or name an image of "; S' app].

(** ** Users (security.go) *)

(** RootUser: why a user cannot be held to be other than root; None when it
    is a numeric id other than 0. *)
Definition max_uint64 : Z := 2 ^ 64 - 1.
Definition RootUser (user : string) : option string :=
  let name := (cut ":" (trim_space user)).1.1 in
  if String.eqb name "" then Some "no user is named, and a container without one runs as root" else
  match parse_digits name with
  | Some id =>
      if (max_uint64 <? id)%Z
      then Some "it is a name, and which id a name stands for is in the image's /etc/passwd, which is not read"
      else if (id =? 0)%Z then Some "id 0 is root" else None
  | None =>
      if String.eqb name "root" then Some "it is root"
      else Some "it is a name, and which id a name stands for is in the image's /etc/passwd, which is not read"
  end.

(** ** Placeholders *)

Fixpoint env_name (s : string) : string * string :=
  match s with
  | String c r => if env_char c then let '(a, b) := env_name r in (String c a, b) else ("", s)
  | "" => ("", "")
  end.

(** {NAME} at the head of a text: the name and what follows. *)
Definition braced (s : string) : option (string * string) :=
  match s with
  | String "{" r =>
      let '(name, after) := env_name r in
      match after with
      | String "}" rest => if first_is env_first name then Some (name, rest) else None
      | _ => None
      end
  | _ => None
  end.

(** A match of Placeholder at the head: whether it is escaped, the name, the
    rest. *)
Definition placeholder_at (s : string) : option (bool * string * string) :=
  match s with
  | String "$" r =>
      match r with
      | String "$" r' => match braced r' with Some (n, rest) => Some (true, n, rest) | None => None end
      | _ => match braced r with Some (n, rest) => Some (false, n, rest) | None => None end
      end
  | _ => None
  end.

(** FindAllStringSubmatch: the matches from left to right, without overlap.
    Every round drops at least a byte. *)
Fixpoint find_placeholders (fuel : nat) (s : string) : list (bool * string) :=
  match fuel, s with
  | S fuel, String _ r =>
      match placeholder_at s with
      | Some (escaped, name, rest) => (escaped, name) :: find_placeholders fuel rest
      | None => find_placeholders fuel r
      end
  | _, _ => []
  end.
Definition Placeholder (s : string) : list (bool * string) := find_placeholders (String.length s) s.

Definition hasPlaceholder (s : string) : bool := existsb (λ m, negb m.1) (Placeholder s).
Definition placeholderNames (s : string) : list string := (filter (λ m, m.1 = false) (Placeholder s)).*2.

(** ReplaceAllStringFunc with "$" put before every match. *)
Fixpoint escape_from (fuel : nat) (s : string) : string :=
  match fuel, s with
  | S fuel, String c r =>
      match placeholder_at s with
      | Some (escaped, name, rest) =>
          (if escaped then "$$${" else "$${") ++ name ++ "}" ++ escape_from fuel rest
      | None => String c (escape_from fuel r)
      end
  | _, _ => ""
  end.
Definition escape_placeholders (s : string) : string := escape_from (String.length s) s.

Example placeholders :
  (Placeholder "a${B}$${C}${1}$$${D}", hasPlaceholder "$${A}", placeholderNames "${A}x${B_1}", escape_placeholders "x${A}$${B}")
  = ([(false, "B"); (true, "C"); (true, "D")], false, ["A"; "B_1"], "x$${A}$$${B}").
Proof. reflexivity. Qed.

(** ** Passwords *)

Definition cont (lo hi : N) (c : ascii) : bool := ((lo <=? code c) && (code c <=? hi))%N.

(** How many bytes the rune at the head takes; a byte that begins no valid
    rune counts as one. *)
Definition rune_len (s : string) : nat :=
  match s with
  | String a r =>
      let n := code a in
      let tail (lo hi : N) (more : nat) :=
        match more, r with
        | 1, String b _ => if cont lo hi b then 2 else 1
        | 2, String b (String c _) => if cont lo hi b && cont 128 191 c then 3 else 1
        | 3, String b (String c (String d _)) =>
            if cont lo hi b && cont 128 191 c && cont 128 191 d then 4 else 1
        | _, _ => 1
        end in
      if (n <? 194)%N then 1
      else if (n <=? 223)%N then tail 128%N 191%N 1
      else if (n =? 224)%N then tail 160%N 191%N 2
      else if (n =? 237)%N then tail 128%N 159%N 2
      else if (n <=? 239)%N then tail 128%N 191%N 2
      else if (n =? 240)%N then tail 144%N 191%N 3
      else if (n <=? 243)%N then tail 128%N 191%N 3
      else if (n =? 244)%N then tail 128%N 143%N 3
      else 1
  | "" => 0
  end%nat.

Fixpoint count_runes (skip : nat) (s : string) : Z :=
  match s with
  | "" => 0
  | String _ r => match skip with
                  | S k => count_runes k r
                  | O => 1 + count_runes (rune_len s - 1) r
                  end
  end%Z.

Definition hasControl (s : string) : bool := str_exists is_control s.

Definition MinPasswordChars : Z := 8.
Definition MaxPasswordBytes : Z := 72.
Definition ValidatePassword (password : string) : result unit :=
  if String.eqb password "" then Err [L "is required"]
  else if (count_runes 0 password <? MinPasswordChars)%Z
  then Err [L "is too short: at least "; D MinPasswordChars; L " characters"]
  else if (MaxPasswordBytes <? slen password)%Z
  then Err [L "is too long: at most "; D MaxPasswordBytes; L " bytes"]
  else if hasControl password then Err [L "must not contain control characters"]
  else Ok tt.
