(* ===== verification/SpecValidate.v ===== *)
(** * Validation of a deploy.yaml (pkg/spec)

    One definition per validator of parse.go, domains.go, process.go, jobs.go,
    logging.go, build.go, static.go, proxy.go, backups.go, publish.go,
    security.go and init.go, in the writer of field errors, and [validate],
    which runs them in the source's order.  A parser of image references is a
    parameter: the source calls github.com/distribution/reference. *)

From stdpp Require Import sorting.
From S2P Require Import Prelude GoStrings GoTime GoFloat GoURL SpecTypes SpecUnits SpecNames Cron.
From Stdlib Require Import Ascii String.
Local Open Scope string_scope.

(** fmt.Sprintf("invalid value %q", v) and the like *)
Definition invalid (v : string) : text := [L "invalid value "; Q v].
Definition invalid_d (n : Z) : text := [L "invalid value "; D n].
Definition too_many {A} (l : list A) : text := [L "too many ("; D (Z.of_nat (List.length l)); L ")"].
Definition at_most (n : Z) : text := [L "at most "; D n].
Definition more_than {A} (l : list A) (n : Z) : bool := (n <? Z.of_nat (List.length l))%Z.

(** A command line as an example shows it. *)
Definition dq (s : string) : string := String (chr 34) (s ++ String (chr 34) "").
Definition argv_text (l : list string) : text := [L ("[" ++ join ", " (dq <$> l) ++ "]")].

(** The keys of a map in the order of sort.Strings. *)
Definition str_le (a b : string) : Prop := (str_compare a b ≤ 0)%Z.
#[export] Instance str_le_dec a b : Decision (str_le a b) := decide (str_compare a b ≤ 0)%Z.
Definition sorted_keys (m : gmap string string) : list string := merge_sort str_le (map_to_list m).*1.

Definition staticExclusiveMessage : text :=
  [L "does not apply to a static application: the proxy serves the files, there is no container"].
Definition is_static (r : raw) : bool := nonempty (sr_Dir (r_Static r)).

(** ** Environment, volumes, health (parse.go) *)

Definition validateEnv (r : raw) : V (gmap string string) :=
  let+ _ := vloop (λ _ k _,
    if negb (envKeyPattern k)
    then vadd ("env." ++ k) [L "invalid variable name"] [L "letters, digits and underscores, e.g. DATABASE_URL"]
    else if contains_char (chr 0) (default "" (r_Env r !! k))
    then vadd ("env." ++ k) [L "value must not contain NUL bytes"] []
    else vok) 0 (sorted_keys (r_Env r)) tt in
  vret (r_Env r).

Definition validateVolumes (r : raw) : V (list Volume) :=
  if more_than (r_Volumes r) MaxVolumes then
    let+ _ := vadd "volumes" (too_many (r_Volumes r)) (at_most MaxVolumes) in vret []
  else
    let+ st := vloop (λ i v st,
      let '(names, paths, out) := st in
      let field := at_index "volumes" i in
      let+ _ :=
        if String.eqb (vr_Name v) "" then vadd (field ++ ".name") [L "is required"] [L "data"]
        else if negb (namePattern (vr_Name v))
        then vadd (field ++ ".name") (invalid (vr_Name v)) [L "lowercase letters, digits and dashes, e.g. data"]
        else if contains names (vr_Name v)
        then vadd (field ++ ".name") [Q (vr_Name v); L " is used twice"] [L "a different name for each volume"]
        else vok in
      let p := trim_space (vr_Path v) in
      let+ _ :=
        if String.eqb p "" then vadd (field ++ ".path") [L "is required"] [L "/var/lib/postgresql/data"]
        else if negb (validMountPath p)
        then vadd (field ++ ".path") (invalid (vr_Path v)) [L "an absolute path inside the container, e.g. /var/lib/postgresql/data"]
        else if contains paths p
        then vadd (field ++ ".path") [Q p; L " is mounted twice"] [L "a different path for each volume"]
        else vok in
      vret (vr_Name v :: names, p :: paths, (out ++ [mk_volume (vr_Name v) p])%list))
      0 (r_Volumes r) ([], [], []) in
    vret st.2.

Definition MaxHealthCommandArgs : Z := 64.

Definition validateHealthCommand (cmd : list string) : V (list string) :=
  let example := argv_text ["pg_isready"; "-U"; "postgres"] in
  if bool_decide (cmd = []) then
    let+ _ := vadd "health.command" [L "must not be empty"] example in vret []
  else if more_than cmd MaxHealthCommandArgs then
    let+ _ := vadd "health.command" [L "too many arguments ("; D (Z.of_nat (List.length cmd)); L ")"]
                (at_most MaxHealthCommandArgs) in vret []
  else
    let+ _ := vloop (λ i arg _,
      if String.eqb arg "" then vadd (at_index "health.command" i) [L "must not be empty"] example
      else if contains_char (chr 0) arg
      then vadd (at_index "health.command" i) [L "must not contain NUL bytes"] example
      else vok) 0 cmd tt in
    vret cmd.

(** A duration that may be absent: the default, or what was read (zero when it
    does not parse). *)
Definition duration_field (v : string) (dflt min max : Duration) (field : string) (expected : text) : V Duration :=
  if String.eqb v "" then vret dflt
  else match parseDuration v min max with
       | Ok d => vret d
       | Err e => let+ _ := vadd field e expected in vret 0%Z
       end.

(** Which of path, tcp and command are set. *)
Definition health_kinds (h : healthRaw) : list string :=
  ((if nonempty (hr_Path h) then ["path"] else []) ++
   (if bool_decide (is_Some (hr_TCP h)) then ["tcp"] else []) ++
   (if bool_decide (is_Some (hr_Command h)) then ["command"] else []))%list.

Definition port_ok (n : Z) : bool := ((1 <=? n) && (n <=? 65535))%Z.

Definition validateHealth (r : raw) : V (option Health) :=
  match r_Health r with
  | None => vret None
  | Some h =>
      let kinds := health_kinds h in
      let tcp := default 0%Z (hr_TCP h) in
      let+ command :=
        match kinds with
        | [] => let+ _ := vadd "health" [L "one of path, tcp or command is required"] [L "path: /health"] in vret []
        | [k] =>
            if String.eqb k "path" then
              let+ _ := report (validateHealthPath (hr_Path h)) "health.path" [L "/health, /healthz, /api/ping, ..."] in
              let+ _ := if bool_decide (r_Port r = None)
                        then vadd "port" [L "is required when health is set"] [L "the port your application listens on, e.g. 8080"]
                        else vok in
              vret []
            else if String.eqb k "tcp" then
              let+ _ := if port_ok tcp then vok
                        else vadd "health.tcp" (invalid_d tcp) [L "the port your application listens on, e.g. 5432"] in
              vret []
            else validateHealthCommand (default [] (hr_Command h))
        | _ => let+ _ := vadd "health" [S' (join " and " kinds); L " are set; a health check is one of path, tcp or command"]
                           [L "path: /health for an HTTP application, tcp: 5432 for a database"] in vret []
        end in
      let+ interval := duration_field (hr_Interval h) DefaultHealthInterval second (5 * minute)%Z
                         "health.interval" [L "5s, 10s, 1m, ... (1s to 5m)"] in
      let+ timeout := duration_field (hr_Timeout h) DefaultHealthTimeout (100 * millisecond)%Z minute
                        "health.timeout" [L "500ms, 3s, 10s, ... (100ms to 1m)"] in
      let+ retries :=
        match hr_Retries h with
        | None => vret DefaultHealthRetries
        | Some n => let+ _ := if (n <? 1)%Z || (100 <? n)%Z
                              then vadd "health.retries" (invalid_d n) [L "a number between 1 and 100"] else vok in
                    vret n
        end in
      let+ start := duration_field (hr_StartPeriod h) 0%Z 0%Z (30 * minute)%Z
                      "health.start_period" [L "30s, 1m, 5m, ... (up to 30m)"] in
      vret (Some (mk_health (hr_Path h) tcp command interval timeout retries start))
  end.

(** ** Hostnames (domains.go) *)

Definition MaxHostnames : Z := 20.

Definition validateHostnames (field : string) (hosts : list string) (seen : gmap string string)
    (valid : string → result unit) : V (list string * gmap string string) :=
  if bool_decide (hosts = []) then vret ([], seen)
  else if more_than hosts MaxHostnames then
    let+ _ := vadd field (too_many hosts) (at_most MaxHostnames) in vret ([], seen)
  else
    vloop (λ i entry st,
      let '(out, seen) := st in
      let name := at_index field i in
      let h := to_lower (trim_space entry) in
      let under := default "" (seen !! h) in
      let+ _ :=
        if String.eqb h "" then vadd name [L "is empty"] [L "a hostname, e.g. www.example.com"]
        else match valid h with
             | Err e => vadd name e [L "www.example.com"]
             | Ok _ => if nonempty under
                       then vadd name [Q h; L " is already listed under "; S' under] [L "each hostname once"]
                       else vok
             end in
      vret ((out ++ [h])%list, <[h := name]> seen)) 0 hosts ([], seen).

Definition validateDomains (r : raw) (domain : string) : V (list string * list string) :=
  if bool_decide (r_Aliases r = []) && bool_decide (r_Redirects r = []) then vret ([], [])
  else if String.eqb domain "" then
    let+ _ := if bool_decide (r_Aliases r = []) then vok
              else vadd "aliases" [L "requires domain: aliases are served like it"] [L "domain: example.com"] in
    let+ _ := if bool_decide (r_Redirects r = []) then vok
              else vadd "redirects" [L "requires domain: redirects are sent to it"] [L "domain: example.com"] in
    vret ([], [])
  else
    let+ _ := if IsWildcard domain && negb (bool_decide (r_Redirects r = []))
              then vadd "redirects" [L "cannot be sent to a wildcard domain"]
                     [L "domain: example.com, with the wildcard under aliases"]
              else vok in
    let+ (aliases, seen) := validateHostnames "aliases" (r_Aliases r) {[ domain := "domain" ]} ValidateHostname in
    let+ (redirects, _) := validateHostnames "redirects" (r_Redirects r) seen ValidateDomain in
    vret (aliases, redirects).

(** ** Process (process.go) *)

Definition MaxArgs : Z := 64.

Definition validateArgv (field : string) (args : option (list string)) (example : text) : V (list string) :=
  match args with
  | None => vret []
  | Some args =>
      if bool_decide (args = []) then
        let+ _ := vadd field [L "must not be empty; omit it to keep the image's own"] example in vret []
      else if more_than args MaxArgs then
        let+ _ := vadd field [L "too many arguments ("; D (Z.of_nat (List.length args)); L ")"] (at_most MaxArgs) in vret []
      else
        let+ _ := vloop (λ i arg _,
          if String.eqb arg "" then vadd (at_index field i) [L "must not be empty"] example
          else if contains_any nul_or_newline arg
          then vadd (at_index field i) [L "must not contain newlines or NUL bytes"] []
          else vok) 0 args tt in
        vret args
  end.

Definition validateProcess (r : raw) : V (list string * list string * string) :=
  let+ entrypoint := validateArgv "entrypoint" (r_Entrypoint r) (argv_text ["dotnet"]) in
  let+ command := validateArgv "command" (r_Command r) (argv_text ["App.dll"; "--urls"; "http://0.0.0.0:8080"]) in
  let user := trim_space (r_User r) in
  let+ _ := if nonempty user && negb (userPattern user)
            then vadd "user" (invalid (r_User r)) [L "a user name or id, with or without a group: app, 1000, 1000:1000"]
            else vok in
  vret (entrypoint, command, user).

(** ** The hook and the jobs (jobs.go) *)

Definition DefaultHookTimeout : Duration := (10 * minute)%Z.
Definition DefaultJobTimeout : Duration := hour.
Definition MaxHookTimeout : Duration := hour.
Definition MaxJobTimeout : Duration := (24 * hour)%Z.
Definition MaxJobs : Z := 20.
Definition MaxCommandArgs : Z := 256.
Definition MaxCommandArgBytes : Z := 4096.
Definition ReservedJobNames : list string := ["pre-deploy"; "run"].

Fixpoint command_args (i : Z) (argv : list string) : result unit :=
  match argv with
  | [] => Ok tt
  | arg :: r =>
      if contains_char (chr 0) arg then Err [L "argument "; D i; L " must not contain NUL bytes"]
      else if (MaxCommandArgBytes <? slen arg)%Z
      then Err [L "argument "; D i; L " is longer than "; D MaxCommandArgBytes; L " bytes"]
      else command_args (i + 1)%Z r
  end.

Definition ValidateCommand (argv : list string) : result unit :=
  if match argv with [] => true | a :: _ => String.eqb (trim_space a) "" end then Err [L "is required"]
  else if more_than argv MaxCommandArgs
  then Err [L "too many arguments ("; D (Z.of_nat (List.length argv)); L ")"]
  else command_args 1 argv.

Definition cron_expected : text :=
  [L ("five cron fields in UTC, e.g. " ++ dq "0 3 * * *" ++ " (every day at 03:00), " ++ dq "*/15 * * * *" ++ " (every 15 minutes)")].
Definition cron_required : text :=
  [L (dq "0 3 * * *" ++ " (minute hour day-of-month month day-of-week, in UTC)")].

Definition validateHook (r : raw) : V (option Hook) :=
  match r_PreDeploy r with
  | None => vret None
  | Some h =>
      let+ _ := report (ValidateCommand (hk_Command h)) "pre_deploy.command" (argv_text ["dotnet"; "Migrate.dll"]) in
      let+ timeout := duration_field (hk_Timeout h) DefaultHookTimeout second MaxHookTimeout
                        "pre_deploy.timeout" [L "30s, 10m, 1h, ... (1s to 1h)"] in
      vret (Some (mk_hook (hk_Command h) timeout))
  end.

(** One job: its name is judged against those before it. *)
Definition validateJob (i : nat) (j : jobRaw) (names : list string) : V Job :=
  let field := at_index "jobs" i in
  let schedule := join " " (fields (jr_Schedule j)) in
  let+ _ :=
    if String.eqb (jr_Name j) "" then vadd (field ++ ".name") [L "is required"] [L "nightly-report"]
    else if negb (is_ok (ValidateJobName (jr_Name j)))
    then vadd (field ++ ".name") (invalid (jr_Name j))
           [L "lowercase letters, digits and dashes, e.g. nightly-report (max "; D MaxJobNameLength; L " characters)"]
    else if contains ReservedJobNames (jr_Name j)
    then vadd (field ++ ".name") [Q (jr_Name j); L " is reserved"] [L "another name, e.g. nightly-report"]
    else if contains names (jr_Name j)
    then vadd (field ++ ".name") [Q (jr_Name j); L " is used twice"] [L "a different name for each job"]
    else vok in
  let+ _ :=
    if String.eqb schedule "" then vadd (field ++ ".schedule") [L "is required"] cron_required
    else match Parse schedule with
         | Ok _ => vok
         | Err e => vadd (field ++ ".schedule") (invalid (jr_Schedule j) ++ [L ": "] ++ e)%list cron_expected
         end in
  let+ _ := report (ValidateCommand (jr_Command j)) (field ++ ".command") (argv_text ["node"; "report.js"]) in
  let+ timeout := duration_field (jr_Timeout j) DefaultJobTimeout second MaxJobTimeout
                    (field ++ ".timeout") [L "5m, 1h, 12h, ... (1s to 24h)"] in
  vret (mk_job (jr_Name j) schedule (jr_Command j) timeout).

Definition validateJobs (r : raw) : V (option Hook * list Job) :=
  let+ hook := validateHook r in
  if more_than (r_Jobs r) MaxJobs then
    let+ _ := vadd "jobs" (too_many (r_Jobs r)) (at_most MaxJobs) in vret (hook, [])
  else
    let+ st := vloop (λ i j st,
      let '(names, out) := st in
      let+ job := validateJob i j names in
      vret (jr_Name j :: names, (out ++ [job])%list)) 0 (r_Jobs r) ([], []) in
    vret (hook, st.2).

(** ** Logging (logging.go) *)

Definition LogDrivers : list string :=
  ["json-file"; "local"; "syslog"; "journald"; "gelf"; "fluentd"; "awslogs"; "splunk"].
Definition MaxLogOptions : Z := 20.
Definition MaxLogOptionBytes : Z := 1024.
Definition logOptionKeyPattern (s : string) : bool := first_is is_lower s && str_forall label_char s.

Definition logAddressOptions (k : string) : option (list string * string) :=
  if String.eqb k "syslog-address" then Some (["udp"; "tcp"; "tcp+tls"], "udp://logs.example.com:514")
  else if String.eqb k "gelf-address" then Some (["udp"; "tcp"], "udp://logs.example.com:12201")
  else if String.eqb k "fluentd-address" then Some (["tcp"; "tls"], "tcp://logs.example.com:24224")
  else None.
Definition logFileOptions : list string :=
  ["syslog-tls-ca-cert"; "syslog-tls-cert"; "syslog-tls-key"; "splunk-cafile"; "splunk-capath"].

Fixpoint contains_text (sub s : string) : bool :=
  has_prefix sub s || match s with "" => false | String _ r => contains_text sub r end.

Definition validateLogAddress (s : string) (schemes : list string) : result unit :=
  let bad := Err (invalid s ++ [L ": must be scheme://host:port"])%list in
  if negb (contains_text "://" s) then bad else
  match url_Parse s with
  | None => bad
  | Some u =>
      if contains ["unix"; "unixgram"] (u_Scheme u)
      then Err (invalid s ++ [L ": a socket is a path on the server, which Shipwick never mounts; use a network address"])%list
      else if negb (contains schemes (u_Scheme u))
      then Err (invalid s ++ [L ": unknown scheme "; Q (u_Scheme u); L ", use "; S' (join ", " schemes)])%list
      else if nonempty (u_Opaque u) || u_User u || nonempty (u_Path u) || nonempty (u_RawQuery u) || nonempty (u_Fragment u)
      then Err (invalid s ++ [L ": must be scheme://host:port, nothing after the port"])%list
      else match SplitHostPort (u_Host u) with
           | Some (host, port) =>
               if String.eqb host "" then bad else
               match atoi port with
               | Some n => if port_ok n then Ok tt
                           else Err (invalid s ++ [L ": port must be a number between 1 and 65535"])%list
               | None => Err (invalid s ++ [L ": port must be a number between 1 and 65535"])%list
               end
           | None => bad
           end
  end.

(** One option: kept in [out] when nothing is wrong with it. *)
Definition validateLogOption (options : gmap string string) (k : string) (out : gmap string string) : V (gmap string string) :=
  let v := default "" (options !! k) in
  let field := "logging.options." ++ k in
  let drop (m e : text) := let+ _ := vadd field m e in vret out in
  if negb (logOptionKeyPattern k) then drop [L "invalid option name"] [L "lowercase letters, digits and dashes, e.g. gelf-address"]
  else if contains logFileOptions k
  then drop [L "names a file on the server, which Shipwick never reads"]
         [L "leave it out and give the collector a certificate the server trusts"]
  else if (MaxLogOptionBytes <? slen v)%Z
  then drop [L "value is too long ("; D (slen v); L " characters)"] (at_most MaxLogOptionBytes)
  else if contains_any nul_or_newline v then drop [L "value must not contain newlines or NUL bytes"] []
  else match logAddressOptions k with
       | Some (schemes, example) =>
           match validateLogAddress v schemes with
           | Err e => drop e [L example]
           | Ok _ => vret (<[k := v]> out)
           end
       | None => vret (<[k := v]> out)
       end.

Definition validateLogging (r : raw) : V (option Logging) :=
  match r_Logging r with
  | None => vret None
  | Some l =>
      let driver := trim_space (lr_Driver l) in
      let+ _ :=
        if String.eqb driver "" then vadd "logging.driver" [L "is required when logging is set"] [L (join ", " LogDrivers)]
        else if negb (contains LogDrivers driver)
        then vadd "logging.driver" (invalid (lr_Driver l)) [L (join ", " LogDrivers)]
        else vok in
      let keys := sorted_keys (lr_Options l) in
      if more_than keys MaxLogOptions then
        let+ _ := vadd "logging.options" (too_many keys) (at_most MaxLogOptions) in vret (Some (mk_logging driver ∅))
      else
        let+ out := vloop (λ _ k out, validateLogOption (lr_Options l) k out) 0 keys ∅ in
        vret (Some (mk_logging driver out))
  end.

(** ** Build and static (build.go, static.go) *)

Definition DefaultDockerfile := "Dockerfile".

(** A path that failed is kept as the empty string Go returns next to the error. *)
Definition or_empty (res : result string) : string := match res with Ok s => s | Err _ => "" end.

Definition has_build (r : raw) : bool := nonempty (br_Context (r_Build r)) || nonempty (br_Dockerfile (r_Build r)).

Definition validateBuild (r : raw) : V (option Build) :=
  if negb (has_build r) then vret None else
  let context := let c := trim_space (br_Context (r_Build r)) in if String.eqb c "" then "." else c in
  let cleaned := validateBuildPath context "deploy.yaml" "the directory of deploy.yaml" in
  let+ _ := report cleaned "build.context" [L ". for the directory of deploy.yaml, or a folder in it such as api"] in
  let dockerfile := trim_space (br_Dockerfile (r_Build r)) in
  let+ file :=
    if String.eqb dockerfile "" then vret DefaultDockerfile
    else let c := validateBuildPath dockerfile "the context" "the context" in
         let+ _ := report c "build.dockerfile" [L "Dockerfile, or a file in the context such as docker/Dockerfile.prod"] in
         vret (or_empty c) in
  let+ _ := if is_static r
            then vadd "build" [L "cannot be combined with static: a static application has no image to build"] [L "one of build and static"]
            else vok in
  let image := trim_space (r_Image r) in
  let+ _ := if nonempty image && negb (IsLocalImage image)
            then vadd "image" [L "is built here; remove image or build"] [L "build: . alone, or image: alone"] else vok in
  vret (Some (mk_build (or_empty cleaned) file)).

Definition validateFallback (r : raw) : V string :=
  let f := trim_space (sr_Fallback (r_Static r)) in
  if String.eqb f "" then vret "" else
  let example := [L "index.html, 200.html, app/index.html — a file in the folder"] in
  let+ _ :=
    if has_prefix "/" f then vadd "static.fallback" (invalid f ++ [L ": must be relative to the folder"])%list example
    else if (MaxPathBytes <? slen f)%Z
    then vadd "static.fallback" [L "invalid value: longer than "; D MaxPathBytes; L " characters"] example
    else if negb (is_ok (validateURLPath ("/" ++ f)))
    then vadd "static.fallback" (invalid f ++ [L ": name a file inside the folder, with letters, digits, dots, dashes, underscores and tildes between the slashes"])%list example
    else vok in
  vret f.

(** The fields a static application does not have, and whether they are set. *)
Definition static_exclusive (r : raw) : list (string * bool) :=
  [("image", nonempty (r_Image r));
   ("build", has_build r);
   ("port", bool_decide (is_Some (r_Port r)));
   ("replicas", match r_Replicas r with Some n => negb (n =? DefaultReplicas)%Z | None => false end);
   ("env", negb (bool_decide (r_Env r = ∅)));
   ("health", bool_decide (is_Some (r_Health r)));
   ("resources", nonempty (r_CPU r) || nonempty (r_Memory r));
   ("volumes", negb (bool_decide (r_Volumes r = [])));
   ("publish", negb (bool_decide (r_Publish r = [])));
   ("entrypoint", negb (bool_decide (default [] (r_Entrypoint r) = [])));
   ("command", negb (bool_decide (default [] (r_Command r) = [])));
   ("user", nonempty (r_User r));
   ("logging", bool_decide (is_Some (r_Logging r)));
   ("pre_deploy", bool_decide (is_Some (r_PreDeploy r)));
   ("jobs", negb (bool_decide (r_Jobs r = [])))].

Definition validateStatic (r : raw) (domain : string) : V (option Static) :=
  if negb (is_static r) then
    let+ _ := if nonempty (sr_Fallback (r_Static r))
              then vadd "static.dir" [L "is required: the folder the fallback page is in"] [L "dist"] else vok in
    vret None
  else
    let dir := cleanStaticDir (sr_Dir (r_Static r)) in
    let+ _ := report dir "static" [L "dist/, build/, out/ — a folder relative to deploy.yaml"] in
    let+ _ := if String.eqb domain ""
              then vadd "domain" [L "is required for a static application: the proxy serves the files at it"] [L "example.com"]
              else vok in
    let+ _ := vloop (λ _ (f : string * bool) _, if f.2 then vadd f.1 staticExclusiveMessage [] else vok) 0 (static_exclusive r) tt in
    let+ fallback := validateFallback r in
    vret (Some (mk_static (or_empty dir) fallback)).

(** ** Decoder errors (syntaxError, parse.go) *)

Fixpoint take_word (s : string) : string * string :=
  match s with
  | String c r => if re_space c then ("", s) else let '(a, b) := take_word r in (String c a, b)
  | "" => ("", "")
  end.
Definition no_newline (s : string) : bool := negb (contains_char (chr 10) s).

(** A message under its line: the digits after "line ", the rest after a colon. *)
Definition yamlLinePattern (s : string) : option (string * string) :=
  r ← cut_prefix "line " s;
  let '(n, r) := span is_digit r in
  r ← cut_prefix ": " r;
  if nonempty n && no_newline r then Some (n, r) else None.
(** The word between "field " and " not found in type ". *)
Definition yamlUnknownPattern (s : string) : option string :=
  r ← cut_prefix "field " s;
  let '(w, r) := take_word r in
  r ← cut_prefix " not found in type " r;
  if nonempty w && no_newline r then Some w else None.
(** A message that ends in " into " and a word: what stands before it, and
    that word. *)
Fixpoint yamlGoTypePattern (s : string) : option (string * string) :=
  match (t ← cut_prefix " into " s; let '(w, r) := take_word t in
         if nonempty w && String.eqb r "" then Some w else None), s with
  | Some w, _ => Some ("", w)
  | None, String c r => '(a, w) ← yamlGoTypePattern r; Some (String c a, w)
  | None, "" => None
  end.

Definition friendlyType (goType : string) : string :=
  if has_prefix "int" goType || has_prefix "*int" goType then "a number"
  else if has_prefix "map" goType then "a key/value map"
  else if has_prefix "string" goType then "a string" else "the expected type".

(** One type error: the field error, and whether it is an unknown field. *)
Definition type_error (msg : string) : FieldError * bool :=
  let '(field, msg) := match yamlLinePattern msg with
                       | Some (n, m) => ("line " ++ n, m) | None => ("deploy.yaml", msg) end in
  match yamlUnknownPattern msg with
  | Some name => (mk_fieldError field [L "unknown field "; Q name] [], true)
  | None => let msg := match yamlGoTypePattern msg with
                       | Some (before, ty) => before ++ " into " ++ friendlyType ty | None => msg end in
            (mk_fieldError field [S' msg] [], false)
  end.

Definition syntaxError (err : yaml_error) : list FieldError * bool :=
  match err with
  | YamlEOF => ([mk_fieldError "deploy.yaml" [L "file is empty"] []], false)
  | YamlOther m => ([mk_fieldError "deploy.yaml" [S' (trim_prefix "yaml: " m)] []], false)
  | YamlTypeError msgs => ((type_error <$> msgs).*1, forallb snd (type_error <$> msgs))
  end.

Example type_errors :
  type_error <$> ["line 3: field prot not found in type spec.raw"; "line 4: cannot unmarshal !!str `x` into int"; "odd"]
  = [(mk_fieldError "line 3" [L "unknown field "; Q "prot"] [], true);
     (mk_fieldError "line 4" [S' "cannot unmarshal !!str `x` into a number"] [], false);
     (mk_fieldError "deploy.yaml" [S' "odd"] [], false)].
Proof. reflexivity. Qed.

(** ** Path and proxy (proxy.go) *)

Definition validatePath (r : raw) (domain : string) : V string :=
  let p := trim_space (r_Path r) in
  if String.eqb p "" then vret "" else
  let+ _ := if String.eqb domain ""
            then vadd "path" [L "requires domain: a path is a part of it"] [L "domain: example.com"] else vok in
  if String.eqb p "/" then vret "" else
  let+ _ := report (validateURLPath p) "path" [L "/api, /docs/v2, ..."] in
  vret p.

Definition MaxProxyHeaders : Z := 50.
Definition MaxHeaderValueBytes : Z := 4096.
Definition MaxBasicAuth : Z := 20.
Definition MaxPathRedirects : Z := 100.
Definition MaxRedirectToBytes : Z := 2048.
Definition MaxUsernameBytes : Z := 255.
Definition DefaultRedirectStatus : Z := 308.

Definition header_char (c : ascii) : bool :=
  is_letter c || is_digit c
  || contains ["!"; "#"; "$"; "%"; "&"; "'"; "*"; "+"; "."; "^"; "_"; "`"; "|"; "~"; "-"]%char c.
Definition headerNamePattern (s : string) : bool := nonempty s && str_forall header_char s.

Definition connectionHeaders : list string :=
  ["connection"; "content-encoding"; "content-length"; "keep-alive"; "proxy-authenticate";
   "proxy-authorization"; "proxy-connection"; "te"; "trailer"; "transfer-encoding"; "upgrade"].

Definition validateProxyPath (field p appPath example : string) : V string :=
  let p := trim_space p in
  if String.eqb p "" || String.eqb p "/" then vret "" else
  let+ _ :=
    match validateURLPath p with
    | Err e => vadd field e [L (appPath ++ example)]
    | Ok _ => if negb (PathWithin p appPath)
              then vadd field [Q p; L " is outside path "; S' appPath; L ", which is all this application serves"]
                     [L (appPath ++ example)]
              else vok
    end in
  vret p.

Definition validateAuthEntry (i : nat) (a : authRaw) (appPath : string) (seen : list string) : V (BasicAuth * string) :=
  let field := at_index "proxy.basic_auth" i in
  let name := ar_Username a in
  let+ path := validateProxyPath (field ++ ".path") (ar_Path a) appPath "/admin" in
  let account := PathKey path ++ String (chr 0) name in
  let+ _ :=
    if String.eqb name "" then vadd (field ++ ".username") [L "is required"] [L "admin"]
    else if (MaxUsernameBytes <? slen name)%Z
    then vadd (field ++ ".username") [L "is too long ("; D (slen name); L " characters)"] (at_most MaxUsernameBytes)
    else if contains_char ":" name || hasControl name
    then vadd (field ++ ".username") (invalid name ++ [L ": must not contain a colon or control characters"])%list [L "admin"]
    else if contains_any ["{"; "}"]%char name
    then vadd (field ++ ".username") (invalid name ++ [L ": must not contain braces, which the proxy would read as a placeholder"])%list [L "admin"]
    else if contains seen account
    then vadd (field ++ ".username") [Q name; L " is listed twice for the same path"] [L "one entry for each user of a path"]
    else vok in
  let+ _ := if hasPlaceholder (ar_Password a) then vok
            else report (ValidatePassword (ar_Password a)) (field ++ ".password")
                   [L "${ADMIN_PASSWORD}, with the value in the environment, in --env-file or stored with shipwick secret set"] in
  vret (mk_basicauth path name (ar_Password a), account).

Definition validateBasicAuth (auth : list authRaw) (appPath : string) : V (list BasicAuth) :=
  if more_than auth MaxBasicAuth then
    let+ _ := vadd "proxy.basic_auth" (too_many auth) (at_most MaxBasicAuth) in vret []
  else
    let+ st := vloop (λ i a st,
      let '(out, seen) := st in
      let+ (entry, account) := validateAuthEntry i a appPath seen in
      vret ((out ++ [entry])%list, account :: seen)) 0 auth ([], []) in
    vret st.1.

Definition validateProxyHeaders (headers : gmap string string) : V (gmap string string) :=
  let names := sorted_keys headers in
  if more_than names MaxProxyHeaders then
    let+ _ := vadd "proxy.headers" (too_many names) (at_most MaxProxyHeaders) in vret ∅
  else
    let+ _ := vloop (λ _ name (seen : gmap string string),
      let field := "proxy.headers." ++ name in
      let value := default "" (headers !! name) in
      let lower := to_lower name in
      let+ _ :=
        if negb (headerNamePattern name)
        then vadd "proxy.headers" [L "invalid header name "; Q name] [L "letters, digits and dashes, e.g. X-Frame-Options"]
        else if contains connectionHeaders lower
        then vadd field [L "belongs to the connection, and the proxy writes it itself"]
               [L "a header about the content, e.g. X-Frame-Options, Cache-Control"]
        else if nonempty (default "" (seen !! lower))
        then vadd field [L "is the same header as "; S' (default "" (seen !! lower)); L ": names are compared without regard to case"]
               [L "each header once"]
        else if String.eqb value "" then vadd field [L "value must not be empty"] []
        else if (MaxHeaderValueBytes <? slen value)%Z
        then vadd field [L "value is too long ("; D (slen value); L " characters)"] (at_most MaxHeaderValueBytes)
        else if hasControl value then vadd field [L "value must not contain control characters or newlines"] []
        else vok in
      vret (<[lower := name]> seen)) 0 names ∅ in
    vret headers.

Definition redirect_byte (c : ascii) : bool := space_or_control c || contains ["{"; "}"; chr 92]%char c.

Definition validateRedirectTarget (to : string) : result unit :=
  if (MaxRedirectToBytes <? slen to)%Z
  then Err [L "invalid value: longer than "; D MaxRedirectToBytes; L " characters"]
  else if str_exists redirect_byte to
  then Err (invalid to ++ [L ": must not contain whitespace, control characters, braces or backslashes"])%list
  else if has_prefix "/" to then
    if has_prefix "//" to then Err (invalid to ++ [L ": a path starts with one slash; for another host use https://"])%list
    else match ParseRequestURI to with
         | Some u => if nonempty (u_Host u) || nonempty (u_Scheme u)
                     then Err (invalid to ++ [L ": not a valid URL path"])%list else Ok tt
         | None => Err (invalid to ++ [L ": not a valid URL path"])%list
         end
  else match url_Parse to with
       | Some u => if negb (String.eqb (u_Scheme u) "https") || String.eqb (u_Host u) "" || u_User u || nonempty (u_Opaque u)
                   then Err (invalid to ++ [L ": must be a path starting with / or an https:// URL"])%list else Ok tt
       | None => Err (invalid to ++ [L ": must be a path starting with / or an https:// URL"])%list
       end.

Definition targetPath (to : string) : string :=
  if negb (has_prefix "/" to) then ""
  else match ParseRequestURI to with Some u => u_Path u | None => "" end.

(** One redirect: the entry, and whether it is in order. *)
Definition validateRedirect (i : nat) (rr : redirectRaw) (appPath : string) (next : gmap string string)
    : V PathRedirect :=
  let field := at_index "proxy.redirects" i in
  let to := trim_space (rr_To rr) in
  let+ from :=
    if String.eqb (trim_space (rr_From rr)) "" then
      let+ _ := vadd (field ++ ".from") [L "is required"] [L (appPath ++ "/old")] in vret ""
    else
      let+ from := validateProxyPath (field ++ ".from") (rr_From rr) appPath "/old" in
      let+ _ :=
        if String.eqb from ""
        then vadd (field ++ ".from") [L "must be a path below /: redirecting everything would leave nothing to serve"] [L (appPath ++ "/old")]
        else if bool_decide (is_Some (next !! PathKey from))
        then vadd (field ++ ".from") [Q from; L " is redirected twice"] [L "one redirect for each path"]
        else vok in
      vret from in
  let+ _ := if String.eqb to "" then vadd (field ++ ".to") [L "is required"] [L "/new, https://example.org/new"]
            else report (validateRedirectTarget to) (field ++ ".to") [L "/new, https://example.org/new"] in
  let+ status :=
    match rr_Status rr with
    | None => vret DefaultRedirectStatus
    | Some s => let+ _ := if contains [301; 302; 307; 308]%Z s then vok
                          else vadd (field ++ ".status") (invalid_d s) [L "301, 302, 307, 308"] in vret s
    end in
  vret (mk_pathredirect from to status).

(** The redirects, where each path in order leads, and whether all are in
    order. *)
Definition redirect_entries (rrs : list redirectRaw) (appPath : string)
    : V (list PathRedirect * gmap string string * bool) :=
  vloop (λ i rr st,
    let '(out, next, valid) := st in
    let c := validateRedirect i rr appPath next in
    let red := c.2 in
    let clean := bool_decide (c.1 = []) in
    (c.1, ((out ++ [red])%list,
           (if clean then <[PathKey (pr_From red) := PathKey (targetPath (pr_To red))]> next else next),
           valid && clean))) 0 rrs ([], ∅, true).

(** Whether following [next] from [at_] comes back to [start], and after how
    many steps; [n] rounds are looked at. *)
Fixpoint leads_back (n : nat) (steps : nat) (next : gmap string string) (start at_ : string) : option nat :=
  match n with
  | O => None
  | S n =>
      match next !! at_ with
      | None => None
      | Some to => if String.eqb to start then Some steps else leads_back n (S steps) next start to
      end
  end.

Definition redirect_loops (out : list PathRedirect) (next : gmap string string) : V unit :=
  vloop (λ i red _,
    let start := PathKey (pr_From red) in
    let field := at_index "proxy.redirects" i ++ ".to" in
    match leads_back (S (List.length out)) 0 next start start with
    | None => vok
    | Some O => vadd field [L "redirects "; S' (pr_From red); L " to itself"] [L "another path, or an https:// URL"]
    | Some _ => vadd field [L "leads back to "; S' (pr_From red); L " through the other redirects: a browser would follow them forever"]
                  [L "a path that is not redirected"]
    end) 0 out tt.

Definition validatePathRedirects (rrs : list redirectRaw) (appPath : string) : V (list PathRedirect) :=
  if more_than rrs MaxPathRedirects then
    let+ _ := vadd "proxy.redirects" (too_many rrs) (at_most MaxPathRedirects) in vret []
  else
    let+ (out, next, valid) := redirect_entries rrs appPath in
    if negb valid then vret out else
    let+ _ := redirect_loops out next in
    vret out.

(** decodeStrict: the problems of the block, and the block if it decodes. *)
Definition decodeStrict {A} (problems : list string) (value : option A) : V (option A) :=
  ((if bool_decide (problems = []) then [] else (syntaxError (YamlTypeError problems)).1), value).

Definition validateProxy (r : raw) (domain path : string) : V (option Proxy) :=
  match r_Proxy r with
  | None => vret None
  | Some (problems, value) =>
      let+ pr := decodeStrict problems value in
      match pr with
      | None => vret None
      | Some pr =>
          let+ _ := if String.eqb domain ""
                    then vadd "proxy" [L "requires domain: it says what the proxy does with the requests for it"] [L "domain: example.com"]
                    else vok in
          let strip := default false (pxr_StripPrefix pr) in
          let+ _ := if strip && String.eqb path ""
                    then vadd "proxy.strip_prefix" [L "requires path: it is the prefix that is removed"] [L "path: /api"]
                    else vok in
          let+ headers := validateProxyHeaders (pxr_Headers pr) in
          let+ auth := validateBasicAuth (pxr_BasicAuth pr) path in
          let+ redirects := validatePathRedirects (pxr_Redirects pr) path in
          if negb strip && bool_decide (headers = ∅) && bool_decide (auth = []) && bool_decide (redirects = [])
          then vret None
          else vret (Some (mk_proxy strip headers auth redirects))
      end
  end.

(** ** Backups (backups.go) *)

Definition DefaultBackupKeep : Z := 7.
Definition MaxBackupKeep : Z := 365.
Definition DefaultBackupBeforeTimeout : Duration := hour.
Definition MaxBackupBeforeTimeout : Duration := (24 * hour)%Z.
Definition BeforeInReplica := "replica".
Definition BeforeInContainer := "container".

(** Backups.BeforeLimit *)
Definition BeforeLimit (b : Backups) : Duration :=
  if (0 <? bk_BeforeTimeout b)%Z then bk_BeforeTimeout b else DefaultBackupBeforeTimeout.

Definition backups_block (b : backupsRaw) : V Backups :=
  let schedule := join " " (fields (bkr_Schedule b)) in
  let+ _ :=
    if String.eqb schedule "" then vadd "backups.schedule" [L "is required"] cron_required
    else match Parse schedule with
         | Ok _ => vok
         | Err e => vadd "backups.schedule" (invalid (bkr_Schedule b) ++ [L ": "] ++ e)%list
                      [L ("five cron fields in UTC, e.g. " ++ dq "0 3 * * *" ++ " (every day at 03:00)")]
         end in
  let+ keep :=
    match bkr_Keep b with
    | None => vret DefaultBackupKeep
    | Some k => let+ _ := if (k <? 1)%Z || (MaxBackupKeep <? k)%Z
                          then vadd "backups.keep" (invalid_d k) [L "a number between 1 and "; D MaxBackupKeep] else vok in
                vret k
    end in
  let+ _ := match bkr_Before b with
            | None => vok
            | Some cmd => report (ValidateCommand cmd) "backups.before"
                            (argv_text ["pg_dump"; "-U"; "postgres"; "-f"; "/var/lib/postgresql/data/backup.sql"; "app"])
            end in
  let unset := match bkr_Before b with None => 0%Z | Some _ => DefaultBackupBeforeTimeout end in
  let+ timeout :=
    if String.eqb (bkr_BeforeTimeout b) "" then vret unset
    else if bool_decide (bkr_Before b = None) then
      let+ _ := vadd "backups.before_timeout" [L "needs backups.before: it is that command's time limit"] [L "10m, 1h, 6h, ... (1s to 24h)"] in
      vret unset
    else match parseDuration (bkr_BeforeTimeout b) second MaxBackupBeforeTimeout with
         | Ok d => vret d
         | Err e => let+ _ := vadd "backups.before_timeout" e [L "10m, 1h, 6h, ... (1s to 24h)"] in vret unset
         end in
  let place := trim_space (bkr_BeforeIn b) in
  let example := [L "replica (inside the running replica), container (in a container of its own, which can be ended)"] in
  let+ before_in :=
    if String.eqb place "" then vret ""
    else if bool_decide (bkr_Before b = None) then
      let+ _ := vadd "backups.before_in" [L "needs backups.before: it says where that command runs"] example in vret ""
    else if String.eqb place BeforeInContainer then vret BeforeInContainer
    else if String.eqb place BeforeInReplica then vret ""
    else let+ _ := vadd "backups.before_in" (invalid (bkr_BeforeIn b)) example in vret "" in
  vret (mk_backups schedule keep (default [] (bkr_Before b)) (bkr_Stop b) timeout before_in).

Definition validateBackups (r : raw) : V (option Backups) :=
  let example := [L ("backups:
    schedule: " ++ dq "0 3 * * *")] in
  match r_Backups r with
  | Absent => vret None
  | NotMapping => let+ _ := vadd "backups" [L "must be a block with a schedule"] example in vret None
  | Undecodable err =>
      let+ _ := vloop (λ _ (f : FieldError) _,
        vadd "backups" (Message f) [L "schedule, keep, before, before_timeout, before_in, stop"]) 0 (syntaxError err).1 tt in
      vret None
  | Decoded b =>
      let+ out := backups_block b in
      let+ _ := if is_static r then vadd "backups" staticExclusiveMessage []
                else if bool_decide (r_Volumes r = [])
                then vadd "backups" [L "needs volumes: a backup is an archive of the application's volumes"]
                       [L "volumes:
    - name: data
      path: /var/lib/postgresql/data"]
                else vok in
      vret (Some out)
  end.

(** ** Published ports (publish.go) *)

Definition MaxPublish : Z := 20.
Definition ProtocolTCP := "tcp".
Definition ProtocolUDP := "udp".
Definition proxyPorts : list Z := [80; 443]%Z.

Definition deploy_block_example : text := [L "deploy:
    strategy: recreate"].

(** One entry, and the key the entries after it are compared with. *)
Definition publish_entry (i : nat) (p : publishRaw) (seen : list (Z * string * string)) : V Publish :=
  let field := at_index "publish" i in
  let+ port :=
    match pub_Port p with
    | None => let+ _ := vadd (field ++ ".port") [L "is required"] [L "the port your application listens on, e.g. 5432"] in vret 0%Z
    | Some n => if port_ok n then vret n
                else let+ _ := vadd (field ++ ".port") (invalid_d n) [L "a number between 1 and 65535"] in vret 0%Z
    end in
  let host := default port (pub_Host p) in
  let+ host :=
    if bool_decide (is_Some (pub_Host p)) && negb (port_ok host) then
      let+ _ := vadd (field ++ ".host") (invalid_d host) [L "a number between 1 and 65535"] in vret 0%Z
    else if contains proxyPorts host then
      let+ _ := vadd (field ++ ".host") [L "invalid value "; D host; L ": the proxy listens there"] [L "another server port, e.g. 15432"] in
      vret host
    else vret host in
  let proto := to_lower (trim_space (pub_Protocol p)) in
  let+ protocol :=
    if String.eqb proto "" then vret ProtocolTCP
    else if contains [ProtocolTCP; ProtocolUDP] proto then vret proto
    else let+ _ := vadd (field ++ ".protocol") (invalid (pub_Protocol p)) [L "tcp, udp"] in vret ProtocolTCP in
  let addr := trim_space (pub_Address p) in
  let+ address :=
    if String.eqb addr "" then vret ""
    else match ParseIP addr with
         | None => let+ _ := vadd (field ++ ".address") (invalid (pub_Address p)) [L "an address of the server, e.g. 10.0.0.5"] in vret ""
         | Some ip => vret (IP_String ip)
         end in
  let+ _ := if negb (host =? 0)%Z && contains seen (host, address, protocol)
            then vadd (field ++ ".host") [L "server port "; D host; L "/"; S' protocol; L " is published twice"]
                   [L "a different server port for each entry"]
            else vok in
  vret (mk_publish port host address protocol).

Definition publish_key (p : Publish) : Z * string * string := (p_Host p, p_Address p, p_Protocol p).

Definition validatePublish (r : raw) (volumes : list Volume) (strategy : string) (replicas : Z) : V (list Publish) :=
  if bool_decide (r_Publish r = []) then vret []
  else if more_than (r_Publish r) MaxPublish then
    let+ _ := vadd "publish" (too_many (r_Publish r)) (at_most MaxPublish) in vret []
  else
    let+ _ :=
      if negb (bool_decide (volumes = [])) then vok else
      let+ _ := if String.eqb strategy StrategyRecreate then vok
                else vadd "deploy.strategy" [L ("must be " ++ dq "recreate" ++ " for an application that publishes ports: two versions cannot listen on the same server port")]
                       deploy_block_example in
      if (replicas =? 1)%Z then vok
      else vadd "replicas" [L "must be 1 for an application that publishes ports, got "; D replicas; L ": replicas cannot share a server port"] [L "1"] in
    let+ st := vloop (λ i p st,
      let '(out, seen) := st in
      let+ pub := publish_entry i p seen in
      vret ((out ++ [pub])%list, publish_key pub :: seen)) 0 (r_Publish r) ([], []) in
    vret st.1.

(** ** Security (security.go, init.go) *)

Definition MaxTmpfs : Z := 10.
Definition DefaultTmpfsBytes : Z := (64 * 2 ^ 20)%Z.
Definition MinTmpfsBytes : Z := (2 ^ 20)%Z.
Definition MaxTmpfsBytes : Z := (2 ^ 30)%Z.
Definition DefaultCapabilities : list string :=
  ["AUDIT_WRITE"; "CHOWN"; "DAC_OVERRIDE"; "FOWNER"; "FSETID"; "KILL"; "MKNOD"; "NET_BIND_SERVICE"; "NET_RAW";
   "SETFCAP"; "SETGID"; "SETPCAP"; "SETUID"; "SYS_CHROOT"].
Definition CapabilitiesNone := "none".

(** What is mounted where: the last volume at a path names it. *)
Definition volume_mounts (volumes : list Volume) : gmap string string :=
  foldl (λ m v, <[v_Path v := "volume " ++ v_Name v]> m) ∅ volumes.

Definition tmpfs_entry (i : nat) (entry : tmpfsRaw) (mounted : gmap string string) : V Tmpfs :=
  let field := at_index "security.tmpfs" i in
  let p := trim_space (tr_Path entry) in
  let at_p := default "" (mounted !! p) in
  let+ _ :=
    if String.eqb p "" then vadd (field ++ ".path") [L "is required"] [L "/tmp"]
    else if negb (validMountPath p)
    then vadd (field ++ ".path") (invalid (tr_Path entry)) [L "an absolute path inside the container, e.g. /tmp"]
    else if nonempty at_p
    then vadd (field ++ ".path") [Q p; L " is already mounted: "; S' at_p] [L "a path nothing else is mounted at"]
    else vok in
  let expected := [L "16mb, 64mb, 256mb, ... (1mb to 1gb)"] in
  let+ size :=
    if String.eqb (tr_Size entry) "" then vret DefaultTmpfsBytes
    else match parseSize (tr_Size entry) with
         | Err e => let+ _ := vadd (field ++ ".size") e expected in vret 0%Z
         | Ok n => let+ _ := if (n <? MinTmpfsBytes)%Z || (MaxTmpfsBytes <? n)%Z
                             then vadd (field ++ ".size") (invalid (tr_Size entry) ++ [L ": out of range"])%list expected
                             else vok in
                   vret n
         end in
  vret (mk_tmpfs p size).

Definition validateTmpfs (entries : list tmpfsRaw) (volumes : list Volume) : V (list Tmpfs) :=
  if more_than entries MaxTmpfs then
    let+ _ := vadd "security.tmpfs" (too_many entries) (at_most MaxTmpfs) in vret []
  else
    let+ st := vloop (λ i entry st,
      let '(out, mounted) := st in
      let+ t := tmpfs_entry i entry mounted in
      vret ((out ++ [t])%list, <[t_Path t := "security.tmpfs"]> mounted)) 0 entries ([], volume_mounts volumes) in
    vret st.1.

Definition validateCapabilities (c : capabilitiesRaw) : V (option (list string)) :=
  let expected := [L "none, or a list of the ones to keep out of "; L (join ", " DefaultCapabilities)] in
  match c with
  | CapNotGiven => vret None
  | CapWord word =>
      let+ _ := if String.eqb (trim_space word) CapabilitiesNone then vok
                else vadd "security.capabilities" (invalid word) expected in
      vret (Some [])
  | CapNames names =>
      let+ _ := if bool_decide (names = [])
                then vadd "security.capabilities" [L "must not be empty; write none to keep no capability, or omit it to keep Docker's default set"] expected
                else vok in
      let+ kept := vloop (λ i written kept,
        let name := trim_prefix "CAP_" (to_upper (trim_space written)) in
        if negb (contains DefaultCapabilities name) then
          let+ _ := vadd (at_index "security.capabilities" i)
                      (invalid written ++ [L ": not in Docker's default set, and nothing is added to it"])%list expected in
          vret kept
        else if contains kept name then
          let+ _ := vadd (at_index "security.capabilities" i) [Q name; L " is listed twice"] [L "each capability once"] in
          vret kept
        else vret (kept ++ [name])%list) 0 names [] in
      vret (Some (merge_sort str_le kept))
  end.

Definition security_block (s : securityRaw) (volumes : list Volume) (user : string) : V (option Security) :=
  let read_only := default false (scr_ReadOnly s) in
  let non_root := default false (scr_NonRoot s) in
  let+ tmpfs := validateTmpfs (scr_Tmpfs s) volumes in
  let+ capabilities := validateCapabilities (scr_Capabilities s) in
  let+ _ :=
    if negb non_root then vok else
    match RootUser user with
    | Some problem =>
        if nonempty user
        then vadd "user" (invalid user ++ [L " next to security.non_root: "; S' problem])%list
               [L "a numeric id other than 0, with or without a group: 1000, 1000:1000"]
        else vok
    | None => vok
    end in
  if negb read_only && negb non_root && bool_decide (tmpfs = []) && bool_decide (capabilities = None)
  then vret None
  else vret (Some (mk_security read_only tmpfs capabilities non_root)).

Definition validateSecurity (r : raw) (volumes : list Volume) (user : string) : V (option Security) :=
  match r_Security r with
  | Absent => vret None
  | NotMapping =>
      let+ _ := vadd "security" [L "must be a block"] [L "security:
    read_only: true
    tmpfs: [/tmp]"] in vret None
  | Undecodable err =>
      let+ _ := vloop (λ _ (f : FieldError) _, vadd "security" (Message f) [L "read_only, tmpfs, capabilities, non_root"])
                  0 (syntaxError err).1 tt in
      vret None
  | Decoded s =>
      if is_static r then let+ _ := vadd "security" staticExclusiveMessage [] in vret None
      else security_block s volumes user
  end.

Definition validateInit (r : raw) : V bool :=
  match r_Init r with
  | None => vret false
  | Some b => if is_static r then let+ _ := vadd "init" staticExclusiveMessage [] in vret false else vret b
  end.

(** ** The whole document (raw.validate, Parse) *)

Definition MinStopTimeout : Duration := second.
Definition MaxStopTimeout : Duration := (10 * minute)%Z.

Definition validate_name (r : raw) : V unit :=
  if String.eqb (r_Name r) "" then vadd "name" [L "is required"] [L "my-api"]
  else if negb (namePattern (r_Name r))
  then vadd "name" (invalid (r_Name r)) [L "lowercase letters, digits and dashes, e.g. my-api (max 63 characters)"]
  else if contains ReservedNames (r_Name r)
  then vadd "name" [Q (r_Name r); L " is reserved for Shipwick's own services"] [L "another name, e.g. my-"; L (r_Name r)]
  else vok.

Definition validate_cpu (r : raw) : V float :=
  if String.eqb (r_CPU r) "" then vret float_zero
  else match ParseCPU (r_CPU r) with
       | Ok c => vret c
       | Err e => let+ _ := vadd "resources.cpu" e [L "0.5, 1, 2, ..."] in vret float_zero
       end.

Definition validate_memory (r : raw) : V Z :=
  if String.eqb (r_Memory r) "" then vret 0%Z
  else match ParseMemory (r_Memory r) with
       | Ok n => vret n
       | Err e => let+ _ := vadd "resources.memory" e [L "128mb, 512mb, 1gb, ..."] in vret 0%Z
       end.

Definition validate_restart (r : raw) : V string :=
  if String.eqb (r_Restart r) "" then vret RestartAlways
  else if contains [RestartAlways; RestartOnFailure; RestartNever] (r_Restart r) then vret (r_Restart r)
  else let+ _ := vadd "restart.policy" (invalid (r_Restart r)) [L "always, on-failure, never"] in vret RestartAlways.

Definition validate_strategy (r : raw) : V string :=
  if String.eqb (r_Strategy r) "" then vret StrategyRolling
  else if contains [StrategyRolling; StrategyRecreate] (r_Strategy r) then vret (r_Strategy r)
  else let+ _ := vadd "deploy.strategy" (invalid (r_Strategy r)) [L "rolling, recreate"] in vret StrategyRolling.

Definition validate_stop_timeout (r : raw) : V Duration :=
  if String.eqb (r_StopTimeout r) "" then vret 0%Z
  else if is_static r then let+ _ := vadd "deploy.stop_timeout" staticExclusiveMessage [] in vret 0%Z
  else match parseDuration (r_StopTimeout r) MinStopTimeout MaxStopTimeout with
       | Ok d => vret d
       | Err e => let+ _ := vadd "deploy.stop_timeout" e [L "10s, 30s, 5m, ... (1s to 10m)"] in vret 0%Z
       end.

Definition validate_port (r : raw) : V Z :=
  match r_Port r with
  | None => vret 0%Z
  | Some n => let+ _ := if port_ok n then vok else vadd "port" (invalid_d n) [L "a number between 1 and 65535"] in vret n
  end.

Definition validate_replicas (r : raw) : V Z :=
  match r_Replicas r with
  | None => vret DefaultReplicas
  | Some n => let+ _ := if (n <? 1)%Z || (MaxReplicas <? n)%Z
                        then vadd "replicas" (invalid_d n) [L "a number between 1 and "; D MaxReplicas] else vok in vret n
  end.

Definition validate_domain (r : raw) (domain : string) : V unit :=
  if String.eqb domain "" then vok else
  let+ _ := report (ValidateHostname domain) "domain" [L "api.example.com, *.example.com"] in
  if bool_decide (r_Port r = None) && negb (is_static r)
  then vadd "port" [L "is required when domain is set"] [L "the port your application listens on, e.g. 8080"] else vok.

(** An application with volumes is one replica, recreated. *)
Definition validate_volume_rules (volumes : list Volume) (strategy : string) (replicas : Z) : V unit :=
  if bool_decide (volumes = []) then vok else
  let+ _ := if String.eqb strategy StrategyRecreate then vok
            else vadd "deploy.strategy" [L ("must be " ++ dq "recreate" ++ " for an application with volumes: two versions cannot write the same files at once")]
                   deploy_block_example in
  if (replicas =? 1)%Z then vok
  else vadd "replicas" [L "must be 1 for an application with volumes, got "; D replicas; L ": replicas cannot share a volume"] [L "1"].

Section Document.
(** github.com/distribution/reference: whether a text is a reference. *)
Context (ParseNormalizedNamed : string → bool).

Definition ValidateImage (image : string) : result unit :=
  if contains_any [" "%char; chr 9; chr 13; chr 10] image
  then Err (invalid image ++ [L ": must not contain whitespace"])%list
  else if ParseNormalizedNamed image then Ok tt
  else Err (invalid image ++ [L ": not a valid image reference"])%list.

Definition validate_image (r : raw) (image : string) : V unit :=
  if String.eqb image "" then
    if negb (is_static r) && negb (has_build r)
    then vadd "image" [L "is required"] [L "ghcr.io/company/my-api:1.4.2"] else vok
  else match ValidateImage image with
       | Err e => vadd "image" e [L "nginx:1.27, ghcr.io/company/my-api:1.4.2, ..."]
       | Ok _ =>
           match ValidateLocalImage image (r_Name r) with
           | Err e => if namePattern (r_Name r)
                      then vadd "image" e [L (LocalImagePrefix (r_Name r)); L "<tag>, which shipwick deploy fills in"] else vok
           | Ok _ => vok
           end
       end.

Definition validate_app (r : raw) : V App :=
  let image := trim_space (r_Image r) in
  let domain := to_lower (trim_space (r_Domain r)) in
  let+ _ := validate_name r in
  let+ _ := validate_image r image in
  let+ port := validate_port r in
  let+ _ := validate_domain r domain in
  let+ replicas := validate_replicas r in
  let+ env := validateEnv r in
  let+ health := validateHealth r in
  let+ cpu := validate_cpu r in
  let+ memory := validate_memory r in
  let+ restart := validate_restart r in
  let+ strategy := validate_strategy r in
  let+ stop_timeout := validate_stop_timeout r in
  let+ (aliases, redirects) := validateDomains r domain in
  let+ (entrypoint, command, user) := validateProcess r in
  let+ (hook, jobs) := validateJobs r in
  let+ logging := validateLogging r in
  let+ build := validateBuild r in
  let+ static := validateStatic r domain in
  let+ path := validatePath r domain in
  let+ proxy := validateProxy r domain path in
  let+ backups := validateBackups r in
  let+ volumes := validateVolumes r in
  let+ _ := validate_volume_rules volumes strategy replicas in
  let+ publish := validatePublish r volumes strategy replicas in
  let+ init := validateInit r in
  let+ security := validateSecurity r volumes user in
  vret (mk_app (r_Name r) image port domain aliases redirects replicas env health (mk_resources cpu memory)
          volumes publish entrypoint command user hook jobs logging build static path proxy backups
          restart strategy stop_timeout init security).

(** raw.validate: the application, or every problem found. *)
Definition validate (r : raw) : list FieldError + App :=
  let c := validate_app r in
  if bool_decide (c.1 = []) then inr c.2 else inl c.1.

Definition MaxConfigBytes : Z := (64 * 1024)%Z.

(** Parse of a document, given what the YAML decoder makes of it: the fields
    it could fill in and its error, and whether a second document follows. *)
Definition ParseDocument (data : string) (decoded : raw * option yaml_error) (more : bool) : list FieldError + App :=
  if (MaxConfigBytes <? slen data)%Z
  then inl [mk_fieldError "deploy.yaml" [L "file is too large (max "; D (MaxConfigBytes / 1024)%Z; L " KB)"] []]
  else match decoded with
       | (r, Some err) =>
           let '(fields, onlyUnknownFields) := syntaxError err in
           inl (if onlyUnknownFields : bool
                then fields ++ match validate r with inl e => e | inr _ => [] end else fields)%list
       | (r, None) =>
           if more
           then inl [mk_fieldError "deploy.yaml" [L "multiple YAML documents are not supported; describe one application per file"] []]
           else validate r
       end.
End Document.
