(* ===== verification/SpecRedirects.v ===== *)
(** * Redirects of the proxy block

    What the loop check of [validatePathRedirects] (proxy.go) is worth: in an
    accepted list of redirects every chain ends.  The check looks for a way
    back to each source path only; that no chain cycles anywhere is a counting
    argument. *)

From S2P Require Import Prelude GoStrings GoURL SpecTypes SpecNames SpecValidate.
From Stdlib Require Import Ascii String.
Local Open Scope string_scope.

Definition redirect_pair (red : PathRedirect) : string * string :=
  (PathKey (pr_From red), PathKey (targetPath (pr_To red))).

(** Where each redirected path leads, as the proxy compares paths. *)
Definition redirect_map (out : list PathRedirect) : gmap string string :=
  list_to_map (redirect_pair <$> out).

(** A visitor that follows at most [n] redirects. *)
Fixpoint follow (n : nat) (next : gmap string string) (p : string) : string :=
  match n with
  | O => p
  | S n => match next !! p with Some q => follow n next q | None => p end
  end.

(** ** The entries *)

Definition entries_inv (st : list PathRedirect * gmap string string * bool) : Prop :=
  let '(out, next, valid) := st in
  valid = true ∧ NoDup (redirect_pair <$> out).*1 ∧ next = redirect_map out ∧
  Forall (λ red, pr_From red ≠ "") out.

Lemma validateRedirect_ok i rr appPath next red :
  validateRedirect i rr appPath next = ([], red) →
  pr_From red ≠ "" ∧ next !! PathKey (pr_From red) = None.
Proof.
  unfold validateRedirect. intros H.
  apply vbind_ok in H as (from & Hfrom & H). apply vbind_ok in H as ([] & _ & H).
  apply vbind_ok in H as (status & _ & H). inv_v. simpl.
  destruct (String.eqb (trim_space (rr_From rr)) ""); [inv_v|].
  apply vbind_ok in Hfrom as (p & _ & Hfrom). apply vbind_ok in Hfrom as ([] & Hfrom & Hp). inv_v.
  destruct (String.eqb_spec from ""); [inv_v|].
  destruct (bool_decide_reflect (is_Some (next !! PathKey from))) as [|Hn]; [inv_v|].
  split; [done|]. by apply eq_None_not_Some.
Qed.

Lemma vpair_ok {A} (e : list FieldError) (a : A) e' a' : (e, a) = (e', a') → e = e' ∧ a = a'.
Proof. by intros [= -> ->]. Qed.

Lemma redirect_entries_ok rrs appPath out next valid :
  redirect_entries rrs appPath = ([], (out, next, valid)) → entries_inv (out, next, valid).
Proof.
  unfold redirect_entries. intros H.
  eapply (vloop_ok _ (λ _ st, entries_inv st)) in H; [exact H| |].
  - clear. intros i rr [[out next] valid] st' (Hv & Hnd & Hn & Hf) H.
    destruct (validateRedirect i rr appPath next) as [e red] eqn:E. simpl in H.
    apply vpair_ok in H as [-> <-]. apply validateRedirect_ok in E as [Hne Hfresh].
    rewrite bool_decide_eq_true_2 by done. subst. unfold redirect_map in Hfresh. apply not_elem_of_list_to_map in Hfresh.
    assert (redirect_pair <$> out ++ [red] = (redirect_pair <$> out) ++ [redirect_pair red])%list as Happ
      by (rewrite fmap_app; done).
    split; [done|]. split; [|split].
    + rewrite Happ, fmap_app. apply NoDup_app. split; [done|]. split; [|apply NoDup_singleton].
      intros x Hx Hx'. apply list_elem_of_singleton in Hx' as ->. done.
    + unfold redirect_map. rewrite Happ. symmetry. by apply list_to_map_snoc.
    + apply Forall_app. by split; [|apply Forall_singleton].
  - split; [done|]. split; [apply NoDup_nil_2|]. split; [done|apply Forall_nil_2].
Qed.

(** ** The loop check *)

(** The path after exactly [n] redirects. *)
Fixpoint hops (n : nat) (next : gmap string string) (p : string) : option string :=
  match n with O => Some p | S n => q ← next !! p; hops n next q end.

Lemma hops_add n m next p : hops (n + m) next p = q ← hops n next p; hops m next q.
Proof. revert p. induction n as [|n IH]; intros p; simpl; [done|]. destruct (next !! p); simpl; [apply IH|done]. Qed.

Lemma hops_follow n next p q : hops n next p = Some q → follow n next p = q.
Proof. revert p. induction n as [|n IH]; intros p; simpl; [by intros [= ->]|]. destruct (next !! p); simpl; [apply IH|done]. Qed.

Lemma leads_back_none n : ∀ steps next start p, leads_back n steps next start p = None →
  ∀ j, (1 ≤ j ≤ n)%nat → hops j next p ≠ Some start.
Proof.
  induction n as [|n IH]; intros steps next start p H j Hj; [lia|]. simpl in H.
  destruct (next !! p) as [q|] eqn:E; [|destruct j; [lia|]; simpl; by rewrite E].
  destruct (String.eqb_spec q start); [done|]. destruct j as [|[|j]]; [lia|simpl; rewrite E; simpl; congruence|].
  change (hops (S (S j)) next p) with (q ← next !! p; hops (S j) next q). rewrite E. simpl.
  apply (IH _ _ _ _ H (S j)). lia.
Qed.

Lemma redirect_loops_ok out next : redirect_loops out next = ([], tt) →
  ∀ red, red ∈ out → leads_back (S (List.length out)) 0 next (PathKey (pr_From red)) (PathKey (pr_From red)) = None.
Proof.
  unfold redirect_loops. intros H red Hred. apply list_elem_of_lookup in Hred as [j Hj].
  destruct (vloop_each _ _ _ _ _ _ _ Hj H) as (st & st' & Hc). cbv beta zeta in Hc.
  destruct (leads_back _ _ _ _ _) as [[|?]|]; [inv_v..|done].
Qed.

(** ** Every chain ends *)

(** While the chain goes on, the paths it visits. *)
Fixpoint visited (n : nat) (next : gmap string string) (p : string) : list string :=
  match n with O => [] | S n => p :: match next !! p with Some q => visited n next q | None => [] end end.

Lemma visited_hops n : ∀ next p, is_Some (hops n next p) →
  List.length (visited n next p) = n ∧ (∀ j, (j < n)%nat → visited n next p !! j = hops j next p) ∧
  visited n next p ⊆ (map_to_list next).*1.
Proof.
  induction n as [|n IH]; intros next p Hs; simpl in *.
  - split; [done|]. split; [lia|]. intros x Hx. by apply elem_of_nil in Hx.
  - destruct (next !! p) as [q|] eqn:E; simpl in Hs; [|by apply is_Some_None in Hs].
    destruct (IH _ _ Hs) as (Hl & Hj & Hsub). split; [simpl; lia|]. split.
    + intros [|j] Hlt; simpl; [done|]. rewrite E. simpl. apply Hj. lia.
    + intros x Hx. apply elem_of_cons in Hx as [->|Hx]; [|auto].
      apply list_elem_of_fmap. exists (p, q). split; [done|]. by apply elem_of_map_to_list.
Qed.

(** A chain as long as there are redirects has come back to a path. *)
Lemma chain_repeats next p : is_Some (hops (S (size next)) next p) →
  ∃ i j q, (i < j ≤ size next)%nat ∧ hops i next p = Some q ∧ hops j next p = Some q.
Proof.
  intros Hs. destruct (visited_hops _ _ _ Hs) as (Hl & Hv & Hsub).
  destruct (decide (NoDup (visited (S (size next)) next p))) as [Hnd|Hnd].
  - assert (List.length (visited (S (size next)) next p) ≤ List.length (map_to_list next).*1)%nat as Hle.
    { apply submseteq_length. by apply NoDup_submseteq. }
    rewrite length_fmap, length_map_to_list in Hle. unfold size in *. lia.
  - assert (∃ i j q, (i < j)%nat ∧ visited (S (size next)) next p !! i = Some q ∧ visited (S (size next)) next p !! j = Some q)
      as (i & j & q & Hij & Hi & Hj).
    { revert Hnd. generalize (visited (S (size next)) next p). induction l as [|x l IH]; intros Hnd.
      - exfalso. apply Hnd. apply NoDup_nil_2.
      - destruct (decide (x ∈ l)) as [Hx|Hx].
        + apply list_elem_of_lookup in Hx as [k Hk]. exists 0%nat, (S k), x. split; [lia|]. done.
        + destruct IH as (i & j & q & Hij & Hi & Hj); [intros Hl'; apply Hnd; by apply NoDup_cons|].
          exists (S i), (S j), q. split; [lia|]. done. }
    assert (j < S (size next))%nat by (rewrite <- Hl; by eapply lookup_lt_Some).
    exists i, j, q. split; [lia|]. rewrite <- !Hv by lia. done.
Qed.

(** C38: the redirects of an accepted proxy block never loop.  From any path
    whatever, a visitor that follows the redirects has arrived at a path that
    is not redirected after at most as many redirects as the block lists. *)
Theorem redirects_terminate rrs appPath out :
  validatePathRedirects rrs appPath = ([], out) →
  ∀ p, redirect_map out !! follow (List.length out) (redirect_map out) p = None.
Proof.
  unfold validatePathRedirects. intros H p. destruct (more_than rrs MaxPathRedirects); [inv_v|].
  apply vbind_ok in H as ([[o next] valid] & He & H). apply redirect_entries_ok in He as (-> & Hnd & -> & _).
  simpl in H. apply vbind_ok in H as ([] & Hl & H). inv_v.
  pose proof (redirect_loops_ok _ _ Hl) as Hcheck. set (next := redirect_map out) in *.
  assert (size next = List.length out) as Hsize.
  { unfold next, redirect_map. rewrite map_size_list_to_map by done. by rewrite length_fmap. }
  apply eq_None_not_Some. intros [q Hq].
  assert (∀ n p, is_Some (next !! follow n next p) → is_Some (hops (S n) next p)) as Hfull.
  { clear. induction n as [|n IH]; intros p Hs; simpl in *; [destruct Hs as [q ->]; by eexists|].
    destruct (next !! p) as [r|] eqn:E; [simpl; by apply IH|]. rewrite E in Hs. by apply is_Some_None in Hs. }
  specialize (Hfull (List.length out) p ltac:(by eexists)). rewrite <- Hsize in Hfull.
  destruct (chain_repeats _ _ Hfull) as (i & j & r & Hij & Hi & Hj).
  replace j with (i + (j - i))%nat in Hj by lia. rewrite hops_add, Hi in Hj. simpl in Hj.
  assert (is_Some (next !! r)) as [t Ht].
  { replace (j - i)%nat with (S (j - i - 1)) in Hj by lia. simpl in Hj. destruct (next !! r); [by eexists|done]. }
  apply elem_of_list_to_map_2 in Ht. apply list_elem_of_fmap in Ht as (red & Hpair & Hred).
  injection Hpair as -> _. apply Hcheck in Hred. eapply leads_back_none in Hred; [apply Hred, Hj|]. lia.
Qed.

Lemma redirects_terminate_witness :
  validatePathRedirects [mk_redirectRaw "/a" "/b" None; mk_redirectRaw "/b" "https://example.org/" (Some 301%Z)] ""
    = ([], [mk_pathredirect "/a" "/b" 308; mk_pathredirect "/b" "https://example.org/" 301]) ∧
  redirect_map [mk_pathredirect "/a" "/b" 308; mk_pathredirect "/b" "https://example.org/" 301]
    !! follow 2 (redirect_map [mk_pathredirect "/a" "/b" 308; mk_pathredirect "/b" "https://example.org/" 301]) "/a" = None.
Proof.
  assert (validatePathRedirects [mk_redirectRaw "/a" "/b" None; mk_redirectRaw "/b" "https://example.org/" (Some 301%Z)] ""
    = ([], [mk_pathredirect "/a" "/b" 308; mk_pathredirect "/b" "https://example.org/" 301])) as H by (vm_compute; reflexivity).
  split; [exact H | exact (redirects_terminate _ _ _ H "/a")].
Defined.
