(* ===== verification/SpecValid.v ===== *)
(** * What an accepted deploy.yaml guarantees

    The invariants the rest of the system takes for granted ("values of this
    type are only produced by Parse, so holders may assume every field is
    valid", pkg/spec/spec.go), proved of [validate]. *)

From stdpp Require Import sorting.
From S2P Require Import Prelude GoStrings GoTime GoFloat GoURL SpecTypes SpecUnits SpecNames Cron SpecValidate.
From Stdlib Require Import Ascii String.
Local Open Scope string_scope.

(** ** Loops that collect *)

Lemma at_index_nonempty f i : at_index f i ≠ "".
Proof. unfold at_index. destruct f; simpl; done. Qed.

Lemma NoDup_snoc {A} (l : list A) x : NoDup l → x ∉ l → NoDup (l ++ [x])%list.
Proof.
  intros Hl Hx. apply NoDup_app. split; [done|]. split; [|apply NoDup_singleton].
  intros y Hy Hy'. apply list_elem_of_singleton in Hy' as ->. done.
Qed.

Lemma Forall_snoc {A} (P : A → Prop) l x : Forall P l → P x → Forall P (l ++ [x])%list.
Proof. intros. apply Forall_app. by split; [|apply Forall_singleton]. Qed.

Lemma not_contains {A} `{EqDecision A} (l : list A) x : contains l x = false ↔ x ∉ l.
Proof. apply bool_decide_eq_false. Qed.

Lemma not_more_than {A} (l : list A) n : more_than l n = false → (Z.of_nat (List.length l) ≤ n)%Z.
Proof. unfold more_than. lia. Qed.

(** A chain of tests each of which complains: nothing was complained about. *)
Ltac no_complaint H :=
  repeat match type of H with
  | (if ?b then vadd _ _ _ else _) = ([], _) => destruct b eqn:?; [discriminate H|]
  end; bools.

(** An invariant of lists that are still empty. *)
Ltac nil_inv :=
  hnf; simpl; repeat match goal with |- _ ∧ _ => split end;
  try (first [apply NoDup_nil_2 | apply Forall_nil_2 | reflexivity | intros ? Hx; by apply elem_of_nil in Hx]).

#[export] Hint Resolve NoDup_snoc Forall_snoc at_index_nonempty : shipwick.

(** ** Volumes *)

Definition volume_ok (v : Volume) : Prop := namePattern (v_Name v) = true ∧ validMountPath (v_Path v) = true.

Record volumes_ok (vs : list Volume) : Prop := {
  vols_few : (Z.of_nat (List.length vs) ≤ MaxVolumes)%Z;
  vols_each : Forall volume_ok vs;
  vols_names : NoDup (v_Name <$> vs);
  vols_paths : NoDup (v_Path <$> vs) }.

Lemma validateVolumes_ok r vs : validateVolumes r = ([], vs) →
  volumes_ok vs ∧ List.length vs = List.length (r_Volumes r).
Proof.
  unfold validateVolumes. intros H. destruct (more_than _ _) eqn:Em; [inv_v|]. apply not_more_than in Em.
  apply vbind_ok in H as (st & H & Hvs). injection Hvs as <-.
  set (I := λ (i : nat) (st : list string * list string * list Volume),
    let '(names, paths, out) := st in
    List.length out = i ∧ Forall volume_ok out ∧ NoDup (v_Name <$> out) ∧ NoDup (v_Path <$> out) ∧
    (∀ x, x ∈ v_Name <$> out → x ∈ names) ∧ (∀ x, x ∈ v_Path <$> out → x ∈ paths)).
  eapply (vloop_ok _ I) in H; [| |by nil_inv].
  - destruct st as [[names paths] out]. destruct H as (Hl & Hv & Hn & Hp & _). simpl in *.
    split; [|done]. split; [lia|done..].
  - clear. intros i v [[names paths] out] st' (Hl & Hv & Hn & Hp & Hnn & Hpp) H.
    apply vbind_ok in H as ([] & H1 & H). apply vbind_ok in H as ([] & H2 & H). inv_v.
    no_complaint H1. no_complaint H2.
    repeat match goal with E : contains _ _ = false |- _ => apply not_contains in E end.
    unfold I. rewrite length_app, !fmap_app. simpl.
    split; [lia|]. split; [apply Forall_snoc; [done|by split]|].
    split; [apply NoDup_snoc; [done|naive_solver]|]. split; [apply NoDup_snoc; [done|naive_solver]|].
    split; intros x Hx; apply elem_of_app in Hx as [Hx|Hx]; rewrite elem_of_cons;
      first [right; by auto | left; by apply list_elem_of_singleton in Hx].
Qed.

Lemma validate_volume_rules_ok vs s n : validate_volume_rules vs s n = ([], tt) →
  vs = [] ∨ s = StrategyRecreate ∧ n = 1%Z.
Proof.
  unfold validate_volume_rules. intros H. destruct (bool_decide_reflect (vs = [])); [by left|right].
  apply vbind_ok in H as ([] & H1 & H2). destruct (String.eqb_spec s StrategyRecreate); [|inv_v].
  destruct (Z.eqb_spec n 1); [done|inv_v].
Qed.

(** ** Published ports *)

Definition publish_ok (p : Publish) : Prop :=
  port_ok (p_Port p) = true ∧ port_ok (p_Host p) = true ∧ (p_Host p ∉ proxyPorts) ∧
  p_Protocol p ∈ [ProtocolTCP; ProtocolUDP].

Record publishes_ok (ps : list Publish) : Prop := {
  pubs_few : (Z.of_nat (List.length ps) ≤ MaxPublish)%Z;
  pubs_each : Forall publish_ok ps;
  pubs_distinct : NoDup (publish_key <$> ps) }.

Lemma publish_entry_ok i p seen pub : publish_entry i p seen = ([], pub) →
  publish_ok pub ∧ (publish_key pub ∉ seen).
Proof.
  unfold publish_entry. intros H.
  apply vbind_ok in H as (port & Hport & H). apply vbind_ok in H as (host & Hhost & H).
  apply vbind_ok in H as (proto & Hproto & H). apply vbind_ok in H as (addr & Haddr & H).
  apply vbind_ok in H as ([] & Hseen & H). inv_v.
  assert (port_ok port = true) as Hp.
  { destruct (pub_Port p) as [n|]; [|inv_v]. destruct (port_ok n) eqn:E; inv_v. done. }
  assert (port_ok host = true ∧ (host ∉ proxyPorts)) as [Hh Hnp].
  { destruct (bool_decide (is_Some (pub_Host p)) && negb (port_ok (default port (pub_Host p)))) eqn:E; [inv_v|].
    destruct (contains proxyPorts (default port (pub_Host p))) eqn:E2; [inv_v|].
    inv_v. apply not_contains in E2. split; [|done].
    destruct (pub_Host p) as [h|]; [|done]. change (default port (Some h)) with h in *.
    rewrite bool_decide_eq_true_2 in E by by eexists. by destruct (port_ok h). }
  assert (proto ∈ [ProtocolTCP; ProtocolUDP]) as Hpr.
  { destruct (String.eqb (to_lower _) _); [inv_v; left|].
    destruct (contains [ProtocolTCP; ProtocolUDP] _) eqn:E; inv_v. by apply contains_spec in E. }
  split; [by repeat split|].
  destruct (Z.eqb_spec host 0) as [->|]; [done|]. cbn [negb andb] in Hseen.
  destruct (contains seen _) eqn:E; [inv_v|]. by apply not_contains.
Qed.

Lemma validatePublish_ok r vs s n ps : validatePublish r vs s n = ([], ps) →
  publishes_ok ps ∧ (ps = [] ∨ vs ≠ [] ∨ s = StrategyRecreate ∧ n = 1%Z).
Proof.
  unfold validatePublish. intros H.
  destruct (bool_decide_reflect (r_Publish r = [])).
  { inv_v. split; [|by left]. split; [done|apply Forall_nil_2|apply NoDup_nil_2]. }
  destruct (more_than _ _) eqn:Em; [inv_v|]. apply not_more_than in Em.
  apply vbind_ok in H as ([] & Hr & H). apply vbind_ok in H as (st & H & Hps). injection Hps as <-.
  set (I := λ (i : nat) (st : list Publish * list (Z * string * string)),
    List.length st.1 = i ∧ Forall publish_ok st.1 ∧ NoDup (publish_key <$> st.1) ∧
    (∀ x, x ∈ publish_key <$> st.1 → x ∈ st.2)).
  eapply (vloop_ok _ I) in H; [| |by nil_inv].
  - destruct H as (Hl & Ho & Hn & _). split; [split; [lia|done..]|]. right.
    destruct (bool_decide_reflect (vs = [])) as [|Hvs]; [right|by left]. cbn [negb] in Hr.
    apply vbind_ok in Hr as ([] & H1 & H2). destruct (String.eqb_spec s StrategyRecreate); [|inv_v].
    destruct (Z.eqb_spec n 1); [done|inv_v].
  - clear. intros i p [out seen] st' (Hl & Hf & Hn & Hs) H.
    apply vbind_ok in H as (pub & H1 & H). inv_v. apply publish_entry_ok in H1 as [Hok Hfresh].
    unfold I; simpl in *. rewrite length_app, fmap_app. simpl. split; [lia|]. split; [by apply Forall_snoc|].
    split; [apply NoDup_snoc; [done|naive_solver]|].
    intros x Hx. apply elem_of_app in Hx as [Hx|Hx]; [right; auto|]. apply list_elem_of_singleton in Hx as ->. left.
Qed.

(** ** The validators an accepted document passed *)

Definition domain_of (r : raw) : string := to_lower (trim_space (r_Domain r)).

Record accepted (N : string → bool) (r : raw) (a : App) : Prop := {
  acc_name : validate_name r = ([], tt) ∧ a_Name a = r_Name r;
  acc_image : validate_image N r (a_Image a) = ([], tt) ∧ a_Image a = trim_space (r_Image r);
  acc_port : validate_port r = ([], a_Port a);
  acc_domain : validate_domain r (a_Domain a) = ([], tt) ∧ a_Domain a = domain_of r;
  acc_replicas : validate_replicas r = ([], a_Replicas a);
  acc_env : validateEnv r = ([], a_Env a);
  acc_health : validateHealth r = ([], a_Health a);
  acc_resources : validate_cpu r = ([], res_CPU (a_Resources a)) ∧ validate_memory r = ([], res_MemoryBytes (a_Resources a));
  acc_restart : validate_restart r = ([], a_Restart a);
  acc_strategy : validate_strategy r = ([], a_Strategy a);
  acc_stop : validate_stop_timeout r = ([], a_StopTimeout a);
  acc_domains : validateDomains r (a_Domain a) = ([], (a_Aliases a, a_Redirects a));
  acc_process : validateProcess r = ([], (a_Entrypoint a, a_Command a, a_User a));
  acc_jobs : validateJobs r = ([], (a_PreDeploy a, a_Jobs a));
  acc_logging : validateLogging r = ([], a_Logging a);
  acc_build : validateBuild r = ([], a_Build a);
  acc_static : validateStatic r (a_Domain a) = ([], a_Static a);
  acc_path : validatePath r (a_Domain a) = ([], a_Path a);
  acc_proxy : validateProxy r (a_Domain a) (a_Path a) = ([], a_Proxy a);
  acc_backups : validateBackups r = ([], a_Backups a);
  acc_volumes : validateVolumes r = ([], a_Volumes a);
  acc_rules : validate_volume_rules (a_Volumes a) (a_Strategy a) (a_Replicas a) = ([], tt);
  acc_publish : validatePublish r (a_Volumes a) (a_Strategy a) (a_Replicas a) = ([], a_Publish a);
  acc_init : validateInit r = ([], a_Init a);
  acc_security : validateSecurity r (a_Volumes a) (a_User a) = ([], a_Security a) }.

Lemma validate_accepted N r a : validate N r = inr a → accepted N r a.
Proof.
  unfold validate. destruct (validate_app N r) as [e b] eqn:E. cbn [fst snd].
  case_bool_decide as Hok; [|done]. subst e. intros [= ->]. unfold validate_app in E.
  repeat (let x := fresh "x" in let Hx := fresh "Hx" in apply vbind_ok in E as (x & Hx & E); cbv beta iota in E;
          match type of x with unit => destruct x | prod (prod _ _) _ => destruct x as [[? ?] ?] | prod _ _ => destruct x as [? ?] | _ => idtac end).
  injection E as <-. by split.
Qed.

(** ** Hostnames *)

Definition seen_ok (seen : gmap string string) : Prop := map_Forall (λ _ v, v ≠ "") seen.

Lemma validateHostnames_ok field hosts seen valid out seen' :
  seen_ok seen → validateHostnames field hosts seen valid = ([], (out, seen')) →
  seen_ok seen' ∧ NoDup out ∧ Forall (λ h, h ≠ "" ∧ is_ok (valid h) = true ∧ seen !! h = None) out ∧
  (∀ h, is_Some (seen' !! h) ↔ is_Some (seen !! h) ∨ h ∈ out) ∧
  (Z.of_nat (List.length out) ≤ MaxHostnames)%Z ∧ (hosts = [] → out = []).
Proof.
  unfold validateHostnames. intros Hs H. destruct (bool_decide_reflect (hosts = [])).
  { inv_v. split; [done|]. split; [apply NoDup_nil_2|]. split; [apply Forall_nil_2|]. split; [|done].
    intros h. rewrite elem_of_nil. tauto. }
  destruct (more_than _ _) eqn:Em; [inv_v|]. apply not_more_than in Em.
  set (I := λ (i : nat) (st : list string * gmap string string),
    List.length st.1 = i ∧ seen_ok st.2 ∧ NoDup st.1 ∧
    Forall (λ h, h ≠ "" ∧ is_ok (valid h) = true ∧ seen !! h = None) st.1 ∧
    (∀ h, is_Some (st.2 !! h) ↔ is_Some (seen !! h) ∨ h ∈ st.1)).
  eapply (vloop_ok _ I) in H.
  - destruct H as (Hl & H1 & H2 & H3 & H4); simpl in *. split; [done|]. split; [done|]. split; [done|]. split; [done|].
    split; [lia|done].
  - clear -Hs. intros i entry [o sn] st' (Hl & Hok & Hnd & Hf & Hdom) H. simpl in Hl, Hok, Hnd, Hf, Hdom.
    apply vbind_ok in H as ([] & H1 & H). inv_v. set (h := to_lower (trim_space entry)) in *.
    destruct (String.eqb_spec h ""); [inv_v|]. destruct (valid h) eqn:Ev; [|inv_v].
    assert (sn !! h = None) as Hnone.
    { destruct (sn !! h) as [v|] eqn:E; [|done]. simpl in H1. pose proof (Hok _ _ E) as Hv. simpl in Hv.
      unfold nonempty in H1. destruct (String.eqb_spec v ""); [done|cbn [negb] in H1; inv_v]. }
    assert (seen !! h = None ∧ (h ∉ o)) as [Hn1 Hn2].
    { rewrite eq_None_not_Some in Hnone. rewrite Hdom in Hnone. split; [apply eq_None_not_Some|]; tauto. }
    unfold I; simpl. rewrite length_app. simpl. split; [lia|].
    split; [apply map_Forall_insert_2; [apply at_index_nonempty|done]|].
    split; [by apply NoDup_snoc|]. split; [apply Forall_snoc; [done|by rewrite Ev]|].
    intros k. rewrite elem_of_app, list_elem_of_singleton. destruct (decide (k = h)) as [->|Hk].
    + rewrite lookup_insert_eq. split; [tauto|eauto].
    + rewrite lookup_insert_ne by done. rewrite Hdom. tauto.
  - unfold I; simpl. split; [done|]. split; [done|]. split; [apply NoDup_nil_2|]. split; [apply Forall_nil_2|].
    intros h. rewrite elem_of_nil. tauto.
Qed.

Lemma validateDomains_ok r domain aliases redirects :
  validateDomains r domain = ([], (aliases, redirects)) →
  (domain = "" → aliases = [] ∧ redirects = []) ∧
  (domain ≠ "" → NoDup (domain :: aliases ++ redirects)%list) ∧
  Forall (λ h, h ≠ "" ∧ is_ok (ValidateHostname h) = true) aliases ∧
  Forall (λ h, h ≠ "" ∧ is_ok (ValidateDomain h) = true) redirects ∧
  (redirects ≠ [] → IsWildcard domain = false).
Proof.
  unfold validateDomains. intros H.
  destruct (bool_decide_reflect (r_Aliases r = [])) as [Ea|Ea], (bool_decide_reflect (r_Redirects r = [])) as [Er|Er];
    cbn [andb negb] in H.
  1: { inv_v. split; [done|]. split; [intros; apply NoDup_singleton|]. split; [apply Forall_nil_2|]. split; [apply Forall_nil_2|done]. }
  all: destruct (String.eqb_spec domain ""); [inv_v; done|].
  all: apply vbind_ok in H as ([] & Hw & H); apply vbind_ok in H as ([al s1] & H1 & H); cbv beta iota in H;
       apply vbind_ok in H as ([re s2] & H2 & H); cbv beta iota in H; inv_v.
  all: apply validateHostnames_ok in H1 as (Hs1 & Hn1 & Hf1 & Hd1 & _ & _); [|by apply map_Forall_singleton];
       apply validateHostnames_ok in H2 as (_ & Hn2 & Hf2 & _ & _ & He2); [|done].
  all: split; [done|]; split; [intros _|].
  all: try (apply NoDup_cons; split; [|apply NoDup_app; split; [done|split; [|done]]];
       [rewrite elem_of_app; intros [Hx|Hx]; rewrite Forall_forall in *;
         [apply Hf1 in Hx as (_ & _ & Hx); by rewrite lookup_singleton_eq in Hx
         |apply Hf2 in Hx as (_ & _ & Hx); rewrite eq_None_not_Some, Hd1, lookup_singleton_eq in Hx; eauto]
       |intros x Hx Hx'; rewrite Forall_forall in *; apply Hf2 in Hx' as (_ & _ & Hx');
         rewrite eq_None_not_Some, Hd1 in Hx'; tauto]).
  all: split; [eapply Forall_impl; [exact Hf1|]; by intros ? (?&?&_)|];
       split; [eapply Forall_impl; [exact Hf2|]; by intros ? (?&?&_)|].
  all: intros Hre; destruct (IsWildcard domain); [|done]; cbn [andb] in Hw; inv_v.
  destruct Hre. by apply He2.
Qed.

(** ** Directories kept in memory, capabilities *)

Definition tmpfs_ok (t : Tmpfs) : Prop :=
  validMountPath (t_Path t) = true ∧ (MinTmpfsBytes ≤ t_SizeBytes t ≤ MaxTmpfsBytes)%Z.

Lemma tmpfs_entry_ok i entry mounted t : (map_Forall (λ _ v, v ≠ "") mounted) →
  tmpfs_entry i entry mounted = ([], t) → tmpfs_ok t ∧ mounted !! t_Path t = None.
Proof.
  intros Hm H. unfold tmpfs_entry in H. apply vbind_ok in H as ([] & H1 & H). apply vbind_ok in H as (size & H2 & H).
  inv_v. no_complaint H1.
  assert (mounted !! trim_space (tr_Path entry) = None) as Hnone.
  { destruct (mounted !! trim_space (tr_Path entry)) as [v|] eqn:E; [|done]. apply Hm in E.
    match goal with E0 : nonempty _ = false |- _ => unfold nonempty in E0; apply negb_false_iff, String.eqb_eq in E0; done end. }
  split; [|done]. split; [done|]. simpl. destruct (String.eqb (tr_Size entry) ""); [inv_v; vm_compute; done|].
  destruct (parseSize (tr_Size entry)) as [n|e]; [|inv_v]. apply vbind_ok in H2 as ([] & H2 & H3). inv_v. no_complaint H2.
  lia.
Qed.

Lemma volume_mounts_ok vs : map_Forall (λ _ v, v ≠ "") (volume_mounts vs) ∧
  (∀ p, is_Some (volume_mounts vs !! p) ↔ p ∈ v_Path <$> vs).
Proof.
  unfold volume_mounts. induction vs as [|v vs IH] using rev_ind.
  - split; [apply map_Forall_empty|]. intros p. simpl. rewrite lookup_empty, elem_of_nil. split; [by intros [? ?]|done].
  - rewrite foldl_snoc, fmap_app. destruct IH as [IH1 IH2]. split; [by apply map_Forall_insert_2|].
    intros p. rewrite elem_of_app, <- IH2. simpl. rewrite list_elem_of_singleton.
    destruct (decide (p = v_Path v)) as [->|Hp]; [rewrite lookup_insert_eq; split; eauto|].
    rewrite lookup_insert_ne by done. tauto.
Qed.

Lemma validateTmpfs_ok entries vs ts : NoDup (v_Path <$> vs) → validateTmpfs entries vs = ([], ts) →
  Forall tmpfs_ok ts ∧ NoDup ((v_Path <$> vs) ++ (t_Path <$> ts))%list ∧ (Z.of_nat (List.length ts) ≤ MaxTmpfs)%Z.
Proof.
  intros Hvs. unfold validateTmpfs. intros H. destruct (more_than _ _) eqn:Em; [inv_v|]. apply not_more_than in Em.
  apply vbind_ok in H as (st & H & Hts). injection Hts as <-. pose proof (volume_mounts_ok vs) as [Hm1 Hm2].
  set (I := λ (i : nat) (st : list Tmpfs * gmap string string),
    List.length st.1 = i ∧ Forall tmpfs_ok st.1 ∧ map_Forall (λ _ v, v ≠ "") st.2 ∧
    NoDup ((v_Path <$> vs) ++ (t_Path <$> st.1))%list ∧
    (∀ p, is_Some (st.2 !! p) ↔ p ∈ (v_Path <$> vs) ++ (t_Path <$> st.1))%list).
  eapply (vloop_ok _ I) in H.
  - destruct H as (Hl & H1 & _ & H2 & _). split; [done|]. split; [done|]. lia.
  - clear. intros i entry [out mounted] st' (Hl & Hf & Hm & Hnd & Hdom) H. simpl in Hl, Hf, Hm, Hnd, Hdom.
    apply vbind_ok in H as (t & H1 & H). inv_v. apply tmpfs_entry_ok in H1 as [Hok Hfresh]; [|done].
    rewrite eq_None_not_Some, Hdom in Hfresh. unfold I; simpl.
    rewrite length_app, fmap_app, app_assoc. simpl. split; [lia|]. split; [by apply Forall_snoc|].
    split; [by apply map_Forall_insert_2|]. split; [by apply NoDup_snoc|].
    intros p. rewrite elem_of_app, <- Hdom, list_elem_of_singleton.
    destruct (decide (p = t_Path t)) as [->|Hp]; [rewrite lookup_insert_eq; split; eauto|].
    rewrite lookup_insert_ne by done. tauto.
  - unfold I; simpl. rewrite app_nil_r. split; [done|]. split; [apply Forall_nil_2|]. done.
Qed.

Lemma validateCapabilities_ok c l : validateCapabilities c = ([], Some l) →
  Forall (λ k, k ∈ DefaultCapabilities) l ∧ NoDup l ∧ Sorted str_le l ∧ (l = [] → ∃ w, c = CapWord w).
Proof.
  intros H. unfold validateCapabilities in H. cbv zeta in H. destruct c as [|w|names]; [discriminate H|..].
  { apply vbind_ok in H as ([] & _ & H). inv_v. split; [apply Forall_nil_2|]. split; [apply NoDup_nil_2|].
    split; [constructor|]. eauto. }
  apply vbind_ok in H as ([] & Hne & H). apply vbind_ok in H as (kept & H & Hl). inv_v.
  set (I := λ (i : nat) (kept : list string),
    List.length kept = i ∧ Forall (λ k, k ∈ DefaultCapabilities) kept ∧ NoDup kept).
  eapply (vloop_ok _ I) in H.
  - destruct H as (Hlen & Hf & Hn). pose proof (merge_sort_Permutation str_le kept) as Hp.
    split; [by rewrite Hp|]. split; [by rewrite Hp|]. split.
    + apply Sorted_merge_sort. intros x y. unfold str_le. rewrite (str_compare_antisym y x). lia.
    + intros E. rewrite E in Hp. apply Permutation_nil in Hp as ->. destruct names; [|done]. by inv_v.
  - clear. intros i w kept k' (Hl & Hf & Hn) H. destruct (negb _) eqn:E; [inv_v|].
    destruct (contains kept _) eqn:E2; [inv_v|]. inv_v. bools. apply contains_spec in E. apply not_contains in E2.
    split; [rewrite length_app; simpl; lia|]. split; [by apply Forall_snoc|by apply NoDup_snoc].
  - split; [done|]. split; [apply Forall_nil_2|apply NoDup_nil_2].
Qed.

(** ** Jobs *)

Lemma parseDuration_range s lo hi d : parseDuration s lo hi = Ok d → (lo ≤ d ≤ hi)%Z.
Proof. unfold parseDuration. intros H. case_match; [|done]. destruct (_ || _) eqn:E; [done|]. bools. inv_ok. lia. Qed.

Lemma duration_field_ok v dflt lo hi field e d : duration_field v dflt lo hi field e = ([], d) →
  d = dflt ∨ (lo ≤ d ≤ hi)%Z.
Proof.
  unfold duration_field. intros H. destruct (String.eqb v ""); [inv_v; by left|].
  destruct (parseDuration v lo hi) eqn:E; [|inv_v]. inv_v. right. by eapply parseDuration_range.
Qed.

Definition command_ok (cmd : list string) : Prop := is_ok (ValidateCommand cmd) = true.

Record job_ok (j : Job) : Prop := {
  job_name : jobNamePattern (j_Name j) = true;
  job_free : j_Name j ∉ ReservedJobNames;
  job_fires : is_ok (Parse (j_Schedule j)) = true;
  job_runs : command_ok (j_Command j);
  job_ends : (second ≤ j_Timeout j ≤ MaxJobTimeout)%Z }.

Definition hook_ok (h : Hook) : Prop :=
  command_ok (hook_Command h) ∧ (second ≤ hook_Timeout h ≤ MaxHookTimeout)%Z.

Lemma validateJob_ok i j names job : validateJob i j names = ([], job) →
  job_ok job ∧ j_Name job = jr_Name j ∧ (jr_Name j ∉ names).
Proof.
  intros H. unfold validateJob in H. cbv zeta in H.
  apply vbind_ok in H as ([] & H1 & H). apply vbind_ok in H as ([] & H2 & H).
  apply vbind_ok in H as ([] & H3 & H). apply vbind_ok in H as (t & H4 & H). inv_v.
  no_complaint H1. destruct (String.eqb _ "") eqn:Es in H2; [inv_v|].
  destruct (Parse (join " " (fields (jr_Schedule j)))) eqn:Ep; [|inv_v].
  apply duration_field_ok in H4.
  repeat match goal with E : contains _ _ = false |- _ => apply not_contains in E end.
  split; [|done]. split; simpl; [|done|by rewrite Ep|done|].
  - unfold ValidateJobName in *. by destruct (jobNamePattern (jr_Name j)).
  - destruct H4 as [->|?]; [vm_compute; split; discriminate|done].
Qed.

Lemma validateJobs_ok r hook jobs : validateJobs r = ([], (hook, jobs)) →
  (∀ h, hook = Some h → hook_ok h) ∧ Forall job_ok jobs ∧ NoDup (j_Name <$> jobs) ∧
  (Z.of_nat (List.length jobs) ≤ MaxJobs)%Z ∧ List.length jobs = List.length (r_Jobs r).
Proof.
  intros H. unfold validateJobs in H. apply vbind_ok in H as (hk & Hh & H).
  destruct (more_than _ _) eqn:Em; [inv_v|]. apply not_more_than in Em.
  apply vbind_ok in H as (st & H & Hst). injection Hst as <- <-. split.
  { intros h ->. unfold validateHook in Hh. destruct (r_PreDeploy r) as [pd|]; [|discriminate Hh].
    apply vbind_ok in Hh as ([] & H1 & Hh). apply vbind_ok in Hh as (t & H2 & Hh). inv_v.
    apply duration_field_ok in H2. split; [done|]. simpl.
    destruct H2 as [->|?]; [vm_compute; split; discriminate|done]. }
  set (I := λ (i : nat) (st : list string * list Job),
    List.length st.2 = i ∧ Forall job_ok st.2 ∧ NoDup (j_Name <$> st.2) ∧ (∀ x, x ∈ j_Name <$> st.2 → x ∈ st.1)).
  eapply (vloop_ok _ I) in H; [| |by nil_inv].
  - destruct H as (Hl & Hf & Hn & _). split; [done|]. split; [done|]. simpl in Hl. lia.
  - clear. intros i j [names out] st' (Hl & Hf & Hn & Hs) H. simpl in Hl, Hf, Hn, Hs.
    apply vbind_ok in H as (job & H1 & H). inv_v. apply validateJob_ok in H1 as (Hok & Hname & Hfresh).
    unfold I; simpl. rewrite length_app, fmap_app. simpl. rewrite Hname. split; [lia|]. split; [by apply Forall_snoc|].
    split; [apply NoDup_snoc; [done|naive_solver]|].
    intros x Hx. rewrite elem_of_cons. apply elem_of_app in Hx as [Hx|Hx]; [right; auto|].
    left. by apply list_elem_of_singleton in Hx.
Qed.

(** ** Health *)

(** Exactly one of the three kinds is set, and [Kind] tells which. *)
Inductive health_is (port : Z) (h : Health) : Prop :=
  | health_is_http : Kind h = HealthHTTP → is_ok (validateHealthPath (h_Path h)) = true → port ≠ 0%Z →
      h_TCP h = 0%Z → h_Command h = [] → health_is port h
  | health_is_tcp : Kind h = HealthTCP → port_ok (h_TCP h) = true → h_Path h = "" → h_Command h = [] → health_is port h
  | health_is_command : Kind h = HealthCommand → h_Command h ≠ [] →
      Forall (λ arg, arg ≠ "" ∧ contains_char (chr 0) arg = false) (h_Command h) →
      h_Path h = "" → h_TCP h = 0%Z → health_is port h.

Record health_ok (port : Z) (h : Health) : Prop := {
  health_one : health_is port h;
  health_interval : (second ≤ h_Interval h ≤ 5 * minute)%Z;
  health_timeout : (100 * millisecond ≤ h_Timeout h ≤ minute)%Z;
  health_retries : (1 ≤ h_Retries h ≤ 100)%Z;
  health_start : (0 ≤ h_StartPeriod h ≤ 30 * minute)%Z }.

Lemma validateHealthCommand_ok cmd out : validateHealthCommand cmd = ([], out) →
  out = cmd ∧ cmd ≠ [] ∧ Forall (λ arg, arg ≠ "" ∧ contains_char (chr 0) arg = false) cmd.
Proof.
  intros H. unfold validateHealthCommand in H. cbv zeta in H.
  destruct (bool_decide_reflect (cmd = [])); [inv_v|]. destruct (more_than _ _); [inv_v|].
  apply vbind_ok in H as ([] & H & Ho). inv_v. split; [done|]. split; [done|].
  apply Forall_lookup. intros j x Hj. destruct (vloop_each _ _ _ _ _ _ _ Hj H) as (t & t' & Hx). cbv beta in Hx.
  destruct (String.eqb_spec x ""); [inv_v|]. split; [done|]. by destruct (contains_char (chr 0) x); [inv_v|].
Qed.

Lemma validate_port_ok r n : validate_port r = ([], n) →
  (r_Port r = None ∧ n = 0%Z) ∨ (r_Port r = Some n ∧ port_ok n = true).
Proof.
  unfold validate_port. destruct (r_Port r) as [m|]; intros H; [|inv_v; by left]. right.
  apply vbind_ok in H as ([] & H1 & H). inv_v. by destruct (port_ok n); [|inv_v].
Qed.

Lemma validateHealth_ok r port h : validate_port r = ([], port) → validateHealth r = ([], Some h) → health_ok port h.
Proof.
  intros Hport%validate_port_ok H. unfold validateHealth in H. destruct (r_Health r) as [hr|]; [|discriminate H]. cbv zeta in H.
  apply vbind_ok in H as (cmd & Hk & H). apply vbind_ok in H as (iv & Hi & H). apply vbind_ok in H as (to & Ht & H).
  apply vbind_ok in H as (re & Hr & H). apply vbind_ok in H as (sp & Hs & H). inv_v.
  apply duration_field_ok in Hi, Ht, Hs. split; simpl.
  - destruct (nonempty (hr_Path hr)) eqn:Ep, (hr_TCP hr) as [tcp|] eqn:Et, (hr_Command hr) as [c|] eqn:Ec;
      unfold health_kinds in Hk; rewrite Ep, Et, Ec in Hk; cbn in Hk; try (inv_v; fail).
    + apply vbind_ok in Hk as ([] & H1 & Hk). apply vbind_ok in Hk as ([] & H2 & Hk). inv_v.
      apply health_is_http; try done. destruct (bool_decide_reflect (r_Port r = None)) as [|Hn]; [inv_v|].
      intros ->. destruct Hport as [[? _]|[_ ?]]; done.
    + apply vbind_ok in Hk as ([] & H1 & Hk). inv_v. destruct (port_ok tcp) eqn:E; [|inv_v].
      apply health_is_tcp; simpl; try done.
      * unfold Kind; simpl. destruct (Z.eqb_spec tcp 0) as [->|]; done.
      * unfold nonempty in Ep. by apply negb_false_iff, String.eqb_eq in Ep.
    + apply validateHealthCommand_ok in Hk as (-> & Hne & Hf).
      apply health_is_command; simpl; try done.
      * unfold Kind; simpl. by rewrite bool_decide_eq_false_2.
      * unfold nonempty in Ep. by apply negb_false_iff, String.eqb_eq in Ep.
  - destruct Hi as [->|?]; [vm_compute; split; discriminate|done].
  - destruct Ht as [->|?]; [vm_compute; split; discriminate|done].
  - destruct (hr_Retries hr) as [n|]; [|inv_v; vm_compute; split; discriminate].
    apply vbind_ok in Hr as ([] & H1 & Hr). inv_v. destruct (_ || _) eqn:E; [inv_v|]. bools. lia.
  - destruct Hs as [->|?]; [vm_compute; split; discriminate|done].
Qed.

(** ** Headers and accounts of the proxy block *)

Lemma sorted_keys_perm m : sorted_keys m ≡ₚ (map_to_list m).*1.
Proof. apply merge_sort_Permutation. Qed.

Lemma elem_of_sorted_keys m k : k ∈ sorted_keys m ↔ is_Some (m !! k).
Proof.
  rewrite sorted_keys_perm, list_elem_of_fmap. split.
  - intros ([k' v] & -> & H). apply elem_of_map_to_list in H. eauto.
  - intros [v H]. exists (k, v). split; [done|]. by apply elem_of_map_to_list.
Qed.

Definition header_ok (k v : string) : Prop :=
  headerNamePattern k = true ∧ (to_lower k ∉ connectionHeaders) ∧ v ≠ "" ∧ hasControl v = false.

Record headers_ok (hs : gmap string string) : Prop := {
  headers_each : map_Forall header_ok hs;
  headers_once : ∀ k1 k2, is_Some (hs !! k1) → is_Some (hs !! k2) → to_lower k1 = to_lower k2 → k1 = k2 }.

Lemma validateProxyHeaders_ok headers out : validateProxyHeaders headers = ([], out) →
  (out = headers ∧ headers_ok headers).
Proof.
  intros H. unfold validateProxyHeaders in H. cbv zeta in H. destruct (more_than _ _); [inv_v|].
  apply vbind_ok in H as (seen & H & Ho). inv_v. split; [done|].
  set (I := λ (d : list string) (seen : gmap string string),
    ∀ k, k ∈ d → header_ok k (default "" (out !! k)) ∧ seen !! to_lower k = Some k).
  apply (vloop_prefix _ I) with (d := []) in H.
  - simpl in H. split.
    + intros k v Hv. destruct (H k) as [Hk _]; [by apply elem_of_sorted_keys; eauto|]. by rewrite Hv in Hk.
    + intros k1 k2 H1%elem_of_sorted_keys H2%elem_of_sorted_keys Heq.
      apply H in H1 as [_ H1]. apply H in H2 as [_ H2]. rewrite Heq, H2 in H1. by injection H1.
  - clear. intros d name s s' Hd H. apply vbind_ok in H as ([] & H & Hs). inv_v. no_complaint H.
    repeat match goal with E : contains _ _ = false |- _ => apply not_contains in E end.
    repeat match goal with E : String.eqb _ _ = false |- _ => apply String.eqb_neq in E end.
    intros k Hk. apply elem_of_app in Hk as [Hk|Hk].
    + destruct (Hd _ Hk) as [Hok Hsk]. split; [done|]. rewrite lookup_insert_ne; [done|]. intros Heq.
      match goal with E : nonempty (default _ (s !! to_lower name)) = false |- _ => rewrite Heq, Hsk in E; simpl in E;
        unfold nonempty in E; apply negb_false_iff, String.eqb_eq in E; subst k end.
      destruct Hok as [Hp _]. vm_compute in Hp. discriminate.
    + apply list_elem_of_singleton in Hk as ->. split; [done|]. apply lookup_insert_eq.
  - intros k Hk. by apply elem_of_nil in Hk.
Qed.

Definition account (b : BasicAuth) : string := PathKey (ba_Path b) ++ String (chr 0) (ba_Username b).

Definition auth_ok (b : BasicAuth) : Prop :=
  ba_Username b ≠ "" ∧ contains_char ":" (ba_Username b) = false ∧
  (hasPlaceholder (ba_Password b) = true ∨ is_ok (ValidatePassword (ba_Password b)) = true).

Lemma validateAuthEntry_ok i a appPath seen b acct : validateAuthEntry i a appPath seen = ([], (b, acct)) →
  auth_ok b ∧ acct = account b ∧ (acct ∉ seen).
Proof.
  intros H. unfold validateAuthEntry in H. cbv zeta in H. apply vbind_ok in H as (path & _ & H).
  apply vbind_ok in H as ([] & H1 & H). apply vbind_ok in H as ([] & H2 & H). inv_v. no_complaint H1.
  repeat match goal with E : contains _ _ = false |- _ => apply not_contains in E end.
  split; [|done]. split; [by apply String.eqb_neq|]. split; [done|]. simpl.
  destruct (hasPlaceholder (ar_Password a)); [by left|]. inv_v. by right.
Qed.

Lemma validateBasicAuth_ok auth appPath out : validateBasicAuth auth appPath = ([], out) →
  Forall auth_ok out ∧ NoDup (account <$> out).
Proof.
  intros H. unfold validateBasicAuth in H. destruct (more_than _ _); [inv_v|].
  apply vbind_ok in H as (st & H & Hst). injection Hst as <-.
  set (I := λ (i : nat) (st : list BasicAuth * list string),
    List.length st.1 = i ∧ Forall auth_ok st.1 ∧ NoDup (account <$> st.1) ∧ (∀ x, x ∈ account <$> st.1 → x ∈ st.2)).
  eapply (vloop_ok _ I) in H; [| |by nil_inv]; [by destruct H as (_ & ? & ? & _)|].
  clear. intros i a [out seen] st' (Hl & Hf & Hn & Hs) H. simpl in Hl, Hf, Hn, Hs.
  apply vbind_ok in H as ([b acct] & H1 & H). cbv beta iota in H. inv_v.
  apply validateAuthEntry_ok in H1 as (Hok & -> & Hfresh).
  unfold I; simpl. rewrite length_app, fmap_app. simpl. split; [lia|]. split; [by apply Forall_snoc|].
  split; [apply NoDup_snoc; [done|naive_solver]|].
  intros x Hx. rewrite elem_of_cons. apply elem_of_app in Hx as [Hx|Hx]; [right; auto|].
  left. by apply list_elem_of_singleton in Hx.
Qed.

(** ** Static applications *)

Lemma validateStatic_ok r domain s : validateStatic r domain = ([], Some s) →
  is_static r = true ∧ domain ≠ "" ∧ Forall (λ f : string * bool, f.2 = false) (static_exclusive r) ∧
  cleanStaticDir (sr_Dir (r_Static r)) = Ok (s_Dir s).
Proof.
  intros H. unfold validateStatic in H. destruct (is_static r) eqn:Es; cbn [negb] in H; [|inv_v; discriminate].
  cbv zeta in H. apply vbind_ok in H as ([] & H1 & H). apply vbind_ok in H as ([] & H2 & H).
  apply vbind_ok in H as ([] & H3 & H). apply vbind_ok in H as (f & H4 & H). inv_v.
  split; [done|]. destruct (String.eqb_spec domain ""); [inv_v|]. split; [done|]. split.
  - apply Forall_lookup. intros j x Hj. destruct (vloop_each _ _ _ _ _ _ _ Hj H3) as (t & t' & Hx). cbv beta in Hx.
    by destruct (x.2); [inv_v|].
  - by destruct (cleanStaticDir _).
Qed.

(** ** A document for the witnesses *)

Definition sample : raw :=
  mk_raw "web" "ghcr.io/acme/web:1" (Some 8080%Z) " Example.com" ["www.example.com"; "*.example.com"] ["old.example.org"] None
    {[ "LOG_LEVEL" := "debug" ]}
    (Some (mk_healthRaw "/health" None None "5s" "" (Some 5%Z) "1m"))
    "0.5" "512mb" [mk_volumeRaw "data" "/data"]
    [mk_publishRaw (Some 5432%Z) (Some 15432%Z) "" ""; mk_publishRaw (Some 5432%Z) (Some 15432%Z) "" "UDP"]
    None (Some ["serve"]) "1000" (Some (mk_hookRaw ["migrate"] ""))
    [mk_jobRaw "report" "0 3 * * *" ["report"] "5m"; mk_jobRaw "sweep" "*/15 * * * *" ["sweep"] ""]
    (Some (mk_loggingRaw "gelf" {[ "gelf-address" := "udp://logs.example.com:12201" ]}))
    (mk_buildRaw "" "") (mk_staticRaw "" "") "/api"
    (Some ([], Some (mk_proxyRaw (Some true) {[ "X-Frame-Options" := "DENY" ]}
       [mk_authRaw "/api/admin" "admin" "correct horse"] [mk_redirectRaw "/api/old" "/api/new" None])))
    (Decoded (mk_backupsRaw "0 4 * * *" None (Some ["dump"]) false "" "container"))
    "on-failure" "recreate" "30s" (Some true)
    (Decoded (mk_securityRaw (Some true) [mk_tmpfsRaw "/tmp" ""] (CapNames ["net_raw"; "CAP_CHOWN"]) (Some true))).

Definition sample_app : App := (validate_app (λ _, true) sample).2.

Lemma sample_accepted : validate (λ _, true) sample = inr sample_app.
Proof. vm_compute. reflexivity. Qed.

(** ** The properties *)

(** An accepted application that has volumes or publishes ports is one
    replica that is recreated, so that two containers never write the same
    files or hold the same server port; its volumes, and the server ports it
    publishes, are each its own. *)
Theorem exclusive_resources N r a : validate N r = inr a →
  (a_Volumes a ≠ [] ∨ a_Publish a ≠ [] → a_Strategy a = StrategyRecreate ∧ a_Replicas a = 1%Z) ∧
  volumes_ok (a_Volumes a) ∧ publishes_ok (a_Publish a).
Proof.
  intros H. apply validate_accepted in H. pose proof (validateVolumes_ok _ _ (acc_volumes _ _ _ H)) as [Hv _].
  pose proof (validate_volume_rules_ok _ _ _ (acc_rules _ _ _ H)) as Hr.
  pose proof (validatePublish_ok _ _ _ _ _ (acc_publish _ _ _ H)) as [Hp Hpr]. split; [tauto|done].
Qed.

Lemma exclusive_resources_witness : a_Volumes sample_app ≠ [] ∧ a_Strategy sample_app = StrategyRecreate.
Proof.
  assert (a_Volumes sample_app ≠ []) as Hv by (vm_compute; discriminate).
  split; [exact Hv|]. exact (proj1 (proj1 (exclusive_resources _ _ _ sample_accepted) (or_introl Hv))).
Defined.

(** Every hostname of an accepted application has one meaning: the domain,
    the aliases and the redirects are valid and pairwise different, there are
    neither aliases nor redirects without a domain, only the domain and the
    aliases may be wildcards, and nothing is redirected to a wildcard. *)
Theorem hostnames_distinct N r a : validate N r = inr a →
  (a_Domain a = "" → a_Aliases a = [] ∧ a_Redirects a = []) ∧
  (a_Domain a ≠ "" → NoDup (a_Domain a :: a_Aliases a ++ a_Redirects a)%list) ∧
  Forall (λ h, is_ok (ValidateHostname h) = true) ((if nonempty (a_Domain a) then [a_Domain a] else []) ++ a_Aliases a)%list ∧
  Forall (λ h, is_ok (ValidateDomain h) = true) (a_Redirects a) ∧
  (a_Redirects a ≠ [] → IsWildcard (a_Domain a) = false).
Proof.
  intros H. apply validate_accepted in H.
  pose proof (validateDomains_ok _ _ _ _ (acc_domains _ _ _ H)) as (H1 & H2 & H3 & H4 & H5).
  split; [done|]. split; [done|]. split; [|split; [|done]].
  - apply Forall_app. split; [|eapply Forall_impl; [exact H3|]; by intros ? [??]].
    destruct (acc_domain _ _ _ H) as [Hd _]. unfold validate_domain in Hd.
    unfold nonempty. destruct (String.eqb (a_Domain a) ""); [apply Forall_nil_2|].
    apply vbind_ok in Hd as ([] & Hd & _). inv_v. by apply Forall_singleton.
  - eapply Forall_impl; [exact H4|]. by intros ? [??].
Qed.

Lemma hostnames_distinct_witness :
  a_Domain sample_app ≠ "" ∧ NoDup (a_Domain sample_app :: a_Aliases sample_app ++ a_Redirects sample_app)%list.
Proof.
  assert (a_Domain sample_app ≠ "") as Hd by (vm_compute; discriminate).
  split; [exact Hd|]. exact (proj1 (proj2 (hostnames_distinct _ _ _ sample_accepted)) Hd).
Defined.

(** What an accepted security block mounts in memory and the volumes never
    share a path, every one of them is an absolute, clean path below the root,
    and the sizes are within their bounds. *)
Theorem mounts_disjoint N r a s : validate N r = inr a → a_Security a = Some s →
  NoDup ((v_Path <$> a_Volumes a) ++ (t_Path <$> sec_Tmpfs s))%list ∧
  Forall (λ p, validMountPath p = true) ((v_Path <$> a_Volumes a) ++ (t_Path <$> sec_Tmpfs s))%list ∧
  Forall (λ t, (MinTmpfsBytes ≤ t_SizeBytes t ≤ MaxTmpfsBytes)%Z) (sec_Tmpfs s).
Proof.
  intros H Hs. apply validate_accepted in H. destruct (validateVolumes_ok _ _ (acc_volumes _ _ _ H)) as [[_ He _ Hp] _].
  pose proof (acc_security _ _ _ H) as Hc. rewrite Hs in Hc. unfold validateSecurity in Hc.
  destruct (r_Security r) as [| |err|b]; [discriminate Hc|inv_v; discriminate..|].
  destruct (is_static r); [inv_v|]. unfold security_block in Hc. cbv zeta in Hc.
  apply vbind_ok in Hc as (ts & Ht & Hc). apply vbind_ok in Hc as (cs & _ & Hc). apply vbind_ok in Hc as ([] & _ & Hc).
  apply validateTmpfs_ok in Ht as (Hf & Hnd & _); [|done].
  destruct (_ && _); [discriminate Hc|]. inv_v. simpl. split; [done|]. split.
  - apply Forall_app. split; apply Forall_fmap.
    + eapply Forall_impl; [exact He|]. by intros ? [??].
    + eapply Forall_impl; [exact Hf|]. by intros ? [??].
  - eapply Forall_impl; [exact Hf|]. by intros ? [??].
Qed.

Lemma mounts_disjoint_witness : ∃ s, a_Security sample_app = Some s ∧
  NoDup ((v_Path <$> a_Volumes sample_app) ++ (t_Path <$> sec_Tmpfs s))%list.
Proof.
  eexists. split; [vm_compute; reflexivity|]. refine (proj1 (mounts_disjoint _ _ _ _ sample_accepted _)). vm_compute. reflexivity.
Defined.

(** A security block only takes away: the capabilities an accepted
    application keeps are all in Docker's default set, named once, in order,
    and none are kept only where the document says the word. *)
Theorem capabilities_narrow N r a s l : validate N r = inr a → a_Security a = Some s → sec_Capabilities s = Some l →
  Forall (λ k, k ∈ DefaultCapabilities) l ∧ NoDup l ∧ Sorted str_le l ∧
  (l = [] → ∃ b w, r_Security r = Decoded b ∧ scr_Capabilities b = CapWord w).
Proof.
  intros H Hs Hl. apply validate_accepted in H. pose proof (acc_security _ _ _ H) as Hc. rewrite Hs in Hc.
  unfold validateSecurity in Hc. destruct (r_Security r) as [| |err|b]; [discriminate Hc|inv_v; discriminate..|].
  destruct (is_static r); [inv_v|]. unfold security_block in Hc. cbv zeta in Hc.
  apply vbind_ok in Hc as (ts & _ & Hc). apply vbind_ok in Hc as (cs & Hcs & Hc). apply vbind_ok in Hc as ([] & _ & Hc).
  destruct (_ && _); [discriminate Hc|]. inv_v. simpl in Hl. subst cs. apply validateCapabilities_ok in Hcs as (H1 & H2 & H3 & H4).
  split; [done|]. split; [done|]. split; [done|]. intros E. destruct (H4 E) as [w Hw]. eauto.
Qed.

Lemma capabilities_narrow_witness : ∃ s, a_Security sample_app = Some s ∧ sec_Capabilities s = Some ["CHOWN"; "NET_RAW"] ∧
  NoDup ["CHOWN"; "NET_RAW"].
Proof.
  eexists. split; [vm_compute; reflexivity|]. split; [vm_compute; reflexivity|].
  refine (proj1 (proj2 (capabilities_narrow _ _ _ _ _ sample_accepted _ _))); [vm_compute; reflexivity|reflexivity].
Defined.

(** Every job of an accepted application has a name of its own that is a
    DNS label and not one of Shipwick's, a schedule the cron parser takes, a
    command a container can be given and a time limit between a second and a
    day; the hook has such a command and a limit of at most an hour. *)
Theorem jobs_valid N r a : validate N r = inr a →
  Forall job_ok (a_Jobs a) ∧ NoDup (j_Name <$> a_Jobs a) ∧ (Z.of_nat (List.length (a_Jobs a)) ≤ MaxJobs)%Z ∧
  (∀ h, a_PreDeploy a = Some h → hook_ok h).
Proof.
  intros H. apply validate_accepted in H. pose proof (validateJobs_ok _ _ _ (acc_jobs _ _ _ H)) as (H1 & H2 & H3 & H4 & _).
  done.
Qed.

Lemma jobs_valid_witness : validate (λ _, true) sample = inr sample_app ∧ NoDup (j_Name <$> a_Jobs sample_app).
Proof. split; [exact sample_accepted|exact (proj1 (proj2 (jobs_valid _ _ _ sample_accepted)))]. Defined.

(** The health check of an accepted application is exactly one of an HTTP
    path, a TCP port and a command, [Kind] names that one, the HTTP kind has a
    port to ask, and its timings are within their bounds. *)
Theorem health_exactly_one N r a h : validate N r = inr a → a_Health a = Some h → health_ok (a_Port a) h.
Proof.
  intros H Hh. apply validate_accepted in H. eapply validateHealth_ok; [apply (acc_port _ _ _ H)|].
  rewrite <- Hh. apply (acc_health _ _ _ H).
Qed.

Lemma health_exactly_one_witness : ∃ h, a_Health sample_app = Some h ∧ health_ok (a_Port sample_app) h.
Proof.
  eexists. split; [vm_compute; reflexivity|]. refine (health_exactly_one _ _ _ _ sample_accepted _). vm_compute. reflexivity.
Defined.

(** An accepted proxy block sets each response header once, whatever the
    case it is written in, none that belongs to the connection and none with
    an empty value or control characters; no user is listed twice for a path,
    and every password is either left to a secret or a valid one. *)
Theorem proxy_valid N r a p : validate N r = inr a → a_Proxy a = Some p →
  headers_ok (px_Headers p) ∧ Forall auth_ok (px_BasicAuth p) ∧ NoDup (account <$> px_BasicAuth p) ∧ a_Domain a ≠ "" ∧
  (px_StripPrefix p = true → a_Path a ≠ "").
Proof.
  intros H Hp. apply validate_accepted in H. pose proof (acc_proxy _ _ _ H) as Hc. rewrite Hp in Hc.
  unfold validateProxy in Hc. destruct (r_Proxy r) as [[problems value]|]; [|discriminate Hc].
  apply vbind_ok in Hc as (pr & _ & Hc). destruct pr as [pr|]; [|discriminate Hc]. cbv zeta in Hc.
  apply vbind_ok in Hc as ([] & H1 & Hc). apply vbind_ok in Hc as ([] & H2 & Hc).
  apply vbind_ok in Hc as (hs & H3 & Hc). apply vbind_ok in Hc as (auth & H4 & Hc). apply vbind_ok in Hc as (red & _ & Hc).
  apply validateProxyHeaders_ok in H3 as [-> H3]. apply validateBasicAuth_ok in H4 as [H4 H5].
  destruct (_ && _) in Hc; [discriminate Hc|]. inv_v. simpl. split; [done|]. split; [done|]. split; [done|]. split.
  - destruct (String.eqb_spec (a_Domain a) ""); [inv_v|done].
  - intros Hstrip. rewrite Hstrip in H2. destruct (String.eqb_spec (a_Path a) ""); [cbn in H2; inv_v|done].
Qed.

Lemma proxy_valid_witness : ∃ p, a_Proxy sample_app = Some p ∧ headers_ok (px_Headers p).
Proof.
  eexists. split; [vm_compute; reflexivity|]. refine (proj1 (proxy_valid _ _ _ _ sample_accepted _)). vm_compute. reflexivity.
Defined.

(** What a static application has none of. *)
Record no_container (a : App) : Prop := {
  nc_image : a_Image a = ""; nc_port : a_Port a = 0%Z; nc_replicas : a_Replicas a = DefaultReplicas;
  nc_env : a_Env a = ∅; nc_health : a_Health a = None;
  nc_resources : a_Resources a = mk_resources float_zero 0;
  nc_volumes : a_Volumes a = []; nc_publish : a_Publish a = [];
  nc_entrypoint : a_Entrypoint a = []; nc_command : a_Command a = []; nc_user : a_User a = "";
  nc_hook : a_PreDeploy a = None; nc_jobs : a_Jobs a = []; nc_logging : a_Logging a = None;
  nc_build : a_Build a = None; nc_backups : a_Backups a = None; nc_stop : a_StopTimeout a = 0%Z;
  nc_init : a_Init a = false; nc_security : a_Security a = None }.

Lemma nonempty_false s : nonempty s = false → s = "".
Proof. unfold nonempty. intros H. by apply negb_false_iff, String.eqb_eq in H. Qed.

Lemma validateArgv_empty field args e : validateArgv field args e = ([], default [] args) ∨ (validateArgv field args e).1 ≠ [].
Proof.
  unfold validateArgv. destruct args as [args|]; [|by left]. simpl.
  destruct (bool_decide_reflect (args = [])) as [->|]; [by right|]. destruct (more_than _ _); [by right|].
  destruct (vloop _ 0 args tt) as [es []] eqn:E. destruct es; [left; by simpl|right; by simpl].
Qed.

Lemma validateArgv_ok field args e out : validateArgv field args e = ([], out) → out = default [] args.
Proof. intros H. destruct (validateArgv_empty field args e) as [E|E]; rewrite H in E; [by injection E|done]. Qed.

(** A static application is files and nothing else: an accepted document
    with a static folder has a domain and none of the fields that describe a
    container; one without has an image or a build. *)
Theorem static_has_no_container N r a : validate N r = inr a →
  (∀ s, a_Static a = Some s → a_Domain a ≠ "" ∧ no_container a) ∧
  (a_Static a = None → a_Image a ≠ "" ∨ a_Build a ≠ None).
Proof.
  intros H. apply validate_accepted in H. split.
  - intros s Hs. pose proof (acc_static _ _ _ H) as Hc. rewrite Hs in Hc.
    apply validateStatic_ok in Hc as (His & Hd & Hf & _). split; [done|].
    unfold static_exclusive in Hf. rewrite !Forall_cons in Hf. simpl in Hf.
    destruct Hf as (Fi & Fb & Fp & Fr & Fe & Fh & Fres & Fv & Fpub & Fent & Fcmd & Fu & Flog & Fpre & Fj & _).
    apply nonempty_false in Fi, Fu. apply bool_decide_eq_false, eq_None_not_Some in Fp, Fh, Flog, Fpre.
    apply negb_false_iff, bool_decide_eq_true in Fe, Fv, Fpub, Fent, Fcmd, Fj.
    apply orb_false_iff in Fres as [Fc%nonempty_false Fm%nonempty_false].
    pose proof (acc_process _ _ _ H) as Hp. unfold validateProcess in Hp.
    apply vbind_ok in Hp as (en & Hen & Hp). apply vbind_ok in Hp as (cm & Hcm & Hp). cbv zeta in Hp.
    apply vbind_ok in Hp as ([] & _ & Hp). injection Hp as He1 Hc1 Hu1.
    apply validateArgv_ok in Hen, Hcm. rewrite Fent in Hen. rewrite Fcmd in Hcm.
    pose proof (validateJobs_ok _ _ _ (acc_jobs _ _ _ H)) as (_ & _ & _ & _ & Hjl).
    pose proof (validateVolumes_ok _ _ (acc_volumes _ _ _ H)) as [_ Hvl].
    pose proof (acc_resources _ _ _ H) as [Hcpu Hmem]. unfold validate_cpu in Hcpu. unfold validate_memory in Hmem.
    rewrite Fc in Hcpu. rewrite Fm in Hmem.
    split.
    + rewrite (proj2 (acc_image _ _ _ H)), Fi. done.
    + destruct (validate_port_ok _ _ (acc_port _ _ _ H)) as [[_ ?]|[E _]]; congruence.
    + pose proof (acc_replicas _ _ _ H) as Hr. unfold validate_replicas in Hr. destruct (r_Replicas r) as [n|]; [|by inv_v].
      apply vbind_ok in Hr as ([] & _ & Hr). inv_v. apply negb_false_iff in Fr. by apply Z.eqb_eq.
    + pose proof (acc_env _ _ _ H) as He. unfold validateEnv in He. apply vbind_ok in He as ([] & _ & He). by injection He as <-.
    + pose proof (acc_health _ _ _ H) as He. unfold validateHealth in He. rewrite Fh in He. by injection He as <-.
    + destruct (a_Resources a); simpl in *. injection Hcpu as <-. by injection Hmem as <-.
    + rewrite Fv in Hvl. by apply nil_length_inv.
    + pose proof (acc_publish _ _ _ H) as Hq. unfold validatePublish in Hq. rewrite bool_decide_eq_true_2 in Hq by done. by injection Hq.
    + congruence.
    + congruence.
    + rewrite <- Hu1, Fu. done.
    + pose proof (acc_jobs _ _ _ H) as Hj. unfold validateJobs, validateHook in Hj. rewrite Fpre in Hj.
      apply vbind_ok in Hj as (hk & Hk & Hj). injection Hk as <-. destruct (more_than _ _); [inv_v|].
      apply vbind_ok in Hj as (st & _ & Hj). by injection Hj as <- _.
    + rewrite Fj in Hjl. by apply nil_length_inv.
    + pose proof (acc_logging _ _ _ H) as He. unfold validateLogging in He. rewrite Flog in He. by injection He as <-.
    + pose proof (acc_build _ _ _ H) as He. unfold validateBuild in He. rewrite Fb in He. by injection He as <-.
    + pose proof (acc_backups _ _ _ H) as He. unfold validateBackups in He. cbv zeta in He.
      destruct (r_Backups r); [by injection He as <-|by inv_v| |].
      * apply vbind_ok in He as ([] & _ & He). by injection He as <-.
      * apply vbind_ok in He as (out & _ & He). rewrite His in He. apply vbind_ok in He as ([] & He & _). inv_v.
    + pose proof (acc_stop _ _ _ H) as He. unfold validate_stop_timeout in He. rewrite His in He.
      destruct (String.eqb (r_StopTimeout r) ""); [by injection He as <-|inv_v].
    + pose proof (acc_init _ _ _ H) as He. unfold validateInit in He. rewrite His in He.
      destruct (r_Init r); [inv_v|by injection He as <-].
    + pose proof (acc_security _ _ _ H) as He. unfold validateSecurity in He. rewrite His in He.
      destruct (r_Security r); [by injection He as <-|by inv_v| |inv_v].
      apply vbind_ok in He as ([] & _ & He). by injection He as <-.
  - intros Hs. pose proof (acc_static _ _ _ H) as Hc. rewrite Hs in Hc. unfold validateStatic in Hc.
    assert (is_static r = false) as His.
    { destruct (is_static r); [|done]. cbn [negb] in Hc. cbv zeta in Hc. repeat (apply vbind_ok in Hc as (? & _ & Hc)). discriminate Hc. }
    destruct (acc_image _ _ _ H) as [Hi _]. unfold validate_image in Hi. rewrite His in Hi.
    destruct (String.eqb_spec (a_Image a) ""); [|by left]. right.
    destruct (has_build r) eqn:Eb; cbn [negb andb] in Hi; [|inv_v]. pose proof (acc_build _ _ _ H) as He. unfold validateBuild in He.
    rewrite Eb in He. cbn [negb] in He. cbv zeta in He. repeat (apply vbind_ok in He as (? & _ & He)). injection He as <-. done.
Qed.

Definition static_sample : raw :=
  mk_raw "site" "" None "site.example.com" [] [] None ∅ None "" "" [] [] None None "" None [] None
    (mk_buildRaw "" "") (mk_staticRaw "dist/" "index.html") "" None Absent "" "" "" None Absent.

Lemma static_has_no_container_witness : ∃ a, validate (λ _, true) static_sample = inr a ∧
  a_Static a = Some (mk_static "dist" "index.html") ∧ no_container a.
Proof.
  assert (validate (λ _, true) static_sample = inr (validate_app (λ _, true) static_sample).2) as H by (vm_compute; reflexivity).
  eexists. split; [exact H|]. assert (a_Static (validate_app (λ _, true) static_sample).2 = Some (mk_static "dist" "index.html")) as Hs
    by (vm_compute; reflexivity).
  split; [exact Hs|]. exact (proj2 (proj1 (static_has_no_container _ _ _ H) _ Hs)).
Defined.

(** The scalar fields of an accepted application. *)
(** A CPU limit: none, or from the float64 nearest to 0.01 up to 512 cores. *)
Definition cpu_ok (c : float) : Prop :=
  c = float_zero ∨ (float_num min_cpu * float_den c ≤ float_num c * float_den min_cpu)%Z ∧ (float_num c ≤ 512 * float_den c)%Z.
Lemma ParseCPU_range s c : ParseCPU s = Ok c → cpu_ok c.
Proof.
  unfold ParseCPU. destruct (ParseFloat _) as [[neg n]|]; [|done]. destruct (_ || _) eqn:E; [done|]. intros [= <-]. right. bools.
  unfold float_ltb in *. repeat match goal with H : (_ <? _)%Z = false |- _ => apply Z.ltb_ge in H end. split; [done|].
  match goal with H : (_ ≤ float_num (float_of_Z MaxCPU) * _)%Z |- _ => rename H into Hm end.
  change (float_num (float_of_Z MaxCPU)) with (2 ^ 52)%Z in Hm. change (float_den (float_of_Z MaxCPU)) with (2 ^ 43)%Z in Hm. lia.
Qed.

Record scalars_ok (N : string → bool) (a : App) : Prop := {
  name_label : namePattern (a_Name a) = true;
  name_free : a_Name a ∉ ReservedNames;
  replicas_range : (1 ≤ a_Replicas a ≤ MaxReplicas)%Z;
  port_range : a_Port a = 0%Z ∨ port_ok (a_Port a) = true;
  port_served : a_Domain a ≠ "" → a_Static a = None → a_Port a ≠ 0%Z;
  restart_known : a_Restart a ∈ [RestartAlways; RestartOnFailure; RestartNever];
  strategy_known : a_Strategy a ∈ [StrategyRolling; StrategyRecreate];
  stop_range : a_StopTimeout a = 0%Z ∨ (MinStopTimeout ≤ a_StopTimeout a ≤ MaxStopTimeout)%Z;
  memory_range : res_MemoryBytes (a_Resources a) = 0%Z ∨ (MinMemoryBytes ≤ res_MemoryBytes (a_Resources a) ≤ 2 ^ 62)%Z;
  cpu_range : cpu_ok (res_CPU (a_Resources a));
  domain_form : a_Domain a = "" ∨ ValidateHostname (a_Domain a) = Ok tt;
  image_form : a_Image a = "" ∨ ValidateImage N (a_Image a) = Ok tt;
  user_form : a_User a = "" ∨ userPattern (a_User a) = true;
  env_names : ∀ k, is_Some (a_Env a !! k) → envKeyPattern k = true;
  own_image : IsLocalImage (a_Image a) = true → has_prefix (LocalImagePrefix (a_Name a)) (a_Image a) = true }.

(** C37: the scalar fields of an accepted application are within their bounds:
    a name that is a DNS label and not one of Shipwick's, one to fifty
    replicas, a port where there is a domain to serve, a domain that is a
    hostname, a user the pattern takes, known policies, a stop timeout, a memory
    limit and a CPU limit in range, environment names a shell would take, and an
    image reference, none that was built for another application. *)
Theorem scalars_valid N r a : validate N r = inr a → scalars_ok N a.
Proof.
  intros H. apply validate_accepted in H.
  destruct (acc_name _ _ _ H) as [Hn Ha]. unfold validate_name in Hn. rewrite <- Ha in Hn.
  destruct (String.eqb (a_Name a) ""); [inv_v|]. destruct (namePattern (a_Name a)) eqn:En; cbn [negb] in Hn; [|inv_v].
  destruct (contains ReservedNames (a_Name a)) eqn:Er; [inv_v|]. apply not_contains in Er.
  split; [done|done|..].
  - pose proof (acc_replicas _ _ _ H) as Hr. unfold validate_replicas in Hr.
    destruct (r_Replicas r) as [n|]; [|injection Hr as <-; vm_compute; split; discriminate].
    apply vbind_ok in Hr as ([] & Hc & Hr). inv_v. destruct (_ || _) eqn:E; [inv_v|]. bools. lia.
  - destruct (validate_port_ok _ _ (acc_port _ _ _ H)) as [[_ ?]|[_ ?]]; auto.
  - intros Hd Hs Hp. destruct (acc_domain _ _ _ H) as [Hdom _]. unfold validate_domain in Hdom.
    destruct (String.eqb_spec (a_Domain a) ""); [done|]. apply vbind_ok in Hdom as ([] & _ & Hdom).
    destruct (validate_port_ok _ _ (acc_port _ _ _ H)) as [[E _]|[_ E]]; [|by rewrite Hp in E].
    rewrite bool_decide_eq_true_2 in Hdom by done. destruct (is_static r) eqn:Es; cbn [negb andb] in Hdom; [|inv_v].
    pose proof (acc_static _ _ _ H) as Hc. rewrite Hs in Hc. unfold validateStatic in Hc. rewrite Es in Hc. cbn [negb] in Hc.
    cbv zeta in Hc. repeat (apply vbind_ok in Hc as (? & _ & Hc)). discriminate Hc.
  - pose proof (acc_restart _ _ _ H) as Hr. unfold validate_restart in Hr.
    destruct (String.eqb _ ""); [injection Hr as <-; left|].
    destruct (contains [RestartAlways; RestartOnFailure; RestartNever] _) eqn:E; [|inv_v]. injection Hr as <-. by apply contains_spec.
  - pose proof (acc_strategy _ _ _ H) as Hr. unfold validate_strategy in Hr.
    destruct (String.eqb _ ""); [injection Hr as <-; left|].
    destruct (contains [StrategyRolling; StrategyRecreate] _) eqn:E; [|inv_v]. injection Hr as <-. by apply contains_spec.
  - pose proof (acc_stop _ _ _ H) as Hr. unfold validate_stop_timeout in Hr. destruct (String.eqb _ ""); [injection Hr as <-; by left|].
    destruct (is_static r); [inv_v|]. destruct (parseDuration _ _ _) eqn:E; [|inv_v]. injection Hr as <-. right.
    by eapply parseDuration_range.
  - destruct (acc_resources _ _ _ H) as [_ Hm]. unfold validate_memory in Hm. destruct (String.eqb _ ""); [injection Hm as <-; by left|].
    destruct (ParseMemory _) as [n|] eqn:E; [|inv_v]. injection Hm as <-. right. unfold ParseMemory in E. inv_ok.
    apply parseSize_range in Ha0 as [_ ?]. destruct (_ <? _)%Z eqn:E2; [done|]. injection E as <-. lia.
  - destruct (acc_resources _ _ _ H) as [Hc _]. unfold validate_cpu in Hc. destruct (String.eqb _ ""); [injection Hc as <-; by left|].
    destruct (ParseCPU _) as [c|] eqn:E; [|inv_v]. injection Hc as <-. by eapply ParseCPU_range.
  - destruct (acc_domain _ _ _ H) as [Hd _]. unfold validate_domain in Hd. destruct (String.eqb_spec (a_Domain a) ""); [by left|]. right.
    apply vbind_ok in Hd as ([] & Hd & _). unfold report in Hd. by destruct (ValidateHostname _) as [[]|]; [|inv_v].
  - destruct (acc_image _ _ _ H) as [Hi _]. unfold validate_image in Hi. destruct (String.eqb_spec (a_Image a) ""); [by left|]. right.
    by destruct (ValidateImage N (a_Image a)) as [[]|]; [|inv_v].
  - pose proof (acc_process _ _ _ H) as Hp. unfold validateProcess in Hp. apply vbind_ok in Hp as (? & _ & Hp). apply vbind_ok in Hp as (? & _ & Hp). cbv zeta in Hp.
    apply vbind_ok in Hp as ([] & Hu & Hp). injection Hp as _ _ <-. unfold nonempty in Hu. destruct (String.eqb_spec (trim_space (r_User r)) ""); [by left|].
    destruct (userPattern _); [by right|]. cbn in Hu. inv_v.
  - pose proof (acc_env _ _ _ H) as He. unfold validateEnv in He. apply vbind_ok in He as ([] & He & Hr). injection Hr as <-.
    intros k Hk. apply elem_of_sorted_keys, list_elem_of_lookup in Hk as [j Hj].
    destruct (vloop_each _ _ _ _ _ _ _ Hj He) as (t & t' & Hx). cbv beta in Hx.
    by destruct (envKeyPattern k); cbn [negb] in Hx; [|inv_v].
  - destruct (acc_image _ _ _ H) as [Hi _]. unfold validate_image in Hi. rewrite <- Ha in Hi.
    destruct (String.eqb_spec (a_Image a) "") as [->|]; [done|]. destruct (ValidateImage N (a_Image a)); [|inv_v].
    unfold ValidateLocalImage in Hi. destruct (IsLocalImage (a_Image a)); [|done]. cbn [negb orb] in Hi.
    destruct (has_prefix _ _); [done|]. rewrite En in Hi. inv_v.
Qed.

Lemma scalars_valid_witness : validate (λ _, true) sample = inr sample_app ∧ scalars_ok (λ _, true) sample_app.
Proof. split; [exact sample_accepted|exact (scalars_valid _ _ _ sample_accepted)]. Defined.
