(* ===== verification/SpecPaths.v ===== *)
(** * Paths

    [path.Clean] and the two judgements that rest on it (pkg/spec): a mount
    path inside a container (validMountPath, parse.go) and a path on the
    developer's machine (validateBuildPath, build.go; cleanStaticDir,
    static.go).  What they accept is described without [Clean]: by the
    segments of the path. *)

From S2P Require Import Prelude GoStrings GoURL SpecTypes SpecNames.
From Stdlib Require Import Ascii String.
Local Open Scope string_scope.

Definition slash_free (e : string) : bool := negb (contains_char "/" e).

(** A segment that names something: not empty, not [.], not [..]. *)
Definition segment (e : string) : Prop := e ≠ "" ∧ e ≠ "." ∧ e ≠ ".." ∧ slash_free e = true.

#[export] Instance segment_dec e : Decision (segment e) :=
  decide (e ≠ "" ∧ e ≠ "." ∧ e ≠ ".." ∧ slash_free e = true).

(** ** Splitting and joining *)

Lemma slash_free_cons c e : slash_free (String c e) = true ↔ c ≠ "/"%char ∧ slash_free e = true.
Proof.
  unfold slash_free, contains_char, contains_any. cbn [str_exists]. rewrite negb_orb, andb_true_iff, negb_true_iff.
  unfold contains. rewrite bool_decide_eq_false, list_elem_of_singleton. tauto.
Qed.

Lemma split_slash_free s : Forall (λ e, slash_free e = true) (split "/" s).
Proof.
  induction s as [|c s IH]; simpl; [by repeat constructor|].
  pose proof (split_not_nil "/" s). destruct (split "/" s) as [|h t]; [done|].
  inversion_clear IH as [|? ? Hh Ht]. destruct (Ascii.eqb_spec c "/"); constructor; try done; [by constructor|].
  by apply slash_free_cons.
Qed.

Lemma split_slash_free_word e : slash_free e = true → split "/" e = [e].
Proof.
  induction e as [|c e IH]; [done|]. intros [Hc He]%slash_free_cons. simpl. rewrite IH by done.
  by destruct (Ascii.eqb_spec c "/").
Qed.

Lemma split_app_sep e r : slash_free e = true → split "/" (e ++ String "/" r) = e :: split "/" r.
Proof.
  intros He. induction e as [|c e IH]; simpl.
  - pose proof (split_not_nil "/" r). by destruct (split "/" r).
  - apply slash_free_cons in He as [Hc He]. rewrite (IH He). by destruct (Ascii.eqb_spec c "/").
Qed.

Lemma split_join_segments l : l ≠ [] → Forall (λ e, slash_free e = true) l → split "/" (join "/" l) = l.
Proof.
  induction l as [|e l IH]; [done|]. intros _ [He Hl]%Forall_cons. destruct l as [|e' l].
  - by apply split_slash_free_word.
  - change (join "/" (e :: e' :: l)) with (e ++ String "/" (join "/" (e' :: l))). rewrite split_app_sep, IH; done.
Qed.

(** ** What Clean keeps *)

(** Segments, after the [..] that climb out of a relative path. *)
Definition kept (rooted : bool) (out : list string) : Prop :=
  ∃ segs n, out = (segs ++ replicate n "..")%list ∧ Forall segment segs ∧ (rooted = true → n = 0%nat).

Lemma clean_step_kept rooted out e : slash_free e = true → kept rooted out → kept rooted (clean_step rooted out e).
Proof.
  intros He (segs & n & -> & Hs & Hn). unfold clean_step.
  destruct (String.eqb_spec e ""); [by exists segs, n|]. destruct (String.eqb_spec e "."); [by exists segs, n|]. simpl.
  destruct (String.eqb_spec e ".."); [|exists (e :: segs), n; split; [done|]; split; [by constructor|done]].
  destruct segs as [|s segs]; simpl.
  - destruct n as [|n]; simpl; [destruct rooted; [by exists [], 0%nat|by exists [], 1%nat]|].
    destruct rooted; [by specialize (Hn eq_refl)|]. by exists [], (S (S n)).
  - apply Forall_cons in Hs as [Hs1 Hs2]. destruct (String.eqb_spec s ".."); [destruct Hs1 as (_ & _ & ? & _); done|].
    by exists segs, n.
Qed.

Lemma path_elements_kept p : ∃ segs n, path_elements p = (replicate n ".." ++ segs)%list ∧ Forall segment segs ∧
  (has_prefix "/" p = true → n = 0%nat).
Proof.
  unfold path_elements. generalize (has_prefix "/" p) as rooted. intros rooted.
  assert (kept rooted (foldl (clean_step rooted) [] (split "/" p))) as (segs & n & -> & Hs & Hn).
  { assert (kept rooted []) as H0 by by exists [], 0%nat.
    pose proof (split_slash_free p) as Hl. revert H0 Hl. generalize (split "/" p), (@nil string) as out.
    intros l. induction l as [|e l IH]; intros out H0 Hl; simpl; [done|]. apply Forall_cons in Hl as [He Hl].
    apply IH; [by apply clean_step_kept|done]. }
  exists (reverse segs), n. rewrite reverse_app, reverse_replicate. split; [done|]. split; [by apply Forall_reverse|done].
Qed.

Lemma segment_slash_free l : Forall segment l → Forall (λ e, slash_free e = true) l.
Proof. intros H. eapply Forall_impl; [exact H|]. by intros ? (_ & _ & _ & ?). Qed.

(** Segments are kept as they are. *)
Lemma clean_step_segments rooted l out : Forall segment l → foldl (clean_step rooted) out l = (reverse l ++ out)%list.
Proof.
  revert out. induction l as [|e l IH]; intros out H; [done|]. apply Forall_cons in H as [(H1 & H2 & H3 & _) H].
  simpl. rewrite IH by done. rewrite reverse_cons, <- app_assoc. f_equal. unfold clean_step.
  destruct (String.eqb_spec e ""); [done|]. destruct (String.eqb_spec e "."); [done|]. by destruct (String.eqb_spec e "..").
Qed.

Lemma join_nonempty e l : e ≠ "" → join "/" (e :: l) ≠ "".
Proof. intros He. destruct l; simpl; [done|]. by destruct e. Qed.

Lemma has_prefix_segment e r : segment e → has_prefix "/" (e ++ r) = false.
Proof.
  intros (He & _ & _ & Hs). destruct e as [|c e]; [done|]. apply slash_free_cons in Hs as [Hc _].
  cbn [has_prefix String.append]. destruct (Ascii.eqb_spec "/" c); [congruence|done].
Qed.

(** A path of segments is clean. *)
Lemma Clean_segments l : l ≠ [] → Forall segment l → Clean (join "/" l) = join "/" l ∧ has_prefix "/" (join "/" l) = false.
Proof.
  intros Hne Hl. assert (has_prefix "/" (join "/" l) = false) as Hp.
  { destruct l as [|e [|e' l]]; [done|..]; apply Forall_cons in Hl as [He _].
    - simpl. rewrite <- (append_nil_r e). by apply has_prefix_segment.
    - simpl. by apply has_prefix_segment. }
  split; [|done]. unfold Clean, path_elements. rewrite Hp, split_join_segments, clean_step_segments, app_nil_r, reverse_involutive;
    try done; [|by apply segment_slash_free].
  destruct l as [|e l]; [done|]. apply Forall_cons in Hl as [(He & _) _].
  destruct (String.eqb_spec (join "/" (e :: l)) ""); [|done]. by apply join_nonempty in e0.
Qed.

Lemma Clean_rooted_segments l : Forall segment l → Clean (String "/" (join "/" l)) = String "/" (join "/" l).
Proof.
  intros Hl. unfold Clean, path_elements. cbn [has_prefix Ascii.eqb Bool.eqb andb].
  assert (split "/" (String "/" (join "/" l)) = "" :: split "/" (join "/" l)) as ->.
  { simpl. pose proof (split_not_nil "/" (join "/" l)). by destruct (split "/" (join "/" l)). }
  destruct l as [|e l]; [done|]. rewrite split_join_segments; [|done|by apply segment_slash_free].
  change (foldl (clean_step true) [] ("" :: e :: l)) with (foldl (clean_step true) [] (e :: l)).
  rewrite clean_step_segments, app_nil_r, reverse_involutive by done. done.
Qed.

(** ** Mount paths *)

(** A mount path is accepted exactly when it is a slash followed by one or
    more named segments joined by slashes, with no line break or NUL byte:
    nothing is mounted at the root, through [..], or under two spellings. *)
Theorem validMountPath_spec p :
  validMountPath p = true ↔
  ∃ l, l ≠ [] ∧ Forall segment l ∧ p = "/" ++ join "/" l ∧ contains_any nul_or_newline p = false.
Proof.
  unfold validMountPath. rewrite !andb_true_iff, !negb_true_iff, String.eqb_eq, String.eqb_neq. split.
  - intros [[[Hp Hc] Hcl] Hr]. destruct (path_elements_kept p) as (segs & n & He & Hs & Hn). rewrite (Hn Hp) in He.
    simpl in He. exists segs. unfold Clean in Hcl. rewrite Hp, He in Hcl. simpl in Hcl.
    split; [intros ->; done|]. done.
  - intros (l & Hne & Hl & -> & Hc). simpl in *. split; [split; [split; [done|done]|by apply Clean_rooted_segments]|].
    intros [= E]. destruct l as [|e l]; [done|]. apply Forall_cons in Hl as [(He & _) _]. by apply join_nonempty in E.
Qed.

(** ** Paths of the project *)

Lemma climbs n segs : has_prefix "../" (join "/" (replicate (S n) ".." ++ segs)%list) = true ∨
  join "/" (replicate (S n) ".." ++ segs)%list = "..".
Proof. destruct n, segs; simpl; auto. Qed.

Lemma stays_inside p c : has_prefix "/" p = false → Clean p = c → String.eqb c ".." = false → has_prefix "../" c = false →
  c = "." ∨ ∃ l, l ≠ [] ∧ Forall segment l ∧ c = join "/" l.
Proof.
  intros Hp <- H1 H2. apply String.eqb_neq in H1. destruct (path_elements_kept p) as (segs & n & He & Hs & _).
  unfold Clean in *. rewrite Hp, He in *. destruct n as [|n].
  - simpl in *. destruct (String.eqb_spec (join "/" segs) ""); [by left|]. right. exists segs.
    split; [by intros ->|done].
  - destruct (climbs n segs) as [Hc|Hc]; destruct (String.eqb_spec (join "/" (replicate (S n) ".." ++ segs)%list) "");
      try congruence; rewrite e in Hc; done.
Qed.

(** What the build context, the Dockerfile and the static folder are
    cleaned to stays in the project: it is the directory itself or a relative
    path of named segments only, so no [..] is left in it and cleaning it
    again changes nothing. *)
Theorem project_paths_inside p c :
  (∃ relativeTo inside, validateBuildPath p relativeTo inside = Ok c) ∨ cleanStaticDir p = Ok c →
  (c = "." ∨ ∃ l, l ≠ [] ∧ Forall segment l ∧ c = join "/" l) ∧ Clean c = c ∧ has_prefix "/" c = false.
Proof.
  intros H. assert (c = "." ∨ ∃ l, l ≠ [] ∧ Forall segment l ∧ c = join "/" l) as Hc.
  { destruct H as [(rel & ins & H)|H]; [unfold validateBuildPath in H|unfold cleanStaticDir in H]; cbv zeta in H.
    - destruct (contains_any _ p); [done|]. destruct (_ || _ || _) eqn:E; [done|].
      destruct (_ || _) eqn:E2 in H; [done|]. injection H as <-. bools. eapply stays_inside; [|reflexivity|eassumption..]; eassumption.
    - destruct (String.eqb _ ""); [done|]. destruct (contains_any _ _); [done|]. destruct (_ || _) eqn:E in H; [done|].
      destruct (_ || _) eqn:E2 in H; [done|]. injection H as <-. bools. eapply stays_inside; [|reflexivity|eassumption..]; eassumption. }
  split; [done|]. destruct Hc as [->|(l & Hne & Hl & ->)]; [done|]. by apply Clean_segments.
Qed.

Lemma project_paths_inside_witness : validateBuildPath "./api//src/../" "deploy.yaml" "it" = Ok "api" ∧ Clean "api" = "api".
Proof.
  assert (validateBuildPath "./api//src/../" "deploy.yaml" "it" = Ok "api") as H by (vm_compute; reflexivity).
  split; [exact H|]. exact (proj1 (proj2 (project_paths_inside _ _ (or_introl (ex_intro _ _ (ex_intro _ _ H)))))).
Defined.
