(* ===== verification/SpecMulti.v ===== *)
(** * Several applications in one file (pkg/spec/multi.go)

    A shipwick.yaml is a list of deploy.yaml documents and the order they wait
    for each other in.  The YAML library is a parameter: a document is the
    tree of nodes it parses to.  [validateAfter] is proved to accept exactly
    the files whose applications can be put in an order in which each comes
    after the ones it waits for. *)

From S2P Require Import Prelude GoStrings SpecTypes SpecValidate.
From Stdlib Require Import Ascii String.
Local Open Scope string_scope.

Definition MultiFile := "shipwick.yaml".
Definition MaxApps : Z := 50.

(** A YAML node, aliases and documents apart. *)
Inductive node :=
  | Scalar (value : string)
  | Sequence (content : list node)
  | Mapping (content : list (node * node))
  | OtherNode.

(** node.Value: empty for anything but a scalar. *)
Definition Value (n : node) : string := match n with Scalar v => v | _ => "" end.

Record Entry := mk_entry { e_App : option App; e_After : list string; e_Config : string }.

(** afterNames *)
Fixpoint scalar_names (l : list node) : option (list string) :=
  match l with
  | [] => Some []
  | n :: r => match n with
              | Scalar v => if String.eqb v "" then None else (v ::.) <$> scalar_names r
              | _ => None
              end
  end.
Definition afterNames (field : string) (n : node) : V (list string) :=
  let complain := let+ _ := vadd field [L "must be a list of application names from this file"] [L "after: [postgres]"] in vret [] in
  match n with
  | Sequence l => match scalar_names l with Some names => vret names | None => complain end
  | _ => complain
  end.

(** ** The dependency graph *)

Section After.
Context (names : list string) (after : list (list string)).

(** index: the first entry of each name; a name used again is reported. *)
Definition index_entry (i : nat) (name : string) (index : gmap string nat) : V (gmap string nat) :=
  if String.eqb name "" then vret index
  else match index !! name with
       | Some first =>
           let+ _ := vadd (at_index "apps" i ++ ".name")
                       [Q name; L " is also the name of "; S' (at_index "apps" first); L "; names must be unique within the file"] [] in
           vret index
       | None => vret (<[name := i]> index)
       end.
Definition name_index : V (gmap string nat) := vloop index_entry 0 names ∅.

(** One reference of entry [i]; the answer is whether the graph is complete. *)
Definition check_ref (index : gmap string nat) (i : nat) (dep : string) (complete : bool) : V bool :=
  let field := at_index "apps" i ++ ".after" in
  if String.eqb dep (default "" (names !! i)) then
    let+ _ := vadd field [S' dep; L " cannot wait for itself"] [] in vret false
  else match index !! dep with
       | None => let+ _ := vadd field [Q dep; L " is not an application in this file"] [] in vret false
       | Some j => vret (if Nat.eqb j i then false else complete)
       end.
Definition check_refs (index : gmap string nat) (i : nat) (deps : list string) (complete : bool) : V bool :=
  vloop (λ _, check_ref index i) 0 deps complete.

(** ** Depth-first search: a back edge is a cycle *)

Inductive color := Unseen | Visiting | Finished.
#[export] Instance color_eq_dec : EqDecision color.
Proof. solve_decision. Defined.
Inductive outcome := Cycle (at_ : nat) (names : list string) | Done (state : list color).

Definition color_of (state : list color) (j : nat) : color := default Unseen (state !! j).
Definition deps_of (i : nat) : list string := default [] (after !! i).

(** The names on the way from the first [dep] of the path, and [dep] again. *)
Fixpoint from_name (dep : string) (path : list string) : list string :=
  match path with [] => [] | n :: r => if String.eqb n dep then path else from_name dep r end.

(** The dependencies of entry [i] in turn, those not seen through [recur]. *)
Fixpoint visit_deps (index : gmap string nat) (recur : nat → list color → option outcome)
    (i : nat) (path : list string) (deps : list string) (state : list color) : option outcome :=
  match deps with
  | [] => Some (Done (<[i := Finished]> state))
  | dep :: r =>
      let j := default 0%nat (index !! dep) in
      match color_of state j with
      | Visiting => Some (Cycle i (from_name dep path ++ [dep])%list)
      | Unseen =>
          match recur j state with
          | Some (Done state') => visit_deps index recur i path r state'
          | o => o
          end
      | Finished => visit_deps index recur i path r state
      end
  end.

Fixpoint visit (index : gmap string nat) (fuel : nat) (path : list string) (i : nat) (state : list color) : option outcome :=
  match fuel with
  | O => None
  | S fuel =>
      let path := (path ++ [default "" (names !! i)])%list in
      visit_deps index (visit index fuel path) i path (deps_of i) (<[i := Visiting]> state)
  end.

(** Every entry that has not been seen is a root. *)
Fixpoint visit_all (index : gmap string nat) (fuel : nat) (roots : list nat) (state : list color) : option outcome :=
  match roots with
  | [] => Some (Done state)
  | i :: r =>
      match color_of state i with
      | Unseen => match visit index fuel [] i state with
                  | Some (Done state') => visit_all index fuel r state'
                  | o => o
                  end
      | _ => visit_all index fuel r state
      end
  end.

Definition cycle_check (index : gmap string nat) : V unit :=
  match visit_all index (List.length after) (seq 0 (List.length after)) (replicate (List.length after) Unseen) with
  | Some (Cycle i cycle) =>
      vadd (at_index "apps" i ++ ".after") [S' (join " → " cycle); L ": an application cannot wait for itself"] []
  | _ => vok
  end.

Definition validateAfter : V unit :=
  let+ index := name_index in
  let+ complete := vloop (λ i deps complete, check_refs index i deps complete) 0 after true in
  if negb complete || negb (Nat.eqb (size index) (List.length names)) then vok
  else cycle_check index.
End After.

(** ** The file *)

Section Many.
(** yaml.Marshal of an entry without its [after], and Parse of a document. *)
Context (Marshal : list (node * node) → result string) (ParseApp : string → list FieldError + App).

(** One field error of an entry under the entry's own name. *)
Definition under_entry (field : string) (f : FieldError) : FieldError :=
  if String.eqb (Field f) "deploy.yaml" || has_prefix "line " (Field f)
  then mk_fieldError field (Message f) (Expected f)
  else mk_fieldError (field ++ "." ++ Field f) (Message f) (Expected f).

Definition parseEntry (i : nat) (n : node) : V (string * Entry) :=
  let field := at_index "apps" i in
  match n with
  | Mapping content =>
      let+ (name, after, rest) :=
        vloop (λ _ (kv : node * node) st,
          let '(name, after, rest) := st in
          if String.eqb (Value kv.1) "after" then
            let+ a := afterNames (field ++ ".after") kv.2 in vret (name, a, rest)
          else vret (if String.eqb (Value kv.1) "name" then Value kv.2 else name, after, (rest ++ [kv])%list))
          0 content ("", [], []) in
      match Marshal rest with
      | Err e => let+ _ := vadd field e [] in vret (name, mk_entry None after "")
      | Ok config =>
          match ParseApp config with
          | inr app => vret (name, mk_entry (Some app) after config)
          | inl problems => (under_entry field <$> problems, (name, mk_entry None after config))
          end
      end
  | _ => let+ _ := vadd field [L "expected an application: a mapping with name, image, ..."] [] in
         vret ("", mk_entry None [] "")
  end.

(** ParseMany of the root of a document, or of the decoder's error. *)
Definition ParseMany (root : result node) : list FieldError + list Entry :=
  match root with
  | Err e => inl [mk_fieldError MultiFile e []]
  | Ok (Mapping content) =>
      let '(problems, apps) :=
        vloop (λ _ (kv : node * node) apps,
          if String.eqb (Value kv.1) "apps" then vret (Some kv.2)
          else let+ _ := vadd (Value kv.1) [L "cannot be set at the top of "; S' MultiFile; L "; move it into an entry under apps"] [] in
               vret apps) 0 content None in
      let one_entry := [L "one entry per application, each with name and image"] in
      let problems := (problems ++
        match apps with
        | None => [mk_fieldError "apps" [L "is required"] one_entry]
        | Some (Sequence []) => [mk_fieldError "apps" [L "must be a list of applications"] one_entry]
        | Some (Sequence l) =>
            if more_than l MaxApps
            then [mk_fieldError "apps" [L "lists "; D (Z.of_nat (List.length l)); L " applications (max "; D MaxApps; L ")"] []] else []
        | Some _ => [mk_fieldError "apps" [L "must be a list of applications"] one_entry]
        end)%list in
      match apps with
      | Some (Sequence l) =>
          if negb (bool_decide (problems = [])) then inl problems else
          let '(e1, parsed) := vloop (λ i n out, let+ p := parseEntry i n in vret (out ++ [p])%list) 0 l [] in
          let '(e2, _) := validateAfter parsed.*1 (e_After <$> parsed.*2) in
          if bool_decide ((e1 ++ e2)%list = []) then inr parsed.*2 else inl (e1 ++ e2)%list
      | _ => inl problems
      end
  | _ => inl [mk_fieldError MultiFile [L "expected a mapping with an apps list"] [L "apps:
    - name: api
      image: ..."]]
  end.
End Many.

Example after_cycle :
  validateAfter ["a"; "b"; "c"] [["b"]; ["c"]; ["b"]]
  = ([mk_fieldError "apps[2].after" [S' "b → c → b"; L ": an application cannot wait for itself"] []], tt).
Proof. reflexivity. Qed.

(** ** Orders *)

Section Orders.
Context (names : list string) (after : list (list string)).
Hypothesis Hlen : List.length after = List.length names.

(** What the entry called [name] waits for. *)
Definition waits_for (name dep : string) : Prop :=
  ∃ i deps, names !! i = Some name ∧ after !! i = Some deps ∧ dep ∈ deps.

(** The names in an order in which each comes after what it waits for. *)
Definition deployable (order : list string) : Prop :=
  order ≡ₚ names ∧
  ∀ k name, order !! k = Some name → ∀ dep, waits_for name dep → dep ∈ take k order.

(** What [name_index] of distinct names answers. *)
Definition indexes (index : gmap string nat) : Prop := ∀ name i, index !! name = Some i ↔ names !! i = Some name.

Lemma name_index_ok index : Forall (λ n, n ≠ "") names → name_index names = ([], index) → NoDup names ∧ indexes index.
Proof.
  intros Hne H. unfold name_index in H.
  set (I := λ (d : list string) (index : gmap string nat),
    Forall (λ n, n ≠ "") d → NoDup d ∧ ∀ name i, index !! name = Some i ↔ d !! i = Some name).
  apply (vloop_prefix _ I _) with (d := []) in H; [by apply H| |].
  - clear. intros d x s s' Hd H [Hne [Hx _]%Forall_cons]%Forall_app. destruct (Hd Hne) as [Hnd Hix].
    unfold index_entry in H. destruct (String.eqb_spec x ""); [done|]. destruct (s !! x) as [first|] eqn:E; [inv_v|]. inv_v.
    assert (x ∉ d) as Hfresh. { intros [j Hj]%list_elem_of_lookup. apply Hix in Hj. by rewrite Hj in E. }
    split; [apply NoDup_app; split; [done|]; split; [|apply NoDup_singleton]|].
    { intros y Hy Hy'. apply list_elem_of_singleton in Hy' as ->. done. }
    intros name i. destruct (decide (name = x)) as [->|Hn].
    + rewrite lookup_insert_eq. split; [intros [= <-]; by rewrite list_lookup_middle|].
      intros Hi. apply lookup_snoc_Some in Hi as [[Hi Hl]|[-> _]]; [|done].
      destruct Hfresh. by eapply list_elem_of_lookup_2.
    + rewrite lookup_insert_ne by done. rewrite Hix. split; [by apply lookup_app_l_Some|].
      intros Hi. apply lookup_snoc_Some in Hi as [[_ Hl]|[_ Hl]]; done.
  - intros _. split; [apply NoDup_nil_2|]. intros name i. rewrite lookup_empty, lookup_nil. done.
Qed.

(** Distinct names are indexed without complaint. *)
Lemma name_index_distinct : NoDup names → ∃ index, name_index names = ([], index).
Proof.
  intros Hnd. unfold name_index.
  assert (∀ l d (index : gmap string nat), NoDup (d ++ l)%list → (∀ n, is_Some (index !! n) → n ∈ d) →
    ∃ index', vloop index_entry (List.length d) l index = ([], index')) as Hgo.
  { clear. induction l as [|x l IH]; intros d index Hnd Hd; [by eexists|]. cbn [vloop].
    assert (x ∉ d) as Hx. { apply NoDup_app in Hnd as (_ & H & _). intros Hx. eapply H; [done|left]. }
    assert (NoDup ((d ++ [x]) ++ l)%list) as Hnd' by by rewrite <- app_assoc.
    assert (index !! x = None) as Hnone. { apply eq_None_not_Some. intros Hs. by apply Hx, Hd. }
    assert (∃ index1, index_entry (List.length d) x index = ([], index1) ∧ ∀ n, is_Some (index1 !! n) → n ∈ (d ++ [x])%list)
      as (index1 & -> & Hd1).
    { unfold index_entry. rewrite Hnone. setoid_rewrite elem_of_app.
      destruct (String.eqb x ""); eexists; (split; [done|]); [auto|]. intros n Hn.
      destruct (decide (n = x)) as [->|]; [right; by left|]. rewrite lookup_insert_ne in Hn by done. auto. }
    replace (S (List.length d)) with (List.length (d ++ [x])%list) by (rewrite length_app; simpl; lia).
    destruct (IH (d ++ [x])%list index1 Hnd' Hd1) as [ix E]. exists ix. unfold vbind. by rewrite E. }
  apply (Hgo names [] ∅ Hnd). intros n [v Hv]. by rewrite lookup_empty in Hv.
Qed.

(** ** The search *)

Section Search.
Context (index : gmap string nat).

Definition target (dep : string) : nat := default 0%nat (index !! dep).
Definition edge (i j : nat) : Prop := ∃ dep, dep ∈ deps_of after i ∧ target dep = j.

Abbreviation vdeps := (visit_deps index).
Abbreviation vis := (visit names after index).

Definition color_le (s s' : list color) : Prop :=
  List.length s' = List.length s ∧
  (∀ j, color_of s' j = Unseen → color_of s j = Unseen) ∧
  (∀ j, color_of s' j = Visiting ↔ color_of s j = Visiting) ∧
  (∀ j, color_of s j = Finished → color_of s' j = Finished).

Lemma color_insert s i c j : (i < List.length s)%nat →
  color_of (<[i := c]> s) j = if decide (i = j) then c else color_of s j.
Proof.
  intros Hi. unfold color_of. destruct (decide (i = j)) as [->|Hn].
  - by rewrite list_lookup_insert_eq.
  - by rewrite list_lookup_insert_ne.
Qed.

(** The finished entries in the order they were finished: each after all it
    waits for. *)
Definition finished_order (s : list color) (order : list nat) : Prop :=
  NoDup order ∧ (∀ j, color_of s j = Finished ↔ j ∈ order) ∧
  (∀ k i, order !! k = Some i → ∀ j, edge i j → j ∈ take k order).

(** The hypotheses under which a search of the entries below [n] is run. *)
Definition closed (n : nat) : Prop := ∀ i j, (i < n)%nat → edge i j → (j < n)%nat.

Lemma finished_order_snoc s order i : (i < List.length s)%nat → color_of s i = Visiting → finished_order s order →
  (∀ j, edge i j → j ∈ order) → finished_order (<[i := Finished]> s) (order ++ [i])%list.
Proof.
  intros Hi Hv (Hnd & Hf & Ho) He.
  assert (i ∉ order) as Hni by (rewrite <- Hf; congruence).
  split; [|split].
  - apply NoDup_app. split; [done|]. split; [|apply NoDup_singleton].
    intros x Hx Hx'. apply list_elem_of_singleton in Hx' as ->. done.
  - intros j. rewrite color_insert, elem_of_app, list_elem_of_singleton by done. destruct (decide (i = j)) as [->|]; [tauto|].
    rewrite Hf. split; [auto|]. intros [Hx|Hx]; [done|by subst j].
  - intros k i' Hk j Hj. apply lookup_snoc_Some in Hk as [[Hk Hl]|[E1 E2]]; [|subst k i'].
    + rewrite take_app_le by (apply Nat.lt_le_incl; by eapply lookup_lt_Some). eauto.
    + rewrite take_app_length. auto.
Qed.

Definition recur_ok (n : nat) (recur : nat → list color → option outcome) : Prop :=
  ∀ i s s' order, List.length s = n → (i < n)%nat → color_of s i = Unseen → finished_order s order →
    recur i s = Some (Done s') →
    color_le s s' ∧ color_of s' i = Finished ∧ ∃ o, finished_order s' (order ++ o)%list.

Lemma color_le_trans a b c : color_le a b → color_le b c → color_le a c.
Proof.
  intros (H1 & H2 & H3 & H4) (H5 & H6 & H7 & H8). split; [congruence|]. split; [auto|]. split; [|auto].
  intros j. by rewrite H7.
Qed.

Lemma visit_deps_ok n recur i path : recur_ok n recur → (i < n)%nat →
  ∀ deps s s' order, List.length s = n → color_of s i = Visiting → finished_order s order →
  (∀ dep, dep ∈ deps → (target dep < n)%nat) →
  (∀ j, edge i j → j ∈ order ∨ ∃ dep, dep ∈ deps ∧ target dep = j) →
  vdeps recur i path deps s = Some (Done s') →
  ∃ s1 o, color_le s s1 ∧ s' = <[i := Finished]> s1 ∧ finished_order s' (order ++ o)%list.
Proof.
  intros Hrec Hi. induction deps as [|dep deps IH]; intros s s' order Hlen_s Hv Ho Hlt He H; simpl in H.
  - injection H as <-. exists s, [i]. split; [by repeat split|]. split; [done|].
    apply finished_order_snoc; [lia|done|done|]. intros j [?|(dep & Hd & _)]%He; [done|]. by apply elem_of_nil in Hd.
  - fold (target dep) in H. assert (target dep < n)%nat as Hj by (apply Hlt; left).
    destruct (color_of s (target dep)) eqn:Ec; [|done|].
    + destruct (recur (target dep) s) as [[|s1]|] eqn:Er; [done| |done].
      destruct (Hrec _ _ _ _ Hlen_s Hj Ec Ho Er) as (Hle & Hfin & o & Ho1).
      pose proof Hle as (Hl1 & _ & Hvis & _).
      destruct (IH s1 s' (order ++ o)%list) as (s2 & o2 & Hle2 & -> & Ho2).
      * congruence.
      * by apply Hvis.
      * done.
      * intros d Hd. apply Hlt. by right.
      * intros j [Hjo|(d & Hd & <-)]%He; [left; apply elem_of_app; by left|].
        apply elem_of_cons in Hd as [->|Hd]; [left; by apply Ho1|right; eauto].
      * done.
      * exists s2, (o ++ o2)%list. split; [by eapply color_le_trans|]. split; [done|]. by rewrite app_assoc.
    + apply (IH s s' order); try done; [intros d Hd; apply Hlt; by right|].
      intros j [Hjo|(d & Hd & <-)]%He; [by left|].
      apply elem_of_cons in Hd as [->|Hd]; [left; by apply Ho|right; eauto].
Qed.

Lemma visit_ok n : closed n → ∀ fuel path, recur_ok n (vis fuel path).
Proof.
  intros Hcl. induction fuel as [|fuel IH]; intros path i s s' order Hs Hi Hu Ho H; [done|]. simpl in H.
  assert (∀ j, color_of (<[i:=Visiting]> s) j = if decide (i = j) then Visiting else color_of s j) as Hins
    by (intros j; apply color_insert; lia).
  eapply (visit_deps_ok n) with (order := order) in H as (s1 & o & Hle & -> & Ho1).
  - destruct Hle as (Hl & H1 & H2 & H3).
    assert (i < List.length s1)%nat as Hi1 by (rewrite Hl, length_insert; lia).
    assert (∀ j, color_of (<[i:=Finished]> s1) j = if decide (i = j) then Finished else color_of s1 j) as Hins1
      by (intros j; by apply color_insert).
    split; [split; [|split; [|split]]|split; [|by exists o]].
    + rewrite !length_insert in *. done.
    + intros j. rewrite Hins1. destruct (decide (i = j)); [done|]. intros Hj%H1. rewrite Hins, decide_False in Hj; done.
    + intros j. rewrite Hins1. destruct (decide (i = j)) as [->|]; [rewrite Hu; done|]. by rewrite H2, Hins, decide_False.
    + intros j Hj. rewrite Hins1. destruct (decide (i = j)); [done|]. apply H3. by rewrite Hins, decide_False.
    + by rewrite Hins1, decide_True.
  - apply IH.
  - done.
  - by rewrite length_insert.
  - by rewrite Hins, decide_True.
  - destruct Ho as (Hnd & Hf & Hord). split; [done|]. split; [|done]. intros j. rewrite Hins, <- Hf.
    destruct (decide (i = j)) as [->|]; [rewrite Hu; done|done].
  - intros dep Hd. eapply Hcl; [exact Hi|]. by exists dep.
  - intros j (dep & Hd & <-). right. by exists dep.
Qed.

(** ** The search ends within its fuel, and finds only real cycles *)

Definition unseen (n : nat) (s : list color) : nat := List.length (filter (λ j, color_of s j = Unseen) (seq 0 n)).

Lemma filter_length_le {A} (P Q : A → Prop) `{∀ x, Decision (P x)} `{∀ x, Decision (Q x)} l :
  (∀ x, x ∈ l → P x → Q x) → (List.length (filter P l) ≤ List.length (filter Q l))%nat.
Proof.
  induction l as [|x l IH]; intros HPQ; [done|].
  assert (List.length (filter P l) ≤ List.length (filter Q l))%nat as Hle by (apply IH; intros y Hy; apply HPQ; by right).
  rewrite !filter_cons. destruct (decide (P x)) as [Hp|Hp]; [rewrite decide_True by (apply HPQ; [left|done])|destruct (decide (Q x))];
    simpl; lia.
Qed.

Lemma filter_length_lt {A} (P Q : A → Prop) `{∀ x, Decision (P x)} `{∀ x, Decision (Q x)} l y :
  (∀ x, x ∈ l → P x → Q x) → y ∈ l → Q y → ¬ P y → (List.length (filter P l) < List.length (filter Q l))%nat.
Proof.
  induction l as [|x l IH]; intros HPQ Hy HQ HP; [by apply elem_of_nil in Hy|].
  pose proof (filter_length_le P Q l (λ z Hz, HPQ z (list_elem_of_further _ _ _ Hz))) as Hle.
  rewrite !filter_cons. apply elem_of_cons in Hy as [<-|Hy].
  - rewrite decide_False by done. rewrite decide_True by done. simpl. lia.
  - specialize (IH (λ z Hz, HPQ z (list_elem_of_further _ _ _ Hz)) Hy HQ HP).
    destruct (decide (P x)) as [Hp|Hp]; [rewrite decide_True by (apply HPQ; [left|done])|destruct (decide (Q x))]; simpl; lia.
Qed.

Lemma unseen_mono n s s' : color_le s s' → (unseen n s' ≤ unseen n s)%nat.
Proof. intros (_ & H & _). apply filter_length_le. auto. Qed.

Definition recur_total (n m : nat) (recur : nat → list color → option outcome) : Prop :=
  ∀ i s order, List.length s = n → (i < n)%nat → color_of s i = Unseen → finished_order s order →
    (unseen n s ≤ m)%nat → is_Some (recur i s).

Lemma visit_deps_total n m recur i path : recur_ok n recur → recur_total n m recur →
  ∀ deps s order, List.length s = n → finished_order s order → (unseen n s ≤ m)%nat →
  (∀ dep, dep ∈ deps → (target dep < n)%nat) → is_Some (vdeps recur i path deps s).
Proof.
  intros Hok Htot. induction deps as [|dep deps IH]; intros s order Hs Ho Hu Hlt; simpl; [by eexists|].
  fold (target dep). assert (target dep < n)%nat as Hj by (apply Hlt; left).
  assert (∀ d, d ∈ deps → (target d < n)%nat) as Hlt' by (intros d Hd; apply Hlt; by right).
  destruct (color_of s (target dep)) eqn:Ec; [|by eexists|by eapply IH].
  destruct (Htot _ _ _ Hs Hj Ec Ho Hu) as [[|s1] Er]; rewrite Er; [by eexists|].
  destruct (Hok _ _ _ _ Hs Hj Ec Ho Er) as (Hle & _ & o & Ho1).
  eapply IH; [rewrite (proj1 Hle); done|exact Ho1| |done]. pose proof (unseen_mono n _ _ Hle). lia.
Qed.

Lemma finished_order_visiting s order i : (i < List.length s)%nat → color_of s i = Unseen →
  finished_order s order → finished_order (<[i:=Visiting]> s) order.
Proof.
  intros Hi Hu (Hnd & Hf & Ho). split; [done|]. split; [|done]. intros j. rewrite color_insert, <- Hf by done.
  destruct (decide (i = j)) as [->|]; [rewrite Hu; done|done].
Qed.

Lemma visit_total n : closed n → ∀ fuel path, recur_total n fuel (vis fuel path).
Proof.
  intros Hcl. induction fuel as [|fuel IH]; intros path i s order Hs Hi Hu Ho Hm.
  - exfalso. assert (unseen n s ≠ 0)%nat; [|lia]. intros H0. apply nil_length_inv in H0.
    assert (i ∈ filter (λ j, color_of s j = Unseen) (seq 0 n)) as Hin.
    { apply list_elem_of_filter. split; [done|]. apply elem_of_seq. lia. }
    rewrite H0 in Hin. by apply elem_of_nil in Hin.
  - simpl. eapply (visit_deps_total n fuel).
    + by apply visit_ok.
    + apply IH.
    + by rewrite length_insert.
    + apply finished_order_visiting; [lia|done|exact Ho].
    + assert (unseen n (<[i:=Visiting]> s) < unseen n s)%nat; [|lia].
      apply (filter_length_lt _ _ _ i); [|apply elem_of_seq; lia|done|].
      * intros x _. rewrite color_insert by lia. by destruct (decide (i = x)).
      * rewrite color_insert, decide_True by (done || lia). done.
    + intros dep Hd. eapply Hcl; [exact Hi|]. by exists dep.
Qed.

(** Where every entry ranks above what it waits for, no cycle is reported. *)
Section Ranked.
Context (n : nat) (rank : nat → nat).
Hypothesis Hrank : ∀ i j, (i < n)%nat → edge i j → (rank j < rank i)%nat.
Hypothesis Hclosed : closed n.

Definition recur_acyclic (recur : nat → list color → option outcome) : Prop :=
  ∀ i s order, List.length s = n → (i < n)%nat → color_of s i = Unseen → finished_order s order →
    (∀ v, color_of s v = Visiting → (rank i < rank v)%nat) → ∀ at_ c, recur i s ≠ Some (Cycle at_ c).

Lemma visit_deps_acyclic recur i path : recur_ok n recur → recur_acyclic recur →
  ∀ deps s order, List.length s = n → finished_order s order →
  (∀ v, color_of s v = Visiting → (rank i ≤ rank v)%nat) →
  (∀ dep, dep ∈ deps → (target dep < n)%nat ∧ (rank (target dep) < rank i)%nat) →
  ∀ at_ c, vdeps recur i path deps s ≠ Some (Cycle at_ c).
Proof.
  intros Hok Hac. induction deps as [|dep deps IH]; intros s order Hs Ho Hv Hd at_ c; simpl; [done|].
  fold (target dep). destruct (Hd dep) as [Hj Hr]; [left|].
  assert (∀ d, d ∈ deps → (target d < n)%nat ∧ (rank (target d) < rank i)%nat) as Hd' by (intros d ?; apply Hd; by right).
  destruct (color_of s (target dep)) eqn:Ec; [| |by eapply IH].
  - destruct (recur (target dep) s) as [[a' c'|s1]|] eqn:Er; [|..|done].
    + exfalso. eapply (Hac (target dep) s); [done..|exact Ho| |exact Er]. intros v ?%Hv. lia.
    + destruct (Hok _ _ _ _ Hs Hj Ec Ho Er) as (Hle & _ & o & Ho1).
      eapply IH; [rewrite (proj1 Hle); done|exact Ho1| |done]. intros v Hvis. apply Hv. by apply Hle.
  - apply Hv in Ec. lia.
Qed.

Lemma visit_acyclic fuel : ∀ path, recur_acyclic (vis fuel path).
Proof.
  induction fuel as [|fuel IH]; intros path i s order Hs Hi Hu Ho Hv at_ c; [done|]. simpl.
  eapply visit_deps_acyclic.
  - by apply visit_ok.
  - apply IH.
  - by rewrite length_insert.
  - apply finished_order_visiting; [lia|done|exact Ho].
  - intros v. rewrite color_insert by lia. destruct (decide (i = v)) as [->|]; [lia|]. intros ?%Hv. lia.
  - intros dep Hd. assert (edge i (target dep)) as He by by exists dep. split; [by eapply Hclosed|by apply Hrank].
Qed.
End Ranked.

(** ** All roots *)

Lemma visit_all_ok n fuel : closed n → (n ≤ fuel)%nat → ∀ roots s order, List.length s = n →
  (∀ j, j ∈ roots → (j < n)%nat) → (∀ v, color_of s v ≠ Visiting) → finished_order s order →
  (∃ at_ c, visit_all names after index fuel roots s = Some (Cycle at_ c)) ∨
  (∃ s' o, visit_all names after index fuel roots s = Some (Done s') ∧ finished_order s' (order ++ o)%list ∧
     List.length s' = n ∧ ∀ j, j ∈ roots → color_of s' j = Finished ∨ color_of s j = Finished).
Proof.
  intros Hcl Hf. induction roots as [|i roots IH]; intros s order Hs Hr Hv Ho; simpl.
  - right. exists s, []. rewrite app_nil_r. split; [done|]. split; [done|]. split; [done|]. intros j Hj. by apply elem_of_nil in Hj.
  - assert (i < n)%nat as Hi by (apply Hr; left).
    assert (∀ j, j ∈ roots → (j < n)%nat) as Hr' by (intros j Hj; apply Hr; by right).
    destruct (color_of s i) eqn:Ec; [|by destruct (Hv i)|].
    + destruct (visit_total n Hcl fuel [] i s order Hs Hi Ec Ho) as [[a c|s1] E].
      { unfold unseen. etransitivity; [apply length_filter|]. rewrite length_seq. lia. }
      * rewrite E. left. eauto.
      * rewrite E. destruct (visit_ok n Hcl fuel [] _ _ _ _ Hs Hi Ec Ho E) as (Hle & Hfin & o & Ho1).
        destruct (IH s1 (order ++ o)%list) as [?|(s2 & o2 & E2 & Ho2 & Hls & Hall)]; [rewrite (proj1 Hle); done|done| |done|by left|].
        { intros v Hvis. apply (Hv v). by apply Hle. }
        right. exists s2, (o ++ o2)%list. split; [done|]. rewrite app_assoc. split; [done|]. split; [done|].
        assert (∀ j, color_of s1 j = Finished → color_of s2 j = Finished) as Hkeep.
        { intros j Hj. apply Ho2. apply elem_of_app. left. by apply Ho1. }
        intros j [->|Hj]%elem_of_cons; [left; by apply Hkeep|]. destruct (Hall j Hj); left; auto.
    + destruct (IH s order) as [?|(s2 & o2 & E2 & Ho2 & Hls & Hall)]; [done..|by left|].
      right. exists s2, o2. split; [done|]. split; [done|]. split; [done|]. intros j [->|Hj]%elem_of_cons; [by right|auto].
Qed.

Lemma visit_all_acyclic n fuel rank : closed n → (∀ i j, (i < n)%nat → edge i j → (rank j < rank i)%nat) →
  ∀ roots s order, List.length s = n → (∀ j, j ∈ roots → (j < n)%nat) → (∀ v, color_of s v ≠ Visiting) →
  finished_order s order → ∀ at_ c, visit_all names after index fuel roots s ≠ Some (Cycle at_ c).
Proof.
  intros Hcl Hrank. induction roots as [|i roots IH]; intros s order Hs Hr Hv Ho at_ c; simpl; [done|].
  assert (i < n)%nat as Hi by (apply Hr; left).
  assert (∀ j, j ∈ roots → (j < n)%nat) as Hr' by (intros j Hj; apply Hr; by right).
  destruct (color_of s i) eqn:Ec; [|by destruct (Hv i)|by eapply IH].
  destruct (visit names after index fuel [] i s) as [[a c'|s1]|] eqn:E; [|..|done].
  - exfalso. eapply (visit_acyclic n rank Hrank Hcl fuel [] i s order); [done..| |exact E]. intros v Hvis. by destruct (Hv v).
  - destruct (visit_ok n Hcl fuel [] _ _ _ _ Hs Hi Ec Ho E) as (Hle & _ & o & Ho1).
    eapply IH; [rewrite (proj1 Hle); done|done| |exact Ho1]. intros v Hvis. apply (Hv v). by apply Hle.
Qed.

(** ** The references *)

Lemma check_refs_ok i deps c c' : indexes index → (i < List.length names)%nat → check_refs names index i deps c = ([], c') →
  c' = c ∧ ∀ dep, dep ∈ deps → ∃ j, index !! dep = Some j ∧ j ≠ i.
Proof.
  intros Hix Hi H. unfold check_refs in H.
  set (I := λ (d : list string) (x : bool), x = c ∧ ∀ dep, dep ∈ d → ∃ j, index !! dep = Some j ∧ j ≠ i).
  apply (vloop_prefix _ I _) with (d := []) in H; [done| |split; [done|]; intros dep Hd; by apply elem_of_nil in Hd].
  intros d x s s' [-> Hd] Hx. unfold check_ref in Hx. cbv zeta in Hx. destruct (String.eqb_spec x (default "" (names !! i))) as [|Hne]; [inv_v|].
  destruct (index !! x) as [j|] eqn:E; [|inv_v]. injection Hx as <-.
  assert (j ≠ i) as Hji. { intros ->. apply Hix in E. rewrite E in Hne. done. }
  destruct (Nat.eqb_spec j i); [done|]. split; [done|]. intros dep [?|Hdep]%elem_of_app; [auto|].
  apply list_elem_of_singleton in Hdep as ->. eauto.
Qed.

Lemma check_refs_known i deps c : indexes index → (i < List.length names)%nat →
  (∀ dep, dep ∈ deps → ∃ j, index !! dep = Some j ∧ j ≠ i) → check_refs names index i deps c = ([], c).
Proof.
  intros Hix Hi. unfold check_refs. generalize 0%nat as n0.
  induction deps as [|dep deps IH]; intros n0 Hd; [done|]. cbn [vloop].
  assert (check_ref names index i dep c = ([], c)) as ->.
  { destruct (Hd dep) as (j & Hj & Hne); [left|]. unfold check_ref.
    destruct (String.eqb_spec dep (default "" (names !! i))) as [->|].
    - exfalso. apply Hix in Hj as Hj'. apply lookup_lt_is_Some in Hi as [nm Hnm].
      rewrite Hnm in Hj, Hj'. simpl in *. apply Hix in Hnm. congruence.
    - rewrite Hj. by destruct (Nat.eqb_spec j i). }
  specialize (IH (S n0) (λ d Hin, Hd d (list_elem_of_further _ _ _ Hin))). unfold vbind. by rewrite IH.
Qed.

Abbreviation check_all := (vloop (λ i deps complete, check_refs names index i deps complete)).

Lemma check_all_ok c' : indexes index → check_all 0 after true = ([], c') →
  c' = true ∧ ∀ i deps dep, after !! i = Some deps → dep ∈ deps → ∃ j, index !! dep = Some j ∧ j ≠ i.
Proof.
  intros Hix H.
  set (I := λ (d : list (list string)) (x : bool), (List.length d ≤ List.length names)%nat →
    x = true ∧ ∀ i deps dep, d !! i = Some deps → dep ∈ deps → ∃ j, index !! dep = Some j ∧ j ≠ i).
  apply (vloop_prefix _ I _) with (d := []) in H; [apply H; simpl; lia| |by intros _; split].
  intros d x s s' Hd Hx Hl. rewrite length_app in Hl. simpl in Hl. destruct Hd as [-> Hd]; [lia|].
  apply check_refs_ok in Hx as [-> Hx]; [|done|lia]. split; [done|].
  intros i deps dep Hi. apply lookup_snoc_Some in Hi as [[_ Hi]|[E1 E2]]; [by eauto|subst i x; auto].
Qed.

Lemma check_all_known : indexes index →
  (∀ i deps dep, after !! i = Some deps → dep ∈ deps → ∃ j, index !! dep = Some j ∧ j ≠ i) →
  check_all 0 after true = ([], true).
Proof.
  intros Hix H.
  assert (∀ l d, after = (d ++ l)%list → check_all (List.length d) l true = ([], true)) as Hgo; [|by apply (Hgo after [])].
  induction l as [|deps l IH]; intros d E; [done|]. cbn [vloop].
  rewrite check_refs_known; [|done| |].
  - unfold vbind, vret. specialize (IH (d ++ [deps])%list). rewrite length_app, Nat.add_1_r, <- app_assoc in IH.
    by rewrite IH.
  - rewrite <- Hlen, E, length_app. simpl. lia.
  - intros dep Hdep. eapply (H (List.length d)); [|exact Hdep]. rewrite E. by rewrite list_lookup_middle.
Qed.

Definition known : Prop := ∀ i deps dep, after !! i = Some deps → dep ∈ deps → ∃ j, index !! dep = Some j ∧ j ≠ i.

Lemma known_closed : indexes index → known → closed (List.length after).
Proof.
  intros Hix Hk i j Hi (dep & Hd & <-). unfold deps_of in Hd. destruct (after !! i) as [deps|] eqn:E; [|by apply elem_of_nil in Hd].
  destruct (Hk _ _ _ E Hd) as (j & Hj & _). unfold target. rewrite Hj. simpl. rewrite Hlen.
  apply Hix in Hj. by eapply lookup_lt_Some.
Qed.

Lemma start_order n : finished_order (replicate n Unseen) [].
Proof.
  split; [apply NoDup_nil_2|]. split; [|intros k i Hk; done]. intros j. split; [|intros Hj; by apply elem_of_nil in Hj].
  unfold color_of. destruct (replicate n Unseen !! j) as [c|] eqn:E; [|done]. by apply lookup_replicate in E as [-> _].
Qed.

Lemma start_unseen n v : color_of (replicate n Unseen) v ≠ Visiting.
Proof. unfold color_of. destruct (replicate n Unseen !! v) as [c|] eqn:E; [|done]. by apply lookup_replicate in E as [-> _]. Qed.

Definition name_at (i : nat) : string := default "" (names !! i).

(** An order of the entries is an order of the names. *)
Lemma order_deployable o : NoDup names → indexes index → known → o ≡ₚ seq 0 (List.length names) →
  (∀ k i, o !! k = Some i → ∀ j, edge i j → j ∈ take k o) → deployable (name_at <$> o).
Proof.
  intros Hnd Hix Hk Hp Ho. split.
  - rewrite Hp. assert (name_at <$> seq 0 (List.length names) = names) as ->; [|done].
    apply list_eq. intros i. rewrite list_lookup_fmap. destruct (decide (i < List.length names)%nat) as [Hi|Hi].
    + rewrite lookup_seq_lt by lia. simpl. unfold name_at. apply lookup_lt_is_Some in Hi as [x Hx]. by rewrite Hx.
    + rewrite lookup_seq_ge by lia. symmetry. apply lookup_ge_None. lia.
  - intros k name Hname dep (i' & deps & Hi' & Hdeps & Hdep). rewrite list_lookup_fmap in Hname.
    destruct (o !! k) as [i|] eqn:E; [|done]. injection Hname as <-.
    assert (i' = i) as ->.
    { assert (i ∈ seq 0 (List.length names)) as Hin by (rewrite <- Hp; by eapply list_elem_of_lookup_2).
      apply elem_of_seq in Hin. assert (is_Some (names !! i)) as [x Hx] by (apply lookup_lt_is_Some; lia).
      unfold name_at in Hi'. rewrite Hx in Hi'. simpl in Hi'. by eapply NoDup_lookup. }
    destruct (Hk _ _ _ Hdeps Hdep) as (j & Hj & _). rewrite <- fmap_take. apply list_elem_of_fmap.
    exists j. split; [apply Hix in Hj; unfold name_at; by rewrite Hj|].
    apply (Ho k i E). exists dep. split; [unfold deps_of; by rewrite Hdeps|unfold target; by rewrite Hj].
Qed.

(** The place of an entry in an order of the names. *)
Definition place (order : list string) (i : nat) : nat := default 0%nat (fst <$> list_find (name_at i =.) order).

Lemma place_lookup order i : name_at i ∈ order → order !! place order i = Some (name_at i).
Proof.
  intros Hin. unfold place. destruct (list_find (name_at i =.) order) as [[k x]|] eqn:E; simpl.
  - apply list_find_Some in E as (Hk & -> & _). done.
  - apply list_find_None in E. rewrite Forall_forall in E. by destruct (E _ Hin).
Qed.

Lemma deployable_known order : NoDup names → indexes index → deployable order → known.
Proof.
  intros Hnd Hix [Hp Ho] i deps dep Hi Hdep.
  assert (is_Some (names !! i)) as [x Hx] by (apply lookup_lt_is_Some; rewrite <- Hlen; by eapply lookup_lt_Some).
  assert (x ∈ order) as Hin by (rewrite Hp; by eapply list_elem_of_lookup_2).
  apply list_elem_of_lookup in Hin as [k Hk].
  assert (dep ∈ take k order) as Hd by (eapply Ho; [exact Hk|]; by exists i, deps).
  assert (dep ∈ names) as [j Hj]%list_elem_of_lookup. { rewrite <- Hp. by apply elem_of_take in Hd as (? & ?%list_elem_of_lookup_2 & _). }
  exists j. split; [by apply Hix|]. intros ->. rewrite Hx in Hj. injection Hj as ->.
  apply elem_of_take in Hd as (k' & Hk' & Hlt). assert (NoDup order) as Hno by by rewrite Hp.
  pose proof (NoDup_lookup _ _ _ _ Hno Hk Hk'). lia.
Qed.

Lemma deployable_rank order : NoDup names → indexes index → deployable order →
  ∀ i j, (i < List.length after)%nat → edge i j → (place order j < place order i)%nat.
Proof.
  intros Hnd Hix [Hp Ho] i j Hi (dep & Hd & <-). unfold deps_of in Hd.
  destruct (after !! i) as [deps|] eqn:E; [|by apply elem_of_nil in Hd].
  assert (is_Some (names !! i)) as [x Hx] by (apply lookup_lt_is_Some; lia).
  assert (NoDup order) as Hno by by rewrite Hp.
  assert (name_at i ∈ order) as Hin. { rewrite Hp. unfold name_at. rewrite Hx. by eapply list_elem_of_lookup_2. }
  pose proof (place_lookup order i Hin) as Hk.
  assert (dep ∈ take (place order i) order) as Hdt.
  { eapply Ho; [exact Hk|]. exists i, deps. split; [|done]. unfold name_at. by rewrite Hx. }
  apply elem_of_take in Hdt as (k' & Hk' & Hlt).
  assert (dep ∈ names) as [j Hj]%list_elem_of_lookup by (rewrite <- Hp; by eapply list_elem_of_lookup_2).
  assert (name_at (target dep) = dep) as Hnt. { unfold target, name_at. rewrite (proj2 (Hix _ _) Hj). simpl. by rewrite Hj. }
  pose proof (place_lookup order (target dep)) as Hpt. rewrite Hnt in Hpt. rewrite (NoDup_lookup _ _ _ _ Hno (Hpt (list_elem_of_lookup_2 _ _ _ Hk')) Hk').
  done.
Qed.
End Search.

(** The [after] lists of a shipwick.yaml are accepted exactly when the
    application names are distinct and there is an order of them in which
    every application comes after all those it waits for: no reference to an
    unknown name, no application that waits for itself, no cycle goes through,
    and none is reported where there is none. *)
Theorem validateAfter_exact : Forall (λ n, n ≠ "") names →
  validateAfter names after = ([], tt) ↔ NoDup names ∧ ∃ order, deployable order.
Proof.
  intros Hne. unfold validateAfter. split.
  - intros H. apply vbind_ok in H as (index & Hindex & H). apply vbind_ok in H as (c & Hc & H).
    destruct (name_index_ok index Hne Hindex) as [Hnd Hix]. split; [done|].
    destruct (check_all_ok index c Hix Hc) as [-> Hk]. cbn [negb orb] in H.
    assert (size index = List.length names) as Hsize.
    { assert (dom index = list_to_set names) as Hdom.
      { apply set_eq. intros x. rewrite elem_of_dom, elem_of_list_to_set. split.
        - intros [i Hi]. apply Hix in Hi. by eapply list_elem_of_lookup_2.
        - intros [i Hi]%list_elem_of_lookup. apply Hix in Hi. eauto. }
      by rewrite <- size_dom, Hdom, size_list_to_set. }
    rewrite Hsize, Nat.eqb_refl in H. cbn [negb] in H. unfold cycle_check in H.
    set (n := List.length after) in *.
    destruct (visit_all_ok index n n (known_closed index Hix Hk) (le_n n) (seq 0 n) (replicate n Unseen) [])
      as [(a & cy & E)|(s' & o & E & Ho & Hl & Hall)]; [by rewrite length_replicate|intros j ?%elem_of_seq; lia|apply start_unseen|apply start_order| |].
    { rewrite E in H. inv_v. }
    destruct Ho as (Hno & Hf & Ho). simpl in *. exists (name_at <$> o). apply (order_deployable index); try done.
    apply NoDup_Permutation; [done|apply NoDup_seq|]. intros j. rewrite <- Hf, elem_of_seq. split.
    + intros Hj. split; [lia|]. unfold color_of in Hj. destruct (s' !! j) eqn:Ej; [|done]. apply lookup_lt_Some in Ej. lia.
    + intros Hj. destruct (Hall j) as [?|Hbad]; [apply elem_of_seq; lia|done|].
      unfold color_of in Hbad. destruct (replicate n Unseen !! j) as [c'|] eqn:Ej; [|done]. by apply lookup_replicate in Ej as [-> _].
  - intros [Hnd [order Ho]]. destruct (name_index_distinct Hnd) as [index Hindex]. rewrite Hindex.
    destruct (name_index_ok index Hne Hindex) as [_ Hix].
    pose proof (deployable_known index order Hnd Hix Ho) as Hk. unfold vbind.
    rewrite (check_all_known index Hix Hk). cbn [negb orb].
    destruct (negb _); [done|]. unfold cycle_check.
    set (n := List.length after) in *.
    destruct (visit_all names after index n (seq 0 n) (replicate n Unseen)) as [[a cy|s']|] eqn:E; [|done..].
    exfalso. eapply (visit_all_acyclic index n n (place order)); [by apply known_closed|by apply deployable_rank| | | | |exact E].
    + by rewrite length_replicate.
    + intros j ?%elem_of_seq. lia.
    + apply start_unseen.
    + apply start_order.
Qed.
End Orders.

Lemma validateAfter_exact_witness :
  Forall (λ n, n ≠ "") ["web"; "db"] ∧ (validateAfter ["web"; "db"] [["db"]; []] = ([], tt) ↔
    NoDup ["web"; "db"] ∧ ∃ order, deployable ["web"; "db"] [["db"]; []] order).
Proof.
  assert (Forall (λ n, n ≠ "") ["web"; "db"]) as H by (repeat constructor; discriminate).
  split; [exact H|]. exact (validateAfter_exact ["web"; "db"] [["db"]; []] eq_refl H).
Defined.
