(* ===== verification/Crypto.v ===== *)
(** * Sealed values (agent/internal/store/crypto.go, rotation.go)

    The secrets of a stored specification are encrypted value by value, each
    under its own name, in the form "enc1:" and the base64 of nonce and
    ciphertext.  The cipher is Go's interface [cipher.AEAD]: a type class here,
    with the key ring of rotation.go as one of its instances. *)

From S2P Require Import Prelude GoStrings GoFloat SpecTypes.
From Stdlib Require Import Ascii String.
Local Open Scope string_scope.

(** ** Base64, as encoding/base64's StdEncoding has it *)

Definition base64_alphabet : string := "ABCDEFGHIJKLMNOPQRSTUVWXYZabcdefghijklmnopqrstuvwxyz0123456789+/".
Definition byte (c : ascii) : Z := Z.of_N (code c).
Definition of_byte (z : Z) : ascii := chr (Z.to_N z).

Definition sextet (n : Z) : ascii := default "="%char (String.get (Z.to_nat n) base64_alphabet).
Fixpoint index_of (c : ascii) (s : string) (i : Z) : option Z :=
  match s with
  | "" => None
  | String d r => if Ascii.eqb c d then Some i else index_of c r (i + 1)%Z
  end.
Definition unsextet (c : ascii) : option Z := index_of c base64_alphabet 0.

Fixpoint EncodeToString (s : string) : string :=
  match s with
  | "" => ""
  | String a "" =>
      let v := (byte a * 65536)%Z in
      String (sextet (v / 262144)) (String (sextet (v / 4096 mod 64)) "==")
  | String a (String b "") =>
      let v := (byte a * 65536 + byte b * 256)%Z in
      String (sextet (v / 262144)) (String (sextet (v / 4096 mod 64)) (String (sextet (v / 64 mod 64)) "="))
  | String a (String b (String c r)) =>
      let v := (byte a * 65536 + byte b * 256 + byte c)%Z in
      String (sextet (v / 262144)) (String (sextet (v / 4096 mod 64))
        (String (sextet (v / 64 mod 64)) (String (sextet (v mod 64)) (EncodeToString r))))
  end.

(** The decoder passes over line ends, wherever they are. *)
Fixpoint strip_newlines (s : string) : string :=
  match s with
  | "" => ""
  | String c r => if (code c =? 10)%N || (code c =? 13)%N then strip_newlines r else String c (strip_newlines r)
  end.

Fixpoint decode_quanta (s : string) : option string :=
  match s with
  | "" => Some ""
  | String a (String b (String c (String d r))) =>
      x ← unsextet a; y ← unsextet b;
      if Ascii.eqb d "=" then
        if negb (String.eqb r "") then None
        else if Ascii.eqb c "=" then Some (String (of_byte ((x * 262144 + y * 4096) / 65536)) "")
        else z ← unsextet c;
             let v := (x * 262144 + y * 4096 + z * 64)%Z in
             Some (String (of_byte (v / 65536)) (String (of_byte (v / 256 mod 256)) ""))
      else
        z ← unsextet c; w ← unsextet d; t ← decode_quanta r;
        let v := (x * 262144 + y * 4096 + z * 64 + w)%Z in
        Some (String (of_byte (v / 65536)) (String (of_byte (v / 256 mod 256)) (String (of_byte (v mod 256)) t)))
  | _ => None
  end.
Definition DecodeString (s : string) : option string := decode_quanta (strip_newlines s).

(** ** The cipher *)

(** cipher.AEAD: nonce, plaintext and additional data in, ciphertext out. *)
Class AEAD := {
  NonceSize : nat;
  Seal : string → string → string → string;
  Open : string → string → string → option string
}.

(** What a cipher promises to the values it seals. *)
Class AEADLaws (A : AEAD) :=
  Open_Seal : ∀ nonce plain data, String.length nonce = NonceSize → Open nonce (Seal nonce plain data) data = Some plain.

(** keyring: it seals with the current key and opens with the one before the
    last rotation as well. *)
Record keyring := mk_keyring { current : AEAD; previous : option AEAD }.
Definition rotate (k : keyring) (next : AEAD) : keyring := mk_keyring next (Some (current k)).
Definition keyring_Open (k : keyring) (nonce cipher data : string) : option string :=
  match @Open (current k) nonce cipher data with
  | Some plain => Some plain
  | None => match previous k with Some p => @Open p nonce cipher data | None => None end
  end.
#[export] Instance keyring_AEAD (k : keyring) : AEAD :=
  {| NonceSize := @NonceSize (current k); Seal := @Seal (current k); Open := keyring_Open k |}.

Definition encPrefix := "enc1:".
Definition isSealed (value : string) : bool := has_prefix encPrefix value.

(** The names values are sealed under; a variable's is its own. *)
Definition logOptionName (option : string) : string := "logging.options." ++ option.
Definition passwordName (i : nat) : string := "proxy.basic_auth[" ++ itoa (Z.of_nat i) ++ "].password".
Definition referencesName (deploymentID : string) : string := "deployments/" ++ deploymentID ++ "/references".

(** Calls of a function that may fail over a map: all of them, or an error. *)
Definition map_results {A B} (f : string → A → result B) (m : gmap string A) : result (gmap string B) :=
  map_fold (λ k v acc, do! out := acc in do! w := f k v in Ok (<[k := w]> out)) (Ok ∅) m.
Fixpoint list_results {A B} (f : nat → A → result B) (i : nat) (l : list A) : result (list B) :=
  match l with
  | [] => Ok []
  | x :: r => do! y := f i x in do! t := list_results f (S i) r in Ok (y :: t)
  end.

Definition with_env (a : App) (env : gmap string string) : App :=
  mk_app (a_Name a) (a_Image a) (a_Port a) (a_Domain a) (a_Aliases a) (a_Redirects a)
    (a_Replicas a) env (a_Health a) (a_Resources a) (a_Volumes a) (a_Publish a)
    (a_Entrypoint a) (a_Command a) (a_User a) (a_PreDeploy a) (a_Jobs a) (a_Logging a)
    (a_Build a) (a_Static a) (a_Path a) (a_Proxy a) (a_Backups a)
    (a_Restart a) (a_Strategy a) (a_StopTimeout a) (a_Init a) (a_Security a).
Definition with_proxy (a : App) (proxy : option Proxy) : App :=
  mk_app (a_Name a) (a_Image a) (a_Port a) (a_Domain a) (a_Aliases a) (a_Redirects a)
    (a_Replicas a) (a_Env a) (a_Health a) (a_Resources a) (a_Volumes a) (a_Publish a)
    (a_Entrypoint a) (a_Command a) (a_User a) (a_PreDeploy a) (a_Jobs a) (a_Logging a)
    (a_Build a) (a_Static a) (a_Path a) proxy (a_Backups a)
    (a_Restart a) (a_Strategy a) (a_StopTimeout a) (a_Init a) (a_Security a).
Definition with_logging (a : App) (logging : option Logging) : App :=
  mk_app (a_Name a) (a_Image a) (a_Port a) (a_Domain a) (a_Aliases a) (a_Redirects a)
    (a_Replicas a) (a_Env a) (a_Health a) (a_Resources a) (a_Volumes a) (a_Publish a)
    (a_Entrypoint a) (a_Command a) (a_User a) (a_PreDeploy a) (a_Jobs a) logging
    (a_Build a) (a_Static a) (a_Path a) (a_Proxy a) (a_Backups a)
    (a_Restart a) (a_Strategy a) (a_StopTimeout a) (a_Init a) (a_Security a).
Definition with_password (b : BasicAuth) (password : string) : BasicAuth :=
  mk_basicauth (ba_Path b) (ba_Username b) password.
Definition with_accounts (p : Proxy) (accounts : list BasicAuth) : Proxy :=
  mk_proxy (px_StripPrefix p) (px_Headers p) accounts (px_Redirects p).
Definition with_options (l : Logging) (options : gmap string string) : Logging :=
  mk_logging (log_Driver l) options.

Section Sealing.
Context `{A : AEAD}.

(** [nonce] is the random nonce a call draws; every value of a specification
    is sealed under a name of its own, so the draws are told apart by it. *)
Variable nonce : string → result string.

Definition seal (name value : string) : result string :=
  match nonce name with
  | Err e => Err (L "generate nonce: " :: e)
  | Ok n => Ok (encPrefix ++ EncodeToString (n ++ Seal n value name))
  end.

Definition open (name stored : string) : result string :=
  match DecodeString (trim_prefix encPrefix stored) with
  | None => Err [L "decrypt "; S' name; L ": malformed ciphertext"]
  | Some raw =>
      let n := NonceSize in
      if (String.length raw <? n)%nat then Err [L "decrypt "; S' name; L ": malformed ciphertext"] else
      match Open (substring 0 n raw) (substring n (String.length raw - n) raw) name with
      | None => Err [L "decrypt "; S' name; L ": cipher: message authentication failed"]
      | Some plain => Ok plain
      end
  end.

(** The options of a logging block that are secrets, one after the other. *)
Fixpoint each_option (f : string → string → result string) (names : list string) (options : gmap string string)
  : result (gmap string string) :=
  match names with
  | [] => Ok options
  | name :: r => do! v := f name (default "" (options !! name)) in each_option f r (<[name := v]> options)
  end.

Definition seal_env (a : App) : result App :=
  if bool_decide (a_Env a = ∅) then Ok a else
  do! env := map_results seal (a_Env a) in Ok (with_env a env).

Definition seal_accounts (a : App) : result App :=
  match a_Proxy a with
  | Some p =>
      if bool_decide (px_BasicAuth p = []) then Ok a else
      do! l := list_results (λ i b, do! s := seal (passwordName i) (ba_Password b) in Ok (with_password b s)) 0 (px_BasicAuth p) in
      Ok (with_proxy a (Some (with_accounts p l)))
  | None => Ok a
  end.

Definition seal_logging (a : App) : result App :=
  match a_Logging a with
  | Some l =>
      if bool_decide (SecretLogOptions a = []) then Ok a else
      do! o := each_option (λ name v, seal (logOptionName name) v) (SecretLogOptions a) (log_Options l) in
      Ok (with_logging a (Some (with_options l o)))
  | None => Ok a
  end.

Definition sealSpec (a : App) : result App :=
  do! a := seal_env a in do! a := seal_accounts a in seal_logging a.

Definition openLogging (a : App) : result App :=
  match a_Logging a with
  | Some l =>
      do! o := each_option (λ name v, if isSealed v then open (logOptionName name) v else Ok v) (SecretLogOptions a) (log_Options l) in
      Ok (with_logging a (Some (with_options l o)))
  | None => Ok a
  end.

(** A value that is not sealed is refused: env values and passwords always are. *)
Definition open_sealed (name value : string) : result string :=
  if isSealed value then open name value else Err [S' name; L " is stored unencrypted"].

Definition openSpec (a : App) : result App :=
  do! a := openLogging a in
  do! env := map_results open_sealed (a_Env a) in
  let a := with_env a env in
  match a_Proxy a with
  | None => Ok a
  | Some p =>
      do! l := list_results (λ i b, do! s := open_sealed (passwordName i) (ba_Password b) in Ok (with_password b s)) 0 (px_BasicAuth p) in
      Ok (with_proxy a (Some (with_accounts p l)))
  end.
End Sealing.

(** Store.aead is nil for a database in memory: nothing is sealed then. *)
Definition store_sealSpec (aead : option AEAD) (nonce : string → result string) (a : App) : result App :=
  match aead with None => Ok a | Some A => sealSpec nonce a end.
Definition store_openSpec (aead : option AEAD) (a : App) : result App :=
  match aead with None => Ok a | Some A => openSpec a end.

(** ** Base64 round trip *)

Lemma sextet_ok n : (0 ≤ n < 64)%Z →
  unsextet (sextet n) = Some n ∧ Ascii.eqb (sextet n) "=" = false ∧
  ((code (sextet n) =? 10)%N || (code (sextet n) =? 13)%N) = false.
Proof.
  intros H.
  assert (∀ x, (0 ≤ x ≤ 63)%Z → bool_decide (unsextet (sextet x) = Some x) && negb (Ascii.eqb (sextet x) "=") &&
    negb ((code (sextet x) =? 10)%N || (code (sextet x) =? 13)%N) = true) as Hall
    by (apply forallb_zrange; vm_compute; reflexivity).
  specialize (Hall n ltac:(lia)). apply andb_true_iff in Hall as [[H0 H1]%andb_true_iff H2].
  apply bool_decide_eq_true in H0. apply negb_true_iff in H1, H2. done.
Qed.

Lemma unsextet_sextet n : (0 ≤ n < 64)%Z → unsextet (sextet n) = Some n.
Proof. intros H. by apply sextet_ok in H as (? & _). Qed.
Lemma sextet_no_pad n : (0 ≤ n < 64)%Z → Ascii.eqb (sextet n) "=" = false.
Proof. intros H. by apply sextet_ok in H as (_ & ? & _). Qed.
Lemma sextet_no_newline n : (0 ≤ n < 64)%Z → ((code (sextet n) =? 10)%N || (code (sextet n) =? 13)%N) = false.
Proof. intros H. by apply sextet_ok in H as (_ & _ & ?). Qed.

Lemma byte_range c : (0 ≤ byte c < 256)%Z.
Proof. unfold byte, code. pose proof (N_ascii_bounded c). lia. Qed.
Lemma of_byte_byte c : of_byte (byte c) = c.
Proof. unfold of_byte, byte, chr, code. rewrite N2Z.id. apply ascii_N_embedding. Qed.

Lemma string_triples (P : string → Prop) :
  P "" → (∀ a, P (String a "")) → (∀ a b, P (String a (String b ""))) →
  (∀ a b c r, P r → P (String a (String b (String c r)))) → ∀ s, P s.
Proof.
  intros H0 H1 H2 H3. fix IH 1. intros [|a [|b [|c r]]]; [exact H0|apply H1|apply H2|]. apply H3, IH.
Qed.

Lemma base64_strip s : strip_newlines (EncodeToString s) = EncodeToString s.
Proof.
  induction s as [|a|a b|a b c r IH] using string_triples; [done|..]; cbn [EncodeToString]; cbv zeta;
    pose proof (byte_range a); try pose proof (byte_range b); try pose proof (byte_range c);
    cbn [strip_newlines];
    repeat (rewrite sextet_no_newline by dlia); try done.
  by rewrite IH.
Qed.

Lemma decode_encode s : DecodeString (EncodeToString s) = Some s.
Proof.
  unfold DecodeString. rewrite base64_strip.
  induction s as [|a|a b|a b c r IH] using string_triples; [done|..]; cbn [EncodeToString]; cbv zeta;
    pose proof (byte_range a); try pose proof (byte_range b); try pose proof (byte_range c);
    cbn [decode_quanta]; repeat (rewrite unsextet_sextet by dlia); cbn [mbind option_bind].
  - change (Ascii.eqb "=" "=") with true. cbn [negb String.eqb].
    replace (_ / 65536)%Z with (byte a) by dlia. by rewrite of_byte_byte.
  - change (Ascii.eqb "=" "=") with true. cbn [negb String.eqb].
    rewrite sextet_no_pad by dlia. cbv zeta.
    match goal with |- context [of_byte (?e / 65536)] => replace (e / 65536)%Z with (byte a) by dlia end.
    match goal with |- context [of_byte (?e / 256 mod 256)] => replace (e / 256 mod 256)%Z with (byte b) by dlia end.
    by rewrite !of_byte_byte.
  - rewrite sextet_no_pad, IH by dlia. cbn [mbind option_bind]. cbv zeta.
    match goal with |- context [of_byte (?e / 65536)] => replace (e / 65536)%Z with (byte a) by dlia end.
    match goal with |- context [of_byte (?e / 256 mod 256)] => replace (e / 256 mod 256)%Z with (byte b) by dlia end.
    match goal with |- context [of_byte (?e mod 256)] => replace (e mod 256)%Z with (byte c) by dlia end.
    by rewrite !of_byte_byte.
Qed.

(** ** Values *)

Lemma has_prefix_app p s : has_prefix p (p ++ s) = true.
Proof. induction p as [|c p IH]; simpl; [by destruct s|]. by rewrite Ascii.eqb_refl. Qed.
Lemma cut_prefix_exact p s : cut_prefix p (p ++ s) = Some s.
Proof. induction p as [|c p IH]; simpl; [done|]. by rewrite Ascii.eqb_refl. Qed.
Lemma substring_app_l a b : substring 0 (String.length a) (a ++ b) = a.
Proof. induction a as [|c a IH]; simpl; [by destruct b|]. by rewrite IH. Qed.
Lemma substring_all s : substring 0 (String.length s) s = s.
Proof. induction s as [|c s IH]; simpl; [done|]. by rewrite IH. Qed.
Lemma substring_app_r a b : substring (String.length a) (String.length b) (a ++ b) = b.
Proof. induction a as [|c a IH]; simpl; [apply substring_all|done]. Qed.
Lemma string_length_app a b : String.length (a ++ b) = (String.length a + String.length b)%nat.
Proof. induction a as [|c a IH]; simpl; [done|]. by rewrite IH. Qed.

Section MapResults.
Context {A B : Type} (f : string → A → result B).

(** A map of results holds, key by key, what the calls returned. *)
Lemma map_results_spec m out : map_results f m = Ok out →
  ∀ k, match m !! k with Some v => ∃ w, f k v = Ok w ∧ out !! k = Some w | None => out !! k = None end.
Proof.
  unfold map_results. revert out.
  apply (map_fold_weak_ind (λ acc m, ∀ out, acc = Ok out → ∀ k,
    match m !! k with Some v => ∃ w, f k v = Ok w ∧ out !! k = Some w | None => out !! k = None end)).
  - intros out H k. simplify_eq. by rewrite !lookup_empty.
  - intros i x m' acc Hi IH out H k. apply rbind_ok in H as (o & Ho & H). apply rbind_ok in H as (w & Hw & H).
    injection H as <-. specialize (IH o Ho k). destruct (decide (k = i)) as [->|Hne].
    + rewrite !lookup_insert_eq. eauto.
    + by rewrite !lookup_insert_ne by done.
Qed.

Lemma map_results_ok m out :
  (∀ k, match m !! k with Some v => ∃ w, f k v = Ok w ∧ out !! k = Some w | None => out !! k = None end) →
  map_results f m = Ok out.
Proof.
  unfold map_results. revert out.
  apply (map_fold_weak_ind (λ acc m, ∀ out,
    (∀ k, match m !! k with Some v => ∃ w, f k v = Ok w ∧ out !! k = Some w | None => out !! k = None end) → acc = Ok out)).
  - intros out H. f_equal. symmetry. apply map_eq. intros k. specialize (H k). by rewrite lookup_empty in *.
  - intros i x m' acc Hi IH out H. rewrite (IH (delete i out)).
    + pose proof (H i) as Hx. rewrite lookup_insert_eq in Hx. destruct Hx as (w & Hw & Ho).
      simpl. rewrite Hw. simpl. f_equal. by apply insert_delete_id.
    + intros k. destruct (decide (k = i)) as [->|Hne].
      * by rewrite Hi, lookup_delete_eq.
      * specialize (H k). by rewrite lookup_insert_ne, lookup_delete_ne in * by done.
Qed.

Lemma list_results_spec (g : nat → A → result B) i l out : list_results g i l = Ok out →
  List.length out = List.length l ∧ ∀ j x, l !! j = Some x → ∃ y, g (i + j)%nat x = Ok y ∧ out !! j = Some y.
Proof.
  revert i out. induction l as [|x r IH]; intros i out H; simpl in H.
  - simplify_eq. done.
  - apply rbind_ok in H as (y & Hy & H). apply rbind_ok in H as (t & Ht & H). injection H as <-.
    destruct (IH _ _ Ht) as [Hl Hj]. split; [simpl; lia|]. intros [|j] z Hz; simpl in *.
    + simplify_eq. exists y. by rewrite Nat.add_0_r.
    + destruct (Hj j z Hz) as (w & ? & ?). exists w. by rewrite Nat.add_succ_r, <- Nat.add_succ_l.
Qed.

Lemma list_results_ok (g : nat → A → result B) i l out : List.length out = List.length l →
  (∀ j x, l !! j = Some x → ∃ y, g (i + j)%nat x = Ok y ∧ out !! j = Some y) → list_results g i l = Ok out.
Proof.
  revert i out. induction l as [|x r IH]; intros i [|o out] Hl H; try done; simpl in *.
  destruct (H 0%nat x eq_refl) as (y & Hy & Ho). rewrite Nat.add_0_r in Hy. simpl in Ho. simplify_eq.
  rewrite Hy. simpl. rewrite (IH (S i) out); [done|lia|]. intros j z Hz.
  destruct (H (S j) z Hz) as (w & ? & ?). exists w. by rewrite Nat.add_succ_l, <- Nat.add_succ_r.
Qed.
End MapResults.

Section RoundTrip.
Context {A : AEAD} {HA : AEADLaws A} (nonce : string → result string).
(** crypto/rand fills the slice it is given, whose length is the cipher's. *)
Hypothesis nonce_size : ∀ name n, nonce name = Ok n → String.length n = NonceSize.

Lemma open_seal name v s : seal nonce name v = Ok s → isSealed s = true ∧ open name s = Ok v.
Proof using HA nonce_size.
  unfold seal. destruct (nonce name) as [n|] eqn:E; [|done]. intros H.
  assert (encPrefix ++ EncodeToString (n ++ Seal n v name) = s) as <- by congruence. clear H.
  apply nonce_size in E. split; [unfold isSealed; apply has_prefix_app|].
  unfold open, trim_prefix. rewrite cut_prefix_exact. cbn [default from_option id]. rewrite decode_encode, string_length_app.
  destruct (Nat.ltb_spec (String.length n + String.length (Seal n v name)) NonceSize); [lia|].
  rewrite <- E. rewrite substring_app_l.
  replace (String.length n + _ - String.length n)%nat with (String.length (Seal n v name)) by lia.
  rewrite substring_app_r. by rewrite HA.
Qed.

Lemma open_sealed_seal name v s : seal nonce name v = Ok s → open_sealed name s = Ok v.
Proof using HA nonce_size. intros [H1 H2]%open_seal. unfold open_sealed. by rewrite H1. Qed.

Lemma env_roundtrip m out : map_results (seal nonce) m = Ok out → map_results open_sealed out = Ok m.
Proof using HA nonce_size.
  intros H. apply map_results_ok. intros k. pose proof (map_results_spec _ _ _ H k) as Hk.
  destruct (m !! k) as [v|] eqn:E.
  - destruct Hk as (w & Hw & ->). exists v. split; [by apply open_sealed_seal|done].
  - by rewrite Hk.
Qed.

Lemma accounts_roundtrip l out :
  list_results (λ i b, do! s := seal nonce (passwordName i) (ba_Password b) in Ok (with_password b s)) 0 l = Ok out →
  list_results (λ i b, do! s := open_sealed (passwordName i) (ba_Password b) in Ok (with_password b s)) 0 out = Ok l.
Proof using HA nonce_size.
  intros H. apply list_results_spec in H as [Hl H]. apply list_results_ok; [done|].
  intros j y Hy. assert (is_Some (l !! j)) as [b Hb].
  { apply lookup_lt_is_Some. rewrite <- Hl. apply lookup_lt_is_Some. eauto. }
  destruct (H j b Hb) as (y' & Hs & Hy'). rewrite Hy in Hy'. simplify_eq.
  apply rbind_ok in Hs as (s & Hs & Hw). injection Hw as <-. exists b. split; [|done].
  change (0 + j)%nat with j in *. simpl. rewrite (open_sealed_seal _ _ _ Hs). simpl. by destruct b.
Qed.
End RoundTrip.

(** The one secret option there is: it is there or it is not. *)
Lemma SecretLogOptions_cases a l : a_Logging a = Some l →
  (SecretLogOptions a = [] ∧ log_Options l !! "splunk-token" = None) ∨
  ∃ v, SecretLogOptions a = ["splunk-token"] ∧ log_Options l !! "splunk-token" = Some v.
Proof.
  intros E. unfold SecretLogOptions, LogSecretOptions. rewrite E.
  destruct (log_Options l !! "splunk-token") as [v|] eqn:Ev; [right|left].
  - exists v. rewrite filter_cons_True, filter_nil by (rewrite Ev; eauto). done.
  - rewrite filter_cons_False, filter_nil by (rewrite Ev; by intros [? ?]). done.
Qed.

Section SpecRoundTrip.
Context {A : AEAD} {HA : AEADLaws A} (nonce : string → result string).
Hypothesis nonce_size : ∀ name n, nonce name = Ok n → String.length n = NonceSize.

Lemma seal_env_inv a b : seal_env nonce a = Ok b → ∃ env, b = with_env a env ∧ map_results (seal nonce) (a_Env a) = Ok env.
Proof using.
  unfold seal_env. destruct (decide (a_Env a = ∅)) as [E|E].
  - rewrite bool_decide_eq_true_2 by done. intros H. injection H as <-. exists ∅. rewrite E. split; [|done].
    destruct a; simpl in *. by subst.
  - rewrite bool_decide_eq_false_2 by done. intros H. apply rbind_ok in H as (env & He & H). injection H as <-. eauto.
Qed.

Lemma seal_accounts_inv a b : seal_accounts nonce a = Ok b →
  match a_Proxy a with
  | None => b = a
  | Some p => ∃ l, b = with_proxy a (Some (with_accounts p l)) ∧
      list_results (λ i b, do! s := seal nonce (passwordName i) (ba_Password b) in Ok (with_password b s)) 0 (px_BasicAuth p) = Ok l
  end.
Proof using.
  unfold seal_accounts. destruct (a_Proxy a) as [p|] eqn:Ep; [|by intros; simplify_eq].
  destruct (decide (px_BasicAuth p = [])) as [E|E].
  - rewrite bool_decide_eq_true_2 by done. intros H. injection H as <-. exists []. rewrite E. split; [|done].
    destruct a, p; simpl in *. by subst.
  - rewrite bool_decide_eq_false_2 by done. intros H. apply rbind_ok in H as (l & Hl & H). injection H as <-. eauto.
Qed.

Lemma logging_roundtrip a b : seal_logging nonce a = Ok b → openLogging b = Ok a.
Proof using HA nonce_size.
  unfold seal_logging. intros H. destruct (a_Logging a) as [l|] eqn:El.
  - destruct (SecretLogOptions_cases a l El) as [[Es Hv]|(v & Es & Hv)]; rewrite Es in H.
    + rewrite bool_decide_eq_true_2 in H by done. injection H as <-. unfold openLogging. rewrite El, Es. simpl.
      destruct a, l; simpl in *. by subst.
    + rewrite bool_decide_eq_false_2 in H by done. simpl in H. rewrite Hv in H. simpl in H.
      apply rbind_ok in H as (o & Ho & H). injection H as <-. apply rbind_ok in Ho as (s & Hs & Ho). injection Ho as <-.
      unfold openLogging. simpl.
      destruct (SecretLogOptions_cases (with_logging a (Some (with_options l (<["splunk-token":=s]> (log_Options l)))))
        (with_options l (<["splunk-token":=s]> (log_Options l)))) as [[_ Hn]|(w & Es' & Hw)]; [done| |].
      { simpl in Hn. by rewrite lookup_insert_eq in Hn. }
      rewrite Es'. simpl in *. rewrite lookup_insert_eq in *. injection Hw as <-. simpl.
      destruct (open_seal nonce nonce_size _ _ _ Hs) as [-> ->]. simpl. f_equal.
      rewrite insert_insert_eq, (insert_id _ _ _ Hv). destruct a, l; simpl in *. by subst.
  - injection H as <-. unfold openLogging. by rewrite El.
Qed.

(** Reading back what sealing wrote. *)
Lemma openSpec_sealSpec a b : sealSpec nonce a = Ok b → openSpec b = Ok a.
Proof using HA nonce_size.
  unfold sealSpec. intros H. apply rbind_ok in H as (a1 & H1 & H). apply rbind_ok in H as (a2 & H2 & H3).
  apply logging_roundtrip in H3. unfold openSpec. rewrite H3. simpl.
  apply seal_env_inv in H1 as (env & -> & Henv). apply (env_roundtrip nonce nonce_size) in Henv.
  apply seal_accounts_inv in H2. simpl in H2. destruct (a_Proxy a) as [p|] eqn:Ep.
  - destruct H2 as (l & -> & Hl). apply (accounts_roundtrip nonce nonce_size) in Hl.
    simpl. rewrite Henv. simpl. rewrite Hl. simpl. destruct a, p; simpl in *. by subst.
  - subst a2. simpl. rewrite Henv. simpl. rewrite Ep. destruct a; simpl in *. by subst.
Qed.
End SpecRoundTrip.

(** ** What sealing leaves in plain sight *)

(** Every secret of the specification carries the prefix. *)
Definition sealed_app (a : App) : Prop :=
  map_Forall (λ _ v, isSealed v = true) (a_Env a) ∧
  (∀ p, a_Proxy a = Some p → Forall (λ b, isSealed (ba_Password b) = true) (px_BasicAuth p)) ∧
  (∀ l k v, a_Logging a = Some l → k ∈ LogSecretOptions → log_Options l !! k = Some v → isSealed v = true).

Section Hidden.
Context {A : AEAD} (nonce : string → result string).

Lemma seal_isSealed name v s : seal nonce name v = Ok s → isSealed s = true.
Proof using.
  unfold seal. destruct (nonce name) as [n|]; [|done]. intros H.
  assert (encPrefix ++ EncodeToString (n ++ Seal n v name) = s) as <- by congruence. unfold isSealed. apply has_prefix_app.
Qed.

Lemma seal_env_hides a b : seal_env nonce a = Ok b →
  map_Forall (λ _ v, isSealed v = true) (a_Env b) ∧ a_Proxy b = a_Proxy a ∧ a_Logging b = a_Logging a ∧ Redacted b = Redacted a.
Proof using.
  intros (env & -> & H)%seal_env_inv. split_and!; [|done|done|].
  - intros k v Hk. simpl in Hk. pose proof (map_results_spec _ _ _ H k) as Hs.
    destruct (a_Env a !! k); [|congruence]. destruct Hs as (w & Hw & Ho). rewrite Hk in Ho. simplify_eq. by eapply seal_isSealed.
  - unfold Redacted. simpl. f_equal.
    assert ((λ _ : string, redactedValue) <$> env = (λ _, redactedValue) <$> a_Env a) as Hf.
    { apply map_eq. intros k. rewrite !lookup_fmap. pose proof (map_results_spec _ _ _ H k) as Hs.
      destruct (a_Env a !! k); [by destruct Hs as (w & _ & ->)|by rewrite Hs]. }
    destruct (decide (a_Env a = ∅)) as [E|E].
    + rewrite E in *. assert (env = ∅) as -> by (by injection H as <-). done.
    + rewrite !bool_decide_eq_false_2; [done|done|].
      intros ->. apply E. rewrite fmap_empty in Hf. symmetry in Hf. by apply fmap_empty_inv in Hf.
Qed.

Lemma seal_accounts_hides a b : seal_accounts nonce a = Ok b →
  a_Env b = a_Env a ∧ a_Logging b = a_Logging a ∧ Redacted b = Redacted a ∧
  (∀ p, a_Proxy b = Some p → Forall (λ b, isSealed (ba_Password b) = true) (px_BasicAuth p)).
Proof using.
  intros H. apply seal_accounts_inv in H. destruct (a_Proxy a) as [p|] eqn:Ep.
  - destruct H as (l & -> & [Hl H]%list_results_spec). split_and!; [done|done| |].
    + unfold Redacted. simpl. f_equal. rewrite Ep. simpl.
      assert (((λ b, mk_basicauth (ba_Path b) (ba_Username b) redactedValue) <$> l) =
              (λ b, mk_basicauth (ba_Path b) (ba_Username b) redactedValue) <$> px_BasicAuth p) as Hf.
      { apply list_eq. intros j. rewrite !list_lookup_fmap. destruct (px_BasicAuth p !! j) as [x|] eqn:Ej.
        - destruct (H j x Ej) as (y & Hy & ->). apply rbind_ok in Hy as (s & _ & Hy). by injection Hy as <-.
        - apply lookup_ge_None in Ej. by rewrite (proj2 (lookup_ge_None l j)) by lia. }
      destruct p as [strip headers accounts redirects]. simpl in *.
      destruct accounts as [|x r], l as [|y t]; try discriminate Hf; [done|].
      rewrite !bool_decide_eq_false_2 by done. by rewrite Hf.
    + simpl. intros q [= <-]. simpl. apply Forall_lookup. intros j y Hy.
      assert (is_Some (px_BasicAuth p !! j)) as [x Hx] by (apply lookup_lt_is_Some; rewrite <- Hl; apply lookup_lt_is_Some; eauto).
      destruct (H j x Hx) as (y' & Hs & Hy'). rewrite Hy in Hy'. simplify_eq.
      apply rbind_ok in Hs as (s & Hs & Hw). injection Hw as <-. simpl. by eapply seal_isSealed.
  - subst b. split_and!; [done..|]. intros p Hp. congruence.
Qed.

Lemma seal_logging_hides a b : seal_logging nonce a = Ok b →
  a_Env b = a_Env a ∧ a_Proxy b = a_Proxy a ∧ Redacted b = Redacted a ∧
  (∀ l k v, a_Logging b = Some l → k ∈ LogSecretOptions → log_Options l !! k = Some v → isSealed v = true).
Proof using.
  intros H. unfold seal_logging in H. destruct (a_Logging a) as [l|] eqn:El.
  - destruct (SecretLogOptions_cases a l El) as [[Es Hv]|(v & Es & Hv)]; rewrite Es in H.
    + rewrite bool_decide_eq_true_2 in H by done. injection H as <-. split_and!; [done..|].
      intros l' k v El' Hk Hl. rewrite El in El'. simplify_eq. unfold LogSecretOptions in Hk.
      apply list_elem_of_singleton in Hk as ->. congruence.
    + rewrite bool_decide_eq_false_2 in H by done. simpl in H. rewrite Hv in H. simpl in H.
      apply rbind_ok in H as (o & Ho & H). injection H as <-. apply rbind_ok in Ho as (s & Hs & Ho). injection Ho as <-.
      split_and!; [done|done| |].
      * unfold Redacted. simpl. f_equal. rewrite El. simpl.
        rewrite !bool_decide_eq_false_2; [|intros E; by rewrite E, lookup_empty in Hv|apply insert_non_empty].
        do 2 f_equal. apply map_eq. intros k. rewrite !map_lookup_imap.
        destruct (decide (k = "splunk-token")) as [->|]; [by rewrite lookup_insert_eq, Hv|by rewrite lookup_insert_ne by done].
      * simpl. intros l' k w [= <-] Hk Hl. unfold LogSecretOptions in Hk. apply list_elem_of_singleton in Hk as ->.
        simpl in Hl. rewrite lookup_insert_eq in Hl. simplify_eq. by eapply seal_isSealed.
  - injection H as <-. split_and!; [done..|]. congruence.
Qed.

Lemma sealSpec_hides a b : sealSpec nonce a = Ok b → sealed_app b ∧ Redacted b = Redacted a.
Proof using.
  unfold sealSpec. intros H. apply rbind_ok in H as (a1 & H1 & H). apply rbind_ok in H as (a2 & H2 & H3).
  apply seal_env_hides in H1 as (He & Hp1 & Hl1 & Hr1). apply seal_accounts_hides in H2 as (He2 & Hl2 & Hr2 & Hp2).
  apply seal_logging_hides in H3 as (He3 & Hp3 & Hr3 & Hl3). unfold sealed_app.
  rewrite He3, Hp3, He2. split_and!; [done..|congruence].
Qed.
End Hidden.

(** ** Properties *)

(** A cipher that binds its values to their names, to try the properties on. *)
Definition toy_AEAD (key : string) : AEAD :=
  {| NonceSize := 2; Seal := λ n p d, key ++ n ++ d ++ ":" ++ p;
     Open := λ n c d, cut_prefix (key ++ n ++ d ++ ":") c |}.
Lemma string_app_assoc a b c : (a ++ b) ++ c = a ++ b ++ c.
Proof. induction a as [|x a IH]; simpl; [done|]. by rewrite IH. Qed.
Lemma toy_laws key : AEADLaws (toy_AEAD key).
Proof.
  intros n p d _. cbn [Open Seal toy_AEAD].
  replace (key ++ n ++ d ++ ":" ++ p) with ((key ++ n ++ d ++ ":") ++ p) by by rewrite !string_app_assoc.
  apply cut_prefix_exact.
Qed.

Definition secret_app : App :=
  with_logging (with_proxy (with_env (mk_app "api" "" 0 "" [] [] 1 ∅ None (mk_resources float_zero 0) [] [] [] [] "" None [] None
    None None "" None None "always" "rolling" 0 false None)
    {["TOKEN" := "hunter2"]})
    (Some (mk_proxy false ∅ [mk_basicauth "" "admin" "correct horse"] [])))
    (Some (mk_logging "splunk" {["splunk-token" := "t0k3n"; "splunk-url" := "https://log"]})).

(** A specification the store has sealed opens to what was sealed, every
    environment value, password and logging credential of the stored form
    carries the prefix of a sealed value, and nothing but those secrets
    differs from what was given. *)
Theorem sealed_spec_roundtrip (A : AEAD) (nonce : string → result string) (a b : App) :
  AEADLaws A → (∀ name n, nonce name = Ok n → String.length n = NonceSize) →
  store_sealSpec (Some A) nonce a = Ok b →
  store_openSpec (Some A) b = Ok a ∧ sealed_app b ∧ Redacted b = Redacted a.
Proof.
  simpl. intros HA Hn H. split; [by eapply openSpec_sealSpec|by eapply sealSpec_hides].
Qed.

Lemma sealed_spec_roundtrip_witness : ∃ b, store_sealSpec (Some (toy_AEAD "k")) (λ _, Ok "nn") secret_app = Ok b ∧
  b ≠ secret_app ∧ store_openSpec (Some (toy_AEAD "k")) b = Ok secret_app.
Proof.
  eexists. split; [vm_compute; reflexivity|]. split; [vm_compute; discriminate|].
  eapply (sealed_spec_roundtrip (toy_AEAD "k") (λ _, Ok "nn") secret_app); [apply toy_laws|by intros ? ? [= <-]|vm_compute; reflexivity].
Defined.

(** A value sealed before the key was rotated opens after it, as does a
    value sealed since; so no reader of a row fetched just before a rotation
    fails.  The new cipher is one that does not authenticate values of the
    old one. *)
Theorem rotation_keeps_values (k : keyring) (next : AEAD) (nonce : string → result string) (name value stored : string) :
  AEADLaws (current k) → AEADLaws next → @NonceSize next = @NonceSize (current k) →
  (∀ name n, nonce name = Ok n → String.length n = @NonceSize next) →
  (∀ n v d, @Open next n (@Seal (current k) n v d) d = None) →
  (@seal (keyring_AEAD k) nonce name value = Ok stored → @open (keyring_AEAD (rotate k next)) name stored = Ok value) ∧
  (@seal (keyring_AEAD (rotate k next)) nonce name value = Ok stored → @open (keyring_AEAD (rotate k next)) name stored = Ok value).
Proof.
  intros Hc Hx Hsz Hn Hnot. split; intros H.
  - set (old := {| NonceSize := @NonceSize next; Seal := @Seal (current k); Open := keyring_Open (rotate k next) |}).
    assert (AEADLaws old) as Hold.
    { intros n p d Hl. cbn [Open Seal old]. unfold keyring_Open, rotate. cbn [current previous].
      rewrite Hnot. apply Hc. simpl in Hl. congruence. }
    exact (proj2 (@open_seal old Hold nonce Hn name value stored H)).
  - assert (AEADLaws (keyring_AEAD (rotate k next))) as Hr.
    { intros n p d Hl. cbn [Open Seal keyring_AEAD]. unfold keyring_Open, rotate. cbn [current previous].
      by rewrite Hx. }
    exact (proj2 (@open_seal _ Hr nonce Hn name value stored H)).
Qed.

Lemma rotation_keeps_values_witness :
  ∃ stored, @seal (keyring_AEAD (mk_keyring (toy_AEAD "a") None)) (λ _, Ok "nn") "TOKEN" "hunter2" = Ok stored ∧
    @open (keyring_AEAD (rotate (mk_keyring (toy_AEAD "a") None) (toy_AEAD "b"))) "TOKEN" stored = Ok "hunter2".
Proof.
  eexists. split; [vm_compute; reflexivity|].
  refine (proj1 (rotation_keeps_values (mk_keyring (toy_AEAD "a") None) (toy_AEAD "b") (λ _, Ok "nn") "TOKEN" "hunter2" _ _ _ _ _ _) _);
    [apply toy_laws..|done|by intros ? ? [= <-]|done|vm_compute; reflexivity].
Defined.
