(* ===== verification/SpecReferences.v ===== *)
(** * References to secrets (pkg/spec/document.go)

    The secret values of a document that were written as ${NAME}: what is
    collected from a document, and what of it still applies to another
    specification. *)

From stdpp Require Import sorting.
From S2P Require Import Prelude GoStrings SpecTypes SpecNames SpecValidate Crypto.
From Stdlib Require Import Ascii String.
Local Open Scope string_scope.

Record References := mk_references {
  ref_Env : gmap string string;      (** by variable *)
  ref_BasicAuth : gmap Z string;     (** by position in proxy.basic_auth *)
  ref_Plain : list string;
  ref_Scoped : list string;
  ref_Logging : gmap string string   (** by option *)
}.

Definition no_references : References := mk_references ∅ ∅ [] [] ∅.
Definition Empty (r : References) : bool :=
  bool_decide (ref_Env r = ∅) && bool_decide (ref_BasicAuth r = ∅) && bool_decide (ref_Plain r = []) && bool_decide (ref_Logging r = ∅).

Definition accounts_of (a : App) : list BasicAuth := match a_Proxy a with Some p => px_BasicAuth p | None => [] end.
Definition option_value (a : App) (name : string) : string :=
  match a_Logging a with Some l => default "" (log_Options l !! name) | None => "" end.

Definition passwords_with_references (accounts : list BasicAuth) : gmap Z string :=
  list_to_map (omap (λ '(i, b), if hasPlaceholder (ba_Password b) then Some (Z.of_nat i, ba_Password b) else None)
                (imap pair accounts)).

Definition options_with_references (value : string → string) (names : list string) : gmap string string :=
  list_to_map (omap (λ name, if hasPlaceholder (value name) then Some (name, value name) else None) names).

Definition ReferencesOf (a : App) : References :=
  mk_references (filter (λ e, hasPlaceholder e.2 = true) (a_Env a))
    (passwords_with_references (accounts_of a)) [] []
    (options_with_references (option_value a) (SecretLogOptions a)).

(** The names that pass, each once, in the order they come. *)
Fixpoint once (keep : string → bool) (out : list string) (names : list string) : list string :=
  match names with
  | [] => out
  | n :: r => once keep (if keep n && negb (contains out n) then (out ++ [n])%list else out) r
  end.
Definition sorted_once (keep : string → bool) (names : list string) : list string := merge_sort str_le (once keep [] names).

Definition names_in {K} `{Countable K} (m : gmap K string) : list string := flat_map (λ e, placeholderNames e.2) (map_to_list m).

Definition For (r : References) (a : App) : References :=
  let env := filter (λ e, is_Some (a_Env a !! e.1) ∧ hasPlaceholder e.2 = true) (ref_Env r) in
  let accounts := Z.of_nat (List.length (accounts_of a)) in
  let auth := filter (λ e, (0 ≤ e.1 < accounts)%Z ∧ hasPlaceholder e.2 = true) (ref_BasicAuth r) in
  let logging := options_with_references (λ name, default "" (ref_Logging r !! name)) (SecretLogOptions a) in
  let plain := sorted_once (λ name, bool_decide (is_Some (a_Env a !! name)) && String.eqb (default "" (env !! name)) "") (ref_Plain r) in
  let referred := (names_in env ++ names_in auth ++ names_in logging)%list in
  let scoped := sorted_once (contains referred) (ref_Scoped r) in
  mk_references env auth plain scoped logging.

(** PlainFields and MaskedFields: fields of a report, by their names in the document. *)
Definition PlainFields (r : References) (a : App) : list string := (λ name, "env." ++ name) <$> ref_Plain (For r a).

Definition Mask : string := redactedValue.
Definition MaskedFields (a : App) : list string :=
  let env := omap (λ e, if String.eqb e.2 Mask then Some ("env." ++ e.1)%string else None) (map_to_list (a_Env a)) in
  let options := omap (λ name, if String.eqb (option_value a name) Mask then Some ("logging.options." ++ name)%string else None)
                   (SecretLogOptions a) in
  let passwords := omap (λ '(i, b), if String.eqb (ba_Password b) Mask then Some (passwordName i) else None)
                     (imap pair (accounts_of a)) in
  (merge_sort str_le env ++ options ++ passwords)%list.

(** ** Lists of names *)

#[export] Instance str_le_total : Total str_le.
Proof. intros x y. unfold str_le. rewrite (str_compare_antisym y x). lia. Qed.

#[export] Instance str_le_trans : Transitive str_le.
Proof. intros x y z. apply str_compare_trans. Qed.
#[export] Instance str_le_antisymm : AntiSymm (=) str_le.
Proof.
  intros x y H1 H2. unfold str_le in *. rewrite (str_compare_antisym x y) in H2.
  apply str_compare_eq. lia.
Qed.

Lemma once_spec keep out names : NoDup out →
  NoDup (once keep out names) ∧ ∀ n, n ∈ once keep out names ↔ n ∈ out ∨ (n ∈ names ∧ keep n = true).
Proof.
  revert out. induction names as [|x r IH]; intros out Hd; simpl.
  - split; [done|]. intros n. rewrite elem_of_nil. tauto.
  - destruct (keep x && negb (contains out x)) eqn:E.
    + bools. assert (x ∉ out) as Hx by (rewrite <- contains_spec; congruence).
      destruct (IH (out ++ [x])%list) as [H1 H2].
      { apply NoDup_app. split_and!; [done| |by apply NoDup_singleton]. intros y Hy ->%list_elem_of_singleton. done. }
      split; [done|]. intros n. rewrite H2, elem_of_app, list_elem_of_singleton, elem_of_cons. intuition congruence.
    + destruct (IH out Hd) as [H1 H2]. split; [done|]. intros n. rewrite H2, elem_of_cons.
      split; [tauto|]. intros [?|[[Hn|?] Hk]]; [by left|subst n|by right].
      rewrite Hk in E. simpl in E. apply negb_false_iff in E. rewrite contains_spec in E. by left.
Qed.

(** Names already sorted, distinct and kept stay as they are. *)
Lemma once_id keep names : NoDup names → Forall (λ n, keep n = true) names → ∀ out, (∀ n, n ∈ names → n ∉ out) →
  once keep out names = (out ++ names)%list.
Proof.
  intros Hd Hk. induction names as [|x r IH]; intros out Ho; simpl; [by rewrite app_nil_r|].
  apply NoDup_cons in Hd as [Hx Hd]. apply Forall_cons in Hk as [-> Hk].
  assert (contains out x = false) as ->.
  { apply not_true_iff_false. rewrite contains_spec. apply Ho. by left. }
  simpl. rewrite IH; [by rewrite <- app_assoc|done|done|].
  intros n Hn. rewrite elem_of_app, list_elem_of_singleton. intros [H|H]; [|by subst]. apply (Ho n); [by right|done].
Qed.

Lemma sorted_once_idem keep names : sorted_once keep (sorted_once keep names) = sorted_once keep names.
Proof.
  unfold sorted_once at 1. set (l := sorted_once keep names).
  destruct (once_spec keep [] names) as [Hd Hin]; [constructor|].
  assert (l ≡ₚ once keep [] names) as Hp by apply merge_sort_Permutation.
  rewrite (once_id keep l); [|by rewrite Hp| |by intros n _ ?%elem_of_nil].
  - simpl. apply (Sorted_unique str_le); [apply (Sorted_merge_sort _)..|apply merge_sort_Permutation].
  - apply Forall_forall. intros n Hn. rewrite Hp in Hn. apply Hin in Hn as [?%elem_of_nil|[_ ?]]; done.
Qed.

Lemma sorted_once_ext keep keep' names : (∀ n, keep n = keep' n) → sorted_once keep names = sorted_once keep' names.
Proof.
  intros H. unfold sorted_once. f_equal. generalize (@nil string). induction names as [|n r IH]; intros out; simpl; [done|].
  by rewrite H, IH.
Qed.


(** ** What applies to a specification *)

Lemma no_placeholder_empty : hasPlaceholder "" = false.
Proof. reflexivity. Qed.

Lemma SecretLogOptions_one a : SecretLogOptions a = [] ∨ SecretLogOptions a = ["splunk-token"].
Proof.
  destruct (a_Logging a) as [l|] eqn:El; [|left; unfold SecretLogOptions; by rewrite El].
  destruct (SecretLogOptions_cases a l El) as [[? _]|(v & ? & _)]; auto.
Qed.

(** Collecting the same options from what was collected finds the same. *)
Lemma options_again value a :
  options_with_references (λ name, default "" (options_with_references value (SecretLogOptions a) !! name)) (SecretLogOptions a)
  = options_with_references value (SecretLogOptions a).
Proof.
  destruct (SecretLogOptions_one a) as [->| ->]; [done|].
  unfold options_with_references at 2 3. cbn [omap list_omap].
  destruct (hasPlaceholder (value "splunk-token")) eqn:E; cbn [list_to_map foldr fst snd].
  - unfold options_with_references. cbn [omap list_omap]. rewrite insert_empty, lookup_singleton_eq. cbn [default from_option id].
    rewrite E. cbn [list_to_map foldr fst snd]. by rewrite insert_empty.
  - unfold options_with_references. cbn [omap list_omap]. rewrite lookup_empty. cbn [default from_option id].
    by rewrite no_placeholder_empty.
Qed.

Lemma For_idem r a : For (For r a) a = For r a.
Proof.
  unfold For at 1. cbn [ref_Env ref_BasicAuth ref_Plain ref_Scoped ref_Logging For].
  rewrite options_again.
  rewrite (map_filter_id _ (filter (λ e, is_Some (a_Env a !! e.1) ∧ hasPlaceholder e.2 = true) (ref_Env r)))
    by (intros i x [_ ?]%map_lookup_filter_Some; done).
  rewrite (map_filter_id _ (filter (λ e, (0 ≤ e.1 < Z.of_nat (List.length (accounts_of a)))%Z ∧ hasPlaceholder e.2 = true) (ref_BasicAuth r)))
    by (intros i x [_ ?]%map_lookup_filter_Some; done).
  by rewrite !sorted_once_idem.
Qed.

Lemma passwords_in_range l i x : passwords_with_references l !! i = Some x →
  (0 ≤ i < Z.of_nat (List.length l))%Z ∧ hasPlaceholder x = true.
Proof.
  unfold passwords_with_references. intros H%elem_of_list_to_map_2.
  apply list_elem_of_omap in H as ([j b] & Hj & H). apply elem_of_lookup_imap in Hj as (k & c & [= -> ->] & Hk).
  destruct (hasPlaceholder (ba_Password c)) eqn:E; simplify_eq. split; [|done].
  apply lookup_lt_Some in Hk. lia.
Qed.

Lemma ReferencesOf_For a : For (ReferencesOf a) a = ReferencesOf a.
Proof.
  unfold For, ReferencesOf. cbn [ref_Env ref_BasicAuth ref_Plain ref_Scoped ref_Logging]. f_equal.
  - apply map_filter_id. intros i x [Hi ?]%map_lookup_filter_Some. simpl in *. eauto.
  - apply map_filter_id. intros i x H%passwords_in_range. done.
  - apply options_again.
Qed.

Lemma redacted_env a k : is_Some (a_Env (Redacted a) !! k) ↔ is_Some (a_Env a !! k).
Proof.
  unfold Redacted. cbn [a_Env]. case_bool_decide; [done|]. rewrite lookup_fmap. apply fmap_is_Some.
Qed.
Lemma redacted_accounts a : List.length (accounts_of (Redacted a)) = List.length (accounts_of a).
Proof.
  unfold accounts_of, Redacted. cbn [a_Proxy]. destruct (a_Proxy a) as [p|]; [|done]. simpl.
  case_bool_decide; [done|]. apply length_fmap.
Qed.
Lemma redacted_options a : SecretLogOptions (Redacted a) = SecretLogOptions a.
Proof.
  unfold SecretLogOptions, Redacted. cbn [a_Logging]. destruct (a_Logging a) as [l|]; [|done]. simpl.
  case_bool_decide as E; [done|]. cbn [log_Options]. apply list_filter_iff. intros k.
  rewrite map_lookup_imap. destruct (log_Options l !! k); simpl; [|done]. split; eauto.
Qed.

Lemma For_Redacted r a : For r (Redacted a) = For r a.
Proof.
  unfold For. cbv zeta. rewrite redacted_accounts, redacted_options.
  assert (filter (λ e, is_Some (a_Env (Redacted a) !! e.1) ∧ hasPlaceholder e.2 = true) (ref_Env r)
    = filter (λ e, is_Some (a_Env a !! e.1) ∧ hasPlaceholder e.2 = true) (ref_Env r)) as ->
    by (apply map_filter_ext; intros i x _; by rewrite redacted_env).
  f_equal. apply sorted_once_ext. intros n. f_equal. apply bool_decide_ext, redacted_env.
Qed.

(** ** Properties *)

(** The references that apply to a specification apply to it still when
    they are narrowed again, those collected from a document all apply to it,
    and which apply does not depend on the secret values of the
    specification: its redacted form answers the same. *)
Theorem references_apply (r : References) (a : App) :
  For (For r a) a = For r a ∧ For (ReferencesOf a) a = ReferencesOf a ∧ For r (Redacted a) = For r a.
Proof. split_and!; [apply For_idem|apply ReferencesOf_For|apply For_Redacted]. Qed.

(** An environment value the record of a deployment may give back as it
    was written is one the sender named, that the specification has, and that
    holds no reference; and each is given once. *)
Theorem plain_is_named (r : References) (a : App) :
  NoDup (ref_Plain (For r a)) ∧
  ∀ name, name ∈ ref_Plain (For r a) ↔
    name ∈ ref_Plain r ∧ is_Some (a_Env a !! name) ∧ ref_Env (For r a) !! name = None.
Proof.
  unfold For. cbn [ref_Plain ref_Env]. unfold sorted_once.
  match goal with |- context [once ?k [] _] => set (keep := k) end.
  destruct (once_spec keep [] (ref_Plain r)) as [Hd Hin]; [constructor|].
  pose proof (merge_sort_Permutation str_le (once keep [] (ref_Plain r))) as Hp.
  split; [by rewrite Hp|]. intros name. rewrite Hp, Hin, elem_of_nil.
  unfold keep. rewrite andb_true_iff, bool_decide_eq_true, String.eqb_eq.
  set (env := filter _ (ref_Env r)).
  assert (default "" (env !! name) = "" ↔ env !! name = None) as ->; [|tauto].
  destruct (env !! name) as [x|] eqn:E; [|done]. simpl. split; [|done]. intros ->.
  apply map_lookup_filter_Some in E as [_ [_ E]]. discriminate E.
Qed.
