(* ===== verification/DeployState.v ===== *)
(** * The deployment state machine (agent/internal/deploy/state.go)

    The statuses of a deployment (pkg/api/types.go), the transitions between
    them, and the order a rollout passes through them in (rollout.go). *)

From S2P Require Import Prelude.
Local Open Scope Z_scope.

Inductive DeploymentStatus :=
  | StatusPending | StatusBuilding | StatusStarting | StatusHealthChecking | StatusHealthy
  | StatusActive | StatusSuperseded | StatusFailed | StatusRollback | StatusRestoring | StatusRolledBack.

#[export] Instance status_eq_dec : EqDecision DeploymentStatus.
Proof. solve_decision. Defined.

Definition statuses : list DeploymentStatus :=
  [StatusPending; StatusBuilding; StatusStarting; StatusHealthChecking; StatusHealthy; StatusActive;
   StatusSuperseded; StatusFailed; StatusRollback; StatusRestoring; StatusRolledBack].

Definition transitions (s : DeploymentStatus) : list DeploymentStatus :=
  match s with
  | StatusPending => [StatusBuilding; StatusFailed]
  | StatusBuilding => [StatusStarting; StatusFailed]
  | StatusStarting => [StatusHealthChecking; StatusFailed]
  | StatusHealthChecking => [StatusHealthy; StatusFailed]
  | StatusHealthy => [StatusActive; StatusFailed]
  | StatusActive => [StatusSuperseded]
  | StatusFailed => [StatusRollback]
  | StatusRollback => [StatusRestoring; StatusFailed]
  | StatusRestoring => [StatusRolledBack; StatusFailed]
  | StatusSuperseded => []
  | StatusRolledBack => []
  end.

Fixpoint any_is (to : DeploymentStatus) (nexts : list DeploymentStatus) : bool :=
  match nexts with
  | [] => false
  | next :: r => if bool_decide (next = to) then true else any_is to r
  end.
Definition CanTransition (from to : DeploymentStatus) : bool := any_is to (transitions from).

Definition IsSettled (s : DeploymentStatus) : bool :=
  match s with
  | StatusActive | StatusSuperseded | StatusFailed | StatusRolledBack => true
  | _ => false
  end.

(** The source ranges over the keys of [transitions], in no order. *)
Definition InFlightStatuses : list DeploymentStatus := filter (λ s, IsSettled s = false) statuses.

(** progress (rollout.go): a status it does not name is 0. *)
Definition progress (s : DeploymentStatus) : Z :=
  match s with
  | StatusPending => 0
  | StatusBuilding => 1
  | StatusStarting => 2
  | StatusHealthChecking => 3
  | StatusHealthy => 4
  | StatusFailed => 5
  | StatusRollback => 6
  | StatusRestoring => 7
  | StatusActive | StatusSuperseded | StatusRolledBack => 0
  end.

Lemma any_is_spec to l : any_is to l = true ↔ to ∈ l.
Proof.
  induction l as [|n r IH]; simpl; [by rewrite elem_of_nil|]. rewrite elem_of_cons.
  case_bool_decide; [by subst; tauto|]. rewrite IH. intuition congruence.
Qed.

(** A deployment on its way, by legal steps. *)
Inductive steps : DeploymentStatus → list DeploymentStatus → DeploymentStatus → Prop :=
  | steps_here s : steps s [] s
  | steps_on s n l t : CanTransition s n = true → steps n l t → steps s (n :: l) t.

(** What a deployment passes on its way to a status of the way up. *)
Definition way_up (s : DeploymentStatus) : list DeploymentStatus :=
  match s with
  | StatusPending => []
  | StatusBuilding => [StatusBuilding]
  | StatusStarting => [StatusBuilding; StatusStarting]
  | StatusHealthChecking => [StatusBuilding; StatusStarting; StatusHealthChecking]
  | StatusHealthy => [StatusBuilding; StatusStarting; StatusHealthChecking; StatusHealthy]
  | StatusActive => [StatusBuilding; StatusStarting; StatusHealthChecking; StatusHealthy; StatusActive]
  | StatusSuperseded => [StatusBuilding; StatusStarting; StatusHealthChecking; StatusHealthy; StatusActive; StatusSuperseded]
  | _ => []
  end.

Lemma CanTransition_cases s n : CanTransition s n = true →
  n = StatusFailed ∨ (s = StatusFailed ∧ n = StatusRollback) ∨ (s = StatusRollback ∧ n = StatusRestoring)
  ∨ (s = StatusRestoring ∧ n = StatusRolledBack) ∨ way_up n = (way_up s ++ [n])%list.
Proof. destruct s, n; intros H; try discriminate H; simpl; auto 10. Qed.

(** The way back from a failure, as far as it has come. *)
Definition failing (s : DeploymentStatus) : bool :=
  match s with StatusFailed | StatusRollback | StatusRestoring | StatusRolledBack => true | _ => false end.

(** What a legal path from PENDING has passed: the whole way up to where it
    is, or a failure. *)
Lemma steps_from s l t : steps s l t →
  (failing s = true → failing t = true) ∧
  (failing s = false → failing t = false → way_up t = (way_up s ++ l)%list) ∧
  (failing s = false → failing t = true → StatusFailed ∈ l).
Proof.
  induction 1 as [s|s n l t Hn _ (IH1 & IH2 & IH3)].
  - split_and!; [done|by rewrite app_nil_r|congruence].
  - assert (failing s = true → failing n = true) as Hf by (destruct s, n; try discriminate Hn; done).
    split_and!; [tauto| |].
    + intros Hs Ht. assert (failing n = false) as En by (destruct (failing n); [rewrite IH1 in Ht by done|]; done).
      rewrite IH2 by done. destruct s, n; try discriminate; reflexivity.
    + intros Hs Ht. destruct (failing n) eqn:En; [|right; by apply IH3].
      assert (n = StatusFailed) as -> by (destruct s, n; try discriminate Hn; try discriminate Hs; try discriminate En; done).
      left.
Qed.

(** A deployment that has come to be ACTIVE from PENDING by legal steps
    has passed BUILDING, STARTING, HEALTH_CHECKING and HEALTHY in that order,
    once each; one that is rolled back has failed; the outcomes that cannot be
    left are SUPERSEDED and ROLLED_BACK; and every status in flight has a step
    to FAILED. *)
Theorem state_machine (l : list DeploymentStatus) :
  (steps StatusPending l StatusActive →
     l = [StatusBuilding; StatusStarting; StatusHealthChecking; StatusHealthy; StatusActive]) ∧
  (steps StatusPending l StatusRolledBack → StatusFailed ∈ l) ∧
  (∀ s, (∀ n, CanTransition s n = false) ↔ s = StatusSuperseded ∨ s = StatusRolledBack) ∧
  (∀ s, s ∈ InFlightStatuses ↔ IsSettled s = false) ∧
  (∀ s, s ∈ InFlightStatuses → CanTransition s StatusFailed = true).
Proof.
  split_and!.
  - intros (_ & H & _)%steps_from. symmetry. by apply H.
  - intros (_ & _ & H)%steps_from. by apply H.
  - intros s. split.
    + intros H. destruct s; try (by auto); exfalso;
        match type of H with ∀ n, CanTransition ?x n = false =>
          let n := eval cbv in (head (transitions x)) in
          match n with Some ?y => specialize (H y); discriminate H end end.
    + intros [->| ->] n; reflexivity.
  - intros s. unfold InFlightStatuses. rewrite list_elem_of_filter. split; [tauto|]. intros H. split; [done|].
    destruct s; unfold statuses; set_solver.
  - intros s. destruct s; unfold InFlightStatuses; vm_compute; intros H; try reflexivity;
      exfalso; repeat (apply elem_of_cons in H as [H|H]; [discriminate H|]); by apply elem_of_nil in H.
Qed.

(** A legal step of a deployment in flight is a step on, or the end. *)
Lemma CanTransition_progress s n : CanTransition s n = true → IsSettled s = false →
  progress s < progress n ∨ (s = StatusHealthy ∧ n = StatusActive) ∨ (s = StatusRestoring ∧ n = StatusRolledBack)
  ∨ (n = StatusFailed ∧ failing s = true).
Proof. destruct s, n; intros H ?; try discriminate; simpl; auto 6; left; lia. Qed.
