(* ===== verification/Store.v ===== *)
(** * The store: applications, deployments, replicas, events

    (agent/internal/store: deployments.go, applications.go, resume.go,
    static.go, references.go, and MarkDeploymentDormant of standby.go.)  A
    database is its tables, a row a record, an SQL statement a function on the
    tables: one connection serialises all access, and a transaction that fails
    changes nothing.  A statement that the database refuses for reasons of its
    own (a full disk) is not part of these functions: their callers are given
    the refusal instead of the call.  Times are kept as they are (the text of a
    time keeps its nanoseconds), and so are specifications, sealed (Crypto.v):
    the JSON in between is an encoding of the same record. *)

From stdpp Require Import sorting.
From S2P Require Import Prelude GoStrings GoTime SpecTypes SpecValidate SpecReferences Crypto DeployState.
From Stdlib Require Import Ascii String.
Local Open Scope string_scope.
Local Open Scope Z_scope.

(** ** What callers see *)

Record Application := mk_application {
  app_ID : Z; app_Name : string; app_DesiredState : string;
  app_ActiveDeploymentID : option Z; app_CreatedAt : Time; app_UpdatedAt : Time }.

Record Deployment := mk_deployment {
  d_ID : Z; d_ApplicationID : Z; d_Application : string; d_Sequence : Z;
  d_Version : string; d_Image : string; d_Spec : App; d_Status : DeploymentStatus; d_Error : string;
  d_StartedAt : Time; d_CompletedAt : option Time; d_Kind : string; d_SourceID : option Z; d_Actor : string;
  d_StaticDigest : string; d_StaticFiles : Z; d_StaticBytes : Z; d_References : References }.

Record Replica := mk_replica {
  r_DeploymentID : Z; r_Index : Z; r_ContainerID : string; r_ContainerName : string; r_Restarts : Z }.

Definition DesiredRunning := "running".
Definition DesiredStopped := "stopped".
Definition KindDeploy := "deploy".

Inductive store_error := ErrNotFound | ErrConflict | ErrConstraint | ErrOther (e : text).
Abbreviation answer A := (store_error + A)%type.

(** ** The tables *)

Record row := mk_row {
  w_id : Z; w_application_id : Z; w_sequence : Z; w_version : string; w_image : string; w_spec : App;
  w_status : DeploymentStatus; w_error : string; w_started_at : Time; w_completed_at : option Time;
  w_kind : string; w_source : option Z; w_actor : string;
  w_static_digest : string; w_static_files : Z; w_static_bytes : Z; w_dormant : bool }.

Record replica_row := mk_replica_row {
  x_deployment_id : Z; x_index : Z; x_container_id : string; x_container_name : string;
  x_restart_count : Z; x_created_at : Time; x_removed_at : option Time }.

Record event_row := mk_event_row {
  e_id : Z; e_application_id : Z; e_deployment_id : option Z; e_level : string; e_type : string;
  e_message : string; e_created_at : Time }.

(** [last_deployment] and [last_event] are AUTOINCREMENT's memory. *)
Record DB := mk_db {
  applications : list Application; deployments : list row; deployment_replicas : list replica_row;
  deployment_references : list (Z * string); events : list event_row;
  last_deployment : Z; last_event : Z }.

Definition set_applications (db : DB) l := mk_db l (deployments db) (deployment_replicas db) (deployment_references db) (events db) (last_deployment db) (last_event db).
Definition set_deployments (db : DB) l := mk_db (applications db) l (deployment_replicas db) (deployment_references db) (events db) (last_deployment db) (last_event db).
Definition set_replicas (db : DB) l := mk_db (applications db) (deployments db) l (deployment_references db) (events db) (last_deployment db) (last_event db).

Definition with_status (w : row) (s : DeploymentStatus) (err : string) : row :=
  mk_row (w_id w) (w_application_id w) (w_sequence w) (w_version w) (w_image w) (w_spec w) s err
    (w_started_at w) (w_completed_at w) (w_kind w) (w_source w) (w_actor w)
    (w_static_digest w) (w_static_files w) (w_static_bytes w) (w_dormant w).
Definition with_completed (w : row) (t : option Time) : row :=
  mk_row (w_id w) (w_application_id w) (w_sequence w) (w_version w) (w_image w) (w_spec w) (w_status w) (w_error w)
    (w_started_at w) t (w_kind w) (w_source w) (w_actor w)
    (w_static_digest w) (w_static_files w) (w_static_bytes w) (w_dormant w).
Definition with_source (w : row) (source : option Z) : row :=
  mk_row (w_id w) (w_application_id w) (w_sequence w) (w_version w) (w_image w) (w_spec w) (w_status w) (w_error w)
    (w_started_at w) (w_completed_at w) (w_kind w) source (w_actor w)
    (w_static_digest w) (w_static_files w) (w_static_bytes w) (w_dormant w).
Definition with_dormant (w : row) : row :=
  mk_row (w_id w) (w_application_id w) (w_sequence w) (w_version w) (w_image w) (w_spec w) (w_status w) (w_error w)
    (w_started_at w) (w_completed_at w) (w_kind w) (w_source w) (w_actor w)
    (w_static_digest w) (w_static_files w) (w_static_bytes w) true.
Definition with_active (a : Application) (active : option Z) : Application :=
  mk_application (app_ID a) (app_Name a) (app_DesiredState a) active (app_CreatedAt a) (app_UpdatedAt a).

(** UPDATE … SET … WHERE cond, and RowsAffected. *)
Definition update {A} (cond : A → bool) (f : A → A) (l : list A) : list A := (λ x, if cond x then f x else x) <$> l.
Definition affected {A} (cond : A → bool) (l : list A) : nat := List.length (List.filter cond l).
Definition find_row {A} (cond : A → bool) (l : list A) : option A := List.find cond l.

Definition expectOneRow (n : nat) : answer unit := if (n =? 0)%nat then inl ErrConflict else inr tt.
Definition largest (l : list Z) : Z := foldr Z.max 0 l.

Section Store.
(** The store's cipher, the nonces its sealing draws, and encoding/json on a
    deployment's references. *)
Variable aead : option AEAD.
Variable nonce : string → result string.
Variable Marshal : References → string.

(** ** Reading *)

(** A row of deploymentSelect: the record joined with its application's name. *)
Definition scanDeployment (db : DB) (w : row) : answer Deployment :=
  match find_row (λ a, app_ID a =? w_application_id w) (applications db) with
  | None => inl ErrNotFound
  | Some a =>
      match store_openSpec aead (w_spec w) with
      | Err e => inl (ErrOther (L "decode spec of deployment " :: D (w_id w) :: L ": " :: e))
      | Ok app => inr (mk_deployment (w_id w) (w_application_id w) (app_Name a) (w_sequence w) (w_version w) (w_image w) app
          (w_status w) (w_error w) (w_started_at w) (w_completed_at w) (w_kind w) (w_source w) (w_actor w)
          (w_static_digest w) (w_static_files w) (w_static_bytes w) no_references)
      end
  end.

Definition GetDeployment (db : DB) (id : Z) : answer Deployment :=
  match find_row (λ w, w_id w =? id) (deployments db) with
  | None => inl ErrNotFound
  | Some w => scanDeployment db w
  end.

Definition GetApplication (db : DB) (name : string) : answer Application :=
  match find_row (λ a, String.eqb (app_Name a) name) (applications db) with
  | None => inl ErrNotFound
  | Some a => inr a
  end.

Definition name_le (a b : Application) : Prop := str_le (app_Name a) (app_Name b).
#[global] Instance name_le_dec a b : Decision (name_le a b) := str_le_dec _ _.
Definition ListApplications (db : DB) : list Application := merge_sort name_le (applications db).

Record DeploymentFilter := mk_filter { f_Application : string; f_Statuses : list DeploymentStatus; f_Limit : Z }.

Definition of_application (db : DB) (name : string) (w : row) : bool :=
  match find_row (λ a, app_ID a =? w_application_id w) (applications db) with
  | Some a => String.eqb (app_Name a) name
  | None => false
  end.

Definition selected (db : DB) (f : DeploymentFilter) (w : row) : bool :=
  (String.eqb (f_Application f) "" || of_application db (f_Application f) w) &&
  (bool_decide (f_Statuses f = []) || contains (f_Statuses f) (w_status w)).

(** ORDER BY: newest first. *)
Definition by_sequence (a b : row) : Prop := w_sequence b ≤ w_sequence a.
Definition by_id (a b : row) : Prop := w_id b ≤ w_id a.
#[global] Instance by_sequence_dec a b : Decision (by_sequence a b) := decide (w_sequence b ≤ w_sequence a).
#[global] Instance by_id_dec a b : Decision (by_id a b) := decide (w_id b ≤ w_id a).

Fixpoint scan_all (db : DB) (l : list row) : answer (list Deployment) :=
  match l with
  | [] => inr []
  | w :: r => match scanDeployment db w with
              | inl e => inl e
              | inr d => match scan_all db r with inl e => inl e | inr t => inr (d :: t) end
              end
  end.

Definition selected_rows (db : DB) (f : DeploymentFilter) : list row :=
  let rows := List.filter (selected db f) (deployments db) in
  let sorted := if String.eqb (f_Application f) "" then merge_sort by_id rows else merge_sort by_sequence rows in
  if 0 <? f_Limit f then take (Z.to_nat (f_Limit f)) sorted else sorted.
Definition ListDeployments (db : DB) (f : DeploymentFilter) : answer (list Deployment) := scan_all db (selected_rows db f).

Definition by_index (a b : Replica) : Prop := r_Index a ≤ r_Index b.
#[global] Instance by_index_dec a b : Decision (by_index a b) := decide (r_Index a ≤ r_Index b).
Definition live (x : replica_row) : bool := bool_decide (x_removed_at x = None).
Definition ListReplicas (db : DB) (deploymentID : Z) : list Replica :=
  merge_sort by_index
    ((λ x, mk_replica (x_deployment_id x) (x_index x) (x_container_id x) (x_container_name x) (x_restart_count x))
     <$> List.filter (λ x, (x_deployment_id x =? deploymentID) && live x) (deployment_replicas db)).

(** ** Writing *)

(** The application's row is made if its name is new. *)
Definition register (l : list Application) (name : string) (now : Time) : list Application * Z :=
  match find_row (λ a, String.eqb (app_Name a) name) l with
  | Some a => (update (λ b, String.eqb (app_Name b) name)
                 (λ b, mk_application (app_ID b) (app_Name b) (app_DesiredState b) (app_ActiveDeploymentID b) (app_CreatedAt b) now) l,
               app_ID a)
  | None => let id := largest (app_ID <$> l) + 1 in
            ((l ++ [mk_application id name DesiredRunning None now now])%list, id)
  end.

Definition next_sequence (l : list row) (app : Z) : Z :=
  largest (w_sequence <$> List.filter (λ w, w_application_id w =? app) l) + 1.

(** insertReferences: the row kept next to the record, if there is one. *)
Definition references_row (id : Z) (refs : References) : result (list (Z * string)) :=
  if Empty refs then Ok [] else
  let data := Marshal refs in
  match aead with
  | None => Ok [(id, data)]
  | Some A => match @seal A nonce (referencesName (itoa id)) data with
              | Err e => Err (L "encrypt references: " :: e)
              | Ok stored => Ok [(id, stored)]
              end
  end.

Definition insertDeployment (db : DB) (d : Deployment) (now : Time) : answer (DB * Deployment) :=
  let app := d_Spec d in
  match store_sealSpec aead nonce app with
  | Err e => inl (ErrOther (L "encrypt environment values: " :: e))
  | Ok sealed =>
      let '(apps, appID) := register (applications db) (a_Name app) now in
      let seq := next_sequence (deployments db) appID in
      let id := last_deployment db + 1 in
      if (match d_SourceID d with
          | Some s => negb (existsb (λ w, w_id w =? s) (deployments db))
          | None => false
          end) then inl ErrConstraint else
      match references_row id (d_References d) with
      | Err e => inl (ErrOther (L "create deployment: " :: e))
      | Ok refs =>
          let w := mk_row id appID seq (d_Version d) (d_Image d) sealed StatusPending "" now None
                     (d_Kind d) (d_SourceID d) (d_Actor d) (d_StaticDigest d) (d_StaticFiles d) (d_StaticBytes d) false in
          inr (mk_db apps (deployments db ++ [w]) (deployment_replicas db) (deployment_references db ++ refs) (events db) id (last_event db),
               mk_deployment id appID (d_Application d) seq (d_Version d) (d_Image d) app StatusPending (d_Error d)
                 now (d_CompletedAt d) (d_Kind d) (d_SourceID d) (d_Actor d)
                 (d_StaticDigest d) (d_StaticFiles d) (d_StaticBytes d) (d_References d))
      end
  end.

(** A compare-and-swap on the status; an empty message keeps the error. *)
Definition TransitionDeployment (db : DB) (id : Z) (from to : DeploymentStatus) (errMsg : string) : answer DB :=
  let cond := λ w, (w_id w =? id) && bool_decide (w_status w = from) in
  match expectOneRow (affected cond (deployments db)) with
  | inl e => inl e
  | inr _ => inr (set_deployments db
      (update cond (λ w, with_status w to (if String.eqb errMsg "" then w_error w else errMsg)) (deployments db)))
  end.

Definition unfinished (w : row) : bool := bool_decide (w_completed_at w = None).

Definition CompleteDeployment (db : DB) (id : Z) (now : Time) : DB :=
  set_deployments db (update (λ w, (w_id w =? id) && unfinished w) (λ w, with_completed w (Some now)) (deployments db)).
Definition CompleteAllDeployments (db : DB) (now : Time) : DB :=
  set_deployments db (update unfinished (λ w, with_completed w (Some now)) (deployments db)).
Definition CompleteDeploymentsExcept (db : DB) (except : list Z) (now : Time) : DB :=
  set_deployments db (update (λ w, unfinished w && negb (contains except (w_id w))) (λ w, with_completed w (Some now)) (deployments db)).

Definition MarkDeploymentDormant (db : DB) (id : Z) : answer DB :=
  if Nat.eqb (affected (λ w, w_id w =? id) (deployments db)) 0 then inl ErrNotFound else
  inr (set_deployments db (update (λ w, w_id w =? id) with_dormant (deployments db))).

(** The two updates of the commit. *)
Definition promotable (id : Z) (w : row) : bool := (w_id w =? id) && bool_decide (w_status w = StatusHealthy).
Definition activate_rows (id : Z) (prev : option Z) (rows : list row) : list row :=
  let rows := update (promotable id) (λ w, with_status w StatusActive (w_error w)) rows in
  match prev with
  | Some p => update (λ w, (w_id w =? p) && bool_decide (w_status w = StatusActive))
                (λ w, with_status w StatusSuperseded (w_error w)) rows
  | None => rows
  end.

(** The commit point: HEALTHY to ACTIVE, the active one to SUPERSEDED, the
    application repointed, or nothing. *)
Definition ActivateDeployment (db : DB) (id : Z) (now : Time) : answer (DB * option Deployment) :=
  match find_row (λ w, w_id w =? id) (deployments db) with
  | None => inl ErrNotFound
  | Some w =>
      match find_row (λ a, app_ID a =? w_application_id w) (applications db) with
      | None => inl ErrNotFound
      | Some a =>
          match expectOneRow (affected (promotable id) (deployments db)) with
          | inl e => inl e
          | inr _ =>
              let rows := activate_rows id (app_ActiveDeploymentID a) (deployments db) in
              let apps := update (λ b, app_ID b =? app_ID a)
                (λ b, mk_application (app_ID b) (app_Name b) DesiredRunning (Some id) (app_CreatedAt b) now) (applications db) in
              let db' := set_deployments (set_applications db apps) rows in
              match app_ActiveDeploymentID a with
              | Some prev => match GetDeployment db' prev with
                             | inl e => inl e
                             | inr p => inr (db', Some p)
                             end
              | None => inr (db', None)
              end
          end
      end
  end.

Definition SetDesiredState (db : DB) (appID : Z) (state : string) (now : Time) : answer DB :=
  if Nat.eqb (affected (λ a, app_ID a =? appID) (applications db)) 0 then inl ErrNotFound else
  inr (set_applications db (update (λ a, app_ID a =? appID)
    (λ a, mk_application (app_ID a) (app_Name a) state (app_ActiveDeploymentID a) (app_CreatedAt a) now) (applications db))).

(** ON DELETE CASCADE from the application to its deployments and events, from
    those to replicas, references and events; ON DELETE SET NULL elsewhere. *)
Definition DeleteApplication (db : DB) (appID : Z) : answer DB :=
  if Nat.eqb (affected (λ a, app_ID a =? appID) (applications db)) 0 then inl ErrNotFound else
  let gone := λ id, existsb (λ w, (w_id w =? id) && (w_application_id w =? appID)) (deployments db) in
  let keep := λ o, match o with Some id => if gone id then None else o | None => None end in
  inr (mk_db
    ((λ a, with_active a (keep (app_ActiveDeploymentID a))) <$> List.filter (λ a, negb (app_ID a =? appID)) (applications db))
    ((λ w, with_source w (keep (w_source w))) <$> List.filter (λ w, negb (w_application_id w =? appID)) (deployments db))
    (List.filter (λ x, negb (gone (x_deployment_id x))) (deployment_replicas db))
    (List.filter (λ p, negb (gone p.1)) (deployment_references db))
    (List.filter (λ v, negb (e_application_id v =? appID) && negb (match e_deployment_id v with Some id => gone id | None => false end)) (events db))
    (last_deployment db) (last_event db)).

Definition AddReplica (db : DB) (r : Replica) (now : Time) : answer DB :=
  if negb (existsb (λ w, w_id w =? r_DeploymentID r) (deployments db)) then inl ErrConstraint else
  inr (set_replicas db (deployment_replicas db ++
    [mk_replica_row (r_DeploymentID r) (r_Index r) (r_ContainerID r) (r_ContainerName r) 0 now None])).
Definition MarkReplicaRemoved (db : DB) (containerID : string) (now : Time) : DB :=
  set_replicas db (update (λ x, String.eqb (x_container_id x) containerID && live x)
    (λ x, mk_replica_row (x_deployment_id x) (x_index x) (x_container_id x) (x_container_name x) (x_restart_count x) (x_created_at x) (Some now))
    (deployment_replicas db)).
Definition IncrementReplicaRestarts (db : DB) (containerID : string) : DB :=
  set_replicas db (update (λ x, String.eqb (x_container_id x) containerID && live x)
    (λ x, mk_replica_row (x_deployment_id x) (x_index x) (x_container_id x) (x_container_name x) (x_restart_count x + 1) (x_created_at x) (x_removed_at x))
    (deployment_replicas db)).

Definition AddEvent (db : DB) (appID : Z) (deploymentID : option Z) (level typ message : string) (now : Time) : answer DB :=
  if negb (existsb (λ a, app_ID a =? appID) (applications db))
     || (match deploymentID with Some id => negb (existsb (λ w, w_id w =? id) (deployments db)) | None => false end)
  then inl ErrConstraint else
  let id := last_event db + 1 in
  inr (mk_db (applications db) (deployments db) (deployment_replicas db) (deployment_references db)
    (events db ++ [mk_event_row id appID deploymentID level typ message now]) (last_deployment db) id).

(** The application's own events, newest first, and what pruning leaves; a
    negative LIMIT is none. *)
Definition own_event (appID : Z) (v : event_row) : bool := (e_application_id v =? appID) && bool_decide (e_deployment_id v = None).
Definition newest_event (a b : event_row) : Prop := e_id b ≤ e_id a.
#[global] Instance newest_event_dec a b : Decision (newest_event a b) := decide (e_id b ≤ e_id a).
Definition ListApplicationEvents (db : DB) (appID limit : Z) : list event_row :=
  let sorted := merge_sort newest_event (List.filter (own_event appID) (events db)) in
  if limit <? 0 then sorted else take (Z.to_nat limit) sorted.
Definition PruneApplicationEvents (db : DB) (appID keep : Z) : DB :=
  let kept := e_id <$> ListApplicationEvents db appID keep in
  mk_db (applications db) (deployments db) (deployment_replicas db) (deployment_references db)
    (List.filter (λ v, negb (own_event appID v && negb (contains kept (e_id v)))) (events db)) (last_deployment db) (last_event db).
End Store.
