(* ===== verification/StoreInv.v ===== *)
(** * What the store keeps

    The steps the agent takes on the database (Store.v), the invariant of the
    tables they keep, and what follows: one active deployment per application,
    sequences that count up, records that do not change. *)

From stdpp Require Import sorting.
From S2P Require Import Prelude GoStrings GoTime SpecTypes SpecValidate SpecReferences Crypto DeployState Store.
From Stdlib Require Import String.
Local Open Scope Z_scope.

(** ** Tables as lists *)

Lemma elem_of_update {A} (c : A → bool) f (l : list A) y : y ∈ update c f l ↔ ∃ x, x ∈ l ∧ y = if c x then f x else x.
Proof. unfold update. rewrite list_elem_of_fmap. split; intros (x & ? & ?); eauto. Qed.

Lemma update_column {A B} (g : A → B) c f (l : list A) : (∀ x, g (f x) = g x) → g <$> update c f l = g <$> l.
Proof. intros H. unfold update. rewrite <- list_fmap_compose. apply list_fmap_ext. intros i x _. simpl. by destruct (c x). Qed.

Lemma find_row_some {A} (c : A → bool) l x : find_row c l = Some x → x ∈ l ∧ c x = true.
Proof. intros H%List.find_some. by rewrite <- list_elem_of_In in H. Qed.
Lemma find_row_none {A} (c : A → bool) l x : find_row c l = None → x ∈ l → c x = false.
Proof. intros H Hx%list_elem_of_In. by eapply List.find_none. Qed.

Lemma affected_zero {A} (c : A → bool) l : Nat.eqb (affected c l) 0 = false ↔ ∃ x, x ∈ l ∧ c x = true.
Proof.
  unfold affected. rewrite Nat.eqb_neq. setoid_rewrite list_elem_of_In. split.
  - intros H. destruct (List.filter c l) as [|x r] eqn:E; [done|].
    assert (List.In x (List.filter c l)) as Hx by (rewrite E; by left). apply filter_In in Hx. eauto.
  - intros (x & Hx). assert (List.In x (List.filter c l)) as Hf by (by apply filter_In). by destruct (List.filter c l).
Qed.

Lemma elem_of_lfilter {A} (c : A → bool) l x : x ∈ List.filter c l ↔ x ∈ l ∧ c x = true.
Proof. rewrite !list_elem_of_In. apply filter_In. Qed.

Lemma largest_le l x : x ∈ l → x ≤ largest l.
Proof. induction 1; simpl; lia. Qed.
Lemma largest_nonneg l : 0 ≤ largest l.
Proof. induction l; simpl; lia. Qed.

Lemma NoDup_column_eq {A B} (g : A → B) l x y : NoDup (g <$> l) → x ∈ l → y ∈ l → g x = g y → x = y.
Proof.
  intros Hd (i & Hi)%list_elem_of_lookup (j & Hj)%list_elem_of_lookup E.
  assert (i = j) as ->; [|congruence]. eapply (NoDup_lookup _ _ _ (g x) Hd); rewrite list_lookup_fmap; [by rewrite Hi|by rewrite Hj, E].
Qed.

Lemma NoDup_lfilter {A B} (g : A → B) (c : A → bool) l : NoDup (g <$> l) → NoDup (g <$> List.filter c l).
Proof.
  induction l as [|x r IH]; simpl; [done|]. intros [Hx Hd]%NoDup_cons. destruct (c x); [|by apply IH].
  simpl. apply NoDup_cons. split; [|by apply IH]. intros (y & Hy & H)%list_elem_of_fmap. apply elem_of_lfilter in H as [H _].
  apply Hx. rewrite Hy. by apply list_elem_of_fmap_2.
Qed.

(** ** The invariant *)

Definition key (w : row) : Z * Z * Z := (w_id w, w_application_id w, w_sequence w).

Record wf (db : DB) : Prop := {
  wf_app_ids : NoDup (app_ID <$> applications db);
  wf_app_names : NoDup (app_Name <$> applications db);
  wf_ids : NoDup (w_id <$> deployments db);
  wf_last : ∀ w, w ∈ deployments db → w_id w ≤ last_deployment db;
  wf_sequence : ∀ v w, v ∈ deployments db → w ∈ deployments db → w_application_id v = w_application_id w →
    w_id v < w_id w → w_sequence v < w_sequence w;
  wf_owner : ∀ w, w ∈ deployments db → ∃ a, a ∈ applications db ∧ app_ID a = w_application_id w;
  wf_pointer : ∀ a id, a ∈ applications db → app_ActiveDeploymentID a = Some id →
    ∃ w, w ∈ deployments db ∧ w_id w = id ∧ w_application_id w = app_ID a;
  wf_active : ∀ a w, a ∈ applications db → w ∈ deployments db → w_application_id w = app_ID a →
    (w_status w = StatusActive ↔ app_ActiveDeploymentID a = Some (w_id w))
}.

Definition empty_db : DB := mk_db [] [] [] [] [] 0 0.

Lemma wf_empty : wf empty_db.
Proof. constructor; simpl; try constructor; intros; by match goal with H : _ ∈ [] |- _ => apply elem_of_nil in H end. Qed.

(** Changes of other tables do not matter. *)
Lemma wf_ext db db' : applications db' = applications db → deployments db' = deployments db →
  last_deployment db' = last_deployment db → wf db → wf db'.
Proof. intros Ha Hd Hl []. constructor; by rewrite ?Ha, ?Hd, ?Hl. Qed.

(** Rows rewritten without touching what they are or whether they are active. *)
Lemma wf_rows db f : (∀ w, w ∈ deployments db → key (f w) = key w) →
  (∀ w, w ∈ deployments db → w_status (f w) = StatusActive ↔ w_status w = StatusActive) →
  wf db → wf (set_deployments db (f <$> deployments db)).
Proof.
  intros Hk Hs [H1 H2 H3 H4 H5 H6 H7 H8]. constructor; simpl; [done|done|..].
  - rewrite <- list_fmap_compose. erewrite list_fmap_ext; [exact H3|]. intros i w Hw. apply list_elem_of_lookup_2, Hk in Hw.
    by injection Hw.
  - intros w (v & -> & Hv)%list_elem_of_fmap. pose proof (Hk v Hv) as E. injection E as -> _ _. by apply H4.
  - intros v w (v' & -> & Hv)%list_elem_of_fmap (w' & -> & Hw)%list_elem_of_fmap.
    pose proof (Hk v' Hv) as E. injection E as -> -> ->. pose proof (Hk w' Hw) as E. injection E as -> -> ->. by apply H5.
  - intros w (v & -> & Hv)%list_elem_of_fmap. pose proof (Hk v Hv) as E. injection E as _ -> _. by apply H6.
  - intros a id Ha Hid. destruct (H7 a id Ha Hid) as (w & Hw & Hi & Happ). exists (f w).
    pose proof (Hk w Hw) as E. injection E as -> -> _. split; [by apply list_elem_of_fmap_2|done].
  - intros a w Ha (v & -> & Hv)%list_elem_of_fmap. pose proof (Hk v Hv) as E. injection E as -> -> _.
    rewrite (Hs v Hv). by apply H8.
Qed.

(** Applications rewritten without touching what they are or point to. *)
Lemma wf_apps db f : (∀ a, app_ID (f a) = app_ID a ∧ app_Name (f a) = app_Name a ∧ app_ActiveDeploymentID (f a) = app_ActiveDeploymentID a) →
  wf db → wf (set_applications db (f <$> applications db)).
Proof.
  intros Hf [H1 H2 H3 H4 H5 H6 H7 H8]. constructor; simpl; [| |done..| | |].
  - rewrite <- list_fmap_compose. erewrite list_fmap_ext; [exact H1|]. intros i a _. apply Hf.
  - rewrite <- list_fmap_compose. erewrite list_fmap_ext; [exact H2|]. intros i a _. apply Hf.
  - intros w Hw. destruct (H6 w Hw) as (a & Ha & E). exists (f a). split; [by apply list_elem_of_fmap_2|].
    by rewrite (proj1 (Hf a)).
  - intros a id (b & -> & Hb)%list_elem_of_fmap. destruct (Hf b) as (-> & _ & ->). by apply H7.
  - intros a w (b & -> & Hb)%list_elem_of_fmap. destruct (Hf b) as (-> & _ & ->). by apply H8.
Qed.

(** ** New rows *)

Lemma wf_new_app db a : (app_ID a ∉ app_ID <$> applications db) → (app_Name a ∉ app_Name <$> applications db) →
  app_ActiveDeploymentID a = None → wf db → wf (set_applications db (applications db ++ [a])).
Proof.
  intros Hi Hn Ha [H1 H2 H3 H4 H5 H6 H7 H8]. constructor; simpl; [| |done..| | |].
  - rewrite fmap_app. apply NoDup_app. split_and!; [done| |by apply NoDup_singleton]. intros x Hx ->%list_elem_of_singleton. done.
  - rewrite fmap_app. apply NoDup_app. split_and!; [done| |by apply NoDup_singleton]. intros x Hx ->%list_elem_of_singleton. done.
  - intros w Hw. destruct (H6 w Hw) as (b & Hb & E). exists b. rewrite elem_of_app. by split; [left|].
  - intros b id Hb Hid. apply elem_of_app in Hb as [Hb| ->%list_elem_of_singleton]; [by eapply H7|congruence].
  - intros b w Hb Hw E. apply elem_of_app in Hb as [Hb| ->%list_elem_of_singleton]; [by eapply H8|].
    exfalso. apply Hi. rewrite <- E. destruct (H6 w Hw) as (c & Hc & <-). by apply list_elem_of_fmap_2.
Qed.

Lemma wf_new_row db db' w : applications db' = applications db → deployments db' = (deployments db ++ [w])%list →
  last_deployment db' = last_deployment db + 1 → w_id w = last_deployment db + 1 → w_sequence w = next_sequence (deployments db) (w_application_id w) →
  w_status w ≠ StatusActive → (∃ a, a ∈ applications db ∧ app_ID a = w_application_id w) → wf db →
  wf db'.
Proof.
  intros Ea Ed El Hid Hseq Hst Hown [H1 H2 H3 H4 H5 H6 H7 H8].
  assert (w_id w ∉ w_id <$> deployments db) as Hnew.
  { intros (v & E & Hv)%list_elem_of_fmap. apply H4 in Hv. lia. }
  constructor; rewrite ?Ea, ?Ed, ?El; [done|done| | | | | |].
  - rewrite fmap_app. apply NoDup_app. split_and!; [done| |by apply NoDup_singleton]. intros x Hx ->%list_elem_of_singleton. done.
  - intros v [Hv| ->%list_elem_of_singleton]%elem_of_app; [apply H4 in Hv; lia|lia].
  - intros v v' [Hv| ->%list_elem_of_singleton]%elem_of_app [Hv'| ->%list_elem_of_singleton]%elem_of_app E Hlt.
    + by apply H5.
    + rewrite Hseq, <- E. unfold next_sequence. apply Z.lt_succ_r. apply largest_le, list_elem_of_fmap_2, elem_of_lfilter.
      split; [done|]. apply Z.eqb_refl.
    + apply H4 in Hv'. lia.
    + lia.
  - intros v [Hv| ->%list_elem_of_singleton]%elem_of_app; [by apply H6|done].
  - intros a id Ha Ho. destruct (H7 a id Ha Ho) as (v & ? & ?). exists v. rewrite elem_of_app. tauto.
  - intros a v Ha [Hv| ->%list_elem_of_singleton]%elem_of_app E; [by apply H8|]. split; [done|].
    intros Ho. destruct (H7 a _ Ha Ho) as (v & Hv & Ev & _). exfalso. apply Hnew. rewrite <- Ev. by apply list_elem_of_fmap_2.
Qed.

Lemma register_spec l name now l' id : register l name now = (l', id) →
  (∃ f, l' = f <$> l ∧ (∀ a, app_ID (f a) = app_ID a ∧ app_Name (f a) = app_Name a ∧ app_ActiveDeploymentID (f a) = app_ActiveDeploymentID a) ∧
        ∃ a, a ∈ l ∧ app_ID a = id ∧ app_Name a = name) ∨
  ((name ∉ app_Name <$> l) ∧ id = largest (app_ID <$> l) + 1 ∧ l' = (l ++ [mk_application id name DesiredRunning None now now])%list).
Proof.
  unfold register. destruct (find_row _ l) as [a|] eqn:E; intros [= <- <-].
  - left. eexists. split; [reflexivity|]. split; [intros b; by destruct (String.eqb (app_Name b) name)|].
    apply find_row_some in E as [Ha En%String.eqb_eq]. eauto.
  - right. split_and!; [|done|done]. intros (a & -> & Ha)%list_elem_of_fmap.
    pose proof (find_row_none _ _ _ E Ha) as Hn. simpl in Hn. by rewrite String.eqb_refl in Hn.
Qed.

Lemma insertDeployment_inv aead nonce M db d now db' d' : insertDeployment aead nonce M db d now = inr (db', d') →
  ∃ apps id sealed refs, register (applications db) (a_Name (d_Spec d)) now = (apps, id) ∧
    store_sealSpec aead nonce (d_Spec d) = Ok sealed ∧
    let w := mk_row (last_deployment db + 1) id (next_sequence (deployments db) id) (d_Version d) (d_Image d) sealed StatusPending "" now None
               (d_Kind d) (d_SourceID d) (d_Actor d) (d_StaticDigest d) (d_StaticFiles d) (d_StaticBytes d) false in
    db' = mk_db apps (deployments db ++ [w]) (deployment_replicas db) (deployment_references db ++ refs) (events db)
            (last_deployment db + 1) (last_event db) ∧
    d_ID d' = last_deployment db + 1 ∧ d_ApplicationID d' = id ∧ d_Sequence d' = next_sequence (deployments db) id ∧
    d_Status d' = StatusPending ∧ d_Spec d' = d_Spec d.
Proof.
  unfold insertDeployment. destruct (store_sealSpec aead nonce (d_Spec d)) as [sealed|] eqn:Es; [|done].
  destruct (register _ _ _) as [apps id] eqn:Er.
  destruct (match d_SourceID d with Some _ => _ | None => false end); [done|].
  destruct (references_row _ _ _ _ _) as [refs|]; [|done]. intros [= <- <-].
  exists apps, id, sealed, refs. by split_and!.
Qed.

Lemma wf_insert aead nonce M db d now db' d' : insertDeployment aead nonce M db d now = inr (db', d') → wf db → wf db'.
Proof.
  intros (apps & id & sealed & refs & Hr & _ & -> & _)%insertDeployment_inv Hwf. cbv zeta.
  apply register_spec in Hr as [(f & -> & Hf & a & Ha & Hid & _)|(Hn & Hid & ->)].
  - eapply (wf_new_row (set_applications db (f <$> applications db))); [done..| |by apply wf_apps].
    exists (f a). split; [by apply list_elem_of_fmap_2|]. simpl. rewrite (proj1 (Hf a)). done.
  - eapply (wf_new_row (set_applications db (applications db ++ [mk_application id (a_Name (d_Spec d)) DesiredRunning None now now])%list));
      [done..| |].
    + eexists. split; [apply elem_of_app; right; by apply list_elem_of_singleton|]. done.
    + apply wf_new_app; [|done|done|done]. simpl. intros (b & E & Hb)%list_elem_of_fmap.
      assert (app_ID b ≤ largest (app_ID <$> applications db)) by (by apply largest_le, list_elem_of_fmap_2). lia.
Qed.

(** ** The commit *)

Definition promoted (id : Z) (prev : option Z) (w : row) : row :=
  let w := if (w_id w =? id) && bool_decide (w_status w = StatusHealthy) then with_status w StatusActive (w_error w) else w in
  match prev with
  | Some p => if (w_id w =? p) && bool_decide (w_status w = StatusActive) then with_status w StatusSuperseded (w_error w) else w
  | None => w
  end.
Definition repointed (app id : Z) (now : Time) (b : Application) : Application :=
  if app_ID b =? app then mk_application (app_ID b) (app_Name b) DesiredRunning (Some id) (app_CreatedAt b) now else b.

Lemma promoted_key id prev w : key (promoted id prev w) = key w.
Proof. unfold promoted. cbv zeta. destruct (_ && _), prev; simpl; try done; by destruct (_ && _). Qed.

Lemma activate_rows_promoted id prev l : activate_rows id prev l = promoted id prev <$> l.
Proof. unfold activate_rows, promoted, update. destruct prev; rewrite <- ?list_fmap_compose; done. Qed.

Lemma activate_inv aead db id now db' p : ActivateDeployment aead db id now = inr (db', p) →
  ∃ w a, w ∈ deployments db ∧ w_id w = id ∧ a ∈ applications db ∧ app_ID a = w_application_id w ∧
    (∃ v, v ∈ deployments db ∧ w_id v = id ∧ w_status v = StatusHealthy) ∧
    db' = set_deployments (set_applications db (repointed (app_ID a) id now <$> applications db))
            (promoted id (app_ActiveDeploymentID a) <$> deployments db) ∧
    match app_ActiveDeploymentID a with
    | Some prev => ∃ q, p = Some q ∧ GetDeployment aead db' prev = inr q
    | None => p = None
    end.
Proof.
  unfold ActivateDeployment.
  destruct (find_row (λ w, w_id w =? id) (deployments db)) as [w|] eqn:Ew; [|done].
  destruct (find_row (λ a, app_ID a =? w_application_id w) (applications db)) as [a|] eqn:Ea; [|done].
  apply find_row_some in Ew as [Hw Hid%Z.eqb_eq]. apply find_row_some in Ea as [Ha Happ%Z.eqb_eq].
  unfold expectOneRow. destruct (Nat.eqb _ 0) eqn:E0; [done|].
  apply affected_zero in E0 as (v & Hv & [Hvi%Z.eqb_eq Hvs%bool_decide_eq_true]%andb_true_iff).
  rewrite activate_rows_promoted. cbv zeta. set (db1 := set_deployments _ _).
  intros H. exists w, a. split_and!; [done..|by exists v| |]; destruct (app_ActiveDeploymentID a) as [prev|].
  - destruct (GetDeployment _ _ prev); simplify_eq. done.
  - by simplify_eq.
  - destruct (GetDeployment _ _ prev) as [|q] eqn:Eq; simplify_eq. eauto.
  - by simplify_eq.
Qed.

(** The deployment that is promoted is not the active one. *)
Lemma promoted_not_active db a w : wf db → a ∈ applications db → w ∈ deployments db → app_ID a = w_application_id w →
  w_status w = StatusHealthy → app_ActiveDeploymentID a ≠ Some (w_id w).
Proof. intros Hwf Ha Hw E Hs H. apply (wf_active db Hwf a w Ha Hw) in H; congruence. Qed.

(** What the commit makes of a row. *)
Lemma promoted_status db a w v : wf db → a ∈ applications db → w ∈ deployments db → v ∈ deployments db → app_ID a = w_application_id w →
  w_status w = StatusHealthy →
  w_status (promoted (w_id w) (app_ActiveDeploymentID a) v) =
    if w_id v =? w_id w then StatusActive
    else if bool_decide (app_ActiveDeploymentID a = Some (w_id v)) then StatusSuperseded
    else w_status v.
Proof.
  intros Hwf Ha Hw Hv E Hs. pose proof (promoted_not_active db a w Hwf Ha Hw E Hs) as Hna. unfold promoted. cbv zeta.
  destruct (Z.eqb_spec (w_id v) (w_id w)) as [Ev|Ev].
  - assert (v = w) as -> by (eapply (NoDup_column_eq w_id); [apply (wf_ids db Hwf)|done..]).
    rewrite (bool_decide_eq_true_2 (w_status w = StatusHealthy)) by done. simpl.
    destruct (app_ActiveDeploymentID a) as [p|]; [|done].
    destruct (Z.eqb_spec (w_id w) p); [congruence|done].
  - simpl. destruct (app_ActiveDeploymentID a) as [p|] eqn:Ep; [|done].
    destruct (Z.eqb_spec (w_id v) p) as [<-|Hne]; simpl.
    + rewrite (bool_decide_eq_true_2 (Some (w_id v) = Some (w_id v))) by done.
      destruct (wf_pointer db Hwf a _ Ha Ep) as (u & Hu & Hui & Hua).
      assert (u = v) as -> by (eapply (NoDup_column_eq w_id); [apply (wf_ids db Hwf)|done..]).
      assert (w_status v = StatusActive) as -> by (by apply (wf_active db Hwf a v)). done.
    + rewrite (bool_decide_eq_false_2 (Some p = Some (w_id v))) by congruence. done.
Qed.

Lemma wf_activate aead db id now db' p : ActivateDeployment aead db id now = inr (db', p) → wf db → wf db'.
Proof.
  intros (w & a & Hw & <- & Ha & Happ & (v & Hv & Hvi & Hvs) & -> & _)%activate_inv Hwf.
  assert (v = w) as -> by (eapply (NoDup_column_eq w_id); [apply (wf_ids db Hwf)|done..]).
  pose proof (promoted_status db a w) as Hst. pose proof Hwf as [H1 H2 H3 H4 H5 H6 H7 H8].
  set (g := promoted (w_id w) (app_ActiveDeploymentID a)) in *. set (f := repointed (app_ID a) (w_id w) now).
  assert (∀ x, key (g x) = key x) as Hk by (intros; apply promoted_key).
  assert (∀ b, app_ID (f b) = app_ID b ∧ app_Name (f b) = app_Name b) as Hf by (intros b; unfold f, repointed; by destruct (_ =? _)).
  assert (∀ b, app_ActiveDeploymentID (f b) = if app_ID b =? app_ID a then Some (w_id w) else app_ActiveDeploymentID b) as Hp
    by (intros b; unfold f, repointed; by destruct (_ =? _)).
  constructor; simpl.
  - rewrite <- list_fmap_compose. erewrite list_fmap_ext; [exact H1|]. intros i b _. apply Hf.
  - rewrite <- list_fmap_compose. erewrite list_fmap_ext; [exact H2|]. intros i b _. apply Hf.
  - rewrite <- list_fmap_compose. erewrite list_fmap_ext; [exact H3|]. intros i x _. by injection (Hk x).
  - intros x (y & -> & Hy)%list_elem_of_fmap. pose proof (Hk y) as E. injection E as -> _ _. by apply H4.
  - intros x y (x' & -> & Hx)%list_elem_of_fmap (y' & -> & Hy)%list_elem_of_fmap.
    pose proof (Hk x') as E. injection E as -> -> ->. pose proof (Hk y') as E. injection E as -> -> ->. by apply H5.
  - intros x (y & -> & Hy)%list_elem_of_fmap. pose proof (Hk y) as E. injection E as _ -> _.
    destruct (H6 y Hy) as (b & Hb & E). exists (f b). rewrite (proj1 (Hf b)). split; [by apply list_elem_of_fmap_2|done].
  - intros b i (c & -> & Hc)%list_elem_of_fmap Hi. rewrite Hp in Hi. rewrite (proj1 (Hf c)).
    destruct (Z.eqb_spec (app_ID c) (app_ID a)) as [Ec|Ec].
    + injection Hi as <-. exists (g w). pose proof (Hk w) as E. injection E as -> -> _. split_and!; [by apply list_elem_of_fmap_2|done|congruence].
    + destruct (H7 c i Hc Hi) as (y & Hy & ? & ?). exists (g y). pose proof (Hk y) as E. injection E as -> -> _.
      split_and!; [by apply list_elem_of_fmap_2|done|done].
  - intros b x (c & -> & Hc)%list_elem_of_fmap (y & -> & Hy)%list_elem_of_fmap. rewrite (proj1 (Hf c)), Hp.
    pose proof (Hk y) as E. injection E as -> -> _. intros Eya. rewrite (Hst y Hwf Ha Hw Hy Happ Hvs). specialize (H8 c y Hc Hy Eya).
    destruct (Z.eqb_spec (w_id y) (w_id w)) as [Ey|Ey].
    + assert (y = w) as -> by (eapply (NoDup_column_eq w_id); [exact H3|done..]).
      destruct (Z.eqb_spec (app_ID c) (app_ID a)); [done|congruence].
    + destruct (Z.eqb_spec (app_ID c) (app_ID a)) as [Ec|Ec].
      * assert (c = a) as -> by (eapply (NoDup_column_eq app_ID); [exact H1|done..]).
        case_bool_decide as Eb; [split; [done|congruence]|]. rewrite H8. split; [done|congruence].
      * case_bool_decide as Eb; [|done]. exfalso. destruct (H7 a _ Ha Eb) as (u & Hu & Eu & Eua).
        assert (u = y) as -> by (eapply (NoDup_column_eq w_id); [exact H3|done..]). congruence.
Qed.

(** ** Deleting *)

Definition gone (db : DB) (app id : Z) : bool := existsb (λ w, (w_id w =? id) && (w_application_id w =? app)) (deployments db).
Definition keep (db : DB) (app : Z) (o : option Z) : option Z :=
  match o with Some id => if gone db app id then None else o | None => None end.

Lemma gone_other db app w : wf db → w ∈ deployments db → w_application_id w ≠ app → gone db app (w_id w) = false.
Proof.
  intros Hwf Hw Hne. apply not_true_iff_false. unfold gone. rewrite existsb_true.
  intros (v & Hv & [Ei%Z.eqb_eq Ea%Z.eqb_eq]%andb_true_iff).
  assert (v = w) as -> by (eapply (NoDup_column_eq w_id); [apply (wf_ids db Hwf)|done..]). done.
Qed.

Lemma keep_other db app a : wf db → a ∈ applications db → app_ID a ≠ app → keep db app (app_ActiveDeploymentID a) = app_ActiveDeploymentID a.
Proof.
  intros Hwf Ha Hne. unfold keep. destruct (app_ActiveDeploymentID a) as [id|] eqn:E; [|done].
  destruct (wf_pointer db Hwf a id Ha E) as (w & Hw & <- & Hwa). rewrite gone_other; [done|done|done|congruence].
Qed.

Lemma wf_delete db app db' : DeleteApplication db app = inr db' → wf db → wf db'.
Proof.
  unfold DeleteApplication. destruct (Nat.eqb _ 0); [done|]. intros [= <-] Hwf. pose proof Hwf as [H1 H2 H3 H4 H5 H6 H7 H8].
  fold (gone db app). set (fa := λ a, with_active a (keep db app (app_ActiveDeploymentID a))).
  set (fw := λ w, with_source w (keep db app (w_source w))).
  set (la := List.filter (λ a, negb (app_ID a =? app)) (applications db)).
  set (lw := List.filter (λ w, negb (w_application_id w =? app)) (deployments db)).
  assert (∀ a, a ∈ la ↔ a ∈ applications db ∧ app_ID a ≠ app) as Hla
    by (intros a; unfold la; rewrite elem_of_lfilter, negb_true_iff, Z.eqb_neq; done).
  assert (∀ w, w ∈ lw ↔ w ∈ deployments db ∧ w_application_id w ≠ app) as Hlw
    by (intros w; unfold lw; rewrite elem_of_lfilter, negb_true_iff, Z.eqb_neq; done).
  constructor; simpl.
  - rewrite <- list_fmap_compose. by apply NoDup_lfilter.
  - rewrite <- list_fmap_compose. by apply NoDup_lfilter.
  - rewrite <- list_fmap_compose. by apply NoDup_lfilter.
  - intros w (v & -> & [Hv _]%Hlw)%list_elem_of_fmap. exact (H4 v Hv).
  - intros v w (v' & -> & [Hv _]%Hlw)%list_elem_of_fmap (w' & -> & [Hw _]%Hlw)%list_elem_of_fmap. exact (H5 v' w' Hv Hw).
  - intros w (v & -> & [Hv Hne]%Hlw)%list_elem_of_fmap. destruct (H6 v Hv) as (a & Ha & E).
    exists (fa a). split; [apply list_elem_of_fmap_2, Hla; split; [done|congruence]|done].
  - intros a id (b & -> & [Hb Hne]%Hla)%list_elem_of_fmap Hid. change (keep db app (app_ActiveDeploymentID b) = Some id) in Hid. rewrite keep_other in Hid by done. destruct (H7 b id Hb Hid) as (w & Hw & Hwi & Hwa). exists (fw w).
    split_and!; [apply list_elem_of_fmap_2, Hlw; split; [done|congruence]|done|done].
  - intros a w (b & -> & [Hb Hne]%Hla)%list_elem_of_fmap (v & -> & [Hv _]%Hlw)%list_elem_of_fmap E.
    change (w_status v = StatusActive ↔ keep db app (app_ActiveDeploymentID b) = Some (w_id v)).
    rewrite keep_other by done. exact (H8 b v Hb Hv E).
Qed.

(** ** Steps *)

Section Steps.
Context (aead : option AEAD) (nonce : string → result string) (Marshal : References → string).

(** What the agent does to the database.  Statuses change in two ways only:
    by a legal transition that is neither to ACTIVE nor to SUPERSEDED
    (transitionWithError), and by the commit. *)
Inductive store_step (db : DB) : DB → Prop :=
  | step_insert d now db' d' : insertDeployment aead nonce Marshal db d now = inr (db', d') → store_step db db'
  | step_transition id from to errMsg db' : CanTransition from to = true → to ≠ StatusActive → to ≠ StatusSuperseded →
      TransitionDeployment db id from to errMsg = inr db' → store_step db db'
  | step_activate id now db' p : ActivateDeployment aead db id now = inr (db', p) → store_step db db'
  | step_complete id now : store_step db (CompleteDeployment db id now)
  | step_complete_all now : store_step db (CompleteAllDeployments db now)
  | step_complete_except ids now : store_step db (CompleteDeploymentsExcept db ids now)
  | step_dormant id db' : MarkDeploymentDormant db id = inr db' → store_step db db'
  | step_desired id state now db' : SetDesiredState db id state now = inr db' → store_step db db'
  | step_delete id db' : DeleteApplication db id = inr db' → store_step db db'
  | step_replica r now db' : AddReplica db r now = inr db' → store_step db db'
  | step_removed id now : store_step db (MarkReplicaRemoved db id now)
  | step_restart id : store_step db (IncrementReplicaRestarts db id)
  | step_event app d level typ msg now db' : AddEvent db app d level typ msg now = inr db' → store_step db db'
  | step_prune app n : store_step db (PruneApplicationEvents db app n).

Inductive reachable : DB → Prop :=
  | reach_empty : reachable empty_db
  | reach_step db db' : reachable db → store_step db db' → reachable db'.

Lemma transition_inv db id from to msg db' : TransitionDeployment db id from to msg = inr db' →
  db' = set_deployments db (update (λ w, (w_id w =? id) && bool_decide (w_status w = from))
          (λ w, with_status w to (if String.eqb msg "" then w_error w else msg)) (deployments db)) ∧
  ∃ w, w ∈ deployments db ∧ w_id w = id ∧ w_status w = from.
Proof.
  unfold TransitionDeployment, expectOneRow. destruct (Nat.eqb _ 0) eqn:E; [done|]. intros [= <-]. split; [done|].
  apply affected_zero in E as (w & Hw & [Hi%Z.eqb_eq Hs%bool_decide_eq_true]%andb_true_iff). by exists w.
Qed.

Lemma wf_step db db' : store_step db db' → wf db → wf db'.
Proof.
  intros [d now ? d' H|id from to msg ? Hc Ha Hs H|id now ? p H|id now|now|ids now|id ? H|id st now ? H|id ? H|r now ? H| | |? ? ? ? ? ? ? H|] Hwf.
  - by eapply wf_insert.
  - apply transition_inv in H as [-> _]. apply wf_rows; [intros w _; by destruct (_ && _)| |done].
    intros w _. destruct (_ && _) eqn:E; [|done]. apply andb_true_iff in E as [_ E%bool_decide_eq_true]. simpl.
    split; [done|]. intros Es. rewrite Es in E. subst from. by destruct to.
  - by eapply wf_activate.
  - apply wf_rows; [intros w _; by destruct (_ && _)| |done]. intros w _. by destruct (_ && _).
  - apply wf_rows; [intros w _; by destruct (unfinished w)| |done]. intros w _. by destruct (unfinished w).
  - apply wf_rows; [intros w _; by destruct (_ && _)| |done]. intros w _. by destruct (_ && _).
  - unfold MarkDeploymentDormant in H. destruct (Nat.eqb _ 0); [done|]. injection H as <-.
    apply wf_rows; [intros w _; by destruct (_ =? _)| |done]. intros w _. by destruct (_ =? _).
  - unfold SetDesiredState in H. destruct (Nat.eqb _ 0); [done|]. injection H as <-.
    apply wf_apps; [|done]. intros a. by destruct (_ =? _).
  - by eapply wf_delete.
  - unfold AddReplica in H. destruct (negb _); [done|]. injection H as <-. by apply (wf_ext db).
  - by apply (wf_ext db).
  - by apply (wf_ext db).
  - unfold AddEvent in H. destruct (_ || _); [done|]. injection H as <-. by apply (wf_ext db).
  - by apply (wf_ext db).
Qed.

Lemma wf_reachable db : reachable db → wf db.
Proof. induction 1; [apply wf_empty|by eapply wf_step]. Qed.
End Steps.

(** ** Records *)

(** What a deployment's record may become: its status moves along the state
    machine, a completion time stays, an error is never taken back, and a
    source that is deleted is forgotten; nothing else changes. *)
Record kept (w w' : row) : Prop := {
  kept_id : w_id w' = w_id w;
  kept_same : (w_application_id w', w_sequence w', w_version w', w_image w', w_spec w', w_started_at w', w_kind w', w_actor w',
               (w_static_digest w', w_static_files w', w_static_bytes w'))
            = (w_application_id w, w_sequence w, w_version w, w_image w, w_spec w, w_started_at w, w_kind w, w_actor w,
               (w_static_digest w, w_static_files w, w_static_bytes w));
  kept_source : w_source w' = w_source w ∨ w_source w' = None;
  kept_completed : w_completed_at w ≠ None → w_completed_at w' = w_completed_at w;
  kept_error : w_error w ≠ ""%string → w_error w' ≠ ""%string;
  kept_dormant : w_dormant w = true → w_dormant w' = true;
  kept_status : ∃ l, steps (w_status w) l (w_status w')
}.

Lemma steps_app s l t k u : steps s l t → steps t k u → steps s (l ++ k) u.
Proof. induction 1; simpl; [done|]. intros ?. econstructor; eauto. Qed.

#[export] Instance kept_refl : Reflexive kept.
Proof. intros w. constructor; auto. exists []. constructor. Qed.
#[export] Instance kept_trans : Transitive kept.
Proof.
  intros w v u [A1 A2 A3 A4 A5 A6 (l & A7)] [B1 B2 B3 B4 B5 B6 (k & B7)]. constructor; [congruence|congruence|..].
  - destruct B3 as [->|]; [done|by right].
  - intros H. rewrite <- (A4 H). apply B4. by rewrite A4.
  - auto.
  - auto.
  - exists (l ++ k)%list. by eapply steps_app.
Qed.

Lemma kept_with_status w s e : (s = w_status w ∨ CanTransition (w_status w) s = true) → (w_error w ≠ ""%string → e ≠ ""%string) →
  kept w (with_status w s e).
Proof.
  intros [->|Hs] He; constructor; auto; simpl; [exists []; constructor|]. exists [s]. econstructor; [done|constructor].
Qed.
Lemma kept_with_completed w t : w_completed_at w = None → kept w (with_completed w t).
Proof. intros H. constructor; auto; [by rewrite H|]. exists []. constructor. Qed.
Lemma kept_with_source w t : t = w_source w ∨ t = None → kept w (with_source w t).
Proof. intros H. constructor; auto. exists []. constructor. Qed.
Lemma kept_with_dormant w : kept w (with_dormant w).
Proof. constructor; auto. exists []. constructor. Qed.
#[export] Hint Resolve kept_with_completed kept_with_source kept_with_dormant : shipwick.

Lemma kept_update c f (l : list row) w' : (∀ w, c w = true → kept w (f w)) → w' ∈ update c f l → ∃ w, w ∈ l ∧ kept w w'.
Proof.
  intros H (w & Hw & ->)%elem_of_update. exists w. split; [done|]. destruct (c w) eqn:E; [auto|reflexivity].
Qed.

Lemma kept_promoted id prev w : kept w (promoted id prev w).
Proof.
  unfold promoted. cbv zeta.
  assert (kept w (if (w_id w =? id) && bool_decide (w_status w = StatusHealthy) then with_status w StatusActive (w_error w) else w)) as H1.
  { destruct (_ && _) eqn:E; [|reflexivity]. apply andb_true_iff in E as [_ E%bool_decide_eq_true].
    apply kept_with_status; [right; by rewrite E|done]. }
  destruct prev as [p|]; [|done]. destruct (_ && bool_decide (_ = StatusActive)) eqn:E; [|done].
  apply andb_true_iff in E as [_ E%bool_decide_eq_true]. etrans; [exact H1|]. apply kept_with_status; [right; by rewrite E|done].
Qed.

Section Kept.
Context (aead : option AEAD) (nonce : string → result string) (Marshal : References → string).
Local Abbreviation store_step := (store_step aead nonce Marshal).

Lemma unfinished_none w : unfinished w = true → w_completed_at w = None.
Proof. apply bool_decide_eq_true. Qed.

(** A row found after a step is one from before, kept, or a new one. *)
Lemma step_rows db db' : store_step db db' → last_deployment db ≤ last_deployment db' ∧
  ∀ w', w' ∈ deployments db' → last_deployment db < w_id w' ∨ ∃ w, w ∈ deployments db ∧ kept w w'.
Proof.
  assert (∀ w, w ∈ deployments db → ∃ v, v ∈ deployments db ∧ kept v w) as Hself by (intros w ?; exists w; split; [done|reflexivity]).
  intros [d now ? d' H|id from to msg ? Hc Ha Hs H|id now ? p H|id now|now|ids now|id ? H|id st now ? H|id ? H|r now ? H| | |? ? ? ? ? ? ? H|].
  - apply insertDeployment_inv in H as (apps & id & sealed & refs & _ & _ & -> & _). simpl. split; [lia|].
    intros w [Hw| ->%list_elem_of_singleton]%elem_of_app; [right; auto|left; simpl; lia].
  - apply transition_inv in H as [-> _]. split; [done|]. intros w' Hw. right. eapply kept_update; [|exact Hw].
    intros w [_ E%bool_decide_eq_true]%andb_true_iff. apply kept_with_status; [right; by rewrite E|].
    destruct (String.eqb_spec msg ""); done.
  - apply activate_inv in H as (w & a & _ & _ & _ & _ & _ & -> & _). split; [done|].
    intros w' (v & -> & Hv)%list_elem_of_fmap. right. exists v. split; [done|apply kept_promoted].
  - split; [done|]. intros w' Hw. right. eapply kept_update; [|exact Hw].
    intros w [_ E%unfinished_none]%andb_true_iff. by apply kept_with_completed.
  - split; [done|]. intros w' Hw. right. eapply kept_update; [|exact Hw]. intros w E%unfinished_none. by apply kept_with_completed.
  - split; [done|]. intros w' Hw. right. eapply kept_update; [|exact Hw].
    intros w [E%unfinished_none _]%andb_true_iff. by apply kept_with_completed.
  - unfold MarkDeploymentDormant in H. destruct (Nat.eqb _ 0); [done|]. injection H as <-. split; [done|].
    intros w' Hw. right. eapply kept_update; [|exact Hw]. intros w _. apply kept_with_dormant.
  - unfold SetDesiredState in H. destruct (Nat.eqb _ 0); [done|]. injection H as <-. split; [done|]. intros w Hw. right. auto.
  - unfold DeleteApplication in H. destruct (Nat.eqb _ 0); [done|]. injection H as <-. split; [done|].
    intros w' (w & -> & [Hw _]%elem_of_lfilter)%list_elem_of_fmap. right. exists w. split; [done|].
    apply kept_with_source. destruct (w_source w); [destruct (existsb _ _)|]; auto.
  - unfold AddReplica in H. destruct (negb _); [done|]. injection H as <-. split; [done|]. intros w Hw. right. auto.
  - split; [done|]. intros w Hw. right. auto.
  - split; [done|]. intros w Hw. right. auto.
  - unfold AddEvent in H. destruct (_ || _); [done|]. injection H as <-. split; [done|]. intros w Hw. right. auto.
  - split; [done|]. intros w Hw. right. auto.
Qed.

Lemma path_rows db db' : rtc store_step db db' → wf db →
  wf db' ∧ last_deployment db ≤ last_deployment db' ∧
  ∀ w', w' ∈ deployments db' → last_deployment db < w_id w' ∨ ∃ w, w ∈ deployments db ∧ kept w w'.
Proof.
  induction 1 as [db|db db1 db' Hs _ IH]; intros Hwf.
  - split_and!; [done|done|]. intros w Hw. right. exists w. split; [done|reflexivity].
  - destruct (step_rows db db1 Hs) as [Hl Hr]. destruct IH as (Hwf' & Hl' & Hr'); [by eapply wf_step|].
    split_and!; [done|lia|]. intros w' Hw'. destruct (Hr' w' Hw') as [?|(v & Hv & Hk)]; [left; lia|].
    destruct (Hr v Hv) as [?|(w & Hw & Hk')].
    + left. by rewrite (kept_id _ _ Hk).
    + right. exists w. split; [done|by etrans].
Qed.
End Kept.

(** ** Newest first *)

Lemma of_application_spec db name w : wf db → w ∈ deployments db →
  of_application db name w = true ↔ ∃ a, a ∈ applications db ∧ app_ID a = w_application_id w ∧ app_Name a = name.
Proof.
  intros Hwf Hw. unfold of_application. destruct (find_row _ _) as [a|] eqn:E.
  - apply find_row_some in E as [Ha Hid%Z.eqb_eq]. rewrite String.eqb_eq. split; [intros <-; eauto|].
    intros (b & Hb & Hbi & <-). assert (a = b) as ->; [|done].
    eapply (NoDup_column_eq app_ID); [apply (wf_app_ids db Hwf)|done..|congruence].
  - split; [done|]. intros (a & Ha & Hid & _). pose proof (find_row_none _ _ _ E Ha) as H. simpl in H. by apply Z.eqb_neq in H.
Qed.

#[export] Instance by_sequence_total : Total by_sequence.
Proof. intros x y. unfold by_sequence. lia. Qed.
#[export] Instance by_sequence_trans : Transitive by_sequence.
Proof. intros x y z. unfold by_sequence. lia. Qed.

(** The one row a limit of one selects has the largest sequence. *)
Lemma newest_row db name w : name ≠ ""%string → wf db → w ∈ deployments db → of_application db name w = true →
  (∀ v, v ∈ deployments db → of_application db name v = true → w_sequence v ≤ w_sequence w) →
  selected_rows db (mk_filter name [] 1) = [w].
Proof.
  intros Hn Hwf Hw Hof Hmax. unfold selected_rows. cbn [f_Application f_Limit].
  destruct (String.eqb_spec name ""); [done|]. change (0 <? 1) with true. cbv iota. change (Z.to_nat 1) with 1%nat.
  set (rows := List.filter (selected db (mk_filter name [] 1)) (deployments db)).
  assert (∀ v, v ∈ rows ↔ v ∈ deployments db ∧ of_application db name v = true) as Hrows.
  { intros v. unfold rows. rewrite elem_of_lfilter. unfold selected. cbn [f_Application f_Statuses].
    destruct (String.eqb_spec name ""); [done|]. simpl. by rewrite andb_true_r. }
  pose proof (merge_sort_Permutation by_sequence rows) as Hp.
  pose proof (StronglySorted_merge_sort by_sequence rows) as Hs.
  destruct (merge_sort by_sequence rows) as [|x l] eqn:E.
  - apply Permutation_nil in Hp. assert (w ∈ rows) as H by by apply Hrows. rewrite Hp in H. by apply elem_of_nil in H.
  - simpl. rewrite take_0. f_equal. assert (x ∈ rows) as Hx by (rewrite <- Hp; by left).
    assert (w ∈ x :: l) as Hin by (rewrite Hp; by apply Hrows).
    apply Hrows in Hx as [Hx Hxof]. apply elem_of_cons in Hin as [->|Hin]; [done|].
    apply StronglySorted_inv in Hs as [_ Hs]. rewrite Forall_forall in Hs. specialize (Hs w Hin). unfold by_sequence in Hs.
    specialize (Hmax x Hx Hxof).
    apply of_application_spec in Hxof as (a & Ha & Hai & Han); [|done..].
    apply of_application_spec in Hof as (b & Hb & Hbi & Hbn); [|done..].
    assert (a = b) as -> by (eapply (NoDup_column_eq app_Name); [apply (wf_app_names db Hwf)|done..|congruence]).
    eapply (NoDup_column_eq w_id); [apply (wf_ids db Hwf)|done..|].
    destruct (Z.lt_trichotomy (w_id x) (w_id w)) as [H|[H|H]]; [|done|];
      [pose proof (wf_sequence db Hwf x w)|pose proof (wf_sequence db Hwf w x)]; rewrite Hai in *; intuition lia.
Qed.

(** ** Properties *)

(** C7: whatever sequence of its operations the agent has performed on the
    database, an application has at most one ACTIVE deployment, and it is the
    one the application's row points to: none when it points to none. *)
Theorem one_active_deployment (aead : option AEAD) nonce Marshal (db : DB) : reachable aead nonce Marshal db →
  ∀ a, a ∈ applications db →
    match app_ActiveDeploymentID a with
    | Some id => ∃ w, w ∈ deployments db ∧ w_id w = id ∧ w_application_id w = app_ID a ∧ w_status w = StatusActive ∧
                   ∀ v, v ∈ deployments db → w_application_id v = app_ID a → w_status v = StatusActive → v = w
    | None => ∀ v, v ∈ deployments db → w_application_id v = app_ID a → w_status v ≠ StatusActive
    end.
Proof.
  intros Hwf%wf_reachable a Ha. destruct (app_ActiveDeploymentID a) as [id|] eqn:E.
  - destruct (wf_pointer db Hwf a id Ha E) as (w & Hw & Hid & Happ). exists w. split_and!; [done..| |].
    + apply (wf_active db Hwf a w Ha Hw Happ). congruence.
    + intros v Hv Hva Hs. apply (wf_active db Hwf a v Ha Hv Hva) in Hs.
      eapply (NoDup_column_eq w_id); [apply (wf_ids db Hwf)|done..|congruence].
  - intros v Hv Hva Hs. apply (wf_active db Hwf a v Ha Hv Hva) in Hs. congruence.
Qed.

(** A deployment's record is what it was recorded as, whatever the agent
    does to the database afterwards: of a record found under the same id only
    the status, the error, the completion time, the note that it is dormant
    and a source that was deleted can differ; the status has come by legal
    transitions, a completion time is stamped once, and an error once
    recorded is never emptied.  And no step loses a record but the deletion of
    its application. *)
Theorem records_kept (aead : option AEAD) nonce Marshal (db db' : DB) :
  reachable aead nonce Marshal db → rtc (store_step aead nonce Marshal) db db' →
  ∀ w w', w ∈ deployments db → w' ∈ deployments db' → w_id w = w_id w' → kept w w'.
Proof.
  intros Hwf%wf_reachable Hp w w' Hw Hw' Hid. destruct (path_rows _ _ _ db db' Hp Hwf) as (_ & _ & H).
  destruct (H w' Hw') as [Hlt|(v & Hv & Hk)].
  - pose proof (wf_last db Hwf w Hw). lia.
  - assert (v = w) as ->; [|done].
    eapply (NoDup_column_eq w_id); [apply (wf_ids db Hwf)|done..|]. by rewrite Hid, (kept_id _ _ Hk).
Qed.

(** The commit promotes exactly the HEALTHY deployment it is given,
    supersedes exactly the one that was active, and repoints and revives the
    application; a deployment in any other status is refused with a conflict
    and nothing changes. *)
Theorem activate_commits (aead : option AEAD) nonce Marshal (db : DB) (id now : Z) : reachable aead nonce Marshal db →
  (∀ db' p, ActivateDeployment aead db id now = inr (db', p) →
     ∃ w a, w ∈ deployments db ∧ w_id w = id ∧ w_status w = StatusHealthy ∧ a ∈ applications db ∧ app_ID a = w_application_id w ∧
       deployments db' = promoted id (app_ActiveDeploymentID a) <$> deployments db ∧
       (∀ v, v ∈ deployments db → w_status (promoted id (app_ActiveDeploymentID a) v) =
          if w_id v =? id then StatusActive
          else if bool_decide (app_ActiveDeploymentID a = Some (w_id v)) then StatusSuperseded else w_status v) ∧
       (∃ b, b ∈ applications db' ∧ app_ID b = app_ID a ∧ app_ActiveDeploymentID b = Some id ∧ app_DesiredState b = DesiredRunning)) ∧
  (∀ w, w ∈ deployments db → w_id w = id → w_status w ≠ StatusHealthy → ActivateDeployment aead db id now = inl ErrConflict).
Proof.
  intros Hwf%wf_reachable. split.
  - intros db' p (w & a & Hw & <- & Ha & Happ & (v & Hv & Hvi & Hvs) & -> & _)%activate_inv.
    assert (v = w) as -> by (eapply (NoDup_column_eq w_id); [apply (wf_ids db Hwf)|done..]).
    exists w, a. split_and!; [done..| |].
    + intros u Hu. by apply (promoted_status db a w u).
    + exists (repointed (app_ID a) (w_id w) now a). simpl. unfold repointed. rewrite Z.eqb_refl.
      split_and!; [|done..]. apply list_elem_of_fmap. exists a. by rewrite Z.eqb_refl.
  - intros w Hw <- Hs. unfold ActivateDeployment. destruct (find_row (λ v, w_id v =? w_id w) (deployments db)) as [v|] eqn:E.
    2: { pose proof (find_row_none _ _ _ E Hw) as H. simpl in H. by rewrite Z.eqb_refl in H. }
    apply find_row_some in E as [Hv Hi%Z.eqb_eq].
    assert (v = w) as -> by (eapply (NoDup_column_eq w_id); [apply (wf_ids db Hwf)|done..]).
    destruct (wf_owner db Hwf w Hw) as (a & Ha & Happ).
    destruct (find_row (λ b, app_ID b =? w_application_id w) (applications db)) as [b|] eqn:Eb.
    2: { pose proof (find_row_none _ _ _ Eb Ha) as H. simpl in H. by apply Z.eqb_neq in H. }
    unfold expectOneRow. destruct (Nat.eqb _ 0) eqn:E0; [done|].
    apply affected_zero in E0 as (u & Hu & [Hui%Z.eqb_eq Hus%bool_decide_eq_true]%andb_true_iff). exfalso. apply Hs.
    assert (u = w) as -> by (eapply (NoDup_column_eq w_id); [apply (wf_ids db Hwf)|done..]). done.
Qed.

(** A deployment that is recorded is the application's newest: its
    sequence is above that of every earlier one, and it is what the listing of
    the application's deployments, limited to one, answers. *)
Theorem recorded_is_newest (aead : option AEAD) nonce Marshal (db db' : DB) (d d' : Deployment) (now : Z) :
  reachable aead nonce Marshal db → a_Name (d_Spec d) ≠ ""%string →
  insertDeployment aead nonce Marshal db d now = inr (db', d') →
  (∀ w, w ∈ deployments db → w_application_id w = d_ApplicationID d' → w_sequence w < d_Sequence d') ∧
  ∃ w, selected_rows db' (mk_filter (a_Name (d_Spec d)) [] 1) = [w] ∧ w_id w = d_ID d' ∧ w_sequence w = d_Sequence d' ∧
       w_status w = StatusPending.
Proof.
  intros Hwf%wf_reachable Hn H. pose proof (wf_insert _ _ _ _ _ _ _ _ H Hwf) as Hwf'.
  apply insertDeployment_inv in H as (apps & id & sealed & refs & Hr & _ & Hdb' & Hi & Ha & Hs & _). cbv zeta in Hdb'.
  match type of Hdb' with _ = mk_db _ (_ ++ [?x]) _ _ _ _ _ => set (w := x) in * end.
  assert (∀ v, v ∈ deployments db → w_application_id v = id → w_sequence v < d_Sequence d') as Hlt.
  { intros v Hv E. rewrite Hs. unfold next_sequence. apply Z.lt_succ_r, largest_le, list_elem_of_fmap_2, elem_of_lfilter.
    split; [done|]. by apply Z.eqb_eq. }
  split; [intros v Hv E; apply Hlt; congruence|].
  assert (w ∈ deployments db') as Hw by (rewrite Hdb'; apply elem_of_app; right; by apply list_elem_of_singleton).
  assert (∃ a, a ∈ applications db' ∧ app_ID a = id ∧ app_Name a = a_Name (d_Spec d)) as (a & Haa & Hai & Han).
  { rewrite Hdb'. apply register_spec in Hr as [(f & -> & Hf & a & Haa & Hai & Han)|(_ & _ & ->)].
    - exists (f a). destruct (Hf a) as (-> & -> & _). split_and!; [by apply list_elem_of_fmap_2|done..].
    - eexists. split; [apply elem_of_app; right; by apply list_elem_of_singleton|done]. }
  exists w. split_and!; [|by rewrite Hi|by rewrite Hs|done].
  apply newest_row; [done|done|done|apply of_application_spec; [done..|eauto]|].
  intros v Hv Hof. rewrite Hdb' in Hv. simpl in Hv. apply elem_of_app in Hv as [Hv| ->%list_elem_of_singleton]; [|done].
  apply of_application_spec in Hof as (b & Hb & Hbi & Hbn); [|done|by rewrite Hdb'; apply elem_of_app; left].
  assert (b = a) as -> by (eapply (NoDup_column_eq app_Name); [apply (wf_app_names db' Hwf')|done..|congruence]).
  specialize (Hlt v Hv ltac:(congruence)). change (w_sequence w) with (next_sequence (deployments db) id). lia.
Qed.

(** ** A history to try the properties on *)

Inductive op := OInsert (d : Deployment) (now : Z) | OTransition (id : Z) (from to : DeploymentStatus) (msg : string)
  | OActivate (id now : Z) | OComplete (id now : Z).

Definition perform (o : op) (db : DB) : option DB :=
  match o with
  | OInsert d now => match insertDeployment None Ok (λ _, ""%string) db d now with inr (db', _) => Some db' | inl _ => None end
  | OTransition id from to msg =>
      if CanTransition from to && negb (contains [StatusActive; StatusSuperseded] to)
      then match TransitionDeployment db id from to msg with inr db' => Some db' | inl _ => None end else None
  | OActivate id now => match ActivateDeployment None db id now with inr (db', _) => Some db' | inl _ => None end
  | OComplete id now => Some (CompleteDeployment db id now)
  end.
Definition history (ops : list op) (db : DB) : option DB := foldl (λ acc o, db ← acc; perform o db) (Some db) ops.

Lemma performed_step o db db' : perform o db = Some db' → store_step None Ok (λ _, ""%string) db db'.
Proof.
  destruct o as [d now|id from to msg|id now|id now]; simpl; intros H.
  - destruct (insertDeployment _ _ _ _ _ _) as [|[? ?]] eqn:E; simplify_eq. by eapply step_insert.
  - destruct (CanTransition from to && _) eqn:Ec; [|done]. apply andb_true_iff in Ec as [Hc Hn%negb_true_iff].
    destruct (TransitionDeployment _ _ _ _ _) eqn:E; simplify_eq.
    assert (to ∉ [StatusActive; StatusSuperseded]) as Hto by (rewrite <- contains_spec, Hn; done).
    eapply step_transition; [done| | |done]; intros ->; apply Hto; set_solver.
  - destruct (ActivateDeployment _ _ _ _) as [|[? ?]] eqn:E; simplify_eq. by eapply step_activate.
  - simplify_eq. apply step_complete.
Qed.

Lemma history_path ops db db' : history ops db = Some db' → rtc (store_step None Ok (λ _, ""%string)) db db'.
Proof.
  unfold history. revert db. induction ops as [|o r IH]; intros db; simpl; [intros [= ->]; reflexivity|].
  intros H. destruct (perform o db) as [db1|] eqn:E.
  - eapply rtc_l; [by eapply performed_step|by apply IH].
  - exfalso. clear IH E. by induction r.
Qed.

Lemma path_reachable db db' : rtc (store_step None Ok (λ _, ""%string)) db db' → reachable None Ok (λ _, ""%string) db → reachable None Ok (λ _, ""%string) db'.
Proof. induction 1; [done|]. intros H1. apply IHrtc. by eapply reach_step. Qed.

Lemma history_reachable ops db : history ops empty_db = Some db → reachable None Ok (λ _, ""%string) db.
Proof. intros H. eapply path_reachable; [by eapply history_path|constructor]. Qed.

Definition sample_deployment : Deployment :=
  mk_deployment 0 0 "api" 0 "v1" "shop/api:v1" secret_app StatusPending "" 0 None KindDeploy None "admin" "" 0 0 no_references.
Definition climb (id : Z) : list op :=
  [OTransition id StatusPending StatusBuilding ""; OTransition id StatusBuilding StatusStarting "";
   OTransition id StatusStarting StatusHealthChecking ""; OTransition id StatusHealthChecking StatusHealthy ""].
Definition two_deployed : DB :=
  default empty_db (history ([OInsert sample_deployment 10] ++ climb 1 ++ [OActivate 1 20; OComplete 1 21; OInsert sample_deployment 30] ++ climb 2) empty_db).

Lemma two_deployed_reachable : reachable None Ok (λ _, ""%string) two_deployed.
Proof. apply (history_reachable ([OInsert sample_deployment 10] ++ climb 1 ++ [OActivate 1 20; OComplete 1 21; OInsert sample_deployment 30] ++ climb 2)). vm_compute. reflexivity. Qed.

Lemma one_active_deployment_witness : ∃ a, a ∈ applications two_deployed ∧ app_ActiveDeploymentID a = Some 1 ∧
  ∃ w, w ∈ deployments two_deployed ∧ w_id w = 1 ∧ w_status w = StatusActive.
Proof.
  eexists. split; [left|]. split; [vm_compute; reflexivity|].
  destruct (one_active_deployment None Ok (λ _, ""%string) two_deployed two_deployed_reachable _ ltac:(left)) as (w & ? & ? & _ & ? & _).
  by exists w.
Defined.

Definition two_switched : DB := default empty_db (history [OActivate 2 40] two_deployed).
Lemma two_switched_path : rtc (store_step None Ok (λ _, ""%string)) two_deployed two_switched.
Proof. apply (history_path [OActivate 2 40]). vm_compute. reflexivity. Qed.

Lemma records_kept_witness : ∃ w w', deployments two_deployed !! 0%nat = Some w ∧ deployments two_switched !! 0%nat = Some w' ∧
  w_status w = StatusActive ∧ w_status w' = StatusSuperseded ∧ kept w w'.
Proof.
  destruct (deployments two_deployed !! 0%nat) as [w|] eqn:E; [|vm_compute in E; discriminate E].
  destruct (deployments two_switched !! 0%nat) as [w'|] eqn:E'; [|vm_compute in E'; discriminate E'].
  assert ((w_id w, w_status w) = (1, StatusActive)) as Hw by (vm_compute in E; injection E as <-; reflexivity).
  assert ((w_id w', w_status w') = (1, StatusSuperseded)) as Hw' by (vm_compute in E'; injection E' as <-; reflexivity).
  injection Hw as Hi Hs. injection Hw' as Hi' Hs'. exists w, w'. split_and!; [reflexivity|reflexivity|exact Hs|exact Hs'|].
  apply (records_kept None Ok (λ _, ""%string) two_deployed two_switched two_deployed_reachable two_switched_path);
    [by eapply list_elem_of_lookup_2|by eapply list_elem_of_lookup_2|congruence].
Defined.

Lemma activate_commits_witness : ∃ db' p, ActivateDeployment None two_deployed 2 40 = inr (db', p) ∧
  ∃ b, b ∈ applications db' ∧ app_ActiveDeploymentID b = Some 2.
Proof.
  destruct (ActivateDeployment None two_deployed 2 40) as [|[db' p]] eqn:E; [vm_compute in E; discriminate E|].
  exists db', p. split; [reflexivity|].
  destruct (activate_commits None Ok (λ _, ""%string) two_deployed 2 40 two_deployed_reachable) as [H _].
  destruct (H db' p E) as (w & a & _ & _ & _ & _ & _ & _ & _ & b & ? & _ & ? & _). by exists b.
Defined.

Lemma recorded_is_newest_witness : ∃ db' d' w, insertDeployment None Ok (λ _, ""%string) two_deployed sample_deployment 50 = inr (db', d') ∧
  selected_rows db' (mk_filter "api" [] 1) = [w] ∧ w_id w = d_ID d'.
Proof.
  destruct (insertDeployment None Ok (λ _, ""%string) two_deployed sample_deployment 50) as [|[db' d']] eqn:E; [vm_compute in E; discriminate E|].
  destruct (recorded_is_newest None Ok (λ _, ""%string) two_deployed db' sample_deployment d' 50 two_deployed_reachable ltac:(discriminate) E)
    as (_ & w & ? & ? & _).
  by exists db', d', w.
Defined.
