(* ===== verification/Schedule.v ===== *)
(** * Schedules and ticks (agent/internal/deploy: schedule.go, backups.go,
    standby.go, jobs.go)

    Three tickers start what a cron expression says is due: jobs, backups, and
    the transfer of exports.  Each looks at the minutes since it last looked,
    once, and remembers the minute it has looked up to.  What a due job or
    backup does is beyond this file: the model says which are started. *)

From S2P Require Import Prelude GoStrings GoTime SpecTypes Cron DeployState Store.
From Stdlib Require Import String.
Local Open Scope string_scope.
Local Open Scope Z_scope.

(** ** One window *)

(** schedule.Next(last).After(minute) *)
Definition fires_after (s : Schedule) (last minute : Time) : bool := minute <? Next s last.

(** backups.go *)
Definition scheduledBetween (b : option Backups) (last minute : Time) : bool :=
  match b with
  | None => false
  | Some b => match Cron.Parse (bk_Schedule b) with
              | Ok s => negb (fires_after s last minute)
              | Err _ => false
              end
  end.

(** standby.go: whether it is due, and the minute it has looked up to. *)
Definition due (s : option Schedule) (last minute : Time) : bool * Time :=
  match s with
  | None => (false, last)
  | Some s =>
      let from := if last =? zero_time then minute - GoTime.minute else last in
      if negb (from <? minute) then (false, last)
      else (negb (fires_after s from minute), minute)
  end.

(** scheduleApp: the jobs it hands to startJob, in order. *)
Definition job_due (last minute : Time) (j : Job) : bool :=
  match Cron.Parse (j_Schedule j) with
  | Err _ => false
  | Ok s => negb (fires_after s last minute)
  end.
Definition started_jobs (jobs : list Job) (last minute : Time) : list Job := List.filter (job_due last minute) jobs.

(** ** The ticks *)

(** One application of a tick: the minute looked up to, and the window that is
    handed on.  [blocked] says that the application is kept for the next tick,
    its window with it. *)
Definition look (blocked : Application → Time → Time → bool) (app : Application) (minute : Time) (lastTick : gmap string Time)
  : gmap string Time * option (Time * Time) :=
  if bool_decide (app_ActiveDeploymentID app = None) || negb (String.eqb (app_DesiredState app) DesiredRunning) then (lastTick, None) else
  let last := match lastTick !! app_Name app with Some t => t | None => minute - GoTime.minute end in
  if negb (last <? minute) then (lastTick, None)
  else if blocked app last minute then (lastTick, None)
  else (<[app_Name app := minute]> lastTick, Some (last, minute)).

Fixpoint look_all (blocked : Application → Time → Time → bool) (apps : list Application) (minute : Time) (lastTick : gmap string Time)
  : gmap string Time * list (Application * Time * Time) :=
  match apps with
  | [] => (lastTick, [])
  | app :: r =>
      let '(lastTick, window) := look blocked app minute lastTick in
      let '(lastTick, windows) := look_all blocked r minute lastTick in
      (lastTick, match window with Some (last, minute) => (app, last, minute) :: windows | None => windows end)
  end.

(** Names that are no application's are forgotten. *)
Definition forget (apps : list Application) (lastTick : gmap string Time) : gmap string Time :=
  filter (λ e, e.1 ∈ app_Name <$> apps) lastTick.

Section Scheduler.
(** What the tick finds: the record of a deployment, or an error. *)
Variable GetDeployment : Z → answer Deployment.

Definition scheduleApp (app : Application) (last minute : Time) : list (string * string) :=
  match app_ActiveDeploymentID app with
  | None => []
  | Some id => match GetDeployment id with
               | inl _ => []
               | inr d => (λ j, (app_Name app, j_Name j)) <$> started_jobs (a_Jobs (d_Spec d)) last minute
               end
  end.

(** scheduleJobs: [apps] is what ListApplications answers, [busy] says whose
    lock tryLock refuses; the result is what startJob is called with. *)
Definition scheduleJobs (busy : string → bool) (apps : answer (list Application)) (now : Time) (lastTick : gmap string Time)
  : gmap string Time * list (string * string) :=
  match apps with
  | inl _ => (lastTick, [])
  | inr apps =>
      let '(lastTick, windows) := look_all (λ app _ _, busy (app_Name app)) apps (TruncateMinute now) lastTick in
      (forget apps lastTick, flat_map (λ w, scheduleApp w.1.1 w.1.2 w.2) windows)
  end.

Definition backupDue (app : Application) (last minute : Time) : bool :=
  match app_ActiveDeploymentID app with
  | None => false
  | Some id => match GetDeployment id with
               | inl _ => false
               | inr d => scheduledBetween (a_Backups (d_Spec d)) last minute
               end
  end.

(** scheduleAppBackup, up to the call of beginBackup: [reread] is
    activeDeployment under the application's lock. *)
Definition scheduleAppBackup (reread : string → answer (Application * Deployment)) (name : string) (last minute : Time) : bool :=
  match reread name with
  | inl _ => false
  | inr (app, d) => String.eqb (app_DesiredState app) DesiredRunning && scheduledBetween (a_Backups (d_Spec d)) last minute
  end.

(** scheduleBackups, without the agent's own state backup: [storage] says
    that a backup storage is configured, [locked] whose lock lockForSchedule
    obtains; the result is whose backups are begun. *)
Definition scheduleBackups (storage : bool) (locked : string → bool) (reread : string → answer (Application * Deployment))
  (apps : answer (list Application)) (now : Time) (lastTick : gmap string Time) : gmap string Time * list string :=
  if negb storage then (lastTick, []) else
  match apps with
  | inl _ => (lastTick, [])
  | inr apps =>
      let blocked := λ app last minute, backupDue app last minute && negb (locked (app_Name app)) in
      let '(lastTick, windows) := look_all blocked apps (TruncateMinute now) lastTick in
      (forget apps lastTick,
       flat_map (λ w, if backupDue w.1.1 w.1.2 w.2 && scheduleAppBackup reread (app_Name w.1.1) w.1.2 w.2
                      then [app_Name w.1.1] else []) windows)
  end.
End Scheduler.

(** Jobs: when the API says a job is due next; a stopped application runs none. *)
Definition NextRunAt (app : Application) (j : Job) (now : Time) : option Time :=
  match Cron.Parse (j_Schedule j) with
  | Ok s => if String.eqb (app_DesiredState app) DesiredRunning then Some (Next s now) else None
  | Err _ => None
  end.

(** ** What is due *)

(** A schedule that does not fire in the eight years Next looks ahead. *)
Definition never_fires (s : Schedule) (last : Time) : Prop :=
  ∀ u, last < u < next_limit last → u mod GoTime.minute = 0 → Matches s u = false.

Lemma next_search_before s last t : next_search s last = inr (Some t) → t < next_limit last.
Proof.
  unfold next_search. intros H.
  pose (R := λ r : option Time, match r with Some u => u < next_limit last | None => True end).
  change (R (Some t)). eapply (run_returns _ (searched s last) R); [| |apply searched_start|exact H].
  - intros u u' HI E. by eapply searched_step.
  - intros u [v|] HI E; [|done]. apply next_round_end in E as (-> & ? & _). done.
Qed.

Lemma fires_after_spec s last minute : zero_time ≤ minute → minute < next_limit last →
  fires_after s last minute = false ↔
  (∃ u, last < u ≤ minute ∧ u mod GoTime.minute = 0 ∧ Matches s u = true) ∨ never_fires s last.
Proof.
  intros Hz Hl. destruct (next_search_ends s last) as [r Hr]. pose proof (next_search_spec s last r Hr) as Hf.
  unfold fires_after, Next. rewrite Hr. destruct r as [t|]; simpl in Hf.
  - destruct Hf as [(Ha & Hlt & Hnone) Hm]. rewrite Z.ltb_ge. split.
    + intros Hle. left. exists t. done.
    + intros [(u & Hu & Hua & Hum)|Hn].
      * destruct (Z.le_gt_cases t minute); [done|]. rewrite Hnone in Hum by (done || lia). done.
      * pose proof (next_search_before s last t Hr). rewrite Hn in Hm by (done || lia). done.
  - rewrite Z.ltb_ge. split; [by right|done].
Qed.

(** ** Windows *)

(** Windows one after the other, from where the first starts to where the last
    ends. *)
Inductive chain : Time → list (Time * Time) → Time → Prop :=
  | chain_nil t : chain t [] t
  | chain_cons l m ws t : l < m → chain m ws t → chain l ((l, m) :: ws) t.

Lemma chain_le l ws t : chain l ws t → l ≤ t.
Proof. induction 1; lia. Qed.

Lemma chain_snoc l ws t m : chain l ws t → t < m → chain l (ws ++ [(t, m)]) m.
Proof. induction 1; simpl; intros; constructor; auto. constructor. Qed.

Lemma chain_app l ws t vs u : chain l ws t → chain t vs u → chain l (ws ++ vs) u.
Proof. induction 1; simpl; intros; [done|]. constructor; auto. Qed.

(** Every minute of a chain lies in one of its windows, and in no other. *)
Lemma chain_once l ws t u : chain l ws t → l < u ≤ t →
  ∃ vs w vs', ws = (vs ++ w :: vs')%list ∧ w.1 < u ≤ w.2 ∧ ∀ v, v ∈ (vs ++ vs')%list → ¬ (v.1 < u ≤ v.2).
Proof.
  assert (∀ l ws t, chain l ws t → ∀ v, v ∈ ws → l ≤ v.1 ∧ v.2 ≤ t) as Hin.
  { clear. induction 1 as [t|l m ws t Hlm Hc IH]; intros v Hv; [by apply elem_of_nil in Hv|].
    pose proof (chain_le _ _ _ Hc). apply elem_of_cons in Hv as [->|Hv]; [simpl; lia|]. apply IH in Hv. lia. }
  induction 1 as [t|l m ws t Hlm Hc IH]; intros Hu; [lia|]. destruct (Z.le_gt_cases u m).
  - exists [], (l, m), ws. split; [done|]. split; [simpl; lia|]. intros v Hv. apply (Hin _ _ _ Hc) in Hv. lia.
  - destruct IH as (vs & w & vs' & -> & Hw & Hn); [lia|]. exists ((l, m) :: vs), w, vs'. split; [done|]. split; [done|].
    intros v [->|Hv]%elem_of_cons; [simpl; lia|]. by apply Hn.
Qed.

(** ** What a sequence of ticks starts

    One tick, as the agent finds the world at that moment; and, for one
    application, what the ticks amount to: it is looked at up to the minute of
    each tick in which it runs and is not busy, from where it was looked at
    last. *)

Record tick := mk_tick {
  tk_get : Z → answer Deployment; tk_busy : string → bool;
  tk_apps : answer (list Application); tk_now : Time }.

Fixpoint run_jobs (l : list tick) (lastTick : gmap string Time) : list (list (string * string)) :=
  match l with
  | [] => []
  | t :: r => let '(next, starts) := scheduleJobs (tk_get t) (tk_busy t) (tk_apps t) (tk_now t) lastTick in
              starts :: run_jobs r next
  end.

Definition runs (a : Application) : bool :=
  negb (bool_decide (app_ActiveDeploymentID a = None)) && String.eqb (app_DesiredState a) DesiredRunning.
Definition app_at (t : tick) (name : string) : option Application :=
  match tk_apps t with inl _ => None | inr apps => find_row (λ a, String.eqb (app_Name a) name) apps end.
Definition window (t : tick) (name : string) (last : Time) : option (Time * Time) :=
  match app_at t name with
  | Some a => if runs a && (last <? TruncateMinute (tk_now t)) && negb (tk_busy t name) then Some (last, TruncateMinute (tk_now t)) else None
  | None => None
  end.
Fixpoint spec_windows (name : string) (l : list tick) (last : Time) : list (option (Time * Time)) :=
  match l with
  | [] => []
  | t :: r => let w := window t name last in w :: spec_windows name r (match w with Some (_, m) => m | None => last end)
  end.
Definition spec_starts (t : tick) (name : string) (w : option (Time * Time)) : list (string * string) :=
  match w, app_at t name with
  | Some (last, m), Some a => scheduleApp (tk_get t) a last m
  | _, _ => []
  end.

(** The agent's applications have different names. *)
Definition listed (name : string) (t : tick) : Prop :=
  match tk_apps t with inl _ => True | inr apps => name ∈ app_Name <$> apps ∧ NoDup (app_Name <$> apps) end.
Definition mine (name : string) (starts : list (string * string)) : list (string * string) :=
  filter (λ p, p.1 = name) starts.

Lemma spec_windows_chain name l last : ∃ stop, chain last (omap id (spec_windows name l last)) stop.
Proof.
  revert last. induction l as [|t r IH]; intros last; simpl; [exists last; constructor|].
  destruct (window t name last) as [[l m]|] eqn:E.
  - destruct (IH m) as [stop Hc]. exists stop. simpl. unfold window in E. destruct (app_at t name); [|done].
    destruct (_ && _) eqn:Eb in E; [|done]. injection E as <- <-. bools. constructor; [lia|done].
  - apply IH.
Qed.

Section Tick.
Context (name : string) (get : Z → answer Deployment) (blocked : Application → Time → Time → bool).

Definition starts_of (ws : list (Application * Time * Time)) : list (string * string) :=
  flat_map (λ w, scheduleApp get w.1.1 w.1.2 w.2) ws.

Lemma mine_app a b : mine name (a ++ b) = (mine name a ++ mine name b)%list.
Proof. apply filter_app. Qed.
Lemma mine_scheduleApp a l m : mine name (scheduleApp get a l m) = if String.eqb (app_Name a) name then scheduleApp get a l m else [].
Proof.
  unfold scheduleApp. destruct (app_ActiveDeploymentID a); [|by destruct (String.eqb _ _)].
  destruct (get z) as [|d]; [by destruct (String.eqb _ _)|]. unfold mine.
  destruct (String.eqb_spec (app_Name a) name) as [E|E]; induction (started_jobs _ _ _) as [|j r IH]; try done; rewrite fmap_cons.
  - rewrite filter_cons_True by done. by f_equal.
  - by rewrite filter_cons_False by done.
Qed.

Lemma look_other a minute lt lt' w : app_Name a ≠ name → look blocked a minute lt = (lt', w) →
  lt' !! name = lt !! name ∧ mine name (starts_of match w with Some (l, m) => [(a, l, m)] | None => [] end) = [].
Proof.
  intros Hne H. assert (mine name (starts_of match w with Some (l, m) => [(a, l, m)] | None => [] end) = []) as Hm.
  { destruct w as [[l m]|]; [|done]. simpl. rewrite app_nil_r, mine_scheduleApp. by destruct (String.eqb_spec (app_Name a) name). }
  split; [|done]. unfold look in H.
  destruct (_ || _); [by simplify_eq|]. destruct (negb _); [by simplify_eq|]. destruct (blocked _ _ _); [by simplify_eq|].
  simplify_eq. by rewrite lookup_insert_ne.
Qed.

Lemma look_mine a minute lt last : app_Name a = name → lt !! name = Some last →
  look blocked a minute lt =
    if runs a && (last <? minute) && negb (blocked a last minute) then (<[name := minute]> lt, Some (last, minute)) else (lt, None).
Proof.
  intros E Hl. unfold look, runs. rewrite E, Hl.
  destruct (bool_decide (app_ActiveDeploymentID a = None)), (String.eqb (app_DesiredState a) DesiredRunning); simpl; try done.
  destruct (last <? minute); simpl; [|done]. by destruct (blocked a last minute).
Qed.

Lemma look_all_cons a r minute lt :
  look_all blocked (a :: r) minute lt =
    let '(lt1, w) := look blocked a minute lt in let '(lt2, ws) := look_all blocked r minute lt1 in
    (lt2, (match w with Some (l, m) => [(a, l, m)] | None => [] end ++ ws)%list).
Proof.
  simpl. destruct (look blocked a minute lt) as [lt1 w]. destruct (look_all blocked r minute lt1). by destruct w as [[??]|].
Qed.

Lemma starts_of_app a b : starts_of (a ++ b) = (starts_of a ++ starts_of b)%list.
Proof. apply flat_map_app. Qed.

Lemma look_all_others r minute lt lt' ws : (name ∉ app_Name <$> r) → look_all blocked r minute lt = (lt', ws) →
  lt' !! name = lt !! name ∧ mine name (starts_of ws) = [].
Proof.
  revert lt lt' ws. induction r as [|a r IH]; intros lt lt' ws Hn H; [simpl in H; by simplify_eq|].
  rewrite fmap_cons, not_elem_of_cons in Hn. destruct Hn as [Hne Hn]. rewrite look_all_cons in H.
  destruct (look blocked a minute lt) as [lt1 w] eqn:E1. destruct (look_all blocked r minute lt1) as [lt2 ws2] eqn:E2.
  injection H as <- <-. destruct (IH _ _ _ Hn E2) as [-> Hw]. apply look_other in E1 as [-> H1]; [|done].
  split; [done|]. by rewrite starts_of_app, mine_app, H1, Hw.
Qed.

Lemma look_all_mine apps minute lt lt' ws last a : NoDup (app_Name <$> apps) → find_row (λ a, String.eqb (app_Name a) name) apps = Some a →
  lt !! name = Some last → look_all blocked apps minute lt = (lt', ws) →
  let go := runs a && (last <? minute) && negb (blocked a last minute) in
  lt' !! name = Some (if go then minute else last) ∧
  mine name (starts_of ws) = if go then scheduleApp get a last minute else [].
Proof.
  revert lt lt' ws. induction apps as [|b r IH]; intros lt lt' ws Hd Hf Hl H; [done|].
  rewrite fmap_cons in Hd. apply NoDup_cons in Hd as [Hna Hd]. rewrite look_all_cons in H.
  unfold find_row in Hf. simpl in Hf. destruct (String.eqb_spec (app_Name b) name) as [E|E].
  - injection Hf as ->. rewrite (look_mine a minute lt last E Hl) in H. cbv zeta.
    destruct (runs a && (last <? minute) && negb (blocked a last minute)).
    + destruct (look_all blocked r minute _) as [lt2 ws2] eqn:E2. injection H as <- <-. rewrite E in Hna.
      destruct (look_all_others _ _ _ _ _ Hna E2) as [-> Hw]. rewrite lookup_insert_eq. split; [done|].
      change (mine name (scheduleApp get a last minute ++ starts_of ws2) = scheduleApp get a last minute).
      rewrite mine_app, Hw, app_nil_r, mine_scheduleApp. by destruct (String.eqb_spec (app_Name a) name).
    + destruct (look_all blocked r minute _) as [lt2 ws2] eqn:E2. injection H as <- <-. rewrite E in Hna.
      by destruct (look_all_others _ _ _ _ _ Hna E2) as [-> Hw].
  - destruct (look blocked b minute lt) as [lt1 w] eqn:E1. destruct (look_all blocked r minute lt1) as [lt2 ws2] eqn:E2.
    injection H as <- <-. apply look_other in E1 as [H1 H2]; [|done]. rewrite <- H1 in Hl.
    destruct (IH _ _ _ Hd Hf Hl E2) as [Ha Hb]. split; [done|]. by rewrite starts_of_app, mine_app, H2.
Qed.
End Tick.

Lemma spec_starts_name t name w : spec_starts t name w = mine name (spec_starts t name w).
Proof.
  unfold spec_starts. destruct w as [[l m]|]; [|done]. unfold app_at. destruct (tk_apps t) as [|apps]; [done|].
  destruct (find_row _ apps) as [a|] eqn:E; [|done]. apply List.find_some in E as [_ E]. by rewrite mine_scheduleApp, E.
Qed.

(** One tick does to an application what its window says. *)
Lemma scheduleJobs_mine name t lt last next starts : listed name t → lt !! name = Some last →
  scheduleJobs (tk_get t) (tk_busy t) (tk_apps t) (tk_now t) lt = (next, starts) →
  next !! name = Some (match window t name last with Some (_, m) => m | None => last end) ∧
  mine name starts = spec_starts t name (window t name last).
Proof.
  unfold listed, scheduleJobs, window, spec_starts, app_at. destruct (tk_apps t) as [|apps]; [intros; by simplify_eq|].
  intros [Hin Hd] Hl H. destruct (look_all _ apps _ lt) as [lt' ws] eqn:E. injection H as <- <-.
  destruct (find_row (λ a, String.eqb (app_Name a) name) apps) as [a|] eqn:Ef.
  2: { exfalso. apply list_elem_of_fmap in Hin as (b & -> & Hb). apply list_elem_of_In in Hb.
       pose proof (List.find_none _ _ Ef _ Hb) as Hn. simpl in Hn. by rewrite String.eqb_refl in Hn. }
  destruct (look_all_mine name (tk_get t) _ apps _ _ _ _ last a Hd Ef Hl E) as [H1 H2]. cbv zeta in H1, H2.
  unfold find_row in Ef. apply List.find_some in Ef as [_ Ef%String.eqb_eq]. rewrite Ef in H1, H2. split.
  - unfold forget. apply map_lookup_filter_Some. split; [|done].
    rewrite H1. by destruct (runs a && _ && _).
  - unfold starts_of in H2. rewrite H2. by destruct (runs a && _ && _).
Qed.

Lemma windows_once name l last : ∃ stop,
  (∀ i t a, l !! i = Some t → app_at t name = Some a → runs a = true → tk_busy t name = false → TruncateMinute (tk_now t) ≤ stop) ∧
  last ≤ stop ∧
  ∀ u, last < u ≤ stop → ∃ i s m, spec_windows name l last !! i = Some (Some (s, m)) ∧ s < u ≤ m ∧
    ∀ k s' m', spec_windows name l last !! k = Some (Some (s', m')) → s' < u ≤ m' → k = i.
Proof.
  revert last. induction l as [|t r IH]; intros last; simpl.
  - exists last. split_and!; [done|lia|lia].
  - set (next := match window t name last with Some (_, m) => m | None => last end).
    destruct (IH next) as (stop & H1 & H2 & H3).
    assert (last ≤ next ∧ ∀ s m, window t name last = Some (s, m) → s = last ∧ m = next) as [Hle Hw].
    { unfold next, window. destruct (app_at t name) as [a|]; [|split; [lia|done]].
      destruct (_ && _) eqn:E; [|split; [lia|done]]. bools. split; [lia|]. by intros s m [= <- <-]. }
    exists stop. split_and!; [|lia|].
    + intros [|i] t' a Ht Ha Hr Hb; simpl in Ht; [|by eapply H1]. injection Ht as <-.
      etrans; [|exact H2]. unfold next, window. rewrite Ha, Hr, Hb. simpl.
      destruct (Z.ltb_spec last (TruncateMinute (tk_now t))); simpl; lia.
    + intros u Hu. destruct (Z.le_gt_cases u next) as [Hun|Hun].
      * assert (∃ s m, window t name last = Some (s, m)) as (s & m & E).
        { unfold next in *. destruct (window t name last) as [[s m]|]; [eauto|lia]. }
        destruct (Hw s m E) as [-> ->]. exists 0%nat, last, next. rewrite E. split_and!; [done|lia|lia|].
        intros [|k] s' m' Hk Hu'; [done|]. exfalso. simpl in Hk.
        destruct (spec_windows_chain name r next) as [stop' Hc].
        assert (next ≤ s') as ?; [|lia].
        clear -Hc Hk. revert k Hk. revert Hc. generalize (spec_windows name r next) as ws. generalize next as b.
        intros b ws. revert b. induction ws as [|w ws IH]; intros b Hc k Hk; [done|].
        destruct w as [[x y]|]; simpl in Hc.
        -- inversion Hc; subst. destruct k as [|k]; simpl in Hk; [injection Hk as <- <-; lia|].
           assert (y ≤ s') by (eapply IH; eauto). lia.
        -- destruct k as [|k]; simpl in Hk; [done|]. by eapply IH.
      * destruct (H3 u) as (i & s & m & Hi & Hsm & Huniq); [lia|]. exists (S i), s, m. simpl. split_and!; [exact Hi|lia|lia|].
        intros [|k] s' m' Hk Hu'; simpl in Hk; [|f_equal; by eapply Huniq].
        injection Hk as Hk. destruct (Hw _ _ Hk) as [-> ->]. lia.
Qed.

Lemma run_jobs_mine name l : Forall (listed name) l → ∀ lt last, lt !! name = Some last →
  mine name <$> run_jobs l lt = zip_with (λ t w, spec_starts t name w) l (spec_windows name l last).
Proof.
  induction 1 as [|t r Ht _ IH]; intros lt last Hl; [done|]. simpl.
  destruct (scheduleJobs _ _ _ _ lt) as [next starts] eqn:E.
  destruct (scheduleJobs_mine name t lt last next starts Ht Hl E) as [Hn Hm]. rewrite fmap_cons, Hm. f_equal.
  by apply IH.
Qed.

(** ** The thirtieth of February *)

Lemma february_days z : let '(y, m, d) := civil_from_days z in m = 2 → d ≤ 29.
Proof.
  unfold civil_from_days. cbv zeta.
  pose proof (day_of_year_range ((z + 719468) mod 146097) ltac:(apply Z.mod_pos_bound; lia)) as H.
  unfold day_of_year, year_of_era in H. revert H.
  match goal with |- 0 ≤ ?e ≤ 365 → _ => generalize e end.
  intros doy H. destruct (Z.ltb_spec ((5 * doy + 2) / 153) 10); dlia.
Qed.

Lemma no_thirtieth t : Month t = 2 → Day t ≤ 29.
Proof.
  unfold Month, Day. pose proof (february_days (day_number t)) as H.
  destruct (civil_from_days (day_number t)) as [[y m] d]. exact H.
Qed.

Definition thirtieth := "0 0 30 2 *".
Definition thirtieth_schedule : Schedule := match Cron.Parse thirtieth with Ok s => s | Err _ => mk_schedule 0 0 0 0 0 true true "" end.

Lemma thirtieth_never t : Matches thirtieth_schedule t = false.
Proof.
  unfold Matches, matchesDay. change (anyDay thirtieth_schedule) with false. change (anyWeekday thirtieth_schedule) with true.
  destruct (has (months thirtieth_schedule) (Month t)) eqn:Em; [|by rewrite andb_false_r].
  cbn [negb andb].
  assert (∀ m, 1 ≤ m ≤ 12 → implb (has (months thirtieth_schedule) m) (m =? 2) = true) as Hm
    by (apply forallb_zrange; vm_compute; reflexivity).
  specialize (Hm _ (Month_range t)). rewrite Em in Hm. apply Z.eqb_eq in Hm. apply no_thirtieth in Hm. pose proof (Day_range t).
  assert (∀ d, 1 ≤ d ≤ 29 → has (days thirtieth_schedule) d = false) as Hd.
  { intros d Hd. apply negb_true_iff. revert d Hd. apply (forallb_zrange (λ d, negb (has (days thirtieth_schedule) d))). vm_compute. reflexivity. }
  rewrite Hd by lia. by rewrite andb_false_r.
Qed.

(** ** Properties *)

(** Of an application's jobs, a window starts those whose schedule fires
    in it (once, however often it fires), in the order of the document, and
    otherwise only those whose schedule does not fire within the eight years
    the search looks ahead. *)
Theorem due_jobs (jobs : list Job) (last minute : Z) (j : Job) : zero_time ≤ minute → minute < next_limit last →
  j ∈ started_jobs jobs last minute ↔
    j ∈ jobs ∧ ∃ s, Cron.Parse (j_Schedule j) = Ok s ∧
      ((∃ u, last < u ≤ minute ∧ u mod GoTime.minute = 0 ∧ Matches s u = true) ∨ never_fires s last).
Proof.
  intros Hz Hl. unfold started_jobs. rewrite list_elem_of_In, filter_In, <- list_elem_of_In. unfold job_due.
  destruct (Cron.Parse (j_Schedule j)) as [s|e] eqn:E.
  - rewrite negb_true_iff, fires_after_spec by done. split; [intros [? ?]; eauto|]. intros (? & s' & [= <-] & ?). done.
  - split; [by intros [_ ?]|]. by intros (_ & s & ? & _).
Qed.

Definition clean_job := mk_job "clean" "*/5 * * * *" ["clean"] 0.
Lemma due_jobs_witness : clean_job ∈ started_jobs [clean_job] (3 * GoTime.minute) (12 * GoTime.minute).
Proof.
  apply (due_jobs [clean_job] (3 * GoTime.minute) (12 * GoTime.minute) clean_job); [vm_compute; discriminate|vm_compute; reflexivity|].
  split; [left|]. eexists. split; [vm_compute; reflexivity|]. left. exists (10 * GoTime.minute). vm_compute. repeat split; discriminate.
Defined.

(** A schedule for the thirtieth of February parses, and so passes
    validation, and never fires; yet a job and a backup with it are started in
    every window, and the API gives the year 1 as its next run.  Next answers
    a schedule without a firing with the zero time, which its callers take
    for a time that has come. *)
Theorem dead_schedule_runs_always : Cron.Parse thirtieth = Ok thirtieth_schedule ∧
  (∀ t, Matches thirtieth_schedule t = false) ∧
  (∀ j last minute, j_Schedule j = thirtieth → zero_time ≤ minute → started_jobs [j] last minute = [j]) ∧
  (∀ b last minute, bk_Schedule b = thirtieth → zero_time ≤ minute → scheduledBetween (Some b) last minute = true) ∧
  (∀ app j now, j_Schedule j = thirtieth → app_DesiredState app = DesiredRunning → NextRunAt app j now = Some zero_time).
Proof.
  assert (Cron.Parse thirtieth = Ok thirtieth_schedule) as Hp by reflexivity.
  assert (∀ t, Next thirtieth_schedule t = zero_time) as Hn.
  { intros t. destruct (next_search_ends thirtieth_schedule t) as [r Hr]. unfold Next. rewrite Hr.
    apply next_search_spec in Hr. destruct r as [u|]; [|done]. destruct Hr as [_ Hm]. by rewrite thirtieth_never in Hm. }
  assert (∀ last minute, zero_time ≤ minute → fires_after thirtieth_schedule last minute = false) as Hf
    by (intros; unfold fires_after; rewrite Hn; by apply Z.ltb_ge).
  split_and!; [done|apply thirtieth_never|..].
  - intros j last minute E Hz. unfold started_jobs. simpl. unfold job_due. by rewrite E, Hp, Hf.
  - intros b last minute E Hz. simpl. by rewrite E, Hp, Hf.
  - intros app j now E Hd. unfold NextRunAt. by rewrite E, Hp, Hd, Hn.
Qed.

(** C39: ticks never lose a firing and never answer one twice: of the minutes
    since an application was looked at, up to that of the last tick in which
    it ran and was not busy, each lies in the window of exactly one tick, and
    a job of the deployment active in that tick that fires in that minute is
    started by that tick. *)
Theorem each_firing_once (name : string) (l : list tick) (lastTick : gmap string Time) (last : Z) :
  Forall (listed name) l → lastTick !! name = Some last → ∃ stop,
  (∀ i t a, l !! i = Some t → app_at t name = Some a → runs a = true → tk_busy t name = false → TruncateMinute (tk_now t) ≤ stop) ∧
  ∀ u, last < u ≤ stop → ∃ i t from to,
    l !! i = Some t ∧ spec_windows name l last !! i = Some (Some (from, to)) ∧ from < u ≤ to ∧
    (∀ k from' to', spec_windows name l last !! k = Some (Some (from', to')) → from' < u ≤ to' → k = i) ∧
    ∀ a id d j s, app_at t name = Some a → app_ActiveDeploymentID a = Some id → tk_get t id = inr d → j ∈ a_Jobs (d_Spec d) →
      Cron.Parse (j_Schedule j) = Ok s → Matches s u = true → u mod GoTime.minute = 0 → zero_time ≤ to → to < next_limit from →
      ∃ starts, run_jobs l lastTick !! i = Some starts ∧ (name, j_Name j) ∈ starts.
Proof.
  intros Hl Hlast. destruct (windows_once name l last) as (stop & H1 & _ & H3). exists stop. split; [done|].
  intros u Hu. destruct (H3 u Hu) as (i & from & to & Hi & Hft & Huniq).
  pose proof (run_jobs_mine name l Hl lastTick last Hlast) as Hr.
  assert (List.length (spec_windows name l last) = List.length l) as Hlen.
  { clear. revert last. induction l as [|t r IH]; intros last; simpl; [done|]. by rewrite IH. }
  assert (is_Some (l !! i)) as [t Ht] by (apply lookup_lt_is_Some; rewrite <- Hlen; apply lookup_lt_is_Some; eauto).
  exists i, t, from, to. split_and!; [done|done|lia|lia|exact Huniq|].
  intros a id d j s Ha Hid Hd Hj Hp Hm Hum Hz Hlim.
  assert ((mine name <$> run_jobs l lastTick) !! i = Some (spec_starts t name (Some (from, to)))) as E.
  { rewrite Hr, lookup_zip_with, Ht, Hi. done. }
  rewrite list_lookup_fmap in E. destruct (run_jobs l lastTick !! i) as [starts|]; [|done]. injection E as E.
  exists starts. split; [done|].
  assert ((name, j_Name j) ∈ mine name starts) as Hin; [|by apply list_elem_of_filter in Hin as [_ ?]].
  rewrite E. unfold spec_starts. rewrite Ha. unfold scheduleApp. rewrite Hid, Hd.
  assert (app_Name a = name) as ->.
  { unfold app_at in Ha. destruct (tk_apps t); [done|]. apply List.find_some in Ha as [_ Ha]. by apply String.eqb_eq. }
  apply (list_elem_of_fmap_2 (λ j, (name, j_Name j))), due_jobs; [done|done|]. split; [done|]. exists s. split; [done|]. left. exists u. split_and!; [lia|lia|done|done].
Qed.

Definition sample_app : Application := mk_application 1 "api" DesiredRunning (Some 1) 0 0.
Definition job_spec : App :=
  mk_app "api" "shop/api:v1" 0 "" [] [] 1 ∅ None (mk_resources (GoFloat.mk_float 0 0) 0) [] [] [] [] "" None [clean_job] None
    None None "" None None "always" "rolling" 0 false None.
Definition sample_tick (busy : bool) (minutes : Z) : tick :=
  mk_tick (λ _, inr (mk_deployment 1 1 "api" 1 "v1" "shop/api:v1" job_spec StatusActive "" 0 None KindDeploy None "" "" 0 0 SpecReferences.no_references))
    (λ _, busy) (inr [sample_app]) (minutes * GoTime.minute).

Lemma each_firing_once_witness :
  run_jobs [sample_tick false 4; sample_tick true 5; sample_tick false 11; sample_tick false 12] {["api" := 2 * GoTime.minute]}
    = [[]; []; [("api", "clean")]; []] ∧
  ∃ stop, ∀ u, 2 * GoTime.minute < u ≤ stop → ∃ i from to,
    spec_windows "api" [sample_tick false 4; sample_tick true 5; sample_tick false 11; sample_tick false 12] (2 * GoTime.minute) !! i
      = Some (Some (from, to)) ∧ from < u ≤ to.
Proof.
  split; [vm_compute; reflexivity|].
  destruct (each_firing_once "api" [sample_tick false 4; sample_tick true 5; sample_tick false 11; sample_tick false 12]
              {["api" := 2 * GoTime.minute]} (2 * GoTime.minute)) as (stop & _ & H).
  - repeat constructor; simpl; by apply not_elem_of_nil.
  - vm_compute. reflexivity.
  - exists stop. intros u Hu. destruct (H u Hu) as (i & t & from & to & _ & ? & ? & _). by exists i, from, to.
Defined.

(** What the job scheduler starts over a sequence of ticks is, for each
    application, what the one-application account of it says: the jobs due in
    the window of each tick, whatever the other applications are. *)
Theorem jobs_refine_windows (name : string) (l : list tick) (lastTick : gmap string Time) (last : Z) :
  Forall (listed name) l → lastTick !! name = Some last →
  mine name <$> run_jobs l lastTick = zip_with (λ t w, spec_starts t name w) l (spec_windows name l last).
Proof. intros Hl H. by apply run_jobs_mine. Qed.

Lemma jobs_refine_windows_witness :
  mine "api" <$> run_jobs [sample_tick false 4; sample_tick false 6] {["api" := 2 * GoTime.minute]} = [[]; [("api", "clean")]].
Proof.
  rewrite (jobs_refine_windows "api" _ _ (2 * GoTime.minute));
    [vm_compute; reflexivity|repeat constructor; simpl; by apply not_elem_of_nil|vm_compute; reflexivity].
Defined.
