(* ===== verification/Effects.v ===== *)
(** * Effects

    A program of the agent calls Docker, the database, the clock and the proxy
    while it changes its own state.  A call is a constructor of a type of calls,
    with the type of what it answers; what has happened so far is the list of
    the calls made and their answers, newest first; and the world is a function
    from what has happened and the next call to its answer, so that nothing is
    assumed about it but what a theorem says.  Errors are values of a sum.

    The second part is the reasoning the components share: equations of the
    operations, and programs that leave the state nearly as it is. *)

From S2P Require Import Prelude GoStrings SpecTypes.
From Stdlib Require Import String.

(** nil or an error. *)
Abbreviation error := (option text).
Abbreviation or_error A := (text + A)%type.

Record happened {Call : Type} (answer : Call → Type) := mk_happened { what : Call; answered : answer what }.
Arguments mk_happened {Call answer} what answered.
Arguments what {Call answer} _.
Arguments answered {Call answer} _.

Definition St (S : Type) {Call : Type} (answer : Call → Type) : Type := S * list (happened answer).
Definition M (S : Type) {Call : Type} (answer : Call → Type) (A : Type) : Type := St S answer → A * St S answer.

Section Operations.
Context {S Call : Type} {answer : Call → Type}.
Local Abbreviation M := (M S answer).

Definition mret {A} (a : A) : M A := λ s, (a, s).
Definition mthen {A B} (m : M A) (k : A → M B) : M B := λ s, let '(a, s') := m s in k a s'.
Definition mget {A} (f : S → A) : M A := λ s, (f s.1, s).
Definition mset (f : S → S) : M unit := λ s, (tt, (f s.1, s.2)).

(** if err := m; err != nil { return err } *)
Definition mtry {A B} (m : M (or_error A)) (k : A → M (or_error B)) : M (or_error B) :=
  mthen m (λ r, match r with inl e => mret (inl e) | inr a => k a end).
Definition ok {A} (a : A) : M (or_error A) := mret (inr a).
Definition fail {A} (e : text) : M (or_error A) := mret (inl e).
(** A call that answers nil or an error. *)
Definition checked (m : M error) : M (or_error unit) :=
  mthen m (λ e, mret (match e with Some e => inl e | None => inr tt end)).

(** fmt.Errorf with a prefix and %w. *)
Definition mwrap {A} (prefix : text) (m : M (or_error A)) : M (or_error A) :=
  mthen m (λ r, mret (match r with inl e => inl (prefix ++ e)%list | inr a => inr a end)).

(** for _, x := range l { … } *)
Fixpoint mloop {A} (f : A → M unit) (l : list A) : M unit :=
  match l with [] => mret tt | x :: r => mthen (f x) (λ _, mloop f r) end.
Fixpoint mtry_loop {A} (f : A → M (or_error unit)) (l : list A) : M (or_error unit) :=
  match l with [] => ok tt | x :: r => mtry (f x) (λ _, mtry_loop f r) end.

Definition perform (world : list (happened answer) → ∀ c, answer c) (c : Call) : M (answer c) :=
  λ s, let a := world s.2 c in (a, (s.1, mk_happened c a :: s.2)).
End Operations.

Notation "'let!' x ':=' m 'in' k" := (mthen m (λ x, k))
  (at level 10, x pattern, m at level 100, k at level 200) : go_scope.
Notation "'try!' x ':=' m 'in' k" := (mtry m (λ x, k))
  (at level 10, x pattern, m at level 100, k at level 200) : go_scope.

(** ** Equations *)

Section Equations.
Context {S Call : Type} {answer : Call → Type}.
Context (world : list (happened answer) → ∀ c, answer c).
Local Abbreviation M := (M S answer).

Lemma then_perform {A} c (k : answer c → M A) s :
  mthen (perform world c) k s = k (world s.2 c) (s.1, mk_happened c (world s.2 c) :: s.2).
Proof. done. Qed.
Lemma then_set {A} f (k : unit → M A) s : mthen (mset f) k s = k tt (f s.1, s.2).
Proof. done. Qed.
Lemma then_get {A B} (f : S → B) (k : B → M A) s : mthen (mget f) k s = k (f s.1) s.
Proof. done. Qed.
Lemma then_eq {A B} (m : M B) (k : B → M A) s : mthen m k s = k (m s).1 (m s).2.
Proof. unfold mthen. by destruct (m s). Qed.
Lemma try_eq {A B} (m : M (or_error A)) (k : A → M (or_error B)) s :
  mtry m k s = match (m s).1 with inl e => (inl e, (m s).2) | inr a => k a (m s).2 end.
Proof. unfold mtry, mthen. by destruct (m s) as [[e|a] s']. Qed.
(** What the parts of a program that answered have answered. *)
Lemma then_step {A B} (m : M B) (k : B → M A) s b s' : mthen m k s = (b, s') → ∃ a s1, m s = (a, s1) ∧ k a s1 = (b, s').
Proof. unfold mthen. destruct (m s) as [a s1]. intros H. by exists a, s1. Qed.
Lemma try_step {A B} (m : M (or_error A)) (k : A → M (or_error B)) s b s' : mtry m k s = (inr b, s') →
  ∃ a s1, m s = (inr a, s1) ∧ k a s1 = (inr b, s').
Proof. unfold mtry, mthen. destruct (m s) as [[e|a] s1]; intros H; [done|]. by exists a, s1. Qed.
Lemma perform_step c s (a : answer c) s' : perform (S := S) world c s = (a, s') →
  a = world s.2 c ∧ s' = (s.1, mk_happened c (world s.2 c) :: s.2).
Proof. by intros [= <- <-]. Qed.
Lemma try_ok {A B} (m : M (or_error A)) (k : A → M (or_error B)) s b : (mtry m k s).1 = inr b →
  ∃ a, (m s).1 = inr a ∧ mtry m k s = k a (m s).2.
Proof. unfold mtry, mthen. destruct (m s) as [[e|a] s']; intros H; [done|]. by exists a. Qed.
End Equations.

(** ** Programs that only add to what happened

    [calm R q m]: whatever the world answers, [m] changes its state as [R]
    allows, and adds events that satisfy [q]. *)

Definition calm {S Call A : Type} {answer : Call → Type} (R : S → S → Prop) (q : happened answer → Prop) (m : M S answer A) : Prop :=
  ∀ s, R s.1 (m s).2.1 ∧ ∃ evs, (m s).2.2 = (evs ++ s.2)%list ∧ Forall q evs.

Section Calm.
Context {S Call : Type} {answer : Call → Type} (world : list (happened answer) → ∀ c, answer c).
Context (R : S → S → Prop) `{!PreOrder R} (q : happened answer → Prop).
Local Abbreviation M := (M S answer).
Local Abbreviation calm := (calm R q).

Lemma calm_ret {A} (a : A) : calm (mret a).
Proof. intros s. split; [reflexivity|]. by exists []. Qed.
Lemma calm_get {A} (f : S → A) : calm (mget f).
Proof. intros s. split; [reflexivity|]. by exists []. Qed.
Lemma calm_set f : (∀ x, R x (f x)) → calm (mset f).
Proof. intros H s. split; [apply H|]. by exists []. Qed.
Lemma calm_perform c : (∀ a, q (mk_happened c a)) → calm (perform world c).
Proof. intros H s. split; [reflexivity|]. exists [mk_happened c (world s.2 c)]. split; [done|]. by constructor. Qed.
Lemma calm_then {A B} (m : M A) (k : A → M B) : calm m → (∀ a, calm (k a)) → calm (mthen m k).
Proof.
  intros Hm Hk s. unfold mthen. specialize (Hm s). destruct (m s) as [a s']. destruct Hm as (H1 & evs & H2 & H3).
  destruct (Hk a s') as (H4 & evs' & H5 & H6). split; [by etrans|]. exists (evs' ++ evs)%list.
  rewrite H5. simpl in H2. rewrite H2, app_assoc. split; [done|]. by apply Forall_app.
Qed.
Lemma calm_try {A B} (m : M (or_error A)) (k : A → M (or_error B)) : calm m → (∀ a, calm (k a)) → calm (mtry m k).
Proof. intros Hm Hk. apply calm_then; [done|]. intros [e|a]; [apply calm_ret|apply Hk]. Qed.
Lemma calm_checked (m : M error) : calm m → calm (checked m).
Proof. intros Hm. apply calm_then; [done|]. intros a. apply calm_ret. Qed.
Lemma calm_mloop {A} (f : A → M unit) l : (∀ x, calm (f x)) → calm (mloop f l).
Proof. intros Hf. induction l as [|x r IH]; [apply calm_ret|]. apply calm_then; [apply Hf|]. by intros _. Qed.
End Calm.

Create HintDb calm.
#[export] Hint Constants Opaque : calm.
(** Follows the shape of a program; what is known of its parts is in the hints. *)
Ltac calm :=
  repeat (intros; cbv beta zeta;
    first [ solve [auto 2 with calm nocore] | assumption
          | lazymatch goal with
            | |- PreOrder _ => exact _
            | |- calm _ _ (mret _) => apply calm_ret
            | |- calm _ _ (ok _) => apply calm_ret
            | |- calm _ _ (fail _) => apply calm_ret
            | |- calm _ _ (mget _) => apply calm_get
            | |- calm _ _ (mset _) => apply calm_set; intros; solve [auto 2 with calm nocore]
            | |- @calm _ _ _ ?an ?R ?q (perform ?w ?c) => apply (calm_perform (answer := an) w R q c); intros; exact I
            | |- calm _ _ (checked _) => apply calm_checked
            | |- calm _ _ (mtry _ _) => apply calm_try
            | |- calm _ _ (mloop _ _) => apply calm_mloop
            | |- calm _ _ (mthen _ _) => apply calm_then
            | |- calm _ _ (match ?x with _ => _ end) => destruct x
            end ]).

(** ** Triples

    From any state and history that satisfy [P], the program ends in one that
    satisfies [Q] of its answer, whatever the world says. *)

Definition triple {S Call A : Type} {answer : Call → Type} (P : St S answer → Prop) (m : M S answer A) (Q : A → St S answer → Prop) : Prop :=
  ∀ s, P s → Q (m s).1 (m s).2.

Section Triples.
Context {S Call : Type} {answer : Call → Type} (world : list (happened answer) → ∀ c, answer c).
Local Abbreviation M := (M S answer).
Local Abbreviation St := (St S answer).

Lemma triple_ret {A} (P : St → Prop) (a : A) (Q : A → St → Prop) : (∀ s, P s → Q a s) → triple P (mret a) Q.
Proof. intros H s. apply H. Qed.
Lemma triple_then {A B} P (m : M A) (k : A → M B) Q' (Q : B → St → Prop) : triple P m Q' → (∀ a, triple (Q' a) (k a) Q) → triple P (mthen m k) Q.
Proof. intros Hm Hk s Hs. rewrite then_eq. apply Hk, Hm, Hs. Qed.
Lemma triple_try {A B} P (m : M (or_error A)) (k : A → M (or_error B)) Q' (Q : or_error B → St → Prop) :
  triple P m (λ r s, match r with inl e => Q (inl e) s | inr a => Q' a s end) → (∀ a, triple (Q' a) (k a) Q) → triple P (mtry m k) Q.
Proof.
  intros Hm Hk s Hs. rewrite try_eq. specialize (Hm s Hs). destruct (m s).1 as [e|a]; [done|]. by apply Hk.
Qed.
Lemma triple_perform (P : St → Prop) c (Q : answer c → St → Prop) :
  (∀ s a, P s → Q a (s.1, mk_happened c a :: s.2)) → triple P (perform world c) Q.
Proof. intros H s Hs. by apply H. Qed.
Lemma triple_checked (P : St → Prop) (m : M error) (Q : or_error unit → St → Prop) :
  triple P m (λ e s, Q (match e with Some e => inl e | None => inr tt end) s) → triple P (checked m) Q.
Proof. intros H s Hs. unfold checked. rewrite then_eq. exact (H s Hs). Qed.
Lemma triple_set (P : St → Prop) f (Q : unit → St → Prop) : (∀ s, P s → Q tt (f s.1, s.2)) → triple P (mset f) Q.
Proof. intros H s. apply H. Qed.
Lemma triple_get {A} (P : St → Prop) (f : S → A) (Q : A → St → Prop) : (∀ s, P s → Q (f s.1) s) → triple P (mget f) Q.
Proof. intros H s. apply H. Qed.
Lemma triple_conseq {A} (P P' : St → Prop) (m : M A) (Q Q' : A → St → Prop) :
  triple P' m Q' → (∀ s, P s → P' s) → (∀ a s, Q' a s → Q a s) → triple P m Q.
Proof. intros H HP HQ s Hs. apply HQ, H, HP, Hs. Qed.

(** What quiet events and a quiet change of the state leave true. *)
Lemma triple_calm {A} R q (P : St → Prop) (m : M A) (Q : A → St → Prop) : calm R q m →
  (∀ s s' evs, P s → R s.1 s' → Forall q evs → P (s', (evs ++ s.2)%list)) → (∀ a s, P s → Q a s) → triple P m Q.
Proof.
  intros Hm HP HQ s Hs. destruct (Hm s) as (HR & evs & E & Hq). apply HQ. specialize (HP s (m s).2.1 evs Hs HR Hq).
  destruct (m s) as [a [s' h]]. simpl in *. by rewrite E.
Qed.
Lemma triple_loop {A} (P : St → Prop) (f : A → M unit) l : (∀ x, x ∈ l → triple P (f x) (λ _, P)) → triple P (mloop f l) (λ _, P).
Proof.
  intros H. induction l as [|x l IH]; [by apply triple_ret|]. simpl. eapply triple_then; [apply H; left|]. intros u. apply IH. intros y Hy. apply H. by right.
Qed.
End Triples.

(** ** What a program does

    From any state, the program adds events and changes the state as [P] says:
    [P] is about the state before, the result, the state after and the events
    added, newest first. *)

Definition does {S Call A : Type} {answer : Call → Type} (m : M S answer A) (P : S → A → S → list (happened answer) → Prop) : Prop :=
  ∀ s, ∃ evs, (m s).2.2 = (evs ++ s.2)%list ∧ P s.1 (m s).1 (m s).2.1 evs.
(** One part of a program after another: its result, its state, its events. *)
Ltac after H :=
  let evs := fresh "evs" in let E := fresh "E" in let P := fresh "P" in
  lazymatch goal with |- context [@mthen ?S ?C ?an ?A ?B ?m ?k ?s] => rewrite (@then_eq S C an B A m k s); pose proof (H s) as (evs & E & P); destruct (m s) as [? [? ?]]; cbn [fst snd] in E, P |- * end.
Section Does.
Context {S Call : Type} {answer : Call → Type}.
Lemma does_weaken {A} (m : M S answer A) (P Q : S → A → S → list (happened answer) → Prop) : does m P → (∀ s a s' evs, P s a s' evs → Q s a s' evs) → does m Q.
Proof. intros H HQ s. destruct (H s) as (evs & E & HP). exists evs. auto. Qed.
Lemma ran {A} (m : M S answer A) (P : S → A → S → list (happened answer) → Prop) s r s' evs : does m P → m (s, []) = (r, (s', evs)) → P s r s' evs.
Proof. intros H E. destruct (H (s, [])) as (evs' & E1 & HP). rewrite E in *. cbn [fst snd] in *. by rewrite app_nil_r in E1; subst evs'. Qed.
(** What a program started afresh ends in. *)
Lemma outcome {A} (m : M S answer A) (P : S → A → S → list (happened answer) → Prop) s : does m P → P s (m (s, [])).1 (m (s, [])).2.1 (m (s, [])).2.2.
Proof. intros H. destruct (m (s, [])) as [r [s' evs]] eqn:E. exact (ran _ _ _ _ _ _ H E). Qed.
Lemma does_ret {A} (a : A) : does (mret a : M S answer A) (λ s r s' evs, r = a ∧ s' = s ∧ evs = []).
Proof. intros s. by exists []. Qed.
Lemma does_perform (world : list (happened answer) → ∀ c, answer c) c : does (perform (S := S) world c) (λ s r s' evs, s' = s ∧ evs = [mk_happened c r]).
Proof. intros s. by exists [mk_happened c (world s.2 c)]. Qed.
Lemma does_then {A B} (m : M S answer A) (k : A → M S answer B) P Q : does m P → (∀ a, (∃ s s1 evs, P s a s1 evs) → does (k a) (Q a)) →
  does (mthen m k) (λ s r s' evs, ∃ a s1 ev1 ev2, P s a s1 ev1 ∧ Q a s1 r s' ev2 ∧ evs = (ev2 ++ ev1)%list).
Proof.
  intros Hm Hk s. rewrite then_eq. destruct (Hm s) as (ev1 & E1 & H1). destruct (m s) as [a [s1 h1]]. cbn [fst snd] in *. subst h1.
  destruct (Hk a (ex_intro _ s.1 (ex_intro _ s1 (ex_intro _ ev1 H1))) (s1, ev1 ++ s.2)%list) as (ev2 & E2 & H2). exists (ev2 ++ ev1)%list. cbn [fst snd] in *. rewrite E2, app_assoc. split; [done|]. by exists a, s1, ev1, ev2.
Qed.
(** A part that failed ends the program with its error. *)
Lemma does_fallible {E A B} (m : M S answer (E + A)) (k : A → M S answer (E + B)) P Q : does m P → (∀ a, does (k a) (Q a)) →
  does (mthen m (λ r, match r with inl e => mret (inl e) | inr a => k a end))
    (λ s r s' evs, (∃ e, P s (inl e) s' evs ∧ r = inl e) ∨ ∃ a s1 ev1 ev2, P s (inr a) s1 ev1 ∧ Q a s1 r s' ev2 ∧ evs = (ev2 ++ ev1)%list).
Proof.
  intros Hm Hk s. rewrite then_eq. destruct (Hm s) as (ev1 & E1 & H1). destruct (m s) as [[e|a] [s1 h1]]; cbn [fst snd] in *; subst h1.
  - exists ev1. split; [done|]. left. by exists e.
  - destruct (Hk a (s1, ev1 ++ s.2)%list) as (ev2 & E2 & H2). exists (ev2 ++ ev1)%list. cbn [fst snd] in *. rewrite E2, app_assoc. split; [done|]. right. by exists a, s1, ev1, ev2.
Qed.
End Does.
