(* ===== verification/Rollout.v ===== *)
(** * Rollouts (agent/internal/deploy: rollout.go, engine.go, drain.go)

    A rollout talks to Docker, the database and the proxy.  Each such call is
    a constructor of [call], with the type of what it answers; the world is a
    function from what has happened so far and the next call to its answer, so
    nothing is assumed about it but what a theorem says.  A step of the rollout
    is a function on the rollout's state and the trace of calls with their
    answers, in a monad; errors are values of a sum.

    What one call stands for: [CRetireInBackground] hands a container to a
    drain (drain.go), [CAwaitDrains] waits for the application's drains,
    [CInspectNames] is the same inspection as [CInspect], read for whether the
    container runs and for the names it answers to,
    [CWake] is the select on a deadline, a poll ticker and the context, [CHook]
    runs the pre-deploy command, [CSweep] is the cleaning up of images and
    folders after the commit of a version with containers, [CNarrate] an event
    for people; [CExec] runs a command in the proxy's container and answers its
    exit code and output, [CStatUpload] and [COpenUpload] look for the
    deployment's archive.  A message keeps
    the durations in it as numbers. *)

From stdpp Require Import sorting.
From S2P Require Import Prelude GoStrings Effects GoTime GoURL SpecTypes SpecNames SpecReferences DeployState Store.
From Stdlib Require Import String.
Local Open Scope string_scope.
Local Open Scope Z_scope.

(** ** Data *)

Record Container := mk_container {
  c_ID : string; c_Name : string; c_App : string; c_DeploymentID : Z; c_Replica : Z; c_Job : string;
  c_Running : bool; c_OOMKilled : bool; c_ExitCode : Z; c_IP : string; c_State : string }.

(** hostnames (routing.go): what the proxy needs to know of a specification. *)
Record hostnames := mk_hostnames {
  hn_domain : string; hn_aliases : list string; hn_redirects : list string; hn_path : string; hn_proxy : option Proxy; hn_fallback : string }.
Definition hostnamesOf (a : App) : hostnames :=
  mk_hostnames (a_Domain a) (a_Aliases a) (a_Redirects a) (a_Path a) (a_Proxy a)
    (match a_Static a with Some s => s_Fallback s | None => "" end).

Record routeMember := mk_member { m_replica : Replica; m_port : Z }.
Record routeOverride := mk_override { o_hosts : hostnames; o_members : list routeMember; o_desired : Z; o_staticRoot : option string }.

Definition member_id (m : routeMember) : string := r_ContainerID (m_replica m).

(** The select of a waiting loop: which of its channels was ready. *)
Inductive wake := Deadline | Polled | Cancelled (err : text).
(** A run of a one-off container, as far as a resumed rollout reads it. *)
Inductive run_status := RunSucceeded | RunInterrupted | RunRunning | RunOther.

Inductive call :=
  | CNarrate (message : text)
  | CEnsureNetwork | CImageExists (image : string) | CPull (image : string) | CRefuseRoot | CWarnUnenforced
  | CListRuns | CHook
  | CGetApplication (name : string) | CGetDeployment (id : Z) | CListReplicas (deployment : Z)
  | CTransition (id : Z) (from to : DeploymentStatus) (msg : text) | CActivate (id : Z)
  | CCreateContainer (d : Deployment) (index : Z) | CAddReplica (r : Replica) | CMarkReplicaRemoved (id : string)
  | CInspect (id : string) | CInspectNames (id : string) | CStart (id : string) | CStop (id : string) (grace : Z) | CRemove (id : string) | CSetNames (id : string)
  | CListContainers (app : string) | CDraining (id : string)
  | CRetireInBackground (id : string) (grace : Z) | CAwaitDrains (app : string)
  | CProbe (d : Deployment) (id : string) | CCaptureLogs (id : string) | CWake
  | CMarkHealthy (id : string) | CReset (id : string) (hasHealthCheck : bool)
  | CRouteVia (o : routeOverride) | CClearRoute | CSyncProxy | CSettle | CAnnounce
  | CSetDesired (app : Z) (state : string)
  | CProxyContainer | CExec (proxy : string) (cmd : list string) | CStatUpload | COpenUpload | CImportPath (proxy path : string)
  | CListSuperseded (app : string)
  | CCtxErr | CBaseCtxErr | CTimedOut | CSweep.

Definition answer_of (c : call) : Type :=
  match c with
  | CNarrate _ | CWarnUnenforced | CCaptureLogs _ | CMarkHealthy _ | CReset _ _ | CRouteVia _ | CClearRoute | CAnnounce | CSweep => unit
  | CImageExists _ => or_error bool
  | CListRuns => or_error (list (option Z * run_status))
  | CGetApplication _ => or_error Application
  | CGetDeployment _ => or_error Deployment
  | CListReplicas _ => or_error (list Replica)
  | CActivate _ => or_error (option Deployment)
  | CCreateContainer _ _ => or_error (string * string)
  | CInspect _ => or_error Container
  | CInspectNames _ => or_error (bool * list string)
  | CListContainers _ => or_error (list Container)
  | CDraining _ | CRetireInBackground _ _ | CBaseCtxErr | CTimedOut => bool
  | CWake => wake
  | CProxyContainer => or_error string
  | CExec _ _ => or_error (Z * string)
  | CStatUpload | COpenUpload => bool
  | CListSuperseded _ => or_error (list Deployment)
  | _ => error
  end.

(** What happened, newest first. *)
Abbreviation happened := (Effects.happened answer_of).
Abbreviation trace := (list happened).

Record rollout := mk_rollout {
  d : Deployment;
  prev : option Deployment;
  old : gmap Z Replica;
  fresh : list Replica;
  serving : list routeMember;
  retired : bool;
  recreate : bool;
  stopped : list Replica;
  resumed : bool;
  surveyed : bool;
  adopted : gmap Z Replica;
  inService : gset Z;
  unverified : list Replica;
  dormant : bool;
  failure : text;
  staticPart : string
}.

Definition newRollout (d : Deployment) : rollout :=
  mk_rollout d None ∅ [] [] false false [] false false ∅ ∅ [] false [] "".

(** A rollout that goes on after the agent restarted (operations.go, Recover). *)
Definition resuming (d : Deployment) (dormant : bool) : rollout :=
  mk_rollout d None ∅ [] [] false false [] true false ∅ ∅ [] dormant [] "".

Definition set_d r v := mk_rollout v (prev r) (old r) (fresh r) (serving r) (retired r) (recreate r) (stopped r) (resumed r) (surveyed r) (adopted r) (inService r) (unverified r) (dormant r) (failure r) (staticPart r).
Definition set_previous r p o s := mk_rollout (d r) p o (fresh r) s (retired r) (recreate r) (stopped r) (resumed r) (surveyed r) (adopted r) (inService r) (unverified r) (dormant r) (failure r) (staticPart r).
Definition set_old r v := mk_rollout (d r) (prev r) v (fresh r) (serving r) (retired r) (recreate r) (stopped r) (resumed r) (surveyed r) (adopted r) (inService r) (unverified r) (dormant r) (failure r) (staticPart r).
Definition set_fresh r v := mk_rollout (d r) (prev r) (old r) v (serving r) (retired r) (recreate r) (stopped r) (resumed r) (surveyed r) (adopted r) (inService r) (unverified r) (dormant r) (failure r) (staticPart r).
Definition set_serving r v := mk_rollout (d r) (prev r) (old r) (fresh r) v (retired r) (recreate r) (stopped r) (resumed r) (surveyed r) (adopted r) (inService r) (unverified r) (dormant r) (failure r) (staticPart r).
Definition set_retired r := mk_rollout (d r) (prev r) (old r) (fresh r) (serving r) true (recreate r) (stopped r) (resumed r) (surveyed r) (adopted r) (inService r) (unverified r) (dormant r) (failure r) (staticPart r).
Definition set_recreate r := mk_rollout (d r) (prev r) (old r) (fresh r) (serving r) (retired r) true (stopped r) (resumed r) (surveyed r) (adopted r) (inService r) (unverified r) (dormant r) (failure r) (staticPart r).
Definition set_stopped r v := mk_rollout (d r) (prev r) (old r) (fresh r) (serving r) (retired r) (recreate r) v (resumed r) (surveyed r) (adopted r) (inService r) (unverified r) (dormant r) (failure r) (staticPart r).
Definition set_failure r v := mk_rollout (d r) (prev r) (old r) (fresh r) (serving r) (retired r) (recreate r) (stopped r) (resumed r) (surveyed r) (adopted r) (inService r) (unverified r) (dormant r) v (staticPart r).

Definition set_staticPart r v := mk_rollout (d r) (prev r) (old r) (fresh r) (serving r) (retired r) (recreate r) (stopped r) (resumed r) (surveyed r) (adopted r) (inService r) (unverified r) (dormant r) (failure r) v.
Definition set_prev r v := mk_rollout (d r) v (old r) (fresh r) (serving r) (retired r) (recreate r) (stopped r) (resumed r) (surveyed r) (adopted r) (inService r) (unverified r) (dormant r) (failure r) (staticPart r).

Definition set_status (d : Deployment) (s : DeploymentStatus) : Deployment :=
  mk_deployment (d_ID d) (d_ApplicationID d) (d_Application d) (d_Sequence d) (d_Version d) (d_Image d) (d_Spec d) s (d_Error d)
    (d_StartedAt d) (d_CompletedAt d) (d_Kind d) (d_SourceID d) (d_Actor d) (d_StaticDigest d) (d_StaticFiles d) (d_StaticBytes d) (d_References d).
(** asPrev: the previous version's configuration, told in this one's events. *)
Definition set_ID (d : Deployment) (id : Z) : Deployment :=
  mk_deployment id (d_ApplicationID d) (d_Application d) (d_Sequence d) (d_Version d) (d_Image d) (d_Spec d) (d_Status d) (d_Error d)
    (d_StartedAt d) (d_CompletedAt d) (d_Kind d) (d_SourceID d) (d_Actor d) (d_StaticDigest d) (d_StaticFiles d) (d_StaticBytes d) (d_References d).

(** A step of a rollout. *)
Abbreviation St := (Effects.St rollout answer_of).
Abbreviation M := (Effects.M rollout answer_of).

Definition by_index_sorted (l : list Replica) : list Replica := merge_sort by_index l.
Definition sortedReplicas (m : gmap Z Replica) : list Replica := by_index_sorted (map_to_list m).*2.
(** 1, 2, …, n *)
Definition indexes (n : Z) : list Z := zrange 1 n.

Definition StartupBudget (h : Health) : Z := h_StartPeriod h + h_Interval h * h_Retries h.

(** gracePeriod (drain.go): the configuration's stop timeout or the agent's. *)
Definition gracePeriod (StopTimeout : Z) (a : App) : Z := if 0 <? a_StopTimeout a then a_StopTimeout a else StopTimeout.

(** ** The world *)

Section World.
Variable world : trace → ∀ c, answer_of c.
Local Abbreviation perform := (perform world).

(** e.opts.StopTimeout; and, of the waiting loops, the number of polls after
    which the deadline fires at the latest. *)
Variable StopTimeout : Z.
Variable polls : nat.

Definition narrate (m : text) : M unit := perform (CNarrate m).

(** ** Statuses (engine.go) *)

Definition transitionWithError (to : DeploymentStatus) (errMsg : text) : M (or_error unit) :=
  let! dep := mget d in
  if negb (CanTransition (d_Status dep) to) then fail [L "illegal state transition"] else
  try! _ := checked (perform (CTransition (d_ID dep) (d_Status dep) to errMsg)) in
  let! _ := mset (λ r, set_d r (set_status (d r) to)) in
  let! _ := narrate (if bool_decide (to = StatusFailed) then L "FAILED: " :: errMsg else [L "state"]) in
  ok tt.
Definition transition (to : DeploymentStatus) : M (or_error unit) := transitionWithError to [].

Definition reach (to : DeploymentStatus) : M (or_error unit) :=
  let! dep := mget d in
  if progress to <=? progress (d_Status dep) then ok tt else transition to.

(** ** Containers *)

(** engine.go: what the container printed is archived before it goes. *)
Definition removeContainer (id : string) : M (or_error unit) :=
  try! _ := checked (perform (CRemove id)) in
  checked (perform (CMarkReplicaRemoved id)).

Definition retireContainer (id : string) (timeout : Z) : M (or_error unit) :=
  let! _ := perform (CStop id timeout) in removeContainer id.

(** registry.go: an image that has been pruned is pulled again. *)
Definition createContainer (dep : Deployment) (i : Z) : M (or_error (string * string)) :=
  let! r := perform (CCreateContainer dep i) in
  match r with
  | inr x => ok x
  | inl err =>
      let! exists_ := perform (CImageExists (d_Image dep)) in
      match exists_ with
      | inl _ | inr true => fail err
      | inr false =>
          if IsLocalImage (d_Image dep) then fail [L "image "; S' (d_Image dep); L " is not on this server"] else
          let! p := perform (CPull (d_Image dep)) in
          match p with
          | Some perr => fail (L "image is gone and could not be pulled again: " :: perr)
          | None => perform (CCreateContainer dep i)
          end
      end
  end.

Definition replica_error (i : Z) (e : text) : text := L "replica " :: D i :: L ": " :: e.

(** The containers created so far come back with an error as well. *)
Fixpoint createReplicas (dep : Deployment) (idx : list Z) (created : list Replica) : M (list Replica * error) :=
  match idx with
  | [] => mret (created, None)
  | i :: rest =>
      let! r := createContainer dep i in
      match r with
      | inl err => mret (created, Some (replica_error i err))
      | inr (id, name) =>
          let rep := mk_replica (d_ID dep) i id name 0 in
          let! e := perform (CAddReplica rep) in
          match e with
          | Some err => let! _ := removeContainer id in mret (created, Some err)
          | None => createReplicas dep rest (created ++ [rep])
          end
      end
  end.

Fixpoint startReplicas (l : list Replica) : M error :=
  match l with
  | [] => mret None
  | rep :: rest =>
      let! e := perform (CStart (r_ContainerID rep)) in
      match e with
      | Some err => mret (Some (replica_error (r_Index rep) err))
      | None => startReplicas rest
      end
  end.

Definition ensureReplicas (dep : Deployment) (idx : list Z) : M (list Replica * error) :=
  let! (created, err) := createReplicas dep idx [] in
  match err with
  | Some _ => mret (created, err)
  | None => let! e := startReplicas created in mret (created, e)
  end.

Definition startNameless (id : string) : M error :=
  let! e := perform (CSetNames id) in
  match e with Some _ => mret e | None => perform (CStart id) end.

(** ** Waiting for replicas *)

(** One look of awaitStable at every replica. *)
Fixpoint still_running (l : list Replica) : M (or_error unit) :=
  match l with
  | [] => ok tt
  | r :: rest =>
      let! c := perform (CInspect (r_ContainerID r)) in
      match c with
      | inl err => fail (replica_error (r_Index r) err)
      | inr c =>
          if c_Running c then still_running rest else
          let! _ := perform (CCaptureLogs (r_ContainerID r)) in
          if c_OOMKilled c then fail [L "replica "; D (r_Index r); L " was killed for exceeding its memory limit shortly after start"]
          else fail [L "replica "; D (r_Index r); L " exited with code "; D (c_ExitCode c); L " shortly after start"]
      end
  end.

(** After [n] more polls the deadline fires. *)
Fixpoint awaitStable (n : nat) (replicas : list Replica) : M (or_error unit) :=
  try! _ := still_running replicas in
  match n with
  | O => ok tt
  | S n =>
      let! w := perform CWake in
      match w with
      | Deadline => ok tt
      | Polled => awaitStable n replicas
      | Cancelled e => fail e
      end
  end.

(** One look of awaitHealthy: who is still pending. *)
Fixpoint probe_pending (dep : Deployment) (pending still : list Replica) : M (or_error (list Replica)) :=
  match pending with
  | [] => ok still
  | r :: rest =>
      let! c := perform (CInspect (r_ContainerID r)) in
      match c with
      | inl err => fail (replica_error (r_Index r) err)
      | inr c =>
          if negb (c_Running c) then
            let! _ := perform (CCaptureLogs (r_ContainerID r)) in
            if c_OOMKilled c then fail [L "replica "; D (r_Index r); L " was killed for exceeding its memory limit before it became healthy"]
            else fail [L "replica "; D (r_Index r); L " exited with code "; D (c_ExitCode c); L " before it became healthy"]
          else if String.eqb (c_IP c) "" then probe_pending dep rest (still ++ [r])
          else
            let! e := perform (CProbe dep (r_ContainerID r)) in
            match e with
            | Some err =>
                let! ctx := perform CCtxErr in
                match ctx with
                | Some err => fail err
                | None => probe_pending dep rest (still ++ [r])
                end
            | None => let! _ := perform (CMarkHealthy (r_ContainerID r)) in probe_pending dep rest still
            end
      end
  end.

Definition not_healthy (dep : Deployment) (pending : list Replica) : M (or_error unit) :=
  match pending with
  | [] => ok tt
  | r :: _ =>
      let! _ := perform (CCaptureLogs (r_ContainerID r)) in
      fail [L "replica "; D (r_Index r); L " did not become healthy within ";
            D (match a_Health (d_Spec dep) with Some h => StartupBudget h | None => 0 end)]
  end.

Fixpoint awaitHealthy (n : nat) (dep : Deployment) (pending : list Replica) : M (or_error unit) :=
  try! pending := probe_pending dep pending [] in
  if bool_decide (pending = []) then ok tt else
  match n with
  | O => not_healthy dep pending
  | S n =>
      let! w := perform CWake in
      match w with
      | Deadline => not_healthy dep pending
      | Polled => awaitHealthy n dep pending
      | Cancelled e => fail e
      end
  end.

Definition awaitReady (dep : Deployment) (replicas : list Replica) : M (or_error unit) :=
  if bool_decide (replicas = []) then ok tt else
  match a_Health (d_Spec dep) with
  | Some _ =>
      try! _ := awaitHealthy polls dep replicas in
      let! _ := narrate [L "passed health checks"] in ok tt
  | None =>
      try! _ := awaitStable polls replicas in
      let! _ := narrate [L "running and stable"] in ok tt
  end.

(** ** The image and the hook *)

(** engine.go: the local copy serves when the registry does not answer. *)
Definition pullImage : M (or_error unit) :=
  let! dep := mget d in
  if IsLocalImage (d_Image dep) then
    let! e := perform (CImageExists (d_Image dep)) in
    match e with
    | inl err => fail err
    | inr false => fail [S' (d_Image dep); L " is not on this server"]
    | inr true => let! _ := narrate [L "Using image "; S' (d_Image dep)] in ok tt
    end
  else
    let! p := perform (CPull (d_Image dep)) in
    match p with
    | None => let! _ := narrate [L "Pulled image "; S' (d_Image dep)] in ok tt
    | Some pullErr =>
        let! ctx := perform CCtxErr in
        match ctx with
        | Some _ => fail pullErr
        | None =>
            let! e := perform (CImageExists (d_Image dep)) in
            match e with
            | inr true => let! _ := narrate (L "Could not pull, using the local copy: " :: pullErr) in ok tt
            | _ => fail pullErr
            end
        end
    end.

(** resume.go: a hook that has begun is not run a second time.  The first run
    of this deployment's among the recorded ones decides. *)
Fixpoint first_run (id : Z) (runs : list (option Z * run_status)) : option run_status :=
  match runs with
  | [] => None
  | (dep, st) :: r => if bool_decide (dep = Some id) then Some st else first_run id r
  end.
Definition runHookOnce : M (or_error unit) :=
  let! r := mget id in
  if negb (resumed r) then checked (perform CHook) else
  try! runs := perform CListRuns in
  match first_run (d_ID (d r)) runs with
  | Some RunSucceeded => let! _ := narrate [L "Pre-deploy command had finished"] in ok tt
  | Some RunInterrupted | Some RunRunning => fail [L "the pre-deploy command was interrupted when the agent restarted, and is not run a second time"]
  | Some RunOther => fail [L "the pre-deploy command had failed when the agent restarted"]
  | None => checked (perform CHook)
  end.

(** ** The rollout *)

(** The replicas found alive among [idx], started if they were not running,
    and the indexes of the others. *)
Fixpoint adopt (adopted : gmap Z Replica) (idx : list Z) (replicas : list Replica) (missing : list Z)
  : M (or_error (list Replica * list Z)) :=
  match idx with
  | [] => ok (replicas, missing)
  | i :: rest =>
      match adopted !! i with
      | None => adopt adopted rest replicas (missing ++ [i])
      | Some rep =>
          let! c := perform (CInspect (r_ContainerID rep)) in
          match c with
          | inl err => fail (replica_error i err)
          | inr c =>
              let! e := (if c_Running c then mret None else perform (CStart (r_ContainerID rep))) in
              match e with
              | Some err => fail (replica_error i err)
              | None => adopt adopted rest (replicas ++ [rep]) missing
              end
          end
      end
  end.

(** bring: the replicas in order, and how many of them are new. *)
Definition bring (idx : list Z) : M (or_error (list Replica * Z)) :=
  let! r := mget id in
  try! (replicas, missing) := adopt (adopted r) idx [] [] in
  let! (created, err) := ensureReplicas (d r) missing in
  let! _ := mset (λ r, set_fresh r (fresh r ++ created)) in
  match err with
  | Some e => fail e
  | None => ok (by_index_sorted (replicas ++ created), Z.of_nat (List.length created))
  end.

Definition desired (r : rollout) : Z :=
  match prev r with
  | None => a_Replicas (d_Spec (d r))
  | Some p => Z.min (a_Replicas (d_Spec p)) (a_Replicas (d_Spec (d r)))
  end.

(** staticDir: the folder of a static version, in the proxy. *)
Definition staticRoot := "/srv/shipwick".
Definition staticDir (app digest : string) : string :=
  GoURL.Clean (join "/" [staticRoot; app; trim_prefix "sha256:" digest]).

Definition loadPrevious : M (or_error unit) :=
  let! dep := mget d in
  try! app := perform (CGetApplication (d_Application dep)) in
  match app_ActiveDeploymentID app with
  | None => ok tt
  | Some id =>
      try! p := perform (CGetDeployment id) in
      try! replicas := perform (CListReplicas (d_ID p)) in
      let running := String.eqb (app_DesiredState app) DesiredRunning in
      let! _ := mset (λ r, set_previous r (Some p)
                  (foldl (λ m rep, <[r_Index rep := rep]> m) (old r) replicas)
                  (if running then serving r ++ ((λ rep, mk_member rep (a_Port (d_Spec p))) <$> replicas) else [])) in
      let! r := mget (λ r, r) in
      let static := if negb (String.eqb (d_StaticDigest p) "") && running
                    then Some (staticDir (d_Application p) (d_StaticDigest p)) else None in
      let! _ := perform (CRouteVia (mk_override (hostnamesOf (d_Spec p)) (serving r) (desired r) static)) in
      ok tt
  end.

Definition batches (r : rollout) : list (list Z) :=
  let all := filter (λ i, i ∉ inService r) (indexes (a_Replicas (d_Spec (d r)))) in
  if recreate r then (if bool_decide (all = []) then [] else [all]) else
  let replacing := filter (λ i, is_Some (old r !! i)) all in
  let additional := filter (λ i, old r !! i = None) all in
  (((λ i, [i]) <$> replacing) ++ (if bool_decide (additional = []) then [] else [additional]))%list.

(** Who leaves when [ready] comes in; everybody left of the old version when
    nobody does. *)
Definition outgoing_of (r : rollout) (ready : list Replica) : list Replica :=
  match ready with
  | [] => sortedReplicas (old r)
  | _ => omap (λ rep, old r !! r_Index rep) ready
  end.
Definition serving_after (r : rollout) (ready outgoing : list Replica) : list routeMember :=
  (filter (λ m, member_id m ∉ r_ContainerID <$> outgoing) (serving r)
   ++ ((λ rep, mk_member rep (a_Port (d_Spec (d r)))) <$> ready))%list.

(** One old replica on its way out. *)
Definition retire_one (grace : Z) (rep : Replica) : M unit :=
  let! _ := mset (λ r, set_old r (delete (r_Index rep) (old r))) in
  let! rec := mget recreate in
  if negb rec then let! _ := perform (CRetireInBackground (r_ContainerID rep) grace) in mret tt
  else
    let! e := retireContainer (r_ContainerID rep) grace in
    match e with
    | inl err => narrate (L "Could not remove old container: " :: err)
    | inr _ => mret tt
    end.

Definition ctx_err : M (or_error unit) := checked (perform CCtxErr).

(** Routing first, retiring second. *)
Definition swap (ready : list Replica) : M (or_error unit) :=
  let! r := mget (λ r, r) in
  let outgoing := outgoing_of r ready in
  if bool_decide (ready = []) && bool_decide (outgoing = []) then ok tt else
  let members := serving_after r ready outgoing in
  let! _ := mset (λ r, set_serving r members) in
  let! _ := perform (CRouteVia (mk_override (hostnamesOf (d_Spec (d r))) members (desired r) None)) in
  let! s := perform CSyncProxy in
  match s with
  | Some err => fail (L "could not route to the new version: " :: err)
  | None =>
      try! _ := (if negb (bool_decide (ready = [])) && negb (bool_decide (outgoing = [])) && negb (recreate r)
                 then checked (perform CSettle) else ok tt) in
      let! _ := (if bool_decide (outgoing = []) then mret tt else
                 let! _ := mset set_retired in
                 mloop (retire_one (match prev r with Some p => gracePeriod StopTimeout (d_Spec p) | None => StopTimeout end)) outgoing) in
      let! _ := narrate [L "serving"] in
      ctx_err
  end.

Definition stop_one (p : Deployment) (rep : Replica) : M (or_error unit) :=
  let! e := perform (CStop (r_ContainerID rep) (gracePeriod StopTimeout (d_Spec p))) in
  match e with
  | Some err => fail (L "stop replica " :: D (r_Index rep) :: L ": " :: err)
  | None => let! _ := mset (λ r, set_stopped r (stopped r ++ [rep])) in ok tt
  end.

Definition stopPrevious (p : Deployment) : M (or_error unit) :=
  let! _ := mset (λ r, set_serving (set_recreate r) []) in
  let! r := mget (λ r, r) in
  let! _ := perform (CRouteVia (mk_override (hostnamesOf (d_Spec p)) [] (desired r) None)) in
  let! s := perform CSyncProxy in
  match s with
  | Some err => fail (L "could not take the application out of service: " :: err)
  | None =>
      try! _ := mtry_loop (stop_one p) (sortedReplicas (old r)) in
      let! _ := narrate [L "Stopped"] in ok tt
  end.

Definition adoptedInService (r : rollout) : list Replica :=
  by_index_sorted (omap (λ i, adopted r !! i) (elements (inService r))).

(** retireOthers: what of the application is not the active deployment's goes. *)
Fixpoint others (id : Z) (l : list Container) : M (list Container) :=
  match l with
  | [] => mret []
  | c :: rest =>
      if negb (String.eqb (c_Job c) "") then others id rest else
      let! dr := perform (CDraining (c_ID c)) in
      let! more := others id rest in
      mret (if dr || (c_DeploymentID c =? id) then more else c :: more)
  end.
(** The source retires them concurrently; here one after the other. *)
Definition retire_other (c : Container) : M unit :=
  let! dep := perform (CGetDeployment (c_DeploymentID c)) in
  let! e := retireContainer (c_ID c) (match dep with inl _ => StopTimeout | inr dep => gracePeriod StopTimeout (d_Spec dep) end) in
  match e with inl err => narrate (L "Could not remove old container: " :: err) | inr _ => mret tt end.
Definition retireOthers : M unit :=
  let! dep := mget d in
  let! l := perform (CListContainers (d_Application dep)) in
  match l with
  | inl err => narrate (L "Could not list old containers: " :: err)
  | inr l => let! o := others (d_ID dep) l in mloop retire_other o
  end.

(** The loop over the batches; [first] is i == 0. *)
Fixpoint run_batches (first : bool) (l : list (list Z)) : M (or_error unit) :=
  match l with
  | [] => ok tt
  | batch :: rest =>
      let! dep := mget d in
      try! _ := checked (perform (CAwaitDrains (d_Application dep))) in
      try! (started, created) := bring batch in
      try! _ := (if first then
                   let! _ := (if 0 <? created then narrate [L "Started "; D created] else mret tt) in
                   reach StatusHealthChecking
                 else ok tt) in
      let! dep := mget d in
      try! _ := awaitReady dep started in
      try! _ := swap started in
      run_batches false rest
  end.

(** The image, unless a resumed rollout is past it. *)
Definition obtain : M (or_error unit) :=
  let! dep := mget d in
  if negb (bool_decide (d_Status dep = StatusBuilding)) then ok tt else
  try! _ := pullImage in
  try! _ := checked (perform CRefuseRoot) in
  let! _ := perform CWarnUnenforced in
  match a_PreDeploy (d_Spec dep) with Some _ => runHookOnce | None => ok tt end.

(** A recreate deployment stops the old version first, unless it had. *)
Definition switch_down : M (or_error unit) :=
  let! r := mget (λ r, r) in
  match prev r with
  | Some p =>
      if String.eqb (a_Strategy (d_Spec (d r))) StrategyRecreate then
        if negb (bool_decide (inService r = ∅)) || (resumed r && bool_decide (old r = ∅) && retired r) then
          let! _ := mset (λ r, set_stopped (set_recreate r) (sortedReplicas (old r))) in ok tt
        else if negb (bool_decide (old r = ∅)) then stopPrevious p
        else ok tt
      else ok tt
  | None => ok tt
  end.

(** The commit, and what follows it whatever happens. *)
Definition commit : M (or_error unit) :=
  try! _ := reach StatusHealthChecking in
  try! _ := reach StatusHealthy in
  let! dep := mget d in
  if negb (CanTransition (d_Status dep) StatusActive) then fail [L "illegal state transition"] else
  let! _ := perform CAnnounce in
  try! _ := perform (CActivate (d_ID dep)) in
  let! _ := mset (λ r, set_d r (set_status (d r) StatusActive)) in
  let! _ := perform CClearRoute in
  let! _ := narrate [L "ACTIVE"] in
  let! _ := retireOthers in
  let! _ := perform CSweep in
  let! _ := narrate [L "Deployment successful"] in
  ok tt.

(** The other two kinds of rollout: static.go, standby.go. *)
Variable executeStatic executeDormant : M (or_error unit).
Definition KindStandby := "standby".

Definition execute : M (or_error unit) :=
  let! r := mget (λ r, r) in
  let! _ := (if resumed r then narrate [L "Resumed after the agent restarted"] else mret tt) in
  if dormant r || String.eqb (d_Kind (d r)) KindStandby then executeDormant else
  if bool_decide (is_Some (a_Static (d_Spec (d r)))) then executeStatic else
  try! _ := reach StatusBuilding in
  try! _ := obtain in
  try! _ := reach StatusStarting in
  try! _ := checked (perform CEnsureNetwork) in
  try! _ := (if surveyed r then ok tt else loadPrevious) in
  try! _ := switch_down in
  let! r := mget (λ r, r) in
  try! _ := (if bool_decide (inService r = ∅) then ok tt else swap (adoptedInService r)) in
  let! r := mget (λ r, r) in
  try! _ := run_batches true (batches r) in
  try! _ := swap [] in
  commit.

(** ** Failure *)

(** Routing goes back to the database; what is not needed is removed. *)
Definition remove_quietly (rep : Replica) : M unit := let! _ := removeContainer (r_ContainerID rep) in mret tt.
Definition discard (replicas : list Replica) : M unit :=
  let! _ := perform CClearRoute in
  let! _ := perform CSyncProxy in
  mloop remove_quietly replicas.

(** The indexes of the previous version that have no replica. *)
Definition missing_of (r : rollout) (p : Deployment) : list Z :=
  filter (λ i, old r !! i = None) (indexes (a_Replicas (d_Spec p))).

Definition rollback_failed (cause err : text) : M unit :=
  let! _ := transitionWithError StatusFailed (cause ++ [L "; the rollback then failed too: "] ++ err) in mret tt.

(** New replicas that are not in rotation go; the others serve on. *)
Fixpoint drop_unrouted (rotation : list string) (l : list Replica) : M (list Replica) :=
  match l with
  | [] => mret []
  | rep :: rest =>
      if contains rotation (r_ContainerID rep) then let! still := drop_unrouted rotation rest in mret (rep :: still)
      else let! _ := removeContainer (r_ContainerID rep) in drop_unrouted rotation rest
  end.

Definition rollBack (p : Deployment) (cause : text) : M unit :=
  let! e := reach StatusRollback in
  let! r := mget (λ r, r) in
  match e with
  | inl _ => discard (fresh r)
  | inr _ =>
      let! _ := perform (CAwaitDrains (d_Application (d r))) in
      let! stillServing := drop_unrouted (member_id <$> serving r) (fresh r) in
      let missing := missing_of r p in
      let! _ := narrate [L "Rolling back"] in
      let! _ := reach StatusRestoring in
      let! (restored, err) := ensureReplicas p missing in
      let! e := match err with
                | Some e => mret (inl e)
                | None => awaitReady (set_ID p (d_ID (d r))) (unverified r ++ restored)
                end in
      match e with
      | inl err =>
          let! _ := rollback_failed cause err in
          let! _ := mloop remove_quietly restored in
          discard stillServing
      | inr _ =>
          let! _ := discard stillServing in
          let! _ := transition StatusRolledBack in
          narrate [L "Rolled back"]
      end
  end.

(** The containers the old version kept are started again. *)
Fixpoint restart_kept (p : Deployment) (kept : gmap Z Replica) (l restored : list Replica) : M (list Replica * error) :=
  match l with
  | [] => mret (restored, None)
  | rep :: rest =>
      if bool_decide (kept !! r_Index rep = None) then restart_kept p kept rest restored else
      let! e := startNameless (r_ContainerID rep) in
      match e with
      | Some err => mret (restored, Some err)
      | None =>
          let! _ := perform (CReset (r_ContainerID rep) (bool_decide (is_Some (a_Health (d_Spec p))))) in
          restart_kept p kept rest (restored ++ [rep])
      end
  end.

Definition retire_fresh (grace : Z) (rep : Replica) : M unit := let! _ := retireContainer (r_ContainerID rep) grace in mret tt.

Definition rollBackRecreate (p : Deployment) (cause : text) : M unit :=
  let! e := reach StatusRollback in
  let! r := mget (λ r, r) in
  match e with
  | inl _ => discard (fresh r)
  | inr _ =>
      let! _ := mset (λ r, set_serving r []) in
      let! _ := perform (CRouteVia (mk_override (hostnamesOf (d_Spec p)) [] (desired r) None)) in
      let! _ := perform CSyncProxy in
      let! _ := mloop (retire_fresh (gracePeriod StopTimeout (d_Spec (d r)))) (fresh r) in
      let! _ := mset (λ r, set_fresh r []) in
      let! _ := narrate [L "Rolling back"] in
      let! _ := reach StatusRestoring in
      let! (restored, err) := restart_kept p (old r) (stopped r) [] in
      let! (restored, err) :=
        match err with
        | Some _ => mret (restored, err)
        | None => if retired r then
                    let! (created, err) := ensureReplicas p (missing_of r p) in mret ((restored ++ created)%list, err)
                  else mret (restored, None)
        end in
      let! e := match err with
                | Some e => mret (inl e)
                | None => awaitReady (set_ID p (d_ID (d r))) restored
                end in
      match e with
      | inl err => let! _ := rollback_failed cause err in discard []
      | inr _ =>
          let! _ := discard [] in
          let! _ := transition StatusRolledBack in
          narrate [L "Rolled back"]
      end
  end.

Definition abort (cause : text) : M unit :=
  let! _ := mset (λ r, set_failure r cause) in
  let! _ := transitionWithError StatusFailed cause in
  let! down := perform CBaseCtxErr in
  let! r := mget (λ r, r) in
  match prev r with
  | None => discard (fresh r)
  | Some p =>
      if down || (negb (retired r) && negb (recreate r)) then discard (fresh r)
      else if recreate r then rollBackRecreate p cause
      else rollBack p cause
  end.

(** resume.go *)
Fixpoint revive (p : Deployment) (l unverified : list Replica) : M (list Replica) :=
  match l with
  | [] => mret unverified
  | rep :: rest =>
      let! c := perform (CInspect (r_ContainerID rep)) in
      match c with
      | inl _ => revive p rest unverified
      | inr c =>
          if c_Running c then revive p rest (unverified ++ [rep]) else
          let! e := startNameless (r_ContainerID rep) in
          match e with
          | Some _ => revive p rest unverified
          | None =>
              let! _ := perform (CReset (r_ContainerID rep) (bool_decide (is_Some (a_Health (d_Spec p))))) in
              revive p rest (unverified ++ [rep])
          end
      end
  end.
Definition set_unverified r v := mk_rollout (d r) (prev r) (old r) (fresh r) (serving r) (retired r) (recreate r) (stopped r) (resumed r) (surveyed r) (adopted r) (inService r) v (dormant r) (failure r) (staticPart r).
Definition resumeRollback (p : Deployment) : M unit :=
  let! r := mget (λ r, r) in
  let! _ := narrate [L "Resumed after the agent restarted"] in
  let cause := [S' (d_Error (d r))] in
  if String.eqb (a_Strategy (d_Spec (d r))) StrategyRecreate then
    let! _ := mset (λ r, set_stopped (set_recreate r) (sortedReplicas (old r))) in
    rollBackRecreate p cause
  else
    let! u := revive p (sortedReplicas (old r)) (unverified r) in
    let! _ := mset (λ r, set_unverified r u) in
    rollBack p cause.

Definition run_up : M bool :=
  let! e := execute in
  match e with
  | inr _ => mret false
  | inl err =>
      let! down := perform CBaseCtxErr in
      if down then mret true else
      let! timed_out := perform CTimedOut in
      let! _ := abort (if timed_out then [L "deployment timed out"] else err) in
      let! _ := perform CSweep in
      mret false
  end.

(** run (engine.go calls it from launch): a deployment to its end; true when the agent shut down under it. *)
Definition run_deployment : M bool :=
  let! r := mget (λ r, r) in
  match prev r with
  | Some p =>
      if resumed r && (bool_decide (d_Status (d r) = StatusRollback) || bool_decide (d_Status (d r) = StatusRestoring))
      then let! _ := resumeRollback p in let! _ := perform CSweep in mret false
      else run_up
  | None => run_up
  end.

(** ** What a resumed rollout finds (resume.go) *)

Definition set_retired_if (b : bool) r := if b then set_retired r else r.
Definition set_adopted r a f := mk_rollout (d r) (prev r) (old r) f (serving r) (retired r) (recreate r) (stopped r) (resumed r) (surveyed r) a (inService r) (unverified r) (dormant r) (failure r) (staticPart r).
Definition set_inService r v := mk_rollout (d r) (prev r) (old r) (fresh r) (serving r) (retired r) (recreate r) (stopped r) (resumed r) (surveyed r) (adopted r) v (unverified r) (dormant r) (failure r) (staticPart r).
Definition set_surveyed r := mk_rollout (d r) (prev r) (old r) (fresh r) (serving r) (retired r) (recreate r) (stopped r) (resumed r) true (adopted r) (inService r) (unverified r) (dormant r) (failure r) (staticPart r).

(** The previous version's replicas whose container is gone were retired. *)
Definition drop_gone (exists_ : gset string) (rep : Replica) : M (or_error unit) :=
  if bool_decide (r_ContainerID rep ∈ exists_) then ok tt else
  try! _ := checked (perform (CMarkReplicaRemoved (r_ContainerID rep))) in
  let! _ := mset (λ r, set_old r (delete (r_Index rep) (old r))) in ok tt.

(** The deployment's own, as far as the store knows them: names are given to a
    replica once it has been verified. *)
Definition adopt_recorded (exists_ : gset string) (rep : Replica) : M (or_error unit) :=
  if negb (bool_decide (r_ContainerID rep ∈ exists_)) then checked (perform (CMarkReplicaRemoved (r_ContainerID rep))) else
  let! c := perform (CInspectNames (r_ContainerID rep)) in
  match c with
  | inl err => fail (replica_error (r_Index rep) err)
  | inr (running, names) =>
      let! _ := mset (λ r, set_inService (set_adopted r (<[r_Index rep := rep]> (adopted r)) (fresh r))
                             (if running && negb (bool_decide (names = [])) then {[r_Index rep]} ∪ inService r else inService r)) in
      ok tt
  end.

(** A container that was created and never recorded goes. *)
Definition known_as (r : rollout) (c : Container) : bool :=
  match adopted r !! c_Replica c with Some rep => String.eqb (r_ContainerID rep) (c_ID c) | None => false end.
Definition remove_unrecorded (c : Container) : M (or_error unit) :=
  let! r := mget (λ r, r) in
  if negb (String.eqb (c_Job c) "") || negb (c_DeploymentID c =? d_ID (d r)) || known_as r c then ok tt
  else checked (perform (CRemove (c_ID c))).

(** Whether a replica of the previous version has gone already. *)
Definition one_gone (r : rollout) : bool :=
  match prev r with Some p => negb (bool_decide (missing_of r p = [])) | None => false end.

(** What is made of the containers that exist. *)
Definition survey_of (dep : Deployment) (containers : list Container) : M (or_error unit) :=
  let exists_ : gset string := list_to_set (c_ID <$> containers) in
  let! olds := mget (λ r, sortedReplicas (old r)) in
  try! _ := mtry_loop (drop_gone exists_) olds in
  let! _ := mset (λ r, set_serving r (filter (λ m, member_id m ∈ exists_) (serving r))) in
  let! _ := mset (λ r, set_retired_if (one_gone r) r) in
  try! recorded := perform (CListReplicas (d_ID dep)) in
  let! _ := mset (λ r, set_inService (set_adopted r ∅ (fresh r)) ∅) in
  try! _ := mtry_loop (adopt_recorded exists_) recorded in
  let! _ := mset (λ r, set_adopted r (adopted r) (sortedReplicas (adopted r))) in
  try! _ := mtry_loop remove_unrecorded containers in
  let! _ := mset set_surveyed in
  ok tt.
Definition survey : M (or_error unit) :=
  let! dep := mget d in
  try! containers := perform (CListContainers (d_Application dep)) in
  survey_of dep containers.

Definition rolling_back (s : DeploymentStatus) : bool := bool_decide (s = StatusRollback) || bool_decide (s = StatusRestoring).

(** prepare takes over the application's routing from what was left behind. *)
Definition prepare : M (or_error unit) :=
  let! dep := mget d in
  if bool_decide (is_Some (a_Static (d_Spec dep))) || (progress (d_Status dep) <? progress StatusStarting) then ok tt else
  try! _ := loadPrevious in
  try! _ := survey in
  let! r := mget (λ r, r) in
  if rolling_back (d_Status dep) && bool_decide (prev r = None)
  then fail [L "it was rolling back to a version that is no longer the active one"] else
  let own := (λ rep, mk_member rep (a_Port (d_Spec dep))) <$> adoptedInService r in
  let members := (serving r ++ own)%list in
  let hosts := if bool_decide (own = []) then match prev r with Some p => hostnamesOf (d_Spec p) | None => mk_hostnames "" [] [] "" None "" end
               else hostnamesOf (d_Spec dep) in
  let! _ := (if rolling_back (d_Status dep) then mset (λ r, set_serving r members) else mret tt) in
  let! _ := perform (CRouteVia (mk_override hosts members (desired r) None)) in
  ok tt.
End World.
