(* ===== verification/Supervisor.v ===== *)
(** * The supervisor (agent/internal/deploy: supervisor.go, snapshot.go, and
    gracePeriodOf of drain.go)

    Once a tick the supervisor compares what should be running with what is.
    Its memory is a [supervisor]: the bookkeeping of each container, the pacing
    of recreations, and what this tick knows of the containers.  What it asks
    and does is a call (Effects.v); a probe runs beside the tick, so launching
    it ([KLaunchProbe]) and folding its result ([probe]) are separate steps.
    Routing, alerts, the database and the bringing up of replicas are other
    components, reached through calls. *)

From S2P Require Import Prelude GoStrings Effects GoTime SpecTypes Store Rollout.
From Stdlib Require Import String.
Local Open Scope string_scope.
Local Open Scope Z_scope.

(** ** Data *)

Definition HealthNone := "".
Definition HealthUnknown := "unknown".
Definition HealthStarting := "starting".
Definition HealthHealthy := "healthy".
Definition HealthUnhealthy := "unhealthy".
Definition LevelInfo := "info".
Definition LevelWarn := "warn".
Definition LevelError := "error".

Record options := mk_options {
  RestartDelays : list Duration; CrashLoopDelay : Duration; StableAfter : Duration;
  StartupPollInterval : Duration; StopTimeout : Duration }.

Record replicaState := mk_state {
  restarts : Z; lastRestart : Time; nextRestart : Time; exitSeen : bool; leaveStopped : bool; crashLoop : bool;
  health : string; failures : Z; upSince : Time; lastProbe : Time; probing : bool }.
Record recreateState := mk_recreate { rc_failures : Z; rc_next : Time }.

(** [byID] and [gone] are the tick's snapshot, corrected by every question asked since. *)
Record supervisor := mk_supervisor {
  states : gmap string replicaState; recreates : gmap Z recreateState; proxyErr : text;
  byID : gmap string Container; gone : gset string }.

Definition set_states f s := mk_supervisor (f (states s)) (recreates s) (proxyErr s) (byID s) (gone s).
Definition set_recreates f s := mk_supervisor (states s) (f (recreates s)) (proxyErr s) (byID s) (gone s).
Definition set_snapshot f g s := mk_supervisor (states s) (recreates s) (proxyErr s) (f (byID s)) (g (gone s)).
Definition set_proxyErr e s := mk_supervisor (states s) (recreates s) e (byID s) (gone s).

(** What Docker says of a container. *)
Inductive inspected := Found (c : Container) | NotFound | NoAnswer (err : text).

(** The active deployments, as one read of the database has them. *)
Record Active := mk_active { ac_Applications : list Application; ac_Deployments : gmap Z Deployment; ac_Replicas : gmap Z (list Replica) }.

Inductive scall :=
  | KDockerAnswers (now : Time) | KActiveDeployments | KGetApplication (name : string) | KGetDeployment (id : Z) | KListReplicas (deployment : Z)
  | KTryLock (name : string) | KUnlock (name : string)
  | KInspect (id : string) | KStartNameless (id : string) | KRestartNameless (id : string) (grace : Duration)
  | KDraining (id : string) | KRetire (c : Container) (grace : Duration) | KRemove (id : string) | KMarkRemoved (id : string)
  | KEnsureReplicas (d : Deployment) (missing : list Z)
  | KLaunchProbe (now : Time) (d : Deployment) (r : Replica) (c : Container) | KProbeReplica (d : Deployment) (c : Container) | KCtxErr
  | KEvent (app : string) (level : string) (msg : text) | KLog (what : text) | KArchive (id : string)
  | KCountRestart (id : string) (now : Time)
  | KNoteAlerts (now : Time) (app : string) | KNoteAvailability (app : string) | KForgetDown | KForgetAlerts | KSyncRoutes | KCheckProxyNetworks.

Definition sanswer (c : scall) : Type :=
  match c with
  | KDockerAnswers _ => option (list Container)
  | KActiveDeployments => or_error Active
  | KGetApplication _ => or_error Application
  | KGetDeployment _ => or_error Deployment
  | KListReplicas _ => or_error (list Replica)
  | KTryLock _ | KDraining _ | KRetire _ _ => bool
  | KInspect _ => inspected
  | KEnsureReplicas _ _ => list Replica * error
  | KStartNameless _ | KRestartNameless _ _ | KRemove _ | KMarkRemoved _ | KProbeReplica _ _ | KCtxErr | KSyncRoutes => error
  | _ => unit
  end.

Abbreviation SM := (Effects.M supervisor sanswer).

(** shouldRestart applies restart.policy to a replica that is down. *)
Definition shouldRestart (policy : string) (c : Container) : bool :=
  if String.eqb policy RestartNever then false else
  if String.eqb policy RestartOnFailure then negb (c_ExitCode c =? 0) || c_OOMKilled c else true.

(** StartupBudget is the one of the rollouts; [Before] is [<]. *)
Section Supervisor.
Variable o : options.
Variable world : list (Effects.happened sanswer) → ∀ c, sanswer c.
Local Abbreviation perform := (Effects.perform world).

(** delay is the wait before restart number n+1 of a run of restarts. *)
Definition delay (restartsSoFar : Z) : Duration :=
  match RestartDelays o !! Z.to_nat restartsSoFar with Some t => t | None => CrashLoopDelay o end.

Definition event (app : Application) (level : string) (msg : text) : SM unit := perform (KEvent (app_Name app) level msg).

(** ** Bookkeeping *)

Definition first_sight (a : App) : replicaState :=
  mk_state 0 zero_time zero_time false false false
    (match a_Health a with Some _ => HealthUnknown | None => HealthNone end) 0 zero_time zero_time false.
(** state returns the bookkeeping for a container, creating it on first sight. *)
Definition state (id : string) (dep : Deployment) : SM replicaState :=
  let! st := mget (λ s, states s !! id) in
  match st with
  | Some st => mret st
  | None => let! _ := mset (set_states (insert id (first_sight (d_Spec dep)))) in mret (first_sight (d_Spec dep))
  end.
Definition put (id : string) (st : replicaState) : SM unit := mset (set_states (insert id st)).

Definition fresh_state (hasHealthCheck : bool) : replicaState :=
  mk_state 0 zero_time zero_time false false false (if hasHealthCheck then HealthStarting else HealthNone) 0 zero_time zero_time false.
Definition reset (id : string) (hasHealthCheck : bool) : SM unit := put id (fresh_state hasHealthCheck).

Definition healthy_state (st : replicaState) : replicaState :=
  mk_state (restarts st) (lastRestart st) (nextRestart st) (exitSeen st) (leaveStopped st) (crashLoop st) HealthHealthy 0 (upSince st) (lastProbe st) (probing st).
Definition markHealthy (id : string) : SM unit :=
  mset (set_states (λ m, <[id := healthy_state (default (fresh_state false) (m !! id))]> m)).

(** snapshot reports what the supervisor knows about a container, for the API and for routing. *)
Definition snapshot (s : supervisor) (id : string) : string * bool :=
  match states s !! id with Some st => (health st, crashLoop st) | None => (HealthNone, false) end.

(** forgetGone drops bookkeeping for containers and deployments that no longer exist. *)
Definition forgetGone (activeDeployments : gset Z) : SM unit :=
  let! _ := mset (λ s, set_states (filter (λ '(id, _), is_Some (byID s !! id))) s) in
  mset (set_recreates (filter (λ '(id, _), id ∈ activeDeployments))).

(** ** The snapshot (snapshot.go) *)

Definition newContainerSnapshot (l : list Container) : SM unit :=
  mset (set_snapshot (λ _, foldl (λ m c, <[c_ID c := c]> m) ∅ l) (λ _, ∅)).
Definition ofApp (listed : list Container) (app : string) : list Container := filter (λ c, c_App c = app) listed.

(** Docker is asked once per container and tick. *)
Definition lookup (id : string) : SM (or_error (option Container)) :=
  let! s := mget (λ s, s) in
  match byID s !! id with
  | Some c => ok (Some c)
  | None =>
      if bool_decide (id ∈ gone s) then ok None else
      let! a := perform (KInspect id) in
      match a with
      | NotFound => let! _ := mset (set_snapshot (λ m, m) (union {[id]})) in ok None
      | NoAnswer err => fail err
      | Found c => let! _ := mset (set_snapshot (insert id c) (λ g, g)) in ok (Some c)
      end
  end.
Definition refresh (id : string) : SM unit :=
  let! _ := mset (set_snapshot (delete id) (λ g, g ∖ {[id]})) in
  let! _ := lookup id in mret tt.

(** ** Restarting *)

(** The bookkeeping of a replica after restart number [restarts st + 1]. *)
Definition restarted (now : Time) (st : replicaState) : replicaState :=
  let n := restarts st + 1 in
  mk_state n now (now + delay n) false (leaveStopped st) (crashLoop st || (Z.of_nat (List.length (RestartDelays o)) <=? n))
    (if String.eqb (health st) HealthNone then HealthNone else HealthStarting) 0 zero_time (lastProbe st) false.

Definition restart (now : Time) (app : Application) (r : Replica) (do : SM error) : SM unit :=
  let! err := do in
  let! _ := match err with None => refresh (r_ContainerID r) | Some _ => mret tt end in
  let! st := mget (λ s, states s !! r_ContainerID r) in
  match st with
  | None => mret tt
  | Some st =>
      let enteredCrashLoop := negb (crashLoop st) && (Z.of_nat (List.length (RestartDelays o)) <=? restarts st + 1) in
      let! _ := put (r_ContainerID r) (restarted now st) in
      let! _ := match err with
                | Some e => event app LevelError (L "Replica " :: D (r_Index r) :: L " could not be restarted (attempt " :: D (restarts st + 1) :: L "): " :: e)
                | None =>
                    let! _ := event app LevelInfo [L "Replica "; D (r_Index r); L " restarted (attempt "; D (restarts st + 1); L ")"] in
                    perform (KCountRestart (r_ContainerID r) now)
                end in
      if enteredCrashLoop then
        event app LevelError [L "Replica "; D (r_Index r); L " is crash-looping: "; D (restarts st + 1); L " restarts without staying up. Retrying every "; D (CrashLoopDelay o)]
      else mret tt
  end.

(** ** A replica that runs *)

(** A long enough run forgives the past, of a replica that has passed its health check. *)
Definition forgiven (now : Time) (st : replicaState) : bool :=
  (0 <? restarts st) && negb (String.eqb (health st) HealthUnhealthy) && negb (String.eqb (health st) HealthStarting) &&
  (StableAfter o <=? Sub now (lastRestart st)).
Definition seen_running (now : Time) (st : replicaState) : replicaState :=
  let up := if upSince st =? zero_time then now else upSince st in
  if forgiven now st
  then mk_state 0 (lastRestart st) zero_time false false false (health st) (failures st) up (lastProbe st) (probing st)
  else mk_state (restarts st) (lastRestart st) (nextRestart st) false false (crashLoop st) (health st) (failures st) up (lastProbe st) (probing st).

Definition restart_unhealthy (now : Time) (a : App) (st : replicaState) : bool :=
  match a_Health a with
  | None => false
  | Some _ => String.eqb (health st) HealthUnhealthy && negb (String.eqb (a_Restart a) RestartNever) && negb (now <? nextRestart st)
  end.
Definition probe_due (now : Time) (a : App) (c : Container) (st : replicaState) : bool :=
  match a_Health a with
  | None => false
  | Some h =>
      let every := if String.eqb (health st) HealthStarting || String.eqb (health st) HealthUnknown
                   then Z.min (h_Interval h) (StartupPollInterval o) else h_Interval h in
      negb (restart_unhealthy now a st) && negb (probing st) && negb (String.eqb (c_IP c) "") && (every <=? Sub now (lastProbe st))
  end.
Definition launched (now : Time) (st : replicaState) : replicaState :=
  mk_state (restarts st) (lastRestart st) (nextRestart st) (exitSeen st) (leaveStopped st) (crashLoop st) (health st) (failures st) (upSince st) now true.

Definition superviseRunning (now : Time) (app : Application) (dep : Deployment) (r : Replica) (c : Container) : SM unit :=
  let id := r_ContainerID r in
  let! st := state id dep in
  let recovered := forgiven now st && crashLoop st in
  let st := seen_running now st in
  let restartUnhealthy := restart_unhealthy now (d_Spec dep) st in
  let probe := probe_due now (d_Spec dep) c st in
  let! _ := put id (if probe then launched now st else st) in
  let! _ := (if recovered then event app LevelInfo [L "Replica "; D (r_Index r); L " has been stable for "; D (StableAfter o); L "; no longer crash-looping"]
             else mret tt) in
  let! _ := (if probe then perform (KLaunchProbe now dep r c) else mret tt) in
  if restartUnhealthy then
    let! _ := restart now app r (perform (KRestartNameless id (gracePeriod (StopTimeout o) (d_Spec dep)))) in
    perform (KArchive id)
  else mret tt.

(** The result of a probe, folded into the replica's state; [now] is the tick that launched it. *)
Definition probed (now : Time) (h : Health) (failed : bool) (st : replicaState) : replicaState :=
  let keep hl n := mk_state (restarts st) (lastRestart st) (nextRestart st) (exitSeen st) (leaveStopped st) (crashLoop st) hl n (upSince st) (lastProbe st) false in
  if negb failed then keep HealthHealthy 0 else
  if String.eqb (health st) HealthStarting then
    keep (if StartupBudget h <? Sub now (upSince st) then HealthUnhealthy else HealthStarting) (failures st)
  else if negb (String.eqb (health st) HealthUnhealthy) then
    keep (if h_Retries h <=? failures st + 1 then HealthUnhealthy else health st) (failures st + 1)
  else keep (health st) (failures st).

Definition probe (now : Time) (app : Application) (dep : Deployment) (h : Health) (r : Replica) (c : Container) : SM unit :=
  let! err := perform (KProbeReplica dep c) in
  let! ctx := perform KCtxErr in
  match ctx with
  | Some _ => mret tt
  | None =>
      let! st := mget (λ s, states s !! r_ContainerID r) in
      match st with
      | None => mret tt
      | Some st =>
          let became := probed now h (match err with Some _ => true | None => false end) st in
          let! _ := put (r_ContainerID r) became in
          let e := default [] err in
          if String.eqb (health became) (health st) then mret tt else
          if String.eqb (health became) HealthUnhealthy && String.eqb (health st) HealthStarting then
            event app LevelError (L "Replica " :: D (r_Index r) :: L " did not become healthy within " :: D (StartupBudget h) :: L " of starting: " :: e)
          else if String.eqb (health became) HealthUnhealthy then
            event app LevelError (L "Replica " :: D (r_Index r) :: L " failed " :: D (h_Retries h) :: L " health checks in a row: " :: e)
          else if String.eqb (health became) HealthHealthy && (String.eqb (health st) HealthUnhealthy || String.eqb (health st) HealthStarting) then
            event app LevelInfo [L "Replica "; D (r_Index r); L " is healthy"]
          else mret tt
      end
  end.

(** ** A replica that is down *)

Definition seen_down (a : App) (st : replicaState) : replicaState :=
  let '(hl, n) := match a_Health a with Some _ => (HealthUnhealthy, 0) | None => (health st, failures st) end in
  mk_state (restarts st) (lastRestart st) (nextRestart st) (exitSeen st) (leaveStopped st) (crashLoop st) hl n zero_time (lastProbe st) (probing st).
(** Its fate, decided by the first tick that finds it down. *)
Definition fate (now : Time) (stays : bool) (st : replicaState) : replicaState :=
  mk_state (restarts st) (lastRestart st) (now + delay (restarts st)) true stays (crashLoop st) (health st) (failures st) (upSince st) (lastProbe st) (probing st).
Definition due (now : Time) (st : replicaState) : bool := negb (leaveStopped st) && negb (now <? nextRestart st).

Definition superviseDown (now : Time) (app : Application) (dep : Deployment) (r : Replica) : SM unit :=
  let id := r_ContainerID r in
  let! st := state id dep in
  let firstSight := negb (exitSeen st) in
  let st := seen_down (d_Spec dep) st in
  let! _ := put id st in
  let start st := if due now st then restart now app r (perform (KStartNameless id)) else mret tt in
  if firstSight then
    let! a := perform (KInspect id) in
    match a with
    | NotFound => perform (KLog [L "inspect exited replica"])
    | NoAnswer err => perform (KLog (L "inspect exited replica" :: err))
    | Found c =>
        let why := if c_OOMKilled c then [L "was killed for exceeding its memory limit"] else [L "exited with code "; D (c_ExitCode c)] in
        let! _ := perform (KArchive id) in
        let again := shouldRestart (a_Restart (d_Spec dep)) c in
        let st := fate now (negb again) st in
        let! _ := put id st in
        if negb again then
          event app LevelWarn (L "Replica " :: D (r_Index r) :: L " " :: why ++ [L "; restart policy "; Q (a_Restart (d_Spec dep)); L " leaves it stopped"])
        else
          let! _ := event app LevelWarn (L "Replica " :: D (r_Index r) :: L " " :: why ++ [L "; restarting in "; D (delay (restarts st))]) in
          start st
    end
  else start st.

(** ** Missing replicas *)

Definition noteDisappeared (app : Application) (r : Replica) : SM unit :=
  let! e := perform (KMarkRemoved (r_ContainerID r)) in
  match e with
  | Some err => perform (KLog (L "mark replica removed" :: err))
  | None => event app LevelWarn [L "Replica "; D (r_Index r); L "'s container "; S' (r_ContainerName r); L " has disappeared"]
  end.

Definition recreateReplicas (now : Time) (app : Application) (dep : Deployment) (missing : list Z) : SM unit :=
  let! st := mget (λ s, default (mk_recreate 0 zero_time) (recreates s !! d_ID dep)) in
  let! _ := mset (set_recreates (insert (d_ID dep) st)) in
  if now <? rc_next st then mret tt else
  let! (created, err) := perform (KEnsureReplicas dep missing) in
  match err with
  | Some e =>
      let! _ := mloop (λ r, let! _ := perform (KRemove (r_ContainerID r)) in mret tt) created in
      let wait := delay (rc_failures st) in
      let! _ := mset (set_recreates (insert (d_ID dep) (mk_recreate (rc_failures st + 1) (now + wait)))) in
      event app LevelError (L "Could not recreate " :: D (Z.of_nat (List.length missing)) :: L " missing replica: " :: e ++ [L ". Retrying in "; D wait])
  | None =>
      let! _ := mset (set_recreates (delete (d_ID dep))) in
      mloop (λ r, let! _ := reset (r_ContainerID r) (bool_decide (is_Some (a_Health (d_Spec dep)))) in
                  event app LevelInfo [L "Recreated replica "; D (r_Index r)]) created
  end.

(** ** An application *)

(** gracePeriodOf (drain.go): for a container known only by its labels. *)
Definition gracePeriodOf (deployment : Z) : SM Duration :=
  let! a := perform (KGetDeployment deployment) in
  mret (match a with inl _ => StopTimeout o | inr dep => gracePeriod (StopTimeout o) (d_Spec dep) end).

(** A container of another deployment is a leftover, if Docker still has it. *)
Definition sweep_one (app : Application) (dep : Deployment) (c : Container) : SM unit :=
  if negb (String.eqb (c_Job c) "") then mret tt else
  let! dr := perform (KDraining (c_ID c)) in
  if (dr : bool) then mret tt else
  if c_DeploymentID c =? d_ID dep then mret tt else
  let! a := perform (KInspect (c_ID c)) in
  match a with
  | NotFound => mret tt
  | _ =>
      let! grace := gracePeriodOf (c_DeploymentID c) in
      let! done := perform (KRetire c grace) in
      if (done : bool) then event app LevelWarn [L "Removed leftover container "; S' (c_Name c)] else mret tt
  end.

(** Is one replica there: the list's container, or what Docker says by ID.
    The list's is the one of the application's own containers. *)
Definition find (listed : list Container) (id : string) : SM (or_error (option Container)) :=
  match last (filter (λ c, c_ID c = id) listed) with Some c => ok (Some c) | None => lookup id end.

Definition is_down (c : Container) : bool :=
  String.eqb (c_State c) "exited" || String.eqb (c_State c) "dead" || String.eqb (c_State c) "created".

(** The replicas of the active deployment, and the indexes that are present. *)
Fixpoint supervise_replicas (now : Time) (app : Application) (dep : Deployment) (listed : list Container) (l : list Replica) (present : gset Z)
  : SM (gset Z) :=
  match l with
  | [] => mret present
  | r :: rest =>
      let! a := find listed (r_ContainerID r) in
      match a with
      | inl err => let! _ := perform (KLog (L "inspect replica" :: err)) in supervise_replicas now app dep listed rest present
      | inr None => let! _ := noteDisappeared app r in supervise_replicas now app dep listed rest present
      | inr (Some c) =>
          let! _ := (if c_Running c then superviseRunning now app dep r c
                     else if is_down c then superviseDown now app dep r else mret tt) in
          supervise_replicas now app dep listed rest ({[r_Index r]} ∪ present)
      end
  end.

Definition superviseApp (now : Time) (name : string) (listed : list Container) (deployments : gmap Z Deployment) : SM unit :=
  let! a := perform (KGetApplication name) in
  match a with
  | inl _ => mret tt
  | inr app =>
      match app_ActiveDeploymentID app with
      | None => mret tt
      | Some id =>
          if negb (String.eqb (app_DesiredState app) DesiredRunning) then mret tt else
          let! a := match deployments !! id with Some dep => mret (inr dep) | None => perform (KGetDeployment id) end in
          match a with
          | inl err => perform (KLog (L "load active deployment" :: err))
          | inr dep =>
              if negb (String.eqb (d_StaticDigest dep) "") then mret tt else
              let! a := perform (KListReplicas (d_ID dep)) in
              match a with
              | inl err => perform (KLog (L "list replicas" :: err))
              | inr replicas =>
                  let! _ := mloop (sweep_one app dep) (ofApp listed (app_Name app)) in
                  let! present := supervise_replicas now app dep (ofApp listed (app_Name app)) replicas ∅ in
                  let missing := filter (λ i, i ∉ present) (indexes (a_Replicas (d_Spec dep))) in
                  let! _ := (if bool_decide (missing = []) then mret tt else recreateReplicas now app dep missing) in
                  let! _ := perform (KNoteAlerts now (app_Name app)) in
                  perform (KNoteAvailability (app_Name app))
              end
          end
      end
  end.

(** ** The tick *)

Definition syncProxy : SM unit :=
  let! err := perform KSyncRoutes in
  let! ctx := perform KCtxErr in
  match ctx with
  | Some _ => mret tt
  | None =>
      let msg := default [] err in
      let! was := mget proxyErr in
      let! _ := mset (set_proxyErr msg) in
      if bool_decide (msg = was) then mret tt else
      match err with
      | Some e => perform (KLog (L "reverse proxy is out of sync; retrying every tick" :: e))
      | None => perform (KLog [L "reverse proxy is in sync again"])
      end
  end.

Definition is_active (app : Application) : option Z :=
  match app_ActiveDeploymentID app with
  | Some id => if String.eqb (app_DesiredState app) DesiredRunning then Some id else None
  | None => None
  end.

(** One application under its lock; a busy one is looked at again next tick. *)
Definition supervise_locked (now : Time) (listed : list Container) (deployments : gmap Z Deployment) (active : gset Z) (app : Application) : SM unit :=
  match app_ActiveDeploymentID app with
  | None => mret tt
  | Some id =>
      if bool_decide (id ∉ active) then mret tt else
      let! locked := perform (KTryLock (app_Name app)) in
      if negb locked then mret tt else
      let! _ := superviseApp now (app_Name app) listed deployments in
      perform (KUnlock (app_Name app))
  end.

Definition tick (now : Time) : SM unit :=
  let! l := perform (KDockerAnswers now) in
  match l with
  | None => mret tt
  | Some listed =>
      let! _ := newContainerSnapshot listed in
      let! st := perform KActiveDeployments in
      match st with
      | inl err => perform (KLog (L "list applications" :: err))
      | inr st =>
          let active := list_to_set (omap is_active (ac_Applications st)) in
          let deployments := map_fold (λ _ dep m, <[d_ID dep := dep]> m) ∅ (ac_Deployments st) in
          let! _ := forgetGone active in
          let! _ := mloop (supervise_locked now listed deployments active) (ac_Applications st) in
          let! _ := perform KForgetDown in
          let! _ := perform KForgetAlerts in
          let! _ := syncProxy in
          perform KCheckProxyNetworks
      end
  end.
End Supervisor.
