(* ===== verification/SupervisorInv.v ===== *)
(** * The pacing of restarts

    What each look of the supervisor at a replica does to the replica's
    bookkeeping and which containers it starts, as functions of the bookkeeping;
    and the invariant that spaces restarts out. *)

From S2P Require Import Prelude GoStrings Effects GoTime SpecTypes Store Rollout Supervisor.
From Stdlib Require Import String.
Local Open Scope Z_scope.

Abbreviation sevent := (Effects.happened sanswer).

(** An attempt to bring a container back. *)
Definition restarts_container (id : string) (e : sevent) : bool :=
  match what e with KStartNameless i | KRestartNameless i _ => String.eqb i id | _ => false end.
Definition attempts (id : string) (tr : list sevent) : nat := List.length (List.filter (restarts_container id) tr).

Lemma attempts_app id evs tr : attempts id (evs ++ tr) = (attempts id evs + attempts id tr)%nat.
Proof. unfold attempts. by rewrite List.filter_app, length_app. Qed.

(** No attempt. *)
Definition still (e : sevent) : Prop := match what e with KStartNameless _ | KRestartNameless _ _ => False | _ => True end.
Lemma attempts_still id evs : Forall still evs → attempts id evs = 0%nat.
Proof.
  unfold attempts. induction 1 as [|[c a] evs H _ IH]; [done|]. simpl. unfold still in H. simpl in H.
  replace (restarts_container id _) with false by (by destruct c). done.
Qed.

(** The bookkeeping is as it was. *)
Definition same_states (s s' : supervisor) : Prop := states s' = states s.
#[export] Instance same_states_preorder : PreOrder same_states.
Proof. split; [done|]. intros s s' s'' H H'. unfold same_states in *. congruence. Qed.

Section Looks.
Context (o : options) (world : list sevent → ∀ c, sanswer c).
Local Abbreviation quiet m := (calm same_states still m).

Lemma event_quiet app lv m : quiet (event world app lv m).
Proof. unfold event. calm. Qed.
Lemma set_snapshot_same f g s : same_states s (set_snapshot f g s).
Proof. done. Qed.
#[local] Hint Resolve event_quiet set_snapshot_same : calm.
Lemma refresh_quiet id : quiet (refresh world id).
Proof. unfold refresh, lookup. calm. Qed.
#[local] Hint Resolve refresh_quiet : calm.

(** What a program did: the bookkeeping it left, and the attempts it made for a container. *)
Definition left (m : SM unit) (s : Effects.St supervisor sanswer) : gmap string replicaState := states (m s).2.1.
Definition tried (id : string) (m : SM unit) (s : Effects.St supervisor sanswer) (n : nat) : Prop :=
  attempts id (m s).2.2 = (n + attempts id s.2)%nat.

Lemma quiet_does {A} (m : SM A) s : quiet m → states (m s).2.1 = states s.1 ∧ ∀ id, attempts id (m s).2.2 = attempts id s.2.
Proof.
  intros Hm. destruct (Hm s) as (H & evs & -> & Hq). split; [done|]. intros id. by rewrite attempts_app, attempts_still.
Qed.

Lemma then_quiet {A B} (m : SM A) (k : A → SM B) s : quiet m → ∃ a s',
  mthen m k s = k a s' ∧ states s'.1 = states s.1 ∧ ∀ id, attempts id s'.2 = attempts id s.2.
Proof. intros Hm. exists (m s).1, (m s).2. split; [apply then_eq|]. by apply quiet_does. Qed.

Local Ltac quietly :=
  match goal with |- context [mthen ?m ?k ?s] =>
    let u := fresh "u" in let s' := fresh "s" in let E := fresh in let H1 := fresh "Hst" in let H2 := fresh "Hat" in
    destruct (then_quiet m k s) as (u & s' & E & H1 & H2); [solve [calm]|]; rewrite E; clear E
  end.

(** An attempt, and what is written of it when the container has bookkeeping. *)
Definition attempt (id : string) (do : SM error) : Prop :=
  ∀ s, states (do s).2.1 = states s.1 ∧ ∀ i, attempts i (do s).2.2 = ((if String.eqb id i then 1 else 0) + attempts i s.2)%nat.

Lemma restart_does now app r do s : attempt (r_ContainerID r) do →
  let out := restart o world now app r do s in
  states out.2.1 = match states s.1 !! r_ContainerID r with
    | Some st => <[r_ContainerID r := restarted o now st]> (states s.1) | None => states s.1 end ∧
  ∀ i, attempts i out.2.2 = ((if String.eqb (r_ContainerID r) i then 1 else 0) + attempts i s.2)%nat.
Proof.
  intros Hdo. cbv zeta. unfold restart. rewrite then_eq. destruct (Hdo s) as [<- Hn]. setoid_rewrite <- Hn. clear Hn Hdo.
  destruct (do s) as [err s1]. cbn [fst snd].
  quietly. rewrite <- Hst. setoid_rewrite <- Hat. clear Hst Hat.
  rewrite then_get. destruct (states s0.1 !! r_ContainerID r) as [st|]; [|done]. unfold put. rewrite then_set. cbv beta.
  set (s3 := (set_states _ s0.1, s0.2)). set (rest := mthen _ _).
  destruct (quiet_does rest s3) as [H3 H4]; [unfold rest; calm|]. rewrite H3. by setoid_rewrite H4.
Qed.

(** ** One look at a replica *)

(** The bookkeeping after a look at a running replica, and whether it was restarted. *)
Definition look_running (now : Time) (a : App) (c : Container) (st : replicaState) : replicaState * bool :=
  let st := seen_running o now st in
  let st' := if probe_due o now a c st then launched now st else st in
  if restart_unhealthy now a st then (restarted o now st', true) else (st', false).

(** … at one that is down, [x] being what Docker said of it if it was asked. *)
Definition look_down (now : Time) (a : App) (x : inspected) (st : replicaState) : replicaState * bool :=
  let start st := if due now st then (restarted o now st, true) else (st, false) in
  let st' := seen_down a st in
  if exitSeen st then start st' else
  match x with
  | Found c =>
      let again := shouldRestart (a_Restart a) c in
      let st' := fate o now (negb again) st' in
      if again then start st' else (st', false)
  | _ => (st', false)
  end.

Lemma start_attempt id : attempt id (Effects.perform world (KStartNameless id)).
Proof. intros s. split; [done|]. intros i. unfold attempts, Effects.perform, restarts_container. cbn [fst snd List.filter what]. by destruct (String.eqb id i). Qed.
Lemma restart_attempt id grace : attempt id (Effects.perform world (KRestartNameless id grace)).
Proof. intros s. split; [done|]. intros i. unfold attempts, Effects.perform, restarts_container. cbn [fst snd List.filter what]. by destruct (String.eqb id i). Qed.

Definition bookkeeping (s : supervisor) (id : string) (dep : Deployment) : replicaState :=
  default (first_sight (d_Spec dep)) (states s !! id).

Lemma state_does id dep s : ∃ s', state id dep s = (bookkeeping s.1 id dep, s') ∧
  states s'.1 = <[id := bookkeeping s.1 id dep]> (states s.1) ∧ s'.2 = s.2.
Proof.
  unfold state, bookkeeping. rewrite then_get. destruct (states s.1 !! id) as [st|] eqn:E.
  - exists s. split; [done|]. split; [|done]. by rewrite insert_id.
  - eexists. split; [reflexivity|]. done.
Qed.

Lemma superviseRunning_does now app dep r c s :
  let out := superviseRunning o world now app dep r c s in
  let look := look_running now (d_Spec dep) c (bookkeeping s.1 (r_ContainerID r) dep) in
  states out.2.1 = <[r_ContainerID r := look.1]> (states s.1) ∧
  ∀ i, attempts i out.2.2 = ((if look.2 && String.eqb (r_ContainerID r) i then 1 else 0) + attempts i s.2)%nat.
Proof.
  cbv zeta. unfold superviseRunning, look_running. rewrite then_eq.
  destruct (state_does (r_ContainerID r) dep s) as (s1 & -> & Hs1 & Ht1). cbn [fst snd].
  set (st0 := bookkeeping _ _ _) in *. set (st := seen_running o now st0).
  set (st' := if probe_due o now (d_Spec dep) c st then launched now st else st).
  unfold put. rewrite then_set. cbv beta. set (s2 := (set_states _ s1.1, s1.2)).
  assert (states s2.1 = <[r_ContainerID r := st']> (states s.1)) as Hs2 by (unfold s2; cbn; by rewrite Hs1, insert_insert_eq).
  rewrite <- Ht1. change s1.2 with s2.2. clearbody s2. clear Hs1 Ht1 s1.
  quietly. setoid_rewrite <- Hat. rewrite <- Hst in Hs2. clear Hst Hat s2.
  quietly. setoid_rewrite <- Hat. rewrite <- Hst in Hs2. clear Hst Hat s0.
  destruct (restart_unhealthy now (d_Spec dep) st); [|done].
  rewrite then_eq.
  destruct (restart_does now app r _ s1 (restart_attempt (r_ContainerID r) (gracePeriod (StopTimeout o) (d_Spec dep)))) as [H1 H2].
  destruct (restart o world now app r _ s1) as [u' s2]. cbn [fst snd] in *. rewrite Hs2, lookup_insert_eq, insert_insert_eq in H1.
  split; [done|]. intros i. cbn [andb]. by rewrite <- H2.
Qed.

Lemma superviseDown_does now app dep r s : ∃ x,
  let out := superviseDown o world now app dep r s in
  let look := look_down now (d_Spec dep) x (bookkeeping s.1 (r_ContainerID r) dep) in
  states out.2.1 = <[r_ContainerID r := look.1]> (states s.1) ∧
  ∀ i, attempts i out.2.2 = ((if look.2 && String.eqb (r_ContainerID r) i then 1 else 0) + attempts i s.2)%nat.
Proof.
  unfold superviseDown. rewrite then_eq. destruct (state_does (r_ContainerID r) dep s) as (s1 & -> & Hs1 & Ht1). cbn [fst snd].
  set (st0 := bookkeeping _ _ _) in *. set (st := seen_down (d_Spec dep) st0).
  unfold put. rewrite then_set. cbv beta zeta. set (s2 := (set_states _ s1.1, s1.2)).
  assert (states s2.1 = <[r_ContainerID r := st]> (states s.1)) as Hs2 by (unfold s2; cbn; by rewrite Hs1, insert_insert_eq).
  rewrite <- Ht1. change s1.2 with s2.2. clearbody s2. clear Hs1 Ht1 s1.
  assert (∀ st s2, states s2.1 = <[r_ContainerID r := st]> (states s.1) →
    let out := (if due now st then restart o world now app r (Effects.perform world (KStartNameless (r_ContainerID r))) else mret tt) s2 in
    let look := if due now st then (restarted o now st, true) else (st, false) in
    states out.2.1 = <[r_ContainerID r := look.1]> (states s.1) ∧
    ∀ i, attempts i out.2.2 = ((if look.2 && String.eqb (r_ContainerID r) i then 1 else 0) + attempts i s2.2)%nat) as Hstart.
  { clear. intros st s2 Hs2. cbv zeta. destruct (due now st); [|done].
    destruct (restart_does now app r _ s2 (start_attempt (r_ContainerID r))) as [H1 H2].
    by rewrite Hs2, lookup_insert_eq, insert_insert_eq in H1. }
  unfold look_down. destruct (exitSeen st0) eqn:Ee; cbn [negb].
  { exists NotFound. by apply Hstart. }
  rewrite (then_perform world (KInspect _)). set (s3 := (s2.1, _ :: s2.2)).
  assert (∀ i, attempts i s3.2 = attempts i s2.2) as Hat by done. setoid_rewrite <- Hat. change (states s2.1) with (states s3.1) in Hs2.
  clearbody s3. clear Hat. destruct (world s2.2 (KInspect (r_ContainerID r))) as [c| |err]; [|by exists NotFound|by exists NotFound].
  exists (Found c). quietly. setoid_rewrite <- Hat. rewrite <- Hst in Hs2. clear Hst Hat s3.
  rewrite then_set. cbv beta. set (st' := fate _ _ _ _). set (s4 := (set_states _ s0.1, s0.2)).
  assert (states s4.1 = <[r_ContainerID r := st']> (states s.1)) as Hs4 by (unfold s4; cbn; by rewrite Hs2, insert_insert_eq).
  change s0.2 with s4.2. clearbody s4. clear Hs2 s0 s2. destruct (shouldRestart _ c); cbn [negb].
  - quietly. setoid_rewrite <- Hat. rewrite <- Hst in Hs4. by apply Hstart.
  - destruct (quiet_does (event world app LevelWarn (L "Replica " :: D (r_Index r) :: L " " :: (if c_OOMKilled c then [L "was killed for exceeding its memory limit"] else [L "exited with code "; D (c_ExitCode c)]) ++ [L "; restart policy "; Q (a_Restart (d_Spec dep)); L " leaves it stopped"])) s4) as [H1 H2]; [calm|].
    rewrite Hs4 in H1. by setoid_rewrite H2.
Qed.
End Looks.

(** ** The invariant of a replica's bookkeeping *)

Section Paced.
Context (o : options).
Hypothesis stable : 0 ≤ StableAfter o ≤ maxDuration.

Definition looping (n : Z) : bool := (0 <? n) && (Z.of_nat (List.length (RestartDelays o)) <=? n).

(** The next restart waits for the delay of the run so far; a run that was
    forgiven had lasted. *)
Record paced (now : Time) (st : replicaState) : Prop := {
  p_count : 0 ≤ restarts st;
  p_loop : crashLoop st = looping (restarts st);
  p_run : 0 < restarts st → lastRestart st ≤ now ∧ lastRestart st + delay o (restarts st) ≤ nextRestart st;
  p_forgiven : restarts st = 0 → lastRestart st = zero_time ∨ lastRestart st + StableAfter o ≤ now }.

(** [st'] is the bookkeeping after a restart at [now] that was due by [st]. *)
Record counted (now : Time) (st st' : replicaState) : Prop := {
  c_now : lastRestart st' = now;
  c_next : restarts st' = restarts st + 1;
  c_waited : 0 < restarts st → lastRestart st + delay o (restarts st) ≤ now;
  c_stable : restarts st = 0 → lastRestart st = zero_time ∨ lastRestart st + StableAfter o ≤ now;
  c_loop : crashLoop st' = (Z.of_nat (List.length (RestartDelays o)) <=? restarts st') }.

Lemma paced_later now now' st : now ≤ now' → paced now st → paced now' st.
Proof. intros H [H1 H2 H3 H4]. constructor; [done|done|intros; split; [|apply H3]; lia|intros; destruct H4; [done|by left|right; lia]]. Qed.
Lemma paced_fresh now st : restarts st = 0 → crashLoop st = false → lastRestart st = zero_time → paced now st.
Proof. intros H1 H2 H3. constructor; rewrite ?H1, ?H2; [done|done|lia|by left]. Qed.
(** The pacing depends on these fields only, and the next restart may be put off. *)
Lemma paced_ext now st st' : restarts st' = restarts st → crashLoop st' = crashLoop st → lastRestart st' = lastRestart st →
  (0 < restarts st → nextRestart st ≤ nextRestart st' ∨ lastRestart st + delay o (restarts st) ≤ nextRestart st') →
  paced now st → paced now st'.
Proof.
  intros H1 H2 H3 H4 [P1 P2 P3 P4]. constructor; rewrite ?H1, ?H2, ?H3; [done|done| |done].
  intros H. destruct (P3 H). split; [done|]. destruct (H4 H); lia.
Qed.

(** A restart that is due is counted, and leaves the bookkeeping paced. *)
Lemma restarted_paced now st : paced now st → (0 < restarts st → nextRestart st ≤ now) →
  paced now (restarted o now st) ∧ counted now st (restarted o now st).
Proof.
  intros [P1 P2 P3 P4] Hdue.
  assert (crashLoop (restarted o now st) = (Z.of_nat (List.length (RestartDelays o)) <=? restarts st + 1)) as Hl.
  { cbn [crashLoop restarted]. rewrite P2. unfold looping. lia. }
  split; constructor; rewrite ?Hl; cbn [restarts lastRestart nextRestart restarted]; try done; try lia.
  - unfold looping. lia.
Qed.

Lemma seen_running_paced now st : paced now st → paced now (seen_running o now st) ∧
  (health st = HealthUnhealthy → restarts (seen_running o now st) = restarts st ∧ lastRestart (seen_running o now st) = lastRestart st).
Proof.
  intros P. unfold seen_running, forgiven. destruct (_ && _ && _ && _) eqn:E.
  - apply andb_true_iff in E as [E Hs]. apply andb_true_iff in E as [E _]. apply andb_true_iff in E as [E1 E2]. split.
    + constructor; cbn [restarts crashLoop lastRestart nextRestart]; [lia|done|lia|]. intros _. right.
      apply Sub_le; unfold minDuration; lia.
    + intros H. rewrite H in E2. done.
  - split; [|done]. apply (paced_ext _ st); try done. cbn. lia.
Qed.

Lemma look_running_paced now a c st : paced now st →
  let look := look_running o now a c st in
  paced now look.1 ∧ (look.2 = true → counted now st look.1).
Proof.
  intros P. cbv zeta. unfold look_running. destruct (seen_running_paced now st P) as [P1 Hk].
  set (st1 := seen_running o now st) in *. set (st2 := if probe_due _ _ _ _ _ then _ else _).
  assert (paced now st2) as P2 by (unfold st2; destruct (probe_due _ _ _ _ _); [apply (paced_ext _ st1); try done; cbn; lia|done]).
  destruct (restart_unhealthy now a st1) eqn:E; [|done].
  unfold restart_unhealthy in E. destruct (a_Health a); [|done]. apply andb_true_iff in E as [E Hdue]. apply andb_true_iff in E as [Hu _].
  apply String.eqb_eq in Hu. assert (nextRestart st2 ≤ now) as Hd by (unfold st2; destruct (probe_due _ _ _ _ _); cbn; lia).
  destruct (restarted_paced now st2 P2 (λ _, Hd)) as [P3 C]. split; [done|]. intros _.
  assert (health st = HealthUnhealthy) as Hh by (revert Hu; unfold st1, seen_running; by destruct (forgiven _ _ _)).
  destruct (Hk Hh) as [K1 K2].
  assert (restarts st2 = restarts st ∧ lastRestart st2 = lastRestart st) as [R1 R2].
  { rewrite <- K1, <- K2. unfold st2. by destruct (probe_due _ _ _ _ _). }
  destruct C as [C1 C2 C3 C4 C5]. rewrite R1, ?R2 in *. by constructor.
Qed.

Lemma look_down_paced now a x st : paced now st →
  let look := look_down o now a x st in
  paced now look.1 ∧ (look.2 = true → counted now st look.1).
Proof.
  intros P. cbv zeta. unfold look_down. set (st1 := seen_down a st).
  assert (restarts st1 = restarts st ∧ lastRestart st1 = lastRestart st ∧ nextRestart st1 = nextRestart st ∧ crashLoop st1 = crashLoop st) as (R1 & R2 & R3 & R4).
  { unfold st1, seen_down. by destruct (a_Health a). }
  assert (∀ st', restarts st' = restarts st → lastRestart st' = lastRestart st → paced now st' →
    let look := if due now st' then (restarted o now st', true) else (st', false) in
    paced now look.1 ∧ (look.2 = true → counted now st look.1)) as Hstart.
  { intros st' E1 E2 P'. cbv zeta. destruct (due now st') eqn:Ed; [|done]. unfold due in Ed. apply andb_true_iff in Ed as [_ Ed].
    destruct (restarted_paced now st' P') as [P3 [C1 C2 C3 C4 C5]]; [lia|]. split; [done|]. intros _.
    rewrite E1, ?E2 in *. by constructor. }
  assert (paced now st1) as P1 by (apply (paced_ext _ st); try done; rewrite ?R3; lia).
  destruct (exitSeen st); [by apply Hstart|]. destruct x as [c| |err]; [|done|done].
  set (st2 := fate o now _ st1).
  assert (paced now st2) as P2.
  { apply (paced_ext _ st1); try done. intros H. right. cbn. rewrite R2. destruct (p_run _ _ P1 H) as [H1 _]. lia. }
  destruct (shouldRestart _ c); [by apply Hstart|done].
Qed.
End Paced.

(** ** The supervisor's steps *)

(** What changes the bookkeeping: a look at a replica, the result of a probe,
    and the starts and health checks of deployments; and what forgets it. *)
Inductive step :=
  | Running (app : Application) (dep : Deployment) (r : Replica) (c : Container)
  | Down (app : Application) (dep : Deployment) (r : Replica)
  | Probed (launched : Time) (app : Application) (dep : Deployment) (h : Health) (r : Replica) (c : Container)
  | Reset (id : string) (hasHealthCheck : bool) | MarkHealthy (id : string) | Forget (active : gset Z)
  | Listed (l : list Container).

Section Steps.
Context (o : options) (world : list sevent → ∀ c, sanswer c).
Hypothesis stable : 0 ≤ StableAfter o ≤ maxDuration.

Definition take (now : Time) (a : step) : SM unit :=
  match a with
  | Running app dep r c => superviseRunning o world now app dep r c
  | Down app dep r => superviseDown o world now app dep r
  | Probed launched app dep h r c => probe world launched app dep h r c
  | Reset id hc => reset id hc
  | MarkHealthy id => markHealthy id
  | Forget active => forgetGone active
  | Listed l => newContainerSnapshot l
  end.

(** The states of a supervisor that began with nothing, as time passes. *)
Inductive reachable : Time → Effects.St supervisor sanswer → Prop :=
  | reachable_start t s : states s.1 = ∅ → reachable t s
  | reachable_step t now a s : reachable t s → t ≤ now → reachable now (take now a s).2.

Definition all_paced (now : Time) (s : supervisor) : Prop := ∀ id st, states s !! id = Some st → paced o now st.

Lemma bookkeeping_paced now s id dep : all_paced now s → paced o now (bookkeeping s id dep).
Proof.
  intros H. unfold bookkeeping. destruct (states s !! id) eqn:E; [by apply (H id)|]. by apply paced_fresh.
Qed.

Lemma all_paced_insert now s s' id st : states s' = <[id := st]> (states s) → paced o now st → all_paced now s → all_paced now s'.
Proof. intros Hs Hp H id' st' Hl. rewrite Hs in Hl. apply lookup_insert_Some in Hl as [[_ <-]|[_ Hl]]; [done|by apply (H id')]. Qed.

Lemma probe_does launched app dep h r c s :
  (states (probe world launched app dep h r c s).2.1 = states s.1 ∨
   ∃ st b, states s.1 !! r_ContainerID r = Some st ∧
     states (probe world launched app dep h r c s).2.1 = <[r_ContainerID r := probed launched h b st]> (states s.1)) ∧
  ∀ i, attempts i (probe world launched app dep h r c s).2.2 = attempts i s.2.
Proof.
  unfold probe. rewrite (then_perform world (KProbeReplica _ _)), (then_perform world KCtxErr). cbn [snd].
  set (s1 := (_, _ :: _ :: _)). assert (states s1.1 = states s.1 ∧ ∀ i, attempts i s1.2 = attempts i s.2) as [E1 E2] by done.
  rewrite <- E1. setoid_rewrite <- E2. clearbody s1. clear E1 E2.
  destruct (world _ KCtxErr); [by split; [left|]|]. rewrite then_get.
  destruct (states s1.1 !! r_ContainerID r) as [st|] eqn:Es; [|by split; [left|]]. unfold put. rewrite then_set. cbv beta zeta.
  match goal with |- context [probed launched h ?x st] => set (b := x) end. set (s2 := (set_states _ s1.1, s1.2)).
  match goal with |- context [(?m s2)] => destruct (quiet_does m s2) as [H1 H2]; [pose proof (event_quiet world); calm|] end.
  rewrite H1. setoid_rewrite H2. split; [|done]. right. by exists st, b.
Qed.

Lemma probed_paced now launched h b st : paced o now st → paced o now (probed launched h b st).
Proof. intros P. unfold probed. repeat case_match; (apply (paced_ext _ _ st); [done|done|done|cbn; lia|done]). Qed.

Lemma take_paced now a s : all_paced now s.1 → all_paced now (take now a s).2.1.
Proof using stable.
  intros H. destruct a as [app dep r c|app dep r|l app dep h r c|id hc|id|active|l]; cbn [take].
  - destruct (superviseRunning_does o world now app dep r c s) as [H1 _]. eapply all_paced_insert; [exact H1| |done].
    by apply look_running_paced, bookkeeping_paced.
  - destruct (superviseDown_does o world now app dep r s) as (x & H1 & _). eapply all_paced_insert; [exact H1| |done].
    by apply look_down_paced, bookkeeping_paced.
  - destruct (probe_does l app dep h r c s) as [[H1|(st & b & Hl & H1)] _].
    + intros id st Hl. rewrite H1 in Hl. by apply (H id).
    + eapply all_paced_insert; [exact H1| |done]. by apply probed_paced, (H _ _ Hl).
  - eapply (all_paced_insert _ s.1); [done| |done]. by apply paced_fresh.
  - eapply (all_paced_insert _ s.1); [done| |done].
    destruct (states s.1 !! id) as [st|] eqn:E; simpl; [|by apply paced_fresh]. apply (paced_ext _ _ st); try done; [cbn; lia|by apply (H id)].
  - intros id st Hl. apply map_lookup_filter_Some in Hl as [Hl _]. by apply (H id).
  - done.
Qed.

Lemma reachable_paced t s : reachable t s → all_paced t s.1.
Proof using stable.
  induction 1 as [t s H|t now a s _ IH Ht]; [intros id st Hl; by rewrite H, lookup_empty in Hl|].
  apply take_paced. intros id st Hl. by apply (paced_later _ t), (IH id).
Qed.

(** What an attempt for a container shows of a step. *)
Lemma take_attempts now a s id : all_paced now s.1 →
  attempts id (take now a s).2.2 = attempts id s.2 ∨
  attempts id (take now a s).2.2 = S (attempts id s.2) ∧
  ∃ dep st', states (take now a s).2.1 !! id = Some st' ∧ counted o now (bookkeeping s.1 id dep) st'.
Proof using stable.
  intros H. destruct a as [app dep r c|app dep r|l app dep h r c|id' hc|id'|active|l]; cbn [take]; try (by left).
  - destruct (superviseRunning_does o world now app dep r c s) as [H1 H2]. rewrite H1, H2.
    destruct (look_running_paced o stable now (d_Spec dep) c _ (bookkeeping_paced now s.1 (r_ContainerID r) dep H)) as [_ Hc].
    destruct ((look_running _ _ _ _ _).2); [|by left]. cbn [andb]. destruct (String.eqb_spec (r_ContainerID r) id) as [<-|]; [|by left].
    right. split; [done|]. exists dep. rewrite lookup_insert_eq. eexists. split; [done|by apply Hc].
  - destruct (superviseDown_does o world now app dep r s) as (x & H1 & H2). rewrite H1, H2.
    destruct (look_down_paced o now (d_Spec dep) x _ (bookkeeping_paced now s.1 (r_ContainerID r) dep H)) as [_ Hc].
    destruct ((look_down _ _ _ _ _).2); [|by left]. cbn [andb]. destruct (String.eqb_spec (r_ContainerID r) id) as [<-|]; [|by left].
    right. split; [done|]. exists dep. rewrite lookup_insert_eq. eexists. split; [done|by apply Hc].
  - left. apply probe_does.
Qed.
End Steps.

(** C25: whatever Docker answers and however long it has gone on, a look at a
    replica makes at most one attempt to bring its container back.  The attempt
    after n of a run is made no sooner than the n-th delay after the last one;
    when the run is over (n is 0), no sooner than StableAfter after it, if there
    was one at all.  The attempt is counted, and the replica is crash-looping
    exactly when the delays are used up. *)
Theorem restarts_paced o world t s now a id : 0 ≤ StableAfter o ≤ maxDuration →
  reachable o world t s → t ≤ now → attempts id (take o world now a s).2.2 ≠ attempts id s.2 →
  attempts id (take o world now a s).2.2 = S (attempts id s.2) ∧
  ∃ st', states (take o world now a s).2.1 !! id = Some st' ∧ lastRestart st' = now ∧
    crashLoop st' = (Z.of_nat (List.length (RestartDelays o)) <=? restarts st') ∧
    match states s.1 !! id with
    | None => restarts st' = 1
    | Some st =>
        restarts st' = restarts st + 1 ∧
        (0 < restarts st → lastRestart st + delay o (restarts st) ≤ now) ∧
        (restarts st = 0 → lastRestart st = zero_time ∨ lastRestart st + StableAfter o ≤ now)
    end.
Proof.
  intros Hst Hr Ht Hn. assert (all_paced o now s.1) as H.
  { intros i st Hl. eapply paced_later, reachable_paced; eauto. }
  destruct (take_attempts o world Hst now a s id H) as [?|[H1 (dep & st' & H2 & [C1 C2 C3 C4 C5])]]; [done|].
  split; [done|]. exists st'. split_and!; [done..|]. unfold bookkeeping in *. by destruct (states s.1 !! id).
Qed.

Module PacedWitness.
Local Open Scope string_scope.
Definition app : App := mk_app "api" "shop/api:v1" 8080 "api.example.com" [] [] 1 ∅ None (mk_resources (GoFloat.mk_float 0 0) 0) [] [] [] []
  "" None [] None None None "" None None RestartAlways StrategyRolling 0 false None.
Definition deployment : Deployment :=
  mk_deployment 7 1 "api" 7 "v" "shop/api:v1" app DeployState.StatusActive "" 0 None KindDeploy None "" "" 0 0 SpecReferences.no_references.
Definition application : Application := mk_application 1 "api" DesiredRunning (Some 7) 0 0.
Definition replica : Replica := mk_replica 7 1 "c1" "api-1" 0.
Definition opts : options := mk_options [second; 2 * second; 5 * second; 10 * second; 30 * second] (5 * minute) minute second (10 * second).
(** A container that has exited with code 1 whenever Docker is asked. *)
Definition world (tr : list sevent) (c : scall) : sanswer c :=
  match c with
  | KDockerAnswers _ => None | KActiveDeployments => inl [] | KGetApplication _ => inl [] | KGetDeployment _ => inl [] | KListReplicas _ => inl []
  | KTryLock _ => true | KUnlock _ => tt
  | KInspect id => Found (mk_container id "api-1" "api" 7 1 "" false false 1 "" "exited")
  | KStartNameless _ => None | KRestartNameless _ _ => None | KDraining _ => false | KRetire _ _ => true | KRemove _ => None | KMarkRemoved _ => None
  | KEnsureReplicas _ _ => ([], None) | KLaunchProbe _ _ _ _ => tt | KProbeReplica _ _ => None | KCtxErr => None
  | KEvent _ _ _ => tt | KLog _ => tt | KArchive _ => tt | KCountRestart _ _ => tt | KNoteAlerts _ _ => tt | KNoteAvailability _ => tt
  | KForgetDown => tt | KForgetAlerts => tt | KSyncRoutes => None | KCheckProxyNetworks => tt
  end.
Definition down : step := Down application deployment replica.
Fixpoint run (times : list Z) (s : Effects.St supervisor sanswer) : Effects.St supervisor sanswer :=
  match times with [] => s | t :: r => run r (take opts world (t * second) down s).2 end.
Definition start : Effects.St supervisor sanswer := (mk_supervisor ∅ ∅ [] ∅ ∅, []).

Lemma run_reachable (times : list Z) : ∀ t s, reachable opts world (t * second) s → Forall (λ x, (t ≤ x)%Z) times → Sorted.StronglySorted Z.le times →
  reachable opts world (default t (last times) * second) (run times s).
Proof.
  induction times as [|x l IH]; intros t s Hs Hf Hsort; [done|]. simpl run. inversion Hsort as [|? ? Hl Hx]; subst. inversion Hf; subst.
  replace (default t (last (x :: l))) with (default x (last l)) by (rewrite last_cons; by destruct (last l)).
  apply IH; [|done|done]. apply (reachable_step opts world (t * second) (x * second) down s); [exact Hs|]. unfold second. lia.
Qed.
End PacedWitness.

(** The container is found down at 100 s, is started at 101 s, is found down
    again at 102 s and is started again at 104 s. *)
Lemma restarts_paced_witness :
  let s := PacedWitness.run [100; 101; 102; 103] PacedWitness.start in
  let s' := (take PacedWitness.opts PacedWitness.world (104 * second) PacedWitness.down s).2 in
  attempts "c1" s.2 = 1%nat ∧ attempts "c1" s'.2 = 2%nat ∧ ∃ st', states s'.1 !! "c1"%string = Some st' ∧ lastRestart st' = 104 * second.
Proof.
  split; [vm_compute; reflexivity|]. split; [vm_compute; reflexivity|].
  destruct (restarts_paced PacedWitness.opts PacedWitness.world (103 * second) (PacedWitness.run [100; 101; 102; 103] PacedWitness.start)
    (104 * second) PacedWitness.down "c1"%string) as [_ (st' & H1 & H2 & _)].
  - split; vm_compute; discriminate.
  - apply (PacedWitness.run_reachable [100; 101; 102; 103] 100); [by apply reachable_start|repeat constructor; lia|repeat constructor; lia].
  - vm_compute. discriminate.
  - vm_compute. discriminate.
  - exists st'. by split.
Defined.
