(* ===== verification/Routing.v ===== *)
(** * Routing (agent/internal/deploy/routing.go, and the Route of
    agent/internal/proxy/config.go)

    Who serves an application is decided by names on the services network; what
    the proxy is told is which name stands behind which part of which hostname.
    The state is a [router]: the rollouts in charge of a route, the names
    containers carry, and what was last said of the hostnames that are held back.
    The database, Docker, the DNS verdicts, the certificates and the proxy are
    reached through calls (Effects.v).  [routesFor] is a function of the plans,
    the containers and the names: the accounts of the hash cache and the DNS
    verdicts it reads are arguments. *)

From stdpp Require Import sorting.
From S2P Require Import Prelude GoStrings Effects GoTime SpecTypes SpecNames SpecValidate SpecReferences Store Rollout Supervisor.
From Stdlib Require Import String.
Local Open Scope string_scope.
Local Open Scope Z_scope.

(** ** Data *)

Record Backend := mk_backend { b_Name : string; b_Port : Z }.
Record account := mk_account { ac_Path : string; ac_Username : string; ac_Hash : string }.
Record Route := mk_route {
  rt_Domain : string; rt_Aliases : list string; rt_Redirects : list string; rt_Backends : list Backend; rt_Upstreams : list string;
  rt_StaticRoot : string; rt_StaticFallback : string; rt_Path : string; rt_StripPrefix : bool; rt_Headers : gmap string string;
  rt_BasicAuth : list account; rt_PathRedirects : list PathRedirect }.

#[export] Instance Backend_eq_dec : EqDecision Backend.
Proof. solve_decision. Defined.

(** A hostname with the deploy.yaml field that names it. *)
Inductive field := FDomain | FAlias (i : Z) | FRedirect (i : Z) | FPath.
Record namedHost := mk_named { nh_field : field; nh_host : string }.
Definition is_redirect (f : field) : bool := match f with FRedirect _ => true | _ => false end.

Fixpoint numbered {A} (f : Z → A → namedHost) (i : Z) (l : list A) : list namedHost :=
  match l with [] => [] | x :: r => f i x :: numbered f (i + 1) r end.
(** all lists every hostname with the field that names it. *)
Definition all (h : hostnames) : list namedHost :=
  ((if String.eqb (hn_domain h) "" then [] else [mk_named FDomain (hn_domain h)])
   ++ numbered (λ i a, mk_named (FAlias i) a) 0 (hn_aliases h)
   ++ numbered (λ i r, mk_named (FRedirect i) r) 0 (hn_redirects h))%list.
(** served are the hostnames the application serves itself: all but the redirects. *)
Definition served (h : hostnames) : list namedHost := filter (λ n, is_redirect (nh_field n) = false) (all h).
Definition hosts_list (h : hostnames) : list string := nh_host <$> all h.
(** part names one path of one hostname, the way the proxy tells paths apart. *)
Definition part (host path : string) : string := host ++ PathKey path.

Definition routeHostnames (r : Route) : list string := (rt_Domain r :: rt_Aliases r ++ rt_Redirects r)%list.

(** ** Who may claim a hostname *)

Record DomainConflictError := mk_conflict { e_Domain : string; e_Path : string; e_Field : field; e_Owner : text }.
Definition conflict_field (f : field) : text :=
  match f with FDomain => [L "domain"] | FPath => [L "path"] | FAlias i => [L "aliases["; D i; L "]"] | FRedirect i => [L "redirects["; D i; L "]"] end.
Definition Error (e : DomainConflictError) : text :=
  conflict_field (e_Field e) ++ [L ": "; S' (e_Domain e); S' (e_Path e); L " is already served by "] ++ e_Owner e.
Definition Message (e : DomainConflictError) : text :=
  match e_Field e with
  | FPath => [S' (e_Domain e); S' (e_Path e); L " is already served by "] ++ e_Owner e ++ [L "; applications share a domain under different paths"]
  | _ => if negb (String.eqb (e_Path e) "") then [S' (e_Domain e); S' (e_Path e); L " is already served by "] ++ e_Owner e
         else L "already served by " :: e_Owner e
  end.

(** What is taken: whole hostnames, parts of them, and the hostnames the parts
    belong to, each with an owner. *)
Record claims := mk_claims { whole : gmap string text; parts : gmap string text; shared : gmap string text }.
Definition no_claims : claims := mk_claims ∅ ∅ ∅.
Definition claim_app (name : string) (theirs : hostnames) (c : claims) : claims :=
  let owner := [L "application "; Q name] in
  mk_claims (foldl (λ m h, <[h := owner]> m) (whole c) (hn_redirects theirs))
            (foldl (λ m n, <[part (nh_host n) (hn_path theirs) := owner]> m) (parts c) (served theirs))
            (foldl (λ m n, <[nh_host n := owner]> m) (shared c) (served theirs)).
Definition claim_extra (c : claims) (r : Route) : claims :=
  mk_claims (foldl (λ m h, <[h := [L "Shipwick itself (the agent or the dashboard)"]]> m) (whole c) (routeHostnames r)) (parts c) (shared c).

(** The first of an application's hostnames that is taken. *)
Fixpoint conflict (c : claims) (mine : hostnames) (l : list namedHost) : option DomainConflictError :=
  match l with
  | [] => None
  | n :: rest =>
      match whole c !! nh_host n with
      | Some owner => Some (mk_conflict (nh_host n) "" (nh_field n) owner)
      | None =>
          if is_redirect (nh_field n) then
            match shared c !! nh_host n with
            | Some owner => Some (mk_conflict (nh_host n) "" (nh_field n) owner)
            | None => conflict c mine rest
            end
          else
            match parts c !! part (nh_host n) (hn_path mine) with
            | Some owner =>
                Some (mk_conflict (nh_host n) (hn_path mine)
                  (match nh_field n with FDomain => if String.eqb (hn_path mine) "" then FDomain else FPath | f => f end) owner)
            | None => conflict c mine rest
            end
      end
  end.

(** ** Names on the services network *)

Definition backendName (app : string) (port : Z) : string := app ++ "_" ++ itoa port.
Definition serviceNames (app : string) (port : Z) : list string := if port =? 0 then [] else [app; backendName app port].

(** isReady (views.go): it runs, and nothing is known against it. *)
Definition isReady (running : bool) (health : string) : bool :=
  running && (String.eqb health HealthNone || String.eqb health HealthUnknown || String.eqb health HealthHealthy).

(** ** Plans *)

Record routingPlan := mk_plan { pl_app : string; pl_appID : Z; pl_hosts : hostnames; pl_members : list routeMember; pl_staticRoot : string }.

Definition plannedHostnames (plans : list routingPlan) : list string := plans ≫= λ p, hosts_list (pl_hosts p).

(** Who should serve one application; [None] for one that is not deployed. *)
Definition plan_of (active : Active) (overrides : gmap string routeOverride) (app : Application) : option routingPlan :=
  match overrides !! app_Name app with
  | Some o => Some (mk_plan (app_Name app) (app_ID app) (o_hosts o) (o_members o) (default "" (o_staticRoot o)))
  | None =>
      match ac_Deployments active !! app_ID app with
      | None => None
      | Some dep =>
          let plan := mk_plan (app_Name app) (app_ID app) (hostnamesOf (d_Spec dep)) in
          Some (if negb (String.eqb (app_DesiredState app) DesiredRunning) then plan [] "" else
                if negb (String.eqb (d_StaticDigest dep) "") then plan [] (staticDir (app_Name app) (d_StaticDigest dep)) else
                plan ((λ r, mk_member r (a_Port (d_Spec dep))) <$> default [] (ac_Replicas active !! d_ID dep)) "")
      end
  end.
Definition plans_of (active : Active) (overrides : gmap string routeOverride) : list routingPlan :=
  omap (plan_of active overrides) (merge_sort name_le (ac_Applications active)).

(** ** What the proxy is told *)

(** [taken]: hostnames nobody else may have any part of; [served_parts]: the
    paths of hostnames that are served; [sharing]: the hostnames they belong to. *)
Record taken_parts := mk_taken { taken : gset string; served_parts : gset string; sharing : gset string }.

(** The subset of [hosts] a plan may serve under its path. *)
Fixpoint free (hosts : list string) (path : string) (t : taken_parts) : list string * taken_parts :=
  match hosts with
  | [] => ([], t)
  | h :: rest =>
      if bool_decide (h ∈ taken t) || bool_decide (part h path ∈ served_parts t) then free rest path t else
      let '(out, t') := free rest path (mk_taken (taken t) ({[part h path]} ∪ served_parts t) ({[h]} ∪ sharing t)) in
      (h :: out, t')
  end.
(** claim marks hosts as taken and returns the ones that were not already. *)
Fixpoint claim (hosts : list string) (t : gset string) : list string * gset string :=
  match hosts with
  | [] => ([], t)
  | h :: rest =>
      if bool_decide (h ∈ t) then claim rest t else
      let '(out, t') := claim rest ({[h]} ∪ t) in (h :: out, t')
  end.

Section RoutesFor.
Variable extra : list Route.                                      (* e.opts.ExtraRoutes *)
Variable ready : string → bool.                                   (* e.hostnameReady *)
Variable accounts : list BasicAuth → or_error (list account).     (* e.hashes.accounts *)
Variable names : gmap string (list string).                       (* e.names *)
Variable containers : gmap string Container.

Definition readyHosts (hosts : list string) : list string := filter (λ h, ready h = true) hosts.

(** The backends of a plan: a name only while a running replica carries it. *)
Definition add_backend (app : string) (out : list Backend) (m : routeMember) : list Backend :=
  match containers !! member_id m with
  | None => out
  | Some c =>
      let b := mk_backend (backendName app (m_port m)) (m_port m) in
      if c_Running c && contains (default [] (names !! c_ID c)) (b_Name b) && negb (bool_decide (b ∈ out)) then (out ++ [b])%list else out
  end.

(** One plan: its route, if it has one, and what is taken after it. *)
Definition route_of (p : routingPlan) (t : taken_parts) : option Route * taken_parts :=
  let h := pl_hosts p in
  if String.eqb (hn_domain h) "" then (None, t) else
  let '(mine, t) := free [hn_domain h] (hn_path h) t in
  if bool_decide (mine = []) then (None, t) else
  if negb (ready (hn_domain h)) then (None, t) else
  let redirects := filter (λ x, x ∉ sharing t) (readyHosts (hn_redirects h)) in
  let '(aliases, t) := free (readyHosts (hn_aliases h)) (hn_path h) t in
  let '(redirects, tk) := claim redirects (taken t) in
  let t := mk_taken tk (served_parts t) (sharing t) in
  let route strip headers auth preds :=
    mk_route (hn_domain h) aliases redirects (foldl (add_backend (pl_app p)) [] (pl_members p)) [] (pl_staticRoot p) (hn_fallback h) (hn_path h)
      strip headers auth preds in
  match hn_proxy h with
  | None => (Some (route false ∅ [] []), t)
  | Some px =>
      match accounts (px_BasicAuth px) with
      | inl _ => (None, t)
      | inr auth => (Some (route (px_StripPrefix px) (px_Headers px) auth (px_Redirects px)), t)
      end
  end.

Fixpoint routes_from (plans : list routingPlan) (t : taken_parts) : list Route :=
  match plans with
  | [] => []
  | p :: rest => let '(r, t') := route_of p t in (option_list r ++ routes_from rest t')%list
  end.

Definition extra_taken : gset string := foldl (λ t r, (claim (routeHostnames r) t).2) ∅ extra.
Definition routesFor (plans : list routingPlan) : list Route := (extra ++ routes_from plans (mk_taken extra_taken ∅ ∅))%list.
End RoutesFor.

(** describeRoutes: a one-line summary for the log. *)
Definition sorted (l : list string) : list string := merge_sort str_le l.
Definition describe_route (r : Route) : list string :=
  let behind := ((b_Name <$> rt_Backends r) ++ rt_Upstreams r ++ (if String.eqb (rt_StaticRoot r) "" then [] else ["files"]))%list in
  let behind := if bool_decide (behind = []) then ["503"] else sorted behind in
  (join "," ((λ h, h ++ rt_Path r) <$> (rt_Domain r :: rt_Aliases r)) ++ "→" ++ join "+" behind)%string
  :: ((λ h, h ++ "→308") <$> rt_Redirects r).
Definition describeRoutes (routes : list Route) : string := join " " (sorted (routes ≫= describe_route)).
Definition describeHeld (held : gmap string string) : string :=
  join "; " (sorted ((λ '(h, why), h ++ ": " ++ why) <$> map_to_list held)).

(** ** The operations of the engine *)

Record router := mk_router {
  overrides : gmap string routeOverride; names : gmap string (list string);
  heldBack : gmap string string; lastRoutes : string; lastHeld : string }.
Definition set_overrides f r := mk_router (f (overrides r)) (names r) (heldBack r) (lastRoutes r) (lastHeld r).
Definition set_names f r := mk_router (overrides r) (f (names r)) (heldBack r) (lastRoutes r) (lastHeld r).
Definition set_heldBack h r := mk_router (overrides r) (names r) h (lastRoutes r) (lastHeld r).
Definition set_lastRoutes s r := mk_router (overrides r) (names r) (heldBack r) s (lastHeld r).
Definition set_lastHeld s r := mk_router (overrides r) (names r) (heldBack r) (lastRoutes r) s.

(** [RComplete] is containerSnapshot.complete for the plans, [RVerdicts] the
    DNS verdicts as they stand (hostnameReady), [RAccounts] the hash cache. *)
Inductive rcall :=
  | RActive | RListApplications | RGetDeployment (id : Z) | RListContainers | RComplete (plans : list routingPlan)
  | RSupplied | RSetCertificates | RRefreshHostnames (hosts : list string) | RVerdicts | RCertificateNote (host : string) | RAccounts
  | RHealth (id : string) | RSetServiceNames (id : string) (l : list string) | RStart (id : string) | RStop (id : string) (grace : Duration)
  | RProxySync (routes : list Route) | RAppEvent (appID : Z) (app : string) (msg : string) | RLog (msg : string) | RExplainUnserved.

Definition ranswer (c : rcall) : Type :=
  match c with
  | RActive => or_error Active
  | RListApplications => or_error (list Application)
  | RGetDeployment _ => or_error Deployment
  | RListContainers => or_error (list Container)
  | RComplete _ => or_error (gmap string Container)
  | RSupplied | RSetServiceNames _ _ | RStart _ | RStop _ _ | RProxySync _ => error
  | RVerdicts => string → bool * string
  | RAccounts => list BasicAuth → or_error (list account)
  | RCertificateNote _ => string
  | RHealth _ => string * bool
  | _ => unit
  end.
Abbreviation RM := (Effects.M router ranswer).

Section Router.
Variable world : list (Effects.happened ranswer) → ∀ c, ranswer c.
Variable hasProxy : bool.          (* e.opts.Proxy != nil *)
Variable extra : list Route.       (* e.opts.ExtraRoutes *)
Local Abbreviation perform := (Effects.perform world).

Definition routeVia (app : string) (o : routeOverride) : RM unit := mset (set_overrides (insert app o)).
Definition clearRouteOverride (app : string) : RM unit := mset (set_overrides (delete app)).
(** serving reports who serves the application while a rollout is in charge of it. *)
Definition serving (r : router) (app : string) : option routeOverride := overrides r !! app.

(** checkDomain refuses a hostname that is already taken. *)
Fixpoint claim_all (self : string) (apps : list Application) (c : claims) : RM (or_error claims) :=
  match apps with
  | [] => ok c
  | other :: rest =>
      match app_ActiveDeploymentID other with
      | None => claim_all self rest c
      | Some id =>
          if String.eqb (app_Name other) self then claim_all self rest c else
          try! dep := perform (RGetDeployment id) in
          claim_all self rest (claim_app (app_Name other) (hostnamesOf (d_Spec dep)) c)
      end
  end.
Definition checkDomain (app : App) : RM (or_error (option DomainConflictError)) :=
  let mine := hostnamesOf app in
  if bool_decide (all mine = []) then ok None else
  try! apps := perform RListApplications in
  try! c := claim_all (a_Name app) apps no_claims in
  ok (conflict (foldl claim_extra c extra) mine (all mine)).

(** setNames makes names what the container answers to, if it is not already. *)
Definition setNames (id : string) (l : list string) : RM (or_error unit) :=
  let! r := mget (λ r, r) in
  if bool_decide (default [] (names r !! id) = l) then ok tt else
  try! _ := checked (perform (RSetServiceNames id l)) in
  let! _ := mset (set_names (if bool_decide (l = []) then delete id else insert id l)) in ok tt.
Definition forgetNames (existing : gmap string Container) : RM unit :=
  mset (set_names (filter (λ '(id, _), is_Some (existing !! id)))).

(** startNameless starts a container that exists already, without the names it may still carry. *)
Definition startNameless (id : string) : RM (or_error unit) :=
  try! _ := setNames id [] in checked (perform (RStart id)).
Definition restartNameless (id : string) (timeout : Duration) : RM (or_error unit) :=
  try! _ := checked (perform (RStop id timeout)) in startNameless id.

Definition routingPlans : RM (or_error (list routingPlan)) :=
  try! active := perform RActive in
  let! o := mget overrides in
  ok (plans_of active o).

Definition listContainers : RM (or_error (gmap string Container)) :=
  try! l := perform RListContainers in ok (foldl (λ m c, <[c_ID c := c]> m) ∅ l).

(** A member of a plan carries its names exactly while it is ready; the
    failures so far come first. *)
Definition name_member (containers : gmap string Container) (app : string) (failures : list text) (m : routeMember) : RM (list text) :=
  match containers !! member_id m with
  | None => mret failures
  | Some c =>
      if negb (c_Running c) then mret failures else
      let! (health, _) := perform (RHealth (c_ID c)) in
      let! e := setNames (c_ID c) (if isReady true health then serviceNames app (m_port m) else []) in
      mret (match e with inl err => (failures ++ [L "replica " :: S' (c_Name c) :: L ": " :: err])%list | inr _ => failures end)
  end.
Fixpoint name_members (containers : gmap string Container) (app : string) (l : list routeMember) (failures : list text) : RM (list text) :=
  match l with
  | [] => mret failures
  | m :: rest => let! failures := name_member containers app failures m in name_members containers app rest failures
  end.
Fixpoint name_plans (containers : gmap string Container) (plans : list routingPlan) (failures : list text) : RM (list text) :=
  match plans with
  | [] => mret failures
  | p :: rest => let! failures := name_members containers (pl_app p) (pl_members p) failures in name_plans containers rest failures
  end.

(** noteHeldBack: an event the moment a hostname starts pointing here. *)
Fixpoint held_hosts (verdict : string → bool * string) (p : routingPlan) (was : gmap string string) (hosts : list string) (held : gmap string string)
  : RM (gmap string string) :=
  match hosts with
  | [] => mret held
  | h :: rest =>
      let '(ready, why) := verdict h in
      if negb ready then held_hosts verdict p was rest (<[h := why]> held) else
      let! _ := match was !! h with
                | None => mret tt
                | Some _ =>
                    let! note := perform (RCertificateNote h) in
                    let now := if String.eqb note "" then "now points at this server and is being served" else ("is now served" ++ note)%string in
                    perform (RAppEvent (pl_appID p) (pl_app p) (h ++ " " ++ now)%string)
                end in
      held_hosts verdict p was rest held
  end.
Fixpoint held_plans (verdict : string → bool * string) (was : gmap string string) (plans : list routingPlan) (held : gmap string string)
  : RM (gmap string string) :=
  match plans with
  | [] => mret held
  | p :: rest => let! held := held_hosts verdict p was (hosts_list (pl_hosts p)) held in held_plans verdict was rest held
  end.
Definition noteHeldBack (verdict : string → bool * string) (plans : list routingPlan) : RM unit :=
  let! was := mget heldBack in
  let! held := held_plans verdict was plans ∅ in
  let! _ := mset (set_heldBack held) in
  let! last := mget lastHeld in
  let now := describeHeld held in
  if String.eqb now last then mret tt else
  let! _ := perform (RLog (if String.eqb now "" then "every hostname points at this server" else "hostnames waiting for DNS are not served yet: " ++ now)) in
  mset (set_lastHeld now).

(** syncRoutes: [snap] says that the supervisor's list is to be worked from.
    The failures are joined. *)
Definition syncRoutes (snap : bool) : RM (or_error (list text)) :=
  try! _ := (if hasProxy then
               let! _ := perform RSupplied in
               try! plans := mwrap [L "compute routes: "] routingPlans in
               let! _ := perform (RRefreshHostnames (plannedHostnames plans)) in ok tt
             else ok tt) in
  try! plans := mwrap [L "compute routes: "] routingPlans in
  try! containers := mwrap [L "compute routes: "] (if snap then perform (RComplete plans) else listContainers) in
  let! _ := forgetNames containers in
  let! failures := name_plans containers plans [] in
  if negb hasProxy then ok failures else
  let! verdict := perform RVerdicts in
  let! accounts := perform RAccounts in
  let! names := mget names in
  let routes := routesFor extra (λ h, (verdict h).1) accounts names containers plans in
  let! _ := noteHeldBack verdict plans in
  let! last := mget lastRoutes in
  let now := describeRoutes routes in
  let! _ := (if String.eqb now last then mret tt else
             let! _ := perform (RLog ("proxy routes changed: " ++ now)) in
             let! _ := mset (set_lastRoutes now) in
             perform RExplainUnserved) in
  let! supplied := perform RSupplied in
  match supplied with
  | Some err => ok (failures ++ [L "read certificates: " :: err])%list
  | None =>
      let! _ := perform RSetCertificates in
      let! e := perform (RProxySync routes) in
      ok (match e with Some err => failures ++ [err] | None => failures end)%list
  end.
End Router.
