(* ===== verification/RoutingInv.v ===== *)
(** * What is routed

    The routes the proxy is told never give one part of a hostname to two
    applications, whatever is deployed; and hostnames that checkDomain accepted
    are all served. *)

From stdpp Require Import sorting.
From S2P Require Import Prelude GoStrings Effects GoTime SpecTypes SpecNames SpecValidate SpecReferences Store Rollout Supervisor Routing.
From Stdlib Require Import String.
Local Open Scope Z_scope.

Lemma free_spec hosts path : ∀ t out t', free hosts path t = (out, t') →
  out ⊆ hosts ∧ taken t' = taken t ∧
  served_parts t' ≡ served_parts t ∪ list_to_set ((λ h, part h path) <$> out) ∧ sharing t' ≡ sharing t ∪ list_to_set out ∧
  NoDup ((λ h, part h path) <$> out) ∧
  (∀ h, h ∈ out → (h ∉ taken t) ∧ (part h path ∉ served_parts t)) ∧
  (∀ h, h ∈ hosts → h ∈ taken t ∨ part h path ∈ served_parts t').
Proof.
  induction hosts as [|h hosts IH]; intros t out t' H; simpl in H.
  { injection H as <- <-. split_and!; [done|done|set_solver|set_solver|constructor|set_solver|set_solver]. }
  destruct (bool_decide (h ∈ taken t) || bool_decide (part h path ∈ served_parts t)) eqn:E.
  - destruct (IH _ _ _ H) as (H1 & H2 & H3 & H4 & H5 & H6 & H7). split_and!; [set_solver|done|done|done|done|done|].
    intros x [->|Hx]%elem_of_cons; [|by apply H7]. apply orb_true_iff in E as [E|E]; apply bool_decide_eq_true in E; [by left|right; set_solver].
  - apply orb_false_iff in E as [E1%bool_decide_eq_false E2%bool_decide_eq_false].
    destruct (free hosts path _) as [out1 t1] eqn:Ef. injection H as <- <-.
    destruct (IH _ _ _ Ef) as (H1 & H2 & H3 & H4 & H5 & H6 & H7). simpl in *.
    split_and!; [clear -H1; set_solver|done|clear -H3; set_solver|clear -H4; set_solver| | |].
    + constructor; [|done]. intros (x & Hx & Hin)%list_elem_of_fmap. destruct (H6 _ Hin) as [_ Hn]. rewrite <- Hx in Hn. set_solver.
    + intros x [->|Hx]%elem_of_cons; [done|]. destruct (H6 _ Hx) as [? ?]. split; [done|set_solver].
    + intros x [->|Hx]%elem_of_cons; [right; set_solver|by apply H7].
Qed.

Lemma claim_spec hosts : ∀ t out t', claim hosts t = (out, t') →
  out ⊆ hosts ∧ t' ≡ t ∪ list_to_set hosts ∧ NoDup out ∧ (∀ h, h ∈ out → h ∉ t) ∧ (∀ h, h ∈ out → h ∈ t').
Proof.
  induction hosts as [|h hosts IH]; intros t out t' H; simpl in H.
  { injection H as <- <-. split_and!; [done|set_solver|constructor|set_solver|set_solver]. }
  case_bool_decide as E.
  - destruct (IH _ _ _ H) as (H1 & H2 & H3 & H4 & H5). split_and!; [set_solver|set_solver|done|done|done].
  - destruct (claim hosts _) as [out1 t1] eqn:Ef. injection H as <- <-. destruct (IH _ _ _ Ef) as (H1 & H2 & H3 & H4 & H5).
    split_and!; [set_solver|set_solver| |set_solver|set_solver]. constructor; [|done]. intros Hin. apply (H4 _ Hin). set_solver.
Qed.

(** The hostnames a route serves, and its parts of them. *)
Definition served_by (r : Route) : list string := rt_Domain r :: rt_Aliases r.
Definition parts_of (r : Route) : list string := (λ h, part h (rt_Path r)) <$> served_by r.

(** The redirects of a specification are not among its own aliases: validated. *)
Definition own_distinct (p : routingPlan) : Prop := ∀ h, h ∈ hn_redirects (pl_hosts p) → h ∉ hn_aliases (pl_hosts p).

Section Routes.
Context (ready : string → bool) (accounts : list BasicAuth → or_error (list account)).
Context (names : gmap string (list string)) (containers : gmap string Container).
Local Abbreviation route_of := (route_of ready accounts names containers).
Local Abbreviation routes_from := (routes_from ready accounts names containers).

(** What is taken only grows. *)
Definition grows (t t' : taken_parts) : Prop := taken t ⊆ taken t' ∧ served_parts t ⊆ served_parts t' ∧ sharing t ⊆ sharing t'.
#[local] Instance grows_preorder : PreOrder grows.
Proof. split; [done|]. intros t t' t'' (?&?&?) (?&?&?). split_and!; by etrans. Qed.

(** A route takes nothing that was taken, and what it takes is taken after it. *)
Record fits (t t' : taken_parts) (r : Route) : Prop := {
  f_served : ∀ h, h ∈ served_by r → ready h = true ∧ (h ∉ taken t) ∧ (part h (rt_Path r) ∉ served_parts t) ∧
               part h (rt_Path r) ∈ served_parts t' ∧ h ∈ sharing t';
  f_redirects : ∀ h, h ∈ rt_Redirects r → ready h = true ∧ (h ∉ taken t) ∧ (h ∉ sharing t) ∧ h ∈ taken t';
  f_parts : NoDup (parts_of r);
  f_once : NoDup (rt_Redirects r);
  f_apart : ∀ h, h ∈ rt_Redirects r → h ∉ served_by r }.

Lemma route_of_spec p t : own_distinct p → grows t (route_of p t).2 ∧ ∀ r, (route_of p t).1 = Some r → fits t (route_of p t).2 r.
Proof.
  intros Hown. unfold Routing.route_of. set (h := pl_hosts p). destruct (String.eqb_spec (hn_domain h) ""); [done|].
  destruct (free [hn_domain h] (hn_path h) t) as [mine t1] eqn:E1. destruct (free_spec _ _ _ _ _ E1) as (A1 & A2 & A3 & A4 & A5 & A6 & A7).
  assert (grows t t1) as G1 by (split_and!; set_solver). case_bool_decide as Em; [done|].
  destruct (ready (hn_domain h)) eqn:Er; cbn [negb]; [|done].
  assert (mine = [hn_domain h]) as ->.
  { simpl in E1. destruct (_ || _); injection E1 as <- <-; done. }
  destruct (free (readyHosts ready (hn_aliases h)) (hn_path h) t1) as [aliases t2] eqn:E2.
  destruct (free_spec _ _ _ _ _ E2) as (B1 & B2 & B3 & B4 & B5 & B6 & B7).
  destruct (claim _ (taken t2)) as [redirects tk] eqn:E3. destruct (claim_spec _ _ _ _ E3) as (C1 & C2 & C3 & C4 & C5).
  set (t3 := mk_taken tk _ _). assert (grows t t3) as G3 by (unfold t3; destruct G1 as (?&?&?); split_and!; simpl; set_solver).
  assert (∀ strip headers auth preds,
    fits t t3 (mk_route (hn_domain h) aliases redirects (foldl (add_backend names containers (pl_app p)) [] (pl_members p)) [] (pl_staticRoot p) (hn_fallback h)
                 (hn_path h) strip headers auth preds)) as Hf.
  { intros strip headers auth preds. constructor; cbn [served_by rt_Domain rt_Aliases rt_Path rt_Redirects].
    - intros x [->|Hx]%elem_of_cons.
      + destruct (A6 (hn_domain h)) as [? ?]; [by left|]. unfold t3. simpl. split_and!; [done|done|done|set_solver|set_solver].
      + destruct (B6 x Hx) as [? ?]. specialize (B1 x Hx). apply list_elem_of_filter in B1 as [Hrx _].
        unfold t3. simpl. split_and!; [done|set_solver|set_solver|set_solver|set_solver].
    - intros x Hx. specialize (C1 x Hx). apply list_elem_of_filter in C1 as [Hs Hrx]. apply list_elem_of_filter in Hrx as [Hrx _].
      specialize (C4 x Hx). specialize (C5 x Hx). unfold t3. simpl. split_and!; [done|set_solver|set_solver|done].
    - change (NoDup (part (hn_domain h) (hn_path h) :: ((λ x, part x (hn_path h)) <$> aliases))). constructor; [|done].
      intros (x & Hx & Hin)%list_elem_of_fmap. destruct (B6 x Hin) as [_ Hn]. rewrite <- Hx in Hn. set_solver.
    - done.
    - intros x Hx. specialize (C1 x Hx). apply list_elem_of_filter in C1 as [Hs Hrx]. apply list_elem_of_filter in Hrx as [_ Hrx].
      intros [->|Ha]%elem_of_cons; [set_solver|]. specialize (B1 x Ha). apply list_elem_of_filter in B1 as [_ B1]. by apply (Hown x). }
  destruct (hn_proxy h) as [px|].
  - destruct (accounts (px_BasicAuth px)) as [e|auth]; cbn [fst snd]; (split; [done|]); [done|]. intros r [= <-]. apply Hf.
  - cbn [fst snd]. split; [done|]. intros r [= <-]. apply Hf.
Qed.

(** A list of routes among which nothing is given twice. *)
Record exclusive (rs : list Route) : Prop := {
  x_parts : NoDup (rs ≫= parts_of);
  x_redirects : NoDup (rs ≫= rt_Redirects);
  x_apart : ∀ h, h ∈ rs ≫= rt_Redirects → h ∉ rs ≫= served_by }.

Lemma routes_from_spec plans : ∀ t, Forall own_distinct plans →
  exclusive (routes_from plans t) ∧
  (∀ r h, r ∈ routes_from plans t → h ∈ served_by r → ready h = true ∧ (h ∉ taken t) ∧ (part h (rt_Path r) ∉ served_parts t)) ∧
  (∀ r h, r ∈ routes_from plans t → h ∈ rt_Redirects r → ready h = true ∧ (h ∉ taken t) ∧ (h ∉ sharing t)).
Proof.
  induction plans as [|p plans IH]; intros t Hown; cbn [Routing.routes_from].
  { split_and!; [constructor; [constructor|constructor|set_solver]|set_solver|set_solver]. }
  inversion Hown as [|? ? Hp Hps]; subst. destruct (route_of_spec p t Hp) as [(G1 & G2 & G3) Hf].
  destruct (route_of p t) as [ro t1]. cbn [fst snd] in *. destruct (IH t1 Hps) as ([X1 X2 X3] & Hserved & Hred). clear IH.
  destruct ro as [r|]; [change (option_list (Some r) ++ routes_from plans t1)%list with (r :: routes_from plans t1)|split_and!; [done| |]; intros r h H1 H2; [destruct (Hserved r h H1 H2) as (?&?&?)|destruct (Hred r h H1 H2) as (?&?&?)]; split_and!; try done; set_solver].
  destruct (Hf r eq_refl) as [F1 F2 F3 F4 F5]. split_and!.
  - constructor.
    + rewrite bind_cons. apply NoDup_app. split_and!; [done| |done]. intros x (h & -> & Hh)%list_elem_of_fmap (r' & (h' & E & Hh')%list_elem_of_fmap & Hr')%list_elem_of_bind.
      destruct (Hserved r' h' Hr' Hh') as (_ & _ & Hn). destruct (F1 h Hh) as (_ & _ & _ & Hin & _). congruence.
    + rewrite bind_cons. apply NoDup_app. split_and!; [done| |done]. intros x Hx (r' & Hh' & Hr')%list_elem_of_bind.
      destruct (Hred r' x Hr' Hh') as (_ & Hn & _). by destruct (F2 x Hx) as (_ & _ & _ & Hin).
    + intros x. rewrite !bind_cons. intros [Hx|Hx]%elem_of_app [Hs|Hs]%elem_of_app.
      * by apply (F5 x).
      * apply list_elem_of_bind in Hs as (r' & Hh' & Hr'). destruct (Hserved r' x Hr' Hh') as (_ & Hn & _). by destruct (F2 x Hx) as (_ & _ & _ & Hin).
      * apply list_elem_of_bind in Hx as (r' & Hh' & Hr'). destruct (Hred r' x Hr' Hh') as (_ & _ & Hn). by destruct (F1 x Hs) as (_ & _ & _ & _ & Hin).
      * by apply (X3 x).
  - intros r' h [->|H1]%elem_of_cons H2; [by destruct (F1 h H2) as (?&?&?&_)|]. destruct (Hserved r' h H1 H2) as (?&?&?). split_and!; [done|set_solver|set_solver].
  - intros r' h [->|H1]%elem_of_cons H2; [by destruct (F2 h H2) as (?&?&?&_)|]. destruct (Hred r' h H1 H2) as (?&?&?). split_and!; [done|set_solver|set_solver].
Qed.
End Routes.

(** ** Nothing is given twice *)

Lemma extra_taken_all extra : ∀ e h, e ∈ extra → h ∈ routeHostnames e → h ∈ extra_taken extra.
Proof.
  unfold extra_taken. generalize (∅ : gset string) as t.
  assert (∀ l (t : gset string), t ⊆ foldl (λ t r, (claim (routeHostnames r) t).2) t l) as Hmono.
  { induction l as [|r l IH]; intros t; [done|]. cbn [foldl]. etrans; [|apply IH].
    destruct (claim_spec (routeHostnames r) t _ _ (surjective_pairing _)) as (_ & -> & _). apply union_subseteq_l. }
  induction extra as [|x extra IH]; intros t e h He Hh; [by apply elem_of_nil in He|]. apply elem_of_cons in He as [->|He]; cbn [foldl]; [|by eapply IH].
  apply Hmono. destruct (claim_spec (routeHostnames x) t _ _ (surjective_pairing _)) as (_ & -> & _). apply elem_of_union. right. by apply elem_of_list_to_set.
Qed.

Lemma extra_taken_inv extra h : h ∈ extra_taken extra → ∃ e, e ∈ extra ∧ h ∈ routeHostnames e.
Proof.
  unfold extra_taken. assert (∀ (t : gset string), h ∈ foldl (λ t r, (claim (routeHostnames r) t).2) t extra → h ∈ t ∨ ∃ e, e ∈ extra ∧ h ∈ routeHostnames e) as H.
  { induction extra as [|r l IH]; intros t Hh; [by left|]. cbn [foldl] in Hh. apply IH in Hh as [Hh|(e & ? & ?)]; [|right; exists e; split; [by right|done]].
    destruct (claim_spec (routeHostnames r) t _ _ (surjective_pairing _)) as (_ & E & _). rewrite E in Hh.
    apply elem_of_union in Hh as [?|Hh]; [by left|right]. apply elem_of_list_to_set in Hh. exists r. split; [by left|done]. }
  intros Hh. destruct (H ∅ Hh) as [?|?]; [set_solver|done].
Qed.

(** C6: whatever is deployed, and whatever the DNS verdicts, the accounts and
    the containers are: no two routes of applications have a part of a hostname
    (the hostname with a path, whose case does not count) in common, nor a
    redirect, nor is a hostname both served and redirected; each of their
    hostnames points at this server, and none is Shipwick's own.  It is enough
    that no application redirects one of its own aliases, which its validation
    has seen to. *)
Theorem routes_exclusive extra ready accounts names containers plans : Forall own_distinct plans →
  let mine := routes_from ready accounts names containers plans (mk_taken (extra_taken extra) ∅ ∅) in
  routesFor extra ready accounts names containers plans = (extra ++ mine)%list ∧ exclusive mine ∧
  ∀ r h, r ∈ mine → h ∈ served_by r ∨ h ∈ rt_Redirects r → ready h = true ∧ ∀ e, e ∈ extra → h ∉ routeHostnames e.
Proof.
  intros Hown mine. split; [done|].
  destruct (routes_from_spec ready accounts names containers plans (mk_taken (extra_taken extra) ∅ ∅) Hown) as (Hx & Hs & Hr).
  split; [done|]. intros r h Hin Hh. assert (ready h = true ∧ (h ∉ extra_taken extra)) as [H1 H2].
  { destruct Hh as [Hh|Hh]; [destruct (Hs r h Hin Hh) as (?&?&_)|destruct (Hr r h Hin Hh) as (?&?&_)]; done. }
  split; [done|]. intros e He Hhe. by eapply H2, extra_taken_all.
Qed.

(** ** What was accepted is served *)

Lemma numbered_hosts f i l : (∀ i a, nh_host (f i a) = a) → nh_host <$> numbered f i l = l.
Proof. intros H. revert i. induction l as [|a l IH]; intros i; [done|]. simpl. by rewrite H, IH. Qed.
Lemma numbered_field (P : field → Prop) f i (l : list string) n : (∀ i a, P (nh_field (f i a))) → n ∈ numbered f i l → P (nh_field n).
Proof. intros H. revert i. induction l as [|a l IH]; intros i Hn; [by apply elem_of_nil in Hn|]. apply elem_of_cons in Hn as [->|Hn]; [apply H|by eapply IH]. Qed.

Definition domain_list (h : hostnames) : list string := if String.eqb (hn_domain h) "" then [] else [hn_domain h].
Lemma all_hosts h : hosts_list h = (domain_list h ++ hn_aliases h ++ hn_redirects h)%list.
Proof. unfold hosts_list, all, domain_list. rewrite !fmap_app, !numbered_hosts by done. by destruct (String.eqb _ _). Qed.
Lemma served_all h : served h = ((if String.eqb (hn_domain h) "" then [] else [mk_named FDomain (hn_domain h)]) ++ numbered (λ i a, mk_named (FAlias i) a) 0 (hn_aliases h))%list.
Proof.
  unfold served, all. rewrite !filter_app.
  assert (∀ i l, filter (λ n, is_redirect (nh_field n) = false) (numbered (λ i a, mk_named (FAlias i) a) i l) = numbered (λ i a, mk_named (FAlias i) a) i l) as ->.
  { intros i l. revert i. induction l as [|a l IH]; intros i; [done|]. simpl. rewrite filter_cons, decide_True by done. by rewrite IH. }
  assert (∀ i l, filter (λ n, is_redirect (nh_field n) = false) (numbered (λ i a, mk_named (FRedirect i) a) i l) = []) as ->.
  { intros i l. revert i. induction l as [|a l IH]; intros i; [done|]. simpl. rewrite filter_cons, decide_False by done. by rewrite IH. }
  rewrite app_nil_r. by destruct (String.eqb _ _).
Qed.
Lemma served_hosts h : nh_host <$> served h = (domain_list h ++ hn_aliases h)%list.
Proof. rewrite served_all, fmap_app, numbered_hosts by done. unfold domain_list. by destruct (String.eqb _ _). Qed.

Lemma foldl_insert_none {A} (f : A → string) (v : text) (l : list A) : ∀ (m : gmap string text) k,
  foldl (λ m x, <[f x := v]> m) m l !! k = None ↔ m !! k = None ∧ k ∉ f <$> l.
Proof.
  induction l as [|x l IH]; intros m k; simpl; [set_solver|]. rewrite IH, lookup_insert_None. set_solver.
Qed.

Lemma conflict_none c mine l : conflict c mine l = None → ∀ n, n ∈ l →
  whole c !! nh_host n = None ∧
  if is_redirect (nh_field n) then shared c !! nh_host n = None else parts c !! part (nh_host n) (hn_path mine) = None.
Proof.
  induction l as [|x l IH]; intros H n Hn; [by apply elem_of_nil in Hn|]. cbn [conflict] in H.
  destruct (whole c !! nh_host x) eqn:E1; [done|]. apply elem_of_cons in Hn as [->|Hn].
  - split; [done|]. by destruct (is_redirect (nh_field x)); [destruct (shared c !! _)|destruct (parts c !! _)].
  - apply IH; [|done]. by destruct (is_redirect (nh_field x)); [destruct (shared c !! _)|destruct (parts c !! _)].
Qed.

(** checkDomain accepts a plan's hostnames next to another application's; and
    next to Shipwick's own. *)
Definition accepted (mine theirs : routingPlan) : Prop :=
  conflict (claim_app (pl_app theirs) (pl_hosts theirs) no_claims) (pl_hosts mine) (all (pl_hosts mine)) = None.
Definition clear_of (extra : list Route) (p : routingPlan) : Prop :=
  conflict (foldl claim_extra no_claims extra) (pl_hosts p) (all (pl_hosts p)) = None.

Definition served_list (p : routingPlan) : list string := (domain_list (pl_hosts p) ++ hn_aliases (pl_hosts p))%list.
Definition redirects_of (p : routingPlan) : list string := hn_redirects (pl_hosts p).
Definition plan_parts (p : routingPlan) : list string := (λ h, part h (hn_path (pl_hosts p))) <$> served_list p.
(** Two applications that leave each other alone. *)
Definition apart (p q : routingPlan) : Prop :=
  (∀ h, h ∈ served_list p → h ∉ redirects_of q) ∧ (∀ h, h ∈ redirects_of p → h ∉ served_list q) ∧
  (∀ h, h ∈ redirects_of p → h ∉ redirects_of q) ∧ (∀ x, x ∈ plan_parts p → x ∉ plan_parts q).
#[local] Instance apart_sym : Symmetric apart.
Proof. intros p q (H1 & H2 & H3 & H4). split_and!; intros h Hp Hq; [by apply (H2 h)|by apply (H1 h)|by apply (H3 h)|by apply (H4 h)]. Qed.

Lemma all_named p h : h ∈ served_list p → ∃ n, n ∈ all (pl_hosts p) ∧ nh_host n = h ∧ is_redirect (nh_field n) = false.
Proof.
  unfold served_list. rewrite <- served_hosts. intros (n & -> & Hn)%list_elem_of_fmap. exists n.
  unfold served in Hn. apply list_elem_of_filter in Hn as [? ?]. done.
Qed.
Lemma all_redirected p h : h ∈ redirects_of p → ∃ n, n ∈ all (pl_hosts p) ∧ nh_host n = h ∧ is_redirect (nh_field n) = true.
Proof.
  unfold redirects_of. intros Hh. rewrite <- (numbered_hosts (λ i r, mk_named (FRedirect i) r) 0 (hn_redirects (pl_hosts p))) in Hh by done.
  apply list_elem_of_fmap in Hh as (n & -> & Hn). exists n. split_and!; [|done|].
  - unfold all. apply elem_of_app. right. apply elem_of_app. by right.
  - by apply (numbered_field (λ f, is_redirect f = true) (λ i r, mk_named (FRedirect i) r) 0 (hn_redirects (pl_hosts p))).
Qed.

Lemma accepted_apart p q : accepted p q → apart p q.
Proof.
  intros H. pose proof (conflict_none _ _ _ H) as Hn. clear H. unfold claim_app in Hn. cbn [whole shared parts no_claims] in Hn.
  assert (∀ n, n ∈ all (pl_hosts p) → nh_host n ∉ redirects_of q) as Hred.
  { intros n Hin. destruct (Hn n Hin) as [H _]. apply foldl_insert_none in H as [_ H]. by rewrite list_fmap_id in H. }
  split_and!.
  - intros h (n & Hin & <- & _)%all_named. by apply Hred.
  - intros h (n & Hin & <- & Hf)%all_redirected. destruct (Hn n Hin) as [_ H]. rewrite Hf in H.
    apply foldl_insert_none in H as [_ H]. by rewrite served_hosts in H.
  - intros h (n & Hin & <- & _)%all_redirected. by apply Hred.
  - intros x (h & -> & (n & Hin & <- & Hf)%all_named)%list_elem_of_fmap. destruct (Hn n Hin) as [_ H]. rewrite Hf in H.
    apply foldl_insert_none in H as [_ H]. unfold plan_parts, served_list. rewrite <- served_hosts, <- list_fmap_compose. exact H.
Qed.

Lemma clear_of_extra extra p : clear_of extra p → ∀ h, h ∈ hosts_list (pl_hosts p) → ∀ e, e ∈ extra → h ∉ routeHostnames e.
Proof.
  intros H h (n & -> & Hin)%list_elem_of_fmap. destruct (conflict_none _ _ _ H n Hin) as [Hw _]. clear H. revert Hw.
  assert (∀ l c, whole (foldl claim_extra c l) !! nh_host n = None → whole c !! nh_host n = None ∧ ∀ e, e ∈ l → nh_host n ∉ routeHostnames e) as Hl.
  { induction l as [|r l IH]; intros c Hc; [split; [done|set_solver]|]. cbn [foldl] in Hc. apply IH in Hc as [Hc Hs].
    unfold claim_extra in Hc. cbn [whole] in Hc. apply (foldl_insert_none id) in Hc as [Hc Hr]. rewrite list_fmap_id in Hr.
    split; [done|]. intros e [->|He]%elem_of_cons; [done|by apply Hs]. }
  intros Hw. by apply (Hl extra no_claims).
Qed.

Lemma append_cancel (s a b : string) : (a ++ s = b ++ s)%string → a = b.
Proof.
  assert (∀ (x y : string), String.length (x ++ y) = (String.length x + String.length y)%nat) as Hlen.
  { intros x y. induction x; simpl; congruence. }
  revert b. induction a as [|c a IH]; intros [|c' b] H; [done| | |].
  - apply (f_equal String.length) in H. rewrite !Hlen in H. simpl in H. lia.
  - apply (f_equal String.length) in H. rewrite !Hlen in H. simpl in H. lia.
  - simpl in H. injection H as -> H. by rewrite (IH b).
Qed.

Lemma free_all hosts path : ∀ t, NoDup hosts → (∀ h, h ∈ hosts → (h ∉ taken t) ∧ (part h path ∉ served_parts t)) →
  (free hosts path t).1 = hosts.
Proof.
  induction hosts as [|h hosts IH]; intros t Hnd Hf; [done|]. inversion Hnd as [|? ? Hh Hnd']; subst. cbn [free].
  destruct (Hf h) as [H1 H2]; [by left|]. rewrite !bool_decide_eq_false_2 by done. cbn [orb].
  specialize (IH (mk_taken (taken t) ({[part h path]} ∪ served_parts t) ({[h]} ∪ sharing t)) Hnd').
  destruct (free hosts path _) as [out t'] eqn:E. cbn [fst] in *. rewrite IH; [done|]. intros x Hx. cbn [taken served_parts].
  destruct (Hf x) as [H3 H4]; [by right|]. split; [done|]. intros [Hp|Hp]%elem_of_union; [|done].
  apply elem_of_singleton, append_cancel in Hp. by subst.
Qed.
Lemma claim_full hosts : ∀ t, NoDup hosts → (∀ h, h ∈ hosts → h ∉ t) → (claim hosts t).1 = hosts.
Proof.
  induction hosts as [|h hosts IH]; intros t Hnd Hf; [done|]. inversion Hnd as [|? ? Hh Hnd']; subst. cbn [claim].
  rewrite bool_decide_eq_false_2 by (apply Hf; by left). specialize (IH ({[h]} ∪ t) Hnd').
  destruct (claim hosts _) as [out t'] eqn:E. cbn [fst] in *. rewrite IH; [done|]. intros x Hx [Hp|Hp]%elem_of_union; [|by apply (Hf x); [right|]].
  apply elem_of_singleton in Hp. by subst.
Qed.

Section Served.
Context (extra : list Route) (ready : string → bool) (accounts : list BasicAuth → or_error (list account)).
Context (names : gmap string (list string)) (containers : gmap string Container).
Local Abbreviation route_of := (route_of ready accounts names containers).
Local Abbreviation routes_from := (routes_from ready accounts names containers).

(** What is taken was taken by Shipwick itself or by one of [ps]. *)
Definition within (ps : list routingPlan) (t : taken_parts) : Prop :=
  (∀ h, h ∈ taken t → (∃ e, e ∈ extra ∧ h ∈ routeHostnames e) ∨ ∃ q, q ∈ ps ∧ h ∈ redirects_of q) ∧
  (∀ x, x ∈ served_parts t → ∃ q, q ∈ ps ∧ x ∈ plan_parts q) ∧
  (∀ h, h ∈ sharing t → ∃ q, q ∈ ps ∧ h ∈ served_list q).

(** What a plan takes at most. *)
Lemma route_of_takes p t :
  (∀ h, h ∈ taken (route_of p t).2 → h ∈ taken t ∨ h ∈ redirects_of p) ∧
  (∀ x, x ∈ served_parts (route_of p t).2 → x ∈ served_parts t ∨ x ∈ plan_parts p) ∧
  (∀ h, h ∈ sharing (route_of p t).2 → h ∈ sharing t ∨ h ∈ served_list p).
Proof.
  unfold Routing.route_of, redirects_of, plan_parts, served_list, domain_list. set (h := pl_hosts p).
  destruct (String.eqb_spec (hn_domain h) ""); [split_and!; by left|].
  destruct (free [hn_domain h] (hn_path h) t) as [mine t1] eqn:E1. destruct (free_spec _ _ _ _ _ E1) as (A1 & A2 & A3 & A4 & _).
  assert (∀ x, x ∈ mine → x = hn_domain h) as Hm by (intros x Hx; specialize (A1 x Hx); by apply list_elem_of_singleton in A1).
  assert (∀ x, x ∈ served_parts t1 → x ∈ served_parts t ∨ x ∈ (λ y, part y (hn_path h)) <$> [hn_domain h] ++ hn_aliases h) as P1.
  { intros x Hx. rewrite A3 in Hx. apply elem_of_union in Hx as [?|Hx]; [by left|right]. apply elem_of_list_to_set in Hx.
    apply list_elem_of_fmap in Hx as (y & -> & Hy). rewrite (Hm y Hy). apply (list_elem_of_fmap_2 (λ y, part y (hn_path h))). by left. }
  assert (∀ x, x ∈ sharing t1 → x ∈ sharing t ∨ x ∈ [hn_domain h] ++ hn_aliases h) as S1.
  { intros x Hx. rewrite A4 in Hx. apply elem_of_union in Hx as [?|Hx]; [by left|right]. apply elem_of_list_to_set in Hx. rewrite (Hm x Hx). by left. }
  case_bool_decide; [cbn [snd]; rewrite A2; split_and!; [by left|done|done]|].
  destruct (ready (hn_domain h)); cbn [negb]; [|cbn [snd]; rewrite A2; split_and!; [by left|done|done]].
  destruct (free (readyHosts ready (hn_aliases h)) (hn_path h) t1) as [aliases t2] eqn:E2. destruct (free_spec _ _ _ _ _ E2) as (B1 & B2 & B3 & B4 & _).
  assert (∀ x, x ∈ aliases → x ∈ hn_aliases h) as Ha by (intros x Hx; specialize (B1 x Hx); by apply list_elem_of_filter in B1 as [_ ?]).
  destruct (claim _ (taken t2)) as [redirects tk] eqn:E3. destruct (claim_spec _ _ _ _ E3) as (_ & C2 & _). set (t3 := mk_taken tk _ _).
  assert ((∀ x, x ∈ taken t3 → x ∈ taken t ∨ x ∈ hn_redirects h) ∧
    (∀ x, x ∈ served_parts t3 → x ∈ served_parts t ∨ x ∈ (λ y, part y (hn_path h)) <$> [hn_domain h] ++ hn_aliases h) ∧
    (∀ x, x ∈ sharing t3 → x ∈ sharing t ∨ x ∈ [hn_domain h] ++ hn_aliases h)) as Ht.
  { unfold t3. cbn [taken served_parts sharing]. split_and!; intros x Hx.
    - rewrite C2, B2, A2 in Hx. apply elem_of_union in Hx as [?|Hx]; [by left|right]. apply elem_of_list_to_set in Hx.
      apply list_elem_of_filter in Hx as [_ Hx]. by apply list_elem_of_filter in Hx as [_ ?].
    - rewrite B3 in Hx. apply elem_of_union in Hx as [Hx|Hx]; [by apply P1|right]. apply elem_of_list_to_set in Hx.
      apply list_elem_of_fmap in Hx as (y & -> & Hy). apply (list_elem_of_fmap_2 (λ y, part y (hn_path h))). right. by apply Ha.
    - rewrite B4 in Hx. apply elem_of_union in Hx as [Hx|Hx]; [by apply S1|right]. apply elem_of_list_to_set in Hx. right. by apply Ha. }
  destruct (hn_proxy h) as [px|]; [destruct (accounts (px_BasicAuth px))|]; exact Ht.
Qed.

Lemma within_next ps p t : within ps t → within (p :: ps) (route_of p t).2.
Proof.
  intros (H1 & H2 & H3). destruct (route_of_takes p t) as (T1 & T2 & T3). split_and!.
  - intros h Hh. apply T1 in Hh as [Hh|Hh]; [destruct (H1 h Hh) as [?|(q & ? & ?)]; [by left|right; exists q; split; [by right|done]]|].
    right. exists p. split; [by left|done].
  - intros x Hx. apply T2 in Hx as [Hx|Hx]; [destruct (H2 x Hx) as (q & ? & ?); exists q; split; [by right|done]|exists p; split; [by left|done]].
  - intros x Hx. apply T3 in Hx as [Hx|Hx]; [destruct (H3 x Hx) as (q & ? & ?); exists q; split; [by right|done]|exists p; split; [by left|done]].
Qed.

(** A plan all of whose hostnames are its own to serve. *)
Record servable (p : routingPlan) : Prop := {
  s_domain : hn_domain (pl_hosts p) ≠ ""%string;
  s_ready : ready (hn_domain (pl_hosts p)) = true;
  s_accounts : ∀ px, hn_proxy (pl_hosts p) = Some px → ∃ l, accounts (px_BasicAuth px) = inr l }.
Definition served_in_full (p : routingPlan) (r : Route) : Prop :=
  rt_Domain r = hn_domain (pl_hosts p) ∧ rt_Path r = hn_path (pl_hosts p) ∧
  rt_Aliases r = readyHosts ready (hn_aliases (pl_hosts p)) ∧ rt_Redirects r = readyHosts ready (hn_redirects (pl_hosts p)).

Lemma route_of_full ps p t : within ps t → (∀ q, q ∈ ps → apart p q) → clear_of extra p → NoDup (hosts_list (pl_hosts p)) → servable p →
  ∃ r, (route_of p t).1 = Some r ∧ served_in_full p r.
Proof.
  intros (W1 & W2 & W3) Hapart Hclear Hnd [Sd Sr Sa]. pose proof (clear_of_extra _ _ Hclear) as Hextra.
  assert (domain_list (pl_hosts p) = [hn_domain (pl_hosts p)]) as Hdl by (unfold domain_list; by destruct (String.eqb_spec (hn_domain (pl_hosts p)) "")).
  rewrite all_hosts, Hdl in Hnd, Hextra. cbn [app] in Hnd. apply NoDup_cons in Hnd as [Hd Hnd]. apply NoDup_app in Hnd as (Hna & Har & Hnr).
  assert (∀ h, h ∈ served_list p → (h ∉ taken t) ∧ (part h (hn_path (pl_hosts p)) ∉ served_parts t)) as Hfree.
  { intros h Hh. split; intros Hin.
    - destruct (W1 h Hin) as [(e & He & Hhe)|(q & Hq & Hr)]; [|by destruct (Hapart q Hq) as (H & _); apply (H h)].
      apply (Hextra h) in Hhe; [done| |done]. unfold served_list in Hh. rewrite Hdl in Hh. rewrite app_assoc. apply elem_of_app. by left.
    - destruct (W2 _ Hin) as (q & Hq & Hp). destruct (Hapart q Hq) as (_ & _ & _ & H). apply (H _ (list_elem_of_fmap_2 (λ y, part y (hn_path (pl_hosts p))) _ _ Hh) Hp). }
  assert (∀ h, h ∈ redirects_of p → (h ∉ taken t) ∧ (h ∉ sharing t)) as Hfreer.
  { intros h Hh. split; intros Hin.
    - destruct (W1 h Hin) as [(e & He & Hhe)|(q & Hq & Hr)]; [|by destruct (Hapart q Hq) as (_ & _ & H & _); apply (H h)].
      apply (Hextra h) in Hhe; [done| |done]. apply elem_of_app. right. apply elem_of_app. by right.
    - destruct (W3 _ Hin) as (q & Hq & Hp). destruct (Hapart q Hq) as (_ & H & _). by apply (H h). }
  unfold served_list in Hfree. rewrite Hdl in Hfree. unfold redirects_of in Hfreer. clear Hextra W1 W2 W3 Hapart.
  unfold Routing.route_of, served_in_full. set (h := pl_hosts p) in *. destruct (String.eqb_spec (hn_domain h) ""); [done|].
  pose proof (free_all [hn_domain h] (hn_path h) t) as Hf1. destruct (free [hn_domain h] (hn_path h) t) as [mine t1] eqn:E1.
  cbn [fst] in Hf1. assert (mine = [hn_domain h]) as -> by (apply Hf1; [apply NoDup_singleton|intros x Hx; apply Hfree, elem_of_app; by left]).
  destruct (free_spec _ _ _ _ _ E1) as (_ & A2 & A3 & A4 & _). rewrite bool_decide_eq_false_2, Sr by done. cbn [negb].
  pose proof (free_all (readyHosts ready (hn_aliases h)) (hn_path h) t1) as Hf2.
  destruct (free (readyHosts ready (hn_aliases h)) (hn_path h) t1) as [aliases t2] eqn:E2. cbn [fst] in Hf2.
  destruct (free_spec _ _ _ _ _ E2) as (_ & B2 & _). assert (aliases = readyHosts ready (hn_aliases h)) as ->.
  { apply Hf2; [by apply NoDup_filter|]. intros x [_ Hx]%list_elem_of_filter. rewrite A2. destruct (Hfree x) as [F1 F2]; [apply elem_of_app; by right|]. split; [done|].
       rewrite A3. intros [?|Hp]%elem_of_union; [done|]. apply elem_of_list_to_set, list_elem_of_singleton, append_cancel in Hp. subst x.
       apply Hd, elem_of_app. by left. }
  assert (filter (λ x, x ∉ sharing t1) (readyHosts ready (hn_redirects h)) = readyHosts ready (hn_redirects h)) as Hs.
  { apply filter_all. intros x [_ Hx]%list_elem_of_filter. destruct (Hfreer x Hx) as [_ Hs]. rewrite A4.
    intros [?|Hp]%elem_of_union; [done|]. apply elem_of_list_to_set, list_elem_of_singleton in Hp. subst x. apply Hd, elem_of_app. by right. }
  rewrite Hs. pose proof (claim_full (readyHosts ready (hn_redirects h)) (taken t2)) as Hf3.
  destruct (claim _ (taken t2)) as [redirects tk]. cbn [fst] in Hf3. assert (redirects = readyHosts ready (hn_redirects h)) as ->.
  { apply Hf3; [by apply NoDup_filter|]. intros x [_ Hx]%list_elem_of_filter. rewrite B2, A2. by apply Hfreer. }
  destruct (hn_proxy h) as [px|]; [destruct (Sa px eq_refl) as [l ->]|]; by eexists.
Qed.

Lemma routes_from_full plans : ∀ ps t, within ps t → (∀ p q, p ∈ plans → q ∈ ps → apart q p) → ForallOrdPairs (λ p q, accepted p q ∨ accepted q p) plans →
  Forall (clear_of extra) plans → Forall (λ p, NoDup (hosts_list (pl_hosts p))) plans →
  ∀ p, p ∈ plans → servable p → ∃ r, r ∈ routes_from plans t ∧ served_in_full p r.
Proof.
  induction plans as [|p0 plans IH]; intros ps t Hw Hap Hpairs Hcl Hnd p Hin Hs; [by apply elem_of_nil in Hin|]. cbn [Routing.routes_from].
  inversion Hpairs as [|? ? Hp0 Hpairs']; subst. inversion Hcl as [|? ? Hc0 Hcl']; subst. inversion Hnd as [|? ? Hn0 Hnd']; subst.
  pose proof (within_next ps p0 t Hw) as Hw'. pose proof (λ H, route_of_full ps p0 t Hw H Hc0 Hn0) as Hfull.
  destruct (route_of p0 t) as [ro t']. cbn [fst snd] in *. apply elem_of_cons in Hin as [->|Hin].
  - destruct Hfull as (r & -> & Hr); [intros q Hq; symmetry; apply Hap; [by left|done]|done|]. exists r. split; [by left|done].
  - destruct (IH (p0 :: ps) t' Hw') with p as (r & Hr & Hf); [|done..|].
    + intros p1 q Hp1 [->|Hq]%elem_of_cons; [|apply Hap; [by right|done]].
      rewrite List.Forall_forall in Hp0. destruct (Hp0 p1) as [H|H]; [by apply list_elem_of_In|by apply accepted_apart|symmetry; by apply accepted_apart].
    + exists r. split; [|done]. apply elem_of_app. by right.
Qed.
End Served.

(** Hostnames that checkDomain accepted are served.  When of any two plans
    one was accepted next to the other, each is clear of Shipwick's own
    hostnames, and none names a hostname twice, then every plan whose domain
    points at this server, and whose accounts can be hashed, has a route for its
    domain and path that serves all its aliases and redirects that point here. *)
Theorem checked_hostnames_served extra ready accounts names containers plans :
  ForallOrdPairs (λ p q, accepted p q ∨ accepted q p) plans → Forall (clear_of extra) plans →
  Forall (λ p, NoDup (hosts_list (pl_hosts p))) plans →
  ∀ p, p ∈ plans → servable ready accounts p →
  ∃ r, r ∈ routesFor extra ready accounts names containers plans ∧ served_in_full ready p r.
Proof.
  intros Hp Hc Hn p Hin Hs.
  destruct (routes_from_full extra ready accounts names containers plans [] (mk_taken (extra_taken extra) ∅ ∅)) with p as (r & Hr & Hf); [|set_solver|done..|].
  - split_and!; [|set_solver|set_solver]. intros h Hh. left. cbn [taken] in Hh. by apply extra_taken_inv.
  - exists r. split; [|done]. apply elem_of_app. by right.
Qed.

Module RoutesWitness.
Local Open Scope string_scope.
Definition web : routingPlan := mk_plan "web" 1 (mk_hostnames "example.com" ["app.example.com"] ["www.example.com"] "" None "") [] "".
Definition api : routingPlan := mk_plan "api" 2 (mk_hostnames "example.com" ["api.example.com"] ["old.example.com"] "/api" None "") [] "".
Definition own : Route := mk_route "agent.example.com" [] [] [] ["127.0.0.1:8700"] "" "" "" false ∅ [] [].
Definition here (h : string) : bool := negb (String.eqb h "app.example.com").
End RoutesWitness.

(** Two applications share a domain under different paths. *)
Lemma routes_exclusive_witness :
  let mine := routes_from RoutesWitness.here (λ _, inr []) ∅ ∅ [RoutesWitness.web; RoutesWitness.api] (mk_taken (extra_taken [RoutesWitness.own]) ∅ ∅) in
  (rt_Path <$> mine = [""; "/api"]%string) ∧ exclusive mine.
Proof.
  split; [vm_compute; reflexivity|].
  apply (routes_exclusive [RoutesWitness.own] RoutesWitness.here (λ _, inr []) ∅ ∅ [RoutesWitness.web; RoutesWitness.api]).
  repeat constructor; intros h Hh Ha; simpl in Hh, Ha; apply list_elem_of_singleton in Hh, Ha; subst; discriminate.
Defined.

Lemma checked_hostnames_served_witness :
  ∃ r, r ∈ routesFor [RoutesWitness.own] RoutesWitness.here (λ _, inr []) ∅ ∅ [RoutesWitness.web; RoutesWitness.api] ∧
    served_in_full RoutesWitness.here RoutesWitness.web r ∧ rt_Aliases r = [] ∧ rt_Redirects r = ["www.example.com"%string].
Proof.
  destruct (checked_hostnames_served [RoutesWitness.own] RoutesWitness.here (λ _, inr []) ∅ ∅ [RoutesWitness.web; RoutesWitness.api]) with RoutesWitness.web as (r & Hr & Hf).
  - repeat constructor; left; vm_compute; reflexivity.
  - repeat constructor; vm_compute; reflexivity.
  - repeat constructor; apply (bool_decide_unpack _); vm_compute; exact I.
  - by left.
  - split; [discriminate|reflexivity|discriminate].
  - exists r. split; [done|]. split; [done|]. by destruct Hf as (_ & _ & -> & ->).
Defined.
