(* ===== verification/GoNetip.v ===== *)
(** * Addresses and prefixes of Go's net/netip

    What dns.go and pkg/cloudflare use: ParseAddr, Unmap, String and the
    containment of an address in a prefix. An address is its sixteen-bit groups,
    two of IPv4 and eight of IPv6, with the zone of the latter. *)

From S2P Require Import Prelude GoStrings GoURL.
From Stdlib Require Import Ascii String.
Local Open Scope string_scope.
Local Open Scope Z_scope.

Inductive Addr := V4 (groups : list Z) | V6 (groups : list Z) (zone : string).
#[export] Instance Addr_eq_dec : EqDecision Addr.
Proof. solve_decision. Defined.

(** The first of a dot, a colon and a percent sign says what an address is. *)
Definition ParseAddr (s : string) : option Addr :=
  match first_of ["."; ":"; "%"]%char s with
  | Some "."%char => V4 <$> parseIPv4 s
  | Some ":"%char =>
      match cut "%" s with
      | (ip, zone, true) => if String.eqb zone "" then None else (λ g, V6 g zone) <$> parseIPv6 ip
      | (ip, _, false) => (λ g, V6 g "") <$> parseIPv6 ip
      end
  | _ => None
  end.

(** An IPv4 address mapped into IPv6 is the IPv4 address. *)
Definition Unmap (a : Addr) : Addr :=
  match a with
  | V6 [x0; x1; x2; x3; x4; x5; hi; lo] _ =>
      if forallb (Z.eqb 0) [x0; x1; x2; x3; x4] && (x5 =? 65535) then V4 [hi; lo] else a
  | _ => a
  end.
Definition Is4 (a : Addr) : bool := match a with V4 _ => true | V6 _ _ => false end.
Definition Is6 (a : Addr) : bool := negb (Is4 a).
(** The text of an address that is not a mapped one. *)
Definition Addr_String (a : Addr) : string :=
  match a with
  | V4 [hi; lo] => dotted hi lo
  | V4 _ => ""
  | V6 g zone => ipv6_text g ++ (if String.eqb zone "" then "" else "%" ++ zone)
  end.

Definition bits_of (groups : list Z) : Z := foldl (λ acc g, acc * 65536 + g) 0 groups.

Record Prefix := mk_prefix { px_addr : Addr; px_bits : Z }.
Definition ParsePrefix (s : string) : option Prefix :=
  '(before, after) ← cut_last "/" s;
  a ← ParseAddr before;
  n ← parse_digits after;
  let wide := if Is4 a then 32 else 128 in
  if (has_prefix "0" after && negb (String.eqb after "0")) || (wide <? n) then None else
  match a with V6 _ z => if String.eqb z "" then Some (mk_prefix a n) else None | V4 _ => Some (mk_prefix a n) end.

(** p.Contains(a): the leading bits agree; an address with a zone is in none. *)
Definition Contains (p : Prefix) (a : Addr) : bool :=
  match px_addr p, a with
  | V4 g, V4 h => Z.shiftr (Z.lxor (bits_of g) (bits_of h)) (32 - px_bits p) =? 0
  | V6 g _, V6 h z => String.eqb z "" && (Z.shiftr (Z.lxor (bits_of g) (bits_of h)) (128 - px_bits p) =? 0)
  | _, _ => false
  end.

Example addresses :
  ((λ s, Addr_String ∘ Unmap <$> ParseAddr s) <$> ["::ffff:10.0.0.5"; "10.0.0.5"; "2001:DB8::1"; "fe80::1%eth0"; "fe80::1%"; "host"],
   (λ s, Contains (mk_prefix (V4 [26640; 0]) 13) <$> ParseAddr s) <$> ["104.21.5.6"; "104.24.0.0"; "::1"])
  = ([Some "10.0.0.5"; Some "10.0.0.5"; Some "2001:db8::1"; Some "fe80::1%eth0"; None; None], [Some true; Some false; Some false]).
Proof. vm_compute. reflexivity. Qed.
