(* ===== verification/Dns.v ===== *)
(** * The DNS gate (agent/internal/deploy/dns.go, certificates.go, certs.Covers
    of agent/internal/certs, and pkg/cloudflare)

    A hostname enters the proxy's configuration only once it points at this
    server. The state is the cache of verdicts. Synchronisations and rollouts
    refresh it at the same time, and a refresh runs its lookups side by side:
    the goroutines share the cache, and each turn of one is one section under
    the cache's lock, or one reading of the certificates, of the clock or of a
    resolver's answer. *)

From S2P Require Import Prelude GoStrings GoTime GoNetip SpecTypes SpecNames.
From Stdlib Require Import Ascii String.
Local Open Scope string_scope.
Local Open Scope Z_scope.

Definition hostnameReadyFor : Duration := 30 * second.
Definition hostnameRetryAfter : Duration := 10 * second.
Definition cloudflareTokenVariable : string := "SHIPWICK_CLOUDFLARE_API_TOKEN".

(** ** pkg/cloudflare *)

Definition ranges : list string :=
  ["173.245.48.0/20"; "103.21.244.0/22"; "103.22.200.0/22"; "103.31.4.0/22";
   "141.101.64.0/18"; "108.162.192.0/18"; "190.93.240.0/20"; "188.114.96.0/20";
   "197.234.240.0/22"; "198.41.128.0/17"; "162.158.0.0/15"; "104.16.0.0/13";
   "104.24.0.0/14"; "172.64.0.0/13"; "131.0.72.0/22";
   "2400:cb00::/32"; "2606:4700::/32"; "2803:f800::/32"; "2405:b500::/32";
   "2405:8100::/32"; "2a06:98c0::/29"; "2c0f:f248::/32"].
Definition prefixes : list Prefix := omap ParsePrefix ranges.
Example prefixes_all : List.length prefixes = List.length ranges.
Proof. vm_compute. reflexivity. Qed.

Definition Contains (ip : string) : bool :=
  match ParseAddr ip with None => false | Some a => existsb (λ p, GoNetip.Contains p (Unmap a)) prefixes end.
(** Every one of the addresses is Cloudflare's. *)
Definition Proxied (addrs : list string) : bool :=
  if bool_decide (addrs = []) then false else forallb Contains addrs.

(** ** Supplied certificates *)

(** A wildcard subject stands for one label, a wildcard host is covered
    only by the same wildcard. *)
Definition Covers (subjects : list string) (host : string) : bool :=
  existsb (λ s, String.eqb s host ||
    (negb (has_prefix "*." host) &&
     match cut_prefix "*." s with
     | Some rest => let '(_, parent, found) := cut "."%char host in found && String.eqb parent rest
     | None => false
     end)) subjects.

(** A stored certificate: the hostname it is stored under, its subjects. *)
Record suppliedCertificate := mk_supplied { sc_Hostname : string; sc_Subjects : list string }.

Definition suppliedFor (l : list suppliedCertificate) (host : string) : option string :=
  sc_Hostname <$> List.find (λ c, Covers (sc_Subjects c) host) l.

(** ** Verdicts *)

(** An error of a lookup: what it says, and whether it is a *net.DNSError with IsNotFound. *)
Record lookup_error := mk_lookup_error { IsNotFound : bool; le_Error : string }.
Record options := mk_options { ServerAddresses : list string; DNSChallenge : bool }.

Definition sameAddress (a b : string) : bool :=
  match ParseAddr a with
  | None => String.eqb a b
  | Some pa => match ParseAddr b with None => false | Some pb => bool_decide (Unmap pa = Unmap pb) end
  end.
Definition pointsAt (addrs server : list string) : bool := existsb (λ a, existsb (sameAddress a) server) addrs.

(** unanswered: the lookup ended without an answer. "No such host" is one. *)
Definition unanswered (err : option lookup_error) : bool :=
  match err with Some e => negb (IsNotFound e) | None => false end.

(** The first IPv4 and the first IPv6 address of the server, as texts. *)
Definition first_addresses (l : list string) : string * string :=
  foldl (λ '(v4, v6) s,
    match ParseAddr s with
    | None => (v4, v6)
    | Some a => let a := Unmap a in
        if Is4 a && String.eqb v4 "" then (Addr_String a, v6)
        else if Is6 a && String.eqb v6 "" then (v4, Addr_String a) else (v4, v6)
    end) ("", "") l.

Record hostnameVerdict := mk_verdict { v_ready : bool; v_why : string; v_checkedAt : Time }.
(** hostnameCache.entries *)
Abbreviation cache := (gmap string hostnameVerdict).

Section Verdict.
Variable o : options.

(** decidedWithoutLookup is the verdict on a hostname that DNS has no say in. *)
Definition decidedWithoutLookup (supplied : list suppliedCertificate) (host : string) : option (bool * string) :=
  match suppliedFor supplied host with
  | Some _ => Some (true, "")
  | None =>
      if negb (IsWildcard host) then None else
      if DNSChallenge o then Some (true, "") else
      Some (false, "is a wildcard, and no certificate covers it: set SHIPWICK_CLOUDFLARE_API_TOKEN on the agent, or supply one with shipwick cert set '" ++ host ++ "'")
  end.

Definition recordAdvice (host verb article : string) : string :=
  let '(v4, v6) := first_addresses (ServerAddresses o) in
  let records := ((if String.eqb v4 "" then [] else [(article ++ " A record: " ++ host ++ " → " ++ v4)%string])
                  ++ (if String.eqb v6 "" then [] else [(article ++ " AAAA record: " ++ host ++ " → " ++ v6)%string]))%list in
  if bool_decide (records = []) then "" else
  "; " ++ verb ++ " " ++ join " and " records ++ (if DNSChallenge o then "" else " (DNS only, not proxied)").

(** verdict turns a lookup's result into ready, or a reason that says what to do next. *)
Definition verdict (host : string) (addrs : list string) (err : option lookup_error) : bool * string :=
  match err with
  | Some e => if IsNotFound e then (false, "does not resolve yet" ++ recordAdvice host "add" "an")
              else (false, "could not be resolved: " ++ le_Error e)
  | None =>
      if bool_decide (addrs = []) then (false, "does not resolve yet" ++ recordAdvice host "add" "an") else
      if bool_decide (ServerAddresses o = []) || pointsAt addrs (ServerAddresses o) then (true, "") else
      if Proxied addrs then
        if DNSChallenge o then (true, "") else
        (false, "resolves to Cloudflare's proxy (" ++ join ", " addrs ++ "), not to this server: turn the proxy off for this record (DNS only), or set "
                ++ cloudflareTokenVariable ++ " on the agent to keep it on")
      else (false, "resolves to " ++ join ", " addrs ++ ", not to this server" ++ recordAdvice host "change" "the")
  end.

(** ** The cache *)

Definition stale (c : cache) (now : Time) (host : string) : bool :=
  match c !! host with
  | None => true
  | Some v => (if v_ready v then hostnameReadyFor else hostnameRetryAfter) <=? Sub now (v_checkedAt v)
  end.
Definition record (now : Time) (host : string) (v : bool * string) (c : cache) : cache := <[host := mk_verdict v.1 v.2 now]> c.
(** decide records a verdict no lookup stands behind: due the moment it is not reached any more. *)
Definition decide (host : string) (v : bool * string) (c : cache) : cache := <[host := mk_verdict v.1 v.2 zero_time]> c.
(** keepServing leaves a hostname that is served as it is; [None]: there was none. *)
Definition keepServing (now : Time) (host : string) (c : cache) : option cache :=
  match c !! host with
  | Some v => if v_ready v then Some (<[host := mk_verdict true (v_why v) (now + (hostnameRetryAfter - hostnameReadyFor))]> c) else None
  | None => None
  end.
Definition hostnameReady (c : cache) (host : string) : bool * string :=
  match c !! host with None => (false, "has not been checked yet") | Some v => (v_ready v, v_why v) end.

(** ** Refreshing *)

(** What a goroutine would read in its turn: the cached certificates, the clock,
    what the resolver said within lookupTimeout, and whether ctx has ended. *)
Record view := mk_view { vw_supplied : list suppliedCertificate; vw_now : Time;
  vw_addrs : list string; vw_err : option lookup_error; vw_shutdown : bool }.

(** Where a goroutine stands. Of refreshHostnames: in the loop over the hosts, with
    those asked about and those due; with a verdict on [h] that DNS has no say in, or
    with none and about to see whether [h] is due; beginning the lookups that are
    due; about to begin the one of [h]; waiting for those it began. Of
    lookupHostname: before the resolver said anything; after it said nothing; with a
    verdict to record. *)
Inductive goroutine :=
| Refreshing (hosts : list string) (seen : gset string) (due : list string)
| Deciding (h : string) (d : bool * string) (hosts : list string) (seen : gset string) (due : list string)
| Checking (h : string) (hosts : list string) (seen : gset string) (due : list string)
| Launching (due : list string) (begun : list nat)
| Starting (h : string) (due : list string) (begun : list nat)
| Waiting (begun : list nat)
| Looking (h : string)
| Silent (h : string) (addrs : list string) (err : option lookup_error)
| Concluding (h : string) (d : bool * string)
| Returned.

(** What a turn leaves behind: refreshHostnames was called; a decision was reached;
    a hostname was not due at [now]; the resolver said something; ctx had ended;
    the verdict was left as it was, or there was none to leave; a verdict was recorded. *)
Inductive event :=
| Began (hosts : list string)
| Decided (h : string) (supplied : list suppliedCertificate)
| NotDue (h : string) (now : Time)
| Answered (h : string) (addrs : list string) (err : option lookup_error)
| CutShort
| Kept (h : string) (checkedAt : Time)
| NotServed (h : string)
| Recorded (h : string) (d : bool * string) (checkedAt : Time).

(** What a turn leaves: where the goroutine stands, one it began, the cache, what happened. *)
Record result := mk_result { rs_next : goroutine; rs_begun : list goroutine; rs_cache : cache; rs_event : option event }.
Definition goes (g : goroutine) (c : cache) : result := mk_result g [] c None.
Definition does (g : goroutine) (c : cache) (e : event) : result := mk_result g [] c (Some e).

Definition lookupsAtOnce : nat := 8.
Definition returned (all : list goroutine) (j : nat) : bool :=
  match all !! j with Some Returned => true | _ => false end.

Definition refreshHostnames (hosts : list string) : goroutine := Refreshing hosts ∅ [].

(** A turn of refreshHostnames; [all] are the goroutines so far. *)
Definition refresh_turn (v : view) (all : list goroutine) (c : cache) (g : goroutine) : result :=
  match g with
  | Refreshing [] seen due => goes (Launching due []) c
  | Refreshing (h :: rest) seen due =>
      if bool_decide (h ∈ seen) then goes (Refreshing rest seen due) c else
      match decidedWithoutLookup (vw_supplied v) h with
      | Some d => does (Deciding h d rest ({[h]} ∪ seen) due) c (Decided h (vw_supplied v))
      | None => goes (Checking h rest ({[h]} ∪ seen) due) c
      end
  | Deciding h d rest seen due => does (Refreshing rest seen due) (decide h d c) (Recorded h d zero_time)
  | Checking h rest seen due => 
      if stale c (vw_now v) h then goes (Refreshing rest seen (due ++ [h])%list) c
      else does (Refreshing rest seen due) c (NotDue h (vw_now v))
  | Launching [] begun => goes (Waiting begun) c
  | Launching (h :: rest) begun => if vw_shutdown v then does (Waiting begun) c CutShort else goes (Starting h rest begun) c
  | Starting h rest begun =>
      if (lookupsAtOnce <=? List.length (filter (λ j, returned all j = false) begun))%nat then goes g c else
      mk_result (Launching rest (begun ++ [List.length all])%list) [Looking h] c None
  | Waiting begun => if forallb (returned all) begun then goes Returned c else goes g c
  | _ => goes g c
  end.

(** A turn of lookupHostname. *)
Definition lookup_turn (v : view) (c : cache) (g : goroutine) : result :=
  match g with
  | Looking h =>
      if vw_shutdown v then does Returned c CutShort else
      if unanswered (vw_err v) then does (Silent h (vw_addrs v) (vw_err v)) c (Answered h (vw_addrs v) (vw_err v))
      else does (Concluding h (verdict h (vw_addrs v) (vw_err v))) c (Answered h (vw_addrs v) (vw_err v))
  | Silent h addrs err =>
      match keepServing (vw_now v) h c with
      | Some c' => does Returned c' (Kept h (vw_now v + (hostnameRetryAfter - hostnameReadyFor)))
      | None => does (Concluding h (verdict h addrs err)) c (NotServed h)
      end
  | Concluding h d => does Returned (record (vw_now v) h d c) (Recorded h d (vw_now v))
  | _ => goes g c
  end.

Definition turn (v : view) (all : list goroutine) (c : cache) (g : goroutine) : result :=
  match g with Looking _ | Silent _ _ _ | Concluding _ _ => lookup_turn v c g | _ => refresh_turn v all c g end.

(** The engine: the cache, the goroutines in the order they began, and what
    happened and in which of them, newest first. *)
Record engine := mk_engine { en_cache : cache; en_all : list goroutine; en_happened : list (nat * event) }.
Inductive step := Refresh (hosts : list string) | Turn (i : nat) (v : view).

Definition take_step (e : engine) (st : step) : engine :=
  match st with
  | Refresh hosts => mk_engine (en_cache e) (en_all e ++ [refreshHostnames hosts])%list ((List.length (en_all e), Began hosts) :: en_happened e)
  | Turn i v =>
      match en_all e !! i with
      | None => e
      | Some g =>
          let r := turn v (en_all e) (en_cache e) g in
          mk_engine (rs_cache r) (<[i := rs_next r]> (en_all e) ++ rs_begun r)%list
            (option_list (pair i <$> rs_event r) ++ en_happened e)%list
      end
  end.
(** An agent that starts has checked nothing. *)
Definition run (schedule : list step) : engine := foldl take_step (mk_engine ∅ [] []) schedule.
End Verdict.
