(* ===== verification/DnsInv.v ===== *)
(** * What the DNS gate lets through

    However refreshes interleave, what the gate says of a hostname is the verdict
    recorded last; each verdict recorded is of a certificate's decision or of a
    lookup made in the same goroutine, and each decision and each answer is
    recorded. A refresh that returns has seen to each of its hostnames, and every
    refresh returns. With routing, the proxy is told only of hostnames whose standing
    verdict is good. A silent resolver is heard only of a hostname that is not
    served when the lookup finds out. *)

From S2P Require Import Prelude GoStrings GoTime SpecTypes SpecNames Rollout Routing Dns.
From Stdlib Require Import String.
Local Open Scope string_scope.
Local Open Scope Z_scope.
Local Open Scope list_scope.

Abbreviation trace := (list (nat * event)).

Section Words.
Variable o : options.

Definition recorded (h : string) (e : nat * event) : option (bool * string) :=
  match e.2 with Recorded h' d _ => if String.eqb h' h then Some d else None | _ => None end.
(** The verdict recorded last; what happened is listed newest first. *)
Definition standing (h : string) (tr : trace) : bool * string :=
  match omap (recorded h) tr with d :: _ => d | [] => (false, "has not been checked yet") end.

(** When a hostname counts as checked, as of what happened. *)
Fixpoint checked (h : string) (tr : trace) : option Time :=
  match tr with
  | [] => None
  | (_, Recorded h' _ at_) :: before | (_, Kept h' at_) :: before => if String.eqb h' h then Some at_ else checked h before
  | _ :: before => checked h before
  end.
(** The cache as it follows from what happened. *)
Definition follows (tr : trace) (h : string) : option hostnameVerdict :=
  (λ at_, mk_verdict (standing h tr).1 (standing h tr).2 at_) <$> checked h tr.

(** What an event says of a hostname: the decision of a certificate or of the DNS
    challenge, or an answer of a resolver. Silence says nothing. *)
Definition said (h : string) (e : event) : option (bool * string) :=
  match e with
  | Decided h' l => if String.eqb h' h then decidedWithoutLookup o l h else None
  | Answered h' addrs err => if String.eqb h' h && negb (unanswered err) then Some (verdict o h addrs err) else None
  | _ => None
  end.

(** A resolver that was silent in goroutine [i], which then found the hostname not served. *)
Definition silent (i : nat) (h : string) (addrs : list string) (err : option lookup_error) (tr : trace) : Prop :=
  ∃ before, (i, Answered h addrs err) ∈ before ∧ unanswered err = true ∧
    ∃ after, tr = after ++ (i, NotServed h) :: before ∧ (standing h before).1 = false.
(** Where a verdict that goroutine [i] records comes from. *)
Definition founded (i : nat) (h : string) (d : bool * string) (tr : trace) : Prop :=
  (∃ e, (i, e) ∈ tr ∧ said h e = Some d) ∨
  (∃ addrs err, silent i h addrs err tr ∧ d = verdict o h addrs err).

(** The verdict a goroutine has and has not recorded yet. *)
Definition pending (g : goroutine) : option (string * (bool * string)) :=
  match g with Deciding h d _ _ _ | Concluding h d => Some (h, d) | _ => None end.
Definition recording (i : nat) (h : string) (d : bool * string) (all : list goroutine) : Prop := all !! i ≫= pending = Some (h, d).

Lemma standing_cons h e tr : standing h (e :: tr) = match recorded h e with Some d => d | None => standing h tr end.
Proof. unfold standing. simpl. by destruct (recorded h e). Qed.

Lemma unchecked_standing h tr : checked h tr = None → standing h tr = (false, "has not been checked yet").
Proof.
  induction tr as [|[i e] tr IH]; [done|]. rewrite standing_cons.
  destruct e; unfold recorded; simpl; try apply IH; destruct (String.eqb _ h); done || apply IH.
Qed.
(** What the gate says is the verdict that stands. *)
Lemma ready_standing (c : cache) tr h : c !! h = follows tr h → hostnameReady c h = standing h tr.
Proof.
  unfold hostnameReady, follows. intros ->. destruct (checked h tr) eqn:E; simpl; [by destruct (standing h tr)|].
  symmetry. by apply unchecked_standing.
Qed.

Lemma said_unanswered h addrs err d : said h (Answered h addrs err) = Some d → unanswered err = false ∧ d = verdict o h addrs err.
Proof. simpl. rewrite String.eqb_refl. destruct (unanswered err); [done|]. by intros [= <-]. Qed.

Lemma silent_later i h addrs err tr e : silent i h addrs err tr → silent i h addrs err (e :: tr).
Proof. intros (b & Hb & Hu & a & -> & Hs). exists b. repeat split; try done. by exists (e :: a). Qed.
Lemma founded_later i h d tr e : founded i h d tr → founded i h d (e :: tr).
Proof.
  intros [(x & Hx & Hs)|(addrs & err & H & ->)]; [left|right].
  - exists x. split; [by right|done].
  - exists addrs, err. split; [by apply silent_later|done].
Qed.

(** What goroutine [i], where it stands, knows of what happened. *)
Definition knows (i : nat) (tr : trace) (g : goroutine) : Prop :=
  (∀ h d, pending g = Some (h, d) → founded i h d tr) ∧
  match g with Silent h addrs err => (i, Answered h addrs err) ∈ tr ∧ unanswered err = true | _ => True end.
Lemma knows_later i tr g e : knows i tr g → knows i (e :: tr) g.
Proof.
  intros [Hp Hs]. split; [intros h d H; by apply founded_later, Hp|].
  destruct g; try done. destruct Hs as [? ?]. split; [by right|done].
Qed.
Lemma knows_nothing i tr g : pending g = None → (∀ h addrs err, g ≠ Silent h addrs err) → knows i tr g.
Proof. intros Hp Hs. split; [by rewrite Hp|]. destruct g; try done. exfalso. by eapply Hs. Qed.

(** Whoever said something has recorded it, or is about to. *)
Definition heard (all : list goroutine) (tr : trace) : Prop :=
  ∀ newer i e older h d, tr = newer ++ (i, e) :: older → said h e = Some d →
    (∃ at_, (i, Recorded h d at_) ∈ newer) ∨ recording i h d all.

Record good (s : engine) : Prop := mk_good {
  g_stands : ∀ h, en_cache s !! h = follows (en_happened s) h;
  g_founded : ∀ newer i h d at_ older, en_happened s = newer ++ (i, Recorded h d at_) :: older → founded i h d older;
  g_heard : heard (en_all s) (en_happened s);
  g_knows : ∀ i g, en_all s !! i = Some g → knows i (en_happened s) g }.

Lemma good_start : good (mk_engine ∅ [] []).
Proof.
  split; simpl; try done.
  - intros [|] i h d at_ older [=].
  - intros [|] i e older h d [=].
Qed.

(** A goroutine that begins has said nothing. *)
Lemma good_begins c all tr more : Forall (λ g, pending g = None ∧ ∀ h addrs err, g ≠ Silent h addrs err) more →
  good (mk_engine c all tr) → good (mk_engine c (all ++ more) tr).
Proof.
  intros Hm [Hs Hf Hh Hk]. split; simpl in *; try done.
  - intros newer i e older h d E Hd. destruct (Hh _ _ _ _ _ _ E Hd) as [|R]; [by left|right]. unfold recording in *.
    destruct (all !! i) as [g|] eqn:Eg; [|done]. by rewrite (lookup_app_l_Some _ _ _ _ Eg).
  - intros i g [H|[_ H]]%lookup_app_Some; [by apply Hk|]. destruct (Forall_lookup_1 _ _ _ _ Hm H) as [? ?]. by apply knows_nothing.
Qed.

(** The call of refreshHostnames. *)
Lemma good_called c all tr hosts : good (mk_engine c all tr) → good (mk_engine c all ((List.length all, Began hosts) :: tr)).
Proof.
  intros [Hs Hf Hh Hk]. split; simpl in *; [exact Hs| | |].
  - intros [|x newer] i h d at_ older [=]. by eapply Hf.
  - intros [|x newer] i e older h d [=] Hd; subst; [done|].
    destruct (Hh newer i e older h d eq_refl Hd) as [(at_ & ?)|]; [left; exists at_; by right|by right].
  - intros i g H. by apply knows_later, Hk.
Qed.

(** A turn in which nothing happened. *)
Lemma good_goes c all tr i g next : all !! i = Some g → pending g = None → knows i tr next →
  good (mk_engine c all tr) → good (mk_engine c (<[i := next]> all) tr).
Proof.
  intros Hi Hp Hn [Hs Hf Hh Hk]. split; simpl in *; try done.
  - intros newer j e older h d E Hd. destruct (Hh _ _ _ _ _ _ E Hd) as [|R]; [by left|right]. unfold recording in *.
    destruct (Nat.eq_dec j i) as [->|]; [rewrite Hi in R; simpl in R; congruence|by rewrite list_lookup_insert_ne].
  - intros j g' H. destruct (Nat.eq_dec j i) as [->|Hne].
    + rewrite list_lookup_insert_eq in H by by apply lookup_lt_Some in Hi. by simplify_eq.
    + rewrite list_lookup_insert_ne in H by done. by apply Hk.
Qed.

(** A turn in which something happened: what is recorded is what stands, what is
    said is about to be recorded. *)
Lemma good_does c c' all tr i g next e : all !! i = Some g →
  (∀ h, c' !! h = follows ((i, e) :: tr) h) →
  (∀ h d at_, e = Recorded h d at_ → founded i h d tr) →
  (∀ h d, said h e = Some d → pending next = Some (h, d)) →
  (∀ h d, pending g = Some (h, d) → ∃ at_, e = Recorded h d at_) →
  knows i ((i, e) :: tr) next →
  good (mk_engine c all tr) → good (mk_engine c' (<[i := next]> all) ((i, e) :: tr)).
Proof.
  intros Hi Hst He Hsaid Hp Hn [Hs Hf Hh Hk]. pose proof (lookup_lt_Some _ _ _ Hi) as Hl. simpl in *. split; simpl.
  - done.
  - intros [|x newer] j h d at_ older [=]; subst; [by eapply He|by eapply Hf].
  - intros [|x newer] j e' older h d [=] Hd; subst.
    + right. unfold recording. rewrite list_lookup_insert_eq by done. by apply Hsaid.
    + destruct (Hh newer j e' older h d eq_refl Hd) as [(at_ & ?)|R]; [left; exists at_; by right|]. unfold recording in *.
      destruct (Nat.eq_dec j i) as [->|Hne]; [|right; by rewrite list_lookup_insert_ne].
      rewrite Hi in R. left. destruct (Hp h d R) as [at_ ->]. exists at_. by left.
  - intros j g' H. destruct (Nat.eq_dec j i) as [->|Hne].
    + rewrite list_lookup_insert_eq in H by done. by simplify_eq.
    + rewrite list_lookup_insert_ne in H by done. by apply knows_later, Hk.
Qed.

Lemma follows_cons i e tr h : (∀ h' d at_, e ≠ Recorded h' d at_) → (∀ h' at_, e ≠ Kept h' at_) → follows ((i, e) :: tr) h = follows tr h.
Proof. intros Hr Hk. destruct e; try done; exfalso; [by eapply Hk|by eapply Hr]. Qed.
Lemma follows_recorded (c : cache) tr i h d at_ : (∀ h, c !! h = follows tr h) →
  ∀ host, <[h := mk_verdict d.1 d.2 at_]> c !! host = follows ((i, Recorded h d at_) :: tr) host.
Proof.
  intros H host. unfold follows. rewrite standing_cons. unfold recorded. simpl.
  destruct (String.eqb_spec h host) as [<-|Hne]; [by rewrite lookup_insert_eq|]. rewrite lookup_insert_ne by done. apply H.
Qed.
(** A hostname that is kept says what it said. *)
Lemma follows_kept (c c' : cache) tr i h now : keepServing now h c = Some c' → (∀ h, c !! h = follows tr h) →
  ∀ host, c' !! host = follows ((i, Kept h (now + (hostnameRetryAfter - hostnameReadyFor))) :: tr) host.
Proof.
  unfold keepServing. intros E H host. destruct (c !! h) as [v|] eqn:Ev; [|done].
  destruct (v_ready v) eqn:Er; simplify_eq. unfold follows. rewrite standing_cons. simpl.
  destruct (String.eqb_spec h host) as [<-|Hne]; [|rewrite lookup_insert_ne by done; apply H].
  rewrite lookup_insert_eq. simpl. rewrite <- (ready_standing c tr h) by apply H. unfold hostnameReady. by rewrite Ev, Er.
Qed.
Lemma not_served now h c : keepServing now h c = None → (hostnameReady c h).1 = false.
Proof. unfold keepServing, hostnameReady. destruct (c !! h) as [v|]; [|done]. by destruct (v_ready v) eqn:E. Qed.

Lemma good_refresh_turn v c all tr i g : all !! i = Some g → pending g = None ∨ (∃ h d hosts seen due, g = Deciding h d hosts seen due) →
  (∀ h addrs err, g ≠ Silent h addrs err) → good (mk_engine c all tr) →
  let r := refresh_turn o v all c g in
  good (mk_engine (rs_cache r) (<[i := rs_next r]> all ++ rs_begun r) (option_list (pair i <$> rs_event r) ++ tr)).
Proof.
  intros Hi Hp Hns G r. pose proof (g_knows _ G _ _ Hi) as [Hk _]. simpl in Hk.
  assert (∀ next, pending next = None → (∀ h addrs err, next ≠ Silent h addrs err) → pending g = None →
    good (mk_engine c (<[i := next]> all ++ []) tr)) as Hgoes.
  { intros next H1 H2 H3. rewrite app_nil_r. eapply good_goes; try done. by apply knows_nothing. }
  destruct g as [[|h hosts] seen due|h d hosts seen due|h hosts seen due|[|h due] begun|h due begun|begun|h|h addrs err|h d|];
    subst r; simpl in *; try (by apply Hgoes).
  - case_bool_decide; [by apply Hgoes|]. destruct (decidedWithoutLookup o (vw_supplied v) h) as [d|] eqn:E; [|by apply Hgoes].
    simpl. rewrite app_nil_r. assert (said h (Decided h (vw_supplied v)) = Some d) as Hd by (simpl; by rewrite String.eqb_refl).
    eapply good_does; try done; [apply (g_stands _ G)| |].
    + intros h' d'. simpl. destruct (String.eqb_spec h h') as [<-|]; [|done]. rewrite E. by intros [= <-].
    + split; [|done]. simpl. intros h' d' [= <- <-]. left. exists (Decided h (vw_supplied v)). split; [by left|done].
  - rewrite app_nil_r. eapply good_does; try done; [apply follows_recorded, (g_stands _ G)| |].
    + intros h' d' at_ [= <- <- _]. by apply Hk.
    + intros h' d' [= <- <-]. by eexists.
  - destruct (stale _ _ _); [by apply Hgoes|]. simpl. rewrite app_nil_r. eapply good_does; try done. apply (g_stands _ G).
  - destruct (vw_shutdown v); [|by apply Hgoes]. simpl. rewrite app_nil_r. eapply good_does; try done. apply (g_stands _ G).
  - match goal with |- context [if ?b then _ else _] => destruct b end; [by apply Hgoes|]. simpl.
    apply good_begins; [by repeat constructor|]. by eapply good_goes.
  - match goal with |- context [if ?b then _ else _] => destruct b end; by apply Hgoes.
  - destruct Hp as [|(?&?&?&?&?&?)]; done.
Qed.

Lemma good_lookup_turn v c all tr i g : all !! i = Some g → (∀ h d hosts seen due, g ≠ Deciding h d hosts seen due) →
  good (mk_engine c all tr) →
  let r := lookup_turn o v c g in
  good (mk_engine (rs_cache r) (<[i := rs_next r]> all ++ rs_begun r) (option_list (pair i <$> rs_event r) ++ tr)).
Proof.
  intros Hi Hnd G r. pose proof (g_knows _ G _ _ Hi) as [Hk Hs]. simpl in Hk, Hs.
  assert (∀ next, next = g → good (mk_engine c (<[i := next]> all ++ []) tr)) as Hsame.
  { intros next ->. rewrite app_nil_r. by rewrite list_insert_id. }
  destruct g as [[|h hosts] seen due|h d hosts seen due|h hosts seen due|[|h due] begun|h due begun|begun|h|h addrs err|h d|];
    subst r; simpl in *; try (by apply Hsame); clear Hsame.
  - destruct (vw_shutdown v); simpl.
    { rewrite app_nil_r. eapply good_does; try done. apply (g_stands _ G). }
    destruct (unanswered (vw_err v)) eqn:Eu; simpl; rewrite app_nil_r; (eapply good_does; try done; [apply (g_stands _ G)| |]).
    + intros h' d'. simpl. rewrite Eu. by rewrite andb_false_r.
    + split; [done|]. split; [by left|done].
    + intros h' d'. simpl. rewrite Eu, andb_true_r. destruct (String.eqb_spec h h') as [<-|]; [|done]. by intros [= <-].
    + split; [|done]. intros h' d' [= <- <-]. left. exists (Answered h (vw_addrs v) (vw_err v)). split; [by left|].
      simpl. by rewrite String.eqb_refl, Eu.
  - destruct (keepServing (vw_now v) h c) as [c'|] eqn:E; simpl; rewrite app_nil_r; (eapply good_does; try done).
    + by eapply follows_kept; [|apply (g_stands _ G)].
    + apply (g_stands _ G).
    + split; [|done]. intros h' d' [= <- <-]. right. exists addrs, err. split; [|done]. destruct Hs as [? ?].
      exists tr. repeat split; try done. exists []. split; [done|]. rewrite <- (ready_standing c) by apply (g_stands _ G). by eapply not_served.
  - rewrite app_nil_r. eapply good_does; try done; [apply follows_recorded, (g_stands _ G)| |].
    + intros h' d' at_ [= <- <- _]. by apply Hk.
    + intros h' d' [= <- <-]. by eexists.
Qed.

Lemma good_step s st : good s → good (take_step o s st).
Proof.
  destruct s as [c all tr]. intros G. destruct st as [hosts|i v]; simpl.
  - apply good_begins; [by repeat constructor|]. by apply good_called.
  - destruct (all !! i) as [g|] eqn:Hi; [|done].
    assert (turn o v all c g = refresh_turn o v all c g ∧ (pending g = None ∨ (∃ h d hosts seen due, g = Deciding h d hosts seen due)) ∧
              (∀ h addrs err, g ≠ Silent h addrs err) ∨
            turn o v all c g = lookup_turn o v c g ∧ (∀ h d hosts seen due, g ≠ Deciding h d hosts seen due)) as [(-> & ? & ?)|(-> & ?)];
      [destruct g; (right; done) || (left; naive_solver)|by apply good_refresh_turn|by apply good_lookup_turn].
Qed.

Lemma run_good schedule : good (run o schedule).
Proof.
  unfold run. generalize good_start. generalize (mk_engine ∅ [] []). induction schedule as [|st rest IH]; intros s G; [done|].
  apply IH, good_step, G.
Qed.

(** ** What a good word is *)

Definition vouches (h : string) (e : event) : Prop :=
  match e with
  | Decided h' l => h' = h ∧ ((∃ crt, crt ∈ l ∧ Covers (sc_Subjects crt) h = true) ∨ IsWildcard h = true ∧ DNSChallenge o = true)
  | Answered h' addrs err => h' = h ∧ err = None ∧ addrs ≠ [] ∧
      (ServerAddresses o = [] ∨ (∃ a b, a ∈ addrs ∧ b ∈ ServerAddresses o ∧ sameAddress a b = true) ∨
       DNSChallenge o = true ∧ Forall (λ a, Contains a = true) addrs)
  | _ => False
  end.

Lemma decided_vouches l h d : decidedWithoutLookup o l h = Some d → d.1 = true → vouches h (Decided h l).
Proof.
  unfold decidedWithoutLookup, suppliedFor. intros E Hd. split; [done|].
  destruct (List.find _ l) as [crt|] eqn:F; simpl in E.
  - apply find_some in F as [H ?]. left. exists crt. by rewrite list_elem_of_In.
  - destruct (IsWildcard h); [|done]. destruct (DNSChallenge o); injection E as <-; simpl in Hd; [by right|done].
Qed.
Lemma verdict_vouches h addrs err : (verdict o h addrs err).1 = true → vouches h (Answered h addrs err).
Proof.
  unfold verdict. destruct err as [e|]; [by destruct (IsNotFound e)|]. case_bool_decide as Ha; [done|].
  intros H. repeat split; try done. destruct (_ || _) eqn:E.
  - apply orb_true_iff in E as [E|E]; [left; by apply bool_decide_eq_true in E|right; left].
    unfold pointsAt in E. apply existsb_exists in E as (a & Ia & (b & Ib & Hab)%existsb_exists).
    exists a, b. by rewrite !list_elem_of_In.
  - right; right. unfold Proxied in H. rewrite bool_decide_false in H by done. destruct (forallb Contains addrs) eqn:F; [|done].
    destruct (DNSChallenge o); [|done]. split; [done|]. rewrite forallb_forall in F. apply Forall_forall. intros a Hin. apply F. by apply list_elem_of_In.
Qed.
Lemma said_vouches h e d : said h e = Some d → d.1 = true → vouches h e.
Proof.
  destruct e as [|h' l| |h' addrs err| | | |]; simpl; try done.
  - destruct (String.eqb_spec h' h) as [->|]; [|done]. apply decided_vouches.
  - destruct (String.eqb_spec h' h) as [->|]; [|done]. destruct (unanswered err); [done|]. intros [= <-]. apply verdict_vouches.
Qed.

(** A good verdict is never that of silence. *)
Lemma standing_vouched s h : good s → (hostnameReady (en_cache s) h).1 = true →
  ∃ i e, (i, e) ∈ en_happened s ∧ said h e = Some (hostnameReady (en_cache s) h) ∧ vouches h e.
Proof.
  intros [Hs Hf _ _] Hr. rewrite (ready_standing _ _ _ (Hs h)) in *. unfold standing in *.
  destruct (omap (recorded h) (en_happened s)) as [|d ds] eqn:E; [done|].
  assert (d ∈ omap (recorded h) (en_happened s)) as ([i e] & Hin & Hd)%list_elem_of_omap by (rewrite E; left).
  unfold recorded in Hd. simpl in Hd. destruct e as [| | | | | | |h' d' at_]; try done. destruct (String.eqb_spec h' h) as [->|]; simplify_eq.
  apply list_elem_of_split in Hin as (newer & older & El). destruct (Hf _ _ _ _ _ _ El) as [(e & He & Hd)|(addrs & err & (b & _ & Hu & _) & ->)].
  - exists i, e. repeat split; [|done|by eapply said_vouches]. rewrite El. apply elem_of_app. right. by right.
  - apply verdict_vouches in Hr as (_ & -> & _). done.
Qed.

(** ** A refresh that returns has seen to each of its hostnames *)

Definition timely (tr : trace) : Prop :=
  ∀ newer i h now older, tr = newer ++ (i, NotDue h now) :: older →
    ∃ at_, checked h older = Some at_ ∧ Sub now at_ < (if (standing h older).1 then hostnameReadyFor else hostnameRetryAfter).

Lemma turn_not_due v all c g h now : rs_event (turn o v all c g) = Some (NotDue h now) → stale c now h = false.
Proof.
  destruct g as [[|h' hosts] seen due|h' d hosts seen due|h' hosts seen due|[|h' due] begun|h' due begun|begun|h'|h' addrs err|h' d|];
    simpl; try done; repeat case_match; simpl; try done. by intros [= <- <-].
Qed.

Lemma timely_step s st : good s → timely (en_happened s) → timely (en_happened (take_step o s st)).
Proof.
  destruct s as [c all tr]. intros G T. destruct st as [hosts|i v]; simpl in *.
  - intros [|x newer] i h now older [=]. by eapply T.
  - destruct (all !! i) as [g|]; [|done]. simpl. destruct (rs_event _) as [e|] eqn:E; [|done].
    intros [|x newer] j h now older [=]; subst; [|by eapply T]. apply turn_not_due in E.
    pose proof (g_stands _ G h) as Hst. unfold stale, follows in *. simpl in Hst. rewrite Hst in E.
    destruct (checked h older) as [at_|]; [|done]. simpl in E. exists at_. split; [done|]. by apply Z.leb_gt.
Qed.

(** What has become of a hostname: a verdict was recorded or left, or it was not due. *)
Definition settles (h : string) (e : event) : Prop :=
  match e with Recorded h' _ _ | Kept h' _ | NotDue h' _ => h' = h | _ => False end.
Definition settled (h : string) (tr : trace) : Prop := ∃ i e, (i, e) ∈ tr ∧ settles h e.

Definition about (g : goroutine) : option string :=
  match g with Looking h | Silent h _ _ | Concluding h _ => Some h | _ => None end.
Definition asked (all : list goroutine) (begun : list nat) (h : string) : Prop := ∃ j, j ∈ begun ∧ all !! j ≫= about = Some h.

(** Where a refresh still has to come to a hostname. *)
Definition ahead (all : list goroutine) (h : string) (g : goroutine) : Prop :=
  match g with
  | Refreshing rest seen due => h ∈ rest ∧ h ∉ seen ∨ h ∈ due
  | Deciding h' _ rest seen due | Checking h' rest seen due => h = h' ∨ h ∈ rest ∧ h ∉ seen ∨ h ∈ due
  | Launching due begun => h ∈ due ∨ asked all begun h
  | Starting h' due begun => h = h' ∨ h ∈ due ∨ asked all begun h
  | Waiting begun => asked all begun h
  | _ => False
  end.

Definition left_to_do (all : list goroutine) (tr : trace) : Prop :=
  ∀ newer i hosts older, tr = newer ++ (i, Began hosts) :: older → (∀ j, (j, CutShort) ∉ newer) →
  ∃ g, all !! i = Some g ∧ about g = None ∧ ∀ h, h ∈ hosts → settled h newer ∨ ahead all h g.

(** A lookup ends only by settling its hostname, or cut short. *)
Lemma about_turn v all c g h : about g = Some h → let r := turn o v all c g in
  about (rs_next r) = Some h ∨ (∃ e, rs_event r = Some e ∧ (settles h e ∨ e = CutShort)).
Proof.
  destruct g; simpl; try done; intros [= ->].
  - repeat case_match; simpl; [right|by left|by left]. exists CutShort. split; [done|by right].
  - repeat case_match; simpl; [right|by left]. eexists. split; [done|by left].
  - right. eexists. split; [done|by left].
Qed.
Lemma refresh_next v all c g : about g = None → about (rs_next (turn o v all c g)) = None.
Proof.
  destruct g as [[|h' hosts] seen due|h' d hosts seen due|h' hosts seen due|[|h' due] begun|h' due begun|begun|h'|h' addrs err|h' d|];
    simpl; try done; repeat case_match; done.
Qed.

Lemma ahead_later all all' h g (S : Prop) : (∀ begun, asked all begun h → asked all' begun h ∨ S) → ahead all h g → ahead all' h g ∨ S.
Proof. intros Ha. destruct g; simpl; naive_solver. Qed.

(** A refresh comes nearer to a hostname in its own turn. *)
Lemma ahead_turn v all c g h i : all !! i = Some g → about g = None → ahead all h g →
  let r := turn o v all c g in let all' := <[i := rs_next r]> all ++ rs_begun r in
  ahead all' h (rs_next r) ∨ ∃ e, rs_event r = Some e ∧ (settles h e ∨ e = CutShort).
Proof.
  intros Hi Hg Ha r all'.
  assert (∀ begun, asked all begun h → asked all' begun h) as Hmono.
  { intros begun (j & Hj & E). exists j. split; [done|]. unfold all'. destruct (all !! j) as [g'|] eqn:Ej; [|done]. simpl in E.
    assert (j ≠ i) as Hne by (intros ->; rewrite Hi in Ej; simplify_eq; congruence).
    rewrite lookup_app_l by (rewrite length_insert; by eapply lookup_lt_Some). rewrite list_lookup_insert_ne by done. by rewrite Ej. }
  assert (∀ h' begun, r = mk_result (rs_next r) [Looking h'] (rs_cache r) None → h = h' → asked all' (begun ++ [List.length all]) h) as Hnew.
  { intros h' begun E ->. exists (List.length all). split; [set_solver|]. unfold all'. rewrite E. simpl.
    rewrite lookup_app_r by by rewrite length_insert. by rewrite length_insert, Nat.sub_diag. }
  assert (∀ begun j, asked all' begun h → asked all' (begun ++ [j]) h) as Hmore.
  { intros begun j (k & Hk & E). exists k. split; [set_solver|done]. }
  clearbody all'. subst r.
  destruct g as [[|h' hosts] seen due|h' d hosts seen due|h' hosts seen due|[|h' due] begun|h' due begun|begun|h'|h' addrs err|h' d|];
    simpl in *; try done.
  - left. left. destruct Ha as [[Ha _]|]; [by apply elem_of_nil in Ha|done].
  - case_bool_decide as Hs; simpl.
    + left. destruct Ha as [[[->|Ha]%elem_of_cons Hn]|]; [done|by left|by right].
    + destruct (decidedWithoutLookup _ _ _); simpl; left; (destruct Ha as [[[->|Ha]%elem_of_cons Hn]|]; [by left| |by right; right]);
        (destruct (String.eqb_spec h h') as [->|Hne]; [by left|right; left; set_solver]).
  - destruct Ha as [->|[Ha|Ha]]; [right; eexists; split; [done|by left]|left; by left|left; by right].
  - destruct (stale _ _ _); simpl; destruct Ha as [->|[Ha|Ha]].
    + left. right. set_solver.
    + left. by left.
    + left. right. set_solver.
    + right. eexists. split; [done|by left].
    + left. by left.
    + left. by right.
  - left. destruct Ha as [Ha|Ha]; [by apply elem_of_nil in Ha|by apply Hmono].
  - destruct (vw_shutdown v); simpl; [right; eexists; split; [done|by right]|]. left. set_solver.
  - match goal with |- context [if ?b then _ else _] => destruct b end; simpl in *.
    + left. destruct Ha as [|[|]]; [by left|by right; left|right; right; by apply Hmono].
    + left. destruct Ha as [->|[|]]; [right; by eapply Hnew|by left|right; by apply Hmore, Hmono].
  - destruct (forallb _ _) eqn:F; simpl; [|left; by apply Hmono].
    exfalso. destruct Ha as (j & Hj & E). rewrite forallb_forall in F. specialize (F j (proj1 (list_elem_of_In _ _) Hj)).
    unfold returned in F. destruct (all !! j) as [[]|]; done.
Qed.

Lemma left_step s st : left_to_do (en_all s) (en_happened s) → left_to_do (en_all (take_step o s st)) (en_happened (take_step o s st)).
Proof.
  destruct s as [c all tr]. intros L. destruct st as [hosts|k v]; simpl in *.
  - intros [|x newer] i hosts' older [=] Hcut; subst.
    + exists (refreshHostnames hosts'). rewrite lookup_app_r, Nat.sub_diag by done. repeat split; try done.
      intros h Hh. right. left. split; [done|set_solver].
    + destruct (L newer i hosts' older eq_refl) as (g & Hi & Hg & Hall); [set_solver|]. exists g.
      rewrite lookup_app_l by by eapply lookup_lt_Some. repeat split; try done. intros h Hh. destruct (Hall h Hh) as [(j & e & He & Hs)|Ha].
      * left. exists j, e. split; [by right|done].
      * right. edestruct (ahead_later all (all ++ [refreshHostnames hosts]) h g False) as [?|[]]; [|exact Ha|done].
        intros begun (j & Hj & E). left. exists j. split; [done|]. destruct (all !! j) as [g'|] eqn:Ej; [|done].
        rewrite lookup_app_l by by eapply lookup_lt_Some. by rewrite Ej.
  - destruct (all !! k) as [gk|] eqn:Hk; [|done]. simpl. set (r := turn o v all c gk). set (all' := <[k := rs_next r]> all ++ rs_begun r).
    assert (∀ j gj, all !! j = Some gj → all' !! j = Some (if Nat.eqb j k then rs_next r else gj)) as Hat.
    { intros j gj Hj. unfold all'. rewrite lookup_app_l by (rewrite length_insert; by eapply lookup_lt_Some).
      destruct (Nat.eqb_spec j k) as [->|]; [rewrite list_lookup_insert_eq; [done|by eapply lookup_lt_Some]|by rewrite list_lookup_insert_ne]. }
    intros newer' i hosts older E Hcut.
    assert (∃ newer, tr = newer ++ (i, Began hosts) :: older ∧ newer' = option_list (pair k <$> rs_event r) ++ newer) as (newer & Etr & En).
    { destruct (rs_event r) as [e|] eqn:Er; [|by exists newer']. destruct newer' as [|x newer]; simplify_eq.
      - exfalso. clear -Er. subst r. destruct gk as [[|h' l] seen due|h' d l seen due|h' l seen due|[|h' due] begun|h' due begun|begun|h'|h' addrs err|h' d|];
          simpl in Er; repeat case_match; done.
      - by exists newer. }
    destruct (L newer i hosts older Etr) as (g & Hi & Hg & Hall); [intros j Hj; apply (Hcut j); rewrite En; set_solver|].
    assert (∀ h e, rs_event r = Some e → settles h e ∨ e = CutShort → settled h newer') as Hev.
    { intros h e Er [Hs| ->]; [|exfalso; apply (Hcut k); rewrite En, Er; by left]. exists k, e. split; [rewrite En, Er; by left|done]. }
    exists (if Nat.eqb i k then rs_next r else g). split; [by apply Hat|].
    destruct (Nat.eqb_spec i k) as [->|Hne].
    + rewrite Hk in Hi. injection Hi as ->. split; [by apply refresh_next|]. intros h Hh. destruct (Hall h Hh) as [(j & e & He & Hs)|Ha].
      * left. exists j, e. split; [rewrite En; set_solver|done].
      * destruct (ahead_turn v all c g h k Hk Hg Ha) as [?|(e & Er & He)]; [by right|left; by eapply Hev].
    + split; [done|]. intros h Hh. destruct (Hall h Hh) as [(j & e & He & Hs)|Ha].
      * left. exists j, e. split; [rewrite En; set_solver|done].
      * edestruct (ahead_later all all' h g (settled h newer')) as [?|?]; [|exact Ha|by right|by left].
        intros begun (j & Hj & Eq). destruct (all !! j) as [gj|] eqn:Ej; [|done]. simpl in Eq. pose proof (Hat j gj Ej) as Hj'.
        destruct (Nat.eqb_spec j k) as [->|].
        -- rewrite Hk in Ej. injection Ej as ->. destruct (about_turn v all c gj h Eq) as [Hr|(e & Er & He)]; [left|right; by eapply Hev].
           exists k. split; [done|]. by rewrite Hj'.
        -- left. exists j. split; [done|]. by rewrite Hj'.
Qed.

Lemma run_done schedule : let s := run o schedule in timely (en_happened s) ∧ left_to_do (en_all s) (en_happened s).
Proof.
  unfold run. assert (timely [] ∧ left_to_do [] []) as H by (split; intros [|] * [=]). revert H. generalize good_start.
  change (timely [] ∧ left_to_do [] []) with (timely (en_happened (mk_engine ∅ [] [])) ∧ left_to_do (en_all (mk_engine ∅ [] [])) (en_happened (mk_engine ∅ [] []))).
  generalize (mk_engine ∅ [] []). induction schedule as [|st rest IH]; intros s G [T L]; [done|].
  apply IH; [by apply good_step|]. split; [by apply timely_step|by apply left_step].
Qed.
(** ** Refreshes return *)

(** Turns that leave none of the first [n] goroutines out. *)
Definition sweep (n : nat) (sw : list step) : Prop :=
  Forall (λ st, match st with Turn _ _ => True | Refresh _ => False end) sw ∧ ∀ i, (i < n)%nat → ∃ v, Turn i v ∈ sw.

#[local] Instance returned_dec g : Decision (g = Returned).
Proof. destruct g; (by left) || by right. Defined.

(** More than the turns that are left to a goroutine and to those it will begin. *)
Definition effort (g : goroutine) : nat :=
  match g with
  | Refreshing rest _ due => 9 * List.length rest + 6 * List.length due + 3
  | Deciding _ _ rest _ due | Checking _ rest _ due => 9 * List.length rest + 6 * List.length due + 10
  | Launching due _ => 6 * List.length due + 2
  | Starting _ due _ => 6 * List.length due + 7
  | Waiting _ => 1
  | Looking _ => 3 | Silent _ _ _ => 2 | Concluding _ _ => 1
  | Returned => 0
  end%nat.
Definition total (all : list goroutine) : nat := list_sum (effort <$> all).

Definition lookups (g : goroutine) : list nat := match g with Launching _ b | Starting _ _ b | Waiting b => b | _ => [] end.
(** What a refresh waits for are lookups. *)
Definition waits_for_lookups (all : list goroutine) : Prop :=
  ∀ i g, all !! i = Some g → ∀ j, j ∈ lookups g → ∃ g', all !! j = Some g' ∧ (about g' ≠ None ∨ g' = Returned).

Lemma total_insert all i g g' : all !! i = Some g → (total (<[i := g']> all) + effort g = total all + effort g')%nat.
Proof.
  revert i. induction all as [|x l IH]; intros [|i] Hi; simplify_eq/=; unfold total in *; csimpl; [lia|]. specialize (IH i Hi). lia.
Qed.
Lemma total_app l k : total (l ++ k) = (total l + total k)%nat.
Proof. unfold total. by rewrite fmap_app, list_sum_app. Qed.

#[local] Ltac nearer := left; simpl; change (total []) with 0%nat; rewrite ?length_app; simpl; lia.
(** A turn is a step nearer, or a wait for others. *)
Lemma turn_effort v all c g : let r := turn o v all c g in
  (effort (rs_next r) + total (rs_begun r) + List.length (rs_begun r) < effort g)%nat ∨ r = goes g c ∧
    (g = Returned ∨ ∃ j, j ∈ lookups g ∧ returned all j = false).
Proof.
  destruct g as [[|h' hosts] seen due|h' d hosts seen due|h' hosts seen due|[|h' due] begun|h' due begun|begun|h'|h' addrs err|h' d|];
    simpl; try (nearer); try (by right; split; [|left]).
  - case_bool_decide; [nearer|]. case_match; nearer.
  - case_match; nearer.
  - case_match; nearer.
  - match goal with |- context [if ?b then _ else _] => destruct b eqn:E end; [right|left; unfold total; csimpl; lia].
    split; [done|]. right. destruct (filter _ begun) as [|j l] eqn:F; [done|]. exists j.
    assert (j ∈ filter (λ j, returned all j = false) begun) as [? ?]%list_elem_of_filter by (rewrite F; left). done.
  - match goal with |- context [if ?b then _ else _] => destruct b eqn:E end; [nearer|right].
    split; [done|]. right. clear -E. induction begun as [|j l IH]; [done|]. simpl in E.
    destruct (returned all j) eqn:R; [destruct (IH E) as (k & ? & ?); exists k; split; [by right|done]|exists j; split; [by left|done]].
  - repeat case_match; nearer.
  - repeat case_match; nearer.
Qed.

Lemma step_nearer s i v :
  take_step o s (Turn i v) = s ∨ (total (en_all (take_step o s (Turn i v))) + List.length (en_all (take_step o s (Turn i v))) ≤ total (en_all s) + List.length (en_all s) ∧
    total (en_all (take_step o s (Turn i v))) < total (en_all s))%nat.
Proof.
  destruct s as [c all tr]. simpl. destruct (all !! i) as [g|] eqn:Hi; [|by left]. simpl.
  destruct (turn_effort v all c g) as [H|[-> _]].
  - right. rewrite total_app, length_app, length_insert. pose proof (total_insert all i g (rs_next (turn o v all c g)) Hi). lia.
  - left. simpl. by rewrite app_nil_r, list_insert_id.
Qed.

Lemma waits_step s st : waits_for_lookups (en_all s) → waits_for_lookups (en_all (take_step o s st)).
Proof.
  destruct s as [c all tr]. intros W. destruct st as [hosts|k v]; simpl in *.
  - intros i g [H|[_ H]]%lookup_app_Some j Hj.
    + destruct (W i g H j Hj) as (g' & Hg' & ?). exists g'. split; [by apply lookup_app_l_Some|done].
    + apply list_lookup_singleton_Some in H as [_ <-]. by apply elem_of_nil in Hj.
  - destruct (all !! k) as [gk|] eqn:Hk; [|done]. simpl. set (r := turn o v all c gk). set (all' := <[k := rs_next r]> all ++ rs_begun r).
    assert (∀ j, (∃ g', all !! j = Some g' ∧ (about g' ≠ None ∨ g' = Returned)) → ∃ g', all' !! j = Some g' ∧ (about g' ≠ None ∨ g' = Returned)) as Hkeep.
    { intros j (g' & Hj & Hg'). unfold all'. rewrite lookup_app_l by (rewrite length_insert; by eapply lookup_lt_Some).
      destruct (Nat.eq_dec j k) as [->|Hne]; [|exists g'; by rewrite list_lookup_insert_ne].
      rewrite list_lookup_insert_eq by (by eapply lookup_lt_Some). eexists. split; [done|]. rewrite Hk in Hj. injection Hj as ->.
      subst r. clear -Hg'. destruct g'; simpl in *; destruct Hg' as [Hg'|Hg']; try done; repeat case_match; simpl; naive_solver. }
    intros i g Hi j Hj. apply lookup_app_Some in Hi as [Hi|[_ Hi]].
    + destruct (Nat.eq_dec i k) as [->|Hne]; [|rewrite list_lookup_insert_ne in Hi by done; by eapply Hkeep, W].
      rewrite list_lookup_insert_eq in Hi by (by eapply lookup_lt_Some). injection Hi as <-. specialize (W k gk Hk).
      destruct (base.decide (j ∈ lookups gk)) as [Hin|Hnin]; [by apply Hkeep, W|]. subst all'. subst r. clear Hkeep W.
      destruct gk as [[|h' hosts] seen due|h' d hosts seen due|h' hosts seen due|[|h' due] begun|h' due begun|begun|h'|h' addrs err|h' d|];
        simpl in *; repeat case_match; simpl in *; try done; try (by apply elem_of_nil in Hj).
      all: apply elem_of_app in Hj as [?|Hj%list_elem_of_singleton]; [done|]; subst j; exists (Looking h').
      all: rewrite lookup_app_r, length_insert, Nat.sub_diag by (by rewrite length_insert); split; [done|by left].
    + exfalso. assert (lookups g = []) as El; [|rewrite El in Hj; by apply elem_of_nil in Hj]. subst r. clear -Hi.
      destruct gk as [[|h' hosts] seen due|h' d hosts seen due|h' hosts seen due|[|h' due] begun|h' due begun|begun|h'|h' addrs err|h' d|];
        simpl in *; repeat case_match; simpl in *; try done.
      all: by apply list_lookup_singleton_Some in Hi as [_ <-].
Qed.

(** As long as one has not returned, some turn is a step nearer. *)
Lemma somebody_moves c all tr : waits_for_lookups all → ¬ Forall (λ g, g = Returned) all →
  ∃ i, (i < List.length all)%nat ∧ ∀ v, take_step o (mk_engine c all tr) (Turn i v) ≠ mk_engine c all tr.
Proof.
  intros W Hn.
  assert (∀ i g, all !! i = Some g → (∀ v, turn o v all c g ≠ goes g c) →
    ∃ i, (i < List.length all)%nat ∧ ∀ v, take_step o (mk_engine c all tr) (Turn i v) ≠ mk_engine c all tr) as Hdo.
  { intros i g Hi Hg. exists i. split; [by eapply lookup_lt_Some|]. intros v. simpl. rewrite Hi. simpl. intros [= _ E _].
    destruct (turn_effort v all c g) as [Hlt|[? _]]; [|by eapply Hg]. apply (f_equal total) in E. rewrite total_app in E.
    pose proof (total_insert all i g (rs_next (turn o v all c g)) Hi). lia. }
  assert (∀ i g, all !! i = Some g → about g ≠ None → ∀ v, turn o v all c g ≠ goes g c) as Hl.
  { intros i g _ Hg v E. destruct (turn_effort v all c g) as [Hlt|[_ [->|(j & Hj & _)]]]; [rewrite E in Hlt; simpl in Hlt; lia|done|].
    destruct g; simpl in *; try done; by apply elem_of_nil in Hj. }
  apply not_Forall_Exists, Exists_exists in Hn as (g & Hin & Hg); [|apply _].
  apply list_elem_of_lookup in Hin as [i Hi].
  destruct (Exists_dec (λ j, returned all j = false) (lookups g)) as [(j & Hj & Hr)%Exists_exists|Hnone].
  - destruct (W i g Hi j Hj) as (g' & Hg' & [Ha| ->]); [by eapply Hdo; [|eapply Hl]|]. unfold returned in Hr. by rewrite Hg' in Hr.
  - eapply Hdo; [exact Hi|]. intros v E. destruct (turn_effort v all c g) as [Hlt|[_ [?|?]]]; [rewrite E in Hlt; simpl in Hlt; lia|done|by apply Hnone, Exists_exists].
Qed.

Abbreviation take_all := (foldl (take_step o)).
Lemma turns_nearer sw : ∀ s, Forall (λ st, match st with Turn _ _ => True | Refresh _ => False end) sw →
  take_all s sw = s ∨ (total (en_all (take_all s sw)) + List.length (en_all (take_all s sw)) ≤ total (en_all s) + List.length (en_all s) ∧
    total (en_all (take_all s sw)) < total (en_all s))%nat.
Proof.
  induction sw as [|[hosts|i v] sw IH]; intros s Hsw; [by left| |]; apply Forall_cons in Hsw as [? Hsw]; [done|]. cbn [foldl].
  destruct (step_nearer s i v) as [->|?]; [by apply IH|right]. destruct (IH (take_step o s (Turn i v)) Hsw) as [->|?]; [done|lia].
Qed.
Lemma turns_move sw i v : ∀ s, Forall (λ st, match st with Turn _ _ => True | Refresh _ => False end) sw → Turn i v ∈ sw →
  (∀ v, take_step o s (Turn i v) ≠ s) → take_all s sw ≠ s.
Proof.
  induction sw as [|[hosts|j w] sw IH]; intros s Hsw Hin Hm; [by apply elem_of_nil in Hin| |]; apply Forall_cons in Hsw as [? Hsw]; [done|].
  cbn [foldl]. destruct (step_nearer s j w) as [E|Hlt].
  - rewrite E. apply elem_of_cons in Hin as [[= <- <-]|Hin]; [by edestruct Hm|by apply IH].
  - intros E. destruct (turns_nearer sw (take_step o s (Turn j w)) Hsw) as [E'|?]; [rewrite E' in E; rewrite E in Hlt; lia|].
    rewrite E in *. lia.
Qed.
Lemma turns_wait sw : ∀ s, waits_for_lookups (en_all s) → waits_for_lookups (en_all (take_all s sw)).
Proof. induction sw as [|st sw IH]; intros s W; [done|]. by apply IH, waits_step. Qed.

(** Enough sweeps, and every refresh and every lookup has returned. *)
Lemma sweeps_end n sweeps : ∀ s, waits_for_lookups (en_all s) → (total (en_all s) + List.length (en_all s) ≤ n)%nat →
  (total (en_all s) ≤ List.length sweeps)%nat → Forall (sweep n) sweeps →
  Forall (λ g, g = Returned) (en_all (take_all s (List.concat sweeps))).
Proof.
  assert (∀ l, total l = 0%nat → Forall (λ g, g = Returned) l) as Hzero.
  { intros l. unfold total. induction l as [|g l IH]; csimpl; intros E; [done|].
    constructor; [|apply IH; lia]. destruct g; simpl in E; done || lia. }
  induction sweeps as [|sw rest IH]; intros s W Hn Hl Hsw; simpl in *; [apply Hzero; lia|].
  apply Forall_cons in Hsw as [[Ht Hall] Hrest]. rewrite foldl_app.
  destruct (Forall_dec (λ g, g = Returned) (en_all s)) as [Hdone|Hnot].
  - assert (total (en_all s) = 0%nat) as Hz.
    { clear -Hdone. unfold total. induction Hdone as [|g l -> _ IHl]; csimpl; [done|]. simpl. lia. }
    destruct (turns_nearer sw s Ht) as [->|]; [apply IH; done || lia|lia].
  - destruct s as [c all tr]. destruct (somebody_moves c all tr W Hnot) as (i & Hi & Hmove). simpl in *.
    destruct (Hall i) as [v Hv]; [lia|]. pose proof (turns_move sw i v _ Ht Hv Hmove) as Hne.
    destruct (turns_nearer sw (mk_engine c all tr) Ht) as [E|Hlt]; [done|]. simpl in Hlt. apply IH; [by apply turns_wait|lia|lia|done].
Qed.

Lemma run_waits schedule : waits_for_lookups (en_all (run o schedule)).
Proof. unfold run. apply turns_wait. intros i g Hi. simpl in Hi. by rewrite lookup_nil in Hi. Qed.
End Words.

(** ** With routing *)

Lemma free_subset hosts path t : (free hosts path t).1 ⊆ hosts.
Proof.
  revert t. induction hosts as [|h rest IH]; intros t; simpl; [done|].
  destruct (bool_decide (h ∈ taken t) || bool_decide (part h path ∈ served_parts t)).
  - specialize (IH t). intros x Hx. right. by apply IH.
  - set (t1 := mk_taken _ _ _). specialize (IH t1). destruct (free rest path t1) as [out t']. simpl in *.
    intros x [->|Hx]%elem_of_cons; [by left|]. right. by apply IH.
Qed.
Lemma claim_subset hosts t : (claim hosts t).1 ⊆ hosts.
Proof.
  revert t. induction hosts as [|h rest IH]; intros t; simpl; [done|].
  destruct (bool_decide (h ∈ t)).
  - specialize (IH t). intros x Hx. right. by apply IH.
  - specialize (IH ({[h]} ∪ t)). destruct (claim rest ({[h]} ∪ t)) as [out t']. simpl in *.
    intros x [->|Hx]%elem_of_cons; [by left|]. right. by apply IH.
Qed.

Lemma route_of_ready ready accounts names containers p t r :
  (route_of ready accounts names containers p t).1 = Some r → ∀ h, h ∈ routeHostnames r → ready h = true.
Proof.
  unfold route_of. destruct (String.eqb _ ""); [done|]. destruct (free [_] _ t) as [mine t1]. case_bool_decide; [done|].
  destruct (ready (hn_domain (pl_hosts p))) eqn:Er; [|done]. simpl.
  set (al := readyHosts ready (hn_aliases (pl_hosts p))).
  assert ((free al (hn_path (pl_hosts p)) t1).1 ⊆ al) as Ha by apply free_subset.
  destruct (free al _ t1) as [aliases t2]. simpl in Ha.
  set (re := filter _ (readyHosts ready (hn_redirects (pl_hosts p)))).
  assert ((claim re (taken t2)).1 ⊆ re) as Hr by apply claim_subset.
  destruct (claim re (taken t2)) as [redirects tk]. simpl in Hr.
  assert (∀ h, h ∈ hn_domain (pl_hosts p) :: aliases ++ redirects → ready h = true) as Hall.
  { intros h [->|[Hh|Hh]%elem_of_app]%elem_of_cons; [done| |].
    - by apply Ha, list_elem_of_filter in Hh as [? _].
    - by apply Hr, list_elem_of_filter in Hh as [_ [? _]%list_elem_of_filter]. }
  destruct (hn_proxy (pl_hosts p)) as [px|]; [destruct (accounts (px_BasicAuth px))|]; [done|intros [= <-]; exact Hall..].
Qed.

Lemma routes_from_ready ready accounts names containers plans : ∀ t r,
  r ∈ routes_from ready accounts names containers plans t → ∀ h, h ∈ routeHostnames r → ready h = true.
Proof.
  induction plans as [|p rest IH]; intros t r; simpl; [by intros ?%elem_of_nil|].
  pose proof (route_of_ready ready accounts names containers p t) as Hp.
  destruct (route_of ready accounts names containers p t) as [[r'|] t']; simpl in *.
  - intros [->|Hr]%elem_of_cons; [by apply Hp|by eapply IH].
  - by apply IH.
Qed.


(** ** Two refreshes at once *)

Module Interleaved.
Definition o : options := mk_options ["203.0.113.7"] false.
Definition host : string := "shop.example.com".
Definition cert : suppliedCertificate := mk_supplied host [host].
Definition here : view := mk_view [] 0 ["203.0.113.7"] None false.
Definition elsewhere : view := mk_view [] 0 ["198.51.100.9"] None false.
Definition mute : view := mk_view [] 0 [] (Some (mk_lookup_error false "i/o timeout")) false.
Definition covered : view := mk_view [cert] 0 [] None false.
Definition later : view := mk_view [] (hostnameReadyFor + 1) [] (Some (mk_lookup_error false "i/o timeout")) false.
(** A refresh as far as its lookup, begun while [n] goroutines are there. *)
Definition asks (n : nat) : list step := Refresh [host] :: repeat (Turn n here) 5.
(** The old address is answered to the first lookup, the new one to the second,
    which is recorded before the first. *)
Definition overtaken : list step :=
  asks 0 ++ asks 2 ++ [Turn 1 elsewhere; Turn 3 here; Turn 3 here; Turn 1 elsewhere].
(** Both find the hostname waiting; one is answered, then the other is not heard. *)
Definition unheard : list step :=
  asks 0 ++ asks 2 ++ [Turn 1 mute; Turn 1 mute; Turn 3 here; Turn 3 here; Turn 1 mute].
(** Served for its certificate; the certificate is removed, no resolver answers. *)
Definition uncovered : list step :=
  [Refresh [host]; Turn 0 covered; Turn 0 covered; Refresh [host]] ++ repeat (Turn 1 later) 5 ++ [Turn 2 later; Turn 2 later].
Definition ends (schedule : list step) : bool := (hostnameReady (en_cache (run o schedule)) host).1.
End Interleaved.

(** Of two lookups at once, the older answer is recorded last. *)
Lemma older_answer_overtakes : Interleaved.ends (take 14 Interleaved.overtaken) = false ∧ Interleaved.ends (take 15 Interleaved.overtaken) = true
  ∧ Interleaved.ends Interleaved.overtaken = false.
Proof. vm_compute. done. Qed.
(** A lookup nobody answered sees that the hostname is not served and records that;
    in between, another has made it ready. *)
Lemma silence_takes_out : Interleaved.ends (take 16 Interleaved.unheard) = true ∧ Interleaved.ends Interleaved.unheard = false.
Proof. vm_compute. done. Qed.
(** A hostname that was served for its certificate alone stays served when the
    certificate is removed and no resolver answers: DNS has never said that it
    points here. *)
Lemma certificate_verdict_outlives : Interleaved.ends Interleaved.uncovered = true
  ∧ Forall (λ e, match e.2 with Answered _ _ err => unanswered err = true | _ => True end) (en_happened (run Interleaved.o Interleaved.uncovered)).
Proof. vm_compute. repeat constructor. Qed.

(** C27: refreshes may begin at any time and their loops and lookups may interleave
    in any way, whatever the certificates, the clocks and the resolvers say. Then what
    the gate says of a hostname is the verdict recorded for it last. Every verdict
    recorded is the decision of a certificate or of the DNS challenge in the same
    refresh, or that of what its lookup was answered; that of a lookup nobody
    answered is recorded only after it found the hostname not served. Every
    decision and every answer is recorded, or about to be (one that comes when the
    agent shuts down is dropped), and only a verdict recorded later replaces it. So a ready hostname is ready on somebody's
    word, never on silence: a certificate covered it, or it is a wildcard under the
    DNS challenge, or a resolver's answer led here. A decision stands until another
    verdict is recorded, even when its certificate is gone and no resolver answers;
    and of two lookups at once the older answer may be recorded last. Of the
    hostnames of the applications, the proxy is told only of those whose standing
    verdict is good. A refresh that returns has seen to each of its hostnames, unless
    the agent shut down meanwhile: a verdict was recorded or left since it began, or
    the hostname was not due, its last verdict being younger than half a minute if
    good, than ten seconds if not (one that was kept counts as twenty seconds older). And every refresh returns: given enough rounds of
    turns, whatever they read, no goroutine is left. *)
Theorem last_word_counts o schedule c all tr : run o schedule = mk_engine c all tr →
  (∀ h, hostnameReady c h = standing h tr ∧
     ((hostnameReady c h).1 = true → ∃ i e, (i, e) ∈ tr ∧ said o h e = Some (hostnameReady c h) ∧ vouches o h e)) ∧
  (∀ newer i h d at_ older, tr = newer ++ (i, Recorded h d at_) :: older → founded o i h d older) ∧
  (∀ newer i e older h d, tr = newer ++ (i, e) :: older → said o h e = Some d →
     (∃ at_, (i, Recorded h d at_) ∈ newer) ∨ recording i h d all) ∧
  (∀ extra accounts names containers plans r host,
     r ∈ routesFor extra (λ h, (hostnameReady c h).1) accounts names containers plans →
     r ∉ extra → host ∈ routeHostnames r → (standing host tr).1 = true) ∧
  (∀ newer i hosts older, tr = newer ++ (i, Began hosts) :: older → all !! i = Some Returned →
     (∀ j, (j, CutShort) ∉ newer) → ∀ h, h ∈ hosts → settled h newer) ∧
  (∀ newer i h now older, tr = newer ++ (i, NotDue h now) :: older → ∃ at_, checked h older = Some at_ ∧
     Sub now at_ < (if (standing h older).1 then hostnameReadyFor else hostnameRetryAfter)) ∧
  ∃ n, ∀ sweeps, (n ≤ List.length sweeps)%nat → Forall (sweep n) sweeps →
    Forall (λ g, g = Returned) (en_all (foldl (take_step o) (mk_engine c all tr) (List.concat sweeps))).
Proof.
  intros E. pose proof (run_good o schedule) as G. destruct (run_done o schedule) as [T L]. pose proof (run_waits o schedule) as W.
  rewrite E in G, T, L, W. split_and!.
  - intros h. split; [apply ready_standing, (g_stands _ _ G)|apply (standing_vouched _ _ _ G)].
  - apply (g_founded _ _ G).
  - apply (g_heard _ _ G).
  - intros extra accounts names containers plans r host [Hr|Hr]%elem_of_app Hn Hh; [done|].
    pose proof (g_stands _ _ G host) as Hst. simpl in Hst. rewrite <- (ready_standing _ _ _ Hst). by eapply routes_from_ready in Hr.
  - intros newer i hosts older Ht Hi Hcut h Hh. destruct (L _ _ _ _ Ht Hcut) as (g & Hg & _ & Hall). simpl in Hg.
    rewrite Hi in Hg. injection Hg as <-. by destruct (Hall h Hh).
  - exact T.
  - exists (total all + List.length all)%nat. intros sweeps Hl Hsw. apply (sweeps_end o (total all + List.length all)); simpl; done || lia.
Qed.

Lemma last_word_counts_witness :
  match run Interleaved.o (take 15 Interleaved.overtaken) with
  | mk_engine c all tr => standing Interleaved.host tr = (true, "") ∧
      (∃ i e, (i, e) ∈ tr ∧ said Interleaved.o Interleaved.host e = Some (true, "") ∧ vouches Interleaved.o Interleaved.host e) ∧
      recording 1 Interleaved.host (verdict Interleaved.o Interleaved.host ["198.51.100.9"] None) all
  end.
Proof.
  assert (hostnameReady (en_cache (run Interleaved.o (take 15 Interleaved.overtaken))) Interleaved.host = (true, "")) as R
    by (vm_compute; reflexivity).
  assert (recording 1 Interleaved.host (verdict Interleaved.o Interleaved.host ["198.51.100.9"] None)
            (en_all (run Interleaved.o (take 15 Interleaved.overtaken)))) as P by (vm_compute; reflexivity).
  destruct (run Interleaved.o (take 15 Interleaved.overtaken)) as [c all tr] eqn:E. simpl in R, P.
  destruct (last_word_counts _ _ _ _ _ E) as [H _]. destruct (H Interleaved.host) as [Hs Hv]. rewrite R in Hs, Hv.
  split; [done|]. split; [by apply Hv|exact P].
Defined.
