(* ===== verification/Locks.v ===== *)
(** * Operations in progress (engine.go: lock, tryLock, unlock, release, opDone,
    Wait, Shutdown; beginOp of jobs.go; the drains of drain.go)

    Deployments, the other operations, the supervisor and the containers being
    retired all run at once. What they share is an [engine], guarded by its
    mutex: the application locks, the count of operations, the drains, and which
    channels have been closed. What runs under the mutex is a function of the
    engine; a goroutine is a [thread], at one of the places between two such
    steps, and a [step] lets any of them go on. A channel is a number; closing a
    closed one panics. *)

From S2P Require Import Prelude GoStrings.
From Stdlib Require Import String.
Local Open Scope string_scope.
Local Open Scope Z_scope.

Inductive refusal := ErrShuttingDown | ErrBusy | ErrContext.

Record appLock := mk_lock { bySupervisor : bool; released : nat }.
Record drain := mk_drain { dr_app : string; dr_done : nat }.

(** [made] is the next channel, [shut] are the ones that are closed. *)
Record engine := mk_engine {
  closed : bool; locks : gmap string appLock; ops : Z; drains : gmap string drain; made : nat; shut : gset nat }.
Definition New : engine := mk_engine false ∅ 0 ∅ 0 ∅.
Definition set_ops n e := mk_engine (closed e) (locks e) n (drains e) (made e) (shut e).
Definition set_closed e := mk_engine true (locks e) (ops e) (drains e) (made e) (shut e).

(** ** Under the mutex *)

Inductive tried := Locked (ch : nat) | WaitFor (ch : nat) | Refused (r : refusal).

Definition tryLock (app : string) (sup : bool) (e : engine) : engine * tried :=
  if closed e then (e, Refused ErrShuttingDown) else
  match locks e !! app with
  | Some held => (e, if bySupervisor held && negb sup then WaitFor (released held) else Refused ErrBusy)
  | None => (mk_engine (closed e) (<[app := mk_lock sup (made e)]> (locks e)) (ops e + 1) (drains e) (S (made e)) (shut e), Locked (made e))
  end.

(** close(ch): [None] is a panic. *)
Definition close (ch : nat) (e : engine) : option engine :=
  if bool_decide (ch ∈ shut e) then None
  else Some (mk_engine (closed e) (locks e) (ops e) (drains e) (made e) ({[ch]} ∪ shut e)).

Definition release (app : string) (e : engine) : option engine :=
  match locks e !! app with
  | Some held => (λ e, mk_engine (closed e) (delete app (locks e)) (ops e) (drains e) (made e) (shut e)) <$> close (released held) e
  | None => Some e
  end.

(** opDone: the engine, and whether it wakes who waits for the last operation. *)
Definition opDone (e : engine) : engine * bool := (set_ops (ops e - 1) e, ops e - 1 =? 0).
Definition beginOp (e : engine) : engine * bool := if closed e then (e, false) else (set_ops (ops e + 1) e, true).

(** The beginning of retireInBackground: [None] when there is nothing to begin,
    because the agent is shutting down or the container is draining already. *)
Definition begin_drain (id app : string) (e : engine) : option (engine * nat) :=
  if closed e then None else
  match drains e !! id with
  | Some _ => None
  | None => Some (mk_engine (closed e) (locks e) (ops e + 1) (<[id := mk_drain app (made e)]> (drains e)) (S (made e)) (shut e), made e)
  end.
Definition end_drain (id : string) (e : engine) : engine :=
  mk_engine (closed e) (locks e) (ops e) (delete id (drains e)) (made e) (shut e).
Definition draining (id : string) (e : engine) : bool := bool_decide (is_Some (drains e !! id)).
(** The channels awaitDrains waits for; [None] is every application (awaitAllDrains). *)
Definition pending (app : option string) (e : engine) : list nat :=
  omap (λ '(_, dr), match app with
                    | Some a => if String.eqb (dr_app dr) a then Some (dr_done dr) else None
                    | None => Some (dr_done dr)
                    end) (map_to_list (drains e)).

(** ** Goroutines *)

(** Where a goroutine is. [Holding app ch] is anything between a tryLock that
    succeeded and the release, be it an operation, a deployment in the background
    or a tick of the supervisor; [ch] is the channel of its lock. [Counted] is what
    is left of an operation before opDone. [Wait] is asked by Shutdown ([true]) or
    by anyone. *)
Inductive thread :=
  | Locking (app : string) (sup : bool) | Waiting (app : string) (ch : nat) | Gone (r : refusal)
  | Holding (app : string) (ch : nat) | Beginning | Counted | Ended
  | Retire (id app : string) | Retiring (id : string) (ch : nat) | Retired (ch : nat)
  | AwaitingDrains (app : option string) | OnDrains (app : option string) (l : list nat)
  | Closing | AwaitingIdle (shutdown : bool) | Asleep (shutdown : bool) | Idle (shutdown : bool)
  | Panicked.

Inductive begins : thread → Prop :=
  | begins_lock app sup : begins (Locking app sup)
  | begins_op : begins Beginning
  | begins_retire id app : begins (Retire id app)
  | begins_drains app : begins (AwaitingDrains app)
  | begins_shutdown : begins Closing
  | begins_wait : begins (AwaitingIdle false).

(** One step of a goroutine: the engine before and after, where the goroutine
    is then, and whether it wakes those asleep in Wait. *)
Inductive act : engine → thread → engine → thread → bool → Prop :=
  | act_locked app sup e e' ch : tryLock app sup e = (e', Locked ch) → act e (Locking app sup) e' (Holding app ch) false
  | act_wait app sup e e' ch : tryLock app sup e = (e', WaitFor ch) → act e (Locking app sup) e' (Waiting app ch) false
  | act_refused app sup e e' r : tryLock app sup e = (e', Refused r) → act e (Locking app sup) e' (Gone r) false
  | act_woken app ch e : ch ∈ shut e → act e (Waiting app ch) e (Locking app false) false
  | act_deadline app ch e : act e (Waiting app ch) e (Gone ErrBusy) false
  | act_context app ch e : act e (Waiting app ch) e (Gone ErrContext) false
  | act_release app ch e e' : release app e = Some e' → act e (Holding app ch) e' Counted false
  | act_release_panic app ch e : release app e = None → act e (Holding app ch) e Panicked false
  | act_begin e e' : beginOp e = (e', true) → act e Beginning e' Counted false
  | act_begin_refused e e' : beginOp e = (e', false) → act e Beginning e' (Gone ErrShuttingDown) false
  | act_done e e' b : opDone e = (e', b) → act e Counted e' Ended b
  | act_retire id app e e' ch : begin_drain id app e = Some (e', ch) → act e (Retire id app) e' (Retiring id ch) false
  | act_no_retire id app e : begin_drain id app e = None → act e (Retire id app) e Ended false
  | act_retired id ch e : act e (Retiring id ch) (end_drain id e) (Retired ch) false
  | act_drained ch e e' : close ch e = Some e' → act e (Retired ch) e' Counted false
  | act_drained_panic ch e : close ch e = None → act e (Retired ch) e Panicked false
  | act_pending app e : pending app e ≠ [] → act e (AwaitingDrains app) e (OnDrains app (pending app e)) false
  | act_no_pending app e : pending app e = [] → act e (AwaitingDrains app) e Ended false
  | act_one_drained app ch l e : ch ∈ shut e → act e (OnDrains app (ch :: l)) e (OnDrains app l) false
  | act_all_drained app e : act e (OnDrains app []) e (AwaitingDrains app) false
  | act_drains_context app l e : act e (OnDrains app l) e (Gone ErrContext) false
  | act_close e : act e Closing (set_closed e) (AwaitingIdle true) false
  | act_sleep b e : 0 < ops e → act e (AwaitingIdle b) e (Asleep b) false
  | act_idle b e : ops e ≤ 0 → act e (AwaitingIdle b) e (Idle b) false.

(** Broadcast wakes everybody who is asleep. *)
Definition wake (b : bool) (t : thread) : thread :=
  match t with Asleep s => if b then AwaitingIdle s else t | _ => t end.

Definition system : Type := engine * list thread.

Inductive step : system → system → Prop :=
  | step_begin e ts t : begins t → step (e, ts) (e, (ts ++ [t])%list)
  | step_act e ts i t e' t' b : ts !! i = Some t → act e t e' t' b → step (e, ts) (e', wake b <$> <[i := t']> ts).

Definition reachable : system → Prop := rtc step (New, []).
