(* ===== verification/LocksInv.v ===== *)
(** * What the locks promise

    Invariants of the reachable systems of Locks.v: what every goroutine may rely
    on where it is ([fine]), and how the goroutines and the engine fit together
    ([consistent]). *)

From S2P Require Import Prelude GoStrings Locks.
From Stdlib Require Import String.
Local Open Scope Z_scope.

(** The channel a goroutine is to close. *)
Definition own (t : thread) : option nat :=
  match t with Holding _ ch | Retiring _ ch | Retired ch => Some ch | _ => None end.
(** An operation that is counted. *)
Definition weight (t : thread) : Z :=
  match t with Holding _ _ | Counted | Retiring _ _ | Retired _ => 1 | _ => 0 end.
Definition count (ts : list thread) : Z := foldr (λ t n, weight t + n) 0 ts.
Definition to_close (e : engine) (ch : nat) : Prop := (ch ∉ shut e) ∧ (ch < made e)%nat.

(** What a goroutine may rely on. *)
Definition fine (e : engine) (t : thread) : Prop :=
  match t with
  | Holding app ch => (∃ sup, locks e !! app = Some (mk_lock sup ch)) ∧ to_close e ch
  | Waiting app ch => ch ∈ shut e ∨ locks e !! app = Some (mk_lock true ch)
  | Retiring id ch => (∃ app, drains e !! id = Some (mk_drain app ch)) ∧ to_close e ch
  | Retired ch => to_close e ch
  | Asleep b => 0 < ops e ∧ (b = true → closed e = true)
  | AwaitingIdle b => b = true → closed e = true
  | Idle true => closed e = true ∧ ops e = 0
  | Panicked => False
  | _ => True
  end.

Record consistent (s : system) : Prop := {
  counted : ops s.1 = count s.2;
  all_fine (i : nat) t : s.2 !! i = Some t → fine s.1 t;
  once (i j : nat) t u ch : s.2 !! i = Some t → s.2 !! j = Some u → own t = Some ch → own u = Some ch → i = j;
  shut_made ch : ch ∈ shut s.1 → (ch < made s.1)%nat;
  held app l : locks s.1 !! app = Some l → Holding app (released l) ∈ s.2;
  drained id dr : drains s.1 !! id = Some dr → Retiring id (dr_done dr) ∈ s.2;
  awaited app l ch : OnDrains app l ∈ s.2 → ch ∈ l → ch ∈ shut s.1 ∨ ∃ u, u ∈ s.2 ∧ own u = Some ch }.

(** ** Counting and moving *)

Lemma count_nonneg ts : 0 ≤ count ts.
Proof. induction ts as [|t ts IH]; simpl; [done|]. destruct t; simpl; lia. Qed.
Lemma count_insert (ts : list thread) (i : nat) t t' : ts !! i = Some t → count (<[i := t']> ts) = count ts - weight t + weight t'.
Proof.
  revert i. induction ts as [|u ts IH]; intros [|i] H; try done; simpl in *.
  - injection H as ->. lia.
  - rewrite (IH i H). lia.
Qed.
Lemma count_wake b ts : count (wake b <$> ts) = count ts.
Proof. induction ts as [|t ts IH]; csimpl; [done|]. rewrite IH. by destruct t, b. Qed.
Lemma count_app ts us : count (ts ++ us) = count ts + count us.
Proof. induction ts as [|t ts IH]; simpl; [done|]. rewrite IH. lia. Qed.
Lemma count_in (ts : list thread) (i : nat) t : ts !! i = Some t → weight t ≤ count ts.
Proof.
  revert i. induction ts as [|u ts IH]; intros [|i] H; try done; simpl in *.
  - injection H as ->. pose proof (count_nonneg ts). lia.
  - specialize (IH i H). destruct u; simpl; lia.
Qed.

Lemma own_wake b t : own (wake b t) = own t.
Proof. by destruct t, b. Qed.
Lemma wake_same b t u : (∀ s, t ≠ Asleep s) → (∀ s, t ≠ AwaitingIdle s) → wake b u = t → u = t.
Proof. destruct u, b; simpl; intros H1 H2 H; try done; by destruct (H2 shutdown). Qed.

(** Where the goroutines are after one of them has moved. *)
Lemma moved_lookup (ts : list thread) (i : nat) t t' b (j : nat) u : ts !! i = Some t → (wake b <$> <[i := t']> ts) !! j = Some u →
  (j = i ∧ u = wake b t') ∨ (j ≠ i ∧ ∃ v, ts !! j = Some v ∧ u = wake b v).
Proof.
  intros Hi. rewrite list_lookup_fmap, fmap_Some. intros (v & [(-> & -> & _)|(Hne & Hv)]%list_lookup_insert_Some & ->); [by left|right].
  split; [done|]. by exists v.
Qed.
Lemma moved_self (ts : list thread) (i : nat) t t' b : ts !! i = Some t → wake b t' ∈ wake b <$> <[i := t']> ts.
Proof.
  intros Hi. apply list_elem_of_lookup. exists i. rewrite list_lookup_fmap, list_lookup_insert_eq; [done|]. by eapply lookup_lt_Some.
Qed.
Lemma moved_other (ts : list thread) (i : nat) t t' b u : ts !! i = Some t → u ∈ ts → u ≠ t → wake b u ∈ wake b <$> <[i := t']> ts.
Proof.
  intros Hi (j & Hj)%list_elem_of_lookup Hne. apply list_elem_of_lookup. exists j.
  rewrite list_lookup_fmap, list_lookup_insert_ne by congruence. by rewrite Hj.
Qed.

(** ** What a step of one goroutine leaves the others *)

Lemma release_some e app ch e1 : fine e (Holding app ch) → release app e = Some e1 →
  ∃ sup, locks e !! app = Some (mk_lock sup ch) ∧ e1 = mk_engine (closed e) (delete app (locks e)) (ops e) (drains e) (made e) ({[ch]} ∪ shut e).
Proof.
  intros [[sup Hl] [Hn _]]. unfold release, close. rewrite Hl. simpl. rewrite bool_decide_false by done. intros [= <-]. by exists sup.
Qed.
Lemma release_none e app ch : fine e (Holding app ch) → release app e ≠ None.
Proof. intros [[sup Hl] [Hn _]]. unfold release, close. rewrite Hl. simpl. by rewrite bool_decide_false. Qed.
Lemma close_none e ch : to_close e ch → close ch e ≠ None.
Proof. intros [Hn _]. unfold close. by rewrite bool_decide_false. Qed.

(** Opens what a goroutine did under the mutex. *)
Ltac under_mutex Ht :=
  match goal with
  | H : tryLock _ _ _ = _ |- _ => unfold tryLock in H
  | H : beginOp _ = _ |- _ => unfold beginOp in H
  | H : opDone _ = _ |- _ => unfold opDone in H
  | H : begin_drain _ _ _ = _ |- _ => unfold begin_drain in H
  | H : release _ _ = Some _ |- _ => destruct (release_some _ _ _ _ Ht H) as (? & ? & ->); clear H
  | H : release _ _ = None |- _ => by destruct (release_none _ _ _ Ht)
  | H : close _ _ = Some _ |- _ => unfold close in H
  | H : close _ _ = None |- _ => by destruct (close_none _ _ Ht)
  | |- _ => idtac
  end; simplify_eq; case_tests.

(** The mover's own channel: kept, closed or made. *)
Lemma act_own_before e t e' t' b ch : act e t e' t' b → fine e t → own t = Some ch → own t' = Some ch ∨ ch ∈ shut e'.
Proof. intros Hact Ht Ho. destruct Hact; simpl in Ho; simplify_eq; under_mutex Ht; simpl; auto; right; set_solver. Qed.
Lemma act_own_after e t e' t' b ch : act e t e' t' b → own t' = Some ch → own t = Some ch ∨ ch = made e.
Proof. intros Hact Ho. destruct Hact; simpl in *; simplify_eq; auto; under_mutex I; simpl; auto. Qed.
Lemma act_shut e t e' t' b ch : act e t e' t' b → fine e t → ch ∈ shut e → ch ∈ shut e'.
Proof. intros Hact Ht Hc. destruct Hact; under_mutex Ht; simpl; auto; set_solver. Qed.
Lemma act_count e t e' t' b : act e t e' t' b → fine e t → ops e' = ops e - weight t + weight t'.
Proof. intros Hact Ht. destruct Hact; under_mutex Ht; simpl; lia. Qed.
Lemma act_shut_made e t e' t' b ch : act e t e' t' b → fine e t → (∀ ch, ch ∈ shut e → (ch < made e)%nat) → ch ∈ shut e' → (ch < made e')%nat.
Proof.
  intros Hact Ht Hs Hc. destruct Hact; under_mutex Ht; simpl in *; try (by apply Hs); try (apply Hs in Hc; lia);
    apply elem_of_union in Hc as [->%elem_of_singleton|Hc]; try (by apply Hs); unfold to_close in Ht; tauto.
Qed.

(** The mover is where it may be. *)
Lemma act_fine e t e' t' b : act e t e' t' b → fine e t → (∀ ch, ch ∈ shut e → (ch < made e)%nat) → 0 ≤ ops e → fine e' (wake b t').
Proof.
  intros Hact Ht Hs Ho. assert (made e ∉ shut e) as Hm by (intros ?%Hs; lia).
  destruct Hact; under_mutex Ht; unfold to_close in *; simpl in *; auto; try (by intros); try tauto.
  all: try (split; [eexists; apply lookup_insert_eq|split; [done|lia]]).
  - right. bools. destruct a as [[] ch]; [done|discriminate].
  - destruct b; [split; [auto|lia]|done].
Qed.

(** A new key leaves what is under the others; so does the removal of one. *)
Lemma insert_other {A} (m : gmap string A) k k0 v w : m !! k = None → m !! k0 = Some w → <[k := v]> m !! k0 = Some w.
Proof. intros H1 H2. rewrite lookup_insert_ne by congruence. done. Qed.
Lemma delete_other {A} (m : gmap string A) k k0 v w : m !! k = Some v → m !! k0 = Some w → v ≠ w → delete k m !! k0 = Some w.
Proof. intros H1 H2 Hne. rewrite lookup_delete_ne by congruence. done. Qed.

(** The others are where they may be. *)
Lemma act_others e t e' t' b u : act e t e' t' b → fine e t → (∀ ch, ch ∈ shut e → (ch < made e)%nat) → weight t ≤ ops e →
  fine e u → (∀ ch, own u = Some ch → own t ≠ Some ch) → fine e' (wake b u).
Proof.
  intros Hact Ht Hs Ho Hu Hown. assert (made e ∉ shut e) as Hm by (intros ?%Hs; lia).
  destruct Hact; under_mutex Ht; simpl in *; try (by destruct u); destruct u; simpl in *; try done;
    try (pose proof (Hown _ eq_refl)); clear Hown; unfold to_close in *; simpl in *; destruct_and?; destruct_or?;
    repeat match goal with H : ∃ _, _ |- _ => destruct H end; destruct_and?;
    try (split_and!; first [done | lia | solve [eauto using insert_other] | apply not_elem_of_union; split; [apply not_elem_of_singleton; congruence|done]]);
    try (split_and!; [eexists; eapply delete_other; [done..|congruence]|apply not_elem_of_union; split; [apply not_elem_of_singleton; congruence|done]|done]);
    try (intros ?; simplify_eq; naive_solver lia);
    try (by eauto using insert_other);
    try (left; apply elem_of_union; by right);
    try (destruct shutdown; [exfalso|done]; destruct_and?; congruence || lia).
  - destruct (decide (app0 = app)) as [->|Hne]; [left; set_solver|right; by rewrite lookup_delete_ne].
  - destruct (Z.eqb_spec (ops e - 1) 0); simpl; [done|split; [lia|done]].
  - split_and!; [eexists; eapply delete_other; [done..|congruence]|done..].
  - destruct shutdown; [by destruct_and?|done].
Qed.

(** Locks and drains that are there, before and after. *)
Lemma act_locks e t e' t' b app l : act e t e' t' b → fine e t → locks e' !! app = Some l →
  t' = Holding app (released l) ∨ (locks e !! app = Some l ∧ t ≠ Holding app (released l)).
Proof.
  intros Hact Ht Hl. destruct Hact; under_mutex Ht; simpl in *; try (by right).
  - apply lookup_insert_Some in Hl as [[<- <-]|[Hne Hl]]; [by left|by right].
  - apply lookup_delete_Some in Hl as [Hne Hl]. right. split; [done|congruence].
Qed.
Lemma act_drains e t e' t' b id dr : act e t e' t' b → fine e t → drains e' !! id = Some dr →
  t' = Retiring id (dr_done dr) ∨ (drains e !! id = Some dr ∧ t ≠ Retiring id (dr_done dr)).
Proof.
  intros Hact Ht Hl. destruct Hact; under_mutex Ht; simpl in *; try (by right).
  - apply lookup_insert_Some in Hl as [[<- <-]|[Hne Hl]]; [by left|by right].
  - apply lookup_delete_Some in Hl as [Hne Hl]. right. split; [done|congruence].
Qed.

(** What awaitDrains is about to wait for. *)
Lemma act_pending_of e t e' t' b app l ch : act e t e' t' b → t' = OnDrains app l → ch ∈ l →
  (∃ l0, t = OnDrains app l0 ∧ ch ∈ l0) ∨ (∃ id dr, drains e !! id = Some dr ∧ dr_done dr = ch).
Proof.
  intros Hact Ht' Hc. destruct Hact; simplify_eq.
  - right. unfold pending in Hc. apply list_elem_of_omap in Hc as ([id dr] & Hd & Hc). apply elem_of_map_to_list in Hd.
    exists id, dr. split; [done|]. destruct app as [a|]; [destruct (String.eqb (dr_app dr) a)|]; congruence.
  - left. eexists. split; [done|by right].
Qed.

(** ** Every reachable system *)

Lemma consistent_start : consistent (New, []).
Proof. split; simpl; try done; intros; rewrite ?elem_of_nil in *; try done; set_solver. Qed.

Lemma consistent_begin e ts t : begins t → consistent (e, ts) → consistent (e, (ts ++ [t])%list).
Proof.
  intros Hb [H1 H2 H3 H4 H5 H6 H7]. simpl in *.
  assert (own t = None ∧ weight t = 0 ∧ fine e t ∧ (∀ app l, t ≠ OnDrains app l)) as (Ho & Hw & Hf & Hd) by (by destruct Hb).
  assert (∀ (j : nat) u, (ts ++ [t])%list !! j = Some u → ts !! j = Some u ∨ u = t) as Hl.
  { intros j u [Hj|[_ Hj]]%lookup_app_Some; [by left|right]. by apply list_lookup_singleton_Some in Hj as [_ <-]. }
  split; simpl.
  - rewrite count_app. simpl. lia.
  - intros i u [Hu| ->]%Hl; [by eapply H2|done].
  - intros i j u v ch [Hu| ->]%Hl [Hv| ->]%Hl Ou Ov; [by eapply H3|congruence..].
  - done.
  - intros app l Hl'. apply elem_of_app. left. by apply H5.
  - intros id dr Hd'. apply elem_of_app. left. by apply H6.
  - intros app l ch [Hu|Hu%list_elem_of_singleton]%elem_of_app Hc; [|by destruct (Hd app l)].
    destruct (H7 _ _ _ Hu Hc) as [?|(u & ? & ?)]; [by left|right]. exists u. split; [set_solver|done].
Qed.

Lemma consistent_act e ts (i : nat) t e' t' b : ts !! i = Some t → act e t e' t' b →
  consistent (e, ts) → consistent (e', wake b <$> <[i := t']> ts).
Proof.
  intros Hi Hact [H1 H2 H3 H4 H5 H6 H7]. simpl in *. pose proof (H2 i t Hi) as Ht.
  assert (weight t ≤ ops e) as Hw by (rewrite H1; by eapply count_in).
  pose proof (count_nonneg ts) as Hn.
  assert (∀ ch, own t' = Some ch → own t = Some ch ∨ ch = made e) as Ha by (intros ch; by eapply act_own_after).
  assert (∀ j u ch, ts !! j = Some u → own u = Some ch → (ch < made e)%nat) as Hm.
  { intros j u ch Hj Ho. specialize (H2 j u Hj). destruct u; simpl in *; simplify_eq; unfold to_close in *; tauto. }
  split; simpl.
  - rewrite count_wake, (count_insert _ _ t) by done. rewrite (act_count _ _ _ _ _ Hact Ht). lia.
  - intros j u Hu. destruct (moved_lookup _ _ _ _ _ _ _ Hi Hu) as [[-> ->]|[Hne (v & Hv & ->)]].
    + eapply act_fine; [done..|lia].
    + eapply act_others; [done..|by apply (H2 j)|]. intros ch Hch Ht0. by destruct (Hne (H3 j i v t ch Hv Hi Hch Ht0)).
  - intros j k u v ch Hu Hv Ou Ov.
    destruct (moved_lookup _ _ _ _ _ _ _ Hi Hu) as [[-> ->]|[Hne (u0 & Hu0 & ->)]];
      destruct (moved_lookup _ _ _ _ _ _ _ Hi Hv) as [[-> ->]|[Hne' (v0 & Hv0 & ->)]]; rewrite own_wake in *; [done| | |by eapply H3].
    + destruct (Ha ch Ou) as [?| ->]; [by eapply H3|]. specialize (Hm k v0 _ Hv0 Ov). lia.
    + destruct (Ha ch Ov) as [?| ->]; [by eapply H3|]. specialize (Hm j u0 _ Hu0 Ou). lia.
  - intros ch. by eapply act_shut_made.
  - intros app l Hl. destruct (act_locks _ _ _ _ _ _ _ Hact Ht Hl) as [->|[Hl0 Hne]].
    + by apply (moved_self ts i t (Holding app (released l)) b).
    + apply H5 in Hl0. by apply (moved_other ts i t t' b (Holding app (released l))).
  - intros id dr Hl. destruct (act_drains _ _ _ _ _ _ _ Hact Ht Hl) as [->|[Hl0 Hne]].
    + by apply (moved_self ts i t (Retiring id (dr_done dr)) b).
    + apply H6 in Hl0. by apply (moved_other ts i t t' b (Retiring id (dr_done dr))).
  - intros app l ch (j & Hj)%list_elem_of_lookup Hc.
    assert (ch ∈ shut e ∨ ∃ u, u ∈ ts ∧ own u = Some ch) as [Hs|(u & (k & Hk)%list_elem_of_lookup & Ou)].
    { destruct (moved_lookup _ _ _ _ _ _ _ Hi Hj) as [[-> Hw']|[Hne (v & Hv & Hw')]].
      - symmetry in Hw'. apply wake_same in Hw'; [|done..].
        destruct (act_pending_of _ _ _ _ _ _ _ _ Hact Hw' Hc) as [(l0 & -> & Hc0)|(id & dr & Hd & <-)].
        + apply (H7 app l0); [|done]. by eapply list_elem_of_lookup_2.
        + right. exists (Retiring id (dr_done dr)). by split; [apply H6|].
      - symmetry in Hw'. apply wake_same in Hw'; [|done..]. subst v. apply (H7 app l); [|done]. by eapply list_elem_of_lookup_2. }
    { left. by eapply act_shut. }
    destruct (decide (k = i)) as [->|Hne].
    + simplify_eq. destruct (act_own_before _ _ _ _ _ _ Hact Ht Ou) as [?|?]; [right|by left].
      exists (wake b t'). split; [by eapply moved_self|by rewrite own_wake].
    + right. exists (wake b u). split; [|by rewrite own_wake]. apply list_elem_of_lookup. exists k.
      rewrite list_lookup_fmap, list_lookup_insert_ne by done. by rewrite Hk.
Qed.

Lemma reachable_consistent s : reachable s → consistent s.
Proof.
  intros H. refine (rtc_ind_r (R := step) (λ s0, consistent s0) (New, []) consistent_start _ s H).
  intros s1 s2 _ [e ts t Hb|e ts i t e' t' b Hi Hact] Hc; [by apply consistent_begin|by eapply consistent_act].
Qed.

(** Wait's answer to Shutdown stands. *)
Lemma idle_stays s s' : rtc step s s' → Idle true ∈ s.2 → Idle true ∈ s'.2.
Proof.
  induction 1 as [|s1 s2 s3 Hs _ IH]; [done|]. intros Hi. apply IH. destruct Hs as [e ts t Hb|e ts i t e' t' b Ht Hact]; simpl in *.
  - apply elem_of_app. by left.
  - apply (moved_other ts i t t' b (Idle true)); [done..|]. intros <-. inversion Hact.
Qed.

(** C2: whatever the interleaving of operations, deployments in the background,
    the supervisor, retiring containers, waiters and a shutdown: no two goroutines
    hold one application; closing a channel never panics; a goroutine that waits
    for an application waits on a channel that is closed or that the holder will
    close, one that waits for drains likewise, and nobody is asleep in Wait once
    the last operation is done; and when the Wait of a Shutdown has returned, no
    operation is in progress and none ever begins again. *)
Theorem operations_exclusive s : reachable s →
  (∀ (i j : nat) app ch ch', s.2 !! i = Some (Holding app ch) → s.2 !! j = Some (Holding app ch') → i = j) ∧
  (Panicked ∉ s.2) ∧
  (∀ app ch, Waiting app ch ∈ s.2 → ch ∈ shut s.1 ∨ Holding app ch ∈ s.2) ∧
  (∀ app l ch, OnDrains app l ∈ s.2 → ch ∈ l → ch ∈ shut s.1 ∨ ∃ u, u ∈ s.2 ∧ own u = Some ch) ∧
  (∀ b, Asleep b ∈ s.2 → ∃ u, u ∈ s.2 ∧ weight u = 1) ∧
  (Idle true ∈ s.2 → ∀ s' u, rtc step s s' → u ∈ s'.2 → weight u = 0).
Proof.
  intros Hr. pose proof (reachable_consistent s Hr) as [H1 H2 H3 H4 H5 H6 H7].
  assert (∀ u, u ∈ s.2 → fine s.1 u) as Hf by (intros u (i & Hu)%list_elem_of_lookup; by eapply H2).
  split_and!.
  - intros i j app ch ch' Hi Hj. destruct (H2 i _ Hi) as [[sup Hl] _], (H2 j _ Hj) as [[sup' Hl'] _]. assert (ch = ch') as <- by congruence.
    by eapply (H3 i j _ _ ch).
  - intros Hp. by apply Hf in Hp.
  - intros app ch [Hs|Hl]%Hf; [by left|right]. by apply H5 in Hl.
  - done.
  - intros b [Ho _]%Hf. rewrite H1 in Ho. clear -Ho. induction s.2 as [|t ts IH]; simpl in Ho; [lia|].
    destruct (decide (weight t = 1)) as [Hw|Hw]; [exists t; split; [by left|done]|].
    destruct IH as (u & Hu & Hw'); [destruct t; simpl in *; lia|]. exists u. split; [by right|done].
  - intros Hi s' u Hs Hu. pose proof (idle_stays _ _ Hs Hi) as Hi'.
    assert (consistent s') as [C1 C2 _ _ _ _ _] by (apply reachable_consistent; unfold reachable in *; by etrans).
    apply list_elem_of_lookup in Hi' as (k & [_ Ho]%C2). apply list_elem_of_lookup in Hu as (j & Hu).
    pose proof (count_in _ _ _ Hu). assert (weight u ≤ 0) by lia. destruct u; simpl in *; lia.
Qed.

Module LocksWitness.
Local Open Scope string_scope.
Definition after : system :=
  (mk_engine false {["api" := mk_lock true 0]} 1 ∅ 1 ∅, [Holding "api" 0; Waiting "api" 0]).
(** The supervisor has the application, a user's operation waits for it. *)
Lemma after_reachable : reachable after.
Proof.
  apply (rtc_l _ _ (New, [Locking "api" true])); [apply (step_begin _ []); constructor|].
  set (e1 := mk_engine false {["api" := mk_lock true 0]} 1 ∅ 1 ∅).
  apply (rtc_l _ _ (e1, [Holding "api" 0])).
  { apply (step_act New [Locking "api" true] 0 (Locking "api" true) e1 (Holding "api" 0) false); [done|]. by apply act_locked. }
  apply (rtc_l _ _ (e1, [Holding "api" 0; Locking "api" false])); [apply (step_begin _ [_]); constructor|].
  apply rtc_once. apply (step_act e1 [Holding "api" 0; Locking "api" false] 1 (Locking "api" false) e1 (Waiting "api" 0) false); [done|]. by eapply act_wait.
Qed.
End LocksWitness.

Lemma operations_exclusive_witness :
  (Panicked ∉ LocksWitness.after.2) ∧ (0%nat ∈ shut LocksWitness.after.1 ∨ Holding "api" 0 ∈ LocksWitness.after.2).
Proof.
  pose proof (operations_exclusive LocksWitness.after LocksWitness.after_reachable) as (_ & H & Hw & _).
  split; [exact H|]. apply Hw. right. by left.
Defined.
