(* ===== verification/RolloutInv.v ===== *)
(** * What a rolling update keeps

    The rollout of Rollout.v against any world: reasoning about its programs
    by what they add to the trace, and the invariant of a rolling update. *)

From stdpp Require Import sorting.
From S2P Require Import Prelude GoStrings Effects GoTime SpecTypes SpecNames SpecReferences DeployState Store Rollout.
From Stdlib Require Import String.
Local Open Scope Z_scope.

(** ** Programs that change nothing of a rollout but its status *)

Definition stay (r r' : rollout) : Prop := ∃ st, r' = set_d r (set_status (d r) st).

#[export] Instance stay_preorder : PreOrder stay.
Proof.
  split.
  - intros r. exists (d_Status (d r)). by destruct r as [[] ].
  - intros r r' r'' [st ->] [st' ->]. by exists st'.
Qed.

Lemma stay_status r st : stay r (set_d r (set_status (d r) st)).
Proof. by exists st. Qed.
Lemma narrate_calm world (q : happened → Prop) m : (∀ a, q (mk_happened (CNarrate m) a)) → calm stay q (narrate world m).
Proof. apply (calm_perform _ _ _). Qed.
#[export] Hint Resolve stay_status : calm.
#[export] Hint Extern 1 (calm _ _ (narrate _ _)) => (apply narrate_calm; intros; exact I) : calm.

(** ** Reading a trace *)

(** Everything that happened fits what had happened before it. *)
Fixpoint safe (fits : trace → happened → Prop) (tr : trace) : Prop :=
  match tr with [] => True | e :: r => fits r e ∧ safe fits r end.

Definition created_id (e : happened) : option string :=
  match e with
  | mk_happened c a =>
      match c return answer_of c → option string with
      | CCreateContainer _ _ => λ a, match a with inr (id, _) => Some id | inl _ => None end
      | _ => λ _, None
      end a
  end.
Definition created_ids (tr : trace) : list string := omap created_id tr.

(** The replica answered its health check, or was seen running. *)
Definition shows_health (id : string) (e : happened) : Prop :=
  match e with
  | mk_happened c a => match c return answer_of c → Prop with CProbe _ i => λ a, i = id ∧ a = None | _ => λ _, False end a
  end.
Definition shows_running (id : string) (e : happened) : Prop :=
  match e with
  | mk_happened c a =>
      match c return answer_of c → Prop with
      | CInspect i => λ a, i = id ∧ match a with inr c => c_Running c = true | inl _ => False end
      | _ => λ _, False
      end a
  end.
Definition verified (a : App) (tr : trace) (id : string) : Prop :=
  Exists (match a_Health a with Some _ => shows_health id | None => shows_running id end) tr.

(** Who is routed, and whether the proxy has taken it. *)
Fixpoint routed (tr : trace) : list string :=
  match tr with
  | [] => []
  | mk_happened (CRouteVia o) _ :: _ => member_id <$> o_members o
  | mk_happened _ _ :: r => routed r
  end.
Fixpoint synced (tr : trace) : bool :=
  match tr with
  | [] => false
  | mk_happened c a :: r =>
      match c return answer_of c → bool with
      | CSyncProxy => λ a, match a with None => true | Some _ => synced r end
      | CRouteVia _ | CClearRoute => λ _, false
      | _ => λ _, synced r
      end a
  end.
Definition commits (e : happened) : Prop :=
  match e with
  | mk_happened c a => match c return answer_of c → Prop with CActivate _ => λ a, is_Some (match a with inr x => Some x | inl _ => None end) | _ => λ _, False end a
  end.
Definition activated (tr : trace) : Prop := Exists commits tr.

Lemma verified_app a evs tr id : verified a tr id → verified a (evs ++ tr) id.
Proof. intros H. apply Exists_app. by right. Qed.
Lemma created_app evs tr : created_ids (evs ++ tr) = (created_ids evs ++ created_ids tr)%list.
Proof. apply omap_app. Qed.

(** ** The parts of a rollout that route and retire nothing *)

(** Events that leave routing and the containers named [olds] alone. *)
Definition modest (olds : list string) (e : happened) : Prop :=
  match what e with
  | CRouteVia _ | CClearRoute | CSyncProxy | CRetireInBackground _ _ | CActivate _ => False
  | CStop id _ | CRemove id => (id ∉ olds)
  | _ => True
  end.

Section Parts.
Context (world : trace → ∀ c, answer_of c) (StopTimeout : Z) (polls : nat) (olds : list string).
(** Docker gives a container an identifier that no other container has had. *)
Hypothesis new_ids : ∀ tr dep i id name, world tr (CCreateContainer dep i) = inr (id, name) →
  (id ∉ created_ids tr) ∧ (id ∉ olds).
Local Abbreviation perform := (Effects.perform world).
Local Abbreviation calm m := (calm stay (modest olds) m).

Lemma transition_calm to msg : calm (transitionWithError world to msg).
Proof. unfold transitionWithError, narrate. calm. Qed.
#[local] Hint Resolve transition_calm : calm.
Lemma reach_calm to : calm (reach world to).
Proof. unfold reach, transition. calm. Qed.
#[local] Hint Resolve reach_calm : calm.
Lemma pullImage_calm : calm (pullImage world).
Proof. unfold pullImage, narrate. calm. Qed.
#[local] Hint Resolve pullImage_calm : calm.
Lemma runHookOnce_calm : calm (runHookOnce world).
Proof. unfold runHookOnce, narrate. calm. Qed.
#[local] Hint Resolve runHookOnce_calm : calm.
Lemma obtain_calm : calm (obtain world).
Proof. unfold obtain. calm. Qed.
#[local] Hint Resolve obtain_calm : calm.

Lemma still_running_calm l : calm (still_running world l).
Proof. induction l; simpl; calm. Qed.
#[local] Hint Resolve still_running_calm : calm.
Lemma awaitStable_calm n l : calm (awaitStable world n l).
Proof. induction n; simpl; calm. Qed.
#[local] Hint Resolve awaitStable_calm : calm.
Lemma probe_pending_calm dep l still : calm (probe_pending world dep l still).
Proof. revert still. induction l; simpl; calm. Qed.
#[local] Hint Resolve probe_pending_calm : calm.
Lemma awaitHealthy_calm n dep l : calm (awaitHealthy world n dep l).
Proof. revert l. induction n; simpl; unfold not_healthy; calm. Qed.
#[local] Hint Resolve awaitHealthy_calm : calm.
Lemma awaitReady_calm dep l : calm (awaitReady world polls dep l).
Proof. unfold awaitReady, narrate. calm. Qed.
#[local] Hint Resolve awaitReady_calm : calm.
Lemma startReplicas_calm l : calm (startReplicas world l).
Proof. induction l; simpl; calm. Qed.
#[local] Hint Resolve startReplicas_calm : calm.
Lemma createContainer_calm dep i : calm (createContainer world dep i).
Proof. unfold createContainer. calm. Qed.
#[local] Hint Resolve createContainer_calm : calm.
Lemma ctx_err_calm : calm (ctx_err world).
Proof. unfold ctx_err. calm. Qed.
#[local] Hint Resolve ctx_err_calm : calm.

(** ** Containers that are created *)

Lemma createContainer_new dep i s id name : (createContainer world dep i s).1 = inr (id, name) →
  id ∈ created_ids (createContainer world dep i s).2.2 ∧ (id ∉ created_ids s.2) ∧ (id ∉ olds).
Proof using new_ids.
  unfold createContainer, mthen, Effects.perform. destruct s as [r tr]. cbn [fst snd].
  destruct (world tr (CCreateContainer dep i)) as [err|[id' name']] eqn:E; cbn [fst snd].
  - set (tr1 := mk_happened _ _ :: tr).
    destruct (world tr1 (CImageExists (d_Image dep))) as [e|[]] eqn:E1; cbn [fst snd]; [done|done|].
    destruct (IsLocalImage (d_Image dep)); [done|]. cbn [fst snd].
    set (tr2 := mk_happened (CImageExists _) _ :: tr1).
    destruct (world tr2 (CPull (d_Image dep))) as [e|] eqn:E2; cbn [fst snd]; [done|].
    set (tr3 := mk_happened (CPull _) _ :: tr2). intros H. destruct (new_ids _ _ _ _ _ H) as [H1 H2].
    rewrite H. split; [by left|]. split; [|done]. intros Hin. apply H1. exact Hin.
  - intros [= -> ->]. destruct (new_ids _ _ _ _ _ E) as [H1 H2]. split; [by left|done].
Qed.

(** What createReplicas returns: new containers for the first of the indexes,
    for all of them without an error; and it removes only what is new. *)
Lemma createReplicas_spec dep : ∀ idx created s out err s', createReplicas world dep idx created s = ((out, err), s') →
  stay s.1 s'.1 ∧ ∃ evs new, s'.2 = (evs ++ s.2)%list ∧ Forall (modest olds) evs ∧ out = (created ++ new)%list ∧
    (r_Index <$> new) `prefix_of` idx ∧ (err = None → r_Index <$> new = idx) ∧
    NoDup (r_ContainerID <$> new) ∧
    ∀ rep, rep ∈ new → r_ContainerID rep ∈ created_ids evs ∧ (r_ContainerID rep ∉ created_ids s.2) ∧ (r_ContainerID rep ∉ olds).
Proof using new_ids.
  induction idx as [|i rest IH]; intros created s out err s' H; cbn [createReplicas] in H.
  - injection H as <- <- <-. split; [reflexivity|]. exists [], []. rewrite app_nil_r.
    split_and!; [done|constructor|done|done|done|constructor|]. intros rep Hr. by apply elem_of_nil in Hr.
  - unfold mthen in H at 1. pose proof (createContainer_calm dep i s) as Hc. pose proof (createContainer_new dep i s) as Hn.
    destruct (createContainer world dep i s) as [[e|[id name]] s1]; cbn [fst snd] in *; destruct Hc as (Hs1 & evs1 & He1 & Hq1).
    + injection H as <- <- <-. split; [done|]. exists evs1, []. rewrite app_nil_r.
      split_and!; [done|done|done|apply prefix_nil|done|constructor|]. intros rep Hr. by apply elem_of_nil in Hr.
    + destruct (Hn id name eq_refl) as (Hin & Hnew & Hold). clear Hn.
      unfold mthen in H at 1. unfold Effects.perform in H at 1. cbv zeta in H.
      set (rep := mk_replica (d_ID dep) i id name 0) in *.
      set (s2 := (s1.1, mk_happened (CAddReplica rep) (world s1.2 (CAddReplica rep)) :: s1.2)) in *.
      assert (id ∈ created_ids evs1) as Hin1.
      { rewrite He1, created_app, elem_of_app in Hin. tauto. }
      destruct (world s1.2 (CAddReplica rep)) as [e|] eqn:E.
      * assert (calm (removeContainer world id)) as Hrm by (unfold removeContainer; calm; apply (calm_perform (answer := answer_of)); [exact _|intros; exact Hold]).
        unfold mthen in H. specialize (Hrm s2). destruct (removeContainer world id s2) as [x s3]. cbn [fst snd] in *.
        injection H as <- <- <-. destruct Hrm as (Hs3 & evs3 & He3 & Hq3).
        split; [by etrans; [|exact Hs3]|]. exists (evs3 ++ mk_happened (CAddReplica rep) (Some e) :: evs1)%list, []. rewrite app_nil_r.
        split_and!; [|apply Forall_app; split; [done|by constructor]|done|apply prefix_nil|done|constructor|].
        -- rewrite He3. unfold s2. cbn [snd]. rewrite He1. by rewrite <- app_assoc.
        -- intros r Hr. by apply elem_of_nil in Hr.
      * destruct (IH _ _ _ _ _ H) as (Hs & evs & new & Hev & Hq & -> & Hpre & Hall & Hnd & Hids).
        split; [by etrans; [|exact Hs]|]. exists (evs ++ mk_happened (CAddReplica rep) None :: evs1)%list, (rep :: new).
        split_and!.
        -- rewrite Hev. unfold s2. cbn [snd]. rewrite He1. by rewrite <- app_assoc.
        -- apply Forall_app. split; [done|]. by constructor.
        -- by rewrite <- app_assoc.
        -- rewrite fmap_cons. by apply prefix_cons.
        -- intros Hnone. rewrite fmap_cons, Hall by done. done.
        -- rewrite fmap_cons. apply NoDup_cons. split; [|done]. intros (r & Hr & Hrn)%list_elem_of_fmap.
           destruct (Hids r Hrn) as (_ & Hno & _). apply Hno. unfold s2. cbn [snd]. simpl in Hr. rewrite <- Hr.
           change (id ∈ created_ids s1.2). rewrite He1, created_app. apply elem_of_app. by left.
        -- intros r [->|Hrn]%elem_of_cons.
           ++ split_and!; [|done|done]. rewrite created_app. apply elem_of_app. by right.
           ++ destruct (Hids r Hrn) as (H1 & H2 & H3). split_and!; [|intros Hc; apply H2|done].
              ** rewrite created_app. apply elem_of_app. by left.
              ** unfold s2. cbn [snd]. change (r_ContainerID r ∈ created_ids s1.2). rewrite He1, created_app. apply elem_of_app. by right.
Qed.
End Parts.
