(* ===== verification/RolloutSafe.v ===== *)
(** * A rolling update serves throughout

    The invariant of a rolling update of an application that is running, and
    what it gives: the routes the proxy is told, who is retired when, and what
    has been routed and verified when the new version becomes the active one. *)

From stdpp Require Import sorting.
From S2P Require Import Prelude GoStrings Effects GoTime SpecTypes SpecNames SpecReferences DeployState Store Rollout RolloutInv.
From Stdlib Require Import String.
Local Open Scope Z_scope.

(** ** What is allowed to happen, and after what *)

(** A container of the new version: created in this rollout, and seen ready. *)
Definition new_member (dep : Deployment) (olds : list string) (tr : trace) (id : string) : Prop :=
  (id ∉ olds) ∧ id ∈ created_ids tr ∧ verified (d_Spec dep) tr id.

(** [olds] are the containers of the version in service. *)
Definition fits (dep : Deployment) (olds : list string) (tr : trace) (e : happened) : Prop :=
  match what e with
  | CRouteVia o =>
      NoDup (member_id <$> o_members o) ∧
      Z.min (Z.of_nat (List.length olds)) (a_Replicas (d_Spec dep)) ≤ Z.of_nat (List.length (o_members o)) ∧
      ∀ id, id ∈ member_id <$> o_members o → id ∈ olds ∨ new_member dep olds tr id
  | CRetireInBackground id _ => synced tr = true ∧ (id ∉ routed tr)
  | CStop id _ | CRemove id => id ∈ olds → activated tr
  | CActivate _ =>
      synced tr = true ∧ NoDup (routed tr) ∧ Z.of_nat (List.length (routed tr)) = a_Replicas (d_Spec dep) ∧
      ∀ id, id ∈ routed tr → new_member dep olds tr id
  | CClearRoute => activated tr
  | _ => True
  end.

(** An event that is not about routing. *)
Definition quiet (e : happened) : Prop :=
  match what e with CRouteVia _ | CClearRoute | CSyncProxy => False | _ => True end.

Lemma modest_quiet olds e : modest olds e → quiet e.
Proof. unfold modest, quiet. by destruct (what e). Qed.
Lemma modest_fits dep olds tr e : modest olds e → fits dep olds tr e.
Proof. unfold modest, fits. by destruct (what e). Qed.
Lemma safe_modest dep olds evs tr : Forall (modest olds) evs → safe (fits dep olds) tr → safe (fits dep olds) (evs ++ tr).
Proof. intros H Hs. induction H; simpl; [done|]. split; [by apply modest_fits|done]. Qed.
Lemma routed_quiet evs tr : Forall quiet evs → routed (evs ++ tr) = routed tr.
Proof. induction 1 as [|[c a] evs Hq _ IH]; [done|]. simpl. unfold quiet in Hq. simpl in Hq. by destruct c. Qed.
Lemma synced_quiet evs tr : Forall quiet evs → synced (evs ++ tr) = synced tr.
Proof. induction 1 as [|[c a] evs Hq _ IH]; [done|]. simpl. unfold quiet in Hq. simpl in Hq. by destruct c. Qed.
Lemma new_member_app dep olds evs tr id : new_member dep olds tr id → new_member dep olds (evs ++ tr) id.
Proof. intros (H1 & H2 & H3). split_and!; [done| |by apply verified_app]. rewrite created_app. apply elem_of_app. by right. Qed.

(** ** Waiting verifies *)

Section Waiting.
Context (world : trace → ∀ c, answer_of c) (polls : nat).

Lemma still_running_shows l : ∀ s, (still_running world l s).1 = inr tt →
  ∀ rep, rep ∈ l → Exists (shows_running (r_ContainerID rep)) (still_running world l s).2.2.
Proof.
  induction l as [|x l IH]; intros s H rep Hr; [by apply elem_of_nil in Hr|]. revert H. cbn [still_running].
  rewrite !then_perform.
  destruct (world s.2 (CInspect (r_ContainerID x))) as [e|c] eqn:E; [done|].
  destruct (c_Running c) eqn:Er.
  2:{ rewrite then_perform. by destruct (c_OOMKilled c). }
  intros H. apply elem_of_cons in Hr as [->|Hr]; [|by apply IH].
  destruct (still_running_calm world [] l (s.1, mk_happened (CInspect (r_ContainerID x)) (inr c) :: s.2)) as (_ & evs & -> & _).
  apply Exists_app. right. apply Exists_cons. left. done.
Qed.

(** What holds at some point of the trace still does later. *)
Lemma later {A} (m : M A) P s : calm stay (modest []) m → Exists P s.2 → Exists P (m s).2.2.
Proof. intros Hm H. destruct (Hm s) as (_ & evs & -> & _). apply Exists_app. by right. Qed.

Lemma awaitStable_shows n l s : (awaitStable world n l s).1 = inr tt →
  ∀ rep, rep ∈ l → Exists (shows_running (r_ContainerID rep)) (awaitStable world n l s).2.2.
Proof.
  intros H rep Hr. destruct n as [|n]; cbn [awaitStable] in *; apply try_ok in H as H'; destruct H' as ([] & H1 & ->).
  - by apply still_running_shows.
  - apply later; [|by apply still_running_shows]. pose proof (awaitStable_calm world [] n l). calm.
Qed.

Lemma probe_pending_shows dep l : ∀ still s left, (probe_pending world dep l still s).1 = inr left →
  (∀ rep, rep ∈ still → rep ∈ left) ∧
  ∀ rep, rep ∈ l → rep ∈ left ∨ Exists (shows_health (r_ContainerID rep)) (probe_pending world dep l still s).2.2.
Proof.
  induction l as [|x l IH]; intros still s left H; cbn [probe_pending] in *.
  { injection H as ->. split; [done|]. intros rep Hr. by apply elem_of_nil in Hr. }
  revert H. rewrite !then_perform.
  destruct (world s.2 (CInspect (r_ContainerID x))) as [e|c] eqn:E; [done|].
  set (s1 := (s.1, _ :: s.2)).
  destruct (negb (c_Running c)); [rewrite then_perform; by destruct (c_OOMKilled c)|].
  destruct (String.eqb (c_IP c) "").
  { intros H. destruct (IH _ _ _ H) as [H1 H2]. split; [intros; apply H1; apply elem_of_app; by left|].
    intros rep [->|Hr]%elem_of_cons; [|by apply H2]. left. apply H1, elem_of_app. right. by apply list_elem_of_singleton. }
  rewrite !then_perform. destruct (world s1.2 (CProbe dep (r_ContainerID x))) as [e|] eqn:E1.
  - rewrite !then_perform. cbn [fst snd]. destruct (world _ CCtxErr) as [e'|] eqn:E2; [done|].
    intros H. destruct (IH _ _ _ H) as [H1 H2]. split; [intros; apply H1; apply elem_of_app; by left|].
    intros rep [->|Hr]%elem_of_cons; [|by apply H2]. left. apply H1, elem_of_app. right. by apply list_elem_of_singleton.
  - rewrite !then_perform. cbn [fst snd]. intros H. destruct (IH _ _ _ H) as [H1 H2]. split; [done|].
    intros rep [->|Hr]%elem_of_cons; [|by apply H2]. right.
    apply later; [apply probe_pending_calm|]. apply Exists_cons. right. apply Exists_cons. by left.
Qed.

Lemma awaitHealthy_shows n dep : ∀ l s, (awaitHealthy world n dep l s).1 = inr tt →
  ∀ rep, rep ∈ l → Exists (shows_health (r_ContainerID rep)) (awaitHealthy world n dep l s).2.2.
Proof.
  induction n as [|n IH]; intros l s H rep Hr; cbn [awaitHealthy] in *; apply try_ok in H as H'; destruct H' as (left & H1 & E);
    rewrite E in *; clear E; destruct (probe_pending_shows _ _ _ _ _ H1) as [_ Hs]; revert H.
  - case_bool_decide as El; intros H.
    + destruct (Hs rep Hr) as [Hl|Hl]; [|done]. subst left. by apply elem_of_nil in Hl.
    + unfold not_healthy in H. destruct left; [done|]. unfold mthen in H. done.
  - case_bool_decide as El; intros H.
    { destruct (Hs rep Hr) as [Hl|Hl]; [|done]. subst left. by apply elem_of_nil in Hl. }
    assert (∀ s', (not_healthy world dep left s').1 = inr tt → False) as Hn.
    { intros s'. unfold not_healthy. destruct left; [done|]. unfold mthen. done. }
    rewrite then_perform in H |- *. destruct (world (probe_pending world dep l [] s).2.2 CWake) eqn:Ew; [by apply Hn in H| |done].
    destruct (Hs rep Hr) as [Hl|Hl]; [by apply (IH _ _ H)|].
    apply later; [apply awaitHealthy_calm|]. apply Exists_cons. by right.
Qed.

(** A deployment goes on only with replicas that were all seen ready. *)
Lemma awaitReady_verified dep l s : (awaitReady world polls dep l s).1 = inr tt →
  ∀ rep, rep ∈ l → verified (d_Spec dep) (awaitReady world polls dep l s).2.2 (r_ContainerID rep).
Proof.
  unfold awaitReady, verified. intros H rep Hr. revert H. case_bool_decide as El; [subst l; by apply elem_of_nil in Hr|].
  destruct (a_Health (d_Spec dep)); intros H; apply try_ok in H as H'; destruct H' as ([] & H1 & ->);
    (apply later; [unfold narrate; calm|]); [by apply awaitHealthy_shows|by apply awaitStable_shows].
Qed.
End Waiting.

(** ** Reasoning about a program that may fail

    [hoare I m Q]: from a state that satisfies [I], [m] adds only what is
    allowed to the trace, and if it answers without an error [Q] holds then. *)

Definition hoare {A} (fits : trace → happened → Prop) (I : St → Prop) (m : M (or_error A)) (Q : A → St → Prop) : Prop :=
  ∀ s, safe fits s.2 → I s → safe fits (m s).2.2 ∧ ∀ a, (m s).1 = inr a → Q a (m s).2.

Section Hoare.
Context (dep : Deployment) (olds : list string).
Local Abbreviation hoare := (hoare (fits dep olds)).
Local Abbreviation calm m := (calm stay (modest olds) m).

Lemma hoare_ok {A} (I : St → Prop) (a : A) Q : (∀ s, I s → Q a s) → hoare I (ok a) Q.
Proof. intros H s Hs Hi. split; [done|]. intros a' [= <-]. by apply H. Qed.
Lemma hoare_fail {A} I e Q : hoare I (fail (A:=A) e) Q.
Proof. by intros s Hs Hi. Qed.
Lemma hoare_try {A B} I (m : M (or_error A)) (k : A → M (or_error B)) Q R :
  hoare I m Q → (∀ a, hoare (Q a) (k a) R) → hoare I (mtry m k) R.
Proof.
  intros Hm Hk s Hs Hi. destruct (Hm s Hs Hi) as [H1 H2]. unfold mtry, mthen. destruct (m s) as [[e|a] s1]; [done|].
  apply Hk; [done|]. by apply H2.
Qed.
Lemma hoare_get {A B} I (f : rollout → A) (k : A → M (or_error B)) Q :
  (∀ a, hoare (λ s, I s ∧ a = f s.1) (k a) Q) → hoare I (mthen (mget f) k) Q.
Proof. intros Hk s Hs Hi. by apply (Hk (f s.1)). Qed.
Lemma hoare_bind {A B} (I : St → Prop) (m : M A) (k : A → M (or_error B)) (J : A → St → Prop) Q :
  (∀ s, safe (fits dep olds) s.2 → I s → safe (fits dep olds) (m s).2.2 ∧ J (m s).1 (m s).2) →
  (∀ a, hoare (J a) (k a) Q) → hoare I (mthen m k) Q.
Proof. intros Hm Hk s Hs Hi. destruct (Hm s Hs Hi) as [H1 H2]. unfold mthen. destruct (m s) as [a s1]. by apply Hk. Qed.
Lemma hoare_pre {A} (I I' : St → Prop) (m : M (or_error A)) Q : (∀ s, I s → I' s) → hoare I' m Q → hoare I m Q.
Proof. intros H Hm s Hs Hi. apply Hm; [done|]. by apply H. Qed.
Lemma hoare_post {A} I (m : M (or_error A)) (Q Q' : A → St → Prop) : (∀ a s, Q a s → Q' a s) → hoare I m Q → hoare I m Q'.
Proof. intros H Hm s Hs Hi. destruct (Hm s Hs Hi) as [H1 H2]. split; [done|]. intros a Ha. by apply H, H2. Qed.

Lemma hoare_know {A} I (P : Prop) (m : M (or_error A)) Q : (∀ s, I s → P) → (P → hoare I m Q) → hoare I m Q.
Proof. intros H Hm s Hs Hi. apply Hm; [by eapply H|done|done]. Qed.

(** What a calm program leaves as it was. *)
Definition onward (s s' : St) : Prop := stay s.1 s'.1 ∧ ∃ evs, s'.2 = (evs ++ s.2)%list ∧ Forall (modest olds) evs.
Definition lasts (I : St → Prop) : Prop := ∀ s s', onward s s' → I s → I s'.

Lemma hoare_calm {A} I (m : M (or_error A)) : calm m → lasts I → hoare I m (λ _, I).
Proof.
  intros Hm Hl s Hs Hi. split; [|intros a _; by apply (Hl s); [apply Hm|]].
  destruct (Hm s) as (_ & evs & -> & Hq). by apply safe_modest.
Qed.
Lemma hoare_calm_then {A B} I (m : M A) (k : A → M (or_error B)) Q : calm m → lasts I →
  (∀ a, hoare I (k a) Q) → hoare I (mthen m k) Q.
Proof.
  intros Hm Hl Hk s Hs Hi. specialize (Hm s). unfold mthen. destruct (m s) as [a s'].
  apply Hk; [|by apply (Hl s)]. destruct Hm as (_ & evs & He & Hq). simpl in *. rewrite He. by apply safe_modest.
Qed.
Lemma lasts_and I J : lasts I → lasts J → lasts (λ s, I s ∧ J s).
Proof. intros H1 H2 s s' H [??]. split; [by eapply H1|by eapply H2]. Qed.
Lemma lasts_pure P : lasts (λ _, P).
Proof. by intros s s' _ H. Qed.
End Hoare.

(** ** The batches *)

(** Every replica of the new version is in exactly one batch, except those
    that are in service; the loop of the source counts up to the same indexes. *)
Lemma batches_all r : List.concat (batches r) ≡ₚ filter (λ i, i ∉ inService r) (indexes (a_Replicas (d_Spec (d r)))).
Proof.
  unfold batches. set (all := filter _ _). destruct (recreate r); [case_bool_decide as E; [by rewrite E|]; simpl; by rewrite app_nil_r|].
  assert (∀ l : list Z, List.concat ((λ i, [i]) <$> l) = l) as Hc by (intros l; induction l as [|x l IHl]; [done|]; simpl; by f_equal).
  assert (∀ l : list Z, List.concat (if bool_decide (l = []) then [] else [l]) = l) as Hb.
  { intros l. case_bool_decide as E; [by rewrite E|]. simpl. apply app_nil_r. }
  rewrite List.concat_app, Hc, Hb. clear. induction all as [|i all IH]; [done|]. rewrite !filter_cons.
  destruct (old r !! i) eqn:E; [rewrite decide_True, decide_False by naive_solver|rewrite decide_False, decide_True by naive_solver].
  - simpl. by rewrite IH.
  - rewrite <- Permutation_middle. by rewrite IH.
Qed.

Lemma batches_nonempty r : Forall (λ b, b ≠ []) (batches r).
Proof.
  unfold batches. set (all := filter _ _).
  assert (∀ l : list Z, Forall (λ b, b ≠ []) (if bool_decide (l = []) then [] else [l])) as Hb.
  { intros l. case_bool_decide; constructor; [done|constructor]. }
  destruct (recreate r); [apply Hb|]. apply Forall_app. split; [|apply Hb].
  apply Forall_fmap, Forall_true. done.
Qed.

(** ** The invariant *)

Section Update.
Context (world : trace → ∀ c, answer_of c) (StopTimeout : Z) (polls : nat).
Context (dep p : Deployment) (oldReplicas : list Replica).
Let olds := r_ContainerID <$> oldReplicas.
Let N := a_Replicas (d_Spec dep).
Hypothesis new_ids : ∀ tr dep i id name, world tr (CCreateContainer dep i) = inr (id, name) →
  (id ∉ created_ids tr) ∧ (id ∉ olds).
Hypothesis some_replicas : 1 ≤ N.
Local Abbreviation hoare := (hoare (fits dep olds)).
Local Abbreviation calm_with := (calm stay).
Local Abbreviation calm m := (calm stay (modest olds) m).
Local Abbreviation safe := (safe (fits dep olds)).

(** [todo] replicas are still to come, and those of [o] are still to be
    replaced. *)
Record Inv_for (o : gmap Z Replica) (todo : nat) (s : St) : Prop := {
  inv_d : ∃ st, d s.1 = set_status dep st;
  inv_prev : prev s.1 = Some p;
  inv_recreate : recreate s.1 = false;
  inv_adopted : adopted s.1 = ∅;
  inv_service : inService s.1 = ∅;
  inv_old : ∀ i rep, o !! i = Some rep → r_Index rep = i ∧ r_ContainerID rep ∈ olds;
  inv_nodup : NoDup (member_id <$> serving s.1);
  inv_members : ∀ id, id ∈ member_id <$> serving s.1 → id ∈ olds ∨ new_member dep olds s.2 id;
  inv_left : ∀ id, id ∈ member_id <$> serving s.1 → id ∈ olds → ∃ i rep, o !! i = Some rep ∧ r_ContainerID rep = id;
  inv_floor : Z.min (Z.of_nat (List.length olds)) N ≤ Z.of_nat (List.length (serving s.1));
  inv_count : Z.of_nat (List.length (filter (λ id, id ∉ olds) (member_id <$> serving s.1)) + todo) = N;
  inv_routed : routed s.2 = member_id <$> serving s.1;
  inv_synced : Z.of_nat todo < N → synced s.2 = true }.
Definition Inv (todo : nat) (s : St) : Prop := Inv_for (old s.1) todo s.

(** The invariant speaks of these fields only. *)
Definition same (r r' : rollout) : Prop :=
  (∃ st, d r' = set_status (d r) st) ∧ prev r' = prev r ∧ recreate r' = recreate r ∧ adopted r' = adopted r ∧
  inService r' = inService r ∧ serving r' = serving r.
Lemma Inv_same o todo s s' : same s.1 s'.1 → (∃ evs, s'.2 = (evs ++ s.2)%list ∧ Forall quiet evs) → Inv_for o todo s → Inv_for o todo s'.
Proof.
  intros ((st & Hd) & H1 & H2 & H3 & H4 & H6) (evs & He & Hq) [(st' & Hd') ? ? ? ? ? ? Hm ? ? ? Hr Hs].
  constructor; rewrite ?H1, ?H2, ?H3, ?H4, ?H6, ?He, ?routed_quiet, ?synced_quiet by done; try done.
  - exists st. by rewrite Hd, Hd'.
  - intros id Hid. destruct (Hm id Hid) as [?|?]; [by left|right]. by apply new_member_app.
Qed.
Lemma Inv_for_lasts o todo : lasts olds (Inv_for o todo).
Proof.
  intros s s' [[st H] (evs & He & Hq)]. apply Inv_same.
  - rewrite H. split; [by exists st|]. done.
  - exists evs. split; [done|]. eapply Forall_impl; [exact Hq|]. intros e. apply modest_quiet.
Qed.
Lemma Inv_lasts todo : lasts olds (Inv todo).
Proof. intros s s' H Hi. pose proof (Inv_for_lasts _ _ _ _ H Hi) as Hi'. destruct H as [[st H] _]. unfold Inv. by rewrite H. Qed.

(** ** Bringing replicas up *)

Lemma adopt_none : ∀ idx replicas missing s, adopt world ∅ idx replicas missing s = (inr (replicas, missing ++ idx)%list, s).
Proof.
  induction idx as [|i rest IH]; intros replicas missing s; simpl; [by rewrite app_nil_r|].
  rewrite lookup_empty, IH. by rewrite <- app_assoc.
Qed.

(** The replicas a batch brought: new containers, one for each index. *)
Definition brought (idx : list Z) (ready : list Replica) (s : St) : Prop :=
  r_Index <$> ready ≡ₚ idx ∧ NoDup (r_ContainerID <$> ready) ∧
  ∀ rep, rep ∈ ready → r_ContainerID rep ∈ created_ids s.2 ∧ (r_ContainerID rep ∉ olds) ∧ (r_ContainerID rep ∉ member_id <$> serving s.1).
Lemma brought_lasts idx ready : lasts olds (brought idx ready).
Proof.
  intros s s' [[st H] (evs & He & _)] (H1 & H2 & H3). split_and!; [done|done|]. intros rep Hr.
  destruct (H3 rep Hr) as (H4 & H5 & H6). rewrite H, He, created_app. split_and!; [apply elem_of_app; by right|done|done].
Qed.

Lemma bring_hoare todo idx : hoare (Inv todo) (bring world idx) (λ a s, Inv todo s ∧ brought idx a.1 s).
Proof using new_ids.
  intros s Hs Hi. unfold bring, mtry, mthen, mget, id. cbn [fst snd]. rewrite (inv_adopted _ _ _ Hi), adopt_none. cbn [fst snd app].
  unfold ensureReplicas, mthen. destruct (createReplicas world (d s.1) idx [] s) as [[created err] s1] eqn:E.
  destruct (createReplicas_spec world olds new_ids _ _ _ _ _ _ _ E) as (Hst & evs & new & He & Hq & -> & _ & Hall & Hnd & Hids).
  assert (onward olds s s1) as Ho1 by (split; [done|]; by exists evs).
  assert (safe s1.2) as Hs1 by (rewrite He; by apply safe_modest).
  destruct err as [e|]; [done|].
  pose proof (startReplicas_calm world olds new s1) as Hc. cbn [app].
  unfold mset, mret. destruct (startReplicas world new s1) as [e s2]. destruct Hc as (Hst2 & evs2 & He2 & Hq2). cbn [fst snd] in *.
  assert (onward olds s1 s2) as Ho2 by (split; [done|]; by exists evs2).
  assert (safe s2.2) as Hs2 by (rewrite He2; by apply safe_modest).
  destruct e as [e|]; cbn [fst snd]; [done|]. split; [done|]. intros a [= <-]. cbn [fst snd].
  assert (Inv todo s2) as Hi2 by (apply (Inv_lasts _ s1), (Inv_lasts _ s); done).
  split.
  - apply (Inv_same _ _ s2); [|by exists []|done]. split; [exists (d_Status (d s2.1)); by destruct s2 as [[[]] ]|done].
  - assert (by_index_sorted new ≡ₚ new) as Hp by apply merge_sort_Permutation.
    split_and!; [by rewrite Hp, Hall|by rewrite Hp|]. intros rep Hr. rewrite Hp in Hr. destruct (Hids rep Hr) as (H1 & H2 & H3).
    unfold ok, mret. cbn [fst snd]. rewrite He2, He, !created_app. split_and!; [apply elem_of_app; right; apply elem_of_app; by left|done|].
    destruct Hst2 as [st2 ->]. destruct Hst as [st1 ->]. cbn [serving set_fresh set_d].
    intros Hin. destruct (inv_members _ _ _ Hi _ Hin) as [?|(? & ? & ?)]; done.
Qed.

(** ** Routing first, retiring second *)

Definition retires (e : happened) : Prop := match what e with CRetireInBackground _ _ => True | _ => False end.
Lemma retires_quiet e : retires e → quiet e.
Proof. unfold retires, quiet. by destruct (what e). Qed.

Lemma retire_one_eq grace rep s : recreate s.1 = false → retire_one world grace rep s =
  (tt, (set_old s.1 (delete (r_Index rep) (old s.1)),
        mk_happened (CRetireInBackground (r_ContainerID rep) grace) (world s.2 (CRetireInBackground (r_ContainerID rep) grace)) :: s.2)).
Proof. intros H. unfold retire_one, mthen, mset, mget. cbn [fst snd recreate set_old]. by rewrite H. Qed.

Lemma retire_loop grace out : ∀ s, recreate s.1 = false → safe s.2 → synced s.2 = true →
  (∀ rep, rep ∈ out → r_ContainerID rep ∉ routed s.2) →
  let s' := (mloop (retire_one world grace) out s).2 in
  safe s'.2 ∧ (∃ evs, s'.2 = (evs ++ s.2)%list ∧ Forall quiet evs) ∧
  ∃ m, s'.1 = set_old s.1 m ∧ ∀ i, m !! i = if decide (i ∈ r_Index <$> out) then None else old s.1 !! i.
Proof.
  induction out as [|rep out IH]; intros s Hrec Hs Hy Hn; cbn [mloop].
  { split; [done|]. split; [by exists []|]. exists (old s.1). split; [by destruct s as [[] ]|done]. }
  unfold mthen. rewrite retire_one_eq by done. set (s1 := (_, _ :: s.2)).
  destruct (IH s1) as (H1 & (evs & H2 & H3) & m & H4 & H5).
  - by rewrite <- Hrec.
  - split; [|done]. split; [done|]. apply Hn. by left.
  - done.
  - intros rep' Hr. apply (Hn rep'). by right.
  - split; [done|]. split.
    + exists (evs ++ [mk_happened (CRetireInBackground (r_ContainerID rep) grace) (world s.2 (CRetireInBackground (r_ContainerID rep) grace))])%list.
      split; [|apply Forall_app; split; [done|by constructor]]. rewrite H2. by rewrite <- app_assoc.
    + exists m. split; [by rewrite H4|]. intros i. rewrite H5, fmap_cons. unfold s1. cbn [old set_old fst].
      destruct (decide (i = r_Index rep)) as [->|Hne].
      * rewrite lookup_delete_eq. rewrite (decide_True (P := r_Index rep ∈ r_Index rep :: _)) by (by left). by destruct (decide _).
      * rewrite lookup_delete_ne by done. destruct (decide (i ∈ r_Index <$> out)) as [Hin|Hin].
        -- by rewrite decide_True by (by right).
        -- rewrite decide_False; [done|]. by intros [?|?]%elem_of_cons.
Qed.

(** Who is behind the route after a swap. *)
Lemma after_members r ready out :
  member_id <$> serving_after r ready out =
  (filter (λ id, id ∉ r_ContainerID <$> out) (member_id <$> serving r) ++ (r_ContainerID <$> ready))%list.
Proof.
  unfold serving_after. rewrite fmap_app, <- list_fmap_compose. f_equal.
  induction (serving r) as [|m l IH]; [done|]. rewrite fmap_cons, !filter_cons. case_decide; [|done]. rewrite fmap_cons. by f_equal.
Qed.

Lemma filter_out_length (l out : list string) : NoDup l →
  (List.length l ≤ List.length (filter (λ id, id ∉ out) l) + List.length out)%nat.
Proof.
  intros Hnd. rewrite <- (filter_app_complement (λ id, id ∈ out) l) at 1. rewrite length_app.
  assert (List.length (filter (λ id, id ∈ out) l) ≤ List.length out)%nat; [|lia].
  apply submseteq_length, NoDup_submseteq; [by apply NoDup_filter|]. intros x [H _]%list_elem_of_filter. done.
Qed.

Section Outgoing.
Context (r : rollout) (ready : list Replica).
Hypothesis keyed : ∀ i rep, old r !! i = Some rep → r_Index rep = i ∧ r_ContainerID rep ∈ olds.

Lemma elem_of_sortedReplicas m rep : rep ∈ sortedReplicas m ↔ ∃ i, m !! i = Some rep.
Proof.
  unfold sortedReplicas, by_index_sorted. rewrite (merge_sort_Permutation by_index), list_elem_of_fmap. split.
  - intros ([i x] & -> & H%elem_of_map_to_list). by exists i.
  - intros [i H]. exists (i, rep). split; [done|]. by apply elem_of_map_to_list.
Qed.
Lemma outgoing_old rep : rep ∈ outgoing_of r ready → old r !! r_Index rep = Some rep.
Proof using keyed.
  unfold outgoing_of. destruct ready as [|x l].
  - intros [i H]%elem_of_sortedReplicas. by destruct (keyed _ _ H) as [-> _].
  - intros (y & _ & H)%list_elem_of_omap. by destruct (keyed _ _ H) as [-> _].
Qed.
Lemma outgoing_length : ready ≠ [] → (List.length (outgoing_of r ready) ≤ List.length ready)%nat.
Proof.
  unfold outgoing_of. destruct ready as [|x l]; [done|]. intros _. generalize (x :: l). clear. intros l.
  unfold omap in *. induction l as [|y l IH]; [done|]. simpl. destruct (old r !! r_Index y); simpl in *; lia.
Qed.
End Outgoing.

(** The route of a swap is one that is allowed, and the state that follows
    when the outgoing ones have left satisfies the invariant. *)
Section Routing.
Context (ready : list Replica) (todo : nat) (s : St).
Hypothesis holds : Inv (List.length ready + todo) s.
Hypothesis distinct : NoDup (r_ContainerID <$> ready).
Hypothesis is_new : ∀ rep, rep ∈ ready → new_member dep olds s.2 (r_ContainerID rep) ∧ (r_ContainerID rep ∉ member_id <$> serving s.1).
Hypothesis last : ready ≠ [] ∨ todo = 0%nat.
Let out := outgoing_of s.1 ready.
Let after := serving_after s.1 ready out.

Lemma out_olds id : id ∈ r_ContainerID <$> out → id ∈ olds.
Proof using holds.
  intros (rep & -> & H)%list_elem_of_fmap. pose proof (inv_old _ _ _ holds) as Hk.
  apply (outgoing_old _ _ Hk) in H. by destruct (Hk _ _ H).
Qed.
Lemma after_old id : id ∈ member_id <$> after → id ∈ olds → id ∈ member_id <$> serving s.1 ∧ (id ∉ r_ContainerID <$> out).
Proof using is_new.
  unfold after. rewrite after_members, elem_of_app, list_elem_of_filter. intros [[H1 H2]|(rep & -> & H)%list_elem_of_fmap] Ho; [by split|].
  by destruct (is_new _ H) as [(? & _) _].
Qed.
Lemma after_nodup : NoDup (member_id <$> after).
Proof using holds distinct is_new.
  unfold after. rewrite after_members. apply NoDup_app. split_and!; [|intros id [_ H]%list_elem_of_filter|done].
  - apply NoDup_filter, (inv_nodup _ _ _ holds).
  - intros (rep & -> & Hr)%list_elem_of_fmap. by destruct (is_new _ Hr).
Qed.
Lemma after_ok id : id ∈ member_id <$> after → id ∈ olds ∨ new_member dep olds s.2 id.
Proof using holds is_new.
  unfold after. rewrite after_members, elem_of_app, list_elem_of_filter. intros [[_ H]|(rep & -> & H)%list_elem_of_fmap].
  - by apply (inv_members _ _ _ holds).
  - right. by apply is_new.
Qed.
Lemma after_count : Z.of_nat (List.length (filter (λ id, id ∉ olds) (member_id <$> after)) + todo) = N.
Proof using holds is_new last.
  unfold after. rewrite after_members, filter_app, length_app.
  rewrite (list_filter_filter_l (λ id, id ∉ olds)) by (intros id H Hout; by apply H, out_olds).
  assert (filter (λ id, id ∉ olds) (r_ContainerID <$> ready) = r_ContainerID <$> ready) as ->.
  { apply filter_all. intros id (rep & -> & H)%list_elem_of_fmap. by destruct (is_new _ H) as [(? & _) _]. }
  pose proof (inv_count _ _ _ holds). rewrite length_fmap. lia.
Qed.
Lemma after_floor : Z.min (Z.of_nat (List.length olds)) N ≤ Z.of_nat (List.length after).
Proof using holds is_new last.
  destruct (decide (ready = [])) as [Hr|Hr].
  - pose proof after_count as Hc. destruct last as [?| ->]; [done|].
    pose proof (length_filter (λ id, id ∉ olds) (member_id <$> after)) as Hl. rewrite (length_fmap _ after) in Hl. lia.
  - pose proof (outgoing_length s.1 ready Hr) as Ho. pose proof (inv_floor _ _ _ holds) as Hf.
    pose proof (filter_out_length (member_id <$> serving s.1) (r_ContainerID <$> out) (inv_nodup _ _ _ holds)) as Hl.
    assert (List.length after = List.length (member_id <$> after)) as -> by (by rewrite length_fmap).
    unfold after. rewrite after_members, length_app. rewrite !length_fmap in *. unfold out in *. lia.
Qed.

(** The old replicas that are left. *)
Lemma after_left (o : gmap Z Replica) : (∀ i, o !! i = if decide (i ∈ r_Index <$> out) then None else old s.1 !! i) →
  ∀ id, id ∈ member_id <$> after → id ∈ olds → ∃ i rep, o !! i = Some rep ∧ r_ContainerID rep = id.
Proof using holds is_new last.
  intros Ho id H1 H2. destruct (after_old id H1 H2) as [H3 H4]. destruct (inv_left _ _ _ holds id H3 H2) as (i & rep & H5 & H6).
  exists i, rep. split; [|done]. rewrite Ho. destruct (decide _) as [Hin|]; [|done].
  apply list_elem_of_fmap in Hin as (rep' & -> & Hr'). exfalso. apply H4.
  apply (outgoing_old _ _ (inv_old _ _ _ holds)) in Hr' as Hl. rewrite Hl in H5. injection H5 as ->.
  rewrite <- H6. by apply list_elem_of_fmap_2.
Qed.

(** After the new route has been told and taken. *)
Lemma after_Inv (o : gmap Z Replica) evs s' : (∀ i, o !! i = if decide (i ∈ r_Index <$> out) then None else old s.1 !! i) →
  s'.1 = set_serving s.1 after → s'.2 = (evs ++ s.2)%list → routed s'.2 = member_id <$> after → synced s'.2 = true →
  Inv_for o todo s'.
Proof using holds distinct is_new last.
  intros Ho H1 H2 H3 H4. pose proof holds as [Hd Hp Hr Ha Hi Hk _ _ _ _ _ _ _].
  constructor; rewrite ?H1; cbn [d prev recreate adopted inService serving set_serving]; try done.
  - intros i rep. rewrite Ho. destruct (decide _); [done|]. apply Hk.
  - apply after_nodup.
  - intros id Hid. destruct (after_ok id Hid) as [?|?]; [by left|right]. rewrite H2. by apply new_member_app.
  - by apply after_left.
  - apply after_floor.
  - apply after_count.
Qed.
End Routing.

Definition last_out (s : St) : Prop := ∀ id, id ∈ routed s.2 → id ∉ olds.

(** The map without the old replicas that go. *)
Definition without (out : list Replica) (m : gmap Z Replica) : gmap Z Replica := filter (λ '(i, _), i ∉ r_Index <$> out) m.
Lemma without_lookup out m i : without out m !! i = if decide (i ∈ r_Index <$> out) then None else m !! i.
Proof.
  unfold without. destruct (decide _) as [H|H].
  - apply map_lookup_filter_None. right. by intros x _ Hx.
  - destruct (m !! i) eqn:E; [by apply map_lookup_filter_Some|]. apply map_lookup_filter_None. by left.
Qed.

(** What a swap does once the proxy has taken the route. *)
Definition swap_tail (r : rollout) (ready out : list Replica) : M (or_error unit) :=
  try! _ := (if negb (bool_decide (ready = [])) && negb (bool_decide (out = [])) && negb (recreate r)
             then checked (perform world CSettle) else ok tt) in
  let! _ := (if bool_decide (out = []) then mret tt else
             let! _ := mset set_retired in
             mloop (retire_one world (match prev r with Some p => gracePeriod StopTimeout (d_Spec p) | None => StopTimeout end)) out) in
  let! _ := narrate world [L "serving"] in
  ctx_err world.

Lemma retire_part grace out todo o s : safe s.2 → Inv_for (without out o) todo s → old s.1 = o → synced s.2 = true →
  (∀ rep, rep ∈ out → r_ContainerID rep ∉ routed s.2) →
  let m := (if bool_decide (out = []) then mret tt else let! _ := mset set_retired in mloop (retire_one world grace) out) in
  safe (m s).2.2 ∧ Inv todo (m s).2 ∧ routed (m s).2.2 = routed s.2.
Proof.
  intros Hs Hi Ho Hy Hn. cbv zeta. case_bool_decide as E.
  - split; [done|]. split; [|done]. unfold Inv. cbn [mret snd]. subst out. replace (without [] o) with o in Hi; [by rewrite Ho|].
    apply map_eq. intros i. by rewrite without_lookup.
  - unfold mthen, mset. set (s1 := (set_retired s.1, s.2)).
    destruct (retire_loop grace out s1) as (H1 & (evs & H2 & H3) & m & H4 & H5); [by apply (inv_recreate _ _ _ Hi)|done..|].
    split; [done|]. split; [|by rewrite H2, routed_quiet].
    unfold Inv. replace (old _) with (without out o).
    + apply (Inv_same _ _ s); [|by exists evs|done]. rewrite H4. split; [exists (d_Status (d s.1)); by destruct s as [[[]] ]|done].
    + rewrite H4. apply map_eq. intros i. cbn [old set_old]. rewrite H5, without_lookup. by rewrite <- Ho.
Qed.

Lemma swap_tail_hoare r ready out todo o ids :
  hoare (λ s, Inv_for (without out o) todo s ∧ old s.1 = o ∧ synced s.2 = true ∧ routed s.2 = ids ∧
              ∀ rep, rep ∈ out → r_ContainerID rep ∉ ids)
        (swap_tail r ready out) (λ _ s, Inv todo s ∧ routed s.2 = ids).
Proof.
  assert (∀ P, lasts olds (λ s, P (routed s.2) (synced s.2) (old s.1))) as Hlast.
  { intros P s s' [[st H] (evs & He & Hq)]. rewrite H, He.
    rewrite routed_quiet, synced_quiet; [done|..]; eapply Forall_impl; try exact Hq; intros e; apply modest_quiet. }
  unfold swap_tail. set (I := λ s, Inv_for (without out o) todo s ∧ _). apply (hoare_try _ _ _ _ _ (λ _, I)).
  - destruct (_ && _); [apply hoare_calm; [calm|]|by apply hoare_ok].
    apply lasts_and; [apply Inv_for_lasts|]. apply (Hlast (λ x y z, z = o ∧ y = true ∧ x = ids ∧ _)).
  - intros _. apply (hoare_bind _ _ _ _ _ (λ _ s, Inv todo s ∧ routed s.2 = ids)).
    + intros s Hs (H1 & H2 & H3 & H4 & H5). rewrite <- H4. apply (retire_part _ _ _ o); [done..|by rewrite H4].
    + intros _. assert (lasts olds (λ s, Inv todo s ∧ routed s.2 = ids)) as Hl.
      { apply lasts_and; [apply Inv_lasts|]. apply (Hlast (λ x _ _, x = ids)). }
      apply hoare_calm_then; [unfold narrate; calm|done|]. intros _. apply hoare_calm; [apply ctx_err_calm|done].
Qed.

Lemma swap_eq ready s :
  let out := outgoing_of s.1 ready in let members := serving_after s.1 ready out in
  let c := CRouteVia (mk_override (hostnamesOf (d_Spec (d s.1))) members (desired s.1) None) in
  let tr := mk_happened c (world s.2 c) :: s.2 in
  swap world StopTimeout ready s =
    if bool_decide (ready = []) && bool_decide (out = []) then (inr tt, s) else
    match world tr CSyncProxy with
    | Some err => (inl (L "could not route to the new version: " :: err), (set_serving s.1 members, mk_happened CSyncProxy (Some err) :: tr))
    | None => swap_tail s.1 ready out (set_serving s.1 members, mk_happened CSyncProxy None :: tr)
    end.
Proof.
  cbv zeta. unfold swap, mthen at 1, mget. cbn [fst snd]. destruct (_ && _); [done|].
  unfold mthen at 1, mset at 1. cbn [fst snd]. rewrite !then_perform. cbn [fst snd].
  by destruct (world _ CSyncProxy).
Qed.

(** A swap, whether it brings replicas in or takes the rest of the old out. *)
Lemma swap_hoare todo ready : ready ≠ [] ∨ todo = 0%nat → NoDup (r_ContainerID <$> ready) →
  hoare (λ s, Inv (List.length ready + todo) s ∧
              ∀ rep, rep ∈ ready → new_member dep olds s.2 (r_ContainerID rep) ∧ (r_ContainerID rep ∉ member_id <$> serving s.1))
        (swap world StopTimeout ready) (λ _ s, Inv todo s ∧ (ready = [] → last_out s)).
Proof.
  intros Hlast Hnd s Hs [Hi Hnew]. rewrite swap_eq. cbv zeta. set (out := outgoing_of s.1 ready). set (after := serving_after s.1 ready out).
  destruct (_ && _) eqn:E.
  { apply andb_true_iff in E as [E1%bool_decide_eq_true E2%bool_decide_eq_true]. split; [done|]. intros a _. cbn [snd].
    subst ready. split; [by destruct Hlast as [?| ->]|]. intros _ id Hid Hold. rewrite (inv_routed _ _ _ Hi) in Hid.
    destruct (inv_left _ _ _ Hi id Hid Hold) as (i & rep & Hl & _).
    assert (rep ∈ out) as Hr by (apply elem_of_sortedReplicas; by exists i). rewrite E2 in Hr. by apply elem_of_nil in Hr. }
  set (c := CRouteVia _).
  assert (safe (mk_happened c (world s.2 c) :: s.2)) as Hs1.
  { split; [|done]. unfold fits. cbn [what c o_members]. split_and!.
    - by eapply after_nodup.
    - by eapply after_floor.
    - by eapply after_ok. }
  destruct (world _ CSyncProxy) eqn:Ey; [done|]. set (s1 := (_, _ :: _)).
  destruct (swap_tail_hoare s.1 ready out todo (old s.1) (member_id <$> after) s1) as [H1 H2].
  - done.
  - split_and!; [|done|done|done|].
    + apply (after_Inv ready todo s Hi Hnd Hnew Hlast _ [mk_happened CSyncProxy None; mk_happened c (world s.2 c)]); [|done..].
      intros i. apply without_lookup.
    + intros rep Hr Hin. destruct (after_old ready s Hnew _ Hin) as [_ Hno].
      { eapply out_olds; [exact Hi|]. by apply list_elem_of_fmap_2. }
      apply Hno. by apply list_elem_of_fmap_2.
  - split; [done|]. intros a Ha. destruct (H2 a Ha) as [H3 H4]. split; [done|].
    intros -> id Hid Hold. rewrite H4 in Hid. destruct (after_old [] s Hnew _ Hid Hold) as [Hin Hno]. apply Hno.
    destruct (inv_left _ _ _ Hi id Hin Hold) as (i & rep & Hl & <-). apply list_elem_of_fmap_2, elem_of_sortedReplicas. by exists i.
Qed.

(** ** The whole update *)

Lemma run_batches_hoare first l : Forall (λ b, b ≠ []) l →
  hoare (Inv (List.length (List.concat l))) (run_batches world StopTimeout polls first l) (λ _, Inv 0).
Proof using new_ids.
  intros Hl. revert first. induction Hl as [|batch rest Hb Hl IH]; intros first; cbn [run_batches List.concat].
  { by apply hoare_ok. }
  rewrite length_app. set (n := (_ + _)%nat).
  apply hoare_get. intros dp. apply (hoare_pre _ _ _ (Inv n)); [by intros s [? _]|].
  apply (hoare_try _ _ _ _ _ (λ _, Inv n)); [apply hoare_calm; [calm|apply Inv_lasts]|]. intros _.
  apply (hoare_try _ _ _ _ _ (λ a s, Inv n s ∧ brought batch a.1 s)); [apply bring_hoare|]. intros [ready created]. cbn [fst].
  assert (lasts olds (λ s, Inv n s ∧ brought batch ready s)) as Hlast by (apply lasts_and; [apply Inv_lasts|apply brought_lasts]).
  apply (hoare_try _ _ _ _ _ (λ _ s, Inv n s ∧ brought batch ready s)).
  { destruct first; [|by apply hoare_ok]. apply hoare_calm_then; [unfold narrate; calm|done|]. intros _.
    apply hoare_calm; [apply reach_calm|done]. }
  intros _. apply hoare_get. intros dp'.
  apply (hoare_try _ _ _ _ _ (λ _ s, (Inv n s ∧ brought batch ready s) ∧
           ∀ rep, rep ∈ ready → verified (d_Spec dep) s.2 (r_ContainerID rep))).
  { intros s Hs [H ->]. destruct (hoare_calm dep olds _ _ (awaitReady_calm world polls olds (d s.1) ready) Hlast s Hs H) as [H1 H2].
    split; [done|]. intros [] Ha. split; [by apply (H2 tt)|]. intros rep Hr.
    destruct (inv_d _ _ _ (proj1 H)) as [st Hd]. pose proof (awaitReady_verified world polls (d s.1) ready s Ha rep Hr) as Hv.
    rewrite Hd in Hv. by rewrite Hd. }
  intros _.
  apply (hoare_try _ _ _ _ _ (λ _, Inv (List.length (List.concat rest)))); [|by intros _; apply IH].
  intros s Hs [[Hi (Hp & Hnd & Hids)] Hv].
  assert (List.length ready = List.length batch) as Hlen by (by rewrite <- Hp, length_fmap).
  assert (ready ≠ []) as Hne by (intros ->; by destruct batch).
  destruct (swap_hoare (List.length (List.concat rest)) ready (or_introl Hne) Hnd s Hs) as [H1 H2].
  - rewrite Hlen. split; [done|]. intros rep Hr. destruct (Hids rep Hr) as (? & ? & ?). split; [|done]. split_and!; [done..|by apply Hv].
  - split; [done|]. intros a Ha. by apply (H2 a).
Qed.

(** *** The version in service, as it is read *)

Section Loading.
Context (app : Application).
Hypothesis application : ∀ tr, world tr (CGetApplication (d_Application dep)) = inr app.
Hypothesis active : app_ActiveDeploymentID app = Some (d_ID p).
Hypothesis running : app_DesiredState app = DesiredRunning.
Hypothesis previous : ∀ tr, world tr (CGetDeployment (d_ID p)) = inr p.
Hypothesis replicas : ∀ tr, world tr (CListReplicas (d_ID p)) = inr oldReplicas.
Hypothesis ids_distinct : NoDup olds.
Hypothesis indexes_distinct : NoDup (r_Index <$> oldReplicas).

Definition by_index_map (m : gmap Z Replica) (l : list Replica) : gmap Z Replica := foldl (λ m rep, <[r_Index rep := rep]> m) m l.

Lemma by_index_inv l : ∀ m i rep, by_index_map m l !! i = Some rep → (rep ∈ l ∧ r_Index rep = i) ∨ m !! i = Some rep.
Proof.
  induction l as [|x l IH]; intros m i rep H; [by right|]. apply IH in H as [[H1 H2]|H]; [left; split; [by right|done]|].
  apply lookup_insert_Some in H as [[H1 H2]|[_ H]]; [left|by right]. subst. split; [by left|done].
Qed.
Lemma by_index_keep l : ∀ m i, (i ∉ r_Index <$> l) → by_index_map m l !! i = m !! i.
Proof.
  induction l as [|x l IH]; intros m i H; [done|]. rewrite fmap_cons, not_elem_of_cons in H. destruct H as [H1 H2].
  simpl. rewrite IH by done. by rewrite lookup_insert_ne.
Qed.
Lemma by_index_all l : ∀ m rep, NoDup (r_Index <$> l) → rep ∈ l → by_index_map m l !! r_Index rep = Some rep.
Proof.
  induction l as [|x l IH]; intros m rep Hnd Hr; [by apply elem_of_nil in Hr|].
  rewrite fmap_cons, NoDup_cons in Hnd. destruct Hnd as [Hx Hnd]. apply elem_of_cons in Hr as [->|Hr]; [|by apply IH].
  simpl. rewrite by_index_keep by done. apply lookup_insert_eq.
Qed.

(** A rollout that has just begun, whatever its status by now. *)
Definition Start (s : St) : Prop := ∃ st, s.1 = set_d (newRollout dep) (set_status dep st).
Lemma Start_lasts : lasts olds Start.
Proof. intros s s' [[st H] _] [st' H']. exists st. by rewrite H, H'. Qed.

Definition loaded (s : St) : rollout :=
  set_previous s.1 (Some p) (by_index_map ∅ oldReplicas) ((λ rep, mk_member rep (a_Port (d_Spec p))) <$> oldReplicas).
Lemma loadPrevious_eq s : Start s → ∃ o a evs, o_members o = serving (loaded s) ∧
  Forall (modest olds) evs ∧ loadPrevious world s = (inr tt, (loaded s, mk_happened (CRouteVia o) a :: evs ++ s.2)%list).
Proof using application active running previous replicas.
  intros [st Hst]. unfold loadPrevious, mtry. unfold mthen at 1, mget at 1. cbn [fst snd].
  replace (d_Application (d s.1)) with (d_Application dep) by (by rewrite Hst).
  rewrite (then_perform world (CGetApplication _)), application, active. rewrite (then_perform world (CGetDeployment _)), previous.
  rewrite (then_perform world (CListReplicas _)), replicas, running.
  unfold mthen, mset, mget, perform. cbn [fst snd mret ok]. rewrite String.eqb_refl.
  replace (set_previous _ _ _ _) with (loaded s) by (unfold loaded; by rewrite Hst).
  set (o := mk_override _ _ _ _). set (tr := _ :: _ :: _ :: s.2).
  exists o, (world tr (CRouteVia o)), (take 3 tr). split; [done|]. split; [by repeat constructor|]. done.
Qed.

Lemma loadPrevious_hoare : hoare Start (loadPrevious world) (λ _, Inv (Z.to_nat N)).
Proof using application active running previous replicas ids_distinct indexes_distinct some_replicas.
  intros s Hs HS. destruct (loadPrevious_eq s HS) as (o & a & evs & Ho & He & ->). destruct HS as [st Hst]. cbn [fst snd].
  assert (member_id <$> serving (loaded s) = olds) as Hids by (unfold loaded; cbn [serving set_previous]; by rewrite <- list_fmap_compose).
  assert (List.length (serving (loaded s)) = List.length olds) as Hlen by (by rewrite <- Hids, length_fmap).
  split.
  - split; [|by apply safe_modest]. unfold fits. cbn [what]. rewrite Ho, Hids, Hlen. split_and!; [done|lia|by left].
  - intros _ _. unfold Inv. constructor; cbn [fst snd]; rewrite ?Hids, ?Hlen.
    + exists st. unfold loaded. by rewrite Hst.
    + done.
    + unfold loaded. by rewrite Hst.
    + unfold loaded. by rewrite Hst.
    + unfold loaded. by rewrite Hst.
    + intros i rep H. apply by_index_inv in H as [[H1 H2]|H]; [|by rewrite lookup_empty in H]. split; [done|]. by apply list_elem_of_fmap_2.
    + done.
    + by left.
    + intros id (rep & -> & Hr)%list_elem_of_fmap _. exists (r_Index rep), rep. split; [|done]. by apply by_index_all.
    + lia.
    + rewrite filter_none by (by intros id ? ?). simpl. lia.
    + simpl. by rewrite Ho, Hids.
    + lia.
Qed.
End Loading.

(** ** The commit, and after it *)

(** What may happen once the new version is the active one. *)
Definition after_commit (e : happened) : Prop :=
  match what e with CRouteVia _ | CRetireInBackground _ _ | CActivate _ => False | _ => True end.

Lemma safe_after evs tr : Forall after_commit evs → activated tr → safe tr → safe (evs ++ tr).
Proof.
  intros H Ha Hs. induction H as [|e evs He H IH]; [done|]. split; [|done].
  assert (activated (evs ++ tr)) as Ha' by (apply Exists_app; by right). revert He. unfold after_commit, fits. by destruct (what e).
Qed.

Lemma others_calm id l : calm_with after_commit (others world id l).
Proof. induction l as [|c l IH]; cbn [others]; calm. Qed.
Lemma retireOthers_calm : calm_with after_commit (retireOthers world StopTimeout).
Proof.
  pose proof others_calm. unfold retireOthers, retire_other, retireContainer, removeContainer, narrate. calm.
Qed.

Definition committed (s : St) : Prop := activated s.2.

Lemma commit_hoare : hoare (λ s, Inv 0 s ∧ last_out s) (commit world StopTimeout) (λ _, committed).
Proof using some_replicas.
  unfold commit. set (I := λ s, Inv 0 s ∧ last_out s).
  assert (lasts olds I) as Hl.
  { apply lasts_and; [apply Inv_lasts|]. intros s s' [_ (evs & He & Hq)] H. unfold last_out. rewrite He, routed_quiet; [done|].
    eapply Forall_impl; [exact Hq|]. intros e. apply modest_quiet. }
  apply (hoare_try _ _ _ _ _ (λ _, I)); [apply hoare_calm; [apply reach_calm|done]|]. intros _.
  apply (hoare_try _ _ _ _ _ (λ _, I)); [apply hoare_calm; [apply reach_calm|done]|]. intros _.
  apply hoare_get. intros dp. apply (hoare_pre _ _ _ I); [by intros s [? _]|]. destruct (negb _); [apply hoare_fail|].
  apply hoare_calm_then; [calm|done|]. intros _.
  intros s Hs [Hi Hlast]. unfold mtry. rewrite (then_perform world (CActivate _)). set (tr := _ :: s.2).
  assert (safe tr) as Htr.
  { split; [|done]. unfold fits. cbn [what]. rewrite (inv_routed _ _ _ Hi) in *. unfold last_out in Hlast. rewrite (inv_routed _ _ _ Hi) in Hlast.
    pose proof (inv_count _ _ _ Hi) as Hc. rewrite filter_all in Hc by done. split_and!.
    - apply (inv_synced _ _ _ Hi). lia.
    - apply (inv_nodup _ _ _ Hi).
    - by rewrite Nat.add_0_r in Hc.
    - intros id Hid. destruct (inv_members _ _ _ Hi id Hid) as [Hold|?]; [by destruct (Hlast id Hid)|done]. }
  destruct (world s.2 (CActivate (d_ID dp))) as [e|x] eqn:E; [done|].
  rewrite !then_set. cbv beta. set (rest := mthen _ _). set (s1 := (set_d _ _, _)).
  assert (calm_with after_commit rest) as Hc.
  { pose proof retireOthers_calm. unfold rest, narrate. calm. }
  assert (activated tr) as Ha by (apply Exists_cons; left; by eexists).
  destruct (Hc s1) as ([st Hst] & evs & He & Hq). split; [rewrite He; by apply safe_after|].
  intros a _. unfold committed. rewrite He. apply Exists_app. by right.
Qed.

(** *** The steps of [execute] *)

Lemma length_indexes n : List.length (indexes n) = Z.to_nat n.
Proof. unfold indexes, zrange. rewrite length_zcount. lia. Qed.

Lemma switch_down_hoare todo : a_Strategy (d_Spec dep) ≠ StrategyRecreate →
  hoare (Inv todo) (switch_down world StopTimeout) (λ _, Inv todo).
Proof.
  intros Hne s Hs Hi. unfold switch_down, mthen, mget. cbn [fst snd]. rewrite (inv_prev _ _ _ Hi).
  destruct (inv_d _ _ _ Hi) as [st Hd]. rewrite Hd. cbn [d_Spec set_status].
  destruct (String.eqb_spec (a_Strategy (d_Spec dep)) StrategyRecreate); [done|]. split; [done|]. by intros [] _.
Qed.

Lemma serve_hoare : hoare (Inv (Z.to_nat N))
  (let! r := mget (λ r, r) in
   try! _ := run_batches world StopTimeout polls true (batches r) in
   try! _ := swap world StopTimeout [] in commit world StopTimeout) (λ _, committed).
Proof using new_ids some_replicas.
  apply hoare_get. intros r.
  apply (hoare_know _ _ _ (List.length (List.concat (batches r)) = Z.to_nat N)).
  { intros s [Hi ->]. rewrite batches_all, (inv_service _ _ _ Hi). destruct (inv_d _ _ _ Hi) as [st ->].
    rewrite filter_all by set_solver. apply length_indexes. }
  intros Hlen. apply (hoare_pre _ _ _ (Inv (List.length (List.concat (batches r))))); [intros s [Hi _]; by rewrite Hlen|].
  apply (hoare_try _ _ _ _ _ (λ _, Inv 0)); [apply run_batches_hoare, batches_nonempty|]. intros _.
  apply (hoare_try _ _ _ _ _ (λ _ s, Inv 0 s ∧ last_out s)).
  - eapply hoare_post; [|eapply hoare_pre; [|apply (swap_hoare 0 []); [by right|constructor]]].
    + intros a s [H1 H2]. split; [done|by apply H2].
    + intros s Hi. split; [done|]. intros rep Hr. by apply elem_of_nil in Hr.
  - intros _. apply commit_hoare.
Qed.


Section Execute.
Context (app : Application) (executeStatic executeDormant : M (or_error unit)).
Hypothesis application : ∀ tr, world tr (CGetApplication (d_Application dep)) = inr app.
Hypothesis active : app_ActiveDeploymentID app = Some (d_ID p).
Hypothesis running : app_DesiredState app = DesiredRunning.
Hypothesis previous : ∀ tr, world tr (CGetDeployment (d_ID p)) = inr p.
Hypothesis replicas : ∀ tr, world tr (CListReplicas (d_ID p)) = inr oldReplicas.
Hypothesis ids_distinct : NoDup olds.
Hypothesis indexes_distinct : NoDup (r_Index <$> oldReplicas).
Hypothesis rolling : a_Strategy (d_Spec dep) ≠ StrategyRecreate.
Hypothesis not_static : a_Static (d_Spec dep) = None.
Hypothesis not_standby : d_Kind dep ≠ KindStandby.

Lemma execute_hoare : hoare Start (execute world StopTimeout polls executeStatic executeDormant) (λ _, committed).
Proof using All.
  unfold execute. apply hoare_get. intros r. apply (hoare_know _ _ _ (∃ st, r = set_d (newRollout dep) (set_status dep st))).
  { by intros s [[st Hs] ->]; exists st. }
  intros [st ->]. cbn [resumed dormant d d_Kind d_Spec set_d newRollout set_status orb].
  apply (hoare_pre _ _ _ Start); [by intros s [? _]|].
  apply hoare_calm_then; [calm|apply Start_lasts|]. intros _.
  destruct (String.eqb_spec (d_Kind dep) KindStandby); [done|]. rewrite not_static, bool_decide_eq_false_2 by (by intros [? ?]).
  apply (hoare_try _ _ _ _ _ (λ _, Start)); [apply hoare_calm; [apply reach_calm|apply Start_lasts]|]. intros _.
  apply (hoare_try _ _ _ _ _ (λ _, Start)); [apply hoare_calm; [apply obtain_calm|apply Start_lasts]|]. intros _.
  apply (hoare_try _ _ _ _ _ (λ _, Start)); [apply hoare_calm; [apply reach_calm|apply Start_lasts]|]. intros _.
  apply (hoare_try _ _ _ _ _ (λ _, Start)); [apply hoare_calm; [calm|apply Start_lasts]|]. intros _.
  cbn [surveyed set_d newRollout].
  apply (hoare_try _ _ _ _ _ (λ _, Inv (Z.to_nat N))); [by eapply loadPrevious_hoare|]. intros _.
  apply (hoare_try _ _ _ _ _ (λ _, Inv (Z.to_nat N))); [by apply switch_down_hoare|]. intros _.
  apply hoare_get. intros r. apply (hoare_know _ _ _ (inService r = ∅)).
  { intros s [Hi ->]. apply (inv_service _ _ _ Hi). }
  intros Hr. rewrite bool_decide_eq_true_2 by done. apply (hoare_pre _ _ _ (Inv (Z.to_nat N))); [by intros s [? _]|].
  apply (hoare_try _ _ _ _ _ (λ _, Inv (Z.to_nat N))); [by apply hoare_ok|]. intros _. apply serve_hoare.
Qed.
End Execute.
End Update.

(** ** The theorem *)

(** Docker gives a container an identifier that no other container has had. *)
Definition new_containers (world : trace → ∀ c, answer_of c) (olds : list string) : Prop :=
  ∀ tr dep i id name, world tr (CCreateContainer dep i) = inr (id, name) → (id ∉ created_ids tr) ∧ (id ∉ olds).

(** The application is running, and its active deployment and that one's
    replicas can be read. *)
Record in_service (world : trace → ∀ c, answer_of c) (name : string) (p : Deployment) (replicas : list Replica) : Prop := {
  is_running : ∃ app, (∀ tr, world tr (CGetApplication name) = inr app) ∧
    app_ActiveDeploymentID app = Some (d_ID p) ∧ app_DesiredState app = DesiredRunning;
  is_deployed : ∀ tr, world tr (CGetDeployment (d_ID p)) = inr p;
  is_replicated : ∀ tr, world tr (CListReplicas (d_ID p)) = inr replicas;
  is_distinct : NoDup (r_ContainerID <$> replicas) ∧ NoDup (r_Index <$> replicas) }.

(** C1: a rolling update of an application that is running, with whatever
    answers and errors Docker, the database and the proxy give on the way: every
    route the proxy is told has at least as many containers behind it as the old
    version had or the new one wants, whichever is less, each of them an old one
    or a new one that was seen ready; no old container is handed to a drain
    before the proxy has taken a route without it, and none is stopped or removed
    before the new version is the active one; it is made the active one only when
    the proxy routes to exactly as many new containers as it wants, all seen
    ready; and an update that ends without an error has made it so. *)
Theorem rolling_update_safe world StopTimeout polls executeStatic executeDormant dep p replicas :
  new_containers world (r_ContainerID <$> replicas) → in_service world (d_Application dep) p replicas →
  1 ≤ a_Replicas (d_Spec dep) → a_Strategy (d_Spec dep) ≠ StrategyRecreate → a_Static (d_Spec dep) = None → d_Kind dep ≠ KindStandby →
  let out := execute world StopTimeout polls executeStatic executeDormant (newRollout dep, []) in
  safe (fits dep (r_ContainerID <$> replicas)) out.2.2 ∧ (out.1 = inr tt → activated out.2.2).
Proof.
  intros Hnew [(app & H1 & H2 & H3) H4 H5 [H6 H7]] HN Hr Hs Hk out.
  destruct (execute_hoare world StopTimeout polls dep p replicas Hnew HN app executeStatic executeDormant H1 H2 H3 H4 H5 H6 H7 Hr Hs Hk
    (newRollout dep, [])) as [Hsafe Hout].
  - done.
  - exists (d_Status dep). by destruct dep.
  - split; [done|]. by intros H%Hout.
Qed.

Module RollingWitness.
Local Open Scope string_scope.
Definition base (n : Z) : App := mk_app "api" "shop/api:v1" 8080 "api.example.com" [] [] n ∅ None (mk_resources (GoFloat.mk_float 0 0) 0) [] [] [] []
  "" None [] None None None "" None None "always" "rolling" 0 false None.
Definition deployment (id n : Z) st : Deployment :=
  mk_deployment id 1 "api" id "v" "shop/api:v1" (base n) st "" 0 None KindDeploy None "" "" 0 0 no_references.
Definition two : list Replica := [mk_replica 1 1 "o1" "api-1" 0; mk_replica 1 2 "o2" "api-2" 0].
(** A name longer than every one in the trace. *)
Definition unused (tr : trace) : string := "n" ++ String.concat "" (created_ids tr).
Definition world (t : trace) (c : call) : answer_of c :=
  match c with
  | CGetApplication n => inr (mk_application 1 n DesiredRunning (Some 1) 0 0)
  | CGetDeployment _ => inr (deployment 1 2 StatusActive)
  | CListReplicas _ => inr two
  | CCreateContainer dd i => inr (unused t, "api")
  | CInspect id => inr (mk_container id id "api" 2 1 "" true false 0 "10.0.0.1" "running")
  | CInspectNames _ => inr (true, [])
  | CWake => Deadline
  | CImageExists _ => inr true | CListRuns => inr [] | CActivate _ => inr None | CListContainers _ => inr []
  | CDraining _ => false | CRetireInBackground _ _ => true | CBaseCtxErr => false | CTimedOut => false
  | CNarrate _ => tt | CWarnUnenforced => tt | CCaptureLogs _ => tt | CMarkHealthy _ => tt | CReset _ _ => tt | CRouteVia _ => tt
  | CClearRoute => tt | CAnnounce => tt | CSweep => tt
  | CEnsureNetwork => None | CPull _ => None | CRefuseRoot => None | CHook => None | CTransition _ _ _ _ => None | CAddReplica _ => None
  | CMarkReplicaRemoved _ => None | CStart _ => None | CStop _ _ => None | CRemove _ => None | CSetNames _ => None | CAwaitDrains _ => None
  | CProbe _ _ => None | CSyncProxy => None | CSettle => None | CCtxErr => None
  | CSetDesired _ _ => None | CProxyContainer => inr "proxy" | CExec _ _ => inr (0, "") | CStatUpload => true | COpenUpload => true
  | CImportPath _ _ => None | CListSuperseded _ => inr []
  end.

Lemma length_append (s t : string) : String.length (s ++ t) = (String.length s + String.length t)%nat.
Proof. induction s; simpl; congruence. Qed.
Lemma unused_new tr : unused tr ∉ created_ids tr.
Proof.
  unfold unused. intros H.
  assert (∀ l (x : string), x ∈ l → (String.length x ≤ String.length (String.concat "" l))%nat) as Hl.
  { induction l as [|y l IH]; intros x Hx; [by apply elem_of_nil in Hx|]. simpl.
    apply elem_of_cons in Hx as [->|Hx]; destruct l as [|z l]; simpl in *; [lia| |by apply elem_of_nil in Hx|].
    - rewrite length_append. lia.
    - rewrite length_append. specialize (IH _ Hx). simpl. lia. }
  apply Hl in H. simpl in H. lia.
Qed.
Lemma new_ids : new_containers world (r_ContainerID <$> two).
Proof.
  intros tr dep i id name [= <- <-]. split; [apply unused_new|]. simpl. rewrite !not_elem_of_cons. split_and!; [done..|apply not_elem_of_nil].
Qed.
Lemma serves : in_service world "api" (deployment 1 2 StatusActive) two.
Proof.
  split; [|done..|split; apply (bool_decide_unpack _); vm_compute; exact I].
  by exists (mk_application 1 "api" DesiredRunning (Some 1) 0 0).
Qed.
End RollingWitness.

(** From two replicas to three: the update ends without an error. *)
Lemma rolling_update_safe_witness :
  let out := execute RollingWitness.world 10 3 (ok tt) (ok tt) (newRollout (RollingWitness.deployment 2 3 StatusPending), []) in
  out.1 = inr tt ∧ safe (fits (RollingWitness.deployment 2 3 StatusPending) ["o1"; "o2"]%string) out.2.2 ∧ (out.1 = inr tt → activated out.2.2).
Proof.
  split; [vm_compute; reflexivity|].
  apply (rolling_update_safe RollingWitness.world 10 3 (ok tt) (ok tt) (RollingWitness.deployment 2 3 StatusPending) (RollingWitness.deployment 1 2 StatusActive) RollingWitness.two).
  - apply RollingWitness.new_ids.
  - apply RollingWitness.serves.
  - vm_compute. discriminate.
  - vm_compute. discriminate.
  - reflexivity.
  - vm_compute. discriminate.
Defined.

(** The batches of a rollout hold every index of the new version that is
    not in service yet, each once, and none is empty; except when the old version
    has been stopped first, an index that replaces an old replica is a batch of
    its own, and a batch of several replaces nobody. *)
Theorem batches_partition r :
  List.concat (batches r) ≡ₚ filter (λ i, i ∉ inService r) (indexes (a_Replicas (d_Spec (d r)))) ∧
  NoDup (List.concat (batches r)) ∧ Forall (λ b, b ≠ []) (batches r) ∧
  (recreate r = true ∨ Forall (λ b, (∃ i rep, b = [i] ∧ old r !! i = Some rep) ∨ Forall (λ i, old r !! i = None) b) (batches r)).
Proof.
  split_and!.
  - apply batches_all.
  - rewrite batches_all. apply NoDup_filter, NoDup_zrange.
  - apply batches_nonempty.
  - destruct (recreate r) eqn:E; [by left|right]. unfold batches. rewrite E. apply Forall_app. split.
    + apply Forall_fmap, Forall_forall. intros i [[rep Hi] _]%list_elem_of_filter. left. by exists i, rep.
    + case_bool_decide; constructor; [|constructor]. right. apply Forall_forall. by intros i [Hi _]%list_elem_of_filter.
Qed.
