(* ===== verification/ResumeInv.v ===== *)
(** * What a resumed rollout takes over

    [survey] and [prepare] of Rollout.v against any world: what they keep of the
    two versions exists, what they remove was never recorded, and the route they
    take over holds nothing else. *)

From stdpp Require Import sorting.
From S2P Require Import Prelude GoStrings Effects GoTime SpecTypes DeployState Store Rollout RolloutInv RolloutSafe.
From Stdlib Require Import String.
Local Open Scope Z_scope.

Section Survey.
Context (world : trace → ∀ c, answer_of c) (dep : Deployment) (containers : list Container).
Local Abbreviation perform := (Effects.perform world).
Let listed : gset string := list_to_set (c_ID <$> containers).

(** [rep] is the record the store has of the replica of its index: the last one, if there are several. *)
Definition stands (recorded : list Replica) (rep : Replica) : Prop :=
  ∃ before after_, recorded = (before ++ rep :: after_)%list ∧ r_Index rep ∉ r_Index <$> after_.
(** A container of this deployment that the store, by the records it answered, has no replica for. *)
Definition unrecorded (recorded : list Replica) (id : string) : Prop :=
  ∃ c, c ∈ containers ∧ c_ID c = id ∧ c_Job c = "" ∧ c_DeploymentID c = d_ID dep ∧
    ∀ rep, stands recorded rep → r_Index rep = c_Replica c → r_ContainerID rep ≠ c_ID c.
(** Every record of a container that exists is adopted. *)
Definition adopts_recorded (recorded : list Replica) (r : rollout) : Prop :=
  ∀ rep, stands recorded rep → r_ContainerID rep ∈ listed → adopted r !! r_Index rep = Some rep.
(** Looking: nothing is started, stopped, removed or routed. *)
Definition looks (e : happened) : Prop :=
  match what e with
  | CMarkReplicaRemoved _ | CListReplicas _ | CInspectNames _ => True
  | _ => False
  end.

(** The old replicas are those whose containers exist, as far as [todo] has been worked off. *)
Definition olds_listed (todo : list Replica) (r : rollout) : Prop :=
  ∀ i rep, old r !! i = Some rep → r_Index rep = i ∧ (r_ContainerID rep ∈ listed ∨ rep ∈ todo).
(** What is adopted exists; what is in service is adopted. *)
Definition adopted_listed (r : rollout) : Prop :=
  (∀ i rep, adopted r !! i = Some rep → r_Index rep = i ∧ r_ContainerID rep ∈ listed) ∧
  ∀ i, i ∈ inService r → is_Some (adopted r !! i).

Lemma drop_gone_loop l : ∀ s, (mtry_loop (drop_gone world listed) l s).1 = inr tt → olds_listed l s.1 →
  olds_listed [] (mtry_loop (drop_gone world listed) l s).2.1.
Proof.
  induction l as [|rep l IH]; intros s H Ho; [done|]. cbn [mtry_loop] in *. apply try_ok in H as H'. destruct H' as ([] & H1 & E).
  rewrite E in *. clear E. apply IH; [done|]. revert H1. unfold drop_gone. case_bool_decide as Hin.
  - intros _ i rep' Hr. destruct (Ho i rep' Hr) as [Hi [?|[->|?]%elem_of_cons]]; (split; [done|]); auto.
  - intros H1. apply try_ok in H1 as H'. destruct H' as (u & _ & E). rewrite E in *. clear E. rewrite then_set. cbn [fst snd ok mret].
    set (s1 := (checked _ s).2). assert (s1.1 = s.1) as E1.
    { reflexivity. }
    rewrite E1. intros i rep' Hr. cbn [old set_old] in Hr. apply lookup_delete_Some in Hr as [Hne Hr].
    destruct (Ho i rep' Hr) as [Hi [?|[->|?]%elem_of_cons]]; (split; [done|]); auto. by destruct (Hne Hi).
Qed.

(** The loops change only what they say. *)
Definition same_old (r r' : rollout) : Prop := d r' = d r ∧ prev r' = prev r ∧ old r' = old r ∧ serving r' = serving r.
Definition adopts (r r' : rollout) : Prop := same_old r r' ∧ (adopted_listed r → adopted_listed r').
Definition drops (r r' : rollout) : Prop := d r' = d r ∧ prev r' = prev r ∧ serving r' = serving r.
#[local] Instance adopts_preorder : PreOrder adopts.
Proof.
  split; [by intros r|]. intros r1 r2 r3 [(? & ? & ? & ?) ?] [(? & ? & ? & ?) ?]. split; [|auto].
  split_and!; congruence.
Qed.
#[local] Instance drops_preorder : PreOrder drops.
Proof. split; [by intros r|]. intros r1 r2 r3 (? & ? & ?) (? & ? & ?). split_and!; congruence. Qed.
#[local] Instance eq_preorder : PreOrder (@eq rollout).
Proof. split; [done|]. by intros ? ? ? -> ->. Qed.

Lemma try_loop_calm {A} (R : rollout → rollout → Prop) `{!PreOrder R} q (f : A → M (or_error unit)) l :
  (∀ x, x ∈ l → calm R q (f x)) → calm R q (mtry_loop f l).
Proof.
  induction l as [|x l IH]; intros H; cbn [mtry_loop]; [apply calm_ret; exact _|]. apply calm_try; [exact _|apply H; by left|].
  intros _. apply IH. intros y Hy. apply H. by right.
Qed.

Lemma drop_gone_calm l : calm drops looks (mtry_loop (drop_gone world listed) l).
Proof.
  assert (∀ r m, drops r (set_old r m)) by done.
  apply try_loop_calm; [exact _|]. intros rep _. unfold drop_gone. calm.
Qed.

Lemma adopt_recorded_calm l : calm adopts looks (mtry_loop (adopt_recorded world listed) l).
Proof.
  apply try_loop_calm; [exact _|]. intros rep _. unfold adopt_recorded. case_bool_decide as Hin; cbn [negb]; [|calm].
  assert (∀ r (b : bool), adopts r (set_inService (set_adopted r (<[r_Index rep := rep]> (adopted r)) (fresh r))
                             (if b then {[r_Index rep]} ∪ inService r else inService r))); [|calm].
  intros r b. split; [done|]. intros [H1 H2]. split; cbn [adopted inService set_inService set_adopted].
  - intros i rep' [[<- <-]|[_ H]]%lookup_insert_Some; [by split|by apply H1].
  - intros i Hi. destruct (decide (r_Index rep = i)) as [->|Hne]; [by rewrite lookup_insert_eq; eexists|].
    rewrite lookup_insert_ne by done. apply H2. destruct b; [set_solver|done].
Qed.

Lemma stands_cons rep' l rep : stands (rep' :: l) rep → rep = rep' ∧ r_Index rep' ∉ r_Index <$> l ∨ stands l rep.
Proof. intros ([|x before] & after_ & E & Hn); injection E as -> ->; [by left|]. right. by exists before, after_. Qed.
Lemma stands_index l rep : stands l rep → r_Index rep ∈ r_Index <$> l.
Proof. intros (before & after_ & -> & _). rewrite fmap_app. apply elem_of_app. right. by left. Qed.
(** What was adopted of other indexes stays, and every record that stands is adopted. *)
Lemma adopt_recorded_loop l : ∀ s, (mtry_loop (adopt_recorded world listed) l s).1 = inr tt →
  let r := (mtry_loop (adopt_recorded world listed) l s).2.1 in
  (∀ i, i ∉ r_Index <$> l → adopted r !! i = adopted s.1 !! i) ∧ adopts_recorded l r.
Proof.
  induction l as [|rep l IH]; intros s H; [split; [done|]; by intros rep (before & after_ & E & _); destruct before|].
  cbn [mtry_loop] in *. apply try_ok in H as H'. destruct H' as ([] & H1 & E). rewrite E in *. clear E.
  set (s1 := (adopt_recorded world listed rep s).2) in *. destruct (IH s1 H) as [Hk Ha]. clear IH.
  assert (∀ i, i ≠ r_Index rep → adopted s1.1 !! i = adopted s.1 !! i) as Hother.
  { intros i Hi. unfold s1, adopt_recorded. case_bool_decide; cbn [negb]; [|reflexivity]. rewrite then_perform. destruct (world _ _) as [e|[running names]]; [done|].
    rewrite then_set. cbn [fst snd ok mret adopted set_inService set_adopted]. by rewrite lookup_insert_ne. }
  assert (r_ContainerID rep ∈ listed → adopted s1.1 !! r_Index rep = Some rep) as Hthis.
  { intros Hin. revert H1. unfold s1, adopt_recorded. rewrite bool_decide_true by done. cbn [negb]. rewrite then_perform. destruct (world _ _) as [e|[running names]]; [done|].
    intros _. rewrite then_set. cbn [fst snd ok mret adopted set_inService set_adopted]. by rewrite lookup_insert_eq. }
  split.
  - intros i Hi. rewrite fmap_cons, not_elem_of_cons in Hi. destruct Hi as [Hi1 Hi2]. by rewrite Hk, Hother.
  - intros rep' [[-> Hn]|Hs]%stands_cons Hin; [by rewrite Hk, Hthis|by apply Ha].
Qed.

Definition removes_unrecorded (recorded : list Replica) (e : happened) : Prop :=
  match what e with CRemove id => unrecorded recorded id | _ => looks e end.
Lemma looks_removes recorded e : looks e → removes_unrecorded recorded e.
Proof. destruct e as [c a]. by destruct c. Qed.
Lemma known_recorded recorded r c : adopts_recorded recorded r → c ∈ containers → known_as r c = false →
  ∀ rep, stands recorded rep → r_Index rep = c_Replica c → r_ContainerID rep ≠ c_ID c.
Proof.
  intros Ha Hc Hk rep Hs Hi He. assert (adopted r !! r_Index rep = Some rep) as E.
  { apply Ha; [done|]. rewrite He. unfold listed. apply elem_of_list_to_set. by apply list_elem_of_fmap_2. }
  unfold known_as in Hk. rewrite Hi in E. rewrite E, He, String.eqb_refl in Hk. done.
Qed.

(** The last loop reads the rollout and changes nothing of it. *)
Lemma remove_loop recorded l : (∀ c, c ∈ l → c ∈ containers) → ∀ s, d s.1 = dep → adopts_recorded recorded s.1 →
  (mtry_loop (remove_unrecorded world) l s).2.1 = s.1 ∧
  ∃ evs, (mtry_loop (remove_unrecorded world) l s).2.2 = (evs ++ s.2)%list ∧ Forall (removes_unrecorded recorded) evs.
Proof.
  induction l as [|c l IH]; intros Hl s Hd Ha; cbn [mtry_loop]; [split; [done|by exists []]|].
  rewrite !try_eq.
  assert (∀ c, c ∈ l → c ∈ containers) as Hl' by (intros c' Hc'; apply Hl; by right).
  destruct (negb (String.eqb (c_Job c) "") || negb (c_DeploymentID c =? d_ID (d s.1)) || known_as s.1 c) eqn:E.
  - assert (remove_unrecorded world c s = (inr tt, s)) as ->; [|by apply IH]. unfold remove_unrecorded. by rewrite then_get, E.
  - set (a := world s.2 (CRemove (c_ID c))). set (e := mk_happened (CRemove (c_ID c)) a).
    assert (remove_unrecorded world c s = (match a with Some err => inl err | None => inr tt end, (s.1, e :: s.2))) as ->.
    { unfold remove_unrecorded. rewrite then_get, E. unfold checked. rewrite (then_perform world (CRemove (c_ID c))). reflexivity. }
    bools. apply String.eqb_eq in H. apply Z.eqb_eq in H1. rewrite Hd in H1.
    assert (c ∈ containers) as Hc by (apply Hl; by left).
    assert (removes_unrecorded recorded e) as He by (exists c; split_and!; [done..|by apply (known_recorded recorded s.1)]).
    clearbody a. cbn [answer_of] in a. destruct a; cbn [fst snd].
    + split; [done|]. exists [e]. split; [done|]. by constructor.
    + destruct (IH Hl' (s.1, e :: s.2) Hd Ha) as (H2 & evs & H3 & H4). split; [done|]. exists (evs ++ [e])%list.
      rewrite H3, <- app_assoc. split; [done|]. apply Forall_app. split; [done|by constructor].
Qed.

Definition all_listed (r : rollout) : Prop :=
  olds_listed [] r ∧ adopted_listed r ∧ ∀ m, m ∈ serving r → member_id m ∈ listed.

(** What the store answered when it was asked for the replicas of this deployment. *)
Definition records (recorded : list Replica) : happened := @mk_happened call answer_of (CListReplicas (d_ID dep)) (inr recorded).
Definition spared (tr : trace) (e : happened) : Prop := ∃ recorded, removes_unrecorded recorded e ∧ ((∃ id, what e = CRemove id) → records recorded ∈ tr).
Lemma looks_spared tr evs : Forall looks evs → Forall (spared tr) evs.
Proof. intros H. eapply Forall_impl; [exact H|]. intros e He. exists []. split; [by apply looks_removes|]. intros [id Hid]. unfold looks in He. by rewrite Hid in He. Qed.
Lemma removes_spared recorded tr evs : Forall (removes_unrecorded recorded) evs → records recorded ∈ tr → Forall (spared tr) evs.
Proof. intros H Hr. eapply Forall_impl; [exact H|]. intros e He. by exists recorded. Qed.

Lemma survey_of_sound s : d s.1 = dep → (∀ i rep, old s.1 !! i = Some rep → r_Index rep = i) →
  let out := survey_of world dep containers s in
  ∃ evs, out.2.2 = (evs ++ s.2)%list ∧ Forall (spared evs) evs ∧
    (out.1 = inr tt → all_listed out.2.1 ∧ ∃ recorded, records recorded ∈ evs ∧ adopts_recorded recorded out.2.1).
Proof.
  intros Hd Hk out. subst out. unfold survey_of. rewrite then_get, try_eq. fold listed. set (olds := sortedReplicas (old s.1)).
  destruct (drop_gone_calm olds s) as ((D1 & _ & _) & evs1 & E1 & F1).
  assert (olds_listed olds s.1) as Ho.
  { intros i rep Hr. split; [by apply Hk|]. right. unfold olds, sortedReplicas, by_index_sorted.
    rewrite (merge_sort_Permutation by_index). apply list_elem_of_fmap. exists (i, rep). split; [done|]. by apply elem_of_map_to_list. }
  pose proof (drop_gone_loop olds s) as Hdrop.
  destruct (mtry_loop (drop_gone world listed) olds s) as [[e|[]] s1]; cbn [fst snd] in *; [exists evs1; split_and!; [done|by apply looks_spared|done]|].
  specialize (Hdrop eq_refl Ho). rewrite !then_set, try_eq. set (s2 := (_, _)).
  assert (d s2.1 = dep ∧ old s2.1 = old s1.1 ∧ ∀ m, m ∈ serving s2.1 → member_id m ∈ listed) as (D2 & O2 & M2).
  { unfold s2, set_retired_if. cbn [fst]. destruct (one_gone _); cbn [d old serving set_retired set_serving];
      (split_and!; [congruence|done|]); by intros m [? _]%list_elem_of_filter. }
  set (e0 := @mk_happened call answer_of (CListReplicas (d_ID dep)) (world s2.2 (CListReplicas (d_ID dep)))).
  change (perform (CListReplicas (d_ID dep)) s2) with (world s2.2 (CListReplicas (d_ID dep)), (s2.1, e0 :: s2.2)). cbn [fst snd].
  destruct (world s2.2 (CListReplicas (d_ID dep))) as [e|recorded] eqn:El; cbn [fst snd].
  { exists (e0 :: evs1). unfold s2. cbn [snd]. rewrite E1. split; [done|]. split; [|done]. apply looks_spared. by constructor. }
  assert (e0 = records recorded) as Ee0 by (unfold e0, records; first [reflexivity|by rewrite <- El]).
  rewrite then_set, try_eq. cbn [fst snd]. set (s3 := (set_inService (set_adopted s2.1 ∅ (fresh s2.1)) ∅, e0 :: s2.2)).
  assert (adopted s3.1 = ∅ ∧ inService s3.1 = ∅) as [Ea Ei] by done.
  assert (adopted_listed s3.1) as A3 by (unfold adopted_listed; rewrite Ea, Ei; split; [intros i rep H; by rewrite lookup_empty in H|intros i H; by apply elem_of_empty in H]).
  destruct (adopt_recorded_calm recorded s3) as (((D4 & _ & O4 & S4) & A4) & evs2 & E4 & F4). specialize (A4 A3).
  assert ((evs2 ++ s3.2)%list = (evs2 ++ e0 :: evs1) ++ s.2)%list as Ee by (unfold s3, s2; cbn [snd]; rewrite E1; by rewrite <- app_assoc).
  assert (Forall looks (evs2 ++ e0 :: evs1)) as Fe by (apply Forall_app; split; [done|by constructor]).
  pose proof (adopt_recorded_loop recorded s3) as Hrec.
  destruct (mtry_loop (adopt_recorded world listed) recorded s3) as [[e|[]] s4]; cbn [fst snd] in *.
  { exists (evs2 ++ e0 :: evs1)%list. rewrite E4, Ee. split; [done|]. split; [by apply looks_spared|done]. }
  destruct (Hrec eq_refl) as [_ Hr4]. clear Hrec.
  rewrite then_set, try_eq. set (s5 := (set_adopted s4.1 (adopted s4.1) (sortedReplicas (adopted s4.1)), s4.2)).
  assert (d s5.1 = dep) as D5 by (unfold s5; cbn [fst d set_adopted]; rewrite D4; exact D2).
  destruct (remove_loop recorded containers (λ c H, H) s5 D5 Hr4) as (R1 & evs3 & E5 & F5).
  assert ((evs3 ++ s5.2)%list = (evs3 ++ evs2 ++ e0 :: evs1) ++ s.2)%list as Ee' by (unfold s5; cbn [snd]; rewrite E4, Ee; by rewrite !app_assoc).
  assert (records recorded ∈ (evs3 ++ evs2 ++ e0 :: evs1)%list) as Hin by (rewrite Ee0, !elem_of_app; right; right; by left).
  assert (Forall (spared (evs3 ++ evs2 ++ e0 :: evs1)) (evs3 ++ evs2 ++ e0 :: evs1)) as Fe' by (apply Forall_app; split; [by eapply removes_spared|by apply looks_spared]).
  destruct (mtry_loop (remove_unrecorded world) containers s5) as [[e|[]] s6]; cbn [fst snd] in *; subst.
  { eexists. rewrite E5, Ee'. by split. }
  rewrite then_set. cbn [fst snd ok mret]. eexists. rewrite E5, Ee'. split; [done|]. split; [done|]. intros _. rewrite R1. split; [split_and!|].
    + intros i rep Hr. unfold s5 in Hr. cbn [fst old set_adopted set_surveyed] in Hr. rewrite O4 in Hr.
      unfold s3 in Hr. cbn [fst old set_inService set_adopted] in Hr. rewrite O2 in Hr. by apply Hdrop.
    + exact A4.
    + intros m Hm. apply M2. unfold s5 in Hm. cbn [fst serving set_adopted set_surveyed] in Hm. rewrite S4 in Hm. exact Hm.
    + exists recorded. split; [done|exact Hr4].
Qed.
End Survey.

(** ** Taking over *)

Section Prepare.
Context (world : trace → ∀ c, answer_of c).

Definition keyed (m : gmap Z Replica) : Prop := ∀ i rep, m !! i = Some rep → r_Index rep = i.
Lemma keyed_fold l : ∀ m, keyed m → keyed (foldl (λ m rep, <[r_Index rep := rep]> m) m l).
Proof.
  induction l as [|x l IH]; intros m H; [done|]. apply IH. intros i rep [[<- <-]|[_ Hr]]%lookup_insert_Some; [done|by apply H].
Qed.

(** Nothing is started or stopped, and no version is decided on. *)
Definition reads (e : happened) : Prop :=
  match what e with
  | CGetApplication _ | CGetDeployment _ | CListReplicas _ | CListContainers _ | CMarkReplicaRemoved _ | CInspectNames _ | CRouteVia _ => True
  | _ => False
  end.
Definition loads (r r' : rollout) : Prop := d r' = d r ∧ (keyed (old r) → keyed (old r')).
#[local] Instance loads_preorder : PreOrder loads.
Proof. split; [by intros r|]. intros r1 r2 r3 [? ?] [? ?]. split; [congruence|auto]. Qed.

Lemma loadPrevious_calm : calm loads reads (loadPrevious world).
Proof.
  assert (∀ r p (l : list Replica) s, loads r (set_previous r p (foldl (λ m rep, <[r_Index rep := rep]> m) (old r) l) s)) as Hs.
  { intros r p l s. split; [done|]. intros H. by apply keyed_fold. }
  unfold loadPrevious. calm.
Qed.

(** The routes of what has just happened. *)
Lemma looks_reads e : looks e → reads e.
Proof. destruct e as [c a]. by destruct c. Qed.

Definition late (dep : Deployment) : bool :=
  negb (bool_decide (is_Some (a_Static (d_Spec dep))) || (progress (d_Status dep) <? progress StatusStarting)).
Definition listing (dep : Deployment) (containers : list Container) : happened :=
  @mk_happened call answer_of (CListContainers (d_Application dep)) (inr containers).

Lemma in_service_adopted r rep : rep ∈ adoptedInService r → ∃ i, adopted r !! i = Some rep.
Proof.
  unfold adoptedInService, by_index_sorted. rewrite (merge_sort_Permutation by_index), list_elem_of_omap.
  intros (i & _ & H). by exists i.
Qed.

(** A container that went was one the store, as it answered, had no replica for. *)
Definition spares (dep : Deployment) (tr : trace) (e : happened) : Prop :=
  match what e with
  | CRemove id => ∃ containers recorded, listing dep containers ∈ tr ∧ records dep recorded ∈ tr ∧ unrecorded dep containers recorded id
  | _ => reads e
  end.
Lemma reads_spares dep tr e : reads e → spares dep tr e.
Proof. destruct e as [c a]. by destruct c. Qed.

(** C26: a deployment that was cut off past STARTING is taken up against any
    world: nothing is started, stopped or retired by it, and the only containers
    removed are ones of this very deployment that the store, by the replicas it
    answered, has no record of, running or not; and when it is taken up, every
    replica of it the store has a record of and Docker listed is adopted, the
    replicas that are kept of either version, and the replicas behind the route
    that is taken over, all exist in Docker's listing, and what counts as in
    service is adopted. *)
Theorem prepare_takes_over dep dormant_ : late dep = true →
  let out := prepare world (resuming dep dormant_, []) in
  Forall (spares dep out.2.2) out.2.2 ∧
  (out.1 = inr tt → ∃ containers recorded, listing dep containers ∈ out.2.2 ∧ records dep recorded ∈ out.2.2 ∧
     adopts_recorded containers recorded out.2.1 ∧ all_listed containers out.2.1 ∧
     ∀ id, id ∈ routed out.2.2 → id ∈ c_ID <$> containers).
Proof.
  intros Hl out. subst out. unfold prepare. rewrite then_get. cbn [fst d resuming]. unfold late in Hl. apply negb_true_iff in Hl. rewrite Hl.
  rewrite try_eq. destruct (loadPrevious_calm (resuming dep dormant_, [])) as ((D1 & K1) & evs1 & E1 & F1).
  assert (keyed (old (resuming dep dormant_))) as K0 by (intros i rep H; cbn [old resuming] in H; by rewrite lookup_empty in H). specialize (K1 K0).
  destruct (loadPrevious world (resuming dep dormant_, [])) as [[e|[]] s1]; cbn [fst snd] in *; rewrite app_nil_r in E1.
  { split; [|done]. rewrite E1. eapply Forall_impl; [exact F1|]. intros e0. apply reads_spares. }
  rewrite try_eq. unfold survey. rewrite then_get, try_eq. change (d (resuming dep dormant_)) with dep in D1. rewrite D1.
  set (a := world s1.2 (CListContainers (d_Application dep))).
  change (Effects.perform world (CListContainers (d_Application dep)) s1)
    with (a, (s1.1, @mk_happened call answer_of (CListContainers (d_Application dep)) a :: s1.2)). cbn [fst snd].
  clearbody a. cbn [answer_of] in a. destruct a as [e|containers]; cbn [fst snd].
  { split; [|done]. rewrite E1. constructor; [done|]. eapply Forall_impl; [exact F1|]. intros e0. apply reads_spares. }
  fold (listing dep containers). set (s2 := (s1.1, listing dep containers :: s1.2)).
  destruct (survey_of_sound world dep containers s2 D1 K1) as (evs2 & E2 & F2 & Hall).
  destruct (survey_of world dep containers s2) as [r3 s3]. cbn [fst snd] in *.
  assert (s3.2 = evs2 ++ listing dep containers :: evs1)%list as E3 by (rewrite E2; unfold s2; cbn [snd]; by rewrite E1).
  assert (listing dep containers ∈ s3.2) as Hin by (rewrite E3; apply elem_of_app; right; by left).
  assert (∀ e, Forall (spares dep (e ++ s3.2)) s3.2) as Hsp.
  { intros e. rewrite E3. apply Forall_app. split; [|constructor; [done|eapply Forall_impl; [exact F1|]; intros e0; apply reads_spares]].
    eapply Forall_impl; [exact F2|]. intros e0 (recorded & He & Hr). destruct e0 as [c a]. destruct c; try done.
    exists containers, recorded. split_and!; [rewrite !elem_of_app; right; right; by left| |done]. rewrite !elem_of_app. right. left. apply Hr. by eexists. }
  destruct r3 as [e|[]]; [split; [apply (Hsp [])|done]|]. destruct (Hall eq_refl) as (Hl3 & recorded & Hr2 & Hadopt). rewrite then_get.
  destruct (rolling_back _ && _); [split; [apply (Hsp [])|done]|].
  set (own := (λ rep, mk_member rep (a_Port (d_Spec dep))) <$> adoptedInService s3.1).
  set (members := (serving s3.1 ++ own)%list).
  assert (∀ m, m ∈ members → member_id m ∈ c_ID <$> containers) as Hm.
  { destruct Hl3 as (_ & [Ha _] & Hs). intros m [Hm|Hm]%elem_of_app; [by apply Hs, elem_of_list_to_set in Hm|].
    apply list_elem_of_fmap in Hm as (rep & -> & Hr). apply in_service_adopted in Hr as [i Hr]. apply Ha in Hr as [_ Hr].
    by apply elem_of_list_to_set in Hr. }
  assert (∀ s, all_listed containers s.1 → adopted s.1 = adopted s3.1 → s.2 = s3.2 → ∀ o, o_members o = members →
    let out := (let! _ := Effects.perform world (CRouteVia o) in ok tt) s in
    Forall (spares dep out.2.2) out.2.2 ∧
    (out.1 = inr tt → ∃ containers recorded, listing dep containers ∈ out.2.2 ∧ records dep recorded ∈ out.2.2 ∧ adopts_recorded containers recorded out.2.1 ∧
       all_listed containers out.2.1 ∧ ∀ id, id ∈ routed out.2.2 → id ∈ c_ID <$> containers)) as Hend.
  { intros s A1 A2 A3 o Ho. cbn [fst snd]. rewrite then_perform. cbn [fst snd ok mret]. rewrite A3. split.
    - constructor; [done|]. apply (Hsp [_]).
    - intros _. exists containers, recorded. split_and!; [by right|right; rewrite E3; apply elem_of_app; by left| |done|].
      + unfold adopts_recorded in *. by rewrite A2.
      + cbn [routed]. rewrite Ho. intros id (m & -> & H)%list_elem_of_fmap. by apply Hm. }
  destruct (rolling_back (d_Status dep)); [rewrite then_set|]; apply Hend; try done.
  destruct Hl3 as (A1 & A2 & _). split_and!; [exact A1|exact A2|]. intros m Hm'. apply elem_of_list_to_set. by apply Hm.
Qed.

(** Preparing a rollout does not make it another deployment's. *)
Definition same_deployment (r r' : rollout) : Prop := d r' = d r.
#[local] Instance same_deployment_preorder : PreOrder same_deployment.
Proof. split; [by intros r|]. intros r1 r2 r3. unfold same_deployment. congruence. Qed.
Lemma prepare_keeps : calm same_deployment (λ _, True) (prepare world).
Proof.
  assert (∀ r p o s, same_deployment r (set_previous r p o s)) by done.
  assert (∀ r m, same_deployment r (set_old r m)) by done.
  assert (∀ r l, same_deployment r (set_serving r l)) by done.
  assert (∀ r b, same_deployment r (set_retired_if b r)) by (by intros r []).
  assert (∀ r a f i, same_deployment r (set_inService (set_adopted r a f) i)) by done.
  assert (∀ r a f, same_deployment r (set_adopted r a f)) by done.
  assert (∀ r, same_deployment r (set_surveyed r)) by done.
  assert (calm same_deployment (λ _, True) (loadPrevious world)) by (unfold loadPrevious; calm).
  assert (∀ l e, calm same_deployment (λ _, True) (mtry_loop (drop_gone world e) l)) by (intros; apply try_loop_calm; [exact _|]; intros; unfold drop_gone; calm).
  assert (∀ l e, calm same_deployment (λ _, True) (mtry_loop (adopt_recorded world e) l)) by (intros; apply try_loop_calm; [exact _|]; intros; unfold adopt_recorded; calm).
  assert (∀ l, calm same_deployment (λ _, True) (mtry_loop (remove_unrecorded world) l)) by (intros; apply try_loop_calm; [exact _|]; intros; unfold remove_unrecorded; calm).
  assert (calm same_deployment (λ _, True) (survey world)) by (unfold survey, survey_of; calm).
  unfold prepare. calm.
Qed.
End Prepare.

Module ResumeWitness.
Local Open Scope string_scope.
Definition dep : Deployment := RollingWitness.deployment 2 3 StatusHealthChecking.
Definition container (id : string) (deployment i : Z) : Container := mk_container id id "api" deployment i "" true false 0 "10.0.0.1" "running".
(** One old replica is gone; of the new ones one serves, and one was created
    and never recorded. *)
Definition containers : list Container := [container "o2" 1 2; container "n1" 2 1; container "n2" 2 2].
Definition world (t : trace) (c : call) : answer_of c :=
  match c with
  | CListContainers _ => inr containers
  | CListReplicas id => if (id =? 1)%Z then inr RollingWitness.two else inr [mk_replica 2 1 "n1" "api-1" 0]
  | CInspectNames _ => inr (true, ["api"; "api_8080"])
  | c => RollingWitness.world t c
  end.
End ResumeWitness.

Lemma prepare_takes_over_witness :
  let out := prepare ResumeWitness.world (resuming ResumeWitness.dep false, []) in
  out.1 = inr tt ∧ routed out.2.2 = ["o2"; "n1"]%string ∧ Forall (spares ResumeWitness.dep out.2.2) out.2.2.
Proof.
  split; [vm_compute; reflexivity|split; [vm_compute; reflexivity|]].
  apply (prepare_takes_over ResumeWitness.world ResumeWitness.dep false). vm_compute. reflexivity.
Defined.
