(* ===== verification/Recovery.v ===== *)
(** * Starting again (agent/internal/deploy: Recover of operations.go, resume.go,
    superseded of settle.go)

    What an agent that starts makes of what the one before it left: every
    deployment found in flight is taken up or marked FAILED, the containers that
    belong to nobody any more are retired, and the rest is told completed. The
    state is the application locks and the names containers carry; preparing a
    rollout (Rollout.v) is a call that answers the rollout or its error, with
    whether the error is Docker not answering. *)

From S2P Require Import Prelude GoStrings Effects GoTime SpecTypes DeployState Store Rollout.
From Stdlib Require Import String.
Local Open Scope string_scope.
Local Open Scope Z_scope.

Inductive vcall :=
  | VInFlight | VMarkRunsInterrupted | VLatest (app : string) | VTransition (id : Z) (from to : DeploymentStatus) (msg : text)
  | VDormant (id : Z) | VPrepare (r : rollout) | VClearRoute (app : string)
  | VListApplications | VListContainers | VNames (id : string) | VGetDeployment (id : Z)
  | VRetire (c : Container) (grace : Duration) | VCompleteExcept (ids : list Z) | VLaunch (r : rollout) | VRecoverTransfers.

(** How preparing a rollout went. *)
Inductive prepared := Prepared (r : rollout) | NotPrepared (err : text) | DockerSilent (err : text).

Definition vanswer (c : vcall) : Type :=
  match c with
  | VInFlight | VLatest _ => or_error (list Deployment)
  | VMarkRunsInterrupted => or_error Z
  | VDormant _ => or_error bool
  | VPrepare _ => prepared
  | VListApplications => or_error (list Application)
  | VListContainers => or_error (list Container)
  | VNames _ => or_error (list string)
  | VGetDeployment _ => or_error Deployment
  | VTransition _ _ _ _ | VCompleteExcept _ | VRecoverTransfers => error
  | VRetire _ _ => bool
  | _ => unit
  end.

Record agent := mk_agent { locked : gset string; names : gmap string (list string) }.
Definition set_locked f a := mk_agent (f (locked a)) (names a).
Definition set_names f a := mk_agent (locked a) (f (names a)).
Abbreviation VM := (Effects.M agent vanswer).

(** resumable reports whether a deployment found in flight can be taken up
    again; [None] is yes. *)
Definition resumable (dep : Deployment) (inFlight : Z) : option string :=
  if 1 <? inFlight then Some "several deployments of the application were in flight at once"
  else match d_CompletedAt dep with
       | Some _ => Some "its record says it had completed"
       | None => None
       end.

Section Recover.
Variable world : list (Effects.happened vanswer) → ∀ c, vanswer c.
Variable StopTimeout : Duration.
Local Abbreviation perform := (Effects.perform world).

(** superseded: the application has a deployment made after this one. *)
Definition superseded (dep : Deployment) : VM (or_error bool) :=
  try! latest := perform (VLatest (d_Application dep)) in
  ok (match latest with x :: _ => d_Sequence dep <? d_Sequence x | [] => false end).

Definition failInterrupted (dep : Deployment) (why : text) : VM (or_error unit) :=
  let msg := (L "agent restarted during deployment" :: if bool_decide (why = []) then [] else L ", and it could not be resumed: " :: why)%list in
  if negb (CanTransition (d_Status dep) StatusFailed) then fail [L "illegal state transition"] else
  checked (perform (VTransition (d_ID dep) (d_Status dep) StatusFailed msg)).

Definition lock_free (app : string) : VM (or_error unit) :=
  let! l := mget locked in
  if bool_decide (app ∈ l) then fail [L "resume deployment: another operation is in progress"]
  else let! _ := mset (set_locked (λ l, {[app]} ∪ l)) in ok tt.
Definition unlock (app : string) : VM unit := mset (set_locked (λ l, l ∖ {[app]})).

(** One deployment found in flight: the rollout that goes on, if it does. *)
Definition recover_one (inFlight : Z) (dep : Deployment) : VM (or_error (option rollout)) :=
  try! why := match resumable dep inFlight with
              | Some why => ok (Some why)
              | None => try! stale := superseded dep in
                        ok (if (stale : bool) then Some "its end was never recorded, and the application has been deployed again since" else None)
              end in
  match why with
  | Some why => try! _ := failInterrupted dep [L why] in ok None
  | None =>
      try! _ := lock_free (d_Application dep) in
      try! dormant := perform (VDormant (d_ID dep)) in
      let! p := perform (VPrepare (resuming dep dormant)) in
      match p with
      | Prepared r => ok (Some r)
      | DockerSilent err =>
          let! _ := perform (VClearRoute (d_Application dep)) in
          let! _ := unlock (d_Application dep) in
          fail (L "resume deployment " :: err)
      | NotPrepared err =>
          let! _ := perform (VClearRoute (d_Application dep)) in
          let! _ := unlock (d_Application dep) in
          try! _ := failInterrupted dep err in ok None
      end
  end.

Definition of_app (app : string) (l : list Deployment) : Z := Z.of_nat (List.length (filter (λ x, d_Application x = app) l)).
Fixpoint recover_each (interrupted l : list Deployment) : VM (or_error (list rollout)) :=
  match l with
  | [] => ok []
  | dep :: rest =>
      try! r := recover_one (of_app (d_Application dep) interrupted) dep in
      try! more := recover_each interrupted rest in
      ok (option_list r ++ more)%list
  end.

(** The deployment a known application runs; 0 when it runs none. *)
Definition active_of (apps : list Application) : gmap string Z :=
  foldl (λ m a, <[app_Name a := default 0 (app_ActiveDeploymentID a)]> m) ∅ apps.
(** A container that belongs to a known application and to nothing that is
    running or resuming. *)
Definition leftover (active : gmap string Z) (resuming : list Z) (c : Container) : bool :=
  match active !! c_App c with
  | None => false
  | Some id => negb (String.eqb (c_Job c) "") || (negb (c_DeploymentID c =? id) && negb (contains resuming (c_DeploymentID c)))
  end.
Fixpoint look_over (active : gmap string Z) (resuming : list Z) (l : list Container) : VM (list Container) :=
  match l with
  | [] => mret []
  | c :: rest =>
      if leftover active resuming c then let! more := look_over active resuming rest in mret (c :: more) else
      let! n := perform (VNames (c_ID c)) in
      let! _ := match n with
                | inr ((_ :: _) as l) => mset (set_names (insert (c_ID c) l))
                | _ => mret tt
                end in
      look_over active resuming rest
  end.
Definition recoverLeftovers (resuming : list Z) : VM (or_error (list Container)) :=
  try! apps := perform VListApplications in
  try! containers := perform VListContainers in
  let! l := look_over (active_of apps) resuming containers in ok l.

(** gracePeriodOf (drain.go), then retireInBackground. *)
Definition retire_leftover (c : Container) : VM unit :=
  let! dep := perform (VGetDeployment (c_DeploymentID c)) in
  let! _ := perform (VRetire c (match dep with inl _ => StopTimeout | inr dep => gracePeriod StopTimeout (d_Spec dep) end)) in
  mret tt.
Definition launch (r : rollout) : VM unit := perform (VLaunch r).

(** Everything before the first deployment goes on. *)
Definition before_launch : VM (or_error (list rollout)) :=
  try! interrupted := perform VInFlight in
  try! _ := perform VMarkRunsInterrupted in
  try! resumed := recover_each interrupted interrupted in
  try! leftovers := recoverLeftovers ((λ r, d_ID (d r)) <$> resumed) in
  let! _ := mloop retire_leftover leftovers in
  try! _ := checked (perform (VCompleteExcept ((λ r, d_ID (d r)) <$> resumed))) in
  ok resumed.
Definition Recover : VM (or_error unit) :=
  try! resumed := before_launch in
  let! _ := mloop launch resumed in
  checked (perform VRecoverTransfers).
End Recover.
