(* ===== verification/RecoveryInv.v ===== *)
(** * An agent that starts decides about everything it finds

    What Recover of Recovery.v leaves, against any world. *)

From S2P Require Import Prelude GoStrings Effects GoTime SpecTypes DeployState Store Rollout Recovery.
From Stdlib Require Import String.
Local Open Scope Z_scope.

Abbreviation vhappened := (Effects.happened vanswer).

Definition launched_by (e : vhappened) : option rollout := match what e with VLaunch r => Some r | _ => None end.
Definition launched (tr : list vhappened) : list rollout := omap launched_by tr.
(** The database has taken it that the deployment failed. *)
Definition failed (dep : Deployment) (e : vhappened) : Prop :=
  ∃ msg, e = @mk_happened vcall vanswer (VTransition (d_ID dep) (d_Status dep) StatusFailed msg) None.
(** Neither a deployment is launched nor a container retired. *)
Definition quiet (e : vhappened) : Prop := match what e with VLaunch _ | VRetire _ _ => False | _ => True end.

(** The active deployment of a known application. *)
Lemma active_of_Some apps name id : active_of apps !! name = Some id →
  ∃ a, a ∈ apps ∧ app_Name a = name ∧ id = default 0 (app_ActiveDeploymentID a).
Proof.
  unfold active_of. assert (∀ (m : gmap string Z), foldl (λ m a, <[app_Name a := default 0 (app_ActiveDeploymentID a)]> m) m apps !! name = Some id →
    (∃ a, a ∈ apps ∧ app_Name a = name ∧ id = default 0 (app_ActiveDeploymentID a)) ∨ m !! name = Some id) as H.
  { induction apps as [|a apps IH]; intros m H; [by right|]. destruct (IH _ H) as [(x & ? & ?)|H']; [left; exists x; split; [by right|done]|].
    apply lookup_insert_Some in H' as [[<- <-]|[_ H']]; [left; exists a; split; [by left|done]|by right]. }
  intros Hs. by apply H in Hs as [?|Hs]; [|rewrite lookup_empty in Hs].
Qed.
Lemma leftover_spec apps ids c : leftover (active_of apps) ids c = true →
  ∃ a, a ∈ apps ∧ app_Name a = c_App c ∧
    (c_Job c ≠ ""%string ∨ app_ActiveDeploymentID a ≠ Some (c_DeploymentID c) ∧ (c_DeploymentID c ∉ ids)).
Proof.
  unfold leftover. destruct (active_of apps !! c_App c) as [id|] eqn:E; [|done].
  apply active_of_Some in E as (a & Ha & Hn & ->). intros H. exists a. split_and!; [done|done|].
  apply orb_true_iff in H as [H|H]; bools; [left; by apply String.eqb_neq|right]. split.
  - intros Hs. rewrite Hs in *. simpl in *. by rewrite Z.eqb_refl in *.
  - by apply bool_decide_eq_false in H0.
Qed.

Section Recover.
Context (world : list vhappened → ∀ c, vanswer c) (StopTimeout : Duration).
(** Preparing a rollout does not make it another deployment's (ResumeInv.v, prepare_keeps). *)
Hypothesis keeps : ∀ tr r r', world tr (VPrepare r) = Prepared r' → d r' = d r.

(** What a program adds: quiet events. *)
Definition adds {A} (m : VM A) : Prop := ∀ s, ∃ evs, (m s).2.2 = (evs ++ s.2)%list ∧ Forall quiet evs.
Definition same_locks (a a' : agent) : Prop := locked a' = locked a.
#[local] Instance same_locks_preorder : PreOrder same_locks.
Proof. split; [by intros a|]. intros a b c. unfold same_locks. congruence. Qed.
Local Abbreviation calm m := (calm same_locks quiet m).

Lemma superseded_calm dep : calm (superseded world dep).
Proof. unfold superseded. calm. Qed.
Lemma failInterrupted_spec dep why s : calm (failInterrupted world dep why) ∧
  ((failInterrupted world dep why s).1 = inr tt → ∃ e tr, (failInterrupted world dep why s).2.2 = e :: tr ∧ failed dep e).
Proof.
  unfold failInterrupted. split; [calm|]. destruct (negb _); [done|]. unfold checked. set (c := VTransition _ _ _ _).
  rewrite (then_perform world c). destruct (world s.2 c) as [err|] eqn:E; [done|]. intros _. eexists _, _. split; [reflexivity|]. by eexists.
Qed.

(** What has become of one deployment. *)
Definition decided (dep : Deployment) (o : option rollout) (s s' : Effects.St agent vanswer) : Prop :=
  match o with
  | Some r => d r = dep ∧ d_CompletedAt dep = None ∧ (d_Application dep ∉ locked s.1) ∧ locked s'.1 = {[d_Application dep]} ∪ locked s.1
  | None => locked s'.1 = locked s.1 ∧ Exists (failed dep) s'.2
  end.
Definition onward (s s' : Effects.St agent vanswer) : Prop := ∃ evs, s'.2 = (evs ++ s.2)%list ∧ Forall quiet evs.
#[local] Instance onward_preorder : PreOrder onward.
Proof.
  split; [intros s; by exists []|]. intros s1 s2 s3 (evs & E & F) (evs' & E' & F'). exists (evs' ++ evs)%list.
  rewrite E', E, <- app_assoc. split; [done|]. by apply Forall_app.
Qed.
Lemma calm_onward {A} (m : VM A) s a s' : calm m → m s = (a, s') → locked s'.1 = locked s.1 ∧ onward s s'.
Proof. intros Hm E. specialize (Hm s). rewrite E in Hm. exact Hm. Qed.
Lemma step_onward c (s : Effects.St agent vanswer) a s' : Effects.perform world c s = (a, s') → quiet (@mk_happened vcall vanswer c (world s.2 c)) →
  s'.1 = s.1 ∧ onward s s'.
Proof. intros [_ ->]%perform_step Hq. split; [done|]. exists [@mk_happened vcall vanswer c (world s.2 c)]. split; [done|]. by constructor. Qed.

Lemma failed_step dep why s s' : failInterrupted world dep why s = (inr tt, s') →
  locked s'.1 = locked s.1 ∧ onward s s' ∧ Exists (failed dep) s'.2.
Proof.
  intros E. destruct (failInterrupted_spec dep why s) as [Hc Hf]. rewrite E in Hf. destruct (Hf eq_refl) as (e & tr & Et & He).
  destruct (calm_onward _ _ _ _ Hc E) as [??]. split_and!; [done|done|]. cbn [snd] in Et. rewrite Et. apply Exists_cons. by left.
Qed.

Lemma recover_one_spec n dep s o s' : recover_one world n dep s = (inr o, s') → onward s s' ∧ decided dep o s s'.
Proof.
  unfold recover_one. set (why := match resumable dep n with Some _ => _ | None => _ end).
  assert (calm why) as Hw by (unfold why; pose proof (superseded_calm dep); destruct (resumable dep n); calm).
  assert ((why s).1 = inr None → d_CompletedAt dep = None) as Hc.
  { unfold why, resumable. destruct (1 <? n); [done|]. by destruct (d_CompletedAt dep). }
  intros (w & s1 & E1 & H)%try_step. rewrite E1 in Hc. destruct (calm_onward _ _ _ _ Hw E1) as [L1 O1].
  destruct w as [w|].
  { apply try_step in H as ([] & s2 & E2 & [= <- <-]). apply failed_step in E2 as (L2 & O2 & F2).
    split; [by etrans|]. split; [congruence|done]. }
  specialize (Hc eq_refl). apply try_step in H as ([] & s2 & E2 & H). unfold lock_free in E2. rewrite then_get in E2.
  case_bool_decide as Hl; [done|]. injection E2 as <-. rewrite L1 in Hl.
  apply try_step in H as (dormant_ & s3 & E3 & H). destruct (step_onward (VDormant (d_ID dep)) _ _ _ E3 I) as [S3 O3].
  apply then_step in H as (p & s4 & E4 & H). destruct (perform_step world (VPrepare (resuming dep dormant_)) _ _ _ E4) as [Hp _].
  destruct (step_onward (VPrepare (resuming dep dormant_)) _ _ _ E4 I) as [S4 O4].
  assert (locked s4.1 = {[d_Application dep]} ∪ locked s.1) as L4 by (rewrite S4, S3; cbn [locked set_locked fst]; by rewrite L1).
  assert (onward s s4) as O by (do 3 (etrans; [eassumption|]); done).
  destruct p as [r|err|err].
  - injection H as <- <-. split; [done|]. split_and!; [|done..]. symmetry in Hp. apply keeps in Hp. by rewrite Hp.
  - apply then_step in H as (u & s5 & E5 & H). destruct (step_onward (VClearRoute (d_Application dep)) _ _ _ E5 I) as [S5 O5].
    apply then_step in H as (v & s6 & [= _ <-] & H). apply try_step in H as ([] & s7 & E7 & [= <- <-]).
    apply failed_step in E7 as (L7 & O7 & F7). split; [do 2 (etrans; [eassumption|]); done|]. split; [|done].
    rewrite L7. cbn [locked set_locked fst]. rewrite S5, L4. set_solver.
  - by repeat (apply then_step in H as (? & ? & _ & H)).
Qed.

(** All of them: who goes on, and that the others failed. *)
Record settled (l : list Deployment) (rs : list rollout) (s s' : Effects.St agent vanswer) : Prop := {
  st_onward : onward s s';
  st_going r : r ∈ rs → d r ∈ l ∧ d_CompletedAt (d r) = None ∧ d_Application (d r) ∈ locked s'.1 ∧ (d_Application (d r) ∉ locked s.1);
  st_apart : NoDup ((λ r, d_Application (d r)) <$> rs);
  st_kept : locked s.1 ⊆ locked s'.1;
  st_all dep : dep ∈ l → (∃ r, r ∈ rs ∧ d r = dep) ∨ Exists (failed dep) s'.2 }.

Lemma exists_onward s s' P : onward s s' → Exists P s.2 → Exists P s'.2.
Proof. intros (evs & -> & _) H. apply Exists_app. by right. Qed.

Lemma recover_each_spec all l : ∀ s rs s', recover_each world all l s = (inr rs, s') → settled l rs s s'.
Proof.
  induction l as [|dep l IH]; intros s rs s' H; cbn [recover_each] in H.
  { injection H as <- <-. split; [done|by intros r ?%elem_of_nil|constructor|done|by intros r ?%elem_of_nil]. }
  apply try_step in H as (o & s1 & E1 & H). apply recover_one_spec in E1 as [O1 D1].
  apply try_step in H as (more & s2 & E2 & [= <- <-]). destruct (IH _ _ _ E2) as [O2 G2 A2 K2 L2].
  destruct o as [r|]; cbn [decided] in D1.
  - change (option_list (Some r) ++ more)%list with (r :: more). destruct D1 as (Hd & Hc & Hn & Hl). split.
    + by etrans.
    + intros r' [->|Hr]%elem_of_cons.
      * rewrite Hd. split_and!; [by left|done|apply K2; rewrite Hl; set_solver|done].
      * destruct (G2 r' Hr) as (H1 & H2 & H3 & H4). split_and!; [by right|done..|]. rewrite Hl in H4. set_solver.
    + rewrite fmap_cons, NoDup_cons. split; [|done]. intros (r' & Hr' & Hr)%list_elem_of_fmap.
      destruct (G2 r' Hr) as (_ & _ & _ & H4). apply H4. rewrite <- Hr', Hd, Hl. set_solver.
    + rewrite Hl in K2. set_solver.
    + intros dep' [->|Hi]%elem_of_cons; [left; exists r; split; [by left|done]|].
      destruct (L2 dep' Hi) as [(r' & ? & ?)|?]; [left; exists r'; split; [by right|done]|by right].
  - change (option_list None ++ more)%list with more. destruct D1 as [Hl Hf]. split.
    + by etrans.
    + intros r' Hr. destruct (G2 r' Hr) as (H1 & H2 & H3 & H4). rewrite Hl in H4. split_and!; [by right|done..].
    + done.
    + by rewrite <- Hl.
    + intros dep' [->|Hi]%elem_of_cons; [right; by eapply exists_onward|by apply L2].
Qed.

Lemma look_over_calm active ids l : calm (look_over world active ids l).
Proof.
  assert (∀ a f, same_locks a (set_names f a)) by done.
  induction l as [|c l IH]; cbn [look_over]; [calm|]. destruct (leftover active ids c); calm.
Qed.
Lemma look_over_result active ids l : ∀ s, (look_over world active ids l s).1 = filter (λ c, leftover active ids c = true) l.
Proof.
  induction l as [|c l IH]; intros s; cbn [look_over]; [done|]. rewrite filter_cons. destruct (leftover active ids c) eqn:E.
  - rewrite decide_True by done. rewrite then_eq. cbn [fst mret]. by rewrite IH.
  - rewrite decide_False by congruence. rewrite (then_perform world (VNames (c_ID c))), then_eq. apply IH.
Qed.

(** ** What is retired, what is launched *)

Definition anything (a a' : agent) : Prop := True.
#[local] Instance anything_preorder : PreOrder anything.
Proof. by split. Qed.
Definition no_launch (e : vhappened) : Prop := match what e with VLaunch _ => False | _ => True end.
Lemma before_launch_calm : Effects.calm anything no_launch (before_launch world StopTimeout).
Proof.
  assert (∀ a f, anything a (set_locked f a)) by done. assert (∀ a f, anything a (set_names f a)) by done.
  assert (∀ dep why, Effects.calm anything no_launch (failInterrupted world dep why)) by (intros; unfold failInterrupted; calm).
  assert (∀ n dep, Effects.calm anything no_launch (recover_one world n dep)) by (intros; unfold recover_one, superseded, lock_free, unlock; calm).
  assert (∀ all l, Effects.calm anything no_launch (recover_each world all l)) by (intros all l; induction l; cbn [recover_each]; calm).
  assert (∀ active ids l, Effects.calm anything no_launch (look_over world active ids l)).
  { intros active ids l. induction l as [|c l IH]; cbn [look_over]; [calm|]. destruct (leftover active ids c); calm. }
  assert (∀ ids, Effects.calm anything no_launch (recoverLeftovers world ids)) by (intros; unfold recoverLeftovers; calm).
  assert (∀ c, Effects.calm anything no_launch (retire_leftover world StopTimeout c)) by (intros; unfold retire_leftover; calm).
  unfold before_launch. calm.
Qed.
Lemma launched_none evs tr : Forall no_launch evs → launched (evs ++ tr) = launched tr.
Proof.
  intros H. unfold launched. rewrite omap_app. assert (omap launched_by evs = []) as ->; [|done].
  induction H as [|[c a] evs He _ IH]; [done|]. by destruct c.
Qed.

Definition retires (l : list Container) (e : vhappened) : Prop :=
  match what e with VRetire c _ => c ∈ l | VLaunch _ => False | _ => True end.
Lemma leftovers_loop l0 l : (∀ c, c ∈ l → c ∈ l0) → Effects.calm same_locks (retires l0) (mloop (retire_leftover world StopTimeout) l).
Proof.
  induction l as [|c l IH]; intros H; cbn [mloop]; [calm|].
  assert (Effects.calm same_locks (retires l0) (mloop (retire_leftover world StopTimeout) l)) by (apply IH; intros c' Hc'; apply H; by right).
  assert (∀ g, Effects.calm same_locks (retires l0) (Effects.perform world (VRetire c g))).
  { intros g. apply (calm_perform world same_locks (retires l0) (VRetire c g)). intros a. apply H. by left. }
  unfold retire_leftover. calm.
Qed.
Lemma launch_loop rs : ∀ s, mloop (launch world) rs s = (tt, (s.1, reverse ((λ r, @mk_happened vcall vanswer (VLaunch r) tt) <$> rs) ++ s.2)%list).
Proof.
  induction rs as [|r rs IH]; intros s; cbn [mloop]; [by destruct s|]. unfold launch at 1. rewrite (then_perform world (VLaunch r)), IH. cbn [fst snd].
  rewrite fmap_cons, reverse_cons, <- app_assoc. by destruct (world s.2 (VLaunch r)).
Qed.
Lemma launched_loop rs tr : launched (reverse ((λ r, @mk_happened vcall vanswer (VLaunch r) tt) <$> rs) ++ tr) = (reverse rs ++ launched tr)%list.
Proof.
  revert tr. induction rs as [|r rs IH]; intros tr; [done|]. rewrite fmap_cons, !reverse_cons, <- !app_assoc, IH. done.
Qed.

Definition found (l : list Deployment) : vhappened := @mk_happened vcall vanswer VInFlight (inr l).
Definition known (l : list Application) : vhappened := @mk_happened vcall vanswer VListApplications (inr l).
End Recover.

(** C8: an agent that starts on anything the one before it left, whatever the
    database and Docker answer: when Recover succeeds, every deployment that was
    found in flight has been launched again or recorded FAILED; what is launched
    was found, has not completed, holds its application's lock, and is one per
    application; and a container is retired only if it belongs to an application
    the database knows and is a job's, or is neither of its active deployment nor
    of one that was launched. When Recover fails, nothing is launched. *)
Theorem recover_decides (world : list vhappened → ∀ c, vanswer c) StopTimeout :
  (∀ tr r r', world tr (VPrepare r) = Prepared r' → d r' = d r) →
  let out := Recover world StopTimeout (mk_agent ∅ ∅, []) in
  let tr := out.2.2 in
  (∀ e, out.1 = inl e → launched tr = [] ∨ ∃ a, head tr = Some (@mk_happened vcall vanswer VRecoverTransfers a)) ∧
  (out.1 = inr tt → ∃ interrupted apps, found interrupted ∈ tr ∧ known apps ∈ tr ∧
     (∀ dep, dep ∈ interrupted → (∃ r, r ∈ launched tr ∧ d r = dep) ∨ Exists (failed dep) tr) ∧
     (∀ r, r ∈ launched tr → d r ∈ interrupted ∧ d_CompletedAt (d r) = None ∧ d_Application (d r) ∈ locked out.2.1) ∧
     NoDup ((λ r, d_Application (d r)) <$> launched tr) ∧
     ∀ c grace a, @mk_happened vcall vanswer (VRetire c grace) a ∈ tr →
       ∃ app, app ∈ apps ∧ app_Name app = c_App c ∧
         (c_Job c ≠ ""%string ∨
          app_ActiveDeploymentID app ≠ Some (c_DeploymentID c) ∧ ∀ r, r ∈ launched tr → d_ID (d r) ≠ c_DeploymentID c)).
Proof.
  intros Hk out tr. subst out tr. unfold Recover. rewrite try_eq. set (s0 := (mk_agent ∅ ∅, [])).
  destruct (before_launch_calm world StopTimeout s0) as (_ & evs & E & F).
  destruct (before_launch world StopTimeout s0) as [[e|rs] s1] eqn:Eb; cbn [fst snd] in *.
  { split; [|done]. intros _ _. left. rewrite E, launched_none by done. done. }
  rewrite then_eq, launch_loop. cbn [fst snd]. unfold checked. rewrite (then_perform world VRecoverTransfers). cbn [fst snd mret].
  set (a := world _ VRecoverTransfers). set (ev := @mk_happened vcall vanswer VRecoverTransfers a).
  split; [intros e _; right; by exists a|]. intros _. clear F E evs.
  unfold before_launch in Eb.
  apply try_step in Eb as (interrupted & s2 & E2 & Eb). destruct (perform_step world VInFlight _ _ _ E2) as [A2 S2]. clear E2.
  apply try_step in Eb as (n & s3 & E3 & Eb). destruct (perform_step world VMarkRunsInterrupted _ _ _ E3) as [_ S3]. clear E3.
  apply try_step in Eb as (rs' & s4 & E4 & Eb). apply (recover_each_spec world Hk) in E4 as [(evs4 & E4 & F4) G4 D4 K4 L4].
  apply try_step in Eb as (left & s5 & E5 & Eb). unfold recoverLeftovers in E5.
  apply try_step in E5 as (apps & s6 & E6 & E5). destruct (perform_step world VListApplications _ _ _ E6) as [A6 S6]. clear E6.
  apply try_step in E5 as (containers & s7 & E7 & E5). destruct (perform_step world VListContainers _ _ _ E7) as [_ S7]. clear E7.
  apply then_step in E5 as (left' & s8 & E8 & [= -> <-]).
  set (ids := (λ r, d_ID (d r)) <$> rs') in *.
  pose proof (look_over_result world (active_of apps) ids containers s7) as R8. rewrite E8 in R8. cbn [fst] in R8.
  destruct (look_over_calm world (active_of apps) ids containers s7) as (L8 & evs8 & E8' & F8). rewrite E8 in L8, E8'. cbn [fst snd] in L8, E8'. clear E8.
  apply then_step in Eb as (u & s9 & E9 & Eb).
  destruct (leftovers_loop world StopTimeout left left (λ c H, H) s8) as (L9 & evs9 & E9' & F9). rewrite E9 in L9, E9'. cbn [fst snd] in L9, E9'. clear E9 u.
  apply try_step in Eb as ([] & s10 & E10 & [= <- <-]). unfold checked in E10.
  rewrite (then_perform world (VCompleteExcept ids)) in E10. injection E10 as _ <-.
  set (e10 := @mk_happened vcall vanswer (VCompleteExcept ids) _). cbn [fst snd].
  set (launches := reverse _). set (before := s9.2) in *.
  assert (launched before = []) as N9.
  { rewrite E9'. rewrite launched_none; [|eapply Forall_impl; [exact F9|]; intros [c x]; by destruct c].
    rewrite E8', launched_none; [|eapply Forall_impl; [exact F8|]; intros [c x]; by destruct c].
    rewrite S7, S6, E4. cbn [snd]. change (launched (evs4 ++ s3.2) = []).
    rewrite launched_none; [|eapply Forall_impl; [exact F4|]; intros [c x]; by destruct c]. by rewrite S3, S2. }
  assert (launched (ev :: launches ++ e10 :: before) = reverse rs') as Hl.
  { change (launched (ev :: launches ++ e10 :: before)) with (launched (launches ++ e10 :: before)). unfold launches. rewrite launched_loop.
    change (launched (e10 :: before)) with (launched before). by rewrite N9, app_nil_r. }
  rewrite Hl. assert (reverse rs' ≡ₚ rs') as Hp by apply reverse_Permutation.
  assert (∀ e, e ∈ s4.2 → e ∈ ev :: launches ++ e10 :: before) as In4.
  { intros e He. right. apply elem_of_app. right. right. rewrite E9', E8', S7, S6. rewrite !elem_of_app. right. right. right. by right. }
  assert (locked s9.1 = locked s4.1) as Lk by (rewrite L9, L8, S7; cbn [fst]; by rewrite S6).
  exists interrupted, apps. split_and!.
  - apply In4. rewrite E4, S3, S2. cbn [snd]. apply elem_of_app. right. right. rewrite <- A2. by left.
  - right. apply elem_of_app. right. right. rewrite E9', E8', S7, S6. rewrite !elem_of_app. right. right. right.
    unfold known. rewrite A6. by left.
  - intros dep Hd. destruct (L4 dep Hd) as [(r & Hr & <-)|Hf].
    + left. exists r. split; [by rewrite Hp|done].
    + right. apply Exists_exists in Hf as (e & He & Hf). apply Exists_exists. exists e. split; [by apply In4|done].
  - intros r Hr. rewrite Hp in Hr. destruct (G4 r Hr) as (H1 & H2 & H3 & _). split_and!; [done|done|]. by rewrite Lk.
  - by rewrite Hp.
  - intros c grace x Hx.
    assert (mk_happened (answer := vanswer) (VRetire c grace) x ∈ evs9) as Hin.
    { assert (Forall (λ e, match what e with VRetire _ _ => False | _ => True end) (ev :: launches ++ [e10]) ∧
              Forall (λ e, match what e with VRetire _ _ => False | _ => True end) (evs8 ++ s7.2)) as [N1 N2].
      { assert (∀ l, Forall quiet l → Forall (λ e, match what e with VRetire _ _ => False | _ => True end) l) as Hq.
        { intros l Hq. eapply Forall_impl; [exact Hq|]. intros [q y]. by destruct q. }
        split.
        - constructor; [done|]. apply Forall_app. split; [|by constructor]. unfold launches. apply Forall_reverse, Forall_fmap, Forall_true. done.
        - apply Forall_app. split; [by apply Hq|]. rewrite S7, S6, E4, S3, S2. repeat (constructor; [done|]). apply Forall_app.
          split; [by apply Hq|]. by repeat constructor. }
      rewrite Forall_forall in N1, N2.
      assert (ev :: launches ++ e10 :: before = (ev :: launches ++ [e10]) ++ evs9 ++ evs8 ++ s7.2)%list as Et.
      { rewrite E9', E8'. cbn [app]. f_equal. by rewrite <- (app_assoc launches). }
      rewrite Et in Hx. apply elem_of_app in Hx as [Hx|[Hx|Hx]%elem_of_app]; [by apply N1 in Hx|done|by apply N2 in Hx]. }
    rewrite Forall_forall in F9. apply F9 in Hin. unfold retires in Hin. cbn [what] in Hin. rewrite R8 in Hin.
    apply list_elem_of_filter in Hin as [Hin _]. apply leftover_spec in Hin as (app & Ha & Hn & Hj). exists app. split_and!; [done|done|].
    destruct Hj as [?|[? Hi]]; [by left|right]. split; [done|]. intros r Hr E. apply Hi. rewrite Hp in Hr. rewrite <- E. apply list_elem_of_fmap. by exists r.
Qed.

Module RecoveryWitness.
Local Open Scope string_scope.
Definition base : App := mk_app "api" "shop/api:v1" 8080 "api.example.com" [] [] 1 ∅ None (mk_resources (GoFloat.mk_float 0 0) 0) [] [] [] []
  "" None [] None None None "" None None "always" "rolling" 0 false None.
Definition deployment (id : Z) (app : string) : Deployment :=
  mk_deployment id 1 app id "v" "shop/api:v1" base StatusStarting "" 0 None KindDeploy None "" "" 0 0 SpecReferences.no_references.
Definition container (id app : string) (dep : Z) : Container := mk_container id id app dep 1 "" true false 0 "" "running".
(** Two applications with a deployment in flight: one is taken up, the other
    has been deployed again since. *)
Definition world (tr : list vhappened) (c : vcall) : vanswer c :=
  match c with
  | VInFlight => inr [deployment 5 "api"; deployment 6 "web"]
  | VMarkRunsInterrupted => inr 0%Z
  | VLatest app => inr [deployment (if String.eqb app "web" then 7 else 5) app]
  | VDormant _ => inr false
  | VPrepare r => Prepared r
  | VListApplications => inr [mk_application 1 "api" DesiredRunning (Some 4%Z) 0 0; mk_application 2 "web" DesiredRunning (Some 7%Z) 0 0]
  | VListContainers => inr [container "a" "api" 4; container "b" "api" 5; container "c" "web" 6; container "x" "lost" 1]
  | VNames _ => inr []
  | VGetDeployment id => inr (deployment id "web")
  | VTransition _ _ _ _ | VCompleteExcept _ | VRecoverTransfers => None
  | VRetire _ _ => true
  | VClearRoute _ | VLaunch _ => tt
  end.
End RecoveryWitness.

Lemma recover_decides_witness :
  let out := Recover RecoveryWitness.world 10 (mk_agent ∅ ∅, []) in
  out.1 = inr tt ∧ (λ r, d_ID (d r)) <$> launched out.2.2 = [5] ∧ NoDup ((λ r, d_Application (d r)) <$> launched out.2.2).
Proof.
  assert (∀ tr r r', RecoveryWitness.world tr (VPrepare r) = Prepared r' → d r' = d r) as Hk by (intros tr r r' [= <-]; reflexivity).
  destruct (recover_decides RecoveryWitness.world 10 Hk) as [_ H]. intros out.
  assert (out.1 = inr tt) as E by (vm_compute; reflexivity).
  destruct (H E) as (l & apps & _ & _ & _ & _ & Hn & _).
  split; [exact E|]. split; [vm_compute; reflexivity|exact Hn].
Defined.
