(* ===== verification/Static.v ===== *)
(** * Static and stopped rollouts (agent/internal/deploy: static.go, standby.go)

    The two other kinds of rollout: a folder that the proxy serves itself, and
    a deployment that is to exist without running. Both are programs of the
    state and the calls of Rollout.v, and take the places its [execute] has for
    them. *)

From S2P Require Import Prelude GoStrings Effects GoTime GoURL SpecTypes SpecNames SpecReferences DeployState Store Rollout.
From Stdlib Require Import Ascii String.
Local Open Scope string_scope.
Local Open Scope Z_scope.

(** path.Join of the root and what is below it. *)
Definition under_root (elements : list string) : string := GoURL.Clean (join "/" (staticRoot :: elements)).
Definition digest_dir (digest : string) : string := trim_prefix "sha256:" digest.

Definition hex_byte (c : ascii) : bool := match unhex c with Some _ => true | None => false end.
Definition isHexDigest (s : string) : bool := (slen s =? 64) && str_forall hex_byte s.

(** strings.CutSuffix *)
Definition CutSuffix (s suffix : string) : string * bool :=
  match cut_suffix suffix s with Some before => (before, true) | None => (s, false) end.
Definition newline : ascii := "010"%char.

Definition ErrNoUpload : text := [L "no files were uploaded for this deployment: run shipwick deploy from the project"].

Section World.
Variable world : trace → ∀ c, answer_of c.
Variable StopTimeout : Z.
Local Abbreviation perform := (perform world).

(** ** Commands in the proxy's container *)

Definition proxyExec (proxyID : string) (cmd : list string) : M (or_error unit) :=
  let! r := perform (CExec proxyID cmd) in
  match r with
  | inl err => fail (L "in the proxy: " :: err)
  | inr (code, out) => if code =? 0 then ok tt else fail [L "in the proxy exited with code "; D code; L ": "; S' (trim_space out)]
  end.

Definition proxyDirExists (proxyID dir : string) : M (or_error bool) :=
  let! r := perform (CExec proxyID ["test"; "-d"; dir]) in
  match r with
  | inl err => fail (L "test in the proxy: " :: err)
  | inr (code, _) => ok (code =? 0)
  end.

Definition look_for (proxyID path : string) (missing : text) : M (or_error unit) :=
  let! r := perform (CExec proxyID ["test"; "-f"; path]) in
  match r with
  | inl err => fail (L "could not look for " :: S' path :: L " in the proxy: " :: err)
  | inr (code, _) => if code =? 0 then ok tt else fail missing
  end.

(** ** Folders of older versions *)

(** The most recent predecessor that served a folder of its own, unless it is
    further back than the deployment before a version that runs containers. *)
Fixpoint kept_folder (digest : string) (superseded : list Deployment) : option string :=
  match superseded with
  | [] => None
  | s :: rest =>
      if negb (String.eqb (d_StaticDigest s) "") && negb (String.eqb (d_StaticDigest s) digest) then Some (digest_dir (d_StaticDigest s))
      else if String.eqb digest "" then None else kept_folder digest rest
  end.
Definition kept_folders (digest : string) (superseded : list Deployment) : list string :=
  ((if String.eqb digest "" then [] else [digest_dir digest]) ++ option_list (kept_folder digest superseded))%list.

(** One line of what ls printed: the folder to remove, if it is to go. *)
Definition leftover_folder (keep : list string) (line : string) : option string :=
  let name := trim_space line in
  let '(digest, half) := CutSuffix name ".part" in
  if negb (isHexDigest digest) || (contains keep digest && negb half) then None else Some name.

Definition retireStaticDirs (dep : Deployment) (proxyID : string) : M unit :=
  let app := d_Application dep in
  let! superseded := perform (CListSuperseded app) in
  match superseded with
  | inl err => narrate world (L "Could not list older versions: " :: err)
  | inr superseded =>
      let keep := kept_folders (d_StaticDigest dep) superseded in
      let! ls := perform (CExec proxyID ["ls"; "-1"; under_root [app]]) in
      match ls with
      | inl err => narrate world (L "Could not list the folders of older versions: " :: err)
      | inr (code, out) =>
          if negb (code =? 0) then narrate world [L "Could not list the folders of older versions: "; S' (trim_space out)] else
          let! _ := mloop (λ name,
            let! e := proxyExec proxyID ["rm"; "-rf"; under_root [app; name]] in
            match e with inl err => narrate world (L "Could not remove the folder of an older version: " :: err) | inr _ => mret tt end)
            (omap (leftover_folder keep) (split newline out)) in
          if bool_decide (keep = []) then let! _ := proxyExec proxyID ["rm"; "-rf"; under_root [app]] in mret tt else mret tt
      end
  end.

(** ** A folder *)

(** What is being replaced, for the messages. *)
Definition name_previous : M unit :=
  let! dep := mget d in
  let! app := perform (CGetApplication (d_Application dep)) in
  match app with
  | inr a => match app_ActiveDeploymentID a with
             | Some id => let! p := perform (CGetDeployment id) in
                          match p with inr p => mset (λ r, set_prev r (Some p)) | inl _ => mret tt end
             | None => mret tt
             end
  | inl _ => mret tt
  end.

(** Extracted next to its final name. *)
Definition extract (proxyID dir : string) : M (or_error unit) :=
  let part := dir ++ ".part" in
  try! _ := proxyExec proxyID ["rm"; "-rf"; part] in
  try! _ := proxyExec proxyID ["mkdir"; "-p"; part] in
  let! _ := mset (λ r, set_staticPart r part) in
  let! opened := perform COpenUpload in
  if negb (opened : bool) then fail ErrNoUpload else
  let! e := perform (CImportPath proxyID part) in
  match e with
  | Some err => fail (L "could not copy the files into the proxy: " :: err)
  | None => let! _ := narrate world [L "Copied files into the proxy"] in ok tt
  end.

Definition fallback_of (a : App) : string := match a_Static a with Some s => s_Fallback s | None => "" end.
Definition another_page (page : string) : bool := negb (String.eqb page "") && negb (String.eqb page "index.html").

(** index.html, and the fallback page. *)
Definition find_pages (proxyID check fallback : string) : M (or_error unit) :=
  try! _ := look_for proxyID (check ++ "/index.html") [L "the folder has no index.html: build the site first, then deploy the folder the build produced"] in
  if another_page fallback
  then look_for proxyID (check ++ "/" ++ fallback) [L "the folder has no "; S' fallback; L ", which static.fallback names: name a file the build produces"]
  else ok tt.

(** The files, unless the proxy has them: the upload must be there. *)
Definition upload_there (dep : Deployment) (present : bool) : M (or_error unit) :=
  if present then let! _ := narrate world [L "The proxy already has the files"] in ok tt else
  let! there := perform CStatUpload in
  if negb (there : bool) then
    if String.eqb (d_Kind dep) KindDeploy then fail ErrNoUpload
    else fail [L "the files of "; S' (d_Version dep); L " are no longer on the server: deploy the folder again"]
  else let! _ := narrate world [L "Received the files"] in ok tt.

(** From building to healthy: the folder is in its place, with its pages. *)
Definition place_folder (dep : Deployment) (dir : string) : M (or_error string) :=
  try! _ := reach world StatusBuilding in
  try! proxyID := perform CProxyContainer in
  try! present := proxyDirExists proxyID dir in
  try! _ := upload_there dep present in
  let! _ := name_previous in
  try! _ := reach world StatusStarting in
  try! _ := (if present then ok tt else extract proxyID dir) in
  try! _ := reach world StatusHealthChecking in
  let! part := mget staticPart in
  try! _ := find_pages proxyID (if present then dir else part) (fallback_of (d_Spec dep)) in
  try! _ := (if present then ok tt else
             try! _ := proxyExec proxyID ["mv"; part; dir] in
             let! _ := mset (λ r, set_staticPart r "") in ok tt) in
  let! _ := narrate world [L "Found index.html"] in
  try! _ := reach world StatusHealthy in
  ok proxyID.

(** The switch, the commit and the sweep. *)
Definition publish_folder (dep : Deployment) (dir proxyID : string) : M (or_error unit) :=
  let! now := mget d in
  if negb (CanTransition (d_Status now) StatusActive) then fail [L "illegal state transition"] else
  let! _ := perform (CRouteVia (mk_override (hostnamesOf (d_Spec dep)) [] 0 (Some dir))) in
  let! s := perform CSyncProxy in
  match s with
  | Some err => fail (L "could not route to the files: " :: err)
  | None =>
      let! _ := perform CAnnounce in
      try! _ := perform (CActivate (d_ID dep)) in
      let! _ := mset (λ r, set_d r (set_status (d r) StatusActive)) in
      let! _ := perform CClearRoute in
      let! _ := narrate world [L "ACTIVE"] in
      let! _ := retireOthers world StopTimeout in
      let! _ := perform CSweep in
      let! _ := retireStaticDirs dep proxyID in
      let! _ := narrate world [L "Deployment successful"] in
      ok tt
  end.

Definition serveStatic : M (or_error unit) :=
  let! dep := mget d in
  let dir := staticDir (d_Application dep) (d_StaticDigest dep) in
  try! proxyID := place_folder dep dir in
  publish_folder dep dir proxyID.

(** A failure removes what this rollout put into the proxy. *)
Definition executeStatic : M (or_error unit) :=
  let! r := serveStatic in
  match r with
  | inr _ => mret r
  | inl _ =>
      let! part := mget staticPart in
      if String.eqb part "" then mret r else
      let! proxyID := perform CProxyContainer in
      match proxyID with
      | inl _ => mret r
      | inr proxyID => let! _ := proxyExec proxyID ["rm"; "-rf"; part] in mret r
      end
  end.

(** ** A deployment that is to exist without running *)

(** Recorded as stopped once more, whatever the commit said. *)
Definition keepStopped (what : text) : M (or_error unit) :=
  let! dep := mget d in
  try! app := perform (CGetApplication (d_Application dep)) in
  try! _ := checked (perform (CSetDesired (app_ID app) DesiredStopped)) in
  let! _ := perform CSyncProxy in
  let! _ := narrate world what in
  ok tt.

(** Which of the application's containers are there already, and which are of
    another version; a container on its way out is neither. *)
Fixpoint sort_out (id : Z) (l : list Container) : M (gset Z * list Container) :=
  match l with
  | [] => mret (∅, [])
  | c :: rest =>
      if negb (String.eqb (c_Job c) "") then sort_out id rest else
      let! dr := perform (CDraining (c_ID c)) in
      let! (have, old) := sort_out id rest in
      mret (if (dr : bool) then (have, old)
            else if c_DeploymentID c =? id then ({[c_Replica c]} ∪ have, old) else (have, c :: old))
  end.

(** retireAll, one container after the other. *)
Fixpoint retire_old (l : list Container) : M (list error) :=
  match l with
  | [] => mret []
  | c :: rest =>
      let! dep := perform (CGetDeployment (c_DeploymentID c)) in
      let! e := retireContainer world (c_ID c) (match dep with inl _ => StopTimeout | inr dep => gracePeriod StopTimeout (d_Spec dep) end) in
      let! more := retire_old rest in
      mret ((match e with inl err => Some (L "remove container " :: S' (c_Name c) :: L ": " :: err) | inr _ => None end) :: more)
  end.
Definition first_error (l : list error) : error := head (omap id l).

(** Whatever there is of another version goes, and is gone; the answer is what
    there is of this one. *)
Definition make_way (dep : Deployment) : M (or_error (gset Z)) :=
  try! listed := perform (CListContainers (d_Application dep)) in
  let! (have, old) := sort_out (d_ID dep) listed in
  let! errs := retire_old old in
  match first_error errs with
  | Some err => fail err
  | None => try! _ := checked (perform (CAwaitDrains (d_Application dep))) in ok have
  end.

Definition create_stopped (have : gset Z) : M (or_error unit) :=
  let! dep := mget d in
  let! (created, err) := createReplicas world dep (filter (λ i, i ∉ have) (indexes (a_Replicas (d_Spec dep)))) [] in
  let! _ := mset (λ r, set_fresh r (fresh r ++ created)%list) in
  match err with
  | Some err => fail err
  | None => let! _ := narrate world [L "Created, not started"] in ok tt
  end.

Definition commit_stopped : M (or_error unit) :=
  try! _ := reach world StatusHealthChecking in
  try! _ := reach world StatusHealthy in
  let! dep := mget d in
  try! _ := perform (CActivate (d_ID dep)) in
  let! _ := mset (λ r, set_d r (set_status (d r) StatusActive)) in
  let! _ := perform CClearRoute in
  let! _ := narrate world [L "ACTIVE"] in
  try! _ := keepStopped [L "Deployed stopped: nothing was started or health-checked"] in
  let! _ := retireOthers world StopTimeout in
  let! _ := perform CSweep in
  ok tt.

Definition executeDormant : M (or_error unit) :=
  let! r := mget (λ r, r) in
  if bool_decide (is_Some (a_Static (d_Spec (d r)))) then
    try! _ := executeStatic in keepStopped [L "The files are in the proxy and not served"]
  else
  try! _ := reach world StatusBuilding in
  let! dep := mget d in
  try! _ := (if bool_decide (d_Status dep = StatusBuilding) then
               try! _ := pullImage world in
               let! _ := (if bool_decide (is_Some (a_PreDeploy (d_Spec dep))) then narrate world [L "The pre-deploy command was not run"] else mret tt) in ok tt
             else ok tt) in
  try! _ := reach world StatusStarting in
  try! _ := checked (perform CEnsureNetwork) in
  try! app := perform (CGetApplication (d_Application dep)) in
  try! _ := checked (perform (CSetDesired (app_ID app) DesiredStopped)) in
  let! _ := match app_ActiveDeploymentID app with
            | Some id => let! p := perform (CGetDeployment id) in
                         match p with inr p => mset (λ r, set_prev r (Some p)) | inl _ => mret tt end
            | None => mret tt
            end in
  let! _ := perform CSyncProxy in
  try! have := make_way dep in
  try! _ := create_stopped have in
  commit_stopped.
End World.
