(* ===== verification/StaticInv.v ===== *)
(** * Static and stopped rollouts: what is proved (static.go, standby.go) *)

From S2P Require Import Prelude GoStrings Effects GoTime GoURL SpecTypes SpecNames SpecReferences DeployState Store Rollout RolloutInv RolloutSafe Static.
From Stdlib Require Import String.
Local Open Scope string_scope.
Local Open Scope Z_scope.

(** ** A deployment that is to exist without running *)

Section Dormant.

(** What the database says of the application's desired state: the last write
    that was acknowledged. The commit says "running". *)
Definition desires (e : happened) : option string :=
  match e with
  | mk_happened c a =>
      match c return answer_of c → option string with
      | CSetDesired _ state => λ a, match a with None => Some state | Some _ => None end
      | CActivate _ => λ a, match a with inr _ => Some DesiredRunning | inl _ => None end
      | _ => λ _, None
      end a
  end.
Fixpoint desired_state (tr : trace) : option string :=
  match tr with [] => None | e :: r => match desires e with Some st => Some st | None => desired_state r end end.

(** Nothing runs, is served or is asked for its health. *)
Definition idle (e : happened) : Prop :=
  match what e with
  | CStart _ | CHook | CProbe _ _ | CRouteVia _ | CSetNames _ | CReset _ _ | CMarkHealthy _ => False
  | _ => True
  end.

(** Every container of another version that the last listing showed has been
    removed, or is on its way out. *)
Definition removed (id : string) (e : happened) : Prop :=
  match e with
  | mk_happened c a => match c return answer_of c → Prop with CRemove i => λ a, i = id ∧ a = None | CDraining i => λ a, i = id ∧ a = true | _ => λ _, False end a
  end.
Fixpoint listing (tr : trace) : option (list Container) :=
  match tr with
  | [] => None
  | mk_happened c a :: r =>
      match c return answer_of c → option (list Container) with
      | CListContainers _ => λ a, match a with inr l => Some l | inl _ => None end
      | _ => λ _, listing r
      end a
  end.
Definition alone (id : Z) (tr : trace) : Prop :=
  ∃ l, listing tr = Some l ∧ ∀ c, c ∈ l → c_Job c = "" → c_DeploymentID c ≠ id → Exists (removed (c_ID c)) tr.

(** A container is created, and the deployment committed, only while the
    application is recorded as stopped; and nothing else of it is there by the
    time it is created. *)
Definition fits_dormant (id : Z) (tr : trace) (e : happened) : Prop :=
  idle e ∧
  match what e with
  | CCreateContainer _ _ => desired_state tr = Some DesiredStopped ∧ alone id tr
  | CActivate _ => desired_state tr = Some DesiredStopped
  | _ => True
  end.

(** Events that change none of this. *)
Definition mild (e : happened) : Prop :=
  match what e with
  | CStart _ | CHook | CProbe _ _ | CRouteVia _ | CSetNames _ | CReset _ _ | CMarkHealthy _
  | CCreateContainer _ _ | CActivate _ | CSetDesired _ _ | CListContainers _ => False
  | _ => True
  end.

Lemma mild_fits id tr e : mild e → fits_dormant id tr e.
Proof. unfold mild, fits_dormant, idle. by destruct (what e). Qed.
Lemma mild_desired evs tr : Forall mild evs → desired_state (evs ++ tr) = desired_state tr.
Proof. induction 1 as [|[c a] evs Hq _ IH]; [done|]. simpl. unfold mild in Hq. simpl in Hq. by destruct c. Qed.
Lemma mild_listing evs tr : Forall mild evs → listing (evs ++ tr) = listing tr.
Proof. induction 1 as [|[c a] evs Hq _ IH]; [done|]. simpl. unfold mild in Hq. simpl in Hq. by destruct c. Qed.
Lemma safe_mild id evs tr : Forall mild evs → safe (fits_dormant id) tr → safe (fits_dormant id) (evs ++ tr).
Proof. induction 1; simpl; [done|]. intros Hs. split; [by apply mild_fits|auto]. Qed.
Lemma alone_mild id evs tr : Forall mild evs → alone id tr → alone id (evs ++ tr).
Proof.
  intros H (l & E & Hl). exists l. split; [by rewrite mild_listing|]. intros c Hc Hj Hd. apply Exists_app. right. by apply Hl.
Qed.

Section Programs.
Context (world : trace → ∀ c, answer_of c) (StopTimeout : Z).
Local Abbreviation calm m := (calm stay mild m).

Lemma reach_mild to : calm (reach world to).
Proof. unfold reach, transition, transitionWithError, narrate. calm. Qed.
Lemma pullImage_mild : calm (pullImage world).
Proof. unfold pullImage, narrate. calm. Qed.
Lemma removeContainer_mild id : calm (removeContainer world id).
Proof. unfold removeContainer. calm. Qed.
Lemma retireContainer_mild id t : calm (retireContainer world id t).
Proof. unfold retireContainer, removeContainer. calm. Qed.
Lemma retire_old_mild l : calm (retire_old world StopTimeout l).
Proof. induction l as [|c l IH]; cbn [retire_old]; [calm|]. pose proof retireContainer_mild. calm. Qed.
Lemma sort_out_mild id l : calm (sort_out world id l).
Proof. induction l as [|c l IH]; cbn [sort_out]; calm. Qed.
Lemma others_mild id l : calm (others world id l).
Proof. induction l as [|c l IH]; cbn [others]; calm. Qed.
End Programs.
#[local] Hint Resolve reach_mild pullImage_mild removeContainer_mild retireContainer_mild retire_old_mild sort_out_mild others_mild : calm.

Section Stopped.
Context (world : trace → ∀ c, answer_of c) (StopTimeout : Z) (dep : Deployment).
Local Abbreviation id := (d_ID dep).

(** The trace so far is right, and the rollout is still of this deployment. *)
Definition going (s : St) : Prop := safe (fits_dormant id) s.2 ∧ ∃ st, d s.1 = set_status dep st.
Definition at_rest (s : St) : Prop := going s ∧ desired_state s.2 = Some DesiredStopped.
Definition cleared (s : St) : Prop := at_rest s ∧ alone id s.2.

Lemma going_stays s s' evs : going s → stay s.1 s' → Forall mild evs → going (s', (evs ++ s.2)%list).
Proof. intros [H1 [st E]] [st' ->] Hq. split; [by apply safe_mild|]. exists st'. simpl. by rewrite E. Qed.
Lemma at_rest_stays s s' evs : at_rest s → stay s.1 s' → Forall mild evs → at_rest (s', (evs ++ s.2)%list).
Proof. intros [H1 H2] Hs Hq. split; [by apply going_stays|]. simpl. by rewrite mild_desired. Qed.
Lemma cleared_stays s s' evs : cleared s → stay s.1 s' → Forall mild evs → cleared (s', (evs ++ s.2)%list).
Proof. intros [H1 H2] Hs Hq. split; [by apply at_rest_stays|]. by apply alone_mild. Qed.

(** A part that is mild keeps whatever the mild keeps. *)
Lemma mild_triple {A} (P : St → Prop) (m : M A) (Q : A → St → Prop) :
  (∀ s s' evs, P s → stay s.1 s' → Forall mild evs → P (s', (evs ++ s.2)%list)) → calm stay mild m → (∀ a s, P s → Q a s) → triple P m Q.
Proof. intros HP Hm HQ. by eapply triple_calm. Qed.

Lemma step_going c (s : St) a : going s → fits_dormant id s.2 (mk_happened c a) → going (s.1, mk_happened c a :: s.2).
Proof. intros [H1 H2] Hf. split; [|done]. simpl. done. Qed.

(** ** The old containers *)

Lemma grows {A} (m : M A) s : calm stay mild m → ∃ evs, (m s).2.2 = (evs ++ s.2)%list.
Proof. intros H. destruct (H s) as (_ & evs & E & _). by exists evs. Qed.
Lemma removed_later {A} (m : M A) s i : calm stay mild m → Exists (removed i) s.2 → Exists (removed i) (m s).2.2.
Proof. intros Hm H. destruct (grows m s Hm) as [evs ->]. apply Exists_app. by right. Qed.

Lemma sort_out_sorts l : ∀ s c, c ∈ l → c_Job c = "" → c_DeploymentID c ≠ id →
  c ∈ (sort_out world id l s).1.2 ∨ Exists (removed (c_ID c)) (sort_out world id l s).2.2.
Proof.
  induction l as [|x l IH]; intros s c Hc Hj Hd; [by apply elem_of_nil in Hc|]. cbn [sort_out].
  destruct (negb (String.eqb (c_Job x) "")) eqn:Ej.
  { apply elem_of_cons in Hc as [->|Hc]; [|by apply IH]. rewrite Hj in Ej. done. }
  rewrite then_perform. set (dr := world s.2 (CDraining (c_ID x))). rewrite then_eq.
  set (s1 := (s.1, mk_happened (CDraining (c_ID x)) dr :: s.2)). specialize (IH s1). clearbody dr. cbn [answer_of] in dr.
  assert (c ∈ l → c ∈ (sort_out world id l s1).1.2 ∨ Exists (removed (c_ID c)) (sort_out world id l s1).2.2) as Hl by auto.
  pose proof (removed_later (sort_out world id l) s1 (c_ID x) (sort_out_mild world id l)) as Hx.
  destruct (sort_out world id l s1) as [[have old] s2]. cbn [fst snd mret] in *.
  apply elem_of_cons in Hc as [->|Hc].
  - destruct dr; cbn [fst snd].
    + right. apply Hx. left. done.
    + rewrite (proj2 (Z.eqb_neq _ _)) by done. left. by left.
  - destruct (Hl Hc) as [H|H]; [|by right]. left. destruct dr; [done|]. destruct (_ =? _); [done|by right].
Qed.

Lemma retireContainer_removes i t s : (retireContainer world i t s).1 = inr tt → Exists (removed i) (retireContainer world i t s).2.2.
Proof.
  unfold retireContainer, removeContainer. rewrite then_perform, try_eq. unfold checked. rewrite then_eq. cbn [fst snd mret Effects.perform].
  set (s1 := (s.1, _)). set (e := world _ (CRemove i)). destruct e as [err|] eqn:E; [done|]. rewrite then_eq. cbn [fst snd mret Effects.perform].
  intros _. right. left. done.
Qed.

Lemma retire_old_removes l : ∀ s, first_error (retire_old world StopTimeout l s).1 = None →
  ∀ c, c ∈ l → Exists (removed (c_ID c)) (retire_old world StopTimeout l s).2.2.
Proof.
  induction l as [|x l IH]; intros s H c Hc; [by apply elem_of_nil in Hc|]. revert H. cbn [retire_old]. rewrite then_perform, then_eq.
  match goal with |- context [retireContainer world (c_ID x) ?t ?u] => set (tm := t); set (s1 := u) end.
  pose proof (retireContainer_removes (c_ID x) tm s1) as Hr. destruct (retireContainer world (c_ID x) tm s1) as [e s2]. cbn [fst snd] in *.
  rewrite then_eq. cbn [fst snd mret]. specialize (IH s2).
  pose proof (removed_later (retire_old world StopTimeout l) s2 (c_ID x) (retire_old_mild world StopTimeout l)) as Hx.
  destruct (retire_old world StopTimeout l s2) as [errs s3]. cbn [fst snd] in *. unfold first_error in *. intros H.
  destruct e as [e|[]]; [done|]. cbn in H. apply elem_of_cons in Hc as [->|Hc]; [by apply Hx, Hr|by apply IH].
Qed.

(** ** The new ones *)

Lemma createContainer_cleared dep' i : triple cleared (createContainer world dep' i) (λ _, cleared).
Proof.
  assert (triple cleared (perform world (CCreateContainer dep' i)) (λ _, cleared)) as Hc.
  { apply triple_perform. intros s a [[H1 H2] H3]. split; [split|].
    - apply step_going; [done|]. split; [exact I|]. by split.
    - exact H2.
    - destruct H3 as (l & El & Hl). exists l. split; [done|]. intros c ???. right. by apply Hl. }
  unfold createContainer. eapply triple_then; [exact Hc|]. intros [err|x]; [|by apply triple_ret].
  eapply triple_then; [apply (mild_triple cleared _ (λ _, cleared)); [apply cleared_stays|calm|done]|].
  intros [?|[]]; [by apply triple_ret..|]. destruct (IsLocalImage _); [by apply triple_ret|].
  eapply triple_then; [apply (mild_triple cleared _ (λ _, cleared)); [apply cleared_stays|calm|done]|]. intros [?|]; [by apply triple_ret|exact Hc].
Qed.

Lemma createReplicas_cleared dep' idx : ∀ created, triple cleared (createReplicas world dep' idx created) (λ _, cleared).
Proof.
  induction idx as [|i idx IH]; intros created; cbn [createReplicas]; [by apply triple_ret|].
  eapply triple_then; [apply createContainer_cleared|]. intros [err|[cid name]]; [by apply triple_ret|].
  eapply triple_then; [apply (mild_triple cleared _ (λ _, cleared)); [apply cleared_stays|calm|done]|]. intros [err|]; [|apply IH].
  eapply triple_then; [apply (mild_triple cleared _ (λ _, cleared)); [apply cleared_stays|calm|done]|]. intros ?. by apply triple_ret.
Qed.

(** ** The whole of it *)

Definition committed (tr : trace) : Prop := ∃ p, mk_happened (CActivate id) (inr p) ∈ tr.
Definition done_going (s : St) : Prop := going s ∧ committed s.2.
Definition done_at_rest (s : St) : Prop := at_rest s ∧ committed s.2.
Lemma done_going_stays s s' evs : done_going s → stay s.1 s' → Forall mild evs → done_going (s', (evs ++ s.2)%list).
Proof. intros [H1 [p H2]] Hs Hq. split; [by apply going_stays|]. exists p. apply elem_of_app. by right. Qed.
Lemma done_at_rest_stays s s' evs : done_at_rest s → stay s.1 s' → Forall mild evs → done_at_rest (s', (evs ++ s.2)%list).
Proof. intros [H1 [p H2]] Hs Hq. split; [by apply at_rest_stays|]. exists p. apply elem_of_app. by right. Qed.

(** A call that writes nothing the invariants read. *)
Lemma keepStopped_rests what : triple done_going (keepStopped world what) (λ r s, match r with inr _ => done_at_rest s | inl _ => done_going s end).
Proof.
  unfold keepStopped. eapply (triple_then _ _ _ (λ _, done_going)); [by apply triple_get|]. intros dep'.
  apply (triple_try _ _ _ (λ _, done_going)); [apply (mild_triple done_going); [apply done_going_stays|calm|by intros [?|?]]|]. intros app.
  apply (triple_try _ _ _ (λ _, done_at_rest)).
  - apply triple_checked. apply (triple_perform (answer := answer_of) world _ (CSetDesired (app_ID app) DesiredStopped)). intros s a [H1 [p H2]].
    assert (done_going (s.1, mk_happened (CSetDesired (app_ID app) DesiredStopped) a :: s.2)) as Hd.
    { split; [by apply step_going|]. exists p. by right. }
    destruct a as [e|]; [exact Hd|]. destruct Hd as [Hd Hc]. split; [by split|done].
  - intros []. apply (mild_triple done_at_rest); [apply done_at_rest_stays|unfold narrate; calm|]. intros [?|?] s H; [by destruct H as [[? ?] ?]|done].
Qed.

Lemma listed_at_rest (s : St) app l : done_at_rest s → done_at_rest (s.1, mk_happened (CListContainers app) l :: s.2).
Proof. intros [[H1 H2] [p H3]]. split; [split; [by apply step_going|done]|]. exists p. by right. Qed.

Lemma retireOthers_rests : triple done_at_rest (retireOthers world StopTimeout) (λ _, done_at_rest).
Proof.
  unfold retireOthers. eapply (triple_then _ _ _ (λ _, done_at_rest)); [by apply triple_get|]. intros dep'.
  eapply (triple_then _ _ _ (λ _, done_at_rest)); [apply triple_perform; intros s a; apply listed_at_rest|].
  intros [err|l]; (apply (mild_triple done_at_rest _ (λ _, done_at_rest)); [apply done_at_rest_stays| |done]); [unfold narrate; calm|].
  pose proof others_mild. pose proof retireContainer_mild. unfold retire_other, narrate. calm.
Qed.

Ltac mildly P stays := apply (mild_triple P); [apply stays|unfold narrate; calm|].
Lemma rests_going s : at_rest s → going s.
Proof. by intros [? _]. Qed.
Lemma cleared_going s : cleared s → going s.
Proof. by intros [[? _] _]. Qed.

(** The postcondition of a part that may fail. *)
Definition or_going {A} (P : St → Prop) (r : or_error A) (s : St) : Prop := match r with inl _ => going s | inr _ => P s end.

Lemma make_way_clears dep' : d_ID dep' = id → triple at_rest (make_way world StopTimeout dep') (or_going cleared).
Proof.
  intros Hid. unfold make_way. apply (triple_try _ _ _ (λ l s, at_rest s ∧ listing s.2 = Some l)).
  { apply (triple_perform (answer := answer_of) world _ (CListContainers (d_Application dep'))). intros s [e|l] [H1 H2]; [by apply step_going|].
    split; [split; [by apply step_going|done]|done]. }
  intros l. apply (triple_then _ _ _ (λ x s, at_rest s ∧ listing s.2 = Some l ∧
    ∀ c, c ∈ l → c_Job c = "" → c_DeploymentID c ≠ id → c ∈ x.2 ∨ Exists (removed (c_ID c)) s.2)).
  { intros s [H1 H2]. rewrite Hid. pose proof (sort_out_sorts l s) as Hs. destruct (sort_out_mild world id l s) as (Hst' & evs & Ev & Hq).
    split; [|split; [rewrite Ev; by rewrite mild_listing|done]].
    pose proof (at_rest_stays s _ evs H1 Hst' Hq) as Hr. by rewrite <- Ev, <- surjective_pairing in Hr. }
  intros [have olds]. cbn [snd]. apply (triple_then _ _ _ (λ errs s, at_rest s ∧ (first_error errs = None → alone id s.2))).
  { intros s (H1 & H2 & H3). pose proof (retire_old_removes olds s) as Hrm. pose proof (λ c, removed_later (retire_old world StopTimeout olds) s c (retire_old_mild world StopTimeout olds)) as Hl.
    destruct (retire_old_mild world StopTimeout olds s) as (Hst' & evs & Ev & Hq). split.
    - pose proof (at_rest_stays s _ evs H1 Hst' Hq) as Hr. by rewrite <- Ev, <- surjective_pairing in Hr.
    - intros He. exists l. split; [rewrite Ev; by rewrite mild_listing|]. intros c Hc Hj Hd.
      destruct (H3 c Hc Hj Hd) as [Hin|Hin]; [by apply Hrm|by apply Hl]. }
  intros errs s0 [H0 Ha]. destruct (first_error errs) as [err|]; [by apply rests_going|]. specialize (Ha eq_refl).
  revert s0 H0 Ha. refine ((λ (T : triple cleared _ _) s H0 Ha, T s (conj H0 Ha)) _).
  mildly cleared cleared_stays. intros [?|?] s H; [by apply cleared_going|exact H].
Qed.

Lemma create_stopped_cleared have : triple cleared (create_stopped world have) (or_going cleared).
Proof.
  unfold create_stopped. apply (triple_then _ _ _ (λ _, cleared)); [by apply triple_get|]. intros dep'.
  apply (triple_then _ _ _ (λ _, cleared)); [apply createReplicas_cleared|]. intros [created err].
  apply (triple_then _ _ _ (λ _, cleared)); [apply triple_set; by intros s [[[? ?] ?] ?]|]. intros _.
  destruct err as [err|]; [apply triple_ret, cleared_going|]. mildly cleared cleared_stays. by intros [?|?] s H; [apply cleared_going|].
Qed.

Lemma commit_stopped_rests : triple cleared (commit_stopped world StopTimeout) (or_going done_at_rest).
Proof.
  unfold commit_stopped.
  apply (triple_try _ _ _ (λ _, cleared)); [mildly cleared cleared_stays; by intros [?|?] s H; [apply cleared_going|]|]. intros _.
  apply (triple_try _ _ _ (λ _, cleared)); [mildly cleared cleared_stays; by intros [?|?] s H; [apply cleared_going|]|]. intros _.
  apply (triple_then _ _ _ (λ x s, cleared s ∧ d_ID x = id)); [apply triple_get; intros s H0; split; [exact H0|]; destruct H0 as [[[_ [st Est]] _] _]; by rewrite Est|].
  intros dep2 s0 [H0 E2]. rewrite E2. revert s0 H0.
  apply (triple_try _ _ _ (λ _, done_going)).
  { apply (triple_perform (answer := answer_of) world _ (CActivate id)). intros s a [[H1 H2] H3].
    assert (going (s.1, mk_happened (CActivate id) a :: s.2)) as H4 by (apply step_going; [done|by split]).
    destruct a as [e|p]; [done|]. split; [exact H4|]. exists p. by left. }
  intros p. apply (triple_then _ _ _ (λ _, done_going)); [apply triple_set; intros s [[H1 [st Est]] H2]; split; [split; [done|]|done]; exists StatusActive; simpl; by rewrite Est|].
  intros _. apply (triple_then _ _ _ (λ _, done_going)); [mildly done_going done_going_stays; done|]. intros _.
  apply (triple_then _ _ _ (λ _, done_going)); [mildly done_going done_going_stays; done|]. intros _.
  apply (triple_try _ _ _ (λ _, done_at_rest)); [eapply triple_conseq; [apply keepStopped_rests|done|]; intros [e|x] s H; [by destruct H|exact H]|].
  intros _. apply (triple_then _ _ _ (λ _, done_at_rest)); [apply retireOthers_rests|]. intros _.
  mildly done_at_rest done_at_rest_stays. intros [?|?] s H; [by destruct H as [[? _] _]|exact H].
Qed.

Lemma executeDormant_rests : a_Static (d_Spec dep) = None →
  triple (λ s, d s.1 = dep ∧ s.2 = []) (executeDormant world StopTimeout) (or_going done_at_rest).
Proof.
  intros Hst. unfold executeDormant. eapply triple_then with (Q' := λ r s, going s ∧ d_Spec (d r) = d_Spec dep).
  { apply triple_get. intros s [E1 E2]. rewrite E1. split; [|done]. split; [by rewrite E2|]. exists (d_Status dep). rewrite E1. by destruct dep. }
  intros r s0 [H0 E]. rewrite bool_decide_eq_false_2 by (rewrite E, Hst; by intros [? ?]). revert s0 H0.
  apply (triple_try _ _ _ (λ _, going)); [mildly going going_stays; intros [?|?]; auto|]. intros _.
  apply (triple_then _ _ _ (λ x s, going s ∧ d_ID x = id)); [apply triple_get; intros s H0; split; [exact H0|]; destruct H0 as [_ [st Est]]; by rewrite Est|].
  intros dep1 s0 [H0 E1]. revert s0 H0.
  do 3 (apply (triple_try _ _ _ (λ _, going)); [mildly going going_stays; intros [?|?]; auto|]; intros _).
  apply (triple_try _ _ _ (λ _, going)); [mildly going going_stays; intros [?|?]; auto|]. intros app.
  apply (triple_try _ _ _ (λ _, at_rest)).
  { apply triple_checked. apply (triple_perform (answer := answer_of) world _ (CSetDesired (app_ID app) DesiredStopped)). intros s [e|] H; [by apply step_going|].
    split; [by apply step_going|done]. }
  intros _. apply (triple_then _ _ _ (λ _, at_rest)).
  { destruct (app_ActiveDeploymentID app); [|by apply triple_ret]. apply (triple_then _ _ _ (λ _, at_rest)); [mildly at_rest at_rest_stays; done|].
    intros [?|p]; [by apply triple_ret|]. apply triple_set. by intros s [[? ?] ?]. }
  intros _. apply (triple_then _ _ _ (λ _, at_rest)); [mildly at_rest at_rest_stays; done|]. intros _.
  apply (triple_try _ _ _ (λ _, cleared)); [by apply make_way_clears|]. intros have.
  apply (triple_try _ _ _ (λ _, cleared)); [apply create_stopped_cleared|]. intros _. apply commit_stopped_rests.
Qed.
End Stopped.
End Dormant.

(** C24: a deployment that is to exist without running and whose application is
    made of containers (one that serves a folder has it routed all the same),
    whatever Docker, the database and the proxy answer: it starts no container, runs no pre-deploy
    command, probes nothing and routes nothing. A container is created only
    while the application is recorded as stopped, and once every container of
    another version that Docker listed has been removed or is on its way out;
    the commit is asked for only while the application is recorded as stopped.
    When it succeeds, the deployment has been committed and the last word about
    the application is that it is stopped; when it fails after the commit, the
    last word can be that it is to run ([stopped_left_running]). *)
Theorem dormant_starts_nothing (world : trace → ∀ c, answer_of c) (StopTimeout : Z) (r : rollout) : a_Static (d_Spec (d r)) = None →
  let '(res, s) := executeDormant world StopTimeout (r, []) in
  (∀ tr e rest, s.2 = (tr ++ e :: rest)%list →
     match what e with
     | CStart _ | CHook | CProbe _ _ | CRouteVia _ | CSetNames _ | CReset _ _ | CMarkHealthy _ => False
     | CCreateContainer _ _ => desired_state rest = Some "stopped" ∧
         ∃ l, listing rest = Some l ∧
           ∀ c, c ∈ l → c_Job c = "" → c_DeploymentID c ≠ d_ID (d r) → Exists (removed (c_ID c)) rest
     | CActivate _ => desired_state rest = Some "stopped"
     | _ => True
     end) ∧
  (res = inr tt → desired_state s.2 = Some "stopped" ∧ ∃ p, mk_happened (CActivate (d_ID (d r))) (inr p) ∈ s.2).
Proof.
  intros Hst. pose proof (executeDormant_rests world StopTimeout (d r) Hst (r, []) (conj eq_refl eq_refl)) as H.
  destruct (executeDormant world StopTimeout (r, [])) as [res s]. cbn [fst snd] in H.
  assert (safe (fits_dormant (d_ID (d r))) s.2) as Hs by (destruct res; [by destruct H as [? _]|by destruct H as [[[? _] _] _]]).
  split; [|intros ->; by destruct H as [[_ ?] ?]].
  intros tr e rest Ht. rewrite Ht in Hs. clear H Ht. induction tr as [|x tr IH]; [|by destruct Hs as [_ Hs]; apply IH].
  destruct Hs as [[Hi Hf] _]. unfold idle in Hi. by destruct (what e).
Qed.

Module StoppedWitness.
Definition dep : Deployment := RollingWitness.deployment 2 1 StatusPending.
Definition app : Application := mk_application 1 "api" DesiredRunning None 0 0.
(** Docker and the database do what they are asked for; [full] is a disk that
    is full once the deployment is committed. *)
Definition after_commit (t : trace) : bool := existsb (λ e, match what e with CActivate _ => true | _ => false end) t.
Definition world (full : bool) (t : trace) (c : call) : answer_of c :=
  match c with
  | CGetApplication n => inr app
  | CSetDesired _ _ => if full && after_commit t then Some [L "database or disk is full"] else None
  | c => RollingWitness.world t c
  end.
End StoppedWitness.

Lemma dormant_starts_nothing_witness :
  let out := executeDormant (StoppedWitness.world false) 10 (newRollout StoppedWitness.dep, []) in
  out.1 = inr tt ∧ desired_state out.2.2 = Some "stopped" ∧ List.length (created_ids out.2.2) = 1%nat.
Proof.
  pose proof (dormant_starts_nothing (StoppedWitness.world false) 10 (newRollout StoppedWitness.dep) eq_refl) as H.
  destruct (executeDormant (StoppedWitness.world false) 10 (newRollout StoppedWitness.dep, [])) as [res s] eqn:E.
  assert (res = inr tt ∧ List.length (created_ids s.2) = 1%nat) as [Hr Hc] by (vm_compute in E; injection E as <- <-; split; reflexivity).
  cbv zeta. cbn [fst snd]. split; [exact Hr|]. split; [exact (proj1 (proj2 H Hr))|exact Hc].
Defined.

(** The commit says that the application is to run. When the write that takes
    it back is refused, the rollout fails with its deployment ACTIVE: the
    containers that were created are removed, and an application that was to be
    left stopped is recorded as one that is to run. *)
Lemma stopped_left_running :
  let run := run_deployment (StoppedWitness.world true) 10 5 (fail []) (executeDormant (StoppedWitness.world true) 10)
               (resuming StoppedWitness.dep true, []) in
  run.1 = false ∧ d_Status (d run.2.1) = StatusActive ∧ desired_state run.2.2 = Some "running" ∧
  ∃ id, id ∈ created_ids run.2.2 ∧ mk_happened (CRemove id) None ∈ run.2.2.
Proof.
  cbv zeta. destruct (run_deployment _ _ _ _ _ _) as [b s] eqn:E. vm_compute in E. injection E as <- <-. cbn [fst snd].
  split_and!; [done|done|vm_compute; reflexivity|]. exists "n". split; [vm_compute; left|first [left|right; left|right; right; left]].
Qed.
