(* ===== verification/StaticSafe.v ===== *)
(** * A folder is routed to when it is whole (static.go)

    What a static rollout asks of the proxy, in order: what has been asked by
    the time the domain is routed to the folder, what is removed and when, and
    what a failure leaves. *)

From S2P Require Import Prelude GoStrings Effects GoTime GoURL SpecTypes SpecNames SpecReferences DeployState Store Rollout RolloutInv RolloutSafe Static.
From Stdlib Require Import String.
Local Open Scope string_scope.
Local Open Scope Z_scope.

(** ** What the proxy's container was asked *)

Inductive deed := Ran (cmd : list string) (succeeded : bool) | Copied (path : string) (succeeded : bool).
Definition deed_of (e : happened) : option deed :=
  match e with
  | mk_happened c a =>
      match c return answer_of c → option deed with
      | CExec _ cmd => λ a, Some (Ran cmd (match a with inr (code, _) => code =? 0 | inl _ => false end))
      | CImportPath _ path => λ a, Some (Copied path (match a with None => true | Some _ => false end))
      | _ => λ _, None
      end a
  end.
(** Newest first. *)
Definition deeds (tr : trace) : list deed := omap deed_of tr.

Definition pages (folder fallback : string) : list deed :=
  ((if another_page fallback then [Ran ["test"; "-f"; (folder ++ "/" ++ fallback)%string] true] else [])
   ++ [Ran ["test"; "-f"; (folder ++ "/index.html")%string] true])%list.
Local Abbreviation part_of dir := (dir ++ ".part")%string.

(** The folder was there, and its pages were found; or it was not, and was
    copied next to its place, its pages found there, and moved. *)
Definition found_log (dir fallback : string) : list deed := (pages dir fallback ++ [Ran ["test"; "-d"; dir] true])%list.
Definition copied_log (dir : string) : list deed :=
  [Copied (part_of dir) true; Ran ["mkdir"; "-p"; part_of dir] true; Ran ["rm"; "-rf"; part_of dir] true; Ran ["test"; "-d"; dir] false].
Definition moved_log (dir fallback : string) : list deed :=
  (Ran ["mv"; part_of dir; dir] true :: pages (part_of dir) fallback ++ copied_log dir)%list.

Section Safe.
Context (dep : Deployment).
Local Abbreviation dir := (staticDir (d_Application dep) (d_StaticDigest dep)).
Local Abbreviation part := (part_of dir).
Local Abbreviation fallback := (fallback_of (d_Spec dep)).

(** A folder that the sweep after the commit may remove. *)
Definition swept (tr : trace) (x : string) : Prop :=
  ∃ superseded, mk_happened (CListSuperseded (d_Application dep)) (inr superseded) ∈ tr ∧
    let keep := kept_folders (d_StaticDigest dep) superseded in
    (∃ line name, leftover_folder keep line = Some name ∧ x = under_root [d_Application dep; name]) ∨
    (keep = [] ∧ x = under_root [d_Application dep]).

Definition fits_static (tr : trace) (e : happened) : Prop :=
  match what e with
  | CRouteVia o => o = mk_override (hostnamesOf (d_Spec dep)) [] 0 (Some dir) ∧
      (deeds tr = found_log dir fallback ∨ deeds tr = moved_log dir fallback)
  | CActivate i => i = d_ID dep ∧ ∃ o rest, tr = (mk_happened CAnnounce tt :: mk_happened CSyncProxy None :: mk_happened (CRouteVia o) tt :: rest)%list
  | CClearRoute | CStop _ _ | CRemove _ | CRetireInBackground _ _ => activated tr
  | CExec _ cmd =>
      (∀ x, cmd = ["rm"; "-rf"; x] → x = part ∨ (activated tr ∧ swept tr x)) ∧
      (∀ a b, cmd = ["mv"; a; b] → a = part ∧ b = dir ∧ deeds tr = (pages part fallback ++ copied_log dir)%list)
  | CCreateContainer _ _ | CStart _ => False
  | _ => True
  end.

(** ** Up to the commit *)

(** What changes of the rollout: the status, and the version that is named. *)
Definition same_part (r r' : rollout) : Prop := (∃ st, d r' = set_status (d r) st) ∧ staticPart r' = staticPart r.
#[local] Instance same_part_preorder : PreOrder same_part.
Proof.
  split.
  - intros r. split; [|done]. exists (d_Status (d r)). by destruct (d r).
  - intros r r' r'' [[st E] E2] [[st' E'] E2']. split; [|congruence]. exists st'. rewrite E', E. by destruct (d r).
Qed.
Lemma same_part_status r st : same_part r (set_d r (set_status (d r) st)).
Proof. split; [by exists st|done]. Qed.
Lemma same_part_prev r p : same_part r (set_prev r p).
Proof. split; [|done]. exists (d_Status (d r)). simpl. by destruct (d r). Qed.
#[local] Hint Resolve same_part_status same_part_prev : calm.

Definition still (e : happened) : Prop :=
  match what e with
  | CNarrate _ | CTransition _ _ _ _ | CStatUpload | COpenUpload | CGetApplication _ | CGetDeployment _ | CProxyContainer => True
  | _ => False
  end.

(** The trace is right, nothing is committed, and this is what was asked of
    the proxy, with the part that a failure would have to remove. *)
Record building (l : list deed) (p : string) (s : St) : Prop := {
  b_safe : safe fits_static s.2;
  b_dep : ∃ st, d s.1 = set_status dep st;
  b_not : ¬ activated s.2;
  b_deeds : deeds s.2 = l;
  b_part : staticPart s.1 = p }.

Lemma still_fits e tr : still e → fits_static tr e.
Proof. destruct e as [c a]. unfold still, fits_static. by destruct c. Qed.
Lemma still_quiet e : still e → ¬ commits e ∧ deed_of e = None.
Proof. destruct e as [c a]. unfold still. simpl. destruct c; simpl; try done; intros _; (split; [by intros []|done]). Qed.
Lemma still_safe evs tr : Forall still evs → safe fits_static tr → safe fits_static (evs ++ tr).
Proof. induction 1 as [|e evs He _ IH]; simpl; [done|]. intros Hs. split; [by apply still_fits|auto]. Qed.
Lemma building_stays l p s s' evs : building l p s → same_part s.1 s' → Forall still evs → building l p (s', (evs ++ s.2)%list).
Proof.
  intros [H1 [st H2] H3 H4 H5] [[st' E] E'] Hq. split; simpl.
  - by apply still_safe.
  - exists st'. rewrite E, H2. done.
  - intros [Ha|Ha]%Exists_app; [|done]. apply Exists_exists in Ha as (e & He & Hc). rewrite Forall_forall in Hq. by apply (proj1 (still_quiet e (Hq e He))) in Hc.
  - unfold deeds. rewrite omap_app. fold (deeds s.2). rewrite H4. replace (omap deed_of evs) with (@nil deed); [done|].
    symmetry. clear -Hq. induction Hq as [|e evs He _ IH]; [done|]. csimpl. by rewrite (proj2 (still_quiet e He)), IH.
  - congruence.
Qed.

Section Programs.
Context (world : trace → ∀ c, answer_of c) (StopTimeout : Z).

Lemma still_triple l p {A} (m : M A) (Q : A → St → Prop) : calm same_part still m → (∀ a s, building l p s → Q a s) → triple (building l p) m Q.
Proof. intros Hm HQ. eapply triple_calm; [exact Hm|apply building_stays|exact HQ]. Qed.
Lemma reach_still to : calm same_part still (reach world to).
Proof. unfold reach, transition, transitionWithError, narrate. calm. Qed.
Lemma name_previous_still : calm same_part still (name_previous world).
Proof. unfold name_previous. calm. Qed.
#[local] Hint Resolve reach_still name_previous_still : calm.

Lemma building_step l p (s : St) e : building l p s → fits_static s.2 e → ¬ commits e → deed_of e = None → building l p (s.1, e :: s.2).
Proof.
  intros [H1 H2 H3 H4 H5] Hf Hc Hd. split; simpl; [done|done| | |done].
  - by intros [?|?]%Exists_cons.
  - unfold deeds. csimpl. by rewrite Hd.
Qed.
Lemma building_deed l p (s : St) e x : building l p s → fits_static s.2 e → ¬ commits e → deed_of e = Some x → building (x :: l) p (s.1, e :: s.2).
Proof.
  intros [H1 H2 H3 H4 H5] Hf Hc Hd. split; simpl; [done|done| | |done].
  - by intros [?|?]%Exists_cons.
  - unfold deeds in *. csimpl. by rewrite Hd, H4.
Qed.

(** A command, and what is known afterwards. *)
Definition allowed (l : list deed) (cmd : list string) : Prop := ∀ tr proxy a, deeds tr = l → fits_static tr (mk_happened (CExec proxy cmd) a).
Lemma other_exec tr proxy cmd a : head cmd ≠ Some "rm" → head cmd ≠ Some "mv" → fits_static tr (mk_happened (CExec proxy cmd) a).
Proof. intros H1 H2. split; [intros x ->|intros x y ->]; done. Qed.
Lemma removing tr proxy x a : x = part ∨ (activated tr ∧ swept tr x) → fits_static tr (mk_happened (CExec proxy ["rm"; "-rf"; x]) a).
Proof. intros H. split; [by intros y [= <-]|done]. Qed.

Definition came_true {A} (r : or_error A) : bool := match r with inl _ => false | inr _ => true end.
Lemma exec_building l p proxy cmd : allowed l cmd →
  triple (building l p) (proxyExec world proxy cmd) (λ r, building (Ran cmd (came_true r) :: l) p).
Proof.
  intros Ha. unfold proxyExec. apply (triple_then _ _ _ (λ a, building (Ran cmd (match a with inr (code, _) => code =? 0 | inl _ => false end) :: l) p)).
  - apply (triple_perform (answer := answer_of) world _ (CExec proxy cmd)). intros s a H. apply (building_deed l p s); [done|apply Ha, (b_deeds _ _ _ H)|by intros []|done].
  - intros [err|[code out]]; [by apply triple_ret|]. destruct (code =? 0); by apply triple_ret.
Qed.
Lemma look_building l p proxy x missing :
  triple (building l p) (look_for world proxy x missing) (λ r, building (Ran ["test"; "-f"; x] (came_true r) :: l) p).
Proof.
  unfold look_for. apply (triple_then _ _ _ (λ a, building (Ran ["test"; "-f"; x] (match a with inr (code, _) => code =? 0 | inl _ => false end) :: l) p)).
  - apply (triple_perform (answer := answer_of) world _ (CExec proxy ["test"; "-f"; x])). intros s a H. apply (building_deed l p s); [done|by apply other_exec|by intros []|done].
  - intros [err|[code out]]; [by apply triple_ret|]. destruct (code =? 0); by apply triple_ret.
Qed.

(** ** What a failure may find *)

Definition tidy (l : list deed) (p : string) : Prop :=
  p = part ∨ (p = "" ∧ (Ran ["mkdir"; "-p"; part] true ∈ l → Ran ["mv"; part; dir] true ∈ l)).
Definition failed (s : St) : Prop := ∃ l p, building l p s ∧ tidy l p.
Definition or_failed {A} (P : St → Prop) (r : or_error A) (s : St) : Prop := match r with inl _ => failed s | inr _ => P s end.

Lemma tidy_cons l p x : x ≠ Ran ["mkdir"; "-p"; part] true → tidy l p → tidy (x :: l) p.
Proof. intros Hx [->|[-> H]]; [by left|]. right. split; [done|]. intros [?|?]%elem_of_cons; [congruence|]. right. auto. Qed.
Lemma tidy_none l : (Ran ["mkdir"; "-p"; part] true ∉ l) → tidy l "".
Proof. intros H. right. split; [done|]. by intros. Qed.

Lemma still_or_failed l p {A} (m : M (or_error A)) : calm same_part still m → tidy l p → triple (building l p) m (or_failed (building l p)).
Proof. intros Hm Ht. apply still_triple; [done|]. intros [?|?] s H; [by exists l, p|done]. Qed.

Lemma extract_copies proxy : triple (building [Ran ["test"; "-d"; dir] false] "") (extract world proxy dir) (or_failed (building (copied_log dir) part)).
Proof.
  unfold extract. apply (triple_try _ _ _ (λ _, building [Ran ["rm"; "-rf"; part] true; Ran ["test"; "-d"; dir] false] "")).
  { eapply triple_conseq; [apply exec_building; intros tr px a _; apply removing; by left|done|]. intros [e|[]] s H; [|exact H].
    eexists _, _. split; [exact H|]. apply tidy_none. rewrite !not_elem_of_cons. split_and!; [done|done|apply not_elem_of_nil]. }
  intros _. apply (triple_try _ _ _ (λ _, building [Ran ["mkdir"; "-p"; part] true; Ran ["rm"; "-rf"; part] true; Ran ["test"; "-d"; dir] false] "")).
  { eapply triple_conseq; [apply exec_building; intros tr px a _; by apply other_exec|done|]. intros [e|[]] s H; [|exact H].
    eexists _, _. split; [exact H|]. apply tidy_none. rewrite !not_elem_of_cons. split_and!; [done|done|done|apply not_elem_of_nil]. }
  intros _. apply (triple_then _ _ _ (λ _, building [Ran ["mkdir"; "-p"; part] true; Ran ["rm"; "-rf"; part] true; Ran ["test"; "-d"; dir] false] part)).
  { apply triple_set. intros s [H1 H2 H3 H4 _]. by split. }
  intros _. eapply triple_then; [apply still_triple; [calm|intros a s H; exact H]|]. intros [|]; cbn [negb].
  2: { apply triple_ret. intros s H. eexists _, _. split; [exact H|by left]. }
  apply (triple_then _ _ _ (λ e, building (Copied part (match e with None => true | Some _ => false end) ::
    [Ran ["mkdir"; "-p"; part] true; Ran ["rm"; "-rf"; part] true; Ran ["test"; "-d"; dir] false]) part)).
  { apply (triple_perform (answer := answer_of) world _ (CImportPath proxy part)). intros s a H. apply (building_deed _ _ s); [done|exact I|by intros []|done]. }
  intros [e|]; [apply triple_ret; intros s H; eexists _, _; split; [exact H|by left]|].
  apply still_triple; [unfold narrate; calm|]. intros [e|[]] s H; [|exact H]. eexists _, _. split; [exact H|by left].
Qed.

(** The two looks at the pages. *)
Lemma pages_found l p proxy x : tidy l p →
  triple (building l p) (find_pages world proxy x fallback) (or_failed (building (pages x fallback ++ l)%list p)).
Proof.
  intros Ht. unfold find_pages. apply (triple_try _ _ _ (λ _, building (Ran ["test"; "-f"; (x ++ "/index.html")%string] true :: l) p)).
  { eapply triple_conseq; [apply look_building|done|]. intros [e|[]] s H; [|exact H]. eexists _, _. split; [exact H|by apply tidy_cons]. }
  intros _. unfold pages. destruct (another_page fallback).
  - eapply triple_conseq; [apply look_building|done|]. intros [e|[]] s H; [|exact H]. eexists _, _. split; [exact H|by apply tidy_cons, tidy_cons].
  - by apply triple_ret.
Qed.

Definition final_log (l : list deed) : Prop := l = found_log dir fallback ∨ l = moved_log dir fallback.
Definition placed (s : St) : Prop := ∃ l, building l "" s ∧ final_log l.

Lemma no_mkdir_pages x l : (Ran ["mkdir"; "-p"; part] true ∉ l) → Ran ["mkdir"; "-p"; part] true ∉ (pages x fallback ++ l)%list.
Proof. intros H. unfold pages. destruct (another_page fallback); simpl; rewrite !not_elem_of_cons; by split_and!. Qed.
Lemma final_tidy l : final_log l → tidy l "".
Proof.
  intros [->| ->].
  - apply tidy_none, no_mkdir_pages. rewrite not_elem_of_cons. split; [done|apply not_elem_of_nil].
  - right. split; [done|]. intros _. left.
Qed.

(** The folder where it belongs, and the statuses that follow. *)
Lemma move_places proxy (present : bool) :
  triple (building (pages (if present then dir else part) fallback ++ if present then [Ran ["test"; "-d"; dir] true] else copied_log dir)%list (if present then "" else part))
    (if present then ok tt else try! _ := proxyExec world proxy ["mv"; part; dir] in let! _ := mset (λ r, set_staticPart r "") in ok tt)
    (or_failed placed).
Proof.
  destruct present.
  - apply triple_ret. intros s H. eexists. split; [exact H|by left].
  - apply (triple_try _ _ _ (λ _, building (moved_log dir fallback) part)).
    { eapply triple_conseq; [apply exec_building; intros tr px a Hd; split; [done|intros x y [= <- <-]; by split_and!]|done|]. intros [e|[]] s H; [|exact H]. eexists _, _. split; [exact H|by left]. }
    intros _. apply (triple_then _ _ _ (λ _, placed)); [|by intros u; apply triple_ret].
    apply triple_set. intros s [H1 H2 H3 H4 _]. exists (moved_log dir fallback). split; [by split|by right].
Qed.

Lemma placed_still {A} (m : M (or_error A)) : calm same_part still m → triple placed m (or_failed placed).
Proof.
  intros Hm s (l & H & Hl). pose proof (still_or_failed l "" m Hm (final_tidy l Hl) s H) as Ho. destruct (m s).1; [exact Ho|by exists l].
Qed.

Lemma place_places : triple (building [] "") (place_folder world dep dir) (or_failed placed).
Proof.
  assert (∀ l, (Ran ["mkdir"; "-p"; part] true ∉ l) → ∀ A (m : M (or_error A)), calm same_part still m → triple (building l "") m (or_failed (building l ""))) as Hstep.
  { intros l Hl A m Hm. apply still_or_failed; [done|by apply tidy_none]. }
  assert (∀ b, (Ran ["mkdir"; "-p"; part] true) ∉ [Ran ["test"; "-d"; dir] b]) as Hn by (intros b; rewrite not_elem_of_cons; split; [done|apply not_elem_of_nil]).
  unfold place_folder. apply (triple_try _ _ _ (λ _, building [] "")); [apply Hstep; [apply not_elem_of_nil|apply reach_still]|]. intros _.
  apply (triple_try _ _ _ (λ _, building [] "")); [apply Hstep; [apply not_elem_of_nil|calm]|]. intros proxy.
  apply (triple_try _ _ _ (λ present, building [Ran ["test"; "-d"; dir] present] "")).
  { unfold proxyDirExists. apply (triple_then _ _ _ (λ a, building [Ran ["test"; "-d"; dir] (match a with inr (code, _) => code =? 0 | inl _ => false end)] "")).
    - apply (triple_perform (answer := answer_of) world _ (CExec proxy ["test"; "-d"; dir])). intros s a H. apply (building_deed _ _ s); [done|by apply other_exec|by intros []|done].
    - intros [err|[code out]]; apply triple_ret; [|done]. intros s H. eexists _, _. split; [exact H|]. apply tidy_none, Hn. }
  intros present. set (L0 := building [Ran ["test"; "-d"; dir] present] "").
  apply (triple_try _ _ _ (λ _, L0)); [apply Hstep; [apply Hn|unfold upload_there, narrate; calm]|]. intros _.
  apply (triple_then _ _ _ (λ _, L0)); [apply still_triple; [calm|done]|]. intros _.
  apply (triple_try _ _ _ (λ _, L0)); [apply Hstep; [apply Hn|calm]|]. intros _.
  apply (triple_try _ _ _ (λ _, building (if present then [Ran ["test"; "-d"; dir] true] else copied_log dir) (if present then "" else part))).
  { destruct present; [by apply triple_ret|apply extract_copies]. }
  intros _. assert (tidy (if present then [Ran ["test"; "-d"; dir] true] else copied_log dir) (if present then "" else part)) as Ht.
  { destruct present; [apply tidy_none, Hn|by left]. }
  set (l1 := if present then [Ran ["test"; "-d"; dir] true] else copied_log dir) in *. set (p1 := if present then "" else part) in *.
  apply (triple_try _ _ _ (λ _, building l1 p1)); [apply still_or_failed; [calm|exact Ht]|]. intros _.
  apply (triple_then _ _ _ (λ x s, building l1 p1 s ∧ x = p1)).
  { apply triple_get. intros s H. split; [exact H|apply (b_part _ _ _ H)]. }
  intros x s0 [H0 ->]. revert s0 H0.
  replace (if present then dir else p1) with (if present then dir else part) by by destruct present.
  apply (triple_try _ _ _ (λ _, building (pages (if present then dir else part) fallback ++ l1)%list p1)); [apply pages_found, Ht|]. intros _.
  apply (triple_try _ _ _ (λ _, placed)).
  { pose proof (move_places proxy present) as Hm. destruct present; exact Hm. }
  intros _. apply (triple_then _ _ _ (λ _, placed)).
  { intros s (l & H & Hl). exists l. split; [|done]. refine (still_triple l "" _ (λ _, building l "") _ _ s H); [unfold narrate; calm|done]. }
  intros _. apply (triple_try _ _ _ (λ _, placed)); [apply placed_still, reach_still|]. intros _. by apply triple_ret.
Qed.

(** ** After the commit *)

Definition sold (s : St) : Prop := safe fits_static s.2 ∧ activated s.2 ∧ ∃ st, d s.1 = set_status dep st.
Definition late (e : happened) : Prop :=
  match what e with CRouteVia _ | CActivate _ | CExec _ _ | CCreateContainer _ _ | CStart _ => False | _ => True end.

Lemma sold_step (s : St) e : sold s → fits_static s.2 e → sold (s.1, e :: s.2).
Proof. intros (H1 & H2 & H3) Hf. split_and!; [done| |done]. by apply Exists_cons_tl. Qed.
Lemma late_fits e tr : late e → activated tr → fits_static tr e.
Proof. destruct e as [c a]. unfold late, fits_static. by destruct c. Qed.
Lemma sold_stays s s' evs : sold s → same_part s.1 s' → Forall late evs → sold (s', (evs ++ s.2)%list).
Proof.
  intros (H1 & H2 & [st H3]) [[st' E] _] Hq. assert (safe fits_static (evs ++ s.2) ∧ activated (evs ++ s.2)) as [? ?].
  { clear -Hq H1 H2. induction Hq as [|e evs He _ [IH1 IH2]]; simpl; [done|]. split; [split; [by apply late_fits|done]|by apply Exists_cons_tl]. }
  split_and!; [done|done|]. exists st'. simpl. rewrite E, H3. done.
Qed.
Lemma late_triple {A} (m : M A) : calm same_part late m → triple sold m (λ _, sold).
Proof. intros Hm. eapply triple_calm; [exact Hm|apply sold_stays|done]. Qed.

Lemma retire_late i t : calm same_part late (retireContainer world i t).
Proof. unfold retireContainer, removeContainer. calm. Qed.
Lemma others_late i l : calm same_part late (others world i l).
Proof. induction l as [|c l IH]; cbn [others]; calm. Qed.
Lemma retireOthers_late : calm same_part late (retireOthers world StopTimeout).
Proof. pose proof retire_late. pose proof others_late. unfold retireOthers, retire_other, narrate. calm. Qed.

Lemma exec_sold proxy cmd (P : trace → Prop) : (∀ tr a, activated tr → P tr → fits_static tr (mk_happened (CExec proxy cmd) a)) →
  (∀ tr e, P tr → P (e :: tr)) → triple (λ s, sold s ∧ P s.2) (proxyExec world proxy cmd) (λ _ s, sold s ∧ P s.2).
Proof.
  intros Hf HP. unfold proxyExec. apply (triple_then _ _ _ (λ _ s, sold s ∧ P s.2)).
  - apply (triple_perform (answer := answer_of) world _ (CExec proxy cmd)). intros s a [H1 H2]. split; [|by apply HP].
    apply sold_step; [done|]. apply Hf; [apply H1|done].
  - intros [err|[code out]]; [by apply triple_ret|]. destruct (code =? 0); by apply triple_ret.
Qed.

Lemma retireStaticDirs_sold proxy : triple sold (retireStaticDirs world dep proxy) (λ _, sold).
Proof.
  unfold retireStaticDirs. set (app := d_Application dep).
  apply (triple_then _ _ _ (λ a s, sold s ∧ mk_happened (CListSuperseded app) a ∈ s.2)).
  { apply (triple_perform (answer := answer_of) world _ (CListSuperseded app)). intros s a H. split; [by apply sold_step|by left]. }
  intros [err|sup]. { eapply triple_conseq; [apply (late_triple (narrate world _)); unfold narrate; calm|by intros s [? _]|done]. }
  set (P := λ tr : trace, mk_happened (CListSuperseded app) (inr sup) ∈ tr).
  assert (∀ tr e, P tr → P (e :: tr)) as HP by (intros tr e H; by right).
  apply (triple_then _ _ _ (λ _ s, sold s ∧ P s.2)).
  { apply (triple_perform (answer := answer_of) world _ (CExec proxy ["ls"; "-1"; under_root [app]])). intros s a [H1 H2]. split; [|by apply HP]. apply sold_step; [done|by apply other_exec]. }
  assert (∀ m, triple (λ s, sold s ∧ P s.2) (narrate world m) (λ _ s, sold s ∧ P s.2)) as Hnar.
  { intros m. apply triple_perform. intros s a [H1 H2]. split; [by apply sold_step|by apply HP]. }
  intros [err|[code out]]; [eapply triple_conseq; [apply Hnar|done|by intros ? s [? _]]|].
  destruct (negb _); [eapply triple_conseq; [apply Hnar|done|by intros ? s [? _]]|].
  apply (triple_then _ _ _ (λ _ s, sold s ∧ P s.2)).
  - apply (triple_loop (answer := answer_of)). intros name (line & _ & Hl)%list_elem_of_omap.
    apply (triple_then _ _ _ (λ _ s, sold s ∧ P s.2)); [|intros [e|[]]; [apply Hnar|by apply triple_ret]].
    apply exec_sold; [|done]. intros tr a Ha HPtr. apply removing. right. split; [done|]. exists sup. split; [done|]. left. by exists line, name.
  - intros u. case_bool_decide as Hk; [|apply triple_ret; by intros s [? _]].
    eapply triple_then; [apply exec_sold; [|done]|by intros [?|?]; apply triple_ret; intros s [? _]].
    intros tr a Ha HPtr. apply removing. right. split; [done|]. exists sup. split; [done|]. by right.
Qed.

Lemma publish_sells proxy : triple placed (publish_folder world StopTimeout dep dir proxy) (λ r s, match r with inl _ => failed s | inr _ => sold s end).
Proof.
  unfold publish_folder. assert (∀ s, placed s → failed s) as Hpf by (intros s (l & H & Hl); exists l, ""; split; [done|by apply final_tidy]).
  apply (triple_then _ _ _ (λ _, placed)); [by apply triple_get|]. intros x. destruct (negb _); [by apply triple_ret|].
  apply (triple_then _ _ _ (λ _ s, placed s ∧ ∃ o rest, s.2 = (mk_happened (CRouteVia o) tt :: rest)%list)).
  { set (o := mk_override _ _ _ _). apply (triple_perform (answer := answer_of) world _ (CRouteVia o)). intros s [] (l & H & Hl). split; [|by exists o, s.2].
    exists l. split; [|done]. apply building_step; [done| |by intros []|done]. split; [done|]. by rewrite (b_deeds _ _ _ H). }
  intros _. apply (triple_then _ _ _ (λ a s, placed s ∧ ∃ o rest, s.2 = (mk_happened CSyncProxy a :: mk_happened (CRouteVia o) tt :: rest)%list)).
  { apply (triple_perform (answer := answer_of) world _ CSyncProxy). intros s a ((l & H & Hl) & o & rest & E). split; [|exists o, rest; by rewrite E].
    exists l. split; [|done]. apply building_step; [done|done|by intros []|done]. }
  intros [err|]; [apply triple_ret; intros s [? _]; by apply Hpf|].
  apply (triple_then _ _ _ (λ _ s, placed s ∧ ∃ o rest, s.2 = (mk_happened CAnnounce tt :: mk_happened CSyncProxy None :: mk_happened (CRouteVia o) tt :: rest)%list)).
  { apply (triple_perform (answer := answer_of) world _ CAnnounce). intros s [] ((l & H & Hl) & o & rest & E). split; [|exists o, rest; by rewrite E].
    exists l. split; [|done]. apply building_step; [done|done|by intros []|done]. }
  intros _. apply (triple_try _ _ _ (λ _, sold)).
  { apply (triple_perform (answer := answer_of) world _ (CActivate (d_ID dep))). intros s a ((l & H & Hl) & Hhead).
    assert (fits_static s.2 (mk_happened (CActivate (d_ID dep)) a)) as Hf by (split; [done|exact Hhead]).
    destruct a as [err|p].
    - apply Hpf. exists l. split; [|done]. apply building_step; [done|exact Hf|by intros [? ?]|done].
    - split_and!; [split; [exact Hf|apply (b_safe _ _ _ H)]|left; simpl; by eexists|apply (b_dep _ _ _ H)]. }
  intros p. apply (triple_then _ _ _ (λ _, sold)); [apply triple_set; intros s (H1 & H2 & [st Est]); split_and!; [done|done|]; exists StatusActive; simpl; by rewrite Est|].
  intros _. do 2 (apply (triple_then _ _ _ (λ _, sold)); [apply late_triple; unfold narrate; calm|]; intros _).
  apply (triple_then _ _ _ (λ _, sold)); [apply late_triple, retireOthers_late|]. intros _.
  apply (triple_then _ _ _ (λ _, sold)); [apply late_triple; calm|]. intros _.
  apply (triple_then _ _ _ (λ _, sold)); [apply retireStaticDirs_sold|]. intros _.
  apply (triple_then _ _ _ (λ _, sold)); [apply late_triple; unfold narrate; calm|]. intros _. by apply triple_ret.
Qed.

(** ** What is left of a failure *)

Definition cleaned (s : St) : Prop :=
  safe fits_static s.2 ∧ ¬ activated s.2 ∧
  (Ran ["mkdir"; "-p"; part] true ∈ deeds s.2 →
     Ran ["mv"; part; dir] true ∈ deeds s.2 ∨ (∃ b rest, deeds s.2 = (Ran ["rm"; "-rf"; part] b :: rest)%list) ∨
     ∃ e rest, s.2 = (mk_happened CProxyContainer (inl e) :: rest)%list).

Lemma executeStatic_ends : triple (building [] "") (executeStatic world StopTimeout) (λ r s, match r with inl _ => cleaned s | inr _ => sold s end).
Proof.
  unfold executeStatic. apply (triple_then _ _ _ (λ r s, match r with inl _ => failed s | inr _ => sold s end)).
  { unfold serveStatic. intros s H. destruct (b_dep _ _ _ H) as [st Est]. rewrite then_get, Est.
    change (d_Application (set_status dep st)) with (d_Application dep). change (d_StaticDigest (set_status dep st)) with (d_StaticDigest dep).
    rewrite try_eq. pose proof (place_places s H) as Hp.
    change (place_folder world (set_status dep st) dir) with (place_folder world dep dir).
    destruct (place_folder world dep dir s) as [[e|proxy] s1]; cbn [fst snd] in *; [exact Hp|].
    change (publish_folder world StopTimeout (set_status dep st) dir proxy) with (publish_folder world StopTimeout dep dir proxy).
    exact (publish_sells proxy s1 Hp). }
  intros [e|u]; [|by apply triple_ret]. intros s (l & p & H & Ht). rewrite then_get, (b_part _ _ _ H).
  destruct (String.eqb_spec p "") as [->|Hp].
  - split_and!; [apply (b_safe _ _ _ H)|apply (b_not _ _ _ H)|]. cbn [snd mret]. rewrite (b_deeds _ _ _ H). intros Hin. left.
    destruct Ht as [Ht|[_ Ht]]; [|by apply Ht]. exfalso. destruct (staticDir (d_Application dep) (d_StaticDigest dep)); discriminate Ht.
  - destruct Ht as [->|[? _]]; [|done]. rewrite then_perform. set (a := world s.2 CProxyContainer).
    assert (building l part (s.1, mk_happened CProxyContainer a :: s.2)) as H1 by (apply building_step; [done|exact I|by intros []|done]).
    clearbody a. cbn [answer_of] in a. destruct a as [err|proxy].
    + split_and!; [apply (b_safe _ _ _ H1)|apply (b_not _ _ _ H1)|]. intros _. right. right. by exists err, s.2.
    + rewrite then_eq. pose proof (exec_building l part proxy ["rm"; "-rf"; part] ltac:(intros tr px a _; apply removing; by left) _ H1) as H2.
      destruct (proxyExec world proxy ["rm"; "-rf"; part] _) as [r s2]. cbn [fst snd mret] in *.
      split_and!; [apply (b_safe _ _ _ H2)|apply (b_not _ _ _ H2)|]. intros _. right. left. rewrite (b_deeds _ _ _ H2). by eexists _, _.
Qed.
End Programs.
End Safe.

(** ** The property *)

Lemma cut_suffix_append p s b : cut_suffix p s = Some b → s = b ++ p.
Proof.
  revert b. induction s as [|c s IH]; intros b; cbn [cut_suffix].
  - destruct (String.eqb_spec "" p) as [<-|]; [by intros [= <-]|done].
  - destruct (String.eqb_spec (String c s) p) as [<-|]; [by intros [= <-]|].
    destruct (cut_suffix p s) as [b'|]; [|done]. intros [= <-]. simpl. f_equal. by apply IH.
Qed.

(** What the sweep removes: a folder this agent made that is not kept, or what
    a crash left half extracted. *)
Lemma leftover_folder_spec keep line name : leftover_folder keep line = Some name →
  (isHexDigest name = true ∧ (name ∉ keep)) ∨ ∃ whole, name = whole ++ ".part" ∧ isHexDigest whole = true.
Proof.
  unfold leftover_folder, CutSuffix. destruct (cut_suffix ".part" (trim_space line)) as [b|] eqn:E.
  - destruct (isHexDigest b) eqn:Eh; simpl; [|done]. rewrite andb_false_r. intros [= <-]. right. exists b. split; [by apply cut_suffix_append|done].
  - destruct (isHexDigest (trim_space line)) eqn:Eh; simpl; [|done]. destruct (contains keep (trim_space line)) eqn:Ec; simpl; [done|]. intros [= <-].
    left. split; [done|]. intros Hin. apply contains_spec in Hin. congruence.
Qed.

Lemma kept_folders_spec digest superseded : digest ≠ "" →
  kept_folders digest superseded = digest_dir digest :: option_list ((λ s, digest_dir (d_StaticDigest s)) <$>
    List.find (λ s, negb (String.eqb (d_StaticDigest s) "") && negb (String.eqb (d_StaticDigest s) digest)) superseded).
Proof.
  intros Hd. unfold kept_folders. destruct (String.eqb_spec digest ""); [done|]. simpl. do 2 f_equal.
  induction superseded as [|s l IH]; [done|]. cbn [kept_folder List.find]. destruct (_ && _); [done|]. destruct (String.eqb_spec digest ""); done.
Qed.

(** C23: the rollout of a folder, whatever the proxy, the database and Docker
    answer. The domain is routed to the folder's place, and only when the folder
    was found there with its pages, or was copied next to it, found with its
    pages and moved; the deployment is committed only once the proxy has taken
    that route; and nothing of an earlier version is stopped or removed before
    the commit. The only folder removed without a commit is the unfinished copy;
    after it, the folders of other versions go, but neither this one nor the one
    the most recent predecessor served. A rollout that fails has not committed,
    and has removed the unfinished copy, or found no proxy to remove it from. *)
Theorem folder_routed_when_whole (world : trace → ∀ c, answer_of c) (StopTimeout : Z) (r : rollout) :
  staticPart r = "" → d_StaticDigest (d r) ≠ "" →
  let app := d_Application (d r) in let digest := d_StaticDigest (d r) in
  let dir := staticDir app digest in let part := (dir ++ ".part")%string in let page := fallback_of (d_Spec (d r)) in
  let '(res, s) := executeStatic world StopTimeout (r, []) in
  (∀ tr e rest, s.2 = (tr ++ e :: rest)%list →
    match what e with
    | CRouteVia o => o = mk_override (hostnamesOf (d_Spec (d r))) [] 0 (Some dir) ∧
        (deeds rest = (pages dir page ++ [Ran ["test"; "-d"; dir] true])%list ∨
         deeds rest = (Ran ["mv"; part; dir] true :: pages part page ++
           [Copied part true; Ran ["mkdir"; "-p"; part] true; Ran ["rm"; "-rf"; part] true; Ran ["test"; "-d"; dir] false])%list)
    | CActivate i => i = d_ID (d r) ∧
        ∃ o before, rest = (mk_happened CAnnounce tt :: mk_happened CSyncProxy None :: mk_happened (CRouteVia o) tt :: before)%list
    | CClearRoute | CStop _ _ | CRemove _ | CRetireInBackground _ _ => activated rest
    | CExec _ cmd =>
        (∀ a b, cmd = ["mv"; a; b] → a = part ∧ b = dir) ∧
        (∀ x, cmd = ["rm"; "-rf"; x] → x = part ∨ activated rest ∧ ∃ superseded name, mk_happened (CListSuperseded app) (inr superseded) ∈ rest ∧ x = under_root [app; name] ∧
          ((∃ whole, name = whole ++ ".part" ∧ isHexDigest whole = true) ∨
           (isHexDigest name = true ∧ name ≠ digest_dir digest ∧
            ∀ prev, List.find (λ s, negb (String.eqb (d_StaticDigest s) "") && negb (String.eqb (d_StaticDigest s) digest)) superseded = Some prev →
              name ≠ digest_dir (d_StaticDigest prev))))
    | CCreateContainer _ _ | CStart _ => False
    | _ => True
    end) ∧
  match res with
  | inr _ => activated s.2
  | inl _ => ¬ activated s.2 ∧ (Ran ["mkdir"; "-p"; part] true ∈ deeds s.2 →
      Ran ["mv"; part; dir] true ∈ deeds s.2 ∨ (∃ b rest, deeds s.2 = (Ran ["rm"; "-rf"; part] b :: rest)%list) ∨
      ∃ e rest, s.2 = (mk_happened CProxyContainer (inl e) :: rest)%list)
  end.
Proof.
  intros Hp Hd app digest dir part page.
  assert (building (d r) [] "" (r, [])) as Hb.
  { split; [done| |by intros ?%Exists_nil|done|done]. exists (d_Status (d r)). simpl. by destruct (d r). }
  pose proof (executeStatic_ends (d r) world StopTimeout (r, []) Hb) as H.
  destruct (executeStatic world StopTimeout (r, [])) as [res s]. cbn [fst snd] in H.
  assert (safe (fits_static (d r)) s.2) as Hs by (by destruct res; destruct H).
  split; [|destruct res; [by destruct H as (_ & ? & ?)|by destruct H as (_ & ? & _)]].
  intros tr e rest Ht. rewrite Ht in Hs. clear H Ht. induction tr as [|x tr IH]; [|by destruct Hs as [_ Hs]; apply IH].
  destruct Hs as [Hf _]. unfold fits_static in Hf. destruct (what e); try exact Hf; try exact I.
  destruct Hf as [Hrm Hmv]. split; [intros a b E; by destruct (Hmv a b E) as (? & ? & _)|].
  intros x E. destruct (Hrm x E) as [?|[Ha (sup & Hin & [(line & name & Hl & Hx)|[Hk _]])]]; [by left| |].
  - right. split; [done|]. exists sup, name. split_and!; [done|done|]. apply leftover_folder_spec in Hl as [[Hh Hn]|Hw]; [right|by left].
    rewrite kept_folders_spec in Hn by done. apply not_elem_of_cons in Hn as [Hn1 Hn2]. split_and!; [done|done|].
    intros prev Hprev ->. apply Hn2. fold digest. rewrite Hprev. by left.
  - rewrite kept_folders_spec in Hk by done. discriminate Hk.
Qed.

Module FolderWitness.
Definition site : App := mk_app "docs" "" 0 "docs.example.com" [] [] 1 ∅ None (mk_resources (GoFloat.mk_float 0 0) 0) [] [] [] []
  "" None [] None None (Some (mk_static "dist" "404.html")) "" None None "always" "rolling" 0 false None.
Definition dep : Deployment := mk_deployment 3 1 "docs" 3 "v3" "" site StatusPending "" 0 None KindDeploy None "" "sha256:beef" 7 4096 no_references.
(** The proxy does not have the folder. *)
Definition world (t : trace) (c : call) : answer_of c :=
  match c with
  | CExec _ ["test"; "-d"; _] => inr (1, "")
  | c => RollingWitness.world t c
  end.
End FolderWitness.

Lemma folder_routed_when_whole_witness :
  let out := executeStatic FolderWitness.world 10 (newRollout FolderWitness.dep, []) in
  out.1 = inr tt ∧ activated out.2.2 ∧ Ran ["mv"; "/srv/shipwick/docs/beef.part"; "/srv/shipwick/docs/beef"] true ∈ deeds out.2.2.
Proof.
  pose proof (folder_routed_when_whole FolderWitness.world 10 (newRollout FolderWitness.dep) eq_refl ltac:(discriminate)) as H.
  destruct (executeStatic FolderWitness.world 10 (newRollout FolderWitness.dep, [])) as [res s] eqn:E.
  assert (res = inr tt) as Hr by (vm_compute in E; injection E as <- _; reflexivity).
  cbn [fst snd]. split; [exact Hr|]. destruct H as [_ H]. rewrite Hr in H. split; [exact H|].
  vm_compute in E. injection E as _ <-. vm_compute. repeat (first [left; reflexivity|right]).
Defined.
