(* ===== verification/Settle.v ===== *)
(** * Ends that could not be written (agent/internal/deploy/settle.go)

    A deployment ends with two writes, and the database may refuse either. The
    state is the database (Store.v) and the ends kept in memory; a call is one
    statement, and what it answers is what others have done before it, how the
    database takes it and the time. Others are the goroutines that settle their
    own deployments and everything else the agent writes meanwhile. *)

From S2P Require Import Prelude GoStrings Effects GoTime SpecTypes Crypto DeployState Store.
From Stdlib Require Import String.
Local Open Scope string_scope.
Local Open Scope Z_scope.

(** [u_d]'s status is what the database still holds. *)
Record unsettled := mk_unsettled { u_d : Deployment; u_failure : string }.
Definition endNotRecorded := "the deployment ended, and the database could not be written at the time to say how".

(** string(status) (pkg/api/types.go). *)
Definition status_string (s : DeploymentStatus) : string :=
  match s with
  | StatusPending => "PENDING" | StatusBuilding => "BUILDING" | StatusStarting => "STARTING"
  | StatusHealthChecking => "HEALTH_CHECKING" | StatusHealthy => "HEALTHY" | StatusActive => "ACTIVE"
  | StatusSuperseded => "SUPERSEDED" | StatusFailed => "FAILED" | StatusRollback => "ROLLBACK"
  | StatusRestoring => "RESTORING" | StatusRolledBack => "ROLLED_BACK"
  end.

Definition at_status (d : Deployment) (s : DeploymentStatus) : Deployment :=
  mk_deployment (d_ID d) (d_ApplicationID d) (d_Application d) (d_Sequence d) (d_Version d) (d_Image d) (d_Spec d) s (d_Error d)
    (d_StartedAt d) (d_CompletedAt d) (d_Kind d) (d_SourceID d) (d_Actor d)
    (d_StaticDigest d) (d_StaticFiles d) (d_StaticBytes d) (d_References d).
Definition u_id (u : unsettled) : Z := d_ID (u_d u).
Definition u_at (u : unsettled) (s : DeploymentStatus) : unsettled := mk_unsettled (at_status (u_d u) s) (u_failure u).

Record sys := mk_sys { s_db : DB; s_unsettled : list unsettled }.
Definition set_db (db : DB) s := mk_sys db (s_unsettled s).
Definition set_unsettled f s := mk_sys (s_db s) (f (s_unsettled s)).

(** A statement that is refused changes nothing; one that is only reported as
    refused has done its work. *)
Inductive fate := Taken | Refused | Reported.
Inductive scall := STransition (id : Z) | SEvent (id : Z) | SGet (id : Z) | SComplete (id : Z).
Record weather := mk_weather { before : sys → sys; how : fate; now : Time }.
Definition sanswer (_ : scall) : Type := weather.
Abbreviation SM := (Effects.M sys sanswer).
Definition refusal : store_error := ErrOther [L "database or disk is full"].

Section Settle.
Variable aead : option AEAD.
Variable world : list (Effects.happened sanswer) → ∀ c, sanswer c.

(** One statement: what it answers, and the database it leaves. *)
Definition statement {A} (c : scall) (sql : Time → DB → store_error + (DB * A)) : SM (store_error + A) :=
  let! w := Effects.perform world c in
  let! _ := mset (before w) in
  let! db := mget s_db in
  let r := sql (now w) db in
  let! _ := match how w, r with
            | (Taken | Reported), inr (db', _) => mset (set_db db')
            | _, _ => mret tt
            end in
  mret (match how w, r with
        | Taken, inr (_, a) => inr a
        | Taken, inl e => inl e
        | _, _ => inl refusal
        end).

(** A write that answers nothing. *)
Definition wrote (r : store_error + DB) : store_error + (DB * unit) :=
  match r with inl e => inl e | inr db => inr (db, tt) end.

(** transitionWithError (engine.go), with the event, whose failure is logged. *)
Definition transitionWithError (d : Deployment) (to : DeploymentStatus) (errMsg : string) : SM (store_error + Deployment) :=
  if negb (CanTransition (d_Status d) to) then mret (inl (ErrOther [L "illegal state transition"])) else
  let! r := statement (STransition (d_ID d)) (λ _ db, wrote (TransitionDeployment db (d_ID d) (d_Status d) to errMsg)) in
  match r with
  | inl e => mret (inl e)
  | inr _ =>
      let '(level, msg) := if bool_decide (to = StatusFailed) then ("error", status_string to ++ ": " ++ errMsg) else ("info", status_string to) in
      let! _ := statement (SEvent (d_ID d)) (λ now db, wrote (AddEvent db (d_ApplicationID d) (Some (d_ID d)) level "state" msg now)) in
      mret (inr (at_status d to))
  end.

(** What is missing of an end: the status unless the database has settled it,
    then the completion time. *)
Definition writeEnd (u : unsettled) : SM (option store_error * unsettled) :=
  let! p :=
    if IsSettled (d_Status (u_d u)) then mret (None, u) else
    let msg := if String.eqb (u_failure u) "" then endNotRecorded else u_failure u in
    let! r := transitionWithError (u_d u) StatusFailed msg in
    match r with
    | inr d => mret (None, mk_unsettled d (u_failure u))
    | inl ErrConflict =>
        let! current := statement (SGet (u_id u)) (λ _ db, match GetDeployment aead db (u_id u) with inl e => inl e | inr c => inr (db, c) end) in
        mret match current with
             | inl rerr => (Some rerr, u)
             | inr c => (if IsSettled (d_Status c) then None else Some ErrConflict, u_at u (d_Status c))
             end
    | inl e => mret (Some e, u)
    end in
  match p.1 with
  | Some e => mret p
  | None =>
      let! r := statement (SComplete (u_id u)) (λ now db, inr (CompleteDeployment db (u_id u) now, tt)) in
      mret (match r with inl e => Some e | inr _ => None end, p.2)
  end.

(** The end of a rollout: written, or kept for retrySettling. *)
Definition settle (d : Deployment) (failure : string) : SM unit :=
  let! r := writeEnd (mk_unsettled d failure) in
  match r with
  | (None, _) => mret tt
  | (Some _, u) => mset (set_unsettled (λ l, l ++ [u])%list)
  end.

(** One pass over the ends that were kept: what is still not written. *)
Fixpoint retry_each (pending : list unsettled) : SM (list unsettled) :=
  match pending with
  | [] => mret []
  | u :: rest =>
      let! r := writeEnd u in
      let! still := retry_each rest in
      mret (match r with (Some _, u) => u :: still | (None, _) => still end)
  end.

Definition retrySettling : SM unit :=
  let! pending := mget s_unsettled in
  let! _ := mset (set_unsettled (λ _, [])) in
  if bool_decide (pending = []) then mret tt else
  let! still := retry_each pending in
  match still with
  | [] => mret tt
  | _ => mset (set_unsettled (λ l, still ++ l)%list)
  end.
End Settle.
