(* ===== verification/SettleInv.v ===== *)
(** * Ends that could not be written: what is proved (settle.go) *)

From S2P Require Import Prelude GoStrings Effects GoTime SpecTypes SpecReferences Crypto DeployState Store StoreInv Settle.
From Stdlib Require Import String.
Local Open Scope Z_scope.

(** ** What writing an end does to the database *)

Section Writes.
Context (aead : option AEAD) (world : list (Effects.happened sanswer) → ∀ c, sanswer c).

Inductive own_write (id : Z) (db : DB) : DB → Prop :=
  | own_fails from msg db' : CanTransition from StatusFailed = true → TransitionDeployment db id from StatusFailed msg = inr db' → own_write id db db'
  | own_event app level typ msg now db' : AddEvent db app (Some id) level typ msg now = inr db' → own_write id db db'
  | own_completes now : own_write id db (CompleteDeployment db id now).

Lemma statement_at {A} c (sql : Time → DB → store_error + (DB * A)) s :
  let w := world s.2 c in let s1 := before w s.1 in let h := mk_happened (answer := sanswer) c w :: s.2 in
  statement world c sql s =
    match sql (now w) (s_db s1) with
    | inr (db', a) => match how w with
                      | Taken => (inr a, (set_db db' s1, h)) | Refused => (inl refusal, (s1, h)) | Reported => (inl refusal, (set_db db' s1, h))
                      end
    | inl e => (match how w with Taken => inl e | _ => inl refusal end, (s1, h))
    end.
Proof.
  cbv zeta. unfold statement. rewrite then_perform, then_set, then_get, then_eq. cbn [fst snd].
  by destruct (how _), (sql _ _) as [|[? ?]].
Qed.

(** A relation that the others and the writes of one end respect is respected
    by whoever writes that end. *)
Section Respects.
Context (R : sys → sys → Prop) `{!PreOrder R}.
Hypothesis others : ∀ h c s, R s (before (world h c) s).
Local Abbreviation quiet m := (Effects.calm R (λ _, True) m).

Lemma statement_quiet {A} c (sql : Time → DB → store_error + (DB * A)) :
  (∀ now s db' a, sql now (s_db s) = inr (db', a) → R s (set_db db' s)) → quiet (statement world c sql).
Proof.
  intros Hsql s. rewrite statement_at. set (w := world s.2 c). cbv zeta.
  split; [|exists [mk_happened (answer := sanswer) c w]; split; [|by constructor]; by destruct (sql _ _) as [|[? ?]], (how w)].
  etrans; [apply (others s.2 c)|]. fold w. destruct (sql (now w) _) as [|[db' a]] eqn:E; [done|].
  apply Hsql in E. by destruct (how w).
Qed.

Section One.
Context (id : Z).
Hypothesis own : ∀ s db', own_write id (s_db s) db' → R s (set_db db' s).

Lemma wrote_quiet c (sql : Time → DB → store_error + DB) :
  (∀ now db db', sql now db = inr db' → own_write id db db') → quiet (statement world c (λ now db, wrote (sql now db))).
Proof.
  intros H. apply statement_quiet. intros now s db' a. unfold wrote. destruct (sql now (s_db s)) eqn:E; [done|].
  intros [= <- _]. by eapply own, H.
Qed.

Lemma transition_quiet d msg : d_ID d = id → quiet (transitionWithError world d StatusFailed msg).
Proof.
  intros Hd. unfold transitionWithError. destruct (CanTransition _ _) eqn:Ec; cbn [negb]; [|calm]. rewrite bool_decide_eq_true_2 by done.
  apply calm_then; [exact _| |intros [e|[]]; [calm|apply calm_then; [exact _| |calm]]]; rewrite Hd; apply wrote_quiet.
  - intros ? db db' E. by eapply own_fails.
  - intros ? db db' E. by eapply own_event.
Qed.

Lemma writeEnd_quiet u : u_id u = id → quiet (writeEnd aead world u).
Proof.
  intros Hu. unfold writeEnd. apply calm_then; [exact _| |].
  - destruct (IsSettled _); [calm|]. apply calm_then; [exact _|by apply transition_quiet|].
    intros [[| | |]|]; [calm| |calm..]. apply calm_then; [exact _| |calm].
    apply statement_quiet. intros ? [db l] db' a. destruct (GetDeployment _ _ _); [done|]. by intros [= <- _].
  - intros [[e|] u']; cbn [fst snd]; [calm|]. apply calm_then; [exact _| |calm].
    apply statement_quiet. intros ? s db' a [= <- _]. rewrite Hu. apply own, own_completes.
Qed.
End One.

Lemma retry_each_quiet l : (∀ u s db', u ∈ l → own_write (u_id u) (s_db s) db' → R s (set_db db' s)) → quiet (retry_each aead world l).
Proof.
  induction l as [|u l IH]; intros Hown; simpl; [calm|]. apply calm_then; [exact _| |].
  - apply (writeEnd_quiet (u_id u)); [|done]. intros s db'. apply Hown. by left.
  - intros [e u']. apply calm_then; [exact _| |intros still; destruct e; calm]. apply IH. intros v s db' Hv. apply Hown. by right.
Qed.
End Respects.

(** ** An end that is written *)

Definition completed (id : Z) (db : DB) : Prop := ∀ w, w ∈ deployments db → w_id w = id → w_completed_at w ≠ None.

Lemma complete_completed db id t : completed id (CompleteDeployment db id t).
Proof.
  intros w (v & Hv & ->)%elem_of_update Hi. unfold unfinished. destruct (v.(w_id) =? id) eqn:E; simpl in *.
  - case_bool_decide as Ec; [done|]. exact Ec.
  - rewrite Z.eqb_neq in E. done.
Qed.

Lemma transition_answers d to msg s d' s' : transitionWithError world d to msg s = (inr d', s') → d' = at_status d to.
Proof.
  unfold transitionWithError. destruct (negb _); [done|]. intros (r & s1 & _ & H)%then_step. destruct r; [done|].
  destruct (bool_decide _); apply then_step in H as (? & ? & _ & [= <- _]); done.
Qed.

Definition same_end (u u' : unsettled) : Prop := u_id u' = u_id u ∧ u_failure u' = u_failure u.

(** Whatever the database answered, the end is the same end; and when nothing
    went wrong it is complete. *)
Lemma writeEnd_answers u s e u' s' : writeEnd aead world u s = ((e, u'), s') →
  same_end u u' ∧ (e = None → completed (u_id u) (s_db s'.1)).
Proof.
  unfold writeEnd. intros ([e1 u1] & s1 & H1 & H2)%then_step. cbn [fst snd] in H2.
  assert (same_end u u1) as [Hi Hf].
  { destruct (IsSettled _); [by injection H1 as <- <- <-|]. apply then_step in H1 as (r & s2 & E & H1).
    destruct r as [[| | |]|d]; try (by injection H1 as <- <- <-).
    - apply then_step in H1 as ([?|c] & s3 & _ & [= <- <- _]); done.
    - apply transition_answers in E as ->. by injection H1 as <- <- <-. }
  destruct e1 as [e1|]; [by injection H2 as <- <- <-|].
  apply then_step in H2 as (r & s2 & E & [= <- <- <-]). split; [done|]. intros He.
  rewrite statement_at in E. cbv zeta in E. destruct (how _); injection E as <- <-; try discriminate He. apply complete_completed.
Qed.
End Writes.

(** ** Nothing is lost *)

Section Safe.
Context (aead : option AEAD) (nonce : string → result string) (Marshal : References → string).
Context (world : list (Effects.happened sanswer) → ∀ c, sanswer c).
Local Abbreviation store_step := (store_step aead nonce Marshal).

(** The database goes on by statements of the agent, and ends are only added. *)
Record follows (s s' : sys) : Prop := {
  follows_db : rtc store_step (s_db s) (s_db s');
  follows_kept : ∃ more, s_unsettled s' = (s_unsettled s ++ more)%list }.
#[export] Instance follows_preorder : PreOrder follows.
Proof.
  split.
  - intros s. split; [done|]. exists []. by rewrite app_nil_r.
  - intros s t u [H1 [m1 E1]] [H2 [m2 E2]]. split; [by etrans|]. exists (m1 ++ m2)%list. by rewrite E2, E1, app_assoc.
Qed.

Lemma follows_own id s db' : own_write id (s_db s) db' → follows s (set_db db' s).
Proof.
  intros H. split; [|exists []; by rewrite app_nil_r]. apply rtc_once. destruct H.
  - by eapply step_transition.
  - by eapply step_event.
  - apply step_complete.
Qed.

Lemma completed_stays id db db' : rtc store_step db db' → wf db → id ≤ last_deployment db → completed id db → completed id db'.
Proof.
  intros Hp Hwf Hid Hc w' Hw' Ei. destruct (path_rows aead nonce Marshal db db' Hp Hwf) as (_ & _ & Hr).
  destruct (Hr w' Hw') as [?|(w & Hw & Hk)]; [lia|]. specialize (Hc w Hw). rewrite (kept_id _ _ Hk) in Ei.
  rewrite (kept_completed _ _ Hk) by auto. auto.
Qed.

Hypothesis others : ∀ h c s, follows s (before (world h c) s).

Lemma writeEnd_follows u s : follows s.1 (writeEnd aead world u s).2.1.
Proof. apply (writeEnd_quiet aead world follows others (u_id u)); [apply follows_own|done]. Qed.
Lemma retry_each_follows l s : follows s.1 (retry_each aead world l s).2.1.
Proof. apply (retry_each_quiet aead world follows others). intros u t db' _. apply follows_own. Qed.

(** Every end of the pass is written or still there. *)
Lemma retry_keeps l : ∀ s still s', retry_each aead world l s = (still, s') → wf (s_db s.1) →
  Forall (λ u, u_id u ≤ last_deployment (s_db s.1)) l →
  ∀ u, u ∈ l → completed (u_id u) (s_db s'.1) ∨ ∃ u', u' ∈ still ∧ same_end u u'.
Proof.
  induction l as [|u l IH]; intros s still s' H Hwf Hid; [by intros ? ?%elem_of_nil|].
  simpl in H. apply then_step in H as ([e u1] & s1 & H1 & H). apply then_step in H as (rest & s2 & H2 & H).
  pose proof (writeEnd_follows u s) as [F1 _]. rewrite H1 in F1. cbn [fst snd] in F1.
  pose proof (retry_each_follows l s1) as [F2 _]. rewrite H2 in F2. cbn [fst snd] in F2.
  destruct (path_rows aead nonce Marshal _ _ F1 Hwf) as (Hwf1 & Hl1 & _).
  apply writeEnd_answers in H1 as [Hs Hc]. apply Forall_cons in Hid as [Hid1 Hid].
  assert (s2 = s') as -> by (by destruct e; injection H as _ <-).
  intros v [->|Hv]%elem_of_cons.
  - destruct e as [e|].
    + injection H as <-. right. exists u1. split; [by left|done].
    + left. eapply completed_stays; [exact F2|done|lia|auto].
  - destruct (IH s1 rest s' H2 Hwf1) with v as [?|(v' & Hv' & Hsv)]; [|done|by left|].
    + eapply Forall_impl; [exact Hid|]. cbv beta. lia.
    + right. exists v'. split; [|done]. destruct e; injection H as <-; [by right|done].
Qed.
End Safe.

(** ** A database that takes writes *)

Section Live.
Context (aead : option AEAD) (world : list (Effects.happened sanswer) → ∀ c, sanswer c).
Context (id : Z).

Definition mine (w : row) : bool := w_id w =? id.
Definition its_rows (db : DB) : list row := List.filter mine (deployments db).
Definition readable (db : DB) : Prop := ∃ d, GetDeployment aead db id = inr d.

(** What the others leave of one deployment the engine is done with: its row,
    and its end to those who have it. *)
Record leaves_alone (s s' : sys) : Prop := {
  alone_row : its_rows (s_db s') = its_rows (s_db s);
  alone_readable : readable (s_db s) → readable (s_db s');
  alone_kept : ∃ more, s_unsettled s' = (s_unsettled s ++ more)%list ∧ Forall (λ u, u_id u ≠ id) more }.
#[export] Instance alone_preorder : PreOrder leaves_alone.
Proof.
  split.
  - intros s. split; [done..|]. exists []. by rewrite app_nil_r.
  - intros s t u [H1 H1' [m1 [E1 F1]]] [H2 H2' [m2 [E2 F2]]]. split; [by etrans|auto|]. exists (m1 ++ m2)%list.
    rewrite E2, E1, app_assoc. split; [done|]. by apply Forall_app.
Qed.

Lemma mine_update c f (l : list row) : (∀ w, w_id (f w) = w_id w) → List.filter mine (update c f l) = update c f (List.filter mine l).
Proof.
  intros Hf. induction l as [|w l IH]; [done|]. unfold update in *. csimpl.
  assert (mine (if c w then f w else w) = mine w) as -> by (unfold mine; destruct (c w); [by rewrite Hf|done]).
  destruct (mine w); [|done]. csimpl. by f_equal.
Qed.
Lemma update_none {A} c f (l : list A) : (∀ x, x ∈ l → c x = false) → update c f l = l.
Proof.
  intros H. induction l as [|x l IH]; [done|]. unfold update in *. csimpl. rewrite H by left. f_equal. apply IH. intros y Hy. apply H. by right.
Qed.
Lemma its_rows_mine db w : w ∈ its_rows db → w_id w = id.
Proof. unfold its_rows. intros [_ E]%elem_of_lfilter. unfold mine in E. by apply Z.eqb_eq in E. Qed.

Lemma find_mine (l : list row) : find_row mine l = head (List.filter mine l).
Proof. induction l as [|w l IH]; [done|]. unfold find_row in *. simpl. by destruct (mine w). Qed.
Lemma get_own db w : its_rows db = [w] → GetDeployment aead db id = scanDeployment aead db w.
Proof. intros H. unfold GetDeployment. fold mine. rewrite find_mine. fold (its_rows db). by rewrite H. Qed.

(** Reading a row needs its application and its sealed specification only. *)
Lemma readable_row db db' w w' : its_rows db = [w] → its_rows db' = [w'] → applications db' = applications db →
  w_spec w' = w_spec w → w_application_id w' = w_application_id w → readable db → readable db'.
Proof.
  intros E E' Ha Hs Hi [d H]. unfold readable. rewrite (get_own _ _ E) in H. rewrite (get_own _ _ E'). unfold scanDeployment in *.
  rewrite Ha, Hi, Hs. destruct (find_row _ (applications db)); [|done]. destruct (store_openSpec aead (w_spec w)); [by eexists|done].
Qed.
Lemma readable_same db db' : its_rows db' = its_rows db → applications db' = applications db → readable db → readable db'.
Proof.
  intros E Ha [d H]. exists d. rewrite <- H. unfold GetDeployment. fold mine. rewrite !find_mine. fold (its_rows db) (its_rows db').
  rewrite E. destruct (head (its_rows db)); [|done]. unfold scanDeployment. by rewrite Ha.
Qed.

Lemma alone_other i s db' : i ≠ id → own_write i (s_db s) db' → leaves_alone s (set_db db' s).
Proof.
  intros Hi H. assert (its_rows db' = its_rows (s_db s) ∧ applications db' = applications (s_db s)) as [E Ea].
  { assert (∀ w, w ∈ its_rows (s_db s) → (w_id w =? i) = false) as Hw by (intros w ->%its_rows_mine; apply Z.eqb_neq; congruence).
    destruct H as [from msg db' _ H|? ? ? ? ? ? H|].
    - apply transition_inv in H as [-> _]. split; [|done]. unfold its_rows. cbn [deployments set_deployments].
      rewrite mine_update by done. apply update_none. intros w Hin. by rewrite Hw.
    - unfold AddEvent in H. destruct (_ || _); [done|]. by injection H as <-.
    - split; [|done]. unfold its_rows. cbn [CompleteDeployment deployments set_deployments].
      rewrite mine_update by done. apply update_none. intros w Hin. by rewrite Hw. }
  split; [done|by apply readable_same|]. exists []. by rewrite app_nil_r.
Qed.

Hypothesis others : ∀ h c s, leaves_alone s (before (world h c) s).
Hypothesis writable : ∀ h c, how (world h c) = Taken.

(** How a row in flight, or one that is settled, ends. *)
Definition ended (failure : string) (w w' : row) : Prop :=
  w_completed_at w' ≠ None ∧
  if IsSettled (w_status w) then w_status w' = w_status w
  else w_status w' = StatusFailed ∧ w_error w' = if String.eqb failure "" then endNotRecorded else failure.
(** Memory calls nothing settled that the database does not. *)
Definition honest (u : unsettled) (w : row) : Prop := IsSettled (d_Status (u_d u)) = true → IsSettled (w_status w) = true.

Lemma taken {A} c (sql : Time → DB → store_error + (DB * A)) s :
  let s1 := before (world s.2 c) s.1 in let h := mk_happened (answer := sanswer) c (world s.2 c) :: s.2 in
  statement world c sql s =
    match sql (now (world s.2 c)) (s_db s1) with inr (db', a) => (inr a, (set_db db' s1, h)) | inl e => (inl e, (s1, h)) end.
Proof. cbv zeta. rewrite statement_at. cbv zeta. rewrite writable. done. Qed.

(** The statements about this deployment, on its row. *)
Lemma row_completes db w t : its_rows db = [w] →
  its_rows (CompleteDeployment db id t) = [if unfinished w then with_completed w (Some t) else w].
Proof.
  intros H. unfold its_rows, CompleteDeployment in *. cbn [deployments set_deployments]. rewrite mine_update by done. rewrite H.
  assert (w_id w = id) as Hw by (apply (its_rows_mine db); unfold its_rows; rewrite H; by left). unfold update. csimpl. by rewrite Hw, Z.eqb_refl.
Qed.

Lemma affected_mine c db : affected (λ w, (w_id w =? id) && c w) (deployments db) = affected c (its_rows db).
Proof.
  unfold affected, its_rows. f_equal. induction (deployments db) as [|w l IH]; [done|]. csimpl. fold (mine w).
  destruct (mine w); simpl; [destruct (c w); by rewrite IH|done].
Qed.
Lemma row_transitions db w msg : its_rows db = [w] → ∃ db', TransitionDeployment db id (w_status w) StatusFailed msg = inr db' ∧
  its_rows db' = [with_status w StatusFailed (if String.eqb msg "" then w_error w else msg)] ∧ applications db' = applications db.
Proof.
  intros H. unfold TransitionDeployment. rewrite affected_mine, H. unfold affected. simpl. rewrite bool_decide_eq_true_2 by done. simpl.
  eexists. split_and!; [done| |done]. unfold its_rows in *. cbn [deployments set_deployments]. rewrite mine_update by done. rewrite H.
  assert (w_id w = id) as Hw by (apply (its_rows_mine db); unfold its_rows; rewrite H; by left).
  unfold update. csimpl. by rewrite Hw, Z.eqb_refl, bool_decide_eq_true_2.
Qed.
Lemma row_conflicts db w from msg : its_rows db = [w] → w_status w ≠ from → TransitionDeployment db id from StatusFailed msg = inl ErrConflict.
Proof.
  intros H Hn. unfold TransitionDeployment. rewrite affected_mine, H. unfold affected. simpl. by rewrite bool_decide_eq_false_2.
Qed.

(** What is kept stays, and nobody else keeps this end. *)
Definition adds (s s' : sys) : Prop := ∃ more, s_unsettled s' = (s_unsettled s ++ more)%list ∧ Forall (λ u, u_id u ≠ id) more.
#[export] Instance adds_preorder : PreOrder adds.
Proof.
  split.
  - intros s. exists []. by rewrite app_nil_r.
  - intros s t u [m1 [E1 F1]] [m2 [E2 F2]]. exists (m1 ++ m2)%list. rewrite E2, E1, app_assoc. split; [done|]. by apply Forall_app.
Qed.
Lemma others_add h c s : adds s (before (world h c) s).
Proof. apply (others h c s). Qed.
Lemma set_db_adds db s : adds s (set_db db s).
Proof. exists []. by rewrite app_nil_r. Qed.
Lemma writeEnd_adds u s : adds s.1 (writeEnd aead world u s).2.1.
Proof. apply (writeEnd_quiet aead world adds others_add (u_id u)); [|done]. intros. apply set_db_adds. Qed.

Lemma step_completes s w : its_rows (s_db s.1) = [w] → ∃ w' s',
  statement world (SComplete id) (λ now db, inr (CompleteDeployment db id now, tt)) s = (inr tt, s') ∧
  its_rows (s_db s'.1) = [w'] ∧ w_completed_at w' ≠ None ∧ w_status w' = w_status w ∧ w_error w' = w_error w.
Proof.
  intros H. rewrite taken. cbv zeta. set (s1 := before _ s.1). set (t := now _).
  assert (its_rows (s_db s1) = [w]) as H1 by (unfold s1; by rewrite (alone_row _ _ (others s.2 (SComplete id) s.1))).
  exists (if unfinished w then with_completed w (Some t) else w). eexists. split; [done|].
  cbn [fst snd]. split; [exact (row_completes _ _ _ H1)|]. unfold unfinished. case_bool_decide; by split_and!.
Qed.

Lemma step_fails d s w failure : its_rows (s_db s.1) = [w] → d_ID d = id → IsSettled (d_Status d) = false → failure ≠ ""%string →
  ∃ r s', transitionWithError world d StatusFailed failure s = (r, s') ∧
    ((w_status w = d_Status d ∧ r = inr (at_status d StatusFailed) ∧ its_rows (s_db s'.1) = [with_status w StatusFailed failure]) ∨
     (w_status w ≠ d_Status d ∧ r = inl ErrConflict ∧ leaves_alone s.1 s'.1)).
Proof.
  intros H Hd Hs Hf. unfold transitionWithError.
  assert (CanTransition (d_Status d) StatusFailed = true) as -> by (by destruct (d_Status d)). cbn [negb].
  rewrite bool_decide_eq_true_2 by done. rewrite then_eq, taken, Hd. cbv zeta. set (s1 := before _ s.1).
  assert (leaves_alone s.1 s1) as Ha by apply others. assert (its_rows (s_db s1) = [w]) as H1 by (by rewrite (alone_row _ _ Ha)).
  destruct (decide (w_status w = d_Status d)) as [E|E].
  - destruct (row_transitions _ _ failure H1) as (db' & Ht & Hr & _). rewrite <- E, Ht. cbn [wrote fst snd].
    rewrite then_eq, taken. cbv zeta. cbn [fst snd set_db s_db]. set (s2 := before _ (set_db db' s1)).
    assert (its_rows (s_db s2) = its_rows db') as E2 by (unfold s2; rewrite (alone_row _ _ (others _ _ _)); done).
    rewrite Hr in E2. destruct (String.eqb_spec failure ""); [done|].
    destruct (wrote _) as [e|[db2 []]] eqn:Ew; (do 2 eexists; split; [reflexivity|left; split_and!; [done|done|]]); [exact E2|].
    unfold wrote in Ew. destruct (AddEvent _ _ _ _ _ _ _) eqn:Ev; [done|]. injection Ew as <-.
    unfold AddEvent in Ev. destruct (_ || _); [done|]. injection Ev as <-. exact E2.
  - rewrite (row_conflicts _ _ _ _ H1 E). do 2 eexists. split; [reflexivity|]. right. by split_and!.
Qed.

(** An end that memory knows as the database does is written; another becomes
    what the database says. *)
Lemma writeEnd_writes u s w : its_rows (s_db s.1) = [w] → u_id u = id → readable (s_db s.1) → honest u w →
  ∃ e u' s', writeEnd aead world u s = ((e, u'), s') ∧
    ((e = None ∧ ∃ w', its_rows (s_db s'.1) = [w'] ∧ ended (u_failure u) w w') ∨
     (w_status w ≠ d_Status (u_d u) ∧ e ≠ None ∧ d_Status (u_d u') = w_status w ∧ leaves_alone s.1 s'.1)).
Proof.
  intros H Hu Hr Hh. unfold writeEnd. rewrite then_eq. unfold honest in Hh. unfold ended.
  destruct (IsSettled (d_Status (u_d u))) eqn:Es; cbn [fst snd mret].
  - destruct (step_completes s w H) as (w1 & s1 & E & H1 & Hc & Hs & _). rewrite Hu, then_eq, E. cbn [fst snd mret].
    do 3 eexists. split; [reflexivity|]. left. split; [done|]. exists w1. rewrite Hh by done. by split_and!.
  - set (msg := if String.eqb (u_failure u) "" then _ else _). assert (msg ≠ ""%string) as Hm.
    { unfold msg. by destruct (String.eqb_spec (u_failure u) ""). }
    destruct (step_fails (u_d u) s w msg H Hu Es Hm) as (r & s1 & E & [(Ew & -> & H1)|(Ew & -> & Ha)]); rewrite then_eq, E; cbn [fst snd mret].
    + destruct (step_completes s1 _ H1) as (w2 & s2 & E2 & H2 & Hc & Hs & He).
      rewrite Hu, then_eq, E2. cbn [fst snd mret].
      do 3 eexists. split; [reflexivity|]. left. split; [done|]. exists w2. rewrite Ew, Es. by split_and!.
    + assert (its_rows (s_db s1.1) = [w]) as H1 by (by rewrite (alone_row _ _ Ha)).
      rewrite then_eq, taken. cbv zeta. set (s2 := before _ s1.1). assert (leaves_alone s1.1 s2) as Ha2 by apply others.
      assert (its_rows (s_db s2) = [w]) as H2 by (by rewrite (alone_row _ _ Ha2)).
      destruct (alone_readable _ _ Ha2 (alone_readable _ _ Ha Hr)) as [c Hc]. rewrite Hu, Hc.
      assert (d_Status c = w_status w) as Ec.
      { rewrite (get_own _ _ H2) in Hc. unfold scanDeployment in Hc. destruct (find_row _ _); [|done]. destruct (store_openSpec _ _); [by injection Hc as <-|done]. }
      cbn [fst snd mret]. rewrite Ec. destruct (IsSettled (w_status w)) eqn:Esw.
      * destruct (step_completes (set_db (s_db s2) s2, mk_happened (answer := sanswer) (SGet id) (world s1.2 (SGet id)) :: s1.2) w H2)
          as (w3 & s3 & E3 & H3 & Hc3 & Hs3 & _).
        rewrite then_eq, E3. cbn [fst snd mret].
        do 3 eexists. split; [reflexivity|]. left. split; [done|]. exists w3. by split_and!.
      * do 3 eexists. split; [reflexivity|]. right. split_and!; [done|done|done|]. cbn [fst snd mret].
        etrans; [exact Ha|]. etrans; [exact Ha2|]. split; [done|done|apply set_db_adds].
Qed.

(** The only end of this deployment in a list. *)
Definition sole (u : unsettled) (l : list unsettled) : Prop :=
  ∃ pre post, l = (pre ++ u :: post)%list ∧ u_id u = id ∧ Forall (λ v, u_id v ≠ id) (pre ++ post)%list.

Lemma retry_ids l : ∀ s, Forall (λ v, u_id v ≠ id) l → Forall (λ v, u_id v ≠ id) (retry_each aead world l s).1.
Proof.
  induction l as [|u l IH]; intros s H; [constructor|]. apply Forall_cons in H as [Hu H]. simpl. rewrite !then_eq. cbn [fst mret].
  destruct (writeEnd aead world u s) as [[e u'] s1] eqn:E. cbn [fst snd]. apply writeEnd_answers in E as [[Ei _] _].
  specialize (IH s1 H). destruct e; [|done]. constructor; [by rewrite Ei|done].
Qed.
Lemma retry_others l s : Forall (λ v, u_id v ≠ id) l → leaves_alone s.1 (retry_each aead world l s).2.1.
Proof.
  intros H. apply (retry_each_quiet aead world leaves_alone others). intros u t db' Hu. apply alone_other. rewrite Forall_forall in H. by apply H.
Qed.

Definition same_record (s s' : sys) : Prop := its_rows (s_db s') = its_rows (s_db s) ∧ (readable (s_db s) → readable (s_db s')).
Lemma alone_record s s' : leaves_alone s s' → same_record s s'.
Proof. by intros [H1 H2 _]. Qed.
Lemma record_trans s t u : same_record s t → same_record t u → same_record s u.
Proof. intros [H1 H2] [H3 H4]. split; [by etrans|auto]. Qed.

(** What a pass makes of the end: written, or known as the database knows it. *)
Definition outcome (u : unsettled) (w : row) (s s' : sys) (still : list unsettled) : Prop :=
  (∃ w', its_rows (s_db s') = [w'] ∧ ended (u_failure u) w w' ∧ Forall (λ v, u_id v ≠ id) still) ∨
  (w_status w ≠ d_Status (u_d u) ∧ ∃ u', sole u' still ∧ u_failure u' = u_failure u ∧ d_Status (u_d u') = w_status w ∧ same_record s s').

Lemma retry_sole u w pre post : ∀ s, u_id u = id → Forall (λ v, u_id v ≠ id) (pre ++ post)%list →
  its_rows (s_db s.1) = [w] → readable (s_db s.1) → honest u w →
  outcome u w s.1 (retry_each aead world (pre ++ u :: post)%list s).2.1 (retry_each aead world (pre ++ u :: post)%list s).1.
Proof.
  induction pre as [|v pre IH]; intros s Hu Hf H Hr Hh; simpl; rewrite !then_eq; cbn [fst snd mret].
  - destruct (writeEnd_writes u s w H Hu Hr Hh) as (e & u' & s1 & E & Hout). rewrite E. cbn [fst snd].
    pose proof (retry_others post s1 Hf) as Ha. pose proof (retry_ids post s1 Hf) as Hn. apply writeEnd_answers in E as [[Ei Ef] _].
    destruct Hout as [(-> & w' & H1 & He)|(Hn1 & Hn2 & Hs & Ha1)]; cbn [snd].
    + left. exists w'. split_and!; [by rewrite (alone_row _ _ Ha)|done|done].
    + destruct e as [e|]; [|done]. right. split; [done|]. exists u'. split_and!; [|done|done|by apply alone_record; etrans].
      exists [], (retry_each aead world post s1).1. split_and!; [done|by rewrite Ei|done].
  - apply Forall_cons in Hf as [Hv Hf]. destruct (writeEnd aead world v s) as [[e v'] s1] eqn:E. cbn [fst snd].
    assert (leaves_alone s.1 s1.1) as Ha.
    { change s1 with (((e, v'), s1).2). rewrite <- E. apply (writeEnd_quiet aead world leaves_alone others (u_id v)); [|done]. intros. by apply alone_other with (u_id v). }
    apply writeEnd_answers in E as [[Ei _] _].
    specialize (IH s1 Hu Hf). rewrite (alone_row _ _ Ha) in IH. specialize (IH H (alone_readable _ _ Ha Hr) Hh).
    destruct IH as [(w' & H1 & He & Hn)|(Hn & u' & (pre' & post' & El & Eu & Hp) & Hfl & Hs & Ha')].
    + left. exists w'. split_and!; [by destruct e|done|]. destruct e; [constructor; [by rewrite Ei|done]|done].
    + right. split; [done|]. exists u'. split_and!; [|done|done|].
      2: { apply alone_record in Ha. destruct e; by eapply record_trans. }
      destruct e; [|by exists pre', post']. exists (v' :: pre'), post'. rewrite El. split_and!; [done|done|]. constructor; [by rewrite Ei|done].
Qed.

(** The same of the tick, where the others may have kept ends meanwhile. *)
Lemma round_sole u w s : sole u (s_unsettled s.1) → its_rows (s_db s.1) = [w] → readable (s_db s.1) → honest u w →
  outcome u w s.1 (retrySettling aead world s).2.1 (s_unsettled (retrySettling aead world s).2.1).
Proof.
  intros (pre & post & El & Eu & Hf) H Hr Hh. unfold retrySettling. rewrite then_get, then_set, El.
  rewrite bool_decide_eq_false_2 by (by destruct pre). rewrite then_eq. set (s0 := (set_unsettled (λ _, []) s.1, s.2)).
  pose proof (retry_sole u w pre post s0 Eu Hf H Hr Hh) as Hout.
  assert (adds s0.1 (retry_each aead world (pre ++ u :: post) s0).2.1) as (more & Em & Fm).
  { apply (retry_each_quiet aead world adds others_add). intros. apply set_db_adds. }
  destruct (retry_each aead world (pre ++ u :: post) s0) as [still s1]. cbn [fst snd] in *. change (s_unsettled s0.1) with (@nil unsettled) in Em. simpl in Em.
  assert (∃ s2, (match still with [] => mret tt | _ => mset (set_unsettled (λ l, still ++ l)%list) end s1).2.1 = s2 ∧
    s_db s2 = s_db s1.1 ∧ s_unsettled s2 = (still ++ more)%list) as (s2 & -> & Ed & Ek).
  { eexists. split; [done|]. destruct still; simpl; [done|]. by rewrite Em. }
  unfold outcome. rewrite Ek. destruct Hout as [(w' & H1 & He & Hn)|(Hn & u' & (pre' & post' & El' & Eu' & Hp) & Hfl & Hs & Ha')].
  - left. exists w'. rewrite Ed. split_and!; [done|done|by apply Forall_app].
  - right. split; [done|]. exists u'. split_and!; [|done|done|unfold same_record in *; by rewrite Ed].
    exists pre', (post' ++ more)%list. rewrite El', <- app_assoc. split_and!; [done|done|]. rewrite app_assoc. by apply Forall_app.
Qed.

(** The tick leaves the record of an end it does not have alone. *)
Lemma round_without s : Forall (λ v, u_id v ≠ id) (s_unsettled s.1) →
  its_rows (s_db (retrySettling aead world s).2.1) = its_rows (s_db s.1) ∧
  Forall (λ v, u_id v ≠ id) (s_unsettled (retrySettling aead world s).2.1).
Proof.
  intros H. unfold retrySettling. rewrite then_get, then_set. case_bool_decide as E; [by cbn|]. rewrite then_eq.
  set (s0 := (set_unsettled (λ _, []) s.1, s.2)). pose proof (retry_others _ s0 H) as Ha. pose proof (retry_ids _ s0 H) as Hn.
  destruct (retry_each aead world (s_unsettled s.1) s0) as [still s1]. cbn [fst snd] in *.
  destruct Ha as [H1 _ (more & Em & Fm)]. simpl in Em.
  destruct still; simpl; (split; [done|]); [by rewrite Em|]. apply Forall_cons in Hn as [??].
  rewrite Em. constructor; [done|by apply Forall_app].
Qed.

(** Two ticks write the end. *)
Lemma two_rounds u w s : sole u (s_unsettled s.1) → its_rows (s_db s.1) = [w] → readable (s_db s.1) → honest u w →
  let s2 := (retrySettling aead world (retrySettling aead world s).2).2 in
  (∃ w', its_rows (s_db s2.1) = [w'] ∧ ended (u_failure u) w w') ∧ Forall (λ v, u_id v ≠ id) (s_unsettled s2.1).
Proof.
  intros Hs H Hr Hh s2. destruct (round_sole u w s Hs H Hr Hh) as [(w' & H1 & He & Hn)|(Hn & u' & Hs' & Hf & Est & H1 & Hr')].
  - destruct (round_without (retrySettling aead world s).2 Hn) as [E F]. split; [|done]. exists w'. split; [|done]. by rewrite <- H1.
  - rewrite H in H1. destruct (round_sole u' w (retrySettling aead world s).2 Hs' H1 (Hr' Hr)) as [(w' & H2 & He & Hn')|(Hn' & _)].
    + intros E. by rewrite <- Est.
    + rewrite Hf in He. split; [by exists w'|done].
    + congruence.
Qed.
End Live.

(** ** The properties *)

Section Settled.
Context (aead : option AEAD) (nonce : string → result string) (Marshal : References → string).
Context (world : list (Effects.happened sanswer) → ∀ c, sanswer c).

Lemma settle_keeps (d : Deployment) (failure : string) s :
  (∀ h c s, follows aead nonce Marshal s (before (world h c) s)) →
  let s' := (settle aead world d failure s).2 in
  follows aead nonce Marshal s.1 s'.1 ∧
  (completed (d_ID d) (s_db s'.1) ∨ ∃ u, u ∈ s_unsettled s'.1 ∧ u_id u = d_ID d ∧ u_failure u = failure).
Proof.
  intros others. unfold settle. rewrite then_eq.
  pose proof (writeEnd_follows aead nonce Marshal world others (mk_unsettled d failure) s) as F.
  destruct (writeEnd aead world (mk_unsettled d failure) s) as [[e u] s1] eqn:E. cbn [fst snd] in *.
  apply writeEnd_answers in E as [[Ei Ef] Hc]. destruct e as [e|]; cbn; [|split; [done|left; by apply Hc]].
  split; [|right; exists u; split_and!; [apply elem_of_app; right; by left|done|done]].
  etrans; [exact F|]. split; [done|]. by exists [u].
Qed.

Lemma tick_keeps s :
  (∀ h c s, follows aead nonce Marshal s (before (world h c) s)) → wf (s_db s.1) →
  Forall (λ u, u_id u ≤ last_deployment (s_db s.1)) (s_unsettled s.1) →
  let s' := (retrySettling aead world s).2 in
  rtc (store_step aead nonce Marshal) (s_db s.1) (s_db s'.1) ∧
  ∀ u, u ∈ s_unsettled s.1 → completed (u_id u) (s_db s'.1) ∨ ∃ u', u' ∈ s_unsettled s'.1 ∧ same_end u u'.
Proof.
  intros others Hwf Hid. unfold retrySettling. rewrite then_get, then_set. case_bool_decide as E.
  { cbn. split; [done|]. rewrite E. by intros u ?%elem_of_nil. }
  rewrite then_eq. set (s0 := (set_unsettled (λ _, []) s.1, s.2)).
  pose proof (retry_each_follows aead nonce Marshal world others (s_unsettled s.1) s0) as [F _].
  destruct (retry_each aead world (s_unsettled s.1) s0) as [still s1] eqn:Er. cbn [fst snd] in *.
  pose proof (retry_keeps aead nonce Marshal world others _ _ _ _ Er Hwf Hid) as Hk.
  destruct still as [|v still]; simpl; (split; [done|]); intros u Hu; destruct (Hk u Hu) as [?|(u' & Hu' & Hs)]; auto.
  - by apply elem_of_nil in Hu'.
  - right. exists u'. split; [|done]. apply elem_of_app with (l1 := (v :: still)%list). by left.
Qed.

Lemma reachable_path db db' : rtc (store_step aead nonce Marshal) db db' → reachable aead nonce Marshal db → reachable aead nonce Marshal db'.
Proof. induction 1 as [|? ? ? Hs _ IH]; [done|]. intros Hr. apply IH. by eapply reach_step. Qed.

(** An end whose record was deleted meanwhile with its application: the
    transition conflicts, the record is not found, and the end is kept, on
    every tick. *)
Lemma deleted_end_stays u s :
  (∀ h c s, follows aead nonce Marshal s (before (world h c) s)) → wf (s_db s.1) →
  Forall (λ u, u_id u ≤ last_deployment (s_db s.1)) (s_unsettled s.1) →
  u ∈ s_unsettled s.1 → IsSettled (d_Status (u_d u)) = false → its_rows (u_id u) (s_db s.1) = [] →
  ∃ e u' s', writeEnd aead world u s = ((Some e, u'), s').
Proof.
  intros others Hwf Hid Hu Hs Hrow. assert (u_id u ≤ last_deployment (s_db s.1)) as Hl by (rewrite Forall_forall in Hid; by apply Hid).
  assert (∀ t, follows aead nonce Marshal s.1 t → its_rows (u_id u) (s_db t) = []) as Hnone.
  { intros t [F _]. destruct (path_rows aead nonce Marshal _ _ F Hwf) as (_ & _ & Hr).
    destruct (its_rows (u_id u) (s_db t)) as [|w l] eqn:E; [done|]. exfalso.
    assert (w ∈ its_rows (u_id u) (s_db t)) as [Hw Hi]%elem_of_lfilter by (rewrite E; left). unfold mine in Hi. apply Z.eqb_eq in Hi.
    destruct (Hr w Hw) as [?|(v & Hv & Hk)]; [lia|].
    assert (v ∈ its_rows (u_id u) (s_db s.1)) as Hin; [|rewrite Hrow in Hin; by apply elem_of_nil in Hin].
    apply elem_of_lfilter. split; [done|]. unfold mine. apply Z.eqb_eq. by rewrite <- (kept_id _ _ Hk). }
  unfold writeEnd. rewrite then_eq, Hs, then_eq. unfold transitionWithError.
  assert (CanTransition (d_Status (u_d u)) StatusFailed = true) as -> by (by destruct (d_Status (u_d u))). cbn [negb].
  rewrite then_eq, statement_at. cbv zeta. set (s1 := before _ s.1). assert (follows aead nonce Marshal s.1 s1) as F1 by apply others.
  assert (∀ db from msg, its_rows (u_id u) db = [] → TransitionDeployment db (d_ID (u_d u)) from StatusFailed msg = inl ErrConflict) as Hc.
  { intros db from msg H. unfold TransitionDeployment, u_id in *. by rewrite affected_mine, H. }
  rewrite Hc by (by apply Hnone). cbn [wrote]. destruct (how _); cbn [fst snd mret]; try (by do 3 eexists).
  rewrite then_eq, statement_at. cbv zeta. cbn [fst snd]. set (s2 := before _ s1).
  assert (GetDeployment aead (s_db s2) (u_id u) = inl ErrNotFound) as ->.
  { unfold GetDeployment. change (λ w, w_id w =? u_id u) with (mine (u_id u)). rewrite find_mine. fold (its_rows (u_id u) (s_db s2)). rewrite Hnone; [done|].
    etrans; [exact F1|apply others]. }
  destruct (how _); cbn [fst snd mret]; by do 3 eexists.
Qed.
End Settled.

(** C9: whatever a database that refuses writes, or takes one and says
    otherwise, makes of the two statements, and whatever the agent does between
    them: the end of a deployment is written, with its completion time, or it is
    among those that are kept, in settle as in every tick, and the database
    moves only as the agent moves it. Once the database takes writes and nobody
    else touches that record, two ticks write the end: a record that is settled
    keeps its status, one in flight is FAILED for the reason that was kept. *)
Theorem ends_recorded (aead : option AEAD) nonce Marshal world (s : St sys sanswer) :
  (∀ h c t, follows aead nonce Marshal t (before (world h c) t)) → reachable aead nonce Marshal (s_db s.1) →
  Forall (λ u, u_id u ≤ last_deployment (s_db s.1)) (s_unsettled s.1) →
  (∀ d failure, let s' := (settle aead world d failure s).2.1 in
     reachable aead nonce Marshal (s_db s') ∧
     ((∀ w, w ∈ deployments (s_db s') → w_id w = d_ID d → w_completed_at w ≠ None) ∨
      ∃ u, u ∈ s_unsettled s' ∧ u_id u = d_ID d ∧ u_failure u = failure)) ∧
  (let s' := (retrySettling aead world s).2.1 in
     reachable aead nonce Marshal (s_db s') ∧
     ∀ u, u ∈ s_unsettled s.1 →
       (∀ w, w ∈ deployments (s_db s') → w_id w = u_id u → w_completed_at w ≠ None) ∨
       ∃ u', u' ∈ s_unsettled s' ∧ u_id u' = u_id u ∧ u_failure u' = u_failure u) ∧
  (∀ u w, sole (u_id u) u (s_unsettled s.1) → its_rows (u_id u) (s_db s.1) = [w] → readable aead (u_id u) (s_db s.1) →
     (IsSettled (d_Status (u_d u)) = true → IsSettled (w_status w) = true) →
     (∀ h c t, leaves_alone aead (u_id u) t (before (world h c) t)) → (∀ h c, how (world h c) = Taken) →
     let s' := (retrySettling aead world (retrySettling aead world s).2).2.1 in
     Forall (λ v, u_id v ≠ u_id u) (s_unsettled s') ∧
     ∃ w', its_rows (u_id u) (s_db s') = [w'] ∧ w_completed_at w' ≠ None ∧
       if IsSettled (w_status w) then w_status w' = w_status w
       else w_status w' = StatusFailed ∧ w_error w' = if String.eqb (u_failure u) "" then endNotRecorded else u_failure u).
Proof.
  intros others Hr Hid. pose proof (wf_reachable _ _ _ _ Hr) as Hwf. split_and!.
  - intros d failure s'. destruct (settle_keeps aead nonce Marshal world d failure s others) as [[F _] Hk]. split; [by eapply reachable_path|exact Hk].
  - destruct (tick_keeps aead nonce Marshal world s others Hwf Hid) as [F Hk]. split; [by eapply reachable_path|exact Hk].
  - intros u w Hs Hw Hread Hh Halone Htaken. destruct (two_rounds aead world (u_id u) Halone Htaken u w s Hs Hw Hread Hh) as [(w' & H1 & H2) H3].
    split; [exact H3|]. exists w'. split; [exact H1|exact H2].
Qed.

(** Deployment 2 is HEALTHY in the database, and its end is kept by somebody
    who believes it STARTING. *)
Definition stale_end : unsettled :=
  mk_unsettled (mk_deployment 2 1 "api" 2 "v1" "shop/api:v1" secret_app StatusStarting "" 30 None KindDeploy None "admin" "" 0 0 no_references) "boom".
Definition fine_weather (h : list (Effects.happened sanswer)) (c : scall) : sanswer c := mk_weather (λ s, s) Taken 90.
Definition one_kept : St sys sanswer := (mk_sys two_deployed [stale_end], []).

Lemma ends_recorded_witness : ∃ w', its_rows 2 (s_db (retrySettling None fine_weather (retrySettling None fine_weather one_kept).2).2.1) = [w'] ∧
  w_status w' = StatusFailed ∧ w_error w' = "boom"%string.
Proof.
  destruct (its_rows 2 two_deployed) as [|w [|? ?]] eqn:E; [vm_compute in E; discriminate E| |vm_compute in E; discriminate E].
  assert (w_status w = StatusHealthy) as Hw by (vm_compute in E; injection E as <-; reflexivity).
  destruct (ends_recorded None Ok (λ _, ""%string) fine_weather one_kept) as (_ & _ & H).
  - intros h c t. reflexivity.
  - exact two_deployed_reachable.
  - constructor; [vm_compute; discriminate|constructor].
  - destruct (H stale_end w) as (_ & w' & Hr & _ & Hs).
    + exists [], []. split; [reflexivity|]. split; [reflexivity|constructor].
    + exact E.
    + destruct (GetDeployment None two_deployed 2) as [|d] eqn:Ed; [vm_compute in Ed; discriminate Ed|]. exists d. exact Ed.
    + discriminate.
    + intros h c t. reflexivity.
    + reflexivity.
    + exists w'. split; [exact Hr|]. rewrite Hw in Hs. exact Hs.
Defined.
