(* ===== verification/Promotion.v ===== *)
(** * Promotions (agent/internal/deploy: promotion.go, and standby.go's
    standbyApplications and dnsRecords)

    A standby that takes over starts what was imported stopped, one application
    after the other, in the background; its record is kept in the store, and an
    agent that starts goes on from it. The state is the engine's memory of
    transfers, which one mutex guards; the record that runs is the one in
    memory, which nobody else changes. [PKeep] writes the record and answers
    whether it could be written, [PStopping] is whether the agent is being shut
    down, [PLaunch] begins [promote] in the background, and waiting for a started
    application (awaitStarted) is a call. *)

From stdpp Require Import sorting.
From S2P Require Import Prelude GoStrings Effects GoTime GoURL SpecTypes SpecNames DeployState Store Rollout Routing.
From Stdlib Require Import String.
Local Open Scope string_scope.
Local Open Scope Z_scope.

(** ** Records (pkg/api/types.go) *)

Inductive promoted := PromotedPending | PromotedStarting | PromotedRunning | PromotedStarted | PromotedFailed.
Inductive promotion_status := PromotionRunning | PromotionSucceeded | PromotionFailed.
#[export] Instance promoted_eq_dec : EqDecision promoted.
Proof. solve_decision. Defined.

Record PromotedApplication := mk_promoted { pa_Name : string; pa_Status : promoted; pa_Message : text }.
Record DNSRecord := mk_dns { dr_Hostname : string; dr_Type : string; dr_Value : string }.
Record promotionRecord := mk_promotion {
  p_Applications : list PromotedApplication; p_Records : list DNSRecord; p_ID : Z; p_Status : promotion_status;
  p_StartedAt : Time; p_CompletedAt : option Time; p_Actor : string }.

Inductive import_status := ImportRunning | ImportSucceeded | ImportFailed.
Inductive import_app_status := ImportAppPending | ImportAppRunning | ImportAppImported | ImportAppSkipped | ImportAppFailed.
Record ImportedApplication := mk_imported { ia_Name : string; ia_Status : import_app_status; ia_Message : text }.
Record Import := mk_import { im_Status : import_status; im_CompletedAt : option Time; im_Error : text; im_Applications : list ImportedApplication }.

(** The engine's memory of transfers. *)
Record transfer := mk_transfer { importing : bool; promoting : bool; promotion : option promotionRecord; last : option Import }.
Definition set_promotion p t := mk_transfer (importing t) (promoting t) p (last t).
Definition set_promoting b t := mk_transfer (importing t) b (promotion t) (last t).
Definition set_last l t := mk_transfer (importing t) (promoting t) (promotion t) l.

Definition with_applications (r : promotionRecord) l : promotionRecord :=
  mk_promotion l (p_Records r) (p_ID r) (p_Status r) (p_StartedAt r) (p_CompletedAt r) (p_Actor r).
Definition with_end (r : promotionRecord) (s : promotion_status) (t : Time) : promotionRecord :=
  mk_promotion (p_Applications r) (p_Records r) (p_ID r) s (p_StartedAt r) (Some t) (p_Actor r).

Inductive started := IsStarted | IsBusy | NotStarted (err : text).
Inductive pcall :=
  | PDeployed | PNow | PActor | PBeginOp | POpDone | PLaunch | PStopping
  | PKeep (r : promotionRecord) | PKeepImport (i : Import)
  | PGetApplication (name : string) | PGetDeployment (id : Z) | PStart (name : string) | PAwait (d : Deployment)
  | PTransferImport | PTransferPull | PTransferPromotion.
Definition panswer (c : pcall) : Type :=
  match c with
  | PDeployed => or_error (list (Application * option Deployment))
  | PNow => Time
  | PActor => string
  | PBeginOp | PStopping | PKeep _ | PKeepImport _ => bool
  | PGetApplication _ => store_error + Application
  | PGetDeployment _ => store_error + Deployment
  | PStart _ => started
  | PAwait _ | PTransferPull => error
  | PTransferImport => or_error (option Import)
  | PTransferPromotion => or_error (option promotionRecord)
  | POpDone | PLaunch => unit
  end.
Abbreviation PM := (Effects.M transfer panswer).

(** The other errors StartPromotion may answer with. *)
Definition ErrPromotionInProgress : text := [L "a promotion is running on this server; follow it with: shipwick standby promote"].
Definition ErrImportInProgress : text := [L "an import is running on this server; follow it with: shipwick import --status"].
Definition ErrShuttingDown : text := [L "the agent is shutting down"].

(** ** What a promotion starts *)

Definition by_deployment (a b : Deployment) : Prop := d_ID a ≤ d_ID b.
#[global] Instance by_deployment_dec a b : Decision (by_deployment a b) := decide (d_ID a ≤ d_ID b).

(** Imported stopped, and still stopped, in the order of the deployments. *)
Definition standbyApplications (apps : list (Application * option Deployment)) : list Deployment :=
  merge_sort by_deployment (omap (λ p : Application * option Deployment,
    match p.2 with
    | Some d => if String.eqb (d_Kind d) KindStandby && String.eqb (app_DesiredState p.1) DesiredStopped then Some d else None
    | None => None
    end) apps).

(** ip.To4() *)
Definition To4 (ip : list Z) : bool := bool_decide (take 6 ip = [0; 0; 0; 0; 0; 65535]).
Definition record_type (addr : string) : string :=
  match ParseIP addr with Some ip => if To4 ip then "A" else "AAAA" | None => "A" end.
Fixpoint records_of (ServerAddresses : list string) (hosts seen : list string) : list DNSRecord :=
  match hosts with
  | [] => []
  | host :: rest =>
      if contains seen host then records_of ServerAddresses rest seen else
      (match ServerAddresses with
       | [] => [mk_dns host "A" ""]
       | _ => (λ addr, mk_dns host (record_type addr) addr) <$> ServerAddresses
       end ++ records_of ServerAddresses rest (host :: seen))%list
  end.
Definition dnsRecords (ServerAddresses : list string) (deployments : list Deployment) : list DNSRecord :=
  records_of ServerAddresses (deployments ≫= λ d, hosts_list (hostnamesOf (d_Spec d))) [].

Section World.
Variable world : list (Effects.happened panswer) → ∀ c, panswer c.
Variable ServerAddresses : list string.
Local Abbreviation perform := (Effects.perform world).

(** keep: a record that could not be written is still true in memory. *)
Definition keep_promotion : PM unit :=
  let! p := mget promotion in
  match p with Some r => let! _ := perform (PKeep r) in mret tt | None => mret tt end.

Definition StartPromotion : PM (or_error promotionRecord) :=
  let! t := mget (λ t, t) in
  if promoting t then fail ErrPromotionInProgress
  else if importing t then fail ErrImportInProgress
  else
    try! deployed := perform PDeployed in
    let waiting := standbyApplications deployed in
    let! now := perform PNow in
    match waiting with
    | [] => ok (mk_promotion [] [] 0 PromotionSucceeded now (Some now) "")
    | _ =>
        let! began := perform PBeginOp in
        if negb (began : bool) then fail ErrShuttingDown else
        let! actor := perform PActor in
        let rec := mk_promotion ((λ d, mk_promoted (d_Application d) PromotedPending []) <$> waiting) (dnsRecords ServerAddresses waiting)
                     (match promotion t with Some p => p_ID p + 1 | None => 1 end) PromotionRunning now None actor in
        let! _ := mset (λ t, set_promoting true (set_promotion (Some rec) t)) in
        let! _ := keep_promotion in
        let! _ := perform PLaunch in
        ok rec
    end.

(** ** Carrying it to its end *)

(** The active deployment of an application, and its application. *)
Definition activeDeployment (name : string) : PM (option store_error + (Application * Deployment)) :=
  let! app := perform (PGetApplication name) in
  match app with
  | inl err => mret (inl (Some err))
  | inr app =>
      match app_ActiveDeploymentID app with
      | None => mret (inl None)  (* ErrNotDeployed *)
      | Some id => let! d := perform (PGetDeployment id) in
                   mret match d with inl err => inl (Some err) | inr d => inr (app, d) end
      end
  end.

Definition error_text (e : store_error) : text :=
  match e with ErrNotFound => [L "not found"] | ErrConflict => [L "conflict"] | ErrConstraint => [L "constraint"] | ErrOther t => t end.

Definition promoteApplication (name : string) : PM (promoted * text) :=
  let! a := activeDeployment name in
  match a with
  | inl (Some ErrNotFound) | inl None => mret (PromotedFailed, [L "it is no longer deployed on this server"])
  | inl (Some err) => mret (PromotedFailed, error_text err)
  | inr (app, d) =>
      let! s := (if String.eqb (app_DesiredState app) DesiredRunning then mret IsStarted else perform (PStart name)) in
      match s with
      | IsBusy => mret (PromotedFailed, [L "another operation is in progress for it; start it with: shipwick start "; S' name])
      | NotStarted err => mret (PromotedFailed, err)
      | IsStarted =>
          let! e := perform (PAwait d) in
          match e with
          | Some err => mret (PromotedStarted, (L "started, and not ready yet: " :: err ++ [L ". It is restarted until it is; watch it with: shipwick status "; S' name])%list)
          | None => mret (PromotedRunning, [])
          end
      end
  end.

(** set: one application's status, in the record and in the store. *)
Definition set_application (i : nat) (status : promoted) (message : text) : PM unit :=
  let! _ := mset (λ t, set_promotion ((λ r, with_applications r (alter (λ a, mk_promoted (pa_Name a) status message) i (p_Applications r))) <$> promotion t) t) in
  keep_promotion.

Definition reached (s : promoted) : bool := bool_decide (s = PromotedPending) || bool_decide (s = PromotedStarting).

(** The loop over the applications from the [i]-th on; true when the agent is
    stopping. *)
Fixpoint promote_each (i : nat) (l : list PromotedApplication) : PM bool :=
  match l with
  | [] => mret false
  | a :: rest =>
      if negb (reached (pa_Status a)) then promote_each (S i) rest else
      let! _ := set_application i PromotedStarting [] in
      let! (status, message) := promoteApplication (pa_Name a) in
      let! stopping := perform PStopping in
      if (stopping : bool) then mret true else
      let! _ := set_application i status message in
      promote_each (S i) rest
  end.

Definition ending (l : list PromotedApplication) : promotion_status :=
  if existsb (λ a, bool_decide (pa_Status a = PromotedFailed)) l then PromotionFailed else PromotionSucceeded.

Definition promote : PM unit :=
  let! p := mget promotion in
  match p with
  | None => mret tt
  | Some rec =>
      let! interrupted := promote_each 0 (p_Applications rec) in
      if (interrupted : bool) then perform POpDone else
      let! now := perform PNow in
      let! _ := mset (λ t, set_promotion ((λ r, with_end r (ending (p_Applications r)) now) <$> promotion t) t) in
      let! _ := keep_promotion in
      let! _ := mset (set_promoting false) in
      perform POpDone
  end.

(** ** Starting again *)

Definition import_ended (i : Import) (now : Time) : Import :=
  mk_import ImportFailed (Some now) [L "the agent restarted while the import ran. Run it again with --overwrite; what it had finished is in place"]
    ((λ a, match ia_Status a with
           | ImportAppPending | ImportAppRunning => mk_imported (ia_Name a) ImportAppFailed [L "the import ended before it was done with it"]
           | _ => a
           end) <$> im_Applications i).

Definition recoverTransfers : PM (or_error unit) :=
  try! found := perform PTransferImport in
  let! _ := match found with
            | None => mret tt
            | Some i =>
                match im_Status i with
                | ImportRunning =>
                    let! now := perform PNow in
                    let i := import_ended i now in
                    let! _ := perform (PKeepImport i) in mset (set_last (Some i))
                | _ => mset (set_last (Some i))
                end
            end in
  try! _ := checked (perform PTransferPull) in
  try! found := perform PTransferPromotion in
  match found with
  | None => ok tt
  | Some rec =>
      let! _ := mset (set_promotion (Some rec)) in
      match p_CompletedAt rec with
      | Some _ => ok tt
      | None =>
          let! began := perform PBeginOp in
          if negb (began : bool) then fail ErrShuttingDown else
          let! _ := mset (set_promoting true) in
          let! _ := perform PLaunch in
          ok tt
      end
  end.
End World.
