(* ===== verification/PromotionInv.v ===== *)
(** * Promotions: what is proved (promotion.go) *)

From S2P Require Import Prelude GoStrings Effects GoTime SpecReferences Crypto DeployState Store Rollout RolloutInv Promotion.
From Stdlib Require Import String.
Local Open Scope Z_scope.

Abbreviation ptrace := (list (Effects.happened panswer)).

(** ** Records on their way *)

(** The same promotion, with every outcome that [r] has. *)
Record carried (r r' : promotionRecord) : Prop := {
  carried_same : (p_ID r', p_Records r', p_StartedAt r', p_Actor r') = (p_ID r, p_Records r, p_StartedAt r, p_Actor r);
  carried_names : pa_Name <$> p_Applications r' = pa_Name <$> p_Applications r;
  carried_outcomes : ∀ i a, p_Applications r !! i = Some a → reached (pa_Status a) = false → p_Applications r' !! i = Some a }.
#[export] Instance carried_preorder : PreOrder carried.
Proof.
  split; [by intros r; split|]. intros r r' r'' [H1 H2 H3] [H4 H5 H6]. split; [congruence|congruence|]. intros i a Ha Hr. auto.
Qed.

(** Outcomes up to some application, nothing begun after it. *)
Definition front (k : nat) (l : list PromotedApplication) : Prop :=
  ∀ i a, l !! i = Some a → (i < k → reached (pa_Status a) = false)%nat ∧ (k < i → pa_Status a = PromotedPending)%nat.
Definition underway (r : promotionRecord) : Prop := p_CompletedAt r = None ∧ p_Status r = PromotionRunning ∧ ∃ k, front k (p_Applications r).
Definition ended (r : promotionRecord) : Prop :=
  p_CompletedAt r ≠ None ∧ Forall (λ a, reached (pa_Status a) = false) (p_Applications r) ∧
  p_Status r = if existsb (λ a, bool_decide (pa_Status a = PromotedFailed)) (p_Applications r) then PromotionFailed else PromotionSucceeded.

Fixpoint last_kept (tr : ptrace) : option promotionRecord :=
  match tr with
  | [] => None
  | mk_happened (PKeep r) _ :: _ => Some r
  | _ :: rest => last_kept rest
  end.

(** The record that was last handed to the store says that this application is
    being started, every one before it has an outcome, and none after it has
    been begun. *)
Definition at_work (n : string) (tr : ptrace) : Prop :=
  ∃ r i a, last_kept tr = Some r ∧ p_Applications r !! i = Some a ∧ pa_Name a = n ∧ pa_Status a = PromotedStarting ∧ front i (p_Applications r).

Section Carry.
Context (world : ptrace → ∀ c, panswer c) (r : promotionRecord).
Hypothesis begun : underway r.

Definition fits_promotion (tr : ptrace) (e : Effects.happened panswer) : Prop :=
  match what e with
  | PKeep rec => carried r rec ∧ (underway rec ∨ ended rec)
  | PGetApplication n | PStart n => at_work n tr
  | _ => True
  end.
Fixpoint safe_promotion (tr : ptrace) : Prop := match tr with [] => True | e :: rest => fits_promotion rest e ∧ safe_promotion rest end.

Definition told_to_stop (tr : ptrace) : Prop := mk_happened PStopping true ∈ tr.

(** In memory: outcomes before [i], and [r]'s own word from [i] on. *)
Record upto (i : nat) (s : Effects.St transfer panswer) (rec : promotionRecord) : Prop := {
  u_safe : safe_promotion s.2;
  u_rec : promotion s.1 = Some rec;
  u_carried : carried r rec;
  u_open : p_CompletedAt rec = None ∧ p_Status rec = PromotionRunning;
  u_before : ∀ j a, (j < i)%nat → p_Applications rec !! j = Some a → reached (pa_Status a) = false;
  u_after : ∀ j, (i ≤ j)%nat → p_Applications rec !! j = p_Applications r !! j }.
(** The same while the [i]-th is started. *)
Record during (i : nat) (n : string) (s : Effects.St transfer panswer) (rec : promotionRecord) : Prop := {
  w_safe : safe_promotion s.2;
  w_rec : promotion s.1 = Some rec;
  w_kept : last_kept s.2 = Some rec;
  w_carried : carried r rec;
  w_open : p_CompletedAt rec = None ∧ p_Status rec = PromotionRunning;
  w_this : ∃ a, p_Applications rec !! i = Some a ∧ pa_Name a = n ∧ pa_Status a = PromotedStarting;
  w_front : front i (p_Applications rec);
  w_old : ∃ a, p_Applications r !! i = Some a ∧ reached (pa_Status a) = true;
  w_after : ∀ j, (i < j)%nat → p_Applications rec !! j = p_Applications r !! j }.

Lemma during_at_work i n s rec : during i n s rec → at_work n s.2.
Proof. intros [? ? ? ? ? (a & ? & ? & ?) ? ? ?]. by exists rec, i, a. Qed.

(** A call that is not a write of the record. *)
Lemma during_step i n (s : Effects.St transfer panswer) rec c a : during i n s rec → (∀ x, c ≠ PKeep x) → fits_promotion s.2 (mk_happened c a) →
  during i n (s.1, mk_happened c a :: s.2) rec.
Proof.
  intros [H1 H2 H3 H4 H5 H6 H7 H8 H9] Hc Hf. split; try done. cbn [snd last_kept]. destruct c; try exact H3. by destruct (Hc r0).
Qed.

Lemma alter_names f (l : list PromotedApplication) i : (∀ a, pa_Name (f a) = pa_Name a) → pa_Name <$> alter f i l = pa_Name <$> l.
Proof. intros Hf. revert i. induction l as [|a l IH]; intros [|i]; csimpl; [done|done|by rewrite Hf|by rewrite IH]. Qed.
Lemma carried_alter rec i st msg : carried r rec → (∀ a, p_Applications r !! i = Some a → reached (pa_Status a) = true) →
  carried r (with_applications rec (alter (λ a, mk_promoted (pa_Name a) st msg) i (p_Applications rec))).
Proof.
  intros [H1 H2 H3] Hi. split; [done|simpl; by rewrite alter_names|]. intros j a Ha Hr. simpl.
  rewrite list_lookup_alter_ne; [by apply H3|]. intros <-. apply Hi in Ha. congruence.
Qed.

(** What set leaves in memory and hands to the store. *)
Lemma set_keeps i st msg s rec : promotion s.1 = Some rec → safe_promotion s.2 →
  let rec' := with_applications rec (alter (λ a, mk_promoted (pa_Name a) st msg) i (p_Applications rec)) in
  carried r rec' ∧ underway rec' →
  let s' := (set_application world i st msg s).2 in
  promotion s'.1 = Some rec' ∧ last_kept s'.2 = Some rec' ∧ safe_promotion s'.2.
Proof.
  intros Hp Hs rec' [Hc Hu]. unfold set_application, keep_promotion. rewrite then_set, then_get. cbn [fst set_promotion promotion]. rewrite Hp. cbn [fmap option_fmap option_map].
  fold rec'. rewrite then_perform. cbn. split_and!; [done|done|done|by left|done].
Qed.

(** ** One application *)

Lemma front_reached k i a : front k (p_Applications r) → p_Applications r !! i = Some a → reached (pa_Status a) = true → (k ≤ i)%nat.
Proof. intros Hf Ha Hr. destruct (decide (i < k)%nat) as [Hl|]; [|lia]. apply (Hf i a Ha) in Hl. congruence. Qed.

Lemma set_starting i a s rec : upto i s rec → p_Applications r !! i = Some a → reached (pa_Status a) = true →
  ∃ rec', during i (pa_Name a) (set_application world i PromotedStarting [] s).2 rec'.
Proof.
  intros [H1 H2 H3 H4 H5 H6] Ha Hr. destruct begun as (_ & _ & k & Hk). pose proof (front_reached k i a Hk Ha Hr) as Hki.
  set (rec' := with_applications rec (alter (λ a, mk_promoted (pa_Name a) PromotedStarting []) i (p_Applications rec))).
  assert (p_Applications rec' !! i = Some (mk_promoted (pa_Name a) PromotedStarting [])) as Hi.
  { simpl. rewrite list_lookup_alter_eq, H6, Ha by lia. done. }
  assert (∀ j, i ≠ j → p_Applications rec' !! j = p_Applications rec !! j) as Hj by (intros j Hj; simpl; by rewrite list_lookup_alter_ne).
  assert (front i (p_Applications rec')) as Hf.
  { intros j b Hb. split; intros Hl; rewrite Hj in Hb by lia; [by eapply H5|]. rewrite H6 in Hb by lia. apply (Hk j b Hb). lia. }
  assert (carried r rec') as Hc by (apply carried_alter; [done|intros b Hb; congruence]).
  destruct (set_keeps i PromotedStarting [] s rec H2 H1) as (E1 & E2 & E3); [split; [exact Hc|split; [apply H4|split; [apply H4|by exists i]]]|].
  exists rec'. split; try done; [by eexists|by exists a|]. intros j Hl. rewrite Hj by lia. apply H6. lia.
Qed.

Lemma set_outcome i n st msg s rec : during i n s rec → reached st = false → ∃ rec', upto (S i) (set_application world i st msg s).2 rec'.
Proof.
  intros [H1 H2 _ H4 H5 (a & Ha & Hn & _) H7 (b & Hb & Hbr) H9] Hst.
  set (rec' := with_applications rec (alter (λ a, mk_promoted (pa_Name a) st msg) i (p_Applications rec))).
  assert (p_Applications rec' !! i = Some (mk_promoted (pa_Name a) st msg)) as Hi by (simpl; rewrite list_lookup_alter_eq, Ha; done).
  assert (∀ j, i ≠ j → p_Applications rec' !! j = p_Applications rec !! j) as Hj by (intros j Hj; simpl; by rewrite list_lookup_alter_ne).
  assert (carried r rec') as Hc by (apply carried_alter; [done|intros x Hx; congruence]).
  assert (∀ j x, (j < S i)%nat → p_Applications rec' !! j = Some x → reached (pa_Status x) = false) as Hbefore.
  { intros j x Hl Hx. destruct (decide (i = j)) as [<-|Hij]; [rewrite Hi in Hx; by injection Hx as <-|]. rewrite Hj in Hx by done. apply (H7 j x Hx). lia. }
  destruct (set_keeps i st msg s rec H2 H1) as (E1 & E2 & E3).
  { split; [exact Hc|]. split; [apply H5|]. split; [apply H5|]. exists (S i). intros j x Hx. split; [intros; by eapply Hbefore|].
    intros Hl. rewrite Hj in Hx by lia. apply (H7 j x Hx). lia. }
  exists rec'. split; try done. intros j Hl. rewrite Hj by lia. apply H9. lia.
Qed.

Lemma promoteApplication_during i n rec : triple (λ s, during i n s rec) (promoteApplication world n)
  (λ x s, during i n s rec ∧ reached x.1 = false).
Proof.
  assert (∀ c, (∀ x, c ≠ PKeep x) → (∀ s, during i n s rec → ∀ a, fits_promotion s.2 (mk_happened c a)) →
    triple (λ s, during i n s rec) (perform world c) (λ _ s, during i n s rec)) as Hcall.
  { intros c Hc Hf. apply triple_perform. intros s a H. apply during_step; [done|done|by apply Hf]. }
  unfold promoteApplication. apply (triple_then _ _ _ (λ _ s, during i n s rec)).
  - unfold activeDeployment. apply (triple_then _ _ _ (λ _ s, during i n s rec)); [apply Hcall; [done|intros s H a; by eapply during_at_work]|].
    intros [e|app]; [by apply triple_ret|]. destruct (app_ActiveDeploymentID app); [|by apply triple_ret].
    apply (triple_then _ _ _ (λ _ s, during i n s rec)); [by apply Hcall|]. intros [?|?]; by apply triple_ret.
  - intros [[[| | |]|]|[app dep]]; try (by apply triple_ret).
    apply (triple_then _ _ _ (λ _ s, during i n s rec)).
    { destruct (String.eqb _ _); [by apply triple_ret|]. apply Hcall; [done|intros s H a; by eapply during_at_work]. }
    intros [| |e]; [|by apply triple_ret..]. apply (triple_then _ _ _ (λ _ s, during i n s rec)); [by apply Hcall|].
    intros [?|]; by apply triple_ret.
Qed.

(** ** All of them *)

Lemma promote_each_upto l : ∀ i, l = drop i (p_Applications r) →
  triple (λ s, ∃ rec, upto i s rec) (promote_each world i l)
    (λ b s, if b then safe_promotion s.2 ∧ told_to_stop s.2 else ∃ rec, upto (List.length (p_Applications r)) s rec).
Proof.
  induction l as [|a l IH]; intros i El; cbn [promote_each].
  - apply triple_ret. intros s (rec & [H1 H2 H3 H4 H5 H6]). exists rec.
    assert (List.length (p_Applications r) ≤ i)%nat as Hi by (by apply drop_nil_inv).
    split; try done; [intros j b Hj; apply H5; lia|]. intros j Hj.
    assert (p_Applications r !! j = None) as E by (by apply lookup_ge_None_2). rewrite E.
    apply lookup_ge_None_2. rewrite <- (length_fmap pa_Name), (carried_names _ _ H3), length_fmap. done.
  - assert (p_Applications r !! i = Some a) as Ha by (rewrite <- (Nat.add_0_r i), <- lookup_drop, <- El; done).
    assert (l = drop (S i) (p_Applications r)) as El' by (rewrite (drop_S _ _ _ Ha) in El; by injection El).
    destruct (reached (pa_Status a)) eqn:Er; cbn [negb].
    + apply (triple_then _ _ _ (λ _ s, ∃ rec, during i (pa_Name a) s rec)); [intros s (rec & H); by eapply set_starting|]. intros _.
      apply (triple_then _ _ _ (λ x s, ∃ rec, during i (pa_Name a) s rec ∧ reached x.1 = false)).
      { intros s (rec & H). exists rec. by apply promoteApplication_during. }
      intros [st msg]. cbn [fst]. apply (triple_then _ _ _ (λ b s, (∃ rec, during i (pa_Name a) s rec ∧ reached st = false) ∧ (b = true → told_to_stop s.2))).
      { apply (triple_perform (answer := panswer) world _ PStopping). intros s b (rec & H & Hr). split; [|intros ->; by left].
        exists rec. split; [|done]. by apply during_step. }
      intros [|]; [apply triple_ret; intros s [(rec & H & _) Ht]; split; [apply (w_safe _ _ _ _ H)|by apply Ht]|].
      apply (triple_then _ _ _ (λ _ s, ∃ rec, upto (S i) s rec)); [intros s [(rec & H & Hr) _]; by eapply set_outcome|]. intros _. by apply IH.
    + eapply triple_conseq; [by apply (IH (S i))| |done]. intros s (rec & [H1 H2 H3 H4 H5 H6]). exists rec. split; try done.
      * intros j b Hj Hb. destruct (decide (j = i)) as [->|]; [|apply (H5 j b); [lia|done]]. rewrite H6 in Hb by lia. congruence.
      * intros j Hj. apply H6. lia.
Qed.

Lemma promote_ends s : promotion s.1 = Some r → s.2 = [] →
  safe_promotion (promote world s).2.2 ∧
  (told_to_stop (promote world s).2.2 ∨
   ∃ rec, promotion (promote world s).2.1 = Some rec ∧ promoting (promote world s).2.1 = false ∧ carried r rec ∧ ended rec ∧ last_kept (promote world s).2.2 = Some rec).
Proof.
  intros Hp Hs. unfold promote. rewrite then_get, Hp, then_eq.
  pose proof (promote_each_upto (p_Applications r) 0 eq_refl s) as H. destruct (promote_each world 0 (p_Applications r) s) as [b s1]. cbn [fst snd] in *.
  assert (∃ rec, upto 0 s rec) as Hu.
  { exists r. destruct begun as (? & ? & _). split; try done; [by rewrite Hs|intros j a Hj; lia]. }
  specialize (H Hu). clear Hu.
  destruct b; [destruct H as [H1 H2]; split; [cbn; by split|left; cbn; by right]|].
  destruct H as (rec & [H1 H2 H3 H4 H5 H6]). rewrite then_perform, then_set. unfold keep_promotion. cbn [fst snd]. rewrite then_eq, then_get.
  cbn [fst set_promotion promotion]. rewrite H2. cbn [fmap option_fmap option_map]. set (rec' := with_end rec _ _).
  assert (ended rec') as He.
  { split; [done|]. split; [|done]. apply Forall_lookup. intros j a Ha. eapply H5; [|exact Ha]. apply lookup_lt_Some in Ha. simpl in Ha.
    rewrite <- (length_fmap pa_Name), (carried_names _ _ H3), length_fmap in Ha. done. }
  assert (carried r rec') as Hc by (destruct H3; by split).
  cbn. split; [by split_and!; auto|]. right. exists rec'. by split_and!.
Qed.
End Carry.

(** ** Lives of the agent *)

(** What the store holds after [h]: the last record it took. *)
Fixpoint stored (r : promotionRecord) (h : ptrace) : promotionRecord :=
  match h with
  | [] => r
  | mk_happened c a :: rest =>
      match c return panswer c → promotionRecord with
      | PKeep rec => λ a, if (a : bool) then rec else stored r rest
      | _ => λ _, stored r rest
      end a
  end.

(** An agent that found the promotion unfinished, and was cut off after [h],
    anywhere on its way, leaving [r'] in the store. *)
Inductive life (r r' : promotionRecord) : Prop :=
  | Life world t more h : p_CompletedAt r = None → promotion t = Some r →
      (promote world (t, [])).2.2 = (more ++ h)%list → r' = stored r h → life r r'.

Definition sound (r : promotionRecord) : Prop := underway r ∨ ended r.

Lemma stored_carried r h : underway r → safe_promotion r h → carried r (stored r h) ∧ sound (stored r h).
Proof.
  intros Hr. induction h as [|[c a] h IH]; [intros _; split; [reflexivity|by left]|]. intros [Hf Hs]. specialize (IH Hs).
  destruct c; try exact IH. simpl in *. destruct a; [|exact IH]. destruct Hf as [? [?|?]]; (split; [done|]); [by left|by right].
Qed.
Lemma safe_suffix r more h : safe_promotion r (more ++ h)%list → safe_promotion r h.
Proof. induction more as [|e more IH]; [done|]. intros [_ H]. by apply IH. Qed.

Lemma life_carried r r' : sound r → life r r' → carried r r' ∧ sound r'.
Proof.
  intros [Hu|[Hc _]] [world t more h Ho Hp Ht ->]; [|by destruct Hc].
  destruct (promote_ends world r Hu (t, []) Hp eq_refl) as [Hs _]. rewrite Ht in Hs. apply stored_carried; [done|by eapply safe_suffix].
Qed.
Lemma lives_carried r r' : rtc life r r' → sound r → carried r r' ∧ sound r'.
Proof.
  induction 1 as [r|r r1 r2 H1 _ IH]; intros Hr; [by split|]. destruct (life_carried _ _ Hr H1) as [Hc Hs]. destruct (IH Hs) as [Hc' Hs'].
  split; [by etrans|done].
Qed.

(** What a promotion begins as. *)
Lemma StartPromotion_begins world addresses s rec : (StartPromotion world addresses s).1 = inr rec → p_CompletedAt rec = None →
  p_Status rec = PromotionRunning ∧ Forall (λ a, pa_Status a = PromotedPending) (p_Applications rec) ∧
  promoting s.1 = false ∧ importing s.1 = false ∧
  promotion (StartPromotion world addresses s).2.1 = Some rec ∧ promoting (StartPromotion world addresses s).2.1 = true.
Proof.
  unfold StartPromotion. rewrite then_get. destruct (promoting s.1) eqn:Ep; [done|]. destruct (importing s.1) eqn:Ei; [done|].
  rewrite try_eq. destruct (perform world PDeployed s) as [[e|l] s1] eqn:E; [done|]. injection E as _ <-. cbn [fst snd]. rewrite then_perform.
  set (now := world _ PNow). destruct (standbyApplications l) as [|d ds]; [by intros [= <-] ?|]. rewrite then_perform. cbn [snd].
  match goal with |- context [if negb ?b then _ else _] => destruct b end; cbn [negb]; [|done]. rewrite then_perform, then_set. cbn [fst snd].
  unfold keep_promotion. rewrite then_eq, then_get. cbn [fst promotion set_promotion set_promoting]. rewrite then_perform. cbn [fst snd mret]. rewrite then_perform.
  cbn [fst ok mret]. intros [= <-] _. split_and!; [done| |done|done|done|done].
  cbn [p_Applications]. constructor; [done|]. by induction ds; constructor.
Qed.

(** C22: a promotion whose record the store has is carried through, however often
    the agent is cut off, wherever, and whichever later writes of its record the
    store refuses. Whatever
    record the store is left with, it is of the same promotion: the same
    applications in the same order, with outcomes up to some application and
    nothing begun after it, and with every outcome an earlier record had. An
    agent that goes on from it asks about and starts only applications without
    an outcome, one at a time and in order: what it handed to the store last
    says that this one is being started, that every one before it has its
    outcome and that none after it has been begun. Unless it is told to stop, it
    ends the promotion, every application has an outcome, those there were are
    kept, and the promotion has failed exactly when one of them has. *)
Theorem promotion_carried_on (r0 r : promotionRecord) world0 addresses s0 world (t : transfer) :
  (StartPromotion world0 addresses s0).1 = inr r0 → p_CompletedAt r0 = None → NoDup (pa_Name <$> p_Applications r0) → rtc life r0 r →
  (p_ID r, p_Records r, p_StartedAt r, p_Actor r) = (p_ID r0, p_Records r0, p_StartedAt r0, p_Actor r0) ∧
  pa_Name <$> p_Applications r = pa_Name <$> p_Applications r0 ∧
  (p_CompletedAt r = None → promotion t = Some r →
    (∃ k, front k (p_Applications r)) ∧
    let s := (promote world (t, [])).2 in
    (∀ later e before n, s.2 = (later ++ e :: before)%list → what e = PStart n ∨ what e = PGetApplication n →
       (∀ a, a ∈ p_Applications r → pa_Name a = n → reached (pa_Status a) = true) ∧
       ∃ rec i a, last_kept before = Some rec ∧ p_Applications rec !! i = Some a ∧ pa_Name a = n ∧ pa_Status a = PromotedStarting ∧
         ∀ j b, p_Applications rec !! j = Some b → (j < i → reached (pa_Status b) = false)%nat ∧ (i < j → pa_Status b = PromotedPending)%nat) ∧
    (mk_happened PStopping true ∈ s.2 ∨
     ∃ rec, promotion s.1 = Some rec ∧ promoting s.1 = false ∧ last_kept s.2 = Some rec ∧ p_CompletedAt rec ≠ None ∧
       pa_Name <$> p_Applications rec = pa_Name <$> p_Applications r0 ∧
       (∀ i a, p_Applications r !! i = Some a → reached (pa_Status a) = false → p_Applications rec !! i = Some a) ∧
       (∀ a, a ∈ p_Applications rec → reached (pa_Status a) = false) ∧
       (p_Status rec = PromotionFailed ↔ ∃ a, a ∈ p_Applications rec ∧ pa_Status a = PromotedFailed))).
Proof.
  intros Hstart Ho Hnd Hlives. destruct (StartPromotion_begins _ _ _ _ Hstart Ho) as (Hst & Hpend & _).
  assert (sound r0) as H0.
  { left. split; [done|]. split; [done|]. exists 0%nat. intros i a Ha. split; [lia|]. intros _. rewrite Forall_forall in Hpend. eapply Hpend, list_elem_of_lookup_2, Ha. }
  destruct (lives_carried _ _ Hlives H0) as [[Hsame Hnames Hout] Hs]. split; [exact Hsame|]. split; [exact Hnames|].
  intros Hc Hp. destruct Hs as [Hu|[? _]]; [|by destruct Hc]. split; [by destruct Hu as (_ & _ & ?)|]. intros s.
  destruct (promote_ends world r Hu (t, []) Hp eq_refl) as [Hsafe Hend]. fold s in Hsafe, Hend. split.
  - intros later e before n E He. rewrite E in Hsafe. apply safe_suffix in Hsafe as [Hf Hb].
    assert (at_work n before) as Hw by (unfold fits_promotion in Hf; by destruct He as [He|He]; rewrite He in Hf).
    destruct Hw as (rec & i & a & Hk & Ha & Hn & Hsa & Hfr). split; [|by exists rec, i, a].
    intros b Hb' Hbn. destruct (reached (pa_Status b)) eqn:Er; [done|]. exfalso.
    assert (carried r rec) as Hcr.
    { clear -Hk Hb. induction before as [|[c x] l IH]; [done|]. destruct Hb as [Hf Hb]. destruct c; try (by apply IH). injection Hk as <-. by destruct Hf. }
    apply list_elem_of_lookup in Hb' as [j Hj]. pose proof (carried_outcomes _ _ Hcr _ _ Hj Er) as Hj'.
    assert (i = j) as <-.
    { eapply (NoDup_lookup (pa_Name <$> p_Applications rec)); [by rewrite (carried_names _ _ Hcr), Hnames| |];
        rewrite list_lookup_fmap; [by rewrite Ha|by rewrite Hj'; simpl; congruence]. }
    rewrite Ha in Hj'. injection Hj' as <-. rewrite Hsa in Er. discriminate Er.
  - destruct Hend as [?|(rec & H1 & H2 & [H3 H4 H5] & (H6 & H7 & H8) & H9)]; [by left|right]. exists rec.
    split_and!; [done|done|done|done|congruence|done|by rewrite Forall_forall in H7|].
    rewrite H8. split.
    + intros Hf. destruct (existsb _ _) eqn:Ee; [|done]. apply existsb_true in Ee as (a & Ha & Hb%bool_decide_eq_true). by exists a.
    + intros (a & Ha & Hb). rewrite (proj2 (existsb_true _ _)); [done|]. exists a. split; [done|]. by apply bool_decide_eq_true.
Qed.

Module PromotionWitness.
Local Open Scope string_scope.
Definition dep (id : Z) (name : string) : Deployment := mk_deployment id id name 2 "v2" "shop/api:v2" secret_app StatusActive "" 30 None KindStandby None "admin" "" 0 0 no_references.
(** The database starts at once, the application never becomes ready. *)
Definition world (h : ptrace) (c : pcall) : panswer c :=
  match c with
  | PDeployed => inr [(mk_application 1 "api" DesiredStopped (Some 2) 0 0, Some (dep 2 "api")); (mk_application 2 "db" DesiredStopped (Some 1) 0 0, Some (dep 1 "db"))]
  | PNow => 200 | PActor => "admin" | PBeginOp => true | PStopping => false | PKeep _ => true | PKeepImport _ => true
  | PGetApplication n => inr (mk_application 1 n DesiredStopped (Some 2) 0 0) | PGetDeployment id => inr (dep id "api")
  | PStart _ => IsStarted | PAwait _ => match last_kept h with Some r => match p_Applications r with a :: _ => if reached (pa_Status a) then None else Some [L "not ready"] | [] => None end | None => None end
  | PTransferPull => None | PTransferImport => inr None | PTransferPromotion => inr None | POpDone => tt | PLaunch => tt
  end.
Definition memory (r : promotionRecord) : transfer := mk_transfer false true (Some r) None.
Definition idle : transfer := mk_transfer false false None None.
Definition two : promotionRecord :=
  match (StartPromotion world ["203.0.113.7"] (idle, [])).1 with inr r => r | inl _ => mk_promotion [] [] 0 PromotionFailed 0 None "" end.
(** The first agent is cut off while it waits for the second application. *)
Definition first_life : ptrace := drop 6 (promote world (memory two, [])).2.2.
Definition stops (e : Effects.happened panswer) : bool :=
  match e with mk_happened c a => match c return panswer c → bool with PStopping => λ a, a | _ => λ _, false end a end.
Definition left_over : promotionRecord := stored two first_life.
End PromotionWitness.

Lemma promotion_carried_on_witness :
  (pa_Status <$> p_Applications PromotionWitness.left_over) = [PromotedRunning; PromotedStarting] ∧
  ∃ rec, promotion (promote PromotionWitness.world (PromotionWitness.memory PromotionWitness.left_over, [])).2.1 = Some rec ∧
    p_Applications rec !! 0%nat = Some (mk_promoted "db" PromotedRunning []) ∧ p_Status rec ≠ PromotionFailed.
Proof.
  split; [vm_compute; reflexivity|].
  assert (rtc life PromotionWitness.two PromotionWitness.left_over) as Hl.
  { apply rtc_once. eapply (Life _ _ PromotionWitness.world (PromotionWitness.memory PromotionWitness.two)); [vm_compute; reflexivity|reflexivity| |reflexivity].
    symmetry. apply (take_drop 6). }
  destruct (promotion_carried_on PromotionWitness.two PromotionWitness.left_over PromotionWitness.world ["203.0.113.7"%string] (PromotionWitness.idle, [])
    PromotionWitness.world (PromotionWitness.memory PromotionWitness.left_over)) as (_ & _ & H).
  - vm_compute. reflexivity.
  - vm_compute. reflexivity.
  - vm_compute. constructor; [intros Hin; apply list_elem_of_singleton in Hin; discriminate Hin|apply NoDup_singleton].
  - exact Hl.
  - destruct H as (_ & _ & H); [vm_compute; reflexivity|reflexivity|].
    destruct H as [H|(rec & H1 & _ & _ & _ & _ & H6 & _ & H8)].
    + exfalso. assert (existsb PromotionWitness.stops (promote PromotionWitness.world (PromotionWitness.memory PromotionWitness.left_over, [])).2.2 = true) as Hs
        by (apply existsb_true; by eexists). vm_compute in Hs. discriminate Hs.
    + exists rec. split; [exact H1|]. split; [apply H6; vm_compute; reflexivity|].
      intros Hf. vm_compute in H1. injection H1 as <-. discriminate Hf.
Defined.
