(* ===== verification/Roles.v ===== *)
(** * Roles, limits and access rules (src/pkg/api: tokens.go, access.go, signin.go)

    What a caller is, what a role covers, which applications a caller is limited
    to, and what the access rules give a person who signed in. A role is a
    string, as it is in the database: the three roles are the ones
    [ValidateRole] lets in. *)

From stdpp Require Import sorting.
From S2P Require Import Prelude GoStrings GoURL GoTime SpecTypes SpecNames SpecValidate SpecReferences.
From Stdlib Require Import Ascii String.
Local Open Scope string_scope.

(** ** Roles *)

Definition RoleRead := "read".
Definition RoleDeploy := "deploy".
Definition RoleAdmin := "admin".
Definition roleOrder : list string := [RoleRead; RoleDeploy; RoleAdmin].

(** slices.Index *)
Fixpoint Index (l : list string) (x : string) : Z :=
  match l with
  | [] => -1
  | y :: r => if String.eqb x y then 0 else let i := Index r x in if (i <? 0)%Z then i else (i + 1)%Z
  end.

Definition Covers (r required : string) : bool := (Index roleOrder required <=? Index roleOrder r)%Z.
Definition Valid (r : string) : bool := contains roleOrder r.
Definition ValidateRole (r : string) : result unit :=
  if Valid r then Ok tt else Err [L "invalid role "; Q r; L ": use read, deploy or admin"].

(** ** Callers *)

Definition ActorToken := "token".
Definition ActorUser := "user".
Definition RootTokenName := "root".

Record TokenIdentity := mk_identity { ti_Name : string; ti_Role : string; ti_Kind : string; ti_Applications : list string; ti_ExpiresAt : option Time }.

Definition nonnil (l : list string) : bool := match l with [] => false | _ => true end.
Definition Limited (t : TokenIdentity) : bool := nonnil (ti_Applications t) && negb (String.eqb (ti_Role t) RoleAdmin).
Definition Allows (t : TokenIdentity) (application : string) : bool := negb (Limited t) || contains (ti_Applications t) application.

Definition ValidateTokenName (name : string) : result unit :=
  if negb (label 40 name) then Err [L "invalid token name "; Q name; L ": use lowercase letters, digits and dashes (max 40 characters), e.g. ci"]
  else if String.eqb name RootTokenName then Err [Q name; L " is the name of the token the agent is configured with; choose another"]
  else Ok tt.

Definition MaxTokenApplications : Z := 50.
(** The loop of ValidateTokenApplications: each name once, in the order they come. *)
Fixpoint each_valid_once (out names : list string) : result (list string) :=
  match names with
  | [] => Ok out
  | name :: rest =>
      match ValidateName name with
      | Err e => Err (L "applications: " :: e)
      | Ok _ => each_valid_once (if contains out name then out else (out ++ [name])%list) rest
      end
  end.
Definition ValidateTokenApplications (role : string) (applications : list string) : result (list string) :=
  if negb (nonnil applications) then Ok [] else
  if negb (String.eqb role RoleDeploy)
  then Err [L "only a deploy token can be limited to applications: a read token changes nothing, and admin is for the whole server"] else
  do! out := each_valid_once [] applications in
  if (MaxTokenApplications <? Z.of_nat (List.length out))%Z
  then Err [L "a token can be limited to at most "; D MaxTokenApplications; L " applications"]
  else Ok (merge_sort str_le out).

(** ** Names of people *)

Definition email_first (c : ascii) : bool := is_lower c || is_digit c.
Definition email_char (c : ascii) : bool := email_first c || contains (list_ascii_of_string "._%+'-") c.
Definition email_domain_char (c : ascii) : bool := email_first c || contains (list_ascii_of_string ".-") c.
(** ^[a-z0-9][a-z0-9._%+'-]{0,63}@[a-z0-9.-]{1,253}$: the local part holds no @. *)
Definition emailPattern (s : string) : bool :=
  let '(local, domain, at_) := cut "@" s in
  at_ && first_is email_first local && str_forall email_char local && (slen local <=? 64)%Z &&
  nonempty domain && str_forall email_domain_char domain && (slen domain <=? 253)%Z.

Definition domain_of (address : string) : string := (cut "@" address).1.2.

Definition NormalizeEmail (address : string) : result string :=
  let email := to_lower (trim_space address) in
  if (254 <? slen email)%Z || negb (emailPattern email) || negb (is_ok (ValidateDomain (domain_of email)))
  then Err [L "not an e-mail address; use one like ada@example.com"]
  else Ok email.

Definition maxGroupName : Z := 256.
(** A control character is a byte of its own in UTF-8. *)
Definition ValidGroup (name : string) : bool :=
  nonempty name && (slen name <=? maxGroupName)%Z && String.eqb (trim_space name) name && negb (str_exists is_control name).

Definition maxPersonName : Z := 254.
Definition person_char (c : ascii) : bool := is_letter c || is_digit c || contains (list_ascii_of_string "._%+'@|:=#~-") c.
Definition ValidatePersonName (name : string) : result unit :=
  if nonempty name && (slen name <=? maxPersonName)%Z && str_forall person_char name then Ok tt
  else Err [L "not a name the provider's claim can hold: at most "; D maxPersonName; L " letters, digits and . _ % + ' @ | : = # ~ -, without spaces"].

Definition DefaultNameClaim := "email".
Definition PersonName (claim value : string) : result string :=
  if String.eqb claim DefaultNameClaim || String.eqb claim "" then NormalizeEmail value else
  do! _ := ValidatePersonName value in Ok value.

Definition WhoOf (name : string) : string :=
  match NormalizeEmail name with
  | Ok address => if String.eqb address name then name else "name:" ++ name
  | Err _ => "name:" ++ name
  end.

(** ** Access rules *)

Definition AccessEmail := "email".
Definition AccessGroup := "group".
Definition AccessDomain := "domain".
Definition AccessName := "name".
Definition MaxAccessRules : Z := 200.

Record AccessRule := mk_rule { ar_ID : Z; ar_Kind : string; ar_Subject : string; ar_Role : string; ar_Applications : list string; ar_CreatedAt : Time; ar_CreatedBy : string }.

Definition ValidateAccessSubject (kind subject : string) : result string :=
  if String.eqb kind AccessEmail then NormalizeEmail subject else
  if String.eqb kind AccessDomain then
    let domain := to_lower (trim_space subject) in
    if negb (is_ok (ValidateDomain domain)) || has_prefix "*" domain
    then Err [L "invalid domain "; Q subject; L ": use the part after the @, e.g. example.com"] else Ok domain
  else if String.eqb kind AccessGroup then
    if negb (ValidGroup subject) then Err [L "invalid group: use the name as the provider sends it, at most "; D maxGroupName; L " characters"] else Ok subject
  else if String.eqb kind AccessName then do! _ := ValidatePersonName subject in Ok subject
  else Err [L "invalid kind "; Q kind; L ": use email, group, domain or name"].

Definition ParseAccessSubject (s : string) : result (string * string) :=
  let go kind subject := do! v := ValidateAccessSubject kind subject in Ok (kind, v) in
  if has_prefix "group:" s then go AccessGroup (trim_prefix "group:" s) else
  if has_prefix "name:" s then go AccessName (trim_prefix "name:" s) else
  if has_prefix "*@" s then go AccessDomain (trim_prefix "*@" s) else
  if contains_char "@" s then go AccessEmail s else
  Err [Q s; L " is neither an address, a domain, a group nor a name: use ada@example.com, *@example.com, group:platform or name:"; S' s].

Definition Who (kind subject : string) : string :=
  if String.eqb kind AccessGroup then "group:" ++ subject else
  if String.eqb kind AccessDomain then "*@" ++ subject else
  if String.eqb kind AccessName then "name:" ++ subject else subject.

(** ** What the rules give a person *)

Record Grant := mk_grant { g_Role : string; g_Applications : list string }.
#[export] Instance Grant_eq_dec : EqDecision Grant.
Proof. solve_decision. Defined.

Definition grantOf (r : AccessRule) : Grant := mk_grant (ar_Role r) (ar_Applications r).
Definition Equal (g other : Grant) : bool := bool_decide (g = other).

(** The loop over the rules: by address, by group, by domain; a rule by name returns. *)
Fixpoint matching (name email domain : string) (groups : list string) (byEmail : option AccessRule) (byGroup : list AccessRule) (byDomain : option AccessRule)
    (rules : list AccessRule) : Grant + (option AccessRule * list AccessRule * option AccessRule) :=
  match rules with
  | [] => inr (byEmail, byGroup, byDomain)
  | r :: rest =>
      if String.eqb (ar_Kind r) AccessName && String.eqb (ar_Subject r) name then inl (grantOf r)
      else if String.eqb (ar_Kind r) AccessEmail && nonempty email && String.eqb (ar_Subject r) email
      then matching name email domain groups (Some r) byGroup byDomain rest
      else if String.eqb (ar_Kind r) AccessGroup && contains groups (ar_Subject r)
      then matching name email domain groups byEmail (byGroup ++ [r])%list byDomain rest
      else if String.eqb (ar_Kind r) AccessDomain && nonempty domain && String.eqb (ar_Subject r) domain
      then matching name email domain groups byEmail byGroup (Some r) rest
      else matching name email domain groups byEmail byGroup byDomain rest
  end.

(** One more group: the higher role; at the same role no limit lifts the limit, and limits add up. *)
Definition better (best g : Grant) : Grant :=
  if negb (String.eqb (g_Role g) (g_Role best)) then if Covers (g_Role g) (g_Role best) then g else best
  else if negb (nonnil (g_Applications g)) || negb (nonnil (g_Applications best)) then mk_grant (g_Role best) []
  else mk_grant (g_Role best) (merge_sort str_le (once (λ _, true) (g_Applications best) (g_Applications g))).

Definition ResolveAccess (rules : list AccessRule) (name : string) (groups : list string) : option Grant :=
  let '(email, domain) := match NormalizeEmail name with Ok address => (address, domain_of address) | Err _ => ("", "") end in
  match matching name email domain groups None [] None rules with
  | inl g => Some g
  | inr (Some r, _, _) => Some (grantOf r)
  | inr (None, r :: rest, _) => Some (foldl (λ best r, better best (grantOf r)) (grantOf r) rest)
  | inr (None, [], Some r) => Some (grantOf r)
  | inr (None, [], None) => None
  end.

Definition example_rules : list AccessRule :=
  [mk_rule 1 "group" "web" "deploy" ["shop"; "web"] 0 "root"; mk_rule 2 "domain" "example.com" "read" [] 0 "root";
   mk_rule 3 "group" "ops" "deploy" ["api"; "web"] 0 "root"; mk_rule 4 "email" "eve@example.com" "read" [] 0 "root"].
Example resolves :
  (ResolveAccess example_rules "ada@example.com" ["web"; "ops"], ResolveAccess example_rules "eve@example.com" ["web"],
   ResolveAccess example_rules "Bob@Example.com" [], ResolveAccess example_rules "bob@example.org" [])
  = (Some (mk_grant "deploy" ["api"; "shop"; "web"]), Some (mk_grant "read" []), Some (mk_grant "read" []), None).
Proof. vm_compute. reflexivity. Qed.
