(* ===== verification/RolesInv.v ===== *)
(** * What the access rules give

    Which rule decides does not hang on the order the rules are stored in, and a
    rule's subject is written for people the way it is read back. *)

From stdpp Require Import sorting.
From S2P Require Import Prelude GoStrings GoURL GoTime SpecTypes SpecNames SpecValidate SpecReferences Roles.
From Stdlib Require Import Ascii String.
Local Open Scope string_scope.

(** ** Groups: the highest role, and the limits added up *)

Definition limits_ok (l : list string) : Prop := Sorted str_le l ∧ NoDup l.
Definition grant_ok (g : Grant) : Prop := Valid (g_Role g) = true ∧ limits_ok (g_Applications g).

(** [g] is what the grants [l] come to, said without their order. *)
Definition joins (l : list Grant) (g : Grant) : Prop :=
  grant_ok g ∧
  (∃ x, x ∈ l ∧ g_Role x = g_Role g) ∧
  (∀ x, x ∈ l → Covers (g_Role g) (g_Role x) = true) ∧
  (g_Applications g = [] ↔ ∃ x, x ∈ l ∧ g_Role x = g_Role g ∧ g_Applications x = []) ∧
  (g_Applications g ≠ [] → ∀ a, a ∈ g_Applications g ↔ ∃ x, x ∈ l ∧ g_Role x = g_Role g ∧ a ∈ g_Applications x).

Lemma Valid_cases r : Valid r = true → r = RoleRead ∨ r = RoleDeploy ∨ r = RoleAdmin.
Proof. unfold Valid. rewrite contains_spec. unfold roleOrder. rewrite !elem_of_cons, elem_of_nil. tauto. Qed.

Lemma Covers_antisym r q : Valid r = true → Valid q = true → Covers r q = true → Covers q r = true → r = q.
Proof. by intros [->| [->| ->]]%Valid_cases [->| [->| ->]]%Valid_cases. Qed.
Lemma Covers_total r q : Valid r = true → Valid q = true → Covers r q = false → Covers q r = true.
Proof. by intros [->| [->| ->]]%Valid_cases [->| [->| ->]]%Valid_cases. Qed.
Lemma Covers_trans r q p : Covers r q = true → Covers q p = true → Covers r p = true.
Proof. unfold Covers. lia. Qed.
Lemma Covers_refl r : Covers r r = true.
Proof. unfold Covers. lia. Qed.

Lemma limits_unique l l' : limits_ok l → limits_ok l' → (∀ a, a ∈ l ↔ a ∈ l') → l = l'.
Proof.
  intros [Hs Hd] [Hs' Hd'] H. apply (Sorted_unique str_le); [done..|]. by apply NoDup_Permutation.
Qed.

Lemma joins_unique l g g' : joins l g → joins l g' → g = g'.
Proof.
  intros ((Hv & Hl) & (x & Hx & Ex) & Hc & Hn & Ha) ((Hv' & Hl') & (x' & Hx' & Ex') & Hc' & Hn' & Ha').
  assert (g_Role g = g_Role g') as E.
  { apply Covers_antisym; [done..| |]; [rewrite <- Ex'; by apply Hc|rewrite <- Ex; by apply Hc']. }
  clear x x' Hx Hx' Ex Ex'. destruct g as [r a], g' as [r' a']; cbn [g_Role g_Applications] in *. subst r'. f_equal.
  destruct (decide (a = [])) as [->|Hne].
  { symmetry. apply Hn'. by apply Hn. }
  assert (a' ≠ []) as Hne'. { intros ->. apply Hne, Hn. by apply Hn'. }
  apply limits_unique; [done..|]. intros y. rewrite (Ha Hne), (Ha' Hne'). done.
Qed.

Lemma joins_perm l l' g : l ≡ₚ l' → joins l g → joins l' g.
Proof. intros Hp (H1 & H2 & H3 & H4 & H5). unfold joins. by setoid_rewrite <- Hp. Qed.

Lemma joins_one g : grant_ok g → joins [g] g.
Proof.
  intros Hg. split; [done|]. split; [by exists g; split; [left|]|]. split.
  { intros x ->%list_elem_of_singleton. apply Covers_refl. }
  split.
  - split; [intros H; exists g; by repeat split; [left|..]|]. by intros (x & ->%list_elem_of_singleton & _ & ?).
  - intros _ a. split; [intros H; exists g; by repeat split; [left|..]|]. by intros (x & ->%list_elem_of_singleton & _ & ?).
Qed.

Lemma nonnil_false l : negb (nonnil l) = true ↔ l = [].
Proof. by destruct l. Qed.

Lemma added_up l l' : NoDup l → limits_ok (merge_sort str_le (once (λ _, true) l l')) ∧
  ∀ a, a ∈ merge_sort str_le (once (λ _, true) l l') ↔ a ∈ l ∨ a ∈ l'.
Proof.
  intros Hd. destruct (once_spec (λ _, true) l l' Hd) as [Hd' Hin].
  split; [split; [apply (Sorted_merge_sort _)|by rewrite (merge_sort_Permutation str_le)]|].
  intros a. rewrite (merge_sort_Permutation str_le), Hin. naive_solver.
Qed.

Lemma in_snoc {A} (l : list A) x y : y ∈ (l ++ [x])%list ↔ y ∈ l ∨ y = x.
Proof. by rewrite elem_of_app, list_elem_of_singleton. Qed.

(** Grants that do not reach the highest role change nothing. *)
Lemma joins_lower l best g : joins l best → Covers (g_Role best) (g_Role g) = true → g_Role g ≠ g_Role best → joins (l ++ [g]) best.
Proof.
  intros (Hb & (x & Hx & Ex) & Hc & Hn & Ha) Hg Er. split; [done|]. setoid_rewrite in_snoc. split; [by eauto|].
  split; [intros y [Hy| ->]; auto|].
  assert (∀ P : Grant → Prop, (∃ y, y ∈ l ∧ g_Role y = g_Role best ∧ P y) ↔ (∃ y, (y ∈ l ∨ y = g) ∧ g_Role y = g_Role best ∧ P y)) as Hex by naive_solver.
  split; [by rewrite <- (Hex (λ y, g_Applications y = []))|]. intros Hne a. rewrite <- (Hex (λ y, a ∈ g_Applications y)). by apply Ha.
Qed.

Lemma joins_comm l l' g : joins (l ++ l') g → joins (l' ++ l) g.
Proof. apply joins_perm. by rewrite Permutation_app_comm. Qed.

(** A higher one replaces them. *)
Lemma joins_above l g : grant_ok g → (∀ y, y ∈ l → Covers (g_Role g) (g_Role y) = true ∧ g_Role y ≠ g_Role g) → joins (g :: l) g.
Proof.
  intros Hg. induction l as [|y r IH] using rev_ind; intros Hl; [by apply joins_one|].
  apply (joins_lower (g :: r)); [apply IH; intros z Hz|..]; apply Hl, in_snoc; auto.
Qed.
Lemma joins_higher l best g : joins l best → grant_ok g → Covers (g_Role g) (g_Role best) = true → g_Role g ≠ g_Role best → joins (l ++ [g]) g.
Proof.
  intros (Hb & _ & Hc & _) Hg Hcg Er. apply (joins_comm [g]), joins_above; [done|]. intros y Hy.
  split; [eapply Covers_trans; [done|by apply Hc]|]. intros E. apply Er. apply Covers_antisym; [apply Hg|apply Hb|done|]. rewrite <- E. by apply Hc.
Qed.

(** At the same role, no limit lifts the limit, and limits add up. *)
Lemma joins_same l best g : joins l best → grant_ok g → g_Role g = g_Role best → joins (l ++ [g]) (better best g).
Proof.
  intros (Hb & (x & Hx & Ex) & Hc & Hn & Ha) Hg Er. unfold better. rewrite Er, String.eqb_refl. cbn [negb].
  assert (∀ y, y ∈ l ∨ y = g → Covers (g_Role best) (g_Role y) = true) as Hc'.
  { intros y [Hy| ->]; [by apply Hc|]. rewrite Er. apply Covers_refl. }
  destruct (negb (nonnil (g_Applications g)) || negb (nonnil (g_Applications best))) eqn:E;
    (split; [split; [apply Hb|]|setoid_rewrite in_snoc; split; [by eauto|split; [done|cbn [g_Role g_Applications]; split; [|try done]]]]).
  - split; constructor.
  - split; [|done]. intros _. apply orb_true_iff in E as [E|E]; apply nonnil_false in E; [by eauto|]. apply Hn in E. naive_solver.
  - apply added_up, Hb.
  - apply orb_false_iff in E as [E1%negb_false_iff E2%negb_false_iff]. split.
    + intros Enil. exfalso. destruct (added_up (g_Applications best) (g_Applications g)) as [_ Hin]; [apply Hb|].
      destruct (g_Applications best) as [|y ?]; [done|]. assert (y ∈ @nil string) as ?%elem_of_nil; [|done]. rewrite <- Enil. apply Hin. left. by left.
    + intros (y & [Hy| ->] & Ey & Ny); exfalso; [|by rewrite Ny in E1]. assert (g_Applications best = []) as E0 by (apply Hn; eauto). by rewrite E0 in E2.
  - intros _ a. apply orb_false_iff in E as [E1%negb_false_iff E2%negb_false_iff].
    destruct (added_up (g_Applications best) (g_Applications g)) as [_ Hin]; [apply Hb|]. rewrite Hin, Ha by (intros E0; by rewrite E0 in E2). naive_solver.
Qed.

Lemma better_joins l best g : joins l best → grant_ok g → joins (l ++ [g]) (better best g).
Proof.
  intros Hl Hg. destruct (String.eqb_spec (g_Role g) (g_Role best)) as [Er|Er]; [by apply joins_same|].
  unfold better. rewrite (proj2 (String.eqb_neq _ _) Er). cbn [negb]. destruct (Covers (g_Role g) (g_Role best)) eqn:Ec.
  - by eapply joins_higher.
  - apply joins_lower; [done| |done]. apply Covers_total; [apply Hg|apply Hl|done].
Qed.

Lemma groups_join l : ∀ seen best, joins seen best → Forall grant_ok l → joins (seen ++ l) (foldl better best l).
Proof.
  induction l as [|g r IH]; intros seen best Hb Hl; simpl; [by rewrite app_nil_r|]. apply Forall_cons in Hl as [Hg Hr].
  rewrite cons_middle, (assoc_L (++)). apply IH; [by apply better_joins|done].
Qed.

(** ** Which rules match *)

(** What GrantAccess and the handler before it let into the table: one rule for
    a kind and subject, with what a role allows. *)
Definition rule_ok (r : AccessRule) : Prop := grant_ok (grantOf r).
Definition rules_ok (rules : list AccessRule) : Prop := NoDup ((λ r, (ar_Kind r, ar_Subject r)) <$> rules) ∧ Forall rule_ok rules.

Section Matching.
Context (name email domain : string) (groups : list string).

Definition of_kind (kind : string) (fits : string → bool) (r : AccessRule) : bool := String.eqb (ar_Kind r) kind && fits (ar_Subject r).
Definition named : AccessRule → bool := of_kind AccessName (λ s, String.eqb s name).
Definition addressed : AccessRule → bool := of_kind AccessEmail (λ s, nonempty email && String.eqb s email).
Definition grouped : AccessRule → bool := of_kind AccessGroup (contains groups).
Definition domained : AccessRule → bool := of_kind AccessDomain (λ s, nonempty domain && String.eqb s domain).
Definition pick (f : AccessRule → bool) (rules : list AccessRule) : list AccessRule := filter (λ r, f r = true) rules.

Lemma matching_picks rules : ∀ e g d, matching name email domain groups e g d rules =
  match pick named rules with
  | r :: _ => inl (grantOf r)
  | [] => inr (from_option Some e (last (pick addressed rules)), (g ++ pick grouped rules)%list, from_option Some d (last (pick domained rules)))
  end.
Proof.
  induction rules as [|r rest IH]; intros e g d; [simpl; by rewrite app_nil_r|].
  assert (∀ f, pick f (r :: rest) = if f r then r :: pick f rest else pick f rest) as Hpick.
  { intros f. unfold pick. rewrite filter_cons. by destruct (f r). }
  rewrite !Hpick. cbn [matching].
  assert (named r = String.eqb (ar_Kind r) AccessName && String.eqb (ar_Subject r) name) as -> by done.
  assert (addressed r = String.eqb (ar_Kind r) AccessEmail && (nonempty email && String.eqb (ar_Subject r) email)) as -> by done.
  assert (grouped r = String.eqb (ar_Kind r) AccessGroup && contains groups (ar_Subject r)) as -> by done.
  assert (domained r = String.eqb (ar_Kind r) AccessDomain && (nonempty domain && String.eqb (ar_Subject r) domain)) as -> by done.
  rewrite <- !andb_assoc.
  destruct (String.eqb_spec (ar_Kind r) AccessName) as [E|_]; [try rewrite E; cbn [String.eqb Ascii.eqb AccessName AccessEmail AccessGroup AccessDomain andb]|cbn [andb]].
  { destruct (String.eqb (ar_Subject r) name); [done|apply IH]. }
  destruct (String.eqb_spec (ar_Kind r) AccessEmail) as [E|_]; [try rewrite E; cbn [String.eqb Ascii.eqb AccessName AccessEmail AccessGroup AccessDomain andb]|cbn [andb]].
  { destruct (nonempty email && String.eqb (ar_Subject r) email); [|apply IH]. rewrite IH.
    destruct (pick named rest); [|done]. rewrite last_cons. by destruct (last (pick addressed rest)). }
  destruct (String.eqb_spec (ar_Kind r) AccessGroup) as [E|_]; [try rewrite E; cbn [String.eqb Ascii.eqb AccessName AccessEmail AccessGroup AccessDomain andb]|cbn [andb]].
  { destruct (contains groups (ar_Subject r)); [|apply IH]. rewrite IH. by rewrite <- app_assoc. }
  destruct (String.eqb_spec (ar_Kind r) AccessDomain) as [E|_]; [try rewrite E; cbn [String.eqb Ascii.eqb AccessName AccessEmail AccessGroup AccessDomain andb]|cbn [andb]]; [|apply IH].
  destruct (nonempty domain && String.eqb (ar_Subject r) domain); [|apply IH]. rewrite IH.
  destruct (pick named rest); [|done]. rewrite last_cons. by destruct (last (pick domained rest)).
Qed.

(** One rule for a kind and subject. *)
Lemma one_rule (rules : list AccessRule) r r' : NoDup ((λ r, (ar_Kind r, ar_Subject r)) <$> rules) → r ∈ rules → r' ∈ rules → (ar_Kind r, ar_Subject r) = (ar_Kind r', ar_Subject r') → r = r'.
Proof.
  intros Hd [i Hi]%list_elem_of_lookup [j Hj]%list_elem_of_lookup E. assert (i = j) as ->; [|congruence].
  eapply NoDup_lookup; [exact Hd|rewrite list_lookup_fmap, Hi; done|rewrite list_lookup_fmap, Hj; simpl; by rewrite E].
Qed.
(** A kind that fits one subject only picks one rule, in whatever order they are. *)
Lemma pick_one kind x fits rules rules' : NoDup ((λ r, (ar_Kind r, ar_Subject r)) <$> rules) → rules ≡ₚ rules' →
  (∀ s, fits s = true → s = x) → pick (of_kind kind fits) rules = pick (of_kind kind fits) rules'.
Proof.
  intros Hd Hp Hfit. assert (pick (of_kind kind fits) rules ≡ₚ pick (of_kind kind fits) rules') as Hpp by (unfold pick; by rewrite Hp).
  assert (∀ r, r ∈ pick (of_kind kind fits) rules → r ∈ rules ∧ (ar_Kind r, ar_Subject r) = (kind, x)) as Hin.
  { intros r [H Hr]%list_elem_of_filter. split; [done|]. unfold of_kind in H. bools. f_equal; [by apply String.eqb_eq|by apply Hfit]. }
  assert (NoDup (pick (of_kind kind fits) rules)) as Hd' by (apply NoDup_filter; by eapply NoDup_fmap_1).
  destruct (pick (of_kind kind fits) rules) as [|r [|r' t]]; [by apply Permutation_nil_l in Hpp|by apply Permutation_singleton_l in Hpp|].
  exfalso. assert (r = r') as <-.
  { apply (one_rule rules); [done|apply Hin; left|apply Hin; right; left|]. destruct (Hin r) as [_ ->]; [left|]. destruct (Hin r') as [_ ->]; [right; left|done]. }
  inversion_clear Hd' as [|? ? Hn]. apply Hn. by left.
Qed.
End Matching.

Lemma groups_fold r l : foldl (λ best r, better best (grantOf r)) (grantOf r) l = foldl better (grantOf r) (grantOf <$> l).
Proof. generalize (grantOf r). induction l as [|y l IH]; intros b; simpl; [done|apply IH]. Qed.

Lemma resolve_permuted rules rules' name groups : rules_ok rules → rules ≡ₚ rules' →
  ResolveAccess rules name groups = ResolveAccess rules' name groups.
Proof.
  intros [Hd Hok] Hp. unfold ResolveAccess.
  destruct (match NormalizeEmail name with Ok address => (address, domain_of address) | Err _ => ("", "") end) as [email domain].
  rewrite !matching_picks.
  assert (∀ kind x fits, (∀ s, fits s = true → s = x) → pick (of_kind kind fits) rules = pick (of_kind kind fits) rules') as Hone.
  { intros kind x fits. by apply pick_one. }
  assert (pick (named name) rules = pick (named name) rules') as -> by (apply (Hone AccessName name (λ s, String.eqb s name)); intros s; apply String.eqb_eq).
  assert (pick (addressed email) rules = pick (addressed email) rules') as -> by (apply (Hone AccessEmail email (λ s, nonempty email && String.eqb s email)); intros s H; bools; by apply String.eqb_eq).
  assert (pick (domained domain) rules = pick (domained domain) rules') as -> by (apply (Hone AccessDomain domain (λ s, nonempty domain && String.eqb s domain)); intros s H; bools; by apply String.eqb_eq).
  destruct (pick (named name) rules'); [|done]. destruct (last (pick (addressed email) rules')); [done|]. cbn [from_option app].
  assert (pick (grouped groups) rules ≡ₚ pick (grouped groups) rules') as Hg by (unfold pick; by rewrite Hp).
  assert (Forall grant_ok (grantOf <$> pick (grouped groups) rules)) as Hf.
  { apply Forall_fmap. apply Forall_forall. intros r [_ Hr]%list_elem_of_filter. by eapply Forall_forall in Hok. }
  apply (fmap_Permutation grantOf) in Hg.
  destruct (pick (grouped groups) rules) as [|r l] eqn:E, (pick (grouped groups) rules') as [|r' l'] eqn:E'; try done.
  - by apply Permutation_nil_l in Hg.
  - by apply Permutation_nil_r in Hg.
  - f_equal. rewrite !groups_fold. pose proof Hf as Hf'. rewrite Hg in Hf'. csimpl in *. apply Forall_cons in Hf as [Hr Hl], Hf' as [Hr' Hl'].
    apply (joins_unique (grantOf r :: (grantOf <$> l))).
    + by apply (groups_join _ [grantOf r]); [apply joins_one|].
    + eapply joins_perm; [symmetry; exact Hg|]. by apply (groups_join _ [grantOf r']); [apply joins_one|].
Qed.

(** ** Subjects, written and read *)

Lemma cut_app sep s a b : cut sep s = (a, b, true) → s = a ++ String sep b.
Proof.
  revert a b. induction s as [|c r IH]; intros a b; simpl; [done|].
  destruct (Ascii.eqb_spec c sep) as [->|]; [by intros [= <- <-]|].
  destruct (cut sep r) as [[b' a'] f]. intros [= <- <- ->]. simpl. by rewrite (IH b' a').
Qed.

(** Lower-case ASCII without spaces: what lowering and trimming leave alone. *)
Definition plain_char (c : ascii) : bool := (printable c && uncased c)%bool.

Lemma plain_fixed s : str_forall plain_char s = true → to_lower (trim_space s) = s.
Proof.
  intros H. rewrite trim_space_printable, to_lower_uncased; [done|..].
  all: eapply str_forall_impl; [|exact H]; intros c Hc; unfold plain_char in Hc; by bools.
Qed.

(** Every byte has the property: checked on all of them. *)
Lemma all_bytes (f : ascii → bool) : forallb (λ n, f (ascii_of_nat n)) (seq 0 256) = true → ∀ c, f c = true.
Proof.
  intros H c. rewrite forallb_forall in H. rewrite <- (ascii_nat_embedding c). apply H. apply in_seq. pose proof (nat_ascii_bounded c). lia.
Qed.

Lemma str_forall_join f sep l : str_forall f sep = true → Forall (λ x, str_forall f x = true) l → str_forall f (join sep l) = true.
Proof.
  intros Hs. induction l as [|x r IH]; [done|]. intros [Hx Hr]%Forall_cons. destruct r as [|y r]; [done|].
  change (join sep (x :: y :: r)) with (x ++ sep ++ join sep (y :: r)). by rewrite !str_forall_app, Hx, Hs, IH.
Qed.

Lemma ValidateDomain_plain s : is_ok (ValidateDomain s) = true → str_forall plain_char s = true.
Proof.
  unfold ValidateDomain. destruct (253 <? slen s)%Z; [done|]. destruct (forallb domainLabel (split "." s)) eqn:E; [|done]. intros _.
  rewrite <- (split_join "." s). apply str_forall_join; [done|]. apply forallb_Forall in E. eapply Forall_impl; [exact E|].
  intros x Hx. unfold domainLabel, label in Hx. bools. eapply str_forall_impl; [|eassumption].
  intros c Hc. assert (implb (label_char c) (plain_char c) = true) as Hi by (revert c Hc; intros c _; revert c; apply all_bytes; vm_compute; reflexivity).
  by rewrite Hc in Hi.
Qed.

Lemma emailPattern_plain s : emailPattern s = true → str_forall plain_char s = true.
Proof.
  unfold emailPattern. destruct (cut "@" s) as [[l d] a] eqn:E. intros H. bools. subst. apply cut_app in E as ->.
  rewrite str_forall_app. apply andb_true_iff. split; [|change (plain_char "@" && str_forall plain_char d = true); apply andb_true_iff; split; [done|]].
  all: eapply str_forall_impl; [|eassumption]; intros c Hc.
  - assert (implb (email_char c) (plain_char c) = true) as Hi by (clear Hc; revert c; apply all_bytes; vm_compute; reflexivity). by rewrite Hc in Hi.
  - assert (implb (email_domain_char c) (plain_char c) = true) as Hi by (clear Hc; revert c; apply all_bytes; vm_compute; reflexivity). by rewrite Hc in Hi.
Qed.

Lemma NormalizeEmail_ok a s : NormalizeEmail a = Ok s →
  s = to_lower (trim_space a) ∧ (slen s ≤ 254)%Z ∧ emailPattern s = true ∧ is_ok (ValidateDomain (domain_of s)) = true.
Proof.
  unfold NormalizeEmail. destruct (_ || _ || _) eqn:E; [done|]. intros [= <-]. bools. repeat split; [lia|done..].
Qed.

Lemma NormalizeEmail_again a s : NormalizeEmail a = Ok s → NormalizeEmail s = Ok s.
Proof.
  intros (_ & Hl & Hp & Hd)%NormalizeEmail_ok. unfold NormalizeEmail. rewrite (plain_fixed s (emailPattern_plain s Hp)), Hp, Hd.
  by destruct (Z.ltb_spec 254 (slen s)); [lia|].
Qed.

(** What is kept of a subject is judged the same again. *)
Lemma ValidateAccessSubject_again kind given subject : ValidateAccessSubject kind given = Ok subject → ValidateAccessSubject kind subject = Ok subject.
Proof.
  unfold ValidateAccessSubject. destruct (String.eqb kind AccessEmail); [apply NormalizeEmail_again|].
  destruct (String.eqb kind AccessDomain).
  { destruct (negb _ || _) eqn:E; [done|]. intros [= <-]. bools. rewrite (plain_fixed _ (ValidateDomain_plain _ ltac:(eassumption))). by rewrite H, H0. }
  destruct (String.eqb kind AccessGroup); [by destruct (negb (ValidGroup given)) eqn:E; [|intros [= <-]; rewrite E]|].
  destruct (String.eqb kind AccessName); [|done]. destruct (ValidatePersonName given) eqn:E; [|done]. intros [= <-]. simpl. by rewrite E.
Qed.

Lemma kinds kind given subject : ValidateAccessSubject kind given = Ok subject →
  kind = AccessEmail ∨ kind = AccessDomain ∨ kind = AccessGroup ∨ kind = AccessName.
Proof.
  unfold ValidateAccessSubject. destruct (String.eqb_spec kind AccessEmail); [tauto|]. destruct (String.eqb_spec kind AccessDomain); [tauto|].
  destruct (String.eqb_spec kind AccessGroup); [tauto|]. destruct (String.eqb_spec kind AccessName); [tauto|done].
Qed.

Lemma trim_prefix_app p s : trim_prefix p (p ++ s) = s.
Proof. unfold trim_prefix. by rewrite cut_prefix_app. Qed.
Lemma role_prefix_app p s : has_prefix p (p ++ s) = true.
Proof. rewrite has_prefix_cut, cut_prefix_app. by apply bool_decide_true. Qed.

(** An address starts with none of the prefixes. *)
Lemma email_unmarked s : emailPattern s = true →
  has_prefix "group:" s = false ∧ has_prefix "name:" s = false ∧ has_prefix "*@" s = false ∧ contains_char "@" s = true.
Proof.
  intros H. assert (∀ p : string, (∀ r, emailPattern (p ++ r) = false) → has_prefix p s = false) as Hno.
  { intros p Hp. apply not_true_iff_false. rewrite has_prefix_cut. intros [r E%cut_prefix_Some]%bool_decide_eq_true. specialize (Hp r). congruence. }
  repeat split; [apply Hno; intros r; unfold emailPattern; simpl; by destruct (cut "@" r) as [[? ?] []]..|].
  unfold emailPattern in H. destruct (cut "@" s) as [[l d] a] eqn:E. bools. subst. apply cut_app in E as ->.
  clear. induction l as [|c l IH]; [done|]. unfold contains_char, contains_any in *. simpl. rewrite IH. by rewrite orb_true_r.
Qed.

(** A rule is written for people the way it is read back: what [Who] writes
    for a rule that could be stored, [ParseAccessSubject] reads as that rule. *)
Theorem access_subject_roundtrip kind given subject : ValidateAccessSubject kind given = Ok subject →
  ParseAccessSubject (Who kind subject) = Ok (kind, subject).
Proof.
  intros H. pose proof (ValidateAccessSubject_again _ _ _ H) as Hag. unfold ParseAccessSubject, Who.
  destruct (kinds _ _ _ H) as [->|[->|[->| ->]]]; cbn [String.eqb Ascii.eqb AccessEmail AccessDomain AccessGroup AccessName Bool.eqb].
  - apply NormalizeEmail_ok in Hag as (_ & _ & Hp & _). destruct (email_unmarked _ Hp) as (-> & -> & -> & ->).
    by rewrite (ValidateAccessSubject_again _ _ _ H).
  - rewrite (role_prefix_app "*@"), (trim_prefix_app "*@"). cbn -[ValidateAccessSubject]. by rewrite Hag.
  - rewrite (role_prefix_app "group:"), (trim_prefix_app "group:"). by rewrite Hag.
  - rewrite (role_prefix_app "name:"), (trim_prefix_app "name:"). cbn -[ValidateAccessSubject]. by rewrite Hag.
Qed.

Example access_subject_roundtrip_witness : ParseAccessSubject (Who AccessDomain "example.com") = Ok ("domain", "example.com").
Proof. apply (access_subject_roundtrip AccessDomain " Example.COM "). vm_compute. reflexivity. Defined.

(** ** What a person is given *)

(** Which rules are about a person under a name and in groups, and in which way. *)
Definition by_name (name : string) (r : AccessRule) : Prop := ar_Kind r = AccessName ∧ ar_Subject r = name.
Definition by_email (name : string) (r : AccessRule) : Prop := ar_Kind r = AccessEmail ∧ NormalizeEmail name = Ok (ar_Subject r).
Definition by_group (groups : list string) (r : AccessRule) : Prop := ar_Kind r = AccessGroup ∧ ar_Subject r ∈ groups.
Definition by_domain (name : string) (r : AccessRule) : Prop := ar_Kind r = AccessDomain ∧ ∃ address, NormalizeEmail name = Ok address ∧ ar_Subject r = domain_of address.
Definition nowhere (rules : list AccessRule) (P : AccessRule → Prop) : Prop := ∀ r, r ∈ rules → ¬ P r.
#[export] Instance by_group_dec groups r : Decision (by_group groups r).
Proof. unfold by_group. apply _. Defined.

(** What rules give, said without their order: the rule for the name, else the
    one for the address, else what those for the groups come to together, else
    the one for the domain, else nothing. *)
Inductive given (rules : list AccessRule) (name : string) (groups : list string) : option Grant → Prop :=
  | given_name r : r ∈ rules → by_name name r → given rules name groups (Some (grantOf r))
  | given_email r : nowhere rules (by_name name) → r ∈ rules → by_email name r → given rules name groups (Some (grantOf r))
  | given_groups g : nowhere rules (by_name name) → nowhere rules (by_email name) → joins (grantOf <$> filter (by_group groups) rules) g → given rules name groups (Some g)
  | given_domain r : nowhere rules (by_name name) → nowhere rules (by_email name) → nowhere rules (by_group groups) → r ∈ rules → by_domain name r → given rules name groups (Some (grantOf r))
  | given_nothing : nowhere rules (by_name name) → nowhere rules (by_email name) → nowhere rules (by_group groups) → nowhere rules (by_domain name) → given rules name groups None.

(** The picks of the loop are those rules. *)
Lemma picked_name name r : named name r = true ↔ by_name name r.
Proof. unfold named, of_kind, by_name. by rewrite andb_true_iff, !String.eqb_eq. Qed.
Lemma picked_group groups r : grouped groups r = true ↔ by_group groups r.
Proof. unfold grouped, of_kind, by_group. by rewrite andb_true_iff, String.eqb_eq, contains_spec. Qed.
Lemma picked_address name email domain r : (match NormalizeEmail name with Ok address => (address, domain_of address) | Err _ => ("", "") end) = (email, domain) →
  (addressed email r = true ↔ by_email name r) ∧ (domained domain r = true ↔ by_domain name r).
Proof.
  unfold addressed, domained, of_kind, by_email, by_domain. destruct (NormalizeEmail name) as [a|e] eqn:E; intros [= <- <-]; rewrite !andb_true_iff, !String.eqb_eq.
  - apply NormalizeEmail_ok in E as (_ & _ & Hp & _). assert (nonempty a = true ∧ nonempty (domain_of a) = true) as [-> ->].
    { unfold emailPattern, domain_of in *. destruct (cut "@" a) as [[l d] f] eqn:Ec. bools. cbn [fst snd] in *. subst. split; [|done]. apply cut_app in Ec as ->. by destruct l. }
    split; [naive_solver|]. split; [intros (H1 & _ & H2); eauto|intros (H1 & a' & [= <-] & H2); done].
  - cbn. split; [naive_solver|]. split; [naive_solver|intros (_ & ? & ? & _); done].
Qed.
Lemma pick_nothing f rules (P : AccessRule → Prop) : (∀ r, f r = true ↔ P r) → pick f rules = [] → nowhere rules P.
Proof. intros Hf E r Hr Hp. assert (r ∈ pick f rules) as H by (apply list_elem_of_filter; split; [by apply Hf|done]). rewrite E in H. by apply elem_of_nil in H. Qed.
Lemma pick_something f rules (P : AccessRule → Prop) r : (∀ r, f r = true ↔ P r) → r ∈ pick f rules → r ∈ rules ∧ P r.
Proof. intros Hf [H Hr]%list_elem_of_filter. split; [done|by apply Hf]. Qed.

Lemma resolve_given rules name groups : rules_ok rules → given rules name groups (ResolveAccess rules name groups).
Proof.
  intros [_ Hok]. unfold ResolveAccess. destruct (match NormalizeEmail name with Ok address => (address, domain_of address) | Err _ => ("", "") end) as [email domain] eqn:E. rewrite matching_picks.
  pose proof (λ r, proj1 (picked_address name email domain r E)) as Ha. pose proof (λ r, proj2 (picked_address name email domain r E)) as Hd.
  destruct (pick (named name) rules) as [|r ?] eqn:En; [apply (pick_nothing _ _ _ (picked_name name)) in En|].
  2:{ destruct (pick_something (named name) rules _ r (picked_name name)) as [H1 H2]; [rewrite En; left|]. by apply given_name. }
  destruct (last (pick (addressed email) rules)) as [r|] eqn:Ee; cbn [from_option].
  { apply last_Some_elem_of, (pick_something _ _ _ _ Ha) in Ee as [H1 H2]. by apply given_email. }
  apply last_None, (pick_nothing _ _ _ Ha) in Ee. cbn [app].
  assert (pick (grouped groups) rules = filter (by_group groups) rules) as Eg by (unfold pick; apply list_filter_iff; intros r; apply picked_group).
  destruct (pick (grouped groups) rules) as [|r l] eqn:Ep.
  2:{ apply given_groups; [done..|]. rewrite <- Eg, groups_fold. csimpl. apply (groups_join _ [grantOf r]); [apply joins_one|apply Forall_fmap, Forall_forall; intros q Hq]; (eapply Forall_forall in Hok; [exact Hok|]);
      apply (pick_something (grouped groups) rules _ _ (picked_group groups)); rewrite Ep; [left|by right]. }
  apply (pick_nothing _ _ _ (picked_group groups)) in Ep. destruct (last (pick (domained domain) rules)) as [r|] eqn:Ed; cbn [from_option].
  { apply last_Some_elem_of, (pick_something _ _ _ _ Hd) in Ed as [H1 H2]. by apply given_domain. }
  apply last_None, (pick_nothing _ _ _ Hd) in Ed. by apply given_nothing.
Qed.

Lemma joins_some groups rules g : joins (grantOf <$> filter (by_group groups) rules) g → ∃ r, r ∈ rules ∧ by_group groups r.
Proof. intros (_ & (x & (r & _ & [H1 H2]%list_elem_of_filter)%list_elem_of_fmap & _) & _). by exists r. Qed.
Lemma given_unique rules name groups o o' : rules_ok rules → given rules name groups o → given rules name groups o' → o = o'.
Proof.
  intros [Hd _] H H'. assert (∀ r r', r ∈ rules → r' ∈ rules → ar_Kind r = ar_Kind r' → ar_Subject r = ar_Subject r' → Some (grantOf r) = Some (grantOf r')) as Hone.
  { intros r r' H1 H2 E1 E2. by rewrite (one_rule rules r r' Hd H1 H2 ltac:(by rewrite E1, E2)). }
  destruct H as [r Hr [K S]|r N1 Hr [K S]|g N1 N2 Hg|r N1 N2 N3 Hr (K & a & A & S)|N1 N2 N3 N4], H' as [r' Hr' [K' S']|r' N1' Hr' [K' S']|g' N1' N2' Hg'|r' N1' N2' N3' Hr' (K' & a' & A' & S')|N1' N2' N3' N4'];
    try (apply Hone; congruence); try done.
  all: try (exfalso; match goal with N : nowhere _ (by_name _), K : ar_Kind ?r = AccessName |- _ => by apply (N r) end).
  all: try (exfalso; match goal with N : nowhere _ (by_email _), K : ar_Kind ?r = AccessEmail |- _ => by apply (N r) end).
  all: try (exfalso; match goal with N : nowhere _ (by_domain _), K : ar_Kind ?r = AccessDomain |- _ => apply (N r); [done|]; split; [done|]; by eexists end).
  all: try (exfalso; match goal with N : nowhere _ (by_group _), J : joins _ _ |- _ => apply joins_some in J as (q & ? & ?); by apply (N q) end).
  f_equal. by eapply joins_unique.
Qed.

(** C32: what the access rules give a person is exactly what the reading of them
    says, in whatever order they are stored: the rule for the person's name
    decides alone; without one the rule for the address; without one the rules
    for the groups together, with the highest role among them, no limit where one
    of the rules of that role has none and otherwise the applications of all of
    them; without one the rule for the domain of the address; and nothing where
    no rule is about the person. *)
Theorem access_resolved rules rules' name groups o : rules_ok rules → rules ≡ₚ rules' →
  ResolveAccess rules' name groups = o ↔ given rules name groups o.
Proof.
  intros Hok Hp. rewrite <- (resolve_permuted rules rules' name groups Hok Hp). split; [intros <-; by apply resolve_given|]. intros H. eapply given_unique; [exact Hok|by apply resolve_given|exact H].
Qed.

Definition witness_rules : list AccessRule :=
  [mk_rule 1 "group" "web" "deploy" ["shop"; "web"] 0 "root"; mk_rule 2 "group" "all" "read" [] 0 "root"; mk_rule 3 "group" "ops" "deploy" ["api"] 0 "root"].
Lemma witness_rules_ok : rules_ok witness_rules.
Proof.
  split; [apply (bool_decide_unpack _); vm_compute; exact I|].
  repeat constructor; try (vm_compute; congruence); try (apply (bool_decide_unpack _); vm_compute; exact I).
Qed.
Example access_resolved_witness : given witness_rules "ada" ["ops"; "web"; "all"] (Some (mk_grant "deploy" ["api"; "shop"; "web"])).
Proof. apply (access_resolved witness_rules (rev witness_rules) "ada" ["ops"; "web"; "all"] _ witness_rules_ok); [symmetry; apply Permutation_rev|vm_compute; reflexivity]. Defined.
