(* ===== verification/Accounts.v ===== *)
(** * Tokens, access rules and sessions (src/agent/internal/store: tokens.go,
    tokens_update.go, access.go; src/agent/internal/api: handlers_tokens.go,
    handlers_token_update.go, the access handlers of signin.go)

    The three tables of who may use the API, a function per statement or
    transaction, and the handlers that judge a request before it reaches them.
    A token or a session is its hash; the hash function and the random bytes a
    value is made of are arguments. A statement the database refuses is not part
    of these functions. *)

From stdpp Require Import sorting.
From S2P Require Import Prelude GoStrings GoURL GoTime SpecTypes SpecNames SpecValidate SpecReferences Crypto Store Roles.
From Stdlib Require Import Ascii String.
Local Open Scope string_scope.
Local Open Scope Z_scope.

(** ** Tables *)

Record Token := mk_token { tk_ID : Z; tk_Name : string; tk_Role : string; tk_Hash : string; tk_CreatedAt : Time; tk_LastUsedAt : option Time;
  tk_Applications : list string; tk_ExpiresAt : option Time }.
Record Session := mk_session { se_ID : Z; se_Hash : string; se_Email : string; se_Groups : list string; se_Role : string; se_Applications : list string;
  se_CreatedAt : Time; se_ExpiresAt : Time; se_LastUsedAt : option Time; se_EndedAt : option Time; se_EndedReason : string;
  se_NameClaim : string; se_Tenant : string }.

(** The ids of rules and sessions are AUTOINCREMENT's; a token's is the next
    above the ids in the table. *)
Record Accounts := mk_accounts { tokens : list Token; access_rules : list AccessRule; sessions : list Session; last_rule : Z; last_session : Z }.
Definition set_tokens (a : Accounts) l := mk_accounts l (access_rules a) (sessions a) (last_rule a) (last_session a).
Definition set_rules (a : Accounts) l last := mk_accounts (tokens a) l (sessions a) last (last_session a).
Definition set_sessions (a : Accounts) l last := mk_accounts (tokens a) (access_rules a) l (last_rule a) last.

Inductive account_error := NotFound | TokenExists | TooManyAccessRules | HashTaken | Refused (why : text).
Abbreviation account A := (account_error + A)%type.

(** ** Tokens *)

Definition with_id (t : Token) id := mk_token id (tk_Name t) (tk_Role t) (tk_Hash t) (tk_CreatedAt t) (tk_LastUsedAt t) (tk_Applications t) (tk_ExpiresAt t).
(** The row that is inserted was never used. *)
Definition inserted (t : Token) id := mk_token id (tk_Name t) (tk_Role t) (tk_Hash t) (tk_CreatedAt t) None (tk_Applications t) (tk_ExpiresAt t).
Definition with_use (t : Token) at_ := mk_token (tk_ID t) (tk_Name t) (tk_Role t) (tk_Hash t) (tk_CreatedAt t) (Some at_) (tk_Applications t) (tk_ExpiresAt t).
Definition with_limits (t : Token) applications expires :=
  mk_token (tk_ID t) (tk_Name t) (tk_Role t) (tk_Hash t) (tk_CreatedAt t) (tk_LastUsedAt t) applications expires.

Definition token_named (name : string) (t : Token) : bool := String.eqb (tk_Name t) name.
Definition CreateToken (a : Accounts) (t : Token) : account (Accounts * Token) :=
  if negb (affected (token_named (tk_Name t)) (tokens a) =? 0)%nat then inl TokenExists else
  if negb (affected (λ u, String.eqb (tk_Hash u) (tk_Hash t)) (tokens a) =? 0)%nat then inl HashTaken else
  let id := largest (tk_ID <$> tokens a) + 1 in
  inr (set_tokens a (tokens a ++ [inserted t id]), with_id t id).
Definition GetTokenByHash (a : Accounts) (hash : string) : account Token :=
  match find_row (λ t, String.eqb (tk_Hash t) hash) (tokens a) with Some t => inr t | None => inl NotFound end.
Definition ListTokens (a : Accounts) : list Token := tokens a.
Definition DeleteToken (a : Accounts) (name : string) : account Accounts :=
  if (affected (token_named name) (tokens a) =? 0)%nat then inl NotFound
  else inr (set_tokens a (List.filter (λ t, negb (token_named name t)) (tokens a))).
Definition TouchToken (a : Accounts) (id : Z) (now : Time) : Accounts :=
  set_tokens a (update (λ t, tk_ID t =? id) (λ t, with_use t now) (tokens a)).

(** [change] is handed the token as it is stored; only the applications and the
    end of what it answers are written. *)
Definition UpdateToken (a : Accounts) (name : string) (change : Token → text + Token) : account (Accounts * (Token * Token)) :=
  match find_row (token_named name) (tokens a) with
  | None => inl NotFound
  | Some before =>
      match change before with
      | inl why => inl (Refused why)
      | inr after =>
          let after := with_limits before (tk_Applications after) (tk_ExpiresAt after) in
          inr (set_tokens a (update (λ t, tk_ID t =? tk_ID before) (λ t, with_limits t (tk_Applications after) (tk_ExpiresAt after)) (tokens a)), (before, after))
      end
  end.

(** ** Access rules *)

Definition same_subject (kind subject : string) (r : AccessRule) : bool := String.eqb (ar_Kind r) kind && String.eqb (ar_Subject r) subject.
Definition rewritten (r new : AccessRule) : AccessRule := mk_rule (ar_ID r) (ar_Kind r) (ar_Subject r) (ar_Role new) (ar_Applications new) (ar_CreatedAt new) (ar_CreatedBy new).
Definition numbered (r : AccessRule) (id : Z) : AccessRule := mk_rule id (ar_Kind r) (ar_Subject r) (ar_Role r) (ar_Applications r) (ar_CreatedAt r) (ar_CreatedBy r).
(** The rule as it is stored, and whether there was one for its subject. *)
Definition GrantAccess (a : Accounts) (r : AccessRule) : account (Accounts * (AccessRule * bool)) :=
  match find_row (same_subject (ar_Kind r) (ar_Subject r)) (access_rules a) with
  | Some old => inr (set_rules a (update (λ q, ar_ID q =? ar_ID old) (λ q, rewritten q r) (access_rules a)) (last_rule a), (numbered r (ar_ID old), true))
  | None =>
      if MaxAccessRules <=? Z.of_nat (List.length (access_rules a)) then inl TooManyAccessRules else
      let id := last_rule a + 1 in
      inr (set_rules a (access_rules a ++ [numbered r id]) id, (numbered r id, false))
  end.
Definition AccessRules (a : Accounts) : list AccessRule := access_rules a.
Definition RevokeAccess (a : Accounts) (id : Z) : account (Accounts * AccessRule) :=
  match find_row (λ r, ar_ID r =? id) (access_rules a) with
  | None => inl NotFound
  | Some r => inr (set_rules a (List.filter (λ q, negb (ar_ID q =? id)) (access_rules a)) (last_rule a), r)
  end.

(** ** Sessions *)

Definition sessionsKeptFor : Duration := 24 * hour.
Definition session_numbered (s : Session) (id : Z) : Session :=
  mk_session id (se_Hash s) (se_Email s) (se_Groups s) (se_Role s) (se_Applications s) (se_CreatedAt s) (se_ExpiresAt s) None None EmptyString
    (if String.eqb (se_NameClaim s) EmptyString then DefaultNameClaim else se_NameClaim s) (se_Tenant s).
Definition session_ended (reason : string) (now : Time) (s : Session) : Session :=
  mk_session (se_ID s) (se_Hash s) (se_Email s) (se_Groups s) (se_Role s) (se_Applications s) (se_CreatedAt s) (se_ExpiresAt s) (se_LastUsedAt s)
    (Some now) reason (se_NameClaim s) (se_Tenant s).
Definition session_used (now : Time) (s : Session) : Session :=
  mk_session (se_ID s) (se_Hash s) (se_Email s) (se_Groups s) (se_Role s) (se_Applications s) (se_CreatedAt s) (se_ExpiresAt s) (Some now)
    (se_EndedAt s) (se_EndedReason s) (se_NameClaim s) (se_Tenant s).
Definition open_session (s : Session) : bool := match se_EndedAt s with None => true | Some _ => false end.

Definition CreateSession (a : Accounts) (s : Session) : account (Accounts * Session) :=
  if negb (affected (λ u, String.eqb (se_Hash u) (se_Hash s)) (sessions a) =? 0)%nat then inl HashTaken else
  let id := last_session a + 1 in
  let s := session_numbered s id in
  inr (set_sessions a (List.filter (λ u, negb (se_ExpiresAt u <? se_CreatedAt s - sessionsKeptFor)) (sessions a ++ [s])) id, s).
Definition GetSessionByHash (a : Accounts) (hash : string) : account Session :=
  match find_row (λ s, String.eqb (se_Hash s) hash) (sessions a) with Some s => inr s | None => inl NotFound end.
Definition active_at (now : Time) (s : Session) : bool := open_session s && (now <? se_ExpiresAt s).
Definition ActiveSessions (a : Accounts) (now : Time) : list Session := List.filter (active_at now) (sessions a).
Definition EndSession (a : Accounts) (id : Z) (reason : string) (now : Time) : Accounts :=
  set_sessions a (update (λ s, (se_ID s =? id) && open_session s) (session_ended reason now) (sessions a)) (last_session a).
Definition EndSessionsOf (a : Accounts) (email reason : string) (now : Time) : Accounts * Z :=
  let mine s := String.eqb (se_Email s) email && active_at now s in
  (set_sessions a (update mine (session_ended reason now) (sessions a)) (last_session a), Z.of_nat (affected mine (sessions a))).
Definition DeleteSession (a : Accounts) (id : Z) : Accounts :=
  set_sessions a (List.filter (λ s, negb (se_ID s =? id)) (sessions a)) (last_session a).
Definition TouchSession (a : Accounts) (id : Z) (now : Time) : Accounts :=
  set_sessions a (update (λ s, se_ID s =? id) (session_used now) (sessions a)) (last_session a).

(** ** Requests that manage them *)

(** An answer to a request: its status, the code of an error, what it says. *)
Record answered_with := mk_answered { an_status : Z; an_code : string; an_message : text }.
Definition CodeInvalidRequest := "INVALID_REQUEST".
Definition CodeTokenExists := "TOKEN_EXISTS".
Definition CodeNotFound := "NOT_FOUND".
Definition CodeInternal := "INTERNAL_ERROR".
Definition bad (message : text) : answered_with := mk_answered 400 CodeInvalidRequest message.
Definition done_with (status : Z) : answered_with := mk_answered status EmptyString [].

(** The arms of writeEngineError these handlers reach. *)
Definition engine_error (e : account_error) : answered_with :=
  match e with
  | NotFound => mk_answered 404 CodeNotFound [L "not found"]
  | TokenExists => mk_answered 409 CodeTokenExists [L "a token with this name already exists"]
  | TooManyAccessRules => mk_answered 500 CodeInternal [L "at most "; D MaxAccessRules; L " access rules can be stored; a group or a domain covers many people with one"]
  | HashTaken => mk_answered 500 CodeInternal [L "create token: constraint failed"]
  | Refused why => mk_answered 500 CodeInternal why
  end.

Section Handlers.
Variable Sum256 : string → string.

(** base64.RawURLEncoding *)
Definition RawURLEncoding (secret : string) : string := before_any ["="%char] (replace_char "/" "_" (replace_char "+" "-" (EncodeToString secret))).
Definition TokenPrefix := "swk_".
Definition SessionPrefix := "sws_".
(** The value and its hash, from what rand.Read answers. *)
Definition newToken (random : text + string) : text + (string * string) :=
  match random with
  | inl e => inl (L "generate token: " :: e)
  | inr secret => let value := (TokenPrefix ++ RawURLEncoding secret)%string in inr (value, Sum256 value)
  end.
Definition newSession (random : text + string) : text + (string * string) :=
  match random with
  | inl e => inl (L "generate session: " :: e)
  | inr secret => let value := (SessionPrefix ++ RawURLEncoding secret)%string in inr (value, Sum256 value)
  end.

Record CreateTokenRequest := mk_create { ct_Name : string; ct_Role : string; ct_Applications : list string; ct_ExpiresAt : option Time }.
Definition past (at_ : option Time) (now : Time) : bool := match at_ with Some t => negb (now <? t) | None => false end.
(** The token's value is the second part of the answer. *)
Definition handleCreateToken (a : Accounts) (req : CreateTokenRequest) (now : Time) (random : text + string) : Accounts * (answered_with * string) :=
  let refuse r := (a, (r, EmptyString)) in
  if String.eqb (ct_Name req) EmptyString then refuse (bad [L "name is required"]) else
  if String.eqb (ct_Role req) EmptyString then refuse (bad [L "role is required: read, deploy or admin"]) else
  match ValidateTokenName (ct_Name req) with Err e => refuse (bad e) | Ok _ =>
  match ValidateRole (ct_Role req) with Err e => refuse (bad e) | Ok _ =>
  match ValidateTokenApplications (ct_Role req) (ct_Applications req) with Err e => refuse (bad e) | Ok applications =>
  if past (ct_ExpiresAt req) now then refuse (bad [L "expires_at is in the past: a token that has expired already would be of no use"]) else
  match newToken random with inl e => refuse (engine_error (Refused e)) | inr (value, hash) =>
  match CreateToken a (mk_token 0 (ct_Name req) (ct_Role req) hash now None applications (ct_ExpiresAt req)) with
  | inl e => refuse (engine_error e)
  | inr (a, _) => (a, (done_with 201, value))
  end end end end end.

Definition handleRevokeToken (a : Accounts) (name : string) : Accounts * answered_with :=
  if String.eqb name RootTokenName then (a, bad [L "the root token is the one the agent is configured with; change it on the agent, not here"]) else
  match ValidateTokenName name with Err e => (a, bad e) | Ok _ =>
  match DeleteToken a name with inl e => (a, engine_error e) | inr a => (a, done_with 204) end end.

Record UpdateTokenRequest := mk_update { ut_Applications : option (list string); ut_ExpiresAt : option Time; ut_NeverExpires : bool }.
Definition Empty (req : UpdateTokenRequest) : bool :=
  bool_decide (ut_Applications req = None) && bool_decide (ut_ExpiresAt req = None) && negb (ut_NeverExpires req).
(** The change handed to UpdateToken; t.Truncate(time.Second) of a time after the epoch. *)
Definition token_change (req : UpdateTokenRequest) (t : Token) : text + Token :=
  match match ut_Applications req with Some l => ValidateTokenApplications (tk_Role t) l | None => Ok (tk_Applications t) end with
  | Err e => inl e
  | Ok applications =>
      inr (with_limits t applications
        (if ut_NeverExpires req then None else match ut_ExpiresAt req with Some at_ => Some (at_ / second * second) | None => tk_ExpiresAt t end))
  end.
Definition handleUpdateToken (a : Accounts) (name : string) (req : UpdateTokenRequest) (now : Time) : Accounts * answered_with :=
  if String.eqb name RootTokenName
  then (a, bad [L "the root token is the one the agent is configured with: it is admin, has no end, and is changed on the agent, not here"]) else
  match ValidateTokenName name with Err e => (a, bad e) | Ok _ =>
  if Empty req then (a, bad [L "nothing to change: name the applications, the end, or both"]) else
  if bool_decide (is_Some (ut_ExpiresAt req)) && ut_NeverExpires req then (a, bad [L "expires_at and never_expires contradict each other: send one"]) else
  if past (ut_ExpiresAt req) now then (a, bad [L "expires_at is in the past. To stop a token now, revoke it: DELETE /tokens/"; S' name]) else
  match UpdateToken a name (token_change req) with
  | inl (Refused why) => (a, bad why)
  | inl e => (a, engine_error e)
  | inr (a, _) => (a, done_with 200)
  end end.

Record GrantAccessRequest := mk_grant_request { ga_Kind : string; ga_Subject : string; ga_Role : string; ga_Applications : list string }.
(** strings.Replace(err, "a token", "a rule", 1) on the message that starts with it. *)
Definition about_a_rule (e : text) : text :=
  match e with
  | L s :: rest => match cut_prefix "a token" s with Some r => L ("a rule" ++ r)%string :: rest | None => e end
  | _ => e
  end.
Definition handleGrantAccess (a : Accounts) (req : GrantAccessRequest) (now : Time) (by_ : string) : Accounts * answered_with :=
  if String.eqb (ga_Subject req) EmptyString || String.eqb (ga_Kind req) EmptyString then (a, bad [L "kind and subject are required"]) else
  if String.eqb (ga_Role req) EmptyString then (a, bad [L "role is required: read, deploy or admin"]) else
  match ValidateAccessSubject (ga_Kind req) (ga_Subject req) with Err e => (a, bad e) | Ok subject =>
  match ValidateRole (ga_Role req) with Err e => (a, bad e) | Ok _ =>
  if nonnil (ga_Applications req) && negb (String.eqb (ga_Role req) RoleDeploy)
  then (a, bad [L "only the deploy role can be limited to applications: read changes nothing, and admin is for the whole server"]) else
  match ValidateTokenApplications (ga_Role req) (ga_Applications req) with Err e => (a, bad (about_a_rule e)) | Ok applications =>
  match GrantAccess a (mk_rule 0 (ga_Kind req) subject (ga_Role req) applications now by_) with
  | inl TooManyAccessRules => (a, bad [L "at most "; D MaxAccessRules; L " access rules can be stored; a group or a domain covers many people with one"])
  | inl e => (a, engine_error e)
  | inr (a, (_, replaced)) => (a, done_with (if replaced : bool then 200 else 201))
  end end end end.

Definition handleRevokeAccess (a : Accounts) (id : option Z) : Accounts * answered_with :=
  match id with
  | Some id =>
      if id <? 1 then (a, bad [L "the rule is named by its id, as GET /access/rules lists it"]) else
      match RevokeAccess a id with inl e => (a, engine_error e) | inr (a, _) => (a, done_with 204) end
  | None => (a, bad [L "the rule is named by its id, as GET /access/rules lists it"])
  end.

Definition handleEndSessions (a : Accounts) (claim value : string) (now : Time) : Accounts * answered_with :=
  match PersonName claim value with
  | Err e => (a, bad e)
  | Ok email => ((EndSessionsOf a email "signed_out" now).1, done_with 200)
  end.

(** The sessions that would be served now; [stillVouchedFor] is the sign-in's. *)
Definition handleListSessions (stillVouchedFor : Session → bool) (a : Accounts) (now : Time) : list Session :=
  List.filter (λ s, match ResolveAccess (AccessRules a) (se_Email s) (se_Groups s) with
                    | Some grant => Equal grant (mk_grant (se_Role s) (se_Applications s)) && stillVouchedFor s
                    | None => false
                    end) (ActiveSessions a now).

Definition handleSignOut (a : Accounts) (kind value : string) : Accounts * answered_with :=
  if negb (String.eqb kind ActorUser)
  then (a, bad [L "this request was made with an API token, which has no session to end; a token is revoked with: shipwick token revoke"]) else
  match GetSessionByHash a (Sum256 value) with
  | inr s => (DeleteSession a (se_ID s), done_with 204)
  | inl NotFound => (a, done_with 204)
  | inl e => (a, engine_error e)
  end.
End Handlers.
