(* ===== verification/AccountsInv.v ===== *)
(** * What the tables of tokens, rules and sessions keep

    Every step of Accounts.v keeps the tables in order: names, hashes and
    subjects stand once, roles and limits are ones that may be given, and what a
    token or a session was issued as stays what it is. *)

From stdpp Require Import sorting.
From S2P Require Import Prelude GoStrings GoURL GoTime SpecTypes SpecNames SpecValidate SpecReferences Crypto Store Roles RolesInv Accounts.
From Stdlib Require Import Ascii String.
Local Open Scope string_scope.
Local Open Scope Z_scope.

(** ** Steps *)

Inductive managed (Sum256 : string → string) : Accounts → Accounts → Prop :=
  | m_create_token a req now random : managed Sum256 a (handleCreateToken Sum256 a req now random).1
  | m_revoke_token a name : managed Sum256 a (handleRevokeToken a name).1
  | m_update_token a name req now : managed Sum256 a (handleUpdateToken a name req now).1
  | m_touch_token a id now : managed Sum256 a (TouchToken a id now)
  | m_grant a req now who : managed Sum256 a (handleGrantAccess a req now who).1
  | m_revoke a id : managed Sum256 a (handleRevokeAccess a id).1
  | m_session a s random value a' s' : newSession Sum256 random = inr (value, se_Hash s) → CreateSession a s = inr (a', s') → managed Sum256 a a'
  | m_end a id reason now : reason ≠ "" → managed Sum256 a (EndSession a id reason now)
  | m_end_all a claim value now : managed Sum256 a (handleEndSessions a claim value now).1
  | m_sign_out a kind value : managed Sum256 a (handleSignOut Sum256 a kind value).1
  | m_touch_session a id now : managed Sum256 a (TouchSession a id now).

(** ** The invariant *)

Definition reasoned (s : Session) : Prop := se_EndedAt s ≠ None → se_EndedReason s ≠ "".

Definition limited_ok (role : string) (l : list string) : Prop :=
  Valid role = true ∧ limits_ok l ∧ (l ≠ [] → role = RoleDeploy) ∧ Z.of_nat (List.length l) ≤ MaxTokenApplications ∧ Forall (λ n, is_ok (ValidateName n) = true) l.

Definition token_ok (t : Token) : Prop := is_ok (ValidateTokenName (tk_Name t)) = true ∧ limited_ok (tk_Role t) (tk_Applications t).
Definition stored_rule_ok (r : AccessRule) : Prop :=
  ValidateAccessSubject (ar_Kind r) (ar_Subject r) = Ok (ar_Subject r) ∧ limited_ok (ar_Role r) (ar_Applications r).

Record accounts_ok (a : Accounts) : Prop := {
  ok_names : NoDup (tk_Name <$> tokens a);
  ok_hashes : NoDup (tk_Hash <$> tokens a);
  ok_ids : NoDup (tk_ID <$> tokens a);
  ok_tokens : Forall token_ok (tokens a);
  ok_subjects : NoDup ((λ r, (ar_Kind r, ar_Subject r)) <$> access_rules a);
  ok_rule_ids : NoDup (ar_ID <$> access_rules a) ∧ Forall (λ r, ar_ID r ≤ last_rule a) (access_rules a);
  ok_rules : Forall stored_rule_ok (access_rules a) ∧ Z.of_nat (List.length (access_rules a)) ≤ MaxAccessRules;
  ok_session_hashes : NoDup (se_Hash <$> sessions a);
  ok_session_ids : NoDup (se_ID <$> sessions a) ∧ Forall (λ s, se_ID s ≤ last_session a) (sessions a);
  ok_reasons : Forall reasoned (sessions a) }.

(** ** Rows *)

Lemma update_fmap {A B} (key : A → B) cond f (l : list A) : (∀ x, key (f x) = key x) → key <$> update cond f l = key <$> l.
Proof. intros H. unfold update. rewrite <- list_fmap_compose. apply list_fmap_ext. intros i x _. simpl. by destruct (cond x). Qed.
Lemma update_Forall {A} (P : A → Prop) cond f l : Forall P l → (∀ x, x ∈ l → P x → cond x = true → P (f x)) → Forall P (update cond f l).
Proof.
  intros Hl Hf. apply Forall_fmap, Forall_forall. intros x Hx. simpl. pose proof (proj1 (Forall_forall _ _) Hl x Hx). destruct (cond x) eqn:E; [by apply Hf|done].
Qed.
Lemma Lfilter {A} (f : A → bool) (l : list A) : List.filter f l = filter (λ x, f x = true) l.
Proof. induction l as [|x r IH]; [done|]. rewrite filter_cons. simpl. destruct (f x); [rewrite decide_True by done|rewrite decide_False by done]; by rewrite IH. Qed.
Lemma filter_NoDup_key {A B} (key : A → B) f (l : list A) : NoDup (key <$> l) → NoDup (key <$> List.filter f l).
Proof. rewrite Lfilter. intros H. induction l as [|x r IH]; [done|]. rewrite fmap_cons in H. apply NoDup_cons in H as [Hx Hr]. rewrite filter_cons.
  case_decide; [|by apply IH]. apply NoDup_cons. split; [|by apply IH]. intros (y & E & [_ Hy]%list_elem_of_filter)%list_elem_of_fmap.
  apply Hx. rewrite E. by apply list_elem_of_fmap_2. Qed.
Lemma filter_Forall {A} (P : A → Prop) f (l : list A) : Forall P l → Forall P (List.filter f l).
Proof. rewrite Lfilter. rewrite !Forall_forall. intros H x [_ Hx]%list_elem_of_filter. by apply H. Qed.

Lemma no_match {A} (cond : A → bool) l : (affected cond l =? 0)%nat = true → ∀ x, x ∈ l → cond x = false.
Proof.
  intros H x Hx. destruct (cond x) eqn:E; [|done]. exfalso. apply Nat.eqb_eq in H. unfold affected in H.
  assert (In x (List.filter cond l)) as Hi by (apply filter_In; split; [by apply list_elem_of_In|done]). by destruct (List.filter cond l).
Qed.
Lemma snoc_NoDup_key {A B} (key : A → B) l x : NoDup (key <$> l) → (∀ y, y ∈ l → key y ≠ key x) → NoDup (key <$> (l ++ [x])%list).
Proof.
  intros Hl Hx. rewrite fmap_app. apply NoDup_app. split; [done|]. split; [|by apply NoDup_singleton].
  intros k (y & -> & Hy)%list_elem_of_fmap E%list_elem_of_singleton. by apply (Hx y Hy).
Qed.
Lemma largest_above l x : x ∈ l → x ≤ largest l.
Proof. induction l as [|y r IH]; [by intros ?%elem_of_nil|]. intros [->|H]%elem_of_cons; simpl; [lia|]. specialize (IH H). lia. Qed.
Lemma find_row_in {A} (cond : A → bool) l x : find_row cond l = Some x → x ∈ l ∧ cond x = true.
Proof. intros [H E]%find_some. split; [by apply list_elem_of_In|done]. Qed.

(** ** What validation leaves *)

Lemma each_valid_once_ok names : ∀ out kept, each_valid_once out names = Ok kept → NoDup out → Forall (λ n, is_ok (ValidateName n) = true) out →
  NoDup kept ∧ Forall (λ n, is_ok (ValidateName n) = true) kept ∧ (out ≠ [] ∨ names ≠ [] → kept ≠ []).
Proof.
  induction names as [|n r IH]; intros out kept H Hd Hf; simpl in H; [simplify_eq; naive_solver|].
  destruct (ValidateName n) eqn:E; [|done]. destruct (contains out n) eqn:Ec.
  - destruct (IH _ _ H Hd Hf) as (? & ? & Hne). split_and!; [done..|]. intros _. apply Hne. left. intros ->. done.
  - apply not_true_iff_false in Ec. rewrite contains_spec in Ec. destruct (IH _ _ H) as (? & ? & Hne).
    + apply NoDup_app. split; [done|]. split; [by intros x Hx ->%list_elem_of_singleton|by apply NoDup_singleton].
    + apply Forall_app. split; [done|]. apply Forall_singleton. by rewrite E.
    + split_and!; [done..|]. intros _. apply Hne. left. by destruct out.
Qed.

Lemma ValidateTokenApplications_ok role l kept : Valid role = true → ValidateTokenApplications role l = Ok kept → limited_ok role kept.
Proof.
  unfold ValidateTokenApplications. intros Hr. destruct (negb (nonnil l)) eqn:En.
  { intros [= <-]. split_and!; [done|split; constructor|done|done|constructor]. }
  destruct (String.eqb_spec role RoleDeploy) as [->|]; [|done]. cbn [negb]. destruct (each_valid_once [] l) as [out|] eqn:E; [|done]. cbn [rbind].
  destruct (MaxTokenApplications <? Z.of_nat (List.length out)) eqn:El; [done|]. intros [= <-].
  destruct (each_valid_once_ok _ _ _ E) as (Hd & Hf & _); [constructor|constructor|].
  pose proof (merge_sort_Permutation str_le out) as Hp. split_and!; [done| |done| |by rewrite Hp].
  - split; [apply (Sorted_merge_sort _)|by rewrite Hp].
  - rewrite (Permutation_length Hp). lia.
Qed.

(** ** Steps keep the tables *)

Lemma tokens_kept a l : accounts_ok a → NoDup (tk_Name <$> l) → NoDup (tk_Hash <$> l) → NoDup (tk_ID <$> l) → Forall token_ok l → accounts_ok (set_tokens a l).
Proof. intros [] ? ? ? ?. by constructor. Qed.
Lemma rules_kept a l last : accounts_ok a → NoDup ((λ r, (ar_Kind r, ar_Subject r)) <$> l) → NoDup (ar_ID <$> l) → Forall (λ r, ar_ID r ≤ last) l →
  Forall stored_rule_ok l → Z.of_nat (List.length l) ≤ MaxAccessRules → accounts_ok (set_rules a l last).
Proof. intros [] ? ? ? ? ?. by constructor. Qed.
Lemma sessions_kept a l last : accounts_ok a → NoDup (se_Hash <$> l) → NoDup (se_ID <$> l) → Forall (λ s, se_ID s ≤ last) l → Forall reasoned l → accounts_ok (set_sessions a l last).
Proof. intros [] ? ? ? ?. by constructor. Qed.

Lemma updated_tokens a cond f : accounts_ok a → (∀ t, tk_Name (f t) = tk_Name t ∧ tk_Hash (f t) = tk_Hash t ∧ tk_ID (f t) = tk_ID t) →
  (∀ t, t ∈ tokens a → token_ok t → cond t = true → token_ok (f t)) → accounts_ok (set_tokens a (update cond f (tokens a))).
Proof.
  intros Ha Hf Hok. apply tokens_kept; [done|rewrite update_fmap; [apply Ha|intros t; apply Hf]..|]. apply update_Forall; [apply Ha|done].
Qed.

Lemma CreateToken_kept a t a' t' : accounts_ok a → token_ok t → CreateToken a t = inr (a', t') → accounts_ok a'.
Proof.
  intros Ha Ht. unfold CreateToken. destruct (affected (token_named _) _ =? 0)%nat eqn:E1; [|done]. destruct (affected _ _ =? 0)%nat eqn:E2 in |- *; [|done].
  intros [= <- <-]. pose proof (no_match _ _ E1) as Hn. pose proof (no_match _ _ E2) as Hh.
  apply tokens_kept; [done|apply snoc_NoDup_key; [apply Ha|]..|apply Forall_app; split; [apply Ha|by apply Forall_singleton]].
  - intros u Hu. specialize (Hn u Hu). by apply String.eqb_neq in Hn.
  - intros u Hu. specialize (Hh u Hu). by apply String.eqb_neq in Hh.
  - intros u Hu. simpl. pose proof (largest_above (tk_ID <$> tokens a) (tk_ID u) ltac:(by apply list_elem_of_fmap_2)). lia.
Qed.

Lemma UpdateToken_kept a name req a' r : accounts_ok a → UpdateToken a name (token_change req) = inr (a', r) → accounts_ok a'.
Proof.
  intros Ha. unfold UpdateToken. destruct (find_row _ _) as [b|] eqn:E; [|done]. apply find_row_in in E as [Hb _].
  pose proof (proj1 (Forall_forall _ _) (ok_tokens a Ha) b Hb) as [Hbn Hbl].
  unfold token_change. destruct (match ut_Applications req with Some l => _ | None => _ end) as [l|] eqn:El; [|done]. intros [= <- <-].
  apply updated_tokens; [done|done|]. intros t Ht [Htn _] Et. split; [done|]. simpl.
  assert (t = b) as ->.
  { apply Z.eqb_eq in Et. apply list_elem_of_lookup in Ht as [i Hi], Hb as [j Hj]. assert (i = j) as ->; [|congruence].
    eapply NoDup_lookup; [apply (ok_ids a Ha)|rewrite list_lookup_fmap, Hi; done|rewrite list_lookup_fmap, Hj; simpl; by rewrite Et]. }
  destruct (ut_Applications req); [|by simplify_eq]. eapply ValidateTokenApplications_ok; [apply Hbl|done].
Qed.

Lemma GrantAccess_kept a r a' q : accounts_ok a → stored_rule_ok r → GrantAccess a r = inr (a', q) → accounts_ok a'.
Proof.
  intros Ha Hr. unfold GrantAccess. destruct (find_row _ _) as [old|] eqn:E.
  - intros [= <- <-]. apply find_row_in in E as [Ho Eo]. unfold same_subject in Eo. bools.
    apply rules_kept; [done|rewrite update_fmap; [apply Ha|done]..| | |].
    + apply update_Forall; [apply Ha|done].
    + apply update_Forall; [apply Ha|]. intros x Hx [Hx1 _] _. split; [exact Hx1|apply Hr].
    + unfold update. rewrite length_fmap. apply Ha.
  - destruct (MaxAccessRules <=? _) eqn:En; [done|]. intros [= <- <-]. apply rules_kept; [done| | | | |].
    + apply snoc_NoDup_key; [apply Ha|]. intros y Hy Ey. unfold find_row in E. apply (find_none _ _ E) in Hy || apply list_elem_of_In, (find_none _ _ E) in Hy.
      unfold same_subject in Hy. simpl in Ey. injection Ey as E1 E2. rewrite E1, E2, !String.eqb_refl in Hy. done.
    + apply snoc_NoDup_key; [apply Ha|]. intros y Hy. simpl. pose proof (proj1 (Forall_forall _ _) (proj2 (ok_rule_ids a Ha)) y Hy). simpl in *. lia.
    + apply Forall_app. split; [|apply Forall_singleton; simpl; lia]. eapply Forall_impl; [apply (ok_rule_ids a Ha)|]. simpl. lia.
    + apply Forall_app. split; [apply Ha|]. by apply Forall_singleton.
    + rewrite length_app. simpl. lia.
Qed.

Lemma kept_filter_tokens a f : accounts_ok a → accounts_ok (set_tokens a (List.filter f (tokens a))).
Proof. intros Ha. apply tokens_kept; [done|apply filter_NoDup_key, Ha..|apply filter_Forall, Ha]. Qed.
Lemma kept_filter_rules a f : accounts_ok a → accounts_ok (set_rules a (List.filter f (access_rules a)) (last_rule a)).
Proof.
  intros Ha. apply rules_kept; [done|apply filter_NoDup_key, Ha..|apply filter_Forall, Ha|apply filter_Forall, Ha|].
  rewrite Lfilter. pose proof (length_filter (λ x, f x = true) (access_rules a)). pose proof (proj2 (ok_rules a Ha)). lia.
Qed.
Lemma kept_filter_sessions a f : accounts_ok a → accounts_ok (set_sessions a (List.filter f (sessions a)) (last_session a)).
Proof. intros Ha. apply sessions_kept; [done|apply filter_NoDup_key, Ha..|apply filter_Forall, Ha|apply filter_Forall, Ha]. Qed.
Lemma kept_update_sessions a cond f : accounts_ok a → (∀ s, se_Hash (f s) = se_Hash s ∧ se_ID (f s) = se_ID s) → (∀ s, reasoned s → reasoned (f s)) →
  accounts_ok (set_sessions a (update cond f (sessions a)) (last_session a)).
Proof.
  intros Ha Hf Hn. apply sessions_kept; [done|rewrite update_fmap; [apply Ha|intros s; apply Hf]..| |].
  - apply update_Forall; [apply Ha|]. intros s _ Hs _. destruct (Hf s) as [_ ->]. done.
  - apply update_Forall; [apply Ha|]. intros s _ Hs _. by apply Hn.
Qed.
Lemma CreateSession_kept a s a' s' : accounts_ok a → CreateSession a s = inr (a', s') → accounts_ok a'.
Proof.
  intros Ha. unfold CreateSession. destruct (affected _ _ =? 0)%nat eqn:E; [|done]. intros [= <- <-]. pose proof (no_match _ _ E) as Hh.
  pose proof (ok_session_ids a Ha) as [_ Hle].
  apply sessions_kept; [done|apply filter_NoDup_key, snoc_NoDup_key; [apply Ha|]..|apply filter_Forall, Forall_app; split; [|apply Forall_singleton; simpl; lia]|
    apply filter_Forall, Forall_app; split; [apply Ha|apply Forall_singleton; by intros []]].
  - intros u Hu. specialize (Hh u Hu). by apply String.eqb_neq in Hh.
  - intros u Hu. pose proof (proj1 (Forall_forall _ _) Hle u Hu). simpl in *. lia.
  - eapply Forall_impl; [exact Hle|]. simpl. lia.
Qed.

Lemma managed_kept h a a' : accounts_ok a → managed h a a' → accounts_ok a'.
Proof.
  intros Ha Hm. destruct Hm as [a req now random|a name|a name req now|a id now|a req now who|a id|a s random value a' s' _ E|a id reason now Hne|a claim value now|a kind value|a id now].
  - unfold handleCreateToken. repeat case_match; try exact Ha. subst. simpl. eapply CreateToken_kept; [done| |eassumption]. split; [by match goal with H : ValidateTokenName _ = Ok _ |- _ => simpl; rewrite H end|].
    eapply ValidateTokenApplications_ok; [|eassumption]. by match goal with H : ValidateRole _ = Ok _ |- _ => unfold ValidateRole in H; simpl; destruct (Valid _) end.
  - unfold handleRevokeToken. repeat case_match; try exact Ha. subst. simpl. unfold DeleteToken in *. case_match; simplify_eq. by apply kept_filter_tokens.
  - unfold handleUpdateToken. repeat case_match; try exact Ha. subst. simpl. by eapply UpdateToken_kept.
  - by apply updated_tokens.
  - unfold handleGrantAccess. repeat case_match; try exact Ha; subst; simpl; (eapply GrantAccess_kept; [done| |eassumption]); (split; [by eapply ValidateAccessSubject_again|]);
      (eapply ValidateTokenApplications_ok; [|eassumption]); by match goal with H : ValidateRole _ = Ok _ |- _ => unfold ValidateRole in H; simpl; destruct (Valid _) end.
  - unfold handleRevokeAccess. repeat case_match; try exact Ha. subst. simpl. unfold RevokeAccess in *. case_match; simplify_eq. by apply kept_filter_rules.
  - by eapply CreateSession_kept.
  - apply kept_update_sessions; [done..|]. intros s _ _. exact Hne.
  - unfold handleEndSessions. case_match; [|done]. simpl. apply kept_update_sessions; [done..|]. by intros s _ _.
  - unfold handleSignOut. repeat case_match; try exact Ha. by apply kept_filter_sessions.
  - by apply kept_update_sessions.
Qed.

(** ** What was issued stays what it is *)

Definition same_token (t t' : Token) : Prop :=
  tk_ID t' = tk_ID t ∧ tk_Name t' = tk_Name t ∧ tk_Role t' = tk_Role t ∧ tk_CreatedAt t' = tk_CreatedAt t.
Definition same_session (s s' : Session) : Prop :=
  se_ID s' = se_ID s ∧ se_Email s' = se_Email s ∧ se_Groups s' = se_Groups s ∧ se_Role s' = se_Role s ∧ se_Applications s' = se_Applications s ∧
  se_ExpiresAt s' = se_ExpiresAt s ∧ (∀ at_, se_EndedAt s = Some at_ → se_EndedAt s' = Some at_ ∧ se_EndedReason s' = se_EndedReason s).
Definition issued (a a' : Accounts) : Prop :=
  (∀ t t', t ∈ tokens a → t' ∈ tokens a' → tk_Hash t' = tk_Hash t → same_token t t') ∧
  (∀ s s', s ∈ sessions a → s' ∈ sessions a' → se_Hash s' = se_Hash s → same_session s s').

(** A table whose rows are old ones, changed little, or new ones under new hashes. *)
Definition rows_kept {A} (key : A → string) (same : A → A → Prop) (l l' : list A) : Prop :=
  ∀ x', x' ∈ l' → (∃ x, x ∈ l ∧ key x' = key x ∧ same x x') ∨ (∀ x, x ∈ l → key x ≠ key x').

Lemma rows_same {A} (key : A → string) same (l l' : list A) : NoDup (key <$> l) → rows_kept key same l l' →
  ∀ x x', x ∈ l → x' ∈ l' → key x' = key x → same x x'.
Proof.
  intros Hd Hk x x' Hx Hx' E. destruct (Hk x' Hx') as [(y & Hy & Ey & Hs)|Hn]; [|by destruct (Hn x Hx)].
  assert (y = x) as <-; [|done]. apply list_elem_of_lookup in Hx as [i Hi], Hy as [j Hj].
  assert (i = j) as ->; [|congruence]. eapply NoDup_lookup; [exact Hd|rewrite list_lookup_fmap, Hi; done|rewrite list_lookup_fmap, Hj; simpl; congruence].
Qed.

Lemma rows_refl {A} (key : A → string) same (l : list A) : (∀ x, same x x) → rows_kept key same l l.
Proof. intros H x Hx. left. by exists x. Qed.
Lemma rows_filtered {A} (key : A → string) same f (l : list A) : (∀ x, same x x) → rows_kept key same l (List.filter f l).
Proof. rewrite Lfilter. intros H x [_ Hx]%list_elem_of_filter. left. by exists x. Qed.
Lemma rows_updated {A} (key : A → string) same cond f (l : list A) : (∀ x, same x x) → (∀ x, cond x = true → key (f x) = key x ∧ same x (f x)) →
  rows_kept key same l (update cond f l).
Proof.
  intros Hr Hf x' (x & -> & Hx)%list_elem_of_fmap. left. exists x. split; [done|]. destruct (cond x) eqn:E; [by apply Hf|done].
Qed.
Lemma rows_appended {A} (key : A → string) same (l l' : list A) x : (∀ y, same y y) → (∀ y, y ∈ l → key y ≠ key x) →
  (∀ y, y ∈ l' → y ∈ (l ++ [x])%list) → rows_kept key same l l'.
Proof.
  intros Hr Hn Hi y Hy. apply Hi in Hy as [Hy| ->%list_elem_of_singleton]%elem_of_app; [left; by exists y|by right].
Qed.

Lemma same_token_refl t : same_token t t.
Proof. done. Qed.
Lemma same_session_refl s : same_session s s.
Proof. by repeat split. Qed.
#[local] Hint Resolve same_token_refl same_session_refl : core.

Lemma CreateToken_rows a t a' r : CreateToken a t = inr (a', r) → rows_kept tk_Hash same_token (tokens a) (tokens a') ∧ sessions a' = sessions a.
Proof.
  unfold CreateToken. destruct (affected (token_named _) _ =? 0)%nat; [|done]. destruct (affected _ _ =? 0)%nat eqn:E in |- *; [|done]. intros [= <- <-].
  split; [|done]. eapply rows_appended; [done| |intros y Hy; exact Hy]. intros y Hy. apply String.eqb_neq. by apply (no_match _ _ E).
Qed.
Lemma UpdateToken_rows a name change a' r : UpdateToken a name change = inr (a', r) → rows_kept tk_Hash same_token (tokens a) (tokens a') ∧ sessions a' = sessions a.
Proof.
  unfold UpdateToken. destruct (find_row _ _) as [b|]; [|done]. destruct (change b); [done|]. intros [= <- <-]. split; [|done]. by apply rows_updated.
Qed.
Lemma GrantAccess_rows a r a' q : GrantAccess a r = inr (a', q) → tokens a' = tokens a ∧ sessions a' = sessions a.
Proof. unfold GrantAccess. destruct (find_row _ _); [by intros [= <- <-]|]. destruct (_ <=? _); [done|]. by intros [= <- <-]. Qed.
Lemma CreateSession_rows a s a' r : CreateSession a s = inr (a', r) → rows_kept se_Hash same_session (sessions a) (sessions a') ∧ tokens a' = tokens a.
Proof.
  unfold CreateSession. destruct (affected _ _ =? 0)%nat eqn:E; [|done]. intros [= <- <-]. split; [|done].
  eapply (rows_appended _ _ _ _ (session_numbered s (last_session a + 1))); [done| |].
  - intros y Hy. apply String.eqb_neq. by apply (no_match _ _ E).
  - intros y. unfold set_sessions. cbn [sessions]. rewrite Lfilter. by intros [_ ?]%list_elem_of_filter.
Qed.
Lemma ended_rows reason now cond l : (∀ s, cond s = true → open_session s = true) → rows_kept se_Hash same_session l (update cond (session_ended reason now) l).
Proof.
  intros H. apply rows_updated; [done|]. intros s Hs%H. unfold open_session in Hs. repeat split; simpl; by destruct (se_EndedAt s).
Qed.

Lemma managed_issued h a a' : accounts_ok a → managed h a a' → issued a a'.
Proof.
  intros Ha Hm. cut (rows_kept tk_Hash same_token (tokens a) (tokens a') ∧ rows_kept se_Hash same_session (sessions a) (sessions a')).
  { intros [Ht Hs]. split; [by apply rows_same; [apply Ha|]|by apply rows_same; [apply Ha|]]. }
  assert (∀ b, tokens b = tokens a → sessions b = sessions a → rows_kept tk_Hash same_token (tokens a) (tokens b) ∧ rows_kept se_Hash same_session (sessions a) (sessions b)) as Hsame.
  { intros b -> ->. split; by apply rows_refl. }
  destruct Hm as [a req now random|a name|a name req now|a id now|a req now who|a id|a s random value a' s' _ E|a id reason now Hne|a claim value now|a kind value|a id now].
  - unfold handleCreateToken. repeat case_match; try by apply Hsame. subst. simpl. match goal with H : CreateToken _ _ = _ |- _ => destruct (CreateToken_rows _ _ _ _ H) as [? ->] end. split; [done|by apply rows_refl].
  - unfold handleRevokeToken. repeat case_match; try by apply Hsame. subst. unfold DeleteToken in *. case_match; simplify_eq. split; [by apply rows_filtered|by apply rows_refl].
  - unfold handleUpdateToken. repeat case_match; try by apply Hsame. subst. simpl. match goal with H : UpdateToken _ _ _ = _ |- _ => destruct (UpdateToken_rows _ _ _ _ _ H) as [? ->] end.
    split; [done|by apply rows_refl].
  - split; [by apply rows_updated|by apply rows_refl].
  - apply Hsame; unfold handleGrantAccess; repeat case_match; try done; subst; simpl; by eapply GrantAccess_rows.
  - apply Hsame; unfold handleRevokeAccess; repeat case_match; try done; subst; unfold RevokeAccess in *; case_match; by simplify_eq.
  - destruct (CreateSession_rows _ _ _ _ E) as [? ->]. split; [by apply rows_refl|done].
  - split; [by apply rows_refl|]. apply ended_rows. intros s. rewrite andb_true_iff. tauto.
  - unfold handleEndSessions. case_match; [|by apply Hsame]. split; [by apply rows_refl|]. apply ended_rows. intros s. unfold active_at. rewrite !andb_true_iff. tauto.
  - unfold handleSignOut. repeat case_match; try by apply Hsame. split; [by apply rows_refl|by apply rows_filtered].
  - split; [by apply rows_refl|]. apply rows_updated; [done|]. done.
Qed.

(** ** Every hash is that of a value that was made for it *)

Definition token_value (h : string → string) (hash : string) : Prop := ∃ secret, hash = h (TokenPrefix ++ RawURLEncoding secret).
Definition session_value (h : string → string) (hash : string) : Prop := ∃ secret, hash = h (SessionPrefix ++ RawURLEncoding secret).
Definition minted {A} (key : A → string) (made : string → Prop) (l l' : list A) : Prop := ∀ x', x' ∈ l' → (∃ x, x ∈ l ∧ key x' = key x) ∨ made (key x').
Lemma minted_refl {A} (key : A → string) made l : minted key made l l.
Proof. intros x Hx. left. by exists x. Qed.
Lemma minted_filtered {A} (key : A → string) made f l l' : minted key made l l' → minted key made l (List.filter f l').
Proof. rewrite Lfilter. intros H x [_ Hx]%list_elem_of_filter. by apply H. Qed.
Lemma minted_updated {A} (key : A → string) made cond f l : (∀ x, key (f x) = key x) → minted key made l (update cond f l).
Proof. intros Hf x' (x & -> & Hx)%list_elem_of_fmap. left. exists x. split; [done|]. by destruct (cond x). Qed.
Lemma minted_appended {A} (key : A → string) (made : string → Prop) l x : made (key x) → minted key made l (l ++ [x]).
Proof. intros Hx y [Hy| ->%list_elem_of_singleton]%elem_of_app; [left; by exists y|by right]. Qed.
#[local] Hint Resolve minted_refl minted_filtered minted_appended : core.

Lemma managed_mints h a a' : managed h a a' → minted tk_Hash (token_value h) (tokens a) (tokens a') ∧ minted se_Hash (session_value h) (sessions a) (sessions a').
Proof.
  intros Hm. destruct Hm as [a req now random|a name|a name req now|a id now|a req now who|a id|a s random value a' s' Ev E|a id reason now Hne|a claim value now|a kind value|a id now].
  - unfold handleCreateToken. repeat case_match; try by split. simpl. match goal with H : newToken _ _ = _, H2 : CreateToken _ _ = _ |- _ => unfold newToken in H; unfold CreateToken in H2 end. repeat case_match; simplify_eq.
    split; [|done]. simpl. apply minted_appended. by eexists.
  - unfold handleRevokeToken. repeat case_match; try by split. unfold DeleteToken in *. case_match; simplify_eq. split; [by apply minted_filtered|done].
  - unfold handleUpdateToken. repeat case_match; try by split. simpl. unfold UpdateToken in *. repeat case_match; simplify_eq. split; [|done]. by apply minted_updated.
  - split; [|done]. by apply minted_updated.
  - unfold handleGrantAccess. repeat case_match; try (by split); simpl; (match goal with H : GrantAccess _ _ = _ |- _ => destruct (GrantAccess_rows _ _ _ _ H) as [-> ->] end); by split.
  - unfold handleRevokeAccess. repeat case_match; try by split. unfold RevokeAccess in *. case_match; simplify_eq. by split.
  - unfold newSession in Ev. destruct random; simplify_eq. unfold CreateSession in E. case_match; simplify_eq. split; [done|]. simpl. apply minted_filtered, minted_appended. simpl. by eexists.
  - split; [done|]. by apply minted_updated.
  - unfold handleEndSessions. case_match; [|done]. split; [done|]. by apply minted_updated.
  - unfold handleSignOut. repeat case_match; try by split. split; [done|by apply minted_filtered].
  - split; [done|]. by apply minted_updated.
Qed.

Definition no_accounts : Accounts := mk_accounts [] [] [] 0 0.

Lemma reachable_ok h a : rtc (managed h) no_accounts a → accounts_ok a.
Proof.
  intros H. assert (accounts_ok no_accounts) as H0 by (constructor; repeat constructor; done). revert H0.
  induction H as [|a b c Hs _ IH]; [done|]. intros Ha. apply IH. by eapply managed_kept.
Qed.

Lemma reachable_minted h a : rtc (managed h) no_accounts a → Forall (λ t, token_value h (tk_Hash t)) (tokens a) ∧ Forall (λ s, session_value h (se_Hash s)) (sessions a).
Proof.
  intros H. assert (Forall (λ t, token_value h (tk_Hash t)) (tokens no_accounts) ∧ Forall (λ s, session_value h (se_Hash s)) (sessions no_accounts)) as H0 by (split; constructor). revert H0.
  induction H as [|a b c Hs _ IH]; [done|]. intros [IHt IHs]. apply IH. apply managed_mints in Hs as [Ht Hss]. rewrite Forall_forall in IHt. rewrite Forall_forall in IHs.
  split; apply Forall_forall; intros x Hx; [destruct (Ht x Hx) as [(y & Hy & ->)|]; [by apply IHt|done]|destruct (Hss x Hx) as [(y & Hy & ->)|]; [by apply IHs|done]].
Qed.
(** A token that was asked for: its value is told once, to who asked. *)
Lemma token_told h a req now random : let o := handleCreateToken h a req now random in
  an_status o.2.1 = 201 ∧ (∃ t, t ∈ tokens o.1 ∧ tk_Name t = ct_Name req ∧ tk_Hash t = h o.2.2) ∨ o.1 = a ∧ o.2.2 = "" ∧ an_status o.2.1 ≠ 201.
Proof.
  cbv zeta. unfold handleCreateToken. repeat case_match; try (right; split_and!; [done|done|cbn; done]).
  - right. split_and!; [done|done|]. match goal with |- an_status (_, (engine_error ?e, _)).2.1 ≠ _ => destruct e end; done.
  - left. split; [reflexivity|]. subst. simpl. match goal with H : newToken _ _ = _, H2 : CreateToken _ _ = _ |- _ => unfold newToken in H; unfold CreateToken in H2 end. repeat case_match; simplify_eq. simpl. eexists. split; [apply elem_of_app; right; left|]. done.
Qed.


Definition hash_of (s : string) : string := ("#" ++ s)%string.
Definition an_accounts : Accounts :=
  (handleGrantAccess (handleCreateToken hash_of no_accounts (mk_create "ci" "deploy" ["web"; "api"; "web"] None) 5 (inr "secret")).1
     (mk_grant_request "domain" "Example.com" "read" []) 6 "root").1.
