(* ===== verification/Access.v ===== *)
(** * Requests to the API (src/agent/internal/api: server.go, auth.go, access.go,
    ratelimit.go, reach.go, audit.go, signin.go, names.go)

    From the connection a request comes in on to the handler it reaches: whether
    the caller calls from where it may, who it is, whether it may use the
    endpoint, and what the audit trail says of it. The state is what the server
    remembers between requests; the clock, the tables of Accounts.v, the identity
    provider, Docker and the handler itself are reached through calls
    (Effects.v). [AAnswer] is an answer written before or instead of a handler's,
    [AHandle] is the handler with the caller in its context. *)

From S2P Require Import Prelude GoStrings GoURL Effects GoTime GoNetip SpecTypes SpecNames SpecReferences Crypto Store Roles Accounts.
From Stdlib Require Import Ascii String.
Local Open Scope string_scope.
Local Open Scope Z_scope.

(** ** Routes *)

(** How a request to an endpoint is written into the audit trail. *)
Record auditedRoute := mk_audited { ad_action : string; ad_target : string; ad_detail : string }.
Record route := mk_route { rt_method : string; rt_path : string; rt_role : string; rt_application : bool; rt_document : bool; rt_audit : option auditedRoute }.

Definition auditedRoutes : list (string * auditedRoute) :=
  [("DELETE /api/v1/applications/{name}", mk_audited "application.delete" "" "");
   ("POST /api/v1/applications/{name}/deploy", mk_audited "deploy" "" "");
   ("POST /api/v1/applications/{name}/redeploy", mk_audited "redeploy" "" "");
   ("POST /api/v1/applications/{name}/rollback", mk_audited "rollback" "" "");
   ("POST /api/v1/applications/{name}/stop", mk_audited "stop" "" "");
   ("POST /api/v1/applications/{name}/start", mk_audited "start" "" "");
   ("POST /api/v1/applications/{name}/images", mk_audited "image.upload" "" "");
   ("PUT /api/v1/applications/{name}/static", mk_audited "static.upload" "" "");
   ("POST /api/v1/applications/{name}/jobs/{job}/run", mk_audited "job.run" "job" "");
   ("POST /api/v1/applications/{name}/run", mk_audited "run" "" "");
   ("POST /api/v1/applications/{name}/backups", mk_audited "backup.create" "" "");
   ("POST /api/v1/applications/{name}/backups/{id}/verify", mk_audited "backup.verify" "id" "");
   ("POST /api/v1/applications/{name}/backups/{id}/restore", mk_audited "backup.restore" "id" "");
   ("GET /api/v1/applications/{name}/backups/{id}/volumes/{volume}/archive", mk_audited "backup.download" "id" "volume");
   ("DELETE /api/v1/applications/{name}/backups/{id}", mk_audited "backup.delete" "id" "");
   ("POST /api/v1/server/backups", mk_audited "server.backup" "" "");
   ("POST /api/v1/server/backups/adopt", mk_audited "backup.adopt" "" "");
   ("GET /api/v1/applications/{name}/volumes/{volume}/archive", mk_audited "volume.download" "volume" "");
   ("PUT /api/v1/applications/{name}/volumes/{volume}/archive", mk_audited "volume.restore" "volume" "");
   ("DELETE /api/v1/volumes/{name}", mk_audited "volume.delete" "name" "");
   ("PUT /api/v1/secrets/{name}", mk_audited "secret.set" "name" "");
   ("DELETE /api/v1/secrets/{name}", mk_audited "secret.delete" "name" "");
   ("PUT /api/v1/registries/{registry}", mk_audited "registry.login" "registry" "");
   ("DELETE /api/v1/registries/{registry}", mk_audited "registry.logout" "registry" "");
   ("PUT /api/v1/certificates/{hostname}", mk_audited "certificate.set" "hostname" "");
   ("DELETE /api/v1/certificates/{hostname}", mk_audited "certificate.delete" "hostname" "");
   ("POST /api/v1/tokens", mk_audited "token.create" "" "");
   ("DELETE /api/v1/tokens/{name}", mk_audited "token.revoke" "name" "");
   ("POST /api/v1/server/rotate-key", mk_audited "key.rotate" "" "");
   ("POST /api/v1/export", mk_audited "export.download" "" "");
   ("POST /api/v1/exports", mk_audited "export.create" "" "");
   ("POST /api/v1/import", mk_audited "import" "" "");
   ("POST /api/v1/standby/pull", mk_audited "standby.pull" "" "");
   ("POST /api/v1/standby/promote", mk_audited "standby.promote" "" "");
   ("DELETE /api/v1/auth/session", mk_audited "signout" "" "");
   ("POST /api/v1/access/rules", mk_audited "access.grant" "" "");
   ("DELETE /api/v1/access/rules/{id}", mk_audited "access.revoke" "id" "");
   ("DELETE /api/v1/access/sessions/{email}", mk_audited "access.signout" "email" "");
   ("PUT /api/v1/tokens/{name}", mk_audited "token.update" "name" "");
   ("GET /api/v1/audit/export", mk_audited "audit.export" "" "");
   ("POST /api/v1/applications", mk_audited "deploy" "" "");
   ("POST /api/v1/server/cloudflare/verify", mk_audited "cloudflare.verify" "" "")].

(** The endpoints that are not GETs and change nothing. *)
Definition unauditedRoutes : list string :=
  ["POST /api/v1/applications/{name}/validate"; "POST /api/v1/applications/{name}/images/missing"; "POST /api/v1/validate"].
Definition documentRoutes : list string := ["POST /api/v1/applications"; "POST /api/v1/validate"].

Definition applicationPrefix := "/api/v1/applications/{name}".
Definition newRoute (pattern role : string) : route :=
  let '(method, path, _) := cut " " pattern in
  mk_route method path role (String.eqb path applicationPrefix || has_prefix (applicationPrefix ++ "/") path)
    (contains documentRoutes pattern) (snd <$> List.find (λ e, String.eqb (fst e) pattern) auditedRoutes).

(** The endpoints, as Handler and the files it calls register them. *)
Definition read (pattern : string) : string * string := (pattern, RoleRead).
Definition deploy (pattern : string) : string * string := (pattern, RoleDeploy).
Definition admin (pattern : string) : string * string := (pattern, RoleAdmin).

Definition server_routes : list (string * string) :=
  [read "GET /api/v1/server"; read "GET /api/v1/applications"; read "GET /api/v1/applications/{name}"; admin "DELETE /api/v1/applications/{name}";
   deploy "POST /api/v1/applications/{name}/deploy"; deploy "POST /api/v1/applications/{name}/redeploy"; deploy "POST /api/v1/applications/{name}/rollback";
   deploy "POST /api/v1/applications/{name}/stop"; deploy "POST /api/v1/applications/{name}/start"; read "GET /api/v1/applications/{name}/logs";
   read "GET /api/v1/applications/{name}/events"; read "GET /api/v1/applications/{name}/metrics"; read "GET /api/v1/deployments"; read "GET /api/v1/deployments/{id}"].
Definition jobRoutes : list (string * string) :=
  [read "GET /api/v1/applications/{name}/jobs"; read "GET /api/v1/applications/{name}/runs"; read "GET /api/v1/applications/{name}/runs/{id}";
   deploy "POST /api/v1/applications/{name}/jobs/{job}/run"; deploy "POST /api/v1/applications/{name}/run"].
Definition volumeRoutes : list (string * string) :=
  [read "GET /api/v1/applications/{name}/volumes"; admin "GET /api/v1/applications/{name}/volumes/{volume}/archive"; admin "PUT /api/v1/applications/{name}/volumes/{volume}/archive"].
Definition managedVolumeRoutes : list (string * string) := [read "GET /api/v1/volumes"; admin "DELETE /api/v1/volumes/{name}"].
Definition tokenRoutes : list (string * string) :=
  [admin "GET /api/v1/tokens"; admin "POST /api/v1/tokens"; admin "DELETE /api/v1/tokens/{name}"; admin "PUT /api/v1/tokens/{name}"].
Definition metricsRoutes : list (string * string) := [read "GET /api/v1/applications/{name}/metrics/history"].
Definition imageRoutes : list (string * string) := [deploy "POST /api/v1/applications/{name}/images"; deploy "POST /api/v1/applications/{name}/images/missing"].
Definition secretRoutes : list (string * string) := [read "GET /api/v1/secrets"; admin "PUT /api/v1/secrets/{name}"; admin "DELETE /api/v1/secrets/{name}"].
Definition staticRoutes : list (string * string) := [deploy "PUT /api/v1/applications/{name}/static"].
Definition validateRoutes : list (string * string) := [deploy "POST /api/v1/applications/{name}/validate"].
Definition backupRoutes : list (string * string) :=
  [read "GET /api/v1/applications/{name}/backups"; read "GET /api/v1/applications/{name}/backups/{id}"; deploy "POST /api/v1/applications/{name}/backups";
   deploy "POST /api/v1/applications/{name}/backups/{id}/verify"; admin "POST /api/v1/applications/{name}/backups/{id}/restore";
   admin "GET /api/v1/applications/{name}/backups/{id}/volumes/{volume}/archive"; admin "DELETE /api/v1/applications/{name}/backups/{id}";
   admin "GET /api/v1/server/backups"; admin "GET /api/v1/server/backups/{id}"; admin "POST /api/v1/server/backups"; admin "POST /api/v1/server/backups/adopt"].
Definition trafficRoutes : list (string * string) := [read "GET /api/v1/applications/{name}/traffic"; read "GET /api/v1/applications/{name}/requests"].
Definition registryRoutes : list (string * string) :=
  [read "GET /api/v1/registries"; admin "PUT /api/v1/registries/{registry}"; admin "DELETE /api/v1/registries/{registry}"; admin "POST /api/v1/server/rotate-key"].
Definition certificateRoutes : list (string * string) :=
  [read "GET /api/v1/certificates"; admin "PUT /api/v1/certificates/{hostname}"; admin "DELETE /api/v1/certificates/{hostname}"].
Definition prometheusRoutes : list (string * string) := [read "GET /metrics"].
Definition exportRoutes : list (string * string) :=
  [admin "POST /api/v1/export"; admin "GET /api/v1/exports"; admin "GET /api/v1/exports/{id}"; admin "POST /api/v1/exports"; admin "POST /api/v1/import"; admin "GET /api/v1/import";
   read "GET /api/v1/standby"; admin "POST /api/v1/standby/pull"; admin "POST /api/v1/standby/promote"; read "GET /api/v1/standby/promotion"].
Definition auditRoutes : list (string * string) := [admin "GET /api/v1/audit"; admin "GET /api/v1/audit/export"].
Definition configRoutes : list (string * string) := [deploy "GET /api/v1/applications/{name}/config"; deploy "POST /api/v1/applications"; deploy "POST /api/v1/validate"].
Definition logRoutes : list (string * string) :=
  [read "GET /api/v1/applications/{name}/logs/archive"; read "GET /api/v1/applications/{name}/logs/archive/{id}"; read "GET /api/v1/applications/{name}/logs/search"].
Definition cloudflareRoutes : list (string * string) := [admin "POST /api/v1/server/cloudflare/verify"].
Definition signInRoutes : list (string * string) :=
  [read "DELETE /api/v1/auth/session"; admin "GET /api/v1/access/rules"; admin "POST /api/v1/access/rules"; admin "DELETE /api/v1/access/rules/{id}";
   admin "GET /api/v1/access/sessions"; admin "DELETE /api/v1/access/sessions/{email}"].

Definition patterns : list (string * string) :=
  server_routes ++ jobRoutes ++ volumeRoutes ++ managedVolumeRoutes ++ tokenRoutes ++ metricsRoutes ++ imageRoutes ++ secretRoutes ++ staticRoutes ++
  validateRoutes ++ backupRoutes ++ trafficRoutes ++ registryRoutes ++ certificateRoutes ++ prometheusRoutes ++ exportRoutes ++ auditRoutes ++ configRoutes ++
  logRoutes ++ cloudflareRoutes ++ signInRoutes.
Definition routes : list route := (λ p, newRoute p.1 p.2) <$> patterns.

(** ** The rate limiter *)

Definition failedAuthLimit : Z := 20.
Definition failedAuthWindow : Duration := minute.
Definition rateLimitFor : Duration := minute.
Definition limiterPruneEvery : Duration := minute.

Record clientFailures := mk_failures { failures : list Time; blockedUntil : Time }.
Record rateLimiter := mk_limiter { clients : gmap string clientFailures; pruned : Time }.

(** recent is the failures still within the window. *)
Fixpoint drop_until (cutoff : Time) (l : list Time) : list Time :=
  match l with [] => [] | t :: r => if negb (cutoff <? t) then drop_until cutoff r else l end.
Definition recent (c : clientFailures) (now : Time) : list Time := drop_until (now - failedAuthWindow) (failures c).

Definition forgettable (now : Time) (c : clientFailures) : Prop := recent c now = [] ∧ blockedUntil c ≤ now.
#[global] Instance forgettable_dec now c : Decision (forgettable now c).
Proof. unfold forgettable. apply _. Defined.
Definition prune (l : rateLimiter) (now : Time) : rateLimiter :=
  if Sub now (pruned l) <? limiterPruneEvery then l
  else mk_limiter (filter (λ e, ¬ forgettable now e.2) (clients l)) now.

Definition limited (l : rateLimiter) (addr : string) (now : Time) : rateLimiter * option Duration :=
  let l := prune l now in
  (l, match clients l !! addr with
      | Some c => if now <? blockedUntil c then Some (Sub (blockedUntil c) now) else None
      | None => None
      end).
Definition failed (l : rateLimiter) (addr : string) (now : Time) : rateLimiter :=
  let c := default (mk_failures [] zero_time) (clients l !! addr) in
  let fs := (recent c now ++ [now])%list in
  mk_limiter (<[addr := if failedAuthLimit <=? Z.of_nat (List.length fs) then mk_failures [] (now + rateLimitFor) else mk_failures fs (blockedUntil c)]> (clients l)) (pruned l).

Definition clientAddress (remoteAddr : string) : string :=
  match SplitHostPort remoteAddr with Some (host, _) => host | None => remoteAddr end.

(** ** Requests *)

Record request := mk_request { rq_remote : string; rq_local : option Addr; rq_authorization : string; rq_forwarded : list string;
  rq_path : gmap string string; rq_body : string }.
Definition PathValue (r : request) (key : string) : string := default "" (rq_path r !! key).
Definition SetPathValue (r : request) (key value : string) : request :=
  mk_request (rq_remote r) (rq_local r) (rq_authorization r) (rq_forwarded r) (<[key := value]> (rq_path r)) (rq_body r).

(** A refusal: its code and what it says. *)
Record refusal := mk_refusal { rf_code : string; rf_message : text }.
Definition CodeForbidden := "FORBIDDEN".
Definition CodeTokenLimited := "TOKEN_LIMITED".
Definition credential (who : TokenIdentity) : string := if String.eqb (ti_Kind who) ActorUser then "session" else "token".
Definition forbiddenMessage (who : TokenIdentity) (required : string) : text :=
  [L "this "; S' (credential who); L " has the "; S' (ti_Role who); L " role; ";
   S' (if String.eqb required RoleDeploy then "deploying needs deploy or admin" else "this needs " ++ required)].
Definition englishList (names : list string) : string :=
  match last names with
  | None => ""
  | Some x => match names with [_] => x | _ => join ", " (removelast names) ++ " and " ++ x end
  end.
Definition printable_segment (segment : string) : string :=
  if String.eqb segment "" || (128 <? slen segment) || negb (str_forall printable segment) then "(invalid)" else segment.

Definition authorize (who : TokenIdentity) (rt : route) (r : request) : option refusal :=
  if negb (Covers (ti_Role who) (rt_role rt)) then Some (mk_refusal CodeForbidden (forbiddenMessage who (rt_role rt))) else
  if String.eqb (rt_role rt) RoleRead || negb (Limited who) then None else
  let limit := [L "this "; S' (credential who); L " is limited to "; S' (englishList (ti_Applications who))] in
  if negb (rt_application rt) && negb (rt_document rt)
  then Some (mk_refusal CodeTokenLimited (limit ++ [L ", and this is not about one application"])%list) else
  let name := PathValue r "name" in
  if rt_document rt && String.eqb name ""
  then Some (mk_refusal CodeTokenLimited (limit ++ [L ", and the document does not name an application"])%list) else
  if Allows who name then None
  else Some (mk_refusal CodeTokenLimited (limit ++ [L "; it can read "; S' (printable_segment name); L " and not change it"])%list).

Definition identityOf (name role : string) (applications : list string) (expiresAt : option Time) : TokenIdentity :=
  mk_identity name role ActorToken applications expiresAt.
Definition sessionIdentity (s : Session) : TokenIdentity := mk_identity (se_Email s) (se_Role s) ActorUser (se_Applications s) (Some (se_ExpiresAt s)).

(** The client address the nearest proxy reported. *)
Definition forwardedFor (r : request) : string :=
  match last (rq_forwarded r) with
  | None => ""
  | Some v =>
      match ParseAddr (trim_space (default "" (last (split "," v)))) with
      | Some (V6 g z) => if String.eqb z "" then Addr_String (Unmap (V6 g z)) else ""
      | Some a => Addr_String a
      | None => ""
      end
  end.

(** ** The audit trail *)

Definition AuditOK := "ok".
Definition AuditRefused := "refused".
Definition AuditFailed := "failed".
Record AuditEntry := mk_entry { ae_At : Time; ae_Kind : string; ae_Name : string; ae_Address : string; ae_ForwardedFor : string; ae_Action : string;
  ae_Application : string; ae_Target : string; ae_Detail : string; ae_Outcome : string; ae_Status : Z; ae_Code : string }.

(** How a handler ended: the status it wrote (0: none), the start of an error
    body, its Location, whether an export's trailer says it broke off, what it
    told the recorder, and whether it panicked. *)
Record handled := mk_handled { hd_status : Z; hd_failure : string; hd_location : string; hd_trailer : bool;
  hd_target : option string; hd_details : list string; hd_panicked : bool }.

Definition joinDetail (a b : string) : string := if String.eqb a "" then b else a ++ ", " ++ b.

(** A time in RFC 3339, to the second and in UTC; withTenant adds where an account signed in from. *)
Definition pad (width : nat) (n : Z) : string := let s := itoa n in string_of_list_ascii (repeat "0"%char (width - String.length s)) ++ s.
Definition RFC3339 (t : Time) : string :=
  pad 4 (Year t) ++ "-" ++ pad 2 (Month t) ++ "-" ++ pad 2 (Day t) ++ "T" ++ pad 2 (Hour t) ++ ":" ++ pad 2 (Minute t) ++ ":" ++ pad 2 ((t / second) mod 60) ++ "Z".
Definition describeToken (role : string) (applications : list string) (expiresAt : option Time) : string :=
  "role " ++ role ++ (if nonnil applications then ", limited to " ++ join " " applications else "") ++
  match expiresAt with Some t => ", expires " ++ RFC3339 t | None => "" end.
Definition withTenant (detail tenant : string) : string := if String.eqb tenant "" then detail else joinDetail detail ("tenant " ++ tenant).
Example described : withTenant (describeToken "deploy" ["api"; "web"] (Some (1700000000 * second))) "t1"
  = "role deploy, limited to api web, expires 2023-11-14T22:13:20Z, tenant t1".
Proof. vm_compute. reflexivity. Qed.

Definition quote : string := String (chr 34) "".
Definition code_char (c : ascii) : bool := is_upper c || Ascii.eqb c "_".
Fixpoint up_to (f : ascii → bool) (s : string) : string * string :=
  match s with
  | String c r => if f c then let '(a, b) := up_to f r in (String c a, b) else ("", s)
  | "" => ("", "")
  end.
Definition maxFailurePrefix : nat := 128.
(** errorCodePattern on the first bytes of an error's body. *)
Definition error_code (body : string) : option string :=
  rest ← cut_prefix ("{" ++ quote ++ "error" ++ quote ++ ":{" ++ quote ++ "code" ++ quote ++ ":" ++ quote) (substring 0 maxFailurePrefix body);
  let '(code, after) := up_to code_char rest in
  if (1 <=? slen code) && (slen code <=? 64) && has_prefix quote after then Some code else None.
(** startedPattern: the last two segments of the Location. *)
Definition started (location : string) : option (string * string) :=
  match rev (split "/" location) with
  | id :: kind :: _ :: _ =>
      if contains ["deployments"; "runs"; "backups"; "exports"] kind && str_forall is_digit id && (1 <=? slen id) && (slen id <=? 19) then Some (kind, id) else None
  | _ => None
  end.

Definition begun (rt : route) (a : auditedRoute) (who : TokenIdentity) (r : request) (now : Time) : AuditEntry :=
  let name := PathValue r "name" in
  mk_entry now (ti_Kind who) (ti_Name who) (clientAddress (rq_remote r)) (forwardedFor r) (ad_action a)
    (if (rt_application rt || rt_document rt) && is_ok (ValidateName name) then name else "")
    (if String.eqb (ad_target a) "" then "" else printable_segment (PathValue r (ad_target a)))
    (if String.eqb (ad_detail a) "" then "" else ad_detail a ++ " " ++ printable_segment (PathValue r (ad_detail a)))
    "" 0 "".

(** finish: the entry as it is written when the handler returned, or panicked. *)
Definition finished (e : AuditEntry) (h : handled) : AuditEntry :=
  let status := if hd_panicked h then 500 else if hd_status h =? 0 then 200 else hd_status h in
  let code := if hd_panicked h then CodeInternal else "" in
  let code := if 400 <=? hd_status h then default code (error_code (hd_failure h)) else code in
  let broke_off := (status <? 400) && hd_trailer h in
  let detail := foldl joinDetail (ae_Detail e) (hd_details h) in
  mk_entry (ae_At e) (ae_Kind e) (ae_Name e) (ae_Address e) (ae_ForwardedFor e) (ae_Action e) (ae_Application e) (default (ae_Target e) (hd_target h))
    (match started (hd_location h) with Some (kind, id) => if status <? 400 then joinDetail detail (trim_suffix "s" kind ++ " " ++ id) else detail | None => detail end)
    (if broke_off then AuditFailed else if status <? 400 then AuditOK else if status =? 403 then AuditRefused else AuditFailed)
    status (if broke_off then CodeInternal else code).

(** What writeError leaves for the recorder: the body of a refusal starts with its code. *)
Definition refused_with (status : Z) (code : string) : handled :=
  mk_handled status ("{" ++ quote ++ "error" ++ quote ++ ":{" ++ quote ++ "code" ++ quote ++ ":" ++ quote ++ code ++ quote) "" false None [] false.
Example codes : (error_code (hd_failure (refused_with 403 CodeForbidden)), started "/api/v1/deployments/12", started "runs/1", error_code "nope")
  = (Some "FORBIDDEN", Some ("deployments", "12"), None, None).
Proof. vm_compute. reflexivity. Qed.

(** ** The server *)

(** origins: the last answer of Docker about where applications call from. *)
Record server := mk_server { lastUsed : gmap Z Time; limiter : rateLimiter; nonces : gmap string Time; used : gmap Z Time;
  or_asked : Time; or_asking : bool; or_subnets : list Prefix; or_containers : list Addr }.
Definition set_lastUsed f s := mk_server (f (lastUsed s)) (limiter s) (nonces s) (used s) (or_asked s) (or_asking s) (or_subnets s) (or_containers s).
Definition set_limiter f s := mk_server (lastUsed s) (f (limiter s)) (nonces s) (used s) (or_asked s) (or_asking s) (or_subnets s) (or_containers s).
Definition set_nonces f s := mk_server (lastUsed s) (limiter s) (f (nonces s)) (used s) (or_asked s) (or_asking s) (or_subnets s) (or_containers s).
Definition set_used f s := mk_server (lastUsed s) (limiter s) (nonces s) (f (used s)) (or_asked s) (or_asking s) (or_subnets s) (or_containers s).
Definition set_asking asking asked s := mk_server (lastUsed s) (limiter s) (nonces s) (used s) asked asking (or_subnets s) (or_containers s).
Definition set_origins subnets containers s := mk_server (lastUsed s) (limiter s) (nonces s) (used s) (or_asked s) (or_asking s) subnets containers.

(** What the ID token says of the person who signed in. *)
Record Claims := mk_claims { cl_Name : string; cl_EmailVerified : option bool; cl_Groups : list string; cl_Tenant : string }.
(** What the oidc package reports: the kind of its error, or an error of another kind. *)
Inductive oidc_error := CodeRejected | InvalidToken | NonceMismatch | TenantNotAllowed | Unavailable | OtherError.

Inductive acall :=
  | ANow | AGetToken (hash : string) | AGetSession (hash : string) | AAccessRules
  | ATouchToken (id : Z) (now : Time) | ATouchSession (id : Z) (now : Time) | AEndSession (id : Z) (reason : string) (now : Time)
  | AOrigins | AHandle (rt : route) (who : TokenIdentity) (r : request) | AAudit (e : AuditEntry) | AAnswer (status : Z) (code : string) | ALog (what : text)
  | AExchange (code verifier : string) | AVerify (raw nonce : string) | ARandom | ACreateSession (s : Session).
Definition aanswer (c : acall) : Type :=
  match c with
  | ANow => Time
  | AGetToken _ => account Token
  | AGetSession _ | ACreateSession _ => account Session
  | AAccessRules => or_error (list AccessRule)
  | ATouchToken _ _ | ATouchSession _ _ | AEndSession _ _ _ | AAudit _ => error
  | AOrigins => or_error (list Prefix * list Addr)
  | AHandle _ _ _ => handled
  | AExchange _ _ => (oidc_error + string)%type
  | AVerify _ _ => (oidc_error + Claims)%type
  | ARandom => or_error string
  | AAnswer _ _ | ALog _ => unit
  end.
Abbreviation AM := (Effects.M server aanswer).

(** What the agent knows of the provider people sign in with. *)
Record Provider := mk_provider { pv_NameClaim : string; pv_TenantAllowed : string → bool; pv_AnyTenant : bool; pv_RedirectURL : string }.
Record Reach := mk_reach { rc_Control : option Addr; rc_ControlSubnets : list Prefix; rc_Closed : bool; rc_Origins : bool }.

Definition CodeUnauthorized := "UNAUTHORIZED".
Definition CodeTokenExpired := "TOKEN_EXPIRED".
Definition CodeSessionExpired := "SESSION_EXPIRED".
Definition CodeSessionEnded := "SESSION_ENDED".
Definition CodeRateLimited := "RATE_LIMITED".
Definition CodeApplicationCaller := "APPLICATION_CALLER".
Definition SessionEndedRuleRemoved := "rule_removed".
Definition SessionEndedAccessChanged := "access_changed".
Definition SessionEndedSignInChanged := "sign_in_changed".
Definition lastUsedResolution : Duration := minute.
Definition SessionLifetime : Duration := 10 * hour.
Definition nonceKeptFor : Duration := 15 * minute.
Definition MaxConfigBytes : Z := 64 * 1024.

Section Server.
Variable Sum256 : string → string.
(** spec.DocumentName: the name in a document, read by the YAML library. *)
Variable DocumentName : string → option string.
Variable tokenHash : string.
Variable provider : option Provider.
Variable reach : option Reach.
Variable world : list (happened aanswer) → ∀ c, aanswer c.
Local Abbreviation perform := (Effects.perform world).
Definition answer_with (status : Z) (code : string) : AM unit := perform (AAnswer status code).

(** ** Who is it *)

(** recordUse and recordSessionUse write the use of a credential at most once a minute. *)
Definition fresh_use (seen : option Time) (now : Time) : bool := match seen with Some last => lastUsedResolution <=? Sub now last | None => true end.
Definition recordUse (t : Token) : AM unit :=
  let! now := perform ANow in
  let! last := mget (λ s, match lastUsed s !! tk_ID t with Some at_ => Some at_ | None => tk_LastUsedAt t end) in
  if negb (fresh_use last now) then mret tt else
  let! _ := mset (set_lastUsed (insert (tk_ID t) now)) in
  let! err := perform (ATouchToken (tk_ID t) now) in
  match err with Some e => perform (ALog (L "could not record token use" :: e)) | None => mret tt end.
Definition recordSessionUse (s : Session) : AM unit :=
  let! now := perform ANow in
  let! last := mget (λ sv, match used sv !! se_ID s with Some at_ => Some at_ | None => se_LastUsedAt s end) in
  if negb (fresh_use last now) then mret tt else
  let! _ := mset (set_used (λ m, filter (λ e, Sub now e.2 <= SessionLifetime) (<[se_ID s := now]> m))) in
  let! err := perform (ATouchSession (se_ID s) now) in
  match err with Some e => perform (ALog (L "could not record session use" :: e)) | None => mret tt end.

Definition nameClaim : string := match provider with Some p => pv_NameClaim p | None => DefaultNameClaim end.
Definition stillVouchedFor (s : Session) : bool :=
  String.eqb (se_NameClaim s) nameClaim && match provider with Some p => pv_TenantAllowed p (se_Tenant s) | None => true end.

(** Who a credential is, why it no longer works, whether it is known. *)
Definition nobody : TokenIdentity := mk_identity "" "" "" [] None.
Definition unknown : TokenIdentity * string * bool := (nobody, "", false).

(** Why the rules no longer carry a session: empty when they do. *)
Definition ended_by (rules : list AccessRule) (s : Session) : string :=
  if negb (stillVouchedFor s) then SessionEndedSignInChanged else
  match ResolveAccess rules (se_Email s) (se_Groups s) with
  | None => SessionEndedRuleRemoved
  | Some grant => if negb (Equal grant (mk_grant (se_Role s) (se_Applications s))) then SessionEndedAccessChanged else ""
  end.

Definition identifySession (presented : string) : AM (TokenIdentity * string * bool) :=
  let! a := perform (AGetSession presented) in
  match a with
  | inl NotFound => mret unknown
  | inl _ => let! _ := perform (ALog [L "could not look up the session"]) in mret unknown
  | inr s =>
      if negb (String.eqb (se_Hash s) presented) then mret unknown else
      let who := sessionIdentity s in
      let! now := perform ANow in
      if bool_decide (is_Some (se_EndedAt s)) then mret (who, se_EndedReason s, true) else
      if negb (now <? se_ExpiresAt s) then mret (who, "", true) else
      let! a := perform AAccessRules in
      match a with
      | inl e => let! _ := perform (ALog (L "could not read the access rules" :: e)) in mret unknown
      | inr rules =>
          let ended := ended_by rules s in
          if negb (String.eqb ended "") then
            let! err := perform (AEndSession (se_ID s) ended now) in
            let! _ := match err with Some e => perform (ALog (L "could not end the session" :: e)) | None => mret tt end in
            let! _ := perform (ALog [L "session ended"]) in
            mret (who, ended, true)
          else let! _ := recordSessionUse s in mret (who, "", true)
      end
  end.

Definition identify (presented : string) : AM (TokenIdentity * string * bool) :=
  if String.eqb presented tokenHash then mret (identityOf RootTokenName RoleAdmin [] None, "", true) else
  let! a := perform (AGetToken presented) in
  match a with
  | inl NotFound => identifySession presented
  | inl _ => let! _ := perform (ALog [L "could not look up the API token"]) in mret unknown
  | inr t =>
      if negb (String.eqb (tk_Hash t) presented) then mret unknown else
      let who := identityOf (tk_Name t) (tk_Role t) (tk_Applications t) (tk_ExpiresAt t) in
      let! fresh := match tk_ExpiresAt t with
                    | None => mret true
                    | Some at_ => let! now := perform ANow in mret (now <? at_)
                    end in
      let! _ := (if fresh : bool then recordUse t else mret tt) in
      mret (who, "", true)
  end.

(** ** Serving a request *)

Definition nameDocument (r : request) : request :=
  if MaxConfigBytes <? slen (rq_body r) then r
  else match DocumentName (rq_body r) with Some name => SetPathValue r "name" name | None => r end.

(** The handler runs only for a caller it is for; whatever is audited is
    recorded, refusals and panics included. True: the handler panicked. *)
Definition attend (rt : route) (r : request) (who : TokenIdentity) : AM handled :=
  match authorize who rt r with
  | Some no => let! _ := answer_with 403 (rf_code no) in mret (refused_with 403 (rf_code no))
  | None => perform (AHandle rt who r)
  end.
Definition serve (rt : route) (r : request) (who : TokenIdentity) : AM bool :=
  let r := if rt_document rt then nameDocument r else r in
  match rt_audit rt with
  | None => let! h := attend rt r who in mret (hd_panicked h)
  | Some a =>
      let! now := perform ANow in
      let! h := attend rt r who in
      let! err := perform (AAudit (finished (begun rt a who r now) h)) in
      let! _ := match err with Some e => perform (ALog (L "could not write the audit entry" :: e)) | None => mret tt end in
      mret (hd_panicked h)
  end.

(** The limiter is asked in one critical section and told of a failure in another:
    requests interleave between the two (AccessInv.turn). *)
Definition ask_limiter (addr : string) : AM (option Duration) :=
  let! now := perform ANow in
  let! l := mget limiter in
  let '(l, wait) := limited l addr now in
  let! _ := mset (set_limiter (λ _, l)) in
  mret wait.
Definition fail_auth (addr : string) : AM unit :=
  let! now := perform ANow in mset (set_limiter (λ l, failed l addr now)).

(** An address that failed too often is answered 429 and no longer counted. *)
Definition refuse_unknown (addr : string) : AM unit :=
  let! wait := ask_limiter addr in
  match wait with
  | Some _ => answer_with 429 CodeRateLimited
  | None => let! _ := fail_auth addr in answer_with 401 CodeUnauthorized
  end.

Definition authenticate (rt : route) (r : request) : AM bool :=
  let '(token, ok) := match cut_prefix "Bearer " (rq_authorization r) with Some t => (t, true) | None => (rq_authorization r, false) end in
  let! (who, ended, known) := identify (Sum256 token) in
  if negb ok || negb known then let! _ := refuse_unknown (clientAddress (rq_remote r)) in mret false else
  if negb (String.eqb ended "") then let! _ := answer_with 401 CodeSessionEnded in mret false else
  let! expired := match ti_ExpiresAt who with
                  | None => mret false
                  | Some at_ => let! now := perform ANow in mret (negb (now <? at_))
                  end in
  if expired : bool then
    let! _ := answer_with 401 (if String.eqb (ti_Kind who) ActorUser then CodeSessionExpired else CodeTokenExpired) in mret false
  else serve rt r who.

(** ** Where a request comes from *)

Definition originsFor : Duration := 2 * second.
Definition in_subnets (subnets : list Prefix) (a : Addr) : bool := existsb (λ p, Contains p a) subnets.
Definition WithoutZone (a : Addr) : Addr := match a with V4 g => V4 g | V6 g _ => V6 g "" end.
Definition IsLoopback (a : Addr) : bool :=
  match a with
  | V4 (hi :: _) => Z.shiftr hi 8 =? 127
  | V4 [] => false
  | V6 g _ => bool_decide (g = [0; 0; 0; 0; 0; 0; 0; 1])
  end.

(** origins: the last answer, asked for again by one request at a time. *)
Definition origins (now : Time) : AM (list Prefix * list Addr) :=
  let! s := mget (λ s, s) in
  if or_asking s || (negb (or_asked s =? zero_time) && (Sub now (or_asked s) <? originsFor)) then mret (or_subnets s, or_containers s) else
  let! _ := mset (set_asking true now) in
  let! found := perform AOrigins in
  let! _ := mset (λ s, set_asking false (or_asked s) s) in
  match found with
  | inl e =>
      let! _ := perform (ALog (L "could not ask Docker which addresses belong to applications; the ones last known are refused" :: e)) in
      mget (λ s, (or_subnets s, or_containers s))
  | inr (subnets, containers) =>
      let containers := Unmap <$> containers in
      let! _ := mset (set_origins subnets containers) in mret (subnets, containers)
  end.

(** Whether the request is refused for where it comes from. *)
Definition refuses (g : Reach) (r : request) (now : Time) : AM bool :=
  match ParseAddr (clientAddress (rq_remote r)) with
  | None => mret false
  | Some remote =>
      let remote := WithoutZone (Unmap remote) in
      if IsLoopback remote then mret false else
      let at_control := match rc_Control g, rq_local r with Some control, Some local => bool_decide (Unmap local = control) | _, _ => false end in
      if at_control : bool then mret (negb (in_subnets (rc_ControlSubnets g) remote)) else
      if negb (rc_Origins g) then mret false else
      let! (subnets, containers) := origins now in
      mret (contains containers remote || (rc_Closed g && in_subnets subnets remote))
  end.

(** A request to a registered endpoint, from the connection on: refuseApplications,
    authenticate, and recoverPanics around both. *)
Definition Handler (rt : route) (r : request) : AM unit :=
  let! refused := match reach with
                  | None => mret false
                  | Some g => let! now := perform ANow in refuses g r now
                  end in
  if refused : bool then answer_with 403 CodeApplicationCaller else
  let! panicked := authenticate rt r in
  if panicked : bool then answer_with 500 CodeInternal else mret tt.

(** ** What a handler reads a document for *)

(** readConfig and readDocument: the application the handler acts on is the one
    the request was authorized for. *)
Definition readConfig (Parse : string → result App) (r : request) (name : string) : result App :=
  match Parse (rq_body r) with
  | Err e => Err e
  | Ok app => if String.eqb (a_Name app) name then Ok app
              else Err [L "the config describes application "; Q (a_Name app); L " but the URL names "; Q name]
  end.
Definition readDocument (Parse : string → result App) (r : request) : result App :=
  match Parse (rq_body r) with
  | Err e => Err e
  | Ok app => if String.eqb (a_Name app) (PathValue r "name") then Ok app
              else Err [L "the name of the application could not be read from the document; write it as name: my-api at the top"]
  end.

(** ** Signing in *)

Definition CodeSignInNotConfigured := "SIGN_IN_NOT_CONFIGURED".
Definition CodeSignInFailed := "SIGN_IN_FAILED".
Definition CodeSignInUnavailable := "SIGN_IN_UNAVAILABLE".
Definition CodeAccessNotGranted := "ACCESS_NOT_GRANTED".

Record SignInRequest := mk_sign_in { sq_Code : string; sq_CodeVerifier : string; sq_Nonce : string; sq_RedirectURI : string }.
Definition plausibleCode (code : string) : bool := negb (String.eqb code "") && (slen code <=? 4096) && str_forall printable code.
Definition verifier_char (c : ascii) : bool := is_letter c || is_digit c || contains (list_ascii_of_string "._~-") c.
Definition codeVerifierPattern (s : string) : bool := str_forall verifier_char s && (43 <=? slen s) && (slen s <=? 128).
Definition nonce_char (c : ascii) : bool := is_letter c || is_digit c || contains (list_ascii_of_string "_-") c.
Definition noncePattern (s : string) : bool := str_forall nonce_char s && (22 <=? slen s) && (slen s <=? 256).

(** firstUse: a nonce completes one sign-in, for as long as an ID token with it could be presented. *)
Definition firstUse (nonce : string) (now : Time) : AM bool :=
  let! _ := mset (set_nonces (filter (λ e, Sub now e.2 <= nonceKeptFor))) in
  let! seen := mget (λ s, nonces s !! Sum256 nonce) in
  match seen with
  | Some _ => mret false
  | None => let! _ := mset (set_nonces (insert (Sum256 nonce) now)) in mret true
  end.

Definition writeSignInError (e : oidc_error) : AM unit :=
  match e with
  | OtherError => answer_with 500 CodeInternal
  | Unavailable => answer_with 502 CodeSignInUnavailable
  | _ => answer_with 401 CodeSignInFailed
  end.
Definition failSignIn (addr : string) (e : oidc_error) : AM unit :=
  let! _ := match e with Unavailable | OtherError => mret tt | _ => fail_auth addr end in
  writeSignInError e.

(** The name the person is known by, or no name. *)
Definition personNamed (c : Claims) : option string :=
  match PersonName nameClaim (cl_Name c) with
  | Err _ => None
  | Ok name => if String.eqb nameClaim DefaultNameClaim && bool_decide (cl_EmailVerified c = Some false) then None else Some name
  end.

Definition auditSignIn (r : request) (email outcome : string) (status : Z) (code detail : string) : AM unit :=
  let! now := perform ANow in
  let! err := perform (AAudit (mk_entry now ActorUser email (clientAddress (rq_remote r)) (forwardedFor r) "signin" "" "" detail outcome status code)) in
  match err with Some e => perform (ALog (L "could not write the audit entry" :: e)) | None => mret tt end.

Definition groups_of (p : Provider) (c : Claims) : list string := List.filter (λ g, ValidGroup g && negb (pv_AnyTenant p)) (cl_Groups c).

(** The part of handleSignIn that follows what the provider vouched for. *)
Definition let_in (p : Provider) (r : request) (claims : Claims) (email : string) (now : Time) : AM unit :=
  let groups := groups_of p claims in
  let! a := perform AAccessRules in
  match a with
  | inl _ => answer_with 500 CodeInternal
  | inr rules =>
      match ResolveAccess rules email groups with
      | None => let! _ := auditSignIn r email AuditRefused 403 CodeAccessNotGranted (withTenant "" (cl_Tenant claims)) in answer_with 403 CodeAccessNotGranted
      | Some grant =>
          let! random := perform ARandom in
          match newSession Sum256 random with
          | inl _ => answer_with 500 CodeInternal
          | inr (_, hash) =>
              let! a := perform (ACreateSession (mk_session 0 hash email groups (g_Role grant) (g_Applications grant) now (now + SessionLifetime) None None "" nameClaim (cl_Tenant claims))) in
              match a with
              | inl _ => answer_with 500 CodeInternal
              | inr s =>
                  let detail := withTenant (describeToken (se_Role s) (se_Applications s) (Some (se_ExpiresAt s))) (se_Tenant s) in
                  let! _ := auditSignIn r email AuditOK 200 "" detail in answer_with 200 ""
              end
          end
      end
  end.

Definition handleSignIn (r : request) (req : SignInRequest) : AM unit :=
  match provider with
  | None => answer_with 409 CodeSignInNotConfigured
  | Some p =>
      if negb (plausibleCode (sq_Code req)) || negb (codeVerifierPattern (sq_CodeVerifier req)) || negb (noncePattern (sq_Nonce req)) ||
         negb (String.eqb (sq_RedirectURI req) (pv_RedirectURL p))
      then answer_with 400 CodeInvalidRequest else
      let addr := clientAddress (rq_remote r) in
      let! wait := ask_limiter addr in
      match wait with
      | Some _ => answer_with 429 CodeRateLimited
      | None =>
          let! a := perform (AExchange (sq_Code req) (sq_CodeVerifier req)) in
          match a with inl e => failSignIn addr e | inr raw =>
          let! a := perform (AVerify raw (sq_Nonce req)) in
          match a with inl e => failSignIn addr e | inr claims =>
          let! now := perform ANow in
          let! first := firstUse (sq_Nonce req) now in
          if negb first then let! _ := fail_auth addr in answer_with 401 CodeSignInFailed else
          match personNamed claims with
          | None => answer_with 401 CodeSignInFailed
          | Some email => let_in p r claims email now
          end
          end end
      end
  end.
End Server.
