(* ===== verification/AccessInv.v ===== *)
(** * Who may use the API

    What Access.v lets through, against any world: the credential a handler's
    caller holds and what it covers, the entry every change leaves, and how many
    wrong credentials an address may try. *)

From S2P Require Import Prelude GoStrings GoURL Effects GoTime GoNetip SpecTypes SpecNames SpecReferences Crypto Store Roles Accounts Access.
From Stdlib Require Import Ascii String.
Local Open Scope string_scope.
Local Open Scope Z_scope.

(** ** Guessing *)

(** Requests with an unknown credential, and sign-ins, against one limiter. Each
    takes the limiter's lock to be let past or turned away, and takes it again,
    after whatever others did in between, when its failure is counted. *)
Inductive turn := Asks (r : nat) (addr : string) (t : Time) | Counts (r : nat) (t : Time) | Ends (r : nat).

(** Of the address [who]: the failures counted, newest first, each with how many had
    been counted when its request was let past. [h_open] are the requests let past
    whose failure is not counted yet. *)
Record hall := mk_hall { h_now : Time; h_limiter : rateLimiter; h_past : list (nat * Time); h_open : gmap nat (string * nat) }.

Section Turns.
Context (who : string).
(** A turn, with the clock not running backwards; [None] for a turn that cannot come. *)
Definition take_turn (h : hall) (d : turn) : option hall :=
  match d with
  | Asks r addr t =>
      if (t <? h_now h) || bool_decide (is_Some (h_open h !! r)) then None else
      let '(l, wait) := limited (h_limiter h) addr t in
      Some (mk_hall t l (h_past h) (match wait with Some _ => h_open h | None => <[r := (addr, List.length (h_past h))]> (h_open h) end))
  | Counts r t =>
      if t <? h_now h then None else
      match h_open h !! r with
      | None => None
      | Some (addr, seen) =>
          Some (mk_hall t (failed (h_limiter h) addr t) (if String.eqb addr who then (seen, t) :: h_past h else h_past h) (delete r (h_open h)))
      end
  | Ends r => Some (mk_hall (h_now h) (h_limiter h) (h_past h) (delete r (h_open h)))
  end.
Fixpoint take_turns (h : hall) (ds : list turn) : option hall :=
  match ds with [] => Some h | d :: ds => match take_turn h d with Some h => take_turns h ds | None => None end end.
End Turns.

Definition client (l : rateLimiter) (who : string) : clientFailures := default (mk_failures [] zero_time) (clients l !! who).

(** What the limiter remembers of an address, against all of its failures: the
    [k] newest, before which they are out of the window or up to a block. *)
Record remembers_from (k : nat) (now : Time) (c : clientFailures) (past : list Time) : Prop := {
  rm_tail : rev (failures c) = take k past;
  rm_few : (k < 20)%nat;
  rm_rest : ∀ x, past !! k = Some x → x + minute ≤ now ∨ x + minute = blockedUntil c;
  rm_sorted : ∀ i j x y, (i ≤ j)%nat → past !! i = Some x → past !! j = Some y → y ≤ x ∧ x ≤ now;
  rm_held : ∀ i x y, past !! i = Some x → past !! (i + 19)%nat = Some y → x < y + minute → y + minute ≤ now ∨ y + minute ≤ blockedUntil c;
  rm_block : blockedUntil c = zero_time ∨ ∃ i x y, blockedUntil c = x + minute ∧ past !! i = Some x ∧ past !! (i + 19)%nat = Some y ∧ x - minute < y }.
Definition remembers now c past : Prop := ∃ k, remembers_from k now c past.

Lemma recent_suffix c now : ∃ old, failures c = (old ++ recent c now)%list ∧ Forall (λ t, t + minute ≤ now) old ∧
  (∀ t rest, recent c now = t :: rest → now - minute < t).
Proof.
  unfold recent, failedAuthWindow. induction (failures c) as [|t r (old & E & Ho & Hf)]; simpl; [by exists []|].
  destruct (Z.ltb_spec (now - minute) t); cbn [negb]; [exists []; split_and!; [done|constructor|intros ? ? [= <- _]; done]|].
  exists (t :: old). simpl. rewrite <- E. split_and!; [done|constructor; [lia|done]|done].
Qed.

(** The newest [length (recent c now)] failures are in the window, and the one before is not. *)
Lemma recent_newest k now c past : remembers_from k now c past →
  let n := List.length (recent c now) in
  (n ≤ k)%nat ∧ rev (recent c now) = take n past ∧ (∀ x, past !! n = Some x → x + minute ≤ now ∨ x + minute = blockedUntil c).
Proof.
  intros [Ht _ Hr _ _ _]. destruct (recent_suffix c now) as (old & E & Ho & _). cbn zeta. set (n := List.length (recent c now)).
  assert (rev (failures c) = rev (recent c now) ++ rev old)%list as Er by (rewrite E; apply rev_app_distr).
  rewrite Ht in Er. assert (List.length (rev (recent c now)) = n) as Hn by apply length_rev.
  assert (n + List.length old = Nat.min k (List.length past))%nat as Hlen.
  { pose proof (f_equal List.length Er) as El. rewrite length_take, length_app, !length_rev in El. fold n in El. lia. }
  split; [lia|]. split.
  - transitivity (take n (take k past)); [|rewrite take_take; f_equal; lia]. rewrite Er. by rewrite <- Hn at 1; rewrite take_app_length.
  - intros x Hx. destruct (decide (List.length old = 0)%nat) as [E0|].
    + assert (n = k ∨ n = List.length past) as [En|En] by lia; [rewrite En in Hx; by apply Hr|].
      apply lookup_lt_Some in Hx. lia.
    + left. assert (take k past !! n = Some x) as Hx' by (rewrite lookup_take_lt; [done|lia]).
      rewrite Er, lookup_app_r, Hn, Nat.sub_diag in Hx' by lia. rewrite Forall_forall in Ho. apply Ho.
      apply list_elem_of_In, in_rev, list_elem_of_In. by eapply list_elem_of_lookup_2.
Qed.

Lemma remembers_later now now' c past : now ≤ now' → remembers now c past → remembers now' c past.
Proof.
  intros Hn [k [Ht Hf Hr Hs Hp Hb]]. exists k. constructor; try done.
  - intros x Hx. destruct (Hr x Hx); [left; lia|by right].
  - intros i j x y Hij Hi Hj. destruct (Hs i j x y Hij Hi Hj). lia.
  - intros i x y Hi Hj Hxy. destruct (Hp i x y Hi Hj Hxy); [left; lia|by right].
Qed.

Lemma remembers_pruned now l who past : zero_time ≤ now → remembers now (client l who) past → remembers now (client (prune l now) who) past.
Proof.
  intros Hz [k Hk]. unfold prune, client in *. destruct (Sub now (pruned l) <? limiterPruneEvery); [by exists k|]. cbn [clients].
  destruct (clients l !! who) as [c|] eqn:E; simpl in Hk.
  2:{ rewrite map_lookup_filter, E. simpl. by exists k. }
  rewrite map_lookup_filter, E. simpl. destruct (decide (forgettable now c)) as [Hf|Hf].
  - rewrite option_guard_False by (intros H; by apply H). simpl. destruct Hf as [Hnil Hb]. destruct (recent_newest _ _ _ _ Hk) as (_ & _ & Hx). rewrite Hnil in Hx.
    destruct Hk as [_ _ _ Hs Hp _]. exists 0%nat. constructor; [done|lia| |done| |by left].
    + intros x H0. left. destruct (Hx x H0); lia.
    + intros i x y Hi Hj Hxy. left. destruct (Hp i x y Hi Hj Hxy); lia.
  - rewrite option_guard_True by done. simpl. by exists k.
Qed.

Lemma remembers_failed now l who past : zero_time ≤ now → remembers now (client l who) past →
  remembers now (client (failed l who now) who) (now :: past).
Proof.
  intros Hz [k Hk]. destruct (recent_newest _ _ _ _ Hk) as (Hn & Ht & Hx). destruct (recent_suffix (client l who) now) as (old & _ & _ & Hin).
  destruct Hk as [_ Hfew _ Hs Hp Hb]. unfold failed. fold (client l who). set (c := client l who) in *. set (n := List.length (recent c now)) in *.
  unfold client at 1. cbn [clients]. rewrite lookup_insert_eq. cbn [default from_option]. unfold id.
  assert (blockedUntil c ≤ now + minute) as Hbl.
  { destruct Hb as [->|(i & x & y & -> & Hi & _)]; [unfold minute, second in *; lia|]. destruct (Hs i i x x (le_n i) Hi Hi). lia. }
  assert (∀ i j x y, (i ≤ j)%nat → (now :: past) !! i = Some x → (now :: past) !! j = Some y → y ≤ x ∧ x ≤ now) as Hs'.
  { intros [|i] [|j] x y Hij Hi Hj; simpl in *; simplify_eq; try lia; [destruct (Hs j j y y (le_n j) Hj Hj); lia|]. apply (Hs i j); [lia|done..]. }
  destruct (Z.leb_spec failedAuthLimit (Z.of_nat (List.length (recent c now ++ [now])))) as [Hl|Hl]; rewrite length_app in Hl; cbn [List.length] in Hl; fold n in Hl; unfold failedAuthLimit in Hl.
  - exists 0%nat. constructor; [done|lia|intros x [= <-]; right; done|done| |]; cbn [blockedUntil].
    { intros [|i] x y Hi Hj Hxy; [|destruct (Hp i x y Hi Hj Hxy); [by left|right; unfold rateLimitFor; lia]].
      right. unfold rateLimitFor. destruct (Hs' 0%nat (0 + 19)%nat x y ltac:(lia) Hi Hj). lia. }
    right. assert (n = 19)%nat as En by lia. destruct (recent c now) as [|t rest] eqn:Er; [simpl in n; lia|].
    assert (past !! 18%nat = Some t) as Hy.
    { transitivity (take n past !! 18%nat); [by rewrite lookup_take_lt by lia|]. rewrite <- Ht. simpl. rewrite lookup_app_r; rewrite length_rev; unfold n in En; simpl in En; [|lia].
      by replace (18 - List.length rest)%nat with 0%nat by lia. }
    exists 0%nat, now, t. split_and!; [done|done|exact Hy|]. specialize (Hin t rest eq_refl). lia.
  - exists (S n). constructor; [|lia|cbn [blockedUntil]; intros x Hxn; exact (Hx x Hxn)|done| |].
    + cbn [failures]. change (rev (recent c now ++ [now])%list = take (S n) (now :: past)). rewrite rev_app_distr, Ht. done.
    + cbn [blockedUntil]. intros [|i] x y Hi Hj Hxy; [|by apply (Hp i x y)]. simpl in Hi, Hj. injection Hi as <-.
      assert (is_Some (past !! n)) as [z Hzn] by (apply lookup_lt_is_Some; apply lookup_lt_Some in Hj; lia).
      destruct (Hs n 18%nat z y ltac:(lia) Hzn Hj). destruct (Hx z Hzn); [left|right]; lia.
    + cbn [blockedUntil]. destruct Hb as [Hb|(i & x & y & ? & ? & ? & ?)]; [by left|]. right. by exists (S i), x, y.
Qed.

Lemma failed_other l who addr now : addr ≠ who → client (failed l addr now) who = client l who.
Proof. intros H. unfold client, failed. cbn [clients]. by rewrite lookup_insert_ne. Qed.

(** Twenty failures, one after the other, the first less than a minute before the last. *)
Definition twenty (past : list Time) (j : nat) (first last : Time) : Prop :=
  past !! j = Some last ∧ past !! (j + 19)%nat = Some first ∧ last < first + minute.

(** What asking at [now] answers, from what is remembered. *)
Lemma limited_remembers now l who past : zero_time ≤ now → remembers now (client l who) past →
  remembers now (client (limited l who now).1 who) past ∧
  (is_Some (limited l who now).2 → ∃ j first last, twenty past j first last ∧ now < last + minute) ∧
  (∀ j first last, twenty past j first last → now < first + minute → is_Some (limited l who now).2).
Proof.
  intros Hz Hr. unfold limited. pose proof (remembers_pruned now l who past Hz Hr) as Hr'. cbn [fst snd]. split; [done|].
  unfold client in Hr'. destruct (clients (prune l now) !! who) as [c|]; simpl in Hr'; destruct Hr' as [k [_ _ _ _ Hp Hb]].
  - destruct (Z.ltb_spec now (blockedUntil c)) as [Hlt|Hge]; (split; [intros Hs|intros j first last (H1 & H2 & H3) Hf]).
    + destruct Hb as [Hb|(j & x & y & E & H1 & H2 & H3)]; [lia|]. exists j, y, x. unfold twenty. split_and!; [done..|lia|lia].
    + done.
    + by destruct Hs.
    + destruct (Hp j last first H1 H2 H3); lia.
  - split; [by intros [? ?]|]. intros j first last (H1 & H2 & H3) Hf. cbn [blockedUntil] in Hp. destruct (Hp j last first H1 H2 H3); lia.
Qed.
Lemma limited_other l who addr now past : zero_time ≤ now → remembers now (client l who) past → remembers now (client (limited l addr now).1 who) past.
Proof. intros Hz Hr. unfold limited. cbn [fst]. by apply remembers_pruned. Qed.

(** A request let past with [seen] failures counted: none of the twenties among those held it back. *)
Definition let_past (h : hall) (seen : nat) (now : Time) : Prop :=
  (seen ≤ List.length (h_past h))%nat ∧
  ∀ j first last, (List.length (h_past h) - seen ≤ j)%nat → twenty (h_past h).*2 j first last → first + minute ≤ now.
Record hall_ok (who : string) (h : hall) : Prop := {
  ho_time : zero_time ≤ h_now h;
  ho_client : remembers (h_now h) (client (h_limiter h) who) (h_past h).*2;
  ho_open : ∀ r seen, h_open h !! r = Some (who, seen) → let_past h seen (h_now h);
  ho_past : ∀ i seen at_, h_past h !! i = Some (seen, at_) → let_past h seen at_ }.

Lemma let_past_later h h' seen now now' : let_past h seen now → now ≤ now' → h_past h' = h_past h → let_past h' seen now'.
Proof. intros [H1 H2] Hn E. unfold let_past. rewrite E. split; [done|]. intros j first last Hj Ht. specialize (H2 j first last Hj Ht). lia. Qed.
Lemma let_past_counted h h' seen now e : let_past h seen now → h_past h' = e :: h_past h → let_past h' seen now.
Proof.
  intros [H1 H2] E. unfold let_past. rewrite E. cbn [List.length]. split; [lia|]. intros j first last Hj Ht. destruct j as [|j]; [lia|].
  apply (H2 j first last); [lia|exact Ht].
Qed.

Lemma take_turn_ok who h d h' : hall_ok who h → take_turn who h d = Some h' → hall_ok who h'.
Proof.
  intros [Hz Hc Ho Hp]. destruct d as [r addr t|r t|r]; cbn [take_turn].
  - destruct (Z.ltb_spec t (h_now h)) as [|Ht]; [done|]. case_bool_decide as Hr; cbn [orb]; [done|].
    pose proof (remembers_later _ t _ _ Ht Hc) as Hc1. pose proof (limited_other _ _ addr t _ ltac:(lia) Hc1) as Hc2.
    pose proof (limited_remembers t _ _ _ ltac:(lia) Hc1) as (_ & _ & Hheld). destruct (limited (h_limiter h) addr t) as [l wait] eqn:E. cbn [fst snd] in Hc2, Hheld. intros [= <-].
    constructor; cbn [h_now h_limiter h_open h_past]; [lia|done| |intros i seen at_ Hi; by eapply let_past_later; [apply (Hp i)|..]].
    intros r' seen Hr'. destruct wait as [w|]; [by eapply let_past_later; [apply (Ho r')|..]|]. destruct (decide (r = r')) as [<-|].
    + rewrite lookup_insert_eq in Hr'. injection Hr' as -> <-. split; [done|]. intros j first last _ Htw. apply Z.le_ngt. intros Hf.
      specialize (Hheld j first last Htw Hf). rewrite E in Hheld. by destruct Hheld.
    + rewrite lookup_insert_ne in Hr' by done. by eapply let_past_later; [apply (Ho r')|..].
  - destruct (Z.ltb_spec t (h_now h)) as [|Ht]; [done|]. destruct (h_open h !! r) as [[addr seen]|] eqn:Er; [|done]. intros [= <-].
    pose proof (remembers_later _ t _ _ Ht Hc) as Hc1.
    destruct (String.eqb_spec addr who) as [->|Hne]; constructor; cbn [h_now h_limiter h_open h_past]; try lia.
    + apply remembers_failed; cbn [snd]; [lia|done].
    + intros r' seen' Hr'. apply lookup_delete_Some in Hr' as [_ Hr']. eapply let_past_counted; [|reflexivity]. by eapply let_past_later; [apply (Ho r')|..].
    + intros [|i] seen' at_ Hi; cbn in Hi; [injection Hi as <- <-|]; (eapply let_past_counted; [|reflexivity]); [by eapply let_past_later; [apply (Ho r)|..]|by apply (Hp i)].
    + by rewrite failed_other.
    + intros r' seen' Hr'. apply lookup_delete_Some in Hr' as [_ Hr']. by eapply let_past_later; [apply (Ho r')|..].
    + intros i seen' at_ Hi. by eapply let_past_later; [apply (Hp i)|..].
  - intros [= <-]. constructor; cbn [h_now h_limiter h_open h_past]; try done. intros r' seen Hr'. apply lookup_delete_Some in Hr' as [_ Hr'].
    by eapply let_past_later; [apply (Ho r')|..].
Qed.
Lemma take_turns_ok who ds : ∀ h h', hall_ok who h → take_turns who h ds = Some h' → hall_ok who h'.
Proof.
  induction ds as [|d ds IH]; intros h h' H E; simpl in E; [by simplify_eq|]. destruct (take_turn who h d) as [h1|] eqn:Ed; [|done].
  eapply IH; [|done]. by eapply take_turn_ok.
Qed.

Definition no_failures : rateLimiter := mk_limiter ∅ zero_time.
Definition nobody (start : Time) : hall := mk_hall start no_failures [] ∅.
Lemma nobody_ok who start : zero_time ≤ start → hall_ok who (nobody start).
Proof.
  intros H. constructor; [done| |by intros r seen Hr|by intros i seen at_ Hi]. exists 0%nat.
  change (h_past (nobody start)).*2 with (@nil Time).
  constructor; [done|lia|done|intros i j x y _ Hi; by rewrite lookup_nil in Hi|intros i x y Hi; by rewrite lookup_nil in Hi|by left].
Qed.

(** C36: requests with an unknown credential and sign-ins, let past the limiter and
    counted in any order among each other: once twenty failures of an address have
    been counted within a minute, the address is answered 429 until the first of
    them is a minute old, so that of the failures counted within that minute the
    ones beyond the twentieth are those of requests that had been let past before
    the twentieth was counted; the address is answered 429 only after twenty
    failures within a minute, the last less than a minute ago; and an unknown
    credential is answered 429 and not counted, or 401 and counted. *)
Theorem guesses_limited who start ds h : zero_time ≤ start → take_turns who (nobody start) ds = Some h →
  let past := (h_past h).*2 in
  (∀ i j first last seen at_, twenty past j first last → (i < j)%nat → h_past h !! i = Some (seen, at_) → at_ < first + minute →
     (seen < List.length past - j)%nat) ∧
  (∀ t, h_now h ≤ t → let answer := (limited (h_limiter h) who t).2 in
     (is_Some answer → ∃ j first last, twenty past j first last ∧ t < last + minute) ∧
     (∀ j first last, twenty past j first last → t < first + minute → is_Some answer)) ∧
  (∀ (world : list (happened aanswer) → ∀ c, aanswer c) addr (s : Effects.St server aanswer), let asked := world s.2 ANow in
     let counted := world (mk_happened ANow asked :: s.2) ANow in
     let '(l, wait) := limited (limiter s.1) addr asked in
     let '(answer, l') := match wait with Some _ => ((429, CodeRateLimited), l) | None => ((401, CodeUnauthorized), failed l addr counted) end in
     limiter (refuse_unknown world addr s).2.1 = l' ∧
     ∃ evs, (refuse_unknown world addr s).2.2 = (mk_happened (AAnswer answer.1 answer.2) tt :: evs)%list).
Proof.
  intros Hz Hg. destruct (take_turns_ok _ _ _ _ (nobody_ok who start Hz) Hg) as [Hz' Hc _ Hp]. split; [|split].
  - intros i j first last seen at_ Ht Hij Hi Hat. destruct (Hp i seen at_ Hi) as [_ H]. rewrite length_fmap. apply Nat.lt_nge. intros Hle.
    specialize (H j first last ltac:(lia) Ht). lia.
  - intros t Ht. apply (limited_remembers t); [lia|]. by eapply remembers_later.
  - intros world addr s. cbn zeta. unfold refuse_unknown, ask_limiter, fail_auth, answer_with, mthen, perform, mget, mset, mret. cbn [fst snd].
    destruct (limited (limiter s.1) addr (world s.2 ANow)) as [l1 wait].
    destruct wait; cbn [fst snd limiter set_limiter];
      (split; [done|]); eexists; by match goal with |- context [mk_happened ?c ?a] => destruct a end.
Qed.

(** Twenty-one requests of one address are let past at once and fail: all are counted, and the next is turned away. *)
Definition at_once : list turn := (List.map (λ r, Asks r "a" (Z.of_nat r)) (seq 1 21) ++ List.map (λ r, Counts r (100 + Z.of_nat r)) (seq 1 21))%list.
Definition after_at_once : hall := default (nobody 0) (take_turns "a" (nobody 0) at_once).
Example guesses_limited_witness :
  List.length (h_past after_at_once) = 21%nat ∧ h_past after_at_once !! 0%nat = Some (0%nat, 121) ∧
  twenty (h_past after_at_once).*2 1 101 120 ∧ (0 < List.length (h_past after_at_once).*2 - 1)%nat ∧ is_Some (limited (h_limiter after_at_once) "a" 200).2.
Proof.
  assert (twenty (h_past after_at_once).*2 1 101 120) as Ht by (vm_compute; split_and!; reflexivity).
  destruct (guesses_limited "a" 0 at_once after_at_once ltac:(vm_compute; congruence) ltac:(vm_compute; reflexivity)) as (H1 & H2 & _).
  split; [vm_compute; reflexivity|]. split; [vm_compute; reflexivity|]. split; [exact Ht|]. split.
  - apply (H1 0%nat 1%nat 101 120 0%nat 121 Ht); [lia|vm_compute; reflexivity|vm_compute; reflexivity].
  - destruct (H2 200 ltac:(vm_compute; congruence)) as [_ H]. apply (H 1%nat 101 120 Ht). vm_compute. reflexivity.
Defined.

(** ** Credentials *)

Definition event := happened aanswer.
Definition quiet (e : event) : Prop := match what e with AHandle _ _ _ => False | _ => True end.
Definition anyhow (_ _ : server) : Prop := True.
#[local] Instance anyhow_preorder : PreOrder anyhow.
Proof. by split. Qed.
Lemma anyhow_any s s' : anyhow s s'.
Proof. done. Qed.
#[local] Hint Resolve anyhow_any : calm.

Section Credentials.
Context (Sum256 : string → string) (DocumentName : string → option string) (tokenHash : string) (provider : option Provider).
Context (world : list event → ∀ c, aanswer c).

(** What a request has established since [h0]: no handler ran, and these calls were answered so. *)
Definition since (h0 facts : list event) (s : Effects.St server aanswer) : Prop :=
  ∃ evs, s.2 = (evs ++ h0)%list ∧ Forall quiet evs ∧ ∀ e, e ∈ facts → e ∈ evs.

Lemma since_perform h0 facts c : (∀ a, quiet (mk_happened c a)) →
  triple (since h0 facts) (perform world c) (λ a, since h0 (mk_happened c a :: facts)).
Proof.
  intros Hq. apply (triple_perform (answer := aanswer) world _ c). intros s a (evs & E & H1 & H2). exists (mk_happened c a :: evs). simpl. rewrite E.
  split; [done|]. split; [by constructor|]. intros e [->|He]%elem_of_cons; [by left|right; by apply H2].
Qed.
Lemma since_calm {A} h0 facts (m : AM A) : calm anyhow quiet m → triple (since h0 facts) m (λ _, since h0 facts).
Proof.
  intros Hm s (evs & E & H1 & H2). destruct (Hm s) as (_ & evs' & E' & Hq). exists (evs' ++ evs)%list. rewrite E', E, app_assoc.
  split; [done|]. split; [by apply Forall_app|]. intros e He. apply elem_of_app. right. by apply H2.
Qed.
Lemma since_fewer h0 facts facts' s : since h0 facts s → (∀ e, e ∈ facts' → e ∈ facts) → since h0 facts' s.
Proof. intros (evs & E & H1 & H2) H. exists evs. split_and!; [done..|]. intros e He. by apply H2, H. Qed.

Lemma quiet_log {A} what (k : unit → AM A) h0 facts Q : triple (since h0 facts) (k tt) Q → triple (since h0 facts) (mthen (perform world (ALog what)) k) Q.
Proof.
  intros H. apply (triple_then _ _ _ (λ _, since h0 facts)); [|by intros []].
  eapply triple_conseq; [by apply (since_perform h0 facts (ALog what))|done|]. intros a s Hs. eapply since_fewer; [exact Hs|]. intros e He. by right.
Qed.

Lemma recordUse_quiet t : calm anyhow quiet (recordUse world t).
Proof. unfold recordUse. calm. Qed.
Lemma recordSessionUse_quiet s : calm anyhow quiet (recordSessionUse world s).
Proof. unfold recordSessionUse. calm. Qed.

(** What stands behind a caller. *)
Definition vouched (evs : list event) (presented : string) (who : TokenIdentity) : Prop :=
  (presented = tokenHash ∧ who = identityOf RootTokenName RoleAdmin [] None) ∨
  (∃ t, (mk_happened (AGetToken presented) (inr t) : event) ∈ evs ∧ tk_Hash t = presented ∧ who = identityOf (tk_Name t) (tk_Role t) (tk_Applications t) (tk_ExpiresAt t)) ∨
  (∃ s rules, (mk_happened (AGetSession presented) (inr s) : event) ∈ evs ∧ se_Hash s = presented ∧ who = sessionIdentity s ∧ se_EndedAt s = None ∧
     stillVouchedFor provider s = true ∧ (mk_happened AAccessRules (inr rules) : event) ∈ evs ∧
     ResolveAccess rules (se_Email s) (se_Groups s) = Some (mk_grant (ti_Role who) (ti_Applications who))).
(** A session that had expired when it was looked up. *)
Definition lapsed (evs : list event) (who : TokenIdentity) : Prop :=
  ∃ at_ now, ti_ExpiresAt who = Some at_ ∧ (mk_happened ANow now : event) ∈ evs ∧ at_ ≤ now.
Definition identified (h0 : list event) (presented : string) (r : TokenIdentity * string * bool) (s : Effects.St server aanswer) : Prop :=
  ∃ facts, since h0 facts s ∧ (r.2 = true → r.1.2 = "" → vouched facts presented r.1.1 ∨ lapsed facts r.1.1).

Lemma identified_unknown h0 facts presented s : since h0 facts s → identified h0 presented unknown s.
Proof. intros H. by exists facts. Qed.

Lemma ended_by_nothing rules s : ended_by provider rules s = "" →
  stillVouchedFor provider s = true ∧ ResolveAccess rules (se_Email s) (se_Groups s) = Some (mk_grant (se_Role s) (se_Applications s)).
Proof.
  unfold ended_by. destruct (stillVouchedFor provider s); [|done]. destruct (ResolveAccess _ _ _) as [g|]; [|done]. cbn [negb].
  destruct (Equal g _) eqn:E; [|done]. apply bool_decide_eq_true in E as ->. done.
Qed.

(** The tables keep a reason with every ended session, and the clock does not run
    backwards. *)
Hypothesis reasons : ∀ h presented s, world h (AGetSession presented) = inr s → se_EndedAt s ≠ None → se_EndedReason s ≠ "".
Hypothesis forward : ∀ h (t : Time), (mk_happened ANow t : event) ∈ h → t ≤ world h ANow.

Lemma session_asked h0 presented facts : triple (since h0 facts) (perform world (AGetSession presented))
  (λ a s, since h0 (mk_happened (AGetSession presented) a :: facts) s ∧ ∀ x, a = inr x → se_EndedAt x ≠ None → se_EndedReason x ≠ "").
Proof.
  intros s Hs. split; [by apply (since_perform h0 facts (AGetSession presented))|]. intros x Hx. by apply (reasons s.2 presented).
Qed.

Lemma identifySession_spec h0 presented facts : triple (since h0 facts) (identifySession provider world presented) (identified h0 presented).
Proof.
  unfold identifySession. apply (triple_then _ _ _ _ _ (session_asked h0 presented facts)). intros a.
  assert (∀ what s', since h0 (mk_happened (AGetSession presented) a :: facts) s' → identified h0 presented (mthen (perform world (ALog what)) (λ _, mret unknown) s').1
    (mthen (perform world (ALog what)) (λ _, mret unknown) s').2) as Hlog.
  { intros what. apply quiet_log, triple_ret. intros s'. apply identified_unknown. }
  destruct a as [[]|x]; try (intros s' [Hs _]; first [by eapply identified_unknown|by apply Hlog]). clear Hlog.
  destruct (String.eqb_spec (se_Hash x) presented) as [Eh|]; cbn [negb]; [|apply triple_ret; intros s' [Hs _]; by eapply identified_unknown].
  set (f1 := mk_happened (AGetSession presented) (inr x) :: facts).
  apply (triple_then _ _ _ (λ now s, since h0 (mk_happened ANow now :: f1) s ∧ (se_EndedAt x ≠ None → se_EndedReason x ≠ ""))).
  { intros s [Hs He]. split; [by apply (since_perform h0 f1 ANow)|by apply He]. }
  intros now. destruct (bool_decide (is_Some (se_EndedAt x))) eqn:Ee.
  { apply triple_ret. intros s [Hs He]. eexists. split; [exact Hs|]. cbn [fst snd]. intros _ E. exfalso. apply He; [|done].
    intros E0. apply bool_decide_eq_true in Ee. rewrite E0 in Ee. by destruct Ee. }
  assert (se_EndedAt x = None) as Eo by (apply bool_decide_eq_false in Ee; by apply eq_None_not_Some). clear Ee.
  destruct (Z.ltb_spec now (se_ExpiresAt x)) as [|Hexp]; cbn [negb].
  2:{ apply triple_ret. intros s [Hs _]. eexists. split; [exact Hs|]. intros _ _. right. exists (se_ExpiresAt x), now. split_and!; [done|left|done]. }
  set (f2 := mk_happened ANow now :: f1).
  apply (triple_then _ _ _ (λ a, since h0 (mk_happened AAccessRules a :: f2))); [intros s [Hs _]; by apply (since_perform h0 f2 AAccessRules)|].
  intros [e|rules].
  { apply quiet_log, triple_ret. intros s Hs. by eapply identified_unknown. }
  set (f3 := mk_happened AAccessRules (inr rules) :: f2).
  destruct (String.eqb_spec (ended_by provider rules x) "") as [En|En]; cbn [negb].
  - apply (triple_then _ _ _ (λ _, since h0 f3)); [apply since_calm, recordSessionUse_quiet|]. intros u. apply triple_ret. intros s Hs.
    exists f3. split; [exact Hs|]. intros _ _. left. right. right. destruct (ended_by_nothing _ _ En) as [Hv Hr].
    exists x, rules. split_and!; [|done..|left|exact Hr]. right; right; left.
  - do 3 (apply (triple_then _ _ _ (λ _, since h0 f3)); [apply since_calm; calm|intros ?]). apply triple_ret. intros s Hs. exists f3. split; [exact Hs|]. intros _ E. by destruct En.
Qed.

Lemma identify_spec h0 presented : triple (λ s, s.2 = h0) (identify tokenHash provider world presented) (identified h0 presented).
Proof.
  assert (∀ s : Effects.St server aanswer, s.2 = h0 → since h0 [] s) as Hstart.
  { intros s E. exists []. split_and!; [done|constructor|]. by intros e ?%elem_of_nil. }
  eapply triple_conseq; [|exact Hstart|done]. unfold identify. destruct (String.eqb_spec presented tokenHash) as [E|].
  { apply triple_ret. intros s Hs. exists []. split; [exact Hs|]. intros _ _. left. by left. }
  apply (triple_then _ _ _ _ _ (since_perform h0 [] (AGetToken presented) ltac:(done))). intros [[]|t].
  1: apply identifySession_spec.
  1-4: apply quiet_log, triple_ret; intros s Hs; by eapply identified_unknown.
  destruct (String.eqb_spec (tk_Hash t) presented) as [Eh|]; cbn [negb]; [|apply triple_ret; intros s Hs; by eapply identified_unknown].
  set (f1 := [mk_happened (AGetToken presented) (inr t) : event]).
  apply (triple_then _ _ _ (λ _, since h0 f1)).
  { destruct (tk_ExpiresAt t); [|apply triple_ret; by intros s Hs]. apply since_calm. calm. }
  intros fresh. apply (triple_then _ _ _ (λ _, since h0 f1)); [destruct fresh; [apply since_calm, recordUse_quiet|apply triple_ret; by intros s Hs]|].
  intros u. apply triple_ret. intros s Hs. exists f1. split; [exact Hs|]. intros _ _. left. right. left. exists t. split_and!; [by left|done..].
Qed.

(** ** What a handler's caller has *)

(** The handler, when it runs, runs for a caller who is vouched for and not
    expired, and whom the endpoint is for. *)
Definition rightly (rt : route) (r : request) (evs : list event) : Prop :=
  ∀ rt' who r' h, (mk_happened (AHandle rt' who r') h : event) ∈ evs →
    rt' = rt ∧ r' = (if rt_document rt then nameDocument DocumentName r else r) ∧
    (∃ token, rq_authorization r = "Bearer " ++ token ∧ vouched evs (Sum256 token) who) ∧
    (∀ at_, ti_ExpiresAt who = Some at_ → ∃ now, (mk_happened ANow now : event) ∈ evs ∧ now < at_) ∧
    authorize who rt r' = None.

Lemma vouched_more evs evs' presented who : vouched evs presented who → (∀ e, e ∈ evs → e ∈ evs') → vouched evs' presented who.
Proof.
  intros [H|[(t & H1 & H2)|(s & rules & H1 & H2 & H3 & H4 & H5 & H6 & H7)]] Hi; [by left|right; left; exists t; auto|right; right; exists s, rules; split_and!; auto].
Qed.

Lemma quiet_rightly rt r evs : Forall quiet evs → rightly rt r evs.
Proof. intros Hq rt' who r' h Hin. by destruct (proj1 (Forall_forall _ _) Hq _ Hin). Qed.
Lemma rightly_within rt r evs all : rightly rt r evs → (∀ e, e ∈ evs → e ∈ all) → (∀ e, e ∈ all → e ∈ evs ∨ quiet e) → rightly rt r all.
Proof.
  intros Hr Hi Hq rt' who r' h Hin. destruct (Hq _ Hin) as [Hin'|]; [|done].
  destruct (Hr _ _ _ _ Hin') as (? & ? & (token & ? & ?) & Hx & ?). split_and!; [done..| | |done].
  - exists token. split; [done|]. by eapply vouched_more.
  - intros at_ Ha. destruct (Hx at_ Ha) as (now & ? & ?). exists now. auto.
Qed.
Lemma rightly_more rt r evs evs' : rightly rt r evs → Forall quiet evs' → rightly rt r (evs' ++ evs).
Proof.
  intros Hr Hq. apply (rightly_within _ _ _ _ Hr); intros e; rewrite elem_of_app; [by right|]. intros [He|]; [right; by eapply Forall_forall in Hq|by left].
Qed.

Definition served (h0 : list event) (rt : route) (r : request) (s : Effects.St server aanswer) : Prop := ∃ evs, s.2 = (evs ++ h0)%list ∧ rightly rt r evs.

Lemma served_calm {A} h0 rt r (m : AM A) : calm anyhow quiet m → triple (served h0 rt r) m (λ _, served h0 rt r).
Proof.
  intros Hm s (evs & E & Hr). destruct (Hm s) as (_ & evs' & E' & Hq). exists (evs' ++ evs)%list. rewrite E', E, app_assoc.
  split; [done|]. by apply rightly_more.
Qed.
Lemma since_served h0 facts rt r s : since h0 facts s → served h0 rt r s.
Proof. intros (evs & E & Hq & _). exists evs. split; [done|]. by apply quiet_rightly. Qed.

(** A caller who may be served: what is known of them when [serve] begins. *)
Definition admitted (r : request) (who : TokenIdentity) (facts : list event) : Prop :=
  (∃ token, rq_authorization r = "Bearer " ++ token ∧ vouched facts (Sum256 token) who) ∧
  (∀ at_, ti_ExpiresAt who = Some at_ → ∃ now, (mk_happened ANow now : event) ∈ facts ∧ now < at_).

Lemma attend_spec h0 facts rt r who : admitted r who facts →
  triple (since h0 facts) (attend world rt (if rt_document rt then nameDocument DocumentName r else r) who) (λ _, served h0 rt r).
Proof.
  intros [(token & Et & Hv) Hx]. set (r' := if rt_document rt then nameDocument DocumentName r else r). unfold attend. destruct (authorize who rt r') as [no|] eqn:Ea.
  - apply (triple_then _ _ _ (λ _, since h0 facts)); [apply since_calm; unfold answer_with; calm|]. intros u. apply triple_ret. intros s Hs. by eapply since_served.
  - intros s (evs & E & Hq & Hi). exists (mk_happened (AHandle rt who r') (world s.2 (AHandle rt who r')) :: evs). cbn [perform fst snd]. rewrite E. split; [done|].
    intros rt1 who1 r1 h [He|Hin]%elem_of_cons.
    + injection He as -> -> -> _. split_and!; [done..| | |done].
      * exists token. split; [done|]. eapply vouched_more; [exact Hv|]. intros e He. right. by apply Hi.
      * intros at_ Hat. destruct (Hx at_ Hat) as (now & ? & ?). exists now. split; [right; by apply Hi|done].
    + by destruct (proj1 (Forall_forall _ _) Hq _ Hin).
Qed.

Lemma serve_spec h0 facts rt r who : admitted r who facts → triple (since h0 facts) (serve DocumentName world rt r who) (λ _, served h0 rt r).
Proof.
  intros Ha. unfold serve. set (r' := if rt_document rt then nameDocument DocumentName r else r). destruct (rt_audit rt) as [a|].
  - apply (triple_then _ _ _ (λ _, since h0 facts)); [apply since_calm; calm|]. intros now.
    apply (triple_then _ _ _ _ _ (attend_spec h0 facts rt r who Ha)). intros h. apply served_calm. calm.
  - apply (triple_then _ _ _ _ _ (attend_spec h0 facts rt r who Ha)). intros h. apply served_calm. calm.
Qed.

Lemma refuse_unknown_quiet addr : calm anyhow quiet (refuse_unknown world addr).
Proof.
  unfold refuse_unknown, fail_auth, answer_with. apply calm_then; [exact _| |intros w; calm].
  unfold ask_limiter. apply calm_then; [exact _|calm|]. intros now. apply calm_then; [exact _|calm|]. intros l.
  destruct (limited l addr now) as [l' w]. calm.
Qed.

Lemma served_start h0 rt r s : s.2 = h0 → served h0 rt r s.
Proof. intros <-. exists []. split; [done|]. by apply quiet_rightly. Qed.

Lemma authenticate_spec h0 rt r : triple (λ s, s.2 = h0) (authenticate Sum256 DocumentName tokenHash provider world rt r) (λ _, served h0 rt r).
Proof.
  unfold authenticate. destruct (match cut_prefix "Bearer " (rq_authorization r) with Some t => (t, true) | None => (rq_authorization r, false) end) as [token known_form] eqn:Et.
  apply (triple_then _ _ _ _ _ (identify_spec h0 (Sum256 token))). intros [[who ended] known]. cbn beta iota.
  assert (∀ facts (m : AM bool), calm anyhow quiet m → triple (since h0 facts) m (λ _, served h0 rt r)) as Hcalm.
  { intros facts m Hm. eapply triple_conseq; [by apply (since_calm h0 facts)|done|]. intros a s. apply since_served. }
  intros s (facts & Hs & Hk). cbn [fst snd] in Hk. revert s Hs.
  destruct known_form, known; cbn [negb orb]; try (apply Hcalm, calm_then; [exact _|apply refuse_unknown_quiet|intros u; calm]).
  destruct (String.eqb_spec ended "") as [->|]; cbn [negb]; [|apply Hcalm; unfold answer_with; calm].
  specialize (Hk eq_refl eq_refl). destruct (cut_prefix "Bearer " (rq_authorization r)) as [t|] eqn:Ec; simplify_eq. apply cut_prefix_Some in Ec.
  destruct (ti_ExpiresAt who) as [at_|] eqn:Eat.
  2:{ apply (triple_then (since h0 facts) _ _ (λ b s, b = false ∧ since h0 facts s) (λ _, served h0 rt r)); [by apply triple_ret|]. intros b s [-> Hs]. revert s Hs. apply serve_spec.
      destruct Hk as [Hk|(a & ? & E & _)]; [|congruence]. split; [by exists token|congruence]. }
  apply (triple_then (since h0 facts) _ _ (λ b s, ∃ now, b = negb (now <? at_) ∧ since h0 (mk_happened ANow now :: facts) s ∧ (∀ t, (mk_happened ANow t : event) ∈ facts → t ≤ now)) (λ _, served h0 rt r)).
  { apply (triple_then _ _ _ (λ now s, since h0 (mk_happened ANow now :: facts) s ∧ (∀ t, (mk_happened ANow t : event) ∈ facts → t ≤ now))).
    - intros s Hs. split; [by apply (since_perform h0 facts ANow)|]. intros t Ht. apply forward. destruct Hs as (evs & -> & _ & Hi). apply elem_of_app. left. by apply Hi.
    - intros now. apply triple_ret. intros s [H1 H2]. by exists now. }
  intros b s (now & -> & Hs & Hle). revert s Hs. destruct (Z.ltb_spec now at_) as [Hlt|]; cbn [negb]; [|apply Hcalm; unfold answer_with; calm].
  apply serve_spec. split.
  - exists token. split; [done|]. destruct Hk as [Hk|(a & n & E & Hin & Hge)]; [eapply vouched_more; [exact Hk|intros e He; by right]|].
    specialize (Hle n Hin). simplify_eq. lia.
  - intros a Ha. rewrite Eat in Ha. injection Ha as <-. exists now. split; [left|done].
Qed.

Lemma refuses_quiet g r now : calm anyhow quiet (refuses world g r now).
Proof.
  unfold refuses, origins. destruct (ParseAddr _); [|calm]. cbv zeta. destruct (IsLoopback _); [calm|]. destruct (match rc_Control g with Some _ => _ | None => _ end); [calm|].
  destruct (negb (rc_Origins g)); [calm|]. calm.
Qed.

Lemma Handler_spec reach h0 rt r : triple (λ s, s.2 = h0) (Handler Sum256 DocumentName tokenHash provider reach world rt r) (λ _, served h0 rt r).
Proof.
  intros s Hs. unfold Handler. rewrite then_eq.
  match goal with |- context [(?m s).1] => assert (calm anyhow quiet m) as Hm by (destruct reach as [g|]; [apply calm_then; [exact _|calm|intros now; apply refuses_quiet]|calm]); destruct (Hm s) as (_ & evs & E & Hq);
    destruct (m s) as [refused s1] end. cbn [fst snd] in *. destruct refused.
  - apply served_calm; [unfold answer_with; calm|]. exists evs. rewrite E, Hs. split; [done|]. by apply quiet_rightly.
  - rewrite then_eq. pose proof (authenticate_spec s1.2 rt r s1 eq_refl) as (evs' & E' & Hr).
    destruct (authenticate _ _ _ _ _ _ _ s1) as [panicked s2]. cbn [fst snd] in *.
    assert (served h0 rt r s2) as Hs2.
    { exists (evs' ++ evs)%list. rewrite E', E, Hs, app_assoc. split; [done|]. apply (rightly_within _ _ _ _ Hr); intros e; rewrite elem_of_app; [by left|].
      intros [|He]; [by left|]. right. by eapply Forall_forall in Hq. }
    revert Hs2. destruct panicked; [apply (served_calm h0 rt r (answer_with world 500 CodeInternal)); unfold answer_with; calm|done].
Qed.
End Credentials.

(** C5: a handler runs only for who may run it, whatever the tables, the clock, Docker
    and the handler answer: the request carries, as a bearer credential, the root
    token, a stored token or a session; the credential has not expired; a session
    was not ended, and the rules read during the request still give the person the
    very role and limits it was issued with; the role covers the endpoint's; and
    beyond reading, a caller limited to some applications gets to endpoints about
    one application only, and that application, which is also the one a document
    it sends is accepted for, is among them. *)
Theorem served_within_rights Sum256 DocumentName tokenHash provider reach (world : list event → ∀ c, aanswer c) rt r s :
  (∀ h presented x, world h (AGetSession presented) = inr x → se_EndedAt x ≠ None → se_EndedReason x ≠ "") →
  (∀ h (t : Time), (mk_happened ANow t : event) ∈ h → t ≤ world h ANow) →
  ∃ evs, (Handler Sum256 DocumentName tokenHash provider reach world rt r s).2.2 = (evs ++ s.2)%list ∧
    ∀ rt' who r' h, (mk_happened (AHandle rt' who r') h : event) ∈ evs →
      rt' = rt ∧
      (∃ token, rq_authorization r = "Bearer " ++ token ∧ vouched tokenHash provider evs (Sum256 token) who) ∧
      (∀ at_, ti_ExpiresAt who = Some at_ → ∃ now, (mk_happened ANow now : event) ∈ evs ∧ now < at_) ∧
      Covers (ti_Role who) (rt_role rt) = true ∧
      (rt_role rt ≠ RoleRead → ti_Role who ≠ RoleAdmin → ti_Applications who ≠ [] →
         (rt_application rt = true ∨ rt_document rt = true) ∧ PathValue r' "name" ∈ ti_Applications who ∧
         ∀ Parse app, readDocument Parse r' = Ok app → a_Name app ∈ ti_Applications who).
Proof.
  intros Hreasons Hforward. destruct (Handler_spec Sum256 DocumentName tokenHash provider world Hreasons Hforward reach s.2 rt r s eq_refl) as (evs & E & Hr).
  exists evs. split; [exact E|]. intros rt' who r' h Hin. destruct (Hr _ _ _ _ Hin) as (-> & _ & Hv & Hx & Ha). split_and!; [done..| |].
  - unfold authorize in Ha. destruct (Covers _ _); [done|discriminate Ha].
  - intros Hread Hadmin Hsome. unfold authorize in Ha. destruct (Covers _ _); [|discriminate Ha]. cbn [negb] in Ha.
    assert (Limited who = true) as Hl.
    { unfold Limited. rewrite (proj2 (String.eqb_neq _ _) Hadmin). by destruct (ti_Applications who). }
    rewrite (proj2 (String.eqb_neq _ _) Hread), Hl in Ha. cbn [negb orb] in Ha.
    destruct (negb (rt_application rt) && negb (rt_document rt)) eqn:Eab; [done|]. destruct (rt_document rt && _) eqn:Ed; [done|].
    destruct (Allows who (PathValue r' "name")) eqn:Eal; [|done]. unfold Allows in Eal. rewrite Hl in Eal. cbn [negb orb] in Eal. apply contains_spec in Eal.
    split_and!; [|done|].
    + destruct (rt_application rt); [by left|]. destruct (rt_document rt); [by right|done].
    + intros Parse app Hp. unfold readDocument in Hp. destruct (Parse _) as [a|]; [|done].
      destruct (String.eqb_spec (a_Name a) (PathValue r' "name")) as [Ea|]; [|done]. simplify_eq. by rewrite Ea.
Qed.

(** A world with one session and one rule, in which an hour passes with each look. *)
Definition a_session : Session := mk_session 1 "#s" "ada@example.com" [] "deploy" ["web"] 0 (5 * hour) None None "" "email" "".
Definition a_rule : AccessRule := mk_rule 1 "email" "ada@example.com" "deploy" ["web"] 0 "root".
Definition last_look (h : list event) : Z := foldr (λ e m, match e with mk_happened ANow t => Z.max t m | _ => m end) 0 h.
Definition a_world (h : list event) (c : acall) : aanswer c :=
  match c with
  | ANow => last_look h + minute
  | AGetToken _ => inl NotFound
  | AGetSession p => if String.eqb p "#s" then inr a_session else inl NotFound
  | ACreateSession s => inr s
  | AAccessRules => inr [a_rule]
  | ATouchToken _ _ | ATouchSession _ _ | AEndSession _ _ _ | AAudit _ => None
  | AOrigins => inr ([], [])
  | AHandle _ _ _ => mk_handled 202 "" "/api/v1/deployments/7" false None [] false
  | AExchange _ _ | AVerify _ _ => inl Unavailable
  | ARandom => inr "r"
  | AAnswer _ _ | ALog _ => tt
  end.
Definition a_server : server := mk_server ∅ no_failures ∅ ∅ zero_time false [] [].
Definition a_request (name : string) : request := mk_request "172.18.0.2:4000" None "Bearer s" [] {[ "name" := name ]} "".
Definition deploy_route : route := newRoute "POST /api/v1/applications/{name}/deploy" RoleDeploy.
Definition handles (h : list event) : list string := omap (λ e, match what e with AHandle _ who _ => Some (ti_Name who) | _ => None end) h.
Definition outcomes (h : list event) : list (string * string) := omap (λ e, match what e with AAudit a => Some (ae_Outcome a, ae_Detail a) | _ => None end) h.
Definition attempt (name : string) : list event := (Handler (λ s, "#" ++ s) (λ _, None) "root-hash" None None a_world deploy_route (a_request name) (a_server, [])).2.2.
Lemma last_look_bound (h : list event) (t : Time) : (mk_happened ANow t : event) ∈ h → t ≤ last_look h.
Proof.
  induction h as [|e r IH]; [by intros ?%elem_of_nil|]. intros [<-|H]%elem_of_cons; simpl; [lia|]. specialize (IH H). destruct e as [[] a]; simpl in *; lia.
Qed.
Example served_within_rights_witness :
  (handles (attempt "web"), outcomes (attempt "web"), handles (attempt "api"), outcomes (attempt "api")) =
    (["ada@example.com"], [("ok", "deployment 7")], [], [("refused", "")]) ∧
  ∃ evs, attempt "web" = (evs ++ [])%list ∧ ∀ rt' who r' h, (mk_happened (AHandle rt' who r') h : event) ∈ evs → Covers (ti_Role who) RoleDeploy = true.
Proof.
  split; [vm_compute; reflexivity|].
  destruct (served_within_rights (λ s, "#" ++ s) (λ _, None) "root-hash" None None a_world deploy_route (a_request "web") (a_server, [])) as (evs & E & H).
  - intros h p x. cbn [a_world]. destruct (String.eqb p "#s"); [|done]. intros [= <-] Hn. by destruct Hn.
  - intros h t Ht%last_look_bound. cbn [a_world]. unfold minute, second. lia.
  - exists evs. split; [exact E|]. intros rt' who r' h Hin. destruct (H rt' who r' h Hin) as (_ & _ & _ & Hc & _). exact Hc.
Defined.

(** ** Signing in *)

Definition same_nonces (s s' : server) : Prop := nonces s' = nonces s.
#[local] Instance same_nonces_preorder : PreOrder same_nonces.
Proof. split; [done|]. intros a b c H1 H2. unfold same_nonces in *. congruence. Qed.
(** No session comes into being. *)
Definition no_session (e : event) : Prop := match what e with ACreateSession _ => False | _ => True end.
Lemma same_nonces_limiter l s : same_nonces s (set_limiter l s).
Proof. done. Qed.
#[local] Hint Resolve same_nonces_limiter : calm.

Section SigningIn.
Context (Sum256 : string → string) (provider : option Provider) (world : list event → ∀ c, aanswer c) (r : request) (req : SignInRequest).

(** What stands behind a session that was created: the provider redeemed the code
    with the verifier, and vouched for the person with the nonce, used for the
    first time; and the rules gave them what the session holds. *)
Definition vouched_for (before after : server) (evs : list event) (x : Session) : Prop :=
  ∃ p raw claims rules secret,
    provider = Some p ∧ sq_RedirectURI req = pv_RedirectURL p ∧
    (mk_happened (AExchange (sq_Code req) (sq_CodeVerifier req)) (inr raw) : event) ∈ evs ∧
    (mk_happened (AVerify raw (sq_Nonce req)) (inr claims) : event) ∈ evs ∧
    (mk_happened ANow (se_CreatedAt x) : event) ∈ evs ∧
    (mk_happened AAccessRules (inr rules) : event) ∈ evs ∧
    (mk_happened ARandom (inr secret) : event) ∈ evs ∧ se_Hash x = Sum256 (SessionPrefix ++ RawURLEncoding secret) ∧
    PersonName (pv_NameClaim p) (cl_Name claims) = Ok (se_Email x) ∧ (pv_NameClaim p = DefaultNameClaim → cl_EmailVerified claims ≠ Some false) ∧
    (∀ g, g ∈ se_Groups x → g ∈ cl_Groups claims ∧ pv_AnyTenant p = false) ∧
    ResolveAccess rules (se_Email x) (se_Groups x) = Some (mk_grant (se_Role x) (se_Applications x)) ∧
    se_ExpiresAt x = se_CreatedAt x + SessionLifetime ∧ se_EndedAt x = None ∧
    (∀ at_, nonces before !! Sum256 (sq_Nonce req) = Some at_ → nonceKeptFor < Sub (se_CreatedAt x) at_) ∧
    nonces after !! Sum256 (sq_Nonce req) = Some (se_CreatedAt x).
Definition created_rightly (s s' : Effects.St server aanswer) : Prop :=
  ∃ evs, s'.2 = (evs ++ s.2)%list ∧ ∀ x a, (mk_happened (ACreateSession x) a : event) ∈ evs → vouched_for s.1 s'.1 evs x.

Lemma after_calm {A} (m : AM A) (s0 : list event) (s : Effects.St server aanswer) : calm same_nonces no_session m →
  ∃ evs, (m s).2.2 = (evs ++ s.2)%list ∧ nonces (m s).2.1 = nonces s.1 ∧ (Forall no_session s0 → Forall no_session (evs ++ s0)).
Proof. intros Hm. destruct (Hm s) as (Hn & evs & E & Hq). exists evs. split_and!; [done|exact Hn|]. intros H0. by apply Forall_app. Qed.
Lemma none_created evs : Forall no_session evs → ∀ x a, (mk_happened (ACreateSession x) a : event) ∈ evs → False.
Proof. intros H x a Hin. exact (proj1 (Forall_forall no_session _) H _ Hin). Qed.
Lemma failSignIn_plain addr e : calm same_nonces no_session (failSignIn world addr e).
Proof. unfold failSignIn, fail_auth, writeSignInError, answer_with. destruct e; calm. Qed.
Lemma auditSignIn_plain email outcome status code detail : calm same_nonces no_session (auditSignIn world r email outcome status code detail).
Proof. unfold auditSignIn. calm. Qed.

(** What [let_in] creates, it creates for the person it was told of. *)
Definition admits (p : Provider) (claims : Claims) (email : string) (now : Time) (s s' : Effects.St server aanswer) : Prop :=
  ∃ evs, s'.2 = (evs ++ s.2)%list ∧ nonces s'.1 = nonces s.1 ∧
  ∀ x a, (mk_happened (ACreateSession x) a : event) ∈ evs → ∃ rules secret grant,
    (mk_happened AAccessRules (inr rules) : event) ∈ evs ∧ (mk_happened ARandom (inr secret) : event) ∈ evs ∧
    ResolveAccess rules email (groups_of p claims) = Some grant ∧
    x = mk_session 0 (Sum256 (SessionPrefix ++ RawURLEncoding secret)) email (groups_of p claims) (g_Role grant) (g_Applications grant) now (now + SessionLifetime) None None ""
          (nameClaim provider) (cl_Tenant claims).
Lemma admits_nobody {A} (m : AM A) p claims email now (s0 s : Effects.St server aanswer) pre : calm same_nonces no_session m → nonces s.1 = nonces s0.1 → s.2 = (pre ++ s0.2)%list → Forall no_session pre →
  admits p claims email now s0 (m s).2.
Proof.
  intros Hm En E Hp. destruct (after_calm m pre s Hm) as (evs & E' & Hn & Hq). exists (evs ++ pre)%list. rewrite E', E, app_assoc.
  split_and!; [done|congruence|]. intros x a Hin. by destruct (none_created _ (Hq Hp) x a Hin).
Qed.

Lemma admit_creates p claims email now s : admits p claims email now s (let_in Sum256 provider world p r claims email now s).2.
Proof.
  unfold let_in. rewrite then_perform. destruct (world s.2 AAccessRules) as [e|rules] eqn:Ew.
  { eapply (admits_nobody _ _ _ _ _ _ _ [mk_happened AAccessRules (inl e)]); [unfold answer_with; calm|done|done|by constructor]. }
  destruct (ResolveAccess rules email (groups_of p claims)) as [grant|] eqn:Eg.
  2:{ eapply (admits_nobody _ _ _ _ _ _ _ [mk_happened AAccessRules (inr rules)]); [apply calm_then; [exact _|apply auditSignIn_plain|intros u; unfold answer_with; calm]|done|done|by constructor]. }
  rewrite then_perform. cbn [fst snd]. destruct (world _ ARandom) as [e|secret] eqn:Er; cbn [newSession].
  { eapply (admits_nobody _ _ _ _ _ _ _ [_; mk_happened AAccessRules (inr rules)]); [unfold answer_with; calm|done|done|by repeat constructor]. }
  rewrite then_perform. cbn [fst snd]. destruct (world _ (ACreateSession _)) as [e|x'];
    match goal with |- context [mk_happened (ACreateSession ?x) ?a :: _] => set (x0 := x); set (a0 := a) end;
    match goal with |- admits _ _ _ _ _ (?m ?s').2 => assert (calm same_nonces no_session m) as Hm end.
  1: unfold answer_with; calm.
  2: apply calm_then; [exact _|apply auditSignIn_plain|intros u; unfold answer_with; calm].
  all: match type of Hm with calm _ _ ?m => match goal with |- admits _ _ _ _ _ (_ ?s').2 => destruct (after_calm m [] s' Hm) as (evs & E & Hn & Hq) end end.
  all: specialize (Hq (Forall_nil_2 _)); rewrite app_nil_r in Hq; eexists (evs ++ [_; _; _])%list; cbn [fst snd] in E; rewrite E, <- app_assoc; cbn [app]; split_and!; [done|exact Hn|].
  all: intros x a [Hin|Hin]%elem_of_app; [by destruct (none_created _ Hq x a Hin)|]; exists rules, secret, grant.
  all: split_and!; [apply elem_of_app; right; right; right; left|apply elem_of_app; right; right; left|done|].
  all: apply elem_of_cons in Hin as [Hin|Hin]; [by injection Hin|]; do 2 (apply elem_of_cons in Hin as [Hin|Hin]; [done|]); by apply elem_of_nil in Hin.
Qed.

Lemma plainly {A} (m : AM A) (s0 s : Effects.St server aanswer) pre : calm same_nonces no_session m → s.2 = (pre ++ s0.2)%list → Forall no_session pre →
  created_rightly s0 (m s).2.
Proof.
  intros Hm Es Hp. destruct (after_calm m pre s Hm) as (evs & E & _ & Hq). exists (evs ++ pre)%list. rewrite E, Es, app_assoc. split; [done|].
  intros x a Hin. by destruct (none_created _ (Hq Hp) x a Hin).
Qed.
Lemma firstUse_spec nonce now s : let '(first, s') := firstUse Sum256 nonce now s in s'.2 = s.2 ∧
  if first : bool then (∀ at_, nonces s.1 !! Sum256 nonce = Some at_ → nonceKeptFor < Sub now at_) ∧ nonces s'.1 !! Sum256 nonce = Some now else True.
Proof.
  unfold firstUse. rewrite then_set, then_get. cbn [fst snd set_nonces nonces]. destruct (filter _ _ !! Sum256 nonce) eqn:E; [done|].
  rewrite then_set. cbn. split; [done|]. split; [|apply lookup_insert_eq]. intros at_ Ha. apply map_lookup_filter_None in E as [E|E]; [by rewrite Ha in E|].
  specialize (E _ Ha). cbn in E. lia.
Qed.

Lemma then_ask {A} addr (k : option Duration → AM A) s : mthen (ask_limiter world addr) k s =
  let '(l, wait) := limited (limiter s.1) addr (world s.2 ANow) in k wait (set_limiter (λ _, l) s.1, mk_happened ANow (world s.2 ANow) :: s.2).
Proof. unfold ask_limiter, mthen, perform, mget, mset, mret. cbn [fst snd]. destruct (limited _ _ _) as [l w]. reflexivity. Qed.

Lemma handleSignIn_creates s : created_rightly s (handleSignIn Sum256 provider world r req s).2.
Proof.
  unfold handleSignIn. destruct provider as [p|] eqn:Ep; [|by eapply (plainly _ _ _ []); [unfold answer_with; calm|..]].
  destruct (_ || _ || _ || _) eqn:Eb; [by eapply (plainly _ _ _ []); [unfold answer_with; calm|..]|].
  apply orb_false_elim in Eb as [_ Eb]. apply negb_false_iff, String.eqb_eq in Eb.
  rewrite then_ask. destruct (limited _ _ _) as [l wait].
  destruct wait as [w|]; [by eapply (plainly _ _ _ [_]); [unfold answer_with; calm|..|repeat constructor]|].
  rewrite then_perform. cbn [fst snd]. destruct (world _ (AExchange _ _)) as [e|raw]; [by eapply (plainly _ _ _ [_; _]); [apply failSignIn_plain|..|repeat constructor]|].
  rewrite then_perform. cbn [fst snd]. destruct (world _ (AVerify _ _)) as [e|claims]; [by eapply (plainly _ _ _ [_; _; _]); [apply failSignIn_plain|..|repeat constructor]|].
  rewrite then_perform, then_eq. cbn [fst snd].
  match goal with |- context [firstUse _ _ ?n ?s1] =>
    pose proof (firstUse_spec (sq_Nonce req) n s1) as Hf; destruct (firstUse Sum256 (sq_Nonce req) n s1) as [first s2]; destruct Hf as [E2 Hf]; set (now := n) in * end.
  cbn [fst snd negb nonces set_limiter] in *. destruct first; cbn [negb].
  2:{ match type of E2 with _ = ?l => apply (plainly _ s s2 (take 4 l)) end; [unfold fail_auth, answer_with; calm|done|by repeat constructor]. }
  destruct (personNamed (Some p) claims) as [email|] eqn:En; [|match type of E2 with _ = ?l => apply (plainly _ s s2 (take 4 l)) end; [unfold answer_with; calm|done|by repeat constructor]].
  pose proof (admit_creates p claims email now s2) as (evs & E & Hn & H). rewrite <- Ep. eexists (evs ++ [_; _; _; _])%list. rewrite E, E2, <- app_assoc.
  split; [done|]. intros x a [Hin|Hin]%elem_of_app.
  2:{ by do 4 (apply elem_of_cons in Hin as [Hin|Hin]; [done|]); apply elem_of_nil in Hin. }
  destruct (H x a Hin) as (rules & secret & grant & H1 & H2 & H3 & ->). destruct Hf as [Hf1 Hf2]. exists p, raw, claims, rules, secret.
  unfold personNamed in En. cbn [nameClaim] in En. destruct (PersonName _ _) as [name|] eqn:Epn; [|done]. destruct (_ && _) eqn:Ev; [done|]. injection En as ->.
  cbn [se_CreatedAt se_Hash se_Email se_Groups se_Role se_Applications se_ExpiresAt se_EndedAt].
  split_and!; try done.
  all: try match goal with |- _ ∈ (_ ++ _)%list => apply elem_of_app end.
  all: try (left; done). all: try (right; repeat first [left|right]; fail).
  - intros Ec. rewrite Ec in Ev. by apply bool_decide_eq_false in Ev.
  - intros g Hg. apply list_elem_of_In, filter_In in Hg as [Hg Hb]. apply list_elem_of_In in Hg. apply andb_prop in Hb as [_ Hb]. by apply negb_true_iff in Hb.
  - rewrite H3. by destruct grant.
  - by rewrite Hn.
Qed.
End SigningIn.

(** C33: a session comes into being only for a person the provider vouches for: it
    redeemed the code with the PKCE verifier, and its ID token, verified with the
    nonce of this sign-in, names the person as the agent names people, with an
    address that is not unverified; the nonce has completed no sign-in for a quarter
    of an hour, and is remembered from then on; the session holds the very grant the
    rules, read during the request, give that person in groups the token names,
    which count only where one tenant signs in; it ends ten hours later, and its
    hash is that of a value drawn for it. *)
Theorem signed_in_vouched Sum256 provider (world : list event → ∀ c, aanswer c) r req (s : Effects.St server aanswer) :
  let s' := (handleSignIn Sum256 provider world r req s).2 in
  ∃ evs, s'.2 = (evs ++ s.2)%list ∧
    ∀ x a, (mk_happened (ACreateSession x) a : event) ∈ evs → ∃ p raw claims rules secret,
      provider = Some p ∧ sq_RedirectURI req = pv_RedirectURL p ∧
      (mk_happened (AExchange (sq_Code req) (sq_CodeVerifier req)) (inr raw) : event) ∈ evs ∧
      (mk_happened (AVerify raw (sq_Nonce req)) (inr claims) : event) ∈ evs ∧
      (mk_happened ANow (se_CreatedAt x) : event) ∈ evs ∧
      (mk_happened AAccessRules (inr rules) : event) ∈ evs ∧
      (mk_happened ARandom (inr secret) : event) ∈ evs ∧ se_Hash x = Sum256 (SessionPrefix ++ RawURLEncoding secret) ∧
      PersonName (pv_NameClaim p) (cl_Name claims) = Ok (se_Email x) ∧ (pv_NameClaim p = DefaultNameClaim → cl_EmailVerified claims ≠ Some false) ∧
      (∀ g, g ∈ se_Groups x → g ∈ cl_Groups claims ∧ pv_AnyTenant p = false) ∧
      ResolveAccess rules (se_Email x) (se_Groups x) = Some (mk_grant (se_Role x) (se_Applications x)) ∧
      se_ExpiresAt x = se_CreatedAt x + 10 * hour ∧ se_EndedAt x = None ∧
      (∀ at_, nonces s.1 !! Sum256 (sq_Nonce req) = Some at_ → 15 * minute < Sub (se_CreatedAt x) at_) ∧
      nonces s'.1 !! Sum256 (sq_Nonce req) = Some (se_CreatedAt x).
Proof. cbn zeta. exact (handleSignIn_creates Sum256 provider world r req s). Qed.

Definition a_provider : Provider := mk_provider "email" (λ _, true) false "https://d/auth/callback".
Definition a_sign_in : SignInRequest := mk_sign_in "c0de" "verifier-verifier-verifier-verifier-verifier-00" "nonce-nonce-nonce-nonce" "https://d/auth/callback".
Definition sign_in_world (h : list event) (c : acall) : aanswer c :=
  match c with
  | AExchange _ _ => inr "raw"
  | AVerify _ _ => inr (mk_claims "Ada@example.com" None ["platform"] "")
  | c => a_world h c
  end.
Definition sign_in_twice (s : Effects.St server aanswer) :=
  let m := handleSignIn (λ s, "#" ++ s) (Some a_provider) sign_in_world (a_request "") a_sign_in in (mthen m (λ _, m) s).2.2.
(** The second sign-in with the nonce is refused: one session, then one 401. *)
Example signed_in_vouched_witness :
  omap (λ e, match what e with ACreateSession x => Some (se_Email x, se_Role x, 200) | AAnswer status code => Some (code, "", status) | _ => None end) (sign_in_twice (a_server, [])) =
    [("SIGN_IN_FAILED", "", 401); ("", "", 200); ("ada@example.com", "deploy", 200)] ∧
  ∃ evs, (handleSignIn (λ s, "#" ++ s) (Some a_provider) sign_in_world (a_request "") a_sign_in (a_server, [])).2.2 = (evs ++ [])%list ∧
    ∀ x a, (mk_happened (ACreateSession x) a : event) ∈ evs → se_EndedAt x = None.
Proof.
  split; [vm_compute; reflexivity|].
  destruct (signed_in_vouched (λ s, "#" ++ s) (Some a_provider) sign_in_world (a_request "") a_sign_in (a_server, [])) as (evs & E & H).
  exists evs. split; [exact E|]. intros x a Hin. destruct (H x a Hin) as (? & ? & ? & ? & ? & _ & _ & _ & _ & _ & _ & _ & _ & _ & _ & _ & _ & _ & He & _). exact He.
Defined.

(** ** The audit trail *)

Definition entries (evs : list event) : list AuditEntry := omap (λ e, match what e with AAudit a => Some a | _ => None end) evs.
Definition handlings (evs : list event) : list handled := omap (λ e : event, match e with mk_happened (AHandle _ _ _) h => Some h | _ => None end) evs.

Lemma authorize_code who rt r no : authorize who rt r = Some no → rf_code no = CodeForbidden ∨ rf_code no = CodeTokenLimited.
Proof. unfold authorize. intros H. repeat case_match; simplify_eq; cbn; auto. Qed.
Lemma refusal_recorded e code : code = CodeForbidden ∨ code = CodeTokenLimited →
  ae_Outcome (finished e (refused_with 403 code)) = AuditRefused ∧ ae_Status (finished e (refused_with 403 code)) = 403 ∧ ae_Code (finished e (refused_with 403 code)) = code.
Proof. by intros [->| ->]. Qed.
Lemma outcome_recorded e h : let entry := finished e h in
  (hd_panicked h = true → ae_Status entry = 500 ∧ ae_Outcome entry = AuditFailed) ∧
  (hd_panicked h = false → ae_Status entry = if hd_status h =? 0 then 200 else hd_status h) ∧
  (ae_Outcome entry = AuditOK ↔ hd_panicked h = false ∧ hd_status h < 400 ∧ hd_trailer h = false).
Proof.
  cbn zeta. unfold finished, AuditOK, AuditRefused, AuditFailed. destruct (hd_panicked h); cbn [ae_Status ae_Outcome].
  { split_and!; [done..|]. split; [done|by intros [? _]]. }
  split; [done|]. split; [done|]. destruct (Z.eqb_spec (hd_status h) 0) as [->|]; [destruct (hd_trailer h); cbn; split; naive_solver lia|].
  destruct (Z.ltb_spec (hd_status h) 400), (hd_trailer h), (hd_status h =? 403); cbn; split; naive_solver lia.
Qed.

Lemma answer_eq {A} (world : list event → ∀ c, aanswer c) status code (x : A) (s : Effects.St server aanswer) :
  mthen (answer_with world status code) (λ _, mret x) s = (x, (s.1, mk_happened (AAnswer status code) (world s.2 (AAnswer status code)) :: s.2)).
Proof. done. Qed.
Lemma routes_recorded : Forall (λ rt, rt_method rt ≠ "GET" →
  (rt_audit rt ≠ None ∨ rt_method rt ++ " " ++ rt_path rt ∈ unauditedRoutes) ∧ (rt_role rt ≠ RoleRead ∨ rt_path rt = "/api/v1/auth/session")) routes.
Proof. apply (bool_decide_unpack _). vm_compute. exact I. Qed.

(** What changes something is recorded: every endpoint that is not a GET is audited,
    but for the three that only validate; every one but signing out takes more than
    the role to read; and serving an audited endpoint writes one entry, in the name
    of the caller and under the endpoint's action: a refusal as refused, with no
    handler run and with the code the caller was told; a handler's end as it was,
    ok only below 400 and without a trailer that says an export broke off, and one
    that panicked as failed with 500. *)
Theorem changes_recorded DocumentName (world : list event → ∀ c, aanswer c) rt r who s : rt ∈ routes →
  (rt_method rt ≠ "GET" →
    (rt_audit rt ≠ None ∨ rt_method rt ++ " " ++ rt_path rt ∈ unauditedRoutes) ∧ (rt_role rt ≠ RoleRead ∨ rt_path rt = "/api/v1/auth/session")) ∧
  ∀ a, rt_audit rt = Some a → ∃ evs entry, (serve DocumentName world rt r who s).2.2 = (evs ++ s.2)%list ∧ entries evs = [entry] ∧
    ae_Kind entry = ti_Kind who ∧ ae_Name entry = ti_Name who ∧ ae_Action entry = ad_action a ∧
    match authorize who rt (if rt_document rt then nameDocument DocumentName r else r) with
    | Some no => handlings evs = [] ∧ ae_Outcome entry = "refused" ∧ ae_Status entry = 403 ∧ ae_Code entry = rf_code no
    | None => ∃ h, handlings evs = [h] ∧ (serve DocumentName world rt r who s).1 = hd_panicked h ∧
        (hd_panicked h = true → ae_Status entry = 500 ∧ ae_Outcome entry = "failed") ∧
        (hd_panicked h = false → ae_Status entry = if hd_status h =? 0 then 200 else hd_status h) ∧
        (ae_Outcome entry = "ok" ↔ hd_panicked h = false ∧ hd_status h < 400 ∧ hd_trailer h = false)
    end.
Proof.
  intros Hin. split; [exact (proj1 (Forall_forall _ _) routes_recorded rt Hin)|]. intros a Ha. unfold serve. rewrite Ha. clear Ha Hin.
  set (r' := if rt_document rt then nameDocument DocumentName r else r). rewrite then_perform, then_eq. cbn [fst snd]. unfold attend.
  destruct (authorize who rt r') as [no|] eqn:Ea.
  - rewrite answer_eq. cbn [fst snd]. rewrite then_perform. cbn [fst snd].
    set (entry := finished _ _). destruct (refusal_recorded (begun rt a who r' (world s.2 ANow)) _ (authorize_code _ _ _ _ Ea)) as (H1 & H2 & H3).
    destruct (world _ (AAudit entry)) as [e|].
    + eexists [_; _; _; _], entry. by split_and!.
    + eexists [_; _; _], entry. by split_and!.
  - cbn [perform fst snd]. rewrite then_perform. cbn [fst snd]. set (h := world _ (AHandle rt who r')). set (entry := finished _ h).
    pose proof (outcome_recorded (begun rt a who r' (world s.2 ANow)) h) as (H1 & H2 & H3). destruct (world _ (AAudit entry)) as [e|].
    + eexists [_; _; _; _], entry. split_and!; try done. by exists h.
    + eexists [_; _; _], entry. split_and!; try done. by exists h.
Qed.

Example changes_recorded_witness :
  ∃ evs entry, (serve (λ _, None) a_world deploy_route (a_request "api") (sessionIdentity a_session) (a_server, [])).2.2 = (evs ++ [])%list ∧ entries evs = [entry] ∧
    ae_Name entry = "ada@example.com" ∧ ae_Outcome entry = "refused" ∧ ae_Code entry = "TOKEN_LIMITED".
Proof.
  destruct (changes_recorded (λ _, None) a_world deploy_route (a_request "api") (sessionIdentity a_session) (a_server, []) (list_elem_of_lookup_2 routes 4%nat deploy_route eq_refl)) as [_ H].
  destruct (H (mk_audited "deploy" "" "") eq_refl) as (evs & entry & E & H1 & _ & H2 & _ & H3). exists evs, entry. 
  destruct H3 as (_ & H3 & _ & H4). by split_and!.
Defined.
