(* ===== verification/Backupfile.v ===== *)
(** * The encrypted form of a backup (pkg/backupfile/backupfile.go)

    A header and chunks, each sealed under a nonce that counts them and marks
    the last.  The writer is a program over traced calls: what it hands to the
    io.Writer below it, which may refuse, and the salt it draws.  The reader is
    a function of its state and of the stream it reads, which ends with io.EOF
    or breaks off with an error.  PBKDF2 and AES-GCM are Go's. *)

From stdpp Require Import base list strings.
From S2P Require Import Prelude GoStrings SpecTypes Crypto Effects.
From Stdlib Require Import Ascii String.
Local Open Scope string_scope.
Local Open Scope Z_scope.
Local Open Scope go_scope.

Abbreviation bytes := (list ascii).
Definition len (p : bytes) : Z := Z.of_nat (List.length p).
Definition upto (n : Z) (p : bytes) : bytes := take (Z.to_nat n) p.
Definition from (n : Z) (p : bytes) : bytes := drop (Z.to_nat n) p.

(** binary.BigEndian, for the low bits of a number. *)
Fixpoint big_endian (n : nat) (z : Z) : bytes :=
  match n with O => [] | S m => of_byte (z / 256 ^ Z.of_nat m mod 256) :: big_endian m z end.
Definition from_big_endian (b : bytes) : Z := foldl (λ acc c, acc * 256 + byte c) 0 b.

Definition magic : bytes := list_ascii_of_string "SWBACKUP".
Definition version : Z := 1.
Definition saltSize : Z := 16.
Definition headerSize : Z := len magic + 1 + 4 + saltSize + 4.
Definition keySize : Z := 32.
Definition tagSize : Z := 16.
Definition ChunkSize : Z := Z.shiftl 64 10.
Definition maxChunkSize : Z := Z.shiftl 16 20.
Definition maxIterations : Z := 10000000.
Definition Iterations : Z := 600000.

(** io.EOF, and the errors of this package; an error from elsewhere is its text. *)
Inductive file_error := EOF | ErrNotEncrypted | ErrPassphrase | ErrCorrupt | Other (e : text).

Definition IsEncrypted (head : bytes) : bool := (len magic <=? len head) && bool_decide (upto (len magic) head = magic).

Definition PlainSize (encrypted : Z) : option Z :=
  let body := encrypted - headerSize in
  let sealedChunk := ChunkSize + tagSize in
  let full := Z.quot body sealedChunk in
  let rest := Z.rem body sealedChunk in
  if body <? tagSize then None else
  if rest =? 0 then Some (full * ChunkSize) else
  if (rest <? tagSize) || ((rest =? tagSize) && (0 <? full)) then None else
  Some (full * ChunkSize + rest - tagSize).

(** cipher.AEAD: nonce, plaintext or ciphertext, additional data. *)
Record Cipher := mk_cipher { Seal : bytes → bytes → bytes → bytes; Open : bytes → bytes → bytes → option bytes }.

Definition nonce (index : Z) (last : bool) : bytes := (big_endian 8 index ++ repeat (of_byte 0) 3 ++ [of_byte (if last then 1 else 0)])%list.

(** ** The writer *)

Record Writer := mk_writer { w_aead : Cipher; w_header : bytes; w_buf : bytes; w_index : Z; w_err : error; w_closed : bool }.
Definition with_buf buf w := mk_writer (w_aead w) (w_header w) buf (w_index w) (w_err w) (w_closed w).
Definition with_index index w := mk_writer (w_aead w) (w_header w) (w_buf w) index (w_err w) (w_closed w).
Definition with_err err w := mk_writer (w_aead w) (w_header w) (w_buf w) (w_index w) err (w_closed w).
Definition with_closed w := mk_writer (w_aead w) (w_header w) (w_buf w) (w_index w) (w_err w) true.

(** The write below it, and rand.Read of that many bytes. *)
Inductive wcall := WWrite (p : bytes) | WRandom (n : Z).
Definition wanswer (c : wcall) : Type := match c with WWrite _ => error | WRandom _ => or_error bytes end.
Abbreviation WM := (M Writer wanswer).

Section Files.
(** pbkdf2.Key with SHA-256, and cipher.NewGCM of aes.NewCipher. *)
Variable pbkdf2_Key : string → bytes → Z → Z → or_error bytes.
Variable NewCipher_NewGCM : bytes → or_error Cipher.
Definition newAEAD (passphrase : string) (salt : bytes) (iter : Z) : or_error Cipher :=
  match pbkdf2_Key passphrase salt iter keySize with
  | inl e => inl (L "derive key: " :: e)
  | inr key => NewCipher_NewGCM key
  end.

(** The header of a file with that salt. *)
Definition header_of (salt : bytes) : bytes :=
  (magic ++ [of_byte version] ++ big_endian 4 Iterations ++ salt ++ big_endian 4 ChunkSize)%list.

Section Writing.
Variable world : list (happened wanswer) → ∀ c, wanswer c.
Local Abbreviation perform := (Effects.perform world).

Definition NewWriter (passphrase : string) : WM (or_error unit) :=
  if String.eqb passphrase "" then fail [L "the passphrase is empty"] else
  let! a := perform (WRandom saltSize) in
  match a with
  | inl e => fail (L "generate salt: " :: e)
  | inr salt =>
      match newAEAD passphrase salt Iterations with
      | inl e => fail e
      | inr aead =>
          let! err := perform (WWrite (header_of salt)) in
          match err with
          | Some e => fail e
          | None => let! _ := mset (λ _, mk_writer aead (header_of salt) [] 0 None false) in ok tt
          end
      end
  end.

(** w.index is a uint64. *)
Definition seal (last : bool) : WM error :=
  let! out := mget (λ w, Seal (w_aead w) (nonce (w_index w) last) (w_buf w) (w_header w)) in
  let! _ := mset (λ w, with_buf [] (with_index ((w_index w + 1) mod 2 ^ 64) w)) in
  perform (WWrite out).

(** The loop of Write: a full buffer is sealed only when more arrives. *)
Fixpoint write_loop (fuel : nat) (p : bytes) (written : Z) : WM (Z * error) :=
  match fuel, p with
  | O, _ | _, [] => mret (written, None)
  | S fuel, _ =>
      let! full := mget (λ w, len (w_buf w) =? ChunkSize) in
      let! err := (if full : bool then let! e := seal false in let! _ := mset (with_err e) in mret e else mret None) in
      match err with
      | Some _ => mret (written, err)
      | None =>
          let! n := mget (λ w, Z.min (ChunkSize - len (w_buf w)) (len p)) in
          let! _ := mset (λ w, with_buf (w_buf w ++ upto n p)%list w) in
          write_loop fuel (from n p) (written + n)
      end
  end.
Definition Write (p : bytes) : WM (Z * error) :=
  let! err := mget w_err in
  match err with
  | Some _ => mret (0, err)
  | None =>
      let! closed := mget w_closed in
      if closed : bool then mret (0, Some [L "write to a closed backup"]) else write_loop (S (List.length p)) p 0
  end.

Definition Close : WM error :=
  let! closed := mget w_closed in
  if closed : bool then mget w_err else
  let! _ := mset with_closed in
  let! err := mget w_err in
  let! _ := match err with None => let! e := seal true in mset (with_err e) | Some _ => mret tt end in
  mget w_err.
End Writing.

(** ** The reader *)

(** A stream: what is left of it, and nil at its end for io.EOF or the error it breaks off with. *)
Record source := mk_source { s_rest : bytes; s_ending : error }.
Definition ended (s : source) : file_error := match s_ending s with None => EOF | Some e => Other e end.
(** io.ReadFull: all [n] bytes or what there was with the end's error, of which
    EOF and ErrUnexpectedEOF are one here; and Peek(1) of a bufio.Reader. *)
Definition ReadFull (n : Z) (s : source) : bytes * option file_error * source :=
  if n <=? len (s_rest s) then (upto n (s_rest s), None, mk_source (from n (s_rest s)) (s_ending s))
  else (s_rest s, Some (ended s), mk_source [] (s_ending s)).
Definition Peek1 (s : source) : option file_error := match s_rest s with [] => Some (ended s) | _ => None end.

Record Reader := mk_reader { r_r : source; r_aead : Cipher; r_header : bytes; r_chunkSize : Z; r_plain : bytes; r_index : Z; r_done : bool; r_err : option file_error }.
Definition with_source s r := mk_reader s (r_aead r) (r_header r) (r_chunkSize r) (r_plain r) (r_index r) (r_done r) (r_err r).
Definition with_failure e r := mk_reader (r_r r) (r_aead r) (r_header r) (r_chunkSize r) (r_plain r) (r_index r) (r_done r) e.
Definition with_plain plain r := mk_reader (r_r r) (r_aead r) (r_header r) (r_chunkSize r) plain (r_index r) (r_done r) (r_err r).
Definition opened plain last r :=
  mk_reader (r_r r) (r_aead r) (r_header r) (r_chunkSize r) plain ((r_index r + 1) mod 2 ^ 64) last (r_err r).

Definition NewReader (r : source) (passphrase : string) : file_error + Reader :=
  let '(header, err, r) := ReadFull headerSize r in
  match err with
  | Some EOF => inl ErrNotEncrypted
  | Some e => inl e
  | None =>
      if negb (IsEncrypted header) then inl ErrNotEncrypted else
      let v := from_big_endian (upto 1 (from (len magic) header)) in
      if negb (v =? version) then inl (Other [L "backup format version "; D v; L " is not supported by this version of Shipwick"]) else
      let iter := from_big_endian (upto 4 (from 9 header)) in
      let chunkSize := from_big_endian (upto 4 (from 29 header)) in
      if (iter =? 0) || (maxIterations <? iter) || (chunkSize =? 0) || (maxChunkSize <? chunkSize) then inl ErrCorrupt else
      if String.eqb passphrase "" then inl (Other [L "the backup is encrypted and no passphrase is set"]) else
      match newAEAD passphrase (upto 16 (from 13 header)) iter with
      | inl e => inl (Other e)
      | inr aead => inr (mk_reader r aead header chunkSize [] 0 false None)
      end
  end.

(** The next chunk; the last when the file ends with it. *)
Definition open (r : Reader) : Reader * option file_error :=
  let '(sealed, err, src) := ReadFull (r_chunkSize r + tagSize) (r_r r) in
  let r := with_source src r in
  let ends := match err with Some EOF => inr true | Some e => inl e
              | None => match Peek1 src with None => inr false | Some EOF => inr true | Some e => inl e end end in
  match ends with
  | inl e => (r, Some e)
  | inr last =>
      let failure := if r_index r =? 0 then ErrPassphrase else ErrCorrupt in
      if len sealed <? tagSize then (r, Some failure) else
      match Open (r_aead r) (nonce (r_index r) last) sealed (r_header r) with
      | None => (r, Some failure)
      | Some plain => (opened plain last r, None)
      end
  end.

(** Read of at most [k] bytes; None: the fuel ran out. *)
Fixpoint read_loop (fuel : nat) (k : Z) (r : Reader) : option (Reader * (bytes * option file_error)) :=
  match r_plain r with
  | _ :: _ => Some (with_plain (from k (r_plain r)) r, (upto k (r_plain r), None))
  | [] =>
      match r_err r with
      | Some e => Some (r, ([], Some e))
      | None =>
          if r_done r then Some (r, ([], Some EOF)) else
          let '(r, err) := open r in
          let r := with_failure err r in
          match err, fuel with
          | Some e, _ => Some (r, ([], Some e))
          | None, O => None
          | None, S fuel => read_loop fuel k r
          end
      end
  end.
Definition Read (k : Z) (r : Reader) : option (Reader * (bytes * option file_error)) := read_loop (S (List.length (s_rest (r_r r)))) k r.
End Files.
