(* ===== verification/BackupfileInv.v ===== *)
(** * What holds of encrypted backups

    The writer produces one file, however its input is cut into writes; the
    reader gives back what was written, however it is asked; from a file that
    was cut short, reordered or altered it gives back only a beginning of it,
    and never says that this is the end; and the size of a file tells that of
    what is in it. *)

From stdpp Require Import base list strings.
From S2P Require Import Prelude GoStrings SpecTypes Crypto Effects Backupfile.
From Stdlib Require Import Ascii String Lia ZArith.
Local Open Scope list_scope.
Local Open Scope Z_scope.
Local Open Scope go_scope.

(** ** Numbers and pieces *)

Lemma ChunkSize_is : ChunkSize = 65536.
Proof. reflexivity. Qed.
#[local] Opaque ChunkSize.
Lemma len_app (a b : bytes) : len (a ++ b)%list = len a + len b.
Proof. unfold len. rewrite length_app. lia. Qed.
Lemma len_nonneg (p : bytes) : 0 ≤ len p.
Proof. unfold len. lia. Qed.
Lemma upto_from n p : (upto n p ++ from n p)%list = p.
Proof. apply take_drop. Qed.
Lemma len_upto n p : 0 ≤ n → len (upto n p) = Z.min n (len p).
Proof. intros H. unfold len, upto. rewrite length_take. lia. Qed.
Lemma len_from n p : 0 ≤ n → len (from n p) = Z.max 0 (len p - n).
Proof. intros H. unfold len, from. rewrite length_drop. lia. Qed.
Lemma upto_app n (a b : bytes) : len a = n → upto n (a ++ b)%list = a.
Proof. intros <-. unfold upto, len. rewrite Nat2Z.id. apply take_app_length. Qed.
Lemma from_app n (a b : bytes) : len a = n → from n (a ++ b)%list = b.
Proof. intros <-. unfold from, len. rewrite Nat2Z.id. apply drop_app_length. Qed.
Lemma len_zero p : len p = 0 → p = [].
Proof. unfold len. destruct p; [done|simpl; lia]. Qed.

Lemma len_big_endian n z : len (big_endian n z) = Z.of_nat n.
Proof. unfold len. revert z. induction n as [|n IH]; intros z; [done|]. cbn [big_endian List.length]. specialize (IH z). lia. Qed.
Lemma byte_of_byte z : 0 ≤ z < 256 → byte (of_byte z) = z.
Proof. intros H. unfold byte, of_byte. rewrite code_chr; lia. Qed.
Lemma from_big_endian_acc b acc : foldl (λ a c, a * 256 + byte c) acc b = acc * 256 ^ len b + from_big_endian b.
Proof.
  unfold from_big_endian, len. revert acc. induction b as [|c r IH]; intros acc; [simpl; lia|]. cbn [foldl List.length].
  rewrite (IH (acc * 256 + byte c)), (IH (0 * 256 + byte c)). rewrite Nat2Z.inj_succ, Z.pow_succ_r by lia. lia.
Qed.
Lemma big_endian_back n z : from_big_endian (big_endian n z) = z mod 256 ^ Z.of_nat n.
Proof.
  induction n as [|n IH]; [unfold from_big_endian; simpl; by rewrite Z.mod_1_r|]. unfold from_big_endian. cbn [big_endian foldl].
  rewrite from_big_endian_acc, IH, len_big_endian. pose proof (Z.mod_pos_bound (z / 256 ^ Z.of_nat n) 256 ltac:(lia)). rewrite byte_of_byte by lia.
  rewrite Nat2Z.inj_succ, Z.pow_succ_r by lia. rewrite (Z.mul_comm 256 (256 ^ _)), Z.rem_mul_r by lia. lia.
Qed.
Lemma big_endian_mod n z : big_endian n (z mod 256 ^ Z.of_nat n) = big_endian n z.
Proof.
  assert (∀ m, (m ≤ n)%nat → big_endian m (z mod 256 ^ Z.of_nat n) = big_endian m z) as H; [|by apply H].
  induction m as [|m IH]; intros Hm; [done|]. cbn [big_endian]. rewrite IH by lia. f_equal. f_equal.
  replace (Z.of_nat n) with (Z.of_nat m + (1 + Z.of_nat (n - S m))) by lia. rewrite Z.pow_add_r, Z.rem_mul_r by lia.
  rewrite Z.mul_comm, Z.div_add, (Z.div_small (z mod _)) by (try apply Z.mod_pos_bound; lia). rewrite Z.add_0_l, Z.pow_add_r, Z.pow_1_r by lia.
  rewrite Z.rem_mul_r by lia. rewrite (Z.mul_comm 256), Z.mod_add, Z.mod_mod by lia. done.
Qed.

(** A nonce tells the index of its chunk, and whether it is the last. *)
Lemma nonce_mod i last : nonce (i mod 2 ^ 64) last = nonce i last.
Proof. unfold nonce. change (2 ^ 64) with (256 ^ Z.of_nat 8). by rewrite big_endian_mod. Qed.
Lemma nonce_inj i last i' last' : 0 ≤ i < 2 ^ 64 → 0 ≤ i' < 2 ^ 64 → nonce i last = nonce i' last' → i = i' ∧ last = last'.
Proof.
  intros Hi Hi' H. unfold nonce in H. apply app_inj_1 in H as [H1 H2]; [|pose proof (len_big_endian 8 i); pose proof (len_big_endian 8 i'); unfold len in *; lia].
  split; [|by destruct last, last']. apply (f_equal from_big_endian) in H1. rewrite !big_endian_back in H1. change (256 ^ Z.of_nat 8) with (2 ^ 64) in H1.
  by rewrite !Z.mod_small in H1 by lia.
Qed.

(** ** The chunks of a plaintext *)

(** Its index, whether it is the last, and what is in it. *)
Definition chunk : Type := Z * bool * bytes.
Inductive chunked : Z → bytes → list chunk → Prop :=
  | chunked_last i p : len p ≤ 65536 → (p ≠ [] ∨ i = 0) → chunked i p [(i, true, p)]
  | chunked_more i p rest cs : len p = 65536 → rest ≠ [] → chunked (i + 1) rest cs → chunked i (p ++ rest)%list ((i, false, p) :: cs).
Definition sealed_chunk (aead : Cipher) (header : bytes) (c : chunk) : bytes := Seal aead (nonce c.1.1 c.1.2) c.2 header.
Definition body (aead : Cipher) (header : bytes) (cs : list chunk) : bytes := List.concat (sealed_chunk aead header <$> cs).
Lemma body_app aead header a b : body aead header (a ++ b) = (body aead header a ++ body aead header b)%list.
Proof. unfold body. by rewrite fmap_app, concat_app. Qed.

(** The chunks before the one being filled. *)
Inductive filled : list chunk → bytes → Z → Prop :=
  | filled_none : filled [] [] 0
  | filled_one cs full k p : filled cs full k → len p = 65536 → filled (cs ++ [(k, false, p)]) (full ++ p) (k + 1).
Lemma filled_nonneg cs full k : filled cs full k → 0 ≤ k.
Proof. induction 1; lia. Qed.
Lemma chunked_nonempty i p cs : chunked i p cs → 0 < i → p ≠ [].
Proof. intros H Hi. destruct H as [i p _ [?|?]|i p rest cs _ Hr _]; [done|lia|]. intros [_ ?]%app_eq_nil. done. Qed.
Lemma filled_chunked cs full k : filled cs full k → ∀ rest cs', chunked k rest cs' → chunked 0 (full ++ rest)%list (cs ++ cs')%list.
Proof.
  induction 1 as [|cs full k p Hf IH Hp]; intros rest cs' Hr; [done|]. rewrite <- !app_assoc. apply IH. cbn [app]. constructor; [done| |done].
  pose proof (filled_nonneg _ _ _ Hf). eapply chunked_nonempty; [exact Hr|lia].
Qed.

(** ** What the writer wrote *)

(** What the write below was handed, and took. *)
Fixpoint written (evs : list (happened wanswer)) : bytes :=
  match evs with
  | [] => []
  | mk_happened (WWrite p) None :: before => (written before ++ p)%list
  | _ :: before => written before
  end.

Section Writing.
Context (world : list (happened wanswer) → ∀ c, wanswer c) (aead : Cipher) (header : bytes).

(** The write below refuses, some time. *)
Definition refused : Prop := ∃ h p e, world h (WWrite p) = Some e.

(** Either a write below was refused, and the writer says so from then on, or
    all was written but for what is in the buffer. *)
Definition writing (plain : bytes) (s : Effects.St Writer wanswer) : Prop :=
  w_closed s.1 = false ∧
  ((∃ e, w_err s.1 = Some e ∧ refused) ∨
   (w_err s.1 = None ∧ w_aead s.1 = aead ∧ w_header s.1 = header ∧ len (w_buf s.1) ≤ 65536 ∧
    ∃ cs full k, filled cs full k ∧ plain = (full ++ w_buf s.1)%list ∧ w_index s.1 = k mod 2 ^ 64 ∧ (w_buf s.1 ≠ [] ∨ k = 0) ∧
      written s.2 = (header ++ body aead header cs)%list)).

(** Sealing the buffer: refused, or one more chunk written. *)
Lemma seal_spec last (s : Effects.St Writer wanswer) : let '(err, s') := seal world last s in
  s'.1 = with_buf [] (with_index ((w_index s.1 + 1) mod 2 ^ 64) s.1) ∧
  match err with
  | Some _ => refused
  | None => written s'.2 = (written s.2 ++ Seal (w_aead s.1) (nonce (w_index s.1) last) (w_buf s.1) (w_header s.1))%list
  end.
Proof.
  unfold seal. rewrite then_get, then_set. unfold perform. cbn [fst snd]. split; [done|]. destruct (world _ _) as [e|] eqn:E; [|done].
  eexists _, _, e. exact E.
Qed.
Lemma writing_sealed plain s : writing plain s → w_err s.1 = None → ∀ err s', seal world false s = (err, s') → len (w_buf s.1) = 65536 →
  match err with
  | Some _ => refused
  | None => ∃ cs k, filled cs plain k ∧ w_index s'.1 = k mod 2 ^ 64 ∧ written s'.2 = (header ++ body aead header cs)%list
  end ∧ w_closed s'.1 = false ∧ w_aead s'.1 = aead ∧ w_header s'.1 = header ∧ w_buf s'.1 = [] ∧ w_err s'.1 = None.
Proof.
  intros [Hc [(e & E & _)|(_ & Ha & Hh & Hl & cs & full & k & Hf & -> & Hi & _ & Hw)]] Hn err s' E' Hb; [congruence|].
  pose proof (seal_spec false s) as H. rewrite E' in H. destruct H as [H1 H2]. rewrite H1. split_and!; try done. destruct err as [e|]; [done|].
  exists (cs ++ [(k, false, w_buf s.1)]), (k + 1). split_and!; [by constructor| |].
  - cbn. rewrite Hi. by rewrite Zplus_mod_idemp_l.
  - rewrite H2, Hw, body_app, Ha, Hh, Hi, nonce_mod, app_assoc. unfold body at 3. cbn. by rewrite app_nil_r.
Qed.

Lemma write_loop_spec fuel p plain n s : (List.length p < fuel)%nat → writing plain s → w_err s.1 = None → writing (plain ++ p) (write_loop world fuel p n s).2.
Proof.
  revert p plain n s. induction fuel as [|fuel IH]; [lia|]. intros p plain n s Hfuel Hs Hn. destruct p as [|c p]; [cbn; by rewrite app_nil_r|].
  cbn [write_loop]. rewrite then_get, then_eq, ChunkSize_is. 
  set (q := (c :: p)) in *. assert (0 < len q) as Hq by (unfold len, q; simpl; lia).
  assert (∀ s1, w_closed s1.1 = false → w_aead s1.1 = aead → w_header s1.1 = header → w_err s1.1 = None → len (w_buf s1.1) < 65536 →
    (∃ cs full k, filled cs full k ∧ plain = (full ++ w_buf s1.1)%list ∧ w_index s1.1 = k mod 2 ^ 64 ∧ written s1.2 = (header ++ body aead header cs)%list) →
    writing (plain ++ q) ((let! n0 := mget (λ w, Z.min (65536 - len (w_buf w)) (len q)) in
      let! _ := mset (λ w, with_buf (w_buf w ++ upto n0 q)%list w) in write_loop world fuel (from n0 q) (n + n0)) s1).2) as Hgo.
  { intros s1 H1 H2 H3 H4 H5 (cs & full & k & Hf & -> & Hi & Hw). rewrite then_get, then_set. remember (Z.min (65536 - len (w_buf s1.1)) (len q)) as n0 eqn:En0.
    pose proof (len_nonneg (w_buf s1.1)). rewrite <- (upto_from n0 q) at 1. rewrite app_assoc. apply IH; cbn [fst snd w_err with_buf]; [|split; [done|right]|done].
    - pose proof (len_from n0 q ltac:(lia)) as Hl. assert (len q = 1 + Z.of_nat (List.length p)) as Eq by (unfold q, len; cbn [List.length]; lia). unfold len in Hl at 1. unfold q in Hfuel; cbn [List.length] in Hfuel. lia.
    - cbn [w_aead w_header w_buf with_buf w_index fst]. split_and!; try done.
      { rewrite len_app, len_upto by lia. lia. }
      exists cs, full, k. split_and!; try done; [by rewrite app_assoc|]. left. intros [_ E]%app_eq_nil. pose proof (len_upto n0 q ltac:(lia)) as Hl. rewrite E in Hl.
      change (len []) with 0 in Hl. lia. }
  destruct (Z.eqb_spec (len (w_buf s.1)) 65536) as [Hb|Hb].
  - rewrite then_eq. destruct (seal world false s) as [err s1] eqn:Es. pose proof (writing_sealed plain s Hs Hn err s1 Es Hb) as (H1 & H2 & H3 & H4 & H5 & H6).
    cbn [fst snd]. rewrite then_set. cbn [fst snd]. destruct err as [e|]; cbn [mret fst snd].
    + split; [done|]. left. by exists e.
    + apply Hgo; cbn [fst snd w_closed w_aead w_header w_err w_buf with_err]; try done; [by rewrite H5|]. destruct H1 as (cs & k & Hf & Hi & Hw).
      exists cs, plain, k. rewrite H5, app_nil_r. by split_and!.
  - cbn [mret fst snd]. destruct Hs as [Hc [(e & E & _)|(_ & Ha & Hh & Hl & cs & full & k & Hf & Hp & Hi & _ & Hw)]]; [congruence|].
    apply Hgo; try done; [lia|]. by exists cs, full, k.
Qed.

Lemma Write_spec p plain s : writing plain s → writing (plain ++ p) (Write world p s).2.
Proof.
  intros Hs. unfold Write. rewrite then_get. destruct (w_err s.1) as [e|] eqn:E.
  - destruct Hs as [Hc [(e' & E' & Hr)|(? & _)]]; [|congruence]. split; [done|]. left. by exists e.
  - rewrite then_get. rewrite (proj1 Hs). apply write_loop_spec; [lia|done..].
Qed.
Lemma Writes_spec ps plain s : writing plain s → writing (plain ++ List.concat ps) (mloop (λ p, let! _ := Write world p in mret tt) ps s).2.
Proof.
  revert plain s. induction ps as [|p ps IH]; intros plain s Hs; [cbn; by rewrite app_nil_r|]. cbn [mloop List.concat]. rewrite then_eq, app_assoc. apply IH.
  rewrite then_eq. by apply Write_spec.
Qed.

(** Closed without an error, the file is whole. *)
Lemma Close_spec plain s : writing plain s → match (Close world s).1 with
  | Some _ => refused
  | None => ∃ cs, chunked 0 plain cs ∧ written (Close world s).2.2 = (header ++ body aead header cs)%list
  end.
Proof.
  intros [Hc Hs]. unfold Close. rewrite then_get, Hc, then_set, then_get. cbn [fst snd w_err with_closed]. destruct Hs as [(e & E & Hr)|(E & Ha & Hh & Hl & cs & full & k & Hf & -> & Hi & Hk & Hw)]; rewrite E, then_eq.
  { cbn [mret fst snd mget w_err with_closed]. by rewrite E. }
  rewrite then_eq. match goal with |- context [seal world true ?s1] => pose proof (seal_spec true s1) as H; destruct (seal world true s1) as [err s2] end.
  destruct H as [_ H]. cbn [fst snd mset mget w_err with_err]. destruct err as [e|]; [done|]. exists (cs ++ [(k, true, w_buf s.1)]). split.
  - apply (filled_chunked _ _ _ Hf). by constructor.
  - rewrite H. cbn [fst snd w_aead w_index w_buf w_header with_closed]. rewrite Hw, Ha, Hh, Hi, nonce_mod, body_app, app_assoc. unfold body at 3. cbn. by rewrite app_nil_r.
Qed.
End Writing.

(** ** What the reader reads *)

(** One Read after another, until one answers an error. *)
Fixpoint reads (ks : list Z) (r : Reader) : option (Reader * bytes * option file_error) :=
  match ks with
  | [] => Some (r, [], None)
  | k :: ks =>
      match Read k r with
      | None => None
      | Some (r, (b, Some e)) => Some (r, b, Some e)
      | Some (r, (b, None)) => match reads ks r with Some (r, bs, e) => Some (r, b ++ bs, e) | None => None end
      end
  end.

Section Reading.
Context (aead : Cipher) (header : bytes).
Context (Open_Seal : ∀ n p, Open aead n (Seal aead n p header) header = Some p).
Context (Seal_len : ∀ n p, len (Seal aead n p header) = len p + 16).

(** [left] is still to be handed out. *)
Definition reading (left : bytes) (r : Reader) : Prop :=
  r_aead r = aead ∧ r_header r = header ∧ r_chunkSize r = 65536 ∧ r_err r = None ∧ s_ending (r_r r) = None ∧
  ∃ i cs rest, left = r_plain r ++ rest ∧ s_rest (r_r r) = body aead header cs ∧
    ((cs = [] ∧ rest = [] ∧ r_done r = true) ∨ (chunked i rest cs ∧ 0 ≤ i ∧ r_index r = i mod 2 ^ 64 ∧ r_done r = false)).

Lemma body_cons c cs : body aead header (c :: cs) = sealed_chunk aead header c ++ body aead header cs.
Proof. done. Qed.
Lemma body_nonempty i p cs : chunked i p cs → body aead header cs ≠ [].
Proof.
  assert (∀ c l, body aead header (c :: l) ≠ []) as Hne.
  { intros c l E. apply (f_equal len) in E. rewrite body_cons, len_app in E. unfold sealed_chunk in E. rewrite Seal_len in E.
    pose proof (len_nonneg c.2). pose proof (len_nonneg (body aead header l)). unfold len at 3 in E. cbn [List.length] in E. lia. }
  intros H. destruct H; apply Hne.
Qed.

Lemma open_spec left r : reading left r → r_plain r = [] → r_done r = false →
  ∃ r', open r = (r', None) ∧ reading left (with_failure None r') ∧ (r_plain r' ≠ [] ∨ (r_done r' = true ∧ left = [])).
Proof.
  intros (Ha & Hh & Hc & He & Hend & i & cs & rest & -> & Hs & [(_ & _ & ?)|(Hk & Hi & Hx & _)]) Hp Hd; [congruence|].
  unfold open. rewrite Hc. change (65536 + tagSize) with 65552. unfold ReadFull. rewrite Hs. destruct Hk as [i p Hl Hne|i p rest cs Hl Hr Hk].
  - rewrite body_cons. unfold body. cbn [fmap list_fmap List.concat]. rewrite app_nil_r. set (sealed := sealed_chunk _ _ _).
    assert (len sealed = len p + 16) as Hsl by apply Seal_len. pose proof (len_nonneg p).
    assert (∃ err src, (if 65552 <=? len sealed then (upto 65552 sealed, None, mk_source (from 65552 sealed) (s_ending (r_r r)))
       else (sealed, Some (ended (r_r r)), mk_source [] (s_ending (r_r r)))) = (sealed, err, src) ∧ s_rest src = [] ∧ s_ending src = None ∧
       (match err with Some EOF => inr true | Some e => inl e | None => match Peek1 src with None => inr false | Some EOF => inr true | Some e => inl e end end) = (inr true : file_error + bool)) as (err & src & -> & E1 & E2 & ->).
    { destruct (Z.leb_spec 65552 (len sealed)) as [Hle|].
      - pose proof (upto_app 65552 sealed [] ltac:(lia)) as Hu. pose proof (from_app 65552 sealed [] ltac:(lia)) as Hfr. rewrite app_nil_r in Hu, Hfr. rewrite Hu, Hfr.
        eexists _, _. split_and!; [done..|]. unfold Peek1, ended. cbn. by rewrite Hend.
      - eexists _, _. split_and!; [done..|]. unfold ended. by rewrite Hend. }
    assert ((len sealed <? tagSize) = false) as -> by (apply Z.ltb_ge; change tagSize with 16; lia).
    cbn [r_index r_aead r_header with_source]. rewrite Hx, Ha, Hh, nonce_mod. unfold sealed, sealed_chunk. cbn [fst snd]. rewrite Open_Seal.
    eexists. split; [done|]. split.
    + split_and!; try done. exists 0, [], []. rewrite app_nil_r, Hp. split_and!; [done|exact E1|]. by left.
    + cbn. rewrite Hp. destruct p; [by right|by left].
  - rewrite body_cons. set (sealed := sealed_chunk _ _ _). assert (len sealed = 65552) as Hsl by (unfold sealed, sealed_chunk; rewrite Seal_len; cbn [fst snd]; lia).
    pose proof (len_nonneg (body aead header cs)). assert ((65552 <=? len (sealed ++ body aead header cs)) = true) as -> by (apply Z.leb_le; rewrite len_app; lia).
    rewrite upto_app, from_app by done. unfold Peek1. cbn [s_rest]. pose proof (body_nonempty _ _ _ Hk) as Hne. destruct (body aead header cs) as [|b bs] eqn:Eb; [done|].
    assert ((len sealed <? tagSize) = false) as -> by (apply Z.ltb_ge; change tagSize with 16; lia).
    cbn [r_index r_aead r_header with_source]. rewrite Hx, Ha, Hh, nonce_mod. unfold sealed, sealed_chunk. cbn [fst snd]. rewrite Open_Seal.
    eexists. split; [done|]. split.
    + split_and!; try done. exists (i + 1), cs, rest. rewrite Hp. split_and!; [done|cbn; by rewrite Eb|]. right. split_and!; [done|lia| |done].
      cbn. by rewrite Hx, Zplus_mod_idemp_l.
    + left. cbn. intros ->. by change (len []) with 0 in Hl.
Qed.

Lemma Read_spec k left r : reading left r → ∃ r' out e, Read k r = Some (r', (out, e)) ∧
  ((e = None ∧ ∃ left', left = out ++ left' ∧ reading left' r' ∧ (0 < k → out ≠ [])) ∨ (e = Some EOF ∧ out = [] ∧ left = [])).
Proof.
  assert (∀ fuel r, reading left r → r_plain r ≠ [] → ∃ r' out, read_loop fuel k r = Some (r', (out, None)) ∧ ∃ left', left = out ++ left' ∧ reading left' r' ∧ (0 < k → out ≠ [])) as Hhand.
  { intros fuel x (Ha & Hh & Hc & He & Hend & i & cs & rest & -> & Hs & Hcs) Hp. destruct (r_plain x) as [|c p] eqn:Ep; [done|].
    exists (with_plain (from k (c :: p)) x), (upto k (c :: p)). split; [destruct fuel; cbn [read_loop]; by rewrite Ep|]. exists (from k (c :: p) ++ rest).
    split; [by rewrite app_assoc, upto_from|]. split; [split_and!; try done; by exists i, cs, rest|]. intros Hk E. unfold upto in E.
    destruct (Z.to_nat k) eqn:En; [lia|done]. }
  intros Hr. unfold Read. destruct (r_plain r) as [|c p] eqn:Ep.
  2:{ destruct (Hhand (S (List.length (s_rest (r_r r)))) r Hr) as (r' & out & E & H); [by rewrite Ep|]. exists r', out, None. split; [done|]. by left. }
  cbn [read_loop]. rewrite Ep. pose proof Hr as (Ha & Hh & Hc & He & Hend & i & cs & rest & Hl & Hs & Hcs). rewrite He.
  destruct (r_done r) eqn:Ed.
  { exists r, [], (Some EOF). split; [done|]. right. destruct Hcs as [(-> & -> & _)|(_ & _ & _ & ?)]; [|done]. rewrite Ep in Hl. by split_and!. }
  destruct (open_spec left r Hr Ep Ed) as (r' & -> & Hr' & [Hp|[Hd Hnil]]).
  - destruct (Hhand (List.length (s_rest (r_r r))) (with_failure None r') Hr' Hp) as (r2 & out & E & H). exists r2, out, None. split; [done|]. by left.
  - assert (r_plain r' = []) as Hp. { destruct Hr' as (_ & _ & _ & _ & _ & ? & ? & ? & E & _). rewrite Hnil in E. symmetry in E. by apply app_eq_nil in E as [? _]. }
    exists (with_failure None r'), [], (Some EOF). split; [|by right]. destruct (List.length _); cbn [read_loop r_plain with_failure r_err r_done]; by rewrite Hp, Hd.
Qed.

Lemma reads_spec ks : Forall (λ k, 0 < k) ks → ∀ left r, reading left r → ∃ r' data e, reads ks r = Some (r', data, e) ∧ data `prefix_of` left ∧
  ((e = None ∧ Z.of_nat (List.length ks) ≤ len data) ∨ (e = Some EOF ∧ data = left)).
Proof.
  induction 1 as [|k ks Hk _ IH]; intros left r Hr.
  { exists r, [], None. split; [done|]. split; [apply prefix_nil|]. left. split; [done|]. by cbn. }
  cbn [reads]. destruct (Read_spec k left r Hr) as (r1 & out & e & -> & [(-> & left' & -> & Hr1 & Hne)|(-> & -> & ->)]).
  - destruct (IH left' r1 Hr1) as (r2 & data & e & -> & Hp & He). exists r2, (out ++ data), e. split; [done|]. split; [by apply prefix_app|].
    destruct He as [[-> He]|[-> ->]]; [left|by right]. split; [done|]. rewrite len_app. specialize (Hne Hk). destruct out; [done|]. unfold len in *. cbn [List.length]. lia.
  - exists r1, [], (Some EOF). split; [done|]. split; [done|]. by right.
Qed.
End Reading.

(** ** A whole file *)

Section Whole.
Context (pbkdf2_Key : string → bytes → Z → Z → or_error bytes) (NewGCM : bytes → or_error Cipher).
Local Abbreviation newAEAD := (newAEAD pbkdf2_Key NewGCM).

(** What the callers do: a writer, what they have in pieces, and the end. *)
Definition write_file (world : list (happened wanswer) → ∀ c, wanswer c) (passphrase : string) (ps : list bytes) : WM (or_error unit) :=
  try! _ := NewWriter pbkdf2_Key NewGCM world passphrase in
  let! _ := mloop (λ p, let! _ := Write world p in mret tt) ps in
  checked (Close world).

Lemma write_file_spec (world : list (happened wanswer) → ∀ c, wanswer c) passphrase ps w : (∀ h (salt : bytes), world h (WRandom 16) = inr salt → len salt = 16) →
  match (write_file world passphrase ps (w, [])).1 with
  | inl _ => passphrase = ""%string ∨ refused world ∨ (∃ h (e : text), world h (WRandom 16) = inl e) ∨ ∃ salt e, newAEAD passphrase salt Iterations = inl e
  | inr _ => passphrase ≠ ""%string ∧ ∃ salt aead cs, len salt = 16 ∧ newAEAD passphrase salt Iterations = inr aead ∧
      chunked 0 (List.concat ps) cs ∧ written (write_file world passphrase ps (w, [])).2.2 = header_of salt ++ body aead (header_of salt) cs
  end.
Proof.
  intros Hrandom. unfold write_file, NewWriter. rewrite try_eq. destruct (String.eqb_spec passphrase ""); [by left|]. rewrite then_perform. cbn [fst snd].
  destruct (world [] (WRandom saltSize)) as [e|salt] eqn:Er. { cbn [fail mret fst snd]. right; right; left. by exists [], e. }
  destruct (newAEAD passphrase salt Iterations) as [e|aead] eqn:Ea. { cbn [fail mret fst snd]. right; right; right. by exists salt, e. }
  rewrite then_perform. cbn [fst snd]. destruct (world _ (WWrite (header_of salt))) as [e|] eqn:Ew. { cbn [fail mret fst snd]. right; left. by eexists _, _, e. }
  rewrite then_set. cbn [ok mret fst snd]. rewrite then_eq. unfold checked. rewrite then_eq.
  match goal with |- context [mloop _ ps ?s0] => assert (writing world aead (header_of salt) [] s0) as H0 end.
  { split; [done|]. right. split_and!; try done. exists [], [], 0. split_and!; [exact filled_none|done|done|by right|]. cbn. unfold body. cbn. by rewrite app_nil_r. }
  pose proof (Close_spec _ _ _ _ _ (Writes_spec world aead (header_of salt) ps [] _ H0)) as H.
  destruct (Close world _) as [[e|] s']; cbn [mret fst snd] in *; [by right; left|]. split; [done|]. destruct H as (cs & H1 & H2). exists salt, aead, cs.
  split_and!; [by apply (Hrandom [])|done..].
Qed.

(** The reader takes the header of a file of the writer. *)
Lemma NewReader_spec passphrase salt aead rest : passphrase ≠ ""%string → len salt = 16 → newAEAD passphrase salt Iterations = inr aead →
  NewReader pbkdf2_Key NewGCM (mk_source (header_of salt ++ rest) None) passphrase =
    inr (mk_reader (mk_source rest None) aead (header_of salt) 65536 [] 0 false None).
Proof.
  intros Hp Hs Ha. assert (len (header_of salt) = headerSize) as Hl.
  { unfold header_of. rewrite !len_app, Hs, !len_big_endian. reflexivity. }
  unfold NewReader, ReadFull. cbn [s_rest]. assert ((headerSize <=? len (header_of salt ++ rest)) = true) as -> by (apply Z.leb_le; rewrite len_app, Hl; pose proof (len_nonneg rest); lia).
  rewrite (upto_app _ _ _ Hl), (from_app _ _ _ Hl). cbn [negb].
  assert (from 13 (header_of salt) = salt ++ big_endian 4 ChunkSize) as H13.
  { unfold header_of. rewrite (app_assoc magic), (app_assoc (magic ++ _)). apply from_app. rewrite !len_app, len_big_endian. reflexivity. }
  assert (from 29 (header_of salt) = big_endian 4 ChunkSize) as H29.
  { transitivity (from 16 (from 13 (header_of salt))); [unfold from; by rewrite drop_drop|]. rewrite H13. by apply from_app. }
  rewrite H13, H29. unfold IsEncrypted. rewrite Hl. rewrite (upto_app 16 salt) by done.
  assert (upto (len magic) (header_of salt) = magic) as -> by by apply upto_app. rewrite bool_decide_true by done.
  assert (from_big_endian (upto 1 (from (len magic) (header_of salt))) = 1) as -> by reflexivity.
  assert (from_big_endian (upto 4 (from 9 (header_of salt))) = Iterations) as -> by reflexivity.
  assert (from_big_endian (upto 4 (big_endian 4 ChunkSize)) = 65536) as -> by reflexivity.
  cbn [negb andb]. rewrite (proj2 (String.eqb_neq _ _) Hp).
  match goal with |- context [if ?b then inl ErrCorrupt else _] => replace b with false by reflexivity end. by rewrite Ha.
Qed.
End Whole.

(** C29: what the agent seals into a backup comes back: a file that was written in any
    pieces and closed without an error, read with the same passphrase, hands out
    the pieces in order, however many bytes are asked for at a time, and then
    io.EOF, and nothing else; and writing fails only for an empty passphrase, a
    write below that failed, or a key that could not be had. *)
Theorem backup_round_trip pbkdf2_Key NewGCM (world : list (happened wanswer) → ∀ c, wanswer c) passphrase ps w :
  (∀ h (salt : bytes), world h (WRandom 16) = inr salt → len salt = 16) →
  (∀ salt aead, newAEAD pbkdf2_Key NewGCM passphrase salt Iterations = inr aead →
     ∀ n p h, Open aead n (Seal aead n p h) h = Some p ∧ len (Seal aead n p h) = len p + 16) →
  match write_file pbkdf2_Key NewGCM world passphrase ps (w, []) with
  | (inl _, _) => passphrase = ""%string ∨ (∃ h p e, world h (WWrite p) = Some e) ∨ (∃ h (e : text), world h (WRandom 16) = inl e) ∨
      ∃ salt e, newAEAD pbkdf2_Key NewGCM passphrase salt Iterations = inl e
  | (inr _, (_, evs)) => ∃ r, NewReader pbkdf2_Key NewGCM (mk_source (written evs) None) passphrase = inr r ∧ IsEncrypted (written evs) = true ∧
      ∀ ks, Forall (λ k, 0 < k) ks → ∃ r' data e, reads ks r = Some (r', data, e) ∧ data `prefix_of` List.concat ps ∧
        ((e = None ∧ Z.of_nat (List.length ks) ≤ len data) ∨ (e = Some EOF ∧ data = List.concat ps))
  end.
Proof.
  intros Hrandom Hlaws. pose proof (write_file_spec pbkdf2_Key NewGCM world passphrase ps w Hrandom) as H.
  destruct (write_file _ _ world passphrase ps (w, [])) as [[e|u] [w' evs]]; cbn [fst snd] in H; [exact H|].
  destruct H as (Hp & salt & aead & cs & Hs & Ha & Hc & ->). specialize (Hlaws salt aead Ha).
  eexists. split; [by apply NewReader_spec|]. split.
  { unfold IsEncrypted, header_of. rewrite <- !app_assoc, upto_app, bool_decide_true by done. rewrite andb_true_r. apply Z.leb_le. rewrite len_app. pose proof (len_nonneg (([of_byte version] ++ big_endian 4 Iterations ++ salt ++ big_endian 4 ChunkSize) ++ body aead (header_of salt) cs)).
    unfold header_of in *. rewrite <- !app_assoc in *. lia. }
  intros ks Hks. apply (reads_spec aead (header_of salt)); [intros n p; apply Hlaws|intros n p; apply Hlaws|done|].
  split_and!; try done. exists 0, cs, (List.concat ps). split_and!; [done|done|]. by right.
Qed.

(** A toy: sealing appends the nonce, the length of the header and four more bytes. *)
Definition toy_tag (n h : bytes) : bytes := n ++ big_endian 4 (len h).
Definition toy_cipher : Cipher := mk_cipher (λ n p h, p ++ toy_tag (upto 12 (n ++ repeat (of_byte 0) 12)) h)
  (λ n c h, let p := upto (len c - 16) c in if bool_decide (c = p ++ toy_tag (upto 12 (n ++ repeat (of_byte 0) 12)) h) then Some p else None).
Definition toy_world (h : list (happened wanswer)) (c : wcall) : wanswer c :=
  match c with WWrite _ => None | WRandom n => inr (repeat (of_byte 7) (Z.to_nat (Z.max 0 n))) end.
Lemma toy_cipher_laws n p h : Open toy_cipher n (Seal toy_cipher n p h) h = Some p ∧ len (Seal toy_cipher n p h) = len p + 16.
Proof.
  assert (len (toy_tag (upto 12 (n ++ repeat (of_byte 0) 12)) h) = 16) as Ht.
  { unfold toy_tag. rewrite len_app, len_big_endian. rewrite len_upto; [|lia]. rewrite len_app. change (len (repeat (of_byte 0) 12)) with 12. pose proof (len_nonneg n). lia. }
  cbn [Open Seal toy_cipher]. rewrite len_app, Ht. split; [|done]. cbv zeta. rewrite (upto_app (len p + 16 - 16) p) by lia. by rewrite bool_decide_true.
Qed.
Definition toy_file : list bytes := [list_ascii_of_string "back"; []; list_ascii_of_string "up"].
Definition no_writer : Writer := mk_writer toy_cipher [] [] 0 None false.
Definition toy_run := write_file (λ _ _ _ _, inr []) (λ _, inr toy_cipher) toy_world "pw" toy_file (no_writer, []).
Definition toy_bytes : bytes := written toy_run.2.2.
Definition read_out (r : file_error + Reader) (ks : list Z) : option (string * option file_error) :=
  match r with inr r => match reads ks r with Some (_, data, e) => Some (string_of_list_ascii data, e) | None => None end | inl e => Some (""%string, Some e) end.
Example backup_round_trip_witness :
  read_out (NewReader (λ _ _ _ _, inr []) (λ _, inr toy_cipher) (mk_source toy_bytes None) "pw") [1; 4; 9; 1] = Some ("backup"%string, Some EOF) ∧
  ∃ r, NewReader (λ _ _ _ _, inr []) (λ _, inr toy_cipher) (mk_source toy_bytes None) "pw" = inr r ∧
    ∃ r' data e, reads [1; 4] r = Some (r', data, e) ∧ data `prefix_of` list_ascii_of_string "backup".
Proof.
  split; [vm_compute; reflexivity|].
  pose proof (backup_round_trip (λ _ _ _ _, inr []) (λ _, inr toy_cipher) toy_world "pw" toy_file no_writer) as H. fold toy_run in H. unfold toy_bytes.
  assert (toy_run.1 = inr tt) as E by (vm_compute; reflexivity). destruct toy_run as [[e|u] [w' evs]]; [discriminate E|].
  destruct H as (r & H1 & _ & H2).
  - by intros h salt [= <-].
  - intros salt aead. unfold newAEAD. intros [= <-] n p h. apply toy_cipher_laws.
  - exists r. split; [exact H1|]. destruct (H2 [1; 4] ltac:(repeat constructor)) as (r' & data & e & H3 & H4 & _). exists r', data, e. split; [exact H3|exact H4].
Defined.

(** ** Files that are not what was written *)

Definition contents (cs : list chunk) : bytes := List.concat (snd <$> cs).
Lemma chunked_contents i p cs : chunked i p cs → contents cs = p.
Proof. induction 1 as [i p|i p rest cs _ _ _ IH]; unfold contents in *; cbn; [by rewrite app_nil_r|by rewrite IH]. Qed.
(** A chunk tells where it stands. *)
Lemma chunked_at i p cs j last q : chunked i p cs → (j, last, q) ∈ cs → i ≤ j ∧ cs !! Z.to_nat (j - i) = Some (j, last, q) ∧ (last = true ↔ j - i = Z.of_nat (List.length cs) - 1).
Proof.
  induction 1 as [i p|i p rest cs Hl Hr Hc IH]; intros [E|Hin]%elem_of_cons.
  - injection E as -> -> ->. rewrite Z.sub_diag. split_and!; [lia|done|done].
  - by apply elem_of_nil in Hin.
  - injection E as -> -> ->. rewrite Z.sub_diag. split_and!; [lia|done|]. split; [done|]. cbn [List.length]. destruct Hc; cbn [List.length]; lia.
  - destruct (IH Hin) as (H1 & H2 & H3). replace (Z.to_nat (j - i)) with (S (Z.to_nat (j - (i + 1)))) by lia. split_and!; [lia|done|]. rewrite H3. cbn [List.length]. lia.
Qed.
Lemma chunked_length i p cs : chunked i p cs → (Z.of_nat (List.length cs) - 1) * 65536 ≤ len p.
Proof. induction 1 as [i p|i p rest cs Hl _ _ IH]; [pose proof (len_nonneg p); cbn [List.length]; lia|]. rewrite len_app. cbn [List.length]. lia. Qed.

Section Trusting.
Context (plain : bytes) (cs : list chunk) (Hcs : chunked 0 plain cs) (few : Z.of_nat (List.length cs) ≤ 2 ^ 64).

(** The reader has opened the first chunks, and no other. *)
Definition trusting (left : bytes) (r : Reader) : Prop :=
  0 < r_chunkSize r ∧ r_err r = None ∧
  (∀ n c h p, Open (r_aead r) n c h = Some p → ∃ i last, (i, last, p) ∈ cs ∧ n = nonce i last) ∧
  ∃ k : nat, (k ≤ List.length cs)%nat ∧ left = r_plain r ++ contents (drop k cs) ∧ r_index r = Z.of_nat k mod 2 ^ 64 ∧ (r_done r = true ↔ k = List.length cs).

Lemma open_trusting left r : trusting left r → r_plain r = [] → r_done r = false → let '(r', err) := open r in
  match err with
  | Some e => e ≠ EOF
  | None => trusting left (with_failure None r') ∧ (r_done r' = true ∨ (List.length (s_rest (r_r r')) < List.length (s_rest (r_r r)))%nat)
  end.
Proof.
  intros (Hcp & He & Htrue & k & Hk & -> & Hi & Hd) Hp Hn. unfold open.
  destruct (ReadFull (r_chunkSize r + tagSize) (r_r r)) as [[sealed err] src] eqn:Ef.
  assert (err = None → (List.length (s_rest src) < List.length (s_rest (r_r r)))%nat) as Hshorter.
  { intros ->. unfold ReadFull in Ef. destruct (Z.leb_spec (r_chunkSize r + tagSize) (len (s_rest (r_r r)))) as [Hle|]; [|done]. injection Ef as _ <-. cbn [s_rest].
    unfold from. rewrite length_drop. unfold len in Hle. change tagSize with 16 in *. lia. }
  set (ends := match err with Some EOF => inr true | Some e => inl e | None => _ end).
  assert (match ends with inl e => e ≠ EOF | inr last => last = false → err = None end) as Hends.
  { unfold ends. destruct err as [[]|]; try done; by destruct (Peek1 src) as [[]|]. }
  destruct ends as [e|last]; [done|]. cbn [r_index r_aead r_header with_source]. destruct (len sealed <? tagSize); [by destruct (r_index r =? 0)|].
  destruct (Open _ _ _ _) as [p|] eqn:Eo; [|by destruct (r_index r =? 0)].
  destruct (Htrue _ _ _ _ Eo) as (i & last' & Hin & En). rewrite Hi, nonce_mod in En.
  assert (k < List.length cs)%nat as Hlt by (assert (k ≠ List.length cs) by (intros E; apply Hd in E; congruence); lia).
  destruct (chunked_at _ _ _ _ _ _ Hcs Hin) as (H0 & Hat & Hlast). rewrite Z.sub_0_r in Hat, Hlast. assert (Z.to_nat i < List.length cs)%nat as Hb by exact (lookup_lt_Some _ _ _ Hat).
  apply nonce_inj in En as [<- <-]; [|lia..]. rewrite Nat2Z.id in Hat. split.
  - split_and!; [done|done|exact Htrue|]. exists (S k). split; [lia|]. cbn [r_plain with_failure opened r_index r_done with_source]. split_and!.
    + rewrite Hp. assert (drop k cs = (Z.of_nat k, last, p) :: drop (S k) cs) as -> by exact (drop_S _ _ _ Hat). done.
    + rewrite Hi, Zplus_mod_idemp_l. f_equal. lia.
    + rewrite Hlast. lia.
  - cbn. destruct last; [by left|right]. by apply Hshorter, Hends.
Qed.

Lemma read_loop_trusting fuel k left r : (r_done r = true ∨ (List.length (s_rest (r_r r)) < fuel)%nat) → trusting left r →
  ∃ r' out e, read_loop fuel k r = Some (r', (out, e)) ∧
    ((e = None ∧ ∃ left', left = out ++ left' ∧ trusting left' r') ∨ (out = [] ∧ ∃ e', e = Some e' ∧ (e' = EOF → left = []))).
Proof.
  revert r. induction fuel as [|fuel IH]; intros r Hfuel Hr; pose proof Hr as (Hcp & He & Ht & n & Hn & Hl & Hi & Hd).
  all: destruct (r_plain r) as [|c p] eqn:Ep.
  2,4: exists (with_plain (from k (c :: p)) r), (upto k (c :: p)), None; split; [cbn [read_loop]; by rewrite Ep|]; left; split; [done|];
    exists (from k (c :: p) ++ contents (drop n cs)); split; [by rewrite app_assoc, upto_from|]; split_and!; try done; by exists n.
  all: cbn [read_loop]; rewrite Ep, He; destruct (r_done r) eqn:Ed.
  1,3: exists r, [], (Some EOF); split; [done|]; right; split; [done|]; exists EOF; split; [done|]; intros _; rewrite Hl, (proj1 Hd eq_refl), drop_all; by rewrite ?Ep.
  1: destruct Hfuel as [?|?]; [done|lia].
  pose proof (open_trusting left r Hr Ep Ed) as Ho. destruct (open r) as [r' err]. destruct err as [e|].
  - exists (with_failure (Some e) r'), [], (Some e). split; [done|]. right. split; [done|]. by exists e.
  - destruct Ho as [Hr' Hs]. apply IH; [|done]. destruct Hs as [?|Hs]; [by left|right]. destruct Hfuel as [?|?]; [done|]. cbn. lia.
Qed.

Lemma reads_trusting ks left r : trusting left r → ∃ r' data e, reads ks r = Some (r', data, e) ∧ data `prefix_of` left ∧ (e = Some EOF → data = left).
Proof.
  revert left r. induction ks as [|k ks IH]; intros left r Hr.
  { exists r, [], None. split; [done|]. split; [apply prefix_nil|done]. }
  cbn [reads]. destruct (read_loop_trusting (S (List.length (s_rest (r_r r)))) k left r) as (r1 & out & e & E & H); [right; lia|done|]. unfold Read. rewrite E.
  destruct H as [(-> & left' & -> & Hr1)|(-> & e' & -> & He)].
  - destruct (IH left' r1 Hr1) as (r2 & data & e & -> & Hp & He). exists r2, (out ++ data), e. split; [done|]. split; [by apply prefix_app|].
    intros H. by rewrite (He H).
  - exists r1, [], (Some e'). split; [done|]. split; [apply prefix_nil|]. intros [= ->]. by rewrite He.
Qed.
End Trusting.

(** C30: a file is believed only as far as it is what was written: of whatever bytes the
    reader is given, in whatever state of truncation, damage or rearrangement, and
    whatever error the storage breaks off with, it hands out a beginning of the
    plaintext that was sealed under the passphrase, and answers io.EOF only when
    that is all of it; and every Read returns. *)
Theorem only_what_was_written pbkdf2_Key NewGCM passphrase plain cs src r ks : chunked 0 plain cs → len plain < 2 ^ 80 →
  (∀ salt iter aead, newAEAD pbkdf2_Key NewGCM passphrase salt iter = inr aead →
     ∀ n c h p, Open aead n c h = Some p → ∃ i last, (i, last, p) ∈ cs ∧ n = nonce i last) →
  NewReader pbkdf2_Key NewGCM src passphrase = inr r →
  ∃ r' data e, reads ks r = Some (r', data, e) ∧ data `prefix_of` plain ∧ (e = Some EOF → data = plain).
Proof.
  intros Hcs Hlen Htrue Hr. apply (reads_trusting plain cs Hcs); [pose proof (chunked_length _ _ _ Hcs); lia|].
  unfold NewReader in Hr. destruct (ReadFull _ src) as [[header err] src']. destruct err as [[]|]; try done.
  destruct (IsEncrypted header); [|done]. destruct (_ =? version); [|done]. cbn [negb] in Hr.
  destruct (_ || _ || (_ =? 0) || _) eqn:Eb; [done|]. destruct (passphrase =? "")%string; [done|]. destruct (newAEAD _ _ _ _ _) as [|aead] eqn:Ea; [done|]. injection Hr as <-.
  apply orb_false_elim in Eb as [Eb _]. apply orb_false_elim in Eb as [_ Eb]. apply Z.eqb_neq in Eb.
  split_and!; [|done|by eapply Htrue|].
  - cbn. pose proof (Z.le_refl 0) as _. assert (∀ b, 0 ≤ from_big_endian b) as Hnn; [|specialize (Hnn (upto 4 (from 29 header))); lia].
    intros b. unfold from_big_endian. assert (∀ acc, 0 ≤ acc → 0 ≤ foldl (λ acc c, acc * 256 + byte c) acc b) as H; [|by apply H].
    induction b as [|c b IH]; intros acc Hacc; [done|]. apply IH. pose proof (byte_range c). lia.
  - exists 0%nat. split_and!; [lia|symmetry; exact (chunked_contents _ _ _ Hcs)|done|]. cbn. split; [done|]. destruct Hcs; cbn [List.length]; lia.
Qed.

(** A cipher that opens only what was sealed into one file. *)
Definition strict_cipher : Cipher := mk_cipher (Seal toy_cipher)
  (λ n c h, let p := list_ascii_of_string "backup" in if bool_decide (n = nonce 0 true ∧ c = Seal toy_cipher n p h) then Some p else None).
Definition strict_reader (src : bytes) : file_error + Reader := NewReader (λ _ _ _ _, inr []) (λ _, inr strict_cipher) (mk_source src None) "pw".
Example only_what_was_written_witness :
  read_out (strict_reader toy_bytes) [4; 9; 1] = Some ("backup"%string, Some EOF) ∧
  read_out (strict_reader (upto (len toy_bytes - 1) toy_bytes)) [4; 9; 1] = Some (""%string, Some ErrPassphrase) ∧
  ∀ r, strict_reader toy_bytes = inr r → ∃ r' data e, reads [4; 9; 1] r = Some (r', data, e) ∧ data `prefix_of` list_ascii_of_string "backup".
Proof.
  split; [vm_compute; reflexivity|]. split; [vm_compute; reflexivity|]. intros r Hr.
  destruct (only_what_was_written (λ _ _ _ _, inr []) (λ _, inr strict_cipher) "pw" (list_ascii_of_string "backup") [(0, true, list_ascii_of_string "backup")]
    (mk_source toy_bytes None) r [4; 9; 1]) as (r' & data & e & H1 & H2 & _).
  - constructor; [vm_compute; congruence|by right].
  - reflexivity.
  - intros salt iter aead. unfold newAEAD. intros [= <-] n c h p. cbn [Open strict_cipher]. case_bool_decide as Hn; [|done]. intros [= <-].
    exists 0, true. split; [left|exact (proj1 Hn)].
  - exact Hr.
  - by exists r', data, e.
Defined.

(** ** Sizes *)

Lemma body_len aead header i p cs : (∀ n q, len (Seal aead n q header) = len q + 16) → chunked i p cs → len (body aead header cs) = len p + 16 * Z.of_nat (List.length cs).
Proof.
  intros Hl. induction 1 as [i p|i p rest cs _ _ _ IH]; unfold body in *; cbn [fmap list_fmap List.concat List.length].
  - rewrite app_nil_r. unfold sealed_chunk. rewrite Hl. cbn [fst snd]. lia.
  - rewrite !len_app, IH. unfold sealed_chunk. rewrite Hl. cbn [fst snd]. lia.
Qed.
(** One chunk for each full one, and one for the rest or for nothing at all. *)
Lemma chunked_count p cs : chunked 0 p cs → Z.of_nat (List.length cs) = Z.max 1 ((len p + 65535) / 65536).
Proof.
  assert (∀ i p cs, chunked i p cs → (p = [] → i = 0) ∧ (p = [] → List.length cs = 1%nat) ∧ (p ≠ [] → Z.of_nat (List.length cs) = (len p + 65535) / 65536)) as H.
  { induction 1 as [i q Hq Hne|i q rest l Hq Hr Hc (IH1 & IH2 & IH3)].
    - split; [intros ->; by destruct Hne|]. split; [done|]. intros Hne'. assert (0 < len q) by (pose proof (len_nonneg q); assert (len q ≠ 0) by (intros E; by apply len_zero in E); lia).
      cbn [List.length]. apply Z.div_unique with (len q - 1); lia.
    - split; [intros [_ ?]%app_eq_nil; done|]. split; [intros [_ ?]%app_eq_nil; done|]. intros _. cbn [List.length]. rewrite Nat2Z.inj_succ, (IH3 Hr), len_app, Hq.
      replace (65536 + len rest + 65535) with (len rest + 65535 + 1 * 65536) by lia. rewrite Z.div_add by lia. lia. }
  intros Hc. destruct (H _ _ _ Hc) as (_ & H2 & H3). destruct p as [|c p]; [rewrite H2; done|]. rewrite H3 by done.
  assert (1 ≤ (len (c :: p) + 65535) / 65536); [|lia]. apply Z.div_le_lower_bound; [lia|]. unfold len. cbn [List.length]. lia.
Qed.
Definition file_size (m : Z) : Z := 33 + m + 16 * Z.max 1 ((m + 65535) / 65536).
Lemma PlainSize_spec n m : PlainSize n = Some m ↔ 0 ≤ m ∧ n = file_size m.
Proof.
  unfold PlainSize, file_size. rewrite ChunkSize_is. change headerSize with 33. change tagSize with 16. change (65536 + 16) with 65552.
  destruct (Z.ltb_spec (n - 33) 16) as [Hlt|Hge].
  { split; [done|]. intros [? ->]. exfalso. lia. }
  rewrite Z.quot_div_nonneg, Z.rem_mod_nonneg by lia. pose proof (Z.div_mod (n - 33) 65552 ltac:(lia)) as Hdm. pose proof (Z.mod_pos_bound (n - 33) 65552 ltac:(lia)) as Hr.
  set (full := (n - 33) / 65552) in *. set (rest := (n - 33) mod 65552) in *. assert (0 ≤ full) by (apply Z.div_pos; lia).
  assert (∀ k r, 0 ≤ k → 0 < r ≤ 65536 → (65536 * k + r + 65535) / 65536 = k + 1) as Hdiv.
  { intros k r Hk Hr'. symmetry. apply Z.div_unique with (r - 1); lia. }
  (* The other direction: a plaintext of [m] bytes is [q] full chunks and [r] bytes. *)
  assert (∀ m, 0 < m → ∃ q r, m = 65536 * q + r ∧ 0 ≤ q ∧ 0 < r ≤ 65536) as Hsplit.
  { intros x Hx. exists ((x - 1) / 65536), ((x - 1) mod 65536 + 1). pose proof (Z.div_mod (x - 1) 65536 ltac:(lia)). pose proof (Z.mod_pos_bound (x - 1) 65536 ltac:(lia)).
    assert (0 ≤ (x - 1) / 65536) by (apply Z.div_pos; lia). lia. }
  assert (∀ m', 0 ≤ m' → n = 33 + m' + 16 * Z.max 1 ((m' + 65535) / 65536) → (m' = 0 ∧ full = 0 ∧ rest = 16) ∨ ∃ q r, m' = 65536 * q + r ∧ 0 ≤ q ∧ 0 < r ≤ 65536 ∧ 65552 * full + rest = 65552 * q + r + 16) as Hback.
  { intros x Hx ->. assert (x = 0 ∨ 0 < x) as [->|Hp] by lia; [left|right].
    - split; [done|]. change (Z.max 1 ((0 + 65535) / 65536)) with 1 in *. lia.
    - destruct (Hsplit x Hp) as (q & r & -> & Hq & Hr'). exists q, r. split_and!; try lia. rewrite (Hdiv q r Hq Hr') in *. lia. }
  clearbody full rest. clear Hsplit. split.
  - destruct (Z.eqb_spec rest 0) as [E|E]; [|destruct (Z.ltb_spec rest 16), (Z.eqb_spec rest 16), (Z.ltb_spec 0 full); try done]; cbn [orb andb]; intros [= <-].
    + pose proof (Hdiv (full - 1) 65536 ltac:(lia) ltac:(lia)) as Hd. replace (65536 * (full - 1) + 65536) with (full * 65536) in Hd by lia. lia.
    + assert (full = 0) as -> by lia. subst rest. change (Z.max 1 ((0 * 65536 + 16 - 16 + 65535) / 65536)) with 1. lia.
    + pose proof (Hdiv full (rest - 16) ltac:(lia) ltac:(lia)) as Hd. replace (65536 * full + (rest - 16)) with (full * 65536 + rest - 16) in Hd by lia. lia.
    + pose proof (Hdiv full (rest - 16) ltac:(lia) ltac:(lia)) as Hd. replace (65536 * full + (rest - 16)) with (full * 65536 + rest - 16) in Hd by lia. lia.
  - intros [Hm En]. destruct (Hback m Hm En) as [(-> & -> & ->)|(q & r & -> & Hq & Hr' & E)]; [done|].
    destruct (Z.eqb_spec rest 0); [f_equal; lia|]. destruct (Z.ltb_spec rest 16); [lia|]. destruct (Z.eqb_spec rest 16); [lia|]. cbn [orb andb]. f_equal. lia.
Qed.

(** The size of a file says how much is in it: of a file that was written and
    closed without an error PlainSize answers the number of bytes that were
    written; a size it answers for is one that every such file with that many
    bytes in it has; and it answers for no other. *)
Theorem plain_size_exact pbkdf2_Key NewGCM (world : list (happened wanswer) → ∀ c, wanswer c) passphrase ps w :
  (∀ h (salt : bytes), world h (WRandom 16) = inr salt → len salt = 16) →
  (∀ salt aead, newAEAD pbkdf2_Key NewGCM passphrase salt Iterations = inr aead → ∀ n p h, len (Seal aead n p h) = len p + 16) →
  match write_file pbkdf2_Key NewGCM world passphrase ps (w, []) with
  | (inl _, _) => True
  | (inr _, (_, evs)) => ∀ n m, n = len (written evs) → (PlainSize n = Some m ↔ m = len (List.concat ps)) ∧
      (∀ n', PlainSize n' = Some (len (List.concat ps)) → n' = n)
  end.
Proof.
  intros Hrandom Hlen. pose proof (write_file_spec pbkdf2_Key NewGCM world passphrase ps w Hrandom) as H.
  destruct (write_file _ _ world passphrase ps (w, [])) as [[e|u] [w' evs]]; [done|]. cbn [fst snd] in H. destruct H as (_ & salt & aead & cs & Hs & Ha & Hc & ->).
  intros n m ->. assert (len (header_of salt ++ body aead (header_of salt) cs) = file_size (len (List.concat ps))) as E.
  { rewrite len_app, (body_len _ _ _ _ _ (λ n q, Hlen salt aead Ha n q _) Hc), (chunked_count _ _ Hc). unfold file_size. unfold header_of. rewrite !len_app, Hs, !len_big_endian.
    change (len magic) with 8. change (len [of_byte version]) with 1. lia. }
  rewrite E. pose proof (len_nonneg (List.concat ps)) as Hnn. pose proof (proj2 (PlainSize_spec _ _) (conj Hnn eq_refl)) as Hsize. split.
  - rewrite Hsize. split; [by intros [= ->]|by intros ->].
  - intros n' H. by apply PlainSize_spec in H as [_ ->].
Qed.
Example plain_size_exact_witness : PlainSize (len toy_bytes) = Some 6 ∧ map PlainSize [32; 48; 49; 50; 65585; 65586; 65601; 65602] = [None; None; Some 0; Some 1; Some 65536; None; None; Some 65537].
Proof.
  split; [|vm_compute; reflexivity]. pose proof (plain_size_exact (λ _ _ _ _, inr []) (λ _, inr toy_cipher) toy_world "pw" toy_file no_writer) as H. fold toy_run in H. unfold toy_bytes.
  assert (toy_run.1 = inr tt) as E by (vm_compute; reflexivity). destruct toy_run as [[e|u] [w' evs]]; [discriminate E|]. cbn [fst snd].
  apply (proj1 (H ltac:(by intros h salt [= <-]) ltac:(intros salt aead; unfold newAEAD; intros [= <-] n p h; apply toy_cipher_laws) _ 6 eq_refl)). reflexivity.
Defined.
