(* ===== verification/BackupStore.v ===== *)
(** * The records of backups (agent/internal/store: backups.go, backups_adopt.go)

    The table backup_runs with the number its AUTOINCREMENT has reached, and a
    function per statement.  Status and activity are the columns every
    statement is conditional on: a run is taken, then succeeds or fails; one
    that is over can be claimed by one activity at a time. *)

From stdpp Require Import sorting.
From S2P Require Import Prelude GoStrings GoTime SpecTypes Store.
From Stdlib Require Import String.
Local Open Scope string_scope.
Local Open Scope Z_scope.

Definition BackupRunning := "running".
Definition BackupSucceeded := "succeeded".
Definition BackupFailed := "failed".
Definition BackupActivityVerify := "verify".
Definition BackupActivityRestore := "restore".

Record BackupVolume := mk_backup_volume { bv_Volume : string; bv_SizeBytes : Z }.
Record BackupRun := mk_run {
  br_ID : Z; br_Application : string; br_Trigger : string; br_Status : string; br_Volumes : list BackupVolume; br_Destinations : list string; br_Encrypted : bool;
  br_Error : text; br_StartedAt : Time; br_CompletedAt : option Time; br_Activity : string;
  br_VerifiedAt : option Time; br_VerifyError : text; br_VerifyOutput : string; br_RestoredAt : option Time; br_RestoreError : text }.
Record Backup_runs := mk_runs { runs : list BackupRun; seq : Z }.

Definition with_outcome (r : BackupRun) status volumes destinations encrypted error completed : BackupRun :=
  mk_run (br_ID r) (br_Application r) (br_Trigger r) status volumes destinations encrypted error (br_StartedAt r) completed (br_Activity r)
    (br_VerifiedAt r) (br_VerifyError r) (br_VerifyOutput r) (br_RestoredAt r) (br_RestoreError r).
Definition with_activity (activity : string) (r : BackupRun) : BackupRun :=
  mk_run (br_ID r) (br_Application r) (br_Trigger r) (br_Status r) (br_Volumes r) (br_Destinations r) (br_Encrypted r) (br_Error r) (br_StartedAt r) (br_CompletedAt r) activity
    (br_VerifiedAt r) (br_VerifyError r) (br_VerifyOutput r) (br_RestoredAt r) (br_RestoreError r).
Definition with_verified verified error output (r : BackupRun) : BackupRun :=
  mk_run (br_ID r) (br_Application r) (br_Trigger r) (br_Status r) (br_Volumes r) (br_Destinations r) (br_Encrypted r) (br_Error r) (br_StartedAt r) (br_CompletedAt r) ""
    verified error output (br_RestoredAt r) (br_RestoreError r).
Definition with_restored restored error (r : BackupRun) : BackupRun :=
  mk_run (br_ID r) (br_Application r) (br_Trigger r) (br_Status r) (br_Volumes r) (br_Destinations r) (br_Encrypted r) (br_Error r) (br_StartedAt r) (br_CompletedAt r) ""
    (br_VerifiedAt r) (br_VerifyError r) (br_VerifyOutput r) restored error.
Definition is_run (id : Z) (r : BackupRun) : bool := br_ID r =? id.
Definition running (r : BackupRun) : bool := String.eqb (br_Status r) BackupRunning.
Definition set_runs (t : Backup_runs) l : Backup_runs := mk_runs l (seq t).

(** ** Statements *)

(** AUTOINCREMENT: one more than the largest id there ever was. *)
Definition CreateBackupRun (t : Backup_runs) (application trigger : string) (now : Time) : Backup_runs * BackupRun :=
  let r := mk_run (Z.max (seq t) (largest (br_ID <$> runs t)) + 1) application trigger BackupRunning [] [] false [] now None "" None [] "" None [] in
  (mk_runs (runs t ++ [r])%list (br_ID r), r).

Definition FinishBackupRun (t : Backup_runs) (run : BackupRun) (now : Time) : Backup_runs :=
  set_runs t (update (λ r, is_run (br_ID run) r && running r)
    (λ r, with_outcome r (br_Status run) (br_Volumes run) (br_Destinations run) (br_Encrypted run) (br_Error run) (Some now)) (runs t)).

(** None: the backup is in use. *)
Definition claimable (id : Z) (r : BackupRun) : bool := is_run id r && String.eqb (br_Activity r) "" && negb (running r).
Definition ClaimBackupRun (t : Backup_runs) (id : Z) (activity : string) : option Backup_runs :=
  if (affected (claimable id) (runs t) =? 0)%nat then None
  else Some (set_runs t (update (claimable id) (with_activity activity) (runs t))).
Definition ReleaseBackupRun (t : Backup_runs) (id : Z) : Backup_runs := set_runs t (update (is_run id) (with_activity "") (runs t)).

Definition failure_time (failure : text) (now : Time) : option Time := match failure with [] => Some now | _ => None end.
Definition FinishBackupVerify (t : Backup_runs) (id : Z) (failure : text) (output : string) (now : Time) : Backup_runs :=
  set_runs t (update (is_run id) (with_verified (failure_time failure now) failure output) (runs t)).
Definition FinishBackupRestore (t : Backup_runs) (id : Z) (failure : text) (now : Time) : Backup_runs :=
  set_runs t (update (is_run id) (with_restored (failure_time failure now) failure) (runs t)).

(** What an earlier run of the agent left; the runs that were being taken are the answer. *)
Definition interrupted : text := [L "the agent was restarted while this was in progress"].
Definition InterruptBackupRuns (t : Backup_runs) (now : Time) : Backup_runs * list BackupRun :=
  let taken := List.filter running (runs t) in
  let l := update running (λ r, with_outcome r BackupFailed (br_Volumes r) (br_Destinations r) (br_Encrypted r) interrupted (Some now)) (runs t) in
  let l := update (λ r, String.eqb (br_Activity r) BackupActivityVerify) (λ r, with_verified None interrupted (br_VerifyOutput r) r) l in
  let l := update (λ r, String.eqb (br_Activity r) BackupActivityRestore) (with_restored None interrupted) l in
  let l := update (λ r, negb (String.eqb (br_Activity r) "")) (with_activity "") l in
  (set_runs t l, taken).

Definition GetBackupRun (t : Backup_runs) (application : string) (id : Z) : answer BackupRun :=
  match find_row (λ r, is_run id r && String.eqb (br_Application r) application) (runs t) with Some r => inr r | None => inl ErrNotFound end.

(** ORDER BY id DESC: the rows lie in the order of their ids, but for adopted ones. *)
Definition newer (a b : BackupRun) : Prop := br_ID b ≤ br_ID a.
#[export] Instance newer_dec a b : Decision (newer a b) := decide (br_ID b ≤ br_ID a).
Definition ListBackupRuns (t : Backup_runs) (application : string) (limit : Z) : list BackupRun :=
  let l := merge_sort newer (List.filter (λ r, String.eqb (br_Application r) application) (runs t)) in
  if 0 <? limit then take (Z.to_nat limit) l else l.
Definition LastBackupRun (t : Backup_runs) (application status : string) : answer BackupRun :=
  match merge_sort newer (List.filter (λ r, String.eqb (br_Application r) application && String.eqb (br_Status r) status) (runs t)) with
  | r :: _ => inr r
  | [] => inl ErrNotFound
  end.
Definition DeleteBackupRun (t : Backup_runs) (id : Z) : Backup_runs := set_runs t (List.filter (λ r, negb (is_run id r)) (runs t)).
Definition ReserveBackupRunIDs (t : Backup_runs) (highest : Z) : Backup_runs := mk_runs (runs t) (Z.max (seq t) highest).

Definition BackupRunIDs (t : Backup_runs) : list Z := br_ID <$> runs t.
(** INSERT OR IGNORE; an explicit id moves AUTOINCREMENT on as well. *)
Definition AdoptBackupRun (t : Backup_runs) (run : BackupRun) : Backup_runs * bool :=
  if existsb (is_run (br_ID run)) (runs t) then (t, false)
  else (mk_runs (runs t ++ [mk_run (br_ID run) (br_Application run) (br_Trigger run) (br_Status run) (br_Volumes run) (br_Destinations run) (br_Encrypted run) [] (br_StartedAt run)
                   (Some (default (br_StartedAt run) (br_CompletedAt run))) "" None [] "" None []])%list (Z.max (seq t) (br_ID run)), true).
