(* ===== verification/BackupStoreInv.v ===== *)
(** * What the records of backups keep

    Any sequence of the statements of BackupStore.v: ids are never given out
    twice, a backup that is over stays as it was recorded, and one activity at
    a time holds it. *)

From stdpp Require Import sorting.
From S2P Require Import Prelude GoStrings GoTime SpecTypes Store StoreInv BackupStore.
From Stdlib Require Import String.
Local Open Scope string_scope.
Local Open Scope Z_scope.

(** ** Sequences of statements *)

Inductive statement :=
  | SCreate (application trigger : string) (now : Time) | SFinish (run : BackupRun) (now : Time) | SClaim (id : Z) (activity : string) | SRelease (id : Z)
  | SVerified (id : Z) (failure : text) (output : string) (now : Time) | SRestored (id : Z) (failure : text) (now : Time)
  | SInterrupt (now : Time) | SDelete (id : Z) | SReserve (highest : Z) | SAdopt (run : BackupRun).

Definition execute (s : statement) (t : Backup_runs) : Backup_runs :=
  match s with
  | SCreate application trigger now => (CreateBackupRun t application trigger now).1
  | SFinish run now => FinishBackupRun t run now
  | SClaim id activity => default t (ClaimBackupRun t id activity)
  | SRelease id => ReleaseBackupRun t id
  | SVerified id failure output now => FinishBackupVerify t id failure output now
  | SRestored id failure now => FinishBackupRestore t id failure now
  | SInterrupt now => (InterruptBackupRuns t now).1
  | SDelete id => DeleteBackupRun t id
  | SReserve highest => ReserveBackupRunIDs t highest
  | SAdopt run => (AdoptBackupRun t run).1
  end.
Definition after (l : list statement) (t : Backup_runs) : Backup_runs := foldl (λ t s, execute s t) t l.

Definition ended (status : string) : Prop := status = BackupSucceeded ∨ status = BackupFailed.
(** What the engine asks for: a backup ends one way or the other, and what is adopted is a success. *)
Definition asked (s : statement) : Prop :=
  match s with
  | SFinish run _ => ended (br_Status run)
  | SClaim _ activity => activity ≠ ""
  | SAdopt run => br_Status run = BackupSucceeded
  | _ => True
  end.
Definition deletes (id : Z) (s : statement) : Prop := match s with SDelete id' => id' = id | _ => False end.
(** What lets another activity have the backup. *)
Definition lets_go (id : Z) (s : statement) : Prop :=
  match s with SRelease id' | SVerified id' _ _ _ | SRestored id' _ _ | SDelete id' => id' = id | SInterrupt _ => True | _ => False end.

(** ** The invariant *)

Record wf_runs (t : Backup_runs) : Prop := {
  wr_ids : NoDup (br_ID <$> runs t);
  wr_seq : ∀ r, r ∈ runs t → br_ID r ≤ seq t;
  wr_positive : 0 ≤ seq t;
  wr_status : ∀ r, r ∈ runs t → br_Status r = BackupRunning ∨ ended (br_Status r);
  wr_running : ∀ r, r ∈ runs t → running r = true → br_Activity r = "" }.

(** What a later row says of the same backup. *)
Record kept_run (r r' : BackupRun) : Prop := {
  kr_same : br_ID r' = br_ID r ∧ br_Application r' = br_Application r ∧ br_Trigger r' = br_Trigger r ∧ br_StartedAt r' = br_StartedAt r;
  kr_over : running r = false → running r' = false ∧ br_Status r' = br_Status r ∧ br_Volumes r' = br_Volumes r ∧ br_Destinations r' = br_Destinations r ∧
    br_Encrypted r' = br_Encrypted r ∧ br_Error r' = br_Error r ∧ br_CompletedAt r' = br_CompletedAt r }.

#[export] Instance kept_run_preorder : PreOrder kept_run.
Proof.
  split; [by constructor; auto 10|]. intros a b c [(A1 & A2 & A3 & A4) A5] [(B1 & B2 & B3 & B4) B5].
  constructor; [by rewrite B1, B2, B3, B4|]. intros Ha. destruct (A5 Ha) as (Hb & A). destruct (B5 Hb) as (Hc & B). split; [done|].
  destruct A as (? & ? & ? & ? & ? & ?), B as (? & ? & ? & ? & ? & ?). split_and!; congruence.
Qed.
Lemma running_spec r : running r = true ↔ br_Status r = BackupRunning.
Proof. unfold running. apply String.eqb_eq. Qed.
Lemma ended_over s : ended s → String.eqb s BackupRunning = false.
Proof. by intros [-> | ->]. Qed.

Lemma update_column_on {A B} (g : A → B) c f (l : list A) : (∀ x, c x = true → g (f x) = g x) → g <$> update c f l = g <$> l.
Proof. intros H. unfold update. rewrite <- list_fmap_compose. apply list_fmap_ext. intros i x _. simpl. destruct (c x) eqn:E; [by apply H|done]. Qed.

(** A statement that updates rows: what it keeps of each is enough. *)
Definition keeps_row (c : BackupRun → bool) (f : BackupRun → BackupRun) : Prop := ∀ r, c r = true → kept_run r (f r) ∧
  ((br_Status r = BackupRunning ∨ ended (br_Status r)) ∧ (running r = true → br_Activity r = "") →
   (br_Status (f r) = BackupRunning ∨ ended (br_Status (f r))) ∧ (running (f r) = true → br_Activity (f r) = "")).

Lemma update_runs c f l : keeps_row c f → wf_runs l → wf_runs (set_runs l (update c f (runs l))).
Proof.
  intros H [Hd Hq Hp Hs Hr]. assert (∀ r, r ∈ update c f (runs l) → (br_Status r = BackupRunning ∨ ended (br_Status r)) ∧ (running r = true → br_Activity r = "")) as Hrow.
  { intros r (x & Hx & ->)%elem_of_update. pose proof (Hs x Hx). pose proof (Hr x Hx). destruct (c x) eqn:E; [|done]. apply (H x E). done. }
  constructor; cbn [runs set_runs].
  - erewrite (update_column_on br_ID); [done|]. intros r E. apply (H r E).
  - intros r (x & Hx & ->)%elem_of_update. cbn. destruct (c x) eqn:E; [|by apply Hq]. rewrite (proj1 (kr_same _ _ (proj1 (H x E)))). by apply Hq.
  - done.
  - intros r Hx. by apply Hrow.
  - intros r Hx. by apply Hrow.
Qed.

Lemma keeps_outcome c status volumes destinations encrypted error now : ended status → (∀ r, c r = true → running r = true) →
  keeps_row c (λ r, with_outcome r status (volumes r) (destinations r) (encrypted r) error now).
Proof.
  intros He Hc r E. apply Hc in E. split; [constructor; [done|congruence]|]. intros [_ H]. cbn. split; [by right|].
  unfold running. cbn. by rewrite (ended_over _ He).
Qed.
Lemma keeps_activity c a : (∀ r, c r = true → running r = true → a = "") → keeps_row c (with_activity a).
Proof. intros Hc r E. split; [constructor; auto 10|]. cbn. intros [H _]. split; [done|]. intros Hr. by apply (Hc r). Qed.
Lemma keeps_verified c v e o : keeps_row c (λ r, with_verified v e (o r) r).
Proof. intros r E. split; [constructor; auto 10|]. cbn. by intros [H _]. Qed.
Lemma keeps_restored c v e : keeps_row c (with_restored v e).
Proof. intros r E. split; [constructor; auto 10|]. cbn. by intros [H _]. Qed.
Lemma claimable_over id r : claimable id r = true → is_run id r = true ∧ br_Activity r = "" ∧ running r = false.
Proof. unfold claimable. rewrite !andb_true_iff, negb_true_iff, String.eqb_eq. tauto. Qed.

Lemma kept_update_runs c f l r : keeps_row c f → r ∈ l → ∃ r', r' ∈ update c f l ∧ kept_run r r'.
Proof.
  intros H Hr. exists (if c r then f r else r). split; [apply elem_of_update; eauto|]. destruct (c r) eqn:E; [apply (H r E)|reflexivity].
Qed.
(** The five updates of InterruptBackupRuns. *)
Lemma interrupt_updates (P : list BackupRun → Prop) t now : P (runs t) →
  (∀ l c f, keeps_row c f → P l → P (update c f l)) → P (runs (InterruptBackupRuns t now).1).
Proof.
  intros H0 Hu. cbn. apply Hu; [by apply keeps_activity|]. apply Hu; [apply keeps_restored|].
  apply Hu; [apply (keeps_verified _ None interrupted br_VerifyOutput)|]. apply Hu; [|done].
  apply (keeps_outcome running BackupFailed br_Volumes br_Destinations br_Encrypted); [by right|done].
Qed.

Lemma claim_cases t id a : ClaimBackupRun t id a = None ∨ ClaimBackupRun t id a = Some (set_runs t (update (claimable id) (with_activity a) (runs t))).
Proof. unfold ClaimBackupRun. destruct (_ =? _)%nat; auto. Qed.
Lemma keeps_claim id a : keeps_row (claimable id) (with_activity a).
Proof. apply keeps_activity. intros r (_ & _ & H)%claimable_over. congruence. Qed.

Lemma execute_keeps s t id r : asked s → ¬ deletes id s → r ∈ runs t → br_ID r = id → ∃ r', r' ∈ runs (execute s t) ∧ kept_run r r'.
Proof.
  intros Ha Hd Hr Hid. assert (r ∈ runs t → ∃ r', r' ∈ runs t ∧ kept_run r r') as Hsame by (intros; exists r; done).
  destruct s as [app trig now|run now|i a|i|i f o now|i f now|now|i|h|run]; cbn [execute]; cbn [asked deletes] in *.
  - exists r. cbn. split; [|done]. apply elem_of_app. by left.
  - cbn. apply kept_update_runs; [|done]. apply (keeps_outcome _ (br_Status run) (λ _, br_Volumes run) (λ _, br_Destinations run) (λ _, br_Encrypted run)); [done|].
    intros x [_ H]%andb_true_iff. done.
  - destruct (claim_cases t i a) as [-> | ->]; cbn; [by apply Hsame|]. apply kept_update_runs; [apply keeps_claim|done].
  - cbn. apply kept_update_runs; [by apply keeps_activity|done].
  - cbn. apply kept_update_runs; [apply (keeps_verified _ _ f (λ _, o))|done].
  - cbn. apply kept_update_runs; [apply keeps_restored|done].
  - apply (interrupt_updates (λ l, ∃ r', r' ∈ l ∧ kept_run r r')); [eauto|]. intros l c f H (r' & Hr' & Hk).
    destruct (kept_update_runs c f l r' H Hr') as (x & Hx & Hk'). exists x. split; [done|]. by etrans.
  - exists r. cbn. split; [|done]. apply elem_of_lfilter. split; [done|]. unfold is_run. apply negb_true_iff, Z.eqb_neq. congruence.
  - exists r. done.
  - cbn. unfold AdoptBackupRun. destruct (existsb _ _); cbn; exists r; split; try done. apply elem_of_app. by left.
Qed.

Lemma new_id t : wf_runs t → Z.max (seq t) (largest (br_ID <$> runs t)) = seq t.
Proof.
  intros [_ Hq Hp _ _]. assert (∀ l, (∀ x, x ∈ l → x ≤ seq t) → largest l ≤ seq t) as H; [|specialize (H (br_ID <$> runs t)); lapply H; [lia|]].
  - induction l as [|x l IH]; simpl; intros H; [lia|]. pose proof (H x ltac:(by left)). assert (largest l ≤ seq t) by (apply IH; intros; apply H; by right). lia.
  - intros x (r & -> & Hr)%list_elem_of_fmap. by apply Hq.
Qed.

Lemma wf_empty_runs : wf_runs (mk_runs [] 0).
Proof. constructor; cbn; try done; [constructor|..]; by intros r ?%elem_of_nil. Qed.

Lemma wf_add t r n : wf_runs t → (br_ID r ∉ br_ID <$> runs t) → br_ID r ≤ n → seq t ≤ n →
  (br_Status r = BackupRunning ∨ ended (br_Status r)) → br_Activity r = "" → wf_runs (mk_runs (runs t ++ [r])%list n).
Proof.
  intros [Hd Hq Hp Hs Hr] Hn Hi Hm Hst Ha. constructor; cbn.
  - rewrite fmap_app. apply NoDup_app. split_and!; [done| |by apply NoDup_singleton]. intros x Hx ->%list_elem_of_singleton. done.
  - intros x [Hx| ->%list_elem_of_singleton]%elem_of_app; [|done]. specialize (Hq x Hx). lia.
  - lia.
  - intros x [Hx| ->%list_elem_of_singleton]%elem_of_app; [by apply Hs|done].
  - intros x [Hx| ->%list_elem_of_singleton]%elem_of_app; [by apply Hr|done].
Qed.

Lemma wf_execute s t : asked s → wf_runs t → wf_runs (execute s t) ∧ seq t ≤ seq (execute s t).
Proof.
  intros Ha H. destruct s as [app trig now|run now|i a|i|i f o now|i f now|now|i|h|run]; cbn [execute]; cbn [asked] in *.
  - unfold CreateBackupRun. cbn. rewrite new_id by done. split; [|lia]. apply wf_add; cbn; [done| |lia|lia|by left|done].
    intros (r & E & Hr)%list_elem_of_fmap. pose proof (wr_seq _ H r Hr). lia.
  - split; [|done]. apply update_runs; [|done]. apply (keeps_outcome _ (br_Status run) (λ _, br_Volumes run) (λ _, br_Destinations run) (λ _, br_Encrypted run)); [done|].
    intros x [_ E]%andb_true_iff. done.
  - destruct (claim_cases t i a) as [-> | ->]; cbn; [done|]. split; [|done]. apply update_runs; [apply keeps_claim|done].
  - split; [|done]. apply update_runs; [by apply keeps_activity|done].
  - split; [|done]. apply update_runs; [apply (keeps_verified _ _ f (λ _, o))|done].
  - split; [|done]. apply update_runs; [apply keeps_restored|done].
  - split; [|done]. apply (interrupt_updates (λ l, wf_runs (set_runs t l))); [by destruct t|]. intros l c f Hf Hl. by apply (update_runs c f (set_runs t l)).
  - split; [|done]. destruct H as [Hd Hq Hp Hs Hr]. constructor; cbn; [by apply NoDup_lfilter|..]; try done; intros r [Hx _]%elem_of_lfilter; eauto.
  - destruct H as [Hd Hq Hp Hs Hr]. split; [|cbn; lia]. constructor; cbn; try done; [|lia]. intros r Hx. specialize (Hq r Hx). lia.
  - unfold AdoptBackupRun. destruct (existsb (is_run (br_ID run)) (runs t)) eqn:E; cbn; [done|]. split; [|lia].
    apply wf_add; cbn; [done| |lia|lia|right; by left|done]. intros (r & Er & Hr)%list_elem_of_fmap.
    assert (existsb (is_run (br_ID run)) (runs t) = true); [|congruence]. apply existsb_true. exists r. split; [done|]. unfold is_run. by apply Z.eqb_eq.
Qed.

Lemma wf_after l : ∀ t, Forall asked l → wf_runs t → wf_runs (after l t) ∧ seq t ≤ seq (after l t).
Proof.
  induction l as [|s l IH]; intros t; [done|]. intros [Hs Hl]%Forall_cons H. destruct (wf_execute s t Hs H) as [H1 H2].
  destruct (IH _ Hl H1) as [H3 H4]. unfold after in *. cbn [foldl]. split; [done|lia].
Qed.
Lemma after_keeps l id : ∀ t r, Forall asked l → Forall (λ s, ¬ deletes id s) l → r ∈ runs t → br_ID r = id → ∃ r', r' ∈ runs (after l t) ∧ kept_run r r'.
Proof.
  induction l as [|s l IH]; intros t r; [by exists r|]. intros [Hs Hl]%Forall_cons [Hd Hn]%Forall_cons Hr Hid.
  destruct (execute_keeps s t id r Hs Hd Hr Hid) as (r1 & H1 & K1). destruct (IH (execute s t) r1 Hl Hn H1) as (r2 & H2 & K2).
  - rewrite (proj1 (kr_same _ _ K1)). done.
  - exists r2. split; [done|]. by etrans.
Qed.

(** ** Claims *)

(** Whoever holds the backup. *)
Definition held (t : Backup_runs) (id : Z) : Prop := ∀ r, r ∈ runs t → br_ID r = id → br_Activity r ≠ "".

Lemma held_refuses t id a : held t id → ClaimBackupRun t id a = None.
Proof.
  intros H. unfold ClaimBackupRun. destruct (Nat.eqb (affected (claimable id) (runs t)) 0) eqn:E; [done|].
  apply affected_zero in E as (r & Hr & (Hi & Ha & _)%claimable_over). exfalso. apply (H r Hr); [by apply Z.eqb_eq|done].
Qed.
Lemma claim_holds t id a t' : wf_runs t → a ≠ "" → ClaimBackupRun t id a = Some t' → held t' id ∧
  ∃ r, r ∈ runs t ∧ br_ID r = id ∧ br_Activity r = "" ∧ running r = false ∧ with_activity a r ∈ runs t'.
Proof.
  intros Hw Ha. unfold ClaimBackupRun. destruct (Nat.eqb (affected (claimable id) (runs t)) 0) eqn:E; [done|]. intros [= <-].
  apply affected_zero in E as (r & Hr & Hc). pose proof Hc as (Hi & Hf & Ho)%claimable_over. unfold is_run in Hi. apply Z.eqb_eq in Hi. split.
  - intros x (y & Hy & ->)%elem_of_update Hx. destruct (claimable id y) eqn:Ey; [done|]. intros Hne.
    assert (y = r) as -> by (apply (NoDup_column_eq br_ID (runs t)); [apply Hw|done|done|congruence]). congruence.
  - exists r. split_and!; try done. apply elem_of_update. exists r. by rewrite Hc.
Qed.
Lemma held_update c f t id : (∀ r, c r = true → br_ID r = id → (br_Activity r ≠ "" → br_Activity (f r) ≠ "")) → (∀ r, c r = true → br_ID (f r) = br_ID r) →
  held t id → held (set_runs t (update c f (runs t))) id.
Proof.
  intros Hc Hi H x (y & Hy & ->)%elem_of_update Hx. destruct (c y) eqn:E; [|by apply H].
  rewrite Hi in Hx by done. apply (Hc y E Hx). by apply H.
Qed.
Lemma held_execute s t id : wf_runs t → asked s → ¬ lets_go id s → (∃ r, r ∈ runs t ∧ br_ID r = id) → held t id → held (execute s t) id.
Proof.
  intros Hw Ha Hl (r0 & Hr0 & Hi0) H. destruct s as [app trig now|run now|i a|i|i f o now|i f now|now|i|h|run]; cbn [execute]; cbn [asked lets_go] in *.
  - unfold CreateBackupRun. intros x [Hx| ->%list_elem_of_singleton]%elem_of_app; [by apply H|]. cbn. rewrite new_id by done.
    pose proof (wr_seq _ Hw r0 Hr0). lia.
  - apply held_update; [by intros r|done|done].
  - destruct (claim_cases t i a) as [-> | ->]; cbn; [done|]. apply held_update; [|done|done]. by intros r _ _ _.
  - apply held_update; [|done|done]. intros r E. unfold is_run in E. apply Z.eqb_eq in E. congruence.
  - apply held_update; [|done|done]. intros r E. unfold is_run in E. apply Z.eqb_eq in E. congruence.
  - apply held_update; [|done|done]. intros r E. unfold is_run in E. apply Z.eqb_eq in E. congruence.
  - done.
  - intros x [Hx _]%elem_of_lfilter. by apply H.
  - done.
  - unfold AdoptBackupRun. destruct (existsb (is_run (br_ID run)) (runs t)) eqn:E; cbn; [done|].
    intros x [Hx| ->%list_elem_of_singleton]%elem_of_app; [by apply H|]. cbn. intros Hx. exfalso.
    assert (existsb (is_run (br_ID run)) (runs t) = true); [|congruence]. apply existsb_true. exists r0. split; [done|]. unfold is_run. apply Z.eqb_eq. congruence.
Qed.

Lemma held_after l id b : ∀ t, wf_runs t → Forall asked l → Forall (λ s, ¬ lets_go id s) l → (∃ r, r ∈ runs t ∧ br_ID r = id) → held t id → ClaimBackupRun (after l t) id b = None.
Proof.
  induction l as [|s l IH]; intros t Hw; [intros _ _ _; apply held_refuses|]. intros [Hs Hl]%Forall_cons [Hn Hr]%Forall_cons Hx Hh.
  apply (IH (execute s t)); [by apply wf_execute|done|done| |by apply held_execute].
  destruct Hx as (r & Hr0 & Hi). assert (¬ deletes id s) as Hd by (intros Hd; apply Hn; destruct s; cbn in Hd; done).
  destruct (execute_keeps s t id r Hs Hd Hr0 Hi) as (r1 & H1 & K1). exists r1. split; [done|]. by rewrite (proj1 (kr_same _ _ K1)).
Qed.

(** ** What the statements promise *)

Definition no_runs : Backup_runs := mk_runs [] 0.

(** Whatever statements the agent sends, the backups in the table have ids of their own and the next backup's is larger than any backup's before it, removed
    ones too, so that files never come to lie under an id that had other files; until it is removed, a backup keeps its application and when it was started,
    ends once, and from then on the archives, the destinations and the error that were recorded are what every later reading says; and nothing claims one that is being taken. *)
Theorem backup_records_kept (l0 l : list statement) (application trigger : string) (now : Time) : Forall asked l0 → Forall asked l →
  let t := after l0 no_runs in let t' := after l t in
  NoDup (br_ID <$> runs t') ∧
  (∀ r, r ∈ runs t → br_ID r < br_ID (CreateBackupRun t' application trigger now).2) ∧
  (∀ r, r ∈ runs t' → br_Status r = BackupRunning → br_Activity r = "") ∧
  (∀ r, r ∈ runs t → Forall (λ s, ¬ deletes (br_ID r) s) l → ∃ r', r' ∈ runs t' ∧ br_ID r' = br_ID r ∧ br_Application r' = br_Application r ∧ br_StartedAt r' = br_StartedAt r ∧
     (br_Status r = BackupRunning → br_Status r' = BackupRunning ∨ br_Status r' = BackupSucceeded ∨ br_Status r' = BackupFailed) ∧
     (br_Status r ≠ BackupRunning → br_Status r' = br_Status r ∧ br_Volumes r' = br_Volumes r ∧ br_Destinations r' = br_Destinations r ∧
        br_Encrypted r' = br_Encrypted r ∧ br_Error r' = br_Error r ∧ br_CompletedAt r' = br_CompletedAt r)).
Proof.
  intros H0 Hl t t'. destruct (wf_after l0 no_runs H0 wf_empty_runs) as [Ht _]. fold t in Ht. destruct (wf_after l t Hl Ht) as [Ht' Hq]. fold t' in Ht', Hq.
  split_and!; [apply Ht'| | |].
  - intros r Hr. unfold CreateBackupRun. cbn. rewrite new_id by done. pose proof (wr_seq _ Ht r Hr). lia.
  - intros r Hr Hs. by apply (wr_running _ Ht' r Hr), running_spec.
  - intros r Hr Hd. destruct (after_keeps l _ t r Hl Hd Hr eq_refl) as (r' & Hr' & [(K1 & K2 & _ & K4) K5]). exists r'. split_and!; try done.
    + intros _. by destruct (wr_status _ Ht' r' Hr') as [?|[?|?]]; auto.
    + intros Hs. apply K5. apply not_true_iff_false. by rewrite running_spec.
Qed.

(** A backup is claimed only when it is over and nothing else is done with it, and whoever claimed it has it to itself: every other claim is refused
    until it lets go of it, by the end of its activity, by the removal, or by the next start of the agent. *)
Theorem one_activity_at_a_time (l0 l : list statement) (id : Z) (a b : string) (t1 : Backup_runs) : Forall asked l0 → Forall asked l → a ≠ "" →
  ClaimBackupRun (after l0 no_runs) id a = Some t1 → Forall (λ s, ¬ lets_go id s) l →
  ClaimBackupRun (after l t1) id b = None ∧
  ∃ r, r ∈ runs (after l0 no_runs) ∧ br_ID r = id ∧ br_Activity r = "" ∧ (br_Status r = BackupSucceeded ∨ br_Status r = BackupFailed).
Proof.
  intros H0 Hl Ha Hc Hn. destruct (wf_after l0 no_runs H0 wf_empty_runs) as [Ht _].
  destruct (claim_holds _ _ _ _ Ht Ha Hc) as (Hh & r & Hr & Hi & Hf & Ho & Hr1). split.
  - apply held_after; [|done..|by exists (with_activity a r)|done].
    destruct (wf_execute (SClaim id a) _ Ha Ht) as [Hw _]. cbn in Hw. by rewrite Hc in Hw.
  - exists r. split_and!; try done. destruct (wr_status _ Ht r Hr) as [Hs|Hs]; [|done]. apply running_spec in Hs. congruence.
Qed.

(** What the agent finds when it starts, in progress or claimed, it ends: none is left running or in use, exactly the ones that were being taken are answered,
    and each of those is recorded as failed. *)
Theorem nothing_left_in_progress (l : list statement) (now : Time) : Forall asked l → let t := after l no_runs in let '(t', taken) := InterruptBackupRuns t now in
  (∀ r, r ∈ runs t' → br_Status r ≠ BackupRunning ∧ br_Activity r = "") ∧
  (∀ r, r ∈ taken ↔ r ∈ runs t ∧ br_Status r = BackupRunning) ∧
  (∀ r, r ∈ taken → ∃ r', r' ∈ runs t' ∧ br_ID r' = br_ID r ∧ br_Status r' = BackupFailed ∧ br_Error r' = interrupted) ∧
  (∀ r, r ∈ runs t → br_Activity r = BackupActivityRestore → ∃ r', r' ∈ runs t' ∧ br_ID r' = br_ID r ∧ br_RestoredAt r' = None ∧ br_RestoreError r' = interrupted).
Proof.
  intros Hl t. destruct (wf_after l no_runs Hl wf_empty_runs) as [Ht _]. fold t in Ht.
  set (f1 := λ r, with_outcome r BackupFailed (br_Volumes r) (br_Destinations r) (br_Encrypted r) interrupted (Some now)).
  set (row := λ r, let r1 := if running r then f1 r else r in
              let r2 := if String.eqb (br_Activity r1) BackupActivityVerify then with_verified None interrupted (br_VerifyOutput r1) r1 else r1 in
              let r3 := if String.eqb (br_Activity r2) BackupActivityRestore then with_restored None interrupted r2 else r2 in
              if negb (String.eqb (br_Activity r3) "") then with_activity "" r3 else r3).
  assert (runs (InterruptBackupRuns t now).1 = row <$> runs t) as E.
  { cbn. unfold update. rewrite <- !list_fmap_compose. by apply list_fmap_ext. }
  assert ((InterruptBackupRuns t now).2 = List.filter running (runs t)) as E2 by done.
  destruct (InterruptBackupRuns t now) as [t' taken]. cbn in E, E2. rewrite E, E2.
  assert (∀ r, running (row r) = false ∧ br_Activity (row r) = "" ∧ br_ID (row r) = br_ID r) as Hrow.
  { intros r. unfold row. cbn zeta. destruct (running r) eqn:Er; [assert (running (f1 r) = false) as Er' by done|];
      repeat (match goal with |- context [if ?c then _ else _] => destruct c eqn:? end);
      split_and!; try done; repeat match goal with H : negb _ = false |- _ => apply negb_false_iff in H end; by apply String.eqb_eq. }
  split_and!.
  - intros x (r & -> & Hr)%list_elem_of_fmap. destruct (Hrow r) as (H1 & H2 & _). split; [|done]. rewrite <- running_spec. congruence.
  - intros r. rewrite elem_of_lfilter, running_spec. done.
  - intros r [Hr H]%elem_of_lfilter. exists (row r). assert (row r = f1 r) as Er.
    { pose proof (wr_running _ Ht r Hr H) as Ha. unfold row. rewrite H. destruct r. cbn in Ha. by subst. }
    rewrite Er. split_and!; [rewrite <- Er; by apply list_elem_of_fmap_2|done..].
  - intros r Hr H. exists (row r). assert (running r = false) as Ho by (apply not_true_iff_false; intros Hx; rewrite (wr_running _ Ht r Hr Hx) in H; done).
    assert (row r = with_restored None interrupted r) as Er by (unfold row; rewrite Ho; destruct r; cbn in H; by subst).
    rewrite Er. split_and!; [rewrite <- Er; by apply list_elem_of_fmap_2|done..].
Qed.

(** ** Concrete histories *)

Definition a_success : BackupRun := mk_run 1 "shop" "manual" BackupSucceeded [mk_backup_volume "data" 7] ["local"] false [] 5 None "" None [] "" None [].
Definition taken_once : list statement := [SReserve 3; SCreate "shop" "manual" 5; SFinish (mk_run 4 "shop" "manual" BackupSucceeded [mk_backup_volume "data" 7] ["local"] false [] 5 None "" None [] "" None []) 9].

Lemma taken_once_asked : Forall asked taken_once.
Proof. repeat constructor; by left. Defined.

Lemma backup_records_kept_witness : ∃ r r', r ∈ runs (after taken_once no_runs) ∧ br_ID r = 4 ∧ r' ∈ runs (after [SClaim 4 BackupActivityVerify; SCreate "shop" "manual" 20; SVerified 4 [] "" 30] (after taken_once no_runs)) ∧
  br_ID r' = 4 ∧ br_Volumes r' = [mk_backup_volume "data" 7].
Proof.
  destruct (backup_records_kept taken_once [SClaim 4 BackupActivityVerify; SCreate "shop" "manual" 20; SVerified 4 [] "" 30] "shop" "manual" 40) as (_ & _ & _ & H);
    [apply taken_once_asked|repeat constructor; done|].
  set (r := mk_run 4 "shop" "manual" BackupSucceeded [mk_backup_volume "data" 7] ["local"] false [] 5 (Some 9) "" None [] "" None []).
  assert (r ∈ runs (after taken_once no_runs)) as Hr by (vm_compute; left).
  destruct (H r Hr) as (r' & Hr' & Hi & _ & _ & _ & Hv); [repeat constructor; by intros ?|].
  destruct (Hv ltac:(done)) as (_ & Ev & _). exists r, r'. split_and!; [exact Hr|done|exact Hr'|exact Hi|exact Ev].
Defined.

Lemma one_activity_at_a_time_witness : ∃ t1, ClaimBackupRun (after taken_once no_runs) 4 BackupActivityRestore = Some t1 ∧ ClaimBackupRun (after [SCreate "shop" "manual" 20; SRelease 2] t1) 4 BackupActivityVerify = None.
Proof.
  eexists. split; [by vm_compute|]. eapply (one_activity_at_a_time taken_once [SCreate "shop" "manual" 20; SRelease 2] 4 BackupActivityRestore);
    [apply taken_once_asked|repeat constructor; done|done|by vm_compute|repeat constructor; cbn; lia].
Defined.

Lemma nothing_left_in_progress_witness : ∀ r, r ∈ (InterruptBackupRuns (after (taken_once ++ [SClaim 4 BackupActivityRestore; SCreate "shop" "schedule" 20])%list no_runs) 50).2 ↔
  r ∈ runs (after (taken_once ++ [SClaim 4 BackupActivityRestore; SCreate "shop" "schedule" 20])%list no_runs) ∧ br_Status r = BackupRunning.
Proof.
  apply (nothing_left_in_progress (taken_once ++ [SClaim 4 BackupActivityRestore; SCreate "shop" "schedule" 20])%list 50).
  repeat constructor; try by left. done.
Defined.
