(* ===== verification/Backups.v ===== *)
(** * Backups (agent/internal/deploy: backups.go, backups_before.go,
      backups_adopt.go, Restore of volumes.go)

    A backup holds its application's lock while its archives are written, and
    its record says how it ended; retention removes old ones; a backup can be
    verified, restored and removed, by one activity at a time.  The state is
    the scheduler's memory of the destinations and of the agent's own state;
    Docker, the database, the storage and the locks are calls (Effects.v), and
    a goroutine that is started is a call of its own and a program of its own.
    An archive is the text of a stream; that its first bytes cannot be read is
    an error of opening it.  The runtime can remove volumes.  Errors of this
    package are a type. *)

From S2P Require Import Prelude GoStrings Effects GoTime SpecTypes SpecValidate SpecNames DeployState Store Rollout BackupStore Backupfile.
From Stdlib Require Import String Ascii.
Local Open Scope string_scope.
Local Open Scope Z_scope.

Definition BackupTriggerSchedule := "schedule".
Definition BackupTriggerManual := "manual".
Definition BackupTriggerAdopted := "adopted".
Definition backupActivityRemove := "remove".
Definition StateOwner := "_agent".
Definition ExportOwner := "_export".
Definition backupFailuresKept : Z := 20.
Definition stateBackupInterval : Duration := 24 * hour.
Definition stateBackupRetry : Duration := hour.
Definition stateBackupsKept : Z := 7.
Definition stateDatabaseFile := "shipwick.db".
Definition stateKeyFile := "encryption.key".
Definition exportFile := "export.tar".
Definition archiveSuffix := ".tar".

(** The errors of the engine; another error is its text. *)
Inductive backup_error :=
  | ErrBackupsDisabled | ErrNoVolumes | ErrBackupBusy | ErrBackupNotUsable | ErrNoBackup | ErrStateNotEncrypted
  | ErrNotStopped | ErrVolumeNotFound | ErrShuttingDown | ErrNotDeployed | ErrInvalidArchive | ErrBusy | Missing | Failure (e : text).
Abbreviation outcome A := (backup_error + A)%type.

(** backupSchedule, less the minutes Schedule.v looks at. *)
Record backupSchedule := mk_schedule { prepared : bool; stateRunning : bool; stateDue : Time }.
Definition set_prepared (b : backupSchedule) := mk_schedule true (stateRunning b) (stateDue b).
Definition set_stateRunning v (b : backupSchedule) := mk_schedule (prepared b) v (stateDue b).
Definition set_stateDue t (b : backupSchedule) := mk_schedule (prepared b) (stateRunning b) t.

(** What Docker answers when it runs a command: its exit code and output, a limit that passed, another error. *)
Inductive executed := Exited (code : Z) (output : string) | TimedOut | NotRun (e : text).
Inductive claimed := Claimed | InUse | NotClaimed (e : text).
(** A container that is not a replica: of which job, with which volumes where. *)
Record side_container := mk_side { sc_Job : string; sc_RunID : Z; sc_Command : list string; sc_Beside : string; sc_Mounts : list (string * string) }.

(** engine.go.  A call under the context of a cleanup carries the time that
    context ends, [until]: Docker is not reached after it, and the call answers
    the context's error. *)
Definition cleanupTimeout : Duration := 2 * minute.

Inductive bcall :=
  | BNow | BCtxErr | BClosing
  | BLock (app : string) | BUnlock (app : string) | BReleaseLock (app : string) | BBeginOp | BOpDone
  | BGetApplication (name : string) | BGetDeployment (id : Z) | BListReplicas (deployment : Z)
  | BInstallation | BPrepare (installation : string) | BReserve (highest : Z) | BAbortLeftovers
  | BCreateRun (owner trigger : string) (now : Time) | BFinishRun (run : BackupRun) (now : Time) | BDeleteRun (id : Z)
  | BClaim (id : Z) (activity : string) | BReleaseRun (id : Z) | BFinishVerify (id : Z) (failure : text) (output : string) (now : Time) | BFinishRestore (id : Z) (failure : text) (now : Time)
  | BInterrupt (now : Time) | BGetRun (owner : string) (id : Z) | BListRuns (owner : string) (limit : Z) | BLastRun (owner status : string)
  | BRunIDs | BAdopt (run : BackupRun) | BFound (owner : string)
  | BRemoveFiles (owner : string) (run : Z) | BWrite (owner : string) (run : Z) (name : string) (src : string) | BOpen (owner : string) (run : Z) (name : string) (encrypted : bool)
  | BSnapshot | BReadSnapshot (path : string) | BRemoveSnapshot (path : string)
  | BExportPath (container path : string) | BImportPath (container path : string) (archive : string)
  | BExec (container : string) (command : list string) (limit : Duration) | BCreateSide (c : side_container) | BWait (container : string) (limit : Duration)
  | BInspect (container : string) | BStart (container : string) | BStop (container : string) | BStartNameless (container : string) | BStopSide (until : Time) (container : string) | BRemoveContainer (until : Time) (container : string) | BRetire (container : string)
  | BReset (container : string) (health : bool) | BRemoveVolume (app volume : string) | BRemoveScratch (until : Time) (app volume : string) | BCreateReplicas (deployment : Z) (indexes : list Z)
  | BAwaitVerified (container : string) | BOutput (until : Time) (container : string) | BSyncProxy (app : string)
  | BLaunchBackup (d : Deployment) (run : BackupRun) (refused : error) | BLaunchVerify (d : Deployment) (run : BackupRun) | BLaunchRestore (name : string) (run : BackupRun)
  | BLaunchState (run : BackupRun) (snapshot : string) (key : string) (failure : error)
  | BEvent (app : string) (level : string) (msg : text) | BNotify (app : string) (msg : text) | BLog (what : text).

(** What the destinations hold of one run. *)
Record FoundFile := mk_found_file { ff_Name : string; ff_Encrypted : bool; ff_Size : Z; ff_Differs : bool }.
Record FoundRun := mk_found { fr_Owner : string; fr_ID : Z; fr_Files : list FoundFile; fr_Destinations : list string; fr_Modified : Time }.

Definition banswer (c : bcall) : Type :=
  match c with
  | BNow => Time
  | BCtxErr | BClosing | BBeginOp => bool
  | BLock _ => option backup_error
  | BGetApplication _ => store_error + Application
  | BGetDeployment _ => store_error + Deployment
  | BListReplicas _ => or_error (list Replica)
  | BInstallation => or_error string
  | BPrepare _ | BAbortLeftovers => or_error Z
  | BCreateRun _ _ _ => or_error BackupRun
  | BClaim _ _ => claimed
  | BInterrupt _ | BListRuns _ _ => or_error (list BackupRun)
  | BGetRun _ _ | BLastRun _ _ => store_error + BackupRun
  | BRunIDs => or_error (list Z)
  | BAdopt _ => or_error bool
  | BFound _ => or_error (list FoundRun)
  | BWrite _ _ _ _ => or_error Z
  | BOpen _ _ _ _ | BExportPath _ _ | BReadSnapshot _ => or_error string
  | BSnapshot => or_error (string * string)
  | BExec _ _ _ | BWait _ _ => executed
  | BCreateSide _ => or_error string
  | BInspect _ => or_error Container
  | BCreateReplicas _ _ => or_error (list Replica)
  | BOutput _ _ => string
  | BReserve _ | BFinishRun _ _ | BDeleteRun _ | BReleaseRun _ | BFinishVerify _ _ _ _ | BFinishRestore _ _ _ | BRemoveFiles _ _ | BImportPath _ _ _
  | BStart _ | BStop _ | BStartNameless _ | BStopSide _ _ | BRemoveContainer _ _ | BRetire _ | BRemoveVolume _ _ | BRemoveScratch _ _ _ | BAwaitVerified _ => error
  | _ => unit
  end.
Abbreviation BM := (Effects.M backupSchedule banswer).
(** if err != nil { return err } *)
Definition bind_outcome {A B} (m : BM (outcome A)) (k : A → BM (outcome B)) : BM (outcome B) :=
  mthen m (λ r, match r with inl e => mret (inl e) | inr a => k a end).
Notation "'get!' x ':=' m 'in' k" := (bind_outcome m (λ x, k)) (at level 10, x pattern, m at level 100, k at level 200) : go_scope.
Definition done_ok {A} (a : A) : BM (outcome A) := mret (inr a).
Definition refuse {A} (e : backup_error) : BM (outcome A) := mret (inl e).
Local Open Scope go_scope.

Section Backups.
Variable world : list (Effects.happened banswer) → ∀ c, banswer c.
Local Abbreviation perform := (Effects.perform world).
(** Whether a storage is configured, and encrypts; where backups go. *)
Variable configured Encrypted : bool.
Variable Destinations : list string.
Definition failing {A} (m : BM (or_error A)) : BM (outcome A) := mthen m (λ r, mret (match r with inl e => inl (Failure e) | inr a => inr a end)).
Definition found {A} (m : BM (store_error + A)) : BM (outcome A) :=
  mthen m (λ r, mret (match r with inl Store.ErrNotFound => inl Missing | inl (ErrOther e) => inl (Failure e) | inl _ => inl (Failure [L "conflict"]) | inr a => inr a end)).
Definition logged (prefix : string) (m : BM error) : BM unit :=
  let! err := m in match err with Some e => perform (BLog (L prefix :: e)) | None => mret tt end.

(** ** Destinations *)

Definition prepareBackups : BM error :=
  let! p := mget prepared in
  if p : bool then mret None else
  let! a := perform BInstallation in
  match a with inl e => mret (Some e) | inr installation =>
  let! a := perform (BPrepare installation) in
  match a with inl e => mret (Some e) | inr highest =>
  let! err := perform (BReserve highest) in
  match err with Some e => mret (Some e) | None =>
  let! _ := mset set_prepared in
  let! a := perform BAbortLeftovers in
  let! _ := match a with
            | inl e => perform (BLog (L "could not look for unfinished uploads in the bucket" :: e))
            | inr n => if 0 <? n then perform (BLog [L "aborted unfinished uploads that an earlier run of the agent left in the bucket"; D n]) else mret tt
            end in
  mret None
  end end end.

Definition removeBackupFiles (owner : string) (run : Z) : BM error :=
  let! err := prepareBackups in
  match err with Some e => mret (Some e) | None => perform (BRemoveFiles owner run) end.

(** A failed backup kept nothing; only its record is left to remove. *)
Definition removeBackup (run : BackupRun) : BM error :=
  let! err := (if String.eqb (br_Status run) BackupFailed then mret None else removeBackupFiles (br_Application run) (br_ID run)) in
  match err with Some e => mret (Some e) | None => perform (BDeleteRun (br_ID run)) end.

(** ** Retention *)

(** The loop of pruneBackups over the runs, newest first: succeeded and failed so far. *)
Definition prune_one (owner : string) (r : BackupRun) : BM unit :=
  if negb (String.eqb (br_Activity r) "") then mret tt else
  let! err := removeBackup r in
  match err with Some e => perform (BLog (L "could not remove an old backup; it is tried again after the next one" :: e)) | None => mret tt end.
Fixpoint prune_each (owner : string) (keep succeeded failed : Z) (l : list BackupRun) : BM unit :=
  match l with
  | [] => mret tt
  | r :: rest =>
      if String.eqb (br_Status r) BackupSucceeded then
        let! _ := (if succeeded + 1 <=? keep then mret tt else prune_one owner r) in prune_each owner keep (succeeded + 1) failed rest
      else if String.eqb (br_Status r) BackupFailed then
        let! _ := (if failed + 1 <=? backupFailuresKept then mret tt else prune_one owner r) in prune_each owner keep succeeded (failed + 1) rest
      else prune_each owner keep succeeded failed rest
  end.
Definition pruneBackups (owner : string) (keep : Z) : BM unit :=
  let! a := perform (BListRuns owner 0) in
  match a with
  | inl e => perform (BLog (L "could not list backups to prune" :: e))
  | inr runs => prune_each owner keep 0 0 runs
  end.

Definition backupEvent (d : Deployment) (level : string) (msg : text) : BM unit := perform (BEvent (d_Application d) level msg).

(** ** Taking a backup *)

Definition activeDeployment (name : string) : BM (outcome (Application * Deployment)) :=
  get! app := found (perform (BGetApplication name)) in
  match app_ActiveDeploymentID app with
  | None => refuse ErrNotDeployed
  | Some id => get! d := found (perform (BGetDeployment id)) in done_ok (app, d)
  end.

Definition beginBackup (d : Deployment) (trigger : string) : BM (outcome BackupRun) :=
  if negb (String.eqb (d_StaticDigest d) "") || bool_decide (a_Volumes (d_Spec d) = []) then refuse ErrNoVolumes else
  let! refused := prepareBackups in
  let! now := perform BNow in
  get! run := failing (perform (BCreateRun (d_Application d) trigger now)) in
  let! _ := perform (BLog [L "backup started"]) in
  let! _ := perform (BLaunchBackup d run refused) in
  done_ok run.

Definition StartBackup (name : string) : BM (outcome BackupRun) :=
  if negb configured then refuse ErrBackupsDisabled else
  let! busy := perform (BLock name) in
  match busy with Some e => refuse e | None =>
  let! r := (get! ad := activeDeployment name in beginBackup ad.2 BackupTriggerManual) in
  match r with
  | inl e => let! _ := perform (BUnlock name) in refuse e
  | inr run => done_ok run
  end end.

(** backups.before in the replica, or in a container beside it. *)
Definition exited (code : Z) (line : string) : text :=
  if String.eqb line "" then [L "backups.before exited "; D code; L "; nothing was archived"] else [L "backups.before exited "; D code; L ": "; S' line; L "; nothing was archived"].
Definition could_not_run (e : text) : text := (L "backups.before could not run: " :: e ++ [L "; nothing was archived"])%list.
(** lastLine: the last line that says something, at most 200 bytes of it. *)
Definition newline : ascii := "010".
Definition blank (c : ascii) : bool := contains [" "%char; "009"%char; "013"%char; newline] c.
Fixpoint trim_blanks (s : string) : string :=
  match s with
  | "" => ""
  | String c r => match trim_blanks r with "" => if blank c then "" else String c "" | t => String c t end
  end.
Definition lastLine (output : string) : string :=
  let line := trim_space (List.last (split newline (trim_blanks output)) "") in
  if 200 <? slen line then substring 0 200 line ++ "…" else line.
Definition backupBefore (container : string) (b : Backups) : BM error :=
  let! x := perform (BExec container (bk_Before b) (BeforeLimit b)) in
  match x with
  | TimedOut => mret (Some [L "backups.before did not finish within "; D (BeforeLimit b); L "; the backup was given up and nothing was archived. Give the command longer with backups.before_timeout in deploy.yaml (up to "; D MaxBackupBeforeTimeout; L ")"])
  | NotRun e => mret (Some (could_not_run e))
  | Exited code output => mret (if negb (code =? 0) then Some (exited code (lastLine output)) else None)
  end.
Definition beforeJobName := "backup_before".
Definition backupBeforeBeside (d : Deployment) (replica : string) (runID : Z) (b : Backups) : BM error :=
  let! now := perform BNow in
  let until := now + cleanupTimeout in
  let! a := perform (BCreateSide (mk_side beforeJobName runID (bk_Before b) replica ((λ v, (v_Name v, v_Path v)) <$> a_Volumes (d_Spec d)))) in
  match a with
  | inl e => mret (Some (could_not_run e))
  | inr id =>
      let! r := (let! err := perform (BStart id) in
        match err with Some e => mret (Some (could_not_run e)) | None =>
        let! x := perform (BWait id (BeforeLimit b)) in
        match x with
        | Exited code _ => if negb (code =? 0) then let! output := perform (BOutput until id) in mret (Some (exited code (lastLine output))) else mret None
        | stuck =>
            let! _ := logged "could not stop the container of backups.before" (perform (BStopSide until id)) in
            let! closing := perform BCtxErr in
            mret (Some (if closing : bool then [L "context canceled"] else
                        match stuck with
                        | NotRun e => could_not_run e
                        | _ => [L "backups.before did not finish within "; D (BeforeLimit b); L " and was stopped; nothing was archived. Give the command longer with backups.before_timeout in deploy.yaml (up to "; D MaxBackupBeforeTimeout; L ")"]
                        end))
        end end) in
      let! _ := logged "could not remove the container of backups.before" (perform (BRemoveContainer until id)) in
      mret r
  end.
Definition runBefore (d : Deployment) (replica : string) (run : BackupRun) (b : Backups) : BM error :=
  if String.eqb (bk_BeforeIn b) BeforeInContainer then backupBeforeBeside d replica (br_ID run) b else backupBefore replica b.

(** stopForBackup: the replicas that ran, and why it failed; [restart] starts them again. *)
Fixpoint still_running (l : list Replica) : BM (list Replica) :=
  match l with
  | [] => mret []
  | r :: rest =>
      let! a := perform (BInspect (r_ContainerID r)) in
      let! others := still_running rest in
      mret (match a with inr c => if c_Running c then r :: others else others | inl _ => others end)
  end.
(** They are stopped side by side; the first that could not be is the error. *)
Fixpoint stop_each (l : list Replica) : BM error :=
  match l with
  | [] => mret None
  | r :: rest =>
      let! err := perform (BStop (r_ContainerID r)) in
      let! later := stop_each rest in
      mret (match err with Some e => Some (L "stop replica " :: D (r_Index r) :: L ": " :: e) | None => later end)
  end.
Definition restart_one (d : Deployment) (r : Replica) : BM unit :=
  let! err := perform (BStartNameless (r_ContainerID r)) in
  match err with
  | Some e => backupEvent d "error" (L "Replica " :: D (r_Index r) :: L " could not be started again after the backup: " :: e)
  | None => perform (BReset (r_ContainerID r) (bool_decide (is_Some (a_Health (d_Spec d)))))
  end.
Definition restart (d : Deployment) (running : list Replica) : BM unit :=
  let! _ := mloop (restart_one d) running in
  let! _ := perform (BSyncProxy (d_Application d)) in
  match running with [] => mret tt | _ => backupEvent d "info" [L "Stopped for a backup (backups.stop) and started again"] end.
Definition stopForBackup (d : Deployment) (replicas : list Replica) : BM (list Replica * error) :=
  let! running := still_running replicas in
  let! err := stop_each running in
  let! _ := perform (BSyncProxy (d_Application d)) in
  mret (running, err).

(** One archive per volume; the run with what was written, and the error. *)
Definition with_volume (run : BackupRun) (v : string) (n : Z) : BackupRun :=
  with_outcome run (br_Status run) (br_Volumes run ++ [mk_backup_volume v n])%list (br_Destinations run) (br_Encrypted run) (br_Error run) (br_CompletedAt run).
Definition volume_error (v : string) (e : text) : text := L "volume " :: S' v :: L ": " :: e.
Fixpoint write_volumes (d : Deployment) (container : string) (volumes : list Volume) (run : BackupRun) : BM (BackupRun * error) :=
  match volumes with
  | [] => mret (run, None)
  | v :: rest =>
      let! a := perform (BExportPath container (v_Path v)) in
      match a with inl e => mret (run, Some (volume_error (v_Name v) e)) | inr archive =>
      let! a := perform (BWrite (d_Application d) (br_ID run) (v_Name v ++ archiveSuffix) archive) in
      match a with inl e => mret (run, Some (volume_error (v_Name v) e)) | inr n => write_volumes d container rest (with_volume run (v_Name v) n) end end
  end.
Definition takeBackup (d : Deployment) (run : BackupRun) : BM (BackupRun * error) :=
  let! a := perform (BListReplicas (d_ID d)) in
  match a with
  | inl e => mret (run, Some e)
  | inr [] => mret (run, Some [S' (d_Application d); L " has no container to read its volumes through; deploy it again"])
  | inr (first :: others) =>
      let source := r_ContainerID first in
      match a_Backups (d_Spec d) with
      | None => write_volumes d source (a_Volumes (d_Spec d)) run
      | Some b =>
          let! err := match bk_Before b with [] => mret None | _ => runBefore d source run b end in
          match err with Some e => mret (run, Some e) | None =>
          if negb (bk_Stop b) then write_volumes d source (a_Volumes (d_Spec d)) run else
          let! stopped := stopForBackup d (first :: others) in
          let! r := match stopped.2 with Some e => mret (run, Some e) | None => write_volumes d source (a_Volumes (d_Spec d)) run end in
          let! _ := restart d stopped.1 in
          mret r
          end
      end
  end.

(** A failed backup keeps nothing, and retention follows. *)
Definition shut_down : text := [L "the agent was shut down while the backup was being taken"].
Definition ended_run (run : BackupRun) (failure : error) (closing encrypted : bool) : BackupRun :=
  match failure with
  | None => with_outcome run BackupSucceeded (br_Volumes run) Destinations encrypted (br_Error run) (br_CompletedAt run)
  | Some e => with_outcome run BackupFailed [] (br_Destinations run) (br_Encrypted run) (if closing then shut_down else e) (br_CompletedAt run)
  end.
Definition remove_failed (run : BackupRun) : BM unit :=
  let! p := mget prepared in
  if p : bool then logged "could not remove the files of a failed backup" (removeBackupFiles (br_Application run) (br_ID run)) else mret tt.
Definition finishBackup (d : Deployment) (run : BackupRun) (failure : error) : BM unit :=
  let! closing := match failure with Some _ => perform BClosing | None => mret false end in
  let run := ended_run run failure closing Encrypted in
  let! _ := match failure with Some _ => remove_failed run | None => mret tt end in
  let! now := perform BNow in
  let! _ := logged "could not record the outcome of a backup" (perform (BFinishRun run now)) in
  let keep := match a_Backups (d_Spec d) with Some b => bk_Keep b | None => DefaultBackupKeep end in
  let! _ := match failure with
            | None => perform (BLog [L "backup finished"])
            | Some _ =>
                let! closing := perform BClosing in
                if closing : bool then mret tt else
                let! _ := backupEvent d "warn" ([L "Backup #"; D (br_ID run); L " failed: "] ++ br_Error run)%list in
                if String.eqb (br_Trigger run) BackupTriggerSchedule
                then perform (BNotify (br_Application run) (S' (br_Application run) :: L ": the scheduled backup failed: " :: br_Error run)) else mret tt
            end in
  pruneBackups (br_Application run) keep.

(** The goroutine of beginBackup. *)
Definition backup_goroutine (d : Deployment) (run : BackupRun) (refused : error) : BM unit :=
  let! r := match refused with Some _ => mret (run, refused) | None => takeBackup d run end in
  let! _ := perform (BReleaseLock (d_Application d)) in
  let! _ := finishBackup d r.1 r.2 in
  perform BOpDone.

(** ** One backup *)

Definition backupBusy (c : claimed) : outcome unit :=
  match c with Claimed => inr tt | InUse => inl ErrBackupBusy | NotClaimed e => inl (Failure e) end.
Definition DeleteBackup (name : string) (id : Z) : BM (outcome unit) :=
  if negb configured then refuse ErrBackupsDisabled else
  get! _ := found (perform (BGetApplication name)) in
  get! run := found (perform (BGetRun name id)) in
  get! _ := mthen (perform (BClaim (br_ID run) backupActivityRemove)) (λ c, mret (backupBusy c)) in
  let! err := removeBackup run in
  match err with
  | Some e => let! _ := logged "could not release a backup" (perform (BReleaseRun (br_ID run))) in refuse (Failure e)
  | None => done_ok tt
  end.

Definition usableBackup (name : string) (id : Z) : BM (outcome BackupRun) :=
  if id =? 0 then
    let! r := found (perform (BLastRun name BackupSucceeded)) in
    mret (match r with inl Missing => inl ErrNoBackup | r => r end)
  else
    get! run := found (perform (BGetRun name id)) in
    if String.eqb (br_Status run) BackupRunning then refuse ErrBackupBusy
    else if String.eqb (br_Status run) BackupFailed then refuse ErrBackupNotUsable
    else done_ok run.

Definition OpenBackupArchive (name : string) (id : Z) (volume : string) : BM (outcome (string * Z)) :=
  if negb configured then refuse ErrBackupsDisabled else
  get! _ := found (perform (BGetApplication name)) in
  get! run := usableBackup name id in
  match List.find (λ v, String.eqb (bv_Volume v) volume) (br_Volumes run) with
  | None => refuse ErrVolumeNotFound
  | Some v => get! archive := failing (perform (BOpen name (br_ID run) (volume ++ archiveSuffix) (br_Encrypted run))) in done_ok (archive, bv_SizeBytes v)
  end.

(** ** Verifying *)

Definition VerifyBackup (name : string) (id : Z) : BM (outcome BackupRun) :=
  if negb configured then refuse ErrBackupsDisabled else
  let! busy := perform (BLock name) in
  match busy with Some e => refuse e | None =>
  let! r :=
    (get! ad := activeDeployment name in
     get! run := usableBackup name id in
     let! began := perform BBeginOp in
     if negb (began : bool) then refuse ErrShuttingDown else
     let! c := perform (BClaim (br_ID run) BackupActivityVerify) in
     match backupBusy c with
     | inl e => let! _ := perform BOpDone in refuse e
     | inr _ =>
         let run := with_activity BackupActivityVerify run in
         let! _ := perform (BLaunchVerify ad.2 run) in done_ok run
     end) in
  let! _ := perform (BUnlock name) in
  mret r
  end.

Definition scratchMarker := "_verify_".
Definition ScratchVolume (volume : string) (run : Z) : string := volume ++ scratchMarker ++ itoa run.
Definition VerifyJob := "backup.verify".
Definition path_of (d : Deployment) (volume : string) : option string := v_Path <$> List.find (λ v, String.eqb (v_Name v) volume) (rev (a_Volumes (d_Spec d))).

(** Into the scratch volumes, before the process ever runs; and into place, in a restore. *)
Fixpoint extract_each (d : Deployment) (run : BackupRun) (id : string) (l : list BackupVolume) : BM error :=
  match l with
  | [] => mret None
  | v :: rest =>
      let! a := perform (BOpen (d_Application d) (br_ID run) (bv_Volume v ++ archiveSuffix) (br_Encrypted run)) in
      match a with inl e => mret (Some (L "volume " :: S' (bv_Volume v) :: L " could not be read from the backup: " :: e)) | inr archive =>
      let! err := perform (BImportPath id (default "" (path_of d (bv_Volume v))) archive) in
      match err with Some e => mret (Some (L "volume " :: S' (bv_Volume v) :: L " could not be restored: " :: e)) | None => extract_each d run id rest end end
  end.
Definition in_container (until : Time) (d : Deployment) (run : BackupRun) (id : string) : BM (text * string) :=
  let! err := extract_each d run id (br_Volumes run) in
  match err with Some e => mret (e, "") | None =>
  let! err := perform (BStart id) in
  match err with Some e => mret (L "the container could not be started: " :: e, "") | None =>
  let! err := perform (BAwaitVerified id) in
  let! output := perform (BOutput until id) in
  match err with
  | None => mret ([], output)
  | Some e => let! closing := perform BCtxErr in mret (if closing : bool then [L "the agent was shut down during the verification"] else e, output)
  end end end.
Definition verifyBackup (d : Deployment) (run : BackupRun) : BM (text * string) :=
  let! now := perform BNow in
  let until := now + cleanupTimeout in
  match List.find (λ v, String.eqb (default EmptyString (path_of d (bv_Volume v))) EmptyString) (br_Volumes run) with
  | Some v => mret ([L "the backup holds volume "; S' (bv_Volume v); L ", which the application's deploy.yaml no longer has"], "")
  | None =>
      let mounts := (λ v, (ScratchVolume (v_Name v) (br_ID run), v_Path v)) <$> a_Volumes (d_Spec d) in
      let! a := perform (BCreateSide (mk_side VerifyJob (br_ID run) (a_Command (d_Spec d)) "" mounts)) in
      let! r := match a with
                | inl e => mret (L "the container could not be created: " :: e, "")
                | inr id =>
                    let! r := in_container until d run id in
                    let! _ := logged "could not stop the verification container" (perform (BStopSide until id)) in
                    let! _ := logged "could not remove the verification container" (perform (BRemoveContainer until id)) in
                    mret r
                end in
      let! _ := mloop (λ m, logged "could not remove a verification volume" (perform (BRemoveScratch until (d_Application d) m.1))) mounts in
      mret r
  end.
(** The goroutine of VerifyBackup. *)
Definition verify_goroutine (d : Deployment) (run : BackupRun) : BM unit :=
  let! r := verifyBackup d run in
  let! now := perform BNow in
  let! _ := logged "could not record the outcome of a verification" (perform (BFinishVerify (br_ID run) r.1 r.2 now)) in
  let! _ := match r.1 with
            | [] => backupEvent d "info" [L "Backup #"; D (br_ID run); L " verified: it restores"]
            | failure =>
                let! closing := perform BClosing in
                if closing : bool then mret tt else backupEvent d "warn" ([L "Backup #"; D (br_ID run); L " did not verify: "] ++ failure)%list
            end in
  perform BOpDone.

(** ** Restoring *)

(** volumeTarget: the active deployment, the volume as it mounts it, and its replicas. *)
Definition volumeTarget (name volume : string) : BM (outcome (Deployment * Volume * list Replica)) :=
  get! ad := activeDeployment name in
  match List.find (λ v, String.eqb (v_Name v) volume) (a_Volumes (d_Spec ad.2)) with
  | None => refuse ErrVolumeNotFound
  | Some v =>
      get! replicas := failing (perform (BListReplicas (d_ID ad.2))) in
      done_ok (ad.2, v, replicas)
  end.
Definition retire_replicas : list Replica → BM error :=
  fix retire l := match l with
    | [] => mret None
    | r :: rest =>
        let! err := perform (BRetire (r_ContainerID r)) in
        match err with Some e => mret (Some (L "remove replica " :: D (r_Index r) :: L ": " :: e)) | None => retire rest end
    end.
Fixpoint any_running (l : list Replica) : BM bool :=
  match l with
  | [] => mret false
  | r :: rest =>
      let! a := perform (BInspect (r_ContainerID r)) in
      match a with inr c => if c_Running c then mret true else any_running rest | inl _ => any_running rest end
  end.
(** [valid]: the stream starts like a tar file. *)
Definition Restore (name volume archive : string) (valid : bool) : BM (outcome unit) :=
  if negb valid then refuse ErrInvalidArchive else
  let! busy := perform (BLock name) in
  match busy with Some e => refuse e | None =>
  let! r :=
    (get! app := found (perform (BGetApplication name)) in
     get! target := volumeTarget name volume in
     let '(d, v, replicas) := target in
     if negb (String.eqb (app_DesiredState app) DesiredStopped) then refuse ErrNotStopped else
     let! up := any_running replicas in
     if up : bool then refuse ErrNotStopped else
     let! err := retire_replicas replicas in
     match err with Some e => refuse (Failure e) | None =>
     let! err := perform (BRemoveVolume name volume) in
     match err with Some e => refuse (Failure e) | None =>
     let! a := perform (BCreateReplicas (d_ID d) (seqZ 1 (a_Replicas (d_Spec d)))) in
     match a with
     | inl e => refuse (Failure (L "the volume was emptied but its container could not be created again: " :: e ++ [L "; deploy the application again"])%list)
     | inr created =>
         match created with
         | [] => refuse (Failure [L "panic: index out of range"])
         | c :: _ =>
             let! err := perform (BImportPath (r_ContainerID c) (v_Path v) archive) in
             match err with
             | Some e =>
                 let! _ := perform (BEvent name "info" (L "Restore of volume " :: S' volume :: L " failed: " :: e)) in
                 refuse (Failure (L "the volume was emptied but the archive could not be extracted into it: " :: e ++ [L "; upload it again"])%list)
             | None => let! _ := perform (BEvent name "info" [L "Volume "; S' volume; L " restored from a backup"]) in done_ok tt
             end
         end
     end end end) in
  let! _ := perform (BUnlock name) in
  mret r
  end.

Definition claimRestore (name : string) (id : Z) : BM (outcome BackupRun) :=
  get! ad := activeDeployment name in
  get! run := usableBackup name id in
  if negb (String.eqb (app_DesiredState ad.1) DesiredStopped) then refuse ErrNotStopped else
  if negb (forallb (λ v, contains (v_Name <$> a_Volumes (d_Spec ad.2)) (bv_Volume v)) (br_Volumes run)) then refuse ErrVolumeNotFound else
  let! began := perform BBeginOp in
  if negb (began : bool) then refuse ErrShuttingDown else
  let! c := perform (BClaim (br_ID run) BackupActivityRestore) in
  match backupBusy c with
  | inl e => let! _ := perform BOpDone in refuse e
  | inr _ => done_ok (with_activity BackupActivityRestore run)
  end.
Definition RestoreBackup (name : string) (id : Z) : BM (outcome BackupRun) :=
  if negb configured then refuse ErrBackupsDisabled else
  let! busy := perform (BLock name) in
  match busy with Some e => refuse e | None =>
  let! r := claimRestore name id in
  let! _ := perform (BUnlock name) in
  match r with
  | inl e => refuse e
  | inr run => let! _ := perform (BLaunchRestore name run) in done_ok run
  end end.

Definition error_text (e : backup_error) : text :=
  match e with
  | Failure e => e
  | ErrNotStopped => [L "stop the application first"]
  | ErrVolumeNotFound => [L "the application has no such volume"]
  | ErrInvalidArchive => [L "not a tar file"]
  | ErrBusy => [L "another operation is in progress"]
  | ErrShuttingDown => [L "the agent is shutting down"]
  | ErrNotDeployed => [L "the application has no active deployment"]
  | _ => [L "not found"]
  end.
(** [tar]: whether a stream starts like a tar file. *)
Fixpoint restore_each (tar : string → bool) (name : string) (run : BackupRun) (l : list BackupVolume) : BM text :=
  match l with
  | [] => mret []
  | v :: rest =>
      let! a := perform (BOpen name (br_ID run) (bv_Volume v ++ archiveSuffix) (br_Encrypted run)) in
      match a with inl e => mret (volume_error (bv_Volume v) e) | inr archive =>
      let! r := Restore name (bv_Volume v) archive (tar archive) in
      match r with inl e => mret (volume_error (bv_Volume v) (error_text e)) | inr _ => restore_each tar name run rest end end
  end.
(** The goroutine of RestoreBackup. *)
Definition restore_goroutine (tar : string → bool) (name : string) (run : BackupRun) : BM unit :=
  let! failure := restore_each tar name run (br_Volumes run) in
  let! now := perform BNow in
  let! _ := logged "could not record the outcome of a restore" (perform (BFinishRestore (br_ID run) failure now)) in
  perform BOpDone.

Definition backupView (r : BackupRun) : BackupRun := if String.eqb (br_Activity r) backupActivityRemove then with_activity "" r else r.

(** ** The agent's own state *)

Definition StartStateBackup (trigger : string) : BM (outcome BackupRun) :=
  if negb configured then refuse ErrBackupsDisabled else
  if negb Encrypted then refuse ErrStateNotEncrypted else
  let! taking := mget stateRunning in
  if taking : bool then refuse ErrBackupBusy else
  let! _ := mset (set_stateRunning true) in
  let! began := perform BBeginOp in
  if negb (began : bool) then let! _ := mset (set_stateRunning false) in refuse ErrShuttingDown else
  (* The database is copied before this backup is recorded in it. *)
  let! failure := prepareBackups in
  let! r := match failure with
            | Some e => mret ("", "", Some e)
            | None => let! a := perform BSnapshot in mret (match a with inl e => ("", "", Some e) | inr (snapshot, key) => (snapshot, key, None) end)
            end in
  let '(snapshot, key, failure) := r in
  let! now := perform BNow in
  let! a := perform (BCreateRun StateOwner trigger now) in
  match a with
  | inl e =>
      let! _ := (if String.eqb snapshot "" then mret tt else perform (BRemoveSnapshot snapshot)) in
      let! _ := perform BOpDone in
      let! _ := mset (set_stateRunning false) in
      refuse (Failure e)
  | inr run => let! _ := perform (BLaunchState run snapshot key failure) in done_ok run
  end.

(** The key, hex and a line end, is [key]. *)
Definition takeStateBackup (run : BackupRun) (snapshot key : string) : BM (BackupRun * error) :=
  if String.eqb key "" then mret (run, Some [L "the agent has no encryption key to back up"]) else
  let! a := perform (BReadSnapshot snapshot) in
  match a with inl e => mret (run, Some (L "read the database copy: " :: e)) | inr db =>
  let! a := perform (BWrite StateOwner (br_ID run) stateDatabaseFile db) in
  match a with inl e => mret (run, Some (S' stateDatabaseFile :: L ": " :: e)) | inr n =>
  let run := with_volume run stateDatabaseFile n in
  let! a := perform (BWrite StateOwner (br_ID run) stateKeyFile key) in
  match a with inl e => mret (run, Some (S' stateKeyFile :: L ": " :: e)) | inr n => mret (with_volume run stateKeyFile n, None) end end end.

Definition finishStateBackup (run : BackupRun) (failure : error) : BM unit :=
  let! closing := match failure with Some _ => perform BClosing | None => mret false end in
  let run := ended_run run failure closing true in
  let! _ := match failure with Some _ => remove_failed run | None => mret tt end in
  let! now := perform BNow in
  let! _ := logged "could not record the outcome of a backup of the agent's state" (perform (BFinishRun run now)) in
  let! _ := match failure with
            | None => perform (BLog [L "agent state backed up"])
            | Some _ =>
                let! closing := perform BClosing in
                if closing : bool then mret tt else
                let! _ := perform (BLog (L "the backup of the agent's state failed" :: br_Error run)) in
                if String.eqb (br_Trigger run) BackupTriggerSchedule then perform (BNotify "" (L "The backup of the agent's own state failed: " :: br_Error run)) else mret tt
            end in
  pruneBackups StateOwner stateBackupsKept.
(** The goroutine of StartStateBackup. *)
Definition state_goroutine (run : BackupRun) (snapshot key : string) (failure : error) : BM unit :=
  let! r := match failure with
            | Some _ => mret (run, failure)
            | None => let! r := takeStateBackup run snapshot key in let! _ := perform (BRemoveSnapshot snapshot) in mret r
            end in
  let! _ := finishStateBackup r.1 r.2 in
  let! _ := mset (set_stateRunning false) in
  perform BOpDone.

(** A day after the last one, an hour after one that failed. *)
Definition scheduleStateBackup (now : Time) : BM unit :=
  if negb Encrypted then mret tt else
  let! b := mget (λ b, b) in
  if stateRunning b || (now <? stateDue b) then mret tt else
  let! a := perform (BListRuns StateOwner 1) in
  let start := let! r := StartStateBackup BackupTriggerSchedule in
               match r with
               | inl e => let! closing := perform BCtxErr in if closing : bool then mret tt else perform (BLog (L "could not start the backup of the agent's state" :: error_text e))
               | inr _ => mret tt
               end in
  match a with
  | inl e => perform (BLog (L "backup scheduler: list backups of the agent's state" :: e))
  | inr [] => start
  | inr (last :: _) =>
      let due := br_StartedAt last + (if String.eqb (br_Status last) BackupFailed then stateBackupRetry else stateBackupInterval) in
      if now <? due then mset (set_stateDue due) else start
  end.

(** ** What an earlier run of the agent left *)

Definition settle_interrupted : list BackupRun → BM unit :=
  mloop (λ run, let! _ := perform (BLog [L "found interrupted backup"; D (br_ID run)]) in
                logged "could not remove the files of an interrupted backup" (removeBackupFiles (br_Application run) (br_ID run))).
Definition StartBackups_settle : BM error :=
  if negb configured then mret None else
  let! now := perform BNow in
  let! a := perform (BInterrupt now) in
  match a with
  | inl e => mret (Some e)
  | inr taken => let! _ := settle_interrupted taken in mret None
  end.

(** ** Adopting *)

Inductive kind := KindApplication | KindState | KindExport.
Definition backupKind (owner : string) : option kind :=
  if String.eqb owner StateOwner then Some KindState
  else if String.eqb owner ExportOwner then Some KindExport
  else if is_ok (ValidateName owner) then Some KindApplication else None.
Definition volume_of (name : string) : option string := if has_suffix archiveSuffix name then Some (trim_suffix archiveSuffix name) else None.
Definition is_archive (name : string) : bool := match volume_of name with Some v => is_ok (ValidateName v) | None => false end.

(** The files by name, and the names of the archives of an application; or the name that is there twice. *)
Fixpoint sort_files (k : kind) (l : list FoundFile) (files : gmap string FoundFile) (names : list string) : string + gmap string FoundFile * list string :=
  match l with
  | [] => inr (files, names)
  | f :: rest =>
      let application := match k with KindApplication => true | _ => false end in
      if application && negb (is_archive (ff_Name f)) then sort_files k rest files names
      else match files !! ff_Name f with
           | Some _ => inl (ff_Name f)
           | None => sort_files k rest (<[ff_Name f := f]> files) (if application then names ++ [ff_Name f] else names)%list
           end
  end.
Definition wanted_files (k : kind) : list string :=
  match k with KindState => [stateDatabaseFile; stateKeyFile] | KindExport => [exportFile] | KindApplication => [] end.
(** The loop over the names: whether the files before were encrypted, and the volumes so far. *)
Fixpoint judge_files (k : kind) (files : gmap string FoundFile) (names : list string) (encrypted : option bool) (volumes : list BackupVolume) : text + (bool * list BackupVolume) :=
  match names with
  | [] => inr (default false encrypted, volumes)
  | name :: rest =>
      let f := default (mk_found_file "" false 0 false) (files !! name) in
      let stored := if ff_Encrypted f then name ++ ".enc" else name in
      let fixed := match wanted_files k with [] => false | _ => true end in
      let volume := match k with KindApplication => trim_suffix archiveSuffix name | _ => name end in
      if match encrypted with Some e => negb (Bool.eqb (ff_Encrypted f) e) | None => false end then inl [L "some of its files are encrypted and some are not"]
      else if fixed && negb (ff_Encrypted f) then inl [S' stored; L " is not encrypted, and the agent writes it encrypted only"]
      else if ff_Differs f then inl [S' stored; L " has one size in the directory and another in the bucket"]
      else if ff_Encrypted f then
        match PlainSize (ff_Size f) with
        | None => inl [S' stored; L " is not a whole encrypted backup: no file the agent writes has "; D (ff_Size f); L " bytes"]
        | Some plain => judge_files k files rest (Some true) (volumes ++ [mk_backup_volume volume plain])%list
        end
      else judge_files k files rest (Some false) (volumes ++ [mk_backup_volume volume (ff_Size f)])%list
  end.
Definition adoptable (f : FoundRun) (k : kind) (now : Time) : text + option BackupRun :=
  let at_ := if fr_Modified f =? zero_time then now else fr_Modified f in
  match sort_files k (fr_Files f) ∅ [] with
  | inl name => inl [S' name; L " is there twice, encrypted and not"]
  | inr (files, names) =>
      match List.find (λ name, negb (bool_decide (is_Some (files !! name)))) (wanted_files k) with
      | Some name => inl [S' (name ++ ".enc"); L " is missing: the backup was not finished"]
      | None =>
          match (names ++ wanted_files k)%list with
          | [] => inr None
          | names =>
              match judge_files k files names None [] with
              | inl reason => inl reason
              | inr (encrypted, volumes) =>
                  match fr_Destinations f with
                  | [] => inl [L "its files are spread over the directory and the bucket, and neither holds all of them"]
                  | _ => inr (Some (mk_run (fr_ID f) (fr_Owner f) BackupTriggerAdopted BackupSucceeded volumes (fr_Destinations f) encrypted [] at_ (Some at_) "" None [] "" None []))
                  end
              end
          end
      end
  end.

(** The runs that were adopted, and the ids of those that were left alone with the reason. *)
Fixpoint adopt_each (known : list Z) (now : Time) (l : list FoundRun) (adopted : list BackupRun) (skipped : list (Z * text)) : BM (outcome (list BackupRun * list (Z * text))) :=
  match l with
  | [] => done_ok (adopted, skipped)
  | f :: rest =>
      match backupKind (fr_Owner f) with
      | None => adopt_each known now rest adopted skipped
      | Some k =>
          if contains known (fr_ID f) then adopt_each known now rest adopted skipped else
          match adoptable f k now with
          | inl reason => adopt_each known now rest adopted (skipped ++ [(fr_ID f, reason)])%list
          | inr None => adopt_each known now rest adopted skipped
          | inr (Some run) =>
              get! new := failing (perform (BAdopt run)) in
              adopt_each known now rest (if new : bool then adopted ++ [backupView run] else adopted)%list skipped
          end
      end
  end.
Definition AdoptBackups (application : string) : BM (outcome (list BackupRun * list (Z * text))) :=
  if negb configured then refuse ErrBackupsDisabled else
  match (if String.eqb application "" then Ok tt else ValidateName application) with
  | Err e => refuse (Failure e)
  | Ok _ =>
      let! refused := prepareBackups in
      match refused with Some e => refuse (Failure e) | None =>
      get! known := failing (perform BRunIDs) in
      get! runs := failing (perform (BFound application)) in
      let! now := perform BNow in
      adopt_each known now runs [] []
      end
  end.
End Backups.
