(* ===== verification/BackupsInv.v ===== *)
(** * What backups do to an application, and retention to backups

    The programs of Backups.v against any world: the events they add to what
    happened, each with what happened before it. *)

From stdpp Require Import sorting.
From S2P Require Import Prelude GoStrings Effects GoTime SpecTypes SpecValidate SpecNames DeployState Store StoreInv Rollout BackupStore BackupStoreInv Backupfile Backups.
From Stdlib Require Import String.
Local Open Scope string_scope.
Local Open Scope Z_scope.

Abbreviation event := (Effects.happened banswer).
Abbreviation bstate := (Effects.St backupSchedule banswer).

(** ** Traces

    A trace whose every event is justified by the ones before it; newest first. *)

Section Traces.
Context (justified : event → list event → Prop).
Fixpoint trace (evs : list event) : Prop := match evs with [] => True | c :: past => justified c past ∧ trace past end.

(** A program that adds a trace to what happened, of which [X] holds. *)
Definition adds (h : list event) (X : list event → Prop) (s : bstate) : Prop := ∃ evs, s.2 = (evs ++ h)%list ∧ trace evs ∧ X evs.

Lemma trace_at e1 c e2 : trace (e1 ++ c :: e2) → justified c e2.
Proof. induction e1 as [|x l IH]; simpl; [by intros [H _]|]. intros [_ H]. by apply IH. Qed.
Lemma trace_in c evs : trace evs → c ∈ evs → ∃ past, justified c past ∧ ∀ x, x ∈ past → x ∈ evs.
Proof.
  intros Ht (e1 & e2 & ->)%list_elem_of_split. exists e2. split; [by eapply trace_at|]. intros x Hx. apply elem_of_app. right. by right.
Qed.

Context (world : list event → ∀ c, banswer c).
Lemma triple_event h c (X : list event → Prop) (Y : banswer c → list event → Prop) :
  (∀ a evs, X evs → justified (mk_happened c a) evs ∧ Y a (mk_happened c a :: evs)) →
  triple (adds h X) (Effects.perform (S := backupSchedule) world c) (λ a, adds h (Y a)).
Proof.
  intros H. apply (triple_perform (answer := banswer) world). intros s a (evs & E & Ht & HX). destruct (H a evs HX) as [Hj HY].
  exists (mk_happened c a :: evs). cbn. rewrite E. done.
Qed.
(** Events justified by nothing, after which what held of the trace holds. *)
Lemma triple_quiet {A} h R q (m : BM A) (X : list event → Prop) : calm R q m → (∀ c past, q c → justified c past) → (∀ c evs, q c → X evs → X (c :: evs)) →
  triple (adds h X) m (λ _, adds h X).
Proof.
  intros Hm Hq HX. eapply triple_calm; [exact Hm| |done]. intros s s' evs (e & E & Ht & Hx) _ Hf. exists (evs ++ e)%list. cbn. rewrite E, app_assoc.
  split; [done|]. induction evs as [|c evs IH]; [done|]. apply Forall_cons in Hf as [Hc Hf]. destruct (IH Hf) as [H1 H2]. cbn. split; [|by apply HX].
  split; [by apply Hq|done].
Qed.
Lemma adds_weaken h (X Y : list event → Prop) s : (∀ evs, X evs → Y evs) → adds h X s → adds h Y s.
Proof. intros H (evs & ? & ? & ?). exists evs. auto. Qed.
End Traces.

(** ** Retention *)

Definition with_status (status : string) (r : BackupRun) : bool := String.eqb (br_Status r) status.
Fixpoint condemned (keep succeeded failed : Z) (l : list BackupRun) : list BackupRun :=
  match l with
  | [] => []
  | r :: rest =>
      let here (over : bool) := if over && String.eqb (br_Activity r) "" then [r] else [] in
      if with_status BackupSucceeded r then (here (negb (succeeded + 1 <=? keep)) ++ condemned keep (succeeded + 1) failed rest)%list
      else if with_status BackupFailed r then (here (negb (failed + 1 <=? backupFailuresKept)) ++ condemned keep succeeded (failed + 1) rest)%list
      else condemned keep succeeded failed rest
  end.
Definition count (status : string) (l : list BackupRun) : Z := Z.of_nat (List.length (List.filter (with_status status) l)).

Lemma condemned_spec keep r l : ∀ succeeded failed, r ∈ condemned keep succeeded failed l → ∃ l1 l2, l = (l1 ++ r :: l2)%list ∧ br_Activity r = "" ∧
  (br_Status r = BackupSucceeded ∧ keep ≤ succeeded + count BackupSucceeded l1 ∨ br_Status r = BackupFailed ∧ backupFailuresKept ≤ failed + count BackupFailed l1).
Proof.
  induction l as [|x l IH]; intros succeeded failed; simpl; [by intros ?%elem_of_nil|].
  destruct (with_status BackupSucceeded x) eqn:Es; [|destruct (with_status BackupFailed x) eqn:Ef].
  - intros [H|H]%elem_of_app.
    + destruct (Z.leb_spec (succeeded + 1) keep); cbn [negb andb] in H; [by apply elem_of_nil in H|]. destruct (String.eqb_spec (br_Activity x) ""); [|by apply elem_of_nil in H].
      apply list_elem_of_singleton in H as ->. exists [], l. split_and!; [done..|]. left. split; [by apply String.eqb_eq|]. change (count BackupSucceeded []) with 0. lia.
    + destruct (IH _ _ H) as (l1 & l2 & -> & Ha & Hc). exists (x :: l1), l2. split_and!; [done..|]. unfold count in *. simpl. rewrite Es.
      assert (with_status BackupFailed x = false) as -> by (unfold with_status in *; apply String.eqb_eq in Es; by rewrite Es). cbn [List.length]. destruct Hc as [[? ?]|[? ?]]; [left|right]; (split; [done|lia]).
  - intros [H|H]%elem_of_app.
    + destruct (Z.leb_spec (failed + 1) backupFailuresKept); cbn [negb andb] in H; [by apply elem_of_nil in H|]. destruct (String.eqb_spec (br_Activity x) ""); [|by apply elem_of_nil in H].
      apply list_elem_of_singleton in H as ->. exists [], l. split_and!; [done..|]. right. split; [by apply String.eqb_eq|]. change (count BackupFailed []) with 0. lia.
    + destruct (IH _ _ H) as (l1 & l2 & -> & Ha & Hc). exists (x :: l1), l2. split_and!; [done..|]. unfold count in *. simpl. rewrite Es, Ef. cbn [List.length].
      destruct Hc as [[? ?]|[? ?]]; [left|right]; (split; [done|lia]).
  - intros H. destruct (IH _ _ H) as (l1 & l2 & -> & Ha & Hc). exists (x :: l1), l2. split_and!; [done..|]. unfold count in *. simpl. rewrite Es, Ef. done.
Qed.
Lemma condemned_complete keep r l1 l2 : ∀ succeeded failed, br_Activity r = "" →
  br_Status r = BackupSucceeded ∧ keep ≤ succeeded + count BackupSucceeded l1 ∨ br_Status r = BackupFailed ∧ backupFailuresKept ≤ failed + count BackupFailed l1 →
  r ∈ condemned keep succeeded failed (l1 ++ r :: l2).
Proof.
  induction l1 as [|x l1 IH]; intros succeeded failed Ha Hc; simpl.
  - unfold count, with_status in *. cbn in Hc. destruct Hc as [[-> Hc]|[-> Hc]]; rewrite Ha; cbn -[Z.leb Z.add].
    + destruct (Z.leb_spec (succeeded + 1) keep); [lia|]. by left.
    + destruct (Z.leb_spec (failed + 1) backupFailuresKept); [lia|]. by left.
  - unfold count in *. simpl in Hc. destruct (with_status BackupSucceeded x) eqn:Es; [|destruct (with_status BackupFailed x) eqn:Ef].
    + assert (with_status BackupFailed x = false) as Ef by (unfold with_status in *; apply String.eqb_eq in Es; by rewrite Es). rewrite Ef in Hc. cbn [List.length] in Hc.
      apply elem_of_app. right. apply IH; [done|]. destruct Hc as [[? ?]|[? ?]]; [left|right]; (split; [done|lia]).
    + cbn [List.length] in Hc. apply elem_of_app. right. apply IH; [done|]. destruct Hc as [[? ?]|[? ?]]; [left|right]; (split; [done|lia]).
    + by apply IH.
Qed.

(** The successes, or the failures, of the same owner that are newer than [r]. *)
Definition newer_ones (t : Backup_runs) (status : string) (r : BackupRun) : Z :=
  Z.of_nat (List.length (List.filter (λ x, String.eqb (br_Application x) (br_Application r) && with_status status x && (br_ID r <? br_ID x)) (runs t))).

#[local] Instance newer_trans : Transitive newer.
Proof. intros x y z. unfold newer. lia. Qed.
#[local] Instance newer_total : Total newer.
Proof. intros x y. unfold newer. lia. Qed.

Lemma lfilter_permutation {A} (f : A → bool) l k : Permutation l k → List.length (List.filter f l) = List.length (List.filter f k).
Proof. induction 1; simpl; repeat case_match; simpl; congruence. Qed.
Lemma lfilter_app {A} (f : A → bool) (l k : list A) : List.filter f (l ++ k)%list = (List.filter f l ++ List.filter f k)%list.
Proof. induction l as [|x l IH]; simpl; [done|]. rewrite IH. by destruct (f x). Qed.
Lemma lfilter_none {A} (f : A → bool) (l : list A) : (∀ x, x ∈ l → f x = false) → List.filter f l = [].
Proof. intros H. induction l as [|x l IH]; simpl; [done|]. rewrite H by by left. apply IH. intros y Hy. apply H. by right. Qed.
Lemma lfilter_ext {A} (f g : A → bool) (l : list A) : (∀ x, x ∈ l → f x = g x) → List.filter f l = List.filter g l.
Proof. intros H. induction l as [|x l IH]; simpl; [done|]. rewrite H by by left. rewrite IH; [done|]. intros y Hy. apply H. by right. Qed.
Lemma lfilter_lfilter {A} (f g : A → bool) (l : list A) : List.filter f (List.filter g l) = List.filter (λ x, g x && f x) l.
Proof. induction l as [|x l IH]; simpl; [done|]. destruct (g x); simpl; by rewrite IH. Qed.

Lemma listed t owner : ListBackupRuns t owner 0 = merge_sort newer (List.filter (λ r, String.eqb (br_Application r) owner) (runs t)).
Proof. done. Qed.
Lemma in_listed t owner r : r ∈ ListBackupRuns t owner 0 ↔ r ∈ runs t ∧ br_Application r = owner.
Proof. rewrite listed, merge_sort_Permutation, elem_of_lfilter, String.eqb_eq. done. Qed.
Lemma listed_distinct t owner : wf_runs t → NoDup (br_ID <$> ListBackupRuns t owner 0).
Proof. intros H. rewrite listed, merge_sort_Permutation. apply NoDup_lfilter, H. Qed.
Lemma listed_before t owner r l1 l2 status : wf_runs t → ListBackupRuns t owner 0 = (l1 ++ r :: l2)%list → count status l1 = newer_ones t status r.
Proof.
  intros Hw E. pose proof (listed_distinct t owner Hw) as Hd.
  assert (br_Application r = owner) as Ho by (apply (in_listed t owner r); rewrite E; apply elem_of_app; right; by left).
  pose proof (StronglySorted_merge_sort newer (List.filter (λ r, String.eqb (br_Application r) owner) (runs t))) as Hs. rewrite <- listed, E in Hs.
  rewrite E in Hd. rewrite fmap_app in Hd. apply NoDup_app in Hd as (_ & Hd1 & Hd2). cbn in Hd1, Hd2. apply NoDup_cons in Hd2 as [Hd2 _].
  unfold count, newer_ones. f_equal. rewrite Ho.
  transitivity (List.length (List.filter (λ x, with_status status x && (br_ID r <? br_ID x)) (ListBackupRuns t owner 0))).
  - rewrite E, lfilter_app, length_app. simpl. assert ((br_ID r <? br_ID r) = false) as -> by (apply Z.ltb_ge; lia). rewrite andb_false_r.
    rewrite (lfilter_none _ l2), Nat.add_0_r.
    + f_equal. apply lfilter_ext. intros x Hx. pose proof (StronglySorted_app_1_elem_of _ _ _ x r Hs Hx ltac:(by left)) as H. unfold newer in H.
      assert (br_ID x ≠ br_ID r) by (intros Ei; apply (Hd1 (br_ID x)); [by apply list_elem_of_fmap_2|rewrite Ei; by left]).
      assert ((br_ID r <? br_ID x) = true) as -> by (apply Z.ltb_lt; lia). by rewrite andb_true_r.
    + intros x Hx. apply StronglySorted_app_1_r, StronglySorted_cons in Hs as [H _]. pose proof (proj1 (Forall_forall _ _) H x Hx) as Hn. unfold newer in Hn.
      apply andb_false_iff. right. apply Z.ltb_ge. lia.
  - rewrite listed. rewrite (lfilter_permutation _ _ _ (merge_sort_Permutation newer _)), lfilter_lfilter. f_equal. apply lfilter_ext. intros x _. by rewrite andb_assoc.
Qed.

(** What retention lets go of: beyond the newest [keep] successes, beyond the twenty newest failures, and nothing in use. *)
Definition let_go (t : Backup_runs) (owner : string) (keep : Z) (r : BackupRun) : Prop :=
  r ∈ runs t ∧ br_Application r = owner ∧ br_Activity r = "" ∧
  (br_Status r = BackupSucceeded ∧ keep ≤ newer_ones t BackupSucceeded r ∨ br_Status r = BackupFailed ∧ 20 ≤ newer_ones t BackupFailed r).
Lemma condemned_let_go t owner keep r : wf_runs t → r ∈ condemned keep 0 0 (ListBackupRuns t owner 0) ↔ let_go t owner keep r.
Proof.
  intros Hw. split.
  - intros (l1 & l2 & E & Ha & Hc)%condemned_spec. assert (r ∈ ListBackupRuns t owner 0) as Hr by (rewrite E; apply elem_of_app; right; by left).
    apply in_listed in Hr as [Hr Ho]. split_and!; [done..|]. rewrite !(listed_before t owner r l1 l2) in Hc by done. unfold backupFailuresKept in Hc. destruct Hc as [[? ?]|[? ?]]; [left|right]; (split; [done|lia]).
  - intros (Hr & Ho & Ha & Hc). assert (r ∈ ListBackupRuns t owner 0) as (l1 & l2 & E)%list_elem_of_split by (by apply in_listed).
    rewrite E. apply condemned_complete; [done|]. rewrite !(listed_before t owner r l1 l2) by done. unfold backupFailuresKept. destruct Hc as [[? ?]|[? ?]]; [left|right]; (split; [done|lia]).
Qed.

Section Programs.
Context (world : list event → ∀ c, banswer c).

Definition removal (r : BackupRun) : BM unit :=
  mthen (removeBackup world r) (λ err, match err with Some e => Effects.perform world (BLog (L "could not remove an old backup; it is tried again after the next one" :: e)) | None => mret tt end).
Lemma mloop_app {A} (f : A → BM unit) l k s : mloop f (l ++ k)%list s = mthen (mloop f l) (λ _, mloop f k) s.
Proof. revert s. induction l as [|x l IH]; intros s; [done|]. cbn [mloop app]. unfold mthen at 1 2 3. destruct (f x s) as [u s1]. rewrite IH. done. Qed.
Lemma pruned owner keep l : ∀ succeeded failed s, prune_each world owner keep succeeded failed l s = mloop removal (condemned keep succeeded failed l) s.
Proof.
  assert (∀ r (over : bool) s, (if over then mret tt else prune_one world owner r) s = mloop removal (if negb over && String.eqb (br_Activity r) "" then [r] else []) s) as Hone.
  { intros r [] s; [done|]. unfold prune_one. destruct (String.eqb (br_Activity r) ""); [|done]. cbn [negb andb mloop]. unfold removal, mthen.
    destruct (removeBackup world r s) as [[e|] s']; [|done]. unfold Effects.perform. cbn. by destruct (world _ _). }
  induction l as [|r l IH]; intros succeeded failed s; [done|]. cbn [prune_each condemned]. unfold with_status.
  destruct (String.eqb (br_Status r) BackupSucceeded); [|destruct (String.eqb (br_Status r) BackupFailed)]; [..|apply IH];
    rewrite mloop_app, !then_eq, Hone; apply IH.
Qed.

(** What the removal of a backup does, and when. *)
Definition removes (C : BackupRun → Prop) (c : event) (past : list event) : Prop :=
  match what c with
  | BRemoveFiles owner id => ∃ r, C r ∧ owner = br_Application r ∧ id = br_ID r ∧ br_Status r ≠ BackupFailed
  | BDeleteRun id => ∃ r, C r ∧ id = br_ID r ∧ (br_Status r ≠ BackupFailed → mk_happened (answer := banswer) (BRemoveFiles (br_Application r) (br_ID r)) None ∈ past)
  | BListRuns _ _ | BLog _ | BInstallation | BPrepare _ | BReserve _ | BAbortLeftovers => True
  | _ => False
  end.
Definition readies (c : event) : Prop := match what c with BLog _ | BInstallation | BPrepare _ | BReserve _ | BAbortLeftovers => True | _ => False end.
Definition stays_prepared (b b' : backupSchedule) : Prop := prepared b = true → prepared b' = true.
#[local] Instance stays_prepared_preorder : PreOrder stays_prepared.
Proof. split; [by intros b H|]. intros a b c H1 H2 H. by apply H2, H1. Qed.
Lemma calm_prepare : calm stays_prepared readies (prepareBackups world).
Proof.
  unfold prepareBackups. calm. by apply (calm_set stays_prepared).
Qed.
Lemma removes_readies C c past : readies c → removes C c past.
Proof. unfold readies, removes. by destruct (what c). Qed.
Definition anything (evs : list event) : Prop := True.

(** Nothing but readying, then the files, then the record. *)
Lemma removal_traced C h r : C r → triple (adds (removes C) h anything) (removal r) (λ _, adds (removes C) h anything).
Proof.
  intros HC. unfold removal, removeBackup.
  apply (triple_then _ _ _ (λ _ : error, adds (removes C) h anything)).
  2:{ intros [e|]; [|by apply triple_ret]. by apply (triple_event _ world h (BLog _) anything (λ _, anything)). }
  apply (triple_then _ _ _ (λ err, adds (removes C) h (λ evs, err = None → br_Status r ≠ BackupFailed → mk_happened (answer := banswer) (BRemoveFiles (br_Application r) (br_ID r)) None ∈ evs))).
  - destruct (String.eqb_spec (br_Status r) BackupFailed) as [Ef|Ef].
    + apply triple_ret. intros s. apply adds_weaken. by intros evs _ _.
    + unfold removeBackupFiles. eapply triple_then; [apply (triple_quiet _ h stays_prepared readies); [apply calm_prepare|apply removes_readies|done]|].
      intros [e|]; [apply triple_ret; intros s; apply adds_weaken; by intros evs _|].
      apply (triple_event _ world h (BRemoveFiles _ _) anything (λ err evs, err = None → br_Status r ≠ BackupFailed → mk_happened (answer := banswer) (BRemoveFiles (br_Application r) (br_ID r)) None ∈ evs)).
      intros a evs _. split; [by exists r|]. intros -> _. by left.
  - intros [e|]; [apply triple_ret; intros s; by apply adds_weaken|].
    apply (triple_event _ world h (BDeleteRun _) _ (λ _, anything)). intros a evs HX. split; [|done]. exists r. split_and!; try done. by apply HX.
Qed.

(** Where the storage answers, a backup that goes is gone. *)
Lemma removal_removes r s : prepared s.1 = true → (∀ h, world h (BRemoveFiles (br_Application r) (br_ID r)) = None) →
  prepared (removal r s).2.1 = true ∧ ∃ a evs, (removal r s).2.2 = (evs ++ s.2)%list ∧ mk_happened (BDeleteRun (br_ID r)) a ∈ evs.
Proof.
  intros Hp Hw. unfold removal, removeBackup. rewrite !then_eq.
  assert (∃ h, ((if String.eqb (br_Status r) BackupFailed then mret None else removeBackupFiles world (br_Application r) (br_ID r)) : BM error) s = (None, (s.1, (h ++ s.2)%list))) as (h & ->).
  { destruct (String.eqb _ _); [exists []; by destruct s|]. unfold removeBackupFiles, prepareBackups. rewrite then_eq, then_get, Hp. cbn [mret fst snd].
    exists [mk_happened (answer := banswer) (BRemoveFiles (br_Application r) (br_ID r)) None]. unfold Effects.perform. rewrite Hw. by destruct s. }
  cbn [fst snd]. set (s1 := (s.1, (h ++ s.2)%list) : bstate).
  change (Effects.perform world (BDeleteRun (br_ID r)) s1) with
    (world s1.2 (BDeleteRun (br_ID r)), (s1.1, mk_happened (answer := banswer) (BDeleteRun (br_ID r)) (world s1.2 (BDeleteRun (br_ID r))) :: s1.2)).
  cbn [fst snd].
  assert (∀ (e : error) (s1 : bstate), ∃ l, (match e with Some e => Effects.perform world (BLog (L "could not remove an old backup; it is tried again after the next one" :: e)) | None => mret tt end) s1 = (tt, (s1.1, (l ++ s1.2)%list))) as Hlog.
  { intros [e|] [b l]; [|by exists []]. set (x := L _ :: e). exists [mk_happened (answer := banswer) (BLog x) (world l (BLog x))]. unfold Effects.perform. cbn. by destruct (world l (BLog x)). }
  match goal with |- context [(s1.1, ?c :: s1.2)] => destruct (Hlog (world s1.2 (BDeleteRun (br_ID r))) (s1.1, c :: s1.2)) as (l & ->) end. cbn [fst snd s1].
  split; [exact Hp|]. eexists _, (l ++ [mk_happened (answer := banswer) (BDeleteRun (br_ID r)) _] ++ h)%list. rewrite <- !app_assoc. split; [done|].
  apply elem_of_app. right. by left.
Qed.
Lemma removals_remove l r : ∀ s, prepared s.1 = true → r ∈ l → (∀ h owner id, world h (BRemoveFiles owner id) = None) →
  ∃ a evs, (mloop removal l s).2.2 = (evs ++ s.2)%list ∧ mk_happened (BDeleteRun (br_ID r)) a ∈ evs.
Proof.
  assert (∀ l s, prepared s.1 = true → (∀ h owner id, world h (BRemoveFiles owner id) = None) → ∃ evs, (mloop removal l s).2.2 = (evs ++ s.2)%list) as Hrest.
  { intros k. induction k as [|x k IH]; intros s Hp Hw; [by exists []|]. cbn [mloop]. rewrite then_eq. destruct (removal_removes x s Hp ltac:(done)) as (Hp' & a & evs & E & _).
    destruct (IH (removal x s).2 Hp' Hw) as (e2 & E2). exists (e2 ++ evs)%list. by rewrite E2, E, app_assoc. }
  induction l as [|x l IH]; intros s Hp Hr Hw; [by apply elem_of_nil in Hr|]. cbn [mloop]. rewrite then_eq. destruct (removal_removes x s Hp ltac:(done)) as (Hp' & a & evs & E & Hin).
  apply elem_of_cons in Hr as [->|Hr].
  - destruct (Hrest l (removal x s).2 Hp' Hw) as (e2 & E2). exists a, (e2 ++ evs)%list. rewrite E2, E, app_assoc. split; [done|]. apply elem_of_app. by right.
  - destruct (IH (removal x s).2 Hp' Hr Hw) as (a' & e2 & E2 & H2). exists a', (e2 ++ evs)%list. rewrite E2, E, app_assoc. split; [done|]. apply elem_of_app. by left.
Qed.
End Programs.

(** C20: retention goes by the listing it starts from: when that is what the database holds at the time, no file and no record is removed but of a successful
    backup of that owner with [keep] newer successful ones, or of a failed one with twenty newer failures, and of none that was being taken, verified, restored
    or removed when it was listed (one that is claimed after the listing is not spared); the record of a backup that kept files goes only after the storage removed them; and with a storage that answers, each of those records goes. *)
Theorem prune_keeps (world : list event → ∀ c, banswer c) (l : list statement) (owner : string) (keep : Z) (s : bstate) : Forall asked l →
  let t := after l no_runs in
  world s.2 (BListRuns owner 0) = inr (ListBackupRuns t owner 0) →
  let gone r := r ∈ runs t ∧ br_Application r = owner ∧ br_Activity r = "" ∧
    (br_Status r = BackupSucceeded ∧ keep ≤ newer_ones t BackupSucceeded r ∨ br_Status r = BackupFailed ∧ 20 ≤ newer_ones t BackupFailed r) in
  ∃ evs, (pruneBackups world owner keep s).2.2 = (evs ++ s.2)%list ∧
    (∀ o id a, mk_happened (BRemoveFiles o id) a ∈ evs → ∃ r, gone r ∧ o = owner ∧ id = br_ID r ∧ br_Status r = BackupSucceeded) ∧
    (∀ e1 e2 id a, evs = (e1 ++ mk_happened (BDeleteRun id) a :: e2)%list → ∃ r, gone r ∧ id = br_ID r ∧
       (br_Status r = BackupSucceeded → mk_happened (answer := banswer) (BRemoveFiles owner id) None ∈ e2)) ∧
    (prepared s.1 = true → (∀ h o id, world h (BRemoveFiles o id) = None) → ∀ r, gone r → ∃ a, mk_happened (BDeleteRun (br_ID r)) a ∈ evs).
Proof.
  intros Hl t Hw gone. assert (wf_runs t) as Ht by (by apply wf_after, wf_empty_runs).
  assert (∀ r, r ∈ condemned keep 0 0 (ListBackupRuns t owner 0) ↔ gone r) as Hg by (intros r; by apply condemned_let_go).
  set (s1 := (s.1, mk_happened (answer := banswer) (BListRuns owner 0) (inr (ListBackupRuns t owner 0)) :: s.2) : bstate).
  assert (pruneBackups world owner keep s = mloop (removal world) (condemned keep 0 0 (ListBackupRuns t owner 0)) s1) as ->.
  { unfold pruneBackups. rewrite then_perform, Hw. apply pruned. }
  assert (adds (removes gone) s.2 anything s1) as H1 by (exists [mk_happened (answer := banswer) (BListRuns owner 0) (inr (ListBackupRuns t owner 0))]; done).
  destruct (triple_loop (adds (removes gone) s.2 anything) (removal world) (condemned keep 0 0 (ListBackupRuns t owner 0))) with (s := s1) as (evs & E & Ht' & _);
    [intros x Hx; by apply removal_traced, Hg|exact H1|].
  exists evs. split_and!; [exact E|..].
  - intros o id a H. destruct (trace_in _ _ _ Ht' H) as (past & (r & Hr & -> & -> & Hf) & _). exists r. split_and!; try done; [apply Hr|].
    destruct Hr as (_ & _ & _ & [[? _]|[? _]]); [done|congruence].
  - intros e1 e2 id a ->. apply trace_at in Ht' as (r & Hr & -> & Hf). exists r. split_and!; try done. intros Hs. destruct Hr as (_ & <- & _). apply Hf. by rewrite Hs.
  - intros Hp Hok r Hr. destruct (removals_remove world _ r s1 Hp (proj2 (Hg r) Hr) Hok) as (a & e2 & E2 & Hin). exists a.
    rewrite E in E2. assert (evs = e2 ++ [mk_happened (answer := banswer) (BListRuns owner 0) (inr (ListBackupRuns t owner 0))])%list as ->.
    { apply (app_inv_tail s.2). rewrite E2. unfold s1. cbn. by rewrite <- app_assoc. }
    apply elem_of_app. by left.
Qed.

(** ** Taking a backup *)

#[local] Instance prepared_preorder : PreOrder stays_prepared.
Proof. split; [by intros b H|]. intros a b c H1 H2 H. by apply H2, H1. Qed.
Section Makes.
Context (ready : Prop).
(** What a program adds to what happened, with what it answers, from a state in which the destinations are prepared where they are meant to be; they stay so. *)
Definition makes {A} (m : BM A) (Q : A → list event → Prop) : Prop := ∀ s, (ready → prepared s.1 = true) → stays_prepared s.1 (m s).2.1 ∧ ∃ evs, (m s).2.2 = (evs ++ s.2)%list ∧ Q (m s).1 evs.
Lemma makes_calm {A} (q : event → Prop) (m : BM A) : calm stays_prepared q m → makes m (λ _, Forall q).
Proof. intros H s _. destruct (H s) as (Hp & evs & E & Hq). split; [done|]. by exists evs. Qed.
Lemma makes_then {A B} (m : BM A) (k : A → BM B) Q P : makes m Q → (∀ a, makes (k a) (P a)) →
  makes (mthen m k) (λ b evs, ∃ a e1 e2, evs = (e2 ++ e1)%list ∧ Q a e1 ∧ P a b e2).
Proof.
  intros Hm Hk s Hs. rewrite then_eq. destruct (Hm s Hs) as (Hp1 & e1 & E1 & H1). destruct (Hk (m s).1 (m s).2) as (Hp2 & e2 & E2 & H2); [intros Hr; by apply Hp1, Hs|].
  split; [by etrans|]. exists (e2 ++ e1)%list. rewrite E2, E1, app_assoc. split; [done|]. by exists (m s).1, e1, e2.
Qed.
Lemma makes_ret {A} (a : A) : makes (mret a) (λ b evs, b = a ∧ evs = []).
Proof. intros s _. split; [by intros ?|]. by exists []. Qed.
Lemma makes_weaken {A} (m : BM A) (Q P : A → list event → Prop) : makes m Q → (∀ a evs, Q a evs → P a evs) → makes m P.
Proof. intros H HQ s Hs. destruct (H s Hs) as (Hp & evs & E & Hq). split; [done|]. exists evs. auto. Qed.
Lemma makes_perform world c : makes (Effects.perform (S := backupSchedule) world c) (λ a evs, evs = [mk_happened c a]).
Proof. intros s _. split; [by intros ?|]. by exists [mk_happened c (world s.2 c)]. Qed.

(** Events that bear on one part of the claim. *)
Definition about_lock (c : event) : Prop :=
  match what c with BLock _ | BUnlock _ | BReleaseLock _ | BFinishRun _ _ | BRemoveFiles _ _ | BDeleteRun _ => True | _ => False end.
Definition works (c : event) : Prop :=
  match what c with
  | BStop _ | BStartNameless _ | BExportPath _ _ | BWrite _ _ _ _ | BExec _ _ _ | BCreateSide _ | BStart _ | BStopSide _ _ | BRemoveContainer _ _ | BInspect _ => True
  | _ => False
  end.
Definition stops (c : event) : option string := match what c with BStop id => Some id | _ => None end.
Definition inspects (c : event) : bool := match what c with BInspect _ => true | _ => false end.
Definition starts_again (id : string) (evs : list event) : Prop := ∃ a, mk_happened (answer := banswer) (BStartNameless id) a ∈ evs.

(** A replica that was looked at and then stopped is started again. *)
Definition restarted (evs : list event) : Prop := ∀ e1 id a e2, evs = (e1 ++ mk_happened (BStop id) a :: e2)%list →
  (∃ c, c ∈ e2 ∧ inspects c = true) → starts_again id e1.

Lemma restarted_split R M P (ids : list string) : Forall (λ c, stops c = None) R → (∀ id, id ∈ ids → starts_again id R) → Forall (λ c, ∀ id, stops c = Some id → id ∈ ids) M →
  Forall (λ c, inspects c = false) P → restarted (R ++ M ++ P).
Proof.
  intros HR Hs HM HP e1 id a e2 E (c & Hc & Hi).
  assert (∀ x l k, x :: e2 = l ++ k → Forall (λ c, inspects c = false) k → ∃ l', l = x :: l')%list as Hnot.
  { intros x [|y l] k Eq Hk; simpl in Eq; [|simplify_eq; by exists l]. subst k. apply Forall_cons in Hk as [_ Hk]. pose proof (proj1 (Forall_forall _ _) Hk c Hc). simpl in *. congruence. }
  assert (id ∈ ids → (∃ k, e1 = R ++ k)%list → starts_again id e1) as Hthen.
  { intros Hid (k & ->). destruct (Hs id Hid) as (a' & Ha'). exists a'. apply elem_of_app. by left. }
  assert (∃ k, e1 = R ++ k ∧ M ++ P = k ++ mk_happened (BStop id) a :: e2)%list as (k & -> & E2).
  { apply app_eq_inv in E as [(k & -> & Ek)|(k & -> & Ek)]; [|by exists k]. destruct k as [|y k]; [by exists []; rewrite !app_nil_r|].
    simpl in Ek. simplify_eq. apply Forall_app in HR as [_ HR]. by apply Forall_cons in HR as [? _]. }
  apply Hthen; [|by exists k]. apply app_eq_inv in E2 as [(l & -> & El)|(l & -> & El)].
  - destruct (Hnot _ _ _ El HP) as (l' & ->). apply Forall_app in HM as [_ HM]. apply Forall_cons in HM as [HM _]. by apply HM.
  - exfalso. subst P. apply Forall_app in HP as [_ HP]. apply Forall_cons in HP as [_ HP]. pose proof (proj1 (Forall_forall _ _) HP c Hc). simpl in *. congruence.
Qed.
Lemma restarted_nothing P : Forall (λ c, inspects c = false) P → restarted P.
Proof. intros H. apply (restarted_split [] [] P []); [constructor|by intros id ?%elem_of_nil|constructor|done]. Qed.

Section Taking.
Context (world : list event → ∀ c, banswer c).

(** The volumes of [l], written one after the other, with the sizes the storage answered. *)
Definition written (app : string) (id : Z) (evs : list event) (v : Volume) (b : BackupVolume) : Prop :=
  bv_Volume b = v_Name v ∧ ∃ archive container,
    mk_happened (answer := banswer) (BWrite app id (v_Name v ++ ".tar") archive) (inr (bv_SizeBytes b)) ∈ evs ∧ mk_happened (answer := banswer) (BExportPath container (v_Path v)) (inr archive) ∈ evs.
Definition writes (c : event) : Prop := match what c with BExportPath _ _ | BWrite _ _ _ _ => True | _ => False end.
Definition taken (d : Deployment) (run : BackupRun) (l : list Volume) (r : BackupRun * error) (evs : list event) : Prop :=
  (∃ volumes, r.1 = with_outcome run (br_Status run) (br_Volumes run ++ volumes)%list (br_Destinations run) (br_Encrypted run) (br_Error run) (br_CompletedAt run) ∧
     (r.2 = None → Forall2 (written (d_Application d) (br_ID run) evs) l volumes)).
Lemma written_more app id e1 e2 v b : (∀ x, x ∈ e1 → x ∈ e2) → written app id e1 v b → written app id e2 v b.
Proof. intros H (Hn & a & c & H1 & H2). split; [done|]. exists a, c. auto. Qed.
Lemma taken_more d run l r e1 e2 : (∀ x, x ∈ e1 → x ∈ e2) → taken d run l r e1 → taken d run l r e2.
Proof.
  intros H (volumes & E & Hw). exists volumes. split; [done|]. intros Hr. eapply Forall2_impl; [by apply Hw|]. intros v b. by apply written_more.
Qed.
Lemma taken_failed d run l e evs : taken d run l (run, Some e) evs.
Proof. exists []. rewrite app_nil_r. split; [by destruct run|done]. Qed.

Lemma write_volumes_makes d container l : ∀ run, makes (write_volumes world d container l run) (λ r evs, Forall writes evs ∧ taken d run l r evs).
Proof.
  induction l as [|v l IH]; intros run; cbn [write_volumes].
  - eapply makes_weaken; [apply makes_ret|]. intros r evs [-> ->]. split; [constructor|]. exists []. rewrite app_nil_r. split; [by destruct run|]. constructor.
  - eapply makes_weaken; [apply (makes_then _ _ (λ a evs, evs = [mk_happened (answer := banswer) (BExportPath container (v_Path v)) a])
      (λ a r evs, Forall writes evs ∧ match a with inl _ => ∃ e, r = (run, Some e) | inr archive =>
         (∃ e, r = (run, Some e)) ∨ ∃ n e1, evs = (e1 ++ [mk_happened (answer := banswer) (BWrite (d_Application d) (br_ID run) (v_Name v ++ archiveSuffix) archive) (inr n)])%list ∧
           taken d (with_volume run (v_Name v) n) l r e1 end)); [apply makes_perform|]|].
    + intros [e|archive]; [eapply makes_weaken; [apply makes_ret|]; intros r evs [-> ->]; split; [constructor|by eexists]|].
      eapply makes_weaken; [apply makes_then; [apply makes_perform|]|].
      * intros a. instantiate (1 := λ a r evs, Forall writes evs ∧ match a with inl e => ∃ e, r = (run, Some e) | inr n => taken d (with_volume run (v_Name v) n) l r evs end).
        destruct a as [e|n]; cbn beta iota; [eapply makes_weaken; [apply makes_ret|]; intros r evs [-> ->]; split; [constructor|by eexists]|]. apply IH.
      * intros r evs (a & e1 & e2 & -> & -> & Hf & Ha). split; [apply Forall_app; split; [done|by repeat constructor]|]. destruct a as [e|n]; [by left|]. right. by exists n, e2.
    + intros r evs (a & e1 & e2 & -> & -> & Hf & Ha). split; [apply Forall_app; split; [done|by repeat constructor]|].
      destruct a as [e|archive]; [destruct Ha as (e' & ->); apply taken_failed|]. destruct Ha as [(e & ->)|(n & e1 & -> & volumes & E & Hw)]; [apply taken_failed|].
      exists (mk_backup_volume (v_Name v) n :: volumes). split; [rewrite E; cbn; by rewrite <- app_assoc|]. intros Hr. constructor.
      * split; [done|]. exists archive, container. cbn. split; rewrite !elem_of_app; [left; right; by left|right; by left].
      * eapply Forall2_impl; [by apply Hw|]. intros v' b'. apply written_more. intros x Hx. rewrite !elem_of_app. by left; left.
Qed.

Definition before_event (c : event) : Prop :=
  match what c with BNow | BExec _ _ _ | BCreateSide _ | BStart _ | BWait _ _ | BOutput _ _ | BStopSide _ _ | BRemoveContainer _ _ | BCtxErr | BLog _ => True | _ => False end.
Lemma calm_before d replica run b : calm stays_prepared before_event (runBefore world d replica run b).
Proof. unfold runBefore, backupBeforeBeside, backupBefore, logged. calm. Qed.

Definition restart_event (c : event) : Prop := match what c with BStartNameless _ | BReset _ _ | BEvent _ _ _ | BSyncProxy _ => True | _ => False end.
Lemma calm_restart_one d r : calm stays_prepared restart_event (restart_one world d r).
Proof. unfold restart_one, backupEvent. calm. Qed.
Lemma restart_makes d l : makes (restart world d l) (λ _ evs, Forall restart_event evs ∧ ∀ id, id ∈ r_ContainerID <$> l → starts_again id evs).
Proof.
  assert (makes (mloop (restart_one world d) l) (λ _ evs, Forall restart_event evs ∧ ∀ id, id ∈ r_ContainerID <$> l → starts_again id evs)) as Hl.
  { induction l as [|r l IH]; cbn [mloop].
    - eapply makes_weaken; [apply makes_ret|]. intros u evs [_ ->]. split; [constructor|]. by intros id ?%elem_of_nil.
    - eapply makes_weaken; [apply (makes_then _ _ (λ _ evs, Forall restart_event evs ∧ starts_again (r_ContainerID r) evs)); [|intros u; exact IH]|].
      + eapply makes_weaken; [apply makes_then; [apply makes_perform|intros a; eapply (makes_calm restart_event); unfold backupEvent; calm]|].
        cbn beta. intros u evs (a & e1 & e2 & -> & -> & Hf). split; [apply Forall_app; split; [done|by repeat constructor]|]. exists a. apply elem_of_app. right. by left.
      + intros u evs (u1 & e1 & e2 & -> & [H1 H2] & H3 & H4). split; [by apply Forall_app|]. intros id [-> |Hid]%elem_of_cons.
        * destruct H2 as (a & Ha). exists a. apply elem_of_app. by right.
        * destruct (H4 id Hid) as (a & Ha). exists a. apply elem_of_app. by left. }
  unfold restart. eapply makes_weaken; [apply makes_then; [exact Hl|intros u; eapply (makes_calm restart_event); unfold backupEvent; calm]|].
  cbn beta. intros u evs (u1 & e1 & e2 & -> & [H1 H2] & H3). split; [by apply Forall_app|]. intros id Hid. destruct (H2 id Hid) as (a & Ha). exists a. apply elem_of_app. by right.
Qed.

Definition stop_event (ids : list string) (c : event) : Prop := match what c with BStop id => id ∈ ids | BSyncProxy _ => True | _ => False end.
Lemma calm_stop_each l ids : (∀ r, r ∈ l → r_ContainerID r ∈ ids) → calm stays_prepared (stop_event ids) (stop_each world l).
Proof.
  induction l as [|r l IH]; intros H; cbn [stop_each]; [apply calm_ret; exact _|]. apply calm_then; [exact _| |].
  - apply (calm_perform (answer := banswer) world); [exact _|]. intros a. apply H. by left.
  - intros a. apply calm_then; [exact _|apply IH; intros x Hx; apply H; by right|]. intros b. apply calm_ret. exact _.
Qed.
Lemma still_running_makes l : makes (still_running world l) (λ k evs, Forall (λ c, ∃ id, what c = BInspect id) evs).
Proof.
  induction l as [|r l IH]; cbn [still_running]; [eapply makes_weaken; [apply makes_ret|]; intros k evs [_ ->]; constructor|].
  eapply makes_weaken; [apply makes_then; [apply makes_perform|intros a; apply makes_then; [exact IH|intros k; apply makes_ret]]|].
  cbn beta. intros k evs (a & e1 & e2 & -> & -> & k' & e3 & e4 & -> & H & _ & ->). apply Forall_app. split; [done|]. repeat constructor. by eexists.
Qed.

(** stopForBackup, and after it. *)
Lemma stopForBackup_makes d l : makes (stopForBackup world d l) (λ r evs, ∃ M P, evs = (M ++ P)%list ∧ Forall (stop_event (r_ContainerID <$> r.1)) M ∧ Forall (λ c, ∃ id, what c = BInspect id) P).
Proof.
  unfold stopForBackup. eapply makes_weaken; [apply makes_then; [apply still_running_makes|]|].
  - intros k. apply (makes_then _ _ (λ _, Forall (stop_event (r_ContainerID <$> k)))); [eapply makes_calm, calm_stop_each; intros r Hr; by apply list_elem_of_fmap_2|].
    intros e. apply (makes_then _ _ (λ _, Forall (stop_event (r_ContainerID <$> k)))); [apply makes_calm; calm|]. intros u. apply makes_ret.
  - cbn beta. intros r evs (k & e1 & e2 & -> & H1 & e & e3 & e4 & -> & H3 & u & e5 & e6 & -> & H5 & -> & ->). exists (e5 ++ e3)%list, e1. cbn. by rewrite Forall_app.
Qed.

(** One fact of every event, case by case. *)
Ltac each_event H := eapply Forall_impl; [exact H|]; cbn beta; intros [c ?]; unfold about_lock, stops, inspects, writes, before_event, restart_event, stop_event; cbn; destruct c; cbn; intros; first [done|tauto].

Definition took (d : Deployment) (run : BackupRun) (r : BackupRun * error) (evs : list event) : Prop :=
  Forall (λ c, ¬ about_lock c) evs ∧ taken d run (a_Volumes (d_Spec d)) r evs ∧ restarted evs.
Lemma took_no_stop d run r W B : Forall writes W → Forall before_event B → taken d run (a_Volumes (d_Spec d)) r W → ∀ a, took d run r (W ++ B ++ [mk_happened (BListReplicas (d_ID d)) a])%list.
Proof.
  intros HW HB Ht a. split_and!.
  - apply Forall_app. split; [each_event HW|]. apply Forall_app. split; [each_event HB|]. repeat constructor. by intros ?.
  - eapply taken_more; [|exact Ht]. intros x Hx. apply elem_of_app. by left.
  - apply restarted_nothing. apply Forall_app. split; [each_event HW|]. apply Forall_app. split; [each_event HB|]. by repeat constructor.
Qed.
Lemma took_stopped d run r ids R W M P B : Forall restart_event R → (∀ id, id ∈ ids → starts_again id R) → Forall writes W → Forall (stop_event ids) M →
  Forall (λ c, ∃ id, what c = BInspect id) P → Forall before_event B → taken d run (a_Volumes (d_Spec d)) r W →
  ∀ a, took d run r (R ++ (W ++ M ++ P) ++ B ++ [mk_happened (BListReplicas (d_ID d)) a])%list.
Proof.
  intros HR Hs HW HM HP HB Ht a.
  assert (Forall (λ c, ¬ about_lock c) P) as HP1 by (eapply Forall_impl; [exact HP|]; intros [c y] [id E]; cbn in E; subst c; by intros ?).
  assert (Forall (λ c, ∀ id, stops c = Some id → id ∈ ids) P) as HP2 by (eapply Forall_impl; [exact HP|]; intros [c y] [id E]; cbn in E; by subst c).
  split_and!.
  - rewrite !Forall_app. split_and!; [each_event HR|each_event HW|each_event HM|done|each_event HB|]. repeat constructor. by intros ?.
  - eapply taken_more; [|exact Ht]. intros x Hx. rewrite !elem_of_app. by right; left; left.
  - apply (restarted_split _ _ _ ids); [each_event HR|done| |].
    + rewrite !Forall_app. split_and!; [each_event HW| |exact HP2]. eapply Forall_impl; [exact HM|]. intros [c y] Hc id E. unfold stops in E. cbn in E. destruct c; try done. by simplify_eq.
    + rewrite !Forall_app. split_and!; [each_event HB|by repeat constructor].
Qed.

Lemma takeBackup_makes d run : makes (takeBackup world d run) (took d run).
Proof.
  unfold takeBackup. eapply makes_weaken; [apply makes_then; [apply makes_perform|]|].
  - intros a. instantiate (1 := λ a r evs, took d run r (evs ++ [mk_happened (answer := banswer) (BListReplicas (d_ID d)) a])%list).
    destruct a as [e|[|first others]]; cbn beta iota.
    + eapply makes_weaken; [apply makes_ret|]. intros r evs [-> ->]. apply (took_no_stop d run _ [] []); [constructor|constructor|apply taken_failed].
    + eapply makes_weaken; [apply makes_ret|]. intros r evs [-> ->]. apply (took_no_stop d run _ [] []); [constructor|constructor|apply taken_failed].
    + cbv zeta. destruct (a_Backups (d_Spec d)) as [b|].
      2:{ eapply makes_weaken; [apply write_volumes_makes|]. intros r evs [HW Ht]. by apply (took_no_stop d run r evs []); [|constructor|]. }
      assert (makes (match bk_Before b with [] => mret None | _ => runBefore world d (r_ContainerID first) run b end) (λ _, Forall before_event)) as Hbefore.
      { apply makes_calm. destruct (bk_Before b); [apply calm_ret; exact _|apply calm_before]. }
      eapply makes_weaken; [apply makes_then; [exact Hbefore|]|].
      * intros err. instantiate (1 := λ err r evs, ∀ B, Forall before_event B → took d run r (evs ++ B ++ [mk_happened (answer := banswer) (BListReplicas (d_ID d)) (inr (first :: others))])%list).
        destruct err as [e|]; cbn beta iota.
        { eapply makes_weaken; [apply makes_ret|]. intros r evs [-> ->] B HB. apply (took_no_stop d run _ []); [constructor|done|apply taken_failed]. }
        destruct (bk_Stop b); cbn [negb].
        2:{ eapply makes_weaken; [apply write_volumes_makes|]. intros r evs [HW Ht] B HB. by apply took_no_stop. }
        eapply makes_weaken; [apply makes_then; [apply stopForBackup_makes|]|].
        -- intros stopped. apply (makes_then _ _ (λ r evs, Forall writes evs ∧ taken d run (a_Volumes (d_Spec d)) r evs)).
           ++ destruct stopped.2; [|apply write_volumes_makes]. eapply makes_weaken; [apply makes_ret|]. intros r evs [-> ->]. split; [constructor|apply taken_failed].
           ++ intros r. apply makes_then; [apply restart_makes|]. intros u. apply makes_ret.
        -- cbn beta. intros r evs (stopped & e1 & e2 & -> & (M & P & -> & HM & HP) & r1 & e3 & e4 & -> & [HW Ht] & u & e5 & e6 & -> & [HR Hs] & -> & ->) B HB.
           pose proof (took_stopped d run r1 (r_ContainerID <$> stopped.1) e5 e3 M P B HR Hs HW HM HP HB Ht (inr (first :: others))) as H.
           cbn [app]. rewrite <- !app_assoc in *. exact H.
      * cbn beta. intros r evs (err & e1 & e2 & -> & HB & H). rewrite <- app_assoc. by apply H.
  - cbn beta. by intros r evs (a & e1 & e2 & -> & -> & H).
Qed.

(** ** Its end *)

Context (Encrypted : bool) (Destinations : list string).
Definition finish_event (c : event) : Prop := match what c with BClosing | BNow | BLog _ | BInstallation | BPrepare _ | BReserve _ | BAbortLeftovers => True | _ => False end.
Definition follow_event (c : event) : Prop :=
  match what c with
  | BClosing | BLog _ | BEvent _ _ _ | BNotify _ _ | BListRuns _ _ | BRemoveFiles _ _ | BDeleteRun _ | BInstallation | BPrepare _ | BReserve _ | BAbortLeftovers => True
  | _ => False
  end.
Lemma calm_prepare_follow : calm stays_prepared follow_event (prepareBackups world).
Proof. unfold prepareBackups. calm. by apply (calm_set stays_prepared). Qed.
Lemma calm_prune_each owner keep l : ∀ succeeded failed, calm stays_prepared follow_event (prune_each world owner keep succeeded failed l).
Proof.
  induction l as [|r l IH]; intros succeeded failed; cbn [prune_each]; [calm|].
  assert (∀ b : bool, calm stays_prepared follow_event (if b then mret tt else prune_one world owner r)) as Hone.
  { intros []; [calm|]. unfold prune_one, removeBackup, removeBackupFiles. pose proof calm_prepare_follow. calm. }
  destruct (String.eqb _ BackupSucceeded); [|destruct (String.eqb _ BackupFailed); [|apply IH]]; (apply calm_then; [exact _|apply Hone|intros; apply IH]).
Qed.
Lemma calm_prune owner keep : calm stays_prepared follow_event (pruneBackups world owner keep).
Proof. pose proof calm_prune_each. unfold pruneBackups. calm. Qed.
Lemma calm_prepare_finish : calm stays_prepared finish_event (prepareBackups world).
Proof. unfold prepareBackups. calm. by apply (calm_set stays_prepared). Qed.

Definition log_event (c : event) : Prop := match what c with BLog _ => True | _ => False end.
Lemma logged_makes prefix c (f : banswer c → error) (m : BM error) : makes m (λ r evs, ∃ a, r = f a ∧ evs = [mk_happened c a]) →
  makes (logged world prefix m) (λ _ evs, ∃ a e, evs = (e ++ [mk_happened c a])%list ∧ Forall log_event e).
Proof.
  intros H. unfold logged. eapply makes_weaken; [apply makes_then; [exact H|]|].
  - intros [e|]; [eapply makes_weaken; [apply makes_perform|]|eapply makes_weaken; [apply makes_ret|]].
    + intros u evs ->. instantiate (1 := λ _ _, Forall log_event). cbn. repeat constructor.
    + by intros u evs [_ ->].
  - cbn beta. intros u evs (r & e1 & e2 & -> & (a & _ & ->) & Hf). by exists a, e2.
Qed.

Definition ending_event (run : BackupRun) (failure : error) (c : event) : Prop :=
  finish_event c ∨ failure ≠ None ∧ what c = BRemoveFiles (br_Application run) (br_ID run).
Definition recorded_between (run : BackupRun) (failure : error) (evs : list event) : Prop :=
  ∃ closing now a mid post, evs = (post ++ mk_happened (answer := banswer) (BFinishRun (ended_run Destinations run failure closing Encrypted) now) a :: mid)%list ∧
    Forall (ending_event run failure) mid ∧ Forall follow_event post ∧
    (ready → failure ≠ None → ∃ a, mk_happened (answer := banswer) (BRemoveFiles (br_Application run) (br_ID run)) a ∈ mid).
Lemma calm_remove_failed run e : calm stays_prepared (ending_event run (Some e)) (remove_failed world run).
Proof.
  assert (calm stays_prepared (ending_event run (Some e)) (prepareBackups world)) as Hp.
  { intros s. destruct (calm_prepare_finish s) as (H & evs & E & Hf). split; [done|]. exists evs. split; [done|]. eapply Forall_impl; [exact Hf|]. intros c Hc. by left. }
  unfold remove_failed, logged, removeBackupFiles. apply calm_then; [exact _|apply calm_get; exact _|]. intros [|]; [|apply calm_ret; exact _].
  apply calm_then; [exact _| |].
  - apply calm_then; [exact _|exact Hp|]. intros [x|]; [apply calm_ret; exact _|]. apply (calm_perform (answer := banswer) world); [exact _|]. intros a. by right.
  - intros [x|]; [|apply calm_ret; exact _]. apply (calm_perform (answer := banswer) world); [exact _|]. intros a. by left.
Qed.
Lemma ended_closing run failure closing : failure = None → ended_run Destinations run failure closing Encrypted = ended_run Destinations run None false Encrypted.
Proof. by intros ->. Qed.

(** A failed one keeps nothing. *)
Lemma remove_failed_makes run e : makes (remove_failed world run) (λ _ evs, Forall (ending_event run (Some e)) evs ∧
  (ready → ∃ a, mk_happened (answer := banswer) (BRemoveFiles (br_Application run) (br_ID run)) a ∈ evs)).
Proof.
  intros s Hs. destruct (calm_remove_failed run e s) as (Hp & evs & E & Hf). split; [done|]. exists evs. split_and!; [done..|]. intros Hr.
  unfold remove_failed in E. rewrite then_get, (Hs Hr) in E. unfold logged, removeBackupFiles, prepareBackups in E. rewrite then_eq, (then_eq (mthen _ _)), then_get, (Hs Hr) in E.
  cbn [mret fst snd] in E. unfold Effects.perform at 1 3 in E. cbn [fst snd] in E. set (a := world s.2 (BRemoveFiles _ _)) in *. exists a.
  destruct a as [x|]; unfold Effects.perform in E; cbn in E; [apply (app_inv_tail s.2 [_; _] evs) in E|apply (app_inv_tail s.2 [_] evs) in E]; rewrite <- E; [right|]; by left.
Qed.

Lemma finishBackup_makes d run failure : makes (finishBackup world Encrypted Destinations d run failure) (λ _, recorded_between run failure).
Proof.
  unfold finishBackup. set (keep := match a_Backups (d_Spec d) with Some b => bk_Keep b | None => DefaultBackupKeep end).
  eapply makes_weaken; [apply (makes_then _ _ (λ _, Forall finish_event)); [destruct failure; eapply makes_calm; calm|]|].
  - intros closing. apply (makes_then _ _ (λ _ evs, Forall (ending_event run failure) evs ∧
      (ready → failure ≠ None → ∃ a, mk_happened (answer := banswer) (BRemoveFiles (br_Application run) (br_ID run)) a ∈ evs))); [|intros u1; apply makes_then; [apply makes_perform|]].
    + destruct failure as [e|]; [|eapply makes_weaken; [apply makes_ret|]; intros u evs [_ ->]; by split].
      eapply makes_weaken; [exact (remove_failed_makes (ended_run Destinations run (Some e) closing Encrypted) e)|]. cbn beta. intros u evs [H1 H2]. split; [exact H1|]. intros Hr _. exact (H2 Hr).
    + intros now. apply makes_then; [eapply (logged_makes _ (BFinishRun _ now) (λ a, a)); eapply makes_weaken; [apply makes_perform|by intros a evs ->; exists a]|].
      intros u2. eapply makes_calm. instantiate (1 := follow_event). apply calm_then; [exact _| |intros u3; apply calm_prune].
      unfold backupEvent. destruct failure; calm.
  - cbn beta. intros u evs (closing & e1 & e2 & -> & H1 & u1 & e3 & e4 & -> & [H3 Hg] & now & e5 & e6 & -> & -> & u2 & e7 & e8 & -> & (a & e9 & -> & H9) & H8).
    exists closing, now, a, ([mk_happened BNow now] ++ e3 ++ e1)%list, (e8 ++ e9)%list. split; [cbn; by rewrite <- !app_assoc|]. split_and!.
    + rewrite !Forall_app. split_and!; [repeat constructor; by left|done|]. eapply Forall_impl; [exact H1|]. intros c Hc. by left.
    + apply Forall_app. split; [done|]. eapply Forall_impl; [exact H9|]. intros [c x]. by destruct c.
    + intros Hr Hf. destruct (Hg Hr Hf) as (x & Hx). exists x. rewrite !elem_of_app. by right; left.
Qed.
End Taking.
End Makes.

(** Events that leave an application's containers and its lock alone. *)
Definition leaves_alone (c : event) : Prop := ¬ works c ∧ match what c with BLock _ | BUnlock _ | BReleaseLock _ | BFinishRun _ _ => False | _ => True end.

(** C16: however a backup goes and whatever the world answers, it ends: its lock is released once, after the last that is done to the application and before the
    record is finished; it is recorded as a success only when the archive of every volume of the application was read and written, in their order and with the sizes
    the storage answered, and then nothing of it is removed; otherwise it is recorded as failed, without archives, after its files were removed; a replica that was
    found running and stopped is started again; and the operation is over at the end. *)
Theorem backup_ends (world : list event → ∀ c, banswer c) (Encrypted : bool) (Destinations : list string) (d : Deployment) (run : BackupRun) (refused : error) (s : bstate) :
  br_Volumes run = [] →
  ∃ taking mid post ended now a,
    (backup_goroutine world Encrypted Destinations d run refused s).2.2 =
      (mk_happened (answer := banswer) BOpDone tt :: post ++ mk_happened (answer := banswer) (BFinishRun ended now) a :: mid ++ mk_happened (answer := banswer) (BReleaseLock (d_Application d)) tt :: taking ++ s.2)%list ∧
    Forall (λ c, ¬ about_lock c) taking ∧ Forall leaves_alone mid ∧ Forall leaves_alone post ∧
    br_ID ended = br_ID run ∧ br_Application ended = br_Application run ∧
    (refused = None ∧ br_Status ended = BackupSucceeded ∧ br_Destinations ended = Destinations ∧
       Forall2 (λ v b, bv_Volume b = v_Name v ∧ ∃ archive container,
         mk_happened (answer := banswer) (BWrite (d_Application d) (br_ID run) (v_Name v ++ ".tar") archive) (inr (bv_SizeBytes b)) ∈ taking ∧
         mk_happened (answer := banswer) (BExportPath container (v_Path v)) (inr archive) ∈ taking) (a_Volumes (d_Spec d)) (br_Volumes ended) ∧
       (∀ o i x, mk_happened (answer := banswer) (BRemoveFiles o i) x ∉ mid)
     ∨ br_Status ended = BackupFailed ∧ br_Volumes ended = [] ∧
       (prepared s.1 = true → ∃ x, mk_happened (answer := banswer) (BRemoveFiles (br_Application run) (br_ID run)) x ∈ mid)) ∧
    (∀ e1 id x e2, taking = (e1 ++ mk_happened (answer := banswer) (BStop id) x :: e2)%list → (∃ i y, mk_happened (answer := banswer) (BInspect i) y ∈ e2) →
       ∃ y, mk_happened (answer := banswer) (BStartNameless id) y ∈ e1).
Proof.
  intros Hv. set (ready := prepared s.1 = true).
  assert (makes ready (backup_goroutine world Encrypted Destinations d run refused) (λ _ evs, ∃ r taking fin, evs =
    (mk_happened (answer := banswer) BOpDone tt :: fin ++ mk_happened (answer := banswer) (BReleaseLock (d_Application d)) tt :: taking)%list ∧
    took d run r taking ∧ (refused ≠ None → r.2 ≠ None) ∧ recorded_between ready Encrypted Destinations r.1 r.2 fin)) as H.
  { unfold backup_goroutine. eapply makes_weaken; [apply (makes_then _ _ _ (λ r evs, took d run r evs ∧ (refused ≠ None → r.2 ≠ None)))|].
    - destruct refused as [e|]; [eapply makes_weaken; [apply makes_ret|]; intros r evs [-> ->]|eapply makes_weaken; [apply takeBackup_makes|]; by intros r evs H].
      split; [|done]. split_and!; [constructor|apply taken_failed|by apply restarted_nothing].
    - intros r. apply makes_then; [apply makes_perform|]. intros u1. apply makes_then; [apply finishBackup_makes|]. intros u2. apply makes_perform.
    - cbn beta. intros u evs (r & e1 & e2 & -> & [H1 H2] & u1 & e3 & e4 & -> & -> & u2 & e5 & e6 & -> & H5 & ->).
      exists r, e1, e5. destruct u1, u. split; [by cbn; rewrite <- !app_assoc|done]. }
  destruct (H s ltac:(done)) as (_ & evs & E & r & taking & fin & -> & (Hl & (volumes & Er & Hw) & Hst) & Hr & closing & now & a & mid & post & -> & Hmid & Hpost & Hgone).
  exists taking, mid, post, (ended_run Destinations r.1 r.2 closing Encrypted), now, a.
  assert (br_ID r.1 = br_ID run ∧ br_Application r.1 = br_Application run) as [Hid Happ] by (rewrite Er; done).
  split_and!; try done.
  - rewrite E. cbn. by rewrite <- !app_assoc.
  - eapply Forall_impl; [exact Hmid|]. intros [c x] [Hc|[_ Hc]]; [destruct c; try done; (split; [by intros ?|done])|]. cbn in Hc. subst c. split; [by intros ?|done].
  - eapply Forall_impl; [exact Hpost|]. intros [c x] Hc. destruct c; try done; (split; [by intros ?|done]).
  - destruct r.2; done.
  - destruct r.2; done.
  - destruct r.2 as [e|] eqn:E2.
    + right. split_and!; [done..|]. intros Hp. rewrite <- Hid, <- Happ. by apply Hgone.
    + left. split_and!; [by destruct refused; [destruct Hr|]|done|done| |].
      * cbn. rewrite Er. cbn. rewrite Hv. cbn. by apply Hw.
      * intros o i x Hx. pose proof (proj1 (Forall_forall _ _) Hmid _ Hx) as [Hf|[Hf _]]; done.
  - intros e1 id x e2 -> (i & y & Hy). apply (Hst e1 id x e2 eq_refl). by exists (mk_happened (answer := banswer) (BInspect i) y).
Qed.

(** ** Restoring *)

Lemma triple_bind {A B} P (m : BM (outcome A)) (k : A → BM (outcome B)) Q' (Q : outcome B → bstate → Prop) :
  triple P m (λ r s, match r with inl e => Q (inl e) s | inr a => Q' a s end) → (∀ a, triple (Q' a) (k a) Q) → triple P (bind_outcome m k) Q.
Proof. intros Hm Hk. unfold bind_outcome. eapply triple_then; [exact Hm|]. intros [e|a]; [by apply triple_ret|apply Hk]. Qed.
Lemma triple_known {A I} (P : I → bstate → Prop) (F : I → Prop) (m : BM A) Q : (∀ i, F i → triple (P i) m Q) → triple (λ s, ∃ i, F i ∧ P i s) m Q.
Proof. intros H s (i & Hi & Hs). by apply (H i). Qed.

Section Restoring.
Context (world : list event → ∀ c, banswer c) (name volume archive : string).

Definition unlocks (c : event) : Prop := match what c with BUnlock _ => True | _ => False end.
Definition locked_now (evs : list event) : Prop := mk_happened (answer := banswer) (BLock name) None ∈ evs ∧ Forall (λ c, ¬ unlocks c) evs.
Definition not_up (a : or_error Container) : Prop := match a with inl _ => True | inr c => c_Running c = false end.
(** The application is recorded as stopped, and none of its replicas runs, by what was read under the lock. *)
Definition at_rest (evs : list event) (replicas : list Replica) : Prop :=
  locked_now evs ∧
  (∃ app, mk_happened (answer := banswer) (BGetApplication name) (inr app) ∈ evs ∧ app_DesiredState app = DesiredStopped) ∧
  (∃ id, mk_happened (answer := banswer) (BListReplicas id) (inr replicas) ∈ evs) ∧
  (∀ r, r ∈ replicas → ∃ a, mk_happened (answer := banswer) (BInspect (r_ContainerID r)) a ∈ evs ∧ not_up a).
Definition restores (c : event) (past : list event) : Prop :=
  match what c with
  | BRetire id => ∃ replicas, at_rest past replicas ∧ id ∈ r_ContainerID <$> replicas
  | BRemoveVolume app v => app = name ∧ v = volume ∧
      ∃ replicas, at_rest past replicas ∧ ∀ r, r ∈ replicas → mk_happened (answer := banswer) (BRetire (r_ContainerID r)) None ∈ past
  | BCreateReplicas _ _ => locked_now past ∧ mk_happened (answer := banswer) (BRemoveVolume name volume) None ∈ past
  | BImportPath container _ what => what = archive ∧ locked_now past ∧ mk_happened (answer := banswer) (BRemoveVolume name volume) None ∈ past ∧
      ∃ d l rest c, mk_happened (answer := banswer) (BCreateReplicas d l) (inr (c :: rest)) ∈ past ∧ container = r_ContainerID c
  | BUnlock app => app = name ∧ locked_now past
  | BLock _ => past = []
  | BGetApplication _ | BGetDeployment _ | BListReplicas _ | BInspect _ | BEvent _ _ _ => locked_now past
  | _ => False
  end.
(** The lock is held and [K] has happened. *)
Definition knows (K evs : list event) : Prop := locked_now evs ∧ ∀ c, c ∈ K → c ∈ evs.
Local Abbreviation during K := (adds restores [] (knows K)).
Context (h : list event).
Definition so_far (K : list event) : bstate → Prop := adds restores h (knows K).

Lemma knows_more K c evs : knows K evs → ¬ unlocks c → knows (c :: K) (c :: evs).
Proof.
  intros [[Hl Hu] HK] Hc. split; [split; [by right|by constructor]|]. intros x [-> |Hx]%elem_of_cons; [by left|]. right. by apply HK.
Qed.
Lemma known_event K c : (∀ a, ¬ unlocks (mk_happened (answer := banswer) c a)) → (∀ a past, knows K past → restores (mk_happened c a) past) →
  triple (so_far K) (Effects.perform world c) (λ a, so_far (mk_happened c a :: K)).
Proof.
  intros Hu HJ. apply (triple_event restores world h c (knows K) (λ a, knows (mk_happened c a :: K))). intros a evs HK. split; [by apply HJ|]. apply knows_more; [done|apply Hu].
Qed.
Lemma so_far_less K K' s : (∀ c, c ∈ K' → c ∈ K) → so_far K s → so_far K' s.
Proof. intros H. apply adds_weaken. intros evs [Hl HK]. split; [done|]. intros c Hc. by apply HK, H. Qed.

Lemma any_running_known l : ∀ K, triple (so_far K) (any_running world l) (λ up s, ∃ K', ((∀ c, c ∈ K → c ∈ K') ∧
  (up = false → ∀ r, r ∈ l → ∃ a, mk_happened (answer := banswer) (BInspect (r_ContainerID r)) a ∈ K' ∧ not_up a)) ∧ so_far K' s).
Proof.
  induction l as [|r l IH]; intros K; cbn [any_running].
  - apply triple_ret. intros s Hs. exists K. split; [|done]. split; [done|]. by intros _ r ?%elem_of_nil.
  - eapply triple_then; [apply known_event; [by intros a ?|by intros a past [? _]]|]. intros a.
    assert (not_up a → triple (so_far (mk_happened (BInspect (r_ContainerID r)) a :: K)) (any_running world l) (λ up s, ∃ K', ((∀ c, c ∈ K → c ∈ K') ∧
      (up = false → ∀ r0, r0 ∈ r :: l → ∃ a, mk_happened (answer := banswer) (BInspect (r_ContainerID r0)) a ∈ K' ∧ not_up a)) ∧ so_far K' s)) as Hrest.
    { intros Ha. eapply triple_conseq; [apply IH|done|]. intros up s (K' & [Hk Hr] & Hs). exists K'. split; [|done]. split; [intros c Hc; apply Hk; by right|].
      intros Hup r0 [-> |Hr0]%elem_of_cons; [|by apply Hr]. exists a. split; [apply Hk; by left|done]. }
    destruct a as [e|c]; [by apply Hrest|]. destruct (c_Running c) eqn:E; [|by apply Hrest].
    apply triple_ret. intros s Hs. exists (mk_happened (BInspect (r_ContainerID r)) (inr c) :: K). split; [|done]. split; [intros x Hx; by right|done].
Qed.

Lemma known_found {A} K (m : BM (store_error + A)) (P : A → bstate → Prop) : triple (so_far K) m (λ r s, match r with inr a => P a s | inl _ => so_far K s end) →
  triple (so_far K) (found m) (λ r s, match r with inr a => P a s | inl _ => so_far K s end).
Proof. intros Hm. eapply triple_then; [exact Hm|]. intros [e|a]; apply triple_ret; [|done]. by destruct e. Qed.
Lemma known_failing {A} K (m : BM (or_error A)) (P : A → bstate → Prop) : triple (so_far K) m (λ r s, match r with inr a => P a s | inl _ => so_far K s end) →
  triple (so_far K) (failing m) (λ r s, match r with inr a => P a s | inl _ => so_far K s end).
Proof. intros Hm. eapply triple_then; [exact Hm|]. intros [e|a]; by apply triple_ret. Qed.

Lemma retire_known replicas l : (∀ r, r ∈ l → r ∈ replicas) → ∀ K, (∀ past, knows K past → at_rest past replicas) →
  triple (so_far K) (retire_replicas world l) (λ err s, ∃ K', ((∀ c, c ∈ K → c ∈ K') ∧
    (err = None → ∀ r, r ∈ l → mk_happened (answer := banswer) (BRetire (r_ContainerID r)) None ∈ K')) ∧ so_far K' s).
Proof.
  induction l as [|r l IH]; intros Hin K Hrest; cbn [retire_replicas].
  - apply triple_ret. intros s Hs. exists K. split; [|done]. split; [done|]. by intros _ r ?%elem_of_nil.
  - eapply triple_then; [apply known_event; [by intros a ?|]|].
    + intros a past HK. exists replicas. split; [by apply Hrest|]. apply list_elem_of_fmap_2, Hin. by left.
    + intros [e|]; [apply triple_ret; intros s Hs; exists (mk_happened (BRetire (r_ContainerID r)) (Some e) :: K); split; [split; [intros x Hx; by right|done]|done]|].
      eapply triple_conseq; [apply IH|done|].
      * intros x Hx. apply Hin. by right.
      * intros past [Hl HK]. apply Hrest. split; [done|]. intros c Hc. apply HK. by right.
      * intros err s (K' & [Hk Hr] & Hs). exists K'. split; [|done]. split; [intros c Hc; apply Hk; by right|].
        intros He r0 [-> |Hr0]%elem_of_cons; [apply Hk; by left|by apply Hr].
Qed.

(** What a restore that is done has done. *)
Definition restored_by (r : outcome unit) (K : list event) : Prop :=
  r = inr tt → ∃ container path, mk_happened (answer := banswer) (BImportPath container path archive) None ∈ K.
Definition leaves_off (r : outcome unit) (s : bstate) : Prop := ∃ K, restored_by r K ∧ so_far K s.
Lemma refused_off K e : triple (so_far K) (mret (inl e)) leaves_off.
Proof. apply triple_ret. intros s Hs. exists K. split; [|done]. by intros [=]. Qed.
Lemma off_refused K e s : so_far K s → leaves_off (inl e) s.
Proof. intros Hs. exists K. split; [by intros [=]|done]. Qed.
Lemma bind_known {A} K (m : BM (outcome A)) (k : A → BM (outcome unit)) (P : A → bstate → Prop) :
  triple (so_far K) m (λ r s, match r with inr a => P a s | inl _ => so_far K s end) → (∀ a, triple (P a) (k a) leaves_off) → triple (so_far K) (bind_outcome m k) leaves_off.
Proof.
  intros Hm Hk. eapply triple_bind; [|exact Hk]. eapply triple_conseq; [exact Hm|done|]. intros [e|a] s H; [by eapply off_refused|done].
Qed.

(** What only reads, and answers or not, with the lock held. *)
Definition reads {A} (K : list event) (m : BM (outcome A)) (P : A → bstate → Prop) : Prop :=
  triple (so_far K) m (λ r s, match r with inr a => P a s | inl _ => so_far K s end).
Lemma reads_bind {A B} K (m : BM (outcome A)) (k : A → BM (outcome B)) P Q : reads K m P →
  (∀ a, triple (P a) (k a) (λ r s, match r with inr b => Q b s | inl _ => so_far K s end)) → reads K (bind_outcome m k) Q.
Proof. intros Hm Hk. eapply triple_bind; [|exact Hk]. eapply triple_conseq; [exact Hm|done|]. by intros [e|a] s H. Qed.
Lemma reads_perform K c : (∀ a, ¬ unlocks (mk_happened (answer := banswer) c a)) → (∀ a past, knows K past → restores (mk_happened c a) past) →
  triple (so_far K) (Effects.perform world c) (λ a, so_far (mk_happened c a :: K)).
Proof. apply known_event. Qed.
Lemma less_known K c s : so_far (c :: K) s → so_far K s.
Proof. apply so_far_less. intros x Hx. by right. Qed.
Lemma active_known K : reads K (activeDeployment world name) (λ _, so_far K).
Proof.
  unfold activeDeployment. eapply reads_bind.
  - apply known_found. eapply triple_conseq; [apply reads_perform; [by intros a ?|by intros a past [? _]]|done|]. cbn beta. intros [e|app] s H; [by eapply less_known|]. exact (less_known _ _ _ H).
  - intros app. destruct (app_ActiveDeploymentID app) as [id|]; [|by apply triple_ret]. eapply reads_bind.
    + apply known_found. eapply triple_conseq; [apply reads_perform; [by intros a ?|by intros a past [? _]]|done|]. cbn beta. intros [e|d] s H; [by eapply less_known|]. exact (less_known _ _ _ H).
    + intros d. by apply triple_ret.
Qed.
Lemma target_known K : reads K (volumeTarget world name volume) (λ t, so_far (mk_happened (answer := banswer) (BListReplicas (d_ID t.1.1)) (inr t.2) :: K)).
Proof.
  unfold volumeTarget. eapply reads_bind; [apply active_known|]. intros ad. destruct (List.find _ _) as [v|]; [|by apply triple_ret]. eapply reads_bind.
  - apply known_failing. eapply triple_conseq; [apply reads_perform; [by intros a ?|by intros a past [? _]]|done|]. cbn beta. intros [e|l] s H; [by eapply less_known|]. exact H.
  - intros l. by apply triple_ret.
Qed.

(** All that Restore does while it holds the lock. *)
Definition under_lock : BM (outcome unit) :=
  (get! app := found (Effects.perform world (BGetApplication name)) in
   get! target := volumeTarget world name volume in
   let '(d, v, replicas) := target in
   if negb (String.eqb (app_DesiredState app) DesiredStopped) then refuse ErrNotStopped else
   let! up := any_running world replicas in
   if up : bool then refuse ErrNotStopped else
   let! err := retire_replicas world replicas in
   match err with Some e => refuse (Failure e) | None =>
   let! err := Effects.perform world (BRemoveVolume name volume) in
   match err with Some e => refuse (Failure e) | None =>
   let! a := Effects.perform world (BCreateReplicas (d_ID d) (seqZ 1 (a_Replicas (d_Spec d)))) in
   match a with
   | inl e => refuse (Failure (L "the volume was emptied but its container could not be created again: " :: e ++ [L "; deploy the application again"])%list)
   | inr created =>
       match created with
       | [] => refuse (Failure [L "panic: index out of range"])
       | c :: _ =>
           let! err := Effects.perform world (BImportPath (r_ContainerID c) (v_Path v) archive) in
           match err with
           | Some e =>
               let! _ := Effects.perform world (BEvent name "info" (L "Restore of volume " :: S' volume :: L " failed: " :: e)) in
               refuse (Failure (L "the volume was emptied but the archive could not be extracted into it: " :: e ++ [L "; upload it again"])%list)
           | None => let! _ := Effects.perform world (BEvent name "info" [L "Volume "; S' volume; L " restored from a backup"]) in done_ok tt
           end
       end
   end end end)%go.
Lemma Restore_locks : Restore world name volume archive true = mthen (Effects.perform world (BLock name)) (λ busy, match busy with Some e => refuse e | None =>
  mthen under_lock (λ r, mthen (Effects.perform world (BUnlock name)) (λ _, mret r)) end).
Proof. done. Qed.

Lemma under_lock_known K : triple (so_far K) under_lock leaves_off.
Proof.
  unfold under_lock. eapply bind_known.
  { apply known_found. eapply triple_conseq; [apply reads_perform; [by intros a ?|by intros a past [? _]]|done|]. cbn beta. intros [e|app] s H; [by eapply less_known|]. instantiate (1 := λ app, so_far (mk_happened (answer := banswer) (BGetApplication name) (inr app) :: K)). exact H. }
  intros app. eapply bind_known; [apply target_known|]. intros [[d v] replicas]. cbn [fst snd].
  destruct (String.eqb_spec (app_DesiredState app) DesiredStopped) as [Hstop|]; cbn [negb]; [|apply refused_off].
  eapply triple_then; [apply any_running_known|]. intros up. apply triple_known. intros K1 [Hk1 Hup]. destruct up; [apply refused_off|]. specialize (Hup eq_refl).
  assert (∀ K2, (∀ c, c ∈ K1 → c ∈ K2) → ∀ past, knows K2 past → at_rest past replicas) as Hrest.
  { intros K2 H2 past [Hl HK]. split_and!; [done|..].
    - exists app. split; [|done]. apply HK, H2, Hk1. right. by left.
    - exists (d_ID d). apply HK, H2, Hk1. by left.
    - intros r Hr. destruct (Hup r Hr) as (a & Ha & Hn). exists a. split; [|done]. by apply HK, H2. }
  eapply triple_then; [apply (retire_known replicas); [done|by apply Hrest]|]. intros err. apply triple_known. intros K2 [Hk2 Hret]. destruct err as [e|]; [apply refused_off|]. specialize (Hret eq_refl).
  eapply triple_then; [apply known_event; [by intros a ?|]|].
  { intros a past HK. split_and!; [done..|]. exists replicas. split; [by eapply Hrest|]. intros r Hr. apply HK. by apply Hret. }
  intros [e|]; [apply refused_off|]. eapply triple_then; [apply known_event; [by intros a ?|]|].
  { intros a past [Hl HK]. split; [done|]. apply HK. by left. }
  intros [e|[|c rest]]; [apply refused_off..|]. eapply triple_then; [apply known_event; [by intros a ?|]|].
  { intros a past [Hl HK]. split_and!; [done..|apply HK; right; by left|]. eexists _, _, rest, c. split; [apply HK; by left|done]. }
  intros [e|]; (eapply triple_then; [apply known_event; [by intros a ?|by intros a past [? _]]|]); intros u; [apply refused_off|].
  apply triple_ret. intros s Hs. eexists. split; [|exact Hs]. intros _. eexists _, _. right. by left.
Qed.
End Restoring.

(** The first event is the lock. *)
Lemma trace_ends name volume archive evs : trace (restores name volume archive) evs → mk_happened (answer := banswer) (BLock name) None ∈ evs →
  ∃ mid, evs = (mid ++ [mk_happened (answer := banswer) (BLock name) None])%list ∧ True.
Proof.
  intros Ht (mid & past & ->)%list_elem_of_split. exists mid. apply trace_at in Ht. cbn in Ht. by subst past.
Qed.

(** C21: a restore touches nothing of an application but one that is stopped: whatever the world answers, a replica is removed only when, under the application's lock, it
    was read that the application is meant to be stopped and every replica was looked at and found not running; the volume that is removed is the one that was named, after every replica
    was removed; what is extracted is the archive that was sent, into the first of the replicas created afterwards; the lock is given back exactly where it was had,
    and nothing follows; and a restore says it is done only when the extraction was. *)
Theorem restore_guarded (world : list event → ∀ c, banswer c) (name volume archive : string) (valid : bool) (s : bstate) :
  ∃ evs, (Restore world name volume archive valid s).2.2 = (evs ++ s.2)%list ∧
    (evs = [] ∨ (∃ e, evs = [mk_happened (answer := banswer) (BLock name) (Some e)]) ∨
     ∃ mid, evs = (mk_happened (answer := banswer) (BUnlock name) tt :: mid ++ [mk_happened (answer := banswer) (BLock name) None])%list ∧ Forall (λ c, ¬ unlocks c) mid) ∧
    (valid = false → evs = []) ∧
    (∀ e1 c e2, evs = (e1 ++ c :: e2)%list →
       let resting replicas := mk_happened (answer := banswer) (BLock name) None ∈ e2 ∧
         (∃ app, mk_happened (answer := banswer) (BGetApplication name) (inr app) ∈ e2 ∧ app_DesiredState app = DesiredStopped) ∧
         (∃ id, mk_happened (answer := banswer) (BListReplicas id) (inr replicas) ∈ e2) ∧
         (∀ r, r ∈ replicas → ∃ a, mk_happened (answer := banswer) (BInspect (r_ContainerID r)) a ∈ e2 ∧ match a with inl _ => True | inr x => c_Running x = false end) in
       match what c with
       | BRetire id => ∃ replicas, resting replicas ∧ id ∈ r_ContainerID <$> replicas
       | BRemoveVolume app v => app = name ∧ v = volume ∧ ∃ replicas, resting replicas ∧ ∀ r, r ∈ replicas → mk_happened (answer := banswer) (BRetire (r_ContainerID r)) None ∈ e2
       | BImportPath container path sent => sent = archive ∧ mk_happened (answer := banswer) (BRemoveVolume name volume) None ∈ e2 ∧
           ∃ d l rest x, mk_happened (answer := banswer) (BCreateReplicas d l) (inr (x :: rest)) ∈ e2 ∧ container = r_ContainerID x
       | BStop _ | BStart _ | BStartNameless _ | BStopSide _ _ | BRemoveContainer _ _ | BRemoveScratch _ _ _ | BExec _ _ _ => False
       | _ => True
       end) ∧
    ((Restore world name volume archive valid s).1 = inr tt → ∃ container path, mk_happened (answer := banswer) (BImportPath container path archive) None ∈ evs).
Proof.
  destruct valid; [|exists []; split_and!; [done|by left|done|by intros [|] c e2|by intros [=]]].
  rewrite Restore_locks, then_perform. destruct (world s.2 (BLock name)) as [e|].
  { exists [mk_happened (answer := banswer) (BLock name) (Some e)]. split_and!; [done|right; left; by eexists|done| |by intros [=]].
    intros [|c1 e1] c e2 E; simpl in E; [by injection E as <- <-|]. by destruct e1. }
  set (s1 := (s.1, mk_happened (answer := banswer) (BLock name) None :: s.2) : bstate).
  assert (so_far name volume archive s.2 [mk_happened (answer := banswer) (BLock name) None] s1) as H1.
  { exists [mk_happened (answer := banswer) (BLock name) None]. split_and!; [done|by split|]. split; [split; [by left|]|done]. repeat constructor. by intros ?. }
  destruct (under_lock_known world name volume archive s.2 _ s1 H1) as (K & Hr & evs & E & Ht & [[Hlk Hu] HK]).
  rewrite then_eq, then_perform. set (r := (under_lock world name volume archive s1).1) in *. set (s2 := (under_lock world name volume archive s1).2) in *.
  exists (mk_happened (answer := banswer) (BUnlock name) tt :: evs). assert (trace (restores name volume archive) (mk_happened (answer := banswer) (BUnlock name) tt :: evs)) as Htr by done.
  split_and!.
  - cbn. destruct (world s2.2 (BUnlock name)). by rewrite E.
  - right. right. destruct (trace_ends _ _ _ _ Ht Hlk) as (mid & -> & _). exists mid. split; [done|]. by apply Forall_app in Hu as [Hu _].
  - done.
  - intros e1 c e2 E2. rewrite E2 in Htr. apply trace_at in Htr. unfold restores in Htr. destruct (what c); try done.
    + destruct Htr as (Ha & Hb & Hc & Hd). by split_and!.
    + destruct Htr as (replicas & ([Hl _] & H2 & H3 & H4) & Hin). by exists replicas.
    + destruct Htr as (-> & -> & replicas & ([Hl _] & H2 & H3 & H4) & Hin). split_and!; [done..|]. by exists replicas.
  - intros E2. destruct (Hr E2) as (container & path & H). exists container, path. right. by apply HK.
Qed.

(** ** Verifying *)

Lemma label_char_app s t : str_forall label_char (s ++ t) = str_forall label_char s && str_forall label_char t.
Proof. induction s as [|c s IH]; simpl; [done|]. rewrite IH. by destruct (label_char c). Qed.
(** No volume of a deploy.yaml has the name of a scratch volume. *)
Lemma scratch_invalid volume run : is_ok (ValidateName (ScratchVolume volume run)) = false.
Proof.
  unfold ValidateName, namePattern, label, ScratchVolume. rewrite !label_char_app. assert (str_forall label_char scratchMarker = false) as -> by done.
  by rewrite andb_false_l, !andb_false_r, andb_false_l.
Qed.

Section Verifying.
Context (world : list event → ∀ c, banswer c) (d : Deployment) (run : BackupRun).

Definition scratch_mounts : list (string * string) := (λ v, (ScratchVolume (v_Name v) (br_ID run), v_Path v)) <$> a_Volumes (d_Spec d).
(** What is done in the container [id]. *)
Definition inside (id : string) (c : event) : Prop :=
  match what c with
  | BImportPath i _ _ | BStart i | BStopSide _ i | BRemoveContainer _ i | BAwaitVerified i | BOutput _ i => i = id
  | BOpen _ _ _ _ | BCtxErr | BLog _ => True
  | _ => False
  end.
Definition clears (c : event) : Prop := match what c with BRemoveScratch _ app v => app = d_Application d ∧ v ∈ scratch_mounts.*1 | BLog _ => True | _ => False end.

Definition extracted (id : string) (evs : list event) (v : BackupVolume) : Prop :=
  ∃ archive path, mk_happened (answer := banswer) (BOpen (d_Application d) (br_ID run) (bv_Volume v ++ archiveSuffix) (br_Encrypted run)) (inr archive) ∈ evs ∧
    mk_happened (answer := banswer) (BImportPath id path archive) None ∈ evs.
Lemma extracted_more id e1 e2 v : (∀ x, x ∈ e1 → x ∈ e2) → extracted id e1 v → extracted id e2 v.
Proof. intros H (a & p & H1 & H2). exists a, p. auto. Qed.

Lemma extract_makes id l : makes False (extract_each world d run id l) (λ err evs, Forall (inside id) evs ∧ err ≠ Some [] ∧ (err = None → ∀ v, v ∈ l → extracted id evs v)).
Proof.
  induction l as [|v l IH]; cbn [extract_each].
  - eapply makes_weaken; [apply makes_ret|]. intros err evs [-> ->]. split_and!; [constructor|done|]. by intros _ v ?%elem_of_nil.
  - eapply makes_weaken; [apply makes_then; [apply makes_perform|]|].
    + intros a. instantiate (1 := λ a err evs, Forall (inside id) evs ∧ err ≠ Some [] ∧ match a with inl _ => err ≠ None | inr archive => err = None →
        (∃ path, mk_happened (answer := banswer) (BImportPath id path archive) None ∈ evs) ∧ ∀ v, v ∈ l → extracted id evs v end).
      destruct a as [e|archive]; cbn beta iota; [eapply makes_weaken; [apply makes_ret|]; intros err evs [-> ->]; by split; [constructor|]|].
      eapply makes_weaken; [apply makes_then; [apply makes_perform|]|].
      * intros e. instantiate (1 := λ e err evs, Forall (inside id) evs ∧ err ≠ Some [] ∧ (err = None → e = None ∧ ∀ v, v ∈ l → extracted id evs v)).
        destruct e as [e|]; cbn beta iota; [eapply makes_weaken; [apply makes_ret|]; intros err evs [-> ->]; by split; [constructor|]|].
        eapply makes_weaken; [exact IH|]. intros err evs (H1 & H0 & H2). split_and!; [done..|]. intros He. split; [done|by apply H2].
      * intros err evs (e & e1 & e2 & -> & -> & H1 & H0 & H2). split_and!; [apply Forall_app; split; [done|by repeat constructor]|done|]. intros He. destruct (H2 He) as [-> H3]. split.
        -- eexists. apply elem_of_app. right. by left.
        -- intros x Hx. eapply extracted_more; [|by apply H3]. intros y Hy. apply elem_of_app. by left.
    + cbn beta. intros err evs (a & e1 & e2 & -> & -> & H1 & H0 & H2). split_and!; [apply Forall_app; split; [done|by repeat constructor]|done|]. intros He.
      destruct a as [e|archive]; [done|]. destruct (H2 He) as [(path & Hp) H3]. intros x [-> |Hx]%elem_of_cons.
      * exists archive, path. split; apply elem_of_app; [right; by left|by left].
      * eapply extracted_more; [|by apply H3]. intros y Hy. apply elem_of_app. by left.
Qed.
Definition came_up (id : string) (evs : list event) : Prop :=
  (∀ v, v ∈ br_Volumes run → extracted id evs v) ∧ mk_happened (answer := banswer) (BStart id) None ∈ evs ∧
  ∃ a, mk_happened (answer := banswer) (BAwaitVerified id) a ∈ evs ∧ (a = None ∨ a = Some []).
Lemma came_up_more id e1 e2 : (∀ x, x ∈ e1 → x ∈ e2) → came_up id e1 → came_up id e2.
Proof. intros H (H1 & H2 & a & H3 & H4). split_and!; [|by apply H|exists a; auto]. intros v Hv. eapply extracted_more; [exact H|by apply H1]. Qed.
Lemma in_container_makes until id : makes False (in_container world until d run id) (λ r evs, Forall (inside id) evs ∧ (r.1 = [] → came_up id evs)).
Proof.
  set (up := λ evs : list event, mk_happened (answer := banswer) (BStart id) None ∈ evs ∧ ∃ a, mk_happened (answer := banswer) (BAwaitVerified id) a ∈ evs ∧ (a = None ∨ a = Some [])).
  unfold in_container. eapply makes_weaken; [apply makes_then; [apply extract_makes|]|].
  - intros err. instantiate (1 := λ err (r : text * string) evs, Forall (inside id) evs ∧ (r.1 = [] → err = Some [] ∨ err = None ∧ up evs)).
    destruct err as [e|]; cbn beta iota; [eapply makes_weaken; [apply makes_ret|]; intros r evs [-> ->]; split; [constructor|cbn; intros ->; by left]|].
    eapply makes_weaken; [apply makes_then; [apply makes_perform|]|].
    + intros e. instantiate (1 := λ e (r : text * string) evs, Forall (inside id) evs ∧ (r.1 = [] → e = None ∧ ∃ a, mk_happened (answer := banswer) (BAwaitVerified id) a ∈ evs ∧ (a = None ∨ a = Some []))).
      destruct e as [e|]; cbn beta iota; [eapply makes_weaken; [apply makes_ret|]; intros r evs [-> ->]; by split; [constructor|]|].
      eapply makes_weaken; [apply makes_then; [apply makes_perform|intros a; apply (makes_then _ _ _ (λ o evs, evs = [mk_happened (answer := banswer) (BOutput until id) o])
          (λ _ (r : text * string) evs, Forall (inside id) evs ∧ (r.1 = [] → a = None ∨ a = Some []))); [apply makes_perform|intros output]]|].
      * destruct a as [e|]; cbn beta iota; [|eapply makes_weaken; [apply makes_ret|]; intros r evs [-> ->]; split; [constructor|by left]].
        eapply makes_weaken; [apply makes_then; [apply makes_perform|intros closing; apply makes_ret]|].
        cbn beta. intros r evs (closing & e1 & e2 & -> & -> & -> & ->). split; [by repeat constructor|]. destruct closing; cbn; [done|]. intros ->. by right.
      * cbn beta. intros r evs (a & e1 & e2 & -> & -> & output & e3 & e4 & -> & -> & H1 & H2). split; [rewrite !Forall_app; split_and!; [done|by repeat constructor..]|].
        intros Hr. split; [done|]. exists a. split; [rewrite !elem_of_app; right; by left|by apply H2].
    + cbn beta. intros r evs (e & e1 & e2 & -> & -> & H1 & H2). split; [apply Forall_app; split; [done|by repeat constructor]|]. intros Hr. right. split; [done|]. destruct (H2 Hr) as (-> & a & Ha & Hc).
      split; [apply elem_of_app; right; by left|]. exists a. split; [apply elem_of_app; by left|done].
  - cbn beta. intros r evs (err & e1 & e2 & -> & (H1 & H0 & H2) & H3 & H4). split; [by apply Forall_app|]. intros Hr. destruct (H4 Hr) as [->|(-> & H5 & a & H6 & H7)]; [done|].
    split_and!; [|apply elem_of_app; by left|exists a; split; [apply elem_of_app; by left|done]]. intros v Hv. eapply extracted_more; [|by apply H2]. intros x Hx. apply elem_of_app. by right.
Qed.

Lemma clears_makes until l : (∀ m, m ∈ l → m.1 ∈ scratch_mounts.*1) →
  makes False (mloop (λ m : string * string, logged world "could not remove a verification volume" (Effects.perform world (BRemoveScratch until (d_Application d) m.1))) l)
    (λ _ evs, Forall clears evs ∧ ∀ m, m ∈ l → ∃ a, mk_happened (answer := banswer) (BRemoveScratch until (d_Application d) m.1) a ∈ evs).
Proof.
  induction l as [|m l IH]; intros Hin; cbn [mloop]; [eapply makes_weaken; [apply makes_ret|]; intros u evs [_ ->]; split; [constructor|by intros m ?%elem_of_nil]|].
  eapply makes_weaken; [apply makes_then; [eapply (logged_makes False _ _ (BRemoveScratch until (d_Application d) m.1) (λ a, a)); eapply makes_weaken; [apply makes_perform|by intros a evs ->; exists a]|]|].
  - intros u. apply IH. intros x Hx. apply Hin. by right.
  - cbn beta. intros u evs (u1 & e1 & e2 & -> & (a & e & -> & Hl) & H1 & H2). split.
    + rewrite !Forall_app. split_and!; [done| |repeat constructor; apply Hin; by left]. eapply Forall_impl; [exact Hl|]. intros [c x]. by destruct c.
    + intros x [-> |Hx]%elem_of_cons; [exists a; rewrite !elem_of_app; right; right; by left|]. destruct (H2 x Hx) as (y & Hy). exists y. apply elem_of_app. by left.
Qed.

(** The container is created and used, and is to be removed, and then its volumes. *)
Definition verified (now : Time) (r : text * string) (evs : list event) : Prop :=
  evs = [] ∧ r.1 ≠ [] ∨
  ∃ cleared used sc a, evs = (cleared ++ used ++ [mk_happened (answer := banswer) (BCreateSide sc) a])%list ∧ sc_Mounts sc = scratch_mounts ∧ Forall clears cleared ∧
    (∀ v, v ∈ a_Volumes (d_Spec d) → ∃ x, mk_happened (answer := banswer) (BRemoveScratch (now + 2 * minute) (d_Application d) (ScratchVolume (v_Name v) (br_ID run))) x ∈ cleared) ∧
    match a with
    | inl _ => used = [] ∧ r.1 ≠ []
    | inr id => Forall (inside id) used ∧ (∃ x, mk_happened (answer := banswer) (BRemoveContainer (now + 2 * minute) id) x ∈ used) ∧ (r.1 = [] → came_up id used)
    end.
Lemma verify_makes : makes False (verifyBackup world d run) (λ r evs, ∃ now rest, evs = (rest ++ [mk_happened (answer := banswer) BNow now])%list ∧ verified now r rest).
Proof.
  unfold verifyBackup. eapply makes_weaken; [apply makes_then; [apply makes_perform|intros now; instantiate (1 := verified)]|].
  2:{ cbn beta. intros r evs (now & e1 & e2 & -> & -> & H). by exists now, e2. }
  cbv beta. destruct (List.find _ _) as [v|]; [eapply makes_weaken; [apply makes_ret|]; intros r evs [-> ->]; by left|]. cbv zeta. fold scratch_mounts.
  eapply makes_weaken; [apply makes_then; [apply makes_perform|]|].
  - intros a. apply (makes_then _ _ _ (λ r used, match a with
      | inl _ => used = [] ∧ r.1 ≠ []
      | inr id => Forall (inside id) used ∧ (∃ x, mk_happened (answer := banswer) (BRemoveContainer (now + 2 * minute) id) x ∈ used) ∧ (r.1 = [] → came_up id used)
      end)).
    + destruct a as [e|id]; [eapply makes_weaken; [apply makes_ret|]; by intros r evs [-> ->]|].
      eapply makes_weaken; [apply makes_then; [apply in_container_makes|]|].
      * intros r. apply makes_then; [eapply (logged_makes False _ _ (BStopSide (now + 2 * minute) id) (λ a, a)); eapply makes_weaken; [apply makes_perform|by intros a evs ->; exists a]|]. intros u1.
        apply makes_then; [eapply (logged_makes False _ _ (BRemoveContainer (now + 2 * minute) id) (λ a, a)); eapply makes_weaken; [apply makes_perform|by intros a evs ->; exists a]|]. intros u2. apply makes_ret.
      * cbn beta. intros r evs (r1 & e1 & e2 & -> & [H1 H2] & u1 & e3 & e4 & -> & (a1 & l1 & -> & Hl1) & u2 & e5 & e6 & -> & (a2 & l2 & -> & Hl2) & -> & ->).
        assert (∀ l, Forall log_event l → Forall (inside id) l) as Hlog by (intros l Hl; eapply Forall_impl; [exact Hl|]; intros [c x]; by destruct c).
        cbn [app]. split_and!.
        -- rewrite !Forall_app. split_and!; [by apply Hlog|by repeat constructor|by apply Hlog|by repeat constructor|done].
        -- exists a2. rewrite !elem_of_app. left; left; right. by left.
        -- intros Hr. eapply came_up_more; [|by apply H2]. intros x Hx. rewrite !elem_of_app. by right.
    + intros r. apply makes_then; [apply clears_makes; intros m Hm; by apply list_elem_of_fmap_2|]. intros u. apply makes_ret.
  - cbn beta. intros r evs (a & e1 & e2 & -> & -> & r1 & e3 & e4 & -> & H3 & u & e5 & e6 & -> & [H5 H6] & -> & ->). right.
    eexists e5, e3, _, a. cbn [app]. rewrite <- app_assoc. split_and!; [done|done|done| |done]. intros v Hv.
    destruct (H6 (ScratchVolume (v_Name v) (br_ID run), v_Path v)) as (x & Hx); [unfold scratch_mounts; apply list_elem_of_fmap; by exists v|]. by exists x.
Qed.
End Verifying.

(** A verification leaves the application alone: the container it creates mounts scratch volumes only, whose names no volume of a deploy.yaml can have; everything else it does
    it does in that container; once it made one it asks for it to be removed again, and afterwards for every scratch volume, under a context that ends two minutes after the
    verification began, Docker not being reached after that; and it says that the backup restores only when the archive of every
    volume of the backup was read and extracted and the container started and held up. *)
Theorem verify_leaves_the_application (world : list event → ∀ c, banswer c) (d : Deployment) (run : BackupRun) (s : bstate) :
  (∀ v, is_ok (ValidateName (ScratchVolume v (br_ID run))) = false) ∧
  ∃ evs, (verifyBackup world d run s).2.2 = (evs ++ s.2)%list ∧
   ∃ now rest, evs = (rest ++ [mk_happened (answer := banswer) BNow now])%list ∧
   (rest = [] ∧ (verifyBackup world d run s).1.1 ≠ [] ∨
    ∃ cleared used sc a, rest = (cleared ++ used ++ [mk_happened (answer := banswer) (BCreateSide sc) a])%list ∧
      sc_Mounts sc = (λ v, (ScratchVolume (v_Name v) (br_ID run), v_Path v)) <$> a_Volumes (d_Spec d) ∧
      Forall (λ c, match what c with BRemoveScratch _ app v => app = d_Application d ∧ ∃ x, v = ScratchVolume x (br_ID run) | BLog _ => True | _ => False end) cleared ∧
      (∀ v, v ∈ a_Volumes (d_Spec d) → ∃ x, mk_happened (answer := banswer) (BRemoveScratch (now + 2 * minute) (d_Application d) (ScratchVolume (v_Name v) (br_ID run))) x ∈ cleared) ∧
      match a with
      | inl _ => used = [] ∧ (verifyBackup world d run s).1.1 ≠ []
      | inr id =>
          Forall (inside id) used ∧
          (∃ x, mk_happened (answer := banswer) (BRemoveContainer (now + 2 * minute) id) x ∈ used) ∧
          ((verifyBackup world d run s).1.1 = [] → (∀ v, v ∈ br_Volumes run → ∃ archive path,
               mk_happened (answer := banswer) (BOpen (d_Application d) (br_ID run) (bv_Volume v ++ ".tar") (br_Encrypted run)) (inr archive) ∈ used ∧
               mk_happened (answer := banswer) (BImportPath id path archive) None ∈ used) ∧
             mk_happened (answer := banswer) (BStart id) None ∈ used ∧
             ∃ x, mk_happened (answer := banswer) (BAwaitVerified id) x ∈ used ∧ (x = None ∨ x = Some []))
      end).
Proof.
  split; [intros v; apply scratch_invalid|]. destruct (verify_makes world d run s ltac:(done)) as (_ & evs & E & now & rest & Er & Hv). exists evs. split; [exact E|]. exists now, rest. split; [exact Er|].
  destruct Hv as [Hv|(cleared & used & sc & a & -> & Hm & Hc & Hr & Ha)]; [by left|]. right. exists cleared, used, sc, a. split_and!; try done.
  eapply Forall_impl; [exact Hc|]. intros [c x] Hcl. unfold clears in Hcl. cbn in *. destruct c; try done.
  destruct Hcl as [-> (m & -> & (y & -> & _)%list_elem_of_fmap)%list_elem_of_fmap]. split; [done|]. by exists (v_Name y).
Qed.

(** ** Concrete runs *)

(** A world in which everything answers: one replica, one volume, two successes in the table. *)
Definition two_kept : list statement := (taken_once ++ [SCreate "shop" "manual" 20; SFinish (mk_run 5 "shop" "manual" BackupSucceeded [mk_backup_volume "data" 8] ["local"] false [] 20 None "" None [] "" None []) 29])%list.
Definition an_answer (c : bcall) : banswer c :=
  match c with
  | BNow => 50
  | BCtxErr | BClosing => false
  | BBeginOp => true
  | BGetApplication name => inr (mk_application 1 name DesiredStopped (Some 1) 0 0)
  | BGetDeployment _ => inr sample_deployment
  | BListReplicas d => inr [mk_replica d 1 "c1" "shop-1" 0]
  | BInstallation => inr "install"
  | BPrepare _ | BAbortLeftovers => inr 0
  | BCreateRun owner trigger now => inr (CreateBackupRun no_runs owner trigger now).2
  | BClaim _ _ => Claimed
  | BListRuns owner _ => inr (ListBackupRuns (after two_kept no_runs) owner 0)
  | BInterrupt _ => inr []
  | BGetRun _ _ | BLastRun _ _ => inl ErrNotFound
  | BRunIDs => inr []
  | BAdopt _ => inr true
  | BFound _ => inr []
  | BWrite _ _ _ src => inr (slen src)
  | BOpen _ _ _ _ | BExportPath _ _ | BReadSnapshot _ => inr "archive"
  | BSnapshot => inr ("/tmp/s", "key")
  | BExec _ _ _ | BWait _ _ => Exited 0 ""
  | BCreateSide _ => inr "side"
  | BInspect id => inr (mk_container id "shop-1" "shop" 1 1 "" false false 0 "" "exited")
  | BCreateReplicas d _ => inr [mk_replica d 1 "c2" "shop-1" 0]
  | BOutput _ _ => ""
  | BLock _ => None
  | BReserve _ | BFinishRun _ _ | BDeleteRun _ | BReleaseRun _ | BFinishVerify _ _ _ _ | BFinishRestore _ _ _ | BRemoveFiles _ _ | BImportPath _ _ _
  | BStart _ | BStop _ | BStartNameless _ | BStopSide _ _ | BRemoveContainer _ _ | BRetire _ | BRemoveVolume _ _ | BRemoveScratch _ _ _ | BAwaitVerified _ => None
  | _ => tt
  end.
Definition answering (_ : list event) : ∀ c, banswer c := an_answer.
Definition at_first : bstate := (mk_schedule true false 0, []).

(** Of two successes, a retention of one removes the older. *)
Lemma prune_keeps_witness : ∃ evs a, (pruneBackups answering "shop" 1 at_first).2.2 = evs ∧ mk_happened (answer := banswer) (BDeleteRun 4) a ∈ evs.
Proof.
  destruct (prune_keeps answering two_kept "shop" 1 at_first) as (evs & E & _ & _ & H); [repeat constructor; by left|done|].
  set (old := mk_run 4 "shop" "manual" BackupSucceeded [mk_backup_volume "data" 7] ["local"] false [] 5 (Some 9) "" None [] "" None []).
  destruct (H ltac:(done) ltac:(done) old) as (a & Ha).
  { split_and!; [vm_compute; left|done|done|left; split; [done|by vm_compute]]. }
  exists evs, a. split; [rewrite E; apply app_nil_r|exact Ha].
Defined.

Lemma backup_ends_witness : ∃ ended now a, mk_happened (answer := banswer) (BFinishRun ended now) a ∈
    (backup_goroutine answering false ["local"] sample_deployment (CreateBackupRun no_runs "shop" "manual" 5).2 None at_first).2.2 ∧ br_ID ended = 1.
Proof.
  destruct (backup_ends answering false ["local"] sample_deployment (CreateBackupRun no_runs "shop" "manual" 5).2 None at_first eq_refl)
    as (taking & mid & post & ended & now & a & E & _ & _ & _ & Hi & _).
  exists ended, now, a. split; [|exact Hi]. rewrite E. right. apply elem_of_app. right. left.
Defined.
