(* ===== verification/Rotation.v ===== *)
(** * Rotating the key (agent/internal/store/rotation.go, crypto.go, store.go;
      agent/internal/config/encryption.go)

    Every sealed value is taken from one key to another while the agent runs,
    and the database and the key are two files.  The state is what is on the
    disk, the database, the key file and the pending key next to it, and what
    the running agent holds.  A program may be cut off wherever it writes: a
    call that writes answers whether it was done, failed or was the last thing
    the agent did, and what of it is on the disk.  AES-GCM is a parameter. *)

From S2P Require Import Prelude GoStrings GoURL Effects SpecTypes Crypto.
From Stdlib Require Import Ascii String.
Local Open Scope string_scope.

(** ** Keys as text (encryption.go) *)

Definition EncryptionKeySize : nat := 32.
Definition EncryptionKeyFile := "encryption.key".
Definition EnvEncryptionKey := "SHIPWICK_ENCRYPTION_KEY".
Definition pendingKeySuffix := ".new".
Definition hex_digit (n : N) : ascii := chr (if (n <? 10)%N then 48 + n else 87 + n)%N.
(** encoding/hex *)
Fixpoint hex_encode (s : string) : string :=
  match s with "" => "" | String c r => String (hex_digit (code c / 16)) (String (hex_digit (code c mod 16)) (hex_encode r)) end.
Fixpoint hex_decode (s : string) : option string :=
  match s with
  | "" => Some ""
  | String a (String b r) => x ← unhex a; y ← unhex b; t ← hex_decode r; Some (String (chr (16 * x + y)) t)
  | _ => None
  end.
Definition decodeEncryptionKey (s : string) : result string :=
  match hex_decode s with
  | Some key => if (String.length key =? EncryptionKeySize)%nat then Ok key else Err [L "expected 64 hexadecimal characters"]
  | None => Err [L "expected 64 hexadecimal characters"]
  end.
Definition ParseEncryptionKey := decodeEncryptionKey.
Definition FormatEncryptionKey := hex_encode.
Definition line_end : string := String (chr 10) "".
(** What writeKeyFile writes, and what reading a key file makes of its content. *)
Definition key_line (key : string) : string := FormatEncryptionKey key ++ line_end.
Definition read_key (content : string) : result string := ParseEncryptionKey (trim_space content).

(** ** What is sealed *)

Record sealedColumn := mk_column { sc_table : string; sc_key : string; sc_column : string; sc_name : string → string }.
Definition registryPasswordName (registry : string) : string := "registry:" ++ registry.
Definition keyLabel (hostname : string) : string := "certificate:" ++ hostname.
Definition sealedColumns : list sealedColumn :=
  [mk_column "secrets" "label" "value" (λ label, label);
   mk_column "registries" "registry" "password" registryPasswordName;
   mk_column "certificates" "hostname" "key" keyLabel;
   mk_column "deployment_references" "deployment_id" "value" referencesName].

(** The rows of a sealed column, by its table, as key and value; and the deployments' specifications. *)
Record database := mk_database { columns : gmap string (list (string * string)); specs : list (Z * App) }.
Definition readColumn (db : database) (c : sealedColumn) : list (string * string) := default [] (columns db !! sc_table c).

(** ** Re-encrypting *)

#[export] Instance BasicAuth_eq : EqDecision BasicAuth.
Proof. solve_decision. Defined.
#[export] Instance PathRedirect_eq : EqDecision PathRedirect.
Proof. solve_decision. Defined.
#[export] Instance Proxy_eq : EqDecision Proxy.
Proof. solve_decision. Defined.
#[export] Instance Logging_eq : EqDecision Logging.
Proof. solve_decision. Defined.

Section Rotation.
(** aes.NewCipher and cipher.NewGCM. *)
Variable cipher : string → AEAD.
Definition newAEAD (key : string) : result AEAD :=
  if negb (String.length key =? EncryptionKeySize)%nat then Err [L "encryption key must be "; D (Z.of_nat EncryptionKeySize); L " bytes, got "; D (Z.of_nat (String.length key))]
  else Ok (cipher key).

(** The nonces drawn for the values of a row. *)
Variable draw : string → string → result string.

Definition set_value (key sealed : string) (row : string * string) : string * string := if String.eqb row.1 key then (row.1, sealed) else row.
Fixpoint reencrypt_values (c : sealedColumn) (old next : AEAD) (values rows : list (string * string)) : result (list (string * string)) :=
  match values with
  | [] => Ok rows
  | v :: rest =>
      let name := sc_name c v.1 in
      match @open old name v.2 with
      | Err e => Err (S' (sc_table c) :: L "." :: S' (sc_column c) :: L ": " :: e)
      | Ok plain =>
          do! sealed := @seal next (draw (sc_table c ++ v.1)) name plain in
          reencrypt_values c old next rest (set_value v.1 sealed <$> rows)
      end
  end.
Definition reencryptColumn (c : sealedColumn) (old next : AEAD) (db : database) : result (database * Z) :=
  let values := readColumn db c in
  do! rows := reencrypt_values c old next values values in
  Ok (mk_database (<[sc_table c := rows]> (columns db)) (specs db), Z.of_nat (List.length values)).

(** A field that opening changed is replaced with what sealing made of it. *)
Definition reencryptSpec (old next : AEAD) (id : Z) (stored : App) : result (App * bool) :=
  do! opened := @openSpec old stored in
  do! resealed := @sealSpec next (draw ("deployments" ++ itoa id)) opened in
  let env := negb (bool_decide (a_Env opened = a_Env stored)) in
  let proxy := negb (bool_decide (a_Proxy opened = a_Proxy stored)) in
  let logging := negb (bool_decide (a_Logging opened = a_Logging stored)) in
  let a := if env then with_env stored (a_Env resealed) else stored in
  let a := if proxy then with_proxy a (a_Proxy resealed) else a in
  let a := if logging then with_logging a (a_Logging resealed) else a in
  Ok (a, env || proxy || logging).
Fixpoint reencryptSpecs (old next : AEAD) (l : list (Z * App)) : result (list (Z * App) * Z) :=
  match l with
  | [] => Ok ([], 0%Z)
  | s :: rest =>
      match reencryptSpec old next s.1 s.2 with
      | Err e => Err (L "deployment " :: D s.1 :: L ": " :: e)
      | Ok (a, changed) => do! r := reencryptSpecs old next rest in Ok ((s.1, a) :: r.1, ((if changed : bool then 1 else 0) + r.2)%Z)
      end
  end.

Fixpoint reencryptColumns (old next : AEAD) (l : list sealedColumn) (db : database) (n : Z) : result (database * Z) :=
  match l with
  | [] => Ok (db, n)
  | c :: rest => do! r := reencryptColumn c old next db in reencryptColumns old next rest r.1 (n + r.2)%Z
  end.
(** What the transaction would commit, and the counts. *)
Definition reencrypted (old next : AEAD) (db : database) : result (database * (Z * Z)) :=
  do! r := reencryptColumns old next sealedColumns db 0%Z in
  do! s := reencryptSpecs old next (specs r.1) in
  Ok (mk_database (columns r.1) s.1, (r.2, s.2)).

Definition keyFits (db : database) (k : AEAD) : bool :=
  forallb (λ c, forallb (λ v, is_ok (@open k (sc_name c v.1) v.2)) (readColumn db c)) sealedColumns &&
  forallb (λ s, is_ok (@openSpec k s.2)) (specs db).

(** ** The disk, and the running agent *)

Record Store := mk_store { aead : keyring; rawKey : string; keyFromEnv : bool }.
Record machine := mk_machine { m_db : database; m_key : option string; m_pending : option string; m_store : option Store }.
Definition set_db db (m : machine) := mk_machine db (m_key m) (m_pending m) (m_store m).
Definition set_keyfile k (m : machine) := mk_machine (m_db m) k (m_pending m) (m_store m).
Definition set_pending p (m : machine) := mk_machine (m_db m) (m_key m) p (m_store m).
Definition set_store s (m : machine) := mk_machine (m_db m) (m_key m) (m_pending m) s.
(** os.Rename of the pending file over the key file. *)
Definition renamed (m : machine) := mk_machine (m_db m) (match m_pending m with Some p => Some p | None => m_key m end) None (m_store m).

(** Done; failed; or the last thing the agent did.  What a write that was not
    done left is said with it: how much of the file, whether it happened. *)
Inductive fate := Did | Failed (e : text) | Gone.
Inductive kcall :=
  | KRandom | KStat | KReadKey | KReadPending | KReadDB | KBegin
  | KWriteKey (content : string) | KWritePending (content : string) | KCommit | KRemovePending | KRename | KLog (what : string).
Definition kanswer (c : kcall) : Type :=
  match c with
  | KRandom => or_error string
  | KStat | KReadKey | KReadPending | KReadDB | KBegin => error
  | KWriteKey _ | KWritePending _ => fate * option nat
  | KCommit | KRemovePending | KRename => fate * bool
  | KLog _ => unit
  end.
Abbreviation KM := (Effects.M machine kanswer).

Inductive rotation_error := ErrNotEncrypted | ErrRotationPending | Failure (e : text).
(** None: the agent was cut off here. *)
Abbreviation ran A := (option A).
Definition bind_ran {A B} (m : KM (ran A)) (k : A → KM (ran B)) : KM (ran B) :=
  mthen m (λ r, match r with None => mret None | Some a => k a end).
Notation "'run!' x ':=' m 'in' k" := (bind_ran m (λ x, k)) (at level 10, x pattern, m at level 100, k at level 200) : go_scope.
Local Open Scope go_scope.

Context (world : list (Effects.happened kanswer) → ∀ c, kanswer c).
Local Abbreviation perform := (Effects.perform world).

(** A write that happens wholly, not at all, or with what [left] says. *)
Definition attempt {X : Type} (m : KM (fate * X)) (whole : machine → machine) (left : X → machine → machine) : KM (ran error) :=
  let! a := m in
  match a with
  | (Did, _) => let! _ := mset whole in mret (Some None)
  | (Failed e, x) => let! _ := mset (left x) in mret (Some (Some e))
  | (Gone, x) => let! _ := mset (left x) in mret None
  end.
Definition cut_short (content : string) (x : option nat) (set : option string → machine → machine) (m : machine) : machine :=
  match x with None => m | Some n => set (Some (substring 0 n content)) m end.
Definition happened_or_not (whole : machine → machine) (x : bool) (m : machine) : machine := if x then whole m else m.

Definition writeKeyFile (key : string) : KM (ran error) :=
  attempt (perform (KWritePending (key_line key))) (set_pending (Some (key_line key))) (λ x, cut_short (key_line key) x set_pending).
Definition commit (db : database) : KM (ran error) := attempt (perform KCommit) (set_db db) (happened_or_not (set_db db)).
Definition remove_pending : KM (ran error) := attempt (perform KRemovePending) (set_pending None) (happened_or_not (set_pending None)).
Definition rename_pending : KM (ran error) := attempt (perform KRename) renamed (happened_or_not renamed).

(** keyFits over the database as it is; what cannot be read does not fit. *)
Definition fits (k : AEAD) : KM bool :=
  let! err := perform KReadDB in
  match err with Some _ => mret false | None => mget (λ m, keyFits (m_db m) k) end.

(** reencrypt: whether Commit was reached, and what happened. *)
Definition reencrypt (old next : AEAD) : KM (ran (bool * (text + (Z * Z)))) :=
  let! err := perform KBegin in
  match err with Some e => mret (Some (false, inl e)) | None =>
  let! db := mget m_db in
  match reencrypted old next db with
  | Err e => mret (Some (false, inl e))
  | Ok (db, counts) => run! err := commit db in mret (Some (true, match err with Some e => inl e | None => inr counts end))
  end end.

Record Rotation := mk_rotation { Values : Z; Deployments : Z; FromEnvironment : bool; Key : string; KeyFile : string }.

(** [has_file]: the store was told where its key is kept; [in_memory]: its database is in memory. *)
Definition RotateKey (has_file in_memory : bool) : KM (ran (rotation_error + Rotation)) :=
  let! st := mget m_store in
  match st with None => mret (Some (inl ErrNotEncrypted)) | Some st =>
  if negb has_file && negb in_memory then mret (Some (inl ErrNotEncrypted)) else
  let! a := perform KRandom in
  match a with inl e => mret (Some (inl (Failure (L "generate encryption key: " :: e)))) | inr key =>
  match newAEAD key with Err e => mret (Some (inl (Failure e))) | Ok next =>
  let old := current (aead st) in
  let! pending := (if has_file && keyFromEnv st then
                     let! err := perform KStat in
                     let! p := mget m_pending in
                     mret (match err, p with None, Some _ => true | _, _ => false end)
                   else mret false) in
  if pending : bool then mret (Some (inl ErrRotationPending)) else
  run! err := (if has_file then writeKeyFile key else mret (Some None)) in
  match err with Some e => mret (Some (inl (Failure (L "write the new key: " :: e)))) | None =>
  run! r := reencrypt old next in
  match r with
  | (committed, inl e) =>
      let! harmless := (if committed then fits old else mret true) in
      run! _ := (if has_file && harmless then remove_pending else mret (Some None)) in
      mret (Some (inl (Failure (L "rotate key: " :: e))))
  | (_, inr (values, deployments)) =>
      let! _ := mset (set_store (Some (mk_store (rotate (aead st) next) key (keyFromEnv st)))) in
      let told := if has_file && keyFromEnv st then (FormatEncryptionKey key, EncryptionKeyFile ++ pendingKeySuffix) else ("", EncryptionKeyFile) in
      let done := mk_rotation values deployments (keyFromEnv st) told.1 told.2 in
      if has_file && negb (keyFromEnv st) then
        run! err := rename_pending in
        mret (Some (match err with Some e => inl (Failure (L "the key was rotated and the new one could not be moved: " :: e)) | None => inr done end))
      else mret (Some (inr done))
  end end end end end.

(** ** A start of the agent *)

(** ResolveEncryptionKey: the environment, the key file, or a key that is made. *)
Definition ResolveEncryptionKey (environment : string) : KM (ran (text + string)) :=
  if negb (String.eqb environment "") then
    mret (Some (match decodeEncryptionKey environment with Err e => inl (S' EnvEncryptionKey :: L ": " :: e) | Ok key => inr key end)) else
  let! err := perform KReadKey in
  let! file := mget m_key in
  match err, file with
  | Some e, _ => mret (Some (inl (L "read encryption key: " :: e)))
  | None, Some data => mret (Some (match read_key data with Err e => inl (S' EncryptionKeyFile :: L " is corrupt (" :: e ++ [L "): restore it from your backup"])%list | Ok key => inr key end))
  | None, None =>
      let! a := perform KRandom in
      match a with inl e => mret (Some (inl (L "generate encryption key: " :: e))) | inr key =>
      run! err := attempt (perform (KWriteKey (key_line key))) (set_keyfile (Some (key_line key))) (λ x, cut_short (key_line key) x set_keyfile) in
      mret (Some (match err with Some e => inl (L "persist encryption key: " :: e) | None => inr key end))
      end
  end.

Definition unsettled : text := [L "the encryption key does not match the database, and neither does the key a rotation left"].
Definition rotated_elsewhere : text := [L "the encryption key was rotated, and the environment still holds the old one: the new key is in the pending file"].
Definition settleRotation (st : Store) : KM (ran (text + Store)) :=
  let! err := perform KReadPending in
  let! pending := mget m_pending in
  match err, pending with
  | Some e, _ => mret (Some (inl (L "read the pending key: " :: e)))
  | None, None => mret (Some (inr st))
  | None, Some data =>
      let! still := fits (current (aead st)) in
      if still : bool then
        run! err := remove_pending in
        match err with
        | Some e => mret (Some (inl (L "remove the pending key: " :: e)))
        | None => let! _ := perform (KLog (if keyFromEnv st then "removed the pending encryption key" else "discarded the key of a rotation that did not complete")) in mret (Some (inr st))
        end
      else
        match read_key data with Err _ => mret (Some (inl unsettled)) | Ok key =>
        match newAEAD key with Err e => mret (Some (inl e)) | Ok next =>
        let! moved := fits next in
        if negb moved then mret (Some (inl unsettled)) else
        if keyFromEnv st then mret (Some (inl rotated_elsewhere)) else
        run! err := rename_pending in
        match err with
        | Some e => mret (Some (inl (L "complete the key rotation: " :: e)))
        | None => let! _ := perform (KLog "completed a key rotation that was interrupted") in mret (Some (inr (mk_store (rotate (aead st) next) key (keyFromEnv st))))
        end end end
  end.

(** encryptLegacyEnv: values from before they were encrypted are sealed, the others are opened to prove the key. *)
Definition legacy_value (k : AEAD) (id : Z) (name value : string) : result string :=
  if isSealed value then match @open k name value with Err _ => Err [L "the encryption key does not match the database"] | Ok _ => Ok value end
  else @seal k (draw ("legacy" ++ itoa id)) name value.
Fixpoint encrypt_legacy (k : AEAD) (l : list (Z * App)) : result (list (Z * App)) :=
  match l with
  | [] => Ok []
  | s :: rest => do! env := map_results (legacy_value k s.1) (a_Env s.2) in do! r := encrypt_legacy k rest in Ok ((s.1, with_env s.2 env) :: r)
  end.
Definition encryptLegacyEnv (st : Store) : KM (ran (text + unit)) :=
  let! err := perform KReadDB in
  match err with Some e => mret (Some (inl (L "encrypt environment values: " :: e))) | None =>
  let! db := mget m_db in
  match encrypt_legacy (keyring_AEAD (aead st)) (specs db) with
  | Err e => mret (Some (inl e))
  | Ok l => run! err := commit (mk_database (columns db) l) in mret (Some (match err with Some e => inl e | None => inr tt end))
  end end.

(** What main does before anything else: the key is found, the database opened with it, the rotation settled. *)
Definition start (environment : string) : KM (ran (text + Store)) :=
  let! _ := mset (set_store None) in
  run! r := ResolveEncryptionKey environment in
  match r with inl e => mret (Some (inl e)) | inr key =>
  match newAEAD key with Err e => mret (Some (inl e)) | Ok k =>
  run! r := settleRotation (mk_store (mk_keyring k None) key (negb (String.eqb environment ""))) in
  match r with inl e => mret (Some (inl e)) | inr st =>
  run! r := encryptLegacyEnv st in
  match r with inl e => mret (Some (inl e)) | inr _ => let! _ := mset (set_store (Some st)) in mret (Some (inr st)) end
  end end end.
End Rotation.
