(* ===== verification/RotationInv.v ===== *)
(** * What a key rotation keeps

    Every value stays readable: whatever the agent is cut off from, and however
    often, one key on the disk or in the environment opens all of it, and a
    start that is not cut off ends up with that key.  And what a second rotation
    does after a first whose last step failed. *)

From S2P Require Import Prelude GoStrings GoURL Effects SpecTypes Crypto Rotation.
From Stdlib Require Import Ascii String.
Local Open Scope string_scope.

(** ** Keys as text *)

Lemma unhex_digit n : (n < 16)%N → unhex (hex_digit n) = Some n.
Proof.
  intros H. destruct n as [|p]; [reflexivity|]. do 5 (try (destruct p as [p|p|]; try reflexivity; try lia)).
Qed.
Lemma hex_roundtrip s : hex_decode (hex_encode s) = Some s.
Proof.
  induction s as [|c s IH]; [done|]. cbn [hex_encode hex_decode]. pose proof (N_ascii_bounded c) as Hc. fold (code c) in Hc.
  rewrite !unhex_digit; [|apply N.Div0.div_lt_upper_bound; lia|apply N.mod_lt; lia]. cbn. rewrite IH. cbn.
  rewrite <- N.div_mod'. unfold chr, code. by rewrite ascii_N_embedding.
Qed.
Lemma hex_length s : String.length (hex_encode s) = (2 * String.length s)%nat.
Proof. induction s; simpl; lia. Qed.
Lemma hex_decode_length s : ∀ t, hex_decode s = Some t → String.length s = (2 * String.length t)%nat.
Proof.
  assert (∀ n s, (String.length s ≤ n)%nat → ∀ t, hex_decode s = Some t → String.length s = (2 * String.length t)%nat) as H; [|by eapply H].
  intros n. induction n as [|n IH]; intros [|a [|b r]] Hl t; cbn [hex_decode String.length] in *; intros E; simplify_eq; try done; try lia.
  destruct (unhex a); [|done]. cbn in E. destruct (unhex b); [|done]. cbn in E. destruct (hex_decode r) as [u|] eqn:Er; [|done]. cbn in E. simplify_eq.
  cbn [String.length]. rewrite (IH r ltac:(lia) u Er). lia.
Qed.
Lemma hex_printable s : str_forall printable (hex_encode s) = true.
Proof.
  assert (∀ n, (n < 16)%N → printable (hex_digit n) = true) as Hd.
  { intros n H. destruct n as [|p]; [reflexivity|]. do 5 (try (destruct p as [p|p|]; try reflexivity; try lia)). }
  induction s as [|c s IH]; [done|]. pose proof (N_ascii_bounded c) as Hc. fold (code c) in Hc. cbn [hex_encode str_forall].
  rewrite !Hd, IH by (first [apply N.Div0.div_lt_upper_bound; lia|apply N.mod_lt; lia]). done.
Qed.

Lemma trim_right_line s : str_forall printable s = true → trim_right (s ++ line_end) = s.
Proof.
  induction s as [|c r IH]; [done|]. cbn [str_forall]. intros H. bools. cbn [append trim_right].
  rewrite trim_left_printable by done. cbn. f_equal. by apply IH.
Qed.
Lemma read_key_line key : String.length key = 32%nat → read_key (key_line key) = Ok key.
Proof.
  intros Hl. unfold read_key, key_line, FormatEncryptionKey, trim_space.
  assert (trim_left (hex_encode key ++ line_end) = hex_encode key ++ line_end) as ->.
  { destruct key as [|c r]; [done|]. pose proof (hex_printable (String c r)) as H. cbn [hex_encode str_forall] in H. bools. cbn [hex_encode append]. by apply trim_left_printable. }
  rewrite trim_right_line by apply hex_printable. unfold ParseEncryptionKey, decodeEncryptionKey. rewrite hex_roundtrip, Hl. done.
Qed.

Lemma substring_prefix n : ∀ a b, substring 0 n (a ++ b) = if (n <=? String.length a)%nat then substring 0 n a else a ++ substring 0 (n - String.length a) b.
Proof.
  induction n as [|n IH]; intros [|c a] b; cbn [append substring String.length Nat.leb Nat.sub]; try done; [by destruct b|].
  rewrite IH. destruct (n <=? String.length a)%nat; done.
Qed.
Lemma substring_length n : ∀ a, (n ≤ String.length a)%nat → String.length (substring 0 n a) = n.
Proof. induction n as [|n IH]; intros [|c a] H; simpl in *; try done; try lia. rewrite IH; lia. Qed.
Lemma substring_forall n f : ∀ a, str_forall f a = true → str_forall f (substring 0 n a) = true.
Proof. induction n as [|n IH]; intros [|c a] H; simpl in *; try done. bools. rewrite IH by done. by rewrite H. Qed.

(** A file cut short while it was written decodes to nothing, or to the key. *)
Lemma read_key_cut n key k : String.length key = 32%nat → read_key (substring 0 n (key_line key)) = Ok k → k = key.
Proof.
  intros Hl. unfold key_line, FormatEncryptionKey. rewrite substring_prefix. pose proof (hex_length key) as Hh.
  destruct (Nat.leb_spec n (String.length (hex_encode key))) as [Hn|Hn].
  - unfold read_key. rewrite trim_space_printable by apply substring_forall, hex_printable. unfold ParseEncryptionKey, decodeEncryptionKey.
    destruct (hex_decode _) as [t|] eqn:E; [|done]. destruct (Nat.eqb_spec (String.length t) EncryptionKeySize) as [Ht|]; [|done]. intros [= <-].
    apply hex_decode_length in E as Ed. rewrite substring_length in Ed by done. assert (n = String.length (hex_encode key)) as -> by (unfold EncryptionKeySize in Ht; lia).
    rewrite substring_all, hex_roundtrip in E. congruence.
  - assert (substring 0 (n - String.length (hex_encode key)) line_end = line_end) as ->.
    { unfold line_end. destruct (n - String.length (hex_encode key))%nat as [|m] eqn:E; [lia|]. cbn. by destruct m. }
    intros H. pose proof (read_key_line key Hl) as H'. unfold key_line, FormatEncryptionKey in H'. congruence.
Qed.

(** ** Sealed values *)

(** What is relied on of AES-GCM: it opens what it sealed, a ciphertext is no shorter than its plaintext, and what one key sealed another does not open. *)
Record cipher_laws (cipher : string → AEAD) : Prop := {
  cl_opens : ∀ k, AEADLaws (cipher k);
  cl_sizes : ∀ k k', @NonceSize (cipher k) = @NonceSize (cipher k');
  cl_longer : ∀ k n p d, (String.length p ≤ String.length (@Seal (cipher k) n p d))%nat;
  cl_keys : ∀ k k' n p d, k ≠ k' → @Open (cipher k') n (@Seal (cipher k) n p d) d = None }.

Section Sealed.
Context (cipher : string → AEAD) (laws : cipher_laws cipher).
Context (draw : string → string → result string).
(** crypto/rand fills the slice it is given. *)
Context (draw_size : ∀ k row name n, draw row name = Ok n → String.length n = @NonceSize (cipher k)).

Definition sealed_as (k name plain stored : string) : Prop :=
  ∃ n, String.length n = @NonceSize (cipher k) ∧ stored = encPrefix ++ EncodeToString (n ++ @Seal (cipher k) n plain name).

Lemma seal_sealed k row name plain stored : @seal (cipher k) (draw row) name plain = Ok stored → sealed_as k name plain stored.
Proof using draw_size.
  unfold seal. destruct (draw row name) as [n|] eqn:E; [|done]. intros H. exists n. split; [by eapply draw_size|congruence].
Qed.
Lemma sealed_isSealed k name plain stored : sealed_as k name plain stored → isSealed stored = true.
Proof using. intros (n & _ & ->). unfold isSealed. apply has_prefix_app. Qed.
Lemma open_stored k n c name : String.length n = @NonceSize (cipher k) →
  @open (cipher k) name (encPrefix ++ EncodeToString (n ++ c)) =
    match @Open (cipher k) n c name with None => Err [L "decrypt "; S' name; L ": cipher: message authentication failed"] | Some p => Ok p end.
Proof using.
  intros Hn. unfold open, trim_prefix. rewrite cut_prefix_exact. cbn [default from_option id]. rewrite decode_encode, string_length_app.
  destruct (Nat.ltb_spec (String.length n + String.length c) (@NonceSize (cipher k))); [lia|].
  rewrite <- Hn at 1 2 3. rewrite substring_app_l. replace (String.length n + String.length c - String.length n)%nat with (String.length c) by lia. by rewrite substring_app_r.
Qed.
Lemma sealed_opens k name plain stored : sealed_as k name plain stored → @open (cipher k) name stored = Ok plain.
Proof using laws. intros (n & Hn & ->). rewrite open_stored by done. by rewrite (cl_opens _ laws k n plain name Hn). Qed.
Lemma sealed_other_key k k' name plain stored : k ≠ k' → sealed_as k name plain stored → is_ok (@open (cipher k') name stored) = false.
Proof using laws.
  intros Hk (n & Hn & ->). rewrite open_stored by (rewrite Hn; apply laws). by rewrite (cl_keys _ laws k k' n plain name Hk).
Qed.
Lemma encode_length s : (String.length s ≤ String.length (EncodeToString s))%nat.
Proof using. induction s as [|a|a b|a b c r IH] using string_triples; simpl; lia. Qed.
Lemma sealed_differs k name plain stored : sealed_as k name plain stored → stored ≠ plain.
Proof using laws.
  intros (n & Hn & ->) E. apply (f_equal String.length) in E. rewrite string_length_app in E. pose proof (encode_length (n ++ @Seal (cipher k) n plain name)) as He.
  rewrite string_length_app in He. pose proof (cl_longer _ laws k n plain name). simpl in E. lia.
Qed.

(** ** Sealed specifications *)

Definition env_sealed k (stored plain : gmap string string) : Prop :=
  ∀ name, match plain !! name, stored !! name with Some v, Some w => sealed_as k name v w | None, None => True | _, _ => False end.
Definition accounts_sealed k (stored plain : list BasicAuth) : Prop :=
  List.length stored = List.length plain ∧
  ∀ i b c, plain !! i = Some b → stored !! i = Some c → ba_Path c = ba_Path b ∧ ba_Username c = ba_Username b ∧ sealed_as k (passwordName i) (ba_Password b) (ba_Password c).
Definition proxy_sealed k (stored plain : option Proxy) : Prop :=
  match stored, plain with
  | Some q, Some p => ∃ l, q = with_accounts p l ∧ accounts_sealed k l (px_BasicAuth p)
  | None, None => True
  | _, _ => False
  end.
(** A credential among the logging options may be one from before they were sealed. *)
Definition logging_sealed k (stored plain : option Logging) : Prop :=
  match stored, plain with
  | Some q, Some p => log_Driver q = log_Driver p ∧ (∀ o, o ≠ "splunk-token" → log_Options q !! o = log_Options p !! o) ∧
      match log_Options p !! "splunk-token", log_Options q !! "splunk-token" with
      | Some v, Some w => sealed_as k (logOptionName "splunk-token") v w ∨ w = v ∧ isSealed w = false
      | None, None => True
      | _, _ => False
      end
  | None, None => True
  | _, _ => False
  end.
Definition spec_sealed k (stored plain : App) : Prop :=
  ∃ e q l, stored = with_logging (with_proxy (with_env plain e) q) l ∧ env_sealed k e (a_Env plain) ∧ proxy_sealed k q (a_Proxy plain) ∧ logging_sealed k l (a_Logging plain).

Lemma logging_opens k stored plain : logging_sealed k (a_Logging stored) (Some plain) → openLogging (A := cipher k) stored = Ok (with_logging stored (Some plain)).
Proof using laws.
  unfold logging_sealed, openLogging. destruct (a_Logging stored) as [q|] eqn:El; [|done]. intros (Hd & Ho & Ht).
  destruct (SecretLogOptions_cases stored q El) as [[-> Hn]|(w & -> & Hw)]; cbn [each_option].
  - rewrite Hn in Ht. destruct (log_Options plain !! "splunk-token") eqn:Ep; [done|]. cbn. do 3 f_equal.
    assert (log_Options q = log_Options plain) as E; [|destruct q, plain; simpl in *; by subst].
    apply map_eq. intros o. destruct (decide (o = "splunk-token")) as [->|]; [congruence|by apply Ho].
  - rewrite Hw in *. cbn [default from_option id]. destruct (log_Options plain !! "splunk-token") as [v|] eqn:Ep; [|done].
    assert (<["splunk-token":=v]> (log_Options q) = log_Options plain) as E.
    { apply map_eq. intros o. destruct (decide (o = "splunk-token")) as [->|]; [by rewrite lookup_insert_eq|]. rewrite lookup_insert_ne by done. by apply Ho. }
    destruct Ht as [Hs|[-> Hs]]; [rewrite (sealed_isSealed _ _ _ _ Hs), (sealed_opens _ _ _ _ Hs)|rewrite Hs]; cbn [rbind];
      rewrite E; do 3 f_equal; destruct q, plain; simpl in *; by subst.
Qed.

Lemma env_opens k stored plain : env_sealed k stored plain → map_results (open_sealed (A := cipher k)) stored = Ok plain.
Proof using laws.
  intros H. apply map_results_ok. intros name. specialize (H name). destruct (stored !! name) as [w|] eqn:Ew, (plain !! name) as [v|] eqn:Ev; try done.
  exists v. split; [|done]. unfold open_sealed. by rewrite (sealed_isSealed _ _ _ _ H), (sealed_opens _ _ _ _ H).
Qed.
Lemma accounts_open k stored plain : accounts_sealed k stored plain →
  list_results (λ i b, do! s := open_sealed (A := cipher k) (passwordName i) (ba_Password b) in Ok (with_password b s)) 0 stored = Ok plain.
Proof using laws.
  intros [Hl H]. apply list_results_ok; [done|]. intros j c Hc. assert (is_Some (plain !! j)) as [b Hb].
  { apply lookup_lt_is_Some. rewrite <- Hl. apply lookup_lt_is_Some. eauto. }
  destruct (H j b c Hb Hc) as (Hp & Hu & Hs). exists b. split; [|done]. change (0 + j)%nat with j.
  unfold open_sealed. rewrite (sealed_isSealed _ _ _ _ Hs), (sealed_opens _ _ _ _ Hs). cbn. destruct b, c; simpl in *; by subst.
Qed.
Lemma spec_opens k stored plain : spec_sealed k stored plain → openSpec (A := cipher k) stored = Ok plain.
Proof using laws.
  intros (e & q & l & -> & He & Hq & Hl). unfold openSpec.
  assert (openLogging (A := cipher k) (with_logging (with_proxy (with_env plain e) q) l) = Ok (with_proxy (with_env plain e) q)) as ->.
  { destruct (a_Logging plain) as [lp|] eqn:Elp.
    - rewrite (logging_opens k _ lp) by done. do 2 f_equal. destruct plain; simpl in *; by subst.
    - destruct l; [done|]. unfold openLogging. cbn. do 2 f_equal. destruct plain; simpl in *; by subst. }
  cbn [rbind]. change (a_Env (with_proxy (with_env plain e) q)) with e. rewrite (env_opens k _ _ He). cbn [rbind].
  change (a_Proxy (with_env (with_proxy (with_env plain e) q) (a_Env plain))) with q.
  destruct q as [q|], (a_Proxy plain) as [p|] eqn:Ep; try done.
  - destruct Hq as (accounts & -> & Ha). change (px_BasicAuth (with_accounts p accounts)) with accounts. rewrite (accounts_open k _ _ Ha). cbn [rbind].
    f_equal. destruct plain, p; simpl in *; by subst.
  - f_equal. destruct plain; simpl in *; by subst.
Qed.

(** What sealing writes is sealed. *)
Lemma seal_env_sealed k row plain e : map_results (seal (A := cipher k) (draw row)) plain = Ok e → env_sealed k e plain.
Proof using draw_size.
  intros H name. pose proof (map_results_spec _ _ _ H name) as Hn. destruct (plain !! name) as [v|]; [|by rewrite Hn].
  destruct Hn as (w & Hw & ->). by eapply seal_sealed.
Qed.
Lemma seal_accounts_sealed k row plain l : list_results (λ i b, do! s := seal (A := cipher k) (draw row) (passwordName i) (ba_Password b) in Ok (with_password b s)) 0 plain = Ok l →
  accounts_sealed k l plain.
Proof using draw_size.
  intros [Hl H]%list_results_spec. split; [done|]. intros i b c Hb Hc. destruct (H i b Hb) as (y & Hy & Ey). rewrite Hc in Ey. simplify_eq.
  apply rbind_ok in Hy as (w & Hw & Hy). injection Hy as <-. split_and!; [done|done|]. by eapply seal_sealed.
Qed.

(** Nothing sealed: what is stored is what it opens to, under any key. *)
Lemma env_same k k' stored plain : env_sealed k stored plain → plain = stored → env_sealed k' stored plain.
Proof using laws.
  intros H -> name. specialize (H name). destruct (stored !! name) as [v|]; [|done]. by apply sealed_differs in H.
Qed.
Lemma proxy_same k k' stored plain : proxy_sealed k stored plain → plain = stored → proxy_sealed k' stored plain.
Proof using laws.
  intros H ->. unfold proxy_sealed in *. destruct stored as [p|]; [|done]. destruct H as (l & E & [Hl H]). exists l. split; [done|]. split; [done|].
  assert (l = px_BasicAuth p) as -> by (by apply (f_equal px_BasicAuth) in E). intros i b c Hb Hc. destruct (H i b c Hb Hc) as (_ & _ & Hs). simplify_eq. by apply sealed_differs in Hs.
Qed.
Lemma logging_same k k' stored plain : logging_sealed k stored plain → plain = stored → logging_sealed k' stored plain.
Proof using laws.
  intros H ->. unfold logging_sealed in *. destruct stored as [q|]; [|done]. destruct H as (? & ? & H). split_and!; [done..|].
  destruct (log_Options q !! "splunk-token") as [v|]; [|done]. destruct H as [Hs|H]; [by apply sealed_differs in Hs|by right].
Qed.

(** A specification taken from one key to the next opens to the same under it. *)
Lemma reencryptSpec_sealed k k' row stored plain a changed : spec_sealed k stored plain →
  reencryptSpec draw (cipher k) (cipher k') row stored = Ok (a, changed) → spec_sealed k' a plain.
Proof using laws draw_size.
  intros Hs. unfold reencryptSpec. rewrite (spec_opens k stored plain Hs). cbn [rbind]. intros H. apply rbind_ok in H as (b & Hb & H). injection H as Ha _.
  destruct Hs as (e & q & l & -> & He & Hq & Hl).
  unfold sealSpec in Hb. apply rbind_ok in Hb as (b1 & H1 & Hb). apply rbind_ok in Hb as (b2 & H2 & H3).
  apply seal_env_inv in H1 as (env & -> & Henv). apply seal_accounts_inv in H2. change (a_Proxy (with_env plain env)) with (a_Proxy plain) in H2.
  change (a_Env (with_logging (with_proxy (with_env plain e) q) l)) with e in Ha. change (a_Proxy (with_logging (with_proxy (with_env plain e) q) l)) with q in Ha.
  change (a_Logging (with_logging (with_proxy (with_env plain e) q) l)) with l in Ha.
  assert (a_Env b = env ∧ proxy_sealed k' (a_Proxy b) (a_Proxy plain) ∧ logging_sealed k' (a_Logging b) (a_Logging plain)) as (Eb & Hq' & Hl').
  { assert (a_Env b2 = env ∧ proxy_sealed k' (a_Proxy b2) (a_Proxy plain) ∧ a_Logging b2 = a_Logging plain) as (E2 & P2 & L2).
    { destruct (a_Proxy plain) as [p|] eqn:Ep.
      - destruct H2 as (accounts & -> & Ha2). split_and!; [done| |done]. cbn. exists accounts. split; [done|]. by eapply seal_accounts_sealed.
      - subst b2. split_and!; [done| |done]. cbn. by rewrite Ep. }
    unfold seal_logging in H3. rewrite L2 in H3. destruct (a_Logging plain) as [lp|] eqn:Elp; [|injection H3 as <-; split_and!; [done..|by rewrite L2]].
    destruct (SecretLogOptions_cases b2 lp L2) as [[Es Hn]|(v & Es & Hv)]; rewrite Es in H3.
    - rewrite bool_decide_eq_true_2 in H3 by done. injection H3 as <-. split_and!; [done..|]. rewrite L2. cbn. split_and!; [done..|]. by rewrite Hn.
    - rewrite bool_decide_eq_false_2 in H3 by done. apply rbind_ok in H3 as (o & Ho & H3). injection H3 as <-. cbn [each_option] in Ho. rewrite Hv in Ho. cbn [default from_option id] in Ho.
      apply rbind_ok in Ho as (w & Hw & Ho). injection Ho as <-. split_and!; [done..|]. cbn. split_and!; [done|intros o Hne; by rewrite lookup_insert_ne|].
      rewrite Hv, lookup_insert_eq. left. by eapply seal_sealed. }
  rewrite Eb in Ha. apply seal_env_sealed in Henv.
  assert (∃ e', env_sealed k' e' (a_Env plain) ∧ (if negb (bool_decide (a_Env plain = e)) then with_env (with_logging (with_proxy (with_env plain e) q) l) env
      else with_logging (with_proxy (with_env plain e) q) l) = with_logging (with_proxy (with_env plain e') q) l) as (e' & He' & Ee).
  { destruct (bool_decide_reflect (a_Env plain = e)) as [E|]; [exists e; split; [by eapply env_same|done]|by exists env]. }
  assert (∃ q', proxy_sealed k' q' (a_Proxy plain) ∧ (if negb (bool_decide (a_Proxy plain = q)) then with_proxy (with_logging (with_proxy (with_env plain e') q) l) (a_Proxy b)
      else with_logging (with_proxy (with_env plain e') q) l) = with_logging (with_proxy (with_env plain e') q') l) as (q' & Hq'' & Eq).
  { destruct (bool_decide_reflect (a_Proxy plain = q)) as [E|]; [exists q; split; [by eapply proxy_same|done]|by exists (a_Proxy b)]. }
  rewrite Ee, Eq in Ha.
  destruct (bool_decide_reflect (a_Logging plain = l)) as [E|]; cbn [negb] in Ha; subst a.
  - exists e', q', l. split_and!; [done..|]. by eapply logging_same.
  - by exists e', q', (a_Logging b).
Qed.

(** A key that opens all of it is one it is sealed with, or nothing is sealed. *)
Lemma openSpec_parts k a p : openSpec (A := cipher k) a = Ok p →
  is_ok (openLogging (A := cipher k) a) = true ∧ is_ok (map_results (open_sealed (A := cipher k)) (a_Env a)) = true ∧
  match a_Proxy a with Some q => is_ok (list_results (λ i b, do! s := open_sealed (A := cipher k) (passwordName i) (ba_Password b) in Ok (with_password b s)) 0 (px_BasicAuth q)) = true | None => True end.
Proof using.
  unfold openSpec. intros H. apply rbind_ok in H as (a1 & H1 & H). apply rbind_ok in H as (env & H2 & H).
  assert (a_Env a1 = a_Env a ∧ a_Proxy a1 = a_Proxy a) as [Ee Ep].
  { unfold openLogging in H1. destruct (a_Logging a); [|injection H1 as <-; done]. apply rbind_ok in H1 as (o & _ & H1). by injection H1 as <-. }
  rewrite H1. rewrite Ee in H2. rewrite H2. split_and!; [done..|]. change (a_Proxy (with_env a1 env)) with (a_Proxy a1) in H. rewrite Ep in H.
  destruct (a_Proxy a); [|done]. apply rbind_ok in H as (l & -> & _). done.
Qed.
Lemma spec_fits k k' stored plain : spec_sealed k stored plain → is_ok (openSpec (A := cipher k') stored) = true → k ≠ k' → spec_sealed k' stored plain.
Proof using laws.
  intros (e & q & l & -> & He & Hq & Hl) Hok Hk. destruct (openSpec _) as [p|] eqn:E; [|done]. apply openSpec_parts in E as (E1 & E2 & E3).
  change (a_Env (with_logging (with_proxy (with_env plain e) q) l)) with e in E2. change (a_Proxy (with_logging (with_proxy (with_env plain e) q) l)) with q in E3.
  exists e, q, l. split_and!; [done|..].
  - intros name. specialize (He name). destruct (a_Env plain !! name) as [v|], (e !! name) as [w|] eqn:Ew; try done. exfalso.
    destruct (map_results _ e) as [out|] eqn:Eo; [|done]. pose proof (map_results_spec _ _ _ Eo name) as Hn. rewrite Ew in Hn. destruct Hn as (x & Hx & _).
    unfold open_sealed in Hx. rewrite (sealed_isSealed _ _ _ _ He) in Hx. pose proof (sealed_other_key _ _ _ _ _ Hk He) as Hno. by rewrite Hx in Hno.
  - unfold proxy_sealed in *. destruct q as [q|], (a_Proxy plain) as [p'|]; try done. destruct Hq as (accounts & -> & [Hlen Ha]). exists accounts. split; [done|]. split; [done|].
    intros i b c Hb Hc. destruct (Ha i b c Hb Hc) as (Hp & Hu & Hs). exfalso. change (px_BasicAuth (with_accounts p' accounts)) with accounts in E3.
    destruct (list_results _ 0 accounts) as [out|] eqn:Eo; [|done]. apply list_results_spec in Eo as [_ Eo]. destruct (Eo i c Hc) as (y & Hy & _). apply rbind_ok in Hy as (x & Hx & _).
    change (0 + i)%nat with i in Hx. unfold open_sealed in Hx. rewrite (sealed_isSealed _ _ _ _ Hs) in Hx. pose proof (sealed_other_key _ _ _ _ _ Hk Hs) as Hno. by rewrite Hx in Hno.
  - unfold logging_sealed in *. destruct l as [l|], (a_Logging plain) as [lp|]; try done. destruct Hl as (Hd & Ho & Ht). split_and!; [done..|].
    destruct (log_Options lp !! "splunk-token") as [v|], (log_Options l !! "splunk-token") as [w|] eqn:Ew; try done. destruct Ht as [Hs|Ht]; [|by right]. exfalso.
    unfold openLogging in E1. change (a_Logging (with_logging (with_proxy (with_env plain e) q) (Some l))) with (Some l) in E1.
    destruct (SecretLogOptions_cases (with_logging (with_proxy (with_env plain e) q) (Some l)) l eq_refl) as [[_ Hn]|(w' & Es & Hw)]; [congruence|].
    rewrite Es in E1. cbn [each_option] in E1. rewrite Ew in E1. cbn [default from_option id] in E1. rewrite (sealed_isSealed _ _ _ _ Hs) in E1.
    pose proof (sealed_other_key _ _ _ _ _ Hk Hs) as Hno. destruct (@open (cipher k') _ w); [done|]. done.
Qed.

(** ** The database *)

Definition column_sealed k (c : sealedColumn) (stored plain : list (string * string)) : Prop :=
  Forall2 (λ v p, v.1 = p.1 ∧ sealed_as k (sc_name c v.1) p.2 v.2) stored plain.
(** [plain]: the database as it would be if nothing were sealed. *)
Record holds (k : string) (db plain : database) : Prop := {
  ho_columns : ∀ c, c ∈ sealedColumns → column_sealed k c (readColumn db c) (readColumn plain c);
  ho_specs : Forall2 (λ s p, s.1 = p.1 ∧ spec_sealed k s.2 p.2) (specs db) (specs plain) }.
(** The key column of each table is a primary key. *)
Definition distinct_keys (plain : database) : Prop := ∀ c, c ∈ sealedColumns → NoDup (readColumn plain c).*1.

Lemma set_value_other key sealed (rows : list (string * string)) : (key ∉ rows.*1) → set_value key sealed <$> rows = rows.
Proof using.
  induction rows as [|r rows IH]; [done|]. cbn. intros [Hne Hn]%not_elem_of_cons. rewrite IH by done. unfold set_value. by destruct (String.eqb_spec r.1 key).
Qed.
Lemma column_keys k c stored plain : column_sealed k c stored plain → stored.*1 = plain.*1.
Proof using. induction 1 as [|v p l l' [E _] _ IH]; [done|]. cbn. by rewrite E, IH. Qed.
Lemma reencrypt_values_sealed k k' c values : ∀ pv dn pd out, column_sealed k c values pv → column_sealed k' c dn pd → NoDup (dn ++ values)%list.*1 →
  reencrypt_values draw c (cipher k) (cipher k') values (dn ++ values)%list = Ok out → column_sealed k' c out (pd ++ pv)%list.
Proof using laws draw_size.
  induction values as [|v rest IH]; intros pv dn pd out Hv Hdn Hd H; cbn [reencrypt_values] in H.
  - apply Forall2_nil_inv_l in Hv as ->. injection H as <-. by rewrite !app_nil_r.
  - apply Forall2_cons_inv_l in Hv as (p & pr & [Ep Hs] & Hrest & ->). rewrite (sealed_opens _ _ _ _ Hs) in H. apply rbind_ok in H as (w & Hw & H).
    rewrite fmap_app, fmap_cons in Hd. apply NoDup_app in Hd as (Hd1 & Hd2 & Hd3). apply NoDup_cons in Hd3 as [Hd3 Hd4].
    rewrite fmap_app, fmap_cons, (set_value_other v.1 w dn), (set_value_other v.1 w rest) in H; [|done|intros Hx; apply (Hd2 v.1 Hx); by left].
    assert (set_value v.1 w v = (v.1, w)) as Ev by (unfold set_value; by rewrite String.eqb_refl). rewrite Ev in H.
    change ((v.1, w) :: rest)%list with ([(v.1, w)] ++ rest)%list in H. rewrite app_assoc in H.
    change (p :: pr)%list with ([p] ++ pr)%list. rewrite app_assoc. apply (IH pr (dn ++ [(v.1, w)])%list (pd ++ [p])%list); [done| | |done].
    + apply Forall2_app; [done|]. repeat constructor; [done|]. cbn. by eapply seal_sealed.
    + rewrite <- app_assoc, fmap_app. cbn. apply NoDup_app. split_and!; [done| |by apply NoDup_cons]. intros x Hx. by apply Hd2.
Qed.
Lemma readColumn_insert db c rows c' : readColumn (mk_database (<[sc_table c := rows]> (columns db)) (specs db)) c' = if String.eqb (sc_table c) (sc_table c') then rows else readColumn db c'.
Proof using. unfold readColumn. cbn. destruct (String.eqb_spec (sc_table c) (sc_table c')) as [->|]; [by rewrite lookup_insert_eq|by rewrite lookup_insert_ne]. Qed.
Lemma reencryptColumns_sealed k k' plain l : ∀ db n r, NoDup (sc_table <$> l) → reencryptColumns draw (cipher k) (cipher k') l db n = Ok r →
  specs r.1 = specs db ∧ (∀ c, (sc_table c ∉ sc_table <$> l) → readColumn r.1 c = readColumn db c) ∧
  (∀ c, c ∈ l → NoDup (readColumn plain c).*1 → column_sealed k c (readColumn db c) (readColumn plain c) → column_sealed k' c (readColumn r.1 c) (readColumn plain c)).
Proof using laws draw_size.
  induction l as [|c l IH]; intros db n r Hd H; cbn [reencryptColumns] in H.
  { injection H as <-. split_and!; [done..|]. by intros c ?%elem_of_nil. }
  apply rbind_ok in H as ([db1 n1] & H1 & H). unfold reencryptColumn in H1. apply rbind_ok in H1 as (rows & Hrows & H1). injection H1 as <- <-.
  cbn in Hd. apply NoDup_cons in Hd as [Hc Hd]. destruct (IH _ _ _ Hd H) as (E1 & E2 & E3). cbn [fst snd] in *. split_and!; [done|..].
  - intros c' [Hne Hn]%not_elem_of_cons. rewrite (E2 c' Hn), readColumn_insert. by destruct (String.eqb_spec (sc_table c) (sc_table c')).
  - intros c' [-> |Hc']%elem_of_cons Hk Hs.
    + rewrite (E2 c Hc), readColumn_insert, String.eqb_refl. apply (reencrypt_values_sealed k k' c _ (readColumn plain c) [] [] rows Hs ltac:(constructor)); [|done].
      cbn [app]. by rewrite (column_keys _ _ _ _ Hs).
    + apply (E3 c' Hc' Hk). rewrite readColumn_insert. destruct (String.eqb_spec (sc_table c) (sc_table c')) as [Et|]; [|done].
      exfalso. apply Hc. rewrite Et. by apply list_elem_of_fmap_2.
Qed.
Lemma reencryptSpecs_sealed k k' l : ∀ pl r, Forall2 (λ s p, s.1 = p.1 ∧ spec_sealed k s.2 p.2) l pl → reencryptSpecs draw (cipher k) (cipher k') l = Ok r →
  Forall2 (λ s p, s.1 = p.1 ∧ spec_sealed k' s.2 p.2) r.1 pl.
Proof using laws draw_size.
  induction l as [|s l IH]; intros pl r Hs H; cbn [reencryptSpecs] in H.
  - apply Forall2_nil_inv_l in Hs as ->. injection H as <-. constructor.
  - apply Forall2_cons_inv_l in Hs as (p & pr & [Ei Hp] & Hrest & ->). destruct (reencryptSpec _ _ _ _ _) as [[a changed]|] eqn:E; [|done].
    apply rbind_ok in H as (r' & Hr & H). injection H as <-. constructor; [split; [done|by eapply reencryptSpec_sealed]|by apply IH].
Qed.
Lemma reencrypted_holds k k' db plain db' counts : distinct_keys plain → holds k db plain → reencrypted draw (cipher k) (cipher k') db = Ok (db', counts) → holds k' db' plain.
Proof using laws draw_size.
  intros Hd [Hc Hs] H. unfold reencrypted in H. apply rbind_ok in H as (r & Hr & H). apply rbind_ok in H as (l & Hl & H). injection H as <- <-.
  destruct (reencryptColumns_sealed k k' plain sealedColumns db 0%Z r) as (E1 & _ & E3); [|done|].
  { apply (bool_decide_unpack _). vm_compute. exact I. }
  constructor; [|cbn; rewrite E1 in Hl; by eapply reencryptSpecs_sealed]. intros c Hx. unfold readColumn. cbn. apply (E3 c Hx); [by apply Hd|by apply Hc].
Qed.

Lemma keyFits_holds k k' db plain : holds k db plain → keyFits db (cipher k') = true → holds k' db plain.
Proof using laws.
  intros [Hc Hs] H. destruct (decide (k = k')) as [->|Hk]; [done|]. unfold keyFits in H. apply andb_true_iff in H as [H1 H2]. constructor.
  - intros c Hx. rewrite forallb_Forall, Forall_forall in H1. specialize (H1 c Hx). specialize (Hc c Hx). unfold column_sealed in *.
    destruct Hc as [|v p l pl [E Hv] _]; [constructor|]. cbn in H1. apply andb_true_iff in H1 as [H1 _]. by rewrite (sealed_other_key _ _ _ _ _ Hk Hv) in H1.
  - revert H2. induction Hs as [|s p l pl [E Hsp] _ IH]; cbn; [constructor|]. intros [H2 H3]%andb_true_iff. constructor; [|by apply IH]. split; [done|]. by eapply spec_fits.
Qed.
Lemma holds_keyFits k db plain : holds k db plain → keyFits db (cipher k) = true.
Proof using laws.
  intros [Hc Hs]. unfold keyFits. apply andb_true_iff. split; apply forallb_Forall, Forall_forall.
  - intros c Hx. specialize (Hc c Hx). apply forallb_Forall. unfold column_sealed in Hc. induction Hc as [|v p l pl [E Hv] _ IH]; constructor; [|done]. by rewrite (sealed_opens _ _ _ _ Hv).
  - intros s Hin. apply list_elem_of_lookup in Hin as (i & Hi). destruct (Forall2_lookup_l _ _ _ _ _ Hs Hi) as (p & _ & _ & Hp). by rewrite (spec_opens _ _ _ Hp).
Qed.
End Sealed.

(** ** Rotating *)

Abbreviation kstate := (Effects.St machine kanswer).
Definition parsed (content : option string) : option string :=
  match content with Some c => match read_key c with Ok k => Some k | Err _ => None end | None => None end.
(** The key a start finds: in the environment, or in the key file. *)
Definition source (environment : string) (m : machine) : option string :=
  if String.eqb environment "" then parsed (m_key m) else match decodeEncryptionKey environment with Ok k => Some k | Err _ => None end.
Definition pending_key (m : machine) : option string := parsed (m_pending m).

Local Abbreviation KM := (Effects.M machine kanswer).
Local Abbreviation ran A := (option A).
Section Programs.
Context (cipher : string → AEAD) (laws : cipher_laws cipher) (draw : string → string → result string).
Context (draw_size : ∀ k row name n, draw row name = Ok n → String.length n = @NonceSize (cipher k)).
Context (environment : string) (plain : database) (distinct : distinct_keys plain).
Context (world : list (Effects.happened kanswer) → ∀ c, kanswer c).
Local Abbreviation holds := (holds cipher).

(** One key opens everything: the one a start finds or, when a rotation may be unfinished, the pending one. *)
Definition within (unfinished : Prop) (m : machine) : Prop :=
  ∃ k0 k, source environment m = Some k0 ∧ holds k (m_db m) plain ∧ (k = k0 ∨ unfinished ∧ pending_key m = Some k).
Definition recoverable : machine → Prop := within True.
(** The running agent has the key the next start finds. *)
Definition agreed (st : Store) (m : machine) : Prop :=
  ∃ k, source environment m = Some k ∧ current (aead st) = cipher k ∧ holds k (m_db m) plain ∧ keyFromEnv st = negb (String.eqb environment "").

Lemma triple_ran {A B} P (m : KM (option A)) (k : A → KM (option B)) Q' (Q : option B → kstate → Prop) :
  triple P m (λ r s, match r with None => Q None s | Some a => Q' a s end) → (∀ a, triple (Q' a) (k a) Q) → triple P (bind_ran m k) Q.
Proof using. intros Hm Hk. unfold bind_ran. eapply triple_then; [exact Hm|]. intros [a|]; [apply Hk|by apply triple_ret]. Qed.
Definition on_disk {A} (Q : A → machine → Prop) (a : A) (s : kstate) : Prop := Q a s.1.
Lemma triple_attempt {X} (P : machine → Prop) (m : KM (fate * X)) whole left (Q : option error → machine → Prop) : (∀ s, (m s).2.1 = s.1) →
  (∀ x, P x → Q (Some None) (whole x)) → (∀ x e l, P x → Q (Some (Some e)) (left l x)) → (∀ x l, P x → Q None (left l x)) →
  triple (λ s, P s.1) (attempt m whole left) (on_disk Q).
Proof using.
  intros Hm H1 H2 H3 s Hs. unfold attempt, on_disk. rewrite then_eq. specialize (Hm s). destruct (m s) as [[f x] s1]. cbn [fst snd] in *. rewrite <- Hm in Hs.
  destruct f; rewrite then_set; cbn; auto.
Qed.
Lemma triple_on {A} (P : machine → Prop) c (k : kanswer c → KM A) Q : (∀ a, triple (λ s, P s.1) (k a) Q) → triple (λ s, P s.1) (mthen (Effects.perform world c) k) Q.
Proof using. intros H s Hs. rewrite then_perform. by apply H. Qed.
Lemma triple_look {A B} (P : machine → Prop) (f : machine → B) (k : B → KM A) Q : (∀ b, triple (λ s, P s.1 ∧ f s.1 = b) (k b) Q) → triple (λ s, P s.1) (mthen (mget f) k) Q.
Proof using. intros H s Hs. rewrite then_get. by apply H. Qed.
Lemma done_with {A} (P : machine → Prop) (a : A) (Q : A → machine → Prop) : (∀ m, P m → Q a m) → triple (λ s, P s.1) (mret a) (on_disk Q).
Proof using. intros H. apply triple_ret. intros s Hs. by apply H. Qed.

Lemma newAEAD_ok key next : newAEAD cipher key = Ok next → String.length key = 32%nat ∧ next = cipher key.
Proof using. unfold newAEAD. destruct (Nat.eqb_spec (String.length key) EncryptionKeySize); [|done]. by intros [= <-]. Qed.
Lemma parsed_line key : String.length key = 32%nat → parsed (Some (key_line key)) = Some key.
Proof using. intros H. unfold parsed. by rewrite read_key_line. Qed.

(** Under the key that is found; under the new one, which is in the pending file. *)
Definition before (k0 : string) (m : machine) : Prop := source environment m = Some k0 ∧ holds k0 (m_db m) plain.
Definition moved (k0 key : string) (m : machine) : Prop := source environment m = Some k0 ∧ holds key (m_db m) plain ∧ pending_key m = Some key.
Definition written (k0 key : string) (m : machine) : Prop := before k0 m ∧ m_pending m = Some (key_line key).
Lemma before_recoverable k0 m : before k0 m → recoverable m.
Proof using. intros [H1 H2]. exists k0, k0. auto. Qed.
Lemma moved_recoverable k0 key m : moved k0 key m → recoverable m.
Proof using. intros (H1 & H2 & H3). exists k0, key. auto. Qed.
Lemma before_pending k0 p m : before k0 m → before k0 (set_pending p m).
Proof using. done. Qed.

Lemma fits_before k0 k key : triple (λ s, before k0 s.1 ∨ moved k0 key s.1) (fits world (cipher k)) (on_disk (λ b m, (before k0 m ∨ moved k0 key m) ∧ (b = true → holds k (m_db m) plain))).
Proof using laws.
  apply (triple_on (λ m, before k0 m ∨ moved k0 key m)). intros [e|]; [by apply (done_with (λ m, before k0 m ∨ moved k0 key m))|]. apply triple_get. intros s Hs. split; [done|]. intros Hb.
  destruct Hs as [[_ Hh]|(_ & Hh & _)]; by eapply keyFits_holds.
Qed.

Lemma RotateKey_recoverable in_memory st : triple (λ s, m_store s.1 = Some st ∧ agreed st s.1) (RotateKey cipher draw world true in_memory) (on_disk (λ _, recoverable)).
Proof using laws draw_size distinct.
  unfold RotateKey. apply (triple_look (λ m, m_store m = Some st ∧ agreed st m)). intros [st'|]; [|intros s [[E _] E']; congruence].
  intros s [[E Hag] E']. assert (st' = st) as -> by congruence. destruct Hag as (k0 & Hs & Hc & Hh & He). clear E E'. revert s Hs Hh.
  assert (∀ T, triple (λ s, before k0 s.1) T (on_disk (λ _ : ran (rotation_error + Rotation), recoverable)) → ∀ s, source environment s.1 = Some k0 → holds k0 (m_db s.1) plain →
    on_disk (λ _ : ran (rotation_error + Rotation), recoverable) (T s).1 (T s).2) as Hgo by (intros T HT s H1 H2; by apply HT).
  apply Hgo. clear Hgo. cbn [negb andb]. apply (triple_on (before k0)). intros [e|key]; [apply done_with, before_recoverable|].
  destruct (newAEAD cipher key) as [next|e] eqn:En; [|apply done_with, before_recoverable]. apply newAEAD_ok in En as [Hlen ->]. rewrite Hc.
  eapply (triple_then _ _ _ (λ _ s, before k0 s.1)).
  { destruct (keyFromEnv st); [|by apply triple_ret]. apply (triple_on (before k0)). intros err. apply (triple_look (before k0)). intros p. apply triple_ret. by intros s [H _]. }
  intros [|]; [apply done_with, before_recoverable|].
  apply (triple_ran _ _ _ (λ err s, before k0 s.1 ∧ (err = None → m_pending s.1 = Some (key_line key)))).
  { eapply triple_conseq; [apply (triple_attempt (before k0) _ _ _ (λ r m, match r with None => recoverable m | Some err => before k0 m ∧ (err = None → m_pending m = Some (key_line key)) end))|done|by intros [a|] s].
    - done.
    - by intros x Hx.
    - intros x e [l|] Hx; (split; [done|done]).
    - intros x [l|] Hx; by apply (before_recoverable k0). }
  intros [e|]; [apply triple_ret; intros s [H _]; by eapply before_recoverable|].
  apply (triple_ran _ _ _ (λ r s, match r with (c, inl _) => before k0 s.1 ∨ c = true ∧ moved k0 key s.1 | (_, inr _) => moved k0 key s.1 end)).
  { eapply (triple_conseq _ (λ s : kstate, written k0 key s.1)); [|intros s [H1 H2]; split; [done|by apply H2]|intros a s H; exact H].
    unfold reencrypt. apply (triple_on (λ m, written k0 key m)). intros [e|]; [apply triple_ret; intros s [H _]; by left|].
    apply (triple_look (λ m, written k0 key m)). intros db. destruct (reencrypted _ _ _ db) as [[db' counts]|e] eqn:Er.
    2:{ apply triple_ret. intros s [[H _] _]. by left. }
    assert (∀ m, (written k0 key m) ∧ m_db m = db → moved k0 key (set_db db' m)) as Hmoved.
    { intros m [[[H1 H2] H3] <-]. split_and!; [done|by eapply reencrypted_holds|]. unfold pending_key. cbn. rewrite H3. by apply parsed_line. }
    apply (triple_ran _ _ _ (λ err s, match err with Some _ => before k0 s.1 ∨ moved k0 key s.1 | None => moved k0 key s.1 end)).
    - eapply triple_conseq; [apply (triple_attempt (λ m, (written k0 key m) ∧ m_db m = db) _ _ _
        (λ r m, match r with None => recoverable m | Some (Some _) => before k0 m ∨ moved k0 key m | Some None => moved k0 key m end))|done|by intros [[a|]|] s].
      + done.
      + apply Hmoved.
      + intros m e [|] Hm; cbn; [right; by apply Hmoved|left; apply Hm].
      + intros m [|] Hm; cbn; [eapply moved_recoverable, Hmoved, Hm|eapply before_recoverable, Hm].
    - intros [e|]; apply triple_ret; intros s H; [destruct H; [by left|by right]|done]. }
  intros [committed [e|[values deployments]]].
  - apply (triple_then _ _ _ (λ b s, (before k0 s.1 ∨ moved k0 key s.1) ∧ (b = true → before k0 s.1))).
    { destruct committed.
      - eapply triple_conseq; [apply (fits_before k0 k0 key)|intros s [H|[_ H]]; by auto|]. intros b s [H1 H2]. split; [done|]. intros Hb. split; [|by apply H2].
        by destruct H1 as [[? _]|[? _]].
      - apply triple_ret. intros s [H|[? _]]; [|done]. by split; [left|]. }
    intros harmless. cbn [andb]. apply (triple_ran _ _ _ (λ _ s, recoverable s.1)); [|intros err; by apply done_with].
    destruct harmless; [|apply triple_ret; intros s [[H|H] _]; [by eapply before_recoverable|by eapply moved_recoverable]].
    eapply triple_conseq; [apply (triple_attempt (before k0) _ _ _ (λ _, recoverable))|intros s [_ H]; by apply H|by intros [a|] s].
    + done.
    + intros x Hx. by apply (before_recoverable k0).
    + intros x e' [|] Hx; by apply (before_recoverable k0).
    + intros x [|] Hx; by apply (before_recoverable k0).
  - eapply (triple_then _ _ _ (λ _ s, moved k0 key s.1)); [by apply triple_set|]. intros _. cbv zeta. cbn [andb].
    destruct (keyFromEnv st) eqn:Ee; cbn [negb]; [apply done_with; intros m; apply moved_recoverable|].
    apply (triple_ran _ _ _ (λ _ s, recoverable s.1)); [|intros err; by apply done_with].
    assert (String.eqb environment "" = true) as HE by (symmetry in He; by apply negb_false_iff in He).
    assert (∀ m, moved k0 key m → recoverable (renamed m)) as Hren.
    { intros m (H1 & H2 & H3). exists key, key. split_and!; [|done|by left]. unfold source, renamed. rewrite HE. cbn. unfold pending_key in H3. by destruct (m_pending m). }
    eapply triple_conseq; [apply (triple_attempt (moved k0 key) _ _ _ (λ _, recoverable))|done|by intros [a|] s].
    + done.
    + apply Hren.
    + intros x e [|] Hx; [by apply Hren|by eapply moved_recoverable].
    + intros x [|] Hx; [by apply Hren|by eapply moved_recoverable].
Qed.

(** ** Starting *)

Context (u : Prop).

(** Everything that is tried is done, and what is read can be read. *)
Definition faithful_answer (c : kcall) : kanswer c → Prop :=
  match c with
  | KStat | KReadKey | KReadPending | KReadDB | KBegin => λ a, a = None
  | KWriteKey _ | KWritePending _ | KCommit | KRemovePending | KRename => λ a, a.1 = Did
  | KRandom | KLog _ => λ _, True
  end.
Definition faithful : Prop := ∀ h c, faithful_answer c (world h c).

Lemma triple_asked {A} (P : machine → Prop) c (k : kanswer c → KM A) Q : (∀ a, (faithful → faithful_answer c a) → triple (λ s, P s.1) (k a) Q) → triple (λ s, P s.1) (mthen (Effects.perform world c) k) Q.
Proof using. intros H s Hs. rewrite then_perform. apply H; [|done]. intros Hf. apply Hf. Qed.
(** A write whose every outcome leaves [P], and what is done when it was done. *)
Lemma triple_write {X B} (P P' : machine → Prop) (m : KM (fate * X)) whole left (k : error → KM (ran B)) (Q : ran B → machine → Prop) :
  (∀ s, (m s).2.1 = s.1 ∧ (faithful → (m s).1.1 = Did)) → (∀ x, P x → P' (whole x)) →
  (∀ x e l, ¬ faithful → P x → triple (λ s, s.1 = left l x) (k (Some e)) (on_disk Q)) → (∀ x l, ¬ faithful → P x → Q None (left l x)) →
  triple (λ s, P' s.1) (k None) (on_disk Q) → triple (λ s, P s.1) (bind_ran (attempt m whole left) k) (on_disk Q).
Proof using.
  intros Hm Hw Hf Hg Hk s Hs. unfold bind_ran, attempt. rewrite !then_eq. destruct (Hm s) as [E Hfa]. destruct (m s) as [[f x] s1]. cbn [fst snd] in *. rewrite <- E in Hs.
  destruct f as [|e|]; rewrite !then_set; cbn [fst snd mret].
  - apply Hk. by apply Hw.
  - apply (Hf s1.1 e x); [|done|done]. intros F. by specialize (Hfa F).
  - apply Hg; [|done]. intros F. by specialize (Hfa F).
Qed.

(** What an answer of a start means. *)
Definition settled (st : Store) (m : machine) : Prop := agreed st m ∧ m_pending m = None.
Definition moved_elsewhere (m : machine) : Prop :=
  u ∧ environment ≠ "" ∧ ∃ k0 k, source environment m = Some k0 ∧ ¬ holds k0 (m_db m) plain ∧ pending_key m = Some k ∧ holds k (m_db m) plain.
Definition outcome (more : Store → machine → Prop) (r : ran (text + Store)) (m : machine) : Prop :=
  within u m ∧ (∀ st, r = Some (inr st) → settled st m ∧ more st m) ∧
  (faithful → (∃ st, r = Some (inr st)) ∨ r = Some (inl rotated_elsewhere) ∧ moved_elsewhere m).
Definition at_start (k0 : string) (m : machine) : Prop := source environment m = Some k0 ∧ ∃ k, holds k (m_db m) plain ∧ (k = k0 ∨ u ∧ pending_key m = Some k).
Lemma at_start_within k0 m : at_start k0 m → within u m.
Proof using. intros (H1 & k & H2 & H3). exists k0, k. auto. Qed.
Lemma outcome_failed more e m : ¬ faithful → within u m → outcome more (Some (inl e)) m.
Proof using. intros Hf Hr. split_and!; [done|by intros st [=]|done]. Qed.
Lemma outcome_gone more m : ¬ faithful → within u m → outcome more None m.
Proof using. intros Hf Hr. split_and!; [done|by intros st [=]|done]. Qed.
Lemma outcome_ok (more : Store → machine → Prop) st m : settled st m → more st m → outcome more (Some (inr st)) m.
Proof using.
  intros [(k & H1 & H2 & H3 & H4) Hp] Hm. split_and!; [exists k, k; auto| |by left; exists st]. intros st' [= <-]. split; [split; [exists k; auto|done]|done].
Qed.

Lemma fits_asked k : ∀ Q P, (∀ b, triple (λ s, P s.1 ∧ (b = true → keyFits (m_db s.1) (cipher k) = true) ∧ (faithful → b = keyFits (m_db s.1) (cipher k))) (Q b) (on_disk (outcome (λ _ _, True)))) →
  triple (λ s, P s.1) (mthen (fits world (cipher k)) Q) (on_disk (outcome (λ _ _, True))).
Proof using.
  intros Q P H s Hs. unfold fits. rewrite then_eq, then_perform. pose proof (λ F : faithful, F s.2 KReadDB) as Ha. destruct (world s.2 KReadDB) as [e|].
  - apply H. split_and!; [done|done|]. intros F. by specialize (Ha F).
  - cbn. by apply H.
Qed.

Lemma read_key_length content k : read_key content = Ok k → String.length k = 32%nat.
Proof using.
  unfold read_key, ParseEncryptionKey, decodeEncryptionKey. destruct (hex_decode _) as [t|]; [|done]. destruct (Nat.eqb_spec (String.length t) EncryptionKeySize) as [E|]; [|done]. by intros [= <-].
Qed.
Lemma at_start_here k0 m : source environment m = Some k0 → holds k0 (m_db m) plain → at_start k0 m.
Proof using. intros H1 H2. split; [done|]. exists k0. auto. Qed.
(** With the key that is found opening everything, the pending one goes. *)
Definition found (k0 : string) (m : machine) : Prop := source environment m = Some k0 ∧ holds k0 (m_db m) plain.
Definition alone (k0 : string) (m : machine) : Prop := found k0 m ∧ m_pending m = None.
Lemma alone_settled k0 st m : current (aead st) = cipher k0 → keyFromEnv st = negb (String.eqb environment "") → alone k0 m → settled st m.
Proof using. intros Hc He [[H1 H2] H3]. split; [|done]. by exists k0. Qed.

Lemma settle_discards k0 st what : current (aead st) = cipher k0 → keyFromEnv st = negb (String.eqb environment "") →
  triple (λ s, found k0 s.1) (bind_ran (remove_pending world) (λ err, match err with
    | Some e => mret (Some (inl (L "remove the pending key: " :: e)))
    | None => mthen (Effects.perform world (KLog what)) (λ _, mret (Some (inr st))) end)) (on_disk (outcome (λ _ _, True))).
Proof using.
  intros Hc He. assert (∀ m, found k0 m → within u m) as Hr by (intros m [H1 H2]; by apply (at_start_within k0), at_start_here).
  apply (triple_write _ (alone k0)).
  - intros s. split; [done|]. intros F. by apply (F s.2 KRemovePending).
  - by intros x [H1 H2].
  - intros e x l Hf Hx. apply triple_ret. intros s E. unfold on_disk. rewrite E. apply outcome_failed; [done|]. by destruct l; apply Hr.
  - intros x l Hf Hx. apply outcome_gone; [done|]. by destruct l; apply Hr.
  - apply (triple_on (alone k0)). intros x. apply triple_ret. intros s Hs. apply outcome_ok; [by eapply alone_settled|done].
Qed.
Lemma settle_completes key st what : String.eqb environment "" = true → current (aead st) = cipher key → keyFromEnv st = false →
  triple (λ s, (within u s.1 ∧ pending_key s.1 = Some key) ∧ holds key (m_db s.1) plain) (bind_ran (rename_pending world) (λ err, match err with
    | Some e => mret (Some (inl (L "complete the key rotation: " :: e)))
    | None => mthen (Effects.perform world (KLog what)) (λ _, mret (Some (inr st))) end)) (on_disk (outcome (λ _ _, True))).
Proof using.
  intros HE Hc He. assert (∀ m, pending_key m = Some key → holds key (m_db m) plain → alone key (renamed m)) as Hren.
  { intros m H1 H2. split; [|done]. split; [|done]. unfold source, renamed. rewrite HE. cbn. unfold pending_key in H1. by destruct (m_pending m). }
  assert (∀ m, alone key m → within u m) as Hr by (intros m [[H1 H2] _]; by apply (at_start_within key), at_start_here).
  apply (triple_write (λ m, (within u m ∧ pending_key m = Some key) ∧ holds key (m_db m) plain) (alone key)).
  - intros s. split; [done|]. intros F. by apply (F s.2 KRename).
  - intros x [[_ H1] H2]. by apply Hren.
  - intros e x l Hf [[H0 H1] H2]. apply triple_ret. intros s E. unfold on_disk. rewrite E. apply outcome_failed; [done|]. destruct l; cbn; [by apply Hr, Hren|done].
  - intros x l Hf [[H0 H1] H2]. apply outcome_gone; [done|]. destruct l; cbn; [by apply Hr, Hren|done].
  - apply (triple_on (alone key)). intros x. apply triple_ret. intros s Hs. apply outcome_ok; [|done]. eapply alone_settled; [done| |done]. by rewrite HE.
Qed.

Lemma settle_outcome k0 st : current (aead st) = cipher k0 → keyFromEnv st = negb (String.eqb environment "") →
  triple (λ s, at_start k0 s.1) (settleRotation cipher world st) (on_disk (outcome (λ _ _, True))).
Proof using laws.
  intros Hc He. unfold settleRotation. apply (triple_asked (at_start k0)). intros [e|] Ha.
  { apply triple_ret. intros s Hs. apply outcome_failed; [|by eapply at_start_within]. intros F. by specialize (Ha F). }
  apply (triple_look (at_start k0)). intros [data|].
  2:{ apply triple_ret. intros s [(H1 & k & H2 & H3) Hp]. apply outcome_ok; [|done]. apply (alone_settled k0); [done..|]. split; [|done]. split; [done|].
      destruct H3 as [->|[_ H3]]; [done|]. unfold pending_key in H3. by rewrite Hp in H3. }
  rewrite Hc. apply (fits_asked k0 _ (λ m, at_start k0 m ∧ m_pending m = Some data)). intros [|].
  { eapply triple_conseq; [by apply settle_discards|intros s ([(H1 & k & H2 & _) _] & H4 & _); split; [done|by eapply keyFits_holds, H4]|done]. }
  set (P := λ m, (at_start k0 m ∧ m_pending m = Some data) ∧ (faithful → false = keyFits (m_db m) (cipher k0))).
  assert (∀ m, P m → within u m) as Hr by (intros m [[H _] _]; by eapply at_start_within).
  assert (∀ m, P m → faithful → ∃ k, read_key data = Ok k ∧ holds k (m_db m) plain) as Hpend.
  { intros m [[(H1 & k & H2 & H3) Hp] Hno] F. exists k. split; [|done]. destruct H3 as [->|[_ H3]]; [specialize (Hno F); by rewrite (holds_keyFits _ laws _ _ _ H2) in Hno|].
    unfold pending_key in H3. rewrite Hp in H3. unfold parsed in H3. destruct (read_key data); congruence. }
  apply (triple_conseq _ (λ s : kstate, P s.1) _ _ (on_disk (outcome (λ _ _, True)))); [|intros s (H1 & _ & H2); by split|done].
  assert (∀ m, P m → faithful → u) as unfinished_move.
  { intros m [[(_ & k & H2 & H3) _] Hno] F. destruct H3 as [->|[Hu _]]; [|done]. specialize (Hno F). by rewrite (holds_keyFits _ laws _ _ _ H2) in Hno. }
  destruct (read_key data) as [key|e] eqn:Ek.
  2:{ apply triple_ret. intros s Hs. assert (¬ faithful) by (intros F; by destruct (Hpend _ Hs F) as (k & ? & _)). by apply outcome_failed; [|apply Hr]. }
  unfold newAEAD. rewrite (read_key_length _ _ Ek). cbn [negb Nat.eqb EncryptionKeySize]. apply (fits_asked key _ P). intros [|]; cbn [negb].
  2:{ apply triple_ret. intros s (Hs & _ & Hno). assert (¬ faithful) as Hf; [|by apply outcome_failed; [|apply Hr]].
      intros F. destruct (Hpend _ Hs F) as (k & [= <-] & Hh). specialize (Hno F). by rewrite (holds_keyFits _ laws _ _ _ Hh) in Hno. }
  assert (∀ m, P m → keyFits (m_db m) (cipher key) = true → (within u m ∧ pending_key m = Some key) ∧ holds key (m_db m) plain) as Hmoved.
  { intros m Hm Hk. split; [split; [by apply Hr|]|]; [unfold pending_key; rewrite (proj2 (proj1 Hm)); unfold parsed; by rewrite Ek|].
    destruct (proj1 (proj1 Hm)) as (_ & k & Hh & _). by eapply keyFits_holds. }
  destruct (keyFromEnv st) eqn:Ee.
  - apply triple_ret. intros s (Hs & Hk & _). destruct (Hmoved _ Hs (Hk eq_refl)) as [[H1 H2] H3]. split_and!; [done|by intros st' [=]|]. intros F. right. split; [done|].
    split; [by apply (unfinished_move _ Hs F)|]. split; [by intros ->|]. exists k0, key. split_and!; [apply Hs| |done|done]. intros Hh. destruct Hs as [_ Hno]. specialize (Hno F). by rewrite (holds_keyFits _ laws _ _ _ Hh) in Hno.
  - eapply triple_conseq; [apply (settle_completes key (mk_store (rotate (aead st) (cipher key)) key false))|intros s (Hs & Hk & _); by apply Hmoved; [|apply Hk]|done].
    + symmetry in He. by apply negb_false_iff in He.
    + done.
    + done.
Qed.

(** Nothing is left to seal. *)
Lemma keyring_opens kr name stored p : @open (current kr) name stored = Ok p → @open (keyring_AEAD kr) name stored = Ok p.
Proof using.
  unfold open. destruct (DecodeString _) as [raw|]; [|done]. cbn [NonceSize Open keyring_AEAD]. destruct (_ <? _)%nat; [done|]. unfold keyring_Open.
  by destruct (@Open (current kr) _ _ _).
Qed.
Lemma legacy_unchanged k kr (l pl : list (Z * App)) : current kr = cipher k → Forall2 (λ s p, s.1 = p.1 ∧ spec_sealed cipher k s.2 p.2) l pl → encrypt_legacy draw (keyring_AEAD kr) l = Ok l.
Proof using laws.
  intros Hc. induction 1 as [|s p l pl [_ (e & q & lg & Es & He & _ & _)] _ IH]; [done|]. cbn [encrypt_legacy].
  assert (a_Env s.2 = e) as Ee by (rewrite Es; done).
  rewrite (map_results_ok _ _ (a_Env s.2)).
  - cbn [rbind]. rewrite IH. cbn [rbind]. f_equal. f_equal. destruct s as [i a]. cbn. f_equal. by destruct a.
  - intros name. rewrite Ee. specialize (He name). destruct (e !! name) as [w|], (a_Env p.2 !! name) as [v|]; try done. exists w. split; [|done].
    unfold legacy_value. rewrite (sealed_isSealed _ _ _ _ _ He). by rewrite (keyring_opens kr name w v) by (rewrite Hc; by eapply sealed_opens).
Qed.
Lemma settled_within st m : settled st m → within u m.
Proof using. intros [(k & H1 & _ & H2 & _) _]. exists k, k. auto. Qed.
Lemma legacy_settled st : triple (λ s, settled st s.1) (encryptLegacyEnv draw world st)
  (on_disk (λ r m, settled st m ∧ match r with Some (inr _) => True | _ => ¬ faithful end)).
Proof using laws.
  unfold encryptLegacyEnv. apply (triple_asked (settled st)). intros [e|] Ha.
  { apply triple_ret. intros s Hs. split; [done|]. intros F. by specialize (Ha F). }
  apply (triple_look (settled st)). intros db. set (P := λ m, settled st m ∧ m_db m = db).
  assert (∀ m, P m → encrypt_legacy draw (keyring_AEAD (aead st)) (specs db) = Ok (specs db)) as Hl.
  { intros m [[(k & _ & Hc & Hh & _) _] <-]. eapply legacy_unchanged; [done|]. apply Hh. }
  intros s Hs. rewrite (Hl _ Hs). assert (mk_database (columns db) (specs db) = db) as -> by (by destruct db). revert s Hs.
  change (triple (λ s, P s.1) (bind_ran (commit world db) (λ err, mret (Some (match err with Some e => inl e | None => inr tt end))))
    (on_disk (λ r m, settled st m ∧ match r with Some (inr _) => True | _ => ¬ faithful end))).
  assert (∀ m, P m → settled st (set_db db m)) as Hd by (intros [db' kf p st'] [H1 H2]; cbn in *; by subst).
  apply (triple_write _ (settled st)).
  - intros s. split; [done|]. intros F. by apply (F s.2 KCommit).
  - apply Hd.
  - intros e x l Hf Hx. apply triple_ret. intros s E. unfold on_disk. rewrite E. split; [|done]. destruct l; cbn; [by apply Hd|apply Hx].
  - intros x l Hf Hx. split; [|done]. destruct l; cbn; [by apply Hd|apply Hx].
  - by apply triple_ret.
Qed.

Lemma source_length m k : source environment m = Some k → String.length k = 32%nat.
Proof using.
  unfold source, parsed, decodeEncryptionKey. destruct (String.eqb environment "").
  - destruct (m_key m) as [c|]; [|done]. destruct (read_key c) as [k'|] eqn:E; [|done]. intros [= <-]. by eapply read_key_length.
  - destruct (hex_decode environment) as [t|]; [|done]. destruct (Nat.eqb_spec (String.length t) EncryptionKeySize) as [E|]; [|done]. by intros [= <-].
Qed.
Lemma resolved : triple (λ s, within u s.1) (ResolveEncryptionKey world environment)
  (on_disk (λ r m, within u m ∧ match r with Some (inr key) => source environment m = Some key | _ => ¬ faithful end)).
Proof using.
  unfold ResolveEncryptionKey. destruct (String.eqb environment "") eqn:HE; cbn [negb].
  - apply (triple_asked (within u)). intros [e|] Ha.
    { apply (triple_look (within u)). intros f. apply triple_ret. intros s [Hs _]. split; [done|]. intros F. by specialize (Ha F). }
    apply (triple_look (within u)). intros [data|].
    + apply triple_ret. intros s [Hs Hk]. split; [done|]. destruct Hs as (k0 & _ & Hs & _). unfold source in *. rewrite HE, Hk in *. unfold parsed in *.
      by destruct (read_key data).
    + intros s [(k0 & _ & Hs & _) Hk]. unfold source in Hs. by rewrite HE, Hk in Hs.
  - apply triple_ret. intros s Hs. split; [done|]. destruct Hs as (k0 & _ & Hs & _). unfold source in *. rewrite HE in *. by destruct (decodeEncryptionKey environment).
Qed.

Lemma outcome_weaker more r m : outcome (λ _ _, True) r m → match r with Some (inr _) => False | _ => True end → outcome more r m.
Proof using. intros (H1 & H2 & H3) Hr. split_and!; [done| |done]. by intros st ->. Qed.
Lemma start_outcome : triple (λ s, within u s.1) (start cipher draw world environment) (on_disk (outcome (λ st m, m_store m = Some st))).
Proof using laws.
  unfold start. eapply (triple_then _ _ _ (λ _ s, within u s.1)); [by apply triple_set|]. intros _.
  apply (triple_ran _ _ _ (λ r s, within u s.1 ∧ match r with inr key => source environment s.1 = Some key | inl _ => ¬ faithful end)).
  { eapply triple_conseq; [apply resolved|done|]. intros [r|] s [H1 H2]; [done|]. by apply outcome_gone. }
  intros [e|key]; [apply triple_ret; intros s [H1 H2]; by apply outcome_failed|].
  intros s [Hr Hs]. unfold newAEAD. rewrite (source_length _ _ Hs). cbn [negb Nat.eqb EncryptionKeySize].
  assert (at_start key s.1) as Ha by (destruct Hr as (k0 & k & E & Hh & Hk); assert (k0 = key) as -> by congruence; split; [done|by exists k]). clear Hr Hs. revert s Ha.
  change (triple (λ s, at_start key s.1) (bind_ran (settleRotation cipher world (mk_store (mk_keyring (cipher key) None) key (negb (String.eqb environment "")))) (λ r, match r with
    | inl e => mret (Some (inl e))
    | inr st => bind_ran (encryptLegacyEnv draw world st) (λ r, match r with inl e => mret (Some (inl e)) | inr _ => mthen (mset (set_store (Some st))) (λ _, mret (Some (inr st))) end) end))
    (on_disk (outcome (λ st m, m_store m = Some st)))).
  apply (triple_ran _ _ _ (λ r s, outcome (λ _ _, True) (Some r) s.1)).
  { eapply triple_conseq; [by apply (settle_outcome key)|done|]. intros [r|] s H; [done|]. by apply outcome_weaker. }
  intros [e|st]; [apply triple_ret; intros s H; by apply outcome_weaker|].
  apply (triple_ran _ _ _ (λ r s, settled st s.1 ∧ match r with inr _ => True | inl _ => ¬ faithful end)).
  { eapply triple_conseq; [apply legacy_settled|intros s (_ & H & _); by apply H|]. intros [r|] s [H1 H2]; [done|]. apply outcome_gone; [done|by eapply settled_within]. }
  intros [e|x]; [apply triple_ret; intros s [H1 H2]; apply outcome_failed; [done|by eapply settled_within]|].
  apply (triple_then _ _ _ (λ _ s, settled st s.1 ∧ m_store s.1 = Some st)); [by apply triple_set; intros s [H _]|]. intros _. apply triple_ret. intros s [H1 H2]. by apply outcome_ok.
Qed.
End Programs.

(** ** The life of a key *)

Section Life.
Context (cipher : string → AEAD).
Definition draws (draw : string → string → result string) : Prop := ∀ k row name n, draw row name = Ok n → String.length n = @NonceSize (cipher k).

(** An installation, by what its environment holds of the key and what its
    values are: one that was set up is started in any world, and started again;
    saves values, and rotates in any world, while its key is the one the next
    start finds and the one that opens the database; and where the agent tells that the
    environment holds the old key, it is given the new one. *)
Inductive life : string → database → machine → Prop :=
  | life_first environment plain m k : distinct_keys plain → source environment m = Some k → holds cipher k (m_db m) plain → life environment plain m
  | life_start environment plain m draw world h : life environment plain m → draws draw → life environment plain (start cipher draw world environment (m, h)).2.1
  | life_save environment plain m st db plain' : life environment plain m → agreed cipher environment plain st m → distinct_keys plain' →
      (∀ k, current (aead st) = cipher k → holds cipher k db plain') → life environment plain' (set_db db m)
  | life_rotate environment plain m st draw world h in_memory : life environment plain m → draws draw → m_store m = Some st → agreed cipher environment plain st m →
      life environment plain (RotateKey cipher draw world true in_memory (m, h)).2.1
  | life_told environment plain m : life environment plain m → moved_elsewhere cipher environment plain True m →
      ∀ k, pending_key m = Some k → holds cipher k (m_db m) plain → life (FormatEncryptionKey k) plain m.

Lemma told_source k m : String.length k = 32%nat → source (FormatEncryptionKey k) m = Some k.
Proof.
  intros Hl. unfold source, FormatEncryptionKey, decodeEncryptionKey. pose proof (hex_length k) as Hh. rewrite hex_roundtrip, Hl.
  by destruct (hex_encode k); [simpl in Hh; lia|].
Qed.
Lemma pending_length k m : pending_key m = Some k → String.length k = 32%nat.
Proof.
  unfold pending_key, parsed. destruct (m_pending m) as [c|]; [|done]. destruct (read_key c) eqn:E; [|done]. intros [= <-]. by eapply read_key_length.
Qed.
Lemma life_recoverable (laws : cipher_laws cipher) environment plain m : life environment plain m → distinct_keys plain ∧ recoverable cipher environment plain m.
Proof.
  induction 1 as [environment plain m k Hd Hs Hh|environment plain m draw world h _ [Hd Hr] Hdraw|environment plain m st db plain' _ _ Ha Hd Hh
    |environment plain m st draw world h in_memory _ [Hd _] Hdraw Hst Ha|environment plain m _ [Hd _] _ k Hp Hh].
  - split; [done|]. exists k, k. auto.
  - split; [done|]. by apply (start_outcome cipher laws draw environment plain world True (m, h)).
  - split; [done|]. destruct Ha as (k & Hs & Hc & _ & _). exists k, k. split_and!; [done|by apply Hh|by left].
  - split; [done|]. apply (RotateKey_recoverable cipher laws draw Hdraw environment plain Hd world in_memory st (m, h)). by split.
  - split; [done|]. exists k, k. split_and!; [by eapply told_source, pending_length|done|by left].
Qed.
End Life.

(** C10: as long as a rotation begins, and values are saved, only while the agent
    runs with the key that the next start finds and that opens the database (a
    rotation begun after one whose rename failed can lose the key,
    [rotating_again_loses_the_key]): whatever writes fail or are the last thing
    the agent does, in such rotations and in the starts after them, every value
    can be read with a key that is on the disk or in the environment.  A start that is not cut off and can read
    and write what it has to ends with that key, nothing pending and the next
    start finding the same key; or, where the environment holds the old key, it
    refuses and names the file with the new one, and given that one it starts. *)
Theorem rotation_recoverable (cipher : string → AEAD) (environment : string) (plain : database) (m : machine) :
  cipher_laws cipher → life cipher environment plain m →
  recoverable cipher environment plain m ∧
  ∀ draw world h, draws cipher draw → faithful world →
    let r := start cipher draw world environment (m, h) in
    (∃ st, r.1 = Some (inr st) ∧ m_store r.2.1 = Some st ∧ agreed cipher environment plain st r.2.1 ∧ m_pending r.2.1 = None) ∨
    (environment ≠ "" ∧ r.1 = Some (inl rotated_elsewhere) ∧ ∃ k, pending_key r.2.1 = Some k ∧
      ∀ world' h', faithful world' → let r' := start cipher draw world' (FormatEncryptionKey k) (r.2.1, h') in
        ∃ st, r'.1 = Some (inr st) ∧ agreed cipher (FormatEncryptionKey k) plain st r'.2.1 ∧ m_pending r'.2.1 = None).
Proof.
  intros laws Hl. destruct (life_recoverable _ laws _ _ _ Hl) as [_ Hr]. split; [done|]. intros draw world h Hdraw F r.
  destruct (start_outcome cipher laws draw environment plain world True (m, h) Hr) as (_ & Hok & Hend). fold r in Hok, Hend.
  destruct (Hend F) as [[st E]|[E (_ & HE & k0 & k & Hs & _ & Hp & Hh)]].
  - left. exists st. destruct (Hok st E) as [[H1 H2] H3]. auto.
  - right. split_and!; [done|done|]. exists k. split; [done|]. intros world' h' F'.
    destruct (start_outcome cipher laws draw (FormatEncryptionKey k) plain world' False (r.2.1, h')) as (_ & Hok' & Hend').
    { exists k, k. split_and!; [by eapply told_source, pending_length|done|by left]. }
    destruct (Hend' F') as [[st E']|[_ [[] _]]]. exists st. destruct (Hok' st E') as [[H1 H2] _]. auto.
Qed.

(** ** A toy cipher *)

Definition toy_gcm (key : string) : AEAD := toy_AEAD (hex_encode key ++ ".").
Lemma hex_dot a : ∀ b x y, is_Some (cut_prefix (hex_encode a ++ "." ++ x) (hex_encode b ++ "." ++ y)) → a = b.
Proof.
  assert (∀ n, (n < 16)%N → hex_digit n ≠ "."%char) as Hdot.
  { intros n H. destruct n as [|q]; [done|]. do 5 (try (destruct q as [q|q|]; try done; try lia)). }
  assert (∀ c, (code c / 16 < 16)%N ∧ (code c mod 16 < 16)%N) as Hc.
  { intros c. pose proof (N_ascii_bounded c) as H. fold (code c) in H. split; [apply N.Div0.div_lt_upper_bound; lia|apply N.mod_lt; lia]. }
  assert (∀ s t n m c, cut_prefix (String (hex_digit n) s) (String c t) = m → is_Some m → hex_digit n = c ∧ cut_prefix s t = m) as Hcut.
  { intros s t n m c. cbn [cut_prefix]. destruct (Ascii.eqb_spec (hex_digit n) c); [done|]. intros <- [? [=]]. }
  induction a as [|c a IH]; intros [|d b] x y; cbn [hex_encode append]; [done| | |].
  - cbn [cut_prefix]. destruct (Ascii.eqb_spec "."%char (hex_digit (code d / 16))) as [E|]; [|by intros [? ?]]. symmetry in E. by apply Hdot in E; [|apply Hc].
  - intros H. destruct (Hcut _ _ _ _ _ eq_refl H) as [E _]. by apply Hdot in E; [|apply Hc].
  - intros H. destruct (Hcut _ _ _ _ _ eq_refl H) as [E1 E]. rewrite <- E in H. destruct (Hcut _ _ _ _ _ eq_refl H) as [E2 E3]. rewrite <- E3 in H. apply IH in H as ->.
    f_equal. apply (f_equal unhex) in E1, E2. rewrite !unhex_digit in E1, E2 by apply Hc. simplify_eq. pose proof (N.div_mod' (code c) 16) as A1. pose proof (N.div_mod' (code d) 16) as A2.
    rewrite <- (ascii_N_embedding c), <- (ascii_N_embedding d). fold (code c) (code d). f_equal. congruence.
Qed.
Lemma toy_gcm_laws : cipher_laws toy_gcm.
Proof.
  constructor; [intros k; apply toy_laws|done| |].
  - intros k n p d. cbn [Seal toy_gcm toy_AEAD]. rewrite !string_length_app. lia.
  - intros k k' n p d Hk. cbn [Open Seal toy_gcm toy_AEAD]. destruct (cut_prefix _ _) eqn:E; [|done]. exfalso. apply Hk. symmetry.
    rewrite !string_app_assoc in E. by eapply hex_dot; eexists.
Qed.
Definition toy_draw : string → string → result string := λ _ _, Ok "nn".
Definition key1 := "0123456789abcdef0123456789abcdef".
Definition key2 := "the second key, of 32 bytes too.".
Definition key3 := "the third key has thirty-two too".
Definition toy_plain : database := mk_database {["secrets" := [("TOKEN", "hunter2")]]} [].
Definition toy_db (key : string) : database :=
  mk_database {["secrets" := [("TOKEN", encPrefix ++ EncodeToString ("nn" ++ @Seal (toy_gcm key) "nn" "hunter2" "TOKEN"))]]} [].
Definition toy_store : Store := mk_store (mk_keyring (toy_gcm key1) None) key1 false.
Definition toy_machine : machine := mk_machine (toy_db key1) (Some (key_line key1)) None (Some toy_store).
(** A world that draws [key]; and one in which a call is answered otherwise. *)
Definition toy_answers (key : string) (h : list (happened kanswer)) (c : kcall) : kanswer c :=
  match c with
  | KRandom => inr key
  | KStat | KReadKey | KReadPending | KReadDB | KBegin => None
  | KWriteKey _ | KWritePending _ => (Did, None)
  | KCommit | KRemovePending | KRename => (Did, true)
  | KLog _ => tt
  end.
Definition but_rename (key : string) (h : list (happened kanswer)) (c : kcall) : kanswer c :=
  match c with KRename => (Failed [L "input/output error"], false) | c => toy_answers key h c end.
Definition but_pending (key : string) (h : list (happened kanswer)) (c : kcall) : kanswer c :=
  match c with KWritePending _ => (Failed [L "no space left on device"], Some 0%nat) | c => toy_answers key h c end.

Lemma toy_column key c : sc_table c ≠ "secrets" → column_sealed toy_gcm key c (readColumn (toy_db key) c) (readColumn toy_plain c).
Proof. intros H. unfold readColumn, toy_db, toy_plain, columns. rewrite !lookup_singleton_ne by done. constructor. Qed.
Lemma toy_holds key : holds toy_gcm key (toy_db key) toy_plain.
Proof.
  constructor; [|constructor]. intros c Hc. unfold sealedColumns in Hc. apply elem_of_cons in Hc as [->|Hc].
  - constructor; [|constructor]. split; [done|]. by exists "nn".
  - repeat (apply elem_of_cons in Hc as [->|Hc]; [by apply toy_column|]). by apply elem_of_nil in Hc.
Qed.
Lemma toy_distinct : distinct_keys toy_plain.
Proof. intros c Hc. apply (bool_decide_unpack _). unfold sealedColumns in Hc. by repeat (apply elem_of_cons in Hc as [->|Hc]; [vm_compute|]); [..|apply elem_of_nil in Hc]. Qed.
Lemma toy_agreed : agreed toy_gcm "" toy_plain toy_store toy_machine.
Proof. exists key1. split_and!; [vm_compute; reflexivity|done|apply toy_holds|done]. Qed.
Lemma toy_life : life toy_gcm "" toy_plain toy_machine.
Proof. apply (life_first _ _ _ _ key1); [apply toy_distinct|vm_compute; reflexivity|apply toy_holds]. Qed.
Lemma toy_draws : draws toy_gcm toy_draw.
Proof. by intros k row name n [= <-]. Qed.

(** The rename fails, and the next start completes the rotation. *)
Definition half_rotated : machine := (RotateKey toy_gcm toy_draw (but_rename key2) true false (toy_machine, [])).2.1.
Example rotation_recoverable_witness :
  m_key half_rotated = Some (key_line key1) ∧ m_pending half_rotated = Some (key_line key2) ∧
  m_key (start toy_gcm toy_draw (toy_answers key3) "" (half_rotated, [])).2.1 = Some (key_line key2) ∧ recoverable toy_gcm "" toy_plain half_rotated.
Proof.
  split; [vm_compute; reflexivity|]. split; [vm_compute; reflexivity|]. split; [vm_compute; reflexivity|].
  apply (rotation_recoverable toy_gcm "" toy_plain half_rotated toy_gcm_laws).
  apply (life_rotate _ _ _ _ toy_store); [apply toy_life|apply toy_draws|done|apply toy_agreed].
Defined.

(** A rotation whose last step, the rename, fails leaves the new key in the
    pending file alone, and the agent that answered so runs on.  When it
    rotates again, the pending file is written over before anything else: cut
    short by a full disk, no key on the disk opens the values any more, though
    every write but two was done, and a start refuses for good. *)
Theorem rotating_again_loses_the_key :
  recoverable toy_gcm "" toy_plain half_rotated ∧
  let again := (RotateKey toy_gcm toy_draw (but_pending key3) true false (half_rotated, [])).2.1 in
  ¬ recoverable toy_gcm "" toy_plain again ∧
  (start toy_gcm toy_draw (toy_answers key3) "" (again, [])).1 = Some (inl unsettled).
Proof.
  split.
  - apply (life_recoverable toy_gcm toy_gcm_laws "" toy_plain). apply (life_rotate _ _ _ _ toy_store); [apply toy_life|apply toy_draws|done|apply toy_agreed].
  - cbv zeta. split; [|vm_compute; reflexivity]. intros (k0 & k & Hs & Hh & Hk).
    assert (k = key1) as ->.
    { destruct Hk as [->|[_ Hk]]; [|vm_compute in Hk; discriminate Hk]. vm_compute in Hs. by injection Hs as <-. }
    apply (holds_keyFits _ toy_gcm_laws) in Hh. vm_compute in Hh. discriminate Hh.
Qed.
