(* ===== verification/Containers.v ===== *)
(** * Containers (agent/internal/deploy: container.go, createReplicas of
      rollout.go, the container of jobs.go, backups_before.go and backups.go;
      agent/internal/docker: CreateContainer of runtime.go, naming.go and the
      configure functions of runtime_*.go)

    What the engine asks a container to be, and what the runtime asks Docker
    for.  Docker's answers are calls (Effects.v); the client library's
    network.PortFrom is a parameter. *)

From stdpp Require Import sorting.
From S2P Require Import Prelude GoStrings GoNetip Effects SpecTypes SpecUnits SpecNames SpecValidate Store Backups.
From Stdlib Require Import String.
Local Open Scope string_scope.
Local Open Scope Z_scope.

(** ** What is asked for (runtime.go, runtime_security.go) *)

Record JobSpec := mk_jobspec { js_Name : string; js_RunID : Z }.
Record docker_Tmpfs := mk_docker_tmpfs { dt_Path : string; dt_SizeBytes : Z }.
Record docker_Security := mk_docker_security {
  ds_ReadOnly : bool; ds_Tmpfs : list docker_Tmpfs; ds_DropCapabilities : bool; ds_Capabilities : list string; ds_NonRoot : bool }.
Record Mount := mk_mount { mo_Volume : string; mo_Path : string }.
Record PortBinding := mk_binding { pb_Port : Z; pb_HostPort : Z; pb_Address : string; pb_Protocol : string }.
Record ContainerSpec := mk_cspec {
  cs_App : string; cs_DeploymentID : Z; cs_Sequence : Z; cs_Replica : Z; cs_Image : string; cs_Env : gmap string string; cs_NanoCPUs : Z; cs_MemoryBytes : Z;
  cs_Mounts : list Mount; cs_Publish : list PortBinding; cs_Entrypoint : list string; cs_Command : list string; cs_User : string;
  cs_LogDriver : string; cs_LogOptions : gmap string string; cs_Job : option JobSpec; cs_Init : bool; cs_Beside : option string; cs_Security : option docker_Security }.

(** containerFor: what every container made from a deployment starts from. *)
Definition security_of (s : Security) : docker_Security :=
  mk_docker_security (sec_ReadOnly s) ((λ t, mk_docker_tmpfs (t_Path t) (t_SizeBytes t)) <$> sec_Tmpfs s)
    (match sec_Capabilities s with Some _ => true | None => false end) (default [] (sec_Capabilities s)) (sec_NonRoot s).
Definition containerFor (d : Deployment) : ContainerSpec :=
  let a := d_Spec d in
  mk_cspec (d_Application d) (d_ID d) (d_Sequence d) 0 (a_Image a) (a_Env a) (NanoCPUs (a_Resources a)) (res_MemoryBytes (a_Resources a))
    [] [] [] [] (a_User a) "" ∅ None (a_Init a) None (security_of <$> a_Security a).

Definition with_process (entrypoint command : list string) (c : ContainerSpec) : ContainerSpec :=
  mk_cspec (cs_App c) (cs_DeploymentID c) (cs_Sequence c) (cs_Replica c) (cs_Image c) (cs_Env c) (cs_NanoCPUs c) (cs_MemoryBytes c) (cs_Mounts c) (cs_Publish c)
    entrypoint command (cs_User c) (cs_LogDriver c) (cs_LogOptions c) (cs_Job c) (cs_Init c) (cs_Beside c) (cs_Security c).
Definition with_job (name : string) (run : Z) (c : ContainerSpec) : ContainerSpec :=
  mk_cspec (cs_App c) (cs_DeploymentID c) (cs_Sequence c) (cs_Replica c) (cs_Image c) (cs_Env c) (cs_NanoCPUs c) (cs_MemoryBytes c) (cs_Mounts c) (cs_Publish c)
    (cs_Entrypoint c) (cs_Command c) (cs_User c) (cs_LogDriver c) (cs_LogOptions c) (Some (mk_jobspec name run)) (cs_Init c) (cs_Beside c) (cs_Security c).
Definition with_mounts (l : list Mount) (c : ContainerSpec) : ContainerSpec :=
  mk_cspec (cs_App c) (cs_DeploymentID c) (cs_Sequence c) (cs_Replica c) (cs_Image c) (cs_Env c) (cs_NanoCPUs c) (cs_MemoryBytes c) l (cs_Publish c)
    (cs_Entrypoint c) (cs_Command c) (cs_User c) (cs_LogDriver c) (cs_LogOptions c) (cs_Job c) (cs_Init c) (cs_Beside c) (cs_Security c).
Definition with_replica (i : Z) (publish : list PortBinding) (driver : string) (options : gmap string string) (c : ContainerSpec) : ContainerSpec :=
  mk_cspec (cs_App c) (cs_DeploymentID c) (cs_Sequence c) i (cs_Image c) (cs_Env c) (cs_NanoCPUs c) (cs_MemoryBytes c) (cs_Mounts c) publish
    (cs_Entrypoint c) (cs_Command c) (cs_User c) driver options (cs_Job c) (cs_Init c) (cs_Beside c) (cs_Security c).
Definition with_beside (container : string) (c : ContainerSpec) : ContainerSpec :=
  mk_cspec (cs_App c) (cs_DeploymentID c) (cs_Sequence c) (cs_Replica c) (cs_Image c) (cs_Env c) (cs_NanoCPUs c) (cs_MemoryBytes c) (cs_Mounts c) (cs_Publish c)
    (cs_Entrypoint c) (cs_Command c) (cs_User c) (cs_LogDriver c) (cs_LogOptions c) (cs_Job c) true (Some container) (cs_Security c).

Definition own_mounts (d : Deployment) : list Mount := (λ v, mk_mount (v_Name v) (v_Path v)) <$> a_Volumes (d_Spec d).
(** createReplicas, for one replica. *)
Definition replica_spec (d : Deployment) (i : Z) : ContainerSpec :=
  let a := d_Spec d in
  with_process (a_Entrypoint a) (a_Command a)
    (with_replica i ((λ p, mk_binding (p_Port p) (p_Host p) (p_Address p) (p_Protocol p)) <$> a_Publish a)
       (match a_Logging a with Some l => log_Driver l | None => "" end) (match a_Logging a with Some l => log_Options l | None => ∅ end)
       (with_mounts (own_mounts d) (containerFor d))).
(** launchJob: the hook, a scheduled job, a command. *)
Definition job_spec (d : Deployment) (job : string) (run : Z) (command : list string) : ContainerSpec :=
  with_job job run (with_process (a_Entrypoint (d_Spec d)) command (containerFor d)).
(** backupBeforeBeside: next to the replica, with its volumes. *)
Definition before_spec (d : Deployment) (replica : string) (run : Z) (before : list string) : ContainerSpec :=
  with_mounts (own_mounts d) (with_beside replica (with_job beforeJobName run (with_process [] before (containerFor d)))).
(** verifyBackup: with throwaway volumes. *)
Definition verify_spec (d : Deployment) (run : Z) : ContainerSpec :=
  with_mounts ((λ v, mk_mount (ScratchVolume (v_Name v) run) (v_Path v)) <$> a_Volumes (d_Spec d))
    (with_job VerifyJob run (with_process (a_Entrypoint (d_Spec d)) (a_Command (d_Spec d)) (containerFor d))).

(** ** Names and labels (naming.go, VolumeName) *)

Definition LabelManaged := "com.shipwick.managed".
Definition LabelApp := "com.shipwick.app".
Definition LabelDeployment := "com.shipwick.deployment".
Definition LabelReplica := "com.shipwick.replica".
Definition LabelJob := "com.shipwick.job".
Definition LabelRun := "com.shipwick.run".
Definition ContainerName (app : string) (sequence replica : Z) : string := "shipwick_" ++ app ++ "_" ++ itoa sequence ++ "_" ++ itoa replica.
Definition JobContainerName (app job : string) (run : Z) : string := "shipwick_" ++ app ++ "_job_" ++ job ++ "_" ++ itoa run.
Definition VolumeName (app volume : string) : string := "shipwick_" ++ app ++ "_" ++ volume.
Definition containerLabels (app : string) (deployment replica : Z) : gmap string string :=
  {[LabelManaged := "true"; LabelApp := app; LabelDeployment := itoa deployment; LabelReplica := itoa replica]}.

(** ** What Docker is asked for (runtime.go) *)

(** mount.Mount of the two types there are. *)
Inductive host_mount := VolumeMount (source target : string) | TmpfsMount (target : string) (size mode : Z).
Record HostConfig := mk_host {
  NetworkMode : string; RestartPolicy : string; h_NanoCPUs : Z; h_Memory : Z; h_MemorySwap : Z; h_Mounts : list host_mount; Privileged : bool;
  SecurityOpt : list string; h_LogType : string; h_LogConfig : gmap string string; h_Init : bool; PortBindings : list (string * (option Addr * string));
  ReadonlyRootfs : bool; CapDrop : list string; CapAdd : list string }.
(** Nil keeps the image's entrypoint and command. *)
Record Config := mk_config {
  c_Image : string; c_Env : list string; c_Labels : gmap string string; c_Entrypoint : option (list string); c_Cmd : option (list string); c_User : string; ExposedPorts : list string }.

Definition base_config (s : ContainerSpec) : Config :=
  mk_config (cs_Image s) (merge_sort str_le ((λ e, e.1 ++ "=" ++ e.2) <$> map_to_list (cs_Env s))) (containerLabels (cs_App s) (cs_DeploymentID s) (cs_Replica s)) None None "" [].
Definition base_host (network : string) (mounts : list host_mount) (s : ContainerSpec) : HostConfig :=
  mk_host network "no" (cs_NanoCPUs s) (cs_MemoryBytes s) (cs_MemoryBytes s) mounts false ["no-new-privileges:true"] "json-file"
    {["max-size" := "10m"; "max-file" := "3"]} false [] false [] [].

(** runtime_process.go *)
Definition configureProcess (s : ContainerSpec) (c : Config) : Config :=
  let given (l : list string) was := match l with [] => was | l => Some l end in
  mk_config (c_Image c) (c_Env c) (c_Labels c) (given (cs_Entrypoint s) (c_Entrypoint c)) (given (cs_Command s) (c_Cmd c))
    (if String.eqb (cs_User s) "" then c_User c else cs_User s) (ExposedPorts c).

Section Runtime.
(** network.PortFrom: the port, by its key in a map, of a number of 16 bits and a protocol that is known. *)
Variable PortFrom : Z → string → option string.
(** runtime_publish.go *)
Definition bind_port (p : PortBinding) : option (string * (option Addr * string)) :=
  match PortFrom (pb_Port p mod 65536) (pb_Protocol p) with
  | None => None
  | Some port =>
      if String.eqb (pb_Address p) "" then Some (port, (None, itoa (pb_HostPort p))) else
      match ParseAddr (pb_Address p) with None => None | Some addr => Some (port, (Some addr, itoa (pb_HostPort p))) end
  end.
Definition configurePublish (s : ContainerSpec) (c : Config) (h : HostConfig) : Config * HostConfig :=
  if bool_decide (cs_Publish s = []) then (c, h) else
  let bound := omap bind_port (cs_Publish s) in
  (mk_config (c_Image c) (c_Env c) (c_Labels c) (c_Entrypoint c) (c_Cmd c) (c_User c) bound.*1,
   mk_host (NetworkMode h) (RestartPolicy h) (h_NanoCPUs h) (h_Memory h) (h_MemorySwap h) (h_Mounts h) (Privileged h) (SecurityOpt h) (h_LogType h) (h_LogConfig h) (h_Init h) bound
     (ReadonlyRootfs h) (CapDrop h) (CapAdd h)).

(** runtime_logging.go *)
Definition logCaps : gmap string string := {["max-size" := "10m"; "max-file" := "3"]}.
Definition configureLogging (s : ContainerSpec) (h : HostConfig) : HostConfig :=
  if String.eqb (cs_LogDriver s) "" then h else
  let opts := if String.eqb (cs_LogDriver s) "json-file" || String.eqb (cs_LogDriver s) "local" then cs_LogOptions s ∪ logCaps else cs_LogOptions s in
  mk_host (NetworkMode h) (RestartPolicy h) (h_NanoCPUs h) (h_Memory h) (h_MemorySwap h) (h_Mounts h) (Privileged h) (SecurityOpt h) (cs_LogDriver s) opts (h_Init h) (PortBindings h)
    (ReadonlyRootfs h) (CapDrop h) (CapAdd h).
(** runtime_init.go *)
Definition configureInit (s : ContainerSpec) (h : HostConfig) : HostConfig :=
  mk_host (NetworkMode h) (RestartPolicy h) (h_NanoCPUs h) (h_Memory h) (h_MemorySwap h) (h_Mounts h) (Privileged h) (SecurityOpt h) (h_LogType h) (h_LogConfig h) (h_Init h || cs_Init s) (PortBindings h)
    (ReadonlyRootfs h) (CapDrop h) (CapAdd h).
(** runtime_jobs.go *)
Definition configureJob (s : ContainerSpec) (name : string) (c : Config) : string * Config :=
  match cs_Job s with
  | None => (name, c)
  | Some j =>
      (JobContainerName (cs_App s) (js_Name j) (js_RunID j),
       mk_config (c_Image c) (c_Env c) (<[LabelRun := itoa (js_RunID j)]> (<[LabelJob := js_Name j]> (delete LabelReplica (c_Labels c)))) (c_Entrypoint c) (c_Cmd c) (c_User c) (ExposedPorts c))
  end.
(** runtime_beside.go *)
Definition configureBeside (s : ContainerSpec) (c : Config) (h : HostConfig) : Config * HostConfig :=
  match cs_Beside s with
  | None => (c, h)
  | Some container =>
      (mk_config (c_Image c) (c_Env c) (c_Labels c) (Some []) (c_Cmd c) (c_User c) (ExposedPorts c),
       mk_host ("container:" ++ container) (RestartPolicy h) (h_NanoCPUs h) (h_Memory h) (h_MemorySwap h) (h_Mounts h) (Privileged h) (SecurityOpt h) (h_LogType h) (h_LogConfig h) (h_Init h) (PortBindings h)
         (ReadonlyRootfs h) (CapDrop h) (CapAdd h))
  end.
(** runtime_security.go *)
Definition sticky : Z := 1023.
Definition configureSecurity (s : ContainerSpec) (h : HostConfig) : HostConfig :=
  match cs_Security s with
  | None => h
  | Some x =>
      mk_host (NetworkMode h) (RestartPolicy h) (h_NanoCPUs h) (h_Memory h) (h_MemorySwap h) (h_Mounts h ++ ((λ t, TmpfsMount (dt_Path t) (dt_SizeBytes t) sticky) <$> ds_Tmpfs x))%list
        (Privileged h) (SecurityOpt h) (h_LogType h) (h_LogConfig h) (h_Init h) (PortBindings h) (ds_ReadOnly x)
        (if ds_DropCapabilities x then ["ALL"] else CapDrop h) (if ds_DropCapabilities x then ds_Capabilities x else CapAdd h)
  end.
Definition NonRoot (image user imageUser : string) : option string := RootUser (if String.eqb user "" then imageUser else user).

(** ** CreateContainer *)

Inductive dcall :=
  | DInspectImage (image : string) | DVolumeCreate (name : string) (labels : gmap string string)
  | DContainerCreate (name : string) (c : Config) (h : HostConfig) | DConnectServices (container : string) | DRemoveContainer (container : string).
(** The user an image's configuration names; the id of what was created. *)
Definition danswer (c : dcall) : Type :=
  match c with
  | DInspectImage _ => or_error string
  | DContainerCreate _ _ _ => or_error string
  | DVolumeCreate _ _ | DConnectServices _ | DRemoveContainer _ => error
  end.
Abbreviation DM := (Effects.M unit danswer).
Context (world : list (Effects.happened danswer) → ∀ c, danswer c).
Local Abbreviation perform := (Effects.perform world).
(** The network of replicas. *)
Context (network : string).

Definition CheckNonRoot (image user : string) : DM (or_error unit) :=
  let! a := perform (DInspectImage image) in
  mret (match a with
        | inl e => inl (L "inspect image " :: S' image :: L ": " :: e)
        | inr imageUser => match NonRoot image user imageUser with Some why => inl [L "security.non_root refuses "; S' why] | None => inr tt end
        end).
Fixpoint create_volumes (app : string) (l : list Mount) (done : list host_mount) : DM (or_error (list host_mount)) :=
  match l with
  | [] => ok done
  | m :: rest =>
      let volume := VolumeName app (mo_Volume m) in
      let! err := perform (DVolumeCreate volume {[LabelManaged := "true"; LabelApp := app]}) in
      match err with
      | Some e => fail (L "create volume " :: S' volume :: L ": " :: e)
      | None => create_volumes app rest (done ++ [VolumeMount volume (mo_Path m)])%list
      end
  end.
(** The name, and the two halves of the configuration. *)
Definition configure (s : ContainerSpec) (mounts : list host_mount) : string * Config * HostConfig :=
  let c := configureProcess s (base_config s) in
  let '(c, h) := configurePublish s c (base_host network mounts s) in
  let h := configureInit s (configureLogging s h) in
  let '(name, c) := configureJob s (ContainerName (cs_App s) (cs_Sequence s) (cs_Replica s)) c in
  let '(c, h) := configureBeside s c h in
  (name, c, configureSecurity s h).
Definition CreateContainer (s : ContainerSpec) : DM (or_error (string * string)) :=
  try! _ := (match cs_Security s with Some x => if ds_NonRoot x then CheckNonRoot (cs_Image s) (cs_User s) else ok tt | None => ok tt end) in
  try! mounts := create_volumes (cs_App s) (cs_Mounts s) [] in
  let '(name, c, h) := configure s mounts in
  let! a := perform (DContainerCreate name c h) in
  match a with
  | inl e => fail (L "create container " :: S' name :: L ": " :: e)
  | inr id =>
      match cs_Beside s with
      | Some _ => ok (id, name)
      | None =>
          let! err := perform (DConnectServices id) in
          match err with
          | Some e => let! _ := perform (DRemoveContainer id) in fail (L "create container " :: S' name :: L ": " :: e)
          | None => ok (id, name)
          end
      end
  end.
End Runtime.

(** ** Ports of the server (publish.go) *)

Definition bindingsCollide (a b : Publish) : bool :=
  (p_Host a =? p_Host b) && String.eqb (p_Protocol a) (p_Protocol b) && (String.eqb (p_Address a) "" || String.eqb (p_Address b) "" || String.eqb (p_Address a) (p_Address b)).
Inductive port_conflict := PortConflict (index : nat) (port : Z) (protocol : string) (owner : option string) | NotChecked (e : store_error).
Fixpoint reserved_port (reserved : list Z) (i : nat) (l : list Publish) : option port_conflict :=
  match l with
  | [] => None
  | p :: rest => if contains reserved (p_Host p) then Some (PortConflict i (p_Host p) (p_Protocol p) None) else reserved_port reserved (S i) rest
  end.
Fixpoint taken_by (owner : string) (theirs : list Publish) (i : nat) (l : list Publish) : option port_conflict :=
  match l with
  | [] => None
  | p :: rest => if existsb (bindingsCollide p) theirs then Some (PortConflict i (p_Host p) (p_Protocol p) (Some owner)) else taken_by owner theirs (S i) rest
  end.
Fixpoint check_others (get : Z → answer Deployment) (name : string) (publish : list Publish) (apps : list Application) : option port_conflict :=
  match apps with
  | [] => None
  | other :: rest =>
      match app_ActiveDeploymentID other with
      | None => check_others get name publish rest
      | Some id =>
          if String.eqb (app_Name other) name then check_others get name publish rest else
          match get id with
          | inl e => Some (NotChecked e)
          | inr d => match taken_by (app_Name other) (a_Publish (d_Spec d)) 0 publish with Some c => Some c | None => check_others get name publish rest end
          end
      end
  end.
(** [apps] and [get] are what the database answers; None: nothing is in the way. *)
Definition checkPublish (reserved : list Z) (apps : answer (list Application)) (get : Z → answer Deployment) (name : string) (publish : list Publish) : option port_conflict :=
  if bool_decide (publish = []) then None else
  match reserved_port reserved 0 publish with
  | Some c => Some c
  | None => match apps with inl e => Some (NotChecked e) | inr apps => check_others get name publish apps end
  end.
