(* ===== verification/ContainersInv.v ===== *)
(** * What containers are confined to

    Whatever part of the engine makes a container of a deployment, Docker is
    asked for one that has nothing but what deploy.yaml gives it; containers
    and volumes of different applications never share a name; and two
    applications do not publish the same port. *)

From stdpp Require Import sorting.
From S2P Require Import Prelude GoStrings GoNetip Effects SpecTypes SpecUnits SpecNames SpecValidate SpecReferences DeployState Crypto Store Backups Containers.
From Stdlib Require Import Ascii String.
Local Open Scope string_scope.
Local Open Scope Z_scope.

(** ** Names *)

Definition no_underscore (s : string) : Prop := str_forall (λ c, negb (Ascii.eqb c "_"%char)) s = true.
Lemma split_at a b x y : no_underscore a → no_underscore b → a ++ "_" ++ x = b ++ "_" ++ y → a = b ∧ x = y.
Proof.
  unfold no_underscore. revert b. induction a as [|c a IH]; intros [|d b] Ha Hb H; simpl in *; bools.
  - by injection H.
  - injection H as <- _. done.
  - injection H as -> _. done.
  - injection H as -> H. destruct (IH b) as [-> ->]; done.
Qed.
Lemma app_inj_l (a x y : string) : a ++ x = a ++ y → x = y.
Proof. induction a as [|c a IH]; [done|]. intros [=]. by apply IH. Qed.
Lemma not_underscore c : is_digit c = true ∨ is_lower c = true ∨ Ascii.eqb c "-"%char = true → negb (Ascii.eqb c "_"%char) = true.
Proof.
  intros H. destruct (Ascii.eqb_spec c "_"%char) as [->|]; [|done]. exfalso. by destruct H as [H|[H|H]]; vm_compute in H.
Qed.
Lemma digits_no_underscore n : (0 ≤ n)%Z → no_underscore (itoa n).
Proof. intros H. unfold no_underscore. apply (str_forall_impl is_digit); [|by apply itoa_digits]. intros c Hc. apply not_underscore. by left. Qed.
(** The last underscore splits as well. *)
Lemma split_last a b x y : no_underscore x → no_underscore y → a ++ "_" ++ x = b ++ "_" ++ y → a = b ∧ x = y.
Proof.
  unfold no_underscore. revert b. induction a as [|c a IH]; intros [|d b] Hx Hy H; simpl in *.
  - by injection H.
  - injection H as <- ->. rewrite str_forall_app in Hx. simpl in Hx. by rewrite andb_false_r in Hx.
  - injection H as -> H. subst y. rewrite str_forall_app in Hy. simpl in Hy. by rewrite andb_false_r in Hy.
  - injection H as -> H. destruct (IH b) as [-> ->]; done.
Qed.
Lemma label_no_underscore max s : label max s = true → no_underscore s.
Proof.
  unfold label, no_underscore. intros H. bools. apply (str_forall_impl label_char); [|done]. intros c Hc. apply not_underscore. unfold label_char, alnum in Hc.
  destruct (is_digit c); [by left|]. destruct (is_lower c); [by right; left|]. by right; right.
Qed.
Lemma itoa_inj a b : (0 ≤ a ≤ max_int64)%Z → (0 ≤ b ≤ max_int64)%Z → itoa a = itoa b → a = b.
Proof. intros Ha Hb H. apply (f_equal atoi) in H. rewrite !atoi_itoa in H by done. congruence. Qed.
Lemma itoa_not_job n rest s : (0 ≤ n)%Z → itoa n ++ rest ≠ "job_" ++ s.
Proof.
  intros Hn H. pose proof (itoa_digits n Hn) as Hd. pose proof (itoa_nonempty n) as Hne. destruct (itoa n) as [|c r]; [done|]. simpl in *. injection H as -> _. by vm_compute in Hd.
Qed.

(** ** What the engine makes of a deployment *)

Inductive part := AReplica (i : Z) | AJob (job : string) (run : Z) (command : list string) | ABefore (replica : string) (run : Z) (before : list string) | AVerify (run : Z).
Definition spec_of (d : Deployment) (p : part) : ContainerSpec :=
  match p with
  | AReplica i => replica_spec d i
  | AJob job run command => job_spec d job run command
  | ABefore replica run before => before_spec d replica run before
  | AVerify run => verify_spec d run
  end.
(** Which container of the deployment it is. *)
Definition identity (p : part) : Z + string * Z :=
  match p with
  | AReplica i => inl i
  | AJob job run _ => inr (job, run)
  | ABefore _ run _ => inr (beforeJobName, run)
  | AVerify run => inr (VerifyJob, run)
  end.
Definition numbered (d : Deployment) (p : part) : Prop :=
  (0 ≤ d_Sequence d ≤ max_int64)%Z ∧ match identity p with inl i => (0 ≤ i ≤ max_int64)%Z | inr (_, run) => (0 ≤ run ≤ max_int64)%Z end.
Definition container_name (d : Deployment) (p : part) : string :=
  match identity p with inl i => ContainerName (d_Application d) (d_Sequence d) i | inr (job, run) => JobContainerName (d_Application d) job run end.

Lemma configured_name PortFrom network d p mounts : (configure PortFrom network (spec_of d p) mounts).1.1 = container_name d p.
Proof. unfold configure, configurePublish. by destruct p; cbn; try destruct (bool_decide _). Qed.

(** Two containers with one name are the same replica of the same
    deployment's number, or the same run of the same job, of one application,
    whichever part of the engine made them; and a volume on the server belongs
    to one application and is one volume of it. *)
Theorem names_tell_apart PortFrom network (d d' : Deployment) (p p' : part) (mounts mounts' : list host_mount) (volume volume' : string) :
  is_ok (ValidateName (d_Application d)) = true → is_ok (ValidateName (d_Application d')) = true → numbered d p → numbered d' p' →
  ((configure PortFrom network (spec_of d p) mounts).1.1 = (configure PortFrom network (spec_of d' p') mounts').1.1 →
    d_Application d = d_Application d' ∧ identity p = identity p' ∧ (∀ i, identity p = inl i → d_Sequence d = d_Sequence d')) ∧
  (VolumeName (d_Application d) volume = VolumeName (d_Application d') volume' → d_Application d = d_Application d' ∧ volume = volume').
Proof.
  intros Ha Ha' [Hs Hn] [Hs' Hn']. assert (∀ s, is_ok (ValidateName s) = true → no_underscore s) as Hv.
  { intros s. unfold ValidateName. destruct (namePattern s) eqn:E; [|done]. intros _. by eapply label_no_underscore. }
  apply Hv in Ha, Ha'. split.
  2:{ unfold VolumeName. intros H%app_inj_l. by apply split_at. }
  rewrite !configured_name. unfold container_name. destruct (identity p) as [i|[job run]], (identity p') as [i'|[job' run']]; unfold ContainerName, JobContainerName; intros H%app_inj_l.
  - apply split_at in H as [-> H]; [|done..]. apply split_at in H as [H1 H2]; [|by apply digits_no_underscore; lia..]. apply itoa_inj in H1 as ->, H2 as ->; [|done..]. split_and!; [done|done|]. by intros ? [=].
  - exfalso. change ("_job_" ++ job' ++ "_" ++ itoa run') with ("_" ++ "job_" ++ job' ++ "_" ++ itoa run') in H. apply split_at in H as [_ H]; [|done..]. by apply itoa_not_job in H; [|lia].
  - exfalso. change ("_job_" ++ job ++ "_" ++ itoa run) with ("_" ++ "job_" ++ job ++ "_" ++ itoa run) in H. apply split_at in H as [_ H]; [|done..]. symmetry in H. by apply itoa_not_job in H; [|lia].
  - change ("_job_" ++ job ++ "_" ++ itoa run) with ("_" ++ "job_" ++ job ++ "_" ++ itoa run) in H. change ("_job_" ++ job' ++ "_" ++ itoa run') with ("_" ++ "job_" ++ job' ++ "_" ++ itoa run') in H.
    apply split_at in H as [-> H]; [|done..]. apply app_inj_l in H. apply split_last in H as [-> H]; [|by apply digits_no_underscore; lia..].
    apply itoa_inj in H as ->; [|done..]. split_and!; [done|done|]. by intros ? [=].
Qed.

(** ** What Docker is asked for *)

Abbreviation event := (Effects.happened danswer).
Definition asked_for (ev : event) : option (string * Config * HostConfig) := match what ev with DContainerCreate name c h => Some (name, c, h) | _ => None end.
Definition created (ev : event) : option string :=
  match ev with mk_happened c a => match c return danswer c → option string with DContainerCreate _ _ _ => λ a, match a with inr id => Some id | _ => None end | _ => λ _, None end a end.
Definition removed (ev : event) : option string := match what ev with DRemoveContainer id => Some id | _ => None end.
(** The user Docker says an image has. *)
Definition image_user (image : string) (ev : event) : option string :=
  match ev with mk_happened c a => match c return danswer c → option string with
    | DInspectImage i => λ a, if String.eqb i image then match a with inr u => Some u | _ => None end else None | _ => λ _, None end a end.

Local Abbreviation DM := (Effects.M unit danswer).
Section Creating.
Context (PortFrom : Z → string → option string) (network : string) (world : list event → ∀ c, danswer c).
Definition volume_mounts (app : string) (l : list Mount) : list host_mount := (λ m, VolumeMount (VolumeName app (mo_Volume m)) (mo_Path m)) <$> l.
Definition makes_volume (app : string) (ev : event) : Prop := ∃ v, what ev = DVolumeCreate v {[LabelManaged := "true"; LabelApp := app]}.

Lemma create_volumes_spec app l : ∀ done s, let r := create_volumes world app l done s in
  (∃ evs, r.2.2 = (evs ++ s.2)%list ∧ Forall (makes_volume app) evs) ∧ match r.1 with inr ms => ms = (done ++ volume_mounts app l)%list | inl _ => True end.
Proof.
  induction l as [|m l IH]; intros done s r; subst r; cbn [create_volumes].
  - split; [by exists []|]. by rewrite app_nil_r.
  - cbv zeta. rewrite then_perform. set (ev := mk_happened _ _). assert (makes_volume app ev) as Hev by (by eexists). destruct (world s.2 _) as [e|].
    + split; [|done]. exists [ev]. split; [done|]. by constructor.
    + destruct (IH (done ++ [VolumeMount (VolumeName app (mo_Volume m)) (mo_Path m)])%list (s.1, ev :: s.2)) as [(evs & E & H) Hr]. split.
      * exists (evs ++ [ev])%list. rewrite E, <- app_assoc. split; [done|]. apply Forall_app. split; [done|]. by constructor.
      * destruct (create_volumes _ _ _ _ _).1; [done|]. rewrite Hr, <- app_assoc. done.
Qed.

(** What holds of everything that happened when a container of [s] was made. *)
Definition made_well (s : ContainerSpec) (failed : bool) (evs : list event) : Prop :=
  (∀ x, Some x ∈ asked_for <$> evs → x = configure PortFrom network s (volume_mounts (cs_App s) (cs_Mounts s)) ∧
    ((match cs_Security s with Some sec => ds_NonRoot sec | None => false end) = true →
      ∃ u, Some u ∈ image_user (cs_Image s) <$> evs ∧ NonRoot (cs_Image s) (cs_User s) u = None)) ∧
  (failed = true → ∀ id, Some id ∈ created <$> evs → Some id ∈ removed <$> evs).
Definition no_container (ev : event) : Prop := asked_for ev = None ∧ created ev = None.

Lemma volumes_quiet app evs : Forall (makes_volume app) evs → Forall no_container evs.
Proof. intros H. eapply Forall_impl; [exact H|]. intros [c a] [v E]. cbn in E. by subst c. Qed.
Lemma quiet_made s failed evs : Forall no_container evs → made_well s failed evs.
Proof.
  intros H. split.
  - intros x (ev & E & Hev)%list_elem_of_fmap. destruct (proj1 (Forall_forall _ _) H ev Hev). congruence.
  - intros _ id (ev & E & Hev)%list_elem_of_fmap. destruct (proj1 (Forall_forall _ _) H ev Hev). congruence.
Qed.
Definition checks_root (s : ContainerSpec) : DM (text + unit) :=
  match cs_Security s with Some x => if ds_NonRoot x then CheckNonRoot world (cs_Image s) (cs_User s) else ok tt | None => ok tt end.
Lemma checks_root_spec s st : let r := checks_root s st in
  ∃ evs, r.2.2 = (evs ++ st.2)%list ∧ Forall no_container evs ∧
    (r.1 = inr tt → (match cs_Security s with Some sec => ds_NonRoot sec | None => false end) = true → ∃ u, Some u ∈ image_user (cs_Image s) <$> evs ∧ NonRoot (cs_Image s) (cs_User s) u = None).
Proof.
  unfold checks_root. destruct (cs_Security s) as [x|]; [|by exists []]. destruct (ds_NonRoot x); [|by exists []].
  cbv zeta. unfold CheckNonRoot. rewrite then_perform. set (ev := mk_happened _ _). exists [ev]. split_and!; [by destruct (world st.2 _) as [?|u]; [|destruct (NonRoot _ _ u)]|by constructor|].
  intros H _. assert (ev = mk_happened (DInspectImage (cs_Image s)) (world st.2 (DInspectImage (cs_Image s)))) as Eev by done.
  destruct (world st.2 _) as [e|u]; [done|]. cbn in H. exists u. rewrite Eev. cbn. rewrite String.eqb_refl. split; [by left|].
  destruct (NonRoot _ _ u); [done|done].
Qed.
Lemma create_made s : made_well s (match (CreateContainer PortFrom world network s (tt, [])).1 with inl _ => true | inr _ => false end) (CreateContainer PortFrom world network s (tt, [])).2.2.
Proof.
  unfold CreateContainer. fold (checks_root s). rewrite try_eq. pose proof (checks_root_spec s (tt, [])) as (evs0 & E0 & Hq0 & Hroot). cbn zeta in *.
  destruct (checks_root s (tt, [])) as [[e|[]] st1]; cbn [fst snd] in *.
  { apply quiet_made. by rewrite E0, app_nil_r. }
  rewrite try_eq. pose proof (create_volumes_spec (cs_App s) (cs_Mounts s) [] st1) as ((evs1 & E1 & Hq1%volumes_quiet) & Hm). cbn zeta in *.
  destruct (create_volumes world _ _ _ st1) as [[e|ms] st2]; cbn [fst snd] in *.
  { apply quiet_made. rewrite E1, E0, app_nil_r. by apply Forall_app. }
  subst ms. cbn [app]. rewrite E0, app_nil_r in E1. specialize (Hroot eq_refl).
  assert (Forall no_container st2.2) as Hq by (rewrite E1; by apply Forall_app).
  assert ((match cs_Security s with Some sec => ds_NonRoot sec | None => false end) = true → ∃ u, Some u ∈ image_user (cs_Image s) <$> st2.2 ∧ NonRoot (cs_Image s) (cs_User s) u = None) as Hroot2.
  { intros H. destruct (Hroot H) as (u & Hu & Hn). exists u. split; [|done]. rewrite E1, fmap_app. by apply elem_of_app; right. }
  clear Hroot E0 E1 Hq0 Hq1. destruct (configure PortFrom network s (volume_mounts (cs_App s) (cs_Mounts s))) as [[name c] h] eqn:Ec. rewrite then_perform.
  set (ev := mk_happened _ _).
  assert (∀ more, Forall (λ e, asked_for e = None) more → ∀ x, Some x ∈ asked_for <$> (more ++ ev :: st2.2)%list → x = (name, c, h) ∧
    ((match cs_Security s with Some sec => ds_NonRoot sec | None => false end) = true → ∃ u, Some u ∈ image_user (cs_Image s) <$> (more ++ ev :: st2.2)%list ∧ NonRoot (cs_Image s) (cs_User s) u = None)) as Hasked.
  { intros more Hmore x Hx. split.
    - rewrite fmap_app, elem_of_app in Hx. destruct Hx as [(e & E & He)%list_elem_of_fmap|Hx]; [by rewrite (proj1 (Forall_forall _ _) Hmore e He) in E|].
      apply elem_of_cons in Hx as [Hx|(e & E & He)%list_elem_of_fmap]; [by injection Hx|]. destruct (proj1 (Forall_forall _ _) Hq e He). congruence.
    - intros H. destruct (Hroot2 H) as (u & Hu & Hn). exists u. split; [|done]. rewrite fmap_app, elem_of_app. right. by right. }
  assert (∀ id, Some id ∈ created <$> st2.2 → False) as Hnone.
  { intros id (e & E & He)%list_elem_of_fmap. destruct (proj1 (Forall_forall _ _) Hq e He). congruence. }
  assert (created ev = match world st2.2 (DContainerCreate name c h) with inr id => Some id | inl _ => None end) as Hcr by done.
  destruct (world st2.2 (DContainerCreate name c h)) as [e|id].
  { split; [rewrite Ec; by apply (Hasked [])|]. intros _ id Hid. apply elem_of_cons in Hid as [Hid|Hid]; [congruence|]. by apply Hnone in Hid. }
  destruct (cs_Beside s); [split; [rewrite Ec; by apply (Hasked [])|done]|]. rewrite then_perform. set (ev' := mk_happened (DConnectServices id) _).
  cbn [snd]. destruct (world _ (DConnectServices id)) as [e|].
  2:{ split; [rewrite Ec; apply (Hasked [ev']); by repeat constructor|done]. }
  rewrite then_perform. set (ev'' := mk_happened (DRemoveContainer id) _). split; [rewrite Ec; apply (Hasked [ev''; ev']); by repeat constructor|].
  intros _ id' Hid. do 2 (apply elem_of_cons in Hid as [Hid|Hid]; [done|]). apply elem_of_cons in Hid as [Hid|Hid]; [|by apply Hnone in Hid]. rewrite Hcr in Hid. injection Hid as ->. by left.
Qed.
End Creating.

(** The address of the server a port is bound on: the one named, or every one where none is. *)
Definition bound_on (named : string) (bound : option Addr) : Prop :=
  match bound with None => named = "" | Some a => named ≠ "" ∧ ParseAddr named = Some a end.
Lemma bind_port_address PortFrom p b : bind_port PortFrom p = Some b →
  PortFrom (pb_Port p mod 65536) (pb_Protocol p) = Some b.1 ∧ bound_on (pb_Address p) b.2.1 ∧ b.2.2 = itoa (pb_HostPort p).
Proof.
  unfold bind_port, bound_on. destruct (PortFrom _ _); [|done]. destruct (String.eqb_spec (pb_Address p) ""); [by intros [= <-]|].
  destruct (ParseAddr _) eqn:E; [|done]. by intros [= <-].
Qed.

Section Confined.
Context (PortFrom : Z → string → option string) (network : string) (d : Deployment).
Definition publish_bindings : list PortBinding := (λ p, mk_binding (p_Port p) (p_Host p) (p_Address p) (p_Protocol p)) <$> a_Publish (d_Spec d).
(** The parts of the configuration. *)
Lemma configured_host s mounts : let h := (configure PortFrom network s mounts).2 in
  Privileged h = false ∧ SecurityOpt h = ["no-new-privileges:true"] ∧ RestartPolicy h = "no" ∧ h_NanoCPUs h = cs_NanoCPUs s ∧ h_Memory h = cs_MemoryBytes s ∧ h_MemorySwap h = h_Memory h ∧
  h_Mounts h = (mounts ++ match cs_Security s with Some x => (λ t, TmpfsMount (dt_Path t) (dt_SizeBytes t) sticky) <$> ds_Tmpfs x | None => [] end)%list ∧
  PortBindings h = omap (bind_port PortFrom) (cs_Publish s) ∧
  match cs_Security s with
  | None => ReadonlyRootfs h = false ∧ CapDrop h = [] ∧ CapAdd h = []
  | Some x => ReadonlyRootfs h = ds_ReadOnly x ∧ (if ds_DropCapabilities x then CapDrop h = ["ALL"] ∧ CapAdd h = ds_Capabilities x else CapDrop h = [] ∧ CapAdd h = [])
  end.
Proof.
  destruct s as [app dep sq rep image env cpus mem mnt publish entry cmd user driver options job init beside sec]. unfold configure, configurePublish, configureLogging, configureSecurity.
  cbn [cs_Publish cs_LogDriver cs_LogOptions cs_Security cs_MemoryBytes]. case_bool_decide as Ep; destruct (String.eqb driver ""), job, beside, sec as [x|]; try destruct (ds_DropCapabilities x) eqn:Ed;
    split_and!; try reflexivity; cbn -[omap]; rewrite ?Ed, ?app_nil_r, ?Ep; done.
Qed.
Lemma configured_labels s mounts : let labels := c_Labels (configure PortFrom network s mounts).1.2 in
  labels !! LabelApp = Some (cs_App s) ∧ (is_Some (labels !! LabelReplica) ↔ cs_Job s = None).
Proof.
  destruct s as [app dep sq rep image env cpus mem mnt publish entry cmd user driver options job init beside sec].
  assert (c_Labels (configure PortFrom network (mk_cspec app dep sq rep image env cpus mem mnt publish entry cmd user driver options job init beside sec) mounts).1.2 =
    match job with None => containerLabels app dep rep | Some j => <[LabelRun := itoa (js_RunID j)]> (<[LabelJob := js_Name j]> (delete LabelReplica (containerLabels app dep rep))) end) as E.
  { unfold configure, configurePublish. cbn [cs_Publish]. case_bool_decide; destruct job, beside; reflexivity. }
  cbv zeta. rewrite E. clear E. cbn [cs_App cs_Job]. unfold containerLabels. destruct job; split; simplify_map_eq; try done; split; try done; by intros [? ?].
Qed.
Lemma spec_parts p : cs_App (spec_of d p) = d_Application d ∧ cs_NanoCPUs (spec_of d p) = NanoCPUs (a_Resources (d_Spec d)) ∧ cs_MemoryBytes (spec_of d p) = res_MemoryBytes (a_Resources (d_Spec d)) ∧
  cs_Publish (spec_of d p) = (match p with AReplica _ => publish_bindings | _ => [] end) ∧ (cs_Job (spec_of d p) = None ↔ ∃ i, p = AReplica i) ∧ cs_Image (spec_of d p) = a_Image (d_Spec d) ∧ cs_User (spec_of d p) = a_User (d_Spec d) ∧
  cs_Security (spec_of d p) = security_of <$> a_Security (d_Spec d) ∧
  cs_Mounts (spec_of d p) = match p with AReplica _ | ABefore _ _ _ => own_mounts d | AJob _ _ _ => [] | AVerify run => (λ v, mk_mount (ScratchVolume (v_Name v) run) (v_Path v)) <$> a_Volumes (d_Spec d) end.
Proof. destruct p; split_and!; try done; split; first [by intros [? [=]] | by intros [=] | by eexists]. Qed.

End Confined.

Definition shop (id sequence : Z) : Deployment :=
  mk_deployment id 1 "shop" sequence "1.4" "shop:1.4" secret_app StatusActive "" 0 None "deploy" None "admin" "" 0 0 no_references.
Example names_tell_apart_witness :
  container_name (shop 12 7) (AReplica 1) = "shipwick_shop_7_1" ∧ container_name (shop 12 7) (AJob "nightly" 1 ["true"]) = "shipwick_shop_job_nightly_1" ∧
  identity (AJob "run" 3 ["ls"]) = identity (AJob "run" 3 ["id"]).
Proof.
  split; [vm_compute; reflexivity|]. split; [vm_compute; reflexivity|].
  apply (names_tell_apart (λ _ _, None) "shipwick" (shop 12 7) (shop 12 7) (AJob "run" 3 ["ls"]) (AJob "run" 3 ["id"]) [] [] "" "");
    [vm_compute; reflexivity..|by vm_compute|by vm_compute|]. rewrite !configured_name. reflexivity.
Defined.

(** ** Ports of the server *)

Lemma reserved_port_free reserved l : ∀ i, reserved_port reserved i l = None → ∀ p, p ∈ l → p_Host p ∉ reserved.
Proof.
  induction l as [|q l IH]; intros i H p Hp; [by apply elem_of_nil in Hp|]. cbn in H. destruct (contains reserved (p_Host q)) eqn:E; [done|].
  apply elem_of_cons in Hp as [->|Hp]; [|by eapply IH]. intros Hin. apply contains_spec in Hin. congruence.
Qed.
Lemma taken_by_free owner theirs l : ∀ i, taken_by owner theirs i l = None → ∀ p q, p ∈ l → q ∈ theirs → bindingsCollide p q = false.
Proof.
  induction l as [|x l IH]; intros i H p q Hp Hq; [by apply elem_of_nil in Hp|]. cbn in H. destruct (existsb (bindingsCollide x) theirs) eqn:E; [done|].
  apply elem_of_cons in Hp as [->|Hp]; [|by eapply IH]. destruct (bindingsCollide x q) eqn:Ec; [|done]. exfalso. assert (existsb (bindingsCollide x) theirs = true) by (apply existsb_true; by exists q). congruence.
Qed.
(** What passes the check has its ports to itself, but for deployments that are not active yet. *)
Lemma checkPublish_free reserved apps get name publish : checkPublish reserved (inr apps) get name publish = None →
  ∀ p, p ∈ publish → (p_Host p ∉ reserved) ∧ ∀ other id d q, other ∈ apps → app_Name other ≠ name → app_ActiveDeploymentID other = Some id → get id = inr d → q ∈ a_Publish (d_Spec d) → bindingsCollide p q = false.
Proof.
  unfold checkPublish. case_bool_decide as E; [intros _ p Hp; subst; by apply elem_of_nil in Hp|]. destruct (reserved_port reserved 0 publish) eqn:Er; [done|]. intros H p Hp.
  split; [by eapply reserved_port_free|]. revert H. induction apps as [|x apps IH]; intros H other id d q Ho Hn Hid Hg Hq; [by apply elem_of_nil in Ho|]. cbn in H.
  apply elem_of_cons in Ho as [->|Ho].
  - rewrite Hid, Hg in H. destruct (String.eqb_spec (app_Name x) name); [done|]. destruct (taken_by _ _ 0 publish) eqn:Et; [done|]. by eapply taken_by_free.
  - eapply IH; [|done..]. destruct (app_ActiveDeploymentID x) as [i|]; [|done]. destruct (String.eqb (app_Name x) name); [done|]. destruct (get i); [done|]. by destruct (taken_by _ _ 0 publish).
Qed.
