(* ===== verification/Jobs.v ===== *)
(** * Jobs (agent/internal/deploy/jobs.go, agent/internal/store/jobs.go)

    The pre-deploy hook, scheduled jobs and commands are one-off containers.
    The state is the table of their runs, the jobs that are claimed, and the
    engine's count of operations (Locks.v); Docker, the other tables, the clock
    and the rest of the engine are calls (Effects.v).  The goroutine that waits
    for a container is a call that launches it ([JCollect]) and a program of
    its own ([job_goroutine]). *)

From stdpp Require Import sorting.
From S2P Require Import Prelude GoStrings Effects GoTime SpecTypes SpecValidate DeployState Store Containers.
From S2P Require Locks Schedule.
From Stdlib Require Import Ascii String.
Local Open Scope string_scope.
Local Open Scope Z_scope.

Definition RunRunning := "running".
Definition RunSucceeded := "succeeded".
Definition RunFailed := "failed".
Definition RunTimedOut := "timed_out".
Definition RunInterrupted := "interrupted".
Definition RunKindHook := "hook".
Definition RunKindScheduled := "scheduled".
Definition RunKindManual := "manual".
Definition jobOutputLines : Z := 200.
Definition jobOutputBytes : Z := 64 * 1024.
Definition hookOutputLines : nat := 20.
Definition jobRunsKept : nat := 50.
Definition hookJobName := "pre-deploy".
Definition commandJobName := "run".

(** ** The table (store/jobs.go) *)

Record JobRun := mk_jobrun {
  jr_ID : Z; jr_ApplicationID : Z; jr_Application : string; jr_DeploymentID : option Z; jr_Job : string; jr_Kind : string; jr_Command : list string;
  jr_Status : string; jr_ExitCode : option Z; jr_Output : string; jr_StartedAt : Time; jr_FinishedAt : option Time }.
(** The rows in the order of their ids, and the number AUTOINCREMENT has reached. *)
Record Job_runs := mk_jobruns { rows : list JobRun; jr_seq : Z }.

Definition ended_as (status : string) (code : option Z) (output : string) (now : Time) (r : JobRun) : JobRun :=
  mk_jobrun (jr_ID r) (jr_ApplicationID r) (jr_Application r) (jr_DeploymentID r) (jr_Job r) (jr_Kind r) (jr_Command r) status code output (jr_StartedAt r) (Some now).
Definition is_running (r : JobRun) : bool := String.eqb (jr_Status r) RunRunning.
(** What the caller gives of a run, and what a new row says of the rest. *)
Definition new_run (id : Z) (app : string) (d : Deployment) (job kind : string) (command : list string) (now : Time) : JobRun :=
  mk_jobrun id (d_ApplicationID d) app (Some (d_ID d)) job kind command RunRunning None "" now None.
Definition CreateJobRun (t : Job_runs) (d : Deployment) (job kind : string) (command : list string) (now : Time) : Job_runs * Z :=
  let id := Z.max (jr_seq t) (largest (jr_ID <$> rows t)) + 1 in
  (mk_jobruns (rows t ++ [new_run id (d_Application d) d job kind command now])%list id, id).
Definition FinishJobRun (t : Job_runs) (id : Z) (status : string) (code : option Z) (output : string) (now : Time) : Job_runs :=
  mk_jobruns (update (λ r, (jr_ID r =? id) && is_running r) (ended_as status code output now) (rows t)) (jr_seq t).
Definition MarkJobRunsInterrupted (t : Job_runs) (now : Time) : Job_runs :=
  mk_jobruns (update is_running (λ r, ended_as RunInterrupted (jr_ExitCode r) (jr_Output r) now r) (rows t)) (jr_seq t).
Definition GetJobRun (t : Job_runs) (id : Z) : answer JobRun :=
  match find_row (λ r, jr_ID r =? id) (rows t) with Some r => inr r | None => inl ErrNotFound end.
Definition without_output (r : JobRun) : JobRun :=
  mk_jobrun (jr_ID r) (jr_ApplicationID r) (jr_Application r) (jr_DeploymentID r) (jr_Job r) (jr_Kind r) (jr_Command r) (jr_Status r) (jr_ExitCode r) "" (jr_StartedAt r) (jr_FinishedAt r).
Definition of_job (app : Z) (job : string) (r : JobRun) : bool := (jr_ApplicationID r =? app) && String.eqb (jr_Job r) job.
(** ORDER BY id DESC. *)
Definition newest_first (l : list JobRun) : list JobRun := reverse l.
Definition ListJobRuns (t : Job_runs) (app : Z) (job : string) (limit : nat) : list JobRun :=
  let l := newest_first (List.filter (λ r, (jr_ApplicationID r =? app) && (String.eqb job "" || String.eqb (jr_Job r) job)) (rows t)) in
  without_output <$> (if (0 <? limit)%nat then take limit l else l).
(** The row of each job with the largest id, by job. *)
Definition LastJobRuns (t : Job_runs) (app : Z) : gmap string JobRun :=
  foldl (λ m r, <[jr_Job r := without_output r]> m) ∅ (List.filter (λ r, jr_ApplicationID r =? app) (rows t)).
Definition PruneJobRuns (t : Job_runs) (app : Z) (job : string) (keep : nat) : Job_runs :=
  let kept := jr_ID <$> take keep (newest_first (List.filter (of_job app job) (rows t))) in
  mk_jobruns (List.filter (λ r, negb (of_job app job r) || contains kept (jr_ID r)) (rows t)) (jr_seq t).

(** ** The engine *)

Inductive ctx_end := Canceled | DeadlineExceeded.
(** WaitContainer: it stopped; the context it was waited for in ended; another error. *)
Inductive waited := Exited (code : Z) | WaitEnded (c : ctx_end) | WaitFailed (e : text).
Inductive run_error := TimedOut | ContextEnded (c : ctx_end) | RunFailure (e : text).
Inductive start_error := ErrJobRunning | ErrShuttingDown | ErrNotDeployed | ErrStaticApplication | InvalidCommand (e : text) | NotLocked (e : text) | StoreError (e : store_error) | Failure (e : text).
(** What CreateJobRun came to: refused, recorded, or recorded with an error all the same. *)
Inductive recorded := Recorded | NotRecorded (e : text) | RecordedUnread (e : text).
(** Whose context: the one the operation was called with, or the engine's own. *)
Inductive whose := Own | Base.

(** Bounds what happens whatever the context is in (engine.go).  A call under such
    a context carries the time it ends, [until]: Docker is not reached after it,
    and the call answers the context's error. *)
Definition cleanupTimeout : Duration := 2 * minute.

Inductive jcall :=
  | JNow | JCtxErr (w : whose) | JLock (app : string) | JUnlock (app : string) | JGetApplication (name : string) | JGetDeployment (id : Z)
  | JCreateRun (id : Z) (job kind : string) | JFinishRun (id : Z) (status : string) | JGetRun (id : Z) | JPruneRuns (app : Z) (job : string) (keep : nat) | JDropRunLogs (app : Z)
  | JCreateContainer (s : ContainerSpec) | JStart (id : string) | JWait (w : whose) (id : string) (timeout : Duration) | JStop (until : Time) (id : string) | JLogs (until : Time) (id : string) (lines : Z)
  | JArchive (id : string) | JRemove (until : option Time) (id : string)
  | JCollect (d : Deployment) (run : Z) (job : string) (command : list string) (container : string) (timeout : Duration)
  | JStep (d : Deployment) (msg : text) | JEvent (d : Deployment) (level typ : string) (msg : text) | JAppEvent (app : Z) (level : string) (msg : text) | JPruneEvents (app : Z)
  | JNotify (app version : string) (msg : text) | JLog (what : text).
Definition janswer (c : jcall) : Type :=
  match c with
  | JNow => Time
  | JCtxErr _ => option ctx_end
  | JGetApplication _ => store_error + Application
  | JGetDeployment _ => store_error + Deployment
  | JCreateRun _ _ _ => recorded
  | JCreateContainer _ => or_error (string * string)
  | JWait _ _ _ => waited
  | JLogs _ _ _ => or_error (list string)
  | JLock _ | JFinishRun _ _ | JGetRun _ | JPruneRuns _ _ _ | JStart _ | JStop _ _ | JRemove _ _ | JAppEvent _ _ _ | JPruneEvents _ => error
  | _ => unit
  end.

(** The jobs that are claimed, by application and job; the engine of Locks.v. *)
Record jobs := mk_jobs { table : Job_runs; active : gset string; engine : Locks.engine }.
Definition set_table f (s : jobs) := mk_jobs (f (table s)) (active s) (engine s).
Definition set_active f (s : jobs) := mk_jobs (table s) (f (active s)) (engine s).
Definition set_engine e (s : jobs) := mk_jobs (table s) (active s) e.
Abbreviation JM := (Effects.M jobs janswer).

Definition newline : string := String (chr 10) "".
Definition last_bytes (n : Z) (s : string) : string := substring (String.length s - Z.to_nat n) (Z.to_nat n) s.
(** jobOutput, of the lines Docker has: the tail of the text, from the start of a line. *)
Definition bounded_output (lines : list string) : string :=
  let out := join newline lines in
  if slen out <=? jobOutputBytes then out else
  let tail := last_bytes jobOutputBytes out in
  let '(_, after, found) := cut (chr 10) tail in
  "… (truncated)" ++ newline ++ (if found then after else tail).
Definition last_lines (n : nat) (l : list string) : list string := drop (List.length l - n) l.
Definition hook_event_bytes : Z := 4096.
(** hookOutput, of what the run kept. *)
Definition hook_message (output : string) : string :=
  let msg := "Last output of the pre-deploy command:" ++ newline ++ join newline (last_lines hookOutputLines (split (chr 10) output)) in
  if hook_event_bytes <? slen msg then substring 0 (Z.to_nat hook_event_bytes) msg ++ newline ++ "… (truncated)" else msg.

Section Jobs.
Variable world : list (Effects.happened janswer) → ∀ c, janswer c.
Local Abbreviation perform := (Effects.perform world).
(** What fmt makes of an error. *)
Variable Error : text → string.

Definition job_key (app job : string) : string := app ++ "/" ++ job.
Definition claim (app job : string) : JM bool :=
  let! held := mget active in
  if bool_decide (job_key app job ∈ held) then mret false else
  let! _ := mset (set_active (union {[job_key app job]})) in mret true.
Definition release (app job : string) : JM unit := mset (set_active (λ held, held ∖ {[job_key app job]})).
Definition beginOp : JM bool :=
  let! e := mget engine in
  let '(e, begun) := Locks.beginOp e in
  let! _ := mset (set_engine e) in mret begun.
Definition opDone : JM unit := let! e := mget engine in mset (set_engine (Locks.opDone e).1).

Definition createRun (d : Deployment) (job kind : string) (command : list string) : JM (or_error Z) :=
  let! now := perform JNow in
  let! t := mget table in
  let '(t, id) := CreateJobRun t d job kind command now in
  let! a := perform (JCreateRun id job kind) in
  match a with
  | NotRecorded e => fail e
  | Recorded => let! _ := mset (set_table (λ _, t)) in ok id
  | RecordedUnread e => let! _ := mset (set_table (λ _, t)) in fail e
  end.
Definition finishRun (run : Z) (status : string) (code : option Z) (output : string) : JM unit :=
  let! now := perform JNow in
  let! err := perform (JFinishRun run status) in
  match err with
  | Some e => perform (JLog (L "could not record the outcome of a job run" :: e))
  | None => mset (set_table (λ t, FinishJobRun t run status code output now))
  end.
Definition jobOutput (until : Time) (container : string) : JM string :=
  let! a := perform (JLogs until container jobOutputLines) in
  mret (match a with inl _ => "" | inr lines => bounded_output lines end).

Definition launchJob (d : Deployment) (run : Z) (job : string) (command : list string) : JM (or_error string) :=
  let! a := perform (JCreateContainer (job_spec d job run command)) in
  match a with
  | inl e => let! _ := finishRun run RunFailed None ("could not create the container: " ++ Error e) in fail e
  | inr (id, _) =>
      let! err := perform (JStart id) in
      match err with
      | None => ok id
      | Some e =>
          let! _ := finishRun run RunFailed None ("could not start the container: " ++ Error e) in
          let! rerr := perform (JRemove None id) in
          let! _ := match rerr with Some r => perform (JLog (L "could not remove job container" :: r)) | None => mret tt end in
          fail e
      end
  end.

(** What is deferred in collectJob, under the context that ends at [until]: the
    container goes.  The archive copies on a clock of its own. *)
Definition collected (until : Time) (container : string) : JM unit :=
  let! _ := perform (JArchive container) in
  let! err := perform (JRemove (Some until) container) in
  match err with Some e => perform (JLog (L "could not remove job container" :: e)) | None => mret tt end.
Definition gave_up (until : Time) (w : whose) (run : Z) (container : string) (err : run_error) : JM run_error :=
  let! stop := perform (JStop until container) in
  let! _ := match stop with Some e => perform (JLog (L "could not stop job container" :: e)) | None => mret tt end in
  let! output := jobOutput until container in
  let! ended := perform (JCtxErr w) in
  match ended with
  | Some Canceled => let! _ := finishRun run RunInterrupted None output in mret (ContextEnded Canceled)
  | _ =>
      match err with
      | ContextEnded DeadlineExceeded => let! _ := finishRun run RunTimedOut None output in mret TimedOut
      | err => let! _ := finishRun run RunFailed None output in mret err
      end
  end.
(** The context of the cleanup is made before the wait. *)
Definition collectJob (w : whose) (run : Z) (container : string) (timeout : Duration) : JM (run_error + Z) :=
  let! now := perform JNow in
  let until := now + cleanupTimeout in
  let! a := perform (JWait w container timeout) in
  let! r := match a with
            | Exited code =>
                let! output := jobOutput until container in
                let! _ := finishRun run (if code =? 0 then RunSucceeded else RunFailed) (Some code) output in
                mret (inr code)
            | WaitEnded c => let! e := gave_up until w run container (ContextEnded c) in mret (inl e)
            | WaitFailed e => let! e := gave_up until w run container (RunFailure e) in mret (inl e)
            end in
  let! _ := collected until container in
  mret r.
Definition runJob (w : whose) (d : Deployment) (run : Z) (job : string) (command : list string) (timeout : Duration) : JM (run_error + Z) :=
  let! a := launchJob d run job command in
  match a with inl e => mret (inl (RunFailure e)) | inr id => collectJob w run id timeout end.

(** reportRun: what the event and the notification say, if anything. *)
Definition run_message (job : string) (command : list string) (r : run_error + Z) (stopping : bool) (timeout : Duration) : text :=
  let what := if String.eqb job commandJobName then [L "Command "; S' (hd "" command)] else [L "Job "; S' job] in
  match r with
  | inl TimedOut => (what ++ [L " timed out after "; D timeout])%list
  | inl (RunFailure e) => if stopping then [] else (what ++ L " could not run: " :: e)%list
  | inl (ContextEnded c) => if stopping then [] else (what ++ [L " could not run: "; L (match c with Canceled => "context canceled" | DeadlineExceeded => "context deadline exceeded" end)])%list
  | inr code => if code =? 0 then [] else (what ++ [L " failed (exit "; D code; L ")"])%list
  end.
Definition reportRun (d : Deployment) (run : Z) (job : string) (command : list string) (r : run_error + Z) (timeout : Duration) : JM unit :=
  let! ended := perform (JCtxErr Base) in
  let msg := run_message job command r (bool_decide (is_Some ended)) timeout in
  let! _ := match msg with
            | [] => mret tt
            | _ =>
                let! _ := perform (JLog msg) in
                let! err := perform (JAppEvent (d_ApplicationID d) "warn" msg) in
                let! _ := match err with
                          | Some e => perform (JLog (L "could not record event" :: e))
                          | None => let! err := perform (JPruneEvents (d_ApplicationID d)) in
                                    match err with Some e => perform (JLog (L "could not prune events" :: e)) | None => mret tt end
                          end in
                perform (JNotify (d_Application d) (d_Version d) (S' (d_Application d) :: L ": " :: msg ++ [L ". Its output: shipwick jobs logs "; S' (d_Application d); L " "; S' job])%list)
            end in
  let! err := perform (JPruneRuns (d_ApplicationID d) job jobRunsKept) in
  let! _ := match err with
            | Some e => perform (JLog (L "could not prune job runs" :: e))
            | None => mset (set_table (λ t, PruneJobRuns t (d_ApplicationID d) job jobRunsKept))
            end in
  perform (JDropRunLogs (d_ApplicationID d)).

(** A command may run beside another; a job may not. *)
Definition exclusive (job : string) : bool := negb (String.eqb job commandJobName).
Definition unclaim (d : Deployment) (job : string) : JM unit := if exclusive job then release (d_Application d) job else mret tt.
(** The goroutine of startJob. *)
Definition job_goroutine (d : Deployment) (run : Z) (job : string) (command : list string) (container : string) (timeout : Duration) : JM unit :=
  let! r := collectJob Base run container timeout in
  let! _ := reportRun d run job command r timeout in
  let! _ := unclaim d job in
  opDone.
Definition startJob (d : Deployment) (job kind : string) (command : list string) (timeout : Duration) : JM (start_error + Z) :=
  let! claimed := (if exclusive job then claim (d_Application d) job else mret true) in
  if negb claimed then mret (inl ErrJobRunning) else
  let! begun := beginOp in
  if negb begun then let! _ := unclaim d job in mret (inl ErrShuttingDown) else
  let! r := createRun d job kind command in
  let! launched := match r with
                   | inl e => mret (inl e)
                   | inr run => let! a := launchJob d run job command in
                                mret (match a with inl e => inl e | inr id => inr (run, id) end)
                   end in
  match launched with
  | inr (run, id) =>
      let! _ := perform (JLog [L "job started"]) in
      let! _ := perform (JCollect d run job command id timeout) in
      mret (inr run)
  | inl e => let! _ := unclaim d job in let! _ := opDone in mret (inl (Failure e))
  end.

Definition startFromActive (name kind : string) (resolve : Deployment → start_error + (string * list string * Duration)) : JM (start_error + Z) :=
  let! err := perform (JLock name) in
  match err with Some e => mret (inl (NotLocked e)) | None =>
  let! r := (
    let! a := perform (JGetApplication name) in
    match a with inl e => mret (inl (StoreError e)) | inr app =>
    match app_ActiveDeploymentID app with None => mret (inl ErrNotDeployed) | Some id =>
    let! a := perform (JGetDeployment id) in
    match a with inl e => mret (inl (StoreError e)) | inr d =>
    if negb (String.eqb (d_StaticDigest d) "") then mret (inl ErrStaticApplication) else
    match resolve d with inl e => mret (inl e) | inr (job, command, timeout) => startJob d job kind command timeout end
    end end end) in
  let! _ := perform (JUnlock name) in
  mret r
  end.
Definition RunCommand (name : string) (argv : list string) : JM (start_error + Z) :=
  match ValidateCommand argv with
  | Err e => mret (inl (InvalidCommand e))
  | Ok _ => startFromActive name RunKindManual (λ _, inr (commandJobName, argv, DefaultJobTimeout))
  end.
Definition RunJob (name job : string) : JM (start_error + Z) :=
  startFromActive name RunKindManual (λ d,
    match List.find (λ j, String.eqb (j_Name j) job) (a_Jobs (d_Spec d)) with
    | Some j => inr (j_Name j, j_Command j, j_Timeout j)
    | None => inl (StoreError ErrNotFound)
    end).

(** ** The pre-deploy hook *)

Definition hookOutput (d : Deployment) (run : Z) : JM unit :=
  let! err := perform (JGetRun run) in
  let! t := mget table in
  match err, GetJobRun t run with
  | None, inr r => if String.eqb (jr_Output r) "" then mret tt else perform (JEvent d "error" "log" [S' (hook_message (jr_Output r))])
  | _, _ => mret tt
  end.
Definition runHook (d : Deployment) (hook : Hook) : JM (or_error unit) :=
  let! _ := perform (JStep d [L "Running pre-deploy command"]) in
  let! a := createRun d hookJobName RunKindHook (hook_Command hook) in
  match a with inl e => fail e | inr run =>
  let! started := perform JNow in
  let! r := runJob Own d run hookJobName (hook_Command hook) (hook_Timeout hook) in
  match r with
  | inl TimedOut => let! _ := hookOutput d run in fail [L "pre-deploy command timed out after "; D (hook_Timeout hook)]
  | inl (RunFailure e) => fail (L "pre-deploy command: " :: e)
  | inl (ContextEnded Canceled) => fail [L "pre-deploy command: context canceled"]
  | inl (ContextEnded DeadlineExceeded) => fail [L "pre-deploy command: context deadline exceeded"]
  | inr code =>
      if code =? 0 then
        let! now := perform JNow in
        let! _ := perform (JStep d [L "Pre-deploy command finished ("; D (Sub now started); L ")"]) in ok tt
      else let! _ := hookOutput d run in fail [L "pre-deploy command exited "; D code]
  end end.
End Jobs.

(** ** What is asked of the history *)

Record Run := mk_view { rv_ID : Z; rv_Application : string; rv_Job : string; rv_Kind : string; rv_Command : list string; rv_Status : string; rv_ExitCode : option Z; rv_DeploymentID : option Z; rv_StartedAt : Time; rv_FinishedAt : option Time }.
Definition runView (r : JobRun) : Run :=
  mk_view (jr_ID r) (jr_Application r) (jr_Job r) (jr_Kind r) (jr_Command r) (jr_Status r) (jr_ExitCode r) (jr_DeploymentID r) (jr_StartedAt r) (jr_FinishedAt r).
Definition Runs (app : answer Application) (t : Job_runs) (job : string) (limit : nat) : answer (list Run) :=
  match app with inl e => inl e | inr a => inr (runView <$> ListJobRuns t (app_ID a) job limit) end.
Definition JobRun_detail (app : answer Application) (t : Job_runs) (id : Z) : answer (Run * string) :=
  match app, GetJobRun t id with
  | inl e, _ => inl e
  | inr _, inl e => inl e
  | inr a, inr r => if negb (jr_ApplicationID r =? app_ID a) then inl ErrNotFound else inr (runView r, jr_Output r)
  end.

(** api.Job, without what deploy.yaml says of the job. *)
Record Job_view := mk_jobview { jv_Job : Job; jv_LastRun : option Run; jv_NextRunAt : option Time }.
Definition Jobs (app : answer Application) (get : Z → answer Deployment) (t : Job_runs) (now : Time) : start_error + list Job_view :=
  match app with
  | inl e => inl (StoreError e)
  | inr a =>
      match app_ActiveDeploymentID a with
      | None => inl ErrNotDeployed
      | Some id =>
          match get id with
          | inl e => inl (StoreError e)
          | inr d =>
              if negb (String.eqb (d_StaticDigest d) "") then inl ErrStaticApplication else
              let last := LastJobRuns t (app_ID a) in
              inr ((λ j, mk_jobview j (runView <$> last !! j_Name j) (Schedule.NextRunAt a j now)) <$> a_Jobs (d_Spec d))
          end
      end
  end.
