(* ===== verification/JobsInv.v ===== *)
(** * What runs of jobs come to

    A run that was started ends with its outcome recorded, its container gone
    and its claim released, whatever fails; no job runs twice at a time; and a
    record that says running has a goroutine behind it, unless the database
    would not take its outcome. *)

From stdpp Require Import sorting.
From S2P Require Import Prelude GoStrings Effects GoTime SpecTypes SpecValidate SpecReferences DeployState Crypto Store Containers Jobs.
From S2P Require Locks.
From Stdlib Require Import Ascii String.
Local Open Scope string_scope.
Local Open Scope Z_scope.

Abbreviation event := (Effects.happened janswer).
Local Abbreviation JM := (Effects.M jobs janswer).

(** ** Output *)

Lemma slen_app a b : slen (a ++ b) = slen a + slen b.
Proof. unfold slen. rewrite string_length_app. lia. Qed.
Lemma substring_le n : ∀ m s, (String.length (substring n m s) ≤ m)%nat.
Proof. induction n as [|n IH]; intros m [|c s]; simpl; try lia; [destruct m; simpl; lia|destruct m as [|m]; simpl; [lia|]|apply IH].
  assert (∀ m s, (String.length (substring 0 m s) ≤ m)%nat) as H; [|specialize (H m s); lia].
  clear. induction m as [|m IH]; intros [|c s]; simpl; try lia. specialize (IH s). lia.
Qed.
Lemma cut_length sep s : let '(a, b, _) := cut sep s in (String.length a ≤ String.length s ∧ String.length b ≤ String.length s)%nat.
Proof.
  induction s as [|c s IH]; simpl; [lia|]. destruct (Ascii.eqb c sep); [simpl; lia|]. destruct (cut sep s) as [[a b] f]. simpl. lia.
Qed.
(** What a run keeps of its output is bounded, and all of it when it is short. *)
Lemma output_bounded lines : slen (bounded_output lines) ≤ jobOutputBytes + 16 ∧ (slen (join newline lines) ≤ jobOutputBytes → bounded_output lines = join newline lines).
Proof.
  unfold bounded_output. destruct (Z.leb_spec (slen (join newline lines)) jobOutputBytes) as [H|H]; [split; [lia|done]|]. split; [|lia].
  set (tail := last_bytes jobOutputBytes (join newline lines)). assert (slen tail ≤ jobOutputBytes) as Ht.
  { unfold tail, last_bytes, slen. pose proof (substring_le (String.length (join newline lines) - Z.to_nat jobOutputBytes) (Z.to_nat jobOutputBytes) (join newline lines)). unfold jobOutputBytes in *. lia. }
  pose proof (cut_length (chr 10) tail) as Hc. destruct (cut (chr 10) tail) as [[a b] f]. unfold slen in *. destruct f; rewrite !string_length_app; cbn [String.length newline]; lia.
Qed.

(** ** What a goroutine does *)

(** The calls that say something happened, oldest first. *)
Definition visible (ev : event) : option jcall :=
  match what ev with JNow | JLog _ | JCtxErr _ | JPruneEvents _ => None | c => Some c end.
Definition shown (evs : list event) : list jcall := reverse (omap visible evs).
(** The runs whose record is not what the program made of it. *)
Definition unrecorded (ev : event) : option Z :=
  match ev with mk_happened c a =>
    match c return janswer c → option Z with
    | JFinishRun id _ => λ a, match a with Some _ => Some id | None => None end
    | JCreateRun id _ _ => λ a, match a with RecordedUnread _ => Some id | _ => None end
    | _ => λ _, None
    end a
  end.
Lemma shown_app a b : shown (a ++ b)%list = (shown b ++ shown a)%list.
Proof. unfold shown. rewrite omap_app, reverse_app. done. Qed.

Lemma unrecorded_app a b : omap unrecorded (a ++ b)%list = (omap unrecorded a ++ omap unrecorded b)%list.
Proof. apply omap_app. Qed.

Definition quiet {A} (m : JM A) : Prop := does m (λ s _ s' evs, s' = s ∧ shown evs = [] ∧ omap unrecorded evs = []).
Ltac events := repeat match goal with E : ?l = (_ ++ _)%list |- context [?l] => is_var l; subst l end; rewrite ?app_assoc; reflexivity.

Section Goroutine.
Context (world : list event → ∀ c, janswer c) (Error : text → string).

Lemma quiet_logged prefix (e : error) : quiet (match e with Some e => Effects.perform world (JLog (prefix :: e)) | None => mret tt end).
Proof. intros s. destruct e; [by eexists [_]|by exists []]. Qed.

(** The record is ended, or the database would not take it. *)
Definition ends_run (run : Z) (status : string) (code : option Z) (output : string) (s s' : jobs) (evs : list event) : Prop :=
  (omap unrecorded evs = [] ∧ ∃ now, s' = set_table (λ t, FinishJobRun t run status code output now) s) ∨ (omap unrecorded evs = [run] ∧ s' = s).
Lemma finishRun_does run status code output : does (finishRun world run status code output) (λ s _ s' evs, ends_run run status code output s s' evs ∧ shown evs = [JFinishRun run status]).
Proof.
  intros s. unfold finishRun. rewrite !then_perform. cbn [fst snd]. set (ev1 := mk_happened JNow _). set (ev2 := mk_happened (JFinishRun run status) _).
  assert (unrecorded ev2 = match world (ev1 :: s.2) (JFinishRun run status) with Some _ => Some run | None => None end) as Hu by done.
  destruct (world (ev1 :: s.2) (JFinishRun run status)) as [e|].
  - eexists [_; ev2; ev1]. split; [done|]. split; [right|done]. split; [|done]. cbn -[unrecorded]. by rewrite Hu.
  - exists [ev2; ev1]. split; [done|]. split; [left|done]. split; [cbn -[unrecorded]; by rewrite Hu|]. by eexists.
Qed.
Lemma jobOutput_does until container : does (jobOutput world until container) (λ s out s' evs, s' = s ∧ slen out ≤ jobOutputBytes + 16 ∧ shown evs = [JLogs until container jobOutputLines] ∧ omap unrecorded evs = []).
Proof.
  intros s. unfold jobOutput. rewrite then_perform. eexists [_]. split; [done|]. split_and!; [done| |done|done]. cbn. destruct (world _ _) as [e|lines]; [by vm_compute|apply output_bounded].
Qed.

(** What a run ends as. *)
Definition wait_error (a : waited) : run_error := match a with WaitFailed e => RunFailure e | WaitEnded c => ContextEnded c | Exited _ => TimedOut end.
Definition verdict (a : waited) (ended : option ctx_end) : string * option Z * (run_error + Z) :=
  match a with
  | Exited code => (if code =? 0 then RunSucceeded else RunFailed, Some code, inr code)
  | a => match ended, wait_error a with
         | Some Canceled, _ => (RunInterrupted, None, inl (ContextEnded Canceled))
         | _, ContextEnded DeadlineExceeded => (RunTimedOut, None, inl TimedOut)
         | _, e => (RunFailed, None, inl e)
         end
  end.
Definition stopped until (a : waited) (container : string) : list jcall := match a with Exited _ => [] | _ => [JStop until container] end.
Definition collect_calls until w run container timeout a status : list jcall :=
  (JWait w container timeout :: stopped until a container ++ [JLogs until container jobOutputLines; JFinishRun run status; JArchive container; JRemove (Some until) container])%list.

(** [verdict_of a]: the outcome the program made of an answer, and recorded. *)
Definition ends_as run a (r : run_error + Z) (s s' : jobs) (evs : list event) (before : list jcall) : Prop :=
  ∃ ended output, slen output ≤ jobOutputBytes + 16 ∧ (verdict a ended).2 = r ∧ ends_run run (verdict a ended).1.1 (verdict a ended).1.2 output s s' evs ∧
    shown evs = (before ++ [JFinishRun run (verdict a ended).1.1])%list.
Lemma finish_ends run a ended output status code r s evs0 before : slen output ≤ jobOutputBytes + 16 → verdict a ended = (status, code, r) → shown evs0 = before → omap unrecorded evs0 = [] →
  ∃ evs, (finishRun world run status code output (s.1, evs0 ++ s.2)%list).2.2 = ((evs ++ evs0) ++ s.2)%list ∧
    ends_as run a r s.1 (finishRun world run status code output (s.1, evs0 ++ s.2)%list).2.1 (evs ++ evs0)%list before.
Proof.
  intros Ho Hv Hb Hu. destruct (finishRun_does run status code output (s.1, evs0 ++ s.2)%list) as (evs & E & [Hend Hs]). exists evs. rewrite E. cbn [snd]. split; [by rewrite app_assoc|].
  exists ended, output. rewrite Hv. cbn [fst snd] in *. rewrite shown_app, Hs, Hb. split_and!; [done|done| |done].
  destruct Hend as [[E1 H]|[E1 H]]; [left|right]; by rewrite unrecorded_app, E1, Hu.
Qed.
Lemma gave_up_does until w run container a : match a with Exited _ => False | _ => True end →
  does (gave_up world until w run container (wait_error a)) (λ s r s' evs, ends_as run a (inl r) s s' evs [JStop until container; JLogs until container jobOutputLines]).
Proof.
  intros Ha s. unfold gave_up. rewrite then_perform. set (ev1 := mk_happened (JStop until container) _). after (quiet_logged (L "could not stop job container") (world s.2 (JStop until container))).
  destruct P as (-> & S1 & U1). after (jobOutput_does until container). destruct P as (-> & Ho & S2 & U2). subst. rewrite then_perform. set (ev2 := mk_happened (JCtxErr w) _). cbn [fst snd].
  set (ended := world _ (JCtxErr w)). set (all := (ev2 :: evs0 ++ evs ++ [ev1])%list).
  assert (shown all = [JStop until container; JLogs until container jobOutputLines]) as Hs.
  { change all with ([ev2] ++ evs0 ++ evs ++ [ev1])%list. by rewrite !shown_app, S1, S2. }
  assert (omap unrecorded all = []) as Hu.
  { change all with ([ev2] ++ evs0 ++ evs ++ [ev1])%list. by rewrite !unrecorded_app, U1, U2. }
  assert (ev2 :: evs0 ++ evs ++ ev1 :: s.2 = all ++ s.2)%list as -> by (unfold all; cbn; by rewrite <- !app_assoc).
  assert (∀ status code e, verdict a ended = (status, code, inl e) → let r := (let! _ := finishRun world run status code s0 in mret e) (s.1, all ++ s.2)%list in
    ∃ evs', r.2.2 = (evs' ++ s.2)%list ∧ ends_as run a (inl r.1) s.1 r.2.1 evs' [JStop until container; JLogs until container jobOutputLines]) as Hfin.
  { intros status code e Hv r. destruct (finish_ends run a ended s0 status code (inl e) s all _ Ho Hv Hs Hu) as (evs' & E' & H'). exists (evs' ++ all)%list. subst r.
    rewrite then_eq. destruct (finishRun _ _ _ _ _ _) as [? s']. cbn [fst snd mret] in *. by split. }
  clearbody ended. destruct a as [code|c|e]; [done| |]; cbn [wait_error verdict] in *; destruct ended as [[]|]; try destruct c; by apply Hfin.
Qed.

Lemma collected_does until container : does (collected world until container) (λ s _ s' evs, s' = s ∧ shown evs = [JArchive container; JRemove (Some until) container] ∧ omap unrecorded evs = []).
Proof. intros s. unfold collected. rewrite !then_perform. destruct (world _ (JRemove (Some until) container)); [by eexists [_; _; _]|by eexists [_; _]]. Qed.
Lemma collectJob_does w run container timeout s : let m := collectJob world w run container timeout in let now := world s.2 JNow in
  let a := world (mk_happened JNow now :: s.2) (JWait w container timeout) in
  ∃ evs, (m s).2.2 = (evs ++ s.2)%list ∧ ∃ ended output, slen output ≤ jobOutputBytes + 16 ∧ (verdict a ended).2 = (m s).1 ∧
    ends_run run (verdict a ended).1.1 (verdict a ended).1.2 output s.1 (m s).2.1 evs ∧ shown evs = collect_calls (now + cleanupTimeout) w run container timeout a (verdict a ended).1.1.
Proof.
  intros m now a. subst m. unfold collectJob. rewrite !then_perform. cbv zeta. fold now. cbn [fst snd]. set (evn := mk_happened JNow now) in *. set (until := now + cleanupTimeout). set (ev0 := mk_happened (JWait w container timeout) _).
  assert (∀ m : JM (run_error + Z), does m (λ s r s' evs, ends_as run a r s s' evs (stopped until a container ++ [JLogs until container jobOutputLines])%list) →
    let r := (let! r := m in let! _ := collected world until container in mret r) (s.1, ev0 :: evn :: s.2) in
    ∃ evs, r.2.2 = (evs ++ s.2)%list ∧ ∃ ended output, slen output ≤ jobOutputBytes + 16 ∧ (verdict a ended).2 = r.1 ∧
      ends_run run (verdict a ended).1.1 (verdict a ended).1.2 output s.1 r.2.1 evs ∧ shown evs = collect_calls until w run container timeout a (verdict a ended).1.1) as Hrest.
  { intros m Hm r. subst r. after Hm. destruct P as (ended & output & Ho & Hv & Hend & Hs). after (collected_does until container). destruct P as (-> & S1 & U1). subst.
    exists (evs0 ++ evs ++ [ev0; evn])%list. split; [cbn; by rewrite <- !app_assoc|]. exists ended, output. split_and!; [done|done| |].
    - destruct Hend as [[U H]|[U H]]; [left|right]; rewrite !unrecorded_app, U1, U; done.
    - rewrite !shown_app, S1, Hs. unfold collect_calls. cbn. by rewrite <- !app_assoc. }
  subst a. destruct (world (evn :: s.2) (JWait w container timeout)) as [code|c|e] eqn:Ea.
  - apply Hrest. intros s1. after (jobOutput_does until container). destruct P as (-> & Ho & S1 & U1). subst.
    destruct (finish_ends run (Exited code) None s0 (if code =? 0 then RunSucceeded else RunFailed) (Some code) (inr code) s1 evs _ Ho eq_refl S1 U1) as (evs' & E' & H').
    exists (evs' ++ evs)%list. rewrite then_eq. destruct (finishRun _ _ _ _ _ _) as [? s']. cbn [fst snd mret] in *. by split.
  - apply Hrest. intros s1. pose proof (gave_up_does until w run container (WaitEnded c) I s1) as H. rewrite then_eq. cbn [wait_error] in H. by destruct (gave_up _ _ _ _ _ _ s1).
  - apply Hrest. intros s1. pose proof (gave_up_does until w run container (WaitFailed e) I s1) as H. rewrite then_eq. cbn [wait_error] in H. by destruct (gave_up _ _ _ _ _ _ s1).
Qed.

Definition report_calls (d : Deployment) job command (r : run_error + Z) stopping timeout : list jcall :=
  ((match run_message job command r stopping timeout with
    | [] => []
    | msg => [JAppEvent (d_ApplicationID d) "warn" msg;
              JNotify (d_Application d) (d_Version d) (S' (d_Application d) :: L ": " :: msg ++ [L ". Its output: shipwick jobs logs "; S' (d_Application d); L " "; S' job])%list]
    end) ++ [JPruneRuns (d_ApplicationID d) job jobRunsKept; JDropRunLogs (d_ApplicationID d)])%list.
Definition pruned (d : Deployment) (job : string) (s : jobs) : jobs := set_table (λ t, PruneJobRuns t (d_ApplicationID d) job jobRunsKept) s.
Definition announced (d : Deployment) (job : string) (msg : text) : JM unit :=
  match msg with
  | [] => mret tt
  | _ =>
      let! _ := Effects.perform world (JLog msg) in
      let! err := Effects.perform world (JAppEvent (d_ApplicationID d) "warn" msg) in
      let! _ := match err with
                | Some e => Effects.perform world (JLog (L "could not record event" :: e))
                | None => let! err := Effects.perform world (JPruneEvents (d_ApplicationID d)) in
                          match err with Some e => Effects.perform world (JLog (L "could not prune events" :: e)) | None => mret tt end
                end in
      Effects.perform world (JNotify (d_Application d) (d_Version d) (S' (d_Application d) :: L ": " :: msg ++ [L ". Its output: shipwick jobs logs "; S' (d_Application d); L " "; S' job])%list)
  end.
Lemma announced_does d job msg : does (announced d job msg) (λ s _ s' evs, s' = s ∧ omap unrecorded evs = [] ∧
  shown evs = match msg with [] => [] | msg => [JAppEvent (d_ApplicationID d) "warn" msg;
    JNotify (d_Application d) (d_Version d) (S' (d_Application d) :: L ": " :: msg ++ [L ". Its output: shipwick jobs logs "; S' (d_Application d); L " "; S' job])%list] end).
Proof.
  intros s. unfold announced. destruct msg as [|f msg]; [by exists []|]. rewrite !then_perform. destruct (world _ (JAppEvent _ _ _)).
  - by eexists [_; _; _; _].
  - rewrite then_eq, then_perform. destruct (world _ (JPruneEvents _)); [by eexists [_; _; _; _; _]|by eexists [_; _; _; _]].
Qed.
Lemma reportRun_does d run job command r timeout : does (reportRun world d run job command r timeout) (λ s _ s' evs, ∃ stopping, omap unrecorded evs = [] ∧ (s' = s ∨ s' = pruned d job s) ∧
  shown evs = report_calls d job command r stopping timeout).
Proof.
  intros s. unfold reportRun. rewrite then_perform. set (ev0 := mk_happened (JCtxErr Base) _). set (stopping := bool_decide _). fold (announced d job (run_message job command r stopping timeout)).
  after (announced_does d job (run_message job command r stopping timeout)). destruct P as (-> & U1 & S1). rewrite then_perform. cbn [fst snd].
  destruct (world _ (JPruneRuns _ _ _)) as [e|].
  - unfold mthen, Effects.perform. cbn [fst snd]. eexists ([_; _; _] ++ evs ++ [ev0])%list. split; [rewrite E; cbn; by rewrite <- app_assoc|]. exists stopping. rewrite !unrecorded_app, !shown_app, U1, S1. split_and!; [done|by left|unfold report_calls; by destruct (run_message job command r stopping timeout)].
  - unfold mthen, mset, Effects.perform. cbn [fst snd]. eexists ([_; _] ++ evs ++ [ev0])%list. split; [rewrite E; cbn; by rewrite <- app_assoc|]. exists stopping. rewrite !unrecorded_app, !shown_app, U1, S1. split_and!; [done|by right|unfold report_calls; by destruct (run_message job command r stopping timeout)].
Qed.
End Goroutine.

Definition released (d : Deployment) (job : string) (s : jobs) : jobs := if exclusive job then set_active (λ held, held ∖ {[job_key (d_Application d) job]}) s else s.
Definition counted_down (s : jobs) : jobs := set_engine (Locks.opDone (engine s)).1 s.
Lemma unclaim_eq d job s : unclaim d job s = (tt, (released d job s.1, s.2)).
Proof. unfold unclaim, released, release. destruct (exclusive job); [done|]. by destruct s. Qed.
Lemma opDone_eq s : opDone s = (tt, (counted_down s.1, s.2)).
Proof. done. Qed.


(** ** Starting *)

Section Starting.
Context (world : list event → ∀ c, janswer c) (Error : text → string).

(** The goroutines a program launched. *)
Record goroutine := mk_goroutine { g_d : Deployment; g_run : Z; g_job : string; g_command : list string; g_container : string; g_timeout : Duration }.
Definition launched_by (ev : event) : option goroutine :=
  match what ev with JCollect d run job command container timeout => Some (mk_goroutine d run job command container timeout) | _ => None end.
Definition next_id (t : Job_runs) : Z := Z.max (jr_seq t) (largest (jr_ID <$> rows t)) + 1.
Definition created_row (d : Deployment) job kind command now (s : jobs) : jobs := set_table (λ t, (CreateJobRun t d job kind command now).1) s.

Lemma createRun_does d job kind command : does (createRun world d job kind command) (λ s r s' evs, omap launched_by evs = [] ∧
  match r with
  | inr id => id = next_id (table s) ∧ omap unrecorded evs = [] ∧ ∃ now, s' = created_row d job kind command now s
  | inl _ => s' = s ∧ omap unrecorded evs = [] ∨ omap unrecorded evs = [next_id (table s)] ∧ ∃ now, s' = created_row d job kind command now s
  end).
Proof.
  intros s. unfold createRun. rewrite then_perform, then_get. cbn [fst snd]. destruct (CreateJobRun _ _ _ _ _ _) as [t id] eqn:Et.
  assert (id = next_id (table s.1)) as -> by (unfold CreateJobRun in Et; by injection Et as <- <-).
  set (ev0 := mk_happened JNow _). rewrite then_perform. set (ev1 := mk_happened (JCreateRun _ _ _) _).
  assert (unrecorded ev1 = match world (ev0 :: s.2) (JCreateRun (next_id (table s.1)) job kind) with RecordedUnread _ => Some (next_id (table s.1)) | _ => None end) as Hu by done.
  assert (set_table (λ _, t) s.1 = created_row d job kind command (world s.2 JNow) s.1) as Ht by (unfold created_row, set_table; by rewrite Et).
  cbn [fst snd]. destruct (world (ev0 :: s.2) (JCreateRun _ _ _)) as [|e|e].
  - exists [ev1; ev0]. split; [done|]. split; [done|]. change (next_id (table s.1) = next_id (table s.1) ∧ omap unrecorded [ev1; ev0] = [] ∧ ∃ now, set_table (λ _, t) s.1 = created_row d job kind command now s.1).
    split_and!; [done|cbn -[unrecorded]; by rewrite Hu|]. exists (world s.2 JNow). exact Ht.
  - exists [ev1; ev0]. split; [done|]. split; [done|]. left. split; [done|]. cbn -[unrecorded]. by rewrite Hu.
  - exists [ev1; ev0]. split; [done|]. split; [done|]. right. split; [cbn -[unrecorded]; by rewrite Hu|]. exists (world s.2 JNow). exact Ht.
Qed.
Lemma finishRun_launches run status code output : does (finishRun world run status code output) (λ s _ s' evs, omap launched_by evs = [] ∧ ends_run run status code output s s' evs).
Proof.
  intros s. unfold finishRun. rewrite !then_perform. cbn [fst snd]. set (ev1 := mk_happened JNow _). set (ev2 := mk_happened (JFinishRun run status) _).
  assert (unrecorded ev2 = match world (ev1 :: s.2) (JFinishRun run status) with Some _ => Some run | None => None end) as Hu by done.
  destruct (world (ev1 :: s.2) (JFinishRun run status)) as [e|].
  - eexists [_; ev2; ev1]. split; [done|]. split; [done|]. right. split; [|done]. cbn -[unrecorded]. by rewrite Hu.
  - exists [ev2; ev1]. split; [done|]. split; [done|]. left. split; [cbn -[unrecorded]; by rewrite Hu|]. by eexists.
Qed.
(** A launch that fails ends the run as failed, and the container goes. *)
Lemma launchJob_does d run job command : does (launchJob world Error d run job command) (λ s r s' evs, omap launched_by evs = [] ∧
  match r with inr _ => s' = s ∧ omap unrecorded evs = [] | inl _ => ∃ output, ends_run run RunFailed None output s s' evs end).
Proof.
  intros s. unfold launchJob. rewrite then_perform. set (ev0 := mk_happened (JCreateContainer _) _). destruct (world s.2 (JCreateContainer _)) as [e|[id name]].
  - after (finishRun_launches run RunFailed None ("could not create the container: " ++ Error e)). destruct P as [L1 P]. exists (evs ++ [ev0])%list. split; [rewrite E; by rewrite <- app_assoc|].
    split; [by rewrite omap_app, L1|]. eexists. destruct P as [[U H]|[U H]]; [left|right]; by rewrite unrecorded_app, U.
  - rewrite then_perform. set (ev1 := mk_happened (JStart id) _). destruct (world _ (JStart id)) as [e|].
    2:{ by exists [ev1; ev0]. }
    after (finishRun_launches run RunFailed None ("could not start the container: " ++ Error e)). destruct P as [L1 P]. rewrite then_perform. set (ev2 := mk_happened (JRemove None id) _). cbn [fst snd].
    assert (∃ out s2, ends_run run RunFailed None out s.1 j (s2 ++ evs ++ [ev1; ev0])%list ∧ s2 = [ev2]) as (out & ? & Hend & ->).
    { eexists _, _. split; [|done]. destruct P as [[U H]|[U H]]; [left|right]; by rewrite !unrecorded_app, U. }
    destruct (world _ (JRemove None id)) as [r|].
    + eexists (_ :: [ev2] ++ evs ++ [ev1; ev0])%list. split; [unfold mthen, Effects.perform; cbn [fst snd]; rewrite E; cbn; by rewrite <- !app_assoc|].
      split; [cbn; by rewrite omap_app, L1|]. by exists out.
    + exists ([ev2] ++ evs ++ [ev1; ev0])%list. split; [cbn; rewrite E; by rewrite <- !app_assoc|]. split; [cbn; by rewrite omap_app, L1|]. by exists out.
Qed.

Definition begun (d : Deployment) (job : string) (s : jobs) : jobs :=
  mk_jobs (table s) (if exclusive job then {[job_key (d_Application d) job]} ∪ active s else active s) (Locks.set_ops (Locks.ops (engine s) + 1) (engine s)).
Definition free (d : Deployment) (job : string) (s : jobs) : Prop := exclusive job = true → job_key (d_Application d) job ∉ active s.
Lemma given_back d job (s s' : jobs) : free d job s → active s' = active (begun d job s) → engine s' = engine (begun d job s) →
  active (counted_down (released d job s')) = active s ∧ engine (counted_down (released d job s')) = engine s ∧ table (counted_down (released d job s')) = table s'.
Proof.
  intros Hf Ha He. unfold begun, released, free in *. cbn [active engine] in *. destruct (exclusive job); cbn.
  - specialize (Hf eq_refl). rewrite Ha, He. split_and!; [set_solver| |done]. destruct (engine s); cbn. unfold Locks.set_ops. cbn. f_equal. lia.
  - rewrite Ha, He. split_and!; [done| |done]. destruct (engine s); cbn. unfold Locks.set_ops. cbn. f_equal. lia.
Qed.
(** What is left in the table of a run that did not start. *)
Definition not_started (d : Deployment) job kind command (t t' : Job_runs) (lost : list Z) : Prop :=
  t' = t ∧ lost = [] ∨ ∃ now, let made := (CreateJobRun t d job kind command now).1 in
    t' = made ∧ lost = [next_id t] ∨ ∃ output now', t' = FinishJobRun made (next_id t) RunFailed None output now' ∧ lost = [].
Lemma then_assoc {A B C} (m : JM A) (f : A → JM B) (g : B → JM C) s : mthen m (λ a, mthen (f a) g) s = mthen (mthen m f) g s.
Proof. unfold mthen. by destruct (m s). Qed.
Lemma claim_eq app job s : claim app job s = (if bool_decide (job_key app job ∈ active s.1) then (false, s) else (true, (set_active (union {[job_key app job]}) s.1, s.2))).
Proof. unfold claim. rewrite then_get. by case_bool_decide. Qed.
Lemma beginOp_eq s : beginOp s = (if Locks.closed (engine s.1) then (false, s) else (true, (set_engine (Locks.set_ops (Locks.ops (engine s.1) + 1) (engine s.1)) s.1, s.2))).
Proof. unfold beginOp, Locks.beginOp. rewrite then_get. destruct s as [[t a e] h]. cbn. by destruct (Locks.closed e). Qed.

Lemma launch_record d job kind command : does
  (let! r := createRun world d job kind command in
   match r with inl e => mret (inl e) | inr run => let! a := launchJob world Error d run job command in mret (match a with inl e => inl e | inr id => inr (run, id) end) end)
  (λ s r s' evs, omap launched_by evs = [] ∧ active s' = active s ∧ engine s' = engine s ∧
    match r with
    | inr (run, _) => run = next_id (table s) ∧ omap unrecorded evs = [] ∧ ∃ now, s' = created_row d job kind command now s
    | inl _ => not_started d job kind command (table s) (table s') (omap unrecorded evs)
    end).
Proof.
  intros s. after (createRun_does d job kind command). destruct P as [L1 P]. subst l. destruct s0 as [e|run].
  - exists evs. split; [done|]. split; [done|]. destruct P as [[-> U]|[U (now & ->)]]; (split; [done|]; split; [done|]).
    + rewrite U. by left.
    + rewrite U. right. exists now. by left.
  - destruct P as (-> & U & now & ->). after (launchJob_does d (next_id (table s.1)) job command). destruct P as [L2 P]. subst l. destruct s0 as [e|id].
    + destruct P as (output & P). exists (evs0 ++ evs)%list. split; [by rewrite app_assoc|]. split; [by rewrite omap_app, L1, L2|].
      destruct P as [[U2 (now' & ->)]|[U2 ->]]; (split; [done|]; split; [done|]); rewrite unrecorded_app, U, U2; right; exists now; [right; by exists output, now'|by left].
    + destruct P as (-> & U2). exists (evs0 ++ evs)%list. split; [by rewrite app_assoc|]. split; [by rewrite omap_app, L1, L2|]. do 3 (split; [done|]). split; [by rewrite unrecorded_app, U, U2|by exists now].
Qed.
Lemma startJob_does d job kind command timeout : does (startJob world Error d job kind command timeout) (λ s r s' evs,
  match r with
  | inr run => run = next_id (table s) ∧ free d job s ∧ omap unrecorded evs = [] ∧ ∃ now container, omap launched_by evs = [mk_goroutine d run job command container timeout] ∧ s' = created_row d job kind command now (begun d job s)
  | inl _ => omap launched_by evs = [] ∧ active s' = active s ∧ engine s' = engine s ∧ not_started d job kind command (table s) (table s') (omap unrecorded evs)
  end).
Proof.
  intros s. unfold startJob.
  assert ((if exclusive job then claim (d_Application d) job else mret true) s = (if bool_decide (free d job s.1) then (true, (if exclusive job then set_active (union {[job_key (d_Application d) job]}) s.1 else s.1, s.2)) else (false, s))) as Hc.
  { unfold free. destruct (exclusive job); [rewrite claim_eq|]; repeat case_bool_decide; destruct s; try done; exfalso; naive_solver. }
  rewrite then_eq, Hc. clear Hc. case_bool_decide as Hf; cbn [fst snd negb].
  2:{ exists []. split; [done|]. cbn [mret fst snd]. do 3 (split; [done|]). by left. }
  rewrite then_eq, beginOp_eq. set (s1 := if exclusive job then _ else s.1). assert (engine s1 = engine s.1 ∧ table s1 = table s.1) as [He Ht] by (unfold s1; by destruct (exclusive job)).
  cbn [fst snd]. rewrite He. destruct (Locks.closed (engine s.1)) eqn:Hcl; cbn [fst snd negb].
  { rewrite then_eq, unclaim_eq. cbn [fst snd mret]. exists []. split; [done|]. split; [done|]. assert (released d job s1 = s.1) as ->; [|split_and!; [done..|by left]].
    unfold released, s1, free in *. destruct s as [[t a e] h]. cbn in *. destruct (exclusive job); [|done]. specialize (Hf eq_refl). unfold set_active. cbn. f_equal. set_solver. }
  assert (set_engine (Locks.set_ops (Locks.ops (engine s.1) + 1) (engine s.1)) s1 = begun d job s.1) as Hb.
  { unfold begun, set_engine, s1. destruct (exclusive job); done. }
  rewrite Hb. clear Hb He Ht s1. rewrite then_assoc. after (launch_record d job kind command). destruct P as (L1 & Ha & He & P). cbn [snd] in E. subst l. destruct s0 as [e|[run id]].
  - rewrite then_eq, unclaim_eq. cbn [fst snd]. rewrite then_eq, opDone_eq. cbn [fst snd mret]. exists evs. split; [done|]. split; [done|].
    destruct (given_back d job s.1 j Hf Ha He) as (-> & -> & ->). split_and!; [done|done|exact P].
  - destruct P as (-> & U & now & ->). unfold mthen, Effects.perform. cbn [fst snd mret]. eexists ([_; _] ++ evs)%list. split; [done|]. rewrite unrecorded_app, omap_app, U, L1.
    split_and!; [done|done|done|]. exists now, id. split; [done|]. done.
Qed.
End Starting.

(** ** The table *)

Definition ids (t : Job_runs) : list Z := jr_ID <$> rows t.
Definition running_ids (t : Job_runs) : list Z := jr_ID <$> List.filter is_running (rows t).
Definition numbered (t : Job_runs) : Prop := NoDup (ids t) ∧ ∀ id, id ∈ ids t → id ≤ jr_seq t.
(** A record that is over stays as it is while it is there, and a number is given once. *)
Definition later (t t' : Job_runs) : Prop :=
  jr_seq t ≤ jr_seq t' ∧ ∀ r', r' ∈ rows t' → jr_seq t < jr_ID r' ∨ ∃ r, r ∈ rows t ∧ jr_ID r = jr_ID r' ∧ (is_running r = false → r' = r).
(** What a statement does to the runs that say running. *)
Definition fares (t t' : Job_runs) (running : Z → Prop) : Prop := numbered t → numbered t' ∧ later t t' ∧ ∀ id, id ∈ running_ids t' → running id.

Lemma later_refl t : later t t.
Proof. split; [lia|]. intros r Hr. right. by exists r. Qed.
Lemma later_trans t1 t2 t3 : later t1 t2 → later t2 t3 → later t1 t3.
Proof.
  intros [H1 H2] [H3 H4]. split; [lia|]. intros r3 Hr. destruct (H4 r3 Hr) as [?|(r2 & Hr2 & E2 & K2)]; [left; lia|].
  destruct (H2 r2 Hr2) as [?|(r1 & Hr1 & E1 & K1)]; [left; lia|]. right. exists r1. split_and!; [done|congruence|]. intros Hx. assert (r2 = r1) as -> by auto. auto.
Qed.
Lemma fares_refl t : fares t t (λ id, id ∈ running_ids t).
Proof. intros H. split_and!; [done|apply later_refl|done]. Qed.
Lemma fares_trans t1 t2 t3 P Q : fares t1 t2 P → fares t2 t3 Q → fares t1 t3 Q.
Proof. intros H1 H2 H. destruct (H1 H) as (A & B & _). destruct (H2 A) as (C & D & E). split_and!; [done|by eapply later_trans|done]. Qed.
Lemma fares_weaken t t' (P Q : Z → Prop) : fares t t' P → (∀ id, P id → Q id) → fares t t' Q.
Proof. intros H HQ N. destruct (H N) as (A & B & C). split_and!; [done..|auto]. Qed.
Lemma running_id t id : id ∈ running_ids t ↔ ∃ r, r ∈ rows t ∧ jr_ID r = id ∧ is_running r = true.
Proof.
  unfold running_ids. rewrite list_elem_of_fmap. setoid_rewrite list_elem_of_In. setoid_rewrite filter_In. naive_solver.
Qed.

Lemma largest_bounds l x : x ∈ l → x ≤ largest l.
Proof. induction l as [|y l IH]; [by intros ?%elem_of_nil|]. change (largest (y :: l)) with (Z.max y (largest l)). intros [->|H]%elem_of_cons; [lia|]. specialize (IH H). lia. Qed.
Lemma create_fares t d job kind command now : fares t (CreateJobRun t d job kind command now).1 (λ id, id ∈ running_ids t ∨ id = next_id t).
Proof.
  intros [Hd Hs]. unfold CreateJobRun. cbn [fst]. fold (next_id t). assert (∀ id, id ∈ ids t → id < next_id t) as Hlt.
  { intros id Hid. specialize (Hs id Hid). unfold next_id. lia. }
  split_and!.
  - unfold numbered, ids in *. cbn [rows jr_seq]. rewrite fmap_app. split.
    + apply NoDup_app. split_and!; [done| |apply NoDup_singleton]. intros id Hid [E|?%elem_of_nil]%elem_of_cons; [|done]. specialize (Hlt id Hid). cbn in E. lia.
    + intros id [Hid|[->|?%elem_of_nil]%elem_of_cons]%elem_of_app; [specialize (Hlt id Hid); cbn; lia|cbn; lia|done].
  - split; [cbn; unfold next_id; lia|]. cbn. intros r [Hr|[->|?%elem_of_nil]%elem_of_cons]%elem_of_app; [right; by exists r|left; cbn; unfold next_id; lia|done].
  - intros id (r & Hr & <- & E)%running_id. cbn in Hr. apply elem_of_app in Hr as [Hr|[->|?%elem_of_nil]%elem_of_cons]; [left; apply running_id; by exists r|by right|done].
Qed.
Lemma update_fares t cond f (gone : Z → Prop) : (∀ r, jr_ID (f r) = jr_ID r) → (∀ r, cond r = true → is_running r = true) →
  (∀ r, r ∈ rows t → is_running (if cond r then f r else r) = true → ¬ gone (jr_ID r)) → fares t (mk_jobruns (update cond f (rows t)) (jr_seq t)) (λ id, id ∈ running_ids t ∧ ¬ gone id).
Proof.
  intros Hid Hc Hg [Hd Hs]. assert (ids (mk_jobruns (update cond f (rows t)) (jr_seq t)) = ids t) as E.
  { unfold ids, update. cbn. rewrite <- list_fmap_compose. apply list_fmap_ext. intros i r _. cbn. by destruct (cond r). }
  split_and!; [split; by rewrite E| |].
  - split; [cbn; lia|]. cbn. intros r (r0 & -> & Hr0)%list_elem_of_fmap. right. exists r0. destruct (cond r0) eqn:Er; split_and!; try done. intros Hx. by rewrite (Hc r0 Er) in Hx.
  - intros id (r & Hr & <- & Er)%running_id. apply list_elem_of_fmap in Hr as (r0 & -> & Hr0). assert (jr_ID (if cond r0 then f r0 else r0) = jr_ID r0) as -> by (by destruct (cond r0)). split; [|by apply Hg].
    apply running_id. exists r0. split_and!; [done|done|]. destruct (cond r0) eqn:E'; [by apply Hc|done].
Qed.
Lemma finish_fares t id status code output now : status ≠ RunRunning → fares t (FinishJobRun t id status code output now) (λ x, x ∈ running_ids t ∧ x ≠ id).
Proof.
  intros Hst. apply (update_fares t _ _ (λ x, x = id)); [done|by intros r [? ?]%andb_true_iff|]. intros r _ H E. subst id. rewrite Z.eqb_refl in H. cbn [andb] in H. destruct (is_running r) eqn:Er; [|congruence].
  unfold is_running in H. cbn in H. by apply String.eqb_eq in H.
Qed.
Lemma mark_fares t now : fares t (MarkJobRunsInterrupted t now) (λ _, False).
Proof.
  eapply fares_weaken; [apply (update_fares t is_running _ (λ _, True)); [done|done|]|by intros id [_ []]]. intros r _ H _. destruct (is_running r) eqn:E; [|congruence]. by vm_compute in H.
Qed.
Lemma filter_fares t f : fares t (mk_jobruns (List.filter f (rows t)) (jr_seq t)) (λ id, id ∈ running_ids t).
Proof.
  intros [Hd Hs]. assert (∀ r, r ∈ List.filter f (rows t) → r ∈ rows t) as Hin by (intros r; rewrite !list_elem_of_In, filter_In; tauto).
  split_and!.
  - split.
    + unfold ids in *. cbn. clear -Hd. induction (rows t) as [|r l IH]; [done|]. cbn in *. apply NoDup_cons in Hd as [H1 H2]. destruct (f r); [|by apply IH]. cbn. apply NoDup_cons. split; [|by apply IH].
      intros (x & E & Hx)%list_elem_of_fmap. apply H1. apply list_elem_of_fmap. exists x. split; [done|]. rewrite list_elem_of_In in *. by apply filter_In in Hx as [? _].
    + intros id (r & -> & Hr)%list_elem_of_fmap. apply Hs. by apply list_elem_of_fmap_2, Hin.
  - split; [cbn; lia|]. intros r Hr. right. exists r. split_and!; [by apply Hin|done|done].
  - intros id (r & Hr & <- & E)%running_id. apply running_id. exists r. split_and!; [by apply Hin|done|done].
Qed.
Lemma fares_then t1 t2 t3 P R : fares t1 t2 P → fares t2 t3 (λ id, id ∈ running_ids t2 ∧ R id) → fares t1 t3 (λ id, P id ∧ R id).
Proof. intros H1 H2 N. destruct (H1 N) as (A & B & C). destruct (H2 A) as (D & E & F). split_and!; [done|by eapply later_trans|]. intros id Hid. destruct (F id Hid). auto. Qed.
Lemma ends_fares run status code output s s' evs : status ≠ RunRunning → ends_run run status code output s s' evs →
  fares (table s) (table s') (λ id, id ∈ running_ids (table s) ∧ (id = run → run ∈ omap unrecorded evs)).
Proof.
  intros Hst [[U (now & ->)]|[U ->]].
  - eapply fares_weaken; [by apply finish_fares|]. intros id [H1 H2]. by split.
  - eapply fares_weaken; [apply fares_refl|]. intros id H. split; [done|]. intros _. rewrite U. by left.
Qed.
Lemma verdict_over a ended : (verdict a ended).1.1 ≠ RunRunning.
Proof. destruct a as [n|c|e]; cbn; [by destruct (n =? 0)|destruct ended as [[]|]; by destruct c|by destruct ended as [[]|]]. Qed.
Lemma not_started_fares d job kind command t t' lost : not_started d job kind command t t' lost → fares t t' (λ id, id ∈ running_ids t ∨ id ∈ lost).
Proof.
  intros [[-> ->]|(now & [[-> ->]|(output & now' & -> & ->)])].
  - eapply fares_weaken; [apply fares_refl|]. by left.
  - eapply fares_weaken; [apply create_fares|]. intros id [H| ->]; [by left|right; by left].
  - eapply fares_weaken; [eapply fares_then; [apply create_fares|by apply finish_fares]|]. intros id [[H| ->] Hne]; [by left|done].
Qed.

Section Hook.
Context (world : list event → ∀ c, janswer c) (Error : text → string).
Definition still {A} (m : JM A) : Prop := does m (λ s _ s' evs, s' = s ∧ omap unrecorded evs = []).
Lemma still_hookOutput d run : still (hookOutput world d run).
Proof.
  intros s. unfold hookOutput. rewrite then_perform, then_get. cbn [fst snd]. destruct (world s.2 (JGetRun run)); [by eexists [_]|].
  destruct (GetJobRun _ _) as [e|r]; [by eexists [_]|]. destruct (String.eqb (jr_Output r) ""); [by eexists [_]|]. by eexists [_; _].
Qed.
Definition hook_ending (d : Deployment) (hook : Hook) (run : Z) (started : Time) (r : run_error + Z) : JM (text + unit) :=
  match r with
  | inl TimedOut => let! _ := hookOutput world d run in fail [L "pre-deploy command timed out after "; D (hook_Timeout hook)]
  | inl (RunFailure e) => fail (L "pre-deploy command: " :: e)
  | inl (ContextEnded Canceled) => fail [L "pre-deploy command: context canceled"]
  | inl (ContextEnded DeadlineExceeded) => fail [L "pre-deploy command: context deadline exceeded"]
  | inr code =>
      if code =? 0 then
        let! now := Effects.perform world JNow in
        let! _ := Effects.perform world (JStep d [L "Pre-deploy command finished ("; D (Sub now started); L ")"]) in ok tt
      else let! _ := hookOutput world d run in fail [L "pre-deploy command exited "; D code]
  end.
Lemma still_ending d hook run started r : still (hook_ending d hook run started r).
Proof.
  intros s. unfold hook_ending. destruct r as [[|[]|e]|code]; try (by exists []).
  - after (still_hookOutput d run). by exists evs.
  - destruct (code =? 0); [by eexists [_; _]|]. after (still_hookOutput d run). by exists evs.
Qed.
Lemma runJob_does w d run job command timeout : does (runJob world Error w d run job command timeout) (λ s _ s' evs, active s' = active s ∧ engine s' = engine s ∧
  fares (table s) (table s') (λ id, id ∈ running_ids (table s) ∧ (id = run → run ∈ omap unrecorded evs))).
Proof.
  assert (∀ status code output s s' evs, ends_run run status code output s s' evs → active s' = active s ∧ engine s' = engine s) as Hend by (by intros ? ? ? ? ? ? [[_ (? & ->)]|[_ ->]]).
  intros s. unfold runJob. after (launchJob_does world Error d run job command). destruct P as [_ P]. subst l. destruct s0 as [e|id].
  - destruct P as (output & P). exists evs. split; [done|]. destruct (Hend _ _ _ _ _ _ P). split; [done|]. split; [done|]. eapply ends_fares; [|exact P]; done.
  - destruct P as [-> U]. destruct (collectJob_does world w run id timeout (s.1, evs ++ s.2)%list) as (evs1 & E1 & ended & output & _ & _ & P & _). cbn [fst snd] in *. exists (evs1 ++ evs)%list.
    split; [rewrite E1; by rewrite app_assoc|]. destruct (Hend _ _ _ _ _ _ P). split; [done|]. split; [done|].
    eapply fares_weaken; [by eapply ends_fares; [apply verdict_over|exact P]|]. intros x [H1 H2]. split; [done|]. intros Hx. rewrite unrecorded_app. apply elem_of_app. left. by apply H2.
Qed.
Definition hook_rest (d : Deployment) (hook : Hook) (run : Z) : JM (text + unit) :=
  let! started := Effects.perform world JNow in
  let! r := runJob world Error Own d run hookJobName (hook_Command hook) (hook_Timeout hook) in hook_ending d hook run started r.
Lemma hook_rest_does d hook run : does (hook_rest d hook run) (λ s _ s' evs, active s' = active s ∧ engine s' = engine s ∧
  fares (table s) (table s') (λ id, id ∈ running_ids (table s) ∧ (id = run → run ∈ omap unrecorded evs))).
Proof.
  intros s. unfold hook_rest. rewrite then_perform. set (ev0 := mk_happened JNow _). after (runJob_does Own d run hookJobName (hook_Command hook) (hook_Timeout hook)). destruct P as (P1 & P2 & P3). subst l.
  destruct (still_ending d hook run (world s.2 JNow) s0 (j, evs ++ ev0 :: s.2)%list) as (evs1 & E1 & -> & U1). cbn [fst snd] in *. exists (evs1 ++ evs ++ [ev0])%list.
  split; [rewrite E1; by rewrite <- !app_assoc|]. split_and!; [done..|]. eapply fares_weaken; [exact P3|]. intros x [H1 H2]. split; [done|]. intros Hx. rewrite !unrecorded_app. specialize (H2 Hx). set_solver.
Qed.
(** The hook leaves nothing running that the database took the end of. *)
Lemma runHook_does d hook : does (runHook world Error d hook) (λ s _ s' evs, active s' = active s ∧ engine s' = engine s ∧ fares (table s) (table s') (λ id, id ∈ running_ids (table s) ∨ id ∈ omap unrecorded evs)).
Proof.
  intros s. unfold runHook. rewrite then_perform. set (ev0 := mk_happened (JStep _ _) _). after (createRun_does world d hookJobName RunKindHook (hook_Command hook)). destruct P as [_ P]. subst l. destruct s0 as [e|run].
  { exists (evs ++ [ev0])%list. split; [by rewrite <- app_assoc|]. destruct P as [[-> U]|[U (now & ->)]]; (split; [done|]; split; [done|]).
    - eapply fares_weaken; [apply fares_refl|]. by left.
    - eapply fares_weaken; [apply create_fares|]. intros id [H| ->]; [by left|]. right. rewrite unrecorded_app, U. by left. }
  destruct P as (-> & U & now & ->). set (run := next_id (table s.1)). set (s1 := created_row _ _ _ _ _ _).
  destruct (hook_rest_does d hook run (s1, evs ++ ev0 :: s.2)%list) as (evs1 & E1 & H1 & H2 & H3). exists (evs1 ++ evs ++ [ev0])%list.
  split; [etrans; [exact E1|]; cbn; by rewrite <- !app_assoc|]. split; [exact H1|]. split; [exact H2|].
  eapply fares_weaken; [eapply fares_then; [apply create_fares|exact H3]|]. intros id [[H| ->] Hne]; [by left|]. right. rewrite unrecorded_app. apply elem_of_app. left. by apply Hne.
Qed.
End Hook.

(** ** The jobs of a server *)

(** A goroutine waits for its container, then reports, then gives back what it
    held; a part that runs with no other statement between is one step. *)
Inductive stage := Collecting (g : goroutine) | Reporting (g : goroutine) (r : run_error + Z) | Ending (g : goroutine).
Definition of_stage (st : stage) : goroutine := match st with Collecting g | Reporting g _ | Ending g => g end.
Definition collecting (st : stage) : option Z := match st with Collecting g => Some (g_run g) | _ => None end.
Definition claims (st : stage) : option string :=
  let g := of_stage st in if exclusive (g_job g) then Some (job_key (d_Application (g_d g)) (g_job g)) else None.
(** The goroutines there are, the runs whose end the database did not take,
    and the operations of other parts of the engine. *)
Record sys := mk_sys { sy_jobs : jobs; sy_live : list stage; sy_lost : list Z; sy_others : Z }.
Definition started : sys := mk_sys (mk_jobs (mk_jobruns [] 0) ∅ Locks.New) [] [] 0.
Definition of_application (app : Z) (t : Job_runs) : Job_runs := mk_jobruns (List.filter (λ r, negb (jr_ApplicationID r =? app)) (rows t)) (jr_seq t).
Inductive step : sys → sys → Prop :=
  | step_start world Error d job kind command timeout j r j' evs live lost others :
      startJob world Error d job kind command timeout (j, []) = (r, (j', evs)) →
      step (mk_sys j live lost others) (mk_sys j' (live ++ (Collecting <$> omap launched_by evs))%list (lost ++ omap unrecorded evs)%list others)
  | step_hook world Error d hook j r j' evs live lost others :
      runHook world Error d hook (j, []) = (r, (j', evs)) → step (mk_sys j live lost others) (mk_sys j' live (lost ++ omap unrecorded evs)%list others)
  | step_collect world g j r j' evs l1 l2 lost others :
      collectJob world Base (g_run g) (g_container g) (g_timeout g) (j, []) = (r, (j', evs)) →
      step (mk_sys j (l1 ++ Collecting g :: l2)%list lost others) (mk_sys j' (l1 ++ Reporting g r :: l2)%list (lost ++ omap unrecorded evs)%list others)
  | step_report world g r j j' evs l1 l2 lost others :
      reportRun world (g_d g) (g_run g) (g_job g) (g_command g) r (g_timeout g) (j, []) = (tt, (j', evs)) →
      step (mk_sys j (l1 ++ Reporting g r :: l2)%list lost others) (mk_sys j' (l1 ++ Ending g :: l2)%list lost others)
  | step_end g j l1 l2 lost others :
      step (mk_sys j (l1 ++ Ending g :: l2)%list lost others) (mk_sys ((let! _ := unclaim (g_d g) (g_job g) in opDone) (j, [])).2.1 (l1 ++ l2)%list lost others)
  | step_begin j live lost others : Locks.closed (engine j) = false → step (mk_sys j live lost others) (mk_sys (beginOp (j, [])).2.1 live lost (others + 1))
  | step_done j live lost others : 0 < others → step (mk_sys j live lost others) (mk_sys (opDone (j, [])).2.1 live lost (others - 1))
  | step_close j live lost others : step (mk_sys j live lost others) (mk_sys (set_engine (Locks.set_closed (engine j)) j) live lost others)
  | step_delete app j live lost others : step (mk_sys j live lost others) (mk_sys (set_table (of_application app) j) live lost others)
  | step_restart now j live lost others : step (mk_sys j live lost others) (mk_sys (mk_jobs (MarkJobRunsInterrupted (table j) now) ∅ Locks.New) [] [] 0).

Record accounted (s : sys) : Prop := {
  ac_numbered : numbered (table (sy_jobs s));
  (* A run that says running has a goroutine waiting for it, or the database would not take its end. *)
  ac_running id : id ∈ running_ids (table (sy_jobs s)) → id ∈ omap collecting (sy_live s) ∨ id ∈ sy_lost s;
  (* A job that is claimed has one goroutine, and the other way round. *)
  ac_once : NoDup (omap claims (sy_live s));
  ac_claims : active (sy_jobs s) = list_to_set (omap claims (sy_live s));
  ac_ops : Locks.ops (engine (sy_jobs s)) = sy_others s + Z.of_nat (List.length (sy_live s));
  ac_others : 0 ≤ sy_others s }.

Lemma claims_free d job s : accounted s → free d job (sy_jobs s) → ∀ key, claims (Collecting (mk_goroutine d 0 job [] "" 0)) = Some key → key ∉ omap claims (sy_live s).
Proof. intros H Hf key. unfold claims. cbn. destruct (exclusive job) eqn:E; [|done]. intros [= <-]. specialize (Hf E). rewrite (ac_claims s H) in Hf. set_solver. Qed.
Lemma of_application_fares app t : fares t (of_application app t) (λ id, id ∈ running_ids t).
Proof. apply filter_fares. Qed.
Lemma prune_fares t app job keep : fares t (PruneJobRuns t app job keep) (λ id, id ∈ running_ids t).
Proof. apply filter_fares. Qed.
Lemma accounted_started : accounted started.
Proof. split; cbn; try done; [split; [constructor|by intros id ?%elem_of_nil]|by intros id ?%elem_of_nil|constructor]. Qed.
(** A step that leaves the goroutines' claims and the engine as they are. *)
Lemma accounted_table s j live lost :
  accounted s → fares (table (sy_jobs s)) (table j) (λ id, id ∈ omap collecting live ∨ id ∈ lost) → active j = active (sy_jobs s) → engine j = engine (sy_jobs s) →
  of_stage <$> live = of_stage <$> sy_live s → accounted (mk_sys j live lost (sy_others s)) ∧ later (table (sy_jobs s)) (table j).
Proof.
  intros [A1 A2 A3 A4 A5 A6] Hf Ha He Hl. destruct (Hf A1) as (N & K & R). split; [|done].
  assert (omap claims live = omap claims (sy_live s)) as Hc.
  { clear -Hl. revert Hl. generalize (sy_live s). induction live as [|st l IH]; intros [|st' l']; [done|done|done|]. intros E. injection E as E1 E2. specialize (IH l' E2). assert (claims st = claims st') as Ec by (unfold claims; by rewrite E1). cbn [omap list_omap]. rewrite Ec. destruct (claims st'); [f_equal|]; exact IH. }
  split; cbn [sy_jobs sy_live sy_lost sy_others]; rewrite ?Hc, ?Ha, ?He; [done|exact R|done|done| |done]. rewrite A5. f_equal. f_equal. by rewrite <- (length_fmap of_stage live), Hl, length_fmap.
Qed.
Lemma claims_middle l1 st l2 : omap claims (l1 ++ st :: l2)%list = (omap claims l1 ++ (match claims st with Some k => [k] | None => [] end) ++ omap claims l2)%list.
Proof. rewrite omap_app. f_equal. cbn. by destruct (claims st). Qed.
Lemma collecting_middle l1 g st l2 id : id ∈ omap collecting (l1 ++ Collecting g :: l2)%list → id ≠ g_run g → id ∈ omap collecting (l1 ++ st :: l2)%list.
Proof.
  rewrite !omap_app. cbn. intros [H|[->|H]%elem_of_cons]%elem_of_app Hne; [set_solver|done|]. apply elem_of_app. right. destruct (collecting st); set_solver.
Qed.
Lemma reporting_middle l1 st st' l2 : collecting st = None → collecting st' = None → omap collecting (l1 ++ st :: l2)%list = omap collecting (l1 ++ st' :: l2)%list.
Proof. intros H1 H2. rewrite !omap_app. cbn. by rewrite H1, H2. Qed.
Lemma stage_middle l1 st st' l2 : of_stage st' = of_stage st → of_stage <$> (l1 ++ st' :: l2)%list = of_stage <$> (l1 ++ st :: l2)%list.
Proof. intros H. rewrite !fmap_app, !fmap_cons. by rewrite H. Qed.

(** A run that was started adds its goroutine. *)
Lemma accounted_start s d job kind command timeout now container : accounted s → free d job (sy_jobs s) →
  let g := mk_goroutine d (next_id (table (sy_jobs s))) job command container timeout in let j := created_row d job kind command now (begun d job (sy_jobs s)) in
  accounted (mk_sys j (sy_live s ++ [Collecting g])%list (sy_lost s) (sy_others s)) ∧ later (table (sy_jobs s)) (table j).
Proof.
  intros [A1 A2 A3 A4 A5 A6] Hf g j. destruct (create_fares (table (sy_jobs s)) d job kind command now A1) as (N & K & R). split; [|exact K].
  assert (omap claims (sy_live s ++ [Collecting g])%list = (omap claims (sy_live s) ++ if exclusive job then [job_key (d_Application d) job] else [])%list) as Hc.
  { rewrite omap_app. f_equal. cbn. unfold claims. cbn. by destruct (exclusive job). }
  split; cbn [sy_jobs sy_live sy_lost sy_others]; rewrite ?Hc; [exact N| | | | |done].
  - intros id Hid. rewrite omap_app. destruct (R id Hid) as [H| ->]; [destruct (A2 id H); set_solver|]. left. apply elem_of_app. right. cbn. by left.
  - destruct (exclusive job) eqn:E; [|by rewrite app_nil_r]. specialize (Hf E). rewrite A4 in Hf. apply NoDup_app. split_and!; [done| |apply NoDup_singleton]. intros k Hk Hk'. set_solver.
  - change (active j) with (if exclusive job then {[job_key (d_Application d) job]} ∪ active (sy_jobs s) else active (sy_jobs s)). rewrite A4. destruct (exclusive job); [|by rewrite app_nil_r]. rewrite list_to_set_app_L. cbn. set_solver.
  - change (Locks.ops (engine j)) with (Locks.ops (engine (sy_jobs s)) + 1). rewrite length_app. cbn. lia.
Qed.
(** A goroutine that ends gives back what it held. *)
Lemma accounted_end g j l1 l2 lost others : accounted (mk_sys j (l1 ++ Ending g :: l2)%list lost others) →
  accounted (mk_sys (counted_down (released (g_d g) (g_job g) j)) (l1 ++ l2)%list lost others).
Proof.
  intros [A1 A2 A3 A4 A5 A6]. cbn [sy_jobs sy_live sy_lost sy_others] in *. assert (table (counted_down (released (g_d g) (g_job g) j)) = table j) as Ht by (unfold released; by destruct (exclusive (g_job g))).
  assert (claims (Ending g) = if exclusive (g_job g) then Some (job_key (d_Application (g_d g)) (g_job g)) else None) as Hk by done. rewrite claims_middle, Hk in A3, A4. clear Hk.
  split; cbn [sy_jobs sy_live sy_lost sy_others]; rewrite ?Ht; [done| | | | |done].
  - intros id Hid. destruct (A2 id Hid) as [H|H]; [left|by right]. revert H. by rewrite !omap_app.
  - rewrite omap_app. destruct (exclusive (g_job g)) in *; cbn in A3; [|done]. by apply NoDup_app in A3 as (H1 & H2 & [H3 H4]%NoDup_cons); apply NoDup_app; split_and!; [done| |done]; intros k Hk Hk'; apply (H2 k Hk); right.
  - rewrite omap_app. unfold released. destruct (exclusive (g_job g)) eqn:E; cbn; rewrite A4, !list_to_set_app_L; cbn; [|set_solver]. cbn in A3. apply NoDup_app in A3 as (H1 & H2 & [H3 H4]%NoDup_cons).
    assert (job_key (d_Application (g_d g)) (g_job g) ∉ omap claims l1) as H5 by (intros H; apply (H2 _ H); by left). set_solver.
  - rewrite length_app in *. cbn [List.length] in A5. unfold counted_down, released. destruct (exclusive (g_job g)); cbn; lia.
Qed.
Lemma accounted_idle s j others : accounted s → table j = table (sy_jobs s) → active j = active (sy_jobs s) → Locks.ops (engine j) - others = Locks.ops (engine (sy_jobs s)) - sy_others s → 0 ≤ others →
  accounted (mk_sys j (sy_live s) (sy_lost s) others) ∧ later (table (sy_jobs s)) (table j).
Proof.
  intros [A1 A2 A3 A4 A5 A6] Ht Ha Ho H0. rewrite Ht. split; [|apply later_refl]. split; cbn [sy_jobs sy_live sy_lost sy_others]; rewrite ?Ht, ?Ha; try done. lia.
Qed.
Lemma claimed_once {A B} (f : A → option B) l : NoDup (omap f l) → ∀ i k x y b, l !! i = Some x → l !! k = Some y → f x = Some b → f y = Some b → i = k.
Proof.
  assert (∀ l i x b, l !! i = Some x → f x = Some b → b ∈ omap f l) as Hin by (intros l' i x b H1%list_elem_of_lookup_2 H2; apply list_elem_of_omap; by exists x).
  induction l as [|a l IH]; intros Hd i k x y b Hi Hk Ex Ey; [done|]. cbn in Hd. destruct i as [|i], k as [|k]; cbn in Hi, Hk; [done| | |].
  - injection Hi as <-. rewrite Ex in Hd. apply NoDup_cons in Hd as [Hn _]. destruct Hn. by eapply Hin.
  - injection Hk as <-. rewrite Ey in Hd. apply NoDup_cons in Hd as [Hn _]. destruct Hn. by eapply Hin.
  - f_equal. assert (NoDup (omap f l)) as Hd' by (destruct (f a); [by apply NoDup_cons in Hd as [_ ?]|done]). by eapply IH.
Qed.
Lemma step_accounted s s' : step s s' → accounted s → accounted s' ∧ later (table (sy_jobs s)) (table (sy_jobs s')).
Proof.
  intros Hs H. destruct Hs as [world Error d job kind command timeout j r j' evs live lost others E|world Error d hook j r j' evs live lost others E|world g j r j' evs l1 l2 lost others E|
    world g r j j' evs l1 l2 lost others E|g j l1 l2 lost others|j live lost others Hc|j live lost others Ho|j live lost others|app j live lost others|now j live lost others]; cbn [sy_jobs].
  - pose proof (ran _ _ _ _ _ _ (startJob_does world Error d job kind command timeout) E) as P. cbv beta in P. destruct r as [e|run].
    + destruct P as (L & Ha & He & Hn). rewrite L, app_nil_r. apply (accounted_table _ j' live (lost ++ omap unrecorded evs)%list H); cbn; [|done..].
      intros N. destruct (not_started_fares _ _ _ _ _ _ _ Hn N) as (N' & K & R). split_and!; [done..|]. intros id Hid. destruct (R id Hid) as [H1|H1]; [|set_solver]. destruct (ac_running _ H id H1); set_solver.
    + destruct P as (-> & Hf & U & now & container & L & ->). rewrite L, U, app_nil_r. by apply (accounted_start _ d job kind command timeout now container H).
  - destruct (ran _ _ _ _ _ _ (runHook_does world Error d hook) E) as (Ha & He & Hf). apply (accounted_table _ j' live (lost ++ omap unrecorded evs)%list H); cbn; [|done..].
    eapply fares_weaken; [exact Hf|]. intros id [H1|H1]; [|set_solver]. destruct (ac_running _ H id H1); set_solver.
  - destruct (collectJob_does world Base (g_run g) (g_container g) (g_timeout g) (j, [])) as (evs' & E1 & ended & output & _ & _ & P & _). rewrite E in *. cbn [fst snd] in *. rewrite app_nil_r in E1. subst evs'.
    destruct (accounted_table _ j' (l1 ++ Reporting g r :: l2)%list (lost ++ omap unrecorded evs)%list H) as [H1 H2]; [..|by apply stage_middle|].
    + eapply fares_weaken; [eapply ends_fares; [apply verdict_over|exact P]|]. intros id [H1 H2]. destruct (decide (id = g_run g)) as [->|Hne]; [right; specialize (H2 eq_refl); set_solver|].
      destruct (ac_running _ H id H1) as [H3|H3]; cbn in H3; [left; by eapply collecting_middle|right; set_solver].
    + by destruct P as [[_ (? & ->)]|[_ ->]].
    + by destruct P as [[_ (? & ->)]|[_ ->]].
    + by split.
  - destruct (ran _ _ _ _ _ _ (reportRun_does world (g_d g) (g_run g) (g_job g) (g_command g) r (g_timeout g)) E) as (stopping & _ & Hp & _).
    apply (accounted_table _ j' (l1 ++ Ending g :: l2)%list lost H); [|by destruct Hp as [-> | ->]..|by apply stage_middle].
    eapply fares_weaken with (P := λ id, id ∈ running_ids (table j)); [destruct Hp as [-> | ->]; [apply fares_refl|apply prune_fares]|].
    intros id Hid. destruct (ac_running _ H id Hid) as [H1|H1]; [left|by right]. cbn [sy_live] in H1. by rewrite (reporting_middle _ _ (Ending g)) in H1.
  - rewrite then_eq, unclaim_eq. cbn [fst snd]. rewrite opDone_eq. split; [by apply accounted_end|]. cbn. unfold released. destruct (exclusive _); apply later_refl.
  - rewrite beginOp_eq. cbn [fst snd]. rewrite Hc. apply (accounted_idle _ _ _ H); cbn; [done|done|lia|]. pose proof (ac_others _ H). cbn in *. lia.
  - rewrite opDone_eq. apply (accounted_idle _ _ _ H); cbn; [done|done|lia|lia].
  - apply (accounted_idle _ _ _ H); cbn; [done|done|lia|]. apply (ac_others _ H).
  - apply (accounted_table _ _ live lost H); cbn; [|done..]. eapply fares_weaken; [apply of_application_fares|]. exact (ac_running _ H).
  - destruct (mark_fares (table j) now (ac_numbered _ H)) as (N & K & R). split; [|exact K]. split; cbn; [done|by intros id []%R|constructor|done|done|done].
Qed.


(** A nightly job of a shop, started and under way. *)
Definition nightly : Deployment := mk_deployment 7 1 "shop" 2 "1.4" "shop:1.4" secret_app StatusActive "" 0 None "deploy" None "admin" "" 0 0 no_references.
Definition well (c : jcall) : janswer c :=
  match c with
  | JNow => 0
  | JCtxErr _ => None
  | JGetApplication _ | JGetDeployment _ => inl ErrNotFound
  | JCreateRun _ _ _ => Recorded
  | JCreateContainer _ => inr ("c1", "shop-job")
  | JWait _ _ _ => Exited 0
  | JLogs _ _ _ => inr ["done"]
  | JLock _ | JFinishRun _ _ | JGetRun _ | JPruneRuns _ _ _ | JStart _ | JStop _ _ | JRemove _ _ | JAppEvent _ _ _ | JPruneEvents _ => None
  | JUnlock _ | JDropRunLogs _ | JArchive _ | JCollect _ _ _ _ _ _ | JStep _ _ | JEvent _ _ _ _ | JNotify _ _ _ | JLog _ => tt
  end.
Definition start_nightly := startJob (λ _, well) (λ _, "") nightly "nightly" RunKindScheduled ["sweep"] 60.
Definition under_way : sys := let r := start_nightly (sy_jobs started, []) in mk_sys r.2.1 (Collecting <$> omap launched_by r.2.2) (omap unrecorded r.2.2) 0.
Definition collect_nightly := collectJob (λ _, well) Base 1 "c1" 60.
Definition waited_for : sys := let r := collect_nightly (sy_jobs under_way, []) in mk_sys r.2.1 [Reporting (mk_goroutine nightly 1 "nightly" ["sweep"] "c1" 60) r.1] (omap unrecorded r.2.2) 0.

(** A Docker that answers within the time of the context it is asked under, and a
    run of three minutes that succeeds. *)
Definition waited_yet (h : list event) : bool := existsb (λ e : event, match what e with JWait _ _ _ => true | _ => false end) h.
Definition three_minutes (h : list event) : Time := if waited_yet h then 3 * minute else 0.
Definition patient (h : list event) (c : jcall) : janswer c :=
  match c with
  | JNow => three_minutes h
  | JLogs until _ _ => if until <=? three_minutes h then inl [L "context deadline exceeded"] else inr ["done"]
  | JStop until _ => if until <=? three_minutes h then Some [L "context deadline exceeded"] else None
  | JRemove (Some until) _ => if until <=? three_minutes h then Some [L "context deadline exceeded"] else None
  | c => well c
  end.
(** Its container stays and its output is lost, with a time limit of an hour: the
    context of the cleanup had ended before there was anything to clean up. *)
Lemma long_run_left_behind : let r := collectJob patient Base 1 "c1" (60 * minute) (sy_jobs under_way, []) in
  r.1 = inr 0 ∧ ((λ x, (jr_Status x, jr_Output x)) <$> rows (table r.2.1)) = [(RunSucceeded, "")] ∧
  omap (λ e : event, match e with mk_happened (JRemove _ _) x => Some x | _ => None end) r.2.2 = [Some [L "context deadline exceeded"]].
Proof. vm_compute. split_and!; reflexivity. Qed.
