(* ===== verification/Alerts.v ===== *)
(** * Alerts (agent/internal/deploy/alerts.go, outage.go, notify.go)

    An alert is a condition that holds: it is raised once when it becomes true
    and cleared once when it stops, with a distance between the two levels.
    The state is the alert book, the applications reported as down, and the
    outage of Docker; what the supervisor knows of containers (Supervisor.v) is
    an argument, since one tick reads it twice.  The log, the events, the
    notifier, the clock, the disk, the samples and Docker are calls. *)

From stdpp Require Import sorting.
From S2P Require Import Prelude GoStrings GoFloat GoTime Effects SpecTypes DeployState Store Rollout Routing Supervisor.
From Stdlib Require Import String.
Local Open Scope string_scope.
Local Open Scope Z_scope.

Definition AlertMemory := "memory".
Definition AlertDisk := "disk".
Definition AlertRestarts := "restarts".
Definition AlertUnhealthy := "unhealthy".
Definition AlertDocker := "docker".
Definition SeverityWarning := "warning".
Definition SeverityCritical := "critical".
Definition AlertRaised := "alert.raised".
Definition AlertCleared := "alert.cleared".
Definition ApplicationDown := "application.down".
Definition ApplicationRecovered := "application.recovered".

Definition memorySamples : Z := 3.
Definition memoryClearMargin : Z := 10.
Definition diskClearMargin : Z := 5.
Definition diskCriticalPercent : Z := 95.
Definition restartAlertCount : nat := 3.
Definition restartAlertWindow : Duration := 10 * minute.
Definition unhealthyWarning : Duration := 5 * minute.
Definition unhealthyCritical : Duration := hour.
Definition defaultAlertMemoryPercent : Z := 90.
Definition defaultAlertDiskPercent : Z := 85.
Definition dockerAlertAfter : Duration := 30 * second.

(** ** The conditions *)

(** 100 * float64(part) / float64(whole), of what is not negative. *)
Definition percentOf (part whole : Z) : float :=
  if whole <=? 0 then float_zero else
  default float_zero (float_div (default float_zero (float_mul (float_of_Z 100) (float_of_Z part))) (float_of_Z whole)).
(** f >= float64(n) *)
Definition at_least (f : float) (n : Z) : bool := (n <? 0) || negb (float_ltb f (float_of_Z n)).

Record MetricSample := mk_sample { ms_Replica : Z; ms_At : Time; ms_MemoryBytes : Z }.
Fixpoint since_oldest (oldest : Time) (samples : list MetricSample) : list MetricSample :=
  match samples with
  | [] => []
  | m :: rest => if ms_At m <? oldest then since_oldest oldest rest else samples
  end.
Definition memoryAlerting (was : bool) (samples : list MetricSample) (now : Time) (interval : Duration) (limit percent : Z) : bool :=
  let samples := since_oldest (now - interval * memorySamples + Z.quot interval 2) samples in
  match last samples with
  | None => was
  | Some latest =>
      if limit <=? 0 then was else
      if was then at_least (percentOf (ms_MemoryBytes latest) limit) (percent - memoryClearMargin) else
      if Z.of_nat (List.length samples) <? memorySamples then false else
      forallb (λ m, at_least (percentOf (ms_MemoryBytes m) limit) percent) (drop (List.length samples - Z.to_nat memorySamples) samples)
  end.

Record DiskUsage := mk_disk { UsedBytes : Z; TotalBytes : Z }.
Definition diskSeverity (was : string) (u : DiskUsage) (percent : Z) : string :=
  let used := percentOf (UsedBytes u) (TotalBytes u) in
  if at_least used diskCriticalPercent then SeverityCritical else
  if String.eqb was SeverityCritical && at_least used (diskCriticalPercent - diskClearMargin) then SeverityCritical else
  if at_least used percent then SeverityWarning else
  if negb (String.eqb was "") && at_least used (percent - diskClearMargin) then SeverityWarning else "".

Fixpoint within (times : list Time) (now : Time) (window : Duration) : list Time :=
  match times with
  | [] => []
  | t :: rest => if window <? Sub now t then within rest now window else times
  end.
Definition restartAlerting (was : bool) (restarts : list Time) (now : Time) (held : bool) : bool :=
  if held then was else (restartAlertCount <=? List.length (within restarts now restartAlertWindow))%nat.
Definition unhealthySeverity (since now : Time) : string :=
  let d := Sub now since in
  if unhealthyCritical <=? d then SeverityCritical else if unhealthyWarning <=? d then SeverityWarning else "".

(** math.Round(f*10)/10 with as many digits as it needs. *)
Definition trimFloat (f : float) : string :=
  let g := default float_zero (float_mul f (float_of_Z 10)) in
  let n := (2 * float_num g + float_den g) / (2 * float_den g) in
  if n mod 10 =? 0 then itoa (n / 10) else itoa (n / 10) ++ "." ++ itoa (n mod 10).
Definition in_units (bytes unit : Z) : string := trimFloat (default float_zero (float_div (float_of_Z bytes) (float_of_Z unit))).
Definition FormatMemory (bytes : Z) : string :=
  if 2 ^ 30 <=? bytes then in_units bytes (2 ^ 30) ++ " GB" else
  if 2 ^ 20 <=? bytes then in_units bytes (2 ^ 20) ++ " MB" else
  if 2 ^ 10 <=? bytes then in_units bytes (2 ^ 10) ++ " KB" else itoa bytes ++ " B".
Definition plural (n : Z) (noun : string) : string := if n =? 1 then "1 " ++ noun else itoa n ++ " " ++ noun ++ "s".

(** ** What is kept, and what is asked and told *)

Record Alert := mk_alert { al_Kind : string; al_Severity : string; al_Application : string; al_Replica : Z; al_Message : text; al_Since : Time }.
Record alertKey := mk_key { kind : string; application : string; replica : Z }.
#[export] Instance alertKey_eq_dec : EqDecision alertKey.
Proof. solve_decision. Defined.
#[export] Instance alertKey_countable : Countable alertKey.
Proof. refine (inj_countable' (λ k, (kind k, application k, replica k)) (λ '(a, b, c), mk_key a b c) _). by intros []. Defined.
(** ReplicaCount, and whether one is crash-looping. *)
Record observation := mk_observation { ob_Desired : Z; ob_Running : Z; ob_Healthy : Z; ob_crashLoop : bool }.
(** The alert book; supervisor.down; the outage of Docker: the tick that first
    went unanswered and the wall clock then, None while it answers. *)
Record watch := mk_watch {
  active : gmap alertKey Alert; bk_restarts : gmap string (list Time); unhealthy : gmap string Time; observed : gmap string observation;
  down : gset string; outage : option (Time * Time) }.
Definition set_active f w := mk_watch (f (active w)) (bk_restarts w) (unhealthy w) (observed w) (down w) (outage w).
Definition set_restarts f w := mk_watch (active w) (f (bk_restarts w)) (unhealthy w) (observed w) (down w) (outage w).
Definition set_unhealthy f w := mk_watch (active w) (bk_restarts w) (f (unhealthy w)) (observed w) (down w) (outage w).
Definition set_observed f w := mk_watch (active w) (bk_restarts w) (unhealthy w) (f (observed w)) (down w) (outage w).
Definition set_down f w := mk_watch (active w) (bk_restarts w) (unhealthy w) (observed w) (f (down w)) (outage w).
Definition set_outage o w := mk_watch (active w) (bk_restarts w) (unhealthy w) (observed w) (down w) o.

(** notify.Event; [ev_At] None: the notifier is told at once. *)
Record Event := mk_event {
  ev_Kind : string; ev_Application : string; ev_DeploymentID : Z; ev_Version : string; ev_Message : text; ev_At : Time; ev_Alert : option (alertKey * string) }.
Inductive acall :=
  | ANow | ACtxErr | AListContainers | ADiskUsage | AMemoryUnenforced | AActiveDeployments | ARecentSamples (app : Z) (since : Time)
  | ALog (level : string) (msg : text) | AAddEvent (app : Z) (level : string) (msg : text) (now : Time) | APruneEvents (app : Z) | ANotify (e : Event)
  | APanic.
Definition aanswer (c : acall) : Type :=
  match c with
  | ANow => Time
  | ACtxErr | AMemoryUnenforced => bool
  | AListContainers => or_error (list Container)
  | ADiskUsage => option DiskUsage
  | AActiveDeployments => or_error Active
  | ARecentSamples _ _ => or_error (list MetricSample)
  | AAddEvent _ _ _ _ | APruneEvents _ => error
  | _ => unit
  end.
Abbreviation AM := (Effects.M watch aanswer).

(** What the engine is told by its configuration. *)
Record alert_options := mk_alert_options { SampleInterval : Duration; AlertMemoryPercent : Z; AlertDiskPercent : Z; has_notifier : bool }.

Section Alerts.
Variable o : alert_options.
Variable world : list (Effects.happened aanswer) → ∀ c, aanswer c.
Local Abbreviation perform := (Effects.perform world).

Definition notify (e : Event) : AM unit := if has_notifier o then perform (ANotify e) else mret tt.
Definition alertEvent (app : option Application) (level : string) (message : text) (now : Time) : AM unit :=
  let! _ := perform (ALog level message) in
  match app with
  | None => mret tt
  | Some app =>
      let! err := perform (AAddEvent (app_ID app) level message now) in
      match err with
      | Some e => perform (ALog LevelWarn (L "could not record event" :: e))
      | None =>
          let! err := perform (APruneEvents (app_ID app)) in
          match err with Some e => perform (ALog LevelWarn (L "could not prune events" :: e)) | None => mret tt end
      end
  end.
Definition tellAlert (app : option Application) (k : string) (key : alertKey) (severity level : string) (message : text) (now : Time) : AM unit :=
  let! _ := alertEvent app level message now in
  notify (mk_event k (application key) 0 "" message now (Some (key, severity))).
Definition raiseAlert (app : option Application) (key : alertKey) (severity : string) (message : text) (now : Time) : AM unit :=
  let! book := mget active in
  let was := book !! key in
  if bool_decide (al_Severity <$> was = Some severity) then mret tt else
  let since := match was with Some a => al_Since a | None => now end in
  let! _ := mset (set_active (insert key (mk_alert (kind key) severity (application key) (replica key) message since))) in
  if bool_decide (was = None) || String.eqb severity SeverityCritical
  then tellAlert app AlertRaised key severity (if String.eqb severity SeverityCritical then LevelError else LevelWarn) message now
  else mret tt.
Definition clearAlert (app : option Application) (key : alertKey) (message : text) (now : Time) (quiet : bool) : AM unit :=
  let! book := mget active in
  let! _ := mset (set_active (delete key)) in
  match book !! key with
  | None => mret tt
  | Some was => if quiet then alertEvent app LevelInfo message now else tellAlert app AlertCleared key (al_Severity was) LevelInfo message now
  end.
Definition dropAlerts (gone : alertKey → bool) : AM unit := mset (set_active (filter (λ ka, gone ka.1 = false))).

(** ** From samples *)

(** Disk: the disk that holds the agent's data, where it can be measured. *)
Definition Disk : AM (option DiskUsage) :=
  let! u := perform ADiskUsage in
  mret (match u with Some u => if TotalBytes u <=? 0 then None else Some u | None => None end).
Definition disk_key : alertKey := mk_key AlertDisk "" 0.
Definition disk_look : string := "See what takes the space with: docker system df".
Definition checkDisk (now : Time) : AM unit :=
  let! u := Disk in
  match u with
  | None => mret tt
  | Some u =>
      let! book := mget active in
      let was := match book !! disk_key with Some a => al_Severity a | None => "" end in
      let used := float_trunc (percentOf (UsedBytes u) (TotalBytes u)) in
      let left := FormatMemory (TotalBytes u - UsedBytes u) ++ " of " ++ FormatMemory (TotalBytes u) ++ " free" in
      let severity := diskSeverity was u (AlertDiskPercent o) in
      if String.eqb severity SeverityCritical then
        raiseAlert None disk_key SeverityCritical [L "The server's disk is "; D used; L "% full ("; S' left; L "). Deployments, databases and logs fail when it runs out. "; L disk_look] now
      else if String.eqb severity SeverityWarning then
        raiseAlert None disk_key SeverityWarning [L "The server's disk is "; D used; L "% full ("; S' left; L "). "; L disk_look] now
      else clearAlert None disk_key [L "The server's disk is back to "; D used; L "% full ("; S' left; L ")"] now false
  end.

Definition memory_key (app : Application) (i : Z) : alertKey := mk_key AlertMemory (app_Name app) i.
Definition check_replica (now : Time) (app : Application) (limit : Z) (samples : list MetricSample) (i : Z) : AM unit :=
  let key := memory_key app i in
  let! book := mget active in
  let was := bool_decide (is_Some (book !! key)) in
  let mine := List.filter (λ m, ms_Replica m =? i) samples in
  let stands := memoryAlerting was mine now (SampleInterval o) limit (AlertMemoryPercent o) in
  if Bool.eqb stands was then mret tt else
  match last mine with
  | None => perform APanic
  | Some m =>
      let latest := ms_MemoryBytes m in
      let usage := [D (float_trunc (percentOf latest limit)); L "% of its memory limit ("; S' (FormatMemory latest); L " of "; S' (FormatMemory limit); L ")"] in
      if stands then
        raiseAlert (Some app) key SeverityWarning
          (S' (app_Name app) :: L " replica " :: D i :: L " is at " :: usage ++ [L ". At the limit it is killed and restarted; raise resources.memory in deploy.yaml, or watch it with: shipwick status "; S' (app_Name app)])%list now
      else clearAlert (Some app) key (S' (app_Name app) :: L " replica " :: D i :: L " is back at " :: usage) now false
  end.
(** The applications one after another; None: the samples of one could not be read. *)
Fixpoint check_apps (now : Time) (deployments : gmap Z Deployment) (l : list Application) (limited : gset alertKey) : AM (option (gset alertKey)) :=
  match l with
  | [] => mret (Some limited)
  | app :: rest =>
      match deployments !! app_ID app with
      | None => check_apps now deployments rest limited
      | Some dep =>
          if negb (String.eqb (app_DesiredState app) DesiredRunning) then check_apps now deployments rest limited else
          let limit := res_MemoryBytes (a_Resources (d_Spec dep)) in
          if (limit <=? 0) || negb (String.eqb (d_StaticDigest dep) "") then check_apps now deployments rest limited else
          let! a := perform (ARecentSamples (app_ID app) (now - SampleInterval o * memorySamples)) in
          match a with
          | inl e => let! _ := perform (ALog LevelWarn (L "alerts: read samples" :: e)) in mret None
          | inr samples =>
              let l := indexes (a_Replicas (d_Spec dep)) in
              let! _ := mloop (check_replica now app limit samples) l in
              check_apps now deployments rest (list_to_set (memory_key app <$> l) ∪ limited)
          end
      end
  end.
Definition is_memory (key : alertKey) : bool := String.eqb (kind key) AlertMemory.
Definition checkMemory (now : Time) : AM unit :=
  let! unenforced := perform AMemoryUnenforced in
  if (unenforced : bool) then dropAlerts is_memory else
  let! a := perform AActiveDeployments in
  match a with
  | inl e => perform (ALog LevelWarn (L "alerts: list applications" :: e))
  | inr st =>
      let! limited := check_apps now (ac_Deployments st) (ac_Applications st) ∅ in
      match limited with
      | None => mret tt
      | Some limited => dropAlerts (λ key, is_memory key && bool_decide (key ∉ limited))
      end
  end.
Definition checkAlerts (now : Time) : AM unit := let! _ := checkDisk now in checkMemory now.

(** ** From the supervisor *)

Definition noteRestart (container : string) (now : Time) : AM unit :=
  mset (set_restarts (λ m, <[container := (within (default [] (m !! container)) now restartAlertWindow ++ [now])%list]> m)).

(** What is counted over the replicas whose containers exist. *)
Record tally := mk_tally { t_running : Z; t_ready : Z; t_comingUp : Z; t_settled : bool; t_looping : bool }.
Definition count_replica (states : gmap string replicaState) (containers : gmap string Container) (t : tally) (r : Replica) : tally :=
  match containers !! r_ContainerID r with
  | None => t
  | Some c =>
      let st := states !! r_ContainerID r in
      let health := match st with Some st => health st | None => HealthNone end in
      let one (b : bool) : Z := if b then 1 else 0 in
      mk_tally (t_running t + one (c_Running c)) (t_ready t + one (isReady (c_Running c) health))
        (t_comingUp t + one (match st with Some st => c_Running c && String.eqb (Supervisor.health st) HealthStarting && (Supervisor.restarts st =? 0) | None => false end))
        (t_settled t && match st with Some st => Supervisor.restarts st =? 0 | None => true end)
        (t_looping t || match st with Some st => crashLoop st | None => false end)
  end.
Definition count_replicas (states : gmap string replicaState) (containers : gmap string Container) (replicas : list Replica) : tally :=
  foldl (count_replica states containers) (mk_tally 0 0 0 true false) replicas.
Definition looping (states : gmap string replicaState) (containers : gmap string Container) (r : Replica) : bool :=
  match containers !! r_ContainerID r, states !! r_ContainerID r with Some _, Some st => crashLoop st | _, _ => false end.

Definition restarts_key (app : string) (i : Z) : alertKey := mk_key AlertRestarts app i.
Definition unhealthy_key (app : string) : alertKey := mk_key AlertUnhealthy app 0.
Definition check_restarts (now : Time) (app : Application) (dep : Deployment) (restarted : gmap Z (list Time)) (held : Replica → bool) (r : Replica) : AM unit :=
  if a_Replicas (d_Spec dep) <? r_Index r then mret tt else
  let key := restarts_key (app_Name app) (r_Index r) in
  let! book := mget active in
  let was := bool_decide (is_Some (book !! key)) in
  let times := default [] (restarted !! r_Index r) in
  let stands := restartAlerting was times now (held r) in
  if stands && negb was then
    raiseAlert (Some app) key SeverityWarning
      [S' (app_Name app); L " replica "; D (r_Index r); L " was restarted "; D (Z.of_nat (List.length times)); L " times in the last "; D (restartAlertWindow / minute);
       L " minutes. See why it keeps stopping with: shipwick logs "; S' (app_Name app)] now
  else if was && negb stands then
    clearAlert (Some app) key
      [S' (app_Name app); L " replica "; D (r_Index r); L " has stayed up: fewer than "; D (Z.of_nat restartAlertCount); L " restarts in the last "; D (restartAlertWindow / minute); L " minutes"] now false
  else mret tt.
(** Since when, once this look is taken into account. *)
Definition count_unhealthy (healthy : bool) (ready desired : Z) (app : string) (now : Time) (m : gmap string Time) : gmap string Time :=
  if healthy then delete app m else
  match m !! app with Some _ => m | None => if ready <? desired then <[app := now]> m else m end.
Definition check_unhealthy (now : Time) (app : Application) (since : option Time) (ready desired : Z) (reportedDown : bool) : AM unit :=
  let key := unhealthy_key (app_Name app) in
  let state := [D ready; L "/"; D desired; L " replicas ready"] in
  let remedy := [L ". See why with: shipwick status "; S' (app_Name app)] in
  match since with
  | None => clearAlert (Some app) key (S' (app_Name app) :: L " is healthy again: " :: state) now reportedDown
  | Some t =>
      if String.eqb (unhealthySeverity t now) SeverityCritical then
        raiseAlert (Some app) key SeverityCritical (S' (app_Name app) :: L " has not been healthy for an hour: " :: state ++ remedy)%list now
      else if String.eqb (unhealthySeverity t now) SeverityWarning then
        raiseAlert (Some app) key SeverityWarning (S' (app_Name app) :: L " has not been healthy for 5 minutes: " :: state ++ remedy)%list now
      else mret tt
  end.
Definition noteAlerts (now : Time) (app : Application) (dep : Deployment) (replicas : list Replica) (states : gmap string replicaState) (containers : gmap string Container) : AM unit :=
  let t := count_replicas states containers replicas in
  let desired := a_Replicas (d_Spec dep) in
  let! reported := mget down in
  let reportedDown := bool_decide (app_Name app ∈ reported) in
  let healthy := (desired <=? t_ready t) && t_settled t in
  let! _ := mset (set_observed (insert (app_Name app) (mk_observation desired (t_running t) (t_ready t) (t_looping t)))) in
  let! times := mget bk_restarts in
  let restarted := foldl (λ m r, <[r_Index r := within (default [] (times !! r_ContainerID r)) now restartAlertWindow]> m) ∅ replicas in
  let! _ := mset (set_unhealthy (count_unhealthy healthy (t_ready t) desired (app_Name app) now)) in
  let! since := mget (λ w, unhealthy w !! app_Name app) in
  let! _ := mloop (check_restarts now app dep restarted (λ r, reportedDown || (t_ready t =? 0) || looping states containers r)) replicas in
  let! _ := dropAlerts (λ key, String.eqb (application key) (app_Name app) && (desired <? replica key)) in
  check_unhealthy now app since (t_ready t) desired reportedDown.

Definition noteAvailability (app : Application) (dep : Deployment) (replicas : list Replica) (states : gmap string replicaState) (containers : gmap string Container) : AM unit :=
  if negb (has_notifier o) then mret tt else
  let t := count_replicas states containers replicas in
  let desired := a_Replicas (d_Spec dep) in
  let! reported := mget down in
  let wasDown := bool_decide (app_Name app ∈ reported) in
  let isDown := (t_ready t =? 0) && (t_comingUp t =? 0) in
  let recovered := wasDown && (desired <=? t_ready t) && t_settled t in
  let tell k message := let! now := perform ANow in notify (mk_event k (app_Name app) (d_ID dep) (d_Version dep) message now None) in
  if isDown && negb wasDown then
    let! _ := mset (set_down (union {[app_Name app]})) in
    let why := if 0 <? t_running t then
                 if t_running t =? 1 then "1 replica running but failing its health check" else plural (t_running t) "replica" ++ " running but failing the health check"
               else "none of its " ++ plural desired "replica" ++ " is running" in
    tell ApplicationDown [S' (app_Name app); L " is down: "; S' why; L ". Shipwick restarts it as restart.policy allows; see why with: shipwick logs "; S' (app_Name app)]
  else if recovered then
    let! _ := mset (set_down (λ l, l ∖ {[app_Name app]})) in
    tell ApplicationRecovered [S' (app_Name app); L " is healthy again: "; D (t_ready t); L "/"; D desired; L " replicas running "; S' (d_Version dep)]
  else mret tt.

(** Applications that are no longer supervised, or are gone. *)
Definition supervised (apps : list Application) (name : string) : bool :=
  existsb (λ app, String.eqb (app_Name app) name && bool_decide (is_Some (app_ActiveDeploymentID app)) && String.eqb (app_DesiredState app) DesiredRunning) apps.
Definition forgetDown (apps : list Application) : AM unit := mset (set_down (filter (λ name, name ∈ app_Name <$> apps))).
Definition forgetAlerts (apps : list Application) (now : Time) : AM unit :=
  let! _ := dropAlerts (λ key, negb (String.eqb (application key) "") && negb (supervised apps (application key))) in
  let! _ := mset (set_unhealthy (filter (λ na, supervised apps na.1 = true))) in
  let! _ := mset (set_observed (filter (λ no, supervised apps no.1 = true))) in
  mset (set_restarts (filter (λ it, within it.2 now restartAlertWindow ≠ []))).

(** ** Docker (outage.go) *)

(** d.Round(time.Second), of what is not negative. *)
Definition round_second (d : Duration) : Duration :=
  let r := d mod second in if r + r <? second then d - r else d + (second - r).
Definition docker_key : alertKey := mk_key AlertDocker "" 0.
Definition lasted (since asked now wall : Time) : Duration := round_second (Z.max (Sub now since) (Sub wall asked)).
Definition dockerAnswers (now : Time) : AM (option (list Container)) :=
  let! asked := perform ANow in
  let! a := perform AListContainers in
  let! ended := perform ACtxErr in
  if (ended : bool) then mret None else
  let! was := mget outage in
  let since := match was with Some o => o | None => (now, asked) end in
  let! wall := perform ANow in
  let d := lasted since.1 since.2 now wall in
  match a with
  | inr containers =>
      let! _ := mset (set_outage None) in
      let! _ := match was with
                | Some _ =>
                    let! _ := perform (ALog LevelInfo [L "Docker answers again; applications are supervised again"]) in
                    clearAlert None docker_key [L "Docker answers again after "; D d; L "; applications are supervised again"] now false
                | None => mret tt
                end in
      mret (Some containers)
  | inl e =>
      let! _ := mset (set_outage (Some since)) in
      let! _ := match was with None => perform (ALog LevelError (L "Docker does not answer; applications are not supervised until it does" :: e)) | Some _ => mret tt end in
      let! _ := (if dockerAlertAfter <=? d then
                   raiseAlert None docker_key SeverityCritical
                     [L "Docker does not answer. Applications that are running keep running, but nothing is restarted, deployed or routed until it does. On the server: systemctl status docker"] now
                 else mret tt) in
      mret None
  end.
End Alerts.

(** ** What is asked of the book *)

(** Oldest first, then by what they are about. *)
Definition alert_le (a b : Alert) : bool :=
  if negb (al_Since a =? al_Since b) then al_Since a <? al_Since b else
  if negb (String.eqb (al_Kind a) (al_Kind b)) then String.ltb (al_Kind a) (al_Kind b) else
  if negb (String.eqb (al_Application a) (al_Application b)) then String.ltb (al_Application a) (al_Application b) else al_Replica a <=? al_Replica b.
Definition alert_order (a b : Alert) : Prop := alert_le a b = true.
#[export] Instance alert_order_dec a b : Decision (alert_order a b) := decide (alert_le a b = true).
Definition Alerts (w : watch) : list Alert := merge_sort alert_order (map_to_list (active w)).*2.
(** attention.go: how many there are about an application, and the worst. *)
Definition alertSummary (w : watch) (app : string) : nat * string :=
  let about := List.filter (λ a, String.eqb (al_Application a) app) (map_to_list (active w)).*2 in
  (List.length about, foldl (λ severity a, if String.eqb (al_Severity a) SeverityCritical || String.eqb severity "" then al_Severity a else severity) "" about).
