(* ===== verification/AlertsInv.v ===== *)
(** * What the alerts come to

    The notifications are an account of what holds: every run of the handlers
    is a run of an abstract book that tells of each condition once when it
    begins, once when it ends, and of nothing else.  And a condition read from
    a level stands from the reading that reached it to the one that falls
    below a lower one. *)

From S2P Require Import Prelude GoStrings GoFloat GoTime Effects SpecTypes DeployState Store Rollout Routing Supervisor Alerts.
From Stdlib Require Import String.
Local Open Scope string_scope.
Local Open Scope Z_scope.

Local Abbreviation event := (Effects.happened aanswer).
Local Abbreviation AM := (Effects.M watch aanswer).

(** ** The abstract book *)

Inductive notice := Raised (key : alertKey) (severity : string) | Cleared (key : alertKey) | Down (app : string) | Recovered (app : string).
Record book := mk_book { sp_active : gmap alertKey string; sp_down : gset string }.
Definition no_book : book := mk_book ∅ ∅.
Section Accounts.
(** Whether no probe comes in between the two readings of an application's health
    that a look at it takes. *)
Context (steady : bool).
(** What a reader is told when.  An alert is raised when it begins or becomes
    critical; an application that was down and recovers takes the alert that it
    is unhealthy with it; what is forgotten is about an application, and
    whoever made it so knows.  Where probes come in between, a recovery can leave
    that alert standing, and the alert can end unsaid while its application is
    down. *)
Inductive tells : book → list notice → book → Prop :=
  | tells_raise a d key s : a !! key = None ∨ s = SeverityCritical → a !! key ≠ Some s → s = SeverityWarning ∨ s = SeverityCritical →
      tells (mk_book a d) [Raised key s] (mk_book (<[key := s]> a) d)
  | tells_lower a d key s : a !! key = Some s → s ≠ SeverityWarning → tells (mk_book a d) [] (mk_book (<[key := SeverityWarning]> a) d)
  | tells_clear a d key s : a !! key = Some s → (∀ app, key = unhealthy_key app → app ∉ d) → tells (mk_book a d) [Cleared key] (mk_book (delete key a) d)
  | tells_down a d app : app ∉ d → tells (mk_book a d) [Down app] (mk_book a ({[app]} ∪ d))
  | tells_recovered a d app : app ∈ d → tells (mk_book a d) [Recovered app] (mk_book (delete (unhealthy_key app) a) (d ∖ {[app]}))
  | tells_recovered_apart a d app : steady = false → app ∈ d → tells (mk_book a d) [Recovered app] (mk_book a (d ∖ {[app]}))
  | ends_unsaid a d app : steady = false → app ∈ d → tells (mk_book a d) [] (mk_book (delete (unhealthy_key app) a) d)
  | forgets a d a' d' : a' ⊆ a → d' ⊆ d → (∀ key, key = disk_key ∨ key = docker_key → a' !! key = a !! key) → tells (mk_book a d) [] (mk_book a' d').
Inductive account : book → list notice → book → Prop :=
  | account_nil b : account b [] b
  | account_cons b1 l1 b2 l2 b3 : tells b1 l1 b2 → account b2 l2 b3 → account b1 (l1 ++ l2)%list b3.

Lemma account_app b1 l1 b2 l2 b3 : account b1 l1 b2 → account b2 l2 b3 → account b1 (l1 ++ l2)%list b3.
Proof. induction 1; intros; [done|]. rewrite <- app_assoc. econstructor; eauto. Qed.
Lemma account_one b1 l b2 : tells b1 l b2 → account b1 l b2.
Proof. intros H. rewrite <- (app_nil_r l). econstructor; [exact H|constructor]. Qed.

(** What a reader makes of the notices about one key: how it was last raised,
    unless it has ended.  Where the readings are steady, a recovery ends the alert
    that the application was unhealthy. *)
Definition heard (key : alertKey) (was : option string) (n : notice) : option string :=
  match n with
  | Raised k s => if bool_decide (k = key) then Some s else was
  | Cleared k => if bool_decide (k = key) then None else was
  | Down _ => was
  | Recovered app => if steady && bool_decide (unhealthy_key app = key) then None else was
  end.
Definition heard_of (key : alertKey) (l : list notice) : option string := foldl (heard key) None l.
Definition heard_down (app : string) (was : bool) (n : notice) : bool :=
  match n with Down a => was || String.eqb a app | Recovered a => was && negb (String.eqb a app) | _ => was end.
Definition told_down (app : string) (l : list notice) : bool := foldl (heard_down app) false l.

(** What stands was told, at its severity or a higher one. *)
Definition informed (b : book) (h : alertKey → option string) (down : string → bool) : Prop :=
  (∀ key s, sp_active b !! key = Some s → (s = SeverityWarning ∨ s = SeverityCritical) ∧ ∃ s', h key = Some s' ∧ (s' = s ∨ s' = SeverityCritical)) ∧
  (∀ app, app ∈ sp_down b → down app = true).
Lemma tells_informed b l b' h down : tells b l b' → informed b h down → informed b' (λ key, foldl (heard key) (h key) l) (λ app, foldl (heard_down app) (down app) l).
Proof.
  intros H [H1 H2]. destruct H as [a d key s Hn Hne Hs|a d key s Hc Hw|a d key s Hc Hq|a d app Ha|a d app Ha|a d app Hst Ha|a d app Hst Ha|a d a' d' Hsub Hd Hk]; (split; cbn in *).
  - intros k s' E. apply lookup_insert_Some in E as [[<- <-]|[Hk E]]; [rewrite bool_decide_true by done; split; [done|exists s; by split; [|left]]|].
    rewrite bool_decide_false by done. by apply H1.
  - done.
  - intros k s' E. apply lookup_insert_Some in E as [[<- <-]|[Hk E]]; [|by apply H1]. destruct (H1 key _ Hc) as ([->| ->] & s' & E' & Hs'); [done|]. split; [by left|]. exists s'. split; [exact E'|]. right. by destruct Hs'.
  - done.
  - intros k s' E. apply lookup_delete_Some in E as [Hk E]. rewrite bool_decide_false by done. by apply H1.
  - done.
  - done.
  - intros x [->%elem_of_singleton|Hx]%elem_of_union; [by rewrite String.eqb_refl, orb_true_r|]. by rewrite (H2 x Hx).
  - intros k s' E. apply lookup_delete_Some in E as [Hk E]. rewrite bool_decide_false, andb_false_r by done. by apply H1.
  - intros x [Hx Hne]%elem_of_difference. rewrite (H2 x Hx). cbn. apply negb_true_iff, String.eqb_neq. set_solver.
  - intros k s' E. rewrite Hst. by apply H1.
  - intros x [Hx Hne]%elem_of_difference. rewrite (H2 x Hx). cbn. apply negb_true_iff, String.eqb_neq. set_solver.
  - intros k s' E. apply lookup_delete_Some in E as [Hk E]. by apply H1.
  - done.
  - intros k s' E. apply H1. by eapply lookup_weaken.
  - intros x Hx. apply H2. set_solver.
Qed.
Lemma account_informed b l b' : account b l b' → ∀ h down, informed b h down → informed b' (λ key, foldl (heard key) (h key) l) (λ app, foldl (heard_down app) (down app) l).
Proof.
  induction 1 as [b|b1 l1 b2 l2 b3 H1 _ IH]; intros h down Hi; [done|]. pose proof (IH _ _ (tells_informed _ _ _ _ _ H1 Hi)) as [H2 H3]. split.
  - intros key s E. rewrite foldl_app. by apply H2.
  - intros app E. rewrite foldl_app. by apply H3.
Qed.
Lemma account_told l b : account no_book l b → informed b (λ key, heard_of key l) (λ app, told_down app l).
Proof. intros H. apply (account_informed _ _ _ H). split; cbn; [done|set_solver]. Qed.

(** ** The handlers keep the account *)

Definition said (ev : event) : option notice :=
  match what ev with
  | ANotify e =>
      match ev_Alert e with
      | Some (key, s) => if String.eqb (ev_Kind e) AlertRaised then Some (Raised key s) else if String.eqb (ev_Kind e) AlertCleared then Some (Cleared key) else None
      | None => if String.eqb (ev_Kind e) ApplicationDown then Some (Down (ev_Application e)) else if String.eqb (ev_Kind e) ApplicationRecovered then Some (Recovered (ev_Application e)) else None
      end
  | _ => None
  end.
(** The notices of what happened, oldest first. *)
Definition notices (evs : list event) : list notice := reverse (omap said evs).
Lemma notices_app a b : notices (a ++ b)%list = (notices b ++ notices a)%list.
Proof. unfold notices. by rewrite omap_app, reverse_app. Qed.
Definition calm_event (ev : event) : Prop := what ev ≠ APanic.
Definition book_of (w : watch) : book := mk_book (al_Severity <$> active w) (down w).

(** What a handler leaves alone: who is down, since when who is unhealthy; no alert of that kind begins. *)
Definition frame (w w' : watch) : Prop := down w' = down w ∧ unhealthy w' = unhealthy w ∧ ∀ app, is_Some (active w' !! unhealthy_key app) → is_Some (active w !! unhealthy_key app).
Lemma frame_refl w : frame w w.
Proof. by split_and!. Qed.
Lemma frame_trans w1 w2 w3 : frame w1 w2 → frame w2 w3 → frame w1 w3.
Proof. intros (A1 & B1 & C1) (A2 & B2 & C2). split_and!; [congruence..|auto]. Qed.
(** Whatever the world answers, the notices account for what changes. *)
Definition accounts {A} (m : AM A) : Prop := does m (λ w _ w' evs, account (book_of w) (notices evs) (book_of w') ∧ Forall calm_event evs ∧ frame w w').
Lemma accounts_ret {A} (a : A) : accounts (mret a).
Proof. intros s. exists []. split; [done|]. split; [constructor|]. split; [done|apply frame_refl]. Qed.
Lemma accounts_get {A} (f : watch → A) : accounts (mget f).
Proof. intros s. exists []. split; [done|]. split; [constructor|]. split; [done|apply frame_refl]. Qed.
Lemma accounts_set f : (∀ w, account (book_of w) [] (book_of (f w))) → (∀ w, frame w (f w)) → accounts (mset f).
Proof. intros H HF s. exists []. split; [done|]. split; [apply H|]. split; [done|apply HF]. Qed.
Lemma accounts_then {A B} (m : AM A) (k : A → AM B) : accounts m → (∀ a, accounts (k a)) → accounts (mthen m k).
Proof.
  intros H1 H2 s. after H1. destruct P as (P1 & Q1 & F1). destruct (H2 a (w, l)) as (evs2 & E2 & P2 & Q2 & F2). cbn [fst snd] in *. subst l. exists (evs2 ++ evs)%list.
  split; [by rewrite E2, app_assoc|]. split; [rewrite notices_app; by eapply account_app|]. split; [by apply Forall_app|by eapply frame_trans].
Qed.
Lemma accounts_loop {A} (f : A → AM unit) l : (∀ a, accounts (f a)) → accounts (mloop f l).
Proof. intros H. induction l as [|a l IH]; cbn; [apply accounts_ret|apply accounts_then; auto]. Qed.

Section Handlers.
Context (o : alert_options) (world : list event → ∀ c, aanswer c) (Hn : has_notifier o = true).
Local Abbreviation perform := (Effects.perform world).
Definition silent (c : acall) : bool := match c with ANotify _ | APanic => false | _ => true end.
Lemma accounts_perform c : silent c = true → accounts (perform c).
Proof.
  intros H s. exists [mk_happened c (world s.2 c)]. split; [done|]. split.
  - unfold notices. cbn. destruct c; try discriminate; constructor.
  - split; [|apply frame_refl]. repeat constructor. intros E. cbn in E. subst c. discriminate.
Qed.
End Handlers.
#[local] Ltac accounting := repeat first
  [ apply accounts_then; [|intros] | apply accounts_loop; intros | apply accounts_ret | apply accounts_get | apply accounts_perform; reflexivity
  | match goal with |- accounts (match ?x with _ => _ end) => destruct x end | match goal with |- accounts (if ?x then _ else _) => destruct x end ].

Section Alerting.
Context (o : alert_options) (world : list event → ∀ c, aanswer c) (Hn : has_notifier o = true).

Lemma accounts_alertEvent app level message now : accounts (alertEvent world app level message now).
Proof. unfold alertEvent. accounting. Qed.
(** What a telling adds: one notice, after the event. *)
Lemma tellAlert_does app k key s level message now : k = AlertRaised ∨ k = AlertCleared →
  does (tellAlert o world app k key s level message now) (λ w _ w' evs, w' = w ∧ notices evs = [if String.eqb k AlertRaised then Raised key s else Cleared key] ∧ Forall calm_event evs).
Proof.
  intros Hk st. unfold tellAlert, notify. rewrite Hn. set (ev := mk_event _ _ _ _ _ _ _).
  assert (does (alertEvent world app level message now) (λ w _ w' evs, w' = w ∧ omap said evs = [] ∧ Forall calm_event evs)) as H.
  { intros s0. unfold alertEvent. rewrite then_perform. destruct app as [app|]; [|eexists [_]; by repeat (constructor || split)]. rewrite then_perform. destruct (world _ (AAddEvent _ _ _ _)); [eexists [_; _; _]; by repeat (constructor || split)|].
    rewrite then_perform. destruct (world _ (APruneEvents _)); [eexists [_; _; _; _]|eexists [_; _; _]]; by repeat (constructor || split). }
  after H. destruct P as (-> & N & Q). subst l. exists (mk_happened (ANotify ev) (world (evs ++ st.2)%list (ANotify ev)) :: evs). split; [done|]. split; [done|]. split; [|by constructor].
  unfold notices. cbn. rewrite N. by destruct Hk as [-> | ->].
Qed.
(** A raise accounts for itself; one of another kind leaves the rest alone. *)
Lemma raise_does app key s message now : s = SeverityWarning ∨ s = SeverityCritical →
  does (raiseAlert o world app key s message now) (λ w _ w' evs, (account (book_of w) (notices evs) (book_of w') ∧ Forall calm_event evs) ∧
    down w' = down w ∧ unhealthy w' = unhealthy w ∧ ∀ k, is_Some (active w' !! k) → k = key ∨ is_Some (active w !! k)).
Proof.
  intros Hs st. unfold raiseAlert. rewrite then_get. case_bool_decide as Hsame; [exists []; split; [done|]; split; [split; [constructor|done]|split_and!; auto]|]. rewrite then_set.
  set (a := mk_alert _ _ _ _ _ _). set (w' := set_active (insert key a) st.1).
  assert (book_of w' = mk_book (<[key := s]> (sp_active (book_of st.1))) (down st.1)) as Hb by (unfold book_of, w'; cbn; by rewrite fmap_insert).
  assert (down w' = down st.1 ∧ unhealthy w' = unhealthy st.1 ∧ ∀ k, is_Some (active w' !! k) → k = key ∨ is_Some (active st.1 !! k)) as Hframe.
  { split_and!; [done..|]. intros k. unfold w'. cbn. destruct (decide (k = key)); [by left|]. rewrite lookup_insert_ne by done. by right. }
  assert (sp_active (book_of st.1) !! key ≠ Some s) as Hne by (unfold book_of; cbn; by rewrite lookup_fmap).
  destruct (bool_decide (active st.1 !! key = None) || String.eqb s SeverityCritical) eqn:E.
  - destruct (tellAlert_does app AlertRaised key s (if String.eqb s SeverityCritical then LevelError else LevelWarn) message now (or_introl eq_refl) (w', st.2)) as (evs & E1 & E2 & N & Q). cbn [fst snd] in *.
    exists evs. split; [exact E1|]. rewrite E2. split; [|by apply Hframe]. rewrite N, Hb. split; [|done]. apply account_one. cbn. unfold book_of. apply tells_raise; [|exact Hne|done].
    apply orb_true_iff in E as [E|E]; [left; apply bool_decide_eq_true in E; cbn; by rewrite lookup_fmap, E|right; by apply String.eqb_eq].
  - apply orb_false_iff in E as [E1 E2]. apply bool_decide_eq_false in E1. apply String.eqb_neq in E2. exists []. split; [done|]. cbn [mret fst snd]. split; [|exact Hframe]. split; [|constructor]. rewrite Hb. destruct Hs as [->|]; [|done].
    apply account_one. unfold book_of in *. cbn in *. destruct (active st.1 !! key) as [x|] eqn:Ex; [|done]. apply (tells_lower _ _ _ (al_Severity x)); [by rewrite lookup_fmap, Ex|]. intros Hx. apply Hne. by rewrite lookup_fmap, Ex; cbn; rewrite Hx.
Qed.
Lemma accounts_raise app key s message now : s = SeverityWarning ∨ s = SeverityCritical → kind key ≠ AlertUnhealthy → accounts (raiseAlert o world app key s message now).
Proof.
  intros Hs Hk. eapply does_weaken; [by apply raise_does|]. intros w ? w' evs [[H1 H2] (H3 & H4 & H5)]. do 2 (split; [done|]). split_and!; [done..|]. intros ap Ha. destruct (H5 _ Ha) as [<-|]; [by destruct Hk|done].
Qed.
(** The end of an alert is told, unless it is one that a recovery tells. *)
Lemma clear_does app key message now : does (clearAlert o world app key message now false) (λ w _ w' evs, Forall calm_event evs ∧ frame w w' ∧
  ((∀ a, key = unhealthy_key a → a ∉ down w) → account (book_of w) (notices evs) (book_of w'))).
Proof.
  intros st. unfold clearAlert. rewrite then_get, then_set. set (w' := set_active (delete key) st.1).
  assert (book_of w' = mk_book (delete key (sp_active (book_of st.1))) (down st.1)) as Hb by (unfold book_of, w'; cbn; by rewrite fmap_delete).
  assert (frame st.1 w') as Hframe by (split_and!; [done..|]; intros a [x Hx]; unfold w' in Hx; cbn in Hx; apply lookup_delete_Some in Hx as [_ Hx]; by exists x).
  destruct (active st.1 !! key) as [x|] eqn:Ex.
  - destruct (tellAlert_does app AlertCleared key (al_Severity x) LevelInfo message now (or_intror eq_refl) (w', st.2)) as (evs & E1 & E2 & N & Q). cbn [fst snd] in *. exists evs. split; [exact E1|]. rewrite E2, N, Hb. split_and!; [done..|]. intros Hq.
    apply account_one. unfold book_of. apply (tells_clear _ _ _ (al_Severity x)); [cbn; by rewrite lookup_fmap, Ex|exact Hq].
  - exists []. split; [done|]. cbn [mret fst snd]. split_and!; [done..|]. intros _. rewrite Hb. unfold book_of. cbn. rewrite delete_id; [constructor|]. by rewrite lookup_fmap, Ex.
Qed.
Lemma accounts_clear app key message now : kind key ≠ AlertUnhealthy → accounts (clearAlert o world app key message now false).
Proof. intros Hk. eapply does_weaken; [apply clear_does|]. intros w ? w' evs (H1 & H2 & H3). split_and!; [|done..]. apply H3. intros ap ->. by destruct Hk. Qed.
Lemma accounts_drop gone : (∀ key, key = disk_key ∨ key = docker_key → gone key = false) → accounts (dropAlerts gone).
Proof.
  intros Hg. apply accounts_set; intros w; [|split_and!; [done..|]; intros a [x Hx]; cbn in Hx; apply map_lookup_filter_Some in Hx as [Hx _]; by exists x].
  apply account_one, forgets; cbn; [by apply map_fmap_mono, map_filter_subseteq|done|]. intros key Hk. rewrite !lookup_fmap, map_lookup_filter. specialize (Hg key Hk).
  destruct (active w !! key); [|done]. cbn. by rewrite option_guard_True.
Qed.
End Alerting.

Section Handling.
Context (o : alert_options) (world : list event → ∀ c, aanswer c) (Hn : has_notifier o = true).

Ltac handling := repeat first
  [ apply accounts_raise; [exact Hn|auto|done] | apply accounts_clear; [exact Hn|done]
  | apply accounts_then; [|intros] | apply accounts_loop; intros | apply accounts_ret | apply accounts_get | apply accounts_perform; reflexivity
  | solve [apply accounts_set; intros; [exact (account_nil _)|by unfold frame; split_and!]]
  | match goal with |- accounts (match ?x with _ => _ end) => destruct x eqn:? end | match goal with |- accounts (if ?x then _ else _) => destruct x eqn:? end ].

Lemma accounts_checkDisk now : accounts (checkDisk o world now).
Proof. unfold checkDisk, Disk. handling. Qed.
(** Nothing is read past the end of no samples. *)
Lemma memoryAlerting_none was now interval limit percent : memoryAlerting was [] now interval limit percent = was.
Proof. done. Qed.
Lemma accounts_check_replica now app limit samples i : accounts (check_replica o world now app limit samples i).
Proof.
  unfold check_replica. apply accounts_then; [apply accounts_get|]. intros book. destruct (Bool.eqb _ _) eqn:E; [apply accounts_ret|]. set (mine := List.filter _ samples) in *.
  destruct (last mine) as [m|] eqn:El; [handling|]. exfalso. destruct mine as [|x l]; [rewrite memoryAlerting_none in E; by destruct (bool_decide _)|]. apply last_None in El. discriminate.
Qed.
Lemma accounts_check_apps now deployments l : ∀ limited, accounts (check_apps o world now deployments l limited).
Proof.
  induction l as [|app l IH]; intros limited; cbn [check_apps]; [apply accounts_ret|]. destruct (deployments !! app_ID app) as [dep|]; [|apply IH].
  destruct (negb _); [apply IH|]. destruct (_ || _); [apply IH|]. apply accounts_then; [by apply accounts_perform|]. intros [e|samples]; [handling|].
  apply accounts_then; [apply accounts_loop; intros; apply accounts_check_replica|]. intros _. apply IH.
Qed.
Lemma not_memory key : key = disk_key ∨ key = docker_key → is_memory key = false.
Proof. by intros [-> | ->]. Qed.
Lemma accounts_checkAlerts now : accounts (checkAlerts o world now).
Proof.
  unfold checkAlerts, checkMemory. apply accounts_then; [apply accounts_checkDisk|]. intros _. apply accounts_then; [by apply accounts_perform|]. intros [|].
  - apply accounts_drop. apply not_memory.
  - apply accounts_then; [by apply accounts_perform|]. intros [e|st]; [by apply accounts_perform|]. apply accounts_then; [apply accounts_check_apps|]. intros [limited|]; [|apply accounts_ret].
    apply accounts_drop. intros key Hk. by rewrite (not_memory key Hk).
Qed.
Lemma accounts_check_restarts now app dep restarted held r : accounts (check_restarts o world now app dep restarted held r).
Proof. unfold check_restarts. handling. Qed.
Lemma accounts_dockerAnswers now : accounts (dockerAnswers o world now).
Proof.
  unfold dockerAnswers. handling.
Qed.
Lemma accounts_noteRestart id now : accounts (noteRestart id now).
Proof. apply accounts_set; intros w; [exact (account_nil _)|by unfold frame; split_and!]. Qed.

(** ** An application that is looked at *)

(** An application that is said to be unhealthy is counted as such. *)
Definition counted (w : watch) : Prop := ∀ app, is_Some (active w !! unhealthy_key app) → app ≠ "" ∧ is_Some (unhealthy w !! app).
Lemma frame_counted w w' : frame w w' → counted w → counted w'.
Proof. intros (H1 & H2 & H3) H app Ha. rewrite H2. auto. Qed.

Lemma quiet_clear app key message now : does (clearAlert o world (Some app) key message now true) (λ w _ w' evs, w' = set_active (delete key) w ∧ notices evs = [] ∧ Forall calm_event evs).
Proof.
  intros s. unfold clearAlert. rewrite then_get, then_set. destruct (active s.1 !! key) as [x|]; [|by exists []].
  unfold alertEvent. rewrite !then_perform. destruct (world _ (AAddEvent _ _ _ _)); [eexists [_; _; _]; by repeat (constructor || split)|].
  rewrite then_perform. destruct (world _ (APruneEvents _)); [eexists [_; _; _; _]|eexists [_; _; _]]; by repeat (constructor || split).
Qed.
Section Availability.
Context (app : Application) (dep : Deployment) (replicas : list Replica) (states : gmap string replicaState) (containers : gmap string Container).
Let t := count_replicas states containers replicas.
Let desired := a_Replicas (d_Spec dep).
Let healthy := (desired <=? t_ready t) && t_settled t.
Let is_down' := (t_ready t =? 0) && (t_comingUp t =? 0).

Lemma availability_does : does (noteAvailability o world app dep replicas states containers) (λ w _ w' evs, Forall calm_event evs ∧
  if is_down' && negb (bool_decide (app_Name app ∈ down w)) then w' = set_down (union {[app_Name app]}) w ∧ notices evs = [Down (app_Name app)]
  else if bool_decide (app_Name app ∈ down w) && healthy then w' = set_down (λ l, l ∖ {[app_Name app]}) w ∧ notices evs = [Recovered (app_Name app)]
  else w' = w ∧ notices evs = []).
Proof.
  intros s. unfold noteAvailability, notify. rewrite Hn. cbn [negb]. cbv zeta. fold t. fold desired. fold is_down'. rewrite then_get. set (wd := bool_decide (app_Name app ∈ down s.1)).
  assert (wd && (desired <=? t_ready t) && t_settled t = wd && healthy) as -> by (unfold healthy; by rewrite andb_assoc).
  destruct (is_down' && negb wd); [|destruct (wd && healthy); [|by exists []]]; unfold mthen, mset, Effects.perform; cbn [fst snd]; eexists [_; _]; (split; [reflexivity|]); (split; [by repeat constructor|done]).
Qed.
(** Whether it is down or comes back, when there is nothing else to say. *)
Lemma availability_account w w' evs : (app_Name app ∈ down w → healthy = false) →
  (if is_down' && negb (bool_decide (app_Name app ∈ down w)) then w' = set_down (union {[app_Name app]}) w ∧ notices evs = [Down (app_Name app)]
   else if bool_decide (app_Name app ∈ down w) && healthy then w' = set_down (λ l, l ∖ {[app_Name app]}) w ∧ notices evs = [Recovered (app_Name app)]
   else w' = w ∧ notices evs = []) → account (book_of w) (notices evs) (book_of w') ∧ active w' = active w ∧ unhealthy w' = unhealthy w.
Proof.
  intros Hd. case_bool_decide as Hdown; cbn [negb andb].
  - rewrite andb_false_r, (Hd Hdown). intros [-> ->]. split; [constructor|done].
  - destruct is_down'; cbn [andb]; intros [-> ->]; (split; [|done]); [|constructor]. by apply account_one, tells_down.
Qed.

(** Where the readings are apart, whatever was said before. *)
Lemma availability_apart w w' evs : steady = false →
  (if is_down' && negb (bool_decide (app_Name app ∈ down w)) then w' = set_down (union {[app_Name app]}) w ∧ notices evs = [Down (app_Name app)]
   else if bool_decide (app_Name app ∈ down w) && healthy then w' = set_down (λ l, l ∖ {[app_Name app]}) w ∧ notices evs = [Recovered (app_Name app)]
   else w' = w ∧ notices evs = []) → account (book_of w) (notices evs) (book_of w') ∧ active w' = active w ∧ unhealthy w' = unhealthy w.
Proof.
  intros Hst. case_bool_decide as Hdown; cbn [negb andb].
  - rewrite andb_false_r. destruct healthy; intros [-> ->]; (split; [|done]); [|constructor]. by apply account_one, tells_recovered_apart.
  - destruct is_down'; cbn [andb]; intros [-> ->]; (split; [|done]); [|constructor]. by apply account_one, tells_down.
Qed.
End Availability.

Section Look.
(** [states] is what noteAlerts finds, [states'] what noteAvailability does. *)
Context (app : Application) (dep : Deployment) (replicas : list Replica) (states states' : gmap string replicaState) (containers : gmap string Container).
Let t := count_replicas states containers replicas.
Let desired := a_Replicas (d_Spec dep).
Let healthy := (desired <=? t_ready t) && t_settled t.

Ltac look_on H := match goal with |- context [noteAvailability _ _ _ _ _ _ _ ?st] => let E := fresh "E" in destruct (H st) as (evs0 & E & Q1 & Q2); destruct (noteAvailability _ _ _ _ _ _ _ st) as [? [? ?]]; cbn [fst snd] in E, Q1, Q2 |- * end.
(** The end of noteAlerts and noteAvailability together. *)
Definition rest_of_look (now : Time) (since : option Time) (reportedDown : bool) : AM unit :=
  let! _ := check_unhealthy o world now app since (t_ready t) desired reportedDown in noteAvailability o world app dep replicas states' containers.
Lemma clear_state ap key message n quiet s : (clearAlert o world ap key message n quiet s).2.1 = set_active (delete key) s.1.
Proof.
  assert (∀ level s, (alertEvent world ap level message n s).2.1 = s.1) as He.
  { intros level s0. unfold alertEvent. rewrite then_perform. destruct ap as [ap|]; [|done]. rewrite then_perform. destruct (world _ (AAddEvent _ _ _ _)); [done|]. rewrite then_perform. by destruct (world _ (APruneEvents _)). }
  unfold clearAlert. rewrite then_get, then_set. destruct (active s.1 !! key); [|done]. destruct quiet; [apply He|]. unfold tellAlert, notify. rewrite Hn.
  unfold mthen. specialize (He LevelInfo (set_active (delete key) s.1, s.2)). destruct (alertEvent _ _ _ _ _ _) as [? [w l]]. exact He.
Qed.
Lemma rest_steady now since reportedDown : states' = states → does (rest_of_look now since reportedDown) (λ w _ w' evs,
  reportedDown = bool_decide (app_Name app ∈ down w) → since = unhealthy w !! app_Name app → (is_Some since → healthy = false) → (since = None → healthy = false → ¬ is_Some (active w !! unhealthy_key (app_Name app))) →
  app_Name app ≠ "" → (∀ a, a ≠ app_Name app → is_Some (active w !! unhealthy_key a) → a ≠ "" ∧ is_Some (unhealthy w !! a)) →
  account (book_of w) (notices evs) (book_of w') ∧ Forall calm_event evs ∧ counted w').
Proof.
  intros Es s. unfold rest_of_look. rewrite Es. set (key := unhealthy_key (app_Name app)). destruct since as [since|].
  - (* not healthy *)
    assert (does (check_unhealthy o world now app (Some since) (t_ready t) desired reportedDown) (λ w _ w' evs, (account (book_of w) (notices evs) (book_of w') ∧ Forall calm_event evs) ∧
      down w' = down w ∧ unhealthy w' = unhealthy w ∧ ∀ k, is_Some (active w' !! k) → k = key ∨ is_Some (active w !! k))) as H.
    { unfold check_unhealthy. destruct (String.eqb _ _); [apply raise_does; [exact Hn|by right]|]. destruct (String.eqb _ _); [apply raise_does; [exact Hn|by left]|].
      intros s1. exists []. split; [done|]. split; [split; [constructor|done]|split_and!; auto]. }
    after H. destruct P as [[P1 P2] (P3 & P4 & P5)]. look_on (availability_does app dep replicas states containers). subst l l0. exists (evs0 ++ evs)%list. split; [by rewrite app_assoc|]. intros -> Hs Hh _ Hname Hc.
    destruct (availability_account app dep replicas states containers _ _ _ (λ _, Hh (ex_intro _ since eq_refl)) Q2) as (R1 & R2 & R3). rewrite notices_app. split_and!; [by eapply account_app|by apply Forall_app|].
    intros a Ha. rewrite R2 in Ha. rewrite R3, P4. destruct (decide (a = app_Name app)) as [->|Hne]; [rewrite <- Hs; split; [done|by eexists]|]. apply Hc; [done|]. destruct (P5 _ Ha) as [[= ->]|]; done.
  - unfold check_unhealthy. cbv zeta. fold key. destruct reportedDown.
    + (* quiet: what follows says it *)
      after (quiet_clear app key (S' (app_Name app) :: L " is healthy again: " :: [D (t_ready t); L "/"; D desired; L " replicas ready"]) now). destruct P as (-> & N1 & P2). look_on (availability_does app dep replicas states containers). subst l l0.
      exists (evs0 ++ evs)%list. split; [by rewrite app_assoc|]. intros Hd Hs Hh Hno Hname Hc. cbn [down set_active] in Q2. rewrite <- Hd in Q2. cbn [negb andb] in Q2. rewrite andb_false_r in Q2. symmetry in Hd. apply bool_decide_eq_true in Hd.
      assert (counted (set_active (delete key) s.1)) as Hcount by (intros a [x Hx]; cbn in *; apply lookup_delete_Some in Hx as [Hk Hx]; apply Hc; [intros ->; by apply Hk|by exists x]).
      rewrite notices_app, N1, app_nil_l. fold t in Q2. fold desired in Q2. fold healthy in Q2. destruct healthy.
      * destruct Q2 as [-> ->]. split_and!; [|by apply Forall_app|exact Hcount]. apply account_one. unfold book_of. cbn. rewrite fmap_delete. by apply tells_recovered.
      * destruct Q2 as [-> ->]. split_and!; [|by apply Forall_app|exact Hcount]. specialize (Hno eq_refl eq_refl). apply eq_None_not_Some in Hno. unfold book_of. cbn. rewrite delete_id by done. constructor.
    + pose proof (clear_state (Some app) key (S' (app_Name app) :: L " is healthy again: " :: [D (t_ready t); L "/"; D desired; L " replicas ready"]) now false s) as Hst.
      after (clear_does o world Hn (Some app) key (S' (app_Name app) :: L " is healthy again: " :: [D (t_ready t); L "/"; D desired; L " replicas ready"]) now). destruct P as (P2 & P3 & P1). pose proof (P3) as (F1 & F2 & F3).
      look_on (availability_does app dep replicas states containers). subst l l0. exists (evs0 ++ evs)%list. split; [by rewrite app_assoc|]. intros Hd Hs Hh Hno Hname Hc. symmetry in Hd. apply bool_decide_eq_false in Hd. assert (account (book_of s.1) (notices evs) (book_of w)) as P1' by (apply P1; intros a [= <-]; exact Hd).
      destruct (availability_account app dep replicas states containers w _ _ (λ H, match Hd (eq_ind _ (λ d, app_Name app ∈ d) H _ F1) with end) Q2) as (R1 & R2 & R3). rewrite notices_app. split_and!; [by eapply account_app|by apply Forall_app|].
      intros a Ha. rewrite R2 in Ha. rewrite R3, F2. destruct (decide (a = app_Name app)) as [->|Hne]; [|by apply Hc, F3].
      cbn [fst snd] in Hst. rewrite Hst in Ha. cbn in Ha. by rewrite lookup_delete_eq in Ha; destruct Ha.
Qed.
Lemma rest_apart now since reportedDown : steady = false → does (rest_of_look now since reportedDown) (λ w _ w' evs,
  reportedDown = bool_decide (app_Name app ∈ down w) → since = unhealthy w !! app_Name app →
  app_Name app ≠ "" → (∀ a, a ≠ app_Name app → is_Some (active w !! unhealthy_key a) → a ≠ "" ∧ is_Some (unhealthy w !! a)) →
  account (book_of w) (notices evs) (book_of w') ∧ Forall calm_event evs ∧ counted w').
Proof.
  intros Hst s. unfold rest_of_look. set (key := unhealthy_key (app_Name app)). destruct since as [since|].
  - assert (does (check_unhealthy o world now app (Some since) (t_ready t) desired reportedDown) (λ w _ w' evs, (account (book_of w) (notices evs) (book_of w') ∧ Forall calm_event evs) ∧
      down w' = down w ∧ unhealthy w' = unhealthy w ∧ ∀ k, is_Some (active w' !! k) → k = key ∨ is_Some (active w !! k))) as H.
    { unfold check_unhealthy. destruct (String.eqb _ _); [apply raise_does; [exact Hn|by right]|]. destruct (String.eqb _ _); [apply raise_does; [exact Hn|by left]|].
      intros s1. exists []. split; [done|]. split; [split; [constructor|done]|split_and!; auto]. }
    after H. destruct P as [[P1 P2] (P3 & P4 & P5)]. look_on (availability_does app dep replicas states' containers). subst l l0. exists (evs0 ++ evs)%list. split; [by rewrite app_assoc|]. intros _ Hs Hname Hc.
    destruct (availability_apart app dep replicas states' containers _ _ _ Hst Q2) as (R1 & R2 & R3). rewrite notices_app. split_and!; [by eapply account_app|by apply Forall_app|].
    intros a Ha. rewrite R2 in Ha. rewrite R3, P4. destruct (decide (a = app_Name app)) as [->|Hne]; [rewrite <- Hs; split; [done|by eexists]|]. apply Hc; [done|]. destruct (P5 _ Ha) as [[= ->]|]; done.
  - assert (does (check_unhealthy o world now app None (t_ready t) desired reportedDown) (λ w _ w' evs, reportedDown = bool_decide (app_Name app ∈ down w) →
      account (book_of w) (notices evs) (book_of w') ∧ Forall calm_event evs ∧ unhealthy w' = unhealthy w ∧ active w' = delete key (active w))) as H.
    { unfold check_unhealthy. cbv zeta. fold key. intros s1. destruct reportedDown.
      - destruct (quiet_clear app key (S' (app_Name app) :: L " is healthy again: " :: [D (t_ready t); L "/"; D desired; L " replicas ready"]) now s1) as (evs & E & Es & N & Q).
        exists evs. split; [exact E|]. rewrite Es, N. intros Hd. symmetry in Hd. apply bool_decide_eq_true in Hd. split_and!; [|done..]. apply account_one. unfold book_of. cbn. rewrite fmap_delete. by apply ends_unsaid.
      - pose proof (clear_state (Some app) key (S' (app_Name app) :: L " is healthy again: " :: [D (t_ready t); L "/"; D desired; L " replicas ready"]) now false s1) as Hact.
        destruct (clear_does o world Hn (Some app) key (S' (app_Name app) :: L " is healthy again: " :: [D (t_ready t); L "/"; D desired; L " replicas ready"]) now s1) as (evs & E & Q & (_ & F2 & _) & P).
        exists evs. split; [exact E|]. intros Hd. symmetry in Hd. apply bool_decide_eq_false in Hd. split_and!; [|done..|by rewrite Hact]. apply P. intros a [= <-]. exact Hd. }
    after H. look_on (availability_does app dep replicas states' containers). subst l l0. exists (evs0 ++ evs)%list. split; [by rewrite app_assoc|]. intros Hd Hs Hname Hc. destruct (P Hd) as (P1 & P2 & P3 & P4).
    destruct (availability_apart app dep replicas states' containers _ _ _ Hst Q2) as (R1 & R2 & R3). rewrite notices_app. split_and!; [by eapply account_app|by apply Forall_app|].
    intros a Ha. rewrite R2, P4 in Ha. rewrite R3, P3. destruct Ha as [x Hx]. apply lookup_delete_Some in Hx as [Hk Hx]. apply Hc; [intros ->; by apply Hk|by exists x].
Qed.
(** One application, as a tick of the supervisor looks at it: its health is read
    under the lock by each of the two, and probes may come in between. *)
Definition look (now : Time) : AM unit := let! _ := noteAlerts o world now app dep replicas states containers in noteAvailability o world app dep replicas states' containers.
Definition restarted_of (w : watch) (now : Time) : gmap Z (list Time) := foldl (λ m r, <[r_Index r := within (default [] (bk_restarts w !! r_ContainerID r)) now restartAlertWindow]> m) ∅ replicas.
Definition counted_by (now : Time) (w : watch) : watch :=
  set_unhealthy (count_unhealthy healthy (t_ready t) desired (app_Name app) now) (set_observed (insert (app_Name app) (mk_observation desired (t_running t) (t_ready t) (t_looping t))) w).
Definition restarts_of_look (now : Time) (w : watch) : AM unit :=
  let! _ := mloop (check_restarts o world now app dep (restarted_of w now) (λ r, bool_decide (app_Name app ∈ down w) || (t_ready t =? 0) || looping states containers r)) replicas in
  dropAlerts (λ key, String.eqb (application key) (app_Name app) && (desired <? replica key)).
Lemma look_eq now s : look now s = (let! _ := restarts_of_look now s.1 in rest_of_look now (unhealthy (counted_by now s.1) !! app_Name app) (bool_decide (app_Name app ∈ down s.1))) (counted_by now s.1, s.2).
Proof. unfold look, noteAlerts, restarts_of_look, rest_of_look, mthen, mget, mset. cbn [fst snd]. by destruct (mloop _ _ _) as [? [? ?]]. Qed.
Lemma accounts_restarts_of_look now w : app_Name app ≠ "" → accounts (restarts_of_look now w).
Proof.
  intros Hname. apply accounts_then; [apply accounts_loop; intros; apply accounts_check_restarts|]. intros _. apply accounts_drop. intros key [-> | ->]; apply andb_false_iff; left; cbn [application disk_key docker_key]; apply String.eqb_neq; congruence.
Qed.
Lemma look_does now : (steady = true → states' = states) → app_Name app ≠ "" → does (look now) (λ w _ w' evs, counted w → account (book_of w) (notices evs) (book_of w') ∧ Forall calm_event evs ∧ counted w').
Proof.
  intros Hst Hname s. rewrite look_eq. set (w0 := counted_by now s.1). destruct (accounts_restarts_of_look now s.1 Hname (w0, s.2)) as (evs & E & P1 & P2 & F1 & F2 & F3). rewrite then_eq.
  destruct (restarts_of_look now s.1 (w0, s.2)) as [? [w1 l1]]. cbn [fst snd] in *. subst l1.
  assert (does (rest_of_look now (unhealthy w0 !! app_Name app) (bool_decide (app_Name app ∈ down s.1))) (λ w _ w' evs,
    bool_decide (app_Name app ∈ down s.1) = bool_decide (app_Name app ∈ down w) → unhealthy w0 !! app_Name app = unhealthy w !! app_Name app →
    (is_Some (unhealthy w0 !! app_Name app) → healthy = false) → (unhealthy w0 !! app_Name app = None → healthy = false → ¬ is_Some (active w !! unhealthy_key (app_Name app))) →
    app_Name app ≠ "" → (∀ a, a ≠ app_Name app → is_Some (active w !! unhealthy_key a) → a ≠ "" ∧ is_Some (unhealthy w !! a)) →
    account (book_of w) (notices evs) (book_of w') ∧ Forall calm_event evs ∧ counted w')) as Hrest.
  { destruct (Bool.bool_dec steady true) as [Hb|Hb%Bool.not_true_is_false]; [by apply rest_steady, Hst|].
    eapply does_weaken; [by apply rest_apart|]. cbv beta. intros w ? w' evs' H H1 H2 _ _ H3 H4. by apply H. }
  destruct (Hrest (w1, evs ++ s.2)%list) as (evs1 & E1 & H). clear Hrest. cbn [fst snd] in *. exists (evs1 ++ evs)%list. split; [by rewrite E1, app_assoc|]. intros Hc.
  assert (active w0 = active s.1 ∧ down w0 = down s.1 ∧ ∀ a, a ≠ app_Name app → unhealthy w0 !! a = unhealthy s.1 !! a) as (A1 & A2 & A3).
  { split_and!; [done..|]. intros a Ha. unfold w0, counted_by. cbn. unfold count_unhealthy. destruct healthy; [by rewrite lookup_delete_ne|]. destruct (unhealthy s.1 !! app_Name app); [done|]. destruct (_ <? _); [by rewrite lookup_insert_ne|done]. }
  destruct H as (H1 & H2 & H3).
  - by rewrite F1, A2.
  - by rewrite F2.
  - unfold w0, counted_by. cbn. unfold count_unhealthy. destruct healthy; [rewrite lookup_delete_eq; by intros [? ?]|done].
  - intros Hn0 Hh Ha. apply F3 in Ha. rewrite A1 in Ha. specialize (Hc _ Ha). unfold w0, counted_by in Hn0. cbn in Hn0. unfold count_unhealthy in Hn0. rewrite Hh in Hn0. destruct (unhealthy s.1 !! app_Name app) eqn:Eu; [by rewrite Eu in Hn0|by destruct Hc as [_ []]].
  - exact Hname.
  - intros a Ha Hk. rewrite F2, A3 by done. apply Hc. apply F3 in Hk. by rewrite A1 in Hk.
  - split_and!; [rewrite notices_app; eapply account_app; [exact P1|exact H1]|by apply Forall_app|exact H3].
Qed.
End Look.

End Handling.

(** What is forgotten of applications that are gone or not supervised. *)
Definition forget (apps : list Application) (now : Time) : AM unit := let! _ := forgetDown apps in forgetAlerts apps now.
Lemma forget_does apps now : does (forget apps now) (λ w _ w' evs, counted w → account (book_of w) (notices evs) (book_of w') ∧ Forall calm_event evs ∧ counted w').
Proof.
  intros s. exists []. split; [done|]. intros Hc. unfold forget, forgetDown, forgetAlerts, dropAlerts, mthen, mset. cbn [fst snd]. split_and!; [|done|].
  - apply account_one, forgets; cbn; [by apply map_fmap_mono, map_filter_subseteq|set_solver|]. intros key Hk. rewrite !lookup_fmap, map_lookup_filter. destruct (active s.1 !! key); [|done]. cbn. rewrite option_guard_True; [done|]. by destruct Hk as [-> | ->].
  - intros app [x Hx]. cbn in *. apply map_lookup_filter_Some in Hx as [Hx Hs]. cbn in Hs. destruct (Hc app (ex_intro _ x Hx)) as [Hne [y Hy]]. split; [done|]. exists y. apply map_lookup_filter_Some. split; [exact Hy|]. cbn.
    apply String.eqb_neq in Hne. rewrite Hne in Hs. by destruct (supervised apps app).
Qed.

(** ** The watch of a server *)

(** One handler after another, whatever each is answered, with what happened in it. *)
Inductive handled (o : alert_options) : watch → list event → watch → Prop :=
  | handled_samples world now w w' evs : checkAlerts o world now (w, []) = (tt, (w', evs)) → handled o w evs w'
  | handled_look world now app dep replicas states states' containers w w' evs : (steady = true → states' = states) → app_Name app ≠ "" →
      look o world app dep replicas states states' containers now (w, []) = (tt, (w', evs)) → handled o w evs w'
  | handled_docker world now w r w' evs : dockerAnswers o world now (w, []) = (r, (w', evs)) → handled o w evs w'
  | handled_restart id now w : handled o w [] (noteRestart id now (w, [])).2.1
  | handled_forget apps now w : handled o w [] (forget apps now (w, [])).2.1.
Definition nothing_yet : watch := mk_watch ∅ ∅ ∅ ∅ ∅ None.
(** All that happened since the agent started, newest first. *)
Inductive watched (o : alert_options) : list event → watch → Prop :=
  | watched_start : watched o [] nothing_yet
  | watched_step h w evs w' : watched o h w → handled o w evs w' → watched o (evs ++ h)%list w'.

Lemma handled_account o w evs w' : has_notifier o = true → handled o w evs w' → counted w → account (book_of w) (notices evs) (book_of w') ∧ Forall calm_event evs ∧ counted w'.
Proof.
  intros Hn H Hc. destruct H as [world now w w' evs E|world now app dep replicas states states' containers w w' evs Hst Hname E|world now w r w' evs E|id now w|apps now w].
  - destruct (ran _ _ _ _ _ _ (accounts_checkAlerts o world Hn now) E) as (H1 & H2 & H3). split_and!; [done..|]. by eapply frame_counted.
  - by apply (ran _ _ _ _ _ _ (look_does o world Hn app dep replicas states states' containers now Hst Hname) E).
  - destruct (ran _ _ _ _ _ _ (accounts_dockerAnswers o world Hn now) E) as (H1 & H2 & H3). split_and!; [done..|]. by eapply frame_counted.
  - split_and!; [exact (account_nil _)|done|exact Hc].
  - destruct (forget_does apps now (w, [])) as (evs & E & H). cbn [fst snd] in E. rewrite app_nil_r in E. change ((forget apps now (w, [])).2.2) with (@nil event) in E. subst evs. by apply H.
Qed.
Lemma watched_account o h w : has_notifier o = true → watched o h w → account no_book (notices h) (book_of w) ∧ Forall calm_event h ∧ counted w.
Proof.
  intros Hn. induction 1 as [|h w evs w' _ (H1 & H2 & H3) Hs]; [split_and!; [constructor|done|by intros ? []]|].
  destruct (handled_account o w evs w' Hn Hs H3) as (H4 & H5 & H6). split_and!; [|by apply Forall_app|done]. rewrite notices_app. by eapply account_app.
Qed.

End Accounts.


(** ** The disk *)

(** What the disk was found to be, where it could be measured, oldest first. *)
Definition reading (ev : event) : option DiskUsage :=
  match ev with mk_happened c a => match c return aanswer c → option DiskUsage with ADiskUsage => λ a, match a with Some u => if TotalBytes u <=? 0 then None else Some u | None => None end | _ => λ _, None end a end.
Definition readings (evs : list event) : list DiskUsage := reverse (omap reading evs).
Definition severity (w : watch) (key : alertKey) : option string := al_Severity <$> active w !! key.
(** From a reading at the upper level on, none has been below the lower one. *)
Definition standing (hi lo : Z) (us : list DiskUsage) : Prop :=
  ∃ before u after, us = (before ++ u :: after)%list ∧ at_least (percentOf (UsedBytes u) (TotalBytes u)) hi = true ∧ Forall (λ u, at_least (percentOf (UsedBytes u) (TotalBytes u)) lo = true) after.
Lemma standing_snoc hi lo us u : standing hi lo (us ++ [u])%list ↔
  at_least (percentOf (UsedBytes u) (TotalBytes u)) hi = true ∨ standing hi lo us ∧ at_least (percentOf (UsedBytes u) (TotalBytes u)) lo = true.
Proof.
  split.
  - intros (before & v & after & E & Hv & Ha). destruct after as [|x after _] using rev_ind.
    + apply app_inj_tail in E as [-> ->]. by left.
    + right. rewrite app_comm_cons, app_assoc in E. apply app_inj_tail in E as [-> ->]. apply Forall_app in Ha as [Ha1 [Ha2 _]%Forall_cons]. split; [|done]. exists before, v, after. by split_and!.
  - intros [H|[(before & v & after & -> & Hv & Ha) H]].
    + by exists us, u, [].
    + exists before, v, (after ++ [u])%list. split; [by rewrite <- app_assoc|]. split; [done|]. apply Forall_app. by repeat constructor.
Qed.
Lemma at_least_spec f n : 0 ≤ n < 2 ^ 53 → at_least f n = true ↔ n * float_den f ≤ float_num f.
Proof.
  intros Hn. unfold at_least, float_ltb. destruct (Z.ltb_spec n 0) as [?|_]; [lia|]. cbn [orb]. rewrite negb_true_iff, Z.ltb_ge.
  destruct (decide (n = 0)) as [->|]; [change (float_num (float_of_Z 0)) with 0; change (float_den (float_of_Z 0)) with 1; lia|].
  destruct (round_rat_exact n 0) as (g & Hg & Hv & Hd); [lia..|]. rewrite Z.mul_1_r in Hg, Hv. unfold float_of_Z. rewrite Hg. cbn [default from_option id]. rewrite Hv. nia.
Qed.
Lemma float_den_pos f : 0 < float_den f.
Proof. unfold float_den. destruct (Z.leb_spec 0 (expo f)); [lia|]. apply Z.pow_pos_nonneg; lia. Qed.
Lemma at_least_mono f a b : 0 ≤ b ≤ a → a < 2 ^ 53 → at_least f a = true → at_least f b = true.
Proof. intros H1 H2. rewrite !at_least_spec by lia. pose proof (float_den_pos f). nia. Qed.

(** What the next reading makes of the severity. *)
Lemma diskSeverity_next was us u percent : 50 ≤ percent ≤ 94 → was = "" ∨ was = SeverityWarning ∨ was = SeverityCritical →
  (was = SeverityCritical ↔ standing diskCriticalPercent (diskCriticalPercent - diskClearMargin) us) → (was ≠ "" ↔ standing percent (percent - diskClearMargin) us) →
  let next := diskSeverity was u percent in (next = "" ∨ next = SeverityWarning ∨ next = SeverityCritical) ∧
  (next = SeverityCritical ↔ standing diskCriticalPercent (diskCriticalPercent - diskClearMargin) (us ++ [u])%list) ∧ (next ≠ "" ↔ standing percent (percent - diskClearMargin) (us ++ [u])%list).
Proof.
  intros Hp Hw Hc Ha next. rewrite !standing_snoc, <- Hc, <- Ha. subst next. clear Hc Ha. unfold diskSeverity, diskCriticalPercent, diskClearMargin. set (f := percentOf _ _).
  pose proof (at_least_mono f 95 percent ltac:(lia) ltac:(lia)). pose proof (at_least_mono f 95 (95 - 5) ltac:(lia) ltac:(lia)). pose proof (at_least_mono f (95 - 5) (percent - 5) ltac:(lia) ltac:(lia)). pose proof (at_least_mono f percent (percent - 5) ltac:(lia) ltac:(lia)).
  destruct (at_least f 95), (at_least f (95 - 5)), (at_least f percent), (at_least f (percent - 5)); try (exfalso; intuition congruence); destruct Hw as [->|[->| ->]]; cbn; unfold SeverityWarning, SeverityCritical; intuition congruence.
Qed.

(** What everything but the look at the disk leaves alone. *)
Definition same_disk (w w' : watch) : Prop := active w' !! disk_key = active w !! disk_key.
#[local] Instance same_disk_pre : PreOrder same_disk.
Proof. split; [done|]. intros w1 w2 w3 H1 H2. unfold same_disk in *. congruence. Qed.
Definition no_reading (ev : event) : Prop := match what ev with ADiskUsage => False | _ => True end.
Local Abbreviation unread := (Effects.calm same_disk no_reading).

Ltac unread := calm; try match goal with |- Effects.calm _ _ (mset _) => apply calm_set; try exact _; intros; unfold same_disk; cbn; try done end.

Section Unread.
Context (o : alert_options) (world : list event → ∀ c, aanswer c).
Lemma unread_alertEvent app level message now : unread (alertEvent world app level message now).
Proof. unfold alertEvent. calm. Qed.
Lemma unread_tell app k key s level message now : unread (tellAlert o world app k key s level message now).
Proof. unfold tellAlert, notify. calm. apply unread_alertEvent. Qed.
Lemma unread_raise app key s message now : key ≠ disk_key → unread (raiseAlert o world app key s message now).
Proof.
  intros Hk. unfold raiseAlert. unread; [by rewrite lookup_insert_ne|apply unread_tell].
Qed.
Lemma unread_clear app key message now quiet : key ≠ disk_key → unread (clearAlert o world app key message now quiet).
Proof.
  intros Hk. unfold clearAlert. unread; [by rewrite lookup_delete_ne|apply unread_alertEvent|apply unread_tell].
Qed.
Lemma unread_drop gone : gone disk_key = false → unread (dropAlerts gone).
Proof.
  intros Hg. apply calm_set. intros w. unfold same_disk. cbn. rewrite map_lookup_filter. destruct (active w !! disk_key); [|done]. cbn. by rewrite option_guard_True.
Qed.
Lemma unread_checkMemory now : unread (checkMemory o world now).
Proof.
  assert (∀ deployments l limited, unread (check_apps o world now deployments l limited)) as H.
  { intros deployments l. induction l as [|app l IH]; intros limited; cbn [check_apps]; [calm|]. calm; try apply IH. unfold check_replica. calm; intros; (apply unread_raise || apply unread_clear); discriminate. }
  unfold checkMemory. calm; try apply H; by apply unread_drop.
Qed.
Lemma unread_dockerAnswers now : unread (dockerAnswers o world now).
Proof. unfold dockerAnswers. unread; intros; (apply unread_raise || apply unread_clear); discriminate. Qed.
Lemma unread_look app dep replicas states states' containers now : app_Name app ≠ "" → unread (look o world app dep replicas states states' containers now).
Proof.
  intros Hname. unfold look, noteAlerts, noteAvailability, check_unhealthy, notify. unread; try (intros; (apply unread_raise || apply unread_clear); discriminate).
  - unfold check_restarts. calm; intros; (apply unread_raise || apply unread_clear); discriminate.
  - apply unread_drop. apply andb_false_iff; left. cbn [application disk_key]. apply String.eqb_neq. congruence.
Qed.
End Unread.

Lemma unread_none evs : Forall no_reading evs → omap reading evs = [].
Proof. induction 1 as [|[c a] evs Hc _ IH]; [done|]. cbn -[reading]. rewrite IH. destruct c; done. Qed.
(** The severity as the look at the disk has it. *)
Definition disk_severity (w : watch) : option string := severity w disk_key.
Definition as_severity (s : string) : option string := if String.eqb s "" then None else Some s.

Section Disk.
Context (o : alert_options) (world : list event → ∀ c, aanswer c).
Lemma raise_disk app s message now : does (raiseAlert o world app disk_key s message now) (λ w _ w' evs, disk_severity w' = Some s ∧ omap reading evs = []).
Proof.
  intros st. unfold raiseAlert. rewrite then_get. case_bool_decide as E; [exists []; split; [done|]; split; [|done]; unfold disk_severity, severity; cbn [mret fst snd]; by rewrite E|]. rewrite then_set.
  set (w0 := set_active _ st.1). assert (disk_severity w0 = Some s) as Hw by (unfold disk_severity, severity; cbn; by rewrite lookup_insert_eq).
  destruct (_ || _); [|by exists []]. destruct (unread_tell o world app AlertRaised disk_key s (if String.eqb s SeverityCritical then LevelError else LevelWarn) message now (w0, st.2)) as [H (evs & E1 & E2)]. exists evs. split; [exact E1|].
  split; [|by apply unread_none]. unfold disk_severity, severity in *. by rewrite H.
Qed.
Lemma clear_disk app message now quiet : does (clearAlert o world app disk_key message now quiet) (λ w _ w' evs, disk_severity w' = None ∧ omap reading evs = []).
Proof.
  intros st. unfold clearAlert. rewrite then_get, then_set. set (w0 := set_active _ st.1). assert (disk_severity w0 = None) as Hw by (unfold disk_severity, severity; cbn; by rewrite lookup_delete_eq).
  destruct (active st.1 !! disk_key) as [a|]; [|by exists []]. destruct quiet.
  - destruct (unread_alertEvent world app LevelInfo message now (w0, st.2)) as [H (evs & E1 & E2)]. exists evs. split; [exact E1|]. split; [|by apply unread_none]. unfold disk_severity, severity in *. by rewrite H.
  - destruct (unread_tell o world app AlertCleared disk_key (al_Severity a) LevelInfo message now (w0, st.2)) as [H (evs & E1 & E2)]. exists evs. split; [exact E1|]. split; [|by apply unread_none]. unfold disk_severity, severity in *. by rewrite H.
Qed.
Lemma checkDisk_does now : does (checkDisk o world now) (λ w _ w' evs, omap reading evs = [] ∧ disk_severity w' = disk_severity w ∨ ∃ u, omap reading evs = [u] ∧ disk_severity w' = as_severity (diskSeverity (default "" (disk_severity w)) u (AlertDiskPercent o))).
Proof.
  intros s. unfold checkDisk. rewrite then_eq. assert (Disk world s = (match world s.2 ADiskUsage with Some u => if TotalBytes u <=? 0 then None else Some u | None => None end, (s.1, mk_happened ADiskUsage (world s.2 ADiskUsage) :: s.2))) as -> by done. set (ev := mk_happened ADiskUsage _). cbn [mret fst snd].
  assert (reading ev = match world s.2 ADiskUsage with Some u => if TotalBytes u <=? 0 then None else Some u | None => None end) as Hr by done.
  destruct (match world s.2 ADiskUsage with Some u => _ | None => None end) as [u|] eqn:Eu.
  2:{ exists [ev]. assert (reading ev = None) as Hno by (by rewrite Hr). split; [done|]. left. split; [cbn -[reading]; by rewrite Hno|done]. }
  assert (reading ev = Some u) as Hsome by (by rewrite Hr).
  rewrite then_get. cbn [fst]. fold (severity s.1 disk_key). assert (match active s.1 !! disk_key with Some a => al_Severity a | None => "" end = default "" (disk_severity s.1)) as -> by (unfold disk_severity, severity; by destruct (active s.1 !! disk_key)).
  cbv zeta. set (sev := diskSeverity (default "" (disk_severity s.1)) u (AlertDiskPercent o)).
  assert (∀ m : AM unit, does m (λ w _ w' evs, disk_severity w' = as_severity sev ∧ omap reading evs = []) → ∃ evs, (m (s.1, ev :: s.2)).2.2 = (evs ++ s.2)%list ∧ (omap reading evs = [] ∧ disk_severity (m (s.1, ev :: s.2)).2.1 = disk_severity s.1 ∨
    ∃ u, omap reading evs = [u] ∧ disk_severity (m (s.1, ev :: s.2)).2.1 = as_severity (diskSeverity (default "" (disk_severity s.1)) u (AlertDiskPercent o)))) as Hm.
  { intros m Hm. destruct (Hm (s.1, ev :: s.2)) as (evs & E1 & E2 & E3). exists (evs ++ [ev])%list. split; [rewrite E1; cbn; by rewrite <- app_assoc|]. right. exists u. split; [|exact E2]. rewrite omap_app, E3. cbn -[reading]. by rewrite Hsome. }
  destruct (String.eqb_spec sev SeverityCritical) as [->|H1]; [apply Hm, raise_disk|]. destruct (String.eqb_spec sev SeverityWarning) as [->|H2]; [apply Hm, raise_disk|]. apply Hm.
  assert (sev = "") as ->; [|apply clear_disk]. subst sev. unfold diskSeverity in *. destruct (at_least _ _); [done|]. destruct (_ && _); [done|]. destruct (at_least _ _); [done|]. by destruct (_ && _).
Qed.
End Disk.

Lemma readings_app a b : readings (a ++ b)%list = (readings b ++ readings a)%list.
Proof. unfold readings. by rewrite omap_app, reverse_app. Qed.
Lemma unread_ran {A} (m : AM A) w r w' evs : unread m → m (w, []) = (r, (w', evs)) → readings evs = [] ∧ disk_severity w' = disk_severity w.
Proof.
  intros H E. destruct (H (w, [])) as [H1 (evs' & E1 & E2)]. rewrite E in *. cbn [fst snd] in *. rewrite app_nil_r in E1. subst evs'. unfold readings. rewrite (unread_none _ E2). split; [done|]. unfold disk_severity, severity, same_disk in *. by rewrite H1.
Qed.
Lemma handled_disk steady o w evs w' : handled steady o w evs w' → readings evs = [] ∧ disk_severity w' = disk_severity w ∨ ∃ u, readings evs = [u] ∧ disk_severity w' = as_severity (diskSeverity (default "" (disk_severity w)) u (AlertDiskPercent o)).
Proof.
  intros [world now w0 w0' evs0 E|world now app dep replicas states states' containers w0 w0' evs0 _ Hname E|world now w0 r w0' evs0 E|id now w0|apps now w0].
  - unfold checkAlerts in E. destruct (checkDisk_does o world now (w0, [])) as (evs1 & E1 & H). rewrite then_eq in E. destruct (checkDisk o world now (w0, [])) as [? [w1 l1]]. cbn [fst snd] in *. rewrite app_nil_r in E1. subst l1.
    destruct (unread_checkMemory o world now (w1, evs1)) as [H1 (evs2 & E2 & H2)]. rewrite E in *. cbn [fst snd] in *. subst evs0. rewrite readings_app. unfold readings. rewrite (unread_none _ H2), app_nil_r.
    assert (disk_severity w0' = disk_severity w1) as -> by (unfold disk_severity, severity, same_disk in *; by rewrite H1). destruct H as [[-> ->]|(u1 & -> & ->)]; [by left|right; by exists u1].
  - left. by apply (unread_ran _ _ _ _ _ (unread_look o world app dep replicas states states' containers now Hname) E).
  - left. by apply (unread_ran _ _ _ _ _ (unread_dockerAnswers o world now) E).
  - by left.
  - left. split; [done|]. unfold disk_severity, severity. cbn. rewrite map_lookup_filter. destruct (active w0 !! disk_key); [|done]. cbn. by rewrite option_guard_True.
Qed.

(** The disk's alert is critical exactly from a reading of at least 95
    percent to the first one below 90, and stands exactly from a reading of the
    configured percentage to the first one five points below it, whatever else
    is looked at in between and however often the disk could not be measured. *)
Theorem disk_alert_stands (steady : bool) (o : alert_options) (Hp : 50 ≤ AlertDiskPercent o ≤ 94) (h : list event) (w : watch) (Hw : watched steady o h w) :
  (severity w disk_key = Some SeverityCritical ↔ standing diskCriticalPercent (diskCriticalPercent - diskClearMargin) (readings h)) ∧
  (is_Some (severity w disk_key) ↔ standing (AlertDiskPercent o) (AlertDiskPercent o - diskClearMargin) (readings h)).
Proof.
  assert (∃ was, disk_severity w = as_severity was ∧ (was = "" ∨ was = SeverityWarning ∨ was = SeverityCritical) ∧
    (was = SeverityCritical ↔ standing diskCriticalPercent (diskCriticalPercent - diskClearMargin) (readings h)) ∧
    (was ≠ "" ↔ standing (AlertDiskPercent o) (AlertDiskPercent o - diskClearMargin) (readings h))) as (was & E & H1 & H2 & H3).
  { induction Hw as [|h w evs w' _ (was & E & H1 & H2 & H3) Hs].
    - exists "". split; [done|]. split; [by left|]. split; (split; [done|]); intros (before & u & after & Hnil & _); by destruct before.
    - rewrite readings_app. destruct (handled_disk steady o w evs w' Hs) as [[-> ->]|(u & -> & ->)]; [rewrite app_nil_r; by exists was|].
      assert (default "" (disk_severity w) = was) as -> by (rewrite E; by destruct H1 as [->|[->| ->]]). eexists. split; [done|]. by apply diskSeverity_next. }
  unfold disk_severity in E. rewrite E, <- H2, <- H3. clear. unfold as_severity. destruct (String.eqb_spec was "") as [->|Hne].
  - split; [by split; [intros ?|intros [=]]|split; [by intros []|done]].
  - split; [split; congruence|split; [done|by eexists]].
Qed.

(** A disk of a hundred gigabytes that fills up. *)
Definition plain_options : alert_options := mk_alert_options minute 90 85 true.
Definition with_disk (used : Z) (_ : list event) (c : acall) : aanswer c :=
  match c with
  | ANow => 0
  | ACtxErr => false
  | AMemoryUnenforced => true
  | AListContainers => inr []
  | ADiskUsage => Some (mk_disk (used * 2 ^ 30) (100 * 2 ^ 30))
  | AActiveDeployments => inl []
  | ARecentSamples _ _ => inr []
  | AAddEvent _ _ _ _ | APruneEvents _ => None
  | ALog _ _ | ANotify _ | APanic => tt
  end.
Definition filled (used : Z) (w : watch) : watch * list event := (checkAlerts plain_options (with_disk used) 0 (w, [])).2.
Definition full : watch * list event := filled 96 nothing_yet.
Definition drained : watch * list event := filled 88 full.1.
Lemma watched_filled used h w : watched true plain_options h w → watched true plain_options ((filled used w).2 ++ h)%list (filled used w).1.
Proof.
  intros H. eapply watched_step; [exact H|]. apply (handled_samples true plain_options (with_disk used) 0). unfold filled. by destruct (checkAlerts _ _ _ _) as [[] [? ?]].
Qed.
Lemma watched_drained : watched true plain_options (drained.2 ++ full.2 ++ [])%list drained.1.
Proof. apply watched_filled, watched_filled, watched_start. Qed.
Example disk_alert_stands_witness : readings (drained.2 ++ full.2 ++ []) = [mk_disk (96 * 2 ^ 30) (100 * 2 ^ 30); mk_disk (88 * 2 ^ 30) (100 * 2 ^ 30)] ∧
  standing 85 (85 - 5) (readings (drained.2 ++ full.2 ++ [])) ∧ ¬ standing 95 (95 - 5) (readings (drained.2 ++ full.2 ++ [])).
Proof.
  assert (50 ≤ AlertDiskPercent plain_options ≤ 94) as Hp by (cbn; lia). destruct (disk_alert_stands true plain_options Hp _ _ watched_drained) as [H1 H2].
  split; [vm_compute; reflexivity|]. split; [apply H2; vm_compute; by eexists|]. intros H. apply H1 in H. vm_compute in H. discriminate.
Defined.
