(* ===== verification/Secrets.v ===== *)
(** * Secrets (agent/internal/store/secrets.go, agent/internal/deploy/secrets.go)

    A secret belongs to the server or to one application, and its value is
    sealed under a label that names both.  A specification that refers to
    secrets has the placeholders in its env values, its basic-auth passwords
    and the secret log options filled in before it is recorded.  The table is
    its rows; a statement that the database refuses changes nothing and is left
    out, and the cipher is a parameter (Crypto.v). *)

From stdpp Require Import sorting.
From S2P Require Import Prelude GoStrings GoTime SpecTypes SpecNames SpecValidate Crypto SpecReferences.
From Stdlib Require Import Ascii String.
Local Open Scope string_scope.

(** ** The table *)

Definition MaxSecrets : nat := 500.
Record secret_row := mk_secret { sr_Application : string; sr_Name : string; sr_Label : string; sr_Value : string; sr_CreatedAt : Time; sr_UpdatedAt : Time }.
Record ResolvedSecret := mk_resolved { rs_Value : string; rs_Application : string }.
Inductive secret_error := TooManySecrets | SecretNotFound | SecretFailure (e : text).

Definition secretLabel (application name : string) : string := if String.eqb application "" then name else "applications/" ++ application ++ "/secrets/" ++ name.
Definition secretName (application name : string) : string := if String.eqb application "" then name else name ++ " of " ++ application.
Definition is_secret (application name : string) (r : secret_row) : bool := String.eqb (sr_Application r) application && String.eqb (sr_Name r) name.
(** ON CONFLICT (application, name) DO UPDATE. *)
Definition with_value (value : string) (now : Time) (r : secret_row) : secret_row :=
  mk_secret (sr_Application r) (sr_Name r) (sr_Label r) value (sr_CreatedAt r) now.
Definition upsert (application name label value : string) (now : Time) (t : list secret_row) : list secret_row :=
  if existsb (is_secret application name) t
  then (λ r, if is_secret application name r then with_value value now r else r) <$> t
  else (t ++ [mk_secret application name label value now now])%list.

(** [aead] None: a database in memory, where nothing is sealed. *)
Definition SetSecret (aead : option AEAD) (nonce : string → result string) (t : list secret_row) (application name value : string) (now : Time) : secret_error + list secret_row :=
  let label := secretLabel application name in
  match (match aead with None => Ok value | Some A => seal nonce label value end) with
  | Err e => inl (SecretFailure (L "encrypt secret " :: S' (secretName application name) :: L ": " :: e))
  | Ok stored =>
      if (MaxSecrets <=? List.length (List.filter (λ r, negb (is_secret application name r)) t))%nat then inl TooManySecrets else
      inr (upsert application name label stored now t)
  end.
Definition DeleteSecret (t : list secret_row) (application name : string) : secret_error + list secret_row :=
  if existsb (is_secret application name) t then inr (List.filter (λ r, negb (is_secret application name r)) t) else inl SecretNotFound.
(** ORDER BY name, application. *)
Definition secret_le (a b : secret_row) : Prop := str_le (sr_Name a) (sr_Name b) ∧ (sr_Name a = sr_Name b → str_le (sr_Application a) (sr_Application b)).
#[export] Instance secret_le_dec a b : Decision (secret_le a b).
Proof. unfold secret_le. apply _. Defined.
Definition ListSecrets (t : list secret_row) : list (string * string * Time * Time) :=
  (λ r, (sr_Application r, sr_Name r, sr_CreatedAt r, sr_UpdatedAt r)) <$> merge_sort secret_le t.

(** The application's own row, or the server's: '' sorts before every name. *)
Definition nearest_row (t : list secret_row) (application name : string) : option secret_row :=
  match List.find (is_secret application name) t with Some r => Some r | None => List.find (is_secret "" name) t end.
Definition read_secret (aead : option AEAD) (r : secret_row) : result string :=
  match aead with
  | None => Ok (sr_Value r)
  | Some A =>
      if negb (isSealed (sr_Value r)) then Err [L "secret "; S' (secretName (sr_Application r) (sr_Name r)); L " is stored unencrypted"]
      else open (secretLabel (sr_Application r) (sr_Name r)) (sr_Value r)
  end.
Fixpoint get_each (aead : option AEAD) (t : list secret_row) (application : string) (names : list string) (values : gmap string ResolvedSecret) : result (gmap string ResolvedSecret) :=
  match names with
  | [] => Ok values
  | name :: rest =>
      match nearest_row t application name with
      | None => get_each aead t application rest values
      | Some r => do! value := read_secret aead r in get_each aead t application rest (<[name := mk_resolved value (sr_Application r)]> values)
      end
  end.
Definition GetSecrets (aead : option AEAD) (t : list secret_row) (application : string) (names : list string) : result (gmap string ResolvedSecret) := get_each aead t application names ∅.

(** ** Filling in *)

(** ReplaceAllStringFunc: what a match becomes is not looked into again. *)
Fixpoint replace_from (f : bool → string → string) (fuel : nat) (s : string) : string :=
  match fuel, s with
  | S fuel, String c r =>
      match placeholder_at s with
      | Some (escaped, name, rest) => f escaped name ++ replace_from f fuel rest
      | None => String c (replace_from f fuel r)
      end
  | _, _ => ""
  end.
Definition braces (name : string) : string := "${" ++ name ++ "}".
Definition fill_match (secrets : gmap string ResolvedSecret) (escaped : bool) (name : string) : string :=
  if escaped then braces name else match secrets !! name with Some s => rs_Value s | None => braces name end.
Definition fill (secrets : gmap string ResolvedSecret) (value : string) : string := replace_from (fill_match secrets) (String.length value) value.

Record MissingSecret := mk_missing { ms_Variable : string; ms_Name : string; ms_Field : string }.
Definition field (m : MissingSecret) : string := if String.eqb (ms_Field m) "" then "env." ++ ms_Variable m else ms_Field m.
(** What a value refers to that is not there, by where the value stands. *)
Definition missing_in (secrets : gmap string ResolvedSecret) (variable where_ value : string) : list MissingSecret :=
  (λ name, mk_missing variable name where_) <$> List.filter (λ name, negb (bool_decide (is_Some (secrets !! name)))) (placeholderNames value).
Definition missing_le (a b : MissingSecret) : Prop := str_le (field a) (field b) ∧ (field a = field b → str_le (ms_Name a) (ms_Name b)).
#[export] Instance missing_le_dec a b : Decision (missing_le a b).
Proof. unfold missing_le. apply _. Defined.
Definition Fields (l : list MissingSecret) : list FieldError :=
  (λ m, mk_fieldError (field m) [L "refers to ${"; S' (ms_Name m); L "}, which is not set where shipwick runs and not stored on the server"] [L "shipwick secret set "; S' (ms_Name m)]) <$> l.

Inductive resolve_error := MaskedValues (l : list string) | ReadSecrets (e : text) | MissingSecrets (l : list MissingSecret) | UnusableSecret (l : list FieldError).

(** The values that are looked at. *)
Definition secret_values (app : App) : list string := ((map_to_list (a_Env app)).*2 ++ (ba_Password <$> accounts_of app) ++ (option_value app <$> SecretLogOptions app))%list.
Definition any_escaped (values : list string) : bool := existsb (λ v, existsb fst (Placeholder v)) values.
Definition names_of (values : list string) : list string := once (λ _, true) [] (flat_map placeholderNames values).
Definition filled_account (secrets : gmap string ResolvedSecret) (b : BasicAuth) : BasicAuth := with_password b (fill secrets (ba_Password b)).
(** A password that a secret was filled into, and is none. *)
Definition unusable_account (secrets : gmap string ResolvedSecret) (i : nat) (b : BasicAuth) : option FieldError :=
  match placeholderNames (ba_Password b), missing_in secrets "" (passwordName i) (ba_Password b) with
  | first :: rest, [] =>
      match ValidatePassword (fill secrets (ba_Password b)) with
      | Err e => Some (mk_fieldError (passwordName i) (L "with ${" :: S' (join "}, ${" (first :: rest)) :: L "} filled in from the server's secrets, the password " :: e) [L "shipwick secret set "; S' first])
      | Ok _ => None
      end
  | _, _ => None
  end.
Fixpoint fill_options (secrets : gmap string ResolvedSecret) (names : list string) (options : gmap string string) : gmap string string :=
  match names with [] => options | name :: rest => fill_options secrets rest (<[name := fill secrets (default "" (options !! name))]> options) end.
Definition filled_app (secrets : gmap string ResolvedSecret) (app : App) : App :=
  let app := with_env app (fill secrets <$> a_Env app) in
  let app := match a_Proxy app with Some p => with_proxy app (Some (with_accounts p (filled_account secrets <$> px_BasicAuth p))) | None => app end in
  match a_Logging app with Some l => with_logging app (Some (with_options l (fill_options secrets (SecretLogOptions app) (log_Options l)))) | None => app end.
Definition all_missing (secrets : gmap string ResolvedSecret) (app : App) : list MissingSecret :=
  (flat_map (λ e, missing_in secrets e.1 "" e.2) (map_to_list (a_Env app)) ++
   List.concat (imap (λ i b, missing_in secrets "" (passwordName i) (ba_Password b)) (accounts_of app)) ++
   flat_map (λ name, missing_in secrets "" (logOptionName name) (option_value app name)) (SecretLogOptions app))%list.
(** [get]: the values of the names as the application sees them. *)
Definition resolveSecrets (get : string → list string → result (gmap string ResolvedSecret)) (app : App) : resolve_error + (App * list string) :=
  match MaskedFields app with
  | (_ :: _) as masked => inl (MaskedValues masked)
  | [] =>
      let values := secret_values app in
      let names := names_of values in
      if bool_decide (names = []) && negb (any_escaped values) then inr (app, []) else
      match get (a_Name app) names with
      | Err e => inl (ReadSecrets (L "read secrets: " :: e))
      | Ok secrets =>
          let scoped := merge_sort str_le (List.filter (λ name, match secrets !! name with Some s => negb (String.eqb (rs_Application s) "") | None => false end) names) in
          match merge_sort missing_le (all_missing secrets app) with
          | (_ :: _) as missing => inl (MissingSecrets missing)
          | [] =>
              match omap id (imap (unusable_account secrets) (accounts_of app)) with
              | (_ :: _) as unusable => inl (UnusableSecret unusable)
              | [] => inr (filled_app secrets app, scoped)
              end
          end
      end
  end.
