(* ===== verification/SecretsInv.v ===== *)
(** * What the secrets come to

    The table answers what was last stored for the application, or else for the
    server, whatever was stored and removed; and a specification whose secrets
    were filled in is its document with every reference replaced once. *)

From stdpp Require Import sorting.
From S2P Require Import Prelude GoStrings GoTime SpecTypes SpecNames SpecValidate Crypto SpecReferences Secrets.
From Stdlib Require Import Ascii String.
Local Open Scope string_scope.

(** ** Filling in *)

Definition secret_name (n : string) : Prop := envKeyPattern n = true.
(** What a text is with its references filled in: text that is no reference
    stays, ${NAME} becomes the secret, $${NAME} becomes ${NAME}. *)
Inductive fills (secrets : gmap string ResolvedSecret) : string → string → Prop :=
  | fills_nil : fills secrets "" ""
  | fills_text c s s' : placeholder_at (String c s) = None → fills secrets s s' → fills secrets (String c s) (String c s')
  | fills_reference n v s s' : secret_name n → secrets !! n = Some v → fills secrets s s' → fills secrets (braces n ++ s) (rs_Value v ++ s')
  | fills_escaped n s s' : secret_name n → fills secrets s s' → fills secrets ("$" ++ braces n ++ s) (braces n ++ s').

Lemma env_name_spec s : let '(a, b) := env_name s in s = a ++ b ∧ str_forall env_char a = true.
Proof.
  induction s as [|c s IH]; [done|]. cbn [env_name]. destruct (env_char c) eqn:E; [|done]. destruct (env_name s) as [a b]. destruct IH as [-> H]. split; [done|]. cbn. by rewrite E.
Qed.
Ltac other_char c := exfalso; destruct c as [b1 b2 b3 b4 b5 b6 b7 b8]; destruct b1, b2, b3, b4, b5, b6, b7, b8; try discriminate; congruence.
Lemma braced_spec s n rest : braced s = Some (n, rest) → s = "{" ++ n ++ "}" ++ rest ∧ secret_name n.
Proof.
  unfold braced. destruct s as [|c r]; [done|]. destruct (ascii_dec c "{"%char) as [->|Hc].
  2:{ intros H. other_char c. }
  pose proof (env_name_spec r) as Hr. destruct (env_name r) as [a b]. destruct Hr as [-> Ha]. destruct b as [|d b]; [done|]. destruct (ascii_dec d "}"%char) as [->|Hd].
  2:{ intros H. other_char d. }
  destruct (first_is env_first a) eqn:E; [|done]. intros [= <- <-]. split; [done|]. unfold secret_name, envKeyPattern. by rewrite E, Ha.
Qed.
Lemma placeholder_at_spec s escaped n rest : placeholder_at s = Some (escaped, n, rest) → s = (if escaped then "$" else "") ++ braces n ++ rest ∧ secret_name n.
Proof.
  unfold placeholder_at. destruct s as [|c r]; [done|]. destruct (ascii_dec c "$"%char) as [->|Hc].
  2:{ intros H. other_char c. }
  assert (match r with String "$" r' => False | _ => True end ∨ ∃ r', r = String "$" r') as [Hr|[r' ->]].
  { destruct r as [|d r']; [by left|]. destruct (ascii_dec d "$"%char) as [->|Hd]; [right; by exists r'|left]. destruct d as [b1 b2 b3 b4 b5 b6 b7 b8]. destruct b1, b2, b3, b4, b5, b6, b7, b8; try done; by apply Hd. }
  - intros H. assert (match braced r with Some (n, rest) => Some (false, n, rest) | None => None end = Some (escaped, n, rest)) as Hb.
    { destruct r as [|d r']; [done|]. destruct d as [b1 b2 b3 b4 b5 b6 b7 b8]. destruct b1, b2, b3, b4, b5, b6, b7, b8; try exact H; done. }
    destruct (braced r) as [[n' rest']|] eqn:E; [|done]. injection Hb as <- <- <-. apply braced_spec in E as [-> Hn]. split; [|done]. unfold braces. cbn. by rewrite string_app_assoc.
  - destruct (braced r') as [[n' rest']|] eqn:E; [|done]. intros [= <- <- <-]. apply braced_spec in E as [-> Hn]. split; [|done]. unfold braces. cbn. by rewrite string_app_assoc.
Qed.
Lemma placeholder_shorter s escaped n rest : placeholder_at s = Some (escaped, n, rest) → (String.length rest < String.length s)%nat.
Proof. intros [-> _]%placeholder_at_spec. unfold braces. rewrite !string_length_app. cbn. lia. Qed.

(** Every name that is found is one. *)
Lemma fill_fills secrets : ∀ fuel s, (String.length s ≤ fuel)%nat → (∀ n, (false, n) ∈ find_placeholders fuel s → is_Some (secrets !! n)) → fills secrets s (replace_from (fill_match secrets) fuel s).
Proof.
  induction fuel as [|fuel IH]; intros s Hl Hn; [destruct s; [constructor|cbn in Hl; lia]|]. destruct s as [|c s]; [constructor|]. cbn [replace_from find_placeholders] in *. destruct (placeholder_at (String c s)) as [[[escaped n] rest]|] eqn:E.
  - pose proof (placeholder_shorter _ _ _ _ E) as Hlt. apply placeholder_at_spec in E as [E Hname]. rewrite E. clear E. cbn [String.length] in *.
    assert (fills secrets rest (replace_from (fill_match secrets) fuel rest)) as Hr by (apply IH; [lia|intros m Hm; apply Hn; by right]).
    destruct escaped; cbn [fill_match]; [by apply fills_escaped|]. destruct (Hn n) as [v Hv]; [by left|]. rewrite Hv. by apply fills_reference.
  - apply fills_text; [done|]. apply IH; [cbn in Hl; lia|done].
Qed.
Lemma fill_spec secrets value : (∀ n, n ∈ placeholderNames value → is_Some (secrets !! n)) → fills secrets value (fill secrets value).
Proof.
  intros H. apply fill_fills; [done|]. intros n Hn. apply H. unfold placeholderNames. apply list_elem_of_fmap. exists (false, n). split; [done|]. by apply list_elem_of_filter.
Qed.
(** There is one way to fill in a text. *)
Lemma fill_nothing secrets fuel s : find_placeholders fuel s = [] → (String.length s ≤ fuel)%nat → replace_from (fill_match secrets) fuel s = s.
Proof.
  revert s. induction fuel as [|fuel IH]; intros s H Hl; [destruct s; [done|cbn in Hl; lia]|]. destruct s as [|c s]; [done|]. cbn [replace_from find_placeholders] in *. destruct (placeholder_at (String c s)) as [[[escaped n] rest]|]; [done|]. f_equal. apply IH; [done|cbn in Hl; lia].
Qed.
Lemma nothing_to_fill secrets value : placeholderNames value = [] → existsb fst (Placeholder value) = false → fill secrets value = value.
Proof.
  intros H1 H2. apply fill_nothing; [|done]. change (find_placeholders (String.length value) value) with (Placeholder value). unfold placeholderNames in H1. destruct (Placeholder value) as [|[[] n] l]; [done|done|]. by rewrite filter_cons_True in H1.
Qed.

(** Where a document refers to a secret. *)
Inductive refers (app : App) : MissingSecret → Prop :=
  | in_env variable value name : a_Env app !! variable = Some value → name ∈ placeholderNames value → refers app (mk_missing variable name "")
  | in_password i b name : accounts_of app !! i = Some b → name ∈ placeholderNames (ba_Password b) → refers app (mk_missing "" name (passwordName i))
  | in_option o name : o ∈ SecretLogOptions app → name ∈ placeholderNames (option_value app o) → refers app (mk_missing "" name (logOptionName o)).

Lemma missing_in_spec secrets variable where_ value m : m ∈ missing_in secrets variable where_ value ↔
  ∃ name, m = mk_missing variable name where_ ∧ name ∈ placeholderNames value ∧ secrets !! name = None.
Proof.
  unfold missing_in. rewrite list_elem_of_fmap. apply exist_proper. intros name. f_equiv. rewrite list_elem_of_In, List.filter_In, <- list_elem_of_In, negb_true_iff, bool_decide_eq_false, eq_None_not_Some. tauto.
Qed.
Lemma in_concat_imap {A B} (f : nat → A → list B) l x : x ∈ List.concat (imap f l) ↔ ∃ i a, l !! i = Some a ∧ x ∈ f i a.
Proof.
  rewrite list_elem_of_In, in_concat. setoid_rewrite <- list_elem_of_In. split.
  - intros (y & Hy & Hx). apply list_elem_of_lookup in Hy as [i Hi]. rewrite list_lookup_imap in Hi. destruct (l !! i) as [a|] eqn:E; [|done]. injection Hi as <-. by exists i, a.
  - intros (i & a & Hi & Hx). exists (f i a). split; [|done]. apply list_elem_of_lookup. exists i. by rewrite list_lookup_imap, Hi.
Qed.
Lemma in_flat_map' {A B} (f : A → list B) l x : x ∈ flat_map f l ↔ ∃ a, a ∈ l ∧ x ∈ f a.
Proof. rewrite list_elem_of_In, in_flat_map. by setoid_rewrite <- list_elem_of_In. Qed.
Lemma all_missing_spec secrets app m : m ∈ all_missing secrets app ↔ refers app m ∧ secrets !! ms_Name m = None.
Proof.
  unfold all_missing. rewrite !elem_of_app, in_concat_imap, !in_flat_map'. setoid_rewrite missing_in_spec. split.
  - intros [([k v] & Hk & n & -> & Hn & Hs)|[(i & b & Hi & n & -> & Hn & Hs)|(o & Ho & n & -> & Hn & Hs)]]; (split; [|done]).
    + apply elem_of_map_to_list in Hk. by eapply in_env.
    + by eapply in_password.
    + by eapply in_option.
  - intros [[k v n Hk Hn|i b n Hi Hn|o n Ho Hn] Hs]; cbn in Hs.
    + left. exists (k, v). split; [by apply elem_of_map_to_list|]. by exists n.
    + right; left. exists i, b. split; [done|]. by exists n.
    + right; right. exists o. split; [done|]. by exists n.
Qed.

Lemma str_le_refl x : str_le x x.
Proof. by destruct (total str_le x x). Qed.
#[export] Instance missing_le_total : Total missing_le.
Proof.
  intros x y. unfold missing_le. destruct (decide (field x = field y)) as [E|E].
  - rewrite E. destruct (total str_le (ms_Name x) (ms_Name y)); [left|right]; (split; [apply str_le_refl|done]).
  - destruct (total str_le (field x) (field y)); [left|right]; (split; [done|congruence]).
Qed.

(** A document with its secrets filled in. *)
Definition filled_in (secrets : gmap string ResolvedSecret) (app filled : App) : Prop :=
  Redacted filled = Redacted app ∧
  (∀ k, option_Forall2 (fills secrets) (a_Env app !! k) (a_Env filled !! k)) ∧
  Forall2 (λ b b', fills secrets (ba_Password b) (ba_Password b')) (accounts_of app) (accounts_of filled) ∧
  (∀ o, o ∈ SecretLogOptions app → fills secrets (option_value app o) (option_value filled o)).
(** A basic-auth password that a secret was filled into and that is none. *)
Definition unusable (secrets : gmap string ResolvedSecret) (app : App) (where_ : string) : Prop :=
  ∃ i b e, where_ = passwordName i ∧ accounts_of app !! i = Some b ∧ placeholderNames (ba_Password b) ≠ [] ∧ ValidatePassword (fill secrets (ba_Password b)) = Err e.

Lemma env_filled secrets app : (∀ m, refers app m → is_Some (secrets !! ms_Name m)) →
  ∀ k, option_Forall2 (fills secrets) (a_Env app !! k) ((fill secrets <$> a_Env app) !! k).
Proof.
  intros H k. rewrite lookup_fmap. destruct (a_Env app !! k) as [v|] eqn:E; constructor. apply fill_spec. intros n Hn. apply (H (mk_missing k n "")). by eapply in_env.
Qed.
Lemma passwords_filled secrets app : (∀ m, refers app m → is_Some (secrets !! ms_Name m)) →
  Forall2 (λ b b', fills secrets (ba_Password b) (ba_Password b')) (accounts_of app) (filled_account secrets <$> accounts_of app).
Proof.
  intros H. apply Forall2_fmap_r, Forall_Forall2_diag, Forall_lookup. intros i b Hi. cbn. apply fill_spec. intros n Hn. apply (H (mk_missing "" n (passwordName i))). by eapply in_password.
Qed.

Lemma filled_env secrets app : a_Env (filled_app secrets app) = fill secrets <$> a_Env app.
Proof. unfold filled_app. cbn [a_Proxy with_env]. destruct (a_Proxy app); cbn [a_Logging with_env with_proxy]; by destruct (a_Logging app). Qed.
Lemma filled_accounts secrets app : accounts_of (filled_app secrets app) = filled_account secrets <$> accounts_of app.
Proof.
  unfold filled_app, accounts_of. cbn [a_Proxy with_env]. destruct (a_Proxy app) eqn:E; cbn [a_Logging with_env with_proxy]; destruct (a_Logging app); cbn [a_Proxy with_logging with_proxy with_env]; by rewrite ?E.
Qed.
Lemma filled_logging secrets app : a_Logging (filled_app secrets app) = (λ l, with_options l (fill_options secrets (SecretLogOptions app) (log_Options l))) <$> a_Logging app.
Proof.
  unfold filled_app. cbn [a_Proxy with_env]. destruct (a_Proxy app); cbn [a_Logging with_env with_proxy]; destruct (a_Logging app) eqn:E; cbn [fmap option_fmap option_map a_Logging with_logging with_proxy with_env]; rewrite ?E; try done; by unfold SecretLogOptions; cbn [a_Logging with_proxy with_env]; rewrite ?E.
Qed.
Lemma options_filled secrets app : (∀ m, refers app m → is_Some (secrets !! ms_Name m)) →
  ∀ o, o ∈ SecretLogOptions app → fills secrets (option_value app o) (option_value (filled_app secrets app) o).
Proof.
  intros H o Ho. assert (fills secrets (option_value app o) (fill secrets (option_value app o))) as Hf.
  { apply fill_spec. intros n Hn. apply (H (mk_missing "" n (logOptionName o))). by eapply in_option. }
  revert Hf. unfold option_value at 4. rewrite filled_logging. unfold option_value. destruct (a_Logging app) as [l|] eqn:E; [|by unfold SecretLogOptions in Ho; rewrite E in Ho; apply elem_of_nil in Ho].
  cbn. destruct (SecretLogOptions_cases app l E) as [[E2 _]|(v & E2 & Hv)]; rewrite E2 in *; [by apply elem_of_nil in Ho|]. apply list_elem_of_singleton in Ho as ->. cbn. by rewrite lookup_insert_eq.
Qed.
(** Nothing but the secrets differs. *)
Lemma redacted_filled secrets app : Redacted (filled_app secrets app) = Redacted app.
Proof.
  transitivity (Redacted (with_logging (with_proxy (with_env app (fill secrets <$> a_Env app)) ((λ p, with_accounts p (filled_account secrets <$> px_BasicAuth p)) <$> a_Proxy app)) ((λ l, with_options l (fill_options secrets (SecretLogOptions app) (log_Options l))) <$> a_Logging app))).
  { f_equal. unfold filled_app, accounts_of, SecretLogOptions. destruct app as [? ? ? ? ? ? ? ? ? ? ? ? ? ? ? ? ? lg ? ? ? px]. cbn. by destruct px, lg. }
  unfold Redacted. cbn. f_equal.
  - destruct (decide (a_Env app = ∅)) as [->|H]; [by rewrite fmap_empty|]. rewrite !bool_decide_eq_false_2; [by rewrite <- map_fmap_compose|done|by rewrite fmap_empty_iff].
  - destruct (a_Logging app) as [l|] eqn:E; [|done]. cbn. destruct (SecretLogOptions_cases app l E) as [[-> _]|(v & -> & Hv)]; cbn; [by destruct l|].
    assert (log_Options l ≠ ∅) as H1 by (intros H; by rewrite H in Hv). rewrite !bool_decide_eq_false_2; [|done|apply insert_non_empty].
    do 2 f_equal. apply map_eq. intros k. rewrite !map_lookup_imap. destruct (decide (k = "splunk-token")) as [->|Hk]; [by rewrite lookup_insert_eq, Hv|by rewrite lookup_insert_ne].
  - destruct (a_Proxy app) as [p|]; [|done]. cbn. destruct (px_BasicAuth p) as [|b l] eqn:E.
    + destruct p; cbn in *. by subst.
    + rewrite !bool_decide_eq_false_2 by done. cbn. do 3 f_equal. rewrite <- list_fmap_compose. by f_equal.
Qed.
Lemma filled_app_in secrets app : (∀ m, refers app m → is_Some (secrets !! ms_Name m)) → filled_in secrets app (filled_app secrets app).
Proof.
  intros H. split_and!; [apply redacted_filled| |rewrite filled_accounts; by apply passwords_filled|by apply options_filled].
  rewrite filled_env. by apply env_filled.
Qed.

(** ** What is resolved *)

Lemma names_of_spec values : NoDup (names_of values) ∧ ∀ n, n ∈ names_of values ↔ ∃ v, v ∈ values ∧ n ∈ placeholderNames v.
Proof.
  destruct (once_spec (λ _, true) [] (flat_map placeholderNames values)) as [H1 H2]; [constructor|]. split; [done|]. intros n. unfold names_of. rewrite H2, in_flat_map', elem_of_nil. tauto.
Qed.
Lemma secret_values_spec app v : v ∈ secret_values app ↔
  (∃ k, a_Env app !! k = Some v) ∨ (∃ i b, accounts_of app !! i = Some b ∧ v = ba_Password b) ∨ (∃ o, o ∈ SecretLogOptions app ∧ v = option_value app o).
Proof.
  unfold secret_values. rewrite !elem_of_app, !list_elem_of_fmap. f_equiv; [|f_equiv].
  - split; [intros ([k w] & -> & Hk%elem_of_map_to_list); by exists k|]. intros [k Hk%elem_of_map_to_list]. by exists (k, v).
  - split; [intros (b & -> & [i Hi]%list_elem_of_lookup); by exists i, b|]. intros (i & b & Hi & ->). exists b. split; [done|by eapply list_elem_of_lookup_2].
  - split; intros (o & H1 & H2); by exists o.
Qed.
Lemma values_refer app n : (∃ v, v ∈ secret_values app ∧ n ∈ placeholderNames v) ↔ ∃ m, refers app m ∧ ms_Name m = n.
Proof.
  setoid_rewrite secret_values_spec. split.
  - intros (v & [[k Hk]|[(i & b & Hi & ->)|(o & Ho & ->)]] & Hn); eexists (mk_missing _ n _); (split; [|done]); [by eapply in_env|by eapply in_password|by eapply in_option].
  - intros (m & [k v n' Hk Hn|i b n' Hi Hn|o n' Ho Hn] & <-); eexists; (split; [|exact Hn]); eauto 8.
Qed.
(** The names that are asked for, and what was answered. *)
Definition asked (get : string → list string → result (gmap string ResolvedSecret)) (app : App) (answer : result (gmap string ResolvedSecret)) : Prop :=
  ∃ names, NoDup names ∧ (∀ n, n ∈ names ↔ ∃ m, refers app m ∧ ms_Name m = n) ∧ get (a_Name app) names = answer.
Lemma asked_names get app : asked get app (get (a_Name app) (names_of (secret_values app))).
Proof.
  destruct (names_of_spec (secret_values app)) as [H1 H2]. exists (names_of (secret_values app)). split_and!; [done| |done]. intros n. by rewrite H2, values_refer.
Qed.
Definition no_missing (secrets : gmap string ResolvedSecret) (app : App) : Prop := ∀ m, refers app m → is_Some (secrets !! ms_Name m).
Lemma none_missing secrets app : all_missing secrets app = [] → no_missing secrets app.
Proof.
  intros H m Hm. destruct (secrets !! ms_Name m) eqn:E; [done|]. assert (m ∈ all_missing secrets app) as Ha by by apply all_missing_spec. rewrite H in Ha. by apply elem_of_nil in Ha.
Qed.
Lemma sorted_nil {A} (R : A → A → Prop) `{∀ x y, Decision (R x y)} l : merge_sort R l = [] → l = [].
Proof. intros H0. apply Permutation_nil. rewrite <- H0. apply merge_sort_Permutation. Qed.
Lemma unusable_fields secrets app : no_missing secrets app → ∀ w, w ∈ Field <$> omap id (imap (unusable_account secrets) (accounts_of app)) ↔ unusable secrets app w.
Proof.
  intros Hm w. rewrite list_elem_of_fmap. setoid_rewrite list_elem_of_omap. assert (∀ i b, accounts_of app !! i = Some b → missing_in secrets "" (passwordName i) (ba_Password b) = []) as Hnone.
  { intros i b Hi. destruct (missing_in _ _ _ _) as [|m l] eqn:E; [done|]. assert (m ∈ m :: l) as Hin by by left. rewrite <- E, missing_in_spec in Hin. destruct Hin as (n & -> & Hn & Hs). destruct (Hm (mk_missing "" n (passwordName i))) as [v Hv]; [by eapply in_password|]. cbn in Hv. congruence. }
  split.
  - intros (f & -> & x & Hx & Hf). apply list_elem_of_lookup in Hx as [i Hi]. rewrite list_lookup_imap in Hi. destruct (accounts_of app !! i) as [b|] eqn:E; [|done]. injection Hi as <-. cbn in Hf. unfold unusable_account in Hf. rewrite (Hnone _ _ E) in Hf. destruct (placeholderNames (ba_Password b)) as [|first rest] eqn:En; [done|]. destruct (ValidatePassword _) as [|e] eqn:Ev; [done|]. injection Hf as <-. exists i, b, e. by rewrite En.
  - intros (i & b & e & -> & Hi & Hn & Hv). destruct (placeholderNames (ba_Password b)) as [|first rest] eqn:En; [done|]. eexists (mk_fieldError _ _ _). split; [reflexivity|]. eexists (Some _). split; [|reflexivity]. apply list_elem_of_lookup. exists i. rewrite list_lookup_imap, Hi. cbn. unfold unusable_account. by rewrite En, (Hnone _ _ Hi), Hv.
Qed.
Definition scoped_names (secrets : gmap string ResolvedSecret) (app : App) (scoped : list string) : Prop :=
  StronglySorted str_le scoped ∧ NoDup scoped ∧ ∀ n, n ∈ scoped ↔ ∃ m s, refers app m ∧ ms_Name m = n ∧ secrets !! n = Some s ∧ rs_Application s ≠ "".

(** The secrets an answer named that are the application's own. *)
Definition own_of (secrets : gmap string ResolvedSecret) (names : list string) : list string :=
  List.filter (λ name, match secrets !! name with Some s => negb (String.eqb (rs_Application s) "") | None => false end) names.
Lemma scoped_sorted secrets app : scoped_names secrets app (merge_sort str_le (own_of secrets (names_of (secret_values app)))).
Proof.
  destruct (names_of_spec (secret_values app)) as [H1 H2]. assert (merge_sort str_le (own_of secrets (names_of (secret_values app))) ≡ₚ own_of secrets (names_of (secret_values app))) as Hp by apply merge_sort_Permutation.
  split_and!; [apply (StronglySorted_merge_sort _)|rewrite Hp; apply NoDup_ListNoDup, List.NoDup_filter; by apply NoDup_ListNoDup|]. intros n. rewrite Hp. unfold own_of. rewrite list_elem_of_In, List.filter_In, <- list_elem_of_In, H2, values_refer. split.
  - intros [(m & Hm & <-) Hs]. destruct (secrets !! ms_Name m) as [s|] eqn:E; [|done]. apply negb_true_iff, String.eqb_neq in Hs. by exists m, s.
  - intros (m & s & Hm & <- & E & Hs). split; [by exists m|]. rewrite E. by apply negb_true_iff, String.eqb_neq.
Qed.
(** With nothing to fill in, a document is its own filling. *)
Lemma nothing_refers app : names_of (secret_values app) = [] → ∀ m, ¬ refers app m.
Proof.
  intros H m Hm. destruct (names_of_spec (secret_values app)) as [_ H2]. specialize (H2 (ms_Name m)). rewrite H, values_refer, elem_of_nil in H2. apply H2. by exists m.
Qed.
Lemma untouched app : names_of (secret_values app) = [] → any_escaped (secret_values app) = false → filled_in ∅ app app.
Proof.
  intros Hn He. assert (∀ v, v ∈ secret_values app → fills ∅ v v) as Hf.
  { intros v Hv. assert (placeholderNames v = []) as Hp.
    { destruct (names_of_spec (secret_values app)) as [_ H2]. destruct (placeholderNames v) as [|n l] eqn:E; [done|]. specialize (H2 n). rewrite Hn, elem_of_nil in H2. exfalso. apply H2. exists v. rewrite E. split; [done|by left]. }
    rewrite <- (nothing_to_fill ∅ v Hp) at 2.
    - apply fill_spec. rewrite Hp. by intros n ?%elem_of_nil.
    - apply not_true_iff_false. intros Ht. apply not_true_iff_false in He. apply He. unfold any_escaped. apply existsb_exists. exists v. by rewrite <- list_elem_of_In. }
  setoid_rewrite secret_values_spec in Hf. split_and!; [done| | |].
  - intros k. destruct (a_Env app !! k) eqn:E; constructor. apply Hf. left. by exists k.
  - apply Forall_Forall2_diag, Forall_lookup. intros i b Hi. apply Hf. right; left. by exists i, b.
  - intros o Ho. apply Hf. right; right. by exists o.
Qed.

(** What the resolution of a document may come to. *)
Definition resolution (get : string → list string → result (gmap string ResolvedSecret)) (app : App) (out : resolve_error + (App * list string)) : Prop :=
  match out with
  | inl (MaskedValues l) => l = MaskedFields app ∧ l ≠ []
  | inl (ReadSecrets e) => MaskedFields app = [] ∧ ∃ e', e = L "read secrets: " :: e' ∧ asked get app (Err e')
  | inl (MissingSecrets l) => MaskedFields app = [] ∧ l ≠ [] ∧ StronglySorted missing_le l ∧
      ∃ secrets, asked get app (Ok secrets) ∧ ∀ m, m ∈ l ↔ refers app m ∧ secrets !! ms_Name m = None
  | inl (UnusableSecret l) => MaskedFields app = [] ∧ l ≠ [] ∧
      ∃ secrets, asked get app (Ok secrets) ∧ no_missing secrets app ∧ ∀ w, w ∈ Field <$> l ↔ unusable secrets app w
  | inr (filled, scoped) => MaskedFields app = [] ∧
      ∃ secrets, (asked get app (Ok secrets) ∨ (filled = app ∧ secrets = ∅ ∧ ∀ m, ¬ refers app m)) ∧
        no_missing secrets app ∧ (∀ w, ¬ unusable secrets app w) ∧ filled_in secrets app filled ∧ scoped_names secrets app scoped
  end.

#[export] Instance missing_le_trans : Transitive missing_le.
Proof.
  intros x y z [H1 H2] [H3 H4]. split; [by etransitivity|]. intros E. assert (field x = field y) as E1 by (apply (anti_symm str_le); [done|by rewrite E]). etransitivity; [by apply H2|]. apply H4. congruence.
Qed.

Lemma resolveSecrets_resolution (get : string → list string → result (gmap string ResolvedSecret)) (app : App) :
  resolution get app (resolveSecrets get app).
Proof.
  unfold resolveSecrets. destruct (MaskedFields app) as [|w l] eqn:Em; [|by split]. cbv zeta.
  destruct (bool_decide (names_of (secret_values app) = []) && negb (any_escaped (secret_values app))) eqn:E0.
  { bools. apply bool_decide_eq_true in H. pose proof (nothing_refers app H) as Hr. split; [done|]. exists ∅. split_and!; [by right|by intros m ?%Hr| |by apply untouched|split_and!; [constructor..|]].
    - intros w (i & b & e & _ & Hi & Hn & _). destruct (placeholderNames (ba_Password b)) as [|n ns] eqn:E; [done|]. apply (Hr (mk_missing "" n (passwordName i))). eapply in_password; [done|]. rewrite E. by left.
    - intros n. rewrite elem_of_nil. split; [done|]. by intros (m & s & ?%Hr & _). }
  pose proof (asked_names get app) as Ha. destruct (get (a_Name app) (names_of (secret_values app))) as [secrets|e]; [|by split; [done|exists e]].
  destruct (merge_sort missing_le (all_missing secrets app)) as [|m l] eqn:E1.
  - apply sorted_nil, none_missing in E1. pose proof (unusable_fields secrets app E1) as Hu. destruct (omap id _) as [|f l].
    + split; [done|]. exists secrets. split_and!; [by left|done| |by apply filled_app_in|apply scoped_sorted]. intros w Hw%Hu. by apply elem_of_nil in Hw.
    + split_and!; [done..|]. by exists secrets.
  - rewrite <- E1. split_and!; [done|by rewrite E1|apply (StronglySorted_merge_sort _)|]. exists secrets. split; [done|]. intros m'. rewrite <- all_missing_spec. by rewrite merge_sort_Permutation.
Qed.

(** C12: what a document with references to secrets comes to, on every branch:
    a masked value is refused before anything is read; the store is asked once
    for exactly the names that are referred to, each once; a reference it does
    not answer is reported, with every other one and none else, in order; a
    password that is none once its secret is known is refused, and only such a
    one; otherwise every value of the environment, every password and every
    secret log option is its text with each reference replaced once by its
    value ($${NAME} by ${NAME}) and what a value holds not looked into again,
    nothing else differs, and the recorded names are those the application's
    own secrets answered. *)
Theorem secrets_filled (get : string → list string → result (gmap string ResolvedSecret)) (app : App) :
  resolution get app (resolveSecrets get app).
Proof. apply resolveSecrets_resolution. Qed.

(** ** What the table holds *)

Abbreviation vault := (gmap (string * string) string).
Definition key (r : secret_row) : string * string := (sr_Application r, sr_Name r).
(** A value is sealed under the label its row names. *)
Definition stored_for (aead : option AEAD) (r : secret_row) (v : string) : Prop :=
  sr_Label r = secretLabel (sr_Application r) (sr_Name r) ∧ read_secret aead r = Ok v ∧ (is_Some aead → isSealed (sr_Value r) = true).
Definition holds (aead : option AEAD) (t : list secret_row) (m : vault) : Prop :=
  NoDup (key <$> t) ∧ (∀ r, r ∈ t → ∃ v, m !! key r = Some v ∧ stored_for aead r v) ∧ (∀ k, is_Some (m !! k) → k ∈ key <$> t) ∧ (List.length t ≤ MaxSecrets)%nat.
(** What the secrets are by the operations alone. *)
Inductive secret_op := Set_secret (nonce : string → result string) (application name value : string) (now : Time) | Delete_secret (application name : string).
Definition drawn (aead : option AEAD) (nonce : string → result string) (label : string) : bool :=
  match aead, nonce label with Some _, Err _ => false | _, _ => true end.
Definition vault_step (aead : option AEAD) (m : vault) (op : secret_op) : bool * vault :=
  match op with
  | Set_secret nonce application name value _ =>
      if drawn aead nonce (secretLabel application name) && (size (delete (application, name) m) <? MaxSecrets)%nat then (true, <[(application, name) := value]> m) else (false, m)
  | Delete_secret application name => (bool_decide (is_Some (m !! (application, name))), delete (application, name) m)
  end.
Definition store_step (aead : option AEAD) (t : list secret_row) (op : secret_op) : bool * list secret_row :=
  match match op with
        | Set_secret nonce application name value now => SetSecret aead nonce t application name value now
        | Delete_secret application name => DeleteSecret t application name
        end with
  | inr t' => (true, t')
  | inl _ => (false, t)
  end.
Fixpoint all_ops {S} (step : S → secret_op → bool * S) (s : S) (ops : list secret_op) : list bool * S :=
  match ops with
  | [] => ([], s)
  | op :: rest => let '(b, s) := step s op in let '(bs, s) := all_ops step s rest in (b :: bs, s)
  end.
(** A nonce is as long as the cipher's. *)
Definition nonces_fit (aead : option AEAD) (op : secret_op) : Prop :=
  match aead, op with Some A, Set_secret nonce _ _ _ _ => ∀ label n, nonce label = Ok n → String.length n = NonceSize | _, _ => True end.
Definition lawful (aead : option AEAD) : Prop := ∀ A, aead = Some A → AEADLaws A.
Definition nearest (m : vault) (application name : string) : option ResolvedSecret :=
  match m !! (application, name) with Some v => Some (mk_resolved v application) | None => (λ v, mk_resolved v "") <$> m !! ("", name) end.

Lemma is_secret_key application name r : is_secret application name r = true ↔ key r = (application, name).
Proof. unfold is_secret, key. rewrite andb_true_iff, !String.eqb_eq. by split; [intros [-> ->]|intros [= -> ->]]. Qed.
Lemma holds_row aead t m k : holds aead t m → k ∈ key <$> t → ∃ r v, r ∈ t ∧ key r = k ∧ m !! k = Some v ∧ stored_for aead r v.
Proof. intros (_ & H & _) (r & -> & Hr)%list_elem_of_fmap. destruct (H r Hr) as (v & Hv & Hs). by exists r, v. Qed.
Lemma holds_size aead t m : holds aead t m → size m = List.length t.
Proof.
  intros (H1 & H2 & H3 & _). rewrite <- (size_dom (D := gset (string * string)) m), <- (length_fmap key t), <- (size_list_to_set (C := gset (string * string)) (key <$> t)) by done. f_equal. apply set_eq. intros k. rewrite elem_of_dom, elem_of_list_to_set. split; [apply H3|]. intros (r & -> & Hr)%list_elem_of_fmap. destruct (H2 r Hr) as (v & Hv & _). by exists v.
Qed.
Lemma rows_filter (P : secret_row → bool) t : NoDup (key <$> t) → NoDup (key <$> List.filter P t).
Proof.
  induction t as [|r t IH]; intros H; [done|]. cbn in H. apply NoDup_cons in H as [Hr H]. cbn [List.filter]. destruct (P r); [|by apply IH]. cbn. apply NoDup_cons. split; [|by apply IH]. intros (x & Hx & Hin)%list_elem_of_fmap. apply Hr. rewrite Hx. apply list_elem_of_fmap_2. rewrite list_elem_of_In, List.filter_In, <- list_elem_of_In in Hin. apply Hin.
Qed.
Definition others (application name : string) (t : list secret_row) : list secret_row := List.filter (λ r, negb (is_secret application name r)) t.
Lemma in_others application name t r : r ∈ others application name t ↔ r ∈ t ∧ key r ≠ (application, name).
Proof. unfold others. by rewrite list_elem_of_In, List.filter_In, <- list_elem_of_In, negb_true_iff, <- not_true_iff_false, is_secret_key. Qed.
Lemma holds_delete aead t m application name : holds aead t m → holds aead (others application name t) (delete (application, name) m).
Proof.
  intros (H1 & H2 & H3 & H4). split_and!; [by apply rows_filter| | |].
  - intros r [Hr Hk]%in_others. destruct (H2 r Hr) as (v & Hv & Hs). exists v. by rewrite lookup_delete_ne.
  - intros k [v [Hk Hv]%lookup_delete_Some]. assert (is_Some (m !! k)) as (r & -> & Hr)%H3%list_elem_of_fmap by by exists v. apply list_elem_of_fmap_2, in_others. by split.
  - etransitivity; [apply filter_length_le|done].
Qed.
(** Storing a value changes its row alone, or adds one. *)
Lemma upsert_rows application name label value now t r : NoDup (key <$> t) → r ∈ upsert application name label value now t →
  (key r ≠ (application, name) ∧ r ∈ t) ∨ (key r = (application, name) ∧ sr_Value r = value ∧ (sr_Label r = label ∨ ∃ r0, r0 ∈ t ∧ key r0 = (application, name) ∧ sr_Label r = sr_Label r0)).
Proof.
  intros Hd. unfold upsert. destruct (existsb _ t) eqn:E.
  - intros (r0 & -> & Hr)%list_elem_of_fmap. destruct (is_secret application name r0) eqn:Ek; [right|left].
    + apply is_secret_key in Ek. split_and!; [done|done|right; by exists r0].
    + split; [|done]. by rewrite <- is_secret_key, Ek.
  - intros [Hr|Hr]%elem_of_app; [left|right].
    + split; [|done]. intros Hk. apply not_true_iff_false in E. apply E, existsb_exists. exists r. by rewrite <- list_elem_of_In, is_secret_key.
    + apply list_elem_of_singleton in Hr as ->. by split_and!; [..|left].
Qed.
Lemma upsert_keys application name label value now t :
  key <$> upsert application name label value now t = if existsb (is_secret application name) t then key <$> t else ((key <$> t) ++ [(application, name)])%list.
Proof.
  unfold upsert. destruct (existsb _ t); [|by rewrite fmap_app]. rewrite <- list_fmap_compose. apply list_fmap_ext. intros i r _. cbn. by destruct (is_secret _ _ r).
Qed.
Lemma existsb_key application name t : existsb (is_secret application name) t = true ↔ (application, name) ∈ key <$> t.
Proof.
  rewrite existsb_exists, list_elem_of_fmap. split; intros (r & H1 & H2); exists r; [rewrite is_secret_key, <- list_elem_of_In in *; done|]. by rewrite is_secret_key, <- list_elem_of_In.
Qed.
Lemma others_length application name t : NoDup (key <$> t) → (application, name) ∈ key <$> t → S (List.length (others application name t)) = List.length t.
Proof.
  unfold others. induction t as [|r t IH]; intros Hd Hin; [by apply elem_of_nil in Hin|]. cbn in Hd, Hin. apply NoDup_cons in Hd as [Hr Hd]. cbn [List.filter]. destruct (is_secret application name r) eqn:E; cbn [negb List.length].
  - apply is_secret_key in E. f_equal. rewrite E in Hr. clear -Hr. induction t as [|x t IH]; [done|]. cbn [List.filter fmap list_fmap] in *. apply not_elem_of_cons in Hr as [Hx Ht]. destruct (is_secret application name x) eqn:Ex; [by apply is_secret_key in Ex|]. cbn. f_equal. by apply IH.
  - f_equal. apply IH; [done|]. apply elem_of_cons in Hin as [Hk|Hk]; [|done]. by rewrite <- not_true_iff_false, is_secret_key in E.
Qed.
Lemma set_holds aead t m nonce application name value now : lawful aead → holds aead t m → nonces_fit aead (Set_secret nonce application name value now) →
  let '(b, t') := store_step aead t (Set_secret nonce application name value now) in
  let '(b', m') := vault_step aead m (Set_secret nonce application name value now) in b = b' ∧ holds aead t' m'.
Proof.
  intros HL Hh Hn. pose proof (holds_size _ _ _ (holds_delete _ _ _ application name Hh)) as Hsz. unfold store_step, vault_step, SetSecret. cbv zeta. fold (others application name t). rewrite Hsz.
  set (label := secretLabel application name). assert (match (match aead with None => Ok value | Some A => seal nonce label value end) with
    | Err _ => drawn aead nonce label = false
    | Ok stored => drawn aead nonce label = true ∧ ∀ r, key r = (application, name) → sr_Label r = label → sr_Value r = stored → stored_for aead r value end) as Hsealed.
  { destruct aead as [A|]; cbn [drawn].
    - destruct (seal nonce label value) as [stored|e] eqn:E.
      + split; [unfold seal in E; by destruct (nonce label)|]. intros r [= Ha Hname] Hl Hv. pose proof (HL A eq_refl) as HA. destruct (open_seal nonce Hn label value stored E) as [E1 E2]. unfold stored_for, read_secret. rewrite Ha, Hname, Hl, Hv, E1. by split_and!.
      + unfold seal in E. by destruct (nonce label).
    - split; [done|]. intros r [= Ha Hname] Hl Hv. unfold stored_for, read_secret. rewrite Ha, Hname, Hl, Hv. split_and!; [done..|]. by intros [? ?]. }
  destruct (match aead with None => Ok value | Some A => seal nonce label value end) as [stored|e]; [|rewrite Hsealed; cbn [andb]; by split].
  destruct Hsealed as [-> Hs]. cbn [andb]. destruct (Nat.leb_spec MaxSecrets (List.length (others application name t))) as [Hle|Hlt].
  { rewrite (proj2 (Nat.ltb_ge _ _)) by done. by split. }
  rewrite (proj2 (Nat.ltb_lt _ _)) by done. split; [done|]. pose proof Hh as (H1 & H2 & H3 & H4). split_and!.
  - rewrite upsert_keys. destruct (existsb _ t) eqn:E; [done|]. apply NoDup_app. split_and!; [done| |apply NoDup_singleton]. intros k Hk ->%list_elem_of_singleton. apply not_true_iff_false in E. by apply E, existsb_key.
  - intros r Hr. destruct (upsert_rows _ _ _ _ _ _ _ H1 Hr) as [[Hk Ht]|(Hk & Hv & Hl)].
    + rewrite lookup_insert_ne by done. by apply H2.
    + exists value. rewrite Hk, lookup_insert_eq. split; [done|]. apply Hs; [done| |done]. destruct Hl as [Hl|(r0 & Hr0 & Hk0 & ->)]; [done|]. destruct (H2 r0 Hr0) as (v & _ & -> & _). by injection Hk0 as -> ->.
  - intros k Hk. rewrite upsert_keys. destruct (decide (k = (application, name))) as [->|Hne].
    + destruct (existsb _ t) eqn:E; [by apply existsb_key|]. apply elem_of_app. right. by apply list_elem_of_singleton.
    + rewrite lookup_insert_ne in Hk by done. apply H3 in Hk. destruct (existsb _ t); [done|]. apply elem_of_app. by left.
  - rewrite <- (length_fmap key), upsert_keys. destruct (existsb _ t) eqn:E; [by rewrite length_fmap|]. rewrite length_app, length_fmap. cbn [List.length].
    assert (others application name t = t) as Hid; [|rewrite Hid in Hlt; lia]. unfold others. clear -E. induction t as [|x t IH]; [done|]. cbn in *. apply orb_false_iff in E as [-> E]. cbn. f_equal. by apply IH.
Qed.

Lemma delete_holds aead t m application name : holds aead t m →
  let '(b, t') := store_step aead t (Delete_secret application name) in
  let '(b', m') := vault_step aead m (Delete_secret application name) in b = b' ∧ holds aead t' m'.
Proof.
  intros Hh. unfold store_step, vault_step, DeleteSecret. fold (others application name t). destruct (existsb _ t) eqn:E.
  - split; [|by apply holds_delete]. apply existsb_key in E. destruct (holds_row _ _ _ _ Hh E) as (r & v & _ & _ & Hv & _). rewrite bool_decide_eq_true_2; [done|by exists v].
  - assert (m !! (application, name) = None) as Hm; [|rewrite Hm, delete_id by done; by rewrite bool_decide_eq_false_2 by by intros [? ?]].
    apply eq_None_not_Some. intros Hs. apply not_true_iff_false in E. apply E, existsb_key. destruct Hh as (_ & _ & H3 & _). by apply H3.
Qed.
Lemma steps_hold aead ops : lawful aead → ∀ t m, Forall (nonces_fit aead) ops → holds aead t m →
  let '(bs, t') := all_ops (store_step aead) t ops in let '(bs', m') := all_ops (vault_step aead) m ops in bs = bs' ∧ holds aead t' m'.
Proof.
  intros HL. induction ops as [|op ops IH]; intros t m Hn Hh; [done|]. apply Forall_cons in Hn as [Hn Hns]. cbn [all_ops].
  assert (let '(b, t') := store_step aead t op in let '(b', m') := vault_step aead m op in b = b' ∧ holds aead t' m') as Hs.
  { destruct op; [by apply set_holds|by apply delete_holds]. }
  destruct (store_step aead t op) as [b t'], (vault_step aead m op) as [b' m']. destruct Hs as [-> Hs]. specialize (IH t' m' Hns Hs).
  destruct (all_ops (store_step aead) t' ops) as [bs t''], (all_ops (vault_step aead) m' ops) as [bs' m'']. destruct IH as [-> IH]. done.
Qed.
Lemma find_key t application name :
  match List.find (is_secret application name) t with Some r => r ∈ t ∧ key r = (application, name) | None => (application, name) ∉ key <$> t end.
Proof.
  destruct (List.find _ t) as [r|] eqn:E.
  - apply find_some in E as [Hr Hk]. by rewrite list_elem_of_In, <- is_secret_key.
  - intros (r & Hk & Hr)%list_elem_of_fmap. rewrite list_elem_of_In in Hr. apply (find_none _ _ E) in Hr. by rewrite <- not_true_iff_false, is_secret_key in Hr.
Qed.
Lemma nearest_held aead t m application name : holds aead t m →
  match nearest_row t application name with
  | Some r => ∃ v, read_secret aead r = Ok v ∧ nearest m application name = Some (mk_resolved v (sr_Application r))
  | None => nearest m application name = None
  end.
Proof.
  intros Hh. pose proof Hh as (_ & H2 & H3 & _). unfold nearest_row, nearest. assert (∀ k, k ∉ key <$> t → m !! k = None) as Hnot.
  { intros k Hk. apply eq_None_not_Some. intros Hs. by apply Hk, H3. }
  pose proof (find_key t application name) as Ha. destruct (List.find (is_secret application name) t) as [r|].
  - destruct Ha as [Hr Hk]. destruct (H2 r Hr) as (v & Hv & _ & Hs & _). exists v. split; [done|]. rewrite Hk in Hv. rewrite Hv. by injection Hk as -> _.
  - rewrite (Hnot _ Ha). pose proof (find_key t "" name) as Hg. destruct (List.find (is_secret "" name) t) as [r|].
    + destruct Hg as [Hr Hk]. destruct (H2 r Hr) as (v & Hv & _ & Hs & _). exists v. split; [done|]. rewrite Hk in Hv. rewrite Hv. by injection Hk as -> _.
    + by rewrite (Hnot _ Hg).
Qed.
Lemma get_held aead t m application : holds aead t m → ∀ names values, ∃ out, get_each aead t application names values = Ok out ∧
  ∀ n, out !! n = if bool_decide (n ∈ names) then match nearest m application n with Some s => Some s | None => values !! n end else values !! n.
Proof.
  intros Hh. induction names as [|name names IH]; intros values; [by exists values|]. cbn [get_each]. pose proof (nearest_held _ _ _ application name Hh) as Hr.
  assert (∀ n (P : bool → Prop), (n = name → P true) → (n ≠ name → P (bool_decide (n ∈ names))) → P (bool_decide (n ∈ name :: names))) as Hcase.
  { intros n P H1 H2. destruct (decide (n = name)) as [->|Hne]; [rewrite bool_decide_eq_true_2 by (by left); by apply H1|].
    replace (bool_decide (n ∈ name :: names)) with (bool_decide (n ∈ names)); [by apply H2|]. apply bool_decide_ext. rewrite elem_of_cons. naive_solver. }
  destruct (nearest_row t application name) as [r|].
  - destruct Hr as (v & -> & Hv). cbn. destruct (IH (<[name := mk_resolved v (sr_Application r)]> values)) as (out & -> & Hout). exists out. split; [done|]. intros n. rewrite Hout. apply (Hcase n (λ b, _ = if b then _ else _)).
    + intros ->. rewrite Hv, lookup_insert_eq. by destruct (bool_decide _).
    + intros Hne. by rewrite lookup_insert_ne.
  - destruct (IH values) as (out & -> & Hout). exists out. split; [done|]. intros n. rewrite Hout. apply (Hcase n (λ b, _ = if b then _ else _)); [|done]. intros ->. rewrite Hr. by destruct (bool_decide _).
Qed.

(** C13: the table of secrets implements a map from an application (or the
    server) and a name to a value.  Over any sequence of SetSecret and
    DeleteSecret, each is answered as the map would answer it (a value is
    taken unless no nonce could be drawn or five hundred others are there, and
    removed if it was there); there is one row for each name of the map, at
    most five hundred, every one of them sealed under the label its row names
    where the store has a cipher; and what GetSecrets then gives an application
    is, for exactly the names it asked for, the value last set for the
    application, or else for the server, and whose it is. *)
Theorem secrets_kept (aead : option AEAD) (ops : list secret_op) (application : string) (names : list string) :
  lawful aead → Forall (nonces_fit aead) ops →
  let '(answers, t) := all_ops (store_step aead) [] ops in
  let '(expected, m) := all_ops (vault_step aead) ∅ ops in
  answers = expected ∧ holds aead t m ∧
  ∃ values, GetSecrets aead t application names = Ok values ∧
    ∀ n, values !! n = if bool_decide (n ∈ names) then nearest m application n else None.
Proof.
  intros HL Hn. assert (holds aead [] ∅) as H0.
  { split_and!; [constructor|by intros r ?%elem_of_nil| |cbn; lia]. intros k [v Hv]. by rewrite lookup_empty in Hv. }
  pose proof (steps_hold aead ops HL [] ∅ Hn H0) as Hs. destruct (all_ops (store_step aead) [] ops) as [answers t], (all_ops (vault_step aead) ∅ ops) as [expected m].
  destruct Hs as [-> Hs]. split_and!; [done..|]. destruct (get_held _ _ _ application Hs names ∅) as (values & Hv & Hn'). exists values. split; [done|]. intros n. rewrite Hn', lookup_empty. by destruct (bool_decide _), (nearest m application n).
Qed.

(** A secret of the server and one of an application under the same name. *)
Definition some_ops : list secret_op :=
  [Set_secret (λ _, Ok "nn") "" "TOKEN" "a" 1; Set_secret (λ _, Ok "mm") "shop" "TOKEN" "b" 2; Delete_secret "" "OTHER"; Set_secret (λ _, Err [L "entropy"]) "" "KEY" "c" 3].
Lemma secrets_kept_witness : ∃ values, fst (all_ops (store_step (Some (toy_AEAD "k"))) [] some_ops) = [true; true; false; false] ∧
  GetSecrets (Some (toy_AEAD "k")) (snd (all_ops (store_step (Some (toy_AEAD "k"))) [] some_ops)) "shop" ["TOKEN"; "KEY"] = Ok values ∧
  values !! "TOKEN" = Some (mk_resolved "b" "shop") ∧ values !! "KEY" = None.
Proof.
  assert (lawful (Some (toy_AEAD "k"))) as HL by (intros A [= <-]; apply toy_laws).
  assert (Forall (nonces_fit (Some (toy_AEAD "k"))) some_ops) as Hn.
  { repeat constructor; cbn; by intros ? ? [= <-]. }
  pose proof (secrets_kept (Some (toy_AEAD "k")) some_ops "shop" ["TOKEN"; "KEY"] HL Hn) as H. revert H.
  destruct (all_ops (store_step (Some (toy_AEAD "k"))) [] some_ops) as [answers t] eqn:E1, (all_ops (vault_step (Some (toy_AEAD "k"))) ∅ some_ops) as [expected m] eqn:E2.
  intros (-> & _ & values & Hv & Hl). exists values. assert (fst (expected, m) = [true; true; false; false]) as He by (rewrite <- E2; vm_compute; reflexivity).
  assert (∀ n, nearest m "shop" n = nearest (snd (all_ops (vault_step (Some (toy_AEAD "k"))) ∅ some_ops)) "shop" n) as Hm by by rewrite E2.
  split_and!; [exact He|exact Hv|rewrite Hl, Hm; vm_compute; reflexivity..].
Defined.
