(* ===== verification/Operations.v ===== *)
(** * Operations on an application (agent/internal/deploy: start, admit, Deploy,
    Validate and launch of engine.go; DeployWith and referencesOf of config.go;
    Stop, Start, Delete, Redeploy and Rollback of operations.go; checkWildcards
    of certificates.go, failUnstarted of standby.go, noteKilled of drain.go,
    images.go, removeStaticFiles of static.go)

    What a user asks of an application, over the database of Store.v: a
    statement is a call that answers what others have done to the database
    since, how the database takes it, and the time.  The lock and the count of
    operations (Locks.v), the checks of hostnames and ports (Routing.v,
    Containers.v), the rollout (Rollout.v), its end (Settle.v) and Docker are
    calls.  The parser of image references is a parameter, as is [fmt] where a
    text is stored. *)

From stdpp Require Import sorting.
From S2P Require Import Prelude GoStrings GoURL Effects GoTime SpecTypes SpecNames SpecValidate SpecReferences Crypto DeployState Store Rollout Routing Secrets.
From Stdlib Require Import Ascii String.
Local Open Scope string_scope.
Local Open Scope Z_scope.

(** ** Calls *)

Record StaticFiles := mk_static_files { sf_Digest : string; sf_Files : Z; sf_Bytes : Z }.
Record NewDeployment := mk_new { n_Spec : App; n_Kind : string; n_SourceID : option Z; n_Actor : string; n_Static : option StaticFiles; n_References : References }.
Inductive query :=
  | QApplication (name : string) | QDeployment (id : Z) | QDeployments (f : DeploymentFilter) | QReplicas (id : Z) | QApplications | QReferences (id : Z)
  | QCreate (n : NewDeployment) | QDormant (id : Z) | QTransition (id : Z) (to : DeploymentStatus) | QComplete (id : Z)
  | QDesired (app : Z) (state : string) | QEvent (app : Z) (msg : text) | QRemoved (container : string) | QDelete (app : Z).
Inductive ocall :=
  | OSql (q : query) | OSecrets
  | OLock (app : string) | ORelease (app : string) | OOpDone
  | OCheckDomain (a : App) | OCheckPublish (app : string) (l : list Publish) | OCertificates | OSupplied (host : string)
  | OLaunch (d : Deployment) (dormant : bool) | ORun (d : Deployment) (dormant : bool) | OSettle (d : Deployment) | OCheckLoop (d : Deployment)
  | OSyncProxy | OStop (container : string) (grace : Duration) | OStartNameless (container : string) | OReset (container : string) (health : bool)
  | OInspect (container : string) | OArchive (container : string) (removing : bool) | ORemove (container : string)
  | OListContainers (app : string) | ODraining (container : string) | OAwaitDrains (app : string)
  | OListImages (repository : string) | ORemoveImage (image : string) | ONow
  | ORemoveUpload (app : string) | OProxyContainer | OProxyRemove (proxy dir : string) | OForgetTraffic (app : Z) | OPurgeLogs (app : Z).

(** A statement that is refused changes nothing; one that is only reported as
    refused has done its work. *)
Inductive fate := Taken | Refused | Reported.
Record weather := mk_weather { before : DB → DB; how : fate; at_ : Time }.
Inductive started := Started | NoContainer | NotStarted (e : text).
Inductive image_removal := ImageRemoved | ImageInUse | ImageNotFound | ImageKept (e : text).

Definition oanswer (c : ocall) : Type :=
  match c with
  | OSql _ => weather
  | OSecrets => string → list string → result (gmap string ResolvedSecret)
  | OLock _ | OCheckDomain _ | OCheckPublish _ _ | OCertificates | OSyncProxy | OStop _ _ | ORemove _ | OAwaitDrains _ | OProxyRemove _ _ => error
  | OSupplied _ | ODraining _ | ORun _ _ => bool
  | OStartNameless _ => started
  | OInspect _ => or_error Container
  | OListContainers _ => or_error (list Container)
  | OListImages _ => or_error (list string)
  | ORemoveImage _ => image_removal
  | ONow => Time
  | OProxyContainer => or_error string
  | _ => unit
  end.
Abbreviation OM := (Effects.M DB oanswer).

Inductive op_error :=
  | StoreFailure (e : store_error) | Failure (e : text) | Unresolved (e : resolve_error) | InvalidImageError (reason : text)
  | ErrNotDeployed | ErrNoRollbackTarget | ErrImageNotBuilt | WildcardError (f : Routing.field) (host : string).

(** if err != nil { return err } *)
Definition otry {A B} (m : OM (op_error + A)) (k : A → OM (op_error + B)) : OM (op_error + B) :=
  mthen m (λ r, match r with inl e => mret (inl e) | inr a => k a end).
Notation "'on!' x ':=' m 'in' k" := (otry m (λ x, k)) (at level 10, x pattern, m at level 100, k at level 200) : go_scope.
Definition ook {A} (a : A) : OM (op_error + A) := mret (inr a).
Definition refuse {A} (e : op_error) : OM (op_error + A) := mret (inl e).
Definition failing (m : OM error) : OM (op_error + unit) := mthen m (λ e, match e with Some e => refuse (Failure e) | None => ook tt end).

Definition KindRedeploy := "redeploy".
Definition KindRollback := "rollback".
Definition RootTokenName := "root".

(** origin: what a deployment is made from. *)
Record origin := mk_origin { o_spec : App; o_kind : string; o_sourceID : option Z; o_static : option StaticFiles; o_dormant : bool; o_references : References }.
Definition staticOf (d : Deployment) : option StaticFiles :=
  if String.eqb (d_StaticDigest d) "" then None else Some (mk_static_files (d_StaticDigest d) (d_StaticFiles d) (d_StaticBytes d)).
Definition with_image (a : App) (image : string) : App :=
  mk_app (a_Name a) image (a_Port a) (a_Domain a) (a_Aliases a) (a_Redirects a)
    (a_Replicas a) (a_Env a) (a_Health a) (a_Resources a) (a_Volumes a) (a_Publish a)
    (a_Entrypoint a) (a_Command a) (a_User a) (a_PreDeploy a) (a_Jobs a) (a_Logging a)
    (a_Build a) (a_Static a) (a_Path a) (a_Proxy a) (a_Backups a)
    (a_Restart a) (a_Strategy a) (a_StopTimeout a) (a_Init a) (a_Security a).

(** A parsed image reference: its tag, its digest. *)
Record reference := mk_reference { Tag : option string; Digest : option string }.
Definition StaticVersion (digest : string) : string :=
  let hex := trim_prefix "sha256:" digest in if (12 <? slen hex) then String.substring 0 12 hex else hex.

(** time.Parse("20060102-150405", s). *)
Definition days_in (y m : Z) : Z := (if m =? 12 then days_from_civil (y + 1) 1 1 else days_from_civil y (m + 1) 1) - days_from_civil y m 1.
Definition parse_stamp (s : string) : option Time :=
  let num i n := parse_digits (String.substring i n s) in
  if negb (slen s =? 15) || negb (String.eqb (String.substring 8 1 s) "-") then None else
  y ← num 0%nat 4%nat; m ← num 4%nat 2%nat; d ← num 6%nat 2%nat; h ← num 9%nat 2%nat; mi ← num 11%nat 2%nat; sec ← num 13%nat 2%nat;
  if (1 <=? m) && (m <=? 12) && (1 <=? d) && (d <=? days_in y m) && (h <? 24) && (mi <? 60) && (sec <? 60)
  then Some (Date y m d h + mi * minute + sec * second) else None.

Section Operations.
Variable world : list (Effects.happened oanswer) → ∀ c, oanswer c.
(** The store's cipher, nonces and encoding/json; fmt; the parser of
    references; the options StopTimeout, DNSChallenge and UploadDir != ""; and
    who asks. *)
Variable aead : option AEAD.
Variable nonce : string → result string.
Variable Marshal : References → string.
Variable Unmarshal : string → option References.
Variable Sprintf : text → string.
Variable ParseNormalizedNamed : string → option reference.
Variable StopTimeout : Duration.
Variable DNSChallenge uploads : bool.
Variable actor : string.
Local Abbreviation perform := (Effects.perform world).

(** ** The database *)

(** One statement: what it answers, and the database it leaves. *)
Definition statement {A} (q : query) (sql : Time → DB → store_error + (DB * A)) : OM (op_error + A) :=
  let! w := perform (OSql q) in
  let! _ := mset (before w) in
  let! db := mget id in
  let r := sql (at_ w) db in
  let! _ := match how w, r with
            | (Taken | Reported), inr (db', _) => mset (λ _, db')
            | _, _ => mret tt
            end in
  match how w, r with
  | Taken, inr (_, a) => ook a
  | Taken, inl e => refuse (StoreFailure e)
  | _, _ => refuse (StoreFailure (ErrOther [L "database or disk is full"]))
  end.
Definition read {A} (q : query) (sql : DB → store_error + A) : OM (op_error + A) :=
  statement q (λ _ db, match sql db with inl e => inl e | inr a => inr (db, a) end).
Definition write (q : query) (sql : Time → DB → store_error + DB) : OM (op_error + unit) :=
  statement q (λ now db, match sql now db with inl e => inl e | inr db => inr (db, tt) end).

Definition GetApplication (name : string) := read (QApplication name) (λ db, Store.GetApplication db name).
Definition GetDeployment (id : Z) := read (QDeployment id) (λ db, Store.GetDeployment aead db id).
Definition ListDeployments (f : DeploymentFilter) := read (QDeployments f) (λ db, Store.ListDeployments aead db f).
Definition ListReplicas (id : Z) := read (QReplicas id) (λ db, inr (Store.ListReplicas db id)).
Definition ListApplications := read QApplications (λ db, inr (Store.ListApplications db)).
(** DeploymentReferences (references.go). *)
Definition stored_references (db : DB) (id : Z) : store_error + References :=
  match find_row (λ p, p.1 =? id) (deployment_references db) with
  | None => inr no_references
  | Some (_, stored) =>
      match (match aead with None => Ok stored | Some A => open (referencesName (itoa id)) stored end) with
      | Err e => inl (ErrOther (L "references of deployment " :: D id :: L ": " :: e))
      | Ok plain => match Unmarshal plain with None => inl (ErrOther [L "decode references of deployment "; D id]) | Some r => inr r end
      end
  end.
Definition DeploymentReferences (id : Z) := read (QReferences id) (λ db, stored_references db id).

(** App.Version: the tag, a shortened digest, or "latest". *)
Definition Version (a : App) : string :=
  match ParseNormalizedNamed (a_Image a) with
  | None => "unknown"
  | Some r => match Tag r, Digest r with
              | Some tag, _ => tag
              | None, Some d => if (19 <? slen d) then String.substring 0 19 d else d
              | None, None => "latest"
              end
  end.
(** The record CreateDeploymentWith inserts. *)
Definition new_record (n : NewDeployment) : Deployment :=
  let a := n_Spec n in
  let '(version, image) := match n_Static n with Some f => (StaticVersion (sf_Digest f), "") | None => (Version a, a_Image a) end in
  let f := default (mk_static_files "" 0 0) (n_Static n) in
  mk_deployment 0 0 (a_Name a) 0 version image a StatusPending "" 0 None (n_Kind n) (n_SourceID n) (n_Actor n)
    (sf_Digest f) (sf_Files f) (sf_Bytes f) (For (n_References n) a).
Definition CreateDeploymentWith (n : NewDeployment) : OM (op_error + Deployment) :=
  statement (QCreate n) (λ now db, insertDeployment aead nonce Marshal db (new_record n) now).

(** byActor (actor.go), and appEvent, whose failure is logged. *)
Definition byActor (message : text) : text :=
  if negb (String.eqb actor "") && negb (String.eqb actor RootTokenName) then (message ++ [L " by "; S' actor])%list else message.
Definition add_event (app : Z) (deployment : option Z) (level typ : string) (msg : text) : OM unit :=
  let! _ := write (QEvent app msg) (λ now db, AddEvent db app deployment level typ (Sprintf msg) now) in mret tt.
Definition appEvent (app : Application) (message : text) : OM unit := add_event (app_ID app) None "info" "app" message.

(** ** Beginning a deployment *)

Definition unlock (name : string) : OM unit := let! _ := perform (ORelease name) in perform OOpDone.

Fixpoint check_wildcards (hosts : list namedHost) : OM (op_error + unit) :=
  match hosts with
  | [] => ook tt
  | h :: rest =>
      if negb (IsWildcard (nh_host h)) then check_wildcards rest else
      on! _ := failing (perform OCertificates) in
      let! ok := perform (OSupplied (nh_host h)) in
      if ok : bool then check_wildcards rest else refuse (WildcardError (nh_field h) (nh_host h))
  end.
Definition checkWildcards (a : App) : OM (op_error + unit) := if DNSChallenge then ook tt else check_wildcards (all (hostnamesOf a)).

(** admit: what every deployment passes before it is recorded. *)
Definition admits (a : App) (beforeBuild : bool) : OM (op_error + unit) :=
  if bool_decide (is_Some (a_Build a)) && String.eqb (a_Image a) "" && negb beforeBuild then refuse ErrImageNotBuilt else
  on! _ := failing (perform (OCheckDomain a)) in
  on! _ := checkWildcards a in
  failing (perform (OCheckPublish (a_Name a) (a_Publish a))).

Definition resolved (a : App) : OM (op_error + (App * list string)) :=
  let! get := perform OSecrets in
  match resolveSecrets get a with inl e => refuse (Unresolved e) | inr r => ook r end.
Definition Validate (a : App) : OM (op_error + unit) := on! r := resolved a in admits r.1 true.

Definition referencesOf (o : origin) : OM (op_error + References) :=
  match o_sourceID o with
  | Some id => if Empty (o_references o) then DeploymentReferences id else ook (o_references o)
  | None => ook (o_references o)
  end.

(** Error() of the errors of the store; a constraint's is the database's. *)
Definition cause_of (e : op_error) : text :=
  match e with
  | StoreFailure ErrNotFound => [L "not found"]
  | StoreFailure ErrConflict => [L "state conflict"]
  | StoreFailure ErrConstraint => [L "constraint failed"]
  | StoreFailure (ErrOther e) | Failure e => e
  | _ => []
  end.
Definition failUnstarted (d : Deployment) (cause : text) : OM unit :=
  let msg := (L "it could not be recorded as a deployment that starts nothing: " :: cause)%list in
  let! r := if CanTransition (d_Status d) StatusFailed
            then write (QTransition (d_ID d) StatusFailed) (λ _ db, TransitionDeployment db (d_ID d) (d_Status d) StatusFailed (Sprintf msg))
            else refuse (Failure [L "illegal state transition"]) in
  let! _ := match r with inl _ => mret tt | inr _ => add_event (d_ApplicationID d) (Some (d_ID d)) "error" "state" (L "FAILED: " :: msg) end in
  let! _ := write (QComplete (d_ID d)) (λ now db, inr (CompleteDeployment db (d_ID d) now)) in mret tt.

(** What start does between taking the lock and handing it on. *)
Definition recorded (resolve : OM (op_error + origin)) : OM (op_error + (origin * Deployment)) :=
  on! o := resolve in
  on! _ := admits (o_spec o) false in
  on! references := referencesOf o in
  on! d := CreateDeploymentWith (mk_new (o_spec o) (o_kind o) (o_sourceID o) actor (o_static o) references) in
  ook (o, d).
Definition start (name : string) (resolve : OM (op_error + origin)) : OM (op_error + Deployment) :=
  on! _ := failing (perform (OLock name)) in
  let! r := recorded resolve in
  match r with
  | inl e => let! _ := unlock name in refuse e
  | inr (o, d) =>
      let! marked := if o_dormant o then write (QDormant (d_ID d)) (λ _ db, MarkDeploymentDormant db (d_ID d)) else ook tt in
      match marked with
      | inl e =>
          let! _ := failUnstarted d (cause_of e) in
          let! _ := unlock name in refuse e
      | inr _ => let! _ := perform (OLaunch d (o_dormant o)) in ook d
      end
  end.

(** The goroutine of launch: the lock is free before the end is written. *)
Definition launched (d : Deployment) (dormant : bool) : OM unit :=
  let! interrupted := perform (ORun d dormant) in
  let! _ := perform (ORelease (d_Application d)) in
  let! _ := if interrupted : bool then mret tt else
            let! _ := perform (OSettle d) in perform (OCheckLoop d) in
  perform OOpDone.

Definition deploy_origin (a : App) (plain : list string) : OM (op_error + origin) :=
  on! r := resolved a in
  let '(filled, scoped) := r in
  let refs := ReferencesOf a in
  ook (mk_origin filled KindDeploy None None false (For (mk_references (ref_Env refs) (ref_BasicAuth refs) plain scoped (ref_Logging refs)) a)).
Definition DeployWith (a : App) (plain : list string) : OM (op_error + Deployment) := start (a_Name a) (deploy_origin a plain).
Definition Deploy (a : App) : OM (op_error + Deployment) := DeployWith a [].

Definition redeploy_origin (name image : string) : OM (op_error + origin) :=
  on! app := GetApplication name in
  match app_ActiveDeploymentID app with
  | None => refuse ErrNotDeployed
  | Some id =>
      on! active := GetDeployment id in
      let o := λ a, ook (mk_origin a KindRedeploy (Some (d_ID active)) (staticOf active) false no_references) in
      if String.eqb image "" then o (d_Spec active) else
      if bool_decide (is_Some (a_Static (d_Spec active)))
      then refuse (InvalidImageError [L "a static application has no image; to serve other files, deploy the folder again"]) else
      if bool_decide (is_Some (a_Build (d_Spec active))) && negb (IsLocalImage image)
      then refuse (InvalidImageError [L "this application is built by shipwick deploy; run it from the project to deploy a new image, or remove build from deploy.yaml"]) else
      o (with_image (d_Spec active) image)
  end.
Definition Redeploy (name image : string) : OM (op_error + Deployment) :=
  if String.eqb image "" then start name (redeploy_origin name image) else
  match ValidateImage (λ s, bool_decide (is_Some (ParseNormalizedNamed s))) image with
  | Err e => refuse (InvalidImageError e)
  | Ok _ => match ValidateLocalImage image name with
            | Err e => refuse (InvalidImageError e)
            | Ok _ => start name (redeploy_origin name image)
            end
  end.

Definition rollback_target (name : string) (app : Application) (targetID : Z) : OM (op_error + Deployment) :=
  if targetID =? 0 then
    on! previous := ListDeployments (mk_filter name [StatusSuperseded] 1) in
    match previous with [] => refuse ErrNoRollbackTarget | target :: _ => ook target end
  else
    on! target := GetDeployment targetID in
    if negb (d_ApplicationID target =? app_ID app) || negb (bool_decide (d_Status target = StatusSuperseded)) then refuse ErrNoRollbackTarget else ook target.
Definition rollback_origin (name : string) (targetID : Z) : OM (op_error + origin) :=
  on! app := GetApplication name in
  match app_ActiveDeploymentID app with
  | None => refuse ErrNotDeployed
  | Some _ =>
      on! target := rollback_target name app targetID in
      ook (mk_origin (d_Spec target) KindRollback (Some (d_ID target)) (staticOf target) false no_references)
  end.
Definition Rollback (name : string) (targetID : Z) : OM (op_error + Deployment) := start name (rollback_origin name targetID).

(** ** Stopping and starting *)

Definition gracePeriodOf (deploymentID : Z) : OM Duration :=
  let! d := GetDeployment deploymentID in
  mret (match d with inl _ => StopTimeout | inr d => gracePeriod StopTimeout (d_Spec d) end).
Definition sigkilled : Z := 137.
Definition killedAdvice (deploymentID : Z) : OM text :=
  let! d := GetDeployment deploymentID in
  mret (match d with
        | inr d => if a_Init (d_Spec d) then [L "It runs under an init process, so the signal reached it: to give it longer, set deploy.stop_timeout"]
                   else [L "If its process has no handler for SIGTERM, set init: true and the signal ends it at once; to let it finish its requests, handle SIGTERM in the application; to give it longer, set deploy.stop_timeout"]
        | inl _ => [L "If its process has no handler for SIGTERM, set init: true and the signal ends it at once; to let it finish its requests, handle SIGTERM in the application; to give it longer, set deploy.stop_timeout"]
        end).
Definition noteKilled (app : Z) (id name : string) (deploymentID : Z) (timeout : Duration) (what : string) : OM unit :=
  let! c := perform (OInspect id) in
  match c with
  | inl _ => mret tt
  | inr c =>
      if c_Running c || negb (c_ExitCode c =? sigkilled) || c_OOMKilled c then mret tt else
      let! advice := killedAdvice deploymentID in
      add_event app None "warn" "app" ([L "The "; S' what; L " container "; S' name; L " did not exit within "; D timeout; L " of SIGTERM and was killed. "] ++ advice)%list
  end.
(** parallel, one after the other: every item, and the first error of them. *)
Fixpoint each_of {A} (f : A → OM (op_error + unit)) (l : list A) : OM (op_error + unit) :=
  match l with
  | [] => ook tt
  | x :: rest =>
      let! r := f x in
      let! more := each_of f rest in
      mret (match r with inl e => inl e | inr _ => more end)
  end.

Definition withActive (name : string) (fn : Application → Z → list Replica → OM (op_error + unit)) : OM (op_error + unit) :=
  on! _ := failing (perform (OLock name)) in
  let! r :=
    on! app := GetApplication name in
    match app_ActiveDeploymentID app with
    | None => refuse ErrNotDeployed
    | Some id => on! replicas := ListReplicas id in fn app id replicas
    end in
  let! _ := unlock name in
  mret r.

Definition SetDesiredState (app : Z) (state : string) := write (QDesired app state) (λ now db, Store.SetDesiredState db app state now).
Definition stop_replica (grace : Duration) (r : Replica) : OM (op_error + unit) :=
  let! e := perform (OStop (r_ContainerID r) grace) in
  match e with Some e => refuse (Failure (L "replica " :: D (r_Index r) :: L ": " :: e)) | None => ook tt end.
Definition note_stopped (app : Application) (grace : Duration) (r : Replica) : OM unit :=
  let! _ := noteKilled (app_ID app) (r_ContainerID r) (r_ContainerName r) (r_DeploymentID r) grace "stopped" in
  perform (OArchive (r_ContainerID r) false).
Definition stop_all (app : Application) (id : Z) (replicas : list Replica) : OM (op_error + unit) :=
  on! _ := SetDesiredState (app_ID app) DesiredStopped in
  let! _ := perform OSyncProxy in
  let! grace := gracePeriodOf id in
  on! _ := each_of (stop_replica grace) replicas in
  let! _ := mloop (note_stopped app grace) replicas in
  let! _ := appEvent app (byActor [L "Application stopped"]) in
  ook tt.
Definition Stop (name : string) : OM (op_error + unit) := withActive name stop_all.

Fixpoint start_each (replicas : list Replica) : OM (op_error + unit) :=
  match replicas with
  | [] => ook tt
  | r :: rest =>
      let! s := perform (OStartNameless (r_ContainerID r)) in
      match s with
      | Started => start_each rest
      | NoContainer => refuse (Failure [L "replica "; D (r_Index r); L ": container "; S' (r_ContainerName r); L " no longer exists; deploy the application again"])
      | NotStarted e => refuse (Failure (L "replica " :: D (r_Index r) :: L ": " :: e))
      end
  end.
Definition start_all (app : Application) (id : Z) (replicas : list Replica) : OM (op_error + unit) :=
  on! _ := start_each replicas in
  on! d := GetDeployment id in
  let! _ := mloop (λ r, perform (OReset (r_ContainerID r) (bool_decide (is_Some (a_Health (d_Spec d)))))) replicas in
  on! _ := SetDesiredState (app_ID app) DesiredRunning in
  let! _ := perform OSyncProxy in
  let! _ := appEvent app (byActor [L "Application started"]) in
  ook tt.
Definition Start (name : string) : OM (op_error + unit) := withActive name start_all.

(** ** Images *)

Fixpoint kept_each (apps : list Application) : OM (op_error + list string) :=
  match apps with
  | [] => ook []
  | app :: rest =>
      on! active := match app_ActiveDeploymentID app with
                    | Some id => on! d := GetDeployment id in ook [d_Image d]
                    | None => ook []
                    end in
      on! previous := ListDeployments (mk_filter (app_Name app) [StatusSuperseded] 1) in
      on! more := kept_each rest in
      ook (active ++ (d_Image <$> previous) ++ more)%list
  end.
(** keptImages: the images no pruning may remove. *)
Definition keptImages : OM (op_error + list string) := on! apps := ListApplications in kept_each apps.
Definition deployedImages (app : string) : OM (op_error + list string) :=
  on! all := ListDeployments (mk_filter app [] 0) in
  ook (sorted_once (λ _, true) (d_Image <$> all)).
Definition orphanAge : Duration := 10 * minute.
Definition olderThan (tag : string) (age : Duration) : OM bool :=
  if (slen tag <? 15) then mret false else
  match parse_stamp (String.substring 0 15 tag) with
  | None => mret false
  | Some t => let! now := perform ONow in mret (age <? Sub now t)
  end.
Fixpoint local_candidates (prefix : string) (everything : bool) (images local : list string) : OM (list string) :=
  match local with
  | [] => mret images
  | image :: rest =>
      if contains images image then local_candidates prefix everything images rest else
      let! old := if everything then mret true else olderThan (trim_prefix prefix image) orphanAge in
      local_candidates prefix everything (if old : bool then (images ++ [image])%list else images) rest
  end.
Definition pruneCandidates (app : string) (everything : bool) : OM (op_error + list string) :=
  on! images := deployedImages app in
  let prefix := LocalImagePrefix app in
  let! local := perform (OListImages (trim_suffix ":" prefix)) in
  match local with
  | inl _ => ook images
  | inr local => let! all := local_candidates prefix everything images local in ook (merge_sort str_le all)
  end.
Fixpoint remove_images (keep candidates : list string) : OM Z :=
  match candidates with
  | [] => mret 0
  | image :: rest =>
      if String.eqb image "" || contains keep image then remove_images keep rest else
      let! r := perform (ORemoveImage image) in
      let! n := remove_images keep rest in
      mret (match r with ImageRemoved => n + 1 | _ => n end)
  end.
Definition pruneImages (candidates : list string) : OM Z :=
  let! keep := keptImages in
  match keep with inl _ => mret 0 | inr keep => remove_images keep candidates end.
Definition removeFailedImage (d : Deployment) : OM unit :=
  if String.eqb (d_Image d) "" then mret tt else
  let! n := pruneImages [d_Image d] in
  if 0 <? n then add_event (d_ApplicationID d) (Some (d_ID d)) "info" "step" [L "Removed image "; S' (d_Image d); L ", which nothing else uses"] else mret tt.

(** ** Deleting *)

Fixpoint still_there (containers : list Container) : OM (list Container) :=
  match containers with
  | [] => mret []
  | c :: rest =>
      let! draining := perform (ODraining (c_ID c)) in
      let! more := still_there rest in
      mret (if draining : bool then more else c :: more)
  end.
(** retireContainer, and removeContainer, which archives what was printed. *)
Definition retire (c : Container) : OM (op_error + unit) :=
  let! grace := gracePeriodOf (c_DeploymentID c) in
  let! _ := perform (OStop (c_ID c) grace) in
  let! _ := perform (OArchive (c_ID c) true) in
  let! e := perform (ORemove (c_ID c)) in
  match e with
  | Some e => refuse (Failure (L "remove container " :: S' (c_Name c) :: L ": " :: e))
  | None => write (QRemoved (c_ID c)) (λ now db, inr (MarkReplicaRemoved db (c_ID c) now))
  end.
Definition removeStaticFiles (name : string) : OM unit :=
  let! _ := if uploads then perform (ORemoveUpload name) else mret tt in
  let! history := ListDeployments (mk_filter name [] 0) in
  match history with
  | inl _ => mret tt
  | inr history =>
      if negb (existsb (λ d, negb (String.eqb (d_StaticDigest d) "")) history) then mret tt else
      let! proxy := perform OProxyContainer in
      match proxy with
      | inl _ => mret tt
      | inr proxy => let! _ := perform (OProxyRemove proxy (Clean (join "/" [staticRoot; name]))) in mret tt
      end
  end.
Definition delete_all (name : string) : OM (op_error + unit) :=
  on! app := GetApplication name in
  let! listed := perform (OListContainers name) in
  match listed with
  | inl e => refuse (Failure e)
  | inr listed =>
      let! containers := still_there listed in
      on! _ := each_of retire containers in
      on! _ := failing (perform (OAwaitDrains name)) in
      let! images := pruneCandidates name true in
      let! _ := removeStaticFiles name in
      on! _ := write (QDelete (app_ID app)) (λ _ db, DeleteApplication db (app_ID app)) in
      let! _ := perform (OForgetTraffic (app_ID app)) in
      let! _ := perform (OPurgeLogs (app_ID app)) in
      let! _ := perform OSyncProxy in
      let! _ := pruneImages (match images with inl _ => [] | inr l => l end) in
      ook tt
  end.
Definition Delete (name : string) : OM (op_error + unit) :=
  on! _ := failing (perform (OLock name)) in
  let! r := delete_all name in
  let! _ := unlock name in
  mret r.
End Operations.
