(* ===== verification/OperationsInv.v ===== *)
(** * What operations on an application come to

    A deployment is recorded and launched under the application's lock, after
    every check; a refusal leaves nothing behind and gives the lock back.  What
    a redeploy and a rollback deploy is what was running, or had run, when the
    record was made.  Stopping, starting and deleting happen in their order. *)

From stdpp Require Import sorting.
From S2P Require Import Prelude GoStrings GoURL Effects GoTime SpecTypes SpecNames SpecValidate SpecReferences Crypto DeployState Store StoreInv Rollout Routing Secrets SecretsInv Operations.
From Stdlib Require Import Ascii String.
Local Open Scope string_scope.
Local Open Scope Z_scope.

Abbreviation event := (Effects.happened oanswer).
Abbreviation trace := (list event).

(** ** Programs, one part after the other *)

Lemma does_otry {A B} (m : OM (op_error + A)) (k : A → OM (op_error + B)) P Q : does m P → (∀ a, does (k a) (Q a)) →
  does (otry m k) (λ s r s' evs, (∃ e, P s (inl e) s' evs ∧ r = inl e) ∨ ∃ a s1 ev1 ev2, P s (inr a) s1 ev1 ∧ Q a s1 r s' ev2 ∧ evs = (ev2 ++ ev1)%list).
Proof. apply does_fallible. Qed.

(** ** The events *)

Definition reading (q : query) : bool :=
  match q with QApplication _ | QDeployment _ | QDeployments _ | QReplicas _ | QApplications | QReferences _ => true | _ => false end.
(** What leads to a record and changes nothing. *)
Definition preparing (ev : event) : Prop :=
  match what ev with
  | OSecrets | OCheckDomain _ | OCheckPublish _ _ | OCertificates | OSupplied _ => True
  | OSql q => reading q = true
  | _ => False
  end.
Definition says {c} (a : oanswer c) (evs : trace) : Prop := mk_happened c a ∈ evs.

Section Begin.
Context (world : trace → ∀ c, oanswer c) (aead : option AEAD) (nonce : string → result string) (Marshal : References → string)
  (Unmarshal : string → option References) (Sprintf : text → string) (Parse : string → option reference) (StopTimeout : Z) (DNSChallenge uploads : bool) (actor : string).

(** A statement is its one call; it answers as the database took it. *)
Definition took {A} (q : query) (sql : Time → DB → store_error + (DB * A)) (db : DB) (r : op_error + A) (db' : DB) (evs : trace) : Prop :=
  ∃ w, evs = [mk_happened (OSql q) w] ∧
    match r with
    | inr a => how w = Taken ∧ sql (at_ w) (before w db) = inr (db', a)
    | inl _ => (db' = before w db ∨ how w = Reported ∧ ∃ a, sql (at_ w) (before w db) = inr (db', a)) ∧ (how w = Taken → ∃ e, sql (at_ w) (before w db) = inl e)
    end.
Lemma statement_does {A} q (sql : Time → DB → store_error + (DB * A)) : does (statement world q sql) (took q sql).
Proof.
  intros s. unfold statement. rewrite then_perform, then_set, then_get. cbn [fst snd]. set (w := world s.2 (OSql q)). rewrite then_eq.
  exists [mk_happened (OSql q) w]. destruct (sql (at_ w) (id (before w s.1))) as [e|[db' a]] eqn:E, (how w) eqn:Ew; cbn [fst snd mret mset ook refuse]; (split; [done|]); exists w; rewrite ?Ew; (split; [done|]); unfold id in E; rewrite ?E; first [by eauto|split; [by (left + (right; eauto))|by eauto]].
Qed.
Lemma read_does {A} q (sql : DB → store_error + A) : does (read world q sql) (λ db r db' evs, ∃ w, evs = [mk_happened (OSql q) w] ∧ db' = before w db ∧ ∀ a, r = inr a → sql db' = inr a).
Proof.
  eapply does_weaken; [apply statement_does|]. intros db r db' evs (w & -> & H). exists w. split; [done|]. destruct r as [e|a].
  - destruct H as [[->|[_ [a Ha]]] _]; [done|]. destruct (sql _); [done|]. by injection Ha as <- _.
  - destruct H as [_ Ha]. destruct (sql (before w db)) eqn:E; [done|]. injection Ha as <- <-. split; [done|]. by intros ? [= <-].
Qed.

(** A program that only reads and asks. *)
Definition only_prepares {A} (m : OM A) : Prop := does m (λ _ _ _ evs, Forall preparing evs).
Lemma prepares_ret {A} (a : A) : only_prepares (mret a).
Proof. intros s. by exists []. Qed.
Lemma prepares_perform c : (∀ a, preparing (mk_happened c a)) → only_prepares (Effects.perform world c).
Proof. intros H s. eexists [_]. split; [done|]. by constructor. Qed.
Lemma prepares_read {A} q (sql : DB → store_error + A) : reading q = true → only_prepares (read world q sql).
Proof. intros H. eapply does_weaken; [apply read_does|]. intros db r db' evs (w & -> & _). by constructor. Qed.
Lemma prepares_then {A B} (m : OM A) (k : A → OM B) : only_prepares m → (∀ a, only_prepares (k a)) → only_prepares (mthen m k).
Proof. intros Hm Hk. eapply does_weaken; [exact (does_then m k (λ _ _ _ evs, Forall preparing evs) (λ _ _ _ _ evs, Forall preparing evs) Hm (λ a _, Hk a))|]. cbn. intros ? ? ? ? (? & ? & ? & ? & ? & ? & ->). by apply Forall_app. Qed.
Lemma prepares_otry {A B} (m : OM (op_error + A)) (k : A → OM (op_error + B)) : only_prepares m → (∀ a, only_prepares (k a)) → only_prepares (otry m k).
Proof. intros Hm Hk. apply prepares_then; [done|]. intros [e|a]; [apply prepares_ret|apply Hk]. Qed.
Lemma prepares_failing (m : OM error) : only_prepares m → only_prepares (failing m).
Proof. intros Hm. apply prepares_then; [done|]. intros [e|]; apply prepares_ret. Qed.

Ltac preparing :=
  repeat (intros; cbv beta zeta;
    first [ assumption
          | lazymatch goal with
            | |- only_prepares (mret _) => apply prepares_ret
            | |- only_prepares (ook _) => apply prepares_ret
            | |- only_prepares (refuse _) => apply prepares_ret
            | |- only_prepares (read _ _ _) => apply prepares_read; reflexivity
            | |- only_prepares (Effects.perform _ _) => apply prepares_perform; intros; exact I
            | |- only_prepares (failing _) => apply prepares_failing
            | |- only_prepares (otry _ _) => apply prepares_otry
            | |- only_prepares (mthen _ _) => apply prepares_then
            | |- only_prepares (match ?x with _ => _ end) => destruct x
            end ]).
Lemma references_prepares o : only_prepares (referencesOf world aead Unmarshal o).
Proof. unfold referencesOf, DeploymentReferences. preparing. Qed.
Lemma resolved_prepares a : only_prepares (resolved world a).
Proof. unfold resolved. preparing. Qed.
Lemma deploy_prepares a plain : only_prepares (deploy_origin world a plain).
Proof. pose proof (resolved_prepares a). unfold deploy_origin. preparing. Qed.
Lemma redeploy_prepares name image : only_prepares (redeploy_origin world aead name image).
Proof. unfold redeploy_origin, GetApplication, GetDeployment. preparing. Qed.
Lemma rollback_prepares name target : only_prepares (rollback_origin world aead name target).
Proof. unfold rollback_origin, rollback_target, GetApplication, GetDeployment, ListDeployments. preparing. Qed.

(** What has to have been answered before a specification is recorded. *)
Definition checked (a : App) (evs : trace) : Prop :=
  ¬ (is_Some (a_Build a) ∧ a_Image a = "") ∧
  says (c := OCheckDomain a) None evs ∧ says (c := OCheckPublish (a_Name a) (a_Publish a)) None evs ∧
  (DNSChallenge = false → ∀ h, h ∈ all (hostnamesOf a) → IsWildcard (nh_host h) = true → says (c := OSupplied (nh_host h)) true evs).

Lemma does_failing (m : OM error) P : does m P → does (failing m) (λ s r s' evs, ∃ a, P s a s' evs ∧ r = match a with Some e => inl (Failure e) | None => inr tt end).
Proof.
  intros Hm s. unfold failing. rewrite then_eq. destruct (Hm s) as (evs & E & H). exists evs. destruct (m s) as [[e|] s']; (split; [exact E|]); eexists; (split; [exact H|done]).
Qed.
Lemma wildcards_does hosts : does (check_wildcards world hosts) (λ s r s' evs, s' = s ∧ Forall preparing evs ∧
  (r = inr tt → ∀ h, h ∈ hosts → IsWildcard (nh_host h) = true → says (c := OSupplied (nh_host h)) true evs)).
Proof.
  induction hosts as [|h hosts IH]; cbn [check_wildcards].
  - eapply does_weaken; [apply does_ret|]. intros s r s' evs (-> & -> & ->). split_and!; [done..|]. by intros _ h Hh%elem_of_nil.
  - destruct (IsWildcard (nh_host h)) eqn:Ew; cbn [negb].
    + assert (∀ ok : bool, does (if ok then check_wildcards world hosts else refuse (WildcardError (nh_field h) (nh_host h)))
        (λ s r s' evs, s' = s ∧ Forall preparing evs ∧ (r = inr tt → ok = true ∧ ∀ h, h ∈ hosts → IsWildcard (nh_host h) = true → says (c := OSupplied (nh_host h)) true evs))) as Hok.
      { intros []; (eapply does_weaken; [apply IH || apply does_ret|]); [naive_solver|]. intros s r s' evs (-> & -> & ->). by split_and!. }
      eapply does_weaken.
      { apply does_otry; [apply does_failing, (does_perform world OCertificates)|]. intros a. apply does_then; [apply (does_perform world (OSupplied (nh_host h)))|intros ok _; exact (Hok ok)]. }
      cbv beta. intros s r s' evs [(e & (a & [-> ->] & Ha) & ->)|(a & s1 & ev1 & ev2 & (b & [-> ->] & _) & (ok & s2 & ev3 & ev4 & [-> ->] & (-> & H1 & H2) & ->) & ->)].
      * split_and!; [done|by constructor|done].
      * split_and!; [done|rewrite !Forall_app; repeat split; [done|by constructor..]|]. intros Hr. destruct (H2 Hr) as [-> H3]. intros h' [->|Hh]%elem_of_cons Hh'; unfold says in *; rewrite !elem_of_app.
        -- left. right. by left.
        -- left. left. by apply H3.
    + eapply does_weaken; [apply IH|]. cbv beta. intros s r s' evs (-> & H1 & H2). split_and!; [done..|]. intros Hr h' [->|Hh]%elem_of_cons Hh'; [congruence|by apply H2].
Qed.

Lemma admits_does a : does (admits world DNSChallenge a false) (λ s r s' evs, s' = s ∧ Forall preparing evs ∧ (r = inr tt → checked a evs)).
Proof.
  unfold admits, checkWildcards. destruct (bool_decide (is_Some (a_Build a)) && String.eqb (a_Image a) "" && negb false) eqn:Eb.
  { eapply does_weaken; [apply does_ret|]. cbv beta. intros s r s' evs (-> & -> & ->). by split_and!. }
  assert (does (if DNSChallenge then ook tt else check_wildcards world (all (hostnamesOf a))) (λ s r s' evs, s' = s ∧ Forall preparing evs ∧
    (r = inr tt → DNSChallenge = false → ∀ h, h ∈ all (hostnamesOf a) → IsWildcard (nh_host h) = true → says (c := OSupplied (nh_host h)) true evs))) as Hw.
  { destruct DNSChallenge; [|eapply does_weaken; [apply wildcards_does|]; naive_solver]. eapply does_weaken; [apply does_ret|]. cbv beta. intros s r s' evs (-> & -> & ->). by split_and!. }
  eapply does_weaken.
  { apply does_otry; [apply does_failing, (does_perform world (OCheckDomain a))|]. intros u. apply does_otry; [exact Hw|]. intros v. apply does_failing, (does_perform world (OCheckPublish (a_Name a) (a_Publish a))). }
  cbv beta. clear Hw. intros s r s' evs [(e & (x & [-> ->] & Hx) & ->)|(u & s1 & ev1 & ev2 & (x & [-> ->] & Hx) & [(e & (-> & H1 & _) & ->)|(v & s2 & ev3 & ev4 & (-> & H1 & H2) & (y & [-> ->] & Hy) & ->)] & ->)].
  - split_and!; [done|by constructor|done].
  - split_and!; [done|apply Forall_app; split; [done|by constructor]|done].
  - split_and!; [done|rewrite !Forall_app; repeat split; [by constructor|done|by constructor]|]. intros Hr. destruct y as [|]; [by subst r|]. destruct x as [|]; [done|]. unfold checked, says in *. split_and!.
    + intros [Hb Hi]. rewrite bool_decide_eq_true_2 in Eb by done. by rewrite Hi in Eb.
    + rewrite !elem_of_app. right. by left.
    + rewrite !elem_of_app. left. left. by left.
    + intros Hd h Hh Hh'. rewrite !elem_of_app. left. right. destruct v. by apply (H2 eq_refl).
Qed.

(** Between the lock and the launch: the record is made after the checks, or
    nothing is written that the database did not report as refused. *)
Definition Create (n : NewDeployment) (w : weather) : event := mk_happened (answer := oanswer) (OSql (QCreate n)) w.
(** The database did not take the record, or did and said it had not. *)
Definition refused (n : NewDeployment) (w : weather) : Prop :=
  how w = Taken → ∃ db e, insertDeployment aead nonce Marshal db (new_record Parse n) (at_ w) = inl e.
Lemma recorded_does resolve : only_prepares resolve → does (recorded world aead nonce Marshal Unmarshal Parse DNSChallenge actor resolve) (λ s r s' evs,
  match r with
  | inr (o, d) => ∃ n w evs0, evs = Create n w :: evs0 ∧ Forall preparing evs0 ∧ checked (o_spec o) evs0 ∧ how w = Taken ∧ n_Spec n = o_spec o ∧
      (∃ db, insertDeployment aead nonce Marshal db (new_record Parse n) (at_ w) = inr (s', d))
  | inl _ => Forall preparing evs ∨ ∃ n w evs0, evs = Create n w :: evs0 ∧ Forall preparing evs0 ∧ refused n w
  end).
Proof.
  intros Hres. unfold recorded. eapply does_weaken.
  { apply does_otry; [exact Hres|]. intros o. apply does_otry; [apply (admits_does (o_spec o))|]. intros u. apply does_otry; [apply (references_prepares o)|]. intros refs.
    apply does_otry; [apply statement_does|]. intros d. apply does_ret. }
  cbv beta. intros s r s' evs [(e & H1 & ->)|(o & s1 & ev1 & ev2 & H1 & [(e & (-> & H2 & _) & ->)|(u & s2 & ev3 & ev4 & (-> & H2 & Hc) & [(e & H3 & ->)|(refs & s3 & ev5 & ev6 & H3 & [(e & (w & -> & H4) & ->)|(d & s4 & ev7 & ev8 & (w & -> & Ht & Hi) & (-> & -> & ->) & ->)] & ->)] & ->)] & ->)].
  - by left.
  - left. by apply Forall_app.
  - left. rewrite !Forall_app. by repeat split.
  - right. eexists _, w, _. split; [reflexivity|]. rewrite !Forall_app. split; [by repeat split|]. intros Ht. destruct H4 as [_ H4]. destruct (H4 Ht) as [e' He]. by eexists _, e'.
  - eexists _, w, ((ev5 ++ ev3) ++ ev1)%list. split; [cbn; by rewrite <- !app_assoc|]. rewrite !Forall_app. split; [by repeat split|]. split; [|split_and!; [done|done|by eexists]].
    destruct u. destruct (Hc eq_refl) as (C1 & C2 & C3 & C4). unfold checked, says in *. split_and!; [done|rewrite !elem_of_app; auto..|]. intros Hd h Hh Hh'. rewrite !elem_of_app. left. right. by apply C4.
Qed.

Definition says_sql (q : query) (ev : event) : Prop := what ev = OSql q.
Definition launches (ev : event) : Prop := match what ev with OLaunch _ _ => True | _ => False end.
(** A statement that writes, and what became of it. *)
Definition wrote (q : query) (sql : Time → DB → store_error + DB) (ev : event) : Prop :=
  ∃ db r db', took q (λ now db, match sql now db with inl e => inl e | inr db => inr (db, tt) end) db r db' [ev].
Definition fails (id : Z) (ev : event) : Prop := ∃ msg, wrote (QTransition id StatusFailed) (λ _ db, TransitionDeployment db id StatusPending StatusFailed msg) ev.
Definition completes (id : Z) (ev : event) : Prop := wrote (QComplete id) (λ now db, inr (CompleteDeployment db id now)) ev.
(** A record that could not be marked as one that starts nothing: whatever the
    database answers, the statements are issued that take it from PENDING to
    FAILED and complete it. *)
Definition failed_unstarted (mid : trace) : Prop :=
  ∃ d n w evs0 marked failed told done_, mid = (done_ :: told ++ failed :: marked :: Create n w :: evs0)%list ∧ Forall preparing evs0 ∧
    says_sql (QDormant (d_ID d)) marked ∧ fails (d_ID d) failed ∧
    Forall (λ ev, ∃ msg, says_sql (QEvent (d_ApplicationID d) msg) ev) told ∧ completes (d_ID d) done_.
Lemma write_does q sql : does (write world q sql) (λ s r s' evs, ∃ w, evs = [mk_happened (OSql q) w] ∧ wrote q sql (mk_happened (OSql q) w) ∧ (r = inr tt → how w = Taken)).
Proof.
  eapply does_weaken; [apply statement_does|]. intros s r s' evs (w & -> & H). exists w. split; [done|]. split; [exists s, r, s'; by exists w|].
  destruct r as [e|[]]; [done|]. intros _. apply H.
Qed.
Lemma add_event_does app dep level typ msg : does (add_event world Sprintf app dep level typ msg) (λ s r s' evs, ∃ ev, evs = [ev] ∧ says_sql (QEvent app msg) ev).
Proof.
  eapply does_weaken; [apply does_then; [apply write_does|]; intros r _; apply does_ret|]. cbv beta. intros s r s' evs (a & s1 & ev1 & ev2 & (w & -> & _ & _) & (_ & _ & ->) & ->). by eexists.
Qed.
Lemma failUnstarted_does d cause : d_Status d = StatusPending → does (failUnstarted world Sprintf d cause) (λ s r s' evs,
  ∃ failed told done_, evs = (done_ :: told ++ [failed])%list ∧ fails (d_ID d) failed ∧
    Forall (λ ev, ∃ msg, says_sql (QEvent (d_ApplicationID d) msg) ev) told ∧ completes (d_ID d) done_).
Proof.
  intros Hd. unfold failUnstarted. rewrite Hd. change (CanTransition StatusPending StatusFailed) with true. cbv iota zeta.
  set (msg' := (L "it could not be recorded as a deployment that starts nothing: " :: cause)%list).
  assert (∀ r : op_error + unit, does (match r with inl _ => mret tt | inr _ => add_event world Sprintf (d_ApplicationID d) (Some (d_ID d)) "error" "state" (L "FAILED: " :: msg') end)
    (λ s u s' evs, Forall (λ ev, ∃ msg, says_sql (QEvent (d_ApplicationID d) msg) ev) evs)) as Htold.
  { intros [e|u]; (eapply does_weaken; [apply does_ret || apply add_event_does|]); cbv beta; [intros s a s' evs (_ & _ & ->); constructor|].
    intros s a s' evs (ev & -> & Hev). constructor; [by eexists|constructor]. }
  eapply does_weaken.
  { apply does_then; [apply write_does|]. intros r _. apply does_then; [exact (Htold r)|]. intros u _. apply does_then; [apply write_does|]. intros x _. apply does_ret. }
  cbv beta. intros s r s' evs (a & s1 & ev1 & ev2 & (w & -> & Hw & _) & (v & s2 & ev3 & ev4 & Ht & (x & s3 & ev5 & ev6 & (w' & -> & Hw' & _) & (_ & _ & ->) & ->) & ->) & ->).
  eexists _, ev3, _. split; [cbn; reflexivity|]. split; [by eexists|]. by split.
Qed.

Definition given_back (name : string) : trace := [mk_happened (answer := oanswer) OOpDone tt; mk_happened (answer := oanswer) (ORelease name) tt].
Lemma unlock_does name : does (unlock world name) (λ s r s' evs, evs = given_back name).
Proof. eapply does_weaken; [apply does_then; [apply (does_perform world (ORelease name))|]; intros u _; apply (does_perform world OOpDone)|]. cbv beta. intros s [] s' evs ([] & s1 & ev1 & ev2 & [-> ->] & [-> ->] & ->). done. Qed.
(** The record was made: it is handed to its goroutine, or failed. *)
Definition handed_on (name : string) (o : origin) (d : Deployment) (r : op_error + Deployment) (evs : trace) : Prop :=
  match r with
  | inr d' => d' = d ∧ ∃ marks, evs = mk_happened (answer := oanswer) (OLaunch d (o_dormant o)) tt :: marks ∧
      if o_dormant o then ∃ w', marks = [mk_happened (OSql (QDormant (d_ID d))) w'] ∧ how w' = Taken else marks = []
  | inl _ => ∃ marked failed told done_, evs = (given_back name ++ done_ :: told ++ [failed; marked])%list ∧
      says_sql (QDormant (d_ID d)) marked ∧ fails (d_ID d) failed ∧
      Forall (λ ev, ∃ msg, says_sql (QEvent (d_ApplicationID d) msg) ev) told ∧ completes (d_ID d) done_
  end.
Lemma handed_on_does name o d : d_Status d = StatusPending → does (
    let! marked := if o_dormant o then write world (QDormant (d_ID d)) (λ _ db, MarkDeploymentDormant db (d_ID d)) else ook tt in
    match marked with
    | inl e => let! _ := failUnstarted world Sprintf d (cause_of e) in let! _ := unlock world name in refuse e
    | inr _ => let! _ := Effects.perform world (OLaunch d (o_dormant o)) in ook d
    end) (λ s r s' evs, handed_on name o d r evs).
Proof.
  intros Hd. assert (does (if o_dormant o then write world (QDormant (d_ID d)) (λ _ db, MarkDeploymentDormant db (d_ID d)) else ook tt)
    (λ s r s' evs, if o_dormant o then ∃ w, evs = [mk_happened (OSql (QDormant (d_ID d))) w] ∧ (r = inr tt → how w = Taken) else evs = [] ∧ r = inr tt)) as Hm.
  { destruct (o_dormant o); [eapply does_weaken; [apply write_does|]; intros s r s' evs (w & -> & _ & H); by exists w|]. eapply does_weaken; [apply does_ret|]. by intros s r s' evs (-> & _ & ->). }
  assert (∀ marked : op_error + unit, does (match marked with
    | inl e => let! _ := failUnstarted world Sprintf d (cause_of e) in let! _ := unlock world name in refuse e
    | inr _ => let! _ := Effects.perform world (OLaunch d (o_dormant o)) in ook d
    end) (λ s r s' evs, match marked, r with
      | inl _, inl _ => ∃ failed told done_, evs = (given_back name ++ done_ :: told ++ [failed])%list ∧ fails (d_ID d) failed ∧
          Forall (λ ev, ∃ msg, says_sql (QEvent (d_ApplicationID d) msg) ev) told ∧ completes (d_ID d) done_
      | inr _, inr d' => d' = d ∧ evs = [mk_happened (answer := oanswer) (OLaunch d (o_dormant o)) tt]
      | _, _ => False
      end)) as Hk.
  { intros [e|u].
    - eapply does_weaken; [apply does_then; [apply (failUnstarted_does d (cause_of e) Hd)|]; intros v _; apply does_then; [apply (unlock_does name)|]; intros v' _; apply does_ret|].
      cbv beta. intros s r s' evs (a & s1 & ev1 & ev2 & (failed & told & done_ & -> & H) & (b & s2 & ev3 & ev4 & -> & (-> & _ & ->) & ->) & ->). exists failed, told, done_. by split; [|apply H].
    - eapply does_weaken; [apply does_then; [apply (does_perform world (OLaunch d (o_dormant o)))|]; intros v _; apply does_ret|].
      cbv beta. intros s r s' evs ([] & s1 & ev1 & ev2 & [_ ->] & (-> & _ & ->) & ->). done. }
  eapply does_weaken; [apply does_then; [exact Hm|intros a _; exact (Hk a)]|]. cbv beta. intros s r s' evs (marked & s1 & ev1 & ev2 & H1 & H2 & ->). unfold handed_on. destruct (o_dormant o).
  - destruct H1 as (w & -> & Hw). destruct marked as [e|[]], r as [e'|d']; try done.
    + destruct H2 as (failed & told & done_ & -> & Hf & Ht & Hd'). eexists _, failed, told, done_. split; [cbn; by rewrite <- app_assoc|]. by split_and!.
    + destruct H2 as [-> ->]. split; [done|]. eexists. split; [reflexivity|]. exists w. auto.
  - destruct H1 as [-> ->]. destruct r as [e'|d']; [done|]. destruct H2 as [-> ->]. split; [done|]. by exists [].
Qed.
Lemma start_does name resolve : only_prepares resolve → does (start world aead nonce Marshal Unmarshal Sprintf Parse DNSChallenge actor name resolve) (λ s r s' evs,
  match r with
  | inr d => ∃ dormant n w evs0 marks, evs = (mk_happened (answer := oanswer) (OLaunch d dormant) tt :: marks ++ Create n w :: evs0 ++ [mk_happened (answer := oanswer) (OLock name) None])%list ∧
      Forall preparing evs0 ∧ checked (d_Spec d) evs0 ∧ how w = Taken ∧ n_Spec n = d_Spec d ∧ d_Status d = StatusPending ∧
      if dormant then ∃ w', marks = [mk_happened (OSql (QDormant (d_ID d))) w'] ∧ how w' = Taken else marks = []
  | inl _ => (∃ e, evs = [mk_happened (answer := oanswer) (OLock name) (Some e)]) ∨
      ∃ mid, evs = (mk_happened (answer := oanswer) OOpDone tt :: mk_happened (answer := oanswer) (ORelease name) tt :: mid ++ [mk_happened (answer := oanswer) (OLock name) None])%list ∧
        (Forall preparing mid ∨ (∃ n w evs0, mid = Create n w :: evs0 ∧ Forall preparing evs0 ∧ refused n w) ∨ failed_unstarted mid)
  end).
Proof.
  intros Hres. unfold start.
  assert (∀ r : op_error + (origin * Deployment), match r with inr (_, d) => d_Status d = StatusPending | _ => True end → does (match r with
    | inl e => let! _ := unlock world name in refuse e
    | inr (o, d) =>
        let! marked := if o_dormant o then write world (QDormant (d_ID d)) (λ _ db, MarkDeploymentDormant db (d_ID d)) else ook tt in
        match marked with
        | inl e => let! _ := failUnstarted world Sprintf d (cause_of e) in let! _ := unlock world name in refuse e
        | inr _ => let! _ := Effects.perform world (OLaunch d (o_dormant o)) in ook d
        end
    end) (λ s a s' evs, match r with inl e => a = inl e ∧ evs = given_back name | inr (o, d) => handed_on name o d a evs end)) as Hk.
  { intros [e|[o d]] Hd; [|by apply handed_on_does].
    eapply does_weaken; [apply does_then; [apply (unlock_does name)|]; intros v _; apply does_ret|]. cbv beta. by intros s r s' evs (a & s1 & ev1 & ev2 & -> & (-> & _ & ->) & ->). }
  eapply does_weaken.
  { apply does_otry; [apply does_failing, (does_perform world (OLock name))|]. intros u. apply does_then; [apply (recorded_does resolve Hres)|]. intros r (s0 & s1 & evs & Hr). apply Hk.
    destruct r as [|[o d]]; [done|]. destruct Hr as (n & w & evs0 & _ & _ & _ & _ & _ & db & Hi). by apply insertDeployment_inv in Hi as (apps & id & sealed & refs & _ & _ & _ & _ & _ & _ & Hst & _). }
  cbv beta. intros s r s' evs [(e & (a & [_ ->] & Ha) & ->)|(u & s1 & ev1 & ev2 & (a & [_ ->] & Ha) & ([e|[o d]] & s2 & ev3 & ev4 & H1 & H2 & ->) & ->)].
  - left. destruct a as [e'|]; [by exists e'|done].
  - destruct H2 as [-> ->]. destruct a; [done|]. right. exists ev3. split; [cbn; by rewrite <- ?app_assoc|]. destruct H1; auto.
  - destruct a; [done|]. destruct H1 as (n & w & evs0 & -> & Hp & Hc & Ht & Hn & db & Hi). apply insertDeployment_inv in Hi as (apps & id & sealed & refs & _ & _ & _ & _ & _ & _ & Hst & Hsp).
    assert (d_Spec d = o_spec o) as Hspec by (rewrite Hsp, <- Hn; unfold new_record; by destruct (n_Static n)). destruct r as [e|d'].
    + destruct H2 as (marked & failed & told & done_ & -> & H3). right. eexists ((done_ :: told ++ [failed; marked]) ++ Create n w :: evs0)%list. split; [cbn; by rewrite <- !app_assoc|]. right. right.
      exists d, n, w, evs0, marked, failed, told, done_. split; [cbn; by rewrite <- app_assoc|]. split; [done|]. exact H3.
    + destruct H2 as (-> & marks & -> & H3). exists (o_dormant o), n, w, evs0, marks. rewrite Hspec. split; [cbn; by rewrite <- ?app_assoc|]. by split_and!.
Qed.
End Begin.

(** ** The ways a deployment begins *)

Inductive request := Document (a : App) (plain : list string) | Again (name image : string) | Back (name : string) (target : Z).
Definition application_of (r : request) : string := match r with Document a _ => a_Name a | Again name _ | Back name _ => name end.

(** What others do while the lock is held: they replace neither the active
    deployment of the application nor supersede one of it; nobody but a
    deployment under the lock does. *)
Definition undisturbed (name : string) (db db' : DB) : Prop :=
  (∀ a, Store.GetApplication db name = inr a → ∃ a', Store.GetApplication db' name = inr a' ∧ app_ID a' = app_ID a ∧ app_ActiveDeploymentID a' = app_ActiveDeploymentID a) ∧
  (∀ w', w' ∈ deployments db' → of_application db' name w' = true → w_status w' = StatusSuperseded →
    ∃ w, w ∈ deployments db ∧ of_application db name w = true ∧ w_id w = w_id w' ∧ w_status w = StatusSuperseded).
Lemma undisturbed_refl name db : undisturbed name db db.
Proof. split; [intros a Ha; by exists a|]. intros w Hw Ho Hs. by exists w. Qed.
Lemma undisturbed_trans name a b c : undisturbed name a b → undisturbed name b c → undisturbed name a c.
Proof.
  intros [A1 A2] [B1 B2]. split.
  - intros x Hx. destruct (A1 x Hx) as (y & Hy & E1 & E2). destruct (B1 y Hy) as (z & Hz & E3 & E4). exists z. split_and!; congruence.
  - intros w Hw Ho Hs. destruct (B2 w Hw Ho Hs) as (v & Hv & Hvo & E & Hvs). destruct (A2 v Hv Hvo Hvs) as (u & Hu & Huo & E' & Hus). exists u. split_and!; congruence.
Qed.

Section History.
Context (aead : option AEAD) (nonce : string → result string) (Marshal : References → string).
Local Abbreviation step := (StoreInv.store_step aead nonce Marshal).
Definition passed (name : string) (db db' : DB) : Prop := rtc step db db' ∧ undisturbed name db db'.
Lemma passed_refl name db : passed name db db.
Proof. split; [done|apply undisturbed_refl]. Qed.
Lemma passed_trans name a b c : passed name a b → passed name b c → passed name a c.
Proof. intros [A1 A2] [B1 B2]. split; [by etrans|by eapply undisturbed_trans]. Qed.

Lemma application_named db name a : Store.GetApplication db name = inr a → a ∈ applications db ∧ app_Name a = name.
Proof. unfold Store.GetApplication. destruct (find_row _ _) as [b|] eqn:E; [|done]. intros [= <-]. apply find_row_some in E as [H ->%String.eqb_eq]. done. Qed.
Lemma deployment_row db id d : wf db → Store.GetDeployment aead db id = inr d →
  ∃ w a spec, w ∈ deployments db ∧ w_id w = id ∧ a ∈ applications db ∧ app_ID a = w_application_id w ∧ store_openSpec aead (w_spec w) = Ok spec ∧
    d_ID d = id ∧ d_Spec d = spec ∧ d_Status d = w_status w ∧ d_ApplicationID d = w_application_id w ∧ d_Sequence d = w_sequence w ∧ d_Application d = app_Name a ∧
    (d_StaticDigest d, d_StaticFiles d, d_StaticBytes d) = (w_static_digest w, w_static_files w, w_static_bytes w).
Proof.
  intros Hwf. unfold Store.GetDeployment. destruct (find_row _ _) as [w|] eqn:E; [|done]. apply find_row_some in E as [Hw Hid%Z.eqb_eq]. unfold scanDeployment.
  destruct (find_row _ (applications db)) as [a|] eqn:Ea; [|done]. apply find_row_some in Ea as [Ha Hai%Z.eqb_eq]. destruct (store_openSpec aead (w_spec w)) as [spec|] eqn:Es; [|done]. intros [= <-]. exists w, a, spec. by split_and!.
Qed.
(** A row that is there is read; two reads of it tell the same of what a record keeps. *)
Lemma row_read db w spec : wf db → w ∈ deployments db → store_openSpec aead (w_spec w) = Ok spec →
  ∃ d, Store.GetDeployment aead db (w_id w) = inr d ∧ d_ID d = w_id w ∧ d_Spec d = spec ∧ d_Status d = w_status w ∧ d_ApplicationID d = w_application_id w ∧ d_Sequence d = w_sequence w ∧
    (d_StaticDigest d, d_StaticFiles d, d_StaticBytes d) = (w_static_digest w, w_static_files w, w_static_bytes w).
Proof.
  intros Hwf Hw Hs. unfold Store.GetDeployment. destruct (find_row (λ v, w_id v =? w_id w) (deployments db)) as [v|] eqn:E.
  2:{ pose proof (find_row_none _ _ _ E Hw) as H. cbn in H. by rewrite Z.eqb_refl in H. }
  apply find_row_some in E as [Hv Hi%Z.eqb_eq]. assert (v = w) as -> by (eapply (NoDup_column_eq w_id); [apply (wf_ids db Hwf)|done..]). unfold scanDeployment.
  destruct (wf_owner db Hwf w Hw) as (a & Ha & Hai). destruct (find_row _ (applications db)) as [b|] eqn:Eb.
  2:{ pose proof (find_row_none _ _ _ Eb Ha) as H. cbn in H. by apply Z.eqb_neq in H. }
  rewrite Hs. eexists. split; [reflexivity|]. by split_and!.
Qed.
(** What a deployment was recorded with is there as long as its row is. *)
Lemma read_again name db db' id d : wf db → passed name db db' → Store.GetDeployment aead db id = inr d → (∃ w', w' ∈ deployments db' ∧ w_id w' = id) →
  ∃ d' w', Store.GetDeployment aead db' id = inr d' ∧ d_ID d' = id ∧ d_Spec d' = d_Spec d ∧ staticOf d' = staticOf d ∧ d_ApplicationID d' = d_ApplicationID d ∧ d_Sequence d' = d_Sequence d ∧
    w' ∈ deployments db' ∧ w_id w' = id ∧ d_Status d' = w_status w' ∧ (∃ l, steps (d_Status d) l (d_Status d')).
Proof.
  intros Hwf [Hp _] Hd (w' & Hw' & Hid'). destruct (deployment_row _ _ _ Hwf Hd) as (w & a & spec & Hw & Hid & Ha & Hai & Hs & D1 & D2 & D3 & D4 & D5 & _ & D6).
  destruct (path_rows _ _ _ db db' Hp Hwf) as (Hwf' & _ & Hrows). destruct (Hrows w' Hw') as [Hlt|(v & Hv & Hk)].
  { pose proof (wf_last db Hwf w Hw). lia. }
  assert (v = w) as -> by (eapply (NoDup_column_eq w_id); [apply (wf_ids db Hwf)|done..|rewrite <- (kept_id _ _ Hk); congruence]).
  pose proof (kept_same _ _ Hk) as E. injection E as E1 E2 _ _ E3 _ _ _ E4 E5 E6. destruct (row_read db' w' spec Hwf' Hw') as (d' & R0 & R1 & R2 & R3 & R4 & R5 & R6); [by rewrite E3|].
  rewrite Hid' in *. exists d', w'. injection R6 as F1 F2 F3. injection D6 as G1 G2 G3. split_and!; [done|done|congruence|unfold staticOf; by rewrite F1, F2, F3, G1, G2, G3, E4, E5, E6|congruence|congruence|done|done|done|].
  rewrite R3, D3. apply (kept_status _ _ Hk).
Qed.

Lemma passed_wf name db db' : wf db → passed name db db' → wf db'.
Proof. intros Hwf [Hp _]. by destruct (path_rows _ _ _ db db' Hp Hwf). Qed.
(** The active deployment that was read is still the active one. *)
Lemma active_again name db db' a id d : wf db → passed name db db' → Store.GetApplication db name = inr a → app_ActiveDeploymentID a = Some id → Store.GetDeployment aead db id = inr d →
  ∃ a' d', Store.GetApplication db' name = inr a' ∧ app_ActiveDeploymentID a' = Some id ∧ Store.GetDeployment aead db' id = inr d' ∧ d_ID d' = id ∧ d_Status d' = StatusActive ∧
    d_Spec d' = d_Spec d ∧ staticOf d' = staticOf d.
Proof.
  intros Hwf Hp Ha Hid Hd. pose proof (passed_wf _ _ _ Hwf Hp) as Hwf'. destruct (proj1 (proj2 Hp) a Ha) as (a' & Ha' & _ & Hid'). rewrite Hid in Hid'.
  destruct (application_named _ _ _ Ha') as [Hin _]. destruct (wf_pointer db' Hwf' a' id Hin Hid') as (w' & Hw' & Hwid & Hown).
  destruct (read_again name db db' id d Hwf Hp Hd) as (d' & w & R & D1 & D2 & D3 & _ & _ & Hw & Hwid' & Hst & _); [by exists w'|].
  assert (w = w') as -> by (eapply (NoDup_column_eq w_id); [apply (wf_ids db' Hwf')|done..|congruence]).
  exists a', d'. split_and!; [done..| |done|done]. rewrite Hst. apply (wf_active db' Hwf' a' w' Hin Hw' Hown). congruence.
Qed.
Lemma superseded_stays l s : steps StatusSuperseded l s → s = StatusSuperseded.
Proof. inversion 1 as [|? x ? ? H1 H2]; [done|]. by destruct x. Qed.
(** So is a superseded deployment that was chosen, if the record refers to it. *)
Lemma target_again name db db' a t : wf db → passed name db db' → Store.GetApplication db name = inr a → Store.GetDeployment aead db (d_ID t) = inr t → d_Status t = StatusSuperseded → d_ApplicationID t = app_ID a →
  (∃ w', w' ∈ deployments db' ∧ w_id w' = d_ID t) →
  ∃ a' t', Store.GetApplication db' name = inr a' ∧ app_ActiveDeploymentID a' = app_ActiveDeploymentID a ∧ app_ID a' = app_ID a ∧ Store.GetDeployment aead db' (d_ID t) = inr t' ∧ d_ID t' = d_ID t ∧ d_Status t' = StatusSuperseded ∧
    d_ApplicationID t' = app_ID a ∧ d_Spec t' = d_Spec t ∧ staticOf t' = staticOf t ∧ d_Sequence t' = d_Sequence t.
Proof.
  intros Hwf Hp Ha Ht Hs Hown Hrow. destruct (read_again name db db' _ _ Hwf Hp Ht Hrow) as (t' & w & R & D1 & D2 & D3 & D4 & D5 & _ & _ & _ & l & Hl).
  rewrite Hs in Hl. destruct (proj1 (proj2 Hp) a Ha) as (a' & Ha' & E1 & E2). exists a', t'. split_and!; first [done|by eapply superseded_stays|congruence].
Qed.

Definition newest_superseded (db : DB) (app : Z) (sequence : Z) : Prop :=
  ∀ w, w ∈ deployments db → w_application_id w = app → w_status w = StatusSuperseded → w_sequence w ≤ sequence.
Lemma owned db name a w : wf db → Store.GetApplication db name = inr a → w ∈ deployments db → of_application db name w = true ↔ w_application_id w = app_ID a.
Proof.
  intros Hwf Ha Hw. destruct (application_named _ _ _ Ha) as [Hin Hn]. rewrite of_application_spec by done. split.
  - intros (b & Hb & Hbi & Hbn). assert (b = a) as -> by (eapply (NoDup_column_eq app_Name); [apply (wf_app_names db Hwf)|done..|congruence]). done.
  - intros E. by exists a.
Qed.
Lemma newest_again name db db' a sequence : wf db → passed name db db' → Store.GetApplication db name = inr a → newest_superseded db (app_ID a) sequence → newest_superseded db' (app_ID a) sequence.
Proof.
  intros Hwf Hp Ha Hn w' Hw' Hown Hs. pose proof (passed_wf _ _ _ Hwf Hp) as Hwf'. destruct Hp as [Hp [U1 U2]]. destruct (U1 a Ha) as (a' & Ha' & E1 & _).
  destruct (U2 w' Hw') as (w & Hw & Ho & Hid & Hws); [apply (owned db' name a' w' Hwf' Ha' Hw'); congruence|done|].
  destruct (path_rows _ _ _ db db' Hp Hwf) as (_ & _ & Hrows). destruct (Hrows w' Hw') as [Hlt|(v & Hv & Hk)]; [pose proof (wf_last db Hwf w Hw); lia|].
  assert (v = w) as -> by (eapply (NoDup_column_eq w_id); [apply (wf_ids db Hwf)|done..|rewrite <- (kept_id _ _ Hk); congruence]).
  pose proof (kept_same _ _ Hk) as E. injection E as _ -> _ _ _ _ _ _ _ _ _. apply Hn; [done|by apply (owned db name a w Hwf Ha Hw)|done].
Qed.
(** The first of the superseded deployments listed is the newest of them. *)
Lemma listed_first db name a t l : wf db → name ≠ "" → Store.GetApplication db name = inr a → Store.ListDeployments aead db (mk_filter name [StatusSuperseded] 1) = inr (t :: l) →
  Store.GetDeployment aead db (d_ID t) = inr t ∧ d_Status t = StatusSuperseded ∧ d_ApplicationID t = app_ID a ∧ newest_superseded db (app_ID a) (d_Sequence t).
Proof.
  intros Hwf Hne Ha. unfold Store.ListDeployments, selected_rows. cbn [f_Application f_Limit]. destruct (String.eqb_spec name ""); [done|]. change (0 <? 1) with true. cbv iota. change (Z.to_nat 1) with 1%nat.
  set (rows := List.filter (selected db (mk_filter name [StatusSuperseded] 1)) (deployments db)).
  assert (∀ v, v ∈ rows ↔ v ∈ deployments db ∧ of_application db name v = true ∧ w_status v = StatusSuperseded) as Hrows.
  { intros v. unfold rows. rewrite elem_of_lfilter. unfold selected. cbn [f_Application f_Statuses]. destruct (String.eqb_spec name ""); [done|]. rewrite bool_decide_eq_false_2 by done. cbn [orb].
    rewrite andb_true_iff, contains_spec, list_elem_of_singleton. tauto. }
  pose proof (merge_sort_Permutation by_sequence rows) as Hp. pose proof (StronglySorted_merge_sort by_sequence rows) as Hs.
  destruct (merge_sort by_sequence rows) as [|w rest]; [done|]. cbn [take scan_all]. assert (w ∈ rows) as (Hw & Ho & Hst)%Hrows by (rewrite <- Hp; by left).
  destruct (scanDeployment aead db w) as [|d] eqn:Esc; [done|]. rewrite take_0. cbn [scan_all]. intros [= -> _].
  assert (Store.GetDeployment aead db (w_id w) = inr t) as Hget.
  { unfold Store.GetDeployment. destruct (find_row (λ v, w_id v =? w_id w) (deployments db)) as [v|] eqn:E.
    2:{ pose proof (find_row_none _ _ _ E Hw) as H. cbn in H. by rewrite Z.eqb_refl in H. }
    apply find_row_some in E as [Hv Hi%Z.eqb_eq]. assert (v = w) as -> by (eapply (NoDup_column_eq w_id); [apply (wf_ids db Hwf)|done..]). done. }
  destruct (deployment_row _ _ _ Hwf Hget) as (v & b & spec & Hv & Hvid & _ & _ & _ & D1 & _ & D3 & D4 & D5 & _ & _). assert (v = w) as -> by (eapply (NoDup_column_eq w_id); [apply (wf_ids db Hwf)|done..]).
  rewrite D1. split_and!; [done|congruence|rewrite D4; by apply (owned db name a w Hwf Ha Hw)|]. intros u Hu Huo Hus. rewrite D5.
  assert (u ∈ w :: rest) as Hin by (rewrite Hp; apply Hrows; split_and!; [done|by apply (owned db name a u Hwf Ha Hu)|done]). apply elem_of_cons in Hin as [->|Hin]; [done|].
  apply StronglySorted_inv in Hs as [_ Hs]. rewrite Forall_forall in Hs. apply (Hs u Hin).
Qed.
End History.

Section Chosen.
Context (world : trace → ∀ c, oanswer c) (aead : option AEAD) (nonce : string → result string) (Marshal : References → string)
  (Unmarshal : string → option References) (Sprintf : text → string) (Parse : string → option reference) (DNSChallenge : bool) (actor : string).
Local Abbreviation step := (StoreInv.store_step aead nonce Marshal).
Local Abbreviation passed := (passed aead nonce Marshal).

(** What a request deploys, by the database at the moment it is recorded. *)
Definition chosen (rq : request) (db : DB) (n : NewDeployment) : Prop :=
  match rq with
  | Document a plain =>
      n_Kind n = KindDeploy ∧ n_SourceID n = None ∧ n_Static n = None ∧ MaskedFields a = [] ∧
      ∃ secrets scoped, no_missing secrets a ∧ filled_in secrets a (n_Spec n) ∧ scoped_names secrets a scoped ∧
        n_References n = For (mk_references (ref_Env (ReferencesOf a)) (ref_BasicAuth (ReferencesOf a)) plain scoped (ref_Logging (ReferencesOf a))) a
  | Again name image =>
      n_Kind n = KindRedeploy ∧
      ∃ a active, Store.GetApplication db name = inr a ∧ app_ActiveDeploymentID a = Some (d_ID active) ∧ Store.GetDeployment aead db (d_ID active) = inr active ∧
        d_Status active = StatusActive ∧ n_SourceID n = Some (d_ID active) ∧ n_Static n = staticOf active ∧
        n_Spec n = (if String.eqb image "" then d_Spec active else with_image (d_Spec active) image) ∧
        (image ≠ "" → a_Static (d_Spec active) = None ∧ (is_Some (a_Build (d_Spec active)) → IsLocalImage image = true) ∧
           is_Some (Parse image) ∧ (IsLocalImage image = true → has_prefix (LocalImagePrefix name) image = true))
  | Back name target =>
      n_Kind n = KindRollback ∧
      ∃ a t, Store.GetApplication db name = inr a ∧ is_Some (app_ActiveDeploymentID a) ∧ Store.GetDeployment aead db (d_ID t) = inr t ∧
        d_Status t = StatusSuperseded ∧ d_ApplicationID t = app_ID a ∧ n_SourceID n = Some (d_ID t) ∧ n_Static n = staticOf t ∧ n_Spec n = d_Spec t ∧
        (if target =? 0 then newest_superseded db (app_ID a) (d_Sequence t) else d_ID t = target)
  end.

Context (name : string) (others : ∀ h q db, passed name db (before (world h (OSql q)) db)).

Lemma read_passes {A} q (sql : DB → store_error + A) : does (read world q sql) (λ db r db' evs, passed name db db' ∧ ∀ a, r = inr a → sql db' = inr a).
Proof.
  intros s. unfold read, statement. rewrite then_perform, then_set, then_get. cbn [fst snd]. set (w := world s.2 (OSql q)). rewrite then_eq. pose proof (others s.2 q s.1) as Ho. fold w in Ho.
  exists [mk_happened (OSql q) w]. unfold id. destruct (sql (before w s.1)) as [e|a] eqn:E, (how w); cbn [fst snd mret mset ook refuse]; (split; [done|]); split; try done; by intros ? [= <-].
Qed.
Lemma create_passes n : does (CreateDeploymentWith world aead nonce Marshal Parse n) (λ db r db' evs, ∀ d, r = inr d → ∃ db1 now, passed name db db1 ∧ insertDeployment aead nonce Marshal db1 (new_record Parse n) now = inr (db', d)).
Proof.
  intros s. unfold CreateDeploymentWith, statement. rewrite then_perform, then_set, then_get. cbn [fst snd]. set (w := world s.2 (OSql (QCreate n))). rewrite then_eq. pose proof (others s.2 (QCreate n) s.1) as Ho. fold w in Ho.
  exists [mk_happened (OSql (QCreate n)) w]. unfold id. destruct (insertDeployment aead nonce Marshal (before w s.1) (new_record Parse n) (at_ w)) as [e|[db' d]] eqn:E, (how w); cbn [fst snd mret mset ook refuse]; (split; [done|]); try done.
  intros ? [= <-]. by exists (before w s.1), (at_ w).
Qed.

(** What a request has resolved to, by the database as it was read last. *)
Definition image_fits (image : string) (a : App) : Prop :=
  image ≠ "" → a_Static a = None ∧ (is_Some (a_Build a) → IsLocalImage image = true).
Definition fits (rq : request) (db : DB) (o : origin) : Prop :=
  o_dormant o = false ∧
  match rq with
  | Document a plain =>
      o_kind o = KindDeploy ∧ o_sourceID o = None ∧ o_static o = None ∧ MaskedFields a = [] ∧
      ∃ secrets scoped, no_missing secrets a ∧ filled_in secrets a (o_spec o) ∧ scoped_names secrets a scoped ∧
        o_references o = For (mk_references (ref_Env (ReferencesOf a)) (ref_BasicAuth (ReferencesOf a)) plain scoped (ref_Logging (ReferencesOf a))) a
  | Again name image =>
      o_kind o = KindRedeploy ∧ o_references o = no_references ∧
      ∃ a active, Store.GetApplication db name = inr a ∧ app_ActiveDeploymentID a = Some (d_ID active) ∧ Store.GetDeployment aead db (d_ID active) = inr active ∧
        o_sourceID o = Some (d_ID active) ∧ o_static o = staticOf active ∧ image_fits image (d_Spec active) ∧
        o_spec o = (if String.eqb image "" then d_Spec active else with_image (d_Spec active) image)
  | Back name target =>
      o_kind o = KindRollback ∧ o_references o = no_references ∧
      ∃ a t, Store.GetApplication db name = inr a ∧ is_Some (app_ActiveDeploymentID a) ∧ Store.GetDeployment aead db (d_ID t) = inr t ∧
        d_Status t = StatusSuperseded ∧ d_ApplicationID t = app_ID a ∧ o_sourceID o = Some (d_ID t) ∧ o_static o = staticOf t ∧ o_spec o = d_Spec t ∧
        (if target =? 0 then newest_superseded db (app_ID a) (d_Sequence t) else d_ID t = target)
  end.
Definition resolves (rq : request) : OM (op_error + origin) :=
  match rq with Document a plain => deploy_origin world a plain | Again name image => redeploy_origin world aead name image | Back name target => rollback_origin world aead name target end.
Definition usable_image (rq : request) : Prop :=
  match rq with Again name image => image ≠ "" → is_Some (Parse image) ∧ (IsLocalImage image = true → has_prefix (LocalImagePrefix name) image = true) | _ => True end.

Lemma document_fits a plain : does (deploy_origin world a plain) (λ db r db' evs, db' = db ∧ ∀ o, r = inr o → fits (Document a plain) db' o).
Proof.
  unfold deploy_origin, resolved. intros s. unfold otry. rewrite !then_eq. cbn [Effects.perform fst snd]. set (get := world s.2 OSecrets). pose proof (resolveSecrets_resolution get a) as Hr.
  exists [mk_happened OSecrets get]. destruct (resolveSecrets get a) as [e|[filled scoped]]; cbn [fst snd mret ook refuse]; (split; [done|]); (split; [done|]); [done|]. intros o [= <-].
  destruct Hr as (Hm & secrets & _ & H1 & _ & H2 & H3). split; [done|]. split_and!; [done..|]. by exists secrets, scoped.
Qed.
Lemma redeploy_fits image : does (redeploy_origin world aead name image) (λ db r db' evs, passed name db db' ∧ (wf db → ∀ o, r = inr o → fits (Again name image) db' o)).
Proof.
  unfold redeploy_origin. eapply does_weaken.
  { apply does_otry; [apply (read_passes (QApplication name) (λ db, Store.GetApplication db name))|]. intros a.
    instantiate (1 := λ a db r db' evs, passed name db db' ∧ (wf db → Store.GetApplication db name = inr a → ∀ o, r = inr o → fits (Again name image) db' o)). cbv beta.
    destruct (app_ActiveDeploymentID a) as [id|] eqn:Eid.
    2:{ eapply does_weaken; [apply does_ret|]. cbv beta. intros s r s' evs (-> & -> & ->). split; [apply passed_refl|done]. }
    eapply does_weaken.
    { apply does_otry; [apply (read_passes (QDeployment id) (λ db, Store.GetDeployment aead db id))|]. intros d.
      instantiate (1 := λ d db r db' evs, db' = db ∧ ∀ o, r = inr o → image_fits image (d_Spec d) ∧ o = mk_origin (if String.eqb image "" then d_Spec d else with_image (d_Spec d) image) KindRedeploy (Some (d_ID d)) (staticOf d) false no_references).
      cbv beta zeta. unfold image_fits. destruct (String.eqb_spec image "") as [->|Hi].
      - eapply does_weaken; [apply does_ret|]. cbv beta. intros s r s' evs (-> & -> & ->). split; [done|]. by intros o [= <-].
      - destruct (bool_decide (is_Some (a_Static (d_Spec d)))) eqn:E1; [eapply does_weaken; [apply does_ret|]; cbv beta; by intros s r s' evs (-> & -> & ->)|].
        destruct (bool_decide (is_Some (a_Build (d_Spec d))) && negb (IsLocalImage image)) eqn:E2; [eapply does_weaken; [apply does_ret|]; cbv beta; by intros s r s' evs (-> & -> & ->)|].
        eapply does_weaken; [apply does_ret|]. cbv beta. intros s r s' evs (-> & -> & ->). split; [done|]. intros o [= <-]. split; [|done]. intros _. apply bool_decide_eq_false in E1. split; [by apply eq_None_not_Some|].
        intros Hb. rewrite bool_decide_eq_true_2 in E2 by done. cbn [andb] in E2. by apply negb_false_iff in E2. }
    cbv beta. intros s r s' evs [(e & [Hp _] & ->)|(d & s1 & ev1 & ev2 & [Hp Hd] & [-> Ho] & ->)]; (split; [done|]); [done|]. intros Hwf Ha o Hr.
    destruct (Ho o Hr) as [Hf ->]. specialize (Hd d eq_refl). destruct (proj1 (proj2 Hp) a Ha) as (a' & Ha' & _ & Hact). split; [done|]. split_and!; [done..|]. pose proof (passed_wf _ _ _ _ _ _ Hwf Hp) as Hwf1.
    destruct (deployment_row aead s1 id d Hwf1 Hd) as (w & b & spec & _ & _ & _ & _ & _ & D1 & _). exists a', d. rewrite D1. split_and!; try done. congruence. }
  cbv beta. intros s r s' evs [(e & [Hp _] & ->)|(a & s1 & ev1 & ev2 & [Hp Ha] & [Hp2 Ho] & ->)]; [by split|]. split; [by eapply passed_trans|]. intros Hwf. apply Ho; [by eapply passed_wf|by apply Ha].
Qed.

Definition target_of (target : Z) (app : Application) (db : DB) (t : Deployment) : Prop :=
  Store.GetDeployment aead db (d_ID t) = inr t ∧ d_Status t = StatusSuperseded ∧ d_ApplicationID t = app_ID app ∧
  (if target =? 0 then newest_superseded db (app_ID app) (d_Sequence t) else d_ID t = target).
Lemma target_passes app target : name ≠ "" → does (rollback_target world aead name app target) (λ db r db' evs, passed name db db' ∧
  (wf db → Store.GetApplication db name = inr app → ∀ t, r = inr t → target_of target app db' t ∧ ∃ app', Store.GetApplication db' name = inr app' ∧ app_ID app' = app_ID app ∧ app_ActiveDeploymentID app' = app_ActiveDeploymentID app)).
Proof.
  intros Hne. unfold rollback_target, target_of. destruct (Z.eqb_spec target 0) as [->|Ht].
  - eapply does_weaken.
    { apply does_otry; [apply (read_passes (QDeployments _) (λ db, Store.ListDeployments aead db _))|]. intros l.
      instantiate (1 := λ l db r db' evs, db' = db ∧ ∀ t, r = inr t → ∃ rest, l = t :: rest). destruct l; (eapply does_weaken; [apply does_ret|]); cbv beta; intros s r s' evs (-> & -> & ->); (split; [done|]); [done|]. intros t [= <-]. by eexists. }
    cbv beta. intros s r s' evs [(e & [Hp _] & ->)|(l & s1 & ev1 & ev2 & [Hp Hl] & [-> Hr] & ->)]; [by split|]. split; [done|]. intros Hwf Ha t Et. destruct (Hr t Et) as [rest ->].
    destruct (proj1 (proj2 Hp) _ Ha) as (a' & Ha' & E1 & E2). destruct (listed_first aead nonce s1 name a' t rest) as (L1 & L2 & L3 & L4); [by eapply passed_wf|done|done|by apply Hl|]. split; [|by exists a']. by rewrite <- E1.
  - eapply does_weaken.
    { apply does_otry; [apply (read_passes (QDeployment target) (λ db, Store.GetDeployment aead db target))|]. intros d.
      instantiate (1 := λ d db r db' evs, db' = db ∧ ∀ t, r = inr t → t = d ∧ d_ApplicationID d = app_ID app ∧ d_Status d = StatusSuperseded).
      destruct (negb (d_ApplicationID d =? app_ID app) || negb (bool_decide (d_Status d = StatusSuperseded))) eqn:E; (eapply does_weaken; [apply does_ret|]); cbv beta; intros s r s' evs (-> & -> & ->); (split; [done|]); [done|]. intros t [= <-].
      apply orb_false_iff in E as [E1%negb_false_iff%Z.eqb_eq E2%negb_false_iff%bool_decide_eq_true]. done. }
    cbv beta. intros s r s' evs [(e & [Hp _] & ->)|(d & s1 & ev1 & ev2 & [Hp Hd] & [-> Hr] & ->)]; [by split|]. split; [done|]. intros Hwf Ha t Et. destruct (Hr t Et) as (-> & E1 & E2).
    specialize (Hd d eq_refl). destruct (deployment_row aead s1 target d) as (w & b & spec & _ & _ & _ & _ & _ & D1 & _); [by eapply passed_wf|done|]. rewrite D1. split; [done|].
    destruct (proj1 (proj2 Hp) _ Ha) as (a' & Ha' & F1 & F2). by exists a'.
Qed.
Lemma rollback_fits target : name ≠ "" → does (rollback_origin world aead name target) (λ db r db' evs, passed name db db' ∧ (wf db → ∀ o, r = inr o → fits (Back name target) db' o)).
Proof.
  intros Hne. unfold rollback_origin. eapply does_weaken.
  { apply does_otry; [apply (read_passes (QApplication name) (λ db, Store.GetApplication db name))|]. intros a.
    instantiate (1 := λ a db r db' evs, passed name db db' ∧ (wf db → Store.GetApplication db name = inr a → ∀ o, r = inr o → fits (Back name target) db' o)). cbv beta.
    destruct (app_ActiveDeploymentID a) as [id|] eqn:Eid.
    2:{ eapply does_weaken; [apply does_ret|]. cbv beta. intros s r s' evs (-> & -> & ->). split; [apply passed_refl|done]. }
    eapply does_weaken; [apply does_otry; [by apply (target_passes a target)|]; intros t; apply does_ret|]. cbv beta.
    intros s r s' evs [(e & [Hp _] & ->)|(t & s1 & ev1 & ev2 & [Hp Ht] & (-> & -> & ->) & ->)]; (split; [done|]); [done|]. intros Hwf Ha o [= <-].
    destruct (Ht Hwf Ha t eq_refl) as ((T1 & T2 & T3 & T4) & a' & Ha' & E1 & E2). split; [done|]. split_and!; [done..|]. exists a', t. rewrite E1, E2, Eid. by split_and!. }
  cbv beta. intros s r s' evs [(e & [Hp _] & ->)|(a & s1 & ev1 & ev2 & [Hp Ha] & [Hp2 Ho] & ->)]; [by split|]. split; [by eapply passed_trans|]. intros Hwf. apply Ho; [by eapply passed_wf|by apply Ha].
Qed.

(** What was resolved is still so when the record is made. *)
Lemma inserted_source db n now db' d s : insertDeployment aead nonce Marshal db (new_record Parse n) now = inr (db', d) → n_SourceID n = Some s → ∃ w, w ∈ deployments db ∧ w_id w = s.
Proof.
  intros H Hs. unfold insertDeployment in H. destruct (store_sealSpec _ _ _); [|done]. destruct (register _ _ _). replace (d_SourceID (new_record Parse n)) with (Some s) in H by (rewrite <- Hs; unfold new_record; by destruct (n_Static n)).
  destruct (existsb (λ w, w_id w =? s) (deployments db)) eqn:E; [|done]. apply existsb_exists in E as (w & Hw & Hi%Z.eqb_eq). exists w. by rewrite list_elem_of_In.
Qed.
Lemma fits_chosen rq db db1 o n : wf db → application_of rq = name → usable_image rq → fits rq db o → passed name db db1 →
  n_Spec n = o_spec o → n_Kind n = o_kind o → n_SourceID n = o_sourceID o → n_Static n = o_static o → (o_sourceID o = None → n_References n = o_references o) →
  (∀ s, n_SourceID n = Some s → ∃ w, w ∈ deployments db1 ∧ w_id w = s) → chosen rq db1 n.
Proof.
  intros Hwf Hname Hi [_ Hf] Hp N1 N2 N3 N4 N5 Hrow. destruct rq as [a plain|? image|? target]; cbn [application_of] in Hname; subst; cbn [chosen usable_image] in *; rewrite N1, N2, N3, N4.
  - destruct Hf as (F1 & F2 & F3 & F4 & secrets & scoped & F5 & F6 & F7 & F8). split_and!; [done..|]. exists secrets, scoped. split_and!; [done..|]. by rewrite N5.
  - destruct Hf as (F1 & _ & a & active & F3 & F4 & F5 & F6 & F7 & F8 & F9). split; [done|]. destruct (active_again _ _ _ name db db1 a _ active Hwf Hp F3 F4 F5) as (a' & d' & A1 & A2 & A3 & A4 & A5 & A6 & A7).
    exists a', d'. rewrite A4, A6, A7. split_and!; [done..|]. intros Hne. destruct (F8 Hne). by destruct (Hi Hne).
  - destruct Hf as (F1 & _ & a & t & F3 & F4 & F5 & F6 & F7 & F8 & F9 & F10 & F11). split; [done|]. destruct (target_again _ _ _ name db db1 a t Hwf Hp F3 F5 F6 F7) as (a' & t' & A1 & A2 & A3 & A4 & A5 & A6 & A7 & A8 & A9 & A10).
    { apply Hrow. by rewrite N3. }
    exists a', t'. rewrite A2, A3, A5, A8, A9, A10. split_and!; [done..|]. destruct (target =? 0); [by eapply newest_again|done].
Qed.

(** A redeploy and a rollback keep the references of what they deploy again. *)
Definition references_of (db db1 : DB) (n : NewDeployment) : Prop :=
  ∀ source, n_SourceID n = Some source → ∃ db0, passed name db db0 ∧ passed name db0 db1 ∧ stored_references aead Unmarshal db0 source = inr (n_References n).
Definition begun (rq : request) (db db' : DB) (d : Deployment) : Prop :=
  ∃ n db1 now, passed name db db1 ∧ insertDeployment aead nonce Marshal db1 (new_record Parse n) now = inr (db', d) ∧ chosen rq db1 n ∧ references_of db db1 n ∧ n_Actor n = actor.
Lemma resolves_fits rq : name ≠ "" → application_of rq = name → does (resolves rq) (λ db r db' evs, passed name db db' ∧ (wf db → ∀ o, r = inr o → fits rq db' o)).
Proof.
  intros Hne Hname. destruct rq as [a plain|? image|? target]; cbn in Hname |- *; try subst; cbn [resolves].
  - eapply does_weaken; [apply document_fits|]. cbv beta. intros s r s' evs [-> H]. split; [apply passed_refl|by intros _].
  - apply redeploy_fits.
  - by apply rollback_fits.
Qed.
Lemma references_passes o : does (referencesOf world aead Unmarshal o) (λ db r db' evs, passed name db db' ∧ ∀ refs, r = inr refs →
  (o_sourceID o = None → refs = o_references o) ∧ (o_references o = no_references → ∀ source, o_sourceID o = Some source → stored_references aead Unmarshal db' source = inr refs)).
Proof.
  unfold referencesOf. destruct (o_sourceID o) as [id|]; [destruct (Empty (o_references o)) eqn:E|].
  - eapply does_weaken; [apply (read_passes (QReferences id) (λ db, stored_references aead Unmarshal db id))|]. cbv beta. intros s r s' evs [Hp H]. split; [done|]. intros refs Hr. split; [done|]. intros _ source [= <-]. by apply H.
  - eapply does_weaken; [apply does_ret|]. cbv beta. intros s r s' evs (-> & -> & ->). split; [apply passed_refl|]. intros refs [= <-]. split; [done|]. intros Hn. by rewrite Hn in E.
  - eapply does_weaken; [apply does_ret|]. cbv beta. intros s r s' evs (-> & -> & ->). split; [apply passed_refl|]. by intros refs [= <-].
Qed.
Lemma recorded_begun rq : name ≠ "" → application_of rq = name → usable_image rq →
  does (recorded world aead nonce Marshal Unmarshal Parse DNSChallenge actor (resolves rq)) (λ db r db' evs, ∀ o d, r = inr (o, d) → d_Status d = StatusPending ∧ (wf db → o_dormant o = false ∧ begun rq db db' d)).
Proof.
  intros Hne Hname Hi. unfold recorded. eapply does_weaken.
  { apply does_otry; [by apply (resolves_fits rq)|]. intros o. apply does_otry; [exact (admits_does world nonce Unmarshal Parse DNSChallenge actor (o_spec o))|]. intros u. apply does_otry; [apply (references_passes o)|]. intros refs.
    apply does_otry; [apply create_passes|]. intros d. apply does_ret. }
  cbv beta. intros s r s' evs [(e & _ & ->)|(o & s1 & ev1 & ev2 & [Hp Hf] & [(e & _ & ->)|(u & s2 & ev3 & ev4 & (-> & _ & _) & [(e & _ & ->)|(refs & s3 & ev5 & ev6 & [Hp2 Hr] & [(e & _ & ->)|(d & s4 & ev7 & ev8 & Hc & (-> & -> & _) & _)] & _)] & _)] & _)]; intros o' d'; [done..|]. intros [= <- <-].
  destruct (Hc d eq_refl) as (db1 & now & Hp3 & Hins). pose proof (insertDeployment_inv _ _ _ _ _ _ _ _ Hins) as (apps & id & sealed & rr & _ & _ & _ & _ & _ & _ & Hst & _). split; [done|]. intros Hwf.
  pose proof (Hf Hwf o eq_refl) as Hfit. destruct (Hr refs eq_refl) as [R1 R2]. split; [apply Hfit|]. set (n := mk_new (o_spec o) (o_kind o) (o_sourceID o) actor (o_static o) refs) in *. exists n, db1, now.
  split; [by eapply passed_trans; [exact Hp|eapply passed_trans]|]. split; [done|]. split.
  - eapply (fits_chosen rq s1 db1 o n); try done; [by eapply passed_wf|by eapply passed_trans|intros src Hs; by eapply inserted_source].
  - split; [|done]. intros source Hs. exists s3. split; [by eapply passed_trans|]. split; [done|]. apply R2; [|done]. destruct Hfit as [_ Hfit]. destruct rq; [destruct Hfit as (_ & E & _); cbn in Hs; congruence|by destruct Hfit as (_ & -> & _)..].
Qed.
Lemma start_begun rq : name ≠ "" → application_of rq = name → usable_image rq →
  does (start world aead nonce Marshal Unmarshal Sprintf Parse DNSChallenge actor name (resolves rq)) (λ db r db' evs, wf db → ∀ d, r = inr d → begun rq db db' d).
Proof.
  intros Hne Hname Hi. unfold start.
  assert (∀ r : op_error + (origin * Deployment), match r with inr (_, d) => d_Status d = StatusPending | _ => True end → does (match r with
    | inl e => let! _ := unlock world name in refuse e
    | inr (o, d) =>
        let! marked := if o_dormant o then write world (QDormant (d_ID d)) (λ _ db, MarkDeploymentDormant db (d_ID d)) else ook tt in
        match marked with
        | inl e => let! _ := failUnstarted world Sprintf d (cause_of e) in let! _ := unlock world name in refuse e
        | inr _ => let! _ := Effects.perform world (OLaunch d (o_dormant o)) in ook d
        end
    end) (λ s a s' evs, match r with inl e => a = inl e | inr (o, d) => o_dormant o = false → ∀ d', a = inr d' → d' = d ∧ s' = s end)) as Hk.
  { intros [e|[o d]] Hd.
    - eapply does_weaken; [apply does_then; [apply (unlock_does world name)|]; intros v _; apply does_ret|]. cbv beta. by intros s r s' evs (a & s1 & ev1 & ev2 & -> & (-> & _ & ->) & ->).
    - destruct (o_dormant o) eqn:Ed.
      + pose proof (handed_on_does world Sprintf name o d Hd) as H. rewrite Ed in H. eapply does_weaken; [exact H|]. done.
      + intros s. exists [mk_happened (OLaunch d false) (world s.2 (OLaunch d false))]. split; [reflexivity|]. intros _ d' H. by injection H as <-. }
  eapply does_weaken.
  { apply does_otry; [apply does_failing, (does_perform world (OLock name))|]. intros u. apply does_then; [by apply (recorded_begun rq)|]. intros r (s0 & s1 & evs & Hr). apply Hk. destruct r as [|[o d]]; [done|]. by destruct (Hr o d eq_refl). }
  cbv beta. intros s r s' evs [(e & _ & ->)|(u & s1 & ev1 & ev2 & (a & [-> _] & _) & ([e|[o d]] & s2 & ev3 & ev4 & H1 & H2 & ->) & ->)] Hwf d'; [done|by subst r|]. intros Hr.
  destruct (H1 o d eq_refl) as [_ H3]. destruct (H3 Hwf) as [Hd Hb]. by destruct (H2 Hd d' Hr) as [-> ->].
Qed.
End Chosen.

(** ** Stopping and deleting *)

Section Ending.
Context (world : trace → ∀ c, oanswer c) (aead : option AEAD) (Sprintf : text → string) (StopTimeout : Z) (uploads : bool) (actor : string).

(** Calls that neither stop, remove nor delete anything, and write no state. *)
Definition aside (ev : event) : Prop :=
  match what ev with
  | OStop _ _ | ORemove _ | ORelease _ | OOpDone | OLaunch _ _ => False
  | OSql q => match q with QDelete _ | QDesired _ _ | QCreate _ => False | _ => True end
  | _ => True
  end.
Definition stays_aside {A} (m : OM A) : Prop := does m (λ _ _ _ evs, Forall aside evs).
Lemma aside_ret {A} (a : A) : stays_aside (mret a).
Proof. intros s. by exists []. Qed.
Lemma aside_perform c : (∀ a, aside (mk_happened c a)) → stays_aside (Effects.perform world c).
Proof. intros H s. eexists [_]. split; [done|]. by constructor. Qed.
Lemma aside_statement {A} q (sql : Time → DB → store_error + (DB * A)) : (∀ w, aside (mk_happened (OSql q) w)) → stays_aside (statement world q sql).
Proof. intros H. eapply does_weaken; [apply statement_does|]. intros db r db' evs (w & -> & _). by constructor. Qed.
Lemma aside_then {A B} (m : OM A) (k : A → OM B) : stays_aside m → (∀ a, stays_aside (k a)) → stays_aside (mthen m k).
Proof. intros Hm Hk. eapply does_weaken; [exact (does_then m k (λ _ _ _ evs, Forall aside evs) (λ _ _ _ _ evs, Forall aside evs) Hm (λ a _, Hk a))|]. cbn. intros ? ? ? ? (? & ? & ? & ? & ? & ? & ->). by apply Forall_app. Qed.
Lemma aside_otry {A B} (m : OM (op_error + A)) (k : A → OM (op_error + B)) : stays_aside m → (∀ a, stays_aside (k a)) → stays_aside (otry m k).
Proof. intros Hm Hk. apply aside_then; [done|]. intros [e|a]; [apply aside_ret|apply Hk]. Qed.
Lemma aside_failing (m : OM error) : stays_aside m → stays_aside (failing m).
Proof. intros Hm. apply aside_then; [done|]. intros [e|]; apply aside_ret. Qed.
Lemma aside_loop {A} (f : A → OM unit) l : (∀ x, stays_aside (f x)) → stays_aside (mloop f l).
Proof. intros Hf. induction l as [|x l IH]; [apply aside_ret|]. apply aside_then; [apply Hf|]. by intros _. Qed.
Ltac aside :=
  repeat (intros; cbv beta zeta;
    first [ assumption
          | lazymatch goal with
            | |- stays_aside (mret _) => apply aside_ret
            | |- stays_aside (ook _) => apply aside_ret
            | |- stays_aside (refuse _) => apply aside_ret
            | |- stays_aside (read _ _ _) => apply aside_statement; intros; exact I
            | |- stays_aside (write _ _ _) => apply aside_statement; intros; exact I
            | |- stays_aside (Effects.perform _ _) => apply aside_perform; intros; exact I
            | |- stays_aside (failing _) => apply aside_failing
            | |- stays_aside (otry _ _) => apply aside_otry
            | |- stays_aside (mloop _ _) => apply aside_loop
            | |- stays_aside (mthen _ _) => apply aside_then
            | |- stays_aside (match ?x with _ => _ end) => destruct x
            end ]).
Lemma add_event_aside app dep level typ msg : stays_aside (add_event world Sprintf app dep level typ msg).
Proof. unfold add_event. aside. Qed.
Lemma grace_aside id : stays_aside (gracePeriodOf world aead StopTimeout id).
Proof. unfold gracePeriodOf, GetDeployment. aside. Qed.
Lemma killed_aside app id name dep timeout what_ : stays_aside (noteKilled world aead Sprintf app id name dep timeout what_).
Proof. pose proof add_event_aside. unfold noteKilled, killedAdvice, GetDeployment. aside; done. Qed.
Lemma images_aside app everything : stays_aside (pruneCandidates world aead app everything).
Proof.
  unfold pruneCandidates, deployedImages, ListDeployments. assert (∀ prefix local images, stays_aside (local_candidates world prefix everything images local)) as H; [|by aside].
  intros prefix. induction local as [|i local IH]; intros images; cbn [local_candidates]; [aside|]. unfold olderThan. aside; done.
Qed.
Lemma kept_aside : stays_aside (keptImages world aead).
Proof. unfold keptImages, ListApplications. apply aside_otry; [aside|]. intros apps. induction apps as [|a apps IH]; cbn [kept_each]; [aside|]. unfold GetDeployment, ListDeployments. aside. Qed.
Lemma prune_aside l : stays_aside (pruneImages world aead l).
Proof.
  unfold pruneImages. apply aside_then; [apply kept_aside|]. intros [e|keep]; [aside|]. induction l as [|i l IH]; cbn [remove_images]; [aside|]. aside.
Qed.
Lemma static_aside name : stays_aside (removeStaticFiles world aead uploads name).
Proof. unfold removeStaticFiles, ListDeployments. aside. Qed.
Lemma still_aside l : stays_aside (still_there world l).
Proof. induction l as [|c l IH]; cbn [still_there]; aside. Qed.
Definition stopped_well (ev : event) : Prop := ∃ c g, ev = mk_happened (answer := oanswer) (OStop c g) None.
Lemma stops_does grace l : does (each_of (stop_replica world grace) l) (λ s r s' evs,
  what <$> evs = reverse ((λ r, OStop (r_ContainerID r) grace) <$> l) ∧ (r = inr tt ↔ Forall stopped_well evs)).
Proof.
  induction l as [|x l IH]; cbn [each_of].
  - eapply does_weaken; [apply does_ret|]. cbv beta. intros s r s' evs (-> & _ & ->). by repeat constructor.
  - assert (does (stop_replica world grace x) (λ s r s' evs, ∃ a, evs = [mk_happened (answer := oanswer) (OStop (r_ContainerID x) grace) a] ∧ (r = inr tt ↔ a = None))) as Hx.
    { intros s. unfold stop_replica. rewrite then_eq. cbn [Effects.perform fst snd]. set (a := world s.2 (OStop (r_ContainerID x) grace)). exists [mk_happened (OStop (r_ContainerID x) grace) a]. destruct a; cbn; (split; [done|]); eexists; (split; [done|]); done. }
    eapply does_weaken; [apply does_then; [exact Hx|]; intros r _; apply does_then; [exact IH|]; intros more _; apply does_ret|]. cbv beta.
    intros s r s' evs (r1 & s1 & ev1 & ev2 & (a & -> & H1) & (more & s2 & ev3 & ev4 & (E & H2) & (-> & _ & ->) & ->) & ->). split.
    + cbn [app]. rewrite fmap_app, E, (fmap_cons _ x l), reverse_cons. done.
    + cbn [app]. rewrite Forall_app. rewrite <- H2. split.
      * intros Hr. destruct r1 as [e|[]]; [done|]. split; [done|]. constructor; [|constructor]. rewrite (proj1 H1 eq_refl). by eexists _, _.
      * intros [Hm Hf]. apply Forall_cons in Hf as [(c & g & Hf) _]. assert (a = None) as Ha. { pose (answered_stop := λ ev : event, match ev with mk_happened c x => match c return oanswer c → option text with OStop _ _ => λ x, x | _ => λ _, None end x end). by apply (f_equal answered_stop) in Hf. } by rewrite (proj2 H1 Ha).
Qed.
Lemma unlock_keeps name : does (unlock world name) (λ s r s' evs, s' = s ∧ evs = given_back name).
Proof. eapply does_weaken; [apply does_then; [apply (does_perform world (ORelease name))|]; intros u _; apply (does_perform world OOpDone)|]. cbv beta. intros s [] s' evs ([] & s1 & ev1 & ev2 & [-> ->] & [-> ->] & ->). done. Qed.
Definition Lock (name : string) (e : error) : event := mk_happened (answer := oanswer) (OLock name) e.
(** Under the lock, with the replicas of the active deployment, or not at all. *)
Lemma withActive_does name fn Q : (∀ app id replicas, does (fn app id replicas) (Q app id replicas)) → does (withActive world name fn) (λ s r s' evs,
  (∃ e, evs = [Lock name (Some e)] ∧ ∃ e', r = inl e') ∨ ∃ mid, evs = (given_back name ++ mid ++ [Lock name None])%list ∧
    (Forall aside mid ∧ (∃ e, r = inl e) ∨
     ∃ app id reads after_ s1, mid = (after_ ++ reads)%list ∧ Forall aside reads ∧ app_ActiveDeploymentID app = Some id ∧ Q app id (Store.ListReplicas s1 id) s1 r s' after_)).
Proof.
  intros Hfn. unfold withActive.
  set (body := on! app := GetApplication world name in match app_ActiveDeploymentID app with None => refuse ErrNotDeployed | Some id => on! replicas := ListReplicas world id in fn app id replicas end).
  assert (does body (λ s r s' evs, Forall aside evs ∧ (∃ e, r = inl e) ∨
     ∃ app id reads after_ s1, evs = (after_ ++ reads)%list ∧ Forall aside reads ∧ app_ActiveDeploymentID app = Some id ∧ Q app id (Store.ListReplicas s1 id) s1 r s' after_)) as Hbody.
  { unfold body. eapply does_weaken.
    { apply does_otry; [apply (read_does world (QApplication name))|]. intros app.
      instantiate (1 := λ app s r s' evs, Forall aside evs ∧ (∃ e, r = inl e) ∨ ∃ id reads after_ s1, evs = (after_ ++ reads)%list ∧ Forall aside reads ∧ app_ActiveDeploymentID app = Some id ∧ Q app id (Store.ListReplicas s1 id) s1 r s' after_).
      cbv beta. destruct (app_ActiveDeploymentID app) as [id|].
      - eapply does_weaken; [apply does_otry; [apply (read_does world (QReplicas id) (λ db, inr (Store.ListReplicas db id)))|]; intros replicas; apply (Hfn app id replicas)|]. cbv beta.
        intros s r s' evs [(e & (w & -> & _) & ->)|(l & s1 & ev1 & ev2 & (w & -> & _ & Hl) & H & ->)]; [left; split; [by repeat constructor|by eexists]|].
        specialize (Hl l eq_refl). injection Hl as <-. right. exists id, [mk_happened (OSql (QReplicas id)) w], ev2, s1. split_and!; [done|by repeat constructor|done|done].
      - eapply does_weaken; [apply does_ret|]. cbv beta. intros s r s' evs (-> & _ & ->). left. split; [constructor|by eexists]. }
    cbv beta. intros s r s' evs [(e & (w & -> & _) & ->)|(app & s1 & ev1 & ev2 & (w & -> & _) & [[H1 H2]|(id & reads & after_ & s2 & -> & H1 & H2 & H3)] & ->)].
    - left. split; [by repeat constructor|by eexists].
    - left. split; [apply Forall_app; split; [done|by repeat constructor]|done].
    - right. exists app, id, (reads ++ [mk_happened (OSql (QApplication name)) w])%list, after_, s2. split_and!; [by rewrite app_assoc|apply Forall_app; split; [done|by repeat constructor]|done|done]. }
  eapply does_weaken; [apply does_otry; [apply does_failing, (does_perform world (OLock name))|]; intros u; apply does_then; [exact Hbody|]; intros r _; apply does_then; [apply unlock_keeps|]; intros v _; apply does_ret|].
  cbv beta. intros s r s' evs [(e & (a & [_ ->] & Ha) & ->)|(u & s1 & ev1 & ev2 & (a & [_ ->] & Ha) & (r1 & s2 & ev3 & ev4 & H & (v & s3 & ev5 & ev6 & [-> ->] & (-> & -> & ->) & ->) & ->) & ->)].
  - left. destruct a as [e'|]; [|done]. exists e'. split; [done|by eexists].
  - destruct a; [done|]. right. exists ev3. split; [cbn; done|exact H].
Qed.

(** What stopping an application comes to, once its replicas are known. *)
Definition stopping (app : Application) (id : Z) (replicas : list Replica) (r : op_error + unit) (after_ : trace) : Prop :=
  ∃ w rest, after_ = (rest ++ [mk_happened (OSql (QDesired (app_ID app) DesiredStopped)) w])%list ∧
    ((rest = [] ∧ (∃ e, r = inl e) ∧ (how w = Taken → ∃ e db, Store.SetDesiredState db (app_ID app) DesiredStopped (at_ w) = inl e)) ∨
     how w = Taken ∧ ∃ grace synced asked stops tail, rest = (tail ++ stops ++ asked ++ [mk_happened OSyncProxy synced])%list ∧
       Forall aside asked ∧ Forall aside tail ∧ what <$> stops = reverse ((λ r, OStop (r_ContainerID r) grace) <$> replicas) ∧
       (r = inr tt ↔ Forall stopped_well stops)).
Lemma stop_all_does app id replicas : does (stop_all world aead Sprintf StopTimeout actor app id replicas) (λ s r s' evs, stopping app id replicas r evs).
Proof.
  unfold stop_all, SetDesiredState.
  assert (∀ grace, stays_aside (let! _ := mloop (note_stopped world aead Sprintf app grace) replicas in let! _ := appEvent world Sprintf app (byActor actor [L "Application stopped"]) in ook tt)) as Htail.
  { intros grace. apply aside_then; [apply aside_loop; intros x; unfold note_stopped; apply aside_then; [apply killed_aside|]; intros u; by apply aside_perform|]. intros u. apply aside_then; [apply add_event_aside|]. intros v. apply aside_ret. }
  assert (∀ grace, does (on! _ := each_of (stop_replica world grace) replicas in let! _ := mloop (note_stopped world aead Sprintf app grace) replicas in let! _ := appEvent world Sprintf app (byActor actor [L "Application stopped"]) in ook tt)
    (λ s r s' evs, ∃ stops tail, evs = (tail ++ stops)%list ∧ Forall aside tail ∧ what <$> stops = reverse ((λ r, OStop (r_ContainerID r) grace) <$> replicas) ∧ (r = inr tt ↔ Forall stopped_well stops))) as Hstops.
  { intros grace s. unfold otry. rewrite then_eq. destruct (stops_does grace replicas s) as (ev1 & E1 & H1 & H2). destruct (each_of (stop_replica world grace) replicas s) as [[e|[]] [s1 h1]]; cbn [fst snd] in *; subst h1.
    - exists ev1. split; [done|]. exists ev1, []. split_and!; [done|constructor|done|done].
    - destruct (Htail grace (s1, ev1 ++ s.2)%list) as (ev2 & E2 & H3). exists (ev2 ++ ev1)%list. rewrite E2. cbn [fst snd]. split; [by rewrite app_assoc|]. exists ev1, ev2. split_and!; [done|done|done|].
      rewrite <- H2. split; [done|]. intros _. unfold mthen. destruct (mloop _ _ _). by destruct (appEvent _ _ _ _ _). }
  eapply does_weaken.
  { apply does_otry; [apply (statement_does world)|]. intros u. apply does_then; [apply (does_perform world OSyncProxy)|]. intros v _.
    apply (does_then _ _ (λ _ _ _ evs, Forall aside evs)); [apply grace_aside|]. intros grace _. apply (Hstops grace). }
  cbv beta. intros s r s' evs [(e & (w & -> & _ & Ht) & ->)|(u & s1 & ev1 & ev2 & (w & -> & Ht & _) & (v & s2 & ev3 & ev4 & [_ ->] & (grace & s3 & ev5 & ev6 & Ha & (stops & tail & -> & H1 & H2 & H3) & ->) & ->) & ->)]; exists w.
  - exists []. split; [done|]. left. split_and!; [done|by eexists|]. intros E. destruct (Ht E) as [e' He]. exists e', (before w s). by destruct (Store.SetDesiredState (before w s) (app_ID app) DesiredStopped (at_ w)); [injection He as ->|].
  - eexists. split; [reflexivity|]. right. split; [done|]. exists grace, v, ev5, stops, tail. split_and!; [cbn; by rewrite <- ?app_assoc|done..].
Qed.
(** Calls that leave the application's record, and the lock. *)
Definition leaves_record (ev : event) : Prop :=
  match what ev with OSql (QDelete _) | ORelease _ | OOpDone | OLaunch _ _ => False | _ => True end.
Lemma aside_leaves evs : Forall aside evs → Forall leaves_record evs.
Proof. intros H. eapply Forall_impl; [exact H|]. intros [c a]. unfold aside, leaves_record. by destruct c as [[]| | | | | | | | | | | | | | | | | | | | | | | | | | | | | |]. Qed.
Lemma says_app {c} (a : oanswer c) e1 e2 : says a (e1 ++ e2)%list ↔ says a e1 ∨ says a e2.
Proof. unfold says. apply elem_of_app. Qed.
Lemma retire_does c : does (retire world aead StopTimeout c) (λ s r s' evs, Forall leaves_record evs ∧ (r = inr tt → says (c := ORemove (c_ID c)) None evs)).
Proof.
  unfold retire. assert (∀ e : error, does (match e with
    | Some e => refuse (Failure (L "remove container " :: S' (c_Name c) :: L ": " :: e))
    | None => write world (QRemoved (c_ID c)) (λ now db, inr (MarkReplicaRemoved db (c_ID c) now)) end) (λ s r s' evs, Forall leaves_record evs ∧ (r = inr tt → e = None))) as He.
  { intros [e|]; (eapply does_weaken; [apply does_ret || apply write_does|]); cbv beta; [by intros s r s' evs (-> & _ & ->)|]. intros s r s' evs (w & -> & _). by repeat constructor. }
  eapply does_weaken.
  { apply (does_then _ _ (λ _ _ _ evs, Forall aside evs)); [apply grace_aside|]. intros grace _. apply does_then; [apply (does_perform world (OStop (c_ID c) grace))|]. intros u _.
    apply does_then; [apply (does_perform world (OArchive (c_ID c) true))|]. intros v _. apply does_then; [apply (does_perform world (ORemove (c_ID c)))|]. intros e _. exact (He e). }
  cbv beta. intros s r s' evs (grace & s1 & ev1 & ev2 & H1 & (u & s2 & ev3 & ev4 & [_ ->] & (v & s3 & ev5 & ev6 & [_ ->] & (e & s4 & ev7 & ev8 & [_ ->] & [H2 H3] & ->) & ->) & ->) & ->). split.
  - rewrite !Forall_app. repeat split; [done|by repeat constructor..|by apply aside_leaves].
  - intros Hr. rewrite !says_app. left. left. left. right. rewrite (H3 Hr). by left.
Qed.
Lemma retired_does l : does (each_of (retire world aead StopTimeout) l) (λ s r s' evs, Forall leaves_record evs ∧ (r = inr tt → ∀ c, c ∈ l → says (c := ORemove (c_ID c)) None evs)).
Proof.
  induction l as [|x l IH]; cbn [each_of].
  - eapply does_weaken; [apply does_ret|]. cbv beta. intros s r s' evs (-> & _ & ->). split; [constructor|]. by intros _ c Hc%elem_of_nil.
  - eapply does_weaken; [apply does_then; [apply (retire_does x)|]; intros r _; apply does_then; [exact IH|]; intros more _; apply does_ret|]. cbv beta.
    intros s r s' evs (r1 & s1 & ev1 & ev2 & (H1 & H2) & (more & s2 & ev3 & ev4 & (H3 & H4) & (-> & _ & ->) & ->) & ->). cbn [app]. split; [by apply Forall_app|].
    intros Hr c Hc. destruct r1 as [e|[]]; [done|]. rewrite says_app. apply elem_of_cons in Hc as [->|Hc]; [right; by apply H2|left; by apply H4].
Qed.
Lemma still_there_does l : does (still_there world l) (λ s r s' evs, Forall aside evs ∧ ∀ c, c ∈ l → c ∈ r ∨ says (c := ODraining (c_ID c)) true evs).
Proof.
  induction l as [|x l IH]; cbn [still_there].
  - eapply does_weaken; [apply does_ret|]. cbv beta. intros s r s' evs (-> & _ & ->). split; [constructor|]. by intros c Hc%elem_of_nil.
  - eapply does_weaken; [apply does_then; [apply (does_perform world (ODraining (c_ID x)))|]; intros b _; apply does_then; [exact IH|]; intros more _; apply does_ret|]. cbv beta.
    intros s r s' evs (b & s1 & ev1 & ev2 & [_ ->] & (more & s2 & ev3 & ev4 & (H3 & H4) & (-> & _ & ->) & ->) & ->). cbn [app]. split; [apply Forall_app; split; [done|by repeat constructor]|].
    intros c Hc. rewrite says_app. apply elem_of_cons in Hc as [->|Hc].
    + destruct b; [right; right; by left|left; by left].
    + destruct (H4 c Hc) as [Hm|Hm]; [left|right; by left]. destruct b; [done|by right].
Qed.

(** What is left of an application when its record is deleted. *)
Definition all_gone (name : string) (before_ : trace) : Prop :=
  ∃ listed, says (c := OListContainers name) (inr listed) before_ ∧
    (∀ c, c ∈ listed → says (c := ODraining (c_ID c)) true before_ ∨ says (c := ORemove (c_ID c)) None before_) ∧ says (c := OAwaitDrains name) None before_.
Definition deleting (name : string) (r : op_error + unit) (evs : trace) : Prop :=
  Forall leaves_record evs ∧ (∃ e, r = inl e) ∨
  ∃ app w after_ before_, evs = (after_ ++ mk_happened (OSql (QDelete (app_ID app))) w :: before_)%list ∧ Forall leaves_record after_ ∧ Forall leaves_record before_ ∧ all_gone name before_ ∧
    (r = inr tt → how w = Taken) ∧ (r ≠ inr tt → after_ = [] ∧ (how w = Taken → ∃ db e, DeleteApplication db (app_ID app) = inl e)).
(** The last part of a deletion: the record, then what is kept beside it. *)
Lemma record_goes name app l : does (
    let! images := pruneCandidates world aead name true in
    let! _ := removeStaticFiles world aead uploads name in
    on! _ := write world (QDelete (app_ID app)) (λ _ db, DeleteApplication db (app_ID app)) in
    let! _ := Effects.perform world (OForgetTraffic (app_ID app)) in
    let! _ := Effects.perform world (OPurgeLogs (app_ID app)) in
    let! _ := Effects.perform world OSyncProxy in
    let! _ := pruneImages world aead (match images with inl _ => l | inr l => l end) in
    ook tt) (λ s r s' evs, ∃ w after_ before_, evs = (after_ ++ mk_happened (OSql (QDelete (app_ID app))) w :: before_)%list ∧ Forall leaves_record after_ ∧ Forall leaves_record before_ ∧
    (r = inr tt → how w = Taken) ∧ (r ≠ inr tt → after_ = [] ∧ (how w = Taken → ∃ db e, DeleteApplication db (app_ID app) = inl e))).
Proof.
  assert (∀ images, stays_aside (
    let! _ := Effects.perform world (OForgetTraffic (app_ID app)) in
    let! _ := Effects.perform world (OPurgeLogs (app_ID app)) in
    let! _ := Effects.perform world OSyncProxy in
    let! _ := pruneImages world aead images in ook tt)) as Hrest by (intros images; pose proof (prune_aside images); aside).
  assert (∀ images, does (on! _ := write world (QDelete (app_ID app)) (λ _ db, DeleteApplication db (app_ID app)) in
    let! _ := Effects.perform world (OForgetTraffic (app_ID app)) in
    let! _ := Effects.perform world (OPurgeLogs (app_ID app)) in
    let! _ := Effects.perform world OSyncProxy in
    let! _ := pruneImages world aead images in ook tt) (λ s r s' evs, ∃ w after_, evs = (after_ ++ [mk_happened (OSql (QDelete (app_ID app))) w])%list ∧ Forall leaves_record after_ ∧
    (r = inr tt → how w = Taken) ∧ (r ≠ inr tt → after_ = [] ∧ (how w = Taken → ∃ db e, DeleteApplication db (app_ID app) = inl e)))) as Hwrite.
  { intros images s. unfold otry. rewrite then_eq. destruct (statement_does world (QDelete (app_ID app)) (λ _ db, match DeleteApplication db (app_ID app) with inl e => inl e | inr db => inr (db, tt) end) s) as (ev1 & E1 & w & -> & H1).
    change (statement world (QDelete (app_ID app)) _ s) with (write world (QDelete (app_ID app)) (λ _ db, DeleteApplication db (app_ID app)) s) in *.
    destruct (write world (QDelete (app_ID app)) (λ _ db, DeleteApplication db (app_ID app)) s) as [[e|u] [s1 h1]]; cbn [fst snd] in *; subst h1.
    - exists [mk_happened (OSql (QDelete (app_ID app))) w]. split; [done|]. exists w, []. split_and!; [done|constructor|done|]. intros _. split; [done|]. intros Ht. destruct H1 as [_ H1]. destruct (H1 Ht) as [e' He]. exists (before w s.1). destruct (DeleteApplication (before w s.1) (app_ID app)) as [e''|]; [by exists e''|done].
    - destruct (Hrest images (s1, [mk_happened (OSql (QDelete (app_ID app))) w] ++ s.2)%list) as (ev2 & E2 & H2). exists (ev2 ++ [mk_happened (OSql (QDelete (app_ID app))) w])%list. rewrite E2. cbn [fst snd]. split; [by rewrite <- app_assoc|].
      exists w, ev2. split_and!; [done|by apply aside_leaves|by intros _; apply H1|]. intros Hr. exfalso. apply Hr. unfold mthen, Effects.perform. by destruct (pruneImages _ _ _ _). }
  eapply does_weaken.
  { apply (does_then _ _ (λ _ _ _ evs, Forall aside evs)); [apply images_aside|]. intros images _. apply (does_then _ _ (λ _ _ _ evs, Forall aside evs)); [apply static_aside|]. intros u _. exact (Hwrite _). }
  cbv beta. intros s r s' evs (images & s1 & ev1 & ev2 & H1 & (u & s2 & ev3 & ev4 & H2 & (w & after_ & -> & H3 & H4 & H5) & ->) & ->).
  exists w, after_, (ev3 ++ ev1)%list. split_and!; [by rewrite <- !app_assoc|done|apply Forall_app; split; by apply aside_leaves|done|done].
Qed.
Lemma delete_all_does name : does (delete_all world aead StopTimeout uploads name) (λ s r s' evs, deleting name r evs).
Proof.
  assert (∀ app (listed : or_error (list Container)), does (match listed with
    | inl e => refuse (Failure e)
    | inr listed =>
        let! containers := still_there world listed in
        on! _ := each_of (retire world aead StopTimeout) containers in
        on! _ := failing (Effects.perform world (OAwaitDrains name)) in
        let! images := pruneCandidates world aead name true in
        let! _ := removeStaticFiles world aead uploads name in
        on! _ := write world (QDelete (app_ID app)) (λ _ db, DeleteApplication db (app_ID app)) in
        let! _ := Effects.perform world (OForgetTraffic (app_ID app)) in
        let! _ := Effects.perform world (OPurgeLogs (app_ID app)) in
        let! _ := Effects.perform world OSyncProxy in
        let! _ := pruneImages world aead (match images with inl _ => [] | inr l => l end) in
        ook tt
    end) (λ s r s' evs, match listed with inl _ => evs = [] ∧ (∃ e, r = inl e) | inr l =>
      Forall leaves_record evs ∧ (∃ e, r = inl e) ∨
      ∃ w after_ before_, evs = (after_ ++ mk_happened (OSql (QDelete (app_ID app))) w :: before_)%list ∧ Forall leaves_record after_ ∧ Forall leaves_record before_ ∧
        (∀ c, c ∈ l → says (c := ODraining (c_ID c)) true before_ ∨ says (c := ORemove (c_ID c)) None before_) ∧ says (c := OAwaitDrains name) None before_ ∧
        (r = inr tt → how w = Taken) ∧ (r ≠ inr tt → after_ = [] ∧ (how w = Taken → ∃ db e, DeleteApplication db (app_ID app) = inl e)) end)) as Hlisted.
  { intros app listed.
    destruct listed as [e|l]; [eapply does_weaken; [apply does_ret|]; cbv beta; intros s r s' evs (-> & _ & ->); split; [done|by eexists]|].
    eapply does_weaken.
    { apply does_then; [apply (still_there_does l)|]. intros cs _. apply does_otry; [apply (retired_does cs)|]. intros u. apply does_otry; [apply does_failing, (does_perform world (OAwaitDrains name))|]. intros v. apply (record_goes name app []). }
    cbv beta. intros s r s' evs (cs & s1 & ev1 & ev2 & [H1 H1'] & [(e & [H2 _] & ->)|([] & s2 & ev3 & ev4 & [H2 H2'] & [(e & (a & [_ ->] & Ha) & ->)|(v & s3 & ev5 & ev6 & (a & [_ ->] & Ha) & (w & after_ & before_ & -> & H3 & H4 & H5 & H6) & ->)] & ->)] & ->).
    - left. split; [apply Forall_app; split; [done|by apply aside_leaves]|by eexists].
    - left. split; [rewrite !Forall_app; repeat split; [by repeat constructor|done|by apply aside_leaves]|by eexists].
    - destruct a; [done|]. right. exists w, after_, (((before_ ++ [mk_happened (answer := oanswer) (OAwaitDrains name) None]) ++ ev3) ++ ev1)%list. split; [cbn; by rewrite <- !app_assoc|]. split; [done|].
      split; [rewrite !Forall_app; repeat split; [done|by repeat constructor|done|by apply aside_leaves]|]. split; [|split].
      + intros c Hc. rewrite !says_app. destruct (H1' c Hc) as [Hm|Hm]; [right; left; right; by apply H2'|left; by right].
      + rewrite !says_app. left. left. right. by left.
      + by split. }
  unfold delete_all. eapply does_weaken.
  { apply does_otry; [apply (read_does world (QApplication name))|]. intros app. apply does_then; [apply (does_perform world (OListContainers name))|]. intros listed _. exact (Hlisted app listed). }
  cbv beta. intros s r s' evs [(e & (w & -> & _) & ->)|(app & s1 & ev1 & ev2 & (w & -> & _) & (listed & s2 & ev3 & ev4 & [_ ->] & H & ->) & ->)]; [left; split; [by repeat constructor|by eexists]|].
  destruct listed as [e|l]; [destruct H as [-> He]; left; split; [by repeat constructor|done]|].
  destruct H as [[H1 H2]|(w' & after_ & before_ & -> & H1 & H2 & H3 & H4 & H5 & H6)].
  - left. split; [rewrite !Forall_app; repeat split; [done|by repeat constructor..]|done].
  - right. eexists app, w', after_, ((before_ ++ [mk_happened (answer := oanswer) (OListContainers name) (inr l)]) ++ [mk_happened (OSql (QApplication name)) w])%list. split; [cbn; by rewrite <- !app_assoc|].
    split; [done|]. split; [rewrite !Forall_app; repeat split; [done|by repeat constructor..]|]. split; [|by split]. exists l. split_and!.
    + rewrite !says_app. left. right. by left.
    + intros c Hc. rewrite !says_app. destruct (H3 c Hc); [left; left; by left|right; left; by left].
    + rewrite !says_app. left. by left.
Qed.
End Ending.

(** ** Images *)

Section Images.
Context (world : trace → ∀ c, oanswer c) (aead : option AEAD) (path : DB → DB → Prop) `{!PreOrder path}.
Context (others : ∀ h q db, path db (before (world h (OSql q)) db)).

Lemma read_moves {A} q (sql : DB → store_error + A) : does (read world q sql) (λ db r db' evs, (path db db' ∧ ∀ a, r = inr a → sql db' = inr a) ∧ ∃ w, evs = [mk_happened (OSql q) w]).
Proof.
  intros s. unfold read, statement. rewrite then_perform, then_set, then_get. cbn [fst snd]. set (w := world s.2 (OSql q)). rewrite then_eq. pose proof (others s.2 q s.1) as Ho. fold w in Ho.
  exists [mk_happened (OSql q) w]. unfold id. destruct (sql (before w s.1)) as [e|a] eqn:E, (how w); cbn [fst snd mret mset ook refuse]; (split; [done|]); (split; [|by exists w]); split; try done; by intros ? [= <-].
Qed.
(** Everything an application was found to need is kept: the deployment it
    runs, and the newest it superseded. *)
Definition kept_for (db db' : DB) (keep : list string) (app : Application) : Prop :=
  (∀ id, app_ActiveDeploymentID app = Some id → ∃ db1 d, path db db1 ∧ path db1 db' ∧ Store.GetDeployment aead db1 id = inr d ∧ d_Image d ∈ keep) ∧
  (∃ db1 l, path db db1 ∧ path db1 db' ∧ Store.ListDeployments aead db1 (mk_filter (app_Name app) [StatusSuperseded] 1) = inr l ∧ ∀ d, d ∈ l → d_Image d ∈ keep).
Lemma kept_for_mono db0 db db' db1 keep keep' app : path db0 db → path db' db1 → (∀ i, i ∈ keep → i ∈ keep') → kept_for db db' keep app → kept_for db0 db1 keep' app.
Proof.
  intros P1 P2 Hk [A (dbl & l & Q1 & Q2 & Q3 & Q4)]. split.
  - intros id Hid. destruct (A id Hid) as (dba & d & R1 & R2 & R3 & R4). exists dba, d. split_and!; [by etrans|by etrans|done|by apply Hk].
  - exists dbl, l. split_and!; [by etrans|by etrans|done|]. intros d Hd. by apply Hk, Q4.
Qed.
Lemma kept_each_does apps : does (kept_each world aead apps) (λ db r db' evs, Forall (λ ev, ∃ q w, ev = mk_happened (answer := oanswer) (OSql q) w) evs ∧ path db db' ∧ ∀ keep, r = inr keep → ∀ app, app ∈ apps → kept_for db db' keep app).
Proof.
  induction apps as [|a apps IH]; cbn [kept_each].
  - eapply does_weaken; [apply does_ret|]. cbv beta. intros s r s' evs (-> & -> & ->). split; [constructor|]. split; [done|]. by intros keep _ app Happ%elem_of_nil.
  - assert (does (match app_ActiveDeploymentID a with Some id => on! d := GetDeployment world aead id in ook [d_Image d] | None => ook [] end)
      (λ db r db' evs, Forall (λ ev, ∃ q w, ev = mk_happened (answer := oanswer) (OSql q) w) evs ∧ path db db' ∧ ∀ l, r = inr l → ∀ id, app_ActiveDeploymentID a = Some id → ∃ d, Store.GetDeployment aead db' id = inr d ∧ l = [d_Image d])) as Hact.
    { destruct (app_ActiveDeploymentID a) as [id|].
      - eapply does_weaken; [apply does_otry; [apply (read_moves (QDeployment id) (λ db, Store.GetDeployment aead db id))|]; intros d; apply does_ret|]. cbv beta.
        intros s r s' evs [(e & [[Hp _] (w & ->)] & ->)|(d & s1 & ev1 & ev2 & [[Hp Hd] (w & ->)] & (-> & -> & ->) & ->)]; (split; [repeat constructor; by eexists _, _|]); (split; [done|]); [done|].
        intros l [= <-] ? [= <-]. exists d. split; [by apply Hd|done].
      - eapply does_weaken; [apply does_ret|]. cbv beta. intros s r s' evs (-> & -> & ->). split; [constructor|]. split; [done|]. by intros l _ ?. }
    eapply does_weaken.
    { apply does_otry; [exact Hact|]. intros active. apply does_otry; [apply (read_moves (QDeployments (mk_filter (app_Name a) [StatusSuperseded] 1)) (λ db, Store.ListDeployments aead db (mk_filter (app_Name a) [StatusSuperseded] 1)))|]. intros previous.
      apply does_otry; [exact IH|]. intros more. apply does_ret. }
    cbv beta. intros s r s' evs [(e & (H1 & P1 & _) & ->)|(active & s1 & ev1 & ev2 & (H1 & P1 & A1) & [(e & [[P2 _] (w & ->)] & ->)|(previous & s2 & ev3 & ev4 & [[P2 L2] (w & ->)] & [(e & (H3 & P3 & _) & ->)|(more & s3 & ev5 & ev6 & (H3 & P3 & K3) & (-> & -> & ->) & ->)] & ->)] & ->)].
    + by split_and!.
    + split; [apply Forall_app; split; [repeat constructor; by eexists _, _|done]|]. split; [by etrans|done].
    + split; [rewrite !Forall_app; repeat split; [done|repeat constructor; by eexists _, _|done]|]. split; [by etrans; [|etrans]|done].
    + split; [cbn [app]; rewrite !Forall_app; repeat split; [done|repeat constructor; by eexists _, _|done]|]. split; [by etrans; [|etrans]|]. intros keep [= <-] app Happ. apply elem_of_cons in Happ as [->|Happ].
      * split.
        -- intros id Hid. destruct (A1 active eq_refl id Hid) as (d & Hd & ->). exists s1, d. split_and!; [done|by etrans|done|]. by left.
        -- exists s2, previous. split_and!; [by etrans|done|by apply L2|]. intros d Hd. apply elem_of_app. right. apply elem_of_app. left. by apply list_elem_of_fmap_2.
      * eapply (kept_for_mono s s2 s3 s3); [by etrans|done| |by apply K3]. intros i Hi. apply elem_of_app. right. apply elem_of_app. by right.
Qed.
Lemma remove_images_does keep l : does (remove_images world keep l) (λ db r db' evs, db' = db ∧ Forall (λ ev, ∃ image a, ev = mk_happened (answer := oanswer) (ORemoveImage image) a ∧ image ≠ "" ∧ image ∈ l ∧ image ∉ keep) evs).
Proof.
  induction l as [|x l IH]; cbn [remove_images].
  - eapply does_weaken; [apply does_ret|]. cbv beta. intros s r s' evs (_ & -> & ->). by split.
  - destruct (String.eqb x "" || contains keep x) eqn:E.
    + eapply does_weaken; [exact IH|]. cbv beta. intros s r s' evs (-> & H). split; [done|]. eapply Forall_impl; [exact H|]. intros ev (i & a & -> & H1 & H2 & H3). exists i, a. split_and!; [done..|by right|done].
    + apply orb_false_iff in E as [E1%String.eqb_neq E2]. eapply does_weaken; [apply does_then; [apply (does_perform world (ORemoveImage x))|]; intros a _; apply does_then; [exact IH|]; intros n _; apply does_ret|].
      cbv beta. intros s r s' evs (a & s1 & ev1 & ev2 & [-> ->] & (n & s2 & ev3 & ev4 & [-> H] & (_ & -> & ->) & ->) & ->). split; [done|]. cbn [app]. apply Forall_app. split.
      * eapply Forall_impl; [exact H|]. intros ev (i & b & -> & H1 & H2 & H3). exists i, b. split_and!; [done..|by right|done].
      * constructor; [|constructor]. exists x, a. split_and!; [done..|by left|]. intros Hx. apply not_true_iff_false in E2. by apply E2, contains_spec.
Qed.
Definition prunes (candidates : list string) (db db' : DB) (evs : trace) : Prop :=
  ∀ image a, mk_happened (answer := oanswer) (ORemoveImage image) a ∈ evs → image ≠ "" ∧ image ∈ candidates ∧
    ∃ db0 keep, path db db0 ∧ path db0 db' ∧ (image ∉ keep) ∧ ∀ app, app ∈ applications db0 → kept_for db0 db' keep app.
Lemma pruneImages_does l : does (pruneImages world aead l) (λ db r db' evs, prunes l db db' evs).
Proof.
  unfold pruneImages, keptImages, prunes.
  assert (∀ keep : op_error + list string, does (match keep with inl _ => mret 0 | inr keep => remove_images world keep l end) (λ db r db' evs, db' = db ∧
    Forall (λ ev, ∃ image a kept, keep = inr kept ∧ ev = mk_happened (answer := oanswer) (ORemoveImage image) a ∧ image ≠ "" ∧ image ∈ l ∧ image ∉ kept) evs)) as Hkeep.
  { intros [e|keep].
    - eapply does_weaken; [apply does_ret|]. cbv beta. intros s r s' evs (_ & -> & ->). by split.
    - eapply does_weaken; [apply remove_images_does|]. cbv beta. intros s r s' evs (-> & H). split; [done|]. eapply Forall_impl; [exact H|]. intros ev (i & a & -> & H1 & H2 & H3). by exists i, a, keep. }
  eapply does_weaken.
  { apply does_then; [apply does_otry; [apply (read_moves QApplications (λ db, inr (Store.ListApplications db)))|]; intros apps; apply (kept_each_does apps)|]. intros keep _. exact (Hkeep keep). }
  cbv beta. intros s r s' evs (keep & s1 & ev1 & ev2 & H & (-> & H2) & ->) image a [Hin|Hin]%elem_of_app.
  - rewrite Forall_forall in H2. destruct (H2 _ Hin) as (i & b & kept & -> & E & H3 & H4 & H5). apply (f_equal what) in E. injection E as ->. split; [done|]. split; [done|].
    destruct H as [(e & _ & ?)|(apps & db0 & ev3 & ev4 & [[P1 L1] _] & (_ & P2 & K) & _)]; [done|]. specialize (L1 apps eq_refl). injection L1 as <-. exists db0, kept. split_and!; [done..|].
    intros app Happ. apply (K kept eq_refl). unfold Store.ListApplications. by rewrite merge_sort_Permutation.
  - exfalso. destruct H as [(e & [_ (w & ->)] & _)|(apps & db0 & ev3 & ev4 & [_ (w & ->)] & (H & _) & ->)].
    + apply list_elem_of_singleton in Hin. apply (f_equal what) in Hin. done.
    + apply elem_of_app in Hin as [Hin|Hin%list_elem_of_singleton%(f_equal what)]; [|done]. rewrite Forall_forall in H. destruct (H _ Hin) as (q & w' & E%(f_equal what)). done.
Qed.
End Images.

(** ** Properties *)

Definition performs (world : trace → ∀ c, oanswer c) (aead : option AEAD) (nonce : string → result string) (Marshal : References → string)
  (Unmarshal : string → option References) (Sprintf : text → string) (Parse : string → option reference) (DNSChallenge : bool) (actor : string) (rq : request) : OM (op_error + Deployment) :=
  match rq with
  | Document a plain => DeployWith world aead nonce Marshal Unmarshal Sprintf Parse DNSChallenge actor a plain
  | Again name image => Redeploy world aead nonce Marshal Unmarshal Sprintf Parse DNSChallenge actor name image
  | Back name target => Rollback world aead nonce Marshal Unmarshal Sprintf Parse DNSChallenge actor name target
  end.
Lemma image_usable Parse image name u v : ValidateImage (λ s, bool_decide (is_Some (Parse s : option reference))) image = Ok u → ValidateLocalImage image name = Ok v →
  is_Some (Parse image) ∧ (IsLocalImage image = true → has_prefix (LocalImagePrefix name) image = true).
Proof.
  unfold ValidateImage, ValidateLocalImage. destruct (contains_any _ image); [done|]. destruct (bool_decide (is_Some (Parse image))) eqn:E; [|done]. apply bool_decide_eq_true in E. intros _ H. split; [done|]. intros Hl. rewrite Hl in H. cbn [negb orb] in H.
  by destruct (has_prefix (LocalImagePrefix name) image).
Qed.


(** C4: what a deployment deploys, whatever the rest of the agent does to the
    database meanwhile short of what the lock keeps from it.  At the moment
    the record is made: a document is deployed with its references filled in
    and nothing else changed; a redeploy is of the deployment that is ACTIVE
    then, with another image only if it can run one; a rollback is to a
    SUPERSEDED deployment of the same application, the one asked for or the
    newest; and the last two keep the folder and the references of what they
    deploy again. *)
Theorem deploys_what_ran (world : trace → ∀ c, oanswer c) aead nonce Marshal Unmarshal Sprintf Parse DNSChallenge actor (rq : request) (db db' : DB) (d : Deployment) (evs : trace) :
  reachable aead nonce Marshal db → application_of rq ≠ "" →
  (∀ h q db, passed aead nonce Marshal (application_of rq) db (before (world h (OSql q)) db)) →
  performs world aead nonce Marshal Unmarshal Sprintf Parse DNSChallenge actor rq (db, []) = (inr d, (db', evs)) →
  begun aead nonce Marshal Unmarshal Parse actor (application_of rq) rq db db' d.
Proof.
  intros Hwf%wf_reachable Hne Ho E.
  assert (usable_image Parse rq → start world aead nonce Marshal Unmarshal Sprintf Parse DNSChallenge actor (application_of rq) (resolves world aead rq) (db, []) = (inr d, (db', evs)) →
    begun aead nonce Marshal Unmarshal Parse actor (application_of rq) rq db db' d) as Hgo.
  { intros Hi E'. exact (ran _ _ _ _ _ _ (start_begun world aead nonce Marshal Unmarshal Sprintf Parse DNSChallenge actor _ Ho rq Hne eq_refl Hi) E' Hwf d eq_refl). }
  destruct rq as [a plain|name image|name target]; [by apply Hgo| |by apply Hgo]. cbn [performs] in E. unfold Redeploy in E. destruct (String.eqb_spec image "") as [->|Hi]; [by apply Hgo|].
  destruct (ValidateImage _ image) as [u|e] eqn:E1; [|done]. destruct (ValidateLocalImage image name) as [v|e] eqn:E2; [|done]. apply Hgo; [|done]. intros _. by eapply image_usable.
Qed.

(** An operation that holds the application's lock while it lasts, and gives
    it back last. *)
Definition under_lock (name : string) (inside : op_error + unit → trace → Prop) (out : (op_error + unit) * (DB * trace)) : Prop :=
  (∃ e, out.2.2 = [Lock name (Some e)] ∧ ∃ e', out.1 = inl e') ∨ ∃ mid, out.2.2 = (given_back name ++ mid ++ [Lock name None])%list ∧ inside out.1 mid.



(** C28: pruning removes only images it was asked about, never the nameless
    one, and none that any application was found to need: between the listing
    of the applications and the removal, the deployment each of them ran and
    the newest one it superseded were read, and neither has the image. *)
Theorem images_kept (world : trace → ∀ c, oanswer c) aead nonce Marshal (candidates : list string) (db : DB) :
  (∀ h q db, rtc (StoreInv.store_step aead nonce Marshal) db (before (world h (OSql q)) db)) →
  prunes aead (rtc (StoreInv.store_step aead nonce Marshal)) candidates db (pruneImages world aead candidates (db, [])).2.1 (pruneImages world aead candidates (db, [])).2.2.
Proof. intros Ho. exact (outcome _ _ db (pruneImages_does world aead _ Ho candidates)). Qed.

(** An afternoon on which everything is answered and nobody else writes. *)
Definition obliging : trace → ∀ c, oanswer c := λ _ c,
  match c return oanswer c with
  | OSql _ => mk_weather (λ db, db) Taken 60
  | OSecrets => λ _ _, Ok ∅
  | OLock _ | OCheckDomain _ | OCheckPublish _ _ | OCertificates | OSyncProxy | OStop _ _ | ORemove _ | OAwaitDrains _ | OProxyRemove _ _ => None
  | OSupplied _ => true | ODraining _ => false | ORun _ _ => false
  | OStartNameless _ => Started
  | OInspect _ => inl []
  | OListContainers _ => inr [] | OListImages _ => inr []
  | ORemoveImage _ => ImageRemoved
  | ONow => 60
  | OProxyContainer => inl []
  | _ => tt
  end.
Definition rolled_back := performs obliging None Ok (λ _, "") (λ _, None) (λ _, "") (λ _, None) false "ann" (Back "api" 0) (two_switched, []).
Lemma two_switched_reachable : reachable None Ok (λ _, "") two_switched.
Proof. exact (path_reachable _ _ two_switched_path two_deployed_reachable). Qed.

Lemma deploys_what_ran_witness : ∃ d db' evs n db1 now t, rolled_back = (inr d, (db', evs)) ∧ d_ID d = 3 ∧
  insertDeployment None Ok (λ _, "") db1 (new_record (λ _, None) n) now = inr (db', d) ∧ n_SourceID n = Some (d_ID t) ∧ d_Status t = StatusSuperseded ∧ n_Spec n = d_Spec t.
Proof.
  destruct rolled_back as [[e|d] [db' evs]] eqn:E; [assert (match fst rolled_back with inl _ => False | inr _ => True end) as H by (vm_compute; exact I); rewrite E in H; destruct H|].
  assert (match fst rolled_back with inl _ => False | inr d => d_ID d = 3 end) as Hid by (vm_compute; reflexivity). rewrite E in Hid.
  destruct (deploys_what_ran obliging None Ok (λ _, "") (λ _, None) (λ _, "") (λ _, None) false "ann" (Back "api" 0) two_switched db' d evs two_switched_reachable) as (n & db1 & now & _ & Hi & (_ & a & t & _ & _ & _ & Ht & _ & Hs & _ & Hsp & _) & _).
  - discriminate.
  - intros h q db. apply passed_refl.
  - exact E.
  - exists d, db', evs, n, db1, now, t. split_and!; [reflexivity|exact Hid|exact Hi|exact Hs|exact Ht|exact Hsp].
Defined.


Lemma images_kept_witness : ∃ db0 (keep : list string), mk_happened (answer := oanswer) (ORemoveImage "shop/old:v0") ImageRemoved ∈ (pruneImages obliging None ["shop/old:v0"; "shop/api:v1"] (two_switched, [])).2.2 ∧
  ("shop/old:v0" ∉ keep) ∧ rtc (StoreInv.store_step None Ok (λ _, "")) two_switched db0.
Proof.
  assert (mk_happened (answer := oanswer) (ORemoveImage "shop/old:v0") ImageRemoved ∈ (pruneImages obliging None ["shop/old:v0"; "shop/api:v1"] (two_switched, [])).2.2) as Hin by (vm_compute; left).
  destruct (images_kept obliging None Ok (λ _, "") ["shop/old:v0"; "shop/api:v1"] two_switched (λ h q db, rtc_refl _ db) _ _ Hin) as (_ & _ & db0 & keep & H1 & _ & H2 & _).
  exists db0, keep. split; [exact Hin|]. split; [exact H2|exact H1].
Defined.
