(* ===== verification/Oidc.v ===== *)
(** * OpenID Connect (agent/internal/oidc: oidc.go, tenants.go, verify.go)

    Finding the provider people sign in with, redeeming an authorization code,
    and judging the ID token that comes back.  The provider's cache is a state
    that goroutines share: taking the mutex is a call that answers what they
    have made of it, and every part under the mutex is a program of its own.  A
    request is a call.  SHA-256, the two signature schemes and encoding/json at
    each type it fills are parameters; so is what int64 makes of a float that
    has no int64. *)

From S2P Require Import Prelude GoStrings GoURL GoTime GoFloat Effects Crypto.
From Stdlib Require Import Ascii String.
Local Open Scope string_scope.
Local Open Scope Z_scope.

(** ** Data *)

Inductive Kind := Unavailable | CodeRejected | InvalidToken | NonceMismatch | TenantNotAllowed.
(** Error *)
Record Error := failed { er_Kind : Kind; er_Message : text }.

Record Config := mk_config { cf_Issuer : string; cf_ClientID : string; cf_ClientSecret : string; cf_Scopes : list string; cf_GroupsClaim : string;
  cf_NameClaim : string; cf_Tenants : list string; cf_RedirectURL : string }.
(** What a discovery document says; [discovery] adds the template. *)
Record document := mk_document { dc_Issuer : string; dc_AuthorizationEndpoint : string; dc_TokenEndpoint : string; dc_JWKSURI : string; dc_TokenAuthMethods : list string }.
Record discovery := mk_discovery { ds : document; template : string }.
Record jwk := mk_jwk { jk_Kty : string; jk_Kid : string; jk_Use : string; jk_N : string; jk_E : string; jk_Crv : string; jk_X : string; jk_Y : string; jk_Issuer : string }.
Inductive public := RSA (n e : Z) | EC (x y : string).
Record key := mk_key { k_id : string; k_issuer : string; k_public : public }.
Record tokenResponse := mk_response { tr_IDToken : string; tr_Error : string; tr_ErrorDescription : string }.

(** A float64 read from JSON: its sign and its size. *)
Abbreviation float64 := (bool * float)%type.
(** The claims as encoding/json hands them on: aud and email_verified raw. *)
Record claims_of_token := mk_raw { rw_Issuer : string; rw_Subject : string; rw_Audience : option string; rw_Party : string; rw_Expires : option float64; rw_IssuedAt : option float64;
  rw_NotBefore : option float64; rw_Nonce : string; rw_Email : string; rw_EmailVerified : option string; rw_Tenant : string }.
Record idToken := mk_token { t_Issuer : string; t_Subject : string; t_Audience : list string; t_Party : string; t_Expires : option float64; t_IssuedAt : option float64;
  t_NotBefore : option float64; t_Nonce : string; t_Email : string; t_EmailVerified : option bool; t_Tenant : string }.
Record Claims := mk_claims { cl_Subject : string; cl_Email : string; cl_EmailVerified : option bool; cl_Groups : list string; cl_Name : string; cl_Tenant : string }.

Definition maxIDToken : Z := 64 * 1024.
Definition clockSkew : Duration := minute.
Definition maxAge : Duration := 10 * minute.
Definition maxGroups : Z := 500.
Definition minRSABits : Z := 2048.
Definition maxResponse : Z := 1024 * 1024.
Definition cacheFor : Duration := hour.
Definition keyRefetchEvery : Duration := minute.

(** Provider: what its mutex guards. *)
Record pstate := mk_pstate { p_doc : option (discovery * Time); p_keys : option (list key * Time); p_refetched : Time }.
Definition set_doc d s := mk_pstate d (p_keys s) (p_refetched s).
Definition set_keys k s := mk_pstate (p_doc s) k (p_refetched s).
Definition set_refetched t s := mk_pstate (p_doc s) (p_keys s) t.

(** What comes of a request; a body that breaks off is an error of its own. *)
Inductive reply := NoReply (e : text) | Replied (status : Z) (body : or_error string).
Inductive pcall := PNow | PLock | PAnyOf (n : Z) | PGet (endpoint : string) | PPost (endpoint : string) (form : list (string * string)) (basic : option (string * string)).
Definition panswer (c : pcall) : Type :=
  match c with PNow => Time | PLock => pstate → pstate | PAnyOf _ => nat | PGet _ | PPost _ _ _ => reply end.
Abbreviation PM := (Effects.M pstate panswer).

(** ** Addresses *)

(** URL.Hostname. *)
Definition Hostname (u : URL) : string :=
  let host := match cut_last ":" (u_Host u) with Some (h, port) => if str_forall is_digit port then h else u_Host u | None => u_Host u end in
  if has_prefix "[" host && has_suffix "]" host then String.substring 1 (String.length host - 2) host else host.
(** IsLoopback, IsPrivate and IsLinkLocalUnicast of net.IP. *)
Definition local_ip (ip : list Z) : bool :=
  match ip with
  | [0; 0; 0; 0; 0; 65535; hi; lo] =>
      (hi / 256 =? 127) || (hi / 256 =? 10) || ((hi / 256 =? 172) && (Z.land (hi mod 256) 240 =? 16)) || (hi =? 192 * 256 + 168) || (hi =? 169 * 256 + 254)
  | g :: _ => bool_decide (ip = [0; 0; 0; 0; 0; 0; 0; 1]) || (Z.land g 65024 =? 64512) || (Z.land g 65472 =? 65152)
  | [] => false
  end.
Definition isLocal (host : string) : bool :=
  String.eqb host "localhost" || match ParseIP host with Some ip => local_ip ip | None => false end.
Definition ValidateURL (raw : string) : result unit :=
  match url_Parse raw with
  | None => Err [L "must be an absolute URL such as https://accounts.example.com"]
  | Some u =>
      if String.eqb (u_Host u) "" || String.eqb (Hostname u) "" || u_User u then Err [L "must be an absolute URL such as https://accounts.example.com"] else
      if String.eqb (u_Scheme u) "https" then Ok tt else
      if String.eqb (u_Scheme u) "http" then if isLocal (Hostname u) then Ok tt else Err [L "must use https; http is allowed only for localhost and private addresses"]
      else Err [L "must use https"]
  end.
Definition ValidateIssuer (raw : string) : result unit :=
  do! _ := ValidateURL raw in
  match url_Parse raw with
  | Some u => if String.eqb (u_RawQuery u) "" && String.eqb (u_Fragment u) "" then Ok tt else Err [L "must be the issuer URL itself, without a query or a fragment"]
  | None => Ok tt
  end.

(** ** Tenants *)

Definition tenantPlaceholder := "{tenantid}".
Definition AnyTenant := "*".
(** ^[0-9a-f]{8}-[0-9a-f]{4}-[0-9a-f]{4}-[0-9a-f]{4}-[0-9a-f]{12}$ *)
Definition tenantID (s : string) : bool :=
  match split "-" s with
  | [a; b; c; d; e] =>
      forallb (str_forall (λ c, is_digit c || in_range 97 102 c)) [a; b; c; d; e] && (slen a =? 8) && (slen b =? 4) && (slen c =? 4) && (slen d =? 4) && (slen e =? 12)
  | _ => false
  end.
Definition ValidTenant (id : string) : bool := tenantID id.
Definition TenantTemplate (issuer : string) : string :=
  match url_Parse issuer with
  | None => ""
  | Some u =>
      if String.eqb (u_Host u) "" || negb (String.eqb (u_Path u) "/organizations/v2.0") && negb (String.eqb (u_Path u) "/common/v2.0") then "" else
      (u_Scheme u ++ "://" ++ u_Host u ++ "/" ++ tenantPlaceholder ++ "/v2.0")%string
  end.
(** strings.Replace(s, old, new, 1) *)
Fixpoint replace_first (old new s : string) : string :=
  match cut_prefix old s with
  | Some r => (new ++ r)%string
  | None => match s with "" => "" | String c r => String c (replace_first old new r) end
  end.

(** ** Numbers and base64 *)

(** base64.RawURLEncoding.DecodeString *)
Definition url_unsextet (c : ascii) : option Z :=
  if Ascii.eqb c "-" then Some 62 else if Ascii.eqb c "_" then Some 63 else
  if Ascii.eqb c "+" || Ascii.eqb c "/" then None else unsextet c.
Fixpoint raw_quanta (s : string) : option string :=
  match s with
  | "" => Some ""
  | String a (String b "") => x ← url_unsextet a; y ← url_unsextet b; Some (String (of_byte ((x * 64 + y) / 16)) "")
  | String a (String b (String c "")) =>
      x ← url_unsextet a; y ← url_unsextet b; z ← url_unsextet c;
      let v := (x * 4096 + y * 64 + z)%Z in Some (String (of_byte (v / 1024)) (String (of_byte (v / 4 mod 256)) ""))
  | String a (String b (String c (String d r))) =>
      x ← url_unsextet a; y ← url_unsextet b; z ← url_unsextet c; w ← url_unsextet d; t ← raw_quanta r;
      let v := (x * 262144 + y * 4096 + z * 64 + w)%Z in
      Some (String (of_byte (v / 65536)) (String (of_byte (v / 256 mod 256)) (String (of_byte (v mod 256)) t)))
  | _ => None
  end.
Definition RawDecodeString (s : string) : option string := raw_quanta (strip_newlines s).
(** big.Int.SetBytes *)
Fixpoint SetBytes (acc : Z) (s : string) : Z := match s with "" => acc | String c r => SetBytes (256 * acc + byte c) r end.
Definition decodeInt (s : string) : option Z :=
  raw ← RawDecodeString s; if String.eqb raw "" then None else Some (SetBytes 0 raw).
Definition BitLen (n : Z) : Z := if n =? 0 then 0 else Z.log2 n + 1.

Example raw_decodes : (RawDecodeString "aGk", RawDecodeString "_-8", RawDecodeString "aGk=", RawDecodeString "a", decodeInt "AQAB") = (Some "hi", Some (String (of_byte 255) (String (of_byte 239) "")), None, None, Some 65537).
Proof. vm_compute. reflexivity. Qed.

(** ** The provider *)

Section Oidc.
Variable world : list (Effects.happened panswer) → ∀ c, panswer c.
Variable cfg : Config.
(** crypto/sha256, rsa.VerifyPKCS1v15, ecdsa.Verify and the points of P-256. *)
Variable Sum256 : string → string.
Variable VerifyPKCS1v15 : Z → Z → string → string → bool.
Variable VerifyES256 : string → string → string → Z → Z → bool.
Variable on_curve : string → string → bool.
(** encoding/json, at the types of the source: None is an error.  An answer of
    the token endpoint is filled as far as it goes. *)
Variable json_document : string → option document.
Variable json_jwks : string → option (list jwk).
Variable json_answer : string → tokenResponse.
Variable json_header : string → option (string * string).
Variable json_token : string → option claims_of_token.
Variable json_object : string → option (gmap string string).
Variable json_string : string → option string.
Variable json_strings : string → option (list string).
Variable json_list : string → option (list string).
(** int64(f) of a float that has none. *)
Variable overflowed : float64 → Z.
Local Abbreviation perform := (Effects.perform world).

(** return nil, failed(kind, …) *)
Definition ptry {A B} (m : PM (Error + A)) (k : A → PM (Error + B)) : PM (Error + B) :=
  mthen m (λ r, match r with inl e => mret (inl e) | inr a => k a end).
Notation "'ok!' x ':=' m 'in' k" := (ptry m (λ x, k)) (at level 10, x pattern, m at level 100, k at level 200).
Definition pok {A} (a : A) : PM (Error + A) := mret (inr a).
Definition pfail {A} (kind : Kind) (message : text) : PM (Error + A) := mret (inl (failed kind message)).

(** What is done between p.mu.Lock and its Unlock. *)
Definition locked {A} (m : PM A) : PM A :=
  let! others := perform PLock in
  let! _ := mset others in
  m.

Definition getJSON {A} (decode : string → option A) (endpoint : string) : PM (or_error A) :=
  match url_Parse endpoint with
  | None => fail [L "parse "; Q endpoint]
  | Some u =>
      let host := trim_suffix ":" (u_Host u) in
      let! r := perform (PGet endpoint) in
      match r with
      | NoReply e => fail e
      | Replied status body =>
          if negb (status =? 200) then fail [S' host; L " answered "; D status] else
          match body with
          | inl e => fail e
          | inr body =>
              if (maxResponse <? slen body) then fail [S' host; L " answered with more than "; D maxResponse; L " bytes"] else
              match decode body with None => fail [S' host; L " did not answer with JSON"] | Some v => ok v end
          end
      end
  end.

Definition well_known : string := (trim_suffix "/" (cf_Issuer cfg) ++ "/.well-known/openid-configuration")%string.
(** Which issuer a document may name, and the template it then is. *)
Definition template_of (doc : document) : Error + string :=
  if String.eqb (dc_Issuer doc) (cf_Issuer cfg) then inr "" else
  if negb (String.eqb (TenantTemplate (cf_Issuer cfg)) "") && String.eqb (dc_Issuer doc) (TenantTemplate (cf_Issuer cfg)) then
    match cf_Tenants cfg with
    | [] => inl (failed Unavailable [L "the sign-in provider signs in the accounts of every Microsoft Entra tenant, and the agent is not told which may sign in here: set SHIPWICK_OIDC_TENANTS to their tenant ids"])
    | _ => inr (dc_Issuer doc)
    end
  else inl (failed Unavailable [L "the sign-in provider calls itself "; Q (dc_Issuer doc); L ", and the agent is configured with "; Q (cf_Issuer cfg); L ": set SHIPWICK_OIDC_ISSUER to the issuer exactly as the provider states it"]).
Definition endpoints (doc : document) : list (string * string) :=
  [("authorization_endpoint", dc_AuthorizationEndpoint doc); ("token_endpoint", dc_TokenEndpoint doc); ("jwks_uri", dc_JWKSURI doc)].
(** The endpoints that cannot be used; the map says in no order which is told. *)
Definition unusable (doc : document) : list (string * text) :=
  omap (λ e, match ValidateURL e.2 with Err why => Some (e.1, why) | Ok _ => None end) (endpoints doc).

Definition fetch_document : PM (Error + discovery) :=
  let! r := getJSON json_document well_known in
  match r with
  | inl e => pfail Unavailable (L "the sign-in provider's configuration could not be read: " :: e)
  | inr doc =>
      match template_of doc with
      | inl e => mret (inl e)
      | inr template =>
          match unusable doc with
          | [] =>
              let! now := perform PNow in
              let d := mk_discovery doc template in
              let! _ := mset (set_doc (Some (d, now))) in
              pok d
          | first :: _ as bad =>
              let! i := perform (PAnyOf (Z.of_nat (List.length bad))) in
              let '(name, why) := List.nth i bad first in
              pfail Unavailable (L "the sign-in provider's configuration is not usable: " :: S' name :: L " " :: why)
          end
      end
  end.
Definition discover_locked : PM (Error + discovery) :=
  let! doc := mget p_doc in
  match doc with
  | None => fetch_document
  | Some (d, at_) =>
      let! now := perform PNow in
      if (Sub now at_ <? cacheFor) then pok d else fetch_document
  end.
Definition discover : PM (Error + discovery) := locked discover_locked.
Definition AuthorizationEndpoint : PM (Error + string) := ok! doc := discover in pok (dc_AuthorizationEndpoint (ds doc)).

(** The keys of a set that can sign for this agent. *)
Definition usable_key (k : jwk) : option key :=
  if negb (String.eqb (jk_Use k) "") && negb (String.eqb (jk_Use k) "sig") then None else
  if String.eqb (jk_Kty k) "RSA" then
    n ← decodeInt (jk_N k); e ← decodeInt (jk_E k);
    if (BitLen n <? minRSABits) || (e <? 3) || (2 ^ 31 - 1 <? e) then None else Some (mk_key (jk_Kid k) (jk_Issuer k) (RSA n e))
  else if String.eqb (jk_Kty k) "EC" && String.eqb (jk_Crv k) "P-256" then
    x ← RawDecodeString (jk_X k); y ← RawDecodeString (jk_Y k);
    if negb (slen x =? 32) || negb (slen y =? 32) || negb (on_curve x y) then None else Some (mk_key (jk_Kid k) (jk_Issuer k) (EC x y))
  else None.
Definition keys_locked (doc : discovery) (id : string) : PM (Error + list key) :=
  let! now := perform PNow in
  let! s := mget (λ s, s) in
  let cached := match p_keys s with
                | Some (keys, at_) =>
                    if (Sub now at_ <? cacheFor) && (String.eqb id "" || existsb (λ k, String.eqb (k_id k) id) keys || (Sub now (p_refetched s) <? keyRefetchEvery))
                    then Some keys else None
                | None => None
                end in
  match cached with
  | Some keys => pok keys
  | None =>
      let! _ := mset (set_refetched now) in
      let! r := getJSON json_jwks (dc_JWKSURI (ds doc)) in
      match r with
      | inl e => pfail Unavailable (L "the sign-in provider's keys could not be read: " :: e)
      | inr set =>
          let keys := omap usable_key set in
          let! _ := mset (set_keys (Some (keys, now))) in
          pok keys
      end
  end.
Definition keysFor (id : string) : PM (Error + list key) := ok! doc := discover in locked (keys_locked doc id).

(** ** Redeeming a code *)

Definition inForm (doc : document) : bool :=
  negb (bool_decide (dc_TokenAuthMethods doc = [])) && negb (contains (dc_TokenAuthMethods doc) "client_secret_basic") && contains (dc_TokenAuthMethods doc) "client_secret_post".
Definition Exchange (code verifier : string) : PM (Error + string) :=
  ok! doc := discover in
  let d := ds doc in
  let form := [("grant_type", "authorization_code"); ("code", code); ("redirect_uri", cf_RedirectURL cfg); ("code_verifier", verifier)] in
  let form := if inForm d then (form ++ [("client_id", cf_ClientID cfg); ("client_secret", cf_ClientSecret cfg)])%list else form in
  if negb (bool_decide (is_Some (url_Parse (dc_TokenEndpoint d)))) then pfail Unavailable [L "the sign-in provider's token endpoint is not usable"] else
  let! r := perform (PPost (dc_TokenEndpoint d) form (if inForm d then None else Some (cf_ClientID cfg, cf_ClientSecret cfg))) in
  match r with
  | NoReply e | Replied _ (inl e) => pfail Unavailable (L "the sign-in provider could not be reached: " :: e)
  | Replied status (inr body) =>
      let answer := json_answer (String.substring 0 (Z.to_nat maxResponse) body) in
      if (status =? 200) && negb (String.eqb (tr_IDToken answer) "") then pok (tr_IDToken answer) else
      if (status =? 200) then pfail Unavailable [L "the sign-in provider answered without an ID token: the openid scope must be among SHIPWICK_OIDC_SCOPES and allowed for the client"] else
      if String.eqb (tr_Error answer) "invalid_grant" then pfail CodeRejected [L "the sign-in provider refused the code: it was used before, has expired, or belongs to another sign-in. Sign in again"] else
      if String.eqb (tr_Error answer) "invalid_client" || String.eqb (tr_Error answer) "unauthorized_client" || (status =? 401)
      then pfail Unavailable [L "the sign-in provider refused the agent's client id or secret: check SHIPWICK_OIDC_CLIENT_ID and SHIPWICK_OIDC_CLIENT_SECRET on the agent"] else
      if negb (String.eqb (tr_Error answer) "") then pfail CodeRejected [L "the sign-in provider refused the sign-in ("; S' (tr_Error answer); L "). Sign in again"] else
      pfail Unavailable [L "the sign-in provider's token endpoint answered "; D status]
  end.

(** ** The ID token *)

Definition decodeSegment {A} (decode : string → option A) (segment : string) : option A := raw ← RawDecodeString segment; decode raw.
(** audience.UnmarshalJSON and flag.UnmarshalJSON of what stands in the token. *)
Definition audience (raw : string) : option (list string) :=
  match json_string raw with Some one => Some [one] | None => json_strings raw end.
Definition quoted_true : string := String (chr 34) ("true" ++ String (chr 34) "").
Definition flag (raw : string) : bool := String.eqb raw "true" || String.eqb raw quoted_true.
Definition read_token (raw : string) : option idToken :=
  r ← json_token raw;
  aud ← match rw_Audience r with Some a => audience a | None => Some [] end;
  Some (mk_token (rw_Issuer r) (rw_Subject r) aud (rw_Party r) (rw_Expires r) (rw_IssuedAt r) (rw_NotBefore r) (rw_Nonce r) (rw_Email r) (flag <$> rw_EmailVerified r) (rw_Tenant r)).

(** time.Unix(int64(seconds), 0): the seconds of a time are counted from year 1
    in 64 bits. *)
Definition int64_of (f : float64) : Z :=
  let '(neg, f') := f in
  let t := float_trunc f' in
  let n := if neg : bool then - t else t in
  if in_int64 n then n else wrap64 (overflowed f).
Definition unixToInternal : Z := 62135596800.
Definition unix (seconds : float64) : Time := (wrap64 (int64_of seconds + unixToInternal) - unixToInternal) * second.
(** t.Add(d): it stops at the last second there is. *)
Definition Add (t : Time) (d : Duration) : Time := Z.min (t + d) ((max_int64 - unixToInternal) * second).

Definition TenantAllowed (tenant : string) : bool :=
  bool_decide (cf_Tenants cfg = []) || contains (cf_Tenants cfg) AnyTenant || negb (String.eqb tenant "") && contains (cf_Tenants cfg) tenant.
Definition accepts_any_tenant : bool := contains (cf_Tenants cfg) AnyTenant.
Definition NameClaim : string := if String.eqb (cf_NameClaim cfg) "" then "email" else cf_NameClaim cfg.

Definition issuedBy (doc : discovery) (iss tid keyIssuer : string) : bool :=
  if negb (String.eqb (template doc) "") && negb (ValidTenant tid) then false else
  let want := if String.eqb (template doc) "" then cf_Issuer cfg else replace_first tenantPlaceholder tid (template doc) in
  if negb (String.eqb keyIssuer "") && negb (String.eqb (replace_first tenantPlaceholder tid keyIssuer) iss) then false else String.eqb iss want.

Definition made_by (k : key) (alg digest signature : string) : bool :=
  match k_public k with
  | RSA n e => String.eqb alg "RS256" && VerifyPKCS1v15 n e digest signature
  | EC x y => String.eqb alg "ES256" && (slen signature =? 64) && VerifyES256 x y digest (SetBytes 0 (String.substring 0 32 signature)) (SetBytes 0 (String.substring 32 32 signature))
  end.
Fixpoint signedBy (keys : list key) (alg id digest signature : string) : option key :=
  match keys with
  | [] => None
  | k :: rest =>
      if negb (String.eqb id "") && negb (String.eqb (k_id k) id) then signedBy rest alg id digest signature else
      if made_by k alg digest signature then Some k else signedBy rest alg id digest signature
  end.

(** The switch of Verify: why a token is refused. *)
Definition refusal (doc : discovery) (token : idToken) (keyIssuer : string) (now : Time) : option text :=
  if negb (issuedBy doc (t_Issuer token) (t_Tenant token) keyIssuer) then Some [L "it was issued by "; S' (t_Issuer token)] else
  if negb (contains (t_Audience token) (cf_ClientID cfg)) then Some [L "it was issued for another client"] else
  if (1 <? Z.of_nat (List.length (t_Audience token))) && String.eqb (t_Party token) "" || negb (String.eqb (t_Party token) "") && negb (String.eqb (t_Party token) (cf_ClientID cfg))
  then Some [L "it was issued to another client"] else
  if match t_Expires token with None => true | Some exp => negb (now <? Add (unix exp) clockSkew) end then Some [L "it has expired"] else
  if match t_IssuedAt token with None => true | Some iat => now + clockSkew <? unix iat end then Some [L "it is dated in the future; compare the server's clock with the provider's"] else
  if match t_IssuedAt token with None => false | Some iat => maxAge + clockSkew <? Sub now (unix iat) end then Some [L "it was issued too long ago"] else
  if match t_NotBefore token with None => false | Some nbf => now + clockSkew <? unix nbf end then Some [L "it is not valid yet"] else
  if String.eqb (t_Subject token) "" then Some [L "it names nobody"] else None.

(** groupsOf and stringClaim, of the payload. *)
Fixpoint keep_groups (groups : list string) (list : list string) : Datatypes.list string :=
  match list with
  | [] => groups
  | item :: rest =>
      match json_string item with
      | Some name => keep_groups (if negb (String.eqb name "") && (Z.of_nat (List.length groups) <? maxGroups) && negb (contains groups name) then (groups ++ [name])%list else groups) rest
      | None => keep_groups groups rest
      end
  end.
Definition groupsOf (payload claim : string) : list string :=
  if String.eqb claim "" then [] else
  match decodeSegment json_object payload with
  | None => []
  | Some all =>
      match all !! claim with
      | None => []
      | Some raw =>
          match json_string raw with
          | Some _ => keep_groups [] [raw]
          | None => match json_list raw with Some items => keep_groups [] items | None => [] end
          end
      end
  end.
Definition stringClaim (payload claim : string) : string :=
  match decodeSegment json_object payload with
  | None => ""
  | Some all => default "" (raw ← all !! claim; json_string raw)
  end.

Definition invalid {A} (why : text) : PM (Error + A) := pfail InvalidToken (L "the sign-in provider's ID token was not accepted: " :: why).
Definition claims_of (payload : string) (token : idToken) : Claims :=
  mk_claims (t_Subject token) (t_Email token) (t_EmailVerified token) (groupsOf payload (cf_GroupsClaim cfg))
    (if String.eqb NameClaim "email" then t_Email token else if String.eqb NameClaim "sub" then t_Subject token else stringClaim payload NameClaim) (t_Tenant token).

(** Verify, from the signature on. *)
Definition judge (payload : string) (signer : key) (nonce : string) : PM (Error + Claims) :=
  match decodeSegment read_token payload with
  | None => invalid [L "its claims cannot be read"]
  | Some token =>
      ok! doc := discover in
      let! now := perform PNow in
      match refusal doc token (k_issuer signer) now with
      | Some why => invalid why
      | None =>
          if String.eqb nonce "" || negb (String.eqb (t_Nonce token) nonce) then pfail NonceMismatch [L "the sign-in provider's ID token answers another sign-in than this one. Sign in again"] else
          if negb (TenantAllowed (t_Tenant token)) then pfail TenantNotAllowed [L "this account belongs to a Microsoft Entra tenant that may not sign in here. An operator adds the tenant's id to SHIPWICK_OIDC_TENANTS on the agent"] else
          pok (claims_of payload token)
      end
  end.
Definition not_signed : text := [L "it is not a signed token"].
Definition Verify (raw nonce : string) : PM (Error + Claims) :=
  match split "." raw with
  | [header; payload; signature] =>
      if (maxIDToken <? slen raw) then invalid not_signed else
      match decodeSegment json_header header with
      | None => invalid not_signed
      | Some (alg, kid) =>
          if negb (String.eqb alg "RS256") && negb (String.eqb alg "ES256") then invalid [L "it is signed with "; S' alg; L "; RS256 and ES256 are accepted"] else
          match RawDecodeString signature with
          | None => invalid not_signed
          | Some signature =>
              ok! keys := keysFor kid in
              match signedBy keys alg kid (Sum256 (header ++ "." ++ payload)%string) signature with
              | None => invalid [L "its signature is not by one of the provider's keys"]
              | Some signer => judge payload signer nonce
              end
          end
      end
  | _ => invalid not_signed
  end.
End Oidc.
