(* ===== verification/OidcInv.v ===== *)
(** * What the agent believes about people who sign in

    Theorems about Oidc.v: whom an accepted ID token comes from, whatever else
    goes on with the provider's cache, and where the client secret goes. *)

From S2P Require Import Prelude GoStrings GoURL GoTime GoFloat Effects Crypto Oidc.
From Stdlib Require Import Ascii String.
Local Open Scope string_scope.
Local Open Scope Z_scope.

Abbreviation event := (Effects.happened panswer).
Abbreviation trace := (list event).

(** The clock as it was last read. *)
Definition clock (h : trace) : Time :=
  match omap (λ e : event, match e with mk_happened PNow t => Some t | _ => None end) h with t :: _ => t | [] => 0 end.
(** The URLs the agent may send anything to. *)
Definition safe_address (url : string) : Prop :=
  ∃ u, url_Parse url = Some u ∧ u_User u = false ∧ Hostname u ≠ "" ∧ (u_Scheme u = "https" ∨ u_Scheme u = "http" ∧ isLocal (Hostname u) = true).
Lemma validated raw : ValidateURL raw = Ok tt → safe_address raw.
Proof.
  unfold ValidateURL, safe_address. destruct (url_Parse raw) as [u|]; [|done]. destruct (String.eqb (u_Host u) ""); [done|]. destruct (String.eqb_spec (Hostname u) "") as [|Hh]; [done|]. destruct (u_User u) eqn:Eu; [done|]. cbn [orb].
  destruct (String.eqb_spec (u_Scheme u) "https"); [intros _; exists u; by eauto|]. destruct (String.eqb_spec (u_Scheme u) "http"); [|done]. destruct (isLocal _) eqn:El; [|done]. intros _. exists u. by eauto 7.
Qed.

(** Within what int64 holds, a claim's number is that many seconds. *)
Lemma unix_seconds overflowed f : float_trunc f < 2 ^ 62 → 0 ≤ float_trunc f → unix overflowed (false, f) = float_trunc f * second.
Proof.
  intros H1 H2. unfold unix, int64_of. assert (in_int64 (float_trunc f) = true) as ->. { unfold in_int64, min_int64, max_int64. apply andb_true_iff. split; apply Z.leb_le; lia. }
  unfold unixToInternal. rewrite wrap64_id by (unfold min_int64, max_int64; lia). f_equal. lia.
Qed.

Section Cache.
Context (world : trace → ∀ c, panswer c) (cfg : Config) (on_curve : string → string → bool) (json_document : string → option document) (json_jwks : string → option (list jwk)).

(** The provider answers [url] with [body], as the clock says [t]. *)
Definition serves (t : Time) (url body : string) : Prop := ∃ h, clock h = t ∧ world h (PGet url) = Replied 200 (inr body).
(** A document that was found where the provider's is, names the configured
    issuer or the tenants of it, and endpoints that can be used. *)
Definition published (d : discovery) : Prop :=
  (∃ t body, serves t (well_known cfg) body ∧ json_document body = Some (ds d)) ∧
  (template d = "" ∧ dc_Issuer (ds d) = cf_Issuer cfg ∨ template d = TenantTemplate (cf_Issuer cfg) ∧ template d ≠ "" ∧ cf_Tenants cfg ≠ []) ∧
  safe_address (dc_AuthorizationEndpoint (ds d)) ∧ safe_address (dc_TokenEndpoint (ds d)) ∧ safe_address (dc_JWKSURI (ds d)).
(** The keys the provider published, as the clock said [t]. *)
Definition keyring (keys : list key) (t : Time) : Prop :=
  ∃ d body set, published d ∧ serves t (dc_JWKSURI (ds d)) body ∧ json_jwks body = Some set ∧ keys = omap (usable_key on_curve) set.
Definition well_cached (s : pstate) : Prop := (∀ d t, p_doc s = Some (d, t) → published d) ∧ (∀ keys t, p_keys s = Some (keys, t) → keyring keys t).

(** A request for a document: one event at most, and what it is made of. *)
Lemma getJSON_answers {A} (decode : string → option A) url (s : pstate) h : let o := getJSON world decode url (s, h) in
  o.2.1 = s ∧ (o.2.2 = h ∨ o.2.2 = mk_happened (PGet url) (world h (PGet url)) :: h) ∧
  ∀ v, o.1 = inr v → ∃ body, world h (PGet url) = Replied 200 (inr body) ∧ decode body = Some v.
Proof.
  cbv zeta. unfold getJSON. destruct (url_Parse url) as [u|]; [|by split_and!; [|left|]]. rewrite then_perform. cbn [fst snd]. destruct (world h (PGet url)) as [e|status body] eqn:E; [by split_and!; [|right|]|].
  destruct (Z.eqb_spec status 200) as [->|]; cbn [negb]; [|by split_and!; [|right|]]. destruct body as [e|body]; [by split_and!; [|right|]|].
  destruct (maxResponse <? slen body); [by split_and!; [|right|]|]. destruct (decode body) as [v|] eqn:Ed; [|by split_and!; [|right|]]. split_and!; [done|by right|]. intros ? [= <-]. by exists body.
Qed.

Lemma template_published doc tmpl : template_of cfg doc = inr tmpl →
  tmpl = "" ∧ dc_Issuer doc = cf_Issuer cfg ∨ tmpl = TenantTemplate (cf_Issuer cfg) ∧ tmpl ≠ "" ∧ cf_Tenants cfg ≠ [].
Proof.
  unfold template_of. destruct (String.eqb_spec (dc_Issuer doc) (cf_Issuer cfg)) as [->|]; [intros [= <-]; by left|].
  destruct (String.eqb_spec (TenantTemplate (cf_Issuer cfg)) "") as [|Hne]; [done|]. cbn [negb andb]. destruct (String.eqb_spec (dc_Issuer doc) (TenantTemplate (cf_Issuer cfg))) as [E|]; [|done].
  destruct (cf_Tenants cfg); [done|]. intros [= <-]. right. by rewrite E.
Qed.
Lemma usable_endpoints doc name url : unusable doc = [] → (name, url) ∈ endpoints doc → safe_address url.
Proof.
  intros Hu Hin. apply validated. destruct (ValidateURL url) as [[]|why] eqn:E; [done|]. assert ((name, why) ∈ unusable doc) as Hbad; [|rewrite Hu in Hbad; by apply elem_of_nil in Hbad].
  unfold unusable. apply list_elem_of_omap. exists (name, url). cbn [fst snd]. by rewrite E.
Qed.

Lemma endpoints_safe doc : unusable doc = [] → safe_address (dc_AuthorizationEndpoint doc) ∧ safe_address (dc_TokenEndpoint doc) ∧ safe_address (dc_JWKSURI doc).
Proof. intros Hu. split_and!; (eapply usable_endpoints; [exact Hu|]); [left|right; left|right; right; left]. Qed.

(** The document under the mutex: the state and what is asked. *)
Definition asks (url : string) (evs : trace) : Prop := Forall (λ e : event, match what e with PPost _ _ _ => False | PGet u => u = url | _ => True end) evs.
Lemma fetch_answers s h : well_cached s → let o := fetch_document world cfg json_document (s, h) in
  well_cached o.2.1 ∧ (∃ evs, o.2.2 = (evs ++ h)%list ∧ asks (well_known cfg) evs) ∧ ∀ d, o.1 = inr d → published d.
Proof.
  intros [Hd Hk]. cbv zeta. unfold fetch_document. rewrite then_eq. pose proof (getJSON_answers json_document (well_known cfg) s h) as (E1 & E2 & E3). destruct (getJSON _ _ _ _) as [r [s1 h1]]. cbn [fst snd] in *. subst s1.
  assert (∃ evs, h1 = (evs ++ h)%list ∧ asks (well_known cfg) evs) as (evs & -> & Hevs).
  { destruct E2 as [->| ->]; [exists []; split; [done|by constructor]|]. eexists [_]. split; [done|]. by repeat constructor. }
  destruct r as [e|doc]; [cbn; split_and!; [done|by exists evs|done]|]. destruct (template_of cfg doc) as [e|tmpl] eqn:Et; [cbn; split_and!; [done|by exists evs|done]|]. destruct (E3 doc eq_refl) as (body & Hw & Hj).
  destruct (unusable doc) as [|first bad] eqn:Eu.
  - rewrite then_perform, then_set. cbn [fst snd pok mret].
    assert (published (mk_discovery doc tmpl)) as Hp.
    { split_and!; [exists (clock h), body; split; [by exists h|done]|by apply template_published|by apply endpoints_safe..]. }
    split_and!; [|eexists (_ :: evs); split; [done|by constructor]|by intros ? [= <-]]. split; [|done]. cbn. by intros ? ? [= <- <-].
  - rewrite then_perform. cbn [fst snd]. destruct (List.nth _ _ _) as [name why]. cbn. split_and!; [done|eexists (_ :: evs); split; [done|by constructor]|done].
Qed.
Lemma discover_locked_answers s h : well_cached s → let o := discover_locked world cfg json_document (s, h) in
  well_cached o.2.1 ∧ (∃ evs, o.2.2 = (evs ++ h)%list ∧ asks (well_known cfg) evs) ∧ ∀ d, o.1 = inr d → published d.
Proof.
  intros Hs. cbv zeta. unfold discover_locked. rewrite then_get. cbn [fst snd]. destruct (p_doc s) as [[d at_]|] eqn:Ed; [|by apply fetch_answers].
  rewrite then_perform. cbn [fst snd]. set (e := mk_happened PNow _). destruct (Sub _ at_ <? cacheFor).
  - cbn. split_and!; [done|exists [e]; split; [done|by repeat constructor]|]. intros ? [= <-]. by apply (proj1 Hs d at_).
  - destruct (fetch_answers s (e :: h) Hs) as (H1 & (evs & E & Hevs) & H3). split_and!; [done| |done]. exists (evs ++ [e])%list. rewrite <- app_assoc. split; [exact E|]. apply Forall_app. split; [done|by repeat constructor].
Qed.
(** The keys under the mutex: fetched just now, or not an hour ago. *)
Lemma keys_locked_answers d id s h : published d → well_cached s → let o := keys_locked world on_curve json_jwks d id (s, h) in
  well_cached o.2.1 ∧ (∃ evs, o.2.2 = (evs ++ h)%list ∧ asks (dc_JWKSURI (ds d)) evs ∧
    ∀ keys, o.1 = inr keys → ∃ t now, keyring keys t ∧ mk_happened PNow now ∈ evs ∧ now - t < hour).
Proof.
  intros Hp Hs. cbv zeta. unfold keys_locked. rewrite then_perform, then_get. cbn [fst snd]. set (now := world h PNow). set (e := mk_happened PNow now : event).
  set (cached := match p_keys s with Some _ => _ | None => _ end). assert (∀ keys, cached = Some keys → ∃ t, keyring keys t ∧ now - t < hour) as Hcached.
  { intros keys Ec. unfold cached in Ec. destruct (p_keys s) as [[ks at_]|] eqn:Ek; [|done]. destruct (Z.ltb_spec (Sub now at_) cacheFor); [|done]. cbn [andb] in Ec. destruct (_ || _); [|done]. injection Ec as <-.
    exists at_. split; [by apply (proj2 Hs)|]. unfold Sub, cacheFor, hour, minute, second, maxDuration, minDuration in *. lia. }
  destruct cached as [keys|].
  - cbn. split; [done|]. exists [e]. split_and!; [done|by repeat constructor|]. intros ? [= <-]. destruct (Hcached keys eq_refl) as (t & H1 & H2). exists t, now. split_and!; [done|by left|done].
  - rewrite then_set. cbn [fst snd]. rewrite then_eq. pose proof (getJSON_answers json_jwks (dc_JWKSURI (ds d)) (set_refetched now s) (e :: h)) as (E1 & E2 & E3). destruct (getJSON _ _ _ _) as [r [s1 h1]]. cbn [fst snd] in *. subst s1.
    assert (∃ evs, h1 = (evs ++ h)%list ∧ asks (dc_JWKSURI (ds d)) evs ∧ e ∈ evs) as (evs & -> & Hevs & He).
    { destruct E2 as [->| ->]; [exists [e]|exists [mk_happened (PGet (dc_JWKSURI (ds d))) (world (e :: h) (PGet (dc_JWKSURI (ds d)))); e]]; (split_and!; [done|by repeat constructor|by repeat (left || right)]). }
    destruct r as [er|set]; [cbn; split; [done|]; exists evs; by split_and!|]. destruct (E3 set eq_refl) as (body & Hw & Hj). rewrite then_set. cbn [fst snd pok mret].
    assert (keyring (omap (usable_key on_curve) set) now) as Hk by (exists d, body, set; split_and!; [done|exists (e :: h); split; [done|exact Hw]|done|done]).
    split; [split; [by apply (proj1 Hs)|cbn; by intros ? ? [= <- <-]]|]. exists evs. split_and!; [done..|]. intros ? [= <-]. exists now, now. split_and!; [done|done|]. unfold hour, minute, second. lia.
Qed.

(** What the goroutines that use the provider can have made of its cache. *)
Inductive reach : pstate → Prop :=
  | reach_start : reach (mk_pstate None None zero_time)
  | reach_discover s h : reach s → reach (discover_locked world cfg json_document (s, h)).2.1
  | reach_keys s0 h0 d id s h : reach s0 → (discover_locked world cfg json_document (s0, h0)).1 = inr d → reach s → reach (keys_locked world on_curve json_jwks d id (s, h)).2.1.
Lemma reach_cached s : reach s → well_cached s.
Proof.
  induction 1 as [|s h _ IH|s0 h0 d id s h _ IH0 Ed _ IH]; [done|by apply discover_locked_answers|]. apply keys_locked_answers; [|done]. by apply (discover_locked_answers s0 h0).
Qed.
End Cache.

(** ** Operations under way *)

Section Beliefs.
Context (world : trace → ∀ c, panswer c) (cfg : Config) (Sum256 : string → string) (VerifyPKCS1v15 : Z → Z → string → string → bool) (VerifyES256 : string → string → string → Z → Z → bool) (on_curve : string → string → bool)
  (json_document : string → option document) (json_jwks : string → option (list jwk)) (json_answer : string → tokenResponse) (json_header : string → option (string * string)) (json_token : string → option claims_of_token)
  (json_object : string → option (gmap string string)) (json_string : string → option string) (json_strings json_list : string → option (list string)) (overflowed : float64 → Z).
Local Abbreviation reach := (reach world cfg on_curve json_document json_jwks).
Local Abbreviation published := (published world cfg json_document).
Local Abbreviation keyring := (keyring world cfg on_curve json_document json_jwks).
(** Others leave the cache as the operations of this file leave it. *)
Hypothesis others : ∀ h s, reach s → reach (world h PLock s).

Definition post (e : event) : option (string * list (string * string) * option (string * string)) :=
  match what e with PPost url form basic => Some (url, form, basic) | _ => None end.
(** What may be asked at all. *)
Definition fetches (e : event) : Prop :=
  match what e with PGet url => url = well_known cfg ∨ ∃ d, published d ∧ url = dc_JWKSURI (ds d) | _ => True end.
(** From a cache that can be, to one that can be; and what was asked. *)
Definition runs {A} (m : PM A) (Q : A → trace → Prop) : Prop :=
  ∀ s, reach s.1 → reach (m s).2.1 ∧ ∃ evs, (m s).2.2 = (evs ++ s.2)%list ∧ Forall fetches evs ∧ Q (m s).1 evs.
Lemma runs_ret {A} (a : A) (Q : A → trace → Prop) : Q a [] → runs (mret a) Q.
Proof. intros H s Hs. split; [done|]. exists []. by split_and!. Qed.
Lemma runs_perform c (Q : panswer c → trace → Prop) : (∀ a, fetches (mk_happened c a) ∧ Q a [mk_happened c a]) → runs (Effects.perform world c) Q.
Proof. intros H s Hs. split; [done|]. eexists [_]. split; [done|]. split; [|apply H]. constructor; [apply H|done]. Qed.
Lemma runs_then {A B} (m : PM A) (k : A → PM B) P (Q : B → trace → Prop) : runs m P → (∀ a ev1, P a ev1 → runs (k a) (λ b ev2, Q b (ev2 ++ ev1)%list)) → runs (mthen m k) Q.
Proof.
  intros Hm Hk s Hs. rewrite then_eq. destruct (Hm s Hs) as (H1 & ev1 & E1 & F1 & P1). destruct (m s) as [a [s1 h1]]. cbn [fst snd] in *. subst h1.
  destruct (Hk a ev1 P1 (s1, ev1 ++ s.2)%list H1) as (H2 & ev2 & E2 & F2 & Q2). split; [done|]. exists (ev2 ++ ev1)%list. cbn [fst snd] in *. rewrite E2, app_assoc. split_and!; [done|by apply Forall_app|done].
Qed.
Lemma runs_ptry {A B} (m : PM (Error + A)) (k : A → PM (Error + B)) P (Q : Error + B → trace → Prop) :
  runs m P → (∀ e ev, P (inl e) ev → Q (inl e) ev) → (∀ a ev1, P (inr a) ev1 → runs (k a) (λ b ev2, Q b (ev2 ++ ev1)%list)) → runs (ptry m k) Q.
Proof. intros Hm He Hk. eapply runs_then; [exact Hm|]. intros [e|a] ev1 H; [apply runs_ret, He, H|by apply Hk]. Qed.
Lemma runs_weaken {A} (m : PM A) (P Q : A → trace → Prop) : runs m P → (∀ a evs, P a evs → Q a evs) → runs m Q.
Proof. intros Hm HQ s Hs. destruct (Hm s Hs) as (H1 & evs & E & F & H). split; [done|]. exists evs. by split_and!; [| |apply HQ]. Qed.
Lemma asks_fetches url evs : asks url evs → url = well_known cfg ∨ (∃ d, published d ∧ url = dc_JWKSURI (ds d)) → Forall fetches evs ∧ omap post evs = [].
Proof.
  intros H Hu. induction H as [|[c a] evs Hc _ [IH1 IH2]]; [done|]. split; [constructor; [|done]|]; unfold fetches, post; cbn in *; destruct c; cbn in *; try done. by subst.
Qed.

Lemma discover_runs : runs (discover world cfg json_document) (λ r evs, omap post evs = [] ∧ ∀ d, r = inr d → published d).
Proof.
  intros [s h] Hs. unfold discover, locked. rewrite then_perform, then_set. cbn [fst snd]. pose proof (others h s Hs) as Ho. set (e := mk_happened PLock _ : event).
  destruct (discover_locked_answers world cfg on_curve json_document json_jwks _ (e :: h) (reach_cached world cfg on_curve json_document json_jwks _ Ho)) as (_ & (evs & E & Ha) & Hd). split; [by apply reach_discover|].
  destruct (asks_fetches _ _ Ha (or_introl eq_refl)) as [F1 F2]. exists (evs ++ [e])%list. rewrite <- app_assoc. split_and!; [exact E|apply Forall_app; split; [done|by repeat constructor]|by rewrite omap_app, F2|exact Hd].
Qed.
Lemma keysFor_runs id : runs (keysFor world cfg on_curve json_document json_jwks id) (λ r evs, omap post evs = [] ∧
  ∀ keys, r = inr keys → ∃ t now, keyring keys t ∧ mk_happened PNow now ∈ evs ∧ now - t < hour).
Proof.
  intros [s h] Hs. unfold keysFor, ptry. rewrite then_eq. destruct (discover_runs (s, h) Hs) as (H1 & ev1 & E1 & F1 & P1 & Hd).
  assert (∀ d, (discover world cfg json_document (s, h)).1 = inr d → published d ∧ (discover_locked world cfg json_document (world h PLock s, mk_happened PLock (world h PLock) :: h)).1 = inr d) as Hdoc by (intros d E; split; [by apply Hd|exact E]).
  destruct (discover _ _ _ _) as [r [s1 h1]]. cbn [fst snd] in *. subst h1. destruct r as [e|d]; [split; [done|]; exists ev1; by split_and!|].
  destruct (Hdoc d eq_refl) as [Hp Ed]. unfold locked. rewrite then_perform, then_set. cbn [fst snd]. set (e := mk_happened PLock _ : event). pose proof (others (ev1 ++ h)%list s1 H1) as Ho.
  destruct (keys_locked_answers world cfg on_curve json_document json_jwks d id _ (e :: ev1 ++ h) Hp (reach_cached world cfg on_curve json_document json_jwks _ Ho)) as (_ & evs & E & Ha & Hk).
  split; [exact (reach_keys _ _ _ _ _ _ _ d id _ _ (others h s Hs) Ed Ho)|]. destruct (asks_fetches _ _ Ha (or_intror (ex_intro _ d (conj Hp eq_refl)))) as [F2 P2].
  exists (evs ++ e :: ev1)%list. rewrite <- app_assoc. split_and!; [exact E|apply Forall_app; split; [done|by constructor]|by rewrite omap_app, P2|].
  intros keys Er. destruct (Hk keys Er) as (t & now & H2 & H3 & H4). exists t, now. split_and!; [done|apply elem_of_app; by left|done].
Qed.

(** ** Tokens *)

(** One of the provider's keys made the signature, in the way the key is for. *)
Definition signs (k : key) (alg digest signature : string) : Prop :=
  match k_public k with
  | RSA n e => alg = "RS256" ∧ VerifyPKCS1v15 n e digest signature = true
  | EC x y => alg = "ES256" ∧ slen signature = 64 ∧ VerifyES256 x y digest (SetBytes 0 (String.substring 0 32 signature)) (SetBytes 0 (String.substring 32 32 signature)) = true
  end.
(** Keys worth a signature: long enough, or on the curve. *)
Definition strong (k : key) : Prop :=
  match k_public k with RSA n e => 2 ^ 2047 ≤ n ∧ 3 ≤ e < 2 ^ 31 | EC x y => on_curve x y = true end.
Lemma keyring_strong keys t k : keyring keys t → k ∈ keys → strong k.
Proof.
  intros (d & body & set & _ & _ & _ & ->) (j & _ & E)%list_elem_of_omap. unfold usable_key in E. destruct (_ && _); [done|]. destruct (String.eqb _ "RSA").
  - destruct (decodeInt (jk_N j)) as [n|]; [|done]. destruct (decodeInt (jk_E j)) as [e|]; [|done]. cbn in E. destruct (_ || _) eqn:Eb; [done|]. injection E as <-. bools. unfold strong. cbn.
    repeat match goal with H : (_ <? _) = false |- _ => apply Z.ltb_ge in H end. split; [|lia]. unfold BitLen, minRSABits in *. destruct (Z.eqb_spec n 0); [lia|].
    destruct (Z.le_gt_cases n 0); [rewrite (Z.log2_nonpos n) in * by lia; lia|]. apply Z.log2_le_pow2; lia.
  - destruct (_ && _); [|done]. destruct (RawDecodeString (jk_X j)) as [x|]; [|done]. destruct (RawDecodeString (jk_Y j)) as [y|]; [|done]. cbn in E. destruct (_ || _) eqn:Eb; [done|]. injection E as <-. bools. by unfold strong.
Qed.
Lemma signedBy_finds keys alg id digest signature k : signedBy VerifyPKCS1v15 VerifyES256 keys alg id digest signature = Some k →
  k ∈ keys ∧ (id ≠ "" → k_id k = id) ∧ signs k alg digest signature.
Proof.
  induction keys as [|k' keys IH]; [done|]. cbn [signedBy]. destruct (String.eqb_spec id "") as [Eid|Eid], (String.eqb_spec (k_id k') id) as [Ek|Ek]; cbn [negb andb].
  all: try (destruct (made_by _ _ k' alg digest signature) eqn:E; [intros [= <-]; split_and!; [by left|done|]; clear IH; unfold made_by in E; unfold signs; destruct (k_public k'); bools; split_and!; by (apply String.eqb_eq || apply Z.eqb_eq || idtac)|]).
  all: intros H; destruct (IH H) as (H1 & H2 & H3); split_and!; [by right|done|done].
Qed.

(** Where the token says it comes from is where the document says tokens come
    from: the configured issuer, or the tenant the token names. *)
Definition from_issuer (d : discovery) (token : idToken) (k : key) : Prop :=
  (template d = "" ∧ t_Issuer token = cf_Issuer cfg ∨ template d ≠ "" ∧ ValidTenant (t_Tenant token) = true ∧ t_Issuer token = replace_first tenantPlaceholder (t_Tenant token) (template d)) ∧
  (k_issuer k ≠ "" → t_Issuer token = replace_first tenantPlaceholder (t_Tenant token) (k_issuer k)).
(** The token is for this client alone, and for now. *)
Definition for_this_client (token : idToken) : Prop :=
  cf_ClientID cfg ∈ t_Audience token ∧ (t_Party token = cf_ClientID cfg ∨ t_Party token = "" ∧ t_Audience token = [cf_ClientID cfg]).
Definition timely (token : idToken) (now : Time) : Prop :=
  ∃ exp iat, t_Expires token = Some exp ∧ t_IssuedAt token = Some iat ∧ now < unix overflowed exp + minute ∧ unix overflowed iat - minute ≤ now ≤ unix overflowed iat + 11 * minute ∧
    ∀ nbf, t_NotBefore token = Some nbf → unix overflowed nbf - minute ≤ now.
Lemma refusal_none d token k now : refusal cfg overflowed d token (k_issuer k) now = None → from_issuer d token k ∧ for_this_client token ∧ timely token now ∧ t_Subject token ≠ "".
Proof.
  unfold refusal. destruct (issuedBy _ _ _ _ _) eqn:Ei; [|done]. cbn [negb]. destruct (contains (t_Audience token) _) eqn:Ea; [|done]. cbn [negb]. destruct (_ || _) eqn:Ep; [done|].
  destruct (t_Expires token) as [exp|] eqn:Ee; [|done]. destruct (Z.ltb_spec now (Add (unix overflowed exp) clockSkew)) as [Hexp|]; [|done]. cbn [negb].
  destruct (t_IssuedAt token) as [iat|] eqn:Et; [|done]. destruct (Z.ltb_spec (now + clockSkew) (unix overflowed iat)); [done|]. destruct (Z.ltb_spec (maxAge + clockSkew) (Sub now (unix overflowed iat))) as [|Hage]; [done|].
  destruct (match t_NotBefore token with None => _ | Some _ => _ end) eqn:En; [done|]. destruct (String.eqb_spec (t_Subject token) ""); [done|]. intros _. split_and!; [| | |done].
  - unfold issuedBy in Ei. unfold from_issuer. destruct (String.eqb_spec (template d) "") as [E|E]; cbn [negb andb] in Ei.
    + destruct (String.eqb_spec (k_issuer k) ""); cbn [negb andb] in Ei; [apply String.eqb_eq in Ei; split; [by left|done]|]. destruct (String.eqb_spec (replace_first tenantPlaceholder (t_Tenant token) (k_issuer k)) (t_Issuer token)) as [<-|]; [|done]. apply String.eqb_eq in Ei. split; [by left|done].
    + destruct (ValidTenant (t_Tenant token)) eqn:Ev; [|done]. cbn [negb] in Ei.
      destruct (String.eqb_spec (k_issuer k) ""); cbn [negb andb] in Ei; [apply String.eqb_eq in Ei; split; [by right|done]|]. destruct (String.eqb_spec (replace_first tenantPlaceholder (t_Tenant token) (k_issuer k)) (t_Issuer token)) as [<-|]; [|done]. apply String.eqb_eq in Ei. split; [by right|done].
  - apply contains_spec in Ea. split; [done|]. apply orb_false_iff in Ep as [Ep1 Ep2]. destruct (String.eqb_spec (t_Party token) "") as [Ep|Ep]; cbn [negb andb] in *.
    + right. split; [done|]. rewrite andb_true_r in Ep1. apply Z.ltb_ge in Ep1. destruct (t_Audience token) as [|a [|b l]]; [by apply elem_of_nil in Ea|by apply list_elem_of_singleton in Ea as ->|cbn in Ep1; lia].
    + left. apply negb_false_iff, String.eqb_eq in Ep2. done.
  - exists exp, iat. unfold Add, Sub, maxAge, clockSkew, maxDuration, minDuration in *. split_and!; [done|done|lia|lia|unfold minute, second in *; lia|]. intros nbf Hn. rewrite Hn in En. apply Z.ltb_ge in En. lia.
Qed.

(** All that stands behind the claims of a person. *)
Definition vouched (raw nonce : string) (claims : Claims) (evs : trace) : Prop :=
  ∃ header payload sig alg kid signature k keys t fetched d token now,
    raw = join "." [header; payload; sig] ∧ decodeSegment json_header header = Some (alg, kid) ∧ RawDecodeString sig = Some signature ∧
    keyring keys t ∧ mk_happened PNow fetched ∈ evs ∧ fetched - t < hour ∧ k ∈ keys ∧ (kid ≠ "" → k_id k = kid) ∧ strong k ∧ signs k alg (Sum256 (header ++ "." ++ payload)) signature ∧
    decodeSegment (read_token json_token json_string json_strings) payload = Some token ∧ published d ∧ from_issuer d token k ∧ for_this_client token ∧ mk_happened PNow now ∈ evs ∧ timely token now ∧
    nonce ≠ "" ∧ t_Nonce token = nonce ∧ TenantAllowed cfg (t_Tenant token) = true ∧ t_Subject token ≠ "" ∧
    claims = claims_of cfg json_object json_string json_list payload token.
Local Abbreviation Verify := (Verify world cfg Sum256 VerifyPKCS1v15 VerifyES256 on_curve json_document json_jwks json_header json_token json_object json_string json_strings json_list overflowed).

Lemma runs_fail {A} kind why (Q : Error + A → trace → Prop) : (∀ e, Q (inl e) []) → runs (pfail kind why) Q.
Proof. intros H. apply runs_ret, H. Qed.
Lemma judge_runs payload k nonce : runs (judge world cfg json_document json_token json_object json_string json_strings json_list overflowed payload k nonce) (λ r evs, omap post evs = [] ∧ ∀ claims, r = inr claims →
  ∃ token d now, decodeSegment (read_token json_token json_string json_strings) payload = Some token ∧ published d ∧ from_issuer d token k ∧ for_this_client token ∧ mk_happened PNow now ∈ evs ∧ timely token now ∧
    nonce ≠ "" ∧ t_Nonce token = nonce ∧ TenantAllowed cfg (t_Tenant token) = true ∧ t_Subject token ≠ "" ∧ claims = claims_of cfg json_object json_string json_list payload token).
Proof.
  unfold judge. destruct (decodeSegment _ payload) as [token|]; [|by apply runs_fail]. eapply runs_ptry; [apply discover_runs|intros e ev [H _]; by split|]. intros d ev1 [H1 Hd]. specialize (Hd d eq_refl).
  eapply runs_then; [apply (runs_perform PNow (λ now evs, evs = [mk_happened PNow now])); by split|]. intros now ev2 ->. destruct (refusal _ _ _ _ _ _) eqn:Er; [by apply runs_fail|]. apply refusal_none in Er as (H2 & H3 & H4 & H5).
  destruct (_ || _) eqn:En; [by apply runs_fail|]. destruct (TenantAllowed _ _) eqn:Et; cbn [negb]; [|by apply runs_fail]. apply orb_false_iff in En as [En1%String.eqb_neq En2%negb_false_iff%String.eqb_eq].
  apply runs_ret. cbn [app]. split; [done|]. intros claims [= <-]. exists token, d, now. split_and!; try done. by left.
Qed.
Lemma Verify_runs raw nonce : runs (Verify raw nonce) (λ r evs, omap post evs = [] ∧ ∀ claims, r = inr claims → slen raw ≤ 65536 ∧ vouched raw nonce claims evs).
Proof.
  unfold Oidc.Verify. destruct (split "." raw) as [|header [|payload [|sig [|? ?]]]] eqn:Es; try by apply runs_fail. destruct (Z.ltb_spec maxIDToken (slen raw)); [by apply runs_fail|].
  destruct (decodeSegment json_header header) as [[alg kid]|] eqn:Eh; [|by apply runs_fail]. destruct (_ && _); [by apply runs_fail|]. destruct (RawDecodeString sig) as [signature|] eqn:Esig; [|by apply runs_fail].
  eapply runs_ptry; [apply keysFor_runs|intros e ev [H1 _]; by split|]. intros keys ev1 [H1 Hk]. destruct (Hk keys eq_refl) as (t & fetched & K1 & K2 & K3).
  destruct (signedBy _ _ _ _ _ _ _) as [k|] eqn:Esb; [|apply runs_fail; by split]. apply signedBy_finds in Esb as (S1 & S2 & S3).
  eapply runs_weaken; [apply judge_runs|]. intros r ev2 [H2 Hj]. split; [by rewrite omap_app, H1, H2|]. intros claims Er. split; [done|].
  destruct (Hj claims Er) as (token & d & now & J1 & J2 & J3 & J4 & J5 & J6 & J7 & J8 & J9 & J10 & ->). exists header, payload, sig, alg, kid, signature, k, keys, t, fetched, d, token, now.
  split_and!; try done; try (apply elem_of_app; auto). - rewrite <- Es. symmetry. exact (split_join "."%char raw). - by eapply keyring_strong.
Qed.

(** ** The client secret *)

(** The code is redeemed with its verifier, and the secret is said once: in the
    header, or in the form where the provider says it wants it there. *)
Definition redeems (code verifier : string) (d : discovery) (p : string * list (string * string) * option (string * string)) : Prop :=
  let form := [("grant_type", "authorization_code"); ("code", code); ("redirect_uri", cf_RedirectURL cfg); ("code_verifier", verifier)] in
  p = (dc_TokenEndpoint (ds d), form, Some (cf_ClientID cfg, cf_ClientSecret cfg)) ∨
  p = (dc_TokenEndpoint (ds d), (form ++ [("client_id", cf_ClientID cfg); ("client_secret", cf_ClientSecret cfg)])%list, None) ∧ "client_secret_post" ∈ dc_TokenAuthMethods (ds d) ∧ "client_secret_basic" ∉ dc_TokenAuthMethods (ds d).
Definition exchanges (code verifier : string) (r : Error + string) (evs : trace) : Prop :=
  omap post evs = [] ∧ (∃ e, r = inl e) ∨
  ∃ d p, published d ∧ safe_address (dc_TokenEndpoint (ds d)) ∧ redeems code verifier d p ∧ omap post evs = [p] ∧
    ∀ idtoken, r = inr idtoken → idtoken ≠ "" ∧ ∃ body, idtoken = tr_IDToken (json_answer (String.substring 0 (Z.to_nat maxResponse) body)) ∧ (mk_happened (PPost p.1.1 p.1.2 p.2) (Replied 200 (inr body)) : event) ∈ evs.
Lemma inForm_spec d : inForm d = true → "client_secret_post" ∈ dc_TokenAuthMethods d ∧ "client_secret_basic" ∉ dc_TokenAuthMethods d.
Proof. unfold inForm. intros H. bools. split; [by apply contains_spec|]. intros Hin%contains_spec. congruence. Qed.
Lemma Exchange_runs code verifier : runs (Exchange world cfg json_document json_answer code verifier) (exchanges code verifier).
Proof.
  unfold Exchange. eapply runs_ptry; [apply discover_runs|intros e ev [H _]; left; split; [done|by eexists]|]. intros d ev1 [H1 Hd]. specialize (Hd d eq_refl). pose proof Hd as (_ & _ & _ & Hs & _).
  destruct (negb _); [apply runs_fail; intros e; left; split; [done|by eexists]|].
  set (form := if inForm (ds d) then _ else _). set (basic := if inForm (ds d) then _ else _). assert (redeems code verifier d (dc_TokenEndpoint (ds d), form, basic)) as Hr.
  { unfold form, basic, redeems. destruct (inForm (ds d)) eqn:E; [right; split; [done|by apply inForm_spec]|by left]. }
  eapply runs_then; [apply (runs_perform (PPost (dc_TokenEndpoint (ds d)) form basic) (λ a evs, evs = [mk_happened (PPost (dc_TokenEndpoint (ds d)) form basic) a])); by split|]. intros a ev2 ->.
  assert (∀ r : Error + string, (∀ t, r = inr t → t ≠ "" ∧ ∃ body, t = tr_IDToken (json_answer (String.substring 0 (Z.to_nat maxResponse) body)) ∧ a = Replied 200 (inr body)) →
    exchanges code verifier r ([] ++ [mk_happened (PPost (dc_TokenEndpoint (ds d)) form basic) a] ++ ev1)%list) as Hend.
  { intros r Hr'. right. exists d, (dc_TokenEndpoint (ds d), form, basic). split_and!; [done|done|done|cbn; by rewrite H1|]. intros t E. destruct (Hr' t E) as (Ht & body & -> & ->). split; [done|]. exists body. split; [done|]. by left. }
  destruct a as [e|status [e|body]]; try (by apply runs_ret, Hend). destruct (Z.eqb_spec status 200) as [->|]; cbn [andb].
  - destruct (String.eqb_spec (tr_IDToken (json_answer (String.substring 0 (Z.to_nat maxResponse) body))) "") as [|Hne]; cbn [negb]; apply runs_ret, Hend; [done|]. intros t [= <-]. split; [done|]. by exists body.
  - repeat case_match; by apply runs_ret, Hend.
Qed.
End Beliefs.

(** ** What is promised *)

(** C34: an ID token is believed only if it comes from the provider, whatever
    other sign-ins do to the cache meanwhile: one of the keys the provider
    published less than an hour before they were asked for made its signature,
    the one the token names if it names one, with the algorithm the key is for
    and a key worth the name; the document that says who issues was found where
    the configured issuer's is; the token was issued there, for this client
    alone, is within its time and no older than eleven minutes, answers this very
    sign-in, and belongs to a tenant that may sign in; and what is said of the
    person is what stands in it.  Nothing is sent anywhere but for the documents
    of the provider. *)
Theorem claims_vouched (world : trace → ∀ c, panswer c) cfg Sum256 VerifyPKCS1v15 VerifyES256 on_curve json_document json_jwks json_header json_token json_object json_string json_strings json_list overflowed
  (raw nonce : string) (s : pstate) (h : trace) (claims : Claims) :
  (∀ h s, reach world cfg on_curve json_document json_jwks s → reach world cfg on_curve json_document json_jwks (world h PLock s)) →
  reach world cfg on_curve json_document json_jwks s →
  (Verify world cfg Sum256 VerifyPKCS1v15 VerifyES256 on_curve json_document json_jwks json_header json_token json_object json_string json_strings json_list overflowed raw nonce (s, h)).1 = inr claims →
  ∃ evs, (Verify world cfg Sum256 VerifyPKCS1v15 VerifyES256 on_curve json_document json_jwks json_header json_token json_object json_string json_strings json_list overflowed raw nonce (s, h)).2.2 = (evs ++ h)%list ∧
    slen raw ≤ 64 * 1024 ∧ Forall (fetches world cfg json_document) evs ∧ omap post evs = [] ∧
    vouched world cfg Sum256 VerifyPKCS1v15 VerifyES256 on_curve json_document json_jwks json_header json_token json_object json_string json_strings json_list overflowed raw nonce claims evs.
Proof.
  intros Ho Hs E. destruct (Verify_runs world cfg Sum256 VerifyPKCS1v15 VerifyES256 on_curve json_document json_jwks json_header json_token json_object json_string json_strings json_list overflowed Ho raw nonce (s, h) Hs) as (_ & evs & H1 & H2 & H3 & H4).
  exists evs. destruct (H4 claims E) as [H5 H6]. by split_and!.
Qed.

(** C35: the client secret leaves the agent in one way: to the token endpoint of
    a document of the provider, which is an https address or one in the
    machine's own network, at most once, together with a code and its verifier,
    and in one place of the request.  Anything else an exchange sends asks for
    the provider's documents; and an ID token that comes of it was the
    provider's answer to that request. *)
Theorem secret_stays (world : trace → ∀ c, panswer c) cfg on_curve json_document json_jwks json_answer (code verifier : string) (s : pstate) (h : trace) :
  (∀ h s, reach world cfg on_curve json_document json_jwks s → reach world cfg on_curve json_document json_jwks (world h PLock s)) →
  reach world cfg on_curve json_document json_jwks s →
  let o := Exchange world cfg json_document json_answer code verifier (s, h) in
  ∃ evs, o.2.2 = (evs ++ h)%list ∧ Forall (fetches world cfg json_document) evs ∧ exchanges world cfg json_document json_answer code verifier o.1 evs.
Proof. intros Ho Hs. cbv zeta. destruct (Exchange_runs world cfg on_curve json_document json_jwks json_answer Ho code verifier (s, h) Hs) as (_ & evs & H1 & H2 & H3). by exists evs. Qed.

(** ** A sign-in *)

Definition a_config : Config := mk_config "https://id.example.com" "shipwick" "hush" ["openid"] "groups" "" [] "https://d/auth/callback".
Definition long_n : string := string_of_list_ascii (replicate 342 "_"%char).
Definition a_document : document := mk_document "https://id.example.com" "https://id.example.com/authorize" "https://id.example.com/token" "https://id.example.com/keys" [].
Definition a_token : claims_of_token :=
  let seconds n := Some (false, mk_float n 0) in
  mk_raw "https://id.example.com" "ada" (Some "aud") "" (seconds 4000) (seconds 1000) None "n0nce" "ada@example.com" None "".
(** The clock says 1005 seconds; others leave the cache alone. *)
Definition a_provider : trace → ∀ c, panswer c := λ _ c,
  match c return panswer c with
  | PNow => 1005 * second
  | PLock => λ s, s
  | PAnyOf _ => 0%nat
  | PGet url => Replied 200 (inr (if String.eqb url "https://id.example.com/keys" then "keys" else "document"))
  | PPost _ _ _ => Replied 200 (inr "answer")
  end.
Definition reads_document (body : string) : option document := if String.eqb body "document" then Some a_document else None.
Definition reads_keys (body : string) : option (list jwk) := Some [mk_jwk "RSA" "k1" "sig" long_n "AQAB" "" "" "" ""].
Definition a_start : pstate := mk_pstate None None zero_time.
(** "head.body.sign", each part in base64. *)
Definition a_raw : string := "aGVhZA.Ym9keQ.c2lnbg".
Definition judged (nonce : string) :=
  Verify a_provider a_config (λ s, s) (λ n e digest signature, String.eqb digest "aGVhZA.Ym9keQ" && String.eqb signature "sign") (λ _ _ _ _ _, false) (λ _ _, false) reads_document reads_keys
    (λ s, if String.eqb s "head" then Some ("RS256", "k1") else None) (λ s, if String.eqb s "body" then Some a_token else None) (λ _, None) (λ s, if String.eqb s "aud" then Some "shipwick" else None) (λ _, None) (λ _, None) (λ _, 0)
    a_raw nonce (a_start, []).
Example other_sign_in : match (judged "0ther").1 with inl e => er_Kind e = NonceMismatch | inr _ => False end.
Proof. vm_compute. reflexivity. Qed.

Lemma claims_vouched_witness : ∃ claims evs keys t, (judged "n0nce").1 = inr claims ∧ cl_Name claims = "ada@example.com" ∧ (judged "n0nce").2.2 = (evs ++ [])%list ∧
  keyring a_provider a_config (λ _ _, false) reads_document reads_keys keys t ∧ 1005 * second - t < hour.
Proof.
  destruct (judged "n0nce").1 as [e|claims] eqn:E; [assert (match (judged "n0nce").1 with inl _ => False | inr _ => True end) as H by (vm_compute; exact I); rewrite E in H; destruct H|].
  assert (match (judged "n0nce").1 with inl _ => False | inr c => cl_Name c = "ada@example.com" end) as Hn by (vm_compute; reflexivity). rewrite E in Hn.
  destruct (claims_vouched a_provider a_config _ _ _ (λ _ _, false) reads_document reads_keys _ _ _ _ _ _ _ a_raw "n0nce" a_start [] claims (λ h s H, H) (reach_start _ _ _ _ _) E)
    as (evs & Ee & _ & _ & _ & (header & payload & sig & alg & kid & signature & k & keys & t & fetched & d & token & now & _ & _ & _ & Hk & Hf & Hage & _)).
  exists claims, evs, keys, t. split_and!; [reflexivity|exact Hn|exact Ee|exact Hk|].
  assert (Forall (λ e : event, match e with mk_happened PNow t => t = 1005 * second | _ => True end) (judged "n0nce").2.2) as Hall by (vm_compute; repeat constructor).
  pose proof (eq_ind _ (Forall _) Hall _ Ee) as Hall'. rewrite app_nil_r in Hall'. rewrite Forall_forall in Hall'. specialize (Hall' _ Hf). cbn in Hall'. rewrite <- Hall'. exact Hage.
Defined.

Definition redeemed := Exchange a_provider a_config reads_document (λ body, mk_response (if String.eqb body "answer" then a_raw else "") "" "") "c0de" "verifier" (a_start, []).
Lemma secret_stays_witness : redeemed.1 = inr a_raw ∧ ∃ evs d, redeemed.2.2 = (evs ++ [])%list ∧ published a_provider a_config reads_document d ∧ dc_TokenEndpoint (ds d) = "https://id.example.com/token".
Proof.
  assert (redeemed.1 = inr a_raw) as E by (vm_compute; reflexivity). split; [exact E|].
  destruct (secret_stays a_provider a_config (λ _ _, false) reads_document reads_keys (λ body, mk_response (if String.eqb body "answer" then a_raw else "") "" "") "c0de" "verifier" a_start [] (λ h s H, H) (reach_start _ _ _ _ _)) as (evs & Ee & _ & [(_ & e & Er)|(d & p & Hd & _ & _ & Hp & _)]).
  - change (redeemed.1 = inl e) in Er. rewrite E in Er. discriminate Er.
  - exists evs, d. split_and!; [exact Ee|exact Hd|]. pose proof Hd as ((t & body & (hh & _ & Hb) & Hj) & _). cbn in Hb. injection Hb as <-. unfold reads_document in Hj. destruct (String.eqb _ "document"); [|discriminate Hj]. injection Hj as <-. reflexivity.
Defined.
